(* ===== verification/_CoqProject ===== *)
-Q . S2P
Prelude.v
Voting.v
Subtransaction.v
Quorum.v
Transaction.v
TxSystem.v
Datastore.v
MemoryQueue.v
PConfig.v
Router.v
Methods.v
Sql.v
PgQueue.v
RepoStore.v
Health.v
Elections.v
Assignments.v
Reconciler.v
Replicator.v
Coordinator.v
Replication.v
GoStrings.v
Locator.v
Alternates.v
Regex.v
HooksPayload.v
GitCommand.v
GitVersion.v
DiffParser.v
Limiter.v
Pktline.v
ErrorTracker.v
NodeManager.v
StorageCache.v
SqlElector.v
Effects.v
Hooks.v
UpdateRef.v
RefVotes.v
Threads.v
SafeFile.v
Operations.v
Pipe.v
StreamCache.v
PackObjects.v
DiskCache.v
Catfile.v
CatfileCache.v
GitObjects.v
Conflict.v
Backup.v
BackupPipeline.v
