(* ===== verification/Prelude.v ===== *)
(** * Verification of Gitaly and Praefect

    Gitaly stores Git repositories and serves them over gRPC; Praefect is the
    proxy in front of several Gitaly nodes that keeps replicas of each
    repository. This library models the part of Praefect that decides, for a
    replicated repository, which nodes serve a request, whether their changes are
    committed, which replicas are up to date afterwards, and how the others catch
    up; and of a Gitaly node, where repositories live, how git processes are
    started and their diffs read, how branches, tags and references are changed
    with hooks and votes, how files are replaced, the limiter of concurrent calls
    and the pkt-line format. All paths below are under src/internal/.

    ** How a request runs through the model

    A mutator for a repository arrives at the coordinator (praefect/coordinator.go,
    Coordinator.v and Methods.v). It asks a router (praefect/router*.go, Router.v)
    for a primary, secondaries that take part and replication targets. The router
    rests on the configuration (praefect/config, PConfig.v), on health checks and
    elections (praefect/nodes, Health.v, Elections.v, NodeManager.v,
    SqlElector.v and ErrorTracker.v), on assignments (praefect/datastore/assignment.go,
    Assignments.v) and on the repository store
    (praefect/datastore/repository_store.go, RepoStore.v). For a transactional RPC
    the coordinator registers a transaction (praefect/transactions,
    Subtransaction.v and Transaction.v), in which the nodes vote with hashes
    (transaction/voting, Voting.v). When the RPC is over, its finalizers cancel the
    transaction, judge every replica by its votes, raise the generations of the
    up-to-date ones in the store and queue replication jobs for the others, in
    memory (praefect/datastore/memory.go, MemoryQueue.v) or in PostgreSQL
    (praefect/datastore/queue.go, PgQueue.v), with the types of datastore.go in
    Datastore.v. The replication manager (praefect/replicator.go, Replicator.v)
    works the jobs off; the reconciler (praefect/reconciler, Reconciler.v) queues
    what is missing.

    On the node, the locator (gitaly/storage, gitaly/config, Locator.v) turns the
    repository of a request into a path, with alternates (git/dirs.go,
    Alternates.v); the command factory (git/command*.go, GitCommand.v) builds the
    git process, with the payload its hooks need to vote (git/hooks_payload.go,
    HooksPayload.v); diffs are parsed from its output (gitaly/diff, DiffParser.v).
    The operation service (gitaly/service/operations, Operations.v) computes the
    commit of a merge, a rebase or a set of file actions and moves the branch or
    tag through git/updateref and updateReferenceWithHooks (UpdateRef.v), which run
    the hooks of gitaly/hook (Hooks.v); the votes cast by the reference-transaction
    hook reach the transaction service of Praefect
    (praefect/service/transaction, RefVotes.v) and so the transaction manager.
    Files of a repository are replaced as a whole, with a lock and votes
    (safe, gitaly/transaction, gitaly/service/repository/fullpath.go, SafeFile.v).
    Objects are read through long-lived git-cat-file processes that sessions share
    (git/catfile, Catfile.v and CatfileCache.v); commits and tags are parsed from
    them (GitObjects.v), and conflicts of a merge are parsed and resolved by
    git/conflict (Conflict.v). Backups are made of a repository through its services and
    restored by the same (backup, Backup.v), many at a time (BackupPipeline.v).
    Reads share work through two more caches: the output of git-pack-objects, asked for
    by the hook of gitaly/service/hook/pack_objects.go (PackObjects.v), goes through
    the stream cache (streamcache, Pipe.v and StreamCache.v), in which several
    readers follow one writer; reference advertisements are kept by the disk cache
    (cache, gitaly/service/smarthttp/cache.go, DiskCache.v), whose keys change when
    an operation that may change the repository takes or returns a lease.

    ** Conventions

    - [out E A] is the result of a Go call: a value, an error, or a panic (nil
      dereference, index out of range, closing a closed channel, write to a nil
      map). Stateful code is in the state-and-error monad [M S E]; the state
      survives an error.
    - Integers are [Z]; where the width matters the wrap-around is written out
      with [u64], [u32] and [i64].
    - The order in which Go visits a map is an instance of [MapRange]: theorems
      hold for every order. In SQL, the order of rows that ORDER BY leaves open is
      an instance of [OrderBy], and rows locked by others are a parameter.
    - A SQL statement is one transition of its tables, which are finite maps from
      primary keys to rows; constraints and triggers are part of the transition.
    - Names are [string]s; paths, arguments and file contents, which the code takes
      apart, are lists of bytes ([text] converts).
    - Pointers to shared objects are addresses or indices: transactions live in a
      heap, subtransactions and nodes are indices, semaphores are addresses.
    - What is not under src/ is a parameter or a class: SHA-1, [json.Marshal], the
      clock, random numbers, the file system, the RPCs of the Gitaly nodes
      ([GitalyNodes]). Go interfaces between components are classes or records with
      their laws: [Router], [RouterServices], [ReplicationEventQueue] with
      [EventQueueLaws], [RepositoryStore], [GitalyNodes] with [GitalyLaws]. Both
      queues and the relational store are instances, for which the end-to-end
      theorems hold.

    ** Files and what they show

    - Prelude.v: results, monad, integers, bytes, map iteration, sums over maps.
    - Voting.v, Subtransaction.v: votes and one voting session.
    - Quorum.v: the session's invariant; every voter's outcome is the one of the
      abstract quorum rule (refinement), whatever the order of votes and maps.
    - Transaction.v, TxSystem.v: transactions and their manager as a step relation
      over all interleavings of votes, cancellations, stops and registrations. In
      every reachable state committed voters of a session agree and reach the
      threshold, decisions are final, earlier sessions were committed, and nothing
      panics. Registration accepts exactly the valid voter sets, up to an overflow.
    - Datastore.v, MemoryQueue.v: the queue's invariant, [Dequeue] and
      [Acknowledge].
    - Sql.v, PgQueue.v: the statements of the PostgreSQL queue under any
      interleaving of Praefects: locks and events in progress match, [Dequeue]
      hands out the oldest of each kind, [Acknowledge] and [AcknowledgeStale]
      settle exactly what they should.
    - PConfig.v: validation accepts exactly the well-formed configurations.
    - Router.v: routes reach every assigned storage once, writes go to healthy and
      consistent nodes, creation respects the replication factor.
    - RepoStore.v: the store's tables; no replica is ahead of its repository.
    - StorageCache.v: the cache in front of the store under all interleavings of
      calls, changes and notifications: no call panics or waits forever, and its
      entries agree with the store up to notifications on their way.
    - Health.v, Elections.v, Assignments.v: the consensus on healthy storages, the
      primary elected for a repository, and the replication factor.
    - Reconciler.v: the jobs a reconciliation queues are needed, complete and never
      delete the last copy of the latest generation.
    - Methods.v, Coordinator.v, Replication.v: the coordinator, the voting strategy
      it registers, and the end-to-end guarantees: after a transactional mutator
      every replica either did what the primary did or has a replication job, and
      the storages the store considers consistent agree with the primary, except for
      records left behind by an earlier repository.
    - Replicator.v: a replication job, while others change nodes and store between
      its calls, does not leave a generation lower than it found it and records one
      only after the copy; a round for a node settles its batch; the backlog
      drains; the backoff doubles up to its maximum.
    - ErrorTracker.v, NodeManager.v: error thresholds, health of a node, elections
      of the local elector, and the manager behind the router.
    - SqlElector.v: the elector that stores primaries in PostgreSQL, as statements
      interleaved by any number of Praefects: a round leaves the right primary,
      and elections of a virtual storage are apart by the failover timeout.
    - Effects.v: handlers as trees of calls to what is outside of them, their runs,
      and what holds of every run. Threads.v: such trees interleaved over a shared
      state, with a rely and a guarantee for each.
    - Hooks.v: the hook manager; a push is accepted on the primary only when GitLab
      and the custom hooks accepted it, and a failure stops the transaction.
    - UpdateRef.v: git-update-ref sessions and the updates of references with
      hooks; a reference is changed only after every hook and vote accepted it.
    - RefVotes.v: the path of a vote from the hook through the transaction service
      to the manager: nodes that commit an update agree on it.
    - SafeFile.v: the file writers under all interleavings of the handlers that use
      them: with file locking enabled, no update of a repository's configuration is
      lost, none takes effect without its vote, and nothing is left behind by a request that succeeds.
    - Operations.v: the handlers that change branches, tags and submodules. A
      branch keeps its history unless the request forces it; a merge is committed
      only after the client confirmed the very commit; paths of committed files do
      not leave the tree.
    - Pipe.v, StreamCache.v: a pipe with one writer and many readers, and the cache
      of pipes, under all interleavings: a reader receives exactly what was
      written, never waits for a writer that has finished, and entries have files
      of their own.
    - PackObjects.v: the arguments of git-pack-objects, the key of its output in the
      cache, and the side bands through which the output comes back.
    - DiskCache.v: leases, keys and the cache of advertisements under all
      interleavings of handlers and cleaners: what is served is not out of date.
    - Catfile.v: however handlers share a cat-file process, each reads the object it
      asked for. CatfileCache.v: a process is given to one request at a time, also
      when handlers outlive their request, and none is left running.
    - GitObjects.v: commits and tags are read as their objects hold them, the commit
      behind a tag is found, and new tags are read back.
    - Conflict.v: a file with conflicts is resolved to the chosen side of each.
    - Backup.v: whatever fails while backups are made, the latest that succeeded is
      restored, unless the pointer to it was torn. BackupPipeline.v: its limits hold, it ends, and it loses no command.
    - GoStrings.v, Regex.v: Go's packages strings, path/filepath and regexp as far
      as they are used, with regular expressions matched by derivatives.
    - Locator.v, Alternates.v: what a request names stays inside its storage,
      storages of a validated configuration do not overlap, and following
      alternates terminates inside the storage.
    - HooksPayload.v, GitCommand.v: the hooks' payload is read back from the
      environment; no argument of a command can be read as an option, settings have
      the documented precedence, and references are not updated without hooks.
    - GitVersion.v: the order and the parsing of git versions, object names and
      revisions.
    - DiffParser.v: the parser of diffs returns for every stream and keeps its
      limits; quoted paths are read back.
    - Limiter.v (middleware/limithandler): at most [max] calls per key, no leak, no
      panic and no deadlock under all interleavings.
    - Pktline.v (git/pktline): the scanner does not depend on how the stream is
      cut, and written packets and side bands are read back.

    Some theorems state what the code does where it falls short of its comments:
    the overflow in newTransaction, the partial effect of stop, duplicates skipped
    by the queue, stale replica records, unreported acknowledgements, wildcards in
    the names of storages, factors without a primary, thresholds reached early, a
    panic at shutdown of the error tracker, storages refused as nested, alternates
    that leave their storage and the panic without an objects directory, and, in
    the diff parser, byte counts below zero, ambiguous headers, cut paths of type
    changes and unknown escapes, and outdated entries of the cache of storages.
    Others found on the way are lines smuggled into git-update-ref by reference
    names with a NUL, long lines counted as forced deletions, temporary files left
    behind by failed writers, a comment on read-only storages that the SQL
    elector does not follow, callbacks of the stream cache that evict the entry of
    their successor when they fail, advertisements stored although they were read
    before their key was taken, repositories with two names and two states of
    the disk cache, revisions with a line feed that get a cat-file process out of
    step, and lines that start with a backslash and are lost when a conflict is
    resolved, a pointer to the latest backup that is overwritten in place, and empty
    archives of hooks that object storage keeps and a restore refuses, generations
    raised during a replication that are overwritten by it, and patches whose lines
    are taken off the count twice.

    ** Bounds and fuel

    Recursion with fuel is proved to have enough of it: the queue's loop over
    duplicates gets the queue's length ([dropDuplicates_fuel]); [Scan], [scanAll]
    and [EachSidebandPacket] are shown to return for every fuel above the stream's
    length plus one; [writeBand] gets the data's length; the loop over the lines of
    a patch gets two more than the bytes left ([patchLoop_total]); the loop over the
    headers of a commit gets one more than its bytes ([ParseCommit_total]), and the
    loops that evict entries one more than the entries ([evictLoop_ok]). The recursion of
    [altObjectDirs] is on the levels the code itself limits. [TxSystem.step] and
    [Limiter.step] put no bound on the number of calls but the width of an [int].
    The IDs of the in-memory queue are assumed to stay below 2^64.

    ** Not modelled

    gRPC, TLS, TOML decoding, metrics, logging and timers; the HTTP client of
    GitLab; UserApplyPatch and the services of a Gitaly node other than operations
    and hooks; what git and libgit2 do, which are parameters of the models that
    call them; the Ruby sidecar and generated code.

    ** Plan

    Next come, of a Gitaly node, the remaining parsers (tree listings, numstat,
    fetch output), the pipelines over revisions, the rest of its configuration
    and the other services. *)

From stdpp Require Export base gmap strings list fin_maps.
From Stdlib Require Export ZArith Lia.
From Stdlib Require Export Init.Byte.
From Stdlib Require Strings.Byte Strings.Ascii.

#[export] Set Default Goal Selector "!".
#[export] Set Warnings "-clear-no-such-hyp,-level-tolerance".

Declare Scope gitaly_scope.
Delimit Scope gitaly_scope with gitaly.
Global Open Scope Z_scope.

(** ** Outcomes of Go calls

    A call returns a value, returns an error value, or panics (nil
    dereference, index out of range, closing a closed channel). *)
Inductive out (E A : Type) : Type :=
| Ok (a : A)
| Err (e : E)
| Panic.
Arguments Ok {E A} a.
Arguments Err {E A} e.
Arguments Panic {E A}.

Definition is_panic {E A} (o : out E A) : bool :=
  match o with Panic => true | _ => false end.

(** The state-and-error monad of the stateful components. The state survives an
    error return, as the mutations a Go function made before it returned do. *)
Definition M (S E A : Type) : Type := S -> out E A * S.

#[export] Instance M_ret S E : MRet (M S E) := fun A a s => (Ok a, s).

#[export] Instance M_bind S E : MBind (M S E) := fun A B k m s =>
  match m s with
  | (Ok a, s') => k a s'
  | (Err e, s') => (Err e, s')
  | (Panic, s') => (Panic, s')
  end.

#[export] Instance M_fmap S E : FMap (M S E) := fun A B f m s =>
  match m s with
  | (Ok a, s') => (Ok (f a), s')
  | (Err e, s') => (Err e, s')
  | (Panic, s') => (Panic, s')
  end.

Section MonadOps.
Context {S E : Type}.

Definition get : M S E S := fun s => (Ok s, s).
Definition put (s' : S) : M S E unit := fun _ => (Ok tt, s').
Definition modify (f : S -> S) : M S E unit := fun s => (Ok tt, f s).
Definition fail {A} (e : E) : M S E A := fun s => (Err e, s).
Definition panic {A} : M S E A := fun s => (Panic, s).

(** [defer d m] runs [m], then [d], and returns what [m] returned; a panic of
    the deferred call wins. *)
Definition defer {A} (d : M S E unit) (m : M S E A) : M S E A := fun s =>
  match m s with
  | (r, s') =>
      match d s' with
      | (Panic, s'') => (Panic, s'')
      | (_, s'') => (r, s'')
      end
  end.

(** Wrapping an error, as [fmt.Errorf("...: %w", err)] does. *)
Definition wrap_err {A} (f : E -> E) (m : M S E A) : M S E A := fun s =>
  match m s with
  | (Err e, s') => (Err (f e), s')
  | r => r
  end.

(** [for_each l body] is Go's [for _, x := range l { body(x) }] where the body
    may return early with an error. *)
Fixpoint for_each {X} (l : list X) (body : X -> M S E unit) : M S E unit :=
  match l with
  | [] => mret tt
  | x :: l => _ ← body x; for_each l body
  end.

End MonadOps.

#[export] Instance out_ret E : MRet (out E) := fun A a => Ok a.

#[export] Instance out_bind E : MBind (out E) := fun A B k m =>
  match m with
  | Ok a => k a
  | Err e => Err e
  | Panic => Panic
  end.

(** ** Machine integers *)

(** Go's 64-bit [uint] and [uint64] arithmetic wraps around. *)
Definition u64 (z : Z) : Z := z mod 2 ^ 64.
Definition u32 (z : Z) : Z := z mod 2 ^ 32.
(** Two's complement 64-bit [int]. *)
Definition i64 (z : Z) : Z := (z + 2 ^ 63) mod 2 ^ 64 - 2 ^ 63.

Lemma u64_small z : 0 <= z < 2 ^ 64 -> u64 z = z.
Proof. apply Z.mod_small. Qed.

Lemma u64_range z : 0 <= u64 z < 2 ^ 64.
Proof. apply Z.mod_pos_bound. lia. Qed.

Lemma i64_small z : - 2 ^ 63 <= z < 2 ^ 63 -> i64 z = z.
Proof. intros H. unfold i64. rewrite Z.mod_small; lia. Qed.

(** ** Bytes *)

Abbreviation bytes := (list byte).

#[export] Instance byte_eq_dec : EqDecision byte := Strings.Byte.byte_eq_dec.

Lemma byte_of_to_N (b : byte) : Strings.Byte.of_N (Strings.Byte.to_N b) = Some b.
Proof. apply Strings.Byte.of_to_N. Qed.

#[export] Instance byte_countable : Countable byte :=
  inj_countable Strings.Byte.to_N Strings.Byte.of_N byte_of_to_N.

Definition byteZ (b : byte) : Z := Z.of_N (Strings.Byte.to_N b).

(** The byte literal of a string. *)
Definition B (s : string) : bytes := String.list_byte_of_string s.

Lemma byteZ_range b : 0 <= byteZ b < 256.
Proof.
  unfold byteZ. pose proof (Strings.Byte.to_N_bounded b). lia.
Qed.

(** ** Strings as lists of characters *)

Abbreviation ascii := Strings.Ascii.ascii.

Definition text (s : string) : list ascii := String.list_ascii_of_string s.

Lemma text_app s s' : text (s +:+ s') = text s ++ text s'.
Proof. induction s as [|c s IH]; [done|]. unfold text in *. simpl. by rewrite IH. Qed.

Lemma text_inj s s' : text s = text s' -> s = s'.
Proof.
  intros Heq. rewrite <- (String.string_of_list_ascii_of_string s), <- (String.string_of_list_ascii_of_string s').
  unfold text in Heq. by rewrite Heq.
Qed.

(** ** Lists *)

Lemma filter_ext_in {A} (P Q : A -> Prop) `{!forall x, Decision (P x), !forall x, Decision (Q x)} (l : list A) :
  (forall x, x ∈ l -> P x <-> Q x) -> filter P l = filter Q l.
Proof.
  induction l as [|x l IH]; intros Hall; [done|]. rewrite !filter_cons.
  rewrite (decide_ext (P x) (Q x)) by (apply Hall; by left). rewrite IH; [done|].
  intros y Hy. apply Hall. by right.
Qed.

Lemma filter_all {A} (P : A -> Prop) `{!forall x, Decision (P x)} (l : list A) :
  (forall x, x ∈ l -> P x) -> filter P l = l.
Proof.
  induction l as [|x l IH]; intros Hall; [done|]. rewrite filter_cons, decide_True by (apply Hall; by left).
  f_equal. apply IH. intros y Hy. apply Hall. by right.
Qed.

Lemma NoDup_submset {A} (l k : list A) : l ⊆+ k -> NoDup k -> NoDup l.
Proof. intros [x ->]%submseteq_Permutation Hnd. by apply NoDup_app in Hnd as [? _]. Qed.

(** ** Iterating over Go maps

    [range] over a map visits every entry once, in an order the language leaves
    unspecified. An instance of [MapRange] is one such order. *)
Class MapRange (K V : Type) `{Countable K} := {
  range : gmap K V -> list (K * V);
  range_perm : forall m, range m ≡ₚ map_to_list m;
}.

(** One concrete order, used to evaluate the definitions. *)
Definition default_range K V `{Countable K} : MapRange K V :=
  {| range := map_to_list; range_perm m := reflexivity _ |}.

(** And the opposite one. *)
Definition reverse_range K V `{Countable K} : MapRange K V :=
  {| range m := reverse (map_to_list m); range_perm m := reverse_Permutation (map_to_list m) |}.

Lemma range_elem `{MapRange K V} m k v : (k, v) ∈ range m <-> m !! k = Some v.
Proof. by rewrite range_perm, elem_of_map_to_list. Qed.

Lemma range_nodup `{MapRange K V} m : NoDup (range m).*1.
Proof. rewrite range_perm. apply NoDup_fst_map_to_list. Qed.

(** ** Sums over the values of a map *)
Definition msum `{Countable K} {V} (f : V -> Z) (m : gmap K V) : Z :=
  map_fold (fun _ v acc => f v + acc) 0 m.

Section Msum.
Context `{Countable K} {V : Type}.
Implicit Types (m : gmap K V) (f g : V -> Z).

Lemma msum_empty f : msum f (∅ : gmap K V) = 0.
Proof. apply map_fold_empty. Qed.

Lemma msum_insert f m k v : m !! k = None -> msum f (<[k:=v]> m) = f v + msum f m.
Proof. intros Hk. unfold msum. rewrite map_fold_insert_L; [done|lia|done]. Qed.

Lemma msum_delete f m k v : m !! k = Some v -> msum f m = f v + msum f (delete k m).
Proof.
  intros Hk. rewrite <- (insert_delete_id m k v Hk) at 1.
  rewrite msum_insert; [done|]. apply lookup_delete_eq.
Qed.

Lemma msum_update f m k v w :
  m !! k = Some v -> msum f (<[k:=w]> m) = msum f m - f v + f w.
Proof.
  intros Hk. rewrite (msum_delete f m k v Hk).
  rewrite <- insert_delete_eq, msum_insert; [lia|]. apply lookup_delete_eq.
Qed.

Lemma msum_le f g m :
  (forall k v, m !! k = Some v -> f v <= g v) -> msum f m <= msum g m.
Proof.
  induction m as [|k v m Hk IH] using map_ind; intros Hle.
  { by rewrite !msum_empty. }
  rewrite !msum_insert by done.
  assert (f v <= g v) by (apply (Hle k); apply lookup_insert_eq).
  assert (msum f m <= msum g m); [|lia].
  apply IH. intros k' v' Hk'. apply (Hle k'). rewrite lookup_insert_ne; [done|congruence].
Qed.

Lemma msum_ext f g m :
  (forall k v, m !! k = Some v -> f v = g v) -> msum f m = msum g m.
Proof.
  intros Heq. apply Z.le_antisymm; apply msum_le; intros; rewrite (Heq k v); done || lia.
Qed.

Lemma msum_zero m : msum (fun _ => 0) m = 0.
Proof.
  induction m as [|k v m Hk IH] using map_ind; [apply msum_empty|].
  by rewrite msum_insert, IH.
Qed.

Lemma msum_nonneg f m :
  (forall k v, m !! k = Some v -> 0 <= f v) -> 0 <= msum f m.
Proof. intros Hf. rewrite <- (msum_zero m). by apply msum_le. Qed.

Lemma msum_add f g m : msum (fun v => f v + g v) m = msum f m + msum g m.
Proof.
  induction m as [|k v m Hk IH] using map_ind; [by rewrite !msum_empty|].
  rewrite !msum_insert by done. lia.
Qed.

Lemma msum_lookup_le f m k v :
  (forall k v, m !! k = Some v -> 0 <= f v) -> m !! k = Some v -> f v <= msum f m.
Proof.
  intros Hf Hk. rewrite (msum_delete f m k v Hk).
  assert (0 <= msum f (delete k m)); [|lia].
  apply msum_nonneg. intros k' v' Hk'. apply (Hf k').
  apply lookup_delete_Some in Hk'. tauto.
Qed.

Lemma msum_fmap f (h : V -> V) m : msum f (h <$> m) = msum (fun v => f (h v)) m.
Proof.
  induction m as [|k v m Hk IH] using map_ind.
  { by rewrite fmap_empty, !msum_empty. }
  rewrite fmap_insert, !msum_insert, IH; [done..|]. by rewrite lookup_fmap, Hk.
Qed.

(** Pointwise comparison of the sums of two maps with the same keys. *)
Lemma msum_rel_le (f g : V -> Z) m m' :
  map_Forall2 (fun _ v w => f v <= g w) m m' -> msum f m <= msum g m'.
Proof.
  revert m'. induction m as [|k v m Hk IH] using map_ind; intros m' Hm.
  { apply map_Forall2_empty_inv_l in Hm as ->. by rewrite !msum_empty. }
  apply map_Forall2_insert_inv_l in Hm as (w & m2 & -> & Hk2 & Hle & Hm2); [|done].
  rewrite !msum_insert by done. specialize (IH _ Hm2). lia.
Qed.

(** A Go accumulation loop computes the sum, whatever the visiting order. *)
Lemma foldl_add_perm f (l l' : list (K * V)) acc :
  l ≡ₚ l' ->
  foldl (fun acc kv => acc + f kv.2) acc l = foldl (fun acc kv => acc + f kv.2) acc l'.
Proof.
  intros Hl. revert acc. induction Hl; intros acc; simpl; [done|done| |].
  - f_equal. lia.
  - by rewrite IHHl1.
Qed.

Lemma foldl_add_acc f (l : list (K * V)) acc :
  foldl (fun acc kv => acc + f kv.2) acc l
  = acc + foldl (fun acc kv => acc + f kv.2) 0 l.
Proof.
  revert acc. induction l as [|x l IH]; intros acc; simpl; [lia|].
  rewrite (IH (acc + _)), (IH (0 + _)). lia.
Qed.

Lemma msum_foldl f m :
  foldl (fun acc kv => acc + f kv.2) 0 (map_to_list m) = msum f m.
Proof.
  induction m as [|k v m Hk IH] using map_ind.
  { by rewrite map_to_list_empty, msum_empty. }
  rewrite (foldl_add_perm f _ _ 0 (map_to_list_insert m k v Hk)). simpl.
  rewrite foldl_add_acc, IH, msum_insert by done. lia.
Qed.

End Msum.

(** ** Updating every entry of a map in a loop *)
Lemma foldl_insert_range `{Countable K} {V} (h : V -> V) (l : list (K * V)) (m : gmap K V) :
  NoDup l.*1 ->
  (forall k v, (k, v) ∈ l -> m !! k = Some v) ->
  forall k, foldl (fun m kv => <[kv.1 := h kv.2]> m) m l !! k
    = if decide (k ∈ l.*1) then h <$> m !! k else m !! k.
Proof.
  revert m. induction l as [|[k0 v0] l IH]; intros m Hnd Hl k.
  { case_decide as Hk; [by apply elem_of_nil in Hk|done]. }
  apply NoDup_cons in Hnd as [Hk0 Hnd].
  change (foldl _ m ((k0, v0) :: l)) with
    (foldl (fun m kv => <[kv.1 := h kv.2]> m) (<[k0 := h v0]> m) l).
  rewrite IH; [|done|].
  - destruct (decide (k = k0)) as [->|Hne].
    + case_decide; [done|]. case_decide as Hn; [|exfalso; apply Hn; by left].
      rewrite lookup_insert_eq. rewrite (Hl k0 v0) by (by left). done.
    + rewrite lookup_insert_ne by done.
      assert (k ∈ ((k0, v0) :: l).*1 <-> k ∈ l.*1) as Hiff by
        (rewrite fmap_cons, elem_of_cons; tauto).
      destruct (decide (k ∈ l.*1)), (decide (k ∈ ((k0, v0) :: l).*1)); tauto.
  - intros k' v' Hk'. rewrite lookup_insert_ne; [apply Hl; by right|].
    intros <-. apply Hk0. apply list_elem_of_fmap. by exists (k0, v').
Qed.

Lemma foldl_insert_fmap `{MapRange K V} (h : V -> V) (m : gmap K V) :
  foldl (fun m kv => <[kv.1 := h kv.2]> m) m (range m) = h <$> m.
Proof.
  apply map_eq. intros k. rewrite foldl_insert_range.
  - rewrite lookup_fmap. destruct (decide _) as [_|Hn]; [done|].
    destruct (m !! k) as [v|] eqn:Hk; [|done]. exfalso. apply Hn.
    apply list_elem_of_fmap. exists (k, v). split; [done|]. by apply range_elem.
  - apply range_nodup.
  - intros k' v' Hin. by apply range_elem.
Qed.

(** Building a map from the entries of another one, in any order. *)
Lemma foldl_insert_elem `{Countable K} {V W} (h : V -> W) (l : list (K * V)) (m : gmap K W) k w :
  NoDup l.*1 ->
  foldl (fun m kv => <[kv.1 := h kv.2]> m) m l !! k = Some w <->
  (exists v, (k, v) ∈ l /\ w = h v) \/ k ∉ l.*1 /\ m !! k = Some w.
Proof.
  revert m. induction l as [|[k0 v0] l IH]; intros m Hnd; simpl.
  { split; [right|]; [by split; [apply not_elem_of_nil|]|].
    intros [(v & Hv & _)|[_ ?]]; [by apply elem_of_nil in Hv|done]. }
  apply NoDup_cons in Hnd as [Hk0 Hnd]. rewrite IH by done. setoid_rewrite elem_of_cons.
  destruct (decide (k0 = k)) as [->|Hne].
  - rewrite lookup_insert_eq. split.
    + intros [(v & Hv & ->)|[_ [= <-]]]; left; [by eauto|]. exists v0. eauto.
    + intros [(v & [[= ->]|Hv] & ->)|[Hn _]]; [by right|by left; eauto|]. tauto.
  - rewrite lookup_insert_ne by done. split.
    + intros [(v & Hv & ->)|[Hn ?]]; [by left; eauto|right]. split; [|done]. naive_solver.
    + intros [(v & [[= -> ->]|Hv] & ->)|[Hn ?]]; [done|by left; eauto|right]. tauto.
Qed.

Lemma foldl_insert_build `{Countable K} {V W} (h : V -> W) (m0 : gmap K V) (l : list (K * V)) :
  l ≡ₚ map_to_list m0 ->
  foldl (fun m kv => <[kv.1 := h kv.2]> m) (∅ : gmap K W) l = h <$> m0.
Proof.
  intros Hl. apply map_eq. intros k. apply option_eq. intros w.
  rewrite foldl_insert_elem by (rewrite Hl; apply NoDup_fst_map_to_list).
  rewrite lookup_fmap, lookup_empty, fmap_Some. setoid_rewrite <- elem_of_map_to_list.
  setoid_rewrite Hl. naive_solver.
Qed.

(** ** Lists *)
Lemma elem_of_drop {A} (x : A) (n : nat) (l : list A) :
  x ∈ drop n l <-> exists i, l !! i = Some x /\ (n <= i)%nat.
Proof.
  rewrite list_elem_of_lookup. setoid_rewrite lookup_drop. split.
  - intros [i Hi]. exists (n + i)%nat. split; [done|lia].
  - intros (i & Hi & Hle). exists (i - n)%nat. by replace (n + (i - n))%nat with i by lia.
Qed.

(** ** Tactics *)

(** Case analysis on the first [match] of the goal or of a hypothesis, keeping
    the equations, until none is left. *)
Ltac mcase :=
  repeat (case_match; simplify_eq/=; try done).

Ltac mcase_in H :=
  repeat (match type of H with context [match ?x with _ => _ end] =>
    let E := fresh "E" in destruct x eqn:E; simplify_eq/=; try done end).

(** Destructs every boolean comparison on [Z] of the goal into its [Prop]. *)
Ltac zcase :=
  repeat match goal with
  | |- context [Z.ltb ?a ?b] => destruct (Z.ltb_spec a b)
  | |- context [Z.leb ?a ?b] => destruct (Z.leb_spec a b)
  | |- context [Z.eqb ?a ?b] => destruct (Z.eqb_spec a b)
  end.

(** Unfolds the monad operations. *)
Ltac unfold_M :=
  unfold mbind, M_bind, mret, M_ret, get, put, modify, fail, panic, wrap_err, defer in *;
  cbn beta iota in *.

(** Evaluates a call only as far as its result. *)
Lemma run_eq {S E A} (m : M S E A) (s : S) (r : out E A) : (m s).1 = r -> m s = (r, (m s).2).
Proof. intros <-. apply surjective_pairing. Qed.

Lemma some_default {A} (x : option A) (d : A) :
  (match x with Some _ => true | None => false end) = true -> x = Some (default d x).
Proof. by destruct x. Qed.

Ltac run_to := apply run_eq; vm_compute.

Create HintDb gitaly discriminated.
#[export] Hint Resolve msum_nonneg u64_range byteZ_range : gitaly.
