(* ===== verification/Voting.v ===== *)
(** Votes cast by the nodes of a transaction
    (src/internal/transaction/voting/vote.go).

    A vote is a [voteSize]-byte hash. SHA-1 is not part of the repository: it is
    the parameter [sha1_Sum], of which only the documented digest length is used. *)

From S2P Require Import Prelude.

Definition voteSize : Z := 20.

(** [type Vote [voteSize]byte]; [vote_wf] is the array length. *)
Abbreviation Vote := bytes.

Definition vote_wf (v : Vote) : Prop := Z.of_nat (length v) = voteSize.

#[export] Instance vote_wf_dec v : Decision (vote_wf v).
Proof. unfold vote_wf. apply _. Defined.

Inductive VoteError : Type :=
| InvalidVoteLength (n : Z).

Definition Vote_Bytes (v : Vote) : bytes := v.

Definition hexDigit (n : N) : byte :=
  match n with
  | 0 => "0" | 1 => "1" | 2 => "2" | 3 => "3" | 4 => "4" | 5 => "5" | 6 => "6" | 7 => "7"
  | 8 => "8" | 9 => "9" | 10 => "a" | 11 => "b" | 12 => "c" | 13 => "d" | 14 => "e"
  | _ => "f"
  end%N%byte.

(** [hex.EncodeToString], two lower-case digits for every byte. *)
Definition hex_EncodeToString (bs : bytes) : bytes :=
  bs ≫= fun b => [hexDigit (Strings.Byte.to_N b / 16); hexDigit (Strings.Byte.to_N b mod 16)].

Definition Vote_String (v : Vote) : bytes := hex_EncodeToString v.

Definition VoteFromHash (bs : bytes) : out VoteError Vote :=
  if decide (Z.of_nat (length bs) = voteSize) then Ok bs
  else Err (InvalidVoteLength (Z.of_nat (length bs))).

Section Hash.
Variable sha1_Sum : bytes -> bytes.

Definition VoteFromData (data : bytes) : Vote := sha1_Sum data.

(** [VoteHash]: the data written so far; [Sum] hashes all of it. *)
Definition VoteHash : Type := bytes.
Definition NewVoteHash : VoteHash := [].
Definition VoteHash_Write (h : VoteHash) (p : bytes) : VoteHash := h ++ p.
Definition VoteHash_Vote (h : VoteHash) : out VoteError Vote := VoteFromHash (sha1_Sum h).

Hypothesis sha1_size : forall d, Z.of_nat (length (sha1_Sum d)) = voteSize.

(** Hashing piecewise through a [VoteHash] never fails and gives the vote of the
    concatenated data. *)
Lemma VoteHash_Vote_data (ps : list bytes) :
  VoteHash_Vote (foldl VoteHash_Write NewVoteHash ps) = Ok (VoteFromData (concat ps)).
Proof using sha1_size.
  assert (Hw : forall h, foldl VoteHash_Write h ps = h ++ concat ps).
  { induction ps as [|p ps IH]; intros h; simpl; [by rewrite app_nil_r|].
    rewrite IH. unfold VoteHash_Write. by rewrite <- app_assoc. }
  unfold VoteHash_Vote, VoteFromHash, VoteFromData. rewrite Hw.
  rewrite decide_True; [done|]. apply sha1_size.
Qed.

End Hash.

Lemma VoteFromHash_ok bs v : VoteFromHash bs = Ok v -> v = bs /\ vote_wf v.
Proof. unfold VoteFromHash. case_decide; [|done]. by intros [= <-]. Qed.
