(* ===== verification/Subtransaction.v ===== *)
(** One voting session of a reference transaction
    (src/internal/praefect/transactions/subtransaction.go).

    The state is the [subtransaction] record; every exported operation of the
    code is a definition in the state-and-error monad [M]. Each operation runs
    under the subtransaction's lock, so it is one atomic step. The orders in
    which Go visits the two maps are the [MapRange] instances of the section. *)

From S2P Require Import Prelude Voting.

(** ** Data *)

Inductive VoteResult : Type :=
| VoteUndecided
| VoteCommitted
| VoteFailed
| VoteCanceled
| VoteStopped.

#[export] Instance VoteResult_eq_dec : EqDecision VoteResult.
Proof. solve_decision. Defined.

Record Voter : Type := mkVoter {
  Name : string;
  Votes : Z;
  vote : option Vote;
  result : VoteResult;
}.

#[export] Instance Voter_eq_dec : EqDecision Voter.
Proof. solve_decision. Defined.

(** The errors of the package, and the messages it formats. *)
Inductive TxError : Type :=
| ErrDuplicateNodes
| ErrMissingNodes
| ErrInvalidThreshold
| ErrTransactionFailed
| ErrTransactionCanceled
| ErrTransactionStopped
| ErrInvalidNode (node : string)
| ErrAlreadyCast (node : string)
| ErrCommittedVote
| ErrInvalidState (r : VoteResult)
| ErrChangingVote
| ErrAlreadyFinished
| ErrUndecidedState (node : string)
| ErrContext
| ErrTransactionExists
| ErrNotFound (id : Z)
| ErrUpdatingState (node : string) (e : TxError)
| ErrCancelVote (e : TxError)
| ErrNoVoteCast (e : TxError)
| ErrGotVotes (e : TxError) (got threshold : Z) (v : Vote).

(** [errors.Is]: the wrapped error, through every [%w]. *)
Fixpoint unwrap (e : TxError) : TxError :=
  match e with
  | ErrUpdatingState _ e | ErrCancelVote e | ErrNoVoteCast e | ErrGotVotes e _ _ _ => unwrap e
  | _ => e
  end.

(** [done] is whether [doneCh] has been closed. *)
Record subtransaction : Type := mkSub {
  done : bool;
  threshold : Z;
  votersByNode : gmap string Voter;
  voteCounts : gmap Vote Z;
}.

Definition set_result (r : VoteResult) (w : Voter) : Voter :=
  mkVoter (Name w) (Votes w) (vote w) r.

Definition set_vote (v : Vote) (w : Voter) : Voter :=
  mkVoter (Name w) (Votes w) (Some v) (result w).

Definition with_voters (f : gmap string Voter -> gmap string Voter) (t : subtransaction) :=
  mkSub (done t) (threshold t) (f (votersByNode t)) (voteCounts t).

Definition with_counts (f : gmap Vote Z -> gmap Vote Z) (t : subtransaction) :=
  mkSub (done t) (threshold t) (votersByNode t) (f (voteCounts t)).

(** A missing map entry reads as the zero value. *)
Definition count (t : subtransaction) (v : Vote) : Z := default 0 (voteCounts t !! v).

(** ** Operations *)

(** Later voters of the same name replace earlier ones. *)
Definition newSubtransaction (voters : list Voter) (threshold : Z) : subtransaction :=
  mkSub false threshold
    (foldl (fun m voter => <[Name voter := voter]> m) ∅ voters) ∅.

Definition isDone (t : subtransaction) : bool := done t.

(** [close(t.doneCh)]: closing a closed channel panics. *)
Definition close_done : M subtransaction TxError unit := fun t =>
  if done t then (Panic, t)
  else (Ok tt, mkSub true (threshold t) (votersByNode t) (voteCounts t)).

Section Operations.
Context {RN : MapRange string Voter} {RV : MapRange Vote Z}.

Definition cancel : M subtransaction TxError unit :=
  t ← get;
  _ ← for_each (range (votersByNode t)) (fun '(node, voter) =>
    if decide (result voter = VoteUndecided)
    then modify (with_voters (<[node := set_result VoteCanceled voter]>))
    else mret tt);
  t ← get;
  if negb (isDone t) then close_done else mret tt.

Definition stop : M subtransaction TxError unit :=
  t ← get;
  _ ← for_each (range (votersByNode t)) (fun '(node, voter) =>
    match result voter with
    | VoteCanceled => fail ErrTransactionCanceled
    | VoteStopped => fail ErrTransactionStopped
    | VoteUndecided => modify (with_voters (<[node := set_result VoteStopped voter]>))
    | VoteCommitted | VoteFailed => mret tt
    end);
  t ← get;
  if negb (isDone t) then close_done else mret tt.

Definition state (t : subtransaction) : gmap string VoteResult :=
  foldl (fun results kv => <[kv.1 := result kv.2]> results) ∅ (range (votersByNode t)).

(** The vote with the most support; of equals, the one visited first. *)
Definition majority (l : list (Vote * Z)) : option Vote * Z :=
  foldl (fun acc kv => if acc.2 <? kv.2 then (Some kv.1, kv.2) else acc) (None, 0) l.

Definition outstanding (l : list (string * Voter)) : Z :=
  foldl (fun acc kv =>
    match vote kv.2 with None => u64 (acc + Votes kv.2) | Some _ => acc end) 0 l.

Definition mustSignalVoters (t : subtransaction) : bool :=
  if isDone t then false
  else if existsb (fun kv => threshold t <=? kv.2) (range (voteCounts t)) then true
  else if existsb (fun kv => bool_decide (result kv.2 = VoteUndecided)) (range (votersByNode t))
  then false
  else true.

(** The loop that settles the voters once the outcome is known; a nil
    [majorityVote] is dereferenced only when no vote has any support. *)
Definition settle (majorityVote : option Vote) (majorityVoteCount : Z)
    : M subtransaction TxError unit :=
  t ← get;
  for_each (range (votersByNode t)) (fun '(node, voter) =>
    if decide (result voter ≠ VoteUndecided) then mret tt
    else match vote voter with
    | None => mret tt
    | Some v =>
      if majorityVoteCount <? threshold t
      then modify (with_voters (<[node := set_result VoteFailed voter]>))
      else match majorityVote with
      | None => panic
      | Some mv =>
        if decide (v = mv)
        then modify (with_voters (<[node := set_result VoteCommitted voter]>))
        else modify (with_voters (<[node := set_result VoteFailed voter]>))
      end
    end).

(** The counting and settling part of [updateVoterState], with its deferred
    notification of the waiting voters. *)
Definition decideVoters : M subtransaction TxError unit :=
  defer (t ← get; if mustSignalVoters t then close_done else mret tt)
    (t ← get;
     let '(majorityVote, majorityVoteCount) := majority (range (voteCounts t)) in
     let outstandingVotes := outstanding (range (votersByNode t)) in
     if (majorityVoteCount <? threshold t) &&
        (threshold t <=? u64 (majorityVoteCount + outstandingVotes))
     then mret tt
     else settle majorityVote majorityVoteCount).

Definition updateVoterState (node : string) (voter : Voter) (newVote : option Vote)
    : M subtransaction TxError unit :=
  match result voter with
  | VoteCanceled => fail ErrTransactionCanceled
  | VoteStopped => fail ErrTransactionStopped
  | VoteCommitted => fail ErrCommittedVote
  | VoteFailed => fail (ErrInvalidState VoteFailed)
  | VoteUndecided =>
    match newVote with
    | Some v =>
      match vote voter with
      | Some _ => fail ErrChangingVote
      | None =>
        _ ← modify (fun t => with_counts (<[v := u64 (count t v + Votes voter)]>) t);
        _ ← modify (with_voters (<[node := set_vote v voter]>));
        decideVoters
      end
    | None =>
      t ← get;
      if isDone t then fail ErrAlreadyFinished
      else match vote voter with
      | None => panic
      | Some v =>
        _ ← modify (fun t => with_counts (<[v := u64 (count t v - Votes voter)]>) t);
        _ ← modify (with_voters (<[node := set_result VoteCanceled voter]>));
        decideVoters
      end
    end
  end.

Definition voteOn (node : string) (v : Vote) : M subtransaction TxError unit :=
  t ← get;
  match votersByNode t !! node with
  | None => fail (ErrInvalidNode node)
  | Some voter =>
    match vote voter with
    | Some _ => fail (ErrAlreadyCast node)
    | None => wrap_err (ErrUpdatingState node) (updateVoterState node voter (Some v))
    end
  end.

(** The part of [collectVotes] after the wait, which ends when [doneCh] is
    closed or the caller's context is done; [ctxErr] is [ctx.Err() != nil]. *)
Definition collectVotes (ctxErr : bool) (node : string) : M subtransaction TxError unit :=
  t ← get;
  match votersByNode t !! node with
  | None => fail (ErrInvalidNode node)
  | Some voter =>
    if ctxErr then
      _ ← wrap_err ErrCancelVote (updateVoterState node voter None);
      fail ErrContext
    else match result voter with
    | VoteCommitted => mret tt
    | VoteFailed =>
      match vote voter with
      | None => fail (ErrNoVoteCast ErrTransactionFailed)
      | Some v => fail (ErrGotVotes ErrTransactionFailed (count t v) (threshold t) v)
      end
    | VoteCanceled => fail ErrTransactionCanceled
    | VoteStopped => fail ErrTransactionStopped
    | VoteUndecided => fail (ErrUndecidedState node)
    end
  end.

End Operations.

Definition getResult (t : subtransaction) (node : string) : out TxError VoteResult :=
  match votersByNode t !! node with
  | None => Err (ErrInvalidNode node)
  | Some voter => Ok (result voter)
  end.

Definition getVote (t : subtransaction) (node : string) : out TxError (option Vote) :=
  match votersByNode t !! node with
  | None => Err (ErrInvalidNode node)
  | Some voter => Ok (vote voter)
  end.

(** ** Loops over the voters *)

(** A loop whose body replaces every visited voter [w] by [h w] maps [h] over the
    voters, whatever the visiting order. *)
Section VoterLoop.
Context {RN : MapRange string Voter}.

Lemma for_each_insert (h : Voter -> Voter) body l t :
  (forall n w s, votersByNode s !! n = Some w ->
    body (n, w) s = (Ok tt, with_voters (<[n := h w]>) s) :> out TxError unit * _) ->
  NoDup l.*1 -> (forall n w, (n, w) ∈ l -> votersByNode t !! n = Some w) ->
  for_each l body t
  = (Ok tt, with_voters (fun m => foldl (fun m kv => <[kv.1 := h kv.2]> m) m l) t).
Proof.
  intros Hbody. revert t. induction l as [|[n w] l IH]; intros t Hnd Hl; simpl.
  { unfold_M. by destruct t. }
  apply NoDup_cons in Hnd as [Hn Hnd]. unfold_M.
  rewrite Hbody by (apply Hl; by left). rewrite IH; [done|done|].
  intros n' w' Hin. simpl. rewrite lookup_insert_ne; [apply Hl; by right|].
  intros <-. apply Hn. apply list_elem_of_fmap. by exists (n, w').
Qed.

Lemma for_each_voters (h : Voter -> Voter) body t :
  (forall n w s, votersByNode s !! n = Some w ->
    body (n, w) s = (Ok tt, with_voters (<[n := h w]>) s) :> out TxError unit * _) ->
  for_each (range (votersByNode t)) body t = (Ok tt, with_voters (fun m => h <$> m) t).
Proof.
  intros Hbody. rewrite (for_each_insert h).
  - unfold with_voters. simpl. by rewrite foldl_insert_fmap.
  - done.
  - apply range_nodup.
  - intros n w. apply range_elem.
Qed.

Lemma with_voters_id n w s :
  votersByNode s !! n = Some w -> s = with_voters (<[n := w]>) s.
Proof. intros Hn. unfold with_voters. rewrite insert_id by done. by destruct s. Qed.

End VoterLoop.

(** What settling does to one voter once [majorityVote] is known. *)
Definition settled (threshold : Z) (majorityVote : option Vote) (majorityVoteCount : Z)
    (w : Voter) : Voter :=
  if decide (result w = VoteUndecided) then
    match vote w with
    | None => w
    | Some v =>
      if majorityVoteCount <? threshold then set_result VoteFailed w
      else if decide (Some v = majorityVote) then set_result VoteCommitted w
      else set_result VoteFailed w
    end
  else w.

Definition canceled (w : Voter) : Voter :=
  if decide (result w = VoteUndecided) then set_result VoteCanceled w else w.

Definition stopped (w : Voter) : Voter :=
  if decide (result w = VoteUndecided) then set_result VoteStopped w else w.

Section Characterisation.
Context {RN : MapRange string Voter} {RV : MapRange Vote Z}.

Lemma settle_eq mv mc t :
  mc < threshold t \/ mv ≠ None ->
  settle mv mc t = (Ok tt, with_voters (fun m => settled (threshold t) mv mc <$> m) t).
Proof.
  intros Hmv. unfold settle. unfold_M.
  rewrite (for_each_voters (settled (threshold t) mv mc)); [done|].
  intros n w s Hn. unfold settled. simpl.
  destruct (decide (result w = VoteUndecided)) as [Hu|Hu].
  - destruct (decide (result w ≠ VoteUndecided)); [done|].
    destruct (vote w) as [v|]; [|by rewrite <- with_voters_id].
    destruct (Z.ltb_spec mc (threshold t)); [done|].
    destruct mv as [mv|]; [|destruct Hmv; [lia|done]].
    destruct (decide (v = mv)) as [->|Hne].
    + destruct (decide (Some mv = Some mv)); done.
    + destruct (decide (Some v = Some mv)); [congruence|done].
  - destruct (decide (result w ≠ VoteUndecided)); [|done]. by rewrite <- with_voters_id.
Qed.

Lemma cancel_eq t :
  cancel t = (Ok tt, mkSub true (threshold t) (canceled <$> votersByNode t) (voteCounts t)).
Proof.
  unfold cancel. unfold_M. rewrite (for_each_voters canceled).
  - unfold isDone, with_voters, close_done. simpl. by destruct (done t).
  - intros n w s Hn. unfold canceled. destruct (decide _); [done|].
    by rewrite <- with_voters_id.
Qed.

Lemma majority_spec l mv mc :
  majority l = (mv, mc) ->
  0 <= mc /\ (forall v c, (v, c) ∈ l -> c <= mc) /\
  match mv with Some v => (v, mc) ∈ l /\ 0 < mc | None => mc = 0 end.
Proof.
  revert mv mc. unfold majority. induction l as [|[v c] l IH] using rev_ind; intros mv mc.
  { intros [= <- <-]. split; [lia|]. split; [|done]. intros ? ? H. by apply elem_of_nil in H. }
  rewrite foldl_app. simpl. destruct (foldl _ _ l) as [mv' mc'] eqn:E.
  destruct (IH _ _ eq_refl) as (Hpos & Hmax & Hmv). simpl.
  destruct (Z.ltb_spec mc' c); intros [= <- <-]; (split; [lia|split]).
  - intros v' c' Hin. apply elem_of_app in Hin as [Hin|Hin].
    + specialize (Hmax _ _ Hin). lia.
    + apply list_elem_of_singleton in Hin. simplify_eq. lia.
  - split; [set_solver|lia].
  - intros v' c' Hin. apply elem_of_app in Hin as [Hin|Hin].
    + by apply (Hmax v').
    + apply list_elem_of_singleton in Hin. by simplify_eq.
  - destruct mv'; [|done]. destruct Hmv. split; [set_solver|done].
Qed.

(** [majorityVoteCount] is the largest count, and [majorityVote] has it. *)
Lemma majority_range t mv mc :
  majority (range (voteCounts t)) = (mv, mc) ->
  0 <= mc /\ (forall v, count t v <= mc) /\
  match mv with Some v => voteCounts t !! v = Some mc /\ 0 < mc | None => mc = 0 end.
Proof.
  intros Hm. destruct (majority_spec _ _ _ Hm) as (Hpos & Hmax & Hmv).
  split; [done|]. split.
  - intros v. unfold count. destruct (voteCounts t !! v) as [c|] eqn:Hv; simpl; [|done].
    apply (Hmax v). by apply range_elem.
  - destruct mv; [|done]. by rewrite range_elem in Hmv.
Qed.

End Characterisation.
