(* ===== verification/Quorum.v ===== *)
(** The invariant of a subtransaction and what it implies: at most one vote
    reaches the quorum, the code never panics, the unspecified visiting order of
    Go maps does not influence the outcome, and the votes of all voters decide
    every voter exactly as the abstract quorum rule says. *)

From S2P Require Import Prelude Voting Subtransaction.

(** ** The invariant *)

Definition total (m : gmap string Voter) : Z := msum Votes m.

(** The weight of the voters that cast [v], whatever became of them. *)
Definition castWeight (v : Vote) (w : Voter) : Z :=
  if decide (vote w = Some v) then Votes w else 0.

(** The weight of those among them that have not withdrawn. *)
Definition supportWeight (v : Vote) (w : Voter) : Z :=
  if decide (result w = VoteCanceled) then 0 else castWeight v w.

Record sub_inv (t : subtransaction) : Prop := {
  inv_threshold : 0 < threshold t;
  inv_votes : forall n w, votersByNode t !! n = Some w -> 0 <= Votes w;
  inv_total : total (votersByNode t) < 2 ^ 64;
  inv_quorum : total (votersByNode t) < 2 * threshold t;
  inv_count_upper : forall v, count t v <= msum (castWeight v) (votersByNode t);
  inv_count_lower : forall v, msum (supportWeight v) (votersByNode t) <= count t v;
  inv_committed : forall n w, votersByNode t !! n = Some w -> result w = VoteCommitted ->
    done t = true /\ exists v, vote w = Some v /\ threshold t <= count t v;
  inv_no_vote : forall n w, votersByNode t !! n = Some w -> vote w = None ->
    result w ≠ VoteFailed;
}.

(** How a step may change one voter: its identity and weight stay, a cast vote
    stays, a decided result stays. *)
Definition voter_step (w w' : Voter) : Prop :=
  Name w' = Name w /\ Votes w' = Votes w /\
  (vote w = None \/ vote w' = vote w) /\
  (result w = VoteUndecided \/ result w' = result w).

Definition sub_step (t t' : subtransaction) : Prop :=
  threshold t' = threshold t /\ (done t = true -> done t' = true) /\
  map_Forall2 (fun _ => voter_step) (votersByNode t) (votersByNode t').

#[export] Instance voter_step_preorder : PreOrder voter_step.
Proof.
  split.
  - intros w. split_and!; eauto.
  - intros a b c (? & ? & Hv & Hr) (? & ? & Hv' & Hr'). split_and!; [congruence..| |].
    + destruct Hv as [?|Hv]; [by left|]. rewrite <- Hv.
      destruct Hv' as [?|?]; [left|right]; congruence.
    + destruct Hr as [?|Hr]; [by left|]. rewrite <- Hr.
      destruct Hr' as [?|?]; [left|right]; congruence.
Qed.

#[export] Instance sub_step_preorder : PreOrder sub_step.
Proof.
  split.
  - intros t. split_and!; [done..|]. intros n. destruct (_ !! n); constructor. done.
  - intros a b c (? & ? & Hm) (? & ? & Hm'). split_and!; [congruence|auto|].
    intros n. specialize (Hm n). specialize (Hm' n).
    inversion Hm as [x y ? Hx Hy|Hx Hy]; rewrite <- Hy in Hm'; inversion Hm'; constructor.
    by etrans.
Qed.

Lemma sub_step_lookup t t' n w' :
  sub_step t t' -> votersByNode t' !! n = Some w' ->
  exists w, votersByNode t !! n = Some w /\ voter_step w w'.
Proof.
  intros (_ & _ & Hm) Hn. specialize (Hm n). rewrite Hn in Hm.
  inversion Hm; eauto.
Qed.

Lemma sub_step_lookup_l t t' n w :
  sub_step t t' -> votersByNode t !! n = Some w ->
  exists w', votersByNode t' !! n = Some w' /\ voter_step w w'.
Proof.
  intros (_ & _ & Hm) Hn. specialize (Hm n). rewrite Hn in Hm.
  inversion Hm; eauto.
Qed.

(** ** Weights *)

Section Weights.
Context (t : subtransaction) (Hinv : sub_inv t).

Lemma castWeight_nonneg v n w :
  votersByNode t !! n = Some w -> 0 <= castWeight v w.
Proof using Hinv.
  intros Hn. unfold castWeight. case_decide; [|done]. by apply (inv_votes t Hinv n).
Qed.

Lemma castWeight_le v n w : votersByNode t !! n = Some w -> castWeight v w <= Votes w.
Proof using Hinv.
  intros Hn. unfold castWeight. case_decide; [done|]. by apply (inv_votes t Hinv n).
Qed.

Lemma castWeight_disjoint v v' : v ≠ v' ->
  msum (castWeight v) (votersByNode t) + msum (castWeight v') (votersByNode t)
  <= total (votersByNode t).
Proof using Hinv.
  intros Hne. rewrite <- msum_add. apply msum_le. intros n w Hn.
  pose proof (inv_votes t Hinv n w Hn). unfold castWeight.
  do 2 case_decide; simplify_eq; lia || congruence.
Qed.

Lemma count_le_total v : 0 <= count t v <= total (votersByNode t).
Proof using Hinv.
  split.
  - etrans; [|apply (inv_count_lower t Hinv)]. apply msum_nonneg. intros n w Hn.
    unfold supportWeight. case_decide; [done|]. by apply (castWeight_nonneg v n).
  - etrans; [apply (inv_count_upper t Hinv)|]. apply msum_le. intros n w. apply castWeight_le.
Qed.

(** At most one vote can have the support the threshold asks for. *)
Lemma quorum_unique v v' :
  threshold t <= count t v -> threshold t <= count t v' -> v = v'.
Proof using Hinv.
  intros Hv Hv'. destruct (decide (v = v')) as [?|Hne]; [done|exfalso].
  pose proof (castWeight_disjoint v v' Hne). pose proof (inv_quorum t Hinv).
  pose proof (inv_count_upper t Hinv v). pose proof (inv_count_upper t Hinv v'). lia.
Qed.

End Weights.

(** The weight of the voters that have not voted yet. *)
Definition absentWeight (w : Voter) : Z :=
  match vote w with None => Votes w | Some _ => 0 end.

Lemma outstanding_bound (l : list (string * Voter)) acc :
  (forall n w, (n, w) ∈ l -> 0 <= Votes w) ->
  0 <= acc -> foldl (fun acc kv => acc + absentWeight kv.2) acc l < 2 ^ 64 ->
  foldl (fun acc kv =>
    match vote kv.2 with None => u64 (acc + Votes kv.2) | Some _ => acc end) acc l
  = foldl (fun acc kv => acc + absentWeight kv.2) acc l /\
  acc <= foldl (fun acc kv => acc + absentWeight kv.2) acc l.
Proof.
  revert acc. induction l as [|[n w] l IH]; intros acc Hl Hacc; [done|]. simpl.
  intros Hlt. assert (0 <= Votes w) by (apply (Hl n); by left).
  assert (0 <= absentWeight w) by (unfold absentWeight; destruct (vote w); lia).
  destruct (IH (acc + absentWeight w)) as [Heq Hle]; [|lia|done|].
  { intros n' w' ?. apply (Hl n'). by right. }
  split; [|lia]. rewrite <- Heq. f_equal. unfold absentWeight in *. destruct (vote w); [lia|].
  rewrite u64_small; lia.
Qed.

(** Without overflow, [outstandingVotes] is that weight, in any visiting order. *)
Lemma outstanding_eq {RN : MapRange string Voter} m :
  (forall n w, m !! n = Some w -> 0 <= Votes w) -> total m < 2 ^ 64 ->
  outstanding (range m) = msum absentWeight m.
Proof.
  intros Hw Htot. unfold outstanding.
  assert (Hs : foldl (fun acc kv => acc + absentWeight kv.2) 0 (range m) = msum absentWeight m).
  { rewrite (foldl_add_perm absentWeight _ _ 0 (range_perm m)). apply msum_foldl. }
  rewrite <- Hs. apply outstanding_bound; [|lia|].
  - intros n w. rewrite range_elem. apply Hw.
  - rewrite Hs. eapply Z.le_lt_trans; [|exact Htot]. apply msum_le. intros n w Hn.
    specialize (Hw n w Hn). unfold absentWeight. destruct (vote w); lia.
Qed.

(** ** A canonical form of [decideVoters], free of visiting orders *)

Definition maxCount (t : subtransaction) : Z :=
  map_fold (fun _ c acc => c `max` acc) 0 (voteCounts t).

Definition quorumVote (t : subtransaction) : option Vote :=
  head (map_to_list (filter (fun kv => threshold t <= kv.2) (voteCounts t))).*1.

(** The quorum may still be reached: nobody has to be settled. *)
Definition pending (t : subtransaction) : bool :=
  (maxCount t <? threshold t) &&
  (threshold t <=? maxCount t + msum absentWeight (votersByNode t)).

Definition settledVoters (t : subtransaction) : gmap string Voter :=
  if pending t then votersByNode t
  else settled (threshold t) (quorumVote t) (maxCount t) <$> votersByNode t.

Definition decided (t : subtransaction) : subtransaction :=
  mkSub
    (done t || (threshold t <=? maxCount t) ||
     bool_decide (map_Forall (fun _ w => result w ≠ VoteUndecided) (settledVoters t)))
    (threshold t) (settledVoters t) (voteCounts t).

Lemma maxCount_spec t :
  0 <= maxCount t /\ (forall v, count t v <= maxCount t) /\
  (maxCount t = 0 \/ exists v, voteCounts t !! v = Some (maxCount t)).
Proof.
  unfold maxCount, count. induction (voteCounts t) as [|v c m Hv IH] using map_ind.
  { rewrite map_fold_empty. split_and!; [done| |by left]. intros v. by rewrite lookup_empty. }
  rewrite map_fold_insert_L; [|lia|done]. destruct IH as (Hpos & Hmax & Hex).
  split_and!; [lia| |].
  - intros v'. destruct (decide (v = v')) as [->|Hne].
    + rewrite lookup_insert_eq. simpl. lia.
    + rewrite lookup_insert_ne by done. specialize (Hmax v'). lia.
  - destruct (Z.max_spec c (map_fold (fun _ c acc => c `max` acc) 0 m)) as [[? ->]|[? ->]].
    + destruct Hex as [?|[v' Hv']]; [lia|]. right. exists v'.
      rewrite lookup_insert_ne; [done|congruence].
    + right. exists v. by rewrite lookup_insert_eq.
Qed.

Lemma quorumVote_elem t v c :
  voteCounts t !! v = Some c -> threshold t <= c ->
  exists v', quorumVote t = Some v' /\ threshold t <= count t v'.
Proof.
  intros Hv Hc. unfold quorumVote.
  assert (Hin : (v, c) ∈ map_to_list (filter (fun kv => threshold t <= kv.2) (voteCounts t))).
  { apply elem_of_map_to_list. by apply map_lookup_filter_Some. }
  destruct (map_to_list _) as [|[v' c'] l] eqn:E; [by apply elem_of_nil in Hin|].
  exists v'. split; [done|].
  assert (Hin' : (v', c') ∈ (v', c') :: l) by by left. rewrite <- E in Hin'.
  apply elem_of_map_to_list, map_lookup_filter_Some in Hin' as [Hv' Hc'].
  unfold count. by rewrite Hv'.
Qed.

Lemma quorumVote_spec t v :
  sub_inv t -> threshold t <= count t v -> quorumVote t = Some v.
Proof.
  intros Hinv Hv. pose proof (inv_threshold t Hinv) as Hpos.
  destruct (voteCounts t !! v) as [c|] eqn:Hc; [|unfold count in Hv; rewrite Hc in Hv; simpl in Hv; lia].
  destruct (quorumVote_elem t v c Hc) as (v' & Hq & Hv').
  { unfold count in Hv. by rewrite Hc in Hv. }
  by rewrite Hq, (quorum_unique t Hinv v v' Hv Hv').
Qed.

Section DecideVoters.
Context {RN : MapRange string Voter} {RV : MapRange Vote Z}.

Lemma majority_maxCount t mv mc :
  majority (range (voteCounts t)) = (mv, mc) -> mc = maxCount t.
Proof.
  intros Hm. destruct (majority_range t mv mc Hm) as (Hpos & Hmax & Hmv).
  destruct (maxCount_spec t) as (Hpos' & Hmax' & Hex).
  apply Z.le_antisymm.
  - destruct mv as [v|]; [|lia]. destruct Hmv as [Hv _].
    specialize (Hmax' v). unfold count in Hmax'. by rewrite Hv in Hmax'.
  - destruct Hex as [->|[v Hv]]; [done|].
    specialize (Hmax v). unfold count in Hmax. by rewrite Hv in Hmax.
Qed.

Lemma mustSignalVoters_eq t : 0 < threshold t ->
  mustSignalVoters t = negb (done t) &&
    ((threshold t <=? maxCount t) ||
     bool_decide (map_Forall (fun _ w => result w ≠ VoteUndecided) (votersByNode t))).
Proof.
  intros Hpos. unfold mustSignalVoters, isDone. destruct (done t); [done|]. simpl.
  destruct (existsb _ (range (voteCounts t))) eqn:E.
  - apply existsb_exists in E as ([v c] & Hin & Hc%Z.leb_le). simpl in Hc.
    apply list_elem_of_In, range_elem in Hin. destruct (maxCount_spec t) as (_ & Hmax & _).
    specialize (Hmax v). unfold count in Hmax. rewrite Hin in Hmax. simpl in Hmax.
    destruct (Z.leb_spec (threshold t) (maxCount t)); [done|lia].
  - destruct (Z.leb_spec (threshold t) (maxCount t)) as [Hle|_].
    { destruct (maxCount_spec t) as (_ & _ & [?|[v Hv]]); [lia|].
      assert (existsb (fun kv => threshold t <=? kv.2) (range (voteCounts t)) = true); [|congruence].
      apply existsb_exists. exists (v, maxCount t). split; [|by apply Z.leb_le].
      apply list_elem_of_In. by apply range_elem. }
    simpl. destruct (existsb _ (range (votersByNode t))) eqn:E'.
    + apply existsb_exists in E' as ([n w] & Hin & Hr%bool_decide_eq_true). symmetry.
      apply bool_decide_eq_false. intros Hall. apply list_elem_of_In, range_elem in Hin.
      by apply (Hall n w Hin).
    + symmetry. apply bool_decide_eq_true. intros n w Hn Hr.
      assert (existsb (fun kv => bool_decide (result kv.2 = VoteUndecided))
                (range (votersByNode t)) = true); [|congruence].
      apply existsb_exists. exists (n, w). split; [|by apply bool_decide_eq_true].
      apply list_elem_of_In. by apply range_elem.
Qed.

Lemma total_absent_bound t :
  sub_inv t -> 0 <= maxCount t + msum absentWeight (votersByNode t) < 2 ^ 64.
Proof.
  intros Hinv. destruct (maxCount_spec t) as (Hpos & _ & Hex).
  assert (0 <= msum absentWeight (votersByNode t)).
  { apply msum_nonneg. intros n w Hn. pose proof (inv_votes t Hinv n w Hn).
    unfold absentWeight. destruct (vote w); lia. }
  split; [lia|]. eapply Z.le_lt_trans; [|exact (inv_total t Hinv)].
  assert (exists v, maxCount t <= count t v) as [v Hv].
  { destruct Hex as [->|[v Hv]]; [exists [];apply count_le_total; done|].
    exists v. unfold count. by rewrite Hv. }
  etrans; [apply Z.add_le_mono_r; etrans; [exact Hv|apply (inv_count_upper t Hinv v)]|].
  rewrite <- msum_add. apply msum_le. intros n w Hn. pose proof (inv_votes t Hinv n w Hn).
  unfold castWeight, absentWeight. destruct (vote w); destruct (decide _); simplify_eq; lia.
Qed.

Lemma pending_eq t mv mc :
  sub_inv t -> majority (range (voteCounts t)) = (mv, mc) ->
  (mc <? threshold t) && (threshold t <=? u64 (mc + outstanding (range (votersByNode t))))
  = pending t.
Proof.
  intros Hinv Hm. rewrite (majority_maxCount t mv mc Hm).
  rewrite outstanding_eq by (apply Hinv). unfold pending.
  rewrite u64_small; [done|]. by apply total_absent_bound.
Qed.

Lemma settled_quorum t mv mc w :
  sub_inv t -> majority (range (voteCounts t)) = (mv, mc) ->
  settled (threshold t) mv mc w = settled (threshold t) (quorumVote t) (maxCount t) w.
Proof.
  intros Hinv Hm. rewrite (majority_maxCount t mv mc Hm) at 1. unfold settled.
  case_decide; [|done]. destruct (vote w) as [v|]; [|done].
  destruct (Z.ltb_spec (maxCount t) (threshold t)); [done|].
  pose proof (majority_maxCount t mv mc Hm) as Hmc.
  destruct (majority_range t mv mc Hm) as (_ & _ & Hmv).
  pose proof (inv_threshold t Hinv).
  destruct mv as [mv|]; [|lia]. destruct Hmv as [Hmv _].
  rewrite (quorumVote_spec t mv Hinv); [done|]. unfold count. rewrite Hmv. simpl. lia.
Qed.

(** [decideVoters] never panics and does what [decided] says: its result does
    not depend on the order in which either map is visited. *)
Lemma decideVoters_eq t : sub_inv t -> decideVoters t = (Ok tt, decided t).
Proof.
  intros Hinv. pose proof (inv_threshold t Hinv) as Hpos.
  unfold decideVoters, decided. unfold_M.
  destruct (majority _) as [mv mc] eqn:Hm. rewrite (pending_eq t mv mc Hinv Hm).
  assert (Hfinish : forall ms, done t || (threshold t <=? maxCount t) || ms =
    (done t || negb (done t) && ((threshold t <=? maxCount t) || ms))).
  { intros ms. by destruct (done t), (threshold t <=? maxCount t), ms. }
  unfold settledVoters. destruct (pending t) eqn:Hp.
  - rewrite mustSignalVoters_eq by done. rewrite Hfinish. unfold close_done.
    destruct t as [d th vs cs]; simpl in *. destruct d; simpl; [done|].
    by match goal with |- context [orb ?a ?b] => destruct (orb a b) end.
  - rewrite settle_eq.
    + rewrite mustSignalVoters_eq by done. rewrite Hfinish. unfold close_done, with_voters. simpl.
      rewrite (map_fmap_ext _ (settled (threshold t) (quorumVote t) (maxCount t)));
        [|intros; by apply settled_quorum].
      unfold maxCount. simpl. destruct (done t) eqn:Hd; simpl; [done|].
      by match goal with |- context [orb ?a ?b] => destruct (orb a b) end; rewrite ?Hd.
    + destruct (Z.ltb_spec mc (threshold t)); [by left|right]. intros ->.
      destruct (majority_range t None mc Hm) as (_ & _ & ?). lia.
Qed.

End DecideVoters.

(** ** Preservation *)

(** A change of results only, which withdraws nobody's withdrawal and commits
    only voters of a vote that has the quorum, keeps the invariant. *)
Definition results_change (t t' : subtransaction) (w w' : Voter) : Prop :=
  Votes w' = Votes w /\ vote w' = vote w /\
  (result w = VoteCanceled -> result w' = VoteCanceled) /\
  (result w' = VoteCommitted ->
    done t' = true /\ exists v, vote w = Some v /\ threshold t <= count t v) /\
  (vote w = None -> result w' ≠ VoteFailed).

Lemma sub_inv_results t t' :
  sub_inv t -> threshold t' = threshold t -> voteCounts t' = voteCounts t ->
  map_Forall2 (fun _ => results_change t t') (votersByNode t) (votersByNode t') ->
  sub_inv t'.
Proof.
  intros Hinv Hth Hc Hm.
  assert (Hcount : forall v, count t' v = count t v) by (intros v; unfold count; by rewrite Hc).
  assert (Hlook : forall n w', votersByNode t' !! n = Some w' ->
    exists w, votersByNode t !! n = Some w /\ results_change t t' w w').
  { intros n w' Hn. specialize (Hm n). rewrite Hn in Hm. inversion Hm; eauto. }
  assert (Htot : total (votersByNode t') <= total (votersByNode t)).
  { apply msum_rel_le. intros n. specialize (Hm n).
    destruct Hm as [w w' (Hw & _)|]; constructor. by rewrite Hw. }
  constructor.
  - rewrite Hth. apply Hinv.
  - intros n w' (w & Hn & Hw & _)%Hlook. rewrite Hw. by apply (inv_votes t Hinv n).
  - pose proof (inv_total t Hinv). lia.
  - rewrite Hth. pose proof (inv_quorum t Hinv). lia.
  - intros v. rewrite Hcount. etrans; [apply (inv_count_upper t Hinv)|].
    apply msum_rel_le. intros n. specialize (Hm n).
    destruct Hm as [w w' (Hw & Hv & _)|]; constructor. unfold castWeight. by rewrite Hw, Hv.
  - intros v. rewrite Hcount. etrans; [|apply (inv_count_lower t Hinv)].
    apply msum_rel_le. intros n. specialize (Hm n). destruct (votersByNode t !! n) as [w0|] eqn:Hn0.
    + inversion Hm as [w w' (Hw & Hv & Hcan & _)|]; subst. constructor.
      unfold supportWeight. case_decide as Hr'; case_decide as Hr; try done.
      * by apply (castWeight_nonneg t Hinv v n).
      * exfalso. auto.
      * unfold castWeight. by rewrite Hw, Hv.
    + inversion Hm. constructor.
  - intros n w' (w & Hn & _ & Hv & _ & Hcom & _)%Hlook Hr. rewrite Hth, Hv.
    setoid_rewrite Hcount. auto.
  - intros n w' (w & Hn & _ & Hv & _ & _ & Hnv)%Hlook. rewrite Hv. auto.
Qed.

Lemma settled_cases t w :
  let w' := settled (threshold t) (quorumVote t) (maxCount t) w in
  voter_step w w' /\ vote w' = vote w /\
  (result w' = result w \/ result w = VoteUndecided /\ vote w ≠ None /\
    (result w' = VoteFailed \/ result w' = VoteCommitted /\ vote w = quorumVote t /\
       threshold t <= maxCount t)).
Proof.
  unfold settled. simpl. case_decide as Hu; [|split_and!; by auto].
  destruct (vote w) as [v|] eqn:Hv; [|split_and!; by auto].
  destruct (Z.ltb_spec (maxCount t) (threshold t)); [|case_decide as Hq];
    (split_and!; [split_and!; by auto|done|right; split_and!; [done|done|]]); auto.
Qed.

Lemma maxCount_quorum t v :
  sub_inv t -> threshold t <= maxCount t -> quorumVote t = Some v -> threshold t <= count t v.
Proof.
  intros Hinv Hle Hq. destruct (maxCount_spec t) as (_ & _ & [?|[v' Hv']]).
  { pose proof (inv_threshold t Hinv). lia. }
  assert (threshold t <= count t v') by (unfold count; by rewrite Hv').
  by rewrite (quorumVote_spec t v') in Hq by done; simplify_eq.
Qed.

Lemma decided_inv t : sub_inv t -> sub_inv (decided t) /\ sub_step t (decided t).
Proof.
  intros Hinv.
  assert (Hstep : forall n w, votersByNode t !! n = Some w ->
    exists w', settledVoters t !! n = Some w' /\ voter_step w w' /\ results_change t (decided t) w w').
  { intros n w Hn. unfold settledVoters. destruct (pending t) eqn:Hp.
    - exists w. split; [done|]. split; [done|]. split_and!; [done..| |].
      + intros Hr. destruct (inv_committed t Hinv n w Hn Hr) as [Hd ?].
        split; [|done]. unfold decided. simpl. by rewrite Hd.
      + by apply (inv_no_vote t Hinv n).
    - destruct (settled_cases t w) as (Hvs & Hv & Hr). rewrite lookup_fmap, Hn. eexists.
      split; [done|]. split; [done|]. split_and!; [apply Hvs|done| | |].
      + intros Hc. destruct Hr as [->|[? _]]; congruence.
      + intros Hc. destruct Hr as [Hr|(_ & Hnv & [?|(_ & Hq & Hle)])]; [|congruence|].
        * destruct (inv_committed t Hinv n w Hn) as [Hd ?]; [congruence|].
          split; [|done]. unfold decided. simpl. by rewrite Hd.
        * split; [unfold decided; simpl; apply Z.leb_le in Hle; rewrite Hle; by rewrite orb_true_r|].
          destruct (vote w) as [v|] eqn:Hvw; [|done]. exists v. split; [done|].
          apply (maxCount_quorum t v Hinv Hle). congruence.
      + intros Hvn. destruct Hr as [->|(_ & ? & _)]; [|congruence].
        by apply (inv_no_vote t Hinv n). }
  assert (Hdom : forall n, votersByNode t !! n = None -> settledVoters t !! n = None).
  { intros n Hn. unfold settledVoters. destruct (pending t); [done|]. by rewrite lookup_fmap, Hn. }
  split.
  - eapply sub_inv_results; [done..|]. intros n. simpl.
    destruct (votersByNode t !! n) as [w|] eqn:Hn.
    + destruct (Hstep n w Hn) as (w' & -> & _ & ?). by constructor.
    + rewrite (Hdom n Hn). constructor.
  - split_and!; [done|by simpl; intros ->|]. intros n. simpl.
    destruct (votersByNode t !! n) as [w|] eqn:Hn.
    + destruct (Hstep n w Hn) as (w' & -> & ? & _). by constructor.
    + rewrite (Hdom n Hn). constructor.
Qed.

(** Counting a fresh vote and withdrawing one. *)
Definition addVote (node : string) (voter : Voter) (v : Vote) (t : subtransaction) :=
  with_voters (<[node := set_vote v voter]>)
    (with_counts (<[v := u64 (count t v + Votes voter)]>) t).

Definition dropVote (node : string) (voter : Voter) (v : Vote) (t : subtransaction) :=
  with_voters (<[node := set_result VoteCanceled voter]>)
    (with_counts (<[v := u64 (count t v - Votes voter)]>) t).

Lemma voters_insert_step t node w w' :
  votersByNode t !! node = Some w -> voter_step w w' ->
  map_Forall2 (fun _ => voter_step) (votersByNode t) (<[node := w']> (votersByNode t)).
Proof.
  intros Hn Hs n. destruct (decide (node = n)) as [->|Hne].
  - rewrite lookup_insert_eq, Hn. by constructor.
  - rewrite lookup_insert_ne by done. destruct (_ !! n); by constructor.
Qed.

Lemma castWeight_set u v w :
  castWeight u (set_vote v w) = if decide (u = v) then Votes w else 0.
Proof.
  unfold castWeight. simpl. destruct (decide (u = v)), (decide (Some v = Some u)); congruence.
Qed.

Lemma castWeight_none u w : vote w = None -> castWeight u w = 0.
Proof. intros Hv. unfold castWeight. rewrite Hv. by destruct (decide _). Qed.

Lemma castWeight_some u v w :
  vote w = Some v -> castWeight u w = if decide (u = v) then Votes w else 0.
Proof.
  intros Hv. unfold castWeight. rewrite Hv.
  destruct (decide (u = v)), (decide (Some v = Some u)); congruence.
Qed.

Lemma castWeight_result u r w : castWeight u (set_result r w) = castWeight u w.
Proof. done. Qed.

Section AddVote.
Context (t : subtransaction) (node : string) (voter : Voter) (v : Vote).
Context (Hinv : sub_inv t) (Hn : votersByNode t !! node = Some voter).
Context (Hr : result voter = VoteUndecided).

Lemma total_insert w' : Votes w' = Votes voter ->
  total (<[node := w']> (votersByNode t)) = total (votersByNode t).
Proof using Hn. intros Hw. unfold total. rewrite (msum_update _ _ _ voter) by done. lia. Qed.

Lemma addVote_count u : vote voter = None ->
  count (addVote node voter v t) u = count t u + (if decide (u = v) then Votes voter else 0).
Proof using Hinv Hn.
  intros Hv. unfold count at 1, addVote. simpl. case_decide as Hu.
  - subst u. rewrite lookup_insert_eq. simpl. pose proof (count_le_total t Hinv v).
    pose proof (inv_votes t Hinv node voter Hn). pose proof (inv_total t Hinv).
    rewrite u64_small; [lia|]. split; [lia|].
    eapply Z.le_lt_trans; [|exact (inv_total t Hinv)].
    pose proof (inv_count_upper t Hinv v).
    assert (msum (castWeight v) (votersByNode t) + Votes voter <= total (votersByNode t)); [|lia].
    rewrite <- (total_insert (set_vote v voter)) by done.
    replace (msum (castWeight v) (votersByNode t) + Votes voter)
      with (msum (castWeight v) (<[node := set_vote v voter]> (votersByNode t))).
    + apply msum_le. intros n w Hw. unfold castWeight. case_decide; [done|].
      destruct (decide (node = n)) as [<-|Hne].
      * rewrite lookup_insert_eq in Hw. by simplify_eq.
      * rewrite lookup_insert_ne in Hw by done. by apply (inv_votes t Hinv n).
    + rewrite (msum_update _ _ _ voter) by done.
      rewrite castWeight_set, castWeight_none, decide_True by done. lia.
  - rewrite lookup_insert_ne by done. unfold count. lia.
Qed.

Lemma addVote_inv : vote voter = None ->
  sub_inv (addVote node voter v t) /\ sub_step t (addVote node voter v t).
Proof using Hinv Hn Hr.
  intros Hv. split.
  - constructor.
    + apply Hinv.
    + simpl. intros n w. destruct (decide (node = n)) as [<-|Hne].
      * rewrite lookup_insert_eq. intros [= <-]. exact (inv_votes t Hinv node voter Hn).
      * rewrite lookup_insert_ne by done. apply Hinv.
    + simpl. rewrite total_insert by done. apply Hinv.
    + simpl. rewrite total_insert by done. apply Hinv.
    + intros u. rewrite addVote_count by done. simpl.
      rewrite (msum_update _ _ _ voter) by done. rewrite castWeight_set, castWeight_none by done.
      pose proof (inv_count_upper t Hinv u). lia.
    + intros u. rewrite addVote_count by done. simpl.
      rewrite (msum_update _ _ _ voter) by done. unfold supportWeight at 2 3. simpl.
      rewrite Hr, castWeight_set, castWeight_none by done. pose proof (inv_count_lower t Hinv u). simpl. lia.
    + simpl. intros n w. destruct (decide (node = n)) as [<-|Hne].
      * rewrite lookup_insert_eq. intros [= <-]. simpl. congruence.
      * rewrite lookup_insert_ne by done. intros Hn' Hr'.
        destruct (inv_committed t Hinv n w Hn' Hr') as [Hd (u & Hu & Hle)].
        split; [done|]. exists u. split; [done|]. rewrite addVote_count by done.
        pose proof (inv_votes t Hinv node voter Hn). case_decide; lia.
    + simpl. intros n w. destruct (decide (node = n)) as [<-|Hne].
      * rewrite lookup_insert_eq. intros [= <-]. done.
      * rewrite lookup_insert_ne by done. apply Hinv.
  - split_and!; [done..|]. simpl. apply voters_insert_step with voter; [done|].
    split_and!; auto.
Qed.

Lemma dropVote_count u : vote voter = Some v ->
  count (dropVote node voter v t) u = count t u - (if decide (u = v) then Votes voter else 0)
  /\ Votes voter <= count t v.
Proof using Hinv Hn Hr.
  intros Hv.
  assert (Hge : Votes voter <= count t v).
  { etrans; [|apply (inv_count_lower t Hinv)].
    replace (Votes voter) with (supportWeight v voter).
    - apply msum_lookup_le with node; [|done]. intros n w Hw. unfold supportWeight.
      case_decide; [done|]. by apply (castWeight_nonneg t Hinv v n).
    - unfold supportWeight. rewrite Hr, (castWeight_some v v) by done. simpl.
      by rewrite decide_True. }
  split; [|done]. pose proof (inv_votes t Hinv node voter Hn).
  pose proof (count_le_total t Hinv v). pose proof (inv_total t Hinv).
  unfold count at 1, dropVote. simpl. case_decide as Hu.
  - subst u. rewrite lookup_insert_eq. simpl. rewrite u64_small; lia.
  - rewrite lookup_insert_ne by done. unfold count. lia.
Qed.

Lemma dropVote_inv : vote voter = Some v -> done t = false ->
  sub_inv (dropVote node voter v t) /\ sub_step t (dropVote node voter v t).
Proof using Hinv Hn Hr.
  intros Hv Hd. split.
  - constructor.
    + apply Hinv.
    + simpl. intros n w. destruct (decide (node = n)) as [<-|Hne].
      * rewrite lookup_insert_eq. intros [= <-]. exact (inv_votes t Hinv node voter Hn).
      * rewrite lookup_insert_ne by done. apply Hinv.
    + simpl. rewrite total_insert by done. apply Hinv.
    + simpl. rewrite total_insert by done. apply Hinv.
    + intros u. destruct (dropVote_count u Hv) as [-> _]. simpl.
      rewrite (msum_update _ _ _ voter) by done. rewrite castWeight_result.
      pose proof (inv_count_upper t Hinv u). pose proof (inv_votes t Hinv node voter Hn).
      destruct (decide (u = v)); lia.
    + intros u. destruct (dropVote_count u Hv) as [-> _]. simpl.
      rewrite (msum_update _ _ _ voter) by done. unfold supportWeight at 2 3. simpl.
      rewrite Hr, (castWeight_some u v) by done. pose proof (inv_count_lower t Hinv u). simpl. lia.
    + simpl. intros n w. destruct (decide (node = n)) as [<-|Hne].
      * rewrite lookup_insert_eq. by intros [= <-].
      * rewrite lookup_insert_ne by done. intros Hn' Hr'.
        destruct (inv_committed t Hinv n w Hn' Hr'). congruence.
    + simpl. intros n w. destruct (decide (node = n)) as [<-|Hne].
      * rewrite lookup_insert_eq. by intros [= <-].
      * rewrite lookup_insert_ne by done. apply Hinv.
  - split_and!; [done..|]. simpl. apply voters_insert_step with voter; [done|].
    split_and!; auto.
Qed.

End AddVote.

(** ** The operations *)

(** What every operation guarantees: no panic, the invariant, monotone voters. *)
Definition op_ok {A} (t : subtransaction) (r : out TxError A * subtransaction) : Prop :=
  is_panic r.1 = false /\ sub_inv r.2 /\ sub_step t r.2.

Lemma op_ok_refl {A} t (r : out TxError A) : sub_inv t -> is_panic r = false -> op_ok t (r, t).
Proof. intros ? ?. unfold op_ok. by split_and!. Qed.

Lemma op_ok_wrap {A} t f (m : M subtransaction TxError A) :
  op_ok t (m t) -> op_ok t (wrap_err f m t).
Proof. unfold op_ok, wrap_err. by destruct (m t) as [[]]. Qed.

Lemma stop_loop l t :
  NoDup l.*1 -> (forall n w, (n, w) ∈ l -> votersByNode t !! n = Some w) ->
  exists r m,
    for_each l (fun '(node, voter) =>
      match result voter with
      | VoteCanceled => fail ErrTransactionCanceled
      | VoteStopped => fail ErrTransactionStopped
      | VoteUndecided => modify (with_voters (<[node := set_result VoteStopped voter]>))
      | VoteCommitted | VoteFailed => mret tt
      end) t = (r, with_voters (fun _ => m) t) /\
    is_panic r = false /\
    map_Forall2 (fun _ w w' => w' = w \/ w' = stopped w) (votersByNode t) m /\
    (r = Ok tt -> forall n w, (n, w) ∈ l ->
       result w ≠ VoteCanceled /\ result w ≠ VoteStopped /\ m !! n = Some (stopped w)).
Proof.
  revert t. induction l as [|[n w] l IH]; intros t Hnd Hl; simpl.
  { exists (Ok tt), (votersByNode t). split_and!; [by destruct t|done| |].
    - intros n. destruct (_ !! n); constructor. by left.
    - intros _ n w Hin. by apply elem_of_nil in Hin. }
  apply NoDup_cons in Hnd as [Hn Hnd].
  assert (Hw : votersByNode t !! n = Some w) by (apply Hl; by left).
  assert (Hid : map_Forall2 (fun _ w w' => w' = w \/ w' = stopped w) (votersByNode t) (votersByNode t)).
  { intros k. destruct (_ !! k); constructor. by left. }
  unfold_M. destruct (result w) eqn:Hr.
  - (* undecided *)
    destruct (IH (with_voters (<[n := set_result VoteStopped w]>) t)) as (r & m & He & Hp & Hm & Hok).
    { done. }
    { intros k x Hin. simpl. rewrite lookup_insert_ne; [apply Hl; by right|].
      intros <-. apply Hn. apply list_elem_of_fmap. by exists (n, x). }
    exists r, m. unfold_M. rewrite He. split_and!; [done|done| |].
    + intros k. specialize (Hm k). simpl in Hm. destruct (decide (n = k)) as [<-|Hne].
      * rewrite lookup_insert_eq in Hm. rewrite Hw. inversion Hm as [? ? Hor|]; subst. constructor.
        right. unfold stopped in *. simpl in *. rewrite Hr. simpl. by destruct Hor.
      * by rewrite lookup_insert_ne in Hm.
    + intros -> k x [?|Hin]%elem_of_cons; [|by apply (Hok eq_refl)]. simplify_eq.
      split_and!; [congruence..|]. specialize (Hm n). simpl in Hm. rewrite lookup_insert_eq in Hm.
      inversion Hm as [? ? Hor|]; subst. unfold stopped in *. simpl in *. rewrite Hr. simpl.
      by destruct Hor as [->| ->].
  - destruct (IH t Hnd) as (r & m & He & Hp & Hm & Hok); [intros; apply Hl; by right|].
    exists r, m. unfold_M. rewrite He. split_and!; [done..|].
    intros -> k x [?|Hin]%elem_of_cons; [|by apply (Hok eq_refl)]. simplify_eq.
    split_and!; [congruence..|]. specialize (Hm n). rewrite Hw in Hm.
    inversion Hm as [? ? Hor|]; subst. unfold stopped in *. rewrite Hr in *. simpl in *.
    by destruct Hor as [->| ->].
  - destruct (IH t Hnd) as (r & m & He & Hp & Hm & Hok); [intros; apply Hl; by right|].
    exists r, m. unfold_M. rewrite He. split_and!; [done..|].
    intros -> k x [?|Hin]%elem_of_cons; [|by apply (Hok eq_refl)]. simplify_eq.
    split_and!; [congruence..|]. specialize (Hm n). rewrite Hw in Hm.
    inversion Hm as [? ? Hor|]; subst. unfold stopped in *. rewrite Hr in *. simpl in *.
    by destruct Hor as [->| ->].
  - exists (Err ErrTransactionCanceled), (votersByNode t). by split_and!; [destruct t|..].
  - exists (Err ErrTransactionStopped), (votersByNode t). by split_and!; [destruct t|..].
Qed.

Lemma stopped_cases w w' :
  w' = w \/ w' = stopped w ->
  w' = w \/ result w = VoteUndecided /\ w' = set_result VoteStopped w.
Proof. intros [?|Hw]; [by left|]. unfold stopped in Hw. case_decide; auto. Qed.

Section Ops.
Context {RN : MapRange string Voter} {RV : MapRange Vote Z}.

Lemma updateVoterState_ok t node voter nv :
  sub_inv t -> votersByNode t !! node = Some voter ->
  (nv = None -> vote voter ≠ None) ->
  op_ok t (updateVoterState node voter nv t).
Proof.
  intros Hinv Hn Hnv. unfold updateVoterState.
  destruct (result voter) eqn:Hr; try (by apply op_ok_refl).
  destruct nv as [v|].
  - destruct (vote voter) eqn:Hv; [by apply op_ok_refl|]. unfold_M.
    destruct (addVote_inv t node voter v Hinv Hn Hr Hv) as [Hi Hs].
    change (with_voters _ _) with (addVote node voter v t). rewrite decideVoters_eq by done.
    destruct (decided_inv _ Hi). unfold op_ok. split_and!; [done..|]. by etrans.
  - unfold_M. unfold isDone. destruct (done t) eqn:Hd; [by apply op_ok_refl|].
    destruct (vote voter) as [v|] eqn:Hv; [|by destruct Hnv]. unfold_M.
    destruct (dropVote_inv t node voter v Hinv Hn Hr Hv Hd) as [Hi Hs].
    change (with_voters _ _) with (dropVote node voter v t). rewrite decideVoters_eq by done.
    destruct (decided_inv _ Hi). unfold op_ok. split_and!; [done..|]. by etrans.
Qed.

Lemma voteOn_ok t node v : sub_inv t -> op_ok t (voteOn node v t).
Proof.
  intros Hinv. unfold voteOn. unfold mbind, M_bind, get.
  destruct (votersByNode t !! node) as [voter|] eqn:Hn; [|by apply op_ok_refl].
  destruct (vote voter) eqn:Hv; [by apply op_ok_refl|].
  apply op_ok_wrap. by apply updateVoterState_ok.
Qed.

Lemma collectVotes_ok t ctxErr node :
  sub_inv t -> (forall w, votersByNode t !! node = Some w -> vote w ≠ None) ->
  op_ok t (collectVotes ctxErr node t).
Proof.
  intros Hinv Hv. unfold collectVotes. unfold mbind, M_bind, get.
  destruct (votersByNode t !! node) as [voter|] eqn:Hn; [|by apply op_ok_refl].
  destruct ctxErr.
  - assert (Hok : op_ok t (wrap_err ErrCancelVote (updateVoterState node voter None) t)).
    { apply op_ok_wrap, updateVoterState_ok; auto. }
    unfold op_ok in *. by destruct (wrap_err _ _ t) as [[]].
  - destruct (result voter); try by apply op_ok_refl.
    destruct (vote voter); by apply op_ok_refl.
Qed.

Lemma cancel_ok t : sub_inv t -> op_ok t (cancel t).
Proof.
  intros Hinv. rewrite cancel_eq. unfold op_ok. split_and!; [done| |].
  - eapply sub_inv_results; [done..|]. intros n. simpl. rewrite lookup_fmap.
    destruct (votersByNode t !! n) as [w|] eqn:Hn; constructor.
    unfold canceled. destruct (decide _) as [Hu|Hu]; split_and!; try done.
    + intros Hr. split; [done|]. by apply (inv_committed t Hinv n).
    + by apply (inv_no_vote t Hinv n).
  - split_and!; [done..|]. intros n. simpl. rewrite lookup_fmap.
    destruct (votersByNode t !! n) as [w|]; constructor.
    unfold canceled. destruct (decide _); split_and!; auto.
Qed.

Lemma stop_ok t : sub_inv t -> op_ok t (stop t).
Proof.
  intros Hinv. unfold stop, op_ok.
  destruct (stop_loop (range (votersByNode t)) t) as (r & m & He & Hp & Hm & _).
  { apply range_nodup. } { intros n w. apply range_elem. }
  assert (Hw : forall d, (done t = true -> d = true) ->
    sub_inv (mkSub d (threshold t) m (voteCounts t)) /\
    sub_step t (mkSub d (threshold t) m (voteCounts t))).
  { intros d Hd. split.
    - eapply sub_inv_results; [done..|]. intros n. simpl. specialize (Hm n).
      destruct (votersByNode t !! n) as [w|] eqn:Hn; inversion Hm as [? w' Hor|]; subst; constructor.
      destruct (stopped_cases _ _ Hor) as [->|[Hr ->]].
      + split_and!; try done; [|by apply (inv_no_vote t Hinv n)].
        intros Hr. simpl. destruct (inv_committed t Hinv n w Hn Hr). auto.
      + split_and!; try done. congruence.
    - split_and!; [done..|]. intros n. simpl. specialize (Hm n).
      destruct Hm as [w w' Hor|]; constructor.
      destruct (stopped_cases _ _ Hor) as [->|[Hr ->]]; split_and!; auto. }
  unfold_M. rewrite He. destruct r as [[]|e|]; [| |done].
  - unfold isDone, close_done, with_voters. simpl.
    destruct (done t) eqn:Hd; simpl; (split; [done|]); apply Hw; by rewrite ?Hd.
  - split; [done|]. apply (Hw (done t)). done.
Qed.

End Ops.

(** ** Fresh subtransactions *)

Definition sumVotes (voters : list Voter) : Z := foldr (fun w acc => Votes w + acc) 0 voters.

Lemma sumVotes_nonneg l : (forall w, w ∈ l -> 0 <= Votes w) -> 0 <= sumVotes l.
Proof.
  induction l as [|x l IH]; intros Hw; simpl; [lia|].
  assert (0 <= Votes x) by (apply Hw; by left).
  assert (0 <= sumVotes l); [|lia]. apply IH. intros y Hy. apply Hw. by right.
Qed.

(** Voters a transaction may be registered with. *)
Record fresh_voters (voters : list Voter) (thr : Z) : Prop := {
  fresh_names : NoDup (Name <$> voters);
  fresh_voter : forall w, w ∈ voters -> 0 <= Votes w /\ vote w = None /\ result w = VoteUndecided;
  fresh_nonempty : voters ≠ [];
  fresh_total : sumVotes voters < 2 ^ 64;
  fresh_quorum : sumVotes voters < 2 * thr;
}.

Lemma newSubtransaction_map l : forall m : gmap string Voter,
  NoDup (Name <$> l) -> (forall w, w ∈ l -> m !! Name w = None) ->
  let m' := foldl (fun m voter => <[Name voter := voter]> m) m l in
  (forall n w, m' !! n = Some w <-> m !! n = Some w \/ w ∈ l /\ Name w = n) /\
  total m' = total m + sumVotes l.
Proof.
  induction l as [|w0 l IH]; intros m Hnd Hm; simpl.
  { split; [|lia]. intros n w. split; [by left|]. intros [?|[Hin _]]; [done|].
    by apply elem_of_nil in Hin. }
  apply NoDup_cons in Hnd as [Hn0 Hnd].
  destruct (IH (<[Name w0 := w0]> m) Hnd) as [Hl Ht].
  { intros w Hw. rewrite lookup_insert_ne; [apply Hm; by right|].
    intros Heq. apply Hn0. rewrite Heq. by apply list_elem_of_fmap_2. }
  split.
  - intros n w. rewrite Hl, lookup_insert_Some, elem_of_cons.
    split; [naive_solver|]. intros [Hn|[[->|Hin] Hn]]; [|by left; left|by right].
    destruct (decide (Name w0 = n)) as [<-|Hne]; [|by left; right].
    rewrite Hm in Hn by (by left). done.
  - rewrite Ht. unfold total. rewrite msum_insert by (apply Hm; by left). lia.
Qed.

Section Fresh.
Context (voters : list Voter) (thr : Z) (Hf : fresh_voters voters thr).

Lemma newSubtransaction_lookup n w :
  votersByNode (newSubtransaction voters thr) !! n = Some w <-> w ∈ voters /\ Name w = n.
Proof using Hf.
  unfold newSubtransaction. simpl.
  destruct (newSubtransaction_map voters ∅) as [-> _]; [apply Hf|intros; apply lookup_empty|].
  rewrite lookup_empty. naive_solver.
Qed.

Lemma newSubtransaction_total :
  total (votersByNode (newSubtransaction voters thr)) = sumVotes voters.
Proof using Hf.
  unfold newSubtransaction. simpl.
  destruct (newSubtransaction_map voters ∅) as [_ ->]; [apply Hf|intros; apply lookup_empty|].
  unfold total. by rewrite msum_empty.
Qed.

Lemma newSubtransaction_fresh n w :
  votersByNode (newSubtransaction voters thr) !! n = Some w ->
  0 <= Votes w /\ vote w = None /\ result w = VoteUndecided.
Proof using Hf. intros [Hw _]%newSubtransaction_lookup. by apply Hf. Qed.

Lemma msum_castWeight_fresh v :
  msum (castWeight v) (votersByNode (newSubtransaction voters thr)) = 0.
Proof using Hf.
  rewrite <- (msum_zero (votersByNode (newSubtransaction voters thr))).
  apply msum_ext. intros n w Hn. apply castWeight_none. by apply (newSubtransaction_fresh n).
Qed.

Lemma newSubtransaction_inv : sub_inv (newSubtransaction voters thr).
Proof using Hf.
  assert (0 <= sumVotes voters).
  { rewrite <- newSubtransaction_total. apply msum_nonneg. intros n w Hn.
    by apply (newSubtransaction_fresh n). }
  constructor.
  - simpl. pose proof (fresh_quorum _ _ Hf). lia.
  - intros n w Hn. by apply (newSubtransaction_fresh n).
  - rewrite newSubtransaction_total. apply Hf.
  - rewrite newSubtransaction_total. apply Hf.
  - intros v. rewrite msum_castWeight_fresh. unfold count. simpl. by rewrite lookup_empty.
  - intros v. unfold count. simpl. rewrite lookup_empty. simpl.
    rewrite <- (msum_castWeight_fresh v). apply msum_le. intros n w Hn.
    unfold supportWeight. case_decide; [|done]. by rewrite castWeight_none by (by apply (newSubtransaction_fresh n)).
  - intros n w Hn Hr. destruct (newSubtransaction_fresh n w Hn) as (_ & _ & ?). congruence.
  - intros n w Hn _. destruct (newSubtransaction_fresh n w Hn) as (_ & _ & ?). congruence.
Qed.

End Fresh.

(** ** The abstract quorum rule

    A ballot assigns votes to node names. A vote wins when the nodes that cast
    it have at least [thr] votes between them. *)

Definition ballotWeight (voters : list Voter) (ballots : gmap string Vote) (v : Vote) : Z :=
  sumVotes (filter (fun w => ballots !! Name w = Some v) voters).

Definition quorumResult (voters : list Voter) (thr : Z) (ballots : gmap string Vote)
    (node : string) : VoteResult :=
  match ballots !! node with
  | None => VoteUndecided
  | Some v => if thr <=? ballotWeight voters ballots v then VoteCommitted else VoteFailed
  end.

(** The invariant of a session in which nobody cancels or stops. *)
Record live (t : subtransaction) : Prop := {
  live_inv : sub_inv t;
  live_count : forall v, count t v = msum (castWeight v) (votersByNode t);
  live_voter : forall n w, votersByNode t !! n = Some w ->
    match vote w with
    | None => result w = VoteUndecided
    | Some v =>
      match result w with
      | VoteUndecided => pending t = true
      | VoteCommitted => threshold t <= count t v
      | VoteFailed => count t v + msum absentWeight (votersByNode t) < threshold t
      | VoteCanceled | VoteStopped => False
      end
    end;
  live_done : map_Forall (fun _ w => result w ≠ VoteUndecided) (votersByNode t) -> done t = true;
}.

Lemma newSubtransaction_live voters thr :
  fresh_voters voters thr -> live (newSubtransaction voters thr).
Proof.
  intros Hf. constructor.
  - by apply newSubtransaction_inv.
  - intros v. rewrite msum_castWeight_fresh by done. unfold count. simpl. by rewrite lookup_empty.
  - intros n w Hn. destruct (newSubtransaction_fresh voters thr Hf n w Hn) as (_ & -> & ?). done.
  - intros Hall. destruct voters as [|w l] eqn:E; [by destruct (fresh_nonempty _ _ Hf)|].
    exfalso. apply (Hall (Name w) w).
    + apply newSubtransaction_lookup; [done|]. split; [by left|done].
    + apply (fresh_voter _ _ Hf). by left.
Qed.

(** The two votes [u] and [q] and the absent voters share the total. *)
Lemma weights_disjoint t u q : sub_inv t -> u ≠ q ->
  msum (castWeight u) (votersByNode t) + msum (castWeight q) (votersByNode t)
  + msum absentWeight (votersByNode t) <= total (votersByNode t).
Proof.
  intros Hinv Hne. rewrite <- !msum_add. apply msum_le. intros n w Hn.
  pose proof (inv_votes t Hinv n w Hn). unfold absentWeight.
  destruct (vote w) as [x|] eqn:Hv.
  - rewrite !(castWeight_some _ x) by done. repeat case_decide; congruence || lia.
  - rewrite !castWeight_none by done. lia.
Qed.

Lemma settledVoters_same t f : (forall w r, f (set_result r w) = f w) ->
  msum f (settledVoters t) = msum f (votersByNode t) :> Z.
Proof.
  intros Hf. unfold settledVoters. destruct (pending t); [done|].
  rewrite msum_fmap. apply msum_ext. intros n w _. unfold settled.
  case_decide; [|done]. destruct (vote w); [|done].
  destruct (_ <? _); [apply Hf|]. case_decide; apply Hf.
Qed.

Lemma pending_decided t : pending (decided t) = pending t.
Proof.
  unfold pending. simpl. rewrite settledVoters_same by done. done.
Qed.

(** Before settling: as [live], but undecided voters carry no promise. *)
Definition live_voter_weak (t : subtransaction) (w : Voter) : Prop :=
  match vote w with
  | None => result w = VoteUndecided
  | Some v =>
    match result w with
    | VoteUndecided => True
    | VoteCommitted => threshold t <= count t v
    | VoteFailed => count t v + msum absentWeight (votersByNode t) < threshold t
    | VoteCanceled | VoteStopped => False
    end
  end.

Lemma addVote_weak t node w v :
  live t -> votersByNode t !! node = Some w -> vote w = None ->
  forall n x, votersByNode (addVote node w v t) !! n = Some x ->
  live_voter_weak (addVote node w v t) x.
Proof.
  intros Hl Hn Hv n x. pose proof (live_inv t Hl) as Hinv.
  pose proof (live_voter t Hl node w Hn) as Hw. rewrite Hv in Hw. simpl.
  pose proof (inv_votes t Hinv node w Hn) as Hpos.
  destruct (decide (node = n)) as [<-|Hne].
  { rewrite lookup_insert_eq. intros [= <-]. unfold live_voter_weak. simpl. by rewrite Hw. }
  rewrite lookup_insert_ne by done. intros Hx. pose proof (live_voter t Hl n x Hx) as Hlx.
  unfold live_voter_weak. destruct (vote x) as [u|]; [|done].
  rewrite (addVote_count t node w v Hinv Hn u Hv).
  destruct (result x); try done; simpl.
  - case_decide; lia.
  - rewrite (msum_update _ _ _ w) by done. unfold absentWeight at 2 3. rewrite Hv. simpl.
    case_decide; lia.
Qed.

Lemma decided_live t :
  sub_inv t -> (forall v, count t v = msum (castWeight v) (votersByNode t)) ->
  (forall n w, votersByNode t !! n = Some w -> live_voter_weak t w) ->
  live (decided t).
Proof.
  intros Hinv Hc Hw. destruct (decided_inv t Hinv) as [Hinv' _].
  assert (Hcount : forall v, count (decided t) v = count t v) by done.
  assert (Habs : msum absentWeight (votersByNode (decided t)) = msum absentWeight (votersByNode t)).
  { simpl. by rewrite settledVoters_same. }
  constructor; [done| | |].
  - intros v. rewrite Hcount, Hc. simpl. by rewrite settledVoters_same.
  - intros n w' Hn'. rewrite pending_decided, Habs. simpl in Hn'. unfold settledVoters in Hn'.
    destruct (pending t) eqn:Hp.
    { specialize (Hw n w' Hn'). unfold live_voter_weak in Hw.
      destruct (vote w'); [|done]. by destruct (result w'). }
    rewrite lookup_fmap in Hn'. destruct (votersByNode t !! n) as [w|] eqn:Hn; [|done].
    simpl in Hn'. injection Hn' as <-. specialize (Hw n w Hn). unfold live_voter_weak in Hw.
    unfold settled. case_decide as Hr.
    + destruct (vote w) as [u|] eqn:Hv; [|by rewrite Hv].
      destruct (maxCount_spec t) as (_ & Hmax & _). specialize (Hmax u).
      unfold pending in Hp. destruct (Z.ltb_spec (maxCount t) (threshold t)) as [Hlt|Hge].
      * simpl in *. rewrite Hv. apply Z.leb_gt in Hp. change (count (decided t) u) with (count t u). lia.
      * case_decide as Hq; simpl; rewrite Hv; change (count (decided t) u) with (count t u).
        -- by apply maxCount_quorum.
        -- assert (exists q, quorumVote t = Some q /\ threshold t <= count t q) as (q & Hq' & Hqc).
           { destruct (maxCount_spec t) as (_ & _ & [?|[q Hq']]).
             - pose proof (inv_threshold t Hinv). lia.
             - exists q. assert (threshold t <= count t q) by (unfold count; by rewrite Hq').
               split; [by apply quorumVote_spec|done]. }
           assert (u ≠ q) by congruence.
           pose proof (weights_disjoint t u q Hinv H). pose proof (inv_quorum t Hinv).
           rewrite !Hc in *. lia.
    + destruct (vote w) as [u|] eqn:Hv; rewrite ?Hv; [|done].
      by destruct (result w).
  - intros Hall. simpl. apply orb_true_iff. right. by apply bool_decide_eq_true.
Qed.

Section Refinement.
Context {RN : MapRange string Voter} {RV : MapRange Vote Z}.

Lemma voteOn_live t node w v :
  live t -> votersByNode t !! node = Some w -> vote w = None ->
  voteOn node v t = (Ok tt, decided (addVote node w v t)) /\
  live (decided (addVote node w v t)).
Proof.
  intros Hl Hn Hv. pose proof (live_inv t Hl) as Hinv.
  pose proof (live_voter t Hl node w Hn) as Hr. rewrite Hv in Hr.
  destruct (addVote_inv t node w v Hinv Hn Hr Hv) as [Hi _]. split.
  - unfold voteOn. unfold_M. rewrite Hn, Hv. unfold updateVoterState. rewrite Hr, Hv. unfold_M.
    change (with_voters _ _) with (addVote node w v t). by rewrite decideVoters_eq.
  - apply decided_live; [done| |].
    + intros u. rewrite (addVote_count t node w v Hinv Hn u Hv), (live_count t Hl). simpl.
      rewrite (msum_update _ _ _ w) by done. rewrite castWeight_set, castWeight_none by done. lia.
    + intros n x. by apply addVote_weak.
Qed.

(** Votes recorded in a state. *)
Definition recorded (t : subtransaction) (n : string) : option Vote :=
  votersByNode t !! n ≫= vote.

Lemma recorded_decided t node w v n :
  votersByNode t !! node = Some w ->
  recorded (decided (addVote node w v t)) n = if decide (n = node) then Some v else recorded t n.
Proof.
  intros Hn. unfold recorded. simpl.
  assert (Hs : forall s k, settledVoters s !! k ≫= vote = votersByNode s !! k ≫= vote).
  { intros s k. unfold settledVoters. destruct (pending s); [done|]. rewrite lookup_fmap.
    destruct (votersByNode s !! k) as [x|]; [|done]. simpl.
    by destruct (settled_cases s x) as (_ & -> & _). }
  rewrite Hs. simpl. case_decide as He.
  - subst n. by rewrite lookup_insert_eq.
  - by rewrite lookup_insert_ne.
Qed.

Lemma run_votes l : forall t,
  live t -> NoDup l.*1 ->
  (forall n, n ∈ l.*1 -> exists w, votersByNode t !! n = Some w /\ vote w = None) ->
  exists t', for_each l (fun '(n, v) => voteOn n v) t = (Ok tt, t') /\ live t' /\ sub_step t t' /\
    forall n, recorded t' n =
      match (list_to_map l : gmap string Vote) !! n with Some v => Some v | None => recorded t n end.
Proof.
  induction l as [|[n v] l IH]; intros t Hl Hnd Hin; simpl.
  { exists t. split_and!; [done..|]. intros n. by rewrite lookup_empty. }
  apply NoDup_cons in Hnd as [Hn Hnd].
  destruct (Hin n) as (w & Hw & Hv); [by left|].
  destruct (voteOn_live t n w v Hl Hw Hv) as [He Hl'].
  assert (Hst : sub_step t (decided (addVote n w v t))).
  { pose proof (live_inv t Hl) as Hinv. pose proof (live_voter t Hl n w Hw) as Hr.
    rewrite Hv in Hr. destruct (addVote_inv t n w v Hinv Hw Hr Hv) as [Hi Hs].
    etrans; [exact Hs|]. by apply decided_inv. }
  destruct (IH (decided (addVote n w v t)) Hl' Hnd) as (t' & He' & Hl'' & Hst' & Hrec).
  { intros k Hk. destruct (Hin k) as (x & Hx & Hvx); [by right|].
    destruct (sub_step_lookup_l _ _ k x Hst Hx) as (x' & Hx' & _). exists x'. split; [done|].
    pose proof (recorded_decided t n w v k Hw) as Hr. unfold recorded in Hr.
    rewrite Hx', Hx in Hr. simpl in Hr. rewrite Hr, decide_False; [done|].
    intros ->. by apply Hn. }
  exists t'. unfold_M. rewrite He. split_and!; [done|done|by etrans|].
  intros k. rewrite Hrec. destruct (decide (n = k)) as [->|Hne].
  - rewrite lookup_insert_eq, (not_elem_of_list_to_map_1 _ k) by done.
    rewrite (recorded_decided _ _ _ _ _ Hw). by rewrite decide_True.
  - rewrite lookup_insert_ne by done. destruct (_ !! k); [done|].
    rewrite (recorded_decided _ _ _ _ _ Hw). by rewrite decide_False.
Qed.

End Refinement.

(** Summing over a list of voters and over the map built from it. *)
Lemma ballotWeight_msum voters thr (ballots : gmap string Vote) v :
  fresh_voters voters thr ->
  ballotWeight voters ballots v
  = msum (fun w => if decide (ballots !! Name w = Some v) then Votes w else 0)
      (votersByNode (newSubtransaction voters thr)).
Proof.
  intros Hf. unfold ballotWeight, newSubtransaction. simpl.
  assert (Hgen : forall l (m : gmap string Voter), NoDup (Name <$> l) ->
    (forall w, w ∈ l -> m !! Name w = None) ->
    msum (fun w => if decide (ballots !! Name w = Some v) then Votes w else 0)
      (foldl (fun m voter => <[Name voter := voter]> m) m l)
    = msum (fun w => if decide (ballots !! Name w = Some v) then Votes w else 0) m
      + sumVotes (filter (fun w => ballots !! Name w = Some v) l)).
  { intros l. induction l as [|w0 l IH]; intros m Hnd Hm; [simpl; lia|].
    apply NoDup_cons in Hnd as [Hn0 Hnd].
    change (foldl _ m (w0 :: l)) with (foldl (fun m voter => <[Name voter := voter]> m) (<[Name w0 := w0]> m) l).
    rewrite IH; [|done|].
    - rewrite msum_insert by (apply Hm; by left). rewrite filter_cons.
      destruct (decide (ballots !! Name w0 = Some v)); simpl; lia.
    - intros w Hw. rewrite lookup_insert_ne; [apply Hm; by right|].
      intros Heq. apply Hn0. rewrite Heq. by apply list_elem_of_fmap_2. }
  rewrite Hgen; [by rewrite msum_empty|apply Hf|intros; apply lookup_empty].
Qed.

(** The count of a vote is the weight of its ballots. *)
Lemma count_ballotWeight voters thr (ballots : gmap string Vote) t v :
  fresh_voters voters thr -> live t -> sub_step (newSubtransaction voters thr) t ->
  (forall n, is_Some (votersByNode t !! n) -> recorded t n = ballots !! n) ->
  count t v = ballotWeight voters ballots v.
Proof.
  intros Hf Hl Hs Hb. rewrite (live_count t Hl), (ballotWeight_msum voters thr) by done.
  assert (Heq : forall n w w',
    votersByNode (newSubtransaction voters thr) !! n = Some w -> votersByNode t !! n = Some w' ->
    voter_step w w' ->
    castWeight v w' = if decide (ballots !! Name w = Some v) then Votes w else 0).
  { intros n w w' Hn Hn' (Hname & Hvotes & _). apply newSubtransaction_lookup in Hn as [_ Hn]; [|done].
    rewrite Hn, <- Hb, <- Hvotes by eauto. unfold recorded. rewrite Hn'. simpl. done. }
  apply Z.le_antisymm.
  - apply msum_rel_le. intros n. destruct (votersByNode t !! n) as [w'|] eqn:Hn'.
    + destruct (sub_step_lookup _ _ n w' Hs Hn') as (w & Hn & Hst). rewrite Hn. constructor.
      by rewrite (Heq n w w').
    + destruct (votersByNode (newSubtransaction voters thr) !! n) as [w|] eqn:Hn; [|constructor].
      destruct (sub_step_lookup_l _ _ n w Hs Hn) as (? & ? & _). congruence.
  - apply msum_rel_le. intros n.
    destruct (votersByNode (newSubtransaction voters thr) !! n) as [w|] eqn:Hn.
    + destruct (sub_step_lookup_l _ _ n w Hs Hn) as (w' & Hn' & Hst). rewrite Hn'. constructor.
      by rewrite (Heq n w w').
    + destruct (votersByNode t !! n) as [w'|] eqn:Hn'; [|constructor].
      destruct (sub_step_lookup _ _ n w' Hs Hn') as (? & ? & _). congruence.
Qed.

Lemma absent_zero t :
  (forall n w, votersByNode t !! n = Some w -> vote w ≠ None) ->
  msum absentWeight (votersByNode t) = 0.
Proof.
  intros Hv. rewrite <- (msum_zero (votersByNode t)). apply msum_ext. intros n w Hn.
  unfold absentWeight. specialize (Hv n w Hn). by destruct (vote w).
Qed.

(** When everybody has voted, everybody is decided by the weight of its vote. *)
Lemma live_all_voted t :
  live t -> (forall n w, votersByNode t !! n = Some w -> vote w ≠ None) ->
  done t = true /\ forall n w v, votersByNode t !! n = Some w -> vote w = Some v ->
    result w = if threshold t <=? count t v then VoteCommitted else VoteFailed.
Proof.
  intros Hl Hall. pose proof (absent_zero t Hall) as Habs.
  assert (Hres : forall n w v, votersByNode t !! n = Some w -> vote w = Some v ->
    result w = if threshold t <=? count t v then VoteCommitted else VoteFailed).
  { intros n w v Hn Hv. pose proof (live_voter t Hl n w Hn) as Hw. rewrite Hv in Hw.
    destruct (Z.leb_spec (threshold t) (count t v)), (result w) eqn:Hr; try done; try lia.
    all: unfold pending in Hw; apply andb_true_iff in Hw as [?%Z.ltb_lt ?%Z.leb_le]; lia. }
  split; [|done]. apply (live_done t Hl). intros n w Hn Hr. specialize (Hall n w Hn).
  destruct (vote w) as [v|] eqn:Hv; [|done]. specialize (Hres n w v Hn Hv).
  rewrite Hr in Hres. by destruct (_ <=? _).
Qed.

(** C11. Once every registered node has cast its vote, in whatever order the votes
    arrive and the maps are visited, no call has failed, the waiting nodes have
    been woken up, and every node's result is the one the abstract quorum rule
    gives: committed when its vote has the threshold's weight, failed otherwise. *)
Theorem subtransaction_refines_quorum (RN : MapRange string Voter) (RV : MapRange Vote Z)
    voters thr (ballots : list (string * Vote)) :
  fresh_voters voters thr -> ballots.*1 ≡ₚ Name <$> voters ->
  exists t',
    for_each ballots (fun '(n, v) => voteOn n v) (newSubtransaction voters thr) = (Ok tt, t') /\
    done t' = true /\
    forall w, w ∈ voters ->
      getResult t' (Name w) = Ok (quorumResult voters thr (list_to_map ballots) (Name w)).
Proof.
  intros Hf Hb.
  assert (Hnd : NoDup ballots.*1) by (rewrite Hb; apply Hf).
  destruct (run_votes ballots (newSubtransaction voters thr)) as (t' & He & Hl & Hs & Hrec); [|done| |].
  { by apply newSubtransaction_live. }
  { intros n Hn. rewrite Hb in Hn. apply list_elem_of_fmap in Hn as (w & -> & Hw). exists w.
    split; [by apply newSubtransaction_lookup|by apply Hf]. }
  assert (Hall : forall n w, votersByNode t' !! n = Some w ->
    exists v, vote w = Some v /\ (list_to_map ballots : gmap string Vote) !! n = Some v).
  { intros n w Hn. destruct (sub_step_lookup _ _ n w Hs Hn) as (w0 & Hn0 & _).
    apply newSubtransaction_lookup in Hn0 as [Hw0 <-]; [|done].
    assert (Hin : Name w0 ∈ ballots.*1) by (rewrite Hb; by apply list_elem_of_fmap_2).
    apply list_elem_of_fmap in Hin as ([n' v] & Heq & Hin). simpl in Heq.
    apply elem_of_list_to_map_1 in Hin; [|done]. rewrite <- Heq in Hin.
    exists v. split; [|done]. specialize (Hrec (Name w0)). rewrite Hin in Hrec.
    unfold recorded in Hrec. by rewrite Hn in Hrec. }
  exists t'. destruct (live_all_voted t' Hl) as [Hd Hres].
  { intros n w Hn. destruct (Hall n w Hn) as (v & -> & _). done. }
  split_and!; [done..|]. intros w Hw.
  destruct (sub_step_lookup_l _ _ (Name w) w Hs) as (w' & Hn' & _); [by apply newSubtransaction_lookup|].
  destruct (Hall _ _ Hn') as (v & Hv & Hbv).
  unfold getResult, quorumResult. rewrite Hn', Hbv, (Hres _ _ v Hn' Hv). f_equal.
  rewrite (count_ballotWeight voters thr (list_to_map ballots) t' v) by
    (try done; intros n [x Hx]; destruct (Hall n x Hx) as (u & Hu & ->);
     unfold recorded; by rewrite Hx).
  destruct Hs as (-> & _). done.
Qed.

(** Casting a vote, and withdrawing one whose caller's context is done, give the
    same result and the same state for every order in which Go may visit the
    voters and the vote counts. *)
Theorem vote_order_independent (RN RN' : MapRange string Voter) (RV RV' : MapRange Vote Z) t node v :
  sub_inv t ->
  @voteOn RN RV node v t = @voteOn RN' RV' node v t /\
  ((forall w, votersByNode t !! node = Some w -> vote w ≠ None) ->
   @collectVotes RN RV true node t = @collectVotes RN' RV' true node t).
Proof.
  intros Hinv.
  assert (Hup : forall voter nv, votersByNode t !! node = Some voter ->
    (nv = None -> vote voter ≠ None) ->
    @updateVoterState RN RV node voter nv t = @updateVoterState RN' RV' node voter nv t).
  { intros voter nv Hn Hnv. unfold updateVoterState. destruct (result voter) eqn:Hr; try done.
    destruct nv as [u|].
    - destruct (vote voter) eqn:Hv; [done|]. unfold_M.
      change (with_voters _ _) with (addVote node voter u t).
      destruct (addVote_inv t node voter u Hinv Hn Hr Hv). by rewrite !decideVoters_eq.
    - unfold_M. unfold isDone. destruct (done t) eqn:Hd; [done|].
      destruct (vote voter) as [u|] eqn:Hv; [|by destruct Hnv]. unfold_M.
      change (with_voters _ _) with (dropVote node voter u t).
      destruct (dropVote_inv t node voter u Hinv Hn Hr Hv Hd). by rewrite !decideVoters_eq. }
  split.
  - unfold voteOn. unfold_M. destruct (votersByNode t !! node) as [voter|] eqn:Hn; [|done].
    destruct (vote voter) eqn:Hv; [done|]. by rewrite (Hup voter).
  - intros Hv. unfold collectVotes. unfold_M.
    destruct (votersByNode t !! node) as [voter|] eqn:Hn; [|done]. by rewrite (Hup voter); auto.
Qed.

(** ** Example *)

Definition range_nodes : MapRange string Voter := default_range string Voter.
Definition range_votes : MapRange Vote Z := default_range Vote Z.

Definition voter (name : string) (votes : Z) : Voter := mkVoter name votes None VoteUndecided.

Definition three_voters : list Voter := [voter "a" 2; voter "b" 1; voter "c" 1].

Lemma three_voters_fresh : fresh_voters three_voters 3.
Proof.
  constructor.
  - apply (bool_decide_unpack _). by vm_compute.
  - intros w Hw. unfold three_voters in Hw.
    by apply elem_of_cons in Hw as [->|[->|[->|[]%elem_of_nil]%elem_of_cons]%elem_of_cons].
  - done.
  - by vm_compute.
  - by vm_compute.
Qed.

Lemma subtransaction_refines_quorum_witness :
  exists t',
    for_each [("c", B "x"); ("b", B "y"); ("a", B "x")]
      (fun '(n, v) => @voteOn range_nodes range_votes n v) (newSubtransaction three_voters 3) = (Ok tt, t') /\
    done t' = true /\
    forall w, w ∈ three_voters ->
      getResult t' (Name w) =
        Ok (quorumResult three_voters 3 (list_to_map [("c", B "x"); ("b", B "y"); ("a", B "x")]) (Name w)).
Proof.
  apply (subtransaction_refines_quorum range_nodes range_votes three_voters 3).
  - exact three_voters_fresh.
  - apply (reverse_Permutation ["a"; "b"; "c"]).
Defined.

Lemma vote_order_independent_witness :
  @voteOn range_nodes range_votes "a" (B "x") (newSubtransaction three_voters 3)
  = @voteOn (reverse_range _ _) (reverse_range _ _) "a" (B "x") (newSubtransaction three_voters 3).
Proof.
  apply (vote_order_independent range_nodes (reverse_range _ _) range_votes (reverse_range _ _)
    (newSubtransaction three_voters 3) "a" (B "x")).
  exact (newSubtransaction_inv three_voters 3 three_voters_fresh).
Defined.
