(* ===== verification/Transaction.v ===== *)
(** Transactions and their manager
    (src/internal/praefect/transactions/transaction.go and manager.go).

    A [transaction] is a sequence of subtransactions; a [*subtransaction] is an
    index into it, and an operation on the pointee is lifted with [on_sub]. The
    [Manager] keeps the registered transactions by ID; the transactions
    themselves are objects of a heap, because callers keep using one after it
    has been unregistered. Log output and the latency histogram are not part of
    the state. *)

From S2P Require Import Prelude Voting Subtransaction Quorum.

(** ** Transactions *)

Inductive transactionState : Type :=
| transactionOpen
| transactionCanceled
| transactionStopped.

#[export] Instance transactionState_eq_dec : EqDecision transactionState.
Proof. solve_decision. Defined.

Record transaction : Type := mkTx {
  tx_id : Z;
  tx_threshold : Z;
  tx_voters : list Voter;
  tx_state : transactionState;
  subtransactions : list subtransaction;
}.

(** The loop of [newTransaction]: rejects duplicate names, sums the votes. *)
Fixpoint countVotes (votersByNode : gset string) (totalVotes : Z) (voters : list Voter)
    : out TxError Z :=
  match voters with
  | [] => Ok totalVotes
  | voter :: voters =>
    if decide (Name voter ∈ votersByNode) then Err ErrDuplicateNodes
    else countVotes ({[Name voter]} ∪ votersByNode) (u64 (totalVotes + Votes voter)) voters
  end.

Definition newTransaction (id : Z) (voters : list Voter) (threshold : Z)
    : out TxError transaction :=
  if decide (voters = []) then Err ErrMissingNodes
  else
    totalVotes ← countVotes ∅ 0 voters;
    if totalVotes <? threshold then Err ErrInvalidThreshold
    else if u64 (threshold * 2) <=? totalVotes then Err ErrInvalidThreshold
    else Ok (mkTx id threshold voters transactionOpen []).

Definition with_subs (l : list subtransaction) (t : transaction) : transaction :=
  mkTx (tx_id t) (tx_threshold t) (tx_voters t) (tx_state t) l.

Definition with_state (s : transactionState) (t : transaction) : transaction :=
  mkTx (tx_id t) (tx_threshold t) (tx_voters t) s (subtransactions t).

(** Running an operation of the [i]-th subtransaction. *)
Definition on_sub {A} (i : nat) (m : M subtransaction TxError A) : M transaction TxError A :=
  fun t => match subtransactions t !! i with
  | None => (Panic, t)
  | Some sub => match m sub with (r, sub') => (r, with_subs (<[i := sub']> (subtransactions t)) t) end
  end.

Definition CountSubtransactions (t : transaction) : Z := Z.of_nat (length (subtransactions t)).

Definition DidVote (t : transaction) (node : string) : bool :=
  match subtransactions t with
  | [] => false
  | sub :: _ =>
    match getVote sub node with
    | Ok (Some _) => true
    | _ => false
    end
  end.

(** The scan of [getOrCreateSubtransaction] over the existing subtransactions,
    from index [i] on; [None] when the node has committed all of them. *)
Fixpoint findSubtransaction (node : string) (i : nat) (subs : list subtransaction)
    : out TxError (option nat) :=
  match subs with
  | [] => Ok None
  | sub :: subs =>
    r ← getResult sub node;
    match r with
    | VoteUndecided => Ok (Some i)
    | VoteCommitted => findSubtransaction node (S i) subs
    | VoteFailed => Err ErrTransactionFailed
    | VoteCanceled => Err ErrTransactionCanceled
    | VoteStopped => Err ErrTransactionStopped
    end
  end.

Definition getOrCreateSubtransaction (node : string) : M transaction TxError nat :=
  t ← get;
  match tx_state t with
  | transactionCanceled => fail ErrTransactionCanceled
  | transactionStopped => fail ErrTransactionStopped
  | transactionOpen =>
    match findSubtransaction node 0 (subtransactions t) with
    | Panic => panic
    | Err e => fail e
    | Ok (Some i) => mret i
    | Ok None =>
      _ ← put (with_subs (subtransactions t ++ [newSubtransaction (tx_voters t) (tx_threshold t)]) t);
      mret (length (subtransactions t))
    end
  end.

Section Operations.
Context {RN : MapRange string Voter} {RV : MapRange Vote Z}.

Definition transaction_cancel : M transaction TxError unit :=
  t ← get;
  _ ← for_each (seq 0 (length (subtransactions t))) (fun i => on_sub i cancel);
  modify (with_state transactionCanceled).

Definition transaction_stop : M transaction TxError unit :=
  t ← get;
  _ ← for_each (seq 0 (length (subtransactions t))) (fun i => on_sub i stop);
  modify (with_state transactionStopped).

Definition State (t : transaction) : gmap string VoteResult :=
  match last (subtransactions t) with
  | None =>
    foldl (fun results voter =>
      <[Name voter := match tx_state t with
        | transactionOpen => VoteUndecided
        | transactionCanceled => VoteCanceled
        | transactionStopped => VoteStopped
        end]> results) ∅ (tx_voters t)
  | Some sub => foldl (fun results kv => <[kv.1 := kv.2]> results) ∅ (map_to_list (state sub))
  end.

End Operations.

(** ** The manager *)

Record Manager : Type := mkMgr {
  idSequence : Z;
  transactions : gmap Z nat;
  heap : list transaction;
  counterMetric : gmap string Z;
  subtransactionsMetric : list Z;
}.

Definition NewManager : Manager := mkMgr 0 ∅ [] ∅ [].

Definition count_metric (label : string) (n : Z) (mgr : Manager) : Manager :=
  mkMgr (idSequence mgr) (transactions mgr) (heap mgr)
    (<[label := default 0 (counterMetric mgr !! label) + n]> (counterMetric mgr))
    (subtransactionsMetric mgr).

Definition observe_subtransactions (n : Z) (mgr : Manager) : Manager :=
  mkMgr (idSequence mgr) (transactions mgr) (heap mgr) (counterMetric mgr)
    (n :: subtransactionsMetric mgr).

Definition with_heap (h : list transaction) (mgr : Manager) : Manager :=
  mkMgr (idSequence mgr) (transactions mgr) h (counterMetric mgr) (subtransactionsMetric mgr).

(** Running an operation of the transaction at a heap address. *)
Definition on_tx {A} (a : nat) (m : M transaction TxError A) : M Manager TxError A :=
  fun mgr => match heap mgr !! a with
  | None => (Panic, mgr)
  | Some t => match m t with (r, t') => (r, with_heap (<[a := t']> (heap mgr)) mgr) end
  end.

(** Registers a transaction and returns its address. The ID is consumed even
    when the registration fails. *)
Definition RegisterTransaction (voters : list Voter) (threshold : Z) : M Manager TxError nat :=
  mgr ← get;
  let transactionID := u64 (idSequence mgr + 1) in
  _ ← put (mkMgr transactionID (transactions mgr) (heap mgr) (counterMetric mgr)
             (subtransactionsMetric mgr));
  match newTransaction transactionID voters threshold with
  | Panic => panic
  | Err e => fail e
  | Ok t =>
    match transactions mgr !! transactionID with
    | Some _ => fail ErrTransactionExists
    | None =>
      let a := length (heap mgr) in
      _ ← modify (fun mgr => mkMgr (idSequence mgr) (<[transactionID := a]> (transactions mgr))
                    (heap mgr ++ [t]) (counterMetric mgr) (subtransactionsMetric mgr));
      _ ← modify (count_metric "registered" (Z.of_nat (length voters)));
      mret a
    end
  end.

Definition unregister (id : Z) (mgr : Manager) : Manager :=
  mkMgr (idSequence mgr) (delete id (transactions mgr)) (heap mgr) (counterMetric mgr)
    (subtransactionsMetric mgr).

(** The metric label of a finished vote. *)
Definition counterLabel (r : out TxError unit) : string :=
  match r with
  | Ok _ => "committed"
  | Panic => "invalid"
  | Err e =>
    match unwrap e with
    | ErrTransactionStopped => "stopped"
    | ErrTransactionFailed => "failed"
    | ErrTransactionCanceled => "canceled"
    | _ => "invalid"
    end
  end.

Section ManagerOperations.
Context {RN : MapRange string Voter} {RV : MapRange Vote Z}.

Definition cancelTransaction (a : nat) : M Manager TxError unit :=
  mgr ← get;
  match heap mgr !! a with
  | None => panic
  | Some t =>
    _ ← modify (unregister (tx_id t));
    _ ← on_tx a transaction_cancel;
    mgr ← get;
    match heap mgr !! a with
    | None => panic
    | Some t => modify (observe_subtransactions (CountSubtransactions t))
    end
  end.

(** The part of [VoteTransaction] up to the choice of the subtransaction. *)
Definition beginVote (transactionID : Z) (node : string) : M Manager TxError (nat * nat) :=
  _ ← modify (count_metric "started" 1);
  mgr ← get;
  match transactions mgr !! transactionID with
  | None => fail (ErrNotFound transactionID)
  | Some a => i ← on_tx a (getOrCreateSubtransaction node); mret (a, i)
  end.

Definition castVote (a i : nat) (node : string) (v : Vote) : M Manager TxError unit :=
  on_tx a (on_sub i (voteOn node v)).

Definition awaitVote (a i : nat) (ctxErr : bool) (node : string) : M Manager TxError unit :=
  on_tx a (on_sub i (collectVotes ctxErr node)).

(** What [VoteTransaction] records when [voteTransaction] has returned [r]. *)
Definition finishVote (r : out TxError unit) : M Manager TxError unit := fun mgr =>
  (r, count_metric (counterLabel r) 1 mgr).

Definition StopTransaction (transactionID : Z) : M Manager TxError unit :=
  mgr ← get;
  match transactions mgr !! transactionID with
  | None => fail (ErrNotFound transactionID)
  | Some a =>
    _ ← on_tx a transaction_stop;
    modify (count_metric "stopped" 1)
  end.

End ManagerOperations.

(** ** Registration *)

Lemma countVotes_ok seen acc voters tot :
  countVotes seen acc voters = Ok tot -> (forall w, w ∈ voters -> 0 <= Votes w) ->
  0 <= acc -> acc + sumVotes voters < 2 ^ 64 ->
  tot = acc + sumVotes voters /\ NoDup (Name <$> voters) /\
  forall w, w ∈ voters -> Name w ∉ seen.
Proof.
  revert seen acc. induction voters as [|w voters IH]; intros seen acc H Hw Hacc Hlt; simpl in *.
  { simplify_eq. split_and!; [lia|constructor|]. intros w Hin. by apply elem_of_nil in Hin. }
  case_decide as Hs; [done|].
  assert (0 <= Votes w) by (apply Hw; by left).
  assert (0 <= sumVotes voters) by (apply sumVotes_nonneg; intros x Hx; apply Hw; by right).
  destruct (IH _ _ H) as (-> & Hnd & Hin).
  { intros x Hx. apply Hw. by right. }
  { apply u64_range. }
  { rewrite u64_small; lia. }
  rewrite u64_small by lia. split_and!; [lia| |].
  - constructor; [|done]. intros (x & Heq & Hx)%list_elem_of_fmap. specialize (Hin x Hx).
    apply Hin. rewrite <- Heq. set_solver.
  - intros x [->|Hx]%elem_of_cons; [done|]. specialize (Hin x Hx). set_solver.
Qed.

Lemma countVotes_total seen acc voters :
  NoDup (Name <$> voters) -> (forall w, w ∈ voters -> Name w ∉ seen) ->
  (forall w, w ∈ voters -> 0 <= Votes w) ->
  0 <= acc -> acc + sumVotes voters < 2 ^ 64 ->
  countVotes seen acc voters = Ok (acc + sumVotes voters).
Proof.
  revert seen acc. induction voters as [|w voters IH]; intros seen acc Hnd Hs Hw Hacc Hlt; simpl in *.
  { f_equal. lia. }
  apply NoDup_cons in Hnd as [Hn Hnd].
  assert (0 <= Votes w) by (apply Hw; by left).
  assert (0 <= sumVotes voters) by (apply sumVotes_nonneg; intros x Hx; apply Hw; by right).
  rewrite decide_False by (apply Hs; by left). rewrite u64_small by lia. rewrite IH; [f_equal; lia|done| | |lia|lia].
  - intros x Hx. rewrite not_elem_of_union, not_elem_of_singleton. split; [|apply Hs; by right].
    intros Heq. apply Hn. rewrite <- Heq. by apply list_elem_of_fmap_2.
  - intros x Hx. apply Hw. by right.
Qed.

Lemma countVotes_cases seen acc voters :
  countVotes seen acc voters = Err ErrDuplicateNodes \/
  exists tot, countVotes seen acc voters = Ok tot.
Proof.
  revert seen acc. induction voters as [|w voters IH]; intros seen acc; simpl; [by eauto|].
  case_decide; [by left|]. apply IH.
Qed.

(** Registration of voters whose votes do not overflow a uint: a transaction
    needs at least one voter, distinct names and a threshold that is attainable
    and larger than half of all votes; the error says which of these fails. *)
Theorem newTransaction_spec id voters thr :
  (forall w, w ∈ voters -> 0 <= Votes w) -> sumVotes voters < 2 ^ 64 -> 0 <= thr < 2 ^ 64 ->
  newTransaction id voters thr =
    if decide (voters = []) then Err ErrMissingNodes
    else if decide (NoDup (Name <$> voters)) then
      if decide (thr <= sumVotes voters < 2 * thr /\ 2 * thr < 2 ^ 64)
      then Ok (mkTx id thr voters transactionOpen [])
      else Err ErrInvalidThreshold
    else Err ErrDuplicateNodes.
Proof.
  intros Hw Hlt Hthr. unfold newTransaction. case_decide; [done|].
  pose proof (sumVotes_nonneg voters Hw) as Hpos.
  destruct (decide (NoDup (Name <$> voters))) as [Hnd|Hnd].
  - rewrite (countVotes_total ∅ 0 voters Hnd) by (done || lia || (intros; apply not_elem_of_empty)).
    unfold mbind, out_bind. rewrite Z.add_0_l.
    destruct (Z.ltb_spec (sumVotes voters) thr); [case_decide; [lia|done]|].
    assert (u64 (thr * 2) <= sumVotes voters <-> 2 * thr <= sumVotes voters \/ 2 ^ 64 <= 2 * thr) as Hu.
    { unfold u64. destruct (Z_lt_le_dec (thr * 2) (2 ^ 64)); [rewrite Z.mod_small; lia|].
      replace (thr * 2) with ((thr * 2 - 2 ^ 64) + 1 * 2 ^ 64) by lia.
      rewrite Z_mod_plus_full, Z.mod_small; lia. }
    destruct (Z.leb_spec (u64 (thr * 2)) (sumVotes voters)); case_decide; done || lia.
  - destruct (countVotes_cases ∅ 0 voters) as [->|[tot Htot]]; [done|].
    exfalso. apply Hnd. by destruct (countVotes_ok _ _ _ _ Htot Hw) as (_ & ? & _); [lia|lia|].
Qed.

(** With weights that overflow, a registration can be accepted although two
    disjoint sets of voters each reach the threshold on their own. *)
Theorem newTransaction_overflow :
  let a := mkVoter "a" (2 ^ 63 + 1) None VoteUndecided in
  let b := mkVoter "b" (2 ^ 63 + 1) None VoteUndecided in
  newTransaction 1 [a; b] 2 = Ok (mkTx 1 2 [a; b] transactionOpen []) /\
  2 <= Votes a /\ 2 <= Votes b.
Proof. by vm_compute. Qed.

Lemma newTransaction_fresh id voters thr t :
  (forall w, w ∈ voters -> 0 <= Votes w /\ vote w = None /\ result w = VoteUndecided) ->
  sumVotes voters < 2 ^ 64 -> 0 <= thr < 2 ^ 64 ->
  newTransaction id voters thr = Ok t ->
  fresh_voters voters thr /\ t = mkTx id thr voters transactionOpen [].
Proof.
  intros Hw Hlt Hthr. assert (Hw' : forall w, w ∈ voters -> 0 <= Votes w) by (intros w Hin; by apply Hw).
  unfold newTransaction. case_decide as Hne; [done|].
  destruct (countVotes ∅ 0 voters) as [tot| |] eqn:Hc; [|done..].
  destruct (countVotes_ok _ _ _ _ Hc Hw') as (-> & Hnd & _); [lia|lia|].
  unfold mbind, out_bind. rewrite Z.add_0_l.
  destruct (Z.ltb_spec (sumVotes voters) thr); [done|].
  destruct (Z.leb_spec (u64 (thr * 2)) (sumVotes voters)) as [|Hq]; [done|].
  intros [= <-]. split; [|done]. constructor; [done|done|done|done|].
  assert (u64 (thr * 2) <= thr * 2); [|lia]. apply Z.mod_le; lia.
Qed.

Lemma newTransaction_spec_witness :
  newTransaction 7 three_voters 3 = Ok (mkTx 7 3 three_voters transactionOpen []).
Proof.
  rewrite (newTransaction_spec 7 three_voters 3).
  - by vm_compute.
  - intros w Hw. by apply (fresh_voter _ _ three_voters_fresh).
  - by vm_compute.
  - by vm_compute.
Defined.
