(* ===== verification/TxSystem.v ===== *)
(** Concurrent executions of the transaction manager.

    A [VoteTransaction] call takes three atomic steps, each under a lock of its
    own: it picks a subtransaction, casts the vote, and, once the subtransaction
    is done or its context is cancelled, collects the outcome. The relation
    [step] interleaves such calls, from any number of nodes, with registrations,
    cancellations and stops; each step may visit the Go maps in another order.
    The invariant of all reachable states gives the safety theorems. *)

From S2P Require Import Prelude Voting Subtransaction Quorum Transaction.

(** ** The transition system *)

(** A [VoteTransaction] call in flight: before ([c_cast = false]) or after it has
    cast its vote in subtransaction [c_sub] of the transaction at [c_tx]. *)
Record call : Type := mkCall {
  c_tx : nat;
  c_sub : nat;
  c_node : string;
  c_vote : Vote;
  c_cast : bool;
}.

Record sys : Type := mkSys {
  s_mgr : Manager;
  s_calls : list call;
  s_panicked : bool;
}.

Definition initial : sys := mkSys NewManager [] false.

Definition finish (r : out TxError unit) (mgr : Manager) : Manager := (finishVote r mgr).2.

Definition sub_at (mgr : Manager) (a i : nat) : option subtransaction :=
  heap mgr !! a ≫= fun t => subtransactions t !! i.

(** Voters as callers outside the package can make them, with weights that do
    not overflow. *)
Definition registrable (voters : list Voter) (thr : Z) : Prop :=
  (forall w, w ∈ voters -> 0 <= Votes w /\ vote w = None /\ result w = VoteUndecided) /\
  sumVotes voters < 2 ^ 64 /\ 0 <= thr < 2 ^ 64.

Inductive step : sys -> sys -> Prop :=
| step_register mgr calls p voters thr r mgr' :
    registrable voters thr ->
    RegisterTransaction voters thr mgr = (r, mgr') ->
    step (mkSys mgr calls p) (mkSys mgr' calls (p || is_panic r))
| step_cancel (RN : MapRange string Voter) mgr calls p a r mgr' :
    is_Some (heap mgr !! a) ->
    cancelTransaction a mgr = (r, mgr') ->
    step (mkSys mgr calls p) (mkSys mgr' calls (p || is_panic r))
| step_stop (RN : MapRange string Voter) mgr calls p id r mgr' :
    StopTransaction id mgr = (r, mgr') ->
    step (mkSys mgr calls p) (mkSys mgr' calls (p || is_panic r))
| step_begin mgr calls p id node v a i mgr' :
    beginVote id node mgr = (Ok (a, i), mgr') ->
    step (mkSys mgr calls p) (mkSys mgr' (mkCall a i node v false :: calls) p)
| step_begin_err mgr calls p id node e mgr' :
    beginVote id node mgr = (Err e, mgr') ->
    step (mkSys mgr calls p) (mkSys (finish (Err e) mgr') calls p)
| step_begin_panic mgr calls p id node mgr' :
    beginVote id node mgr = (Panic, mgr') ->
    step (mkSys mgr calls p) (mkSys mgr' calls true)
| step_cast (RN : MapRange string Voter) (RV : MapRange Vote Z) mgr calls calls' p a i node v mgr' :
    castVote a i node v mgr = (Ok tt, mgr') ->
    step (mkSys mgr (calls ++ mkCall a i node v false :: calls') p)
         (mkSys mgr' (calls ++ mkCall a i node v true :: calls') p)
| step_cast_err (RN : MapRange string Voter) (RV : MapRange Vote Z) mgr calls calls' p a i node v e mgr' :
    castVote a i node v mgr = (Err e, mgr') ->
    step (mkSys mgr (calls ++ mkCall a i node v false :: calls') p)
         (mkSys (finish (Err e) mgr') (calls ++ calls') p)
| step_cast_panic (RN : MapRange string Voter) (RV : MapRange Vote Z) mgr calls calls' p a i node v mgr' :
    castVote a i node v mgr = (Panic, mgr') ->
    step (mkSys mgr (calls ++ mkCall a i node v false :: calls') p)
         (mkSys mgr' (calls ++ calls') true)
| step_collect (RN : MapRange string Voter) (RV : MapRange Vote Z) mgr calls calls' p a i node v sub ctxErr r mgr' :
    sub_at mgr a i = Some sub -> isDone sub = true \/ ctxErr = true ->
    awaitVote a i ctxErr node mgr = (r, mgr') ->
    step (mkSys mgr (calls ++ mkCall a i node v true :: calls') p)
         (mkSys (finish r mgr') (calls ++ calls') (p || is_panic r)).

Definition reachable (s : sys) : Prop := rtc step initial s.

(** ** Votes are recorded by their own node only *)

Lemma fmap_recorded (f : Voter -> Voter) m n :
  (forall w, vote (f w) = vote w) -> (f <$> m : gmap string Voter) !! n ≫= vote = m !! n ≫= vote.
Proof. intros Hf. rewrite lookup_fmap. destruct (m !! n); [|done]. apply Hf. Qed.

Lemma decided_recorded t n : recorded (decided t) n = recorded t n.
Proof.
  unfold recorded. simpl. unfold settledVoters. destruct (pending t); [done|].
  apply fmap_recorded. intros w. apply (settled_cases t w).
Qed.

Section Recorded.
Context {RN : MapRange string Voter} {RV : MapRange Vote Z}.

Lemma updateVoterState_recorded t node voter nv n :
  sub_inv t -> votersByNode t !! node = Some voter -> (nv = None -> vote voter ≠ None) ->
  n ≠ node \/ nv = None ->
  recorded (updateVoterState node voter nv t).2 n = recorded t n.
Proof.
  intros Hinv Hn Hnv Hne. unfold updateVoterState. destruct (result voter) eqn:Hr; try done.
  destruct nv as [u|].
  - destruct Hne as [Hne|]; [|done]. destruct (vote voter) eqn:Hv; [done|]. unfold_M.
    change (with_voters _ _) with (addVote node voter u t).
    destruct (addVote_inv t node voter u Hinv Hn Hr Hv).
    rewrite decideVoters_eq by done. simpl. rewrite decided_recorded. unfold recorded. simpl.
    by rewrite lookup_insert_ne.
  - unfold_M. unfold isDone. destruct (done t) eqn:Hd; [done|].
    destruct (vote voter) as [u|] eqn:Hv; [|by destruct Hnv]. unfold_M.
    change (with_voters _ _) with (dropVote node voter u t).
    destruct (dropVote_inv t node voter u Hinv Hn Hr Hv Hd).
    rewrite decideVoters_eq by done. simpl. rewrite decided_recorded. unfold recorded. simpl.
    destruct (decide (node = n)) as [<-|]; [by rewrite lookup_insert_eq, Hn|by rewrite lookup_insert_ne].
Qed.

Lemma wrap_err_snd {S E A} f (m : M S E A) s : (wrap_err f m s).2 = (m s).2.
Proof. unfold wrap_err. by destruct (m s) as [[]]. Qed.

Lemma voteOn_recorded t node v n :
  sub_inv t -> n ≠ node -> recorded (voteOn node v t).2 n = recorded t n.
Proof.
  intros Hinv Hne. unfold voteOn. unfold mbind, M_bind, get.
  destruct (votersByNode t !! node) as [voter|] eqn:Hn; [|done].
  destruct (vote voter) eqn:Hv; [done|]. rewrite wrap_err_snd.
  apply updateVoterState_recorded; auto.
Qed.

(** A successful vote is recorded. *)
Lemma voteOn_cast t node v t' :
  sub_inv t -> voteOn node v t = (Ok tt, t') -> recorded t' node = Some v.
Proof.
  intros Hinv. unfold voteOn. unfold mbind, M_bind, get.
  destruct (votersByNode t !! node) as [voter|] eqn:Hn; [|done].
  destruct (vote voter) eqn:Hv; [done|]. unfold wrap_err, updateVoterState.
  destruct (result voter) eqn:Hr; try done. rewrite Hv. unfold_M.
  change (with_voters _ _) with (addVote node voter v t).
  destruct (addVote_inv t node voter v Hinv Hn Hr Hv). rewrite decideVoters_eq by done.
  intros [= <-]. rewrite decided_recorded. unfold recorded. simpl. by rewrite lookup_insert_eq.
Qed.

Lemma collectVotes_recorded t ctxErr node n :
  sub_inv t -> (forall w, votersByNode t !! node = Some w -> vote w ≠ None) ->
  recorded (collectVotes ctxErr node t).2 n = recorded t n.
Proof.
  intros Hinv Hv. unfold collectVotes. unfold mbind, M_bind, get.
  destruct (votersByNode t !! node) as [voter|] eqn:Hn; [|done]. destruct ctxErr.
  - rewrite <- (updateVoterState_recorded t node voter None n) by auto.
    rewrite <- (wrap_err_snd ErrCancelVote). by destruct (wrap_err _ _ t) as [[]].
  - destruct (result voter); try done. by destruct (vote voter).
Qed.

Lemma cancel_recorded t n : recorded (cancel t).2 n = recorded t n.
Proof.
  rewrite cancel_eq. unfold recorded. simpl. apply fmap_recorded.
  intros w. unfold canceled. by case_decide.
Qed.

Lemma stop_recorded t n : recorded (stop t).2 n = recorded t n.
Proof.
  unfold stop. destruct (stop_loop (range (votersByNode t)) t) as (r & m & He & Hp & Hm & _).
  { apply range_nodup. } { intros k w. apply range_elem. }
  assert (Hrec : m !! n ≫= vote = recorded t n).
  { unfold recorded. specialize (Hm n).
    destruct Hm as [w w' Hor|]; [|done]. simpl.
    destruct (stopped_cases _ _ Hor) as [->|[_ ->]]; done. }
  unfold_M. rewrite He. destruct r as [[]| |]; [|done..].
  unfold isDone, close_done, with_voters, recorded. simpl. by destruct (done t).
Qed.

End Recorded.

(** ** The invariant of a transaction *)

Definition committed_in (sub : subtransaction) (n : string) : Prop :=
  exists w, votersByNode sub !! n = Some w /\ result w = VoteCommitted.

Record tx_inv (t : transaction) : Prop := {
  ti_fresh : fresh_voters (tx_voters t) (tx_threshold t);
  ti_sub : forall i sub, subtransactions t !! i = Some sub ->
    sub_inv sub /\ sub_step (newSubtransaction (tx_voters t) (tx_threshold t)) sub;
  ti_seq : forall (i j : nat) si sj n, (i < j)%nat ->
    subtransactions t !! i = Some si -> subtransactions t !! j = Some sj ->
    recorded sj n ≠ None -> committed_in si n;
}.

Definition tx_step (t t' : transaction) : Prop :=
  tx_voters t' = tx_voters t /\ tx_threshold t' = tx_threshold t /\
  forall i sub, subtransactions t !! i = Some sub ->
    exists sub', subtransactions t' !! i = Some sub' /\ sub_step sub sub'.

#[export] Instance tx_step_preorder : PreOrder tx_step.
Proof.
  split.
  - intros t. split_and!; [done..|]. intros i sub Hi. by exists sub.
  - intros a b c (? & ? & Hab) (? & ? & Hbc). split_and!; [congruence..|].
    intros i sub Hi. destruct (Hab i sub Hi) as (sub' & Hi' & ?).
    destruct (Hbc i sub' Hi') as (sub'' & ? & ?). exists sub''. split; [done|]. by etrans.
Qed.

Lemma committed_step sub sub' n : sub_step sub sub' -> committed_in sub n -> committed_in sub' n.
Proof.
  intros Hs (w & Hn & Hr). destruct (sub_step_lookup_l _ _ n w Hs Hn) as (w' & Hn' & (_ & _ & _ & Hres)).
  exists w'. split; [done|]. destruct Hres; congruence.
Qed.

(** The subtransactions before [i] have committed for node [n]. *)
Definition prefix_committed (t : transaction) (i : nat) (n : string) : Prop :=
  forall (j : nat) sub, (j < i)%nat -> subtransactions t !! j = Some sub -> committed_in sub n.

Lemma prefix_step t t' i n :
  tx_step t t' -> (i <= length (subtransactions t))%nat ->
  prefix_committed t i n -> prefix_committed t' i n.
Proof.
  intros (_ & _ & Hs) Hlen Hp j sub' Hj Hsub'.
  destruct (lookup_lt_is_Some_2 (subtransactions t) j) as [sub Hsub]; [lia|].
  destruct (Hs j sub Hsub) as (x & Hx & Hst). simplify_eq.
  eapply committed_step; [done|]. by apply (Hp j).
Qed.

Definition tx_ok {A} (t : transaction) (r : out TxError A * transaction) : Prop :=
  is_panic r.1 = false /\ tx_inv r.2 /\ tx_step t r.2.

Lemma on_sub_ok {A} t i sub (m : M subtransaction TxError A) :
  tx_inv t -> subtransactions t !! i = Some sub -> op_ok sub (m sub) ->
  (forall n, recorded (m sub).2 n = recorded sub n \/ prefix_committed t i n) ->
  tx_ok t (on_sub i m t).
Proof.
  intros Hinv Hi Hop Hrec. unfold on_sub. rewrite Hi. destruct (m sub) as [r sub'] eqn:Hm.
  destruct Hop as (Hp & Hsi & Hst). simpl in *.
  assert (Hlook : forall j s', <[i := sub']> (subtransactions t) !! j = Some s' ->
    exists s, subtransactions t !! j = Some s /\ sub_step s s' /\ (j = i /\ s' = sub' \/ s' = s)).
  { intros j s' Hj. destruct (decide (i = j)) as [<-|Hne].
    - rewrite list_lookup_insert_eq in Hj by (by eapply lookup_lt_Some).
      simplify_eq. exists sub. split_and!; [done..|by left].
    - rewrite list_lookup_insert_ne in Hj by done. exists s'. split_and!; [done..|by right]. }
  assert (Hts : tx_step t (with_subs (<[i := sub']> (subtransactions t)) t)).
  { split_and!; [done..|]. intros j s Hj. simpl. destruct (decide (i = j)) as [<-|Hne].
    - exists sub'. rewrite list_lookup_insert_eq by (by eapply lookup_lt_Some). simplify_eq.
      by split.
    - rewrite list_lookup_insert_ne by done. by exists s. }
  unfold tx_ok. simpl. split_and!; [done| |done].
  constructor; simpl.
  - apply Hinv.
  - intros j s' (s & Hj & Hss & Hor)%Hlook. destruct (ti_sub t Hinv j s Hj) as [? ?].
    split; [|by etrans]. by destruct Hor as [[_ ->]| ->].
  - intros j k s1' s2' n Hjk (s1 & H1 & Hs1 & _)%Hlook (s2 & H2 & Hs2 & Hor2)%Hlook Hr.
    eapply committed_step; [exact Hs1|].
    destruct Hor2 as [[-> ->]| ->]; [|by apply (ti_seq t Hinv j k s1 s2)].
    destruct (Hrec n) as [Heq|Hpre]; [|by apply (Hpre j)].
    assert (s2 = sub) as -> by congruence. by apply (ti_seq t Hinv j i s1 sub); [..|congruence].
Qed.

(** Running the same operation on all subtransactions. *)
Lemma for_each_subs_ok (m : M subtransaction TxError unit) l : forall t,
  tx_inv t -> (forall i, i ∈ l -> (i < length (subtransactions t))%nat) ->
  (forall sub, sub_inv sub -> op_ok sub (m sub) /\ forall n, recorded (m sub).2 n = recorded sub n) ->
  tx_ok t (for_each l (fun i => on_sub i m) t).
Proof.
  induction l as [|i l IH]; intros t Hinv Hl Hm; simpl.
  { unfold tx_ok. by split_and!. }
  destruct (lookup_lt_is_Some_2 (subtransactions t) i) as [sub Hi]; [apply Hl; by left|].
  destruct (Hm sub) as [Hop Hrec]; [by apply (ti_sub t Hinv i)|].
  pose proof (on_sub_ok t i sub m Hinv Hi Hop (fun n => or_introl (Hrec n))) as Hok.
  assert (Hlen : length (subtransactions (on_sub i m t).2) = length (subtransactions t)).
  { unfold on_sub. rewrite Hi. destruct (m sub). simpl. apply length_insert. }
  unfold_M. destruct (on_sub i m t) as [[[]|e|] t1] eqn:He; [|done|by destruct Hok].
  destruct Hok as (_ & Hi1 & Hs1). simpl in *.
  destruct (IH t1 Hi1) as (? & ? & ?); [|done|].
  { intros k Hk. rewrite Hlen. apply Hl. by right. }
  unfold tx_ok. split_and!; [done..|]. by etrans.
Qed.

Lemma with_state_ok t s : tx_inv t -> tx_inv (with_state s t) /\ tx_step t (with_state s t).
Proof.
  intros Hinv. split; [constructor; apply Hinv|]. split_and!; [done..|]. intros i sub Hi. by exists sub.
Qed.

Section TxOps.
Context {RN : MapRange string Voter} {RV : MapRange Vote Z}.

Lemma transaction_cancel_ok t : tx_inv t -> tx_ok t (transaction_cancel t).
Proof.
  intros Hinv. unfold transaction_cancel. unfold_M.
  destruct (for_each_subs_ok cancel (seq 0 (length (subtransactions t))) t Hinv) as (Hp & Hi & Hs).
  { intros i Hi%elem_of_seq. lia. }
  { intros sub Hsub. split; [by apply cancel_ok|]. intros n. apply cancel_recorded. }
  destruct (for_each _ _ t) as [[[]|e|] t1]; simpl in *; unfold tx_ok; simpl; [|done..].
  destruct (with_state_ok t1 transactionCanceled Hi). split_and!; [done..|]. by etrans.
Qed.

Lemma transaction_stop_ok t : tx_inv t -> tx_ok t (transaction_stop t).
Proof.
  intros Hinv. unfold transaction_stop. unfold_M.
  destruct (for_each_subs_ok stop (seq 0 (length (subtransactions t))) t Hinv) as (Hp & Hi & Hs).
  { intros i Hi%elem_of_seq. lia. }
  { intros sub Hsub. split; [by apply stop_ok|]. intros n. apply stop_recorded. }
  destruct (for_each _ _ t) as [[[]|e|] t1]; simpl in *; unfold tx_ok; simpl; [|done..].
  destruct (with_state_ok t1 transactionStopped Hi). split_and!; [done..|]. by etrans.
Qed.

End TxOps.

Lemma findSubtransaction_spec node subs : forall i0 r,
  findSubtransaction node i0 subs = Ok r ->
  match r with
  | Some i => exists k sub, i = (i0 + k)%nat /\ subs !! k = Some sub /\
      (forall j s, (j < k)%nat -> subs !! j = Some s -> committed_in s node)
  | None => forall j s, subs !! j = Some s -> committed_in s node
  end.
Proof.
  induction subs as [|sub subs IH]; intros i0 r; simpl.
  { intros [= <-]. done. }
  unfold getResult. destruct (votersByNode sub !! node) as [w|] eqn:Hn; [|done]. simpl.
  destruct (result w) eqn:Hr; try done.
  - intros [= <-]. exists 0%nat, sub. split_and!; [lia|done|]. intros; lia.
  - intros H. assert (Hc : committed_in sub node) by (by exists w). specialize (IH _ _ H).
    destruct r as [i|].
    + destruct IH as (k & s & -> & Hk & Hall). exists (S k), s. split_and!; [lia|done|].
      intros [|j] x Hj Hx; simpl in Hx; [by simplify_eq|]. apply (Hall j); [lia|done].
    + intros [|j] x Hx; simpl in Hx; [by simplify_eq|]. by apply (IH j).
Qed.

Lemma getOrCreate_ok t node :
  tx_inv t ->
  tx_ok t (getOrCreateSubtransaction node t) /\
  forall i t', getOrCreateSubtransaction node t = (Ok i, t') ->
    (i < length (subtransactions t'))%nat /\ prefix_committed t' i node.
Proof.
  intros Hinv. unfold getOrCreateSubtransaction. unfold_M.
  assert (Hid : forall r : out TxError nat, is_panic r = false -> tx_ok t (r, t)).
  { intros r Hr. unfold tx_ok. by split_and!. }
  destruct (tx_state t); [|by split; [apply Hid|]..].
  assert (Hnp : findSubtransaction node 0 (subtransactions t) ≠ Panic).
  { generalize 0%nat. clear. induction (subtransactions t) as [|s l IH]; intros i; simpl; [done|].
    unfold getResult. destruct (_ !! node); [|done]. simpl. by destruct (result _). }
  destruct (findSubtransaction node 0 (subtransactions t)) as [[i|]|e|] eqn:Hf; [| |by split; [apply Hid|]|done].
  - split; [by apply Hid|]. intros ? ? [= <- <-].
    destruct (findSubtransaction_spec _ _ _ _ Hf) as (k & sub & -> & Hk & Hall).
    split; [by eapply lookup_lt_Some|]. intros j s Hj. apply Hall. lia.
  - pose proof (findSubtransaction_spec _ _ _ _ Hf) as Hall. simpl in Hall.
    set (new := newSubtransaction (tx_voters t) (tx_threshold t)).
    assert (Hnone : forall n, recorded new n = None).
    { intros n. unfold recorded. destruct (votersByNode new !! n) as [w|] eqn:Hn; [|done]. simpl.
      by apply (newSubtransaction_fresh _ _ (ti_fresh t Hinv) n). }
    assert (Hlook : forall j s, (subtransactions t ++ [new]) !! j = Some s ->
      subtransactions t !! j = Some s \/ j = length (subtransactions t) /\ s = new).
    { intros j s. rewrite lookup_app_Some. intros [?|[? Hj]]; [by left|right].
      apply list_lookup_singleton_Some in Hj as [? ->]. split; [lia|done]. }
    split.
    + unfold tx_ok. simpl. split_and!; [done| |].
      * constructor; simpl.
        -- apply Hinv.
        -- intros j s [Hj|[_ ->]]%Hlook; [by apply (ti_sub t Hinv j)|]. split; [|done].
           apply newSubtransaction_inv. apply Hinv.
        -- intros j k s1 s2 n Hjk H1 [H2|[-> ->]]%Hlook Hr; [|by rewrite Hnone in Hr].
           apply Hlook in H1 as [H1|[-> _]]; [by apply (ti_seq t Hinv j k s1 s2)|].
           apply lookup_lt_Some in H2. lia.
      * split_and!; [done..|]. intros j s Hj. simpl. exists s. split; [|done].
        by apply lookup_app_l_Some.
    + intros ? ? [= <- <-]. simpl. rewrite length_app. simpl. split; [lia|].
      intros j s Hj. simpl. rewrite lookup_app_l by done. apply Hall.
Qed.

(** ** The invariant of the system *)

Definition heap_step (h h' : list transaction) : Prop :=
  forall a t, h !! a = Some t -> exists t', h' !! a = Some t' /\ tx_step t t'.

#[export] Instance heap_step_preorder : PreOrder heap_step.
Proof.
  split.
  - intros h a t Ha. by exists t.
  - intros h1 h2 h3 H12 H23 a t Ha. destruct (H12 a t Ha) as (t' & Ha' & ?).
    destruct (H23 a t' Ha') as (t'' & ? & ?). exists t''. split; [done|]. by etrans.
Qed.

Record mgr_inv (mgr : Manager) : Prop := {
  mi_tx : forall a t, heap mgr !! a = Some t -> tx_inv t;
  mi_reg : forall id a, transactions mgr !! id = Some a -> is_Some (heap mgr !! a);
}.

(** A call votes in a subtransaction all of whose predecessors have committed
    for its node, and waits only for the vote it has cast. *)
Definition call_inv (h : list transaction) (c : call) : Prop :=
  exists t sub, h !! c_tx c = Some t /\ subtransactions t !! c_sub c = Some sub /\
    prefix_committed t (c_sub c) (c_node c) /\
    (c_cast c = true -> recorded sub (c_node c) = Some (c_vote c)).

Record sys_inv (s : sys) : Prop := {
  si_mgr : mgr_inv (s_mgr s);
  si_calls : forall c, c ∈ s_calls s -> call_inv (heap (s_mgr s)) c;
  si_panic : s_panicked s = false;
}.

Lemma call_inv_step h h' c : heap_step h h' -> call_inv h c -> call_inv h' c.
Proof.
  intros Hh (t & sub & Ht & Hs & Hp & Hc). destruct (Hh _ _ Ht) as (t' & Ht' & Hst).
  pose proof Hst as (_ & _ & Hsubs). destruct (Hsubs _ _ Hs) as (sub' & Hs' & Hss).
  exists t', sub'. split_and!; [done..| |].
  - eapply prefix_step; [done| |done]. apply lookup_lt_Some in Hs. lia.
  - intros Hcast. specialize (Hc Hcast). unfold recorded in *.
    destruct (votersByNode sub !! c_node c) as [w|] eqn:Hn; [|done].
    destruct (sub_step_lookup_l _ _ _ w Hss Hn) as (w' & -> & (_ & _ & Hv & _)). simpl in *.
    destruct Hv; congruence.
Qed.

Definition mgr_ok {A} (mgr : Manager) (r : out TxError A * Manager) : Prop :=
  is_panic r.1 = false /\ mgr_inv r.2 /\ heap_step (heap mgr) (heap r.2).

Lemma on_tx_ok {A} mgr a t (m : M transaction TxError A) :
  mgr_inv mgr -> heap mgr !! a = Some t -> tx_ok t (m t) -> mgr_ok mgr (on_tx a m mgr).
Proof.
  intros Hinv Ha Hm. unfold on_tx. rewrite Ha. destruct (m t) as [r t'].
  destruct Hm as (Hp & Hi & Hs). simpl in *.
  assert (Hl : forall b, <[a := t']> (heap mgr) !! b = if decide (a = b) then Some t' else heap mgr !! b).
  { intros b. case_decide as Hb; [subst b|].
    - rewrite list_lookup_insert_eq; [done|]. by eapply lookup_lt_Some.
    - by rewrite list_lookup_insert_ne. }
  unfold mgr_ok. simpl. split_and!; [done| |].
  - constructor; simpl.
    + intros b x. rewrite Hl. case_decide; [by intros [= <-]|]. apply Hinv.
    + intros id b Hb. rewrite Hl. case_decide; [done|]. by apply (mi_reg mgr Hinv id).
  - intros b x Hb. rewrite Hl. case_decide as Hab; [|by exists x].
    subst b. simplify_eq. by exists t'.
Qed.

(** Steps that touch neither the heap nor the registrations. *)
Lemma mgr_inv_same mgr mgr' :
  heap mgr' = heap mgr -> transactions mgr' ⊆ transactions mgr -> mgr_inv mgr -> mgr_inv mgr'.
Proof.
  intros Hh Ht Hinv. constructor; rewrite Hh.
  - apply Hinv.
  - intros id a Ha. apply (mi_reg mgr Hinv id). eapply lookup_weaken; [exact Ha|done].
Qed.

Lemma count_metric_inv l n mgr : mgr_inv mgr -> mgr_inv (count_metric l n mgr).
Proof. by apply mgr_inv_same. Qed.

Section MgrOps.
Context {RN : MapRange string Voter} {RV : MapRange Vote Z}.

Lemma cancelTransaction_ok mgr a :
  mgr_inv mgr -> is_Some (heap mgr !! a) -> mgr_ok mgr (cancelTransaction a mgr).
Proof.
  intros Hinv [t Ha]. unfold cancelTransaction. unfold_M. rewrite Ha.
  assert (Hu : mgr_inv (unregister (tx_id t) mgr)).
  { apply (mgr_inv_same mgr); [done| |done]. simpl. apply delete_subseteq. }
  pose proof (on_tx_ok (unregister (tx_id t) mgr) a t transaction_cancel Hu Ha
    (transaction_cancel_ok t (mi_tx mgr Hinv a t Ha))) as (Hp & Hi & Hs).
  destruct (on_tx a transaction_cancel _) as [[[]|e|] mgr1]; simpl in *; [|done..].
  destruct (Hs a t Ha) as (t' & Ht' & _). rewrite Ht'. unfold mgr_ok. simpl.
  split_and!; [done| |done]. by apply mgr_inv_same with mgr1.
Qed.

Lemma StopTransaction_ok mgr id : mgr_inv mgr -> mgr_ok mgr (StopTransaction id mgr).
Proof.
  intros Hinv. unfold StopTransaction. unfold_M.
  destruct (transactions mgr !! id) as [a|] eqn:Hid; [|unfold mgr_ok; by split_and!].
  destruct (mi_reg mgr Hinv id a Hid) as [t Ha].
  pose proof (on_tx_ok mgr a t transaction_stop Hinv Ha
    (transaction_stop_ok t (mi_tx mgr Hinv a t Ha))) as (Hp & Hi & Hs).
  destruct (on_tx a transaction_stop _) as [[[]|e|] mgr1]; simpl in *; [|done..].
  unfold mgr_ok. simpl. split_and!; [done| |done]. by apply count_metric_inv.
Qed.

Lemma castVote_ok mgr a i node v :
  mgr_inv mgr -> call_inv (heap mgr) (mkCall a i node v false) ->
  mgr_ok mgr (castVote a i node v mgr) /\
  forall mgr', castVote a i node v mgr = (Ok tt, mgr') ->
    call_inv (heap mgr') (mkCall a i node v true).
Proof.
  intros Hinv (t & sub & Ha & Hi & Hpre & _). simpl in *.
  pose proof (mi_tx mgr Hinv a t Ha) as Hti. destruct (ti_sub t Hti i sub Hi) as [Hsi Hss].
  assert (Hok : tx_ok t (on_sub i (voteOn node v) t)).
  { eapply on_sub_ok; [done..|by apply voteOn_ok|]. intros n.
    destruct (decide (n = node)) as [->|Hne]; [by right|left]. by apply voteOn_recorded. }
  pose proof (on_tx_ok mgr a t _ Hinv Ha Hok) as Hm. split; [exact Hm|].
  intros mgr' He. destruct Hm as (_ & _ & Hs). unfold castVote in He. rewrite He in Hs. simpl in Hs.
  unfold on_tx, on_sub in He. rewrite Ha, Hi in He.
  destruct (voteOn node v sub) as [r sub'] eqn:Hv. injection He as -> <-.
  destruct Hok as (_ & _ & Hts). unfold on_sub in Hts. rewrite Hi, Hv in Hts. simpl in Hts.
  exists (with_subs (<[i := sub']> (subtransactions t)) t), sub'. simpl. split_and!.
  - rewrite list_lookup_insert_eq; [done|]. by eapply lookup_lt_Some.
  - rewrite list_lookup_insert_eq; [done|]. by eapply lookup_lt_Some.
  - eapply prefix_step; [done| |done]. apply lookup_lt_Some in Hi. lia.
  - intros _. by rewrite (voteOn_cast sub node v sub').
Qed.

Lemma awaitVote_ok mgr a i ctxErr node v :
  mgr_inv mgr -> call_inv (heap mgr) (mkCall a i node v true) ->
  mgr_ok mgr (awaitVote a i ctxErr node mgr).
Proof.
  intros Hinv (t & sub & Ha & Hi & Hpre & Hc). simpl in *. specialize (Hc eq_refl).
  pose proof (mi_tx mgr Hinv a t Ha) as Hti. destruct (ti_sub t Hti i sub Hi) as [Hsi Hss].
  assert (Hv : forall w, votersByNode sub !! node = Some w -> vote w ≠ None).
  { intros w Hw. unfold recorded in Hc. rewrite Hw in Hc. simpl in Hc. congruence. }
  eapply on_tx_ok; [done..|]. eapply on_sub_ok; [done..|by apply collectVotes_ok|].
  intros n. left. by apply collectVotes_recorded.
Qed.

End MgrOps.

Lemma beginVote_ok mgr id node :
  mgr_inv mgr ->
  mgr_ok mgr (beginVote id node mgr) /\
  forall a i mgr', beginVote id node mgr = (Ok (a, i), mgr') ->
    forall v, call_inv (heap mgr') (mkCall a i node v false).
Proof.
  intros Hinv. unfold beginVote. unfold_M. simpl.
  assert (Hinv' : mgr_inv (count_metric "started" 1 mgr)) by by apply count_metric_inv.
  destruct (transactions mgr !! id) as [a|] eqn:Hid.
  2: { split; [|done]. unfold mgr_ok. by split_and!. }
  destruct (mi_reg mgr Hinv id a Hid) as [t Ha].
  destruct (getOrCreate_ok t node (mi_tx mgr Hinv a t Ha)) as [Htok Hpre].
  pose proof (on_tx_ok (count_metric "started" 1 mgr) a t _ Hinv' Ha Htok) as Hm.
  destruct (on_tx a _ _) as [[i|e|] mgr1] eqn:He; (split; [exact Hm|]); [|done..].
  intros ? ? ? [= <- <- <-] v. unfold on_tx in He. simpl in He. rewrite Ha in He.
  destruct (getOrCreateSubtransaction node t) as [r t'] eqn:Hg. injection He as -> <-.
  destruct (Hpre i t' eq_refl) as [Hlen Hp].
  destruct (lookup_lt_is_Some_2 _ _ Hlen) as [sub Hsub].
  exists t', sub. simpl. split_and!; [|done..].
  rewrite list_lookup_insert_eq; [done|]. by eapply lookup_lt_Some.
Qed.

Lemma RegisterTransaction_ok mgr voters thr :
  mgr_inv mgr -> registrable voters thr -> mgr_ok mgr (RegisterTransaction voters thr mgr).
Proof.
  intros Hinv (Hw & Hsum & Hthr). unfold RegisterTransaction. unfold_M.
  set (id := u64 (idSequence mgr + 1)).
  assert (Hsame : forall r : out TxError nat, is_panic r = false ->
    mgr_ok mgr (r, mkMgr id (transactions mgr) (heap mgr) (counterMetric mgr) (subtransactionsMetric mgr))).
  { intros r Hr. unfold mgr_ok. simpl. split_and!; [done| |done]. by apply mgr_inv_same with mgr. }
  destruct (newTransaction id voters thr) as [t|e|] eqn:Hnew; [|by apply Hsame|].
  - destruct (transactions mgr !! id) eqn:Hid; [by apply Hsame|].
    destruct (newTransaction_fresh id voters thr t Hw Hsum Hthr Hnew) as [Hf ->].
    unfold mgr_ok. simpl. split_and!; [done| |].
    + constructor; simpl.
      * intros a t. rewrite lookup_app_Some. intros [Ha|[_ Ha]]; [by apply (mi_tx mgr Hinv a)|].
        apply list_lookup_singleton_Some in Ha as [_ <-].
        constructor; simpl; [done|done|]. intros ? ? ? ? ? ? H. by rewrite lookup_nil in H.
      * intros id' a. rewrite lookup_insert_Some. intros [[_ <-]|[_ Ha]].
        -- rewrite lookup_app_r by done. rewrite Nat.sub_diag. by eexists.
        -- destruct (mi_reg mgr Hinv id' a Ha) as [x Hx]. exists x. by apply lookup_app_l_Some.
    + intros a x Ha. exists x. split; [by apply lookup_app_l_Some|done].
  - unfold newTransaction in Hnew. case_decide; [done|].
    destruct (countVotes_cases ∅ 0 voters) as [He|[tot He]]; rewrite He in Hnew; simpl in Hnew; [done|].
    by repeat case_match.
Qed.

Lemma initial_inv : sys_inv initial.
Proof.
  constructor; [constructor|..]; simpl.
  - intros a t H. by rewrite lookup_nil in H.
  - intros id a H. by rewrite lookup_empty in H.
  - intros c H. by apply elem_of_nil in H.
  - done.
Qed.

Lemma finish_inv r mgr : mgr_inv mgr -> mgr_inv (finish r mgr).
Proof. apply count_metric_inv. Qed.

(** Every step keeps the invariant and changes decided voters only forward. *)
Lemma step_ok s s' : sys_inv s -> step s s' ->
  sys_inv s' /\ heap_step (heap (s_mgr s)) (heap (s_mgr s')).
Proof.
  intros Hinv Hstep.
  assert (Hbuild : forall (mgr : Manager) calls p, p = false ->
    mgr_inv mgr -> heap_step (heap (s_mgr s)) (heap mgr) ->
    (forall c, c ∈ calls -> c ∈ s_calls s \/ call_inv (heap mgr) c) ->
    sys_inv (mkSys mgr calls p) /\ heap_step (heap (s_mgr s)) (heap mgr)).
  { intros mgr calls p -> Hm Hh Hc. split; [|done]. constructor; [done| |done]. simpl.
    intros c Hin. destruct (Hc c Hin) as [Hold|?]; [|done].
    eapply call_inv_step; [exact Hh|]. by apply (si_calls s Hinv). }
  pose proof (si_mgr s Hinv) as Hm. pose proof (si_panic s Hinv) as Hp.
  pose proof (si_calls s Hinv) as Hcalls.
  destruct Hstep as [mgr calls p voters thr r mgr' Hreg He|RN mgr calls p a r mgr' Ha He
    |RN mgr calls p id r mgr' He|mgr calls p id node v a i mgr' He|mgr calls p id node e mgr' He
    |mgr calls p id node mgr' He|RN RV mgr calls calls' p a i node v mgr' He
    |RN RV mgr calls calls' p a i node v e mgr' He|RN RV mgr calls calls' p a i node v mgr' He
    |RN RV mgr calls calls' p a i node v sub ctxErr r mgr' Hsub Hg He]; simpl in *; subst p.
  - destruct (RegisterTransaction_ok mgr voters thr Hm Hreg) as (Hp & ? & ?). rewrite He in *.
    apply Hbuild; simpl in *; auto.
  - destruct (cancelTransaction_ok mgr a Hm Ha) as (Hp & ? & ?). rewrite He in *.
    apply Hbuild; simpl in *; auto.
  - destruct (StopTransaction_ok mgr id Hm) as (Hp & ? & ?). rewrite He in *.
    apply Hbuild; simpl in *; auto.
  - destruct (beginVote_ok mgr id node Hm) as [(_ & ? & ?) Hc]. rewrite He in *.
    apply Hbuild; simpl in *; auto. intros c [->|?]%elem_of_cons; [right|by left]. by apply Hc.
  - destruct (beginVote_ok mgr id node Hm) as [(_ & ? & ?) _]. rewrite He in *.
    apply (Hbuild (finish (Err e) mgr')); simpl in *; auto. by apply finish_inv.
  - destruct (beginVote_ok mgr id node Hm) as [(Hp & _) _]. by rewrite He in Hp.
  - destruct (castVote_ok mgr a i node v Hm) as [(_ & ? & ?) Hc]; [apply Hcalls; set_solver|].
    rewrite He in *. apply Hbuild; simpl in *; auto.
    intros c Hin. apply elem_of_app in Hin as [?|[->|?]%elem_of_cons]; [set_solver|right|set_solver].
    by apply Hc.
  - destruct (castVote_ok mgr a i node v Hm) as [(_ & ? & ?) _]; [apply Hcalls; set_solver|].
    rewrite He in *. apply (Hbuild (finish (Err e) mgr')); simpl in *; auto; [by apply finish_inv|]. set_solver.
  - destruct (castVote_ok mgr a i node v Hm) as [(Hp & _) _]; [apply Hcalls; set_solver|].
    by rewrite He in Hp.
  - destruct (awaitVote_ok mgr a i ctxErr node v Hm) as (Hp & ? & ?); [apply Hcalls; set_solver|].
    rewrite He in *. apply (Hbuild (finish r mgr')); simpl in *; auto; [by apply finish_inv|]. set_solver.
Qed.

Lemma steps_ok s s' : sys_inv s -> rtc step s s' ->
  sys_inv s' /\ heap_step (heap (s_mgr s)) (heap (s_mgr s')).
Proof.
  intros Hinv Hs. induction Hs as [s|s s1 s2 H1 _ IH]; [done|].
  destruct (step_ok s s1 Hinv H1) as [Hi Hh]. destruct (IH Hi) as [? ?]. split; [done|]. by etrans.
Qed.

Lemma reachable_inv s : reachable s -> sys_inv s.
Proof. intros H. by apply (steps_ok initial s initial_inv). Qed.

(** ** Safety *)

(** C1. In every reachable state of the manager, the voters of a subtransaction
    that have committed cast one and the same vote, and the nodes that cast it
    hold at least the threshold, that is more than half, of all votes. *)
Theorem committed_agreement s a t i sub n1 w1 n2 w2 :
  reachable s -> heap (s_mgr s) !! a = Some t -> subtransactions t !! i = Some sub ->
  votersByNode sub !! n1 = Some w1 -> result w1 = VoteCommitted ->
  votersByNode sub !! n2 = Some w2 -> result w2 = VoteCommitted ->
  exists v, vote w1 = Some v /\ vote w2 = Some v /\
    tx_threshold t <= msum (castWeight v) (votersByNode sub) /\
    sumVotes (tx_voters t) < 2 * tx_threshold t.
Proof.
  intros Hr Ha Hi Hn1 Hr1 Hn2 Hr2. pose proof (reachable_inv s Hr) as Hinv.
  pose proof (mi_tx _ (si_mgr s Hinv) a t Ha) as Hti.
  destruct (ti_sub t Hti i sub Hi) as [Hsub (Hth & _)]. simpl in Hth.
  destruct (inv_committed sub Hsub n1 w1 Hn1 Hr1) as (_ & v1 & Hv1 & Hc1).
  destruct (inv_committed sub Hsub n2 w2 Hn2 Hr2) as (_ & v2 & Hv2 & Hc2).
  rewrite (quorum_unique sub Hsub v2 v1 Hc2 Hc1) in Hv2. exists v1.
  pose proof (inv_count_upper sub Hsub v1). pose proof (fresh_quorum _ _ (ti_fresh t Hti)).
  split_and!; [done|done|lia|done].
Qed.

(** C25. No interleaving of registrations, votes, context cancellations,
    cancellations and stops makes the manager panic: no channel is closed twice
    and no nil vote is dereferenced. *)
Theorem manager_never_panics s : reachable s -> s_panicked s = false.
Proof. intros Hr. apply (reachable_inv s Hr). Qed.

(** A node that has cast a vote in a subtransaction has committed every
    earlier subtransaction of the same transaction. *)
Theorem subtransactions_in_sequence s a t i j si sj n :
  reachable s -> heap (s_mgr s) !! a = Some t -> (i < j)%nat ->
  subtransactions t !! i = Some si -> subtransactions t !! j = Some sj ->
  getVote sj n ≠ Ok None -> (forall e, getVote sj n ≠ Err e) ->
  getResult si n = Ok VoteCommitted.
Proof.
  intros Hr Ha Hij Hi Hj Hv Hne. pose proof (reachable_inv s Hr) as Hinv.
  pose proof (mi_tx _ (si_mgr s Hinv) a t Ha) as Hti.
  destruct (ti_seq t Hti i j si sj n Hij Hi Hj) as (w & Hw & Hres).
  - unfold getVote in *. unfold recorded. destruct (votersByNode sj !! n) as [w|]; simpl; [congruence|].
    by destruct (Hne (ErrInvalidNode n)).
  - unfold getResult. by rewrite Hw, Hres.
Qed.

(** C26. Decisions are final: whatever happens afterwards, a voter that is no
    longer undecided keeps its result, and a cast vote is never replaced. *)
Theorem decisions_are_final s s' a t i sub n w :
  reachable s -> rtc step s s' ->
  heap (s_mgr s) !! a = Some t -> subtransactions t !! i = Some sub ->
  votersByNode sub !! n = Some w ->
  exists t' sub' w', heap (s_mgr s') !! a = Some t' /\ subtransactions t' !! i = Some sub' /\
    votersByNode sub' !! n = Some w' /\
    (result w ≠ VoteUndecided -> result w' = result w) /\
    (vote w ≠ None -> vote w' = vote w).
Proof.
  intros Hr Hs Ha Hi Hn. destruct (steps_ok s s' (reachable_inv s Hr) Hs) as [_ Hh].
  destruct (Hh a t Ha) as (t' & Ha' & (_ & _ & Hsub)).
  destruct (Hsub i sub Hi) as (sub' & Hi' & Hst).
  destruct (sub_step_lookup_l _ _ n w Hst Hn) as (w' & Hn' & (_ & _ & Hv & Hres)).
  exists t', sub', w'. split_and!; [done..| |]; destruct Hv, Hres; tauto.
Qed.

(** Two nodes that have committed the last subtransaction cast the same vote in
    every subtransaction. *)
Lemma committed_last_same_votes s a t i sub l n1 n2 :
  reachable s -> heap (s_mgr s) !! a = Some t ->
  last (subtransactions t) = Some l -> committed_in l n1 -> committed_in l n2 ->
  subtransactions t !! i = Some sub ->
  exists v, getVote sub n1 = Ok (Some v) /\ getVote sub n2 = Ok (Some v).
Proof.
  intros Hr Ha Hl Hc1 Hc2 Hi. pose proof (reachable_inv s Hr) as Hinv.
  pose proof (mi_tx _ (si_mgr s Hinv) a t Ha) as Hti.
  assert (Hcom : forall n, committed_in l n -> committed_in sub n).
  { intros n Hc. rewrite last_lookup in Hl. pose proof (lookup_lt_Some _ _ _ Hi).
    destruct (decide (i = pred (length (subtransactions t)))) as [->|Hne]; [congruence|].
    apply (ti_seq t Hti i (pred (length (subtransactions t))) sub l n); [lia|done..|].
    destruct Hc as (w & Hw & Hrw). destruct (ti_sub t Hti _ _ Hl) as [Hsl _].
    destruct (inv_committed l Hsl n w Hw Hrw) as (_ & v & Hv & _).
    unfold recorded. rewrite Hw. simpl. congruence. }
  destruct (Hcom n1 Hc1) as (w1 & Hw1 & Hr1). destruct (Hcom n2 Hc2) as (w2 & Hw2 & Hr2).
  destruct (ti_sub t Hti i sub Hi) as [Hsub _].
  destruct (inv_committed sub Hsub n1 w1 Hw1 Hr1) as (_ & v1 & Hv1 & Hc).
  destruct (inv_committed sub Hsub n2 w2 Hw2 Hr2) as (_ & v2 & Hv2 & Hc').
  exists v1. unfold getVote. rewrite Hw1, Hw2, Hv1, Hv2.
  by rewrite (quorum_unique sub Hsub v1 v2 Hc Hc').
Qed.

(** ** Example executions *)

#[local] Existing Instance range_nodes.
#[local] Existing Instance range_votes.

Definition ex_voters : list Voter := [voter "a" 2; voter "b" 1].
Definition ex_m1 : Manager := (RegisterTransaction ex_voters 2 NewManager).2.
Definition ex_m2 : Manager := (beginVote 1 "a" ex_m1).2.
Definition ex_m3 : Manager := (beginVote 1 "b" ex_m2).2.
Definition ex_m4 : Manager := (castVote 0 0 "b" (B "x") ex_m3).2.
Definition ex_m5 : Manager := (castVote 0 0 "a" (B "x") ex_m4).2.
Definition ex_m6 : Manager := finish (Ok tt) (awaitVote 0 0 false "a" ex_m5).2.
Definition ex_m7 : Manager := (beginVote 1 "a" ex_m6).2.
Definition ex_m8 : Manager := (castVote 0 1 "a" (B "y") ex_m7).2.

(** The transaction and a subtransaction of the example. *)
Definition ex_tx (mgr : Manager) : transaction :=
  default (mkTx 0 0 [] transactionOpen []) (heap mgr !! 0%nat).
Definition ex_sub (mgr : Manager) (i : nat) : subtransaction :=
  default (newSubtransaction [] 0) (subtransactions (ex_tx mgr) !! i).

Definition ex_sys : sys :=
  mkSys ex_m8 [mkCall 0 1 "a" (B "y") true; mkCall 0 0 "b" (B "x") true] false.

Lemma ex_registrable : registrable ex_voters 2.
Proof.
  split_and!; [|by vm_compute..]. intros w Hw. unfold ex_voters in Hw.
  by apply elem_of_cons in Hw as [->|[->|[]%elem_of_nil]%elem_of_cons].
Qed.

Lemma ex_reachable : reachable ex_sys.
Proof.
  unfold reachable, initial.
  eapply rtc_l; [eapply (step_register _ _ _ ex_voters 2 (Ok 0%nat) ex_m1); [exact ex_registrable|by run_to]|].
  eapply rtc_l; [eapply (step_begin _ _ _ 1 "a" (B "x") 0 0 ex_m2); by run_to|].
  eapply rtc_l; [eapply (step_begin _ _ _ 1 "b" (B "x") 0 0 ex_m3); by run_to|].
  eapply rtc_l; [eapply (step_cast _ _ _ [] [_] _ 0 0 "b" (B "x") ex_m4); by run_to|].
  eapply rtc_l; [eapply (step_cast _ _ _ [_] [] _ 0 0 "a" (B "x") ex_m5); by run_to|].
  eapply rtc_l.
  { eapply (step_collect _ _ _ [_] [] _ 0 0 "a" (B "x") (ex_sub ex_m5 0) false (Ok tt)
      (awaitVote 0 0 false "a" ex_m5).2); [done|left; by vm_compute|by run_to]. }
  eapply rtc_l; [eapply (step_begin _ _ _ 1 "a" (B "y") 0 1 ex_m7); by run_to|].
  eapply rtc_l; [eapply (step_cast _ _ _ [] [_] _ 0 1 "a" (B "y") ex_m8); by run_to|].
  apply rtc_refl.
Qed.

Definition ex_voter (mgr : Manager) (i : nat) (n : string) : Voter :=
  default (voter "" 0) (votersByNode (ex_sub mgr i) !! n).

Lemma committed_agreement_witness :
  exists v, vote (ex_voter ex_m8 0 "a") = Some v /\ vote (ex_voter ex_m8 0 "b") = Some v /\
    tx_threshold (ex_tx ex_m8) <= msum (castWeight v) (votersByNode (ex_sub ex_m8 0)) /\
    sumVotes (tx_voters (ex_tx ex_m8)) < 2 * tx_threshold (ex_tx ex_m8).
Proof.
  apply (committed_agreement ex_sys 0 (ex_tx ex_m8) 0 (ex_sub ex_m8 0) "a" (ex_voter ex_m8 0 "a")
    "b" (ex_voter ex_m8 0 "b")).
  - exact ex_reachable.
  - apply some_default. by vm_compute.
  - apply some_default. by vm_compute.
  - apply some_default. by vm_compute.
  - by vm_compute.
  - apply some_default. by vm_compute.
  - by vm_compute.
Defined.

Lemma manager_never_panics_witness : s_panicked ex_sys = false.
Proof. exact (manager_never_panics ex_sys ex_reachable). Defined.

Lemma subtransactions_in_sequence_witness :
  getResult (ex_sub ex_m8 0) "a" = Ok VoteCommitted.
Proof.
  apply (subtransactions_in_sequence ex_sys 0 (ex_tx ex_m8) 0 1 (ex_sub ex_m8 0) (ex_sub ex_m8 1) "a").
  - exact ex_reachable.
  - apply some_default. by vm_compute.
  - lia.
  - apply some_default. by vm_compute.
  - apply some_default. by vm_compute.
  - by vm_compute.
  - intros e. by vm_compute.
Defined.

(** Cancelling the transaction of the example afterwards. *)
Definition ex_cancelled : sys :=
  mkSys (cancelTransaction 0 ex_m8).2 (s_calls ex_sys) false.

Lemma ex_cancel_step : rtc step ex_sys ex_cancelled.
Proof.
  eapply rtc_l; [|apply rtc_refl].
  apply (step_cancel _ ex_m8 (s_calls ex_sys) false 0 (Ok tt) (cancelTransaction 0 ex_m8).2).
  - exists (ex_tx ex_m8). apply some_default. by vm_compute.
  - by run_to.
Qed.

Lemma decisions_are_final_witness :
  exists t' sub' w', heap (s_mgr ex_cancelled) !! 0%nat = Some t' /\ subtransactions t' !! 0%nat = Some sub' /\
    votersByNode sub' !! "b" = Some w' /\
    (result (ex_voter ex_m8 0 "b") ≠ VoteUndecided -> result w' = result (ex_voter ex_m8 0 "b")) /\
    (vote (ex_voter ex_m8 0 "b") ≠ None -> vote w' = vote (ex_voter ex_m8 0 "b")).
Proof.
  apply (decisions_are_final ex_sys ex_cancelled 0 (ex_tx ex_m8) 0 (ex_sub ex_m8 0) "b").
  - exact ex_reachable.
  - exact ex_cancel_step.
  - apply some_default. by vm_compute.
  - apply some_default. by vm_compute.
  - apply some_default. by vm_compute.
Defined.

(** ** Stopping after a withdrawal

    Three voters of weight one and threshold two: "a" votes and waits, "b" votes
    and withdraws because its context is done. *)

Definition ex_withdrawn : subtransaction :=
  ((_ ← voteOn "a" (B "x"); _ ← voteOn "b" (B "y"); collectVotes true "b")
    (newSubtransaction [voter "a" 1; voter "b" 1; voter "c" 1] 2)).2.

(** Stopping a subtransaction one of whose voters has withdrawn fails after it
    may have stopped some of the others, depending on the map order, and does
    not wake them up: "a", which waits, is left stopped or undecided, and the
    subtransaction is not done in either case. *)
Theorem stop_after_withdrawal_depends_on_order :
  (@stop (default_range string Voter) ex_withdrawn).1 = Err ErrTransactionCanceled /\
  (@stop (reverse_range string Voter) ex_withdrawn).1 = Err ErrTransactionCanceled /\
  isDone (@stop (default_range string Voter) ex_withdrawn).2 = false /\
  isDone (@stop (reverse_range string Voter) ex_withdrawn).2 = false /\
  getResult (@stop (default_range string Voter) ex_withdrawn).2 "a"
    ≠ getResult (@stop (reverse_range string Voter) ex_withdrawn).2 "a".
Proof. by vm_compute. Qed.
