(* ===== verification/Datastore.v ===== *)
(** Data model of the replication queue
    (src/internal/praefect/datastore/datastore.go and the types of queue.go).

    The string-typed enums [JobState] and [ChangeType] are inductive types with
    the strings they stand for; [Params] holds the dynamic values the code puts
    into it. *)

From S2P Require Import Prelude.

Inductive JobState : Type :=
| JobStateReady
| JobStateInProgress
| JobStateCompleted
| JobStateCancelled
| JobStateFailed
| JobStateDead.

#[export] Instance JobState_eq_dec : EqDecision JobState.
Proof. solve_decision. Defined.

Definition JobState_String (js : JobState) : string :=
  match js with
  | JobStateReady => "ready"
  | JobStateInProgress => "in_progress"
  | JobStateCompleted => "completed"
  | JobStateCancelled => "cancelled"
  | JobStateFailed => "failed"
  | JobStateDead => "dead"
  end.

Inductive ChangeType : Type :=
| UpdateRepo
| CreateRepo
| DeleteRepo
| DeleteReplica
| RenameRepo
| GarbageCollect
| RepackFull
| RepackIncremental
| Cleanup
| PackRefs
| WriteCommitGraph
| MidxRepack
| OptimizeRepository.

#[export] Instance ChangeType_eq_dec : EqDecision ChangeType.
Proof. solve_decision. Defined.

Definition ChangeType_String (ct : ChangeType) : string :=
  match ct with
  | UpdateRepo => "update"
  | CreateRepo => "create"
  | DeleteRepo => "delete"
  | DeleteReplica => "delete_replica"
  | RenameRepo => "rename"
  | GarbageCollect => "gc"
  | RepackFull => "repack_full"
  | RepackIncremental => "repack_incremental"
  | Cleanup => "cleanup"
  | PackRefs => "pack_refs"
  | WriteCommitGraph => "write_commit_graph"
  | MidxRepack => "midx_repack"
  | OptimizeRepository => "optimize_repository"
  end.

(** The dynamic values stored in [Params]; a number that went through JSON is a
    float64, here with an integral value. *)
Inductive ParamValue : Type :=
| PBool (b : bool)
| PString (s : string)
| PEnum (n : Z)
| PFloat (n : Z).

#[export] Instance ParamValue_eq_dec : EqDecision ParamValue.
Proof. solve_decision. Defined.

Abbreviation Params := (gmap string ParamValue).

Inductive ParamError : Type :=
| KeyDoesNotExist
| UnexpectedType.

Definition GetBool (p : Params) (key : string) : out ParamError bool :=
  match p !! key with
  | None => Err KeyDoesNotExist
  | Some (PBool b) => Ok b
  | Some _ => Err UnexpectedType
  end.

(** [nil] params are different from empty ones. *)
Record ReplicationJob : Type := mkJob {
  RepositoryID : Z;
  Change : ChangeType;
  RelativePath : string;
  TargetNodeStorage : string;
  SourceNodeStorage : string;
  VirtualStorage : string;
  JobParams : option Params;
}.

#[export] Instance ReplicationJob_eq_dec : EqDecision ReplicationJob.
Proof. solve_decision. Defined.

Record ReplicationEvent : Type := mkEvent {
  ID : Z;
  EState : JobState;
  Attempt : Z;
  LockID : string;
  CreatedAt : Z;
  UpdatedAt : option Z;
  Job : ReplicationJob;
  Meta : option Params;
}.

Inductive QueueError : Type :=
| UnsupportedState (s : JobState)
| NotInProgress (id : Z) (s : JobState)
| ErrDeadAckedAsFailed
| ErrMarshal
| ErrQuery (what : string).

Definition allowToAck (state : JobState) : option QueueError :=
  match state with
  | JobStateCompleted | JobStateFailed | JobStateCancelled | JobStateDead => None
  | _ => Some (UnsupportedState state)
  end.

Lemma JobState_String_inj a b : JobState_String a = JobState_String b -> a = b.
Proof. by destruct a, b. Qed.

Lemma ChangeType_String_inj a b : ChangeType_String a = ChangeType_String b -> a = b.
Proof. by destruct a, b. Qed.
