(* ===== verification/MemoryQueue.v ===== *)
(** The in-memory replication event queue
    (src/internal/praefect/datastore/memory.go).

    Events are queued per virtual storage and target storage, handed out by
    [Dequeue] and retired by [Acknowledge]. [time.Now] reads the section's clock
    [ticks]; the state counts the readings. [json.Marshal] of a job serves only
    to compare jobs and is the parameter [json_Marshal] ([None]: it fails). *)

From stdpp Require Import sorting.
From S2P Require Import Prelude Datastore.

Record eventDestination : Type := mkDest {
  d_virtual : string;
  d_storage : string;
  d_relativePath : string;
}.

#[export] Instance eventDestination_eq_dec : EqDecision eventDestination.
Proof. solve_decision. Defined.

Definition dest_tuple (d : eventDestination) : string * string * string :=
  (d_virtual d, d_storage d, d_relativePath d).
Definition tuple_dest (t : string * string * string) : eventDestination :=
  mkDest t.1.1 t.1.2 t.2.

Lemma dest_tuple_cancel d : tuple_dest (dest_tuple d) = d.
Proof. by destruct d. Qed.

#[export] Instance eventDestination_countable : Countable eventDestination :=
  inj_countable' dest_tuple tuple_dest dest_tuple_cancel.

Record memoryReplicationEventQueue : Type := mkQueue {
  seq : Z;
  queued : list ReplicationEvent;
  dequeued : gset Z;
  storageNamesByVirtualStorage : gmap string (list string);
  lastEventByDest : gmap eventDestination ReplicationEvent;
  clock : nat;
}.

(** [conf] lists the virtual storages with the storages of their nodes. *)
Definition NewMemoryReplicationEventQueue (conf : list (string * list string))
    : memoryReplicationEventQueue :=
  mkQueue 0 [] ∅ (foldl (fun m vs => <[vs.1 := vs.2]> m) ∅ conf) ∅ 0.

Abbreviation Q := (M memoryReplicationEventQueue QueueError).

Definition with_queued (l : list ReplicationEvent) (s : memoryReplicationEventQueue) :=
  mkQueue (seq s) l (dequeued s) (storageNamesByVirtualStorage s) (lastEventByDest s) (clock s).

Definition with_dequeued (f : gset Z -> gset Z) (s : memoryReplicationEventQueue) :=
  mkQueue (seq s) (queued s) (f (dequeued s)) (storageNamesByVirtualStorage s) (lastEventByDest s) (clock s).

Definition with_last (f : gmap eventDestination ReplicationEvent -> gmap eventDestination ReplicationEvent)
    (s : memoryReplicationEventQueue) :=
  mkQueue (seq s) (queued s) (dequeued s) (storageNamesByVirtualStorage s) (f (lastEventByDest s)) (clock s).

Definition defineDest (event : ReplicationEvent) : eventDestination :=
  mkDest (VirtualStorage (Job event)) (TargetNodeStorage (Job event)) (RelativePath (Job event)).

Definition nextID : Q Z :=
  s ← get;
  let id := u64 (seq s + 1) in
  _ ← put (mkQueue id (queued s) (dequeued s) (storageNamesByVirtualStorage s) (lastEventByDest s) (clock s));
  mret id.

(** Removing the [i]-th event; an index out of range panics. *)
Definition remove (i : nat) : Q unit :=
  s ← get;
  match queued s !! i with
  | None => panic
  | Some e =>
    put (mkQueue (seq s) (take i (queued s) ++ drop (S i) (queued s))
           (dequeued s ∖ {[ID e]}) (storageNamesByVirtualStorage s) (lastEventByDest s) (clock s))
  end.

(** Keeps [lastEventByDest] up to date with a changed event. *)
Definition refreshLast (event : ReplicationEvent) : Q unit :=
  modify (with_last (fun m =>
    match m !! defineDest event with
    | Some last => if decide (ID last = ID event) then <[defineDest event := event]> m else m
    | None => m
    end)).

Section Queue.
Variable ticks : nat -> Z.
Variable json_Marshal : ReplicationJob -> option bytes.

Definition time_Now : Q Z := fun s =>
  (Ok (ticks (clock s)),
   mkQueue (seq s) (queued s) (dequeued s) (storageNamesByVirtualStorage s) (lastEventByDest s) (S (clock s))).

Definition Enqueue (event : ReplicationEvent) : Q ReplicationEvent :=
  now ← time_Now;
  id ← nextID;
  let j := Job event in
  let event := mkEvent id JobStateReady 3
    (VirtualStorage j +:+ "|" +:+ TargetNodeStorage j +:+ "|" +:+ RelativePath j)
    now (UpdatedAt event) j (Meta event) in
  _ ← modify (fun s => with_queued (queued s ++ [event]) s);
  _ ← modify (with_last (<[defineDest event := event]>));
  mret event.

Definition dequeuable (virtualStorage nodeStorage : string) (event : ReplicationEvent) : bool :=
  bool_decide (VirtualStorage (Job event) = virtualStorage) &&
  bool_decide (TargetNodeStorage (Job event) = nodeStorage) &&
  bool_decide (EState event = JobStateReady \/ EState event = JobStateFailed).

Definition inProgress (now : Z) (event : ReplicationEvent) : ReplicationEvent :=
  mkEvent (ID event) JobStateInProgress (Attempt event - 1) (LockID event) (CreatedAt event)
    (Some now) (Job event) (Meta event).

(** Handing out the event at index [i]. *)
Definition dequeueAt (i : nat) (event : ReplicationEvent) : Q ReplicationEvent :=
  updatedAt ← time_Now;
  let event := inProgress updatedAt event in
  _ ← modify (fun s => with_queued (<[i := event]> (queued s)) s);
  _ ← modify (with_dequeued (fun d => {[ID event]} ∪ d));
  _ ← refreshLast event;
  mret event.

(** The loop of [Dequeue] over the remaining indices; [break] ends it. *)
Fixpoint dequeueLoop (virtualStorage nodeStorage : string) (count : Z) (indices : list nat)
    (result : list ReplicationEvent) (uniqueJob : gset bytes) : Q (list ReplicationEvent) :=
  match indices with
  | [] => mret result
  | i :: indices =>
    s ← get;
    match queued s !! i with
    | None => panic
    | Some event =>
      if dequeuable virtualStorage nodeStorage event then
        match json_Marshal (Job event) with
        | None => fail ErrMarshal
        | Some jobData =>
          if decide (jobData ∈ uniqueJob)
          then dequeueLoop virtualStorage nodeStorage count indices result uniqueJob
          else
            event ← dequeueAt i event;
            let result := result ++ [event] in
            if count <=? Z.of_nat (length result) then mret result
            else dequeueLoop virtualStorage nodeStorage count indices result ({[jobData]} ∪ uniqueJob)
        end
      else dequeueLoop virtualStorage nodeStorage count indices result uniqueJob
    end
  end.

Definition Dequeue (virtualStorage nodeStorage : string) (count : Z) : Q (list ReplicationEvent) :=
  s ← get;
  dequeueLoop virtualStorage nodeStorage count (List.seq 0 (length (queued s))) [] ∅.

(** The loop that drops later events of the same job once it has completed:
    the index advances also after a removal. [fuel] bounds the number of
    iterations by the length of the queue. *)
Fixpoint dropDuplicates (fuel : nat) (ackJobData : bytes) (dequeuedAt : option Z) (j : nat) : Q unit :=
  match fuel with
  | O => mret tt
  | S fuel =>
    s ← get;
    match queued s !! j with
    | None => mret tt
    | Some event =>
      match dequeuedAt with
      | None => panic
      | Some at_ =>
        if at_ <? CreatedAt event then mret tt
        else match json_Marshal (Job event) with
        | None => fail ErrMarshal
        | Some sameJobData =>
          _ ← (if decide (ackJobData = sameJobData) then remove j else mret tt);
          dropDuplicates fuel ackJobData dequeuedAt (S j)
        end
      end
    end
  end.

Definition setState (state : JobState) (now : Z) (event : ReplicationEvent) : ReplicationEvent :=
  mkEvent (ID event) state (Attempt event) (LockID event) (CreatedAt event) (Some now)
    (Job event) (Meta event).

Definition isFinal (state : JobState) : bool :=
  bool_decide (state = JobStateCompleted \/ state = JobStateCancelled \/ state = JobStateDead).

(** Acknowledging the event at index [i]. *)
Definition acknowledgeAt (state : JobState) (i : nat) (event : ReplicationEvent) : Q unit :=
  if decide (EState event ≠ JobStateInProgress) then fail (NotInProgress (ID event) (EState event))
  else if decide (Attempt event = 0 /\ state = JobStateFailed) then fail ErrDeadAckedAsFailed
  else
    let dequeuedAt := UpdatedAt event in
    updatedAt ← time_Now;
    let event := setState state updatedAt event in
    _ ← modify (fun s => with_queued (<[i := event]> (queued s)) s);
    _ ← refreshLast event;
    _ ← (if decide (state = JobStateCompleted) then
           match json_Marshal (Job event) with
           | None => fail ErrMarshal
           | Some ackJobData =>
             s ← get;
             dropDuplicates (length (queued s)) ackJobData dequeuedAt (S i)
           end
         else mret tt);
    if isFinal state then remove i else mret tt.

Fixpoint acknowledgeLoop (state : JobState) (ids : list Z) (result : list Z) : Q (list Z) :=
  match ids with
  | [] => mret result
  | id :: ids =>
    s ← get;
    if decide (id ∈ dequeued s) then
      match list_find (fun e => ID e = id) (queued s) with
      | None => acknowledgeLoop state ids result
      | Some (i, event) =>
        _ ← acknowledgeAt state i event;
        acknowledgeLoop state ids (result ++ [id])
      end
    else acknowledgeLoop state ids result
  end.

Definition Acknowledge (state : JobState) (ids : list Z) : Q (list Z) :=
  if decide (ids = []) then mret []
  else match allowToAck state with
  | Some e => fail e
  | None => acknowledgeLoop state ids []
  end.

End Queue.

(** ** The invariant

    [h] is the history of the IDs handed out by [Dequeue]. *)

Definition occ (id : Z) (h : list Z) : Z := Z.of_nat (length (filter (fun x => x = id) h)).

Definition event_ok (deq : gset Z) (h : list Z) (e : ReplicationEvent) : Prop :=
  Attempt e + occ (ID e) h = 3 /\
  match EState e with
  | JobStateReady => Attempt e = 3
  | JobStateInProgress => 0 <= Attempt e <= 2 /\ UpdatedAt e ≠ None /\ ID e ∈ deq
  | JobStateFailed => 1 <= Attempt e <= 2 /\ ID e ∈ deq
  | JobStateCompleted | JobStateCancelled | JobStateDead => False
  end.

(** The events whose ID is in [X] are exempt from [event_ok]. *)
Record q_inv (X : gset Z) (h : list Z) (s : memoryReplicationEventQueue) : Prop := {
  qi_sorted : StronglySorted Z.lt (ID <$> queued s);
  qi_range : forall e, e ∈ queued s -> 1 <= ID e <= seq s;
  qi_dequeued : forall id, id ∈ dequeued s -> exists e, e ∈ queued s /\ ID e = id;
  qi_event : forall e, e ∈ queued s -> ID e ∉ X -> event_ok (dequeued s) h e;
  qi_fresh : forall id, seq s < id -> id ∉ h;
  qi_occ : forall id, occ id h <= 3;
}.

Lemma occ_app id h h' : occ id (h ++ h') = occ id h + occ id h'.
Proof. unfold occ. rewrite filter_app, length_app. lia. Qed.

Lemma occ_single id id' : occ id [id'] = if decide (id' = id) then 1 else 0.
Proof. unfold occ. rewrite filter_cons. by case_decide. Qed.

Lemma occ_notin id h : id ∉ h -> occ id h = 0.
Proof.
  induction h as [|x h IH]; intros Hn; [done|]. unfold occ in *. rewrite filter_cons.
  rewrite decide_False; [apply IH; set_solver|]. set_solver.
Qed.

Lemma occ_nonneg id h : 0 <= occ id h.
Proof. unfold occ. lia. Qed.

Lemma sorted_ids_unique l e e' :
  StronglySorted Z.lt (ID <$> l) -> e ∈ l -> e' ∈ l -> ID e = ID e' -> e = e'.
Proof.
  induction l as [|x l IH]; intros Hs He He' Hid; [by apply elem_of_nil in He|].
  simpl in Hs. apply StronglySorted_inv in Hs as [Hs Hx]. rewrite Forall_forall in Hx.
  assert (Hlt : forall y, y ∈ l -> ID x < ID y).
  { intros y Hy. apply Hx. by apply list_elem_of_fmap_2. }
  apply elem_of_cons in He as [->|He], He' as [->|He']; [done| | |by apply IH].
  - specialize (Hlt _ He'). lia.
  - specialize (Hlt _ He). lia.
Qed.

Lemma sorted_nodup (l : list Z) : StronglySorted Z.lt l -> NoDup l.
Proof.
  induction 1 as [|x l Hs IH Hx]; constructor; [|done]. rewrite Forall_forall in Hx.
  intros Hin. specialize (Hx x Hin). lia.
Qed.

Lemma StronglySorted_lookup_lt (l : list Z) :
  StronglySorted Z.lt l -> forall (i j : nat) x y, (i < j)%nat ->
  l !! i = Some x -> l !! j = Some y -> x < y.
Proof.
  induction 1 as [|z l Hs IH Hz]; intros i j x y Hij Hi Hj; [done|].
  destruct j as [|j]; [lia|]. destruct i as [|i]; simpl in *.
  - simplify_eq. rewrite Forall_forall in Hz. apply Hz. by eapply list_elem_of_lookup_2.
  - apply (IH i j); [lia|done..].
Qed.

Lemma sorted_delete (l : list Z) i :
  StronglySorted Z.lt l -> StronglySorted Z.lt (take i l ++ drop (S i) l).
Proof.
  intros Hs. revert i. induction Hs as [|x l Hs IH Hx]; intros i; [destruct i; constructor|].
  destruct i as [|i]; [done|]. simpl. constructor; [apply IH|].
  rewrite Forall_forall in *. intros y [Hy|Hy]%elem_of_app; apply Hx.
  - eapply elem_of_take in Hy as (j & ? & _). by eapply list_elem_of_lookup_2.
  - eapply elem_of_drop in Hy as (j & ? & _). by eapply list_elem_of_lookup_2.
Qed.

Lemma fmap_insert_same (l : list ReplicationEvent) i e e' :
  l !! i = Some e -> ID e' = ID e -> ID <$> <[i := e']> l = ID <$> l.
Proof.
  intros Hi Hid. rewrite list_fmap_insert, Hid. apply list_insert_id. by rewrite list_lookup_fmap, Hi.
Qed.

Lemma elem_of_list_insert (l : list ReplicationEvent) i e' x :
  x ∈ <[i := e']> l -> x = e' \/ exists j, j ≠ i /\ l !! j = Some x.
Proof.
  intros (j & Hj)%list_elem_of_lookup. destruct (decide (i = j)) as [<-|Hne].
  - left. destruct (decide (i < length l)%nat).
    + rewrite list_lookup_insert_eq in Hj by done. by simplify_eq.
    + rewrite lookup_ge_None_2 in Hj; [done|]. rewrite length_insert. lia.
  - rewrite list_lookup_insert_ne in Hj by done. right. by exists j.
Qed.

(** Replacing the event at index [i] by one with the same ID. *)
Lemma q_inv_replace X X' h h' s s' i e e' :
  q_inv X h s -> queued s !! i = Some e -> ID e' = ID e ->
  queued s' = <[i := e']> (queued s) -> seq s' = seq s ->
  (forall id, id ∈ dequeued s' <-> id ∈ dequeued s \/ id = ID e /\ id ∈ dequeued s') ->
  (ID e' ∉ X' -> event_ok (dequeued s') h' e') ->
  (forall id, id ≠ ID e -> id ∉ X' -> id ∉ X) ->
  (forall id, id ≠ ID e -> occ id h' = occ id h) -> occ (ID e) h' <= 3 ->
  (forall id, id ∈ h' -> id ∈ h \/ id = ID e) ->
  q_inv X' h' s'.
Proof.
  intros Hinv Hi Hid Hq Hseq Hdeq Hok HX Hocc Hocc3 Hh.
  assert (He : e ∈ queued s) by (by eapply list_elem_of_lookup_2).
  assert (Hmem : forall x, x ∈ queued s' -> x = e' \/ x ∈ queued s /\ ID x ≠ ID e).
  { intros x Hx. rewrite Hq in Hx. apply elem_of_list_insert in Hx as [?|(j & Hne & Hj)]; [by left|right].
    assert (x ∈ queued s) by (by eapply list_elem_of_lookup_2). split; [done|]. intros Heq.
    apply Hne. pose proof (sorted_nodup _ (qi_sorted X h s Hinv)) as Hnd.
    eapply (NoDup_lookup _ j i (ID e)) in Hnd; [done|rewrite list_lookup_fmap, Hj; simpl; congruence|].
    by rewrite list_lookup_fmap, Hi. }
  constructor.
  - rewrite Hq, (fmap_insert_same _ i e e') by done. apply Hinv.
  - intros x Hx. rewrite Hseq. apply Hmem in Hx as [->|[Hx _]]; [rewrite Hid|]; by apply (qi_range X h s).
  - intros id Hin. apply Hdeq in Hin as [Hin|[-> _]].
    + destruct (qi_dequeued X h s Hinv id Hin) as (x & Hx & <-).
      apply list_elem_of_lookup in Hx as [j Hj]. destruct (decide (i = j)) as [<-|Hne].
      * exists e'. split; [|congruence]. rewrite Hq. apply list_elem_of_lookup. exists i.
        apply list_lookup_insert_eq. by eapply lookup_lt_Some.
      * exists x. split; [|done]. rewrite Hq. apply list_elem_of_lookup. exists j.
        by rewrite list_lookup_insert_ne.
    + exists e'. split; [|done]. rewrite Hq. apply list_elem_of_lookup. exists i.
      apply list_lookup_insert_eq. by eapply lookup_lt_Some.
  - intros x Hx HxX. apply Hmem in Hx as [->|[Hx Hne]]; [by apply Hok|].
    pose proof (qi_event X h s Hinv x Hx (HX _ Hne HxX)) as [Ha Hst]. split; [by rewrite Hocc|].
    assert (Hd : ID x ∈ dequeued s -> ID x ∈ dequeued s') by (intros; apply Hdeq; by left).
    destruct (EState x); try done; naive_solver.
  - intros id Hlt Hin. rewrite Hseq in Hlt. apply Hh in Hin as [Hin| ->].
    + by apply (qi_fresh X h s Hinv id).
    + pose proof (qi_range X h s Hinv e He). lia.
  - intros id. destruct (decide (id = ID e)) as [->|Hne]; [done|]. rewrite Hocc by done. apply Hinv.
Qed.

(** Removing the event at index [i]. *)
Lemma remove_eq i e s :
  queued s !! i = Some e ->
  remove i s = (Ok tt, mkQueue (seq s) (take i (queued s) ++ drop (S i) (queued s))
    (dequeued s ∖ {[ID e]}) (storageNamesByVirtualStorage s) (lastEventByDest s) (clock s)).
Proof. intros Hi. unfold remove. unfold_M. by rewrite Hi. Qed.

Lemma remove_inv X h i e s s' :
  q_inv X h s -> queued s !! i = Some e -> remove i s = (Ok tt, s') ->
  q_inv (X ∖ {[ID e]}) h s' /\
  forall x, x ∈ queued s' <-> x ∈ queued s /\ ID x ≠ ID e.
Proof.
  intros Hinv Hi Hr. rewrite (remove_eq i e) in Hr by done. injection Hr as <-.
  pose proof (sorted_nodup _ (qi_sorted X h s Hinv)) as Hnd.
  assert (Hmem : forall x, x ∈ take i (queued s) ++ drop (S i) (queued s) <->
    x ∈ queued s /\ ID x ≠ ID e).
  { intros x. rewrite elem_of_app, elem_of_take, elem_of_drop. split.
    - assert (Haux : forall j, queued s !! j = Some x -> j ≠ i -> x ∈ queued s /\ ID x ≠ ID e).
      { intros j Hj Hne. split; [by eapply list_elem_of_lookup_2|]. intros Heq. apply Hne.
        eapply (NoDup_lookup _ j i (ID e)) in Hnd; [done|rewrite list_lookup_fmap, Hj; simpl; congruence|].
        by rewrite list_lookup_fmap, Hi. }
      intros [(j & Hj & ?)|(j & Hj & ?)]; apply (Haux j); try done; lia.
    - intros [(j & Hj)%list_elem_of_lookup Hne]. destruct (decide (j < i)%nat).
      + left. by exists j.
      + right. exists j. split; [done|]. destruct (decide (j = i)) as [->|]; [congruence|lia]. }
  split; [|done]. constructor; simpl.
  - rewrite fmap_app, fmap_take, fmap_drop. apply sorted_delete. apply Hinv.
  - intros x [Hx _]%Hmem. by apply (qi_range X h s).
  - intros id [Hid Hne]%elem_of_difference. destruct (qi_dequeued X h s Hinv id Hid) as (x & Hx & <-).
    exists x. split; [|done]. apply Hmem. set_solver.
  - intros x [Hx Hne]%Hmem HX. destruct (qi_event X h s Hinv x Hx) as [Ha Hst]; [set_solver|].
    split; [done|]. destruct (EState x); try done; set_solver.
  - apply Hinv.
  - apply Hinv.
Qed.

Section Invariant.
Variable ticks : nat -> Z.
Variable json_Marshal : ReplicationJob -> option bytes.

Lemma Enqueue_inv h s event :
  q_inv ∅ h s -> 0 <= seq s < 2 ^ 64 - 1 ->
  exists e s', Enqueue ticks event s = (Ok e, s') /\ q_inv ∅ h s' /\
    seq s' = seq s + 1 /\ ID e = seq s' /\ EState e = JobStateReady /\ Attempt e = 3 /\
    Job e = Job event /\ queued s' = queued s ++ [e] /\ dequeued s' = dequeued s.
Proof.
  intros Hinv Hseq. unfold Enqueue, nextID, time_Now. unfold_M. simpl.
  rewrite u64_small by lia. do 2 eexists. split; [done|]. simpl.
  split_and!; try done. constructor; simpl.
  - rewrite fmap_app. simpl. assert (Hs := qi_sorted _ _ _ Hinv).
    assert (Hlt : Forall (fun x => x < seq s + 1) (ID <$> queued s)).
    { apply Forall_forall. intros x (e & -> & He)%list_elem_of_fmap.
      pose proof (qi_range _ _ _ Hinv e He). lia. }
    revert Hs Hlt. generalize (ID <$> queued s). induction 1 as [|x l Hs IH Hx]; intros Hlt; simpl.
    + repeat constructor.
    + apply Forall_cons in Hlt as [Hxlt Hlt]. constructor; [by apply IH|].
      apply Forall_app. split; [done|]. by constructor.
  - intros e [He|He%list_elem_of_singleton]%elem_of_app; [pose proof (qi_range _ _ _ Hinv e He); lia|].
    subst e. simpl. lia.
  - intros id Hid. destruct (qi_dequeued _ _ _ Hinv id Hid) as (e & He & <-).
    exists e. split; [|done]. apply elem_of_app. by left.
  - intros e [He|He%list_elem_of_singleton]%elem_of_app _; [apply (qi_event _ _ _ Hinv e He); set_solver|].
    subst e. split; [|done]. simpl. assert (Hno : seq s + 1 ∉ h) by (apply (qi_fresh _ _ _ Hinv); lia).
    by rewrite occ_notin.
  - intros id Hid. apply (qi_fresh _ _ _ Hinv). lia.
  - apply Hinv.
Qed.

Lemma dequeueAt_inv h s i e vs ns :
  q_inv ∅ h s -> queued s !! i = Some e -> dequeuable vs ns e = true ->
  exists now s', dequeueAt ticks i e s = (Ok (inProgress now e), s') /\
    q_inv ∅ (h ++ [ID e]) s' /\ seq s' = seq s /\
    queued s' = <[i := inProgress now e]> (queued s).
Proof.
  intros Hinv Hi Hd.
  exists (ticks (clock s)). unfold dequeueAt, time_Now, refreshLast. unfold_M.
  eexists. split; [reflexivity|]. simpl. split_and!; [|done|done].
  unfold dequeuable in Hd. apply andb_true_iff in Hd as [_ Hst%bool_decide_eq_true].
  destruct (qi_event _ _ _ Hinv e) as [Hatt Hev]; [by eapply list_elem_of_lookup_2|set_solver|].
  assert (Hpos : 1 <= Attempt e).
  { destruct Hst as [Hst|Hst]; rewrite Hst in Hev; lia. }
  eapply (q_inv_replace ∅ ∅ h _ s _ i e (inProgress (ticks (clock s)) e)); try done; simpl.
  - set_solver.
  - intros _. split; simpl.
    + rewrite occ_app, occ_single, decide_True by done. lia.
    + pose proof (occ_nonneg (ID e) h). split_and!; [lia|lia|done|set_solver].
  - intros id Hne. rewrite occ_app, occ_single, decide_False by done. lia.
  - rewrite occ_app, occ_single, decide_True by done. lia.
  - intros id. rewrite elem_of_app, list_elem_of_singleton. done.
Qed.

(** What a run of the loop does: [new] are the events it hands out. *)
Record dequeue_spec (vs ns : string) (count : Z) (indices : list nat) (res : list ReplicationEvent)
    (seen : gset bytes) (h : list Z) (s s' : memoryReplicationEventQueue)
    (new : list ReplicationEvent) : Prop := {
  dq_inv : q_inv ∅ (h ++ (ID <$> new)) s';
  dq_seq : seq s' = seq s;
  dq_new : forall e, e ∈ new -> exists i e0 now, i ∈ indices /\ queued s !! i = Some e0 /\
    dequeuable vs ns e0 = true /\ e = inProgress now e0 /\ queued s' !! i = Some e;
  dq_rest : forall i, queued s' !! i = queued s !! i \/
    i ∈ indices /\ exists e, e ∈ new /\ queued s' !! i = Some e;
  dq_sorted : StronglySorted Z.lt (ID <$> new);
  dq_distinct : NoDup ((fun e => json_Marshal (Job e)) <$> new);
  dq_unseen : forall e d, e ∈ new -> json_Marshal (Job e) = Some d -> d ∉ seen;
  dq_length : new = [] \/ Z.of_nat (length (res ++ new)) <= count `max` (Z.of_nat (length res) + 1);
}.

Lemma dequeue_spec_nil vs ns count indices res seen h s :
  q_inv ∅ h s -> dequeue_spec vs ns count indices res seen h s s [].
Proof.
  intros Hinv. split; simpl.
  - by rewrite app_nil_r.
  - done.
  - intros e He. by apply elem_of_nil in He.
  - intros i. by left.
  - constructor.
  - constructor.
  - intros e d He. by apply elem_of_nil in He.
  - by left.
Qed.

(** Every waiting event at one of [indices] has a job that was seen before or
    is one of the [new] ones. *)
Definition dequeue_complete (vs ns : string) (indices : list nat) (seen : gset bytes)
    (s : memoryReplicationEventQueue) (new : list ReplicationEvent) : Prop :=
  forall i e0, i ∈ indices -> queued s !! i = Some e0 -> dequeuable vs ns e0 = true ->
    exists d, json_Marshal (Job e0) = Some d /\
      (d ∈ seen \/ Some d ∈ (fun e => json_Marshal (Job e)) <$> new).

(** Passing over an event leaves the result as it is for the remaining indices. *)
Lemma dequeue_spec_skip vs ns count i indices res seen h s s' new :
  dequeue_spec vs ns count indices res seen h s s' new ->
  dequeue_spec vs ns count (i :: indices) res seen h s s' new.
Proof.
  intros []. split; try done.
  - intros x Hx. destruct (dq_new0 x Hx) as (k & e0 & now & ? & ?). exists k, e0, now. split; [by right|done].
  - intros k. destruct (dq_rest0 k) as [?|[? ?]]; [by left|right]. split; [by right|done].
Qed.

Lemma dequeue_complete_skip vs ns i e indices seen s new :
  queued s !! i = Some e ->
  (dequeuable vs ns e = true -> exists d, json_Marshal (Job e) = Some d /\ d ∈ seen) ->
  dequeue_complete vs ns indices seen s new -> dequeue_complete vs ns (i :: indices) seen s new.
Proof.
  intros He Hd Hcomp k e0 [->|Hk]%elem_of_cons Hk0 Hdk; [|by apply (Hcomp k)].
  assert (e0 = e) as -> by congruence. destruct (Hd Hdk) as (d & ? & ?). eauto.
Qed.

Section HandOut.
Context (vs ns : string) (count : Z) (i : nat) (e : ReplicationEvent) (now : Z) (d : bytes).
Context (indices : list nat) (res : list ReplicationEvent) (seen : gset bytes) (h : list Z).
Context (s s1 : memoryReplicationEventQueue).
Context (Hinv : q_inv ∅ h s) (He : queued s !! i = Some e) (Hd : dequeuable vs ns e = true).
Context (Hj : json_Marshal (Job e) = Some d) (Hseen : d ∉ seen).
Context (Hlt : forall k, k ∈ indices -> (i < k)%nat).
Context (Hseq1 : seq s1 = seq s) (Hq1 : queued s1 = <[i := inProgress now e]> (queued s)).

Lemma handOut_at : queued s1 !! i = Some (inProgress now e).
Proof using He Hq1. rewrite Hq1. apply list_lookup_insert_eq. by eapply lookup_lt_Some. Qed.

Lemma handOut_rest k : queued s1 !! k = queued s !! k \/ k = i.
Proof using Hq1. destruct (decide (i = k)); [by right|left]. by rewrite Hq1, list_lookup_insert_ne. Qed.

Lemma handOut_later k : k ∈ indices -> queued s1 !! k = queued s !! k.
Proof using Hlt Hq1. intros Hk. destruct (handOut_rest k) as [?| ->]; [done|]. specialize (Hlt _ Hk). lia. Qed.

(** The last event handed out: [count] is reached. *)
Lemma dequeue_spec_last :
  q_inv ∅ (h ++ [ID e]) s1 -> 
  dequeue_spec vs ns count (i :: indices) res seen h s s1 [inProgress now e].
Proof using Hd He Hj Hq1 Hseen Hseq1.
  intros Hinv1. split; try done.
  - intros x ->%list_elem_of_singleton. exists i, e, now. split_and!; [by left|done..|by apply handOut_at].
  - intros k. destruct (handOut_rest k) as [?| ->]; [by left|right]. split; [by left|].
    exists (inProgress now e). split; [by left|by apply handOut_at].
  - repeat constructor.
  - apply NoDup_singleton.
  - intros x d' ->%list_elem_of_singleton. simpl. rewrite Hj. by intros [= <-].
  - right. rewrite length_app. simpl. lia.
Qed.

(** Handing out an event and going on. *)
Lemma dequeue_spec_cons s' new :
  dequeue_spec vs ns count indices (res ++ [inProgress now e]) ({[d]} ∪ seen) (h ++ [ID e]) s1 s' new ->
  Z.of_nat (length (res ++ [inProgress now e])) < count ->
  dequeue_spec vs ns count (i :: indices) res seen h s s' (inProgress now e :: new).
Proof using Hd He Hinv Hj Hlt Hq1 Hseen Hseq1 ticks.
  intros [Hi' Hs' Hnew Hrest Hso Hdi Hun Hle] Hcount. split; simpl.
  - by rewrite <- app_assoc in Hi'.
  - congruence.
  - intros x [->|Hx]%elem_of_cons.
    + exists i, e, now. split_and!; [by left|done..|].
      destruct (Hrest i) as [->|[Hin _]]; [by apply handOut_at|]. specialize (Hlt i Hin). lia.
    + destruct (Hnew x Hx) as (k & e0 & now' & Hk & Hk0 & ?). exists k, e0, now'.
      split_and!; [by right|by rewrite <- handOut_later|naive_solver..].
  - intros k. destruct (Hrest k) as [->|[Hk (x & Hx & ->)]].
    + destruct (handOut_rest k) as [?| ->]; [by left|right]. split; [by left|].
      exists (inProgress now e). split; [by left|by apply handOut_at].
    + right. split; [by right|]. exists x. split; [by right|done].
  - constructor; [done|]. apply Forall_forall. intros id (x & -> & Hx)%list_elem_of_fmap. simpl.
    destruct (Hnew x Hx) as (k & e0 & now' & Hk & Hk0 & _ & -> & _). rewrite handOut_later in Hk0 by done. simpl.
    apply (StronglySorted_lookup_lt _ (qi_sorted _ _ _ Hinv) i k); [by apply Hlt|..];
      rewrite list_lookup_fmap; [by rewrite He|by rewrite Hk0].
  - constructor; [|done]. intros (x & Heq & Hx)%list_elem_of_fmap. simpl in Heq. rewrite Hj in Heq.
    apply (Hun x d Hx); [done|set_solver].
  - intros x d' [->|Hx]%elem_of_cons; simpl; [rewrite Hj; by intros [= <-]|].
    intros Hx'. specialize (Hun x d' Hx Hx'). set_solver.
  - right. rewrite !length_app in *. simpl in *. destruct Hle as [->|Hle]; simpl; lia.
Qed.

Lemma dequeue_complete_cons new :
  dequeue_complete vs ns indices ({[d]} ∪ seen) s1 new ->
  dequeue_complete vs ns (i :: indices) seen s (inProgress now e :: new).
Proof using He Hj Hlt Hq1.
  intros Hcomp k e0 [->|Hk]%elem_of_cons Hk0 Hdk.
  - assert (e0 = e) as -> by congruence. exists d. split; [done|]. right.
    apply elem_of_cons. left. simpl. congruence.
  - rewrite <- (handOut_later k Hk) in Hk0. destruct (Hcomp k e0 Hk Hk0 Hdk) as (d' & Hj' & Hor).
    exists d'. split; [done|]. rewrite fmap_cons, elem_of_cons. simpl.
    destruct Hor as [[->%elem_of_singleton|?]%elem_of_union|?]; [right; left; congruence|by left|].
    right. by right.
Qed.

End HandOut.

Lemma dequeueLoop_ok vs ns count indices : forall res seen h s,
  q_inv ∅ h s -> StronglySorted lt indices -> (forall i, i ∈ indices -> is_Some (queued s !! i)) ->
  exists r s' new,
    dequeueLoop ticks json_Marshal vs ns count indices res seen s = (r, s') /\
    (r = Ok (res ++ new) \/ r = Err ErrMarshal /\ exists j, json_Marshal j = None) /\
    dequeue_spec vs ns count indices res seen h s s' new /\
    (r = Ok (res ++ new) -> Z.of_nat (length (res ++ new)) < count ->
      dequeue_complete vs ns indices seen s new).
Proof.
  induction indices as [|i indices IH]; intros res seen h s Hinv Hsort Hidx; simpl.
  { exists (Ok res), s, []. rewrite app_nil_r. split_and!; [done|by left|by apply dequeue_spec_nil|].
    intros _ _ i e0 Hi. by apply elem_of_nil in Hi. }
  apply StronglySorted_inv in Hsort as [Hsort Hlt]. rewrite Forall_forall in Hlt.
  destruct (Hidx i) as [e He]; [by left|]. unfold_M. rewrite He.
  assert (Hskip : (dequeuable vs ns e = true -> exists d, json_Marshal (Job e) = Some d /\ d ∈ seen) ->
    exists r s' new,
    dequeueLoop ticks json_Marshal vs ns count indices res seen s = (r, s') /\
    (r = Ok (res ++ new) \/ r = Err ErrMarshal /\ exists j, json_Marshal j = None) /\
    dequeue_spec vs ns count (i :: indices) res seen h s s' new /\
    (r = Ok (res ++ new) -> Z.of_nat (length (res ++ new)) < count ->
      dequeue_complete vs ns (i :: indices) seen s new)).
  { intros Hd. destruct (IH res seen h s Hinv Hsort) as (r & s' & new & He' & Hr & Hspec & Hcomp).
    { intros k Hk. apply Hidx. by right. }
    exists r, s', new. split_and!; [done|done|by apply dequeue_spec_skip|].
    intros. eapply dequeue_complete_skip; eauto. }
  destruct (dequeuable vs ns e) eqn:Hd; [|by apply Hskip].
  destruct (json_Marshal (Job e)) as [d|] eqn:Hj.
  2: { exists (Err ErrMarshal), s, []. split_and!; [done|by right; eauto|by apply dequeue_spec_nil|done]. }
  destruct (decide (d ∈ seen)) as [Hseen|Hseen]; [apply Hskip; eauto|]. clear Hskip.
  destruct (dequeueAt_inv h s i e vs ns Hinv He Hd) as (now & s1 & He1 & Hinv1 & Hseq1 & Hq1).
  rewrite He1.
  destruct (Z.leb_spec count (Z.of_nat (length (res ++ [inProgress now e])))) as [Hcount|Hcount].
  { exists (Ok (res ++ [inProgress now e])), s1, [inProgress now e].
    split_and!; [done|by left|by eapply dequeue_spec_last|lia]. }
  destruct (IH (res ++ [inProgress now e]) ({[d]} ∪ seen) (h ++ [ID e]) s1 Hinv1 Hsort)
    as (r & s' & new & He' & Hr & Hspec & Hcomp).
  { intros k Hk. erewrite handOut_later by eauto. apply Hidx. by right. }
  exists r, s', (inProgress now e :: new). rewrite <- !app_assoc in *. simpl in *.
  split_and!; [done|done| |].
  - eapply dequeue_spec_cons; eauto.
  - intros Hr' Hlen. eapply dequeue_complete_cons; eauto.
Qed.

Lemma q_inv_mono X X' h s : X ⊆ X' -> q_inv X h s -> q_inv X' h s.
Proof.
  intros HX Hinv. constructor; try apply Hinv. intros e He Hn. apply (qi_event X h s Hinv e He). set_solver.
Qed.

Context (Hjson : forall j, json_Marshal j ≠ None).

(** The fuel [acknowledgeAt] gives the loop is enough: more does not change it. *)
Lemma dropDuplicates_fuel ack at_ fuel fuel' : forall j s,
  (length (queued s) <= fuel + j)%nat -> (length (queued s) <= fuel' + j)%nat ->
  dropDuplicates json_Marshal fuel ack at_ j s = dropDuplicates json_Marshal fuel' ack at_ j s.
Proof.
  revert fuel'. induction fuel as [|fuel IH]; intros fuel' j s Hf Hf'.
  - destruct fuel' as [|fuel']; [done|]. simpl. unfold_M.
    destruct (queued s !! j) as [e|] eqn:He; [|done]. apply lookup_lt_Some in He. lia.
  - destruct fuel' as [|fuel']; simpl; unfold_M; destruct (queued s !! j) as [e|] eqn:He; try done.
    { apply lookup_lt_Some in He. lia. }
    destruct at_ as [at_|]; [|done]. destruct (at_ <? CreatedAt e); [done|].
    destruct (json_Marshal (Job e)) as [d|]; [|done].
    destruct (decide (ack = d)) as [->|_]; [|apply IH; lia].
    rewrite (remove_eq j e s He). apply lookup_lt_Some in He.
    apply IH; simpl; rewrite length_app, length_take, length_drop; lia.
Qed.

(** The loop over later events of a completed job removes only such events, and
    none before its start. *)
Lemma dropDuplicates_inv X h ack at_ fuel : forall j s,
  q_inv X h s ->
  exists s', dropDuplicates json_Marshal fuel ack (Some at_) j s = (Ok tt, s') /\
    q_inv X h s' /\ seq s' = seq s /\ take j (queued s') = take j (queued s) /\
    (forall x, x ∈ queued s' -> x ∈ queued s) /\
    (forall x, x ∈ queued s -> x ∈ queued s' \/ json_Marshal (Job x) = Some ack).
Proof using Hjson.
  induction fuel as [|fuel IH]; intros j s Hinv; simpl.
  { exists s. split_and!; auto. }
  unfold_M. destruct (queued s !! j) as [e|] eqn:He; [|exists s; split_and!; auto].
  destruct (Z.ltb_spec at_ (CreatedAt e)); [exists s; split_and!; auto|].
  destruct (json_Marshal (Job e)) as [d|] eqn:Hd; [|by destruct (Hjson (Job e))].
  assert (Hlen := lookup_lt_Some _ _ _ He).
  destruct (decide (ack = d)) as [->|Hne].
  - rewrite (remove_eq j e s He).
    destruct (remove_inv X h j e s _ Hinv He (remove_eq j e s He)) as [Hinv1 Hmem].
    apply q_inv_mono with (X' := X) in Hinv1; [|set_solver].
    destruct (IH (S j) _ Hinv1) as (s' & He' & Hi' & Hs' & Ht & Hsub & Hrem).
    exists s'. split_and!; [done..| | |].
    + apply (f_equal (take j)) in Ht. rewrite !take_take in Ht. simpl in Ht.
      rewrite !Nat.min_l in Ht by lia. rewrite Ht.
      rewrite take_app_le by (rewrite length_take; lia). by rewrite take_take, Nat.min_id.
    + intros x Hx. apply Hsub in Hx. by apply Hmem in Hx as [? _].
    + intros x Hx. destruct (decide (ID x = ID e)) as [Heq|Hneq].
      * right. rewrite (sorted_ids_unique (queued s) x e); try done; [apply Hinv|].
        by eapply list_elem_of_lookup_2.
      * apply Hrem. by apply Hmem.
  - destruct (IH (S j) s Hinv) as (s' & He' & Hi' & Hs' & Ht & Hsub & Hrem).
    exists s'. split_and!; [done..| |done|done].
    apply (f_equal (take j)) in Ht. rewrite !take_take in Ht.
    by rewrite !Nat.min_l in Ht by lia.
Qed.

(** What acknowledging one event does to it and to the others. *)
Definition ack_result (state : JobState) (e : ReplicationEvent) (s s' : memoryReplicationEventQueue) : Prop :=
  EState e = JobStateInProgress /\
  (if isFinal state then forall x, x ∈ queued s' -> ID x ≠ ID e
   else exists e', e' ∈ queued s' /\ ID e' = ID e /\ EState e' = JobStateFailed /\ Job e' = Job e) /\
  (forall x, x ∈ queued s -> ID x ≠ ID e ->
    x ∈ queued s' \/ state = JobStateCompleted /\ json_Marshal (Job x) = json_Marshal (Job e)) /\
  forall x, x ∈ queued s' -> ID x ≠ ID e -> x ∈ queued s.

Lemma allowed_states state : allowToAck state = None -> isFinal state = false -> state = JobStateFailed.
Proof. by destruct state. Qed.

Lemma acknowledgeAt_ok h s i e state :
  q_inv ∅ h s -> queued s !! i = Some e -> allowToAck state = None ->
  exists r s', acknowledgeAt ticks json_Marshal state i e s = (r, s') /\ is_panic r = false /\
    q_inv ∅ h s' /\ seq s' = seq s /\
    match r with
    | Ok _ => ack_result state e s s'
    | Err _ => s' = s /\ (EState e ≠ JobStateInProgress \/ Attempt e = 0 /\ state = JobStateFailed)
    | Panic => False
    end.
Proof using Hjson.
  intros Hinv Hi Hallow. unfold acknowledgeAt.
  assert (Hin : e ∈ queued s) by (by eapply list_elem_of_lookup_2).
  destruct (qi_event _ _ _ Hinv e Hin) as [Hatt Hst]; [set_solver|].
  case_decide as Hs; [eexists _, s; split; [done|]; split_and!; (done || tauto)|]. rewrite Hs in Hst.
  destruct Hst as (Hrange & Hup & Hdeq).
  case_decide as Hz; [eexists _, s; split; [done|]; split_and!; (done || tauto)|].
  destruct (UpdatedAt e) as [at_|] eqn:Hat; [|done].
  unfold time_Now, refreshLast. unfold_M.
  set (e' := setState state (ticks (clock s)) e).
  set (s1 := with_last _ _).
  assert (Hl1 : queued s1 !! i = Some e') by (apply list_lookup_insert_eq; by eapply lookup_lt_Some).
  assert (Hkeep : forall x, x ∈ queued s -> ID x ≠ ID e -> x ∈ queued s1).
  { intros x (k & Hk)%list_elem_of_lookup Hne. apply list_elem_of_lookup. exists k. simpl.
    rewrite list_lookup_insert_ne; [done|]. intros ->. congruence. }
  assert (Hold : forall x, x ∈ queued s1 -> ID x ≠ ID e -> x ∈ queued s).
  { intros x (k & Hk)%list_elem_of_lookup Hne. apply list_elem_of_lookup. exists k. simpl in Hk.
    rewrite list_lookup_insert_ne in Hk; [done|]. intros ->.
    rewrite list_lookup_insert_eq in Hk by (by eapply lookup_lt_Some). by simplify_eq. }
  assert (Hinv1 : q_inv (if isFinal state then {[ID e]} else ∅) h s1).
  { apply (q_inv_replace ∅ _ h h s s1 i e e'); [done..| | | | | |].
    - intros id. simpl. tauto.
    - intros HX. destruct (isFinal state) eqn:Hf; [by rewrite elem_of_singleton in HX|].
      pose proof (allowed_states state Hallow Hf) as ->. split; [done|]. simpl. split; [|done].
      assert (Attempt e ≠ 0) by tauto. lia.
    - intros id _ _. apply not_elem_of_empty.
    - done.
    - apply Hinv.
    - intros id Hid. by left. }
  destruct (decide (state = JobStateCompleted)) as [->|Hnc].
  - destruct (json_Marshal (Job e')) as [d|] eqn:Hd; [|by destruct (Hjson (Job e'))].
    unfold_M. simpl in Hinv1.
    destruct (dropDuplicates_inv {[ID e]} h d at_ (length (queued s1)) (S i) s1 Hinv1)
      as (s2 & He2 & Hi2 & Hs2 & Ht2 & Hsub2 & Hrem2). rewrite He2.
    assert (Hl2 : queued s2 !! i = Some e').
    { rewrite <- (lookup_take_lt _ (S i)) by lia. rewrite Ht2, lookup_take_lt by lia. done. }
    assert (Hid : ID e' = ID e) by done.
    destruct (remove_inv _ h i e' s2 _ Hi2 Hl2 (remove_eq i e' s2 Hl2)) as [Hi3 Hmem3].
    rewrite Hid in *. change (isFinal JobStateCompleted) with true. cbv iota.
    rewrite (remove_eq i e' s2 Hl2). do 2 eexists. split; [done|].
    split_and!; [done|by rewrite difference_diag_L in Hi3|done|]. unfold ack_result. split_and!.
    + done.
    + simpl. intros x Hx. by apply Hmem3 in Hx as [_ ?].
    + intros x Hx Hne. destruct (Hrem2 x (Hkeep x Hx Hne)) as [?|Hj].
      * left. by apply Hmem3.
      * right. split; [done|]. rewrite Hj. by rewrite <- Hd.
    + intros x Hx Hne. apply Hold; [|done]. apply Hsub2. by apply Hmem3 in Hx as [? _].
  - destruct (isFinal state) eqn:Hf.
    + assert (Hid : ID e' = ID e) by done.
      destruct (remove_inv _ h i e' s1 _ Hinv1 Hl1 (remove_eq i e' s1 Hl1)) as [Hi3 Hmem3].
      rewrite Hid in *. rewrite (remove_eq i e' s1 Hl1). do 2 eexists. split; [done|].
      split_and!; [done|by rewrite difference_diag_L in Hi3|done|]. unfold ack_result. rewrite Hf.
      split_and!; [done| | |].
      * intros x Hx. by apply Hmem3 in Hx as [_ ?].
      * intros x Hx Hne. left. apply Hmem3. auto.
      * intros x Hx Hne. apply Hold; [|done]. by apply Hmem3 in Hx as [? _].
    + do 2 eexists. split; [done|]. split_and!; [done..|]. unfold ack_result. rewrite Hf.
      split_and!; [done| | |done].
      * exists e'. split; [by eapply list_elem_of_lookup_2|]. split; [done|].
        split; [exact (allowed_states state Hallow Hf)|done].
      * intros x Hx Hne. left. auto.
Qed.

Lemma acknowledgeLoop_ok state ids : forall res h s,
  q_inv ∅ h s -> allowToAck state = None ->
  exists r s', acknowledgeLoop ticks json_Marshal state ids res s = (r, s') /\
    is_panic r = false /\ q_inv ∅ h s' /\ seq s' = seq s.
Proof using Hjson.
  induction ids as [|id ids IH]; intros res h s Hinv Hallow; simpl.
  { by eexists _, s. }
  unfold_M. case_decide; [|by apply IH].
  destruct (list_find _ _) as [[i e]|] eqn:Hf; [|by apply IH].
  apply list_find_Some in Hf as (Hi & _ & _).
  destruct (acknowledgeAt_ok h s i e state Hinv Hi Hallow) as (r & s1 & He & Hp & Hi1 & Hs1 & _).
  rewrite He. destruct r as [[]|x|]; [|by eexists _, s1|done].
  destruct (IH (res ++ [id]) h s1 Hi1 Hallow) as (r' & s2 & He2 & Hp2 & Hi2 & Hs2).
  exists r', s2. split_and!; [done..|congruence].
Qed.

(** What acknowledging distinct events does to the queue: those still queued have
    failed, no other event is new, and an event is kept unless it gets a final
    state or has the job of a completed one. *)
Definition acknowledged (state : JobState) (ids : list Z) (s s' : memoryReplicationEventQueue) : Prop :=
  (forall x, x ∈ queued s' ->
    (ID x ∈ ids -> EState x = JobStateFailed /\ state = JobStateFailed) /\ (ID x ∉ ids -> x ∈ queued s)) /\
  forall x, x ∈ queued s -> (ID x ∈ ids -> state = JobStateFailed) ->
    (state = JobStateCompleted -> forall e, e ∈ queued s -> ID e ∈ ids -> json_Marshal (Job e) ≠ json_Marshal (Job x)) ->
    exists x', x' ∈ queued s' /\ ID x' = ID x /\ Job x' = Job x.

Lemma acknowledged_nil state s : acknowledged state [] s s.
Proof. split; [|by eauto]. intros x Hx. split; [by intros ?%elem_of_nil|done]. Qed.

Lemma acknowledged_skip state id ids s s' :
  (forall x, x ∈ queued s -> ID x ≠ id) -> acknowledged state ids s s' -> acknowledged state (id :: ids) s s'.
Proof.
  intros Hno [H1 H2]. split.
  - intros x Hx. destruct (H1 x Hx) as [Hin Hold]. rewrite elem_of_cons. split; [|tauto].
    intros [Heq|?]; [|auto]. destruct (decide (ID x ∈ ids)) as [?|Hn]; [auto|]. by destruct (Hno x (Hold Hn)).
  - intros x Hx Hst Hc. apply (H2 x Hx); [|intros Hs e He Hid; apply Hc]; try done; [intros ?; apply Hst|]; by right.
Qed.

Lemma acknowledged_cons state e ids h s s1 s' :
  q_inv ∅ h s -> q_inv ∅ h s1 -> e ∈ queued s -> ID e ∉ ids -> allowToAck state = None ->
  ack_result state e s s1 -> acknowledged state ids s1 s' -> acknowledged state (ID e :: ids) s s'.
Proof.
  intros Hinv Hinv1 He Hnin Hallow (_ & Hself & Hkeep & Hold) [H1 H2]. split.
  - intros x Hx. destruct (H1 x Hx) as [Hin Hx1]. rewrite elem_of_cons. split.
    + intros [Heq|?]; [|auto]. specialize (Hx1 ltac:(by rewrite Heq)).
      destruct (isFinal state) eqn:Hfin; [by destruct (Hself x Hx1)|].
      destruct Hself as (e' & He' & Hide & Hste & _). split; [|by apply allowed_states].
      rewrite (sorted_ids_unique (queued s1) x e'); try done; [apply Hinv1|congruence].
    + intros Hn. apply Hold; [apply Hx1|]; tauto.
  - intros x Hx Hst Hc. destruct (decide (ID x = ID e)) as [Heq|Hne].
    + assert (state = JobStateFailed) as -> by (apply Hst; rewrite Heq; by left). simpl in Hself.
      destruct Hself as (e' & He' & Hide & _ & Hje).
      destruct (H2 e' He') as (x' & Hx' & Hid & Hj); [done..|]. exists x'.
      rewrite (sorted_ids_unique (queued s) x e); try done; [|apply Hinv]. split_and!; congruence.
    + destruct (Hkeep x Hx Hne) as [Hx1|[Hs Hj]]; [|by destruct (Hc Hs e He ltac:(by left))].
      apply (H2 x Hx1); [intros ?; apply Hst; by right|]. intros Hs e2 He2 Hid2. apply (Hc Hs); [|by right].
      apply Hold; [done|]. intros Heq. by rewrite <- Heq in Hnin.
Qed.

(** Acknowledging distinct events that are all in progress, none of them failed
    with no attempts left, succeeds. *)
Lemma acknowledgeLoop_done state ids : forall res h s,
  q_inv ∅ h s -> allowToAck state = None -> NoDup ids ->
  (forall x, x ∈ queued s -> ID x ∈ ids ->
    EState x = JobStateInProgress /\ (state = JobStateFailed -> Attempt x ≠ 0)) ->
  exists r s', acknowledgeLoop ticks json_Marshal state ids res s = (Ok r, s') /\ acknowledged state ids s s'.
Proof using Hjson.
  induction ids as [|id ids IH]; intros res h s Hinv Hallow Hnd Hids; simpl.
  { exists res, s. split; [done|]. apply acknowledged_nil. }
  apply NoDup_cons in Hnd as [Hid Hnd].
  assert (Hskip : (forall x, x ∈ queued s -> ID x ≠ id) ->
    exists r s', acknowledgeLoop ticks json_Marshal state ids res s = (Ok r, s') /\ acknowledged state (id :: ids) s s').
  { intros Hno. destruct (IH res h s Hinv Hallow Hnd) as (r & s' & He & Ha).
    { intros x Hx Hin. apply Hids; [done|]. by right. }
    exists r, s'. split; [done|]. by apply acknowledged_skip. }
  unfold_M. case_decide as Hdeq.
  2: { apply Hskip. intros x Hx Heq. apply Hdeq.
    destruct (Hids x Hx) as [Hst _]; [rewrite Heq; by left|].
    destruct (qi_event _ _ _ Hinv x Hx) as [_ Hev]; [set_solver|]. rewrite Hst, Heq in Hev. apply Hev. }
  destruct (list_find _ _) as [[i e]|] eqn:Hf.
  2: { apply Hskip. apply list_find_None in Hf. rewrite Forall_forall in Hf. done. }
  clear Hskip. apply list_find_Some in Hf as (Hi & <- & _).
  assert (Hin : e ∈ queued s) by (by eapply list_elem_of_lookup_2).
  destruct (Hids e Hin) as [Hst Hatt]; [by left|].
  destruct (acknowledgeAt_ok h s i e state Hinv Hi Hallow) as (r & s1 & He & Hp & Hi1 & Hs1 & Hres).
  rewrite He. destruct r as [[]|x|]; [|naive_solver|done].
  destruct (IH (res ++ [ID e]) h s1 Hi1 Hallow Hnd) as (r' & s2 & He2 & Ha).
  { intros x Hx Hxi. apply Hids; [|by right]. apply Hres; [done|]. intros Hxe. by rewrite Hxe in Hxi. }
  exists r', s2. split; [done|]. by eapply acknowledged_cons.
Qed.

(** Only IDs that were asked for are acknowledged. *)
Lemma acknowledgeLoop_subset state ids : forall res s r s',
  acknowledgeLoop ticks json_Marshal state ids res s = (Ok r, s') -> forall id, id ∈ r -> id ∈ res \/ id ∈ ids.
Proof.
  induction ids as [|i ids IH]; intros res s r s'; simpl; unfold_M.
  { intros [= -> _]. by left. }
  assert (Hskip : acknowledgeLoop ticks json_Marshal state ids res s = (Ok r, s') ->
    forall id, id ∈ r -> id ∈ res \/ id ∈ i :: ids).
  { intros He id Hid. rewrite elem_of_cons. destruct (IH _ _ _ _ He id Hid); tauto. }
  case_decide; [|done]. destruct (list_find _ _) as [[k e]|]; [|done].
  destruct (acknowledgeAt _ _ _ _ _ s) as [[[]|x|] s1]; [|done..].
  intros He id Hid. rewrite elem_of_cons.
  destruct (IH _ _ _ _ He id Hid) as [[?|?%list_elem_of_singleton]%elem_of_app|?]; tauto.
Qed.

End Invariant.

(** ** Executions of the queue *)

Section Runs.
Variable ticks : nat -> Z.
Variable json_Marshal : ReplicationJob -> option bytes.

Definition handed (r : out QueueError (list ReplicationEvent)) : list Z :=
  match r with Ok l => ID <$> l | _ => [] end.

(** The states a queue can get into, with the IDs it has handed out. *)
Inductive queue_run : list Z -> memoryReplicationEventQueue -> Prop :=
| run_new conf : queue_run [] (NewMemoryReplicationEventQueue conf)
| run_enqueue h s event r s' :
    queue_run h s -> seq s < 2 ^ 64 - 1 ->
    Enqueue ticks event s = (r, s') -> queue_run h s'
| run_dequeue h s vs ns count r s' :
    queue_run h s -> Dequeue ticks json_Marshal vs ns count s = (r, s') ->
    queue_run (h ++ handed r) s'
| run_acknowledge h s state ids r s' :
    queue_run h s -> Acknowledge ticks json_Marshal state ids s = (r, s') -> queue_run h s'.

Hypothesis Hjson : forall j, json_Marshal j ≠ None.

Lemma seq_sorted n : forall k, StronglySorted lt (List.seq k n).
Proof.
  induction n as [|n IH]; intros k; simpl; constructor; [apply IH|].
  apply Forall_forall. intros x Hx%elem_of_seq. lia.
Qed.

Lemma Dequeue_spec h s vs ns count :
  q_inv ∅ h s ->
  exists new s', Dequeue ticks json_Marshal vs ns count s = (Ok new, s') /\
    dequeue_spec json_Marshal vs ns count (List.seq 0 (length (queued s))) [] ∅ h s s' new /\
    (Z.of_nat (length new) < count -> forall i e0, queued s !! i = Some e0 ->
      dequeuable vs ns e0 = true -> exists e, e ∈ new /\ json_Marshal (Job e) = json_Marshal (Job e0)).
Proof using Hjson.
  intros Hinv. unfold Dequeue. unfold_M.
  destruct (dequeueLoop_ok ticks json_Marshal vs ns count (List.seq 0 (length (queued s))) [] ∅ h s Hinv)
    as (r & s' & new & He & Hr & Hspec & Hcomp).
  { apply seq_sorted. }
  { intros i Hi%elem_of_seq. apply lookup_lt_is_Some_2. lia. }
  destruct Hr as [->|[_ [j Hj]]]; [|by destruct (Hjson j)]. simpl in *.
  exists new, s'. split_and!; [done..|]. intros Hlen i e0 Hi Hd.
  destruct (Hcomp eq_refl Hlen i e0) as (d & Hj & [Hin|Hin]); [|done|done|by apply elem_of_empty in Hin|].
  { apply elem_of_seq. apply lookup_lt_Some in Hi. lia. }
  apply list_elem_of_fmap in Hin as (e & Heq & Hin). exists e. split; [done|]. congruence.
Qed.

Lemma queue_run_inv h s : queue_run h s -> q_inv ∅ h s /\ 0 <= seq s.
Proof using Hjson.
  induction 1 as [conf|h s event r s' _ [IH Hpos] Hlt He|h s vs ns count r s' _ [IH Hpos] He
    |h s state ids r s' _ [IH Hpos] He].
  - split; [|done]. constructor; simpl.
    + constructor.
    + intros e He. by apply elem_of_nil in He.
    + intros id Hid. by apply elem_of_empty in Hid.
    + intros e He. by apply elem_of_nil in He.
    + intros id _ Hid. by apply elem_of_nil in Hid.
    + intros id. unfold occ. simpl. lia.
  - destruct (Enqueue_inv ticks h s event IH) as (e & s1 & He1 & Hi1 & Hs1 & _); [lia|].
    rewrite He1 in He. simplify_eq. split; [done|]. lia.
  - destruct (Dequeue_spec h s vs ns count IH) as (new & s1 & He1 & Hspec & _).
    rewrite He1 in He. simplify_eq. simpl. split; [apply Hspec|]. rewrite (dq_seq _ _ _ _ _ _ _ _ _ _ _ Hspec). done.
  - unfold Acknowledge in He. case_decide; [unfold_M; by simplify_eq|].
    destruct (allowToAck state) eqn:Ha; [unfold_M; by simplify_eq|].
    destruct (acknowledgeLoop_ok ticks json_Marshal Hjson state ids [] h s IH Ha) as (r1 & s1 & He1 & _ & Hi1 & Hs1).
    rewrite He1 in He. simplify_eq. split; [done|]. lia.
Qed.

(** The IDs handed out are ones the queue gave to events. *)
Lemma queue_run_history h s : queue_run h s -> forall id, id ∈ h -> 1 <= id <= seq s.
Proof using Hjson.
  induction 1 as [conf|h s event r s' Hrun IH Hlt He|h s vs ns count r s' Hrun IH He|h s state ids r s' Hrun IH He];
    intros id Hid.
  - by apply elem_of_nil in Hid.
  - destruct (queue_run_inv h s Hrun) as [Hinv Hpos].
    destruct (Enqueue_inv ticks h s event Hinv ltac:(lia)) as (e & s1 & He1 & _ & Hs & _).
    rewrite He1 in He. simplify_eq. specialize (IH id Hid). lia.
  - destruct (queue_run_inv h s Hrun) as [Hinv _].
    destruct (Dequeue_spec h s vs ns count Hinv) as (new & s1 & He1 & Hspec & _).
    rewrite He1 in He. simplify_eq. rewrite (dq_seq _ _ _ _ _ _ _ _ _ _ _ Hspec).
    simpl in Hid. apply elem_of_app in Hid as [?|(e & -> & Hin)%list_elem_of_fmap]; [auto|].
    destruct (dq_new _ _ _ _ _ _ _ _ _ _ _ Hspec e Hin) as (i & e0 & now & _ & Hi & _ & -> & _).
    apply (qi_range _ _ _ Hinv e0). by eapply list_elem_of_lookup_2.
  - destruct (queue_run_inv h s Hrun) as [Hinv _].
    unfold Acknowledge in He. case_decide; [unfold_M; simplify_eq; auto|].
    destruct (allowToAck state) eqn:Ha; [unfold_M; simplify_eq; auto|].
    destruct (acknowledgeLoop_ok ticks json_Marshal Hjson state ids [] h s Hinv Ha) as (r1 & s1 & He1 & _ & _ & Hs1).
    rewrite He1 in He. simplify_eq. rewrite Hs1. auto.
Qed.

Lemma occ_length k n h :
  (forall id, id ∈ h -> 1 <= id <= Z.of_nat n) -> (forall id, occ id h <= k) ->
  Z.of_nat (length h) <= k * Z.of_nat n.
Proof.
  revert h. induction n as [|n IH]; intros h Hr Ho.
  { destruct h as [|id h]; [simpl; lia|]. specialize (Hr id ltac:(by left)). lia. }
  set (id := Z.of_nat (S n)). specialize (Ho id) as Hid. unfold occ in Hid.
  rewrite <- (Permutation_length (filter_app_complement (fun x => x = id) h)), length_app.
  assert (Z.of_nat (length (filter (fun x => x ≠ id) h)) <= k * Z.of_nat n); [|lia].
  apply IH.
  - intros x [Hne Hx]%list_elem_of_filter. specialize (Hr x Hx). lia.
  - intros x. etrans; [|apply (Ho x)]. unfold occ. apply inj_le.
    rewrite list_filter_filter, (filter_ext_in _ (fun a => a ≠ id /\ a = x)), <- list_filter_filter by tauto.
    apply length_filter.
Qed.

(** Each event is handed out three times at most. *)
Lemma queue_run_length h s : queue_run h s -> Z.of_nat (length h) <= 3 * seq s.
Proof using Hjson.
  intros Hrun. destruct (queue_run_inv h s Hrun) as [Hinv Hpos].
  pose proof (occ_length 3 (Z.to_nat (seq s)) h) as Hl. rewrite Z2Nat.id in Hl by done. apply Hl.
  - by apply queue_run_history.
  - apply Hinv.
Qed.

(** In every execution, the events of the queue have distinct, increasing IDs;
    an event that waits has attempts left, one that is processed is tracked as
    dequeued, finished ones are gone; and no event is ever handed out more than
    three times. *)
Theorem queue_invariant h s :
  queue_run h s ->
  StronglySorted Z.lt (ID <$> queued s) /\
  (forall e, e ∈ queued s ->
    match EState e with
    | JobStateReady => Attempt e = 3
    | JobStateInProgress => 0 <= Attempt e <= 2 /\ ID e ∈ dequeued s
    | JobStateFailed => 1 <= Attempt e <= 2 /\ ID e ∈ dequeued s
    | JobStateCompleted | JobStateCancelled | JobStateDead => False
    end) /\
  forall id, occ id h <= 3.
Proof using Hjson.
  intros [Hinv _]%queue_run_inv. split_and!; [apply Hinv| |apply Hinv].
  intros e He. destruct (qi_event _ _ _ Hinv e He) as [_ Hst]; [set_solver|].
  destruct (EState e); try done; tauto.
Qed.

(** [Dequeue] succeeds and hands out, oldest first, events for the storage that
    were ready or had failed: at most [count] of them (one when [count] is not
    positive), no two of the same job, each now in progress with one attempt
    less; all other events stay as they were, and if fewer than [count] are
    handed out, every waiting event for the storage has the job of one of them. *)
Theorem Dequeue_correct h s vs ns count :
  queue_run h s ->
  exists new s', Dequeue ticks json_Marshal vs ns count s = (Ok new, s') /\
    StronglySorted Z.lt (ID <$> new) /\
    NoDup ((fun e => json_Marshal (Job e)) <$> new) /\
    Z.of_nat (length new) <= count `max` 1 /\
    (forall e, e ∈ new -> exists i e0 now, queued s !! i = Some e0 /\ dequeuable vs ns e0 = true /\
      e = inProgress now e0 /\ queued s' !! i = Some e) /\
    (forall i, queued s' !! i = queued s !! i \/ exists e, e ∈ new /\ queued s' !! i = Some e) /\
    (Z.of_nat (length new) < count -> forall i e0, queued s !! i = Some e0 ->
      dequeuable vs ns e0 = true -> exists e, e ∈ new /\ json_Marshal (Job e) = json_Marshal (Job e0)).
Proof using Hjson.
  intros [Hinv _]%queue_run_inv.
  destruct (Dequeue_spec h s vs ns count Hinv) as (new & s' & He & Hspec & Hcomp).
  exists new, s'. destruct Hspec. simpl in *. split_and!; try done.
  - destruct dq_length0 as [->|?]; simpl; lia.
  - intros e Hin. destruct (dq_new0 e Hin) as (i & e0 & now & _ & ? & ? & ? & ?). by exists i, e0, now.
  - intros i. destruct (dq_rest0 i) as [?|[_ ?]]; [by left|by right].
Qed.

(** Acknowledging a single event that is in progress: with no attempts left it
    cannot be failed; otherwise it succeeds, the event is failed or, for a final
    state, gone, and no other event is touched, except that completion may drop
    events of the same job. *)
Theorem Acknowledge_one h s i e state :
  queue_run h s -> queued s !! i = Some e -> EState e = JobStateInProgress ->
  allowToAck state = None ->
  (Attempt e = 0 /\ state = JobStateFailed ->
    Acknowledge ticks json_Marshal state [ID e] s = (Err ErrDeadAckedAsFailed, s)) /\
  (~ (Attempt e = 0 /\ state = JobStateFailed) ->
    exists s', Acknowledge ticks json_Marshal state [ID e] s = (Ok [ID e], s') /\
      (if isFinal state then forall x, x ∈ queued s' -> ID x ≠ ID e
       else exists e', e' ∈ queued s' /\ ID e' = ID e /\ EState e' = JobStateFailed /\ Job e' = Job e) /\
      forall x, x ∈ queued s -> ID x ≠ ID e ->
        x ∈ queued s' \/ state = JobStateCompleted /\ json_Marshal (Job x) = json_Marshal (Job e)).
Proof using Hjson.
  intros [Hinv _]%queue_run_inv Hi Hst Hallow.
  assert (Hin : e ∈ queued s) by (by eapply list_elem_of_lookup_2).
  destruct (qi_event _ _ _ Hinv e Hin) as [_ Hev]; [set_solver|]. rewrite Hst in Hev.
  assert (Hfind : list_find (fun x => ID x = ID e) (queued s) = Some (i, e)).
  { apply list_find_Some. split_and!; [done..|]. intros j x Hj Hlt Heq.
    assert (ID x < ID e); [|lia].
    apply (StronglySorted_lookup_lt _ (qi_sorted _ _ _ Hinv) j i); [done|..];
      rewrite list_lookup_fmap; [by rewrite Hj|by rewrite Hi]. }
  unfold Acknowledge. rewrite decide_False, Hallow by done. simpl. unfold_M.
  rewrite decide_True, Hfind by apply Hev.
  destruct (acknowledgeAt_ok ticks json_Marshal Hjson h s i e state Hinv Hi Hallow)
    as (r & s' & He & Hp & _ & _ & Hres).
  split.
  - intros Hz. unfold acknowledgeAt. rewrite decide_False by (by intros []).
    by rewrite decide_True.
  - intros Hz. rewrite He. destruct r as [[]|x|]; [|by destruct Hres as [_ [?|?]]|done].
    exists s'. split; [done|]. destruct Hres as (_ & ? & ? & _). done.
Qed.

End Runs.

(** ** Examples *)

(** A marshalling that tells the jobs of the examples apart. *)
Definition ex_json (j : ReplicationJob) : option bytes :=
  Some (B (ChangeType_String (Change j) +:+ "|" +:+ VirtualStorage j +:+ "|" +:+
    SourceNodeStorage j +:+ "|" +:+ TargetNodeStorage j +:+ "|" +:+ RelativePath j)).

Lemma ex_json_total j : ex_json j ≠ None.
Proof. done. Qed.

Definition ex_ticks (n : nat) : Z := Z.of_nat n.

Definition ex_event (path : string) : ReplicationEvent :=
  mkEvent 0 JobStateReady 0 "" 0 None (mkJob 1 UpdateRepo path "gitaly-2" "gitaly-1" "default" None) None.

Definition ex_empty : memoryReplicationEventQueue := NewMemoryReplicationEventQueue [("default", ["gitaly-1"; "gitaly-2"])].

(** Three updates of one repository and one of another. *)
Definition ex_filled : memoryReplicationEventQueue :=
  (for_each ["a"; "a"; "a"; "b"] (fun p => _ ← Enqueue ex_ticks (ex_event p); mret tt) ex_empty).2.

Definition ex_taken : memoryReplicationEventQueue :=
  (Dequeue ex_ticks ex_json "default" "gitaly-2" 1 ex_filled).2.

Lemma ex_filled_run : queue_run ex_ticks ex_json [] ex_filled.
Proof.
  assert (Hrun : forall ps s, queue_run ex_ticks ex_json [] s ->
    seq s + Z.of_nat (length ps) < 2 ^ 64 - 1 -> 0 <= seq s ->
    queue_run ex_ticks ex_json []
      (for_each ps (fun p => _ ← Enqueue ex_ticks (ex_event p); mret tt) s).2).
  { induction ps as [|p ps IH]; intros s Hs Hlt Hpos; [done|]. simpl in *. unfold_M.
    destruct (Enqueue ex_ticks (ex_event p) s) as [r s1] eqn:He.
    destruct (queue_run_inv ex_ticks ex_json ex_json_total [] s Hs) as [Hinv _].
    destruct (Enqueue_inv ex_ticks [] s (ex_event p) Hinv) as (e & s2 & He2 & _ & Hseq & _); [lia|].
    rewrite He2 in He. simplify_eq.
    apply IH; [eapply (run_enqueue _ _ _ s); [done|lia|exact He2]|lia|lia]. }
  apply (Hrun _ ex_empty); [apply run_new|by vm_compute|by vm_compute].
Qed.

Lemma ex_taken_run : queue_run ex_ticks ex_json [1] ex_taken.
Proof.
  apply (run_dequeue ex_ticks ex_json [] ex_filled "default" "gitaly-2" 1
    (Dequeue ex_ticks ex_json "default" "gitaly-2" 1 ex_filled).1 ex_taken ex_filled_run).
  apply surjective_pairing.
Qed.

Lemma queue_invariant_witness : StronglySorted Z.lt (ID <$> queued ex_taken) /\ occ 1 [1] <= 3.
Proof.
  destruct (queue_invariant ex_ticks ex_json ex_json_total [1] ex_taken ex_taken_run) as (Hs & _ & Ho).
  split; [exact Hs|exact (Ho 1)].
Defined.

Lemma Dequeue_correct_witness :
  exists new s', Dequeue ex_ticks ex_json "default" "gitaly-2" 5 ex_filled = (Ok new, s') /\
    Z.of_nat (length new) <= 5.
Proof.
  destruct (Dequeue_correct ex_ticks ex_json ex_json_total [] ex_filled "default" "gitaly-2" 5 ex_filled_run)
    as (new & s' & He & _ & _ & Hlen & _).
  exists new, s'. split; [exact He|exact Hlen].
Defined.

Definition ex_taken_event : ReplicationEvent := default (ex_event "") (queued ex_taken !! 0%nat).

Lemma Acknowledge_one_witness :
  exists s', Acknowledge ex_ticks ex_json JobStateFailed [ID ex_taken_event] ex_taken = (Ok [ID ex_taken_event], s').
Proof.
  assert (H1 : queued ex_taken !! 0%nat = Some ex_taken_event) by (apply some_default; by vm_compute).
  assert (H2 : EState ex_taken_event = JobStateInProgress) by (by vm_compute).
  assert (H3 : allowToAck JobStateFailed = None) by (by vm_compute).
  destruct (Acknowledge_one ex_ticks ex_json ex_json_total [1] ex_taken 0 ex_taken_event JobStateFailed
    ex_taken_run H1 H2 H3) as [_ H].
  destruct H as (s' & Hs' & _); [by vm_compute; intros [? _]|]. exists s'. exact Hs'.
Defined.

(** Completing an event does not drop all queued events of the same job: of
    two that directly follow it, both created before it was handed out, the
    second survives, because the loop index moves on after a removal. *)
Theorem completion_skips_adjacent_duplicates :
  exists e e', queued ex_taken = [ex_taken_event; e; e'; default (ex_event "") (queued ex_taken !! 3%nat)] /\
    Job e = Job ex_taken_event /\ Job e' = Job ex_taken_event /\
    (exists at_, UpdatedAt ex_taken_event = Some at_ /\ CreatedAt e < at_ /\ CreatedAt e' < at_) /\
    (let s' := (Acknowledge ex_ticks ex_json JobStateCompleted [ID ex_taken_event] ex_taken).2 in
     (e ∉ queued s') /\ (e' ∈ queued s')).
Proof.
  exists (default (ex_event "") (queued ex_taken !! 1%nat)), (default (ex_event "") (queued ex_taken !! 2%nat)).
  split_and!; [by vm_compute|by vm_compute|by vm_compute| |].
  - exists 4. by vm_compute.
  - assert (Hq : queued (Acknowledge ex_ticks ex_json JobStateCompleted [ID ex_taken_event] ex_taken).2
      = [default (ex_event "") (queued ex_taken !! 2%nat); default (ex_event "") (queued ex_taken !! 3%nat)])
      by (by vm_compute).
    cbv zeta. rewrite Hq. split; [|by left].
    intros [Heq|[Heq|Hin%elem_of_nil]%elem_of_cons]%elem_of_cons; [by vm_compute in Heq..|done].
Qed.
