(* ===== verification/PConfig.v ===== *)
(** Praefect's configuration (src/internal/praefect/config/config.go): the parts
    the routing and coordination code relies on, their validation and defaults.
    A [config.Duration] is its number of nanoseconds. Options that are only
    handed to other libraries (logging, sentry, prometheus, TLS) are left out. *)

From S2P Require Import Prelude.

Definition ElectionStrategyLocal : string := "local".
Definition ElectionStrategySQL : string := "sql".
Definition ElectionStrategyPerRepository : string := "per_repository".

Inductive ConfigError : Type :=
| ErrInvalidElectionStrategy (es : string)
| ErrNoListener
| ErrNoVirtualStorages
| ErrBatchSize (n : Z)
| ErrVirtualStorageUnnamed
| ErrNoGitalyServers (vs : string)
| ErrVirtualStoragesNotUnique (vs : string)
| ErrGitalyWithoutStorage (vs : string)
| ErrGitalyWithoutAddr (vs : string)
| ErrDuplicateStorage (vs : string)
| ErrStorageAddressDuplicate (vs addr : string)
| ErrReplicationFactorTooHigh (vs : string) (factor storages : Z)
| ErrThresholdWindowNotSet
| ErrWriteThresholdNotSet
| ErrReadThresholdNotSet.

Definition ElectionStrategy_validate (es : string) : option ConfigError :=
  if decide (es = ElectionStrategyLocal \/ es = ElectionStrategySQL \/
             es = ElectionStrategyPerRepository)
  then None else Some (ErrInvalidElectionStrategy es).

Record Failover : Type := mkFailover {
  Enabled : bool;
  ElectionStrategy : string;
  ErrorThresholdWindow : Z;
  WriteErrorThresholdCount : Z;
  ReadErrorThresholdCount : Z;
  BootstrapInterval : Z;
  MonitorInterval : Z;
}.

Definition ErrorThresholdsConfigured (f : Failover) : out ConfigError bool :=
  if (ErrorThresholdWindow f =? 0) && (WriteErrorThresholdCount f =? 0) &&
     (ReadErrorThresholdCount f =? 0) then Ok false
  else if ErrorThresholdWindow f =? 0 then Err ErrThresholdWindowNotSet
  else if WriteErrorThresholdCount f =? 0 then Err ErrWriteThresholdNotSet
  else if ReadErrorThresholdCount f =? 0 then Err ErrReadThresholdNotSet
  else Ok true.

Record Node : Type := mkNode {
  Node_Storage : string;
  Node_Address : string;
  Node_Token : string;
}.

Record VirtualStorageConf : Type := mkVS {
  VS_Name : string;
  VS_Nodes : list Node;
  DefaultReplicationFactor : Z;
}.

Record Config : Type := mkConfig {
  BatchSize : Z;
  ListenAddr : string;
  TLSListenAddr : string;
  SocketPath : string;
  VirtualStorages : list VirtualStorageConf;
  Failover_ : Failover;
  MemoryQueueEnabled : bool;
  GracefulStopTimeout : Z;
  ForceCreateRepositories : bool;
}.

(** The loop over the nodes of one virtual storage; returns the addresses seen
    so far. *)
Fixpoint validateNodes (vs : string) (storages allAddresses : gset string) (nodes : list Node)
    : out ConfigError (gset string) :=
  match nodes with
  | [] => Ok allAddresses
  | node :: nodes =>
    if decide (Node_Storage node = "") then Err (ErrGitalyWithoutStorage vs)
    else if decide (Node_Address node = "") then Err (ErrGitalyWithoutAddr vs)
    else if decide (Node_Storage node ∈ storages) then Err (ErrDuplicateStorage vs)
    else if decide (Node_Address node ∈ allAddresses)
      then Err (ErrStorageAddressDuplicate vs (Node_Address node))
    else validateNodes vs ({[Node_Storage node]} ∪ storages)
           ({[Node_Address node]} ∪ allAddresses) nodes
  end.

Fixpoint validateVirtualStorages (virtualStorages allAddresses : gset string)
    (l : list VirtualStorageConf) : out ConfigError unit :=
  match l with
  | [] => Ok tt
  | vs :: l =>
    if decide (VS_Name vs = "") then Err ErrVirtualStorageUnnamed
    else if decide (VS_Nodes vs = []) then Err (ErrNoGitalyServers (VS_Name vs))
    else if decide (VS_Name vs ∈ virtualStorages) then Err (ErrVirtualStoragesNotUnique (VS_Name vs))
    else
      allAddresses ← validateNodes (VS_Name vs) ∅ allAddresses (VS_Nodes vs);
      if Z.of_nat (length (VS_Nodes vs)) <? DefaultReplicationFactor vs
      then Err (ErrReplicationFactorTooHigh (VS_Name vs) (DefaultReplicationFactor vs)
                  (Z.of_nat (length (VS_Nodes vs))))
      else validateVirtualStorages ({[VS_Name vs]} ∪ virtualStorages) allAddresses l
  end.

Definition Validate (c : Config) : out ConfigError unit :=
  match ElectionStrategy_validate (ElectionStrategy (Failover_ c)) with
  | Some e => Err e
  | None =>
    if decide (ListenAddr c = "" /\ SocketPath c = "" /\ TLSListenAddr c = "") then Err ErrNoListener
    else if decide (VirtualStorages c = []) then Err ErrNoVirtualStorages
    else if BatchSize c <? 1 then Err (ErrBatchSize (BatchSize c))
    else validateVirtualStorages ∅ ∅ (VirtualStorages c)
  end.

Definition NeedsSQL (c : Config) : bool :=
  negb (MemoryQueueEnabled c) ||
  (Enabled (Failover_ c) &&
   negb (bool_decide (ElectionStrategy (Failover_ c) = ElectionStrategyLocal))).

Definition time_Second : Z := 1000000000.
Definition time_Minute : Z := 60 * time_Second.

Definition setDefaults (c : Config) : Config :=
  let f := Failover_ c in
  let f := if Enabled f then
      mkFailover (Enabled f) (ElectionStrategy f) (ErrorThresholdWindow f)
        (WriteErrorThresholdCount f) (ReadErrorThresholdCount f)
        (if BootstrapInterval f =? 0 then time_Second else BootstrapInterval f)
        (if MonitorInterval f =? 0 then 3 * time_Second else MonitorInterval f)
    else f in
  mkConfig (BatchSize c) (ListenAddr c) (TLSListenAddr c) (SocketPath c) (VirtualStorages c) f
    (MemoryQueueEnabled c)
    (if GracefulStopTimeout c =? 0 then time_Minute else GracefulStopTimeout c)
    (ForceCreateRepositories c).

Definition VirtualStorageNames (c : Config) : list string := VS_Name <$> VirtualStorages c.

Definition StorageNames (c : Config) : gmap string (list string) :=
  foldl (fun storages vs => <[VS_Name vs := Node_Storage <$> VS_Nodes vs]> storages) ∅
    (VirtualStorages c).

Definition DefaultReplicationFactors (c : Config) : gmap string Z :=
  foldl (fun factors vs => <[VS_Name vs := DefaultReplicationFactor vs]> factors) ∅
    (VirtualStorages c).

(** ** What validation establishes *)

Record valid_vs (vs : VirtualStorageConf) : Prop := {
  vv_name : VS_Name vs ≠ "";
  vv_nodes : VS_Nodes vs ≠ [];
  vv_storages : NoDup (Node_Storage <$> VS_Nodes vs);
  vv_named : forall n, n ∈ VS_Nodes vs -> Node_Storage n ≠ "" /\ Node_Address n ≠ "";
  vv_factor : DefaultReplicationFactor vs <= Z.of_nat (length (VS_Nodes vs));
}.

Record valid_config (c : Config) : Prop := {
  vc_strategy : ElectionStrategy (Failover_ c) ∈
    [ElectionStrategyLocal; ElectionStrategySQL; ElectionStrategyPerRepository];
  vc_listener : ListenAddr c ≠ "" \/ SocketPath c ≠ "" \/ TLSListenAddr c ≠ "";
  vc_some : VirtualStorages c ≠ [];
  vc_batch : 1 <= BatchSize c;
  vc_names : NoDup (VirtualStorageNames c);
  vc_vs : forall vs, vs ∈ VirtualStorages c -> valid_vs vs;
  vc_addresses : NoDup (Node_Address <$> (VirtualStorages c ≫= VS_Nodes));
}.

Lemma validateNodes_ok vs storages addrs nodes addrs' :
  validateNodes vs storages addrs nodes = Ok addrs' <->
  addrs' = list_to_set (Node_Address <$> nodes) ∪ addrs /\
  NoDup (Node_Storage <$> nodes) /\ NoDup (Node_Address <$> nodes) /\
  (forall n, n ∈ nodes -> Node_Storage n ≠ "" /\ Node_Address n ≠ "" /\
    Node_Storage n ∉ storages /\ Node_Address n ∉ addrs).
Proof.
  revert storages addrs. induction nodes as [|n nodes IH]; intros storages addrs; simpl.
  { split; [intros [= <-]|intros [-> _]; f_equal; set_solver].
    split_and!; [set_solver|constructor..|]. intros n Hn. by apply elem_of_nil in Hn. }
  rewrite !NoDup_cons, !list_elem_of_fmap. setoid_rewrite elem_of_cons.
  repeat case_decide; try (split; [done|]; intros (_ & _ & _ & Hall); by destruct (Hall n) as (? & ? & ? & ?); [by left|]).
  rewrite IH. split.
  - intros (-> & Hs & Ha & Hall). split_and!; [set_solver|..]; try done.
    + intros (x & Heq & Hx). destruct (Hall x Hx) as (_ & _ & Hns & _). set_solver.
    + intros (x & Heq & Hx). destruct (Hall x Hx) as (_ & _ & _ & Hna). set_solver.
    + intros x [->|Hx]; [done|]. destruct (Hall x Hx) as (? & ? & ? & ?). set_solver.
  - intros (-> & [Hs1 Hs] & [Ha1 Ha] & Hall). split_and!; [set_solver|done..|].
    intros x Hx. destruct (Hall x) as (? & ? & ? & ?); [by right|].
    split_and!; [done..| |]; rewrite not_elem_of_union, not_elem_of_singleton; split; try done.
    + intros Heq. apply Hs1. by exists x.
    + intros Heq. apply Ha1. by exists x.
Qed.

Lemma validateVirtualStorages_ok names addrs l :
  validateVirtualStorages names addrs l = Ok tt <->
  NoDup (VS_Name <$> l) /\ NoDup (Node_Address <$> (l ≫= VS_Nodes)) /\
  (forall vs, vs ∈ l -> valid_vs vs /\ VS_Name vs ∉ names /\
    forall n, n ∈ VS_Nodes vs -> Node_Address n ∉ addrs).
Proof.
  revert names addrs. induction l as [|vs l IH]; intros names addrs; simpl.
  { split; [|done]. intros _. split_and!; [constructor..|]. intros vs H. by apply elem_of_nil in H. }
  rewrite fmap_app, NoDup_app, NoDup_cons, list_elem_of_fmap. setoid_rewrite elem_of_cons.
  assert (Hbad : forall e : ConfigError, ~ (valid_vs vs /\ VS_Name vs ∉ names /\
      forall n, n ∈ VS_Nodes vs -> Node_Address n ∉ addrs) ->
    Err e = Ok tt <-> ((¬ (exists y, VS_Name vs = VS_Name y /\ y ∈ l)) /\ NoDup (VS_Name <$> l)) /\
      (NoDup (Node_Address <$> VS_Nodes vs) /\ (forall x, x ∈ Node_Address <$> VS_Nodes vs ->
        x ∉ Node_Address <$> (l ≫= VS_Nodes)) /\ NoDup (Node_Address <$> (l ≫= VS_Nodes))) /\
      (forall x, x = vs \/ x ∈ l -> valid_vs x /\ VS_Name x ∉ names /\
        forall n, n ∈ VS_Nodes x -> Node_Address n ∉ addrs)).
  { intros e Hn. split; [done|]. intros (_ & _ & Hall). destruct Hn. apply Hall. by left. }
  case_decide as H1; [apply Hbad; intros [[] _]; done|].
  case_decide as H2; [apply Hbad; intros [[] _]; done|].
  case_decide as H3; [apply Hbad; intros (_ & ? & _); done|].
  destruct (validateNodes (VS_Name vs) ∅ addrs (VS_Nodes vs)) as [a|e|] eqn:Hv; simpl.
  2,3: (split; [done|]; intros (_ & [Hnd _] & Hall);
        destruct (Hall vs (or_introl eq_refl)) as ([] & _ & Hna); exfalso;
        enough (validateNodes (VS_Name vs) ∅ addrs (VS_Nodes vs) =
          Ok (list_to_set (Node_Address <$> VS_Nodes vs) ∪ addrs)) by congruence;
        apply validateNodes_ok; split_and!; [done..|]; intros n Hn;
        destruct (vv_named0 n Hn); split_and!; [done..|set_solver|by apply Hna]).
  apply validateNodes_ok in Hv as (-> & Hs & Ha & Hall).
  destruct (Z.ltb_spec (Z.of_nat (length (VS_Nodes vs))) (DefaultReplicationFactor vs)) as [Hf|Hf].
  { apply Hbad. intros ([] & _). lia. }
  rewrite IH. split.
  - intros (Hn & Had & Hvs). split_and!; try done.
    + intros (y & Heq & Hy). destruct (Hvs y Hy) as (_ & Hni & _). set_solver.
    + intros x Hx (n & -> & Hn')%list_elem_of_fmap. apply list_elem_of_bind in Hn' as (y & Hy & Hin).
      destruct (Hvs y Hin) as (_ & _ & Hna). specialize (Hna n Hy). set_solver.
    + intros x [->|Hx].
      * split_and!; [|done|by intros n Hn'; apply Hall].
        split; try done. intros n Hn'. destruct (Hall n Hn') as (? & ? & _). done.
      * destruct (Hvs x Hx) as (? & ? & Hna). split_and!; [done|set_solver|].
        intros n Hn'. specialize (Hna n Hn'). set_solver.
  - intros ([Hn1 Hn] & (_ & Hd & Had) & Hvs). split_and!; [done..|].
    intros x Hx. destruct (Hvs x (or_intror Hx)) as (? & ? & Hna). split_and!; [done| |].
    + rewrite not_elem_of_union, not_elem_of_singleton. split; [|done].
      intros Heq. apply Hn1. by exists x.
    + intros n Hn'. rewrite not_elem_of_union, elem_of_list_to_set. split; [|by apply Hna].
      intros Hin. apply (Hd (Node_Address n) Hin). apply list_elem_of_fmap. exists n. split; [done|].
      apply list_elem_of_bind. by exists x.
Qed.

(** [Validate] accepts a configuration exactly when it is well-formed: a known
    election strategy, a listener, at least one virtual storage, a batch size,
    distinct non-empty virtual storage names, and in each virtual storage at
    least one node, distinct non-empty storage names, addresses that no other
    node has, and no more replicas than nodes. *)
Theorem Validate_spec c : Validate c = Ok tt <-> valid_config c.
Proof.
  unfold Validate, ElectionStrategy_validate. case_decide as Hes.
  2: { split; [done|]. intros []. destruct Hes. set_solver. }
  case_decide as Hl; [split; [done|]; intros []; naive_solver|].
  case_decide as Hv; [split; [done|]; by intros []|].
  destruct (Z.ltb_spec (BatchSize c) 1); [split; [done|]; intros []; lia|].
  rewrite validateVirtualStorages_ok. split.
  - intros (? & ? & Hall). split; try done.
    + set_solver.
    + destruct (decide (ListenAddr c = "")), (decide (SocketPath c = "")); tauto.
    + intros vs Hvs. apply Hall, Hvs.
  - intros []. split_and!; [done..|]. intros vs Hvs. split_and!; [by apply vc_vs0|set_solver..].
Qed.

Lemma foldl_insert_lookup {A V} (key : A -> string) (f : A -> V) (l : list A) (m : gmap string V) x :
  NoDup (key <$> l) -> x ∈ l ->
  foldl (fun m a => <[key a := f a]> m) m l !! key x = Some (f x).
Proof.
  intros Hnd Hx. revert m Hnd. induction l as [|a l IH]; intros m Hnd; [by apply elem_of_nil in Hx|].
  rewrite fmap_cons, NoDup_cons in Hnd. destruct Hnd as [Ha Hnd]. simpl.
  apply elem_of_cons in Hx as [->|Hx]; [|by apply IH].
  clear IH. assert (Hm : forall m' : gmap string V, m' !! key a = Some (f a) ->
    foldl (fun m a => <[key a := f a]> m) m' l !! key a = Some (f a)).
  { induction l as [|b l IH]; intros m' Hm'; [done|]. rewrite fmap_cons in *. simpl. apply IH.
    - rewrite elem_of_cons in Ha. tauto.
    - by apply NoDup_cons in Hnd as [_ ?].
    - rewrite lookup_insert_ne; [done|]. intros Heq. apply Ha. rewrite <- Heq. by left. }
  apply Hm, lookup_insert_eq.
Qed.

Lemma foldl_insert_None {A V} (key : A -> string) (f : A -> V) (l : list A) (m : gmap string V) k :
  k ∉ key <$> l -> foldl (fun m a => <[key a := f a]> m) m l !! k = m !! k.
Proof.
  revert m. induction l as [|a l IH]; intros m Hk; [done|]. simpl.
  rewrite fmap_cons, elem_of_cons in Hk. rewrite IH by tauto. apply lookup_insert_ne. naive_solver.
Qed.

Lemma StorageNames_lookup c vs :
  NoDup (VirtualStorageNames c) -> vs ∈ VirtualStorages c ->
  StorageNames c !! VS_Name vs = Some (Node_Storage <$> VS_Nodes vs).
Proof.
  apply (foldl_insert_lookup VS_Name (fun vs => Node_Storage <$> VS_Nodes vs)).
Qed.

Lemma DefaultReplicationFactors_lookup c vs :
  NoDup (VirtualStorageNames c) -> vs ∈ VirtualStorages c ->
  DefaultReplicationFactors c !! VS_Name vs = Some (DefaultReplicationFactor vs).
Proof. apply (foldl_insert_lookup VS_Name DefaultReplicationFactor). Qed.
