(* ===== verification/Router.v ===== *)
(** Request routing (src/internal/praefect/router.go, router_per_repository.go,
    router_node_manager.go): which nodes serve an accessor, take part in a
    mutator's transaction, or need the change replicated afterwards.

    The services a router asks (health checker, primary getter, consistent
    storages, assignments, repository IDs, random source) are Go interfaces; they
    are the fields of [RouterServices]. A connection is an address, the nil
    pointer is [None]. *)

From S2P Require Import Prelude PConfig.

(** ** Errors of Praefect's request path *)

Inductive PErr : Type :=
| ErrVirtualStorageNotExist
| ErrNoConnection (virtualStorage storage : string)
| ErrNoHealthyNodes
| ErrNoSuitableNode
| ErrPrimaryNotHealthy
| ErrRepositoryReadOnly
| ErrPrimaryUnassigned
| ErrNotImplemented
| ErrRepositoryNotFound (virtualStorage relativePath : string)
| ErrRepositoryAlreadyExists
| ErrInvalidRepository
| External (what : string)
| Wrapped (message : string) (e : PErr).

#[export] Instance PErr_eq_dec : EqDecision PErr.
Proof. solve_decision. Defined.

(** [errors.Is] on such errors. *)
Fixpoint errors_Is (e target : PErr) : bool :=
  bool_decide (e = target) ||
  match e with Wrapped _ e => errors_Is e target | _ => false end.

(** [errors.As] for [commonerr.RepositoryNotFoundError]. *)
Fixpoint isRepositoryNotFound (e : PErr) : bool :=
  match e with
  | ErrRepositoryNotFound _ _ => true
  | Wrapped _ e => isRepositoryNotFound e
  | _ => false
  end.

Definition wrapped {A} (message : string) (o : out PErr A) : out PErr A :=
  match o with Err e => Err (Wrapped message e) | _ => o end.

(** ** Routes *)

Record RouterNode : Type := mkRN {
  RN_Storage : string;
  RN_Connection : option nat;
}.

#[export] Instance RouterNode_eq_dec : EqDecision RouterNode.
Proof. solve_decision. Defined.

Definition zeroRouterNode : RouterNode := mkRN "" None.

Record StorageMutatorRoute : Type := mkSMR {
  SMR_Primary : RouterNode;
  SMR_Secondaries : list RouterNode;
}.

Record RepositoryMutatorRoute : Type := mkRoute {
  RepositoryID : Z;
  Primary : RouterNode;
  Secondaries : list RouterNode;
  ReplicationTargets : list string;
}.

(** The [Router] interface. *)
Class Router (R : Type) := {
  RouteStorageAccessor : R -> string -> out PErr RouterNode;
  RouteStorageMutator : R -> string -> out PErr StorageMutatorRoute;
  RouteRepositoryAccessor : R -> string -> string -> bool -> out PErr RouterNode;
  RouteRepositoryMutator : R -> string -> string -> out PErr RepositoryMutatorRoute;
  RouteRepositoryCreation : R -> string -> string -> out PErr RepositoryMutatorRoute;
}.

(** [StaticStorageAssignments.GetHostAssignments]. *)
Definition StaticGetHostAssignments (st : gmap string (list string))
    (virtualStorage relativePath : string) : out PErr (list string) :=
  match st !! virtualStorage with
  | None => Err ErrVirtualStorageNotExist
  | Some storages => Ok storages
  end.

(** ** The per-repository router *)

Record RouterServices : Type := mkServices {
  HealthyNodes : gmap string (list string);
  GetPrimary : string -> string -> out PErr string;
  GetConsistentStorages : string -> string -> out PErr (gset string);
  GetHostAssignments : string -> string -> out PErr (list string);
  GetRepositoryID : string -> string -> out PErr Z;
  ReserveRepositoryID : string -> string -> out PErr Z;
  Intn : Z -> Z;
  Shuffle : list RouterNode -> list RouterNode;
  (* capacity a slice built by that many appends to nil has *)
  append_cap : nat -> nat;
}.

Record PerRepositoryRouter : Type := mkRouter {
  conns : gmap string (gmap string nat);
  services : RouterServices;
  defaultReplicationFactors : gmap string Z;
}.

(** The loop of [healthyNodes] over the storages reported healthy. *)
Fixpoint connectNodes (virtualStorage : string) (conns : gmap string nat) (storages : list string)
    : out PErr (list RouterNode) :=
  match storages with
  | [] => Ok []
  | storage :: storages =>
    match conns !! storage with
    | None => Err (ErrNoConnection virtualStorage storage)
    | Some conn =>
      rest ← connectNodes virtualStorage conns storages;
      Ok (mkRN storage (Some conn) :: rest)
    end
  end.

Definition healthyNodes (r : PerRepositoryRouter) (virtualStorage : string)
    : out PErr (list RouterNode) :=
  match conns r !! virtualStorage with
  | None => Err ErrVirtualStorageNotExist
  | Some cs =>
    nodes ← connectNodes virtualStorage cs
              (default [] (HealthyNodes (services r) !! virtualStorage));
    if decide (nodes = []) then Err ErrNoHealthyNodes else Ok nodes
  end.

Definition pickRandom (r : PerRepositoryRouter) (nodes : list RouterNode) : out PErr RouterNode :=
  if decide (nodes = []) then Err ErrNoSuitableNode
  else
    let i := Intn (services r) (Z.of_nat (length nodes)) in
    if i <? 0 then Panic
    else match nodes !! Z.to_nat i with Some n => Ok n | None => Panic end.

Definition PR_RouteStorageAccessor (r : PerRepositoryRouter) (virtualStorage : string)
    : out PErr RouterNode :=
  nodes ← healthyNodes r virtualStorage;
  pickRandom r nodes.

Definition PR_RouteStorageMutator (r : PerRepositoryRouter) (virtualStorage : string)
    : out PErr StorageMutatorRoute :=
  Err ErrNotImplemented.

Definition PR_RouteRepositoryAccessor (r : PerRepositoryRouter) (virtualStorage relativePath : string)
    (forcePrimary : bool) : out PErr RouterNode :=
  healthy ← healthyNodes r virtualStorage;
  if forcePrimary then
    primary ← wrapped "get primary" (GetPrimary (services r) virtualStorage relativePath);
    match list_find (fun n => RN_Storage n = primary) healthy with
    | Some (_, node) => Ok node
    | None => Err ErrPrimaryNotHealthy
    end
  else
    consistent ← wrapped "consistent storages"
      (GetConsistentStorages (services r) virtualStorage relativePath);
    pickRandom r (filter (fun n => RN_Storage n ∈ consistent) healthy).

(** [healthySet]: a later node of the same storage replaces an earlier one. *)
Definition healthySet (nodes : list RouterNode) : gmap string RouterNode :=
  foldl (fun m n => <[RN_Storage n := n]> m) ∅ nodes.

(** The loop over the assigned storages. *)
Definition assignStorage (healthy : gmap string RouterNode) (consistent : gset string)
    (primary : string) (route : RepositoryMutatorRoute) (assigned : string) : RepositoryMutatorRoute :=
  let node := default zeroRouterNode (healthy !! assigned) in
  if decide (assigned = primary) then
    mkRoute (RepositoryID route) node (Secondaries route) (ReplicationTargets route)
  else if decide (RN_Storage node ∉ consistent \/ healthy !! assigned = None) then
    mkRoute (RepositoryID route) (Primary route) (Secondaries route)
      (ReplicationTargets route ++ [assigned])
  else
    mkRoute (RepositoryID route) (Primary route) (Secondaries route ++ [node])
      (ReplicationTargets route).

Definition PR_RouteRepositoryMutator (r : PerRepositoryRouter) (virtualStorage relativePath : string)
    : out PErr RepositoryMutatorRoute :=
  nodes ← healthyNodes r virtualStorage;
  primary ← wrapped "get primary" (GetPrimary (services r) virtualStorage relativePath);
  let healthy := healthySet nodes in
  if decide (healthy !! primary = None) then Err ErrPrimaryNotHealthy
  else
    consistent ← wrapped "consistent storages"
      (GetConsistentStorages (services r) virtualStorage relativePath);
    if decide (primary ∉ consistent) then Err ErrRepositoryReadOnly
    else
      assigned ← wrapped "get host assignments"
        (GetHostAssignments (services r) virtualStorage relativePath);
      repositoryID ← wrapped "get repository id"
        (GetRepositoryID (services r) virtualStorage relativePath);
      let route := foldl (assignStorage healthy consistent primary)
        (mkRoute repositoryID zeroRouterNode [] []) assigned in
      if decide (Primary route = zeroRouterNode) then Err ErrPrimaryUnassigned else Ok route.

(** [s[:n]] of a slice: it may extend to the capacity, where the backing array
    holds zero values, and panics beyond it. *)
Definition slice_to (cap : nat) (n : Z) (nodes : list RouterNode) : out PErr (list RouterNode) :=
  if (n <? 0) || (Z.of_nat cap <? n) then Panic
  else Ok (take (Z.to_nat n) nodes ++ replicate (Z.to_nat n - length nodes) zeroRouterNode).

Section Creation.
Context {RC : MapRange string nat}.

Definition secondaryCandidates (cs : gmap string nat) (primary : string) : list RouterNode :=
  (fun kv => mkRN kv.1 (Some kv.2)) <$> filter (fun kv => kv.1 ≠ primary) (range cs).

Definition PR_RouteRepositoryCreation (r : PerRepositoryRouter) (virtualStorage relativePath : string)
    : out PErr RepositoryMutatorRoute :=
  healthy ← healthyNodes r virtualStorage;
  primary ← pickRandom r healthy;
  id ← wrapped "reserve repository id" (ReserveRepositoryID (services r) virtualStorage relativePath);
  let replicationFactor := default 0 (defaultReplicationFactors r !! virtualStorage) in
  if replicationFactor =? 1 then Ok (mkRoute id primary [] [])
  else
    let secondaryNodes := secondaryCandidates (default ∅ (conns r !! virtualStorage)) (RN_Storage primary) in
    secondaryNodes ←
      (if 0 <? replicationFactor then
         slice_to (append_cap (services r) (length secondaryNodes)) (replicationFactor - 1)
           (Shuffle (services r) secondaryNodes)
       else Ok secondaryNodes);
    Ok (mkRoute id primary (filter (fun n => n ∈ healthy) secondaryNodes)
          (RN_Storage <$> filter (fun n => n ∉ healthy) secondaryNodes)).

#[export] Instance PerRepositoryRouter_Router : Router PerRepositoryRouter := {
  RouteStorageAccessor := PR_RouteStorageAccessor;
  RouteStorageMutator := PR_RouteStorageMutator;
  RouteRepositoryAccessor := PR_RouteRepositoryAccessor;
  RouteRepositoryMutator := PR_RouteRepositoryMutator;
  RouteRepositoryCreation := PR_RouteRepositoryCreation;
}.

End Creation.

(** ** The router of the node manager *)

(** What the router uses of a [nodes.Node]. *)
Record MNode : Type := mkMNode {
  GetStorage : string;
  GetConnection : option nat;
  IsHealthy : bool;
}.

Record Shard : Type := mkShard {
  Shard_Primary : MNode;
  Shard_Secondaries : list MNode;
}.

Definition GetHealthySecondaries (s : Shard) : list MNode :=
  filter (fun n => IsHealthy n = true) (Shard_Secondaries s).

Definition toRouterNode (n : MNode) : RouterNode := mkRN (GetStorage n) (GetConnection n).
Definition toRouterNodes (l : list MNode) : list RouterNode := toRouterNode <$> l.

Record nodeManagerRouter : Type := mkNMR {
  GetShard : string -> out PErr Shard;
  GetSyncedNode : string -> string -> out PErr MNode;
  rs_GetConsistentStorages : string -> string -> out PErr (gset string);
}.

Definition NM_RouteRepositoryAccessor (r : nodeManagerRouter) (virtualStorage relativePath : string)
    (forcePrimary : bool) : out PErr RouterNode :=
  if forcePrimary then
    shard ← wrapped "get shard" (GetShard r virtualStorage);
    Ok (toRouterNode (Shard_Primary shard))
  else
    node ← wrapped "get synced node" (GetSyncedNode r virtualStorage relativePath);
    Ok (toRouterNode node).

Definition NM_RouteStorageAccessor (r : nodeManagerRouter) (virtualStorage : string)
    : out PErr RouterNode :=
  shard ← GetShard r virtualStorage;
  Ok (toRouterNode (Shard_Primary shard)).

Definition NM_RouteStorageMutator (r : nodeManagerRouter) (virtualStorage : string)
    : out PErr StorageMutatorRoute :=
  shard ← GetShard r virtualStorage;
  Ok (mkSMR (toRouterNode (Shard_Primary shard)) (toRouterNodes (GetHealthySecondaries shard))).

Definition NM_RouteRepositoryMutator (r : nodeManagerRouter) (virtualStorage relativePath : string)
    : out PErr RepositoryMutatorRoute :=
  shard ← wrapped "get shard" (GetShard r virtualStorage);
  consistent ← (match rs_GetConsistentStorages r virtualStorage relativePath with
    | Ok s => Ok s
    | Err e => if isRepositoryNotFound e then Ok ∅ else Err (Wrapped "consistent storages" e)
    | Panic => Panic
    end);
  let consistent := if decide (consistent = ∅) then {[GetStorage (Shard_Primary shard)]} else consistent in
  if decide (GetStorage (Shard_Primary shard) ∉ consistent) then Err ErrRepositoryReadOnly
  else
    let takesPart n := bool_decide (GetStorage n ∈ consistent) && IsHealthy n in
    Ok (mkRoute 0 (toRouterNode (Shard_Primary shard))
          (toRouterNodes (filter (fun n => takesPart n = true) (Shard_Secondaries shard)))
          (GetStorage <$> filter (fun n => takesPart n = false) (Shard_Secondaries shard))).

Definition NM_RouteRepositoryCreation (r : nodeManagerRouter) (virtualStorage relativePath : string)
    : out PErr RepositoryMutatorRoute :=
  shard ← wrapped "get shard" (GetShard r virtualStorage);
  Ok (mkRoute 0 (toRouterNode (Shard_Primary shard))
        (toRouterNodes (filter (fun n => IsHealthy n = true) (Shard_Secondaries shard)))
        (GetStorage <$> filter (fun n => IsHealthy n = false) (Shard_Secondaries shard))).

#[export] Instance nodeManagerRouter_Router : Router nodeManagerRouter := {
  RouteStorageAccessor := NM_RouteStorageAccessor;
  RouteStorageMutator := NM_RouteStorageMutator;
  RouteRepositoryAccessor := NM_RouteRepositoryAccessor;
  RouteRepositoryMutator := NM_RouteRepositoryMutator;
  RouteRepositoryCreation := NM_RouteRepositoryCreation;
}.

(** ** Contracts *)

(** What is known of a random source and of slices. *)
Class RandomLaws (sv : RouterServices) : Prop := {
  Intn_range : forall n, 0 < n -> 0 <= Intn sv n < n;
  Shuffle_perm : forall l, Shuffle sv l ≡ₚ l;
  append_cap_ge : forall n, (n <= append_cap sv n)%nat;
}.

(** The storages a route reaches, directly or by replication. *)
Definition reached (route : RepositoryMutatorRoute) : list string :=
  RN_Storage (Primary route) :: (RN_Storage <$> Secondaries route) ++ ReplicationTargets route.

(** The contract of a mutator route for a repository with the given hosts: every
    host is reached exactly once, and exactly the hosts that are [fit] take part
    directly, the primary among them. *)
Record sound_route (hosts : list string) (fit : string -> Prop) (route : RepositoryMutatorRoute) : Prop := {
  sr_hosts : reached route ≡ₚ hosts;
  sr_primary : fit (RN_Storage (Primary route));
  sr_secondaries : forall n, n ∈ Secondaries route -> fit (RN_Storage n);
  sr_targets : forall s, s ∈ ReplicationTargets route -> ~ fit s;
}.

(** ** The per-repository router *)

Lemma connectNodes_ok vs cs storages nodes :
  connectNodes vs cs storages = Ok nodes ->
  RN_Storage <$> nodes = storages /\
  forall n, n ∈ nodes -> exists c, RN_Connection n = Some c /\ cs !! RN_Storage n = Some c.
Proof.
  revert nodes. induction storages as [|s storages IH]; intros nodes H; simpl in *.
  { simplify_eq. split; [done|]. intros n Hn. by apply elem_of_nil in Hn. }
  destruct (cs !! s) as [c|] eqn:Hc; [|done].
  destruct (connectNodes vs cs storages) as [rest| |]; simplify_eq/=.
  destruct (IH rest eq_refl) as [Hs Hc']. split; [by f_equal|].
  intros n [->|Hn]%elem_of_cons; [by exists c|]. by apply Hc'.
Qed.

Lemma healthyNodes_ok r vs nodes :
  healthyNodes r vs = Ok nodes ->
  nodes ≠ [] /\ exists cs, conns r !! vs = Some cs /\
    RN_Storage <$> nodes = default [] (HealthyNodes (services r) !! vs) /\
    forall n, n ∈ nodes -> exists c, RN_Connection n = Some c /\ cs !! RN_Storage n = Some c.
Proof.
  unfold healthyNodes. destruct (conns r !! vs) as [cs|]; [|done].
  destruct (connectNodes vs cs _) as [l| |] eqn:Hl; simpl; try done.
  case_decide; [done|]. intros [= <-]. split; [done|]. exists cs. split; [done|].
  by apply (connectNodes_ok vs).
Qed.

Lemma healthySet_lookup nodes s :
  (forall n, healthySet nodes !! s = Some n -> n ∈ nodes /\ RN_Storage n = s) /\
  (s ∈ RN_Storage <$> nodes -> is_Some (healthySet nodes !! s)).
Proof.
  unfold healthySet. set (f := fun m n => <[RN_Storage n := n]> m).
  assert (H : forall m : gmap string RouterNode,
    (forall n, foldl f m nodes !! s = Some n -> n ∈ nodes /\ RN_Storage n = s \/ m !! s = Some n) /\
    (s ∈ RN_Storage <$> nodes \/ is_Some (m !! s) -> is_Some (foldl f m nodes !! s))).
  { induction nodes as [|x nodes IH]; intros m; simpl.
    { split; [by right|]. intros [Hn|?]; [by apply elem_of_nil in Hn|done]. }
    destruct (IH (f m x)) as [H1 H2]. unfold f in *. split.
    - intros n Hn. destruct (H1 n Hn) as [[? ?]|Hm]; [left; split; [by right|done]|].
      destruct (decide (RN_Storage x = s)) as [<-|Hne].
      + rewrite lookup_insert_eq in Hm. simplify_eq. left. split; [by left|done].
      + rewrite lookup_insert_ne in Hm by done. by right.
    - intros Hor. apply H2. destruct (decide (RN_Storage x = s)) as [<-|Hne].
      + right. by rewrite lookup_insert_eq.
      + rewrite lookup_insert_ne by done. rewrite elem_of_cons in Hor. naive_solver. }
  destruct (H ∅) as [H1 H2]. split; [|intros; apply H2; by left].
  intros n Hn. destruct (H1 n Hn) as [?|Hm]; [done|by rewrite lookup_empty in Hm].
Qed.

(** Reading off the loop over the assignments. *)
Lemma assignStorage_fold nodes consistent primary assigned route :
  let healthy := healthySet nodes in
  let fit s := s ∈ consistent /\ s ∈ RN_Storage <$> nodes in
  let route' := foldl (assignStorage healthy consistent primary) route assigned in
  RepositoryID route' = RepositoryID route /\
  (Primary route' = if decide (primary ∈ assigned)
                    then default zeroRouterNode (healthy !! primary) else Primary route) /\
  (RN_Storage <$> Secondaries route') =
    (RN_Storage <$> Secondaries route) ++ filter (fun s => s ≠ primary /\ fit s) assigned /\
  ReplicationTargets route' =
    ReplicationTargets route ++ filter (fun s => s ≠ primary /\ ~ fit s) assigned /\
  (forall n, n ∈ Secondaries route' -> n ∈ Secondaries route \/ n ∈ nodes).
Proof.
  simpl. revert route. induction assigned as [|s l IH]; intros route; simpl.
  { rewrite !app_nil_r. split_and!; try done. by left. }
  destruct (IH (assignStorage (healthySet nodes) consistent primary route s)) as (Hid & Hp & Hs & Ht & Hn).
  rewrite Hid, Hp, Hs, Ht. clear Hid Hp Hs Ht IH.
  destruct (healthySet_lookup nodes s) as [Hset Hset'].
  unfold assignStorage in *. rewrite !filter_cons. destruct (decide (s = primary)) as [->|Hne]; simpl in *.
  { rewrite (decide_True (P := primary ∈ primary :: l)) by (by left).
    rewrite !(decide_False (P := primary ≠ primary /\ _)) by naive_solver.
    split_and!; try done. case_decide; done. }
  assert (Hin : forall A (a b : A), (if decide (primary ∈ s :: l) then a else b) =
    if decide (primary ∈ l) then a else b).
  { intros A a b. apply decide_ext. rewrite elem_of_cons. naive_solver. }
  rewrite Hin. destruct (healthySet nodes !! s) as [n|] eqn:Hh; simpl in *.
  - destruct (Hset n eq_refl) as [Hns Hs]. rewrite Hs in *.
    assert (Hfit : s ∈ RN_Storage <$> nodes) by (rewrite <- Hs; by apply list_elem_of_fmap_2).
    destruct (decide (s ∈ consistent)) as [Hc|Hc].
    + rewrite (decide_False (P := s ∉ consistent \/ _)) in * by (intros [?|?]; done).
      rewrite (decide_True (P := s ≠ primary /\ s ∈ consistent /\ _)) by done.
      rewrite (decide_False (P := s ≠ primary /\ ~ _)) by tauto. simpl in *.
      rewrite fmap_app, <- app_assoc. simpl. rewrite Hs. split_and!; try done.
      intros x Hx. destruct (Hn x Hx) as [[?| ->%list_elem_of_singleton]%elem_of_app|?]; auto.
    + rewrite (decide_True (P := s ∉ consistent \/ _)) in * by (by left).
      rewrite (decide_False (P := s ≠ primary /\ s ∈ consistent /\ _)) by tauto.
      rewrite (decide_True (P := s ≠ primary /\ ~ _)) by tauto. simpl in *.
      rewrite <- app_assoc. done.
  - assert (Hfit : ~ (s ∈ RN_Storage <$> nodes)) by (intros Hx; by destruct (Hset' Hx)).
    rewrite (decide_True (P := _ \/ None = None)) in * by (by right).
    rewrite (decide_False (P := s ≠ primary /\ s ∈ consistent /\ _)) by tauto.
    rewrite (decide_True (P := s ≠ primary /\ ~ _)) by tauto. simpl in *.
    rewrite <- app_assoc. done.
Qed.

(** Three disjoint filters of a list without duplicates, one of them a single
    element. *)
Lemma partition_around (l : list string) p (P : string -> Prop) `{forall s, Decision (P s)} :
  NoDup l -> p ∈ l ->
  p :: filter (fun s => s ≠ p /\ P s) l ++ filter (fun s => s ≠ p /\ ~ P s) l ≡ₚ l.
Proof.
  intros Hnd Hp. apply list_elem_of_split in Hp as (l1 & l2 & ->).
  apply NoDup_app in Hnd as (_ & H1 & H2). apply NoDup_cons in H2 as [H2 _].
  assert (Hne : forall s, s ∈ l1 ++ l2 -> s ≠ p).
  { intros s [Hs|Hs]%elem_of_app ->; [apply (H1 p Hs); by left|done]. }
  rewrite !filter_app, !filter_cons, !(decide_False (P := p ≠ p /\ _)) by tauto.
  rewrite <- !filter_app, <- Permutation_middle. f_equiv.
  rewrite (filter_ext_in (fun s => s ≠ p /\ P s) P),
    (filter_ext_in (fun s => s ≠ p /\ ~ P s) (fun s => ~ P s)); [apply filter_app_complement|..];
    intros s Hs; specialize (Hne s Hs); tauto.
Qed.

(** C27. When the per-repository router routes a mutator, the primary is the
    repository's primary, healthy and up to date, and the route is sound for the
    assigned storages: each is reached exactly once, those that are healthy and
    consistent through the transaction, all others by replication. *)
Theorem mutator_route_sound r vs path route :
  PR_RouteRepositoryMutator r vs path = Ok route ->
  (forall assigned, GetHostAssignments (services r) vs path = Ok assigned -> NoDup assigned) ->
  exists primary consistent assigned,
    GetPrimary (services r) vs path = Ok primary /\
    GetConsistentStorages (services r) vs path = Ok consistent /\
    GetHostAssignments (services r) vs path = Ok assigned /\
    RN_Storage (Primary route) = primary /\
    sound_route assigned
      (fun s => s ∈ consistent /\ s ∈ default [] (HealthyNodes (services r) !! vs)) route.
Proof.
  unfold PR_RouteRepositoryMutator. intros H Hnd.
  destruct (healthyNodes r vs) as [nodes| |] eqn:Hh; simpl in H; try done.
  destruct (GetPrimary (services r) vs path) as [primary| |]; simpl in H; try done.
  case_decide as Hprim; [done|].
  destruct (GetConsistentStorages (services r) vs path) as [consistent| |]; simpl in H; try done.
  case_decide as Hcons; [done|].
  destruct (GetHostAssignments (services r) vs path) as [assigned| |]; simpl in H; try done.
  destruct (GetRepositoryID (services r) vs path) as [id| |]; simpl in H; try done.
  case_decide as Hz; [done|]. injection H as H.
  destruct (assignStorage_fold nodes consistent primary assigned (mkRoute id zeroRouterNode [] []))
    as (_ & Hp & Hs & Ht & Hn). rewrite H in Hp, Hs, Ht, Hn, Hz. simpl in *.
  destruct (healthyNodes_ok r vs nodes Hh) as (_ & cs & _ & Hstor & _).
  destruct (healthySet_lookup nodes primary) as [Hl _].
  destruct (healthySet nodes !! primary) as [n|] eqn:Hset; [|done]. destruct (Hl n eq_refl) as [Hin Hnp].
  case_decide as Hpa; [|done]. simpl in Hp.
  exists primary, consistent, assigned. split_and!; [done..|by rewrite Hp|].
  split; unfold reached; rewrite ?Hp, ?Hs, ?Ht, ?Hnp, <- ?Hstor.
  - apply (partition_around assigned primary (fun s => s ∈ consistent /\ s ∈ RN_Storage <$> nodes)); auto.
  - split; [by destruct (decide (primary ∈ consistent))|]. rewrite <- Hnp. by apply list_elem_of_fmap_2.
  - intros x Hx. apply (list_elem_of_fmap_2 RN_Storage) in Hx. rewrite Hs in Hx.
    by apply list_elem_of_filter in Hx as [[_ ?] _].
  - intros s Hx. by apply list_elem_of_filter in Hx as [[_ ?] _].
Qed.

Section CreationProofs.
Context {RC : MapRange string nat}.
Context (r : PerRepositoryRouter) {RL : RandomLaws (services r)}.

Lemma pickRandom_ok nodes : nodes ≠ [] -> exists n, pickRandom r nodes = Ok n /\ n ∈ nodes.
Proof using RL.
  intros Hne. unfold pickRandom. rewrite decide_False by done.
  assert (0 < Z.of_nat (length nodes)) by (destruct nodes; simpl; [done|lia]).
  destruct (Intn_range (Z.of_nat (length nodes))) as [H1 H2]; [done|].
  destruct (Z.ltb_spec (Intn (services r) (Z.of_nat (length nodes))) 0); [lia|].
  destruct (lookup_lt_is_Some_2 nodes (Z.to_nat (Intn (services r) (Z.of_nat (length nodes))))) as [n Hn]; [lia|].
  rewrite Hn. exists n. split; [done|]. by eapply list_elem_of_lookup_2.
Qed.

Lemma secondaryCandidates_spec cs p c :
  cs !! p = Some c ->
  mkRN p (Some c) :: secondaryCandidates cs p ≡ₚ (fun kv => mkRN kv.1 (Some kv.2)) <$> map_to_list cs.
Proof.
  intros Hp. unfold secondaryCandidates.
  change (mkRN p (Some c)) with ((fun kv : string * nat => mkRN kv.1 (Some kv.2)) (p, c)).
  rewrite <- fmap_cons. apply fmap_Permutation. rewrite range_perm.
  rewrite <- (insert_delete_id cs p c Hp) at 2. rewrite map_to_list_insert by apply lookup_delete_eq.
  f_equiv. rewrite <- (insert_delete_id cs p c Hp) at 1.
  rewrite map_to_list_insert by apply lookup_delete_eq. rewrite filter_cons, decide_False by (by intros []).
  rewrite filter_all; [done|]. intros [k v] Hk%elem_of_map_to_list. simpl.
  apply lookup_delete_Some in Hk. naive_solver.
Qed.

Lemma candidates_nodup cs p : NoDup (RN_Storage <$> secondaryCandidates cs p).
Proof.
  unfold secondaryCandidates. rewrite <- list_fmap_compose.
  assert (Hnd : NoDup ((range cs).*1)) by apply range_nodup.
  induction (range cs) as [|[k v] l IH]; [constructor|]. rewrite fmap_cons, NoDup_cons in Hnd.
  destruct Hnd as [Hk Hnd]. rewrite filter_cons. case_decide; [|auto]. rewrite fmap_cons. constructor; [|auto].
  intros (kv & Heq & Hkv)%list_elem_of_fmap. apply list_elem_of_filter in Hkv as [_ Hkv]. apply Hk.
  simpl in *. subst k. by apply (list_elem_of_fmap_2 fst).
Qed.

(** The secondaries of a new repository: distinct configured storages other
    than the primary, as many as the replication factor asks for. *)
Lemma chooseSecondaries cs p c factor :
  cs !! p = Some c -> factor <= Z.of_nat (size cs) ->
  exists l, (if 0 <? factor
             then slice_to (append_cap (services r) (length (secondaryCandidates cs p))) (factor - 1)
                    (Shuffle (services r) (secondaryCandidates cs p))
             else Ok (secondaryCandidates cs p)) = Ok l /\
    NoDup (p :: (RN_Storage <$> l)) /\
    (forall n, n ∈ l -> exists c', RN_Connection n = Some c' /\ cs !! RN_Storage n = Some c') /\
    Z.of_nat (length l) + 1 = if 0 <? factor then factor else Z.of_nat (size cs).
Proof using RL.
  intros Hp Hf.
  pose proof (secondaryCandidates_spec cs p c Hp) as Hperm.
  assert (Hlen : S (length (secondaryCandidates cs p)) = size cs).
  { apply Permutation_length in Hperm. simpl in Hperm. rewrite Hperm, length_fmap.
    by rewrite length_map_to_list. }
  assert (Hmem : forall n, n ∈ secondaryCandidates cs p ->
    RN_Storage n ≠ p /\ exists c', RN_Connection n = Some c' /\ cs !! RN_Storage n = Some c').
  { intros n ([k v] & -> & Hn)%list_elem_of_fmap. apply list_elem_of_filter in Hn as [Hk Hn]. simpl in *.
    split; [done|]. exists v. split; [done|]. by apply range_elem. }
  assert (Hsub : forall l, (RN_Storage <$> l) ⊆+ (RN_Storage <$> secondaryCandidates cs p) ->
    (forall n, n ∈ l -> n ∈ secondaryCandidates cs p) ->
    NoDup (p :: (RN_Storage <$> l)) /\
    (forall n, n ∈ l -> exists c', RN_Connection n = Some c' /\ cs !! RN_Storage n = Some c')).
  { intros l Hl Hin. split.
    - constructor; [|eapply NoDup_submset; [done|apply candidates_nodup]].
      intros (n & Heq & Hn)%list_elem_of_fmap. by destruct (Hmem n (Hin n Hn)) as [[] _].
    - intros n Hn. by apply Hmem, Hin. }
  destruct (Z.ltb_spec 0 factor) as [Hpos|Hneg].
  - unfold slice_to. pose proof (append_cap_ge (length (secondaryCandidates cs p))).
    destruct (Z.ltb_spec (factor - 1) 0); [lia|].
    destruct (Z.ltb_spec (Z.of_nat (append_cap (services r) (length (secondaryCandidates cs p)))) (factor - 1)); [lia|].
    simpl. pose proof (Permutation_length (Shuffle_perm (secondaryCandidates cs p))) as Hsl.
    replace (Z.to_nat (factor - 1) - length (Shuffle (services r) (secondaryCandidates cs p)))%nat
      with 0%nat by (rewrite Hsl; lia).
    rewrite app_nil_r. eexists. split; [done|].
    assert (Htake : forall n, n ∈ take (Z.to_nat (factor - 1)) (Shuffle (services r) (secondaryCandidates cs p)) ->
      n ∈ secondaryCandidates cs p).
    { intros n Hn. rewrite <- (Shuffle_perm (sv := services r)).
      by eapply elem_of_submseteq, submseteq_take. }
    destruct (Hsub (take (Z.to_nat (factor - 1)) (Shuffle (services r) (secondaryCandidates cs p)))) as [? ?].
    + rewrite <- (Shuffle_perm (sv := services r) (secondaryCandidates cs p)) at 2.
      apply fmap_submseteq, submseteq_take.
    + done.
    + split_and!; [done..|]. rewrite length_take, Hsl. lia.
  - eexists. split; [done|]. destruct (Hsub (secondaryCandidates cs p)) as [? ?]; [done..|].
    split_and!; [done..|]. lia.
Qed.

(** Routing the creation of a repository in a validated configuration never
    panics once a healthy node is found and an ID reserved: the primary is a
    healthy node; all storages reached are distinct configured ones, as many as
    the replication factor says, or all when it is not set; the healthy ones take
    part directly and the others are replicated to. *)
Theorem creation_route_replicas c vs path cs healthy id :
  Validate c = Ok tt -> vs ∈ VirtualStorages c ->
  defaultReplicationFactors r = DefaultReplicationFactors c ->
  conns r !! VS_Name vs = Some cs -> dom cs = list_to_set (Node_Storage <$> VS_Nodes vs) ->
  healthyNodes r (VS_Name vs) = Ok healthy ->
  ReserveRepositoryID (services r) (VS_Name vs) path = Ok id ->
  exists route, PR_RouteRepositoryCreation r (VS_Name vs) path = Ok route /\
    RepositoryID route = id /\ Primary route ∈ healthy /\
    (forall n, n ∈ Secondaries route -> n ∈ healthy) /\
    (forall s, s ∈ ReplicationTargets route -> s ∉ RN_Storage <$> healthy) /\
    NoDup (reached route) /\
    (forall s, s ∈ reached route -> s ∈ Node_Storage <$> VS_Nodes vs) /\
    Z.of_nat (length (reached route)) =
      (if 0 <? DefaultReplicationFactor vs then DefaultReplicationFactor vs
       else Z.of_nat (length (VS_Nodes vs))).
Proof using RL.
  intros Hval%Validate_spec Hvs Hf Hcs Hdom Hh Hid.
  destruct (vc_vs c Hval vs Hvs) as [_ _ Hnd _ Hfactor].
  assert (Hsize : size cs = length (VS_Nodes vs)).
  { rewrite <- size_dom, Hdom, size_list_to_set by done. by rewrite length_fmap. }
  destruct (healthyNodes_ok r _ healthy Hh) as (Hne & cs' & Hcs' & _ & Hconn).
  assert (cs' = cs) as -> by congruence.
  destruct (pickRandom_ok healthy Hne) as (p & Hp & Hpin).
  unfold PR_RouteRepositoryCreation. rewrite Hh. simpl. rewrite Hp, Hid. simpl.
  rewrite Hf, (DefaultReplicationFactors_lookup c vs (vc_names c Hval) Hvs), Hcs. simpl.
  destruct (Hconn p Hpin) as (cp & _ & Hcp).
  destruct (chooseSecondaries cs (RN_Storage p) cp (DefaultReplicationFactor vs) Hcp) as (l & Hl & Hndl & Hinl & Hlen).
  { rewrite Hsize. done. }
  assert (Hmem : forall s, s ∈ dom cs -> s ∈ Node_Storage <$> VS_Nodes vs).
  { intros s. rewrite Hdom. apply elem_of_list_to_set. }
  destruct (Z.eqb_spec (DefaultReplicationFactor vs) 1) as [H1|H1].
  { eexists. split; [done|]. simpl. split_and!; try done.
    - intros n Hn. by apply elem_of_nil in Hn.
    - intros n Hn. by apply elem_of_nil in Hn.
    - apply NoDup_singleton.
    - intros s ->%list_elem_of_singleton. apply Hmem. apply elem_of_dom. eauto.
    - rewrite H1. done. }
  rewrite Hl. simpl. eexists. split; [done|]. unfold reached. simpl.
  assert (Hperm : (RN_Storage <$> filter (fun n => n ∈ healthy) l) ++
    (RN_Storage <$> filter (fun n => n ∉ healthy) l) ≡ₚ RN_Storage <$> l).
  { rewrite <- fmap_app. apply fmap_Permutation, filter_app_complement. }
  split_and!; try done.
  - intros n Hn. by apply list_elem_of_filter in Hn as [? _].
  - intros s (n & -> & Hn)%list_elem_of_fmap (n' & Heq & Hn')%list_elem_of_fmap.
    apply list_elem_of_filter in Hn as [Hnh Hn]. destruct (Hinl n Hn) as (c1 & Hc1 & Hl1).
    destruct (Hconn n' Hn') as (c2 & Hc2 & Hl2). apply Hnh.
    replace n with n'; [done|]. destruct n, n'. simpl in *. congruence.
  - by rewrite Hperm.
  - intros s. rewrite Hperm. intros [->|(n & -> & Hn)%list_elem_of_fmap]%elem_of_cons; apply Hmem, elem_of_dom; [eauto|].
    destruct (Hinl n Hn) as (? & _ & ?). eauto.
  - rewrite Hperm. simpl. rewrite length_fmap. rewrite Hsize in Hlen. lia.
Qed.

End CreationProofs.

(** An accessor is served by a healthy node: the repository's primary if asked
    for, otherwise one with the latest generation; and it is served whenever
    there is such a node. *)
Theorem accessor_route_sound r vs path (force : bool) healthy primary consistent :
  RandomLaws (services r) ->
  healthyNodes r vs = Ok healthy ->
  GetPrimary (services r) vs path = Ok primary ->
  GetConsistentStorages (services r) vs path = Ok consistent ->
  let fit (n : RouterNode) : Prop := if force then RN_Storage n = primary else RN_Storage n ∈ consistent in
  (exists n, PR_RouteRepositoryAccessor r vs path force = Ok n /\ n ∈ healthy /\ fit n) \/
  (forall n, n ∈ healthy -> ~ fit n) /\
  PR_RouteRepositoryAccessor r vs path force = Err (if force then ErrPrimaryNotHealthy else ErrNoSuitableNode).
Proof.
  intros RL Hh Hp Hc. unfold PR_RouteRepositoryAccessor. rewrite Hh, Hp, Hc. simpl.
  destruct force; simpl.
  - destruct (list_find _ healthy) as [[i n]|] eqn:Hf.
    + apply list_find_Some in Hf as (Hi & Hn & _). left. exists n. split_and!; [done| |done].
      by eapply list_elem_of_lookup_2.
    + apply list_find_None in Hf. right. split; [|done]. intros n Hn. rewrite Forall_forall in Hf. by apply Hf.
  - destruct (decide (filter (fun n => RN_Storage n ∈ consistent) healthy = [])) as [He|Hne].
    + right. split.
      * intros n Hn Hfit. eapply (filter_nil_not_elem_of (fun n => RN_Storage n ∈ consistent)); eauto.
      * unfold pickRandom. rewrite decide_True by done. done.
    + left. destruct (pickRandom_ok r _ Hne) as (n & Hn & Hin). exists n.
      apply list_elem_of_filter in Hin as [? ?]. done.
Qed.

(** ** The router of the node manager *)

Lemma nm_mutator_route_sound r vs path shard route :
  NM_RouteRepositoryMutator r vs path = Ok route -> GetShard r vs = Ok shard ->
  Primary route = toRouterNode (Shard_Primary shard) /\
  exists consistent : gset string, GetStorage (Shard_Primary shard) ∈ consistent /\
    reached route ≡ₚ GetStorage <$> Shard_Primary shard :: Shard_Secondaries shard /\
    (forall n, n ∈ Secondaries route -> exists m, m ∈ Shard_Secondaries shard /\ n = toRouterNode m /\
      GetStorage m ∈ consistent /\ IsHealthy m = true).
Proof.
  unfold NM_RouteRepositoryMutator. intros H Hs. rewrite Hs in H. simpl in H.
  destruct (match rs_GetConsistentStorages r vs path with Ok s => Ok s | _ => _ end) as [cons| |]; simpl in H; try done.
  revert H. set (consistent := if decide (cons = ∅) then _ else cons). case_decide as Hc; [done|].
  intros [= <-]. split; [done|]. exists consistent. split_and!.
  - by destruct (decide (GetStorage (Shard_Primary shard) ∈ consistent)).
  - unfold reached. simpl. f_equiv. unfold toRouterNodes. rewrite <- list_fmap_compose.
    change (RN_Storage ∘ toRouterNode) with GetStorage. rewrite <- fmap_app. apply fmap_Permutation.
    erewrite (filter_ext_in (fun n : MNode => _ = false)); [apply filter_app_complement|].
    intros n _. simpl. by rewrite not_true_iff_false.
  - intros n (m & -> & Hm)%list_elem_of_fmap. apply list_elem_of_filter in Hm as [Ht Hm]. exists m.
    apply andb_true_iff in Ht as [Hb ?]. by apply bool_decide_eq_true in Hb.
Qed.

(** ** Examples *)

Section Examples.
#[local] Instance ex_range : MapRange string nat := default_range string nat.

Definition ex_services : RouterServices := {|
  HealthyNodes := {["default" := ["gitaly-1"; "gitaly-3"]]};
  GetPrimary _ _ := Ok "gitaly-1";
  GetConsistentStorages _ _ := Ok {["gitaly-1"; "gitaly-2"; "gitaly-3"]};
  GetHostAssignments _ _ := Ok ["gitaly-1"; "gitaly-2"; "gitaly-3"];
  GetRepositoryID _ _ := Ok 1;
  ReserveRepositoryID _ _ := Ok 1;
  Intn _ := 0;
  Shuffle := reverse;
  append_cap n := n;
|}.

Definition ex_vs : VirtualStorageConf := mkVS "default"
  [mkNode "gitaly-1" "tcp://1" ""; mkNode "gitaly-2" "tcp://2" ""; mkNode "gitaly-3" "tcp://3" ""] 2.

Definition ex_config : Config := mkConfig 10 "localhost:1" "" "" [ex_vs]
  (mkFailover true "per_repository" 0 0 0 1 1) false 0 false.

Definition ex_conns : gmap string nat :=
  list_to_map [("gitaly-1", 1%nat); ("gitaly-2", 2%nat); ("gitaly-3", 3%nat)].

Definition ex_router : PerRepositoryRouter :=
  mkRouter {["default" := ex_conns]} ex_services (DefaultReplicationFactors ex_config).

#[local] Instance ex_laws : RandomLaws ex_services.
Proof. split; simpl; [lia|apply reverse_Permutation|lia]. Qed.

Definition ex_route : RepositoryMutatorRoute :=
  mkRoute 1 (mkRN "gitaly-1" (Some 1%nat)) [mkRN "gitaly-3" (Some 3%nat)] ["gitaly-2"].

Lemma mutator_route_sound_witness :
  PR_RouteRepositoryMutator ex_router "default" "a" = Ok ex_route /\
  exists assigned, reached ex_route ≡ₚ assigned.
Proof.
  assert (H : PR_RouteRepositoryMutator ex_router "default" "a" = Ok ex_route) by (by vm_compute).
  split; [exact H|].
  destruct (mutator_route_sound _ _ _ _ H) as (p & c & a & _ & _ & _ & _ & Hs).
  { intros assigned [= <-]. apply (bool_decide_unpack _). by vm_compute. }
  exists a. apply Hs.
Defined.

Lemma creation_route_replicas_witness :
  exists route, PR_RouteRepositoryCreation ex_router "default" "a" = Ok route /\
    length (reached route) = 2%nat.
Proof.
  assert (H1 : Validate ex_config = Ok tt) by (by vm_compute).
  assert (H2 : ex_vs ∈ VirtualStorages ex_config) by (by left).
  assert (H3 : healthyNodes ex_router "default" =
    Ok [mkRN "gitaly-1" (Some 1%nat); mkRN "gitaly-3" (Some 3%nat)]) by (by vm_compute).
  destruct (creation_route_replicas ex_router ex_config ex_vs "a" ex_conns
    [mkRN "gitaly-1" (Some 1%nat); mkRN "gitaly-3" (Some 3%nat)] 1 H1 H2 eq_refl)
    as (route & Hr & _ & _ & _ & _ & _ & _ & Hlen); [done| |exact H3|done|].
  { apply (bool_decide_unpack _). by vm_compute. }
  exists route. split; [exact Hr|]. apply Nat2Z.inj. rewrite Hlen. done.
Defined.

Lemma accessor_route_sound_witness :
  exists n, PR_RouteRepositoryAccessor ex_router "default" "a" false = Ok n.
Proof.
  assert (H3 : healthyNodes ex_router "default" =
    Ok [mkRN "gitaly-1" (Some 1%nat); mkRN "gitaly-3" (Some 3%nat)]) by (by vm_compute).
  destruct (accessor_route_sound ex_router "default" "a" false _ "gitaly-1"
    {["gitaly-1"; "gitaly-2"; "gitaly-3"]} ex_laws H3 eq_refl eq_refl) as [(n & Hn & _)|[Hno _]].
  - exists n. exact Hn.
  - destruct (Hno (mkRN "gitaly-1" (Some 1%nat))); [by left|simpl; set_solver].
Defined.

End Examples.
