(* ===== verification/Methods.v ===== *)
(** Tables and per-method decisions of the coordinator
    (src/internal/praefect/coordinator.go): which RPCs are transactional, which
    must be served by the primary, and which replication job a mutator causes.

    A [proto.Message] is modelled by its request type with the fields Praefect
    reads, its target repository, its additional repository if its type has one,
    and its storage name if the RPC is scoped to a storage. *)

From S2P Require Import Prelude Datastore Router.

Inductive OpType : Type := OpUnknown | OpAccessor | OpMutator.
Inductive Scope : Type := ScopeUnknown | ScopeRepository | ScopeStorage.

Record MethodInfo : Type := mkMI {
  Operation : OpType;
  MScope : Scope;
}.

Record Repository : Type := mkRepo {
  StorageName : string;
  RepoRelativePath : string;
}.

Inductive request : Type :=
| RenameRepositoryRequest (relativePath : string)
| GarbageCollectRequest (createBitmap prune : bool)
| RepackFullRequest (createBitmap : bool)
| RepackIncrementalRequest
| CleanupRequest
| WriteCommitGraphRequest (splitStrategy : Z)
| MidxRepackRequest
| OptimizeRepositoryRequest
| PackRefsRequest (allRefs : bool)
| OtherRequest.

(** [msgAdditional] is [None] when the method has no additional repository and
    [Some None] when the message leaves it out. *)
Record message : Type := mkMsg {
  body : request;
  msgTarget : option Repository;
  msgAdditional : option (option Repository);
  msgStorage : option string;
}.

Definition transactionsEnabled : bool := true.
Definition transactionsDisabled : bool := false.

Definition transactionRPCs : list (string * bool) := [
  ("/gitaly.CleanupService/ApplyBfgObjectMapStream", transactionsEnabled);
  ("/gitaly.ConflictsService/ResolveConflicts", transactionsEnabled);
  ("/gitaly.ObjectPoolService/FetchIntoObjectPool", transactionsEnabled);
  ("/gitaly.OperationService/UserApplyPatch", transactionsEnabled);
  ("/gitaly.OperationService/UserCherryPick", transactionsEnabled);
  ("/gitaly.OperationService/UserCommitFiles", transactionsEnabled);
  ("/gitaly.OperationService/UserCreateBranch", transactionsEnabled);
  ("/gitaly.OperationService/UserCreateTag", transactionsEnabled);
  ("/gitaly.OperationService/UserDeleteBranch", transactionsEnabled);
  ("/gitaly.OperationService/UserDeleteTag", transactionsEnabled);
  ("/gitaly.OperationService/UserFFBranch", transactionsEnabled);
  ("/gitaly.OperationService/UserMergeBranch", transactionsEnabled);
  ("/gitaly.OperationService/UserMergeToRef", transactionsEnabled);
  ("/gitaly.OperationService/UserRebaseConfirmable", transactionsEnabled);
  ("/gitaly.OperationService/UserRevert", transactionsEnabled);
  ("/gitaly.OperationService/UserSquash", transactionsEnabled);
  ("/gitaly.OperationService/UserUpdateBranch", transactionsEnabled);
  ("/gitaly.OperationService/UserUpdateSubmodule", transactionsEnabled);
  ("/gitaly.RefService/DeleteRefs", transactionsEnabled);
  ("/gitaly.RemoteService/FetchInternalRemote", transactionsEnabled);
  ("/gitaly.RepositoryService/ApplyGitattributes", transactionsEnabled);
  ("/gitaly.RepositoryService/CloneFromPool", transactionsEnabled);
  ("/gitaly.RepositoryService/CloneFromPoolInternal", transactionsEnabled);
  ("/gitaly.RepositoryService/CreateFork", transactionsEnabled);
  ("/gitaly.RepositoryService/CreateRepository", transactionsEnabled);
  ("/gitaly.RepositoryService/CreateRepositoryFromBundle", transactionsEnabled);
  ("/gitaly.RepositoryService/CreateRepositoryFromSnapshot", transactionsEnabled);
  ("/gitaly.RepositoryService/CreateRepositoryFromURL", transactionsEnabled);
  ("/gitaly.RepositoryService/DeleteConfig", transactionsEnabled);
  ("/gitaly.RepositoryService/FetchRemote", transactionsEnabled);
  ("/gitaly.RepositoryService/FetchSourceBranch", transactionsEnabled);
  ("/gitaly.RepositoryService/RemoveRepository", transactionsEnabled);
  ("/gitaly.RepositoryService/ReplicateRepository", transactionsEnabled);
  ("/gitaly.RepositoryService/SetConfig", transactionsEnabled);
  ("/gitaly.RepositoryService/SetFullPath", transactionsEnabled);
  ("/gitaly.RepositoryService/WriteRef", transactionsEnabled);
  ("/gitaly.SSHService/SSHReceivePack", transactionsEnabled);
  ("/gitaly.SmartHTTPService/PostReceivePack", transactionsEnabled);
  ("/gitaly.WikiService/WikiUpdatePage", transactionsEnabled);
  ("/gitaly.WikiService/WikiWritePage", transactionsEnabled);
  ("/gitaly.ObjectPoolService/CreateObjectPool", transactionsDisabled);
  ("/gitaly.ObjectPoolService/DeleteObjectPool", transactionsDisabled);
  ("/gitaly.ObjectPoolService/DisconnectGitAlternates", transactionsDisabled);
  ("/gitaly.ObjectPoolService/LinkRepositoryToObjectPool", transactionsDisabled);
  ("/gitaly.ObjectPoolService/ReduplicateRepository", transactionsDisabled);
  ("/gitaly.ObjectPoolService/UnlinkRepositoryFromObjectPool", transactionsDisabled);
  ("/gitaly.RepositoryService/RenameRepository", transactionsDisabled);
  ("/gitaly.RefService/PackRefs", transactionsDisabled);
  ("/gitaly.RepositoryService/Cleanup", transactionsDisabled);
  ("/gitaly.RepositoryService/GarbageCollect", transactionsDisabled);
  ("/gitaly.RepositoryService/MidxRepack", transactionsDisabled);
  ("/gitaly.RepositoryService/OptimizeRepository", transactionsDisabled);
  ("/gitaly.RepositoryService/RepackFull", transactionsDisabled);
  ("/gitaly.RepositoryService/RepackIncremental", transactionsDisabled);
  ("/gitaly.RepositoryService/RestoreCustomHooks", transactionsDisabled);
  ("/gitaly.RepositoryService/WriteCommitGraph", transactionsDisabled);
  ("/gitaly.RefTransaction/StopTransaction", transactionsDisabled);
  ("/gitaly.RefTransaction/VoteTransaction", transactionsDisabled)].

Definition forcePrimaryRPCs : list string := [
  "/gitaly.RepositoryService/GetObjectDirectorySize";
  "/gitaly.RepositoryService/RepositorySize"].

(** The checks of the package's [init] against the registered methods:
    [true] when the process starts, [false] when it panics. *)
Definition initChecks (methods : list (string * MethodInfo)) : bool :=
  forallb (fun m =>
    match Operation m.2, MScope m.2 with
    | OpMutator, ScopeRepository => bool_decide (m.1 ∈ transactionRPCs.*1)
    | _, _ => true
    end) methods &&
  forallb (fun rpc =>
    match list_find (fun m => m.1 = rpc) methods with
    | Some (_, (_, mi)) =>
      match Operation mi, MScope mi with OpMutator, ScopeRepository => true | _, _ => false end
    | None => false
    end) transactionRPCs.*1.

Definition shouldUseTransaction (method : string) : bool :=
  match list_find (fun e => e.1 = method) transactionRPCs with
  | None => false
  | Some (_, (_, condition)) => condition
  end.

Definition ErrProtocolChanged (method : string) : PErr :=
  External ("protocol changed: for method " +:+ method).

(** Type of job and its parameters for a method and its request. *)
Definition getReplicationDetails (methodName : string) (m : request)
    : out PErr (ChangeType * option Params) :=
  let changed := Err (ErrProtocolChanged methodName) in
  if decide (methodName = "/gitaly.RepositoryService/RemoveRepository") then Ok (DeleteRepo, None)
  else if decide (methodName ∈ [
      "/gitaly.RepositoryService/CreateFork";
      "/gitaly.RepositoryService/CreateRepository";
      "/gitaly.RepositoryService/CreateRepositoryFromBundle";
      "/gitaly.RepositoryService/CreateRepositoryFromSnapshot";
      "/gitaly.RepositoryService/CreateRepositoryFromURL";
      "/gitaly.RepositoryService/ReplicateRepository"]) then Ok (CreateRepo, None)
  else if decide (methodName = "/gitaly.RepositoryService/RenameRepository") then
    match m with
    | RenameRepositoryRequest path => Ok (RenameRepo, Some {["RelativePath" := PString path]})
    | _ => changed
    end
  else if decide (methodName = "/gitaly.RepositoryService/GarbageCollect") then
    match m with
    | GarbageCollectRequest createBitmap prune =>
      Ok (GarbageCollect, Some (<["CreateBitmap" := PBool createBitmap]> {["Prune" := PBool prune]}))
    | _ => changed
    end
  else if decide (methodName = "/gitaly.RepositoryService/RepackFull") then
    match m with
    | RepackFullRequest createBitmap => Ok (RepackFull, Some {["CreateBitmap" := PBool createBitmap]})
    | _ => changed
    end
  else if decide (methodName = "/gitaly.RepositoryService/RepackIncremental") then
    match m with RepackIncrementalRequest => Ok (RepackIncremental, None) | _ => changed end
  else if decide (methodName = "/gitaly.RepositoryService/Cleanup") then
    match m with CleanupRequest => Ok (Cleanup, None) | _ => changed end
  else if decide (methodName = "/gitaly.RepositoryService/WriteCommitGraph") then
    match m with
    | WriteCommitGraphRequest strategy => Ok (WriteCommitGraph, Some {["SplitStrategy" := PEnum strategy]})
    | _ => changed
    end
  else if decide (methodName = "/gitaly.RepositoryService/MidxRepack") then
    match m with MidxRepackRequest => Ok (MidxRepack, None) | _ => changed end
  else if decide (methodName = "/gitaly.RepositoryService/OptimizeRepository") then
    match m with OptimizeRepositoryRequest => Ok (OptimizeRepository, None) | _ => changed end
  else if decide (methodName = "/gitaly.RefService/PackRefs") then
    match m with
    | PackRefsRequest allRefs => Ok (PackRefs, Some {["AllRefs" := PBool allRefs]})
    | _ => changed
    end
  else Ok (UpdateRepo, None).

Definition routeRepositoryAccessorPolicyPrimaryOnly : string := "primary-only".

(** [header]: the values of the routing policy header, [None] without metadata. *)
Definition shouldRouteRepositoryAccessorToPrimary (header : option (list string)) (method : string) : bool :=
  let forcePrimary := bool_decide (method ∈ forcePrimaryRPCs) in
  match header with
  | None => forcePrimary
  | Some [] => forcePrimary
  | Some (h :: _) =>
    if decide (h = routeRepositoryAccessorPolicyPrimaryOnly) then true else forcePrimary
  end.

(** ** Consistency of the tables *)

Lemma transactionRPCs_nodup : NoDup transactionRPCs.*1.
Proof. apply (bool_decide_unpack _). by vm_compute. Qed.

Lemma renameDetails method m params :
  getReplicationDetails method m = Ok (RenameRepo, params) ->
  exists path, params = Some {["RelativePath" := PString path]}.
Proof.
  unfold getReplicationDetails. intros H.
  repeat (case_decide; [destruct m; simplify_eq; eauto|]). done.
Qed.

Lemma shouldUseTransaction_elem method :
  shouldUseTransaction method = true -> (method, true) ∈ transactionRPCs.
Proof.
  unfold shouldUseTransaction. destruct (list_find _ _) as [[i [k c]]|] eqn:Hf; [|done]. intros ->.
  apply list_find_Some in Hf as (Hi & Hk & _). simpl in Hk. subst k. by eapply list_elem_of_lookup_2.
Qed.

(** A transactional RPC creates, updates or deletes a repository: it never
    causes one of the jobs that only optimise it, and its job has no parameters. *)
Lemma transactional_details method m change params :
  shouldUseTransaction method = true -> getReplicationDetails method m = Ok (change, params) ->
  (change = UpdateRepo \/ change = CreateRepo \/ change = DeleteRepo) /\ params = None.
Proof.
  intros Hin%shouldUseTransaction_elem H.
  assert (Hall : Forall (fun e => e.2 = true ->
    (exists c, getReplicationDetails e.1 OtherRequest = Ok (c, None) /\
      forall m, getReplicationDetails e.1 m = Ok (c, None) /\
      (c = UpdateRepo \/ c = CreateRepo \/ c = DeleteRepo))) transactionRPCs).
  { repeat (apply Forall_cons; split; [first
      [intros Hb; by vm_compute in Hb
      |intros _; eexists; split; [done|]; intros ?; split; [done|by auto]]|]). by apply Forall_nil. }
  rewrite Forall_forall in Hall. destruct (Hall _ Hin eq_refl) as (c & _ & Hc).
  destruct (Hc m) as [Hm Hor]. simpl in Hm. rewrite Hm in H. by simplify_eq.
Qed.
