(* ===== verification/Sql.v ===== *)
(** The part of PostgreSQL the statements of praefect's datastore use.

    A table is a finite map from its primary key to its other columns. [UPDATE]
    and [DELETE] with a condition are [updateWhere] and [deleteWhere], [COUNT] is
    [countWhere]. The order of rows that [ORDER BY] leaves open is an instance of
    [RowOrder]. [LIKE] is defined on the bytes of UTF-8 text. *)

From stdpp Require Import sorting.
From Stdlib Require Import Strings.Ascii.
From S2P Require Import Prelude.

(** ** Statements *)

Section Tables.
Context `{Countable K} {V : Type}.
Implicit Types (m : gmap K V) (P : K * V -> Prop).

Definition updateWhere P `{!forall kv, Decision (P kv)} (f : V -> V) m : gmap K V :=
  map_imap (fun k v => Some (if decide (P (k, v)) then f v else v)) m.

Definition selectWhere P `{!forall kv, Decision (P kv)} m : gmap K V :=
  filter P m.

Definition deleteWhere P `{!forall kv, Decision (P kv)} m : gmap K V :=
  filter (fun kv => ~ P kv) m.

Definition countWhere P `{!forall kv, Decision (P kv)} m : nat := size (selectWhere P m).

Context P `{!forall kv, Decision (P kv)}.

Lemma lookup_updateWhere f m k :
  updateWhere P f m !! k = (fun v => if decide (P (k, v)) then f v else v) <$> m !! k.
Proof. unfold updateWhere. rewrite map_lookup_imap. by destruct (m !! k). Qed.

Lemma lookup_updateWhere_Some f m k w :
  updateWhere P f m !! k = Some w <->
  exists v, m !! k = Some v /\ ((P (k, v) /\ w = f v) \/ (~ P (k, v) /\ w = v)).
Proof.
  rewrite lookup_updateWhere. destruct (m !! k) as [v|]; simpl; [|naive_solver].
  case_decide; naive_solver.
Qed.

Lemma dom_updateWhere f m : dom (updateWhere P f m) = dom m.
Proof.
  apply set_eq. intros k. rewrite !elem_of_dom, lookup_updateWhere. by rewrite fmap_is_Some.
Qed.

Lemma lookup_selectWhere_Some m k v : selectWhere P m !! k = Some v <-> m !! k = Some v /\ P (k, v).
Proof. apply map_lookup_filter_Some. Qed.

Lemma lookup_deleteWhere_Some m k v : deleteWhere P m !! k = Some v <-> m !! k = Some v /\ ~ P (k, v).
Proof. unfold deleteWhere. by rewrite map_lookup_filter_Some. Qed.

Lemma countWhere_zero m : countWhere P m = O <-> forall k v, m !! k = Some v -> ~ P (k, v).
Proof.
  unfold countWhere. rewrite map_size_empty_iff, map_empty. split.
  - intros Hnone k v Hk Hp. specialize (Hnone k). revert Hnone.
    by rewrite (proj2 (lookup_selectWhere_Some m k v)).
  - intros Hnone k. apply eq_None_not_Some. intros [v [Hk Hp]%lookup_selectWhere_Some]. by eapply Hnone.
Qed.

(** As many rows of a part as of the whole: the part is the whole. *)
Lemma countWhere_part (m' : gmap K V) m :
  m' ⊆ m -> countWhere P m' = countWhere P m <-> forall k v, m !! k = Some v -> P (k, v) -> m' !! k = Some v.
Proof.
  intros Hsub. unfold countWhere.
  assert (Hs : selectWhere P m' ⊆ selectWhere P m).
  { apply map_subseteq_spec. intros k v [Hk Hp]%lookup_selectWhere_Some. apply lookup_selectWhere_Some.
    split; [by eapply lookup_weaken|done]. }
  split.
  - intros Hsz k v Hk Hp.
    assert (Heq : selectWhere P m' = selectWhere P m) by (apply map_subseteq_size_eq; [done|lia]).
    assert (Hin : selectWhere P m !! k = Some v) by by apply lookup_selectWhere_Some.
    rewrite <- Heq in Hin. by apply lookup_selectWhere_Some in Hin as [? _].
  - intros Hall. f_equal. apply map_eq. intros k. apply option_eq. intros v.
    rewrite !lookup_selectWhere_Some. split; intros [? ?]; split; eauto using lookup_weaken.
Qed.
End Tables.

(** ** Row order

    [ORDER BY f] fixes the order of rows up to ties; an instance is one choice. *)
Class OrderBy {K V : Type} `{Countable K} (f : K -> V -> Z) := {
  order_by : gmap K V -> list (K * V);
  order_by_perm : forall m, order_by m ≡ₚ map_to_list m;
  order_by_sorted : forall m, StronglySorted (fun a b => f a.1 a.2 <= f b.1 b.2) (order_by m);
}.

Lemma StronglySorted_sublist {A} (R : relation A) (l l' : list A) :
  StronglySorted R l' -> l `sublist_of` l' -> StronglySorted R l.
Proof.
  intros Hs Hl. induction Hl as [|x l l' Hl IH|x l l' Hl IH].
  - constructor.
  - apply StronglySorted_inv in Hs as [Hs Hx]. constructor; [by apply IH|].
    rewrite Forall_forall in *. intros y Hy. apply Hx. by eapply elem_of_submseteq, sublist_submseteq.
  - apply IH. by apply StronglySorted_inv in Hs as [? _].
Qed.

Section OrderBy.
Context {K V : Type} `{Countable K} (f : K -> V -> Z).

Definition key_le (a b : K * V) : Prop := f a.1 a.2 <= f b.1 b.2.

#[export] Instance key_le_dec a b : Decision (key_le a b).
Proof. unfold key_le. apply _. Defined.

#[export] Instance key_le_total : Total key_le.
Proof. intros a b. unfold key_le. lia. Qed.

#[export] Instance key_le_trans : Transitive key_le.
Proof. intros a b c. unfold key_le. lia. Qed.

(** One concrete order. *)
Definition default_order : OrderBy f := {|
  order_by m := merge_sort key_le (map_to_list m);
  order_by_perm m := merge_sort_Permutation key_le _;
  order_by_sorted m := StronglySorted_merge_sort key_le _;
|}.

Context `{!OrderBy f}.

Lemma order_by_elem m k v : (k, v) ∈ order_by m <-> m !! k = Some v.
Proof. by rewrite order_by_perm, elem_of_map_to_list. Qed.

Lemma order_by_nodup m : NoDup (order_by m).*1.
Proof. rewrite order_by_perm. apply NoDup_fst_map_to_list. Qed.
End OrderBy.

(** ** [LIKE]

    A percent sign stands for any sequence of characters, an underscore for one
    character, a backslash takes the next character literally. *)

(** A continuation byte of a UTF-8 sequence. *)
Definition continuation (c : ascii) : bool :=
  match c with Ascii _ _ _ _ _ _ false true => true | _ => false end.

Fixpoint dropContinuation (s : list ascii) : list ascii :=
  match s with
  | c :: s' => if continuation c then dropContinuation s' else s
  | [] => []
  end.

(** The suffixes of [s] that start at a character. *)
Fixpoint charSuffixes (s : list ascii) : list (list ascii) :=
  s :: match s with
       | [] => []
       | _ :: s' => filter (fun t => default false (continuation <$> head t) = false) (charSuffixes s')
       end.

Definition wildcard (c : ascii) : Prop := c = "%"%char \/ c = "_"%char \/ c = "\"%char.

#[export] Instance wildcard_dec c : Decision (wildcard c).
Proof. unfold wildcard. apply _. Defined.

Fixpoint like (p s : list ascii) : bool :=
  match p with
  | [] => bool_decide (s = [])
  | c :: p' =>
    if decide (c = "%"%char) then existsb (like p') (charSuffixes s)
    else if decide (c = "_"%char) then
      match s with [] => false | _ :: s' => like p' (dropContinuation s') end
    else if decide (c = "\"%char) then
      match p', s with
      | c' :: p'', x :: s' => bool_decide (x = c') && like p'' s'
      | _, _ => false
      end
    else match s with [] => false | x :: s' => bool_decide (x = c) && like p' s' end
  end.

(** The last suffix is the empty one. *)
Lemma charSuffixes_nil s : [] ∈ charSuffixes s.
Proof.
  induction s as [|c s IH]; simpl; [by left|right]. by apply list_elem_of_filter.
Qed.

(** A pattern without wildcards before its final percent sign is a prefix test. *)
Lemma like_prefix p s :
  Forall (fun c => ~ wildcard c) p -> like (p ++ text "%") s = true <-> exists t, s = p ++ t.
Proof.
  intros Hp. revert s. induction Hp as [|c p Hc _ IH]; intros s; simpl.
  - split; [intros _; by exists s|intros _]. apply existsb_exists. exists []. split; [|done].
    apply list_elem_of_In, charSuffixes_nil.
  - unfold wildcard in Hc. rewrite !decide_False by tauto. destruct s as [|x s].
    + split; [done|]. by intros [t ?].
    + rewrite andb_true_iff, bool_decide_eq_true, IH. split.
      * intros [-> [t ->]]. by exists t.
      * intros [t [= -> ->]]. eauto.
Qed.
