(* ===== verification/PgQueue.v ===== *)
(** The replication event queue in PostgreSQL
    (src/internal/praefect/datastore/queue.go, with the tables of
    src/internal/praefect/datastore/migrations).

    The state is the three tables of the queue. A statement is one atomic
    transition; [now] is its [NOW()]. Rows another statement holds locked are
    passed over by [SKIP LOCKED]: they are the argument [skipped]. The strings of
    events come from protobuf messages and are valid UTF-8. In [Acknowledge] two
    sub-statements hit the same row; the deletion, which the next sub-statement
    reads first, takes place. *)

From stdpp Require Import sorting.
From Stdlib Require Import Strings.Ascii.
From S2P Require Import Prelude Datastore Sql.

(** ** Tables *)

Record QueueRow : Type := mkRow {
  q_state : JobState;
  q_created_at : Z;
  q_updated_at : option Z;
  q_attempt : Z;
  q_lock_id : string;
  q_job : ReplicationJob;
  q_meta : option Params;
}.

Record QueueTables : Type := mkTables {
  replication_queue_lock : gmap string bool;
  replication_queue : gmap Z QueueRow;
  replication_queue_job_lock : gmap (Z * string) Z;
  replication_queue_id_seq : Z;
}.

Definition emptyTables : QueueTables := mkTables ∅ ∅ ∅ 0.

Abbreviation PQ := (M QueueTables QueueError).

(** A row as [scanReplicationEvents] reads it. *)
Definition rowEvent (id : Z) (r : QueueRow) : ReplicationEvent :=
  mkEvent (u64 id) (q_state r) (q_attempt r) (q_lock_id r) (q_created_at r) (q_updated_at r)
    (q_job r) (q_meta r).

(** Parameters after a trip through JSON: numbers have become float64. *)
Definition jsonValue (v : ParamValue) : ParamValue :=
  match v with PEnum n => PFloat n | v => v end.

Definition jsonParams (p : Params) : Params := jsonValue <$> p.

Definition jsonJob (j : ReplicationJob) : ReplicationJob :=
  mkJob (RepositoryID j) (Change j) (RelativePath j) (TargetNodeStorage j) (SourceNodeStorage j)
    (VirtualStorage j) (jsonParams <$> JobParams j).

(** Neither TEXT nor JSONB holds the character NUL. *)
Definition hasNUL (s : string) : Prop := "000"%char ∈ text s.

Definition jsonParamsOk (p : option Params) : Prop :=
  map_Forall (fun k v => ~ hasNUL k /\ match v with PString s => ~ hasNUL s | _ => True end) (default ∅ p).

Definition jobOk (j : ReplicationJob) : Prop :=
  ~ hasNUL (RelativePath j) /\ ~ hasNUL (TargetNodeStorage j) /\ ~ hasNUL (SourceNodeStorage j) /\
  ~ hasNUL (VirtualStorage j) /\ jsonParamsOk (JobParams j).

#[export] Instance hasNUL_dec s : Decision (hasNUL s).
Proof. unfold hasNUL. apply _. Defined.

#[export] Instance jsonParamsOk_dec p : Decision (jsonParamsOk p).
Proof. unfold jsonParamsOk. apply map_Forall_dec. intros k [| | |]; apply _. Defined.

#[export] Instance jobOk_dec j : Decision (jobOk j).
Proof. unfold jobOk. apply _. Defined.

Definition isActive (s : JobState) : Prop :=
  s ≠ JobStateCompleted /\ s ≠ JobStateCancelled /\ s ≠ JobStateDead.

#[export] Instance isActive_dec s : Decision (isActive s).
Proof. unfold isActive. apply _. Defined.

(** The rows in [delete_replica_unique_index] and their key. *)
Definition deletingReplica (vs path : string) (r : QueueRow) : Prop :=
  isActive (q_state r) /\ Change (q_job r) = DeleteReplica /\
  VirtualStorage (q_job r) = vs /\ RelativePath (q_job r) = path.

#[export] Instance deletingReplica_dec vs path r : Decision (deletingReplica vs path r).
Proof. unfold deletingReplica. apply _. Defined.

(** ** Operations *)

Definition lockName (vs target path : string) : string := vs +:+ "|" +:+ target +:+ "|" +:+ path.

(** The row a new event gets, with the defaults of its columns. *)
Definition newRow (now : Z) (lock : string) (job : ReplicationJob) (meta : option Params) : QueueRow :=
  mkRow JobStateReady now None 3 lock (jsonJob job) (jsonParams <$> meta).

Definition insertLock (l : string) (locks : gmap string bool) : gmap string bool :=
  <[l := default false (locks !! l)]> locks.

Definition bigintMax : Z := 2 ^ 63 - 1.

(** [INSERT INTO replication_queue]: the next value of the sequence, which stays
    consumed when a constraint refuses the row. *)
Definition insertRow (row : QueueRow) : PQ Z :=
  t ← get;
  let id := replication_queue_id_seq t + 1 in
  if decide (bigintMax < id) then fail (ErrQuery "nextval: reached maximum value of sequence")
  else
    _ ← put (mkTables (replication_queue_lock t) (replication_queue t) (replication_queue_job_lock t) id);
    if decide (is_Some (replication_queue t !! id)) then fail (ErrQuery "replication_queue_pkey")
    else if decide (deletingReplica (VirtualStorage (q_job row)) (RelativePath (q_job row)) row /\
        countWhere (fun kv => deletingReplica (VirtualStorage (q_job row)) (RelativePath (q_job row)) kv.2)
          (replication_queue t) ≠ O)
      then fail (ErrQuery "delete_replica_unique_index")
    else
      _ ← put (mkTables (insertLock (q_lock_id row) (replication_queue_lock t))
                 (<[id := row]> (replication_queue t)) (replication_queue_job_lock t) id);
      mret id.

Definition Enqueue (now : Z) (event : ReplicationEvent) : PQ ReplicationEvent :=
  let j := Job event in
  if decide (jobOk j /\ jsonParamsOk (Meta event)) then
    let row := newRow now (lockName (VirtualStorage j) (TargetNodeStorage j) (RelativePath j)) j (Meta event) in
    id ← insertRow row;
    mret (rowEvent id row)
  else fail (ErrQuery "unsupported Unicode escape sequence").

(** [FIRST_VALUE] and [LIMIT] each order the rows by their time of creation. *)
Abbreviation byCreation := (fun (_ : Z) (r : QueueRow) => q_created_at r).

Definition jobLocksOf (l : string) (t : QueueTables) : nat :=
  countWhere (fun kv => kv.1.2 = l) (replication_queue_job_lock t).

(** The sub-statement [lock]. *)
Definition lockable (vs ns : string) (skipped : gset string) (t : QueueTables) (l : string) : Prop :=
  replication_queue_lock t !! l = Some false /\ l ∉ skipped /\
  like (text (vs +:+ "|" +:+ ns +:+ "|%")) (text l) = true.

#[export] Instance lockable_dec vs ns skipped t l : Decision (lockable vs ns skipped t l).
Proof. unfold lockable. apply _. Defined.

(** The rows the window function runs over. *)
Definition eligible (vs ns : string) (skipped : gset string) (t : QueueTables) (r : QueueRow) : Prop :=
  lockable vs ns skipped t (q_lock_id r) /\
  (q_state r = JobStateReady \/ q_state r = JobStateFailed) /\ jobLocksOf (q_lock_id r) t = O.

#[export] Instance eligible_dec vs ns skipped t r : Decision (eligible vs ns skipped t r).
Proof. unfold eligible. apply _. Defined.

Definition samePartition (r r' : QueueRow) : Prop :=
  q_lock_id r' = q_lock_id r /\ Change (q_job r') = Change (q_job r).

#[export] Instance samePartition_dec r r' : Decision (samePartition r r').
Proof. unfold samePartition. apply _. Defined.

(** The row is the first one of its partition. *)
Definition isFirst (rows : list (Z * QueueRow)) (id : Z) (r : QueueRow) : Prop :=
  fst <$> head (filter (fun kv => samePartition r kv.2) rows) = Some id.

#[export] Instance isFirst_dec rows id r : Decision (isFirst rows id r).
Proof. unfold isFirst. apply _. Defined.

Definition startJob (now : Z) (r : QueueRow) : QueueRow :=
  mkRow JobStateInProgress (q_created_at r) (Some now)
    (if decide (Change (q_job r) = DeleteReplica) then q_attempt r else q_attempt r - 1)
    (q_lock_id r) (q_job r) (q_meta r).

Definition eventIdLe (e e' : ReplicationEvent) : Prop := ID e <= ID e'.

#[export] Instance eventIdLe_dec e e' : Decision (eventIdLe e e').
Proof. unfold eventIdLe. apply _. Defined.

Section Dequeue.
Context (window limit : OrderBy byCreation).

(** The sub-statement [candidate]. *)
Definition candidates (vs ns : string) (count : Z) (skipped : gset string) (t : QueueTables)
    : list (Z * QueueRow) :=
  let rows := selectWhere (fun kv => eligible vs ns skipped t kv.2) (replication_queue t) in
  let first := selectWhere (fun kv => isFirst (order_by (OrderBy := window) rows) kv.1 kv.2) rows in
  take (Z.to_nat count) (order_by (OrderBy := limit) first).

Definition Dequeue (now : Z) (skipped : gset string) (virtualStorage nodeStorage : string) (count : Z)
    : PQ (list ReplicationEvent) :=
  t ← get;
  if decide (count < 0) then fail (ErrQuery "LIMIT must not be negative")
  else
    let job := (fun kv => (kv.1, startJob now kv.2)) <$> candidates virtualStorage nodeStorage count skipped t in
    let tracked := (fun kv => q_lock_id kv.2) <$> job in
    _ ← put (mkTables
      (updateWhere (fun kv => kv.1 ∈ tracked) (fun _ => true) (replication_queue_lock t))
      (list_to_map job ∪ replication_queue t)
      (list_to_map ((fun kv => ((kv.1, q_lock_id kv.2), now)) <$> job) ∪ replication_queue_job_lock t)
      (replication_queue_id_seq t));
    mret (merge_sort eventIdLe ((fun kv => rowEvent kv.1 kv.2) <$> job)).

End Dequeue.

(** An event that has been applied by the acknowledged event [e]. *)
Definition similarTo (e q : QueueRow) : Prop :=
  q_state q = JobStateReady /\
  (exists u, q_updated_at e = Some u /\ q_created_at q < u) /\
  q_lock_id q = q_lock_id e /\ Change (q_job q) = Change (q_job e) /\
  SourceNodeStorage (q_job q) = SourceNodeStorage (q_job e).

#[export] Instance similarTo_dec e q : Decision (similarTo e q).
Proof.
  unfold similarTo. apply and_dec; [apply _|]. apply and_dec; [|apply _].
  destruct (q_updated_at e) as [u|].
  - destruct (decide (q_created_at q < u)); [left; eauto|right; naive_solver].
  - right. naive_solver.
Defined.

(** The sub-statement [existing]. *)
Definition acknowledgeable (ids : list Z) (id : Z) (r : QueueRow) : Prop :=
  id ∈ (i64 <$> ids) /\ q_state r = JobStateInProgress.

(** The sub-statement [deleted]. *)
Definition isDeleted (state : JobState) (existing : gmap Z QueueRow) (id : Z) (r : QueueRow) : Prop :=
  (state = JobStateDead /\ id ∈ dom existing) \/
  (state = JobStateCompleted /\
   (id ∈ dom existing \/ Exists (fun kv => similarTo kv.2 r) (map_to_list existing))).

#[export] Instance acknowledgeable_dec ids id r : Decision (acknowledgeable ids id r).
Proof. unfold acknowledgeable. apply _. Defined.

#[export] Instance isDeleted_dec state existing id r : Decision (isDeleted state existing id r).
Proof. unfold isDeleted. apply _. Defined.

Definition setRowState (state : JobState) (now : Z) (r : QueueRow) : QueueRow :=
  mkRow state (q_created_at r) (Some now) (q_attempt r) (q_lock_id r) (q_job r) (q_meta r).

(** The sub-statement that frees the locks whose job locks are all [removed]. *)
Definition releaseLocks (removed : gmap (Z * string) Z) (t : QueueTables) : gmap string bool :=
  updateWhere (fun lock =>
      countWhere (fun kv => kv.1.2 = lock.1) removed ≠ O /\
      countWhere (fun kv => kv.1.2 = lock.1) removed = jobLocksOf lock.1 t)
    (fun _ => false) (replication_queue_lock t).

(** [replication_queue_job_lock.job_id REFERENCES replication_queue(id)]. *)
Definition jobLocksRefer (jobLocks : gmap (Z * string) Z) (queue : gmap Z QueueRow) : Prop :=
  map_Forall (fun k _ => is_Some (queue !! k.1)) jobLocks.

#[export] Instance jobLocksRefer_dec jobLocks queue : Decision (jobLocksRefer jobLocks queue).
Proof. unfold jobLocksRefer. apply _. Defined.

Definition Acknowledge {RR : MapRange Z QueueRow} (now : Z) (state : JobState) (ids : list Z) : PQ (list Z) :=
  if decide (ids = []) then mret []
  else match allowToAck state with
  | Some e => fail e
  | None =>
    t ← get;
    let existing := selectWhere (fun kv => acknowledgeable ids kv.1 kv.2) (replication_queue t) in
    let deleted := selectWhere (fun kv => isDeleted state existing kv.1 kv.2) (replication_queue t) in
    let released := deleted ∪ existing in
    let removed := selectWhere (fun kv => q_lock_id <$> released !! kv.1.1 = Some kv.1.2)
      (replication_queue_job_lock t) in
    let queue := updateWhere (fun kv => kv.1 ∈ dom existing) (setRowState state now)
      (deleteWhere (fun kv => isDeleted state existing kv.1 kv.2) (replication_queue t)) in
    let jobLocks := replication_queue_job_lock t ∖ removed in
    if decide (jobLocksRefer jobLocks queue) then
      _ ← put (mkTables (releaseLocks removed t) queue jobLocks (replication_queue_id_seq t));
      mret ((fun kv => u64 kv.1) <$> range existing)
    else fail (ErrQuery "replication_queue_job_lock_job_id_fkey")
  end.

(** One execution of the statement of [StartHealthUpdate]; the result is the
    number of affected rows. *)
Definition healthUpdate (now : Z) (events : list ReplicationEvent) : PQ Z :=
  t ← get;
  let mine := (fun e => (i64 (ID e), LockID e)) <$> events in
  _ ← put (mkTables (replication_queue_lock t) (replication_queue t)
    (updateWhere (fun kv => kv.1 ∈ mine) (fun _ => now) (replication_queue_job_lock t)) (replication_queue_id_seq t));
  mret (Z.of_nat (countWhere (fun kv => kv.1 ∈ mine) (replication_queue_job_lock t))).

(** The loop of [StartHealthUpdate] over the ticks it receives before its context
    ends. Statements of others that run between two ticks are not shown here. *)
Fixpoint healthLoop (ticks : list Z) (events : list ReplicationEvent) : PQ unit :=
  match ticks with
  | [] => mret tt
  | now :: ticks =>
    affected ← healthUpdate now events;
    if decide (affected = 0) then mret tt else healthLoop ticks events
  end.

Definition StartHealthUpdate (ticks : list Z) (events : list ReplicationEvent) : PQ unit :=
  if decide (events = []) then mret tt else healthLoop ticks events.

Definition staleState (r : QueueRow) : QueueRow :=
  mkRow (if decide (1 <= q_attempt r) then JobStateFailed else JobStateDead)
    (q_created_at r) (q_updated_at r) (q_attempt r) (q_lock_id r) (q_job r) (q_meta r).

(** [staleAfter] is the duration in whole milliseconds, in the unit of the clock. *)
Definition AcknowledgeStale (now staleAfter : Z) : PQ unit :=
  t ← get;
  let stale := selectWhere (fun kv => kv.2 < now - staleAfter) (replication_queue_job_lock t) in
  put (mkTables (releaseLocks stale t)
    (updateWhere (fun row => countWhere (fun kv => kv.1.1 = row.1) stale ≠ O) staleState (replication_queue t))
    (replication_queue_job_lock t ∖ stale) (replication_queue_id_seq t)).

(** ** The invariant

    A row in progress has a job lock, and every job lock belongs to one; a lock is
    acquired exactly while job locks refer to it; of the events of one repository
    on one storage at most one per kind of change is in progress; at most one
    replica of a repository is about to be deleted. *)

Record pg_inv (t : QueueTables) : Prop := {
  pi_ids : forall id r, replication_queue t !! id = Some r -> 1 <= id <= replication_queue_id_seq t;
  pi_seq : 0 <= replication_queue_id_seq t <= bigintMax;
  pi_name : forall id r, replication_queue t !! id = Some r ->
    q_lock_id r = lockName (VirtualStorage (q_job r)) (TargetNodeStorage (q_job r)) (RelativePath (q_job r));
  pi_lock : forall id r, replication_queue t !! id = Some r ->
    is_Some (replication_queue_lock t !! q_lock_id r);
  pi_progress : forall id r, replication_queue t !! id = Some r -> q_state r = JobStateInProgress ->
    is_Some (replication_queue_job_lock t !! (id, q_lock_id r)) /\ is_Some (q_updated_at r);
  pi_job_lock : forall id l, is_Some (replication_queue_job_lock t !! (id, l)) ->
    exists r, replication_queue t !! id = Some r /\ q_lock_id r = l /\ q_state r = JobStateInProgress;
  pi_acquired : forall l, replication_queue_lock t !! l = Some true <->
    exists id, is_Some (replication_queue_job_lock t !! (id, l));
  pi_partition : forall id id' r r', replication_queue t !! id = Some r -> replication_queue t !! id' = Some r' ->
    q_state r = JobStateInProgress -> q_state r' = JobStateInProgress -> samePartition r r' -> id = id';
  pi_deleting : forall id id' r r' vs path,
    replication_queue t !! id = Some r -> replication_queue t !! id' = Some r' ->
    deletingReplica vs path r -> deletingReplica vs path r' -> id = id';
}.

Lemma pg_inv_empty : pg_inv emptyTables.
Proof.
  split; simpl; try (intros; by rewrite lookup_empty in *); try done.
  - intros id l [? Hl]. by rewrite lookup_empty in Hl.
  - intros l. split; [by rewrite lookup_empty|]. intros [id [? Hl]]. by rewrite lookup_empty in Hl.
Qed.

Lemma jobLocksOf_zero l t :
  jobLocksOf l t = O <-> forall id, replication_queue_job_lock t !! (id, l) = None.
Proof.
  unfold jobLocksOf. rewrite countWhere_zero. split.
  - intros Hn id. apply eq_None_not_Some. intros [v Hv]. by eapply (Hn (id, l) v).
  - intros Hn [id l'] v Hv Heq. simpl in Heq. subst. by rewrite Hn in Hv.
Qed.

(** *** Insertion *)

Definition fresh_row (row : QueueRow) : Prop :=
  q_state row = JobStateReady /\
  q_lock_id row = lockName (VirtualStorage (q_job row)) (TargetNodeStorage (q_job row)) (RelativePath (q_job row)).

Lemma lookup_insertLock l l' locks :
  insertLock l locks !! l' = if decide (l = l') then Some (default false (locks !! l)) else locks !! l'.
Proof.
  unfold insertLock. case_decide; [subst; by rewrite lookup_insert_eq|by rewrite lookup_insert_ne].
Qed.

(** What [insertRow] did, by its result. *)
Lemma insertRow_cases row t r t' :
  insertRow row t = (r, t') ->
  (exists e, r = Err e /\ replication_queue_lock t' = replication_queue_lock t /\
    replication_queue t' = replication_queue t /\ replication_queue_job_lock t' = replication_queue_job_lock t /\
    replication_queue_id_seq t <= replication_queue_id_seq t' <= Z.max (replication_queue_id_seq t) bigintMax) \/
  (exists id, r = Ok id /\ id = replication_queue_id_seq t + 1 /\ id <= bigintMax /\
    replication_queue t !! id = None /\
    (deletingReplica (VirtualStorage (q_job row)) (RelativePath (q_job row)) row ->
     forall id r, replication_queue t !! id = Some r ->
       ~ deletingReplica (VirtualStorage (q_job row)) (RelativePath (q_job row)) r) /\
    t' = mkTables (insertLock (q_lock_id row) (replication_queue_lock t))
           (<[id := row]> (replication_queue t)) (replication_queue_job_lock t) id).
Proof.
  unfold insertRow. unfold_M. intros Hi. case_decide as Hmax.
  { left. simplify_eq. eexists. split_and!; try done; lia. }
  case_decide as Hpk.
  { left. simplify_eq. eexists. split_and!; simpl; try done; lia. }
  case_decide as Hun.
  { left. simplify_eq. eexists. split_and!; simpl; try done; lia. }
  right. simplify_eq. eexists. split_and!; [done..|lia| | |done].
  - by apply eq_None_not_Some.
  - intros Hd id r Hr Hd'.
    apply Hun. split; [done|]. rewrite countWhere_zero. intros Hn. by apply (Hn id r Hr).
Qed.

Lemma insertRow_inv row t r t' :
  fresh_row row -> insertRow row t = (r, t') -> pg_inv t -> pg_inv t'.
Proof.
  intros [Hst Hnm] Hi Hinv.
  destruct (insertRow_cases row t r t' Hi)
    as [(e & -> & Hl & Hq & Hj & Hs)|(id & -> & -> & Hmax & Hnone & Hdel & ->)].
  { destruct Hinv. split; rewrite ?Hl, ?Hq, ?Hj; try done; [|lia].
    intros id r Hr. specialize (pi_ids0 id r Hr). lia. }
  set (id := replication_queue_id_seq t + 1) in *.
  assert (Hlk : forall id' r', <[id := row]> (replication_queue t) !! id' = Some r' ->
    (id' = id /\ r' = row) \/ (id' ≠ id /\ replication_queue t !! id' = Some r')).
  { intros id' r'. rewrite lookup_insert_Some. naive_solver. }
  destruct Hinv. split; simpl.
  - intros id' r' [[-> ->]|[Hne Hr]]%Hlk; [lia|]. specialize (pi_ids0 _ _ Hr). lia.
  - lia.
  - intros id' r' [[-> ->]|[Hne Hr]]%Hlk; eauto.
  - intros id' r' [[-> ->]|[Hne Hr]]%Hlk; rewrite lookup_insertLock; case_decide; done || eauto.
  - intros id' r' [[-> ->]|[Hne Hr]]%Hlk; [by rewrite Hst|eauto].
  - intros id' l Hl. destruct (pi_job_lock0 id' l Hl) as (r' & Hr & ?). exists r'. split; [|done].
    rewrite lookup_insert_ne; [done|]. intros <-. congruence.
  - intros l. rewrite lookup_insertLock. case_decide as Hd; [subst l|apply pi_acquired0].
    rewrite <- pi_acquired0. destruct (_ !! q_lock_id row); simpl; [done|]. split; [by intros [=]|done].
  - intros i j ri rj [[-> ->]|[Hne Hr]]%Hlk [[-> ->]|[Hne' Hr']]%Hlk Hp Hp' Hs; try congruence. eauto.
  - intros i j ri rj vs path [[-> ->]|[Hne Hr]]%Hlk [[-> ->]|[Hne' Hr']]%Hlk Hd Hd'; [done| | |eauto].
    + pose proof Hd as (_ & _ & <- & <-). by destruct (Hdel Hd _ _ Hr').
    + pose proof Hd' as (_ & _ & <- & <-). by destruct (Hdel Hd' _ _ Hr).
Qed.

(** *** Candidates of [Dequeue] *)

Lemma isFirst_unique rows id id' r r' :
  isFirst rows id r -> isFirst rows id' r' -> samePartition r r' -> id = id'.
Proof.
  unfold isFirst, samePartition. intros Hf Hf' [Hl Hc].
  rewrite (filter_ext_in _ (fun kv => q_lock_id kv.2 = q_lock_id r /\ Change (q_job kv.2) = Change (q_job r)) rows)
    in Hf' by (intros [k v] _; simpl; by rewrite Hl, Hc). congruence.
Qed.

Section Candidates.
Context (window limit : OrderBy byCreation) (vs ns : string) (count : Z) (skipped : gset string) (t : QueueTables).

Abbreviation cands := (candidates window limit vs ns count skipped t).
Abbreviation rows := (selectWhere (fun kv => eligible vs ns skipped t kv.2) (replication_queue t)).
Abbreviation ordered := (order_by (OrderBy := window) rows).

Lemma candidate_elem id r :
  (id, r) ∈ cands -> replication_queue t !! id = Some r /\ eligible vs ns skipped t r /\ isFirst ordered id r.
Proof.
  unfold candidates. intros Hin%elem_of_take. destruct Hin as (i & Hin & _).
  apply list_elem_of_lookup_2, order_by_elem in Hin.
  by apply lookup_selectWhere_Some in Hin as [[? ?]%lookup_selectWhere_Some ?].
Qed.

Lemma pg_candidates_nodup : NoDup cands.*1.
Proof.
  unfold candidates. rewrite fmap_take. eapply sublist_NoDup; [apply order_by_nodup|]. apply sublist_take.
Qed.

Lemma candidates_length : Z.of_nat (length cands) <= Z.max 0 count.
Proof. unfold candidates. rewrite length_take. lia. Qed.

(** A candidate is the oldest of the waiting events of its repository, storage
    and kind of change. *)
Lemma candidate_oldest id r id' r' :
  (id, r) ∈ cands -> replication_queue t !! id' = Some r' -> eligible vs ns skipped t r' ->
  samePartition r r' -> q_created_at r <= q_created_at r'.
Proof.
  intros (Hid & He & Hf)%candidate_elem Hid' He' Hs.
  assert (Hin : (id', r') ∈ filter (fun kv => samePartition r kv.2) ordered).
  { apply list_elem_of_filter. split; [done|]. apply order_by_elem. by apply lookup_selectWhere_Some. }
  unfold isFirst in Hf.
  assert (Hsort : StronglySorted (fun a b => q_created_at a.2 <= q_created_at b.2)
    (filter (fun kv => samePartition r kv.2) ordered)).
  { eapply StronglySorted_sublist; [apply (order_by_sorted (OrderBy := window))|apply sublist_filter]. }
  destruct (filter _ ordered) as [|[k v] l] eqn:Hl; [by apply elem_of_nil in Hin|]. simpl in Hf. simplify_eq.
  assert (Hk : (id, v) ∈ filter (fun kv => samePartition r kv.2) ordered) by (rewrite Hl; by left).
  apply list_elem_of_filter in Hk as [_ Hk%order_by_elem]. apply lookup_selectWhere_Some in Hk as [Hk _].
  simplify_eq. apply elem_of_cons in Hin as [[= -> ->]|Hin]; [lia|].
  apply StronglySorted_inv in Hsort as [_ Hall]. rewrite Forall_forall in Hall. by apply (Hall _ Hin).
Qed.

(** With room for one more, every waiting event has a candidate of its kind. *)
Lemma candidates_complete id r :
  replication_queue t !! id = Some r -> eligible vs ns skipped t r ->
  Z.of_nat (length cands) < count -> exists id' r', (id', r') ∈ cands /\ samePartition r r'.
Proof.
  intros Hid He Hroom.
  assert (Hin : (id, r) ∈ filter (fun kv => samePartition r kv.2) ordered).
  { apply list_elem_of_filter. split; [done|]. apply order_by_elem. by apply lookup_selectWhere_Some. }
  destruct (filter _ ordered) as [|[k v] l] eqn:Hl; [by apply elem_of_nil in Hin|].
  assert (Hk : (k, v) ∈ filter (fun kv => samePartition r kv.2) ordered) by (rewrite Hl; by left).
  apply list_elem_of_filter in Hk as [Hs Hk%order_by_elem]. simpl in Hs.
  exists k, v. split; [|done].
  assert (Hf : isFirst ordered k v).
  { unfold isFirst. rewrite (filter_ext_in _ (fun kv => samePartition r kv.2)).
    - by rewrite Hl.
    - intros [x y] _. simpl. unfold samePartition in *. destruct Hs as [-> ->]. done. }
  unfold candidates in *. rewrite length_take in Hroom.
  rewrite take_ge by lia. apply order_by_elem. by apply lookup_selectWhere_Some.
Qed.
End Candidates.

(** *** [Dequeue] *)

Section DequeueProofs.
Context (window limit : OrderBy byCreation) (now : Z) (vs ns : string) (count : Z) (skipped : gset string).

Lemma started_lookup (cands : list (Z * QueueRow)) (q : gmap Z QueueRow) id r' :
  NoDup cands.*1 ->
  (list_to_map ((fun kv => (kv.1, startJob now kv.2)) <$> cands) ∪ q) !! id = Some r' <->
  (exists r, (id, r) ∈ cands /\ r' = startJob now r) \/ (id ∉ cands.*1 /\ q !! id = Some r').
Proof.
  intros Hnd.
  assert (Hnd' : NoDup ((fun kv => (kv.1, startJob now kv.2)) <$> cands).*1).
  { rewrite <- list_fmap_compose. by erewrite list_fmap_ext by done. }
  rewrite lookup_union_Some_raw, <- elem_of_list_to_map by done.
  rewrite <- not_elem_of_list_to_map, <- list_fmap_compose, list_elem_of_fmap. split.
  - intros [([k r] & [= -> ->] & Hr)|[Hn Hq]]; [left; eauto|right]. done.
  - intros [(r & Hr & ->)|[Hn Hq]]; [left; by exists (id, r)|by right].
Qed.

Lemma tracked_lookup (cands : list (Z * QueueRow)) (m : gmap (Z * string) Z) id l :
  is_Some ((list_to_map ((fun kv => ((kv.1, q_lock_id kv.2), now)) <$>
    ((fun kv => (kv.1, startJob now kv.2)) <$> cands)) ∪ m) !! (id, l)) <->
  (exists r, (id, r) ∈ cands /\ q_lock_id r = l) \/ is_Some (m !! (id, l)).
Proof.
  rewrite lookup_union_is_Some, <- list_fmap_compose.
  rewrite <- (elem_of_dom (D := gset (Z * string)) (list_to_map _)), dom_list_to_map, elem_of_list_to_set.
  rewrite <- list_fmap_compose, list_elem_of_fmap. apply or_iff_compat_r. split.
  - intros ([k r] & [= -> ->] & Hr). eauto.
  - intros (r & Hr & <-). by exists (id, r).
Qed.

(** Nothing of a candidate's repository and storage is in progress. *)
Lemma candidate_free t id r id' r' :
  pg_inv t -> (id, r) ∈ candidates window limit vs ns count skipped t ->
  replication_queue t !! id' = Some r' -> q_state r' = JobStateInProgress -> q_lock_id r' ≠ q_lock_id r.
Proof.
  intros Hinv (_ & (_ & _ & Hz) & _)%candidate_elem Hr' Hp Heq. rewrite jobLocksOf_zero in Hz.
  destruct (pi_progress _ Hinv id' r' Hr' Hp) as [[? Hl] _]. rewrite Heq, Hz in Hl. done.
Qed.

Lemma candidate_partition t id r id' r' :
  (id, r) ∈ candidates window limit vs ns count skipped t ->
  (id', r') ∈ candidates window limit vs ns count skipped t -> samePartition r r' -> id = id'.
Proof. intros (_ & _ & Hf)%candidate_elem (_ & _ & Hf')%candidate_elem. by apply isFirst_unique with (1 := Hf). Qed.

Lemma candidate_deleting t id r vs' path :
  (id, r) ∈ candidates window limit vs ns count skipped t -> deletingReplica vs' path (startJob now r) ->
  replication_queue t !! id = Some r /\ deletingReplica vs' path r.
Proof.
  intros (Hq & (_ & Hrf & _) & _)%candidate_elem (_ & Hch & Hv & Hpa). split; [done|].
  split_and!; try done; destruct Hrf as [-> | ->]; done.
Qed.

(** The locks that are acquired afterwards. *)
Lemma dequeued_acquired t (cands := candidates window limit vs ns count skipped t) l :
  pg_inv t ->
  updateWhere (fun kv => kv.1 ∈ (fun kv => q_lock_id kv.2) <$> ((fun kv => (kv.1, startJob now kv.2)) <$> cands))
    (fun _ => true) (replication_queue_lock t) !! l = Some true <->
  exists id, (exists r, (id, r) ∈ cands /\ q_lock_id r = l) \/ is_Some (replication_queue_job_lock t !! (id, l)).
Proof.
  intros Hinv. rewrite lookup_updateWhere_Some. split.
  - intros (b & Hb & [[Hin _]|[_ <-]]).
    + simpl in Hin. apply list_elem_of_fmap in Hin as ([k r0] & -> & ([k' r] & [= -> ->] & Hin)%list_elem_of_fmap).
      exists k'. left. by exists r.
    + apply (pi_acquired _ Hinv) in Hb as [id ?]. eauto.
  - intros [id [(r & Hr & <-)|Hl]].
    + destruct (candidate_elem _ _ _ _ _ _ _ _ _ Hr) as (Hq & _).
      destruct (pi_lock _ Hinv _ _ Hq) as [b Hb]. exists b. split; [done|]. left.
      split; [|done]. apply list_elem_of_fmap. exists (id, startJob now r). split; [done|].
      apply list_elem_of_fmap. by exists (id, r).
    + exists true. split; [by apply (pi_acquired _ Hinv); exists id|].
      case (decide (l ∈ (fun kv => q_lock_id kv.2) <$> ((fun kv => (kv.1, startJob now kv.2)) <$> cands))); auto.
Qed.

Lemma Dequeue_inv t r t' :
  Dequeue window limit now skipped vs ns count t = (r, t') -> pg_inv t -> pg_inv t'.
Proof.
  unfold Dequeue. unfold_M. case_decide; intros Hd Hinv; simplify_eq; [done|].
  set (cands := candidates window limit vs ns count skipped t).
  pose proof (pg_candidates_nodup window limit vs ns count skipped t) as Hnd. fold cands in Hnd.
  assert (Hc : forall id r, (id, r) ∈ cands -> replication_queue t !! id = Some r)
    by (intros id r Hr; by destruct (candidate_elem _ _ _ _ _ _ _ _ _ Hr)).
  pose proof Hinv as []. split; simpl.
  - intros id r' [(r & Hr%Hc & ->)|[_ Hr]]%started_lookup; [by eauto|by eauto|done].
  - done.
  - intros id r' [(r & Hr%Hc & ->)|[_ Hr]]%started_lookup; [|by eauto|done]. simpl. eauto.
  - intros id r' Hr'%started_lookup; [|done]. rewrite lookup_updateWhere, fmap_is_Some.
    destruct Hr' as [(r & Hr%Hc & ->)|[_ Hr]]; simpl; eauto.
  - intros id r' Hr' Hp. rewrite tracked_lookup. apply started_lookup in Hr'; [|done].
    destruct Hr' as [(r & Hr & ->)|[_ Hr]]; simpl; [split; eauto|].
    destruct (pi_progress0 id r' Hr Hp). eauto.
  - intros id l [(r & Hr & <-)|Hl]%tracked_lookup.
    + exists (startJob now r). rewrite started_lookup by done. split_and!; [left; eauto|done|done].
    + destruct (pi_job_lock0 id l Hl) as (r & Hr & <- & Hp). exists r. split; [|done].
      apply started_lookup; [done|]. right. split; [|done]. intros ([k r0] & Hk & Hin)%list_elem_of_fmap.
      simpl in Hk. subst k. pose proof (Hc _ _ Hin). simplify_eq. by apply (candidate_free t id r id r).
  - intros l. setoid_rewrite tracked_lookup. by apply dequeued_acquired.
  - intros i j ri rj Hi Hj Hpi Hpj Hs. apply started_lookup in Hi, Hj; [|done..].
    destruct Hi as [(r1 & Hi & ->)|[_ Hi]], Hj as [(r2 & Hj & ->)|[_ Hj]]; [| | |by eauto].
    + by apply (candidate_partition t i r1 j r2).
    + by destruct (candidate_free _ _ _ _ _ Hinv Hi Hj Hpj (proj1 Hs)).
    + destruct (candidate_free _ _ _ _ _ Hinv Hj Hi Hpi). symmetry. by destruct Hs.
  - intros i j ri rj vs' path Hi Hj Hdi Hdj. apply started_lookup in Hi, Hj; [|done..].
    destruct Hi as [(r1 & Hi & ->)|[_ Hi]], Hj as [(r2 & Hj & ->)|[_ Hj]];
      try (apply (candidate_deleting t i r1) in Hdi as [Hi' Hdi]; [|done]);
      try (apply (candidate_deleting t j r2) in Hdj as [Hj' Hdj]; [|done]); eauto.
Qed.
End DequeueProofs.

(** *** Settling events

    [Acknowledge] and [AcknowledgeStale] take the events of a set [S] out of
    progress, remove their job locks and release locks without job locks. *)

Lemma releaseLocks_acquired removed t l :
  pg_inv t -> removed ⊆ replication_queue_job_lock t ->
  releaseLocks removed t !! l = Some true <->
  exists id, is_Some ((replication_queue_job_lock t ∖ removed) !! (id, l)).
Proof.
  intros Hinv Hsub. unfold releaseLocks.
  pose proof (countWhere_part (fun kv : Z * string * Z => kv.1.2 = l) removed _ Hsub) as Hpart.
  rewrite lookup_updateWhere_Some. cbn [fst snd]. split.
  - intros (b & Hb & [[_ ?]|[Hn <-]]); [done|]. apply (pi_acquired _ Hinv) in Hb as [id [v Hv]].
    destruct (decide (countWhere (fun kv => kv.1.2 = l) (replication_queue_job_lock t ∖ removed) = O)) as [Hz|Hz].
    + destruct Hn. rewrite countWhere_zero in Hz.
      assert (Hall : forall k v, replication_queue_job_lock t !! k = Some v -> k.2 = l -> removed !! k = Some v).
      { intros k w Hk Hl. destruct (removed !! k) as [w'|] eqn:Hr.
        - pose proof (lookup_weaken _ _ _ _ Hr Hsub). congruence.
        - destruct (Hz k w); [by apply lookup_difference_Some|done]. }
      split; [|by apply Hpart]. intros H0. rewrite countWhere_zero in H0.
      apply (H0 (id, l) v); [|done]. by apply Hall.
    + destruct (selectWhere (fun kv => kv.1.2 = l) (replication_queue_job_lock t ∖ removed) !! (id, l)) eqn:Hs.
      * apply lookup_selectWhere_Some in Hs as [Hs _]. eauto.
      * unfold countWhere in Hz. rewrite map_size_ne_0_lookup in Hz. destruct Hz as ([id' l'] & w & Hw).
        apply lookup_selectWhere_Some in Hw as [Hw Hl]. simpl in Hl. subst. eauto.
  - intros [id [v Hv]]. apply lookup_difference_Some in Hv as [Hv Hr]. exists true.
    split; [by apply (pi_acquired _ Hinv); eauto|]. right. split; [|done]. intros [_ Heq].
    unfold jobLocksOf in Heq. rewrite (proj1 Hpart Heq (id, l) v) in Hr; done.
Qed.

(** How the rows change: those of [S] leave progress, the others stay. *)
Record settles (S : Z -> Prop) (removed : gmap (Z * string) Z) (t : QueueTables) (queue : gmap Z QueueRow) : Prop := {
  se_removed : removed ⊆ replication_queue_job_lock t;
  se_S : forall id l, is_Some (replication_queue_job_lock t !! (id, l)) -> is_Some (removed !! (id, l)) <-> S id;
  se_row : forall id r', queue !! id = Some r' -> exists r, replication_queue t !! id = Some r /\
    q_lock_id r' = q_lock_id r /\ q_job r' = q_job r /\ (isActive (q_state r') -> isActive (q_state r)) /\
    (q_state r' = JobStateInProgress -> r' = r /\ ~ S id);
  se_rest : forall id r, replication_queue t !! id = Some r -> q_state r = JobStateInProgress -> ~ S id ->
    queue !! id = Some r;
}.

Lemma settles_remaining S removed t queue id l :
  settles S removed t queue ->
  is_Some ((replication_queue_job_lock t ∖ removed) !! (id, l)) <->
  is_Some (replication_queue_job_lock t !! (id, l)) /\ ~ S id.
Proof.
  intros [_ HS _ _]. split.
  - intros [v [Hv Hr]%lookup_difference_Some]. split; [eauto|]. rewrite <- (HS id l), Hr by eauto. by intros [].
  - intros [[v Hv] Hn]. exists v. apply lookup_difference_Some. split; [done|].
    apply eq_None_not_Some. rewrite HS by eauto. done.
Qed.

Lemma settles_inv S removed t queue :
  pg_inv t -> settles S removed t queue ->
  pg_inv (mkTables (releaseLocks removed t) queue (replication_queue_job_lock t ∖ removed) (replication_queue_id_seq t)).
Proof.
  intros Hinv Hs. pose proof Hs as [Hrem HS Hrow Hrest]. pose proof Hinv as []. split; simpl.
  - intros id r' (r & Hr & _)%Hrow. eauto.
  - done.
  - intros id r' (r & Hr & -> & -> & _)%Hrow. eauto.
  - intros id r' (r & Hr & -> & _)%Hrow. unfold releaseLocks. rewrite lookup_updateWhere, fmap_is_Some. eauto.
  - intros id r' Hr' Hp. rewrite (settles_remaining _ _ _ _ _ _ Hs).
    destruct (Hrow _ _ Hr') as (r & Hr & _ & _ & _ & Hp'). destruct (Hp' Hp) as [-> Hn].
    destruct (pi_progress0 id r Hr Hp). done.
  - intros id l [Hl Hn]%(settles_remaining _ _ _ _ _ _ Hs).
    destruct (pi_job_lock0 id l Hl) as (r & Hr & <- & Hp). exists r. split; [by apply Hrest|done].
  - intros l. by apply releaseLocks_acquired.
  - intros i j ri rj Hi Hj Hpi Hpj.
    destruct (Hrow _ _ Hi) as (r1 & Hr1 & _ & _ & _ & H1), (Hrow _ _ Hj) as (r2 & Hr2 & _ & _ & _ & H2).
    destruct (H1 Hpi) as [-> _], (H2 Hpj) as [-> _]. eauto.
  - intros i j ri rj vs path Hi Hj (Ha & Hc & Hv & Hp) (Ha' & Hc' & Hv' & Hp').
    destruct (Hrow _ _ Hi) as (r1 & Hr1 & _ & Hj1 & H1 & _), (Hrow _ _ Hj) as (r2 & Hr2 & _ & Hj2 & H2 & _).
    rewrite Hj1 in *. rewrite Hj2 in *. by apply (pi_deleting0 i j r1 r2 vs path); unfold deletingReplica; auto.
Qed.

Lemma settles_refer S removed t queue :
  pg_inv t -> settles S removed t queue -> jobLocksRefer (replication_queue_job_lock t ∖ removed) queue.
Proof.
  intros Hinv Hs [id l] v Hv. simpl.
  destruct (proj1 (settles_remaining _ _ _ _ id l Hs) (mk_is_Some _ _ Hv)) as [Hl Hn].
  destruct (pi_job_lock _ Hinv id l Hl) as (r & Hr & _ & Hp). exists r. by apply (se_rest _ _ _ _ Hs).
Qed.

Section AcknowledgeProofs.
Context {RR : MapRange Z QueueRow} (now : Z) (state : JobState) (ids : list Z) (t : QueueTables).

Abbreviation existing := (selectWhere (fun kv => acknowledgeable ids kv.1 kv.2) (replication_queue t)).
Abbreviation deleted := (selectWhere (fun kv => isDeleted state existing kv.1 kv.2) (replication_queue t)).
Abbreviation removed := (selectWhere (fun kv => q_lock_id <$> (deleted ∪ existing) !! kv.1.1 = Some kv.1.2)
  (replication_queue_job_lock t)).
Abbreviation queue := (updateWhere (fun kv => kv.1 ∈ dom existing) (setRowState state now)
  (deleteWhere (fun kv => isDeleted state existing kv.1 kv.2) (replication_queue t))).

Lemma existing_elem id : id ∈ dom existing <->
  exists r, replication_queue t !! id = Some r /\ id ∈ (i64 <$> ids) /\ q_state r = JobStateInProgress.
Proof.
  rewrite elem_of_dom. unfold is_Some. setoid_rewrite lookup_selectWhere_Some. unfold acknowledgeable. naive_solver.
Qed.

(** Events in progress are deleted only when they are acknowledged. *)
Lemma deleted_in_progress id r :
  replication_queue t !! id = Some r -> q_state r = JobStateInProgress ->
  isDeleted state existing id r -> id ∈ dom existing.
Proof.
  intros Hr Hp [[_ ?]|[_ [?|Hex]]]; [done..|]. apply Exists_exists in Hex as (kv & _ & Hs & _). congruence.
Qed.

Lemma acknowledge_settles :
  allowToAck state = None -> pg_inv t -> settles (fun id => id ∈ dom existing) removed t queue.
Proof.
  intros Hallow Hinv. split.
  - apply map_filter_subseteq.
  - intros id l Hl. destruct (pi_job_lock _ Hinv id l Hl) as (r & Hr & <- & Hp). destruct Hl as [v Hv]. split.
    + intros [w [_ Hw]%lookup_selectWhere_Some]. simpl in Hw.
      apply fmap_Some in Hw as (r' & Hu & _). apply lookup_union_Some_raw in Hu as [Hd|[_ He]].
      * apply lookup_selectWhere_Some in Hd as [Hq Hd]. simplify_eq. by eapply deleted_in_progress.
      * apply elem_of_dom. eauto.
    + intros He. exists v. apply lookup_selectWhere_Some. split; [done|]. simpl.
      assert (Hex : existing !! id = Some r).
      { apply elem_of_dom in He as [r' He]. pose proof He as [Hq _]%lookup_selectWhere_Some. congruence. }
      destruct (deleted !! id) as [r'|] eqn:Hd.
      * rewrite (lookup_union_Some_l _ _ _ _ Hd). apply lookup_selectWhere_Some in Hd as [Hq _]. simpl. congruence.
      * by rewrite lookup_union_r, Hex.
  - intros id r' (r & [Hq Hn]%lookup_deleteWhere_Some & Hcase)%lookup_updateWhere_Some. exists r. split; [done|].
    simpl in Hcase. destruct Hcase as [[He ->]|[He ->]]; simpl.
    + split_and!; [done..| |]; [|by destruct state].
      intros _. apply existing_elem in He as (r' & Hr' & _ & Hp). simplify_eq. by rewrite Hp.
    + split_and!; try done.
  - intros id r Hr Hp Hn. apply lookup_updateWhere_Some. exists r. split; [|by right].
    apply lookup_deleteWhere_Some. split; [done|]. simpl. intros Hd. apply Hn. by apply (deleted_in_progress id r).
Qed.
End AcknowledgeProofs.

Lemma Acknowledge_inv {RR : MapRange Z QueueRow} now state ids t r t' :
  Acknowledge now state ids t = (r, t') -> pg_inv t -> pg_inv t'.
Proof.
  unfold Acknowledge. case_decide; [intros; unfold_M; by simplify_eq|].
  destruct (allowToAck state) eqn:Hallow; [intros; unfold_M; by simplify_eq|]. unfold_M.
  intros Ha Hinv. pose proof (acknowledge_settles now state ids t Hallow Hinv) as Hs.
  rewrite decide_True in Ha by by eapply settles_refer. simplify_eq. by eapply settles_inv.
Qed.

Lemma healthUpdate_inv now events t r t' :
  healthUpdate now events t = (r, t') -> pg_inv t -> pg_inv t'.
Proof.
  unfold healthUpdate. unfold_M. intros Hh Hinv. simplify_eq.
  assert (Hl : forall k, is_Some (updateWhere (fun kv => kv.1 ∈ (fun e => (i64 (ID e), LockID e)) <$> events)
    (fun _ => now) (replication_queue_job_lock t) !! k) <-> is_Some (replication_queue_job_lock t !! k)).
  { intros k. by rewrite lookup_updateWhere, fmap_is_Some. }
  destruct Hinv. split; simpl; try done.
  - intros. rewrite Hl. eauto.
  - intros id l. rewrite Hl. eauto.
  - intros l. setoid_rewrite Hl. eauto.
Qed.

Lemma StartHealthUpdate_inv ticks events t r t' :
  StartHealthUpdate ticks events t = (r, t') -> pg_inv t -> pg_inv t'.
Proof.
  unfold StartHealthUpdate. case_decide; [intros; unfold_M; by simplify_eq|].
  revert t. induction ticks as [|now ticks IH]; intros t Hh Hinv; simpl in Hh; unfold_M; [by simplify_eq|].
  destruct (healthUpdate now events t) as [[a|e|] t1] eqn:Hu; pose proof (healthUpdate_inv _ _ _ _ _ Hu Hinv).
  - case_decide; [by simplify_eq|]. by eapply IH.
  - by simplify_eq.
  - by simplify_eq.
Qed.

Lemma stale_settles now staleAfter t
    (stale := selectWhere (fun kv => kv.2 < now - staleAfter) (replication_queue_job_lock t)) :
  pg_inv t ->
  settles (fun id => countWhere (fun kv => kv.1.1 = id) stale ≠ O) stale t
    (updateWhere (fun row => countWhere (fun kv => kv.1.1 = row.1) stale ≠ O) staleState (replication_queue t)).
Proof.
  intros Hinv.
  assert (HS : forall id, countWhere (fun kv => kv.1.1 = id) stale ≠ O <->
    exists l v, stale !! (id, l) = Some v).
  { intros id. unfold countWhere. rewrite map_size_ne_0_lookup. split.
    - intros ([id' l] & v & [Hv Hid]%lookup_selectWhere_Some). simpl in Hid. subst. eauto.
    - intros (l & v & Hv). exists (id, l), v. by apply lookup_selectWhere_Some. }
  assert (Hrow : forall id r, replication_queue t !! id = Some r ->
    countWhere (fun kv => kv.1.1 = id) stale ≠ O -> q_state r = JobStateInProgress).
  { intros id r Hr (l & v & [Hl _]%lookup_selectWhere_Some)%HS.
    destruct (pi_job_lock _ Hinv id l (mk_is_Some _ _ Hl)) as (r' & Hr' & _ & Hp). congruence. }
  split.
  - apply map_filter_subseteq.
  - intros id l Hl. rewrite HS. split; [intros [v ?]; eauto|]. intros (l' & v & Hv).
    pose proof Hv as [Hv' _]%lookup_selectWhere_Some.
    destruct (pi_job_lock _ Hinv id l Hl) as (r & Hr & <- & _).
    destruct (pi_job_lock _ Hinv id l' (mk_is_Some _ _ Hv')) as (r' & Hr' & <- & _). simplify_eq. eauto.
  - intros id r' (r & Hr & Hcase)%lookup_updateWhere_Some. exists r. split; [done|]. simpl in Hcase.
    destruct Hcase as [[Hs ->]|[Hs ->]]; simpl.
    + split_and!; [done..| |]; [|by case_decide]. intros _. by rewrite (Hrow id r).
    + done.
  - intros id r Hr _ Hn. apply lookup_updateWhere_Some. exists r. split; [done|]. by right.
Qed.

Lemma AcknowledgeStale_inv now staleAfter t r t' :
  AcknowledgeStale now staleAfter t = (r, t') -> pg_inv t -> pg_inv t'.
Proof.
  unfold AcknowledgeStale. unfold_M. intros Ha Hinv. simplify_eq. eapply settles_inv; [done|by apply stale_settles].
Qed.

(** ** Reachable states

    The statements of all Praefects in any order, with any choice of tied rows and
    of skipped locks; [qs_insert] and [qs_nextval] are what the reconciler does
    (Reconciler.v): it inserts new rows, and a statement of it that fails leaves
    only the sequence changed. *)

Inductive queue_step : QueueTables -> QueueTables -> Prop :=
| qs_enqueue now event r t t' : Enqueue now event t = (r, t') -> queue_step t t'
| qs_dequeue window limit now skipped vs ns count r t t' :
    Dequeue window limit now skipped vs ns count t = (r, t') -> queue_step t t'
| qs_acknowledge RR now state ids r t t' : Acknowledge (RR := RR) now state ids t = (r, t') -> queue_step t t'
| qs_health ticks events r t t' : StartHealthUpdate ticks events t = (r, t') -> queue_step t t'
| qs_stale now staleAfter r t t' : AcknowledgeStale now staleAfter t = (r, t') -> queue_step t t'
| qs_insert row r t t' : fresh_row row -> insertRow row t = (r, t') -> queue_step t t'
| qs_nextval t seq : replication_queue_id_seq t <= seq <= bigintMax ->
    queue_step t (mkTables (replication_queue_lock t) (replication_queue t) (replication_queue_job_lock t) seq).

Lemma fresh_newRow now j meta :
  fresh_row (newRow now (lockName (VirtualStorage j) (TargetNodeStorage j) (RelativePath j)) j meta).
Proof. done. Qed.

Lemma pg_Enqueue_inv now event t r t' : Enqueue now event t = (r, t') -> pg_inv t -> pg_inv t'.
Proof.
  unfold Enqueue. case_decide; [|intros; unfold_M; by simplify_eq]. unfold_M.
  destruct (insertRow _ t) as [[id|e|] t1] eqn:Hi; intros He Hinv; simplify_eq; eauto using insertRow_inv, fresh_newRow.
Qed.

Lemma queue_step_inv t t' : queue_step t t' -> pg_inv t -> pg_inv t'.
Proof.
  destruct 1 as [????? He|?????????? Hd|??????? Ha|????? Hh|????? Hs|???? Hf Hi|? seq Hseq].
  - exact (pg_Enqueue_inv _ _ _ _ _ He).
  - exact (Dequeue_inv _ _ _ _ _ _ _ _ _ _ Hd).
  - exact (Acknowledge_inv _ _ _ _ _ _ Ha).
  - exact (StartHealthUpdate_inv _ _ _ _ _ Hh).
  - exact (AcknowledgeStale_inv _ _ _ _ _ Hs).
  - exact (insertRow_inv _ _ _ _ Hf Hi).
  - intros []. split; try done; simpl; [|lia]. intros id r Hr. specialize (pi_ids0 id r Hr). lia.
Qed.

Lemma queue_steps_inv t t' : rtc queue_step t t' -> pg_inv t -> pg_inv t'.
Proof. induction 1; eauto using queue_step_inv. Qed.

(** *** Attempts

    The replication manager acknowledges an event as failed only while it has attempts
    left, and as dead otherwise (src/internal/praefect/replicator.go); rows start with
    three attempts. *)

Inductive worker_step : QueueTables -> QueueTables -> Prop :=
| ws_enqueue now event r t t' : Enqueue now event t = (r, t') -> worker_step t t'
| ws_dequeue window limit now skipped vs ns count r t t' :
    Dequeue window limit now skipped vs ns count t = (r, t') -> worker_step t t'
| ws_acknowledge RR now state ids r t t' :
    (state = JobStateFailed -> forall id row, replication_queue t !! id = Some row -> acknowledgeable ids id row -> 1 <= q_attempt row) ->
    Acknowledge (RR := RR) now state ids t = (r, t') -> worker_step t t'
| ws_health ticks events r t t' : StartHealthUpdate ticks events t = (r, t') -> worker_step t t'
| ws_stale now staleAfter r t t' : AcknowledgeStale now staleAfter t = (r, t') -> worker_step t t'
| ws_insert row r t t' : fresh_row row -> q_attempt row = 3 -> insertRow row t = (r, t') -> worker_step t t'
| ws_nextval t seq : replication_queue_id_seq t <= seq <= bigintMax ->
    worker_step t (mkTables (replication_queue_lock t) (replication_queue t) (replication_queue_job_lock t) seq).

Lemma worker_queue_step t t' : worker_step t t' -> queue_step t t'.
Proof.
  destruct 1 as [????? He|?????????? Hd|??????? _ Ha|????? Hh|????? Hs|???? Hf _ Hi|? seq Hseq].
  - exact (qs_enqueue _ _ _ _ _ He).
  - exact (qs_dequeue _ _ _ _ _ _ _ _ _ _ Hd).
  - exact (qs_acknowledge _ _ _ _ _ _ _ Ha).
  - exact (qs_health _ _ _ _ _ Hh).
  - exact (qs_stale _ _ _ _ _ Hs).
  - exact (qs_insert _ _ _ _ Hf Hi).
  - exact (qs_nextval _ _ Hseq).
Qed.

(** The events that wait have attempts left. *)
Definition attempts_left (t : QueueTables) : Prop :=
  forall id r, replication_queue t !! id = Some r -> q_state r = JobStateReady \/ q_state r = JobStateFailed -> 1 <= q_attempt r.

Lemma insertRow_attempts row t r t' : q_attempt row = 3 -> insertRow row t = (r, t') -> attempts_left t -> attempts_left t'.
Proof.
  intros H3 Hi Ha. destruct (insertRow_cases row t r t' Hi) as [(e & _ & _ & Hq & _)|(id & _ & _ & _ & _ & _ & ->)].
  - intros id r0. rewrite Hq. apply Ha.
  - intros id' r'. cbn. intros [[_ <-]|[_ Hr]]%lookup_insert_Some; [lia|by apply (Ha id')].
Qed.

Lemma Dequeue_attempts window limit now skipped vs ns count t r t' :
  Dequeue window limit now skipped vs ns count t = (r, t') -> attempts_left t -> attempts_left t'.
Proof.
  unfold Dequeue. unfold_M. case_decide; [by intros [= _ <-]|]. intros [= _ <-] Ha id r'. cbn.
  intros [(r0 & _ & ->)|[_ Hr]]%started_lookup; [by intros [?|?]|by apply (Ha id)|apply pg_candidates_nodup].
Qed.

Lemma Acknowledge_attempts {RR : MapRange Z QueueRow} now state ids t r t' :
  (state = JobStateFailed -> forall id row, replication_queue t !! id = Some row -> acknowledgeable ids id row -> 1 <= q_attempt row) ->
  Acknowledge now state ids t = (r, t') -> attempts_left t -> attempts_left t'.
Proof.
  intros Hf. unfold Acknowledge. case_decide; [intros [= _ <-]; done|]. destruct (allowToAck state) eqn:Hallow; [intros [= _ <-]; done|]. unfold_M.
  case_decide; [|intros [= _ <-]; done]. intros [= _ <-] Ha id r'. cbn.
  intros (v & Hv & Hcase)%lookup_updateWhere_Some. apply lookup_deleteWhere_Some in Hv as [Hv _].
  destruct Hcase as [[Hin ->]|[_ ->]]; [|by apply (Ha id)]. cbn in Hin. apply elem_of_dom in Hin as [v' [Hv' Hack]%lookup_selectWhere_Some].
  assert (v' = v) as -> by congruence. cbn. destruct state; try discriminate; intros [?|?]; try done. by apply (Hf eq_refl id v).
Qed.

Lemma StartHealthUpdate_queue ticks events t r t' :
  StartHealthUpdate ticks events t = (r, t') -> replication_queue t' = replication_queue t.
Proof.
  unfold StartHealthUpdate. case_decide; [by intros [= _ <-]|].
  revert t. induction ticks as [|now ticks IH]; intros t Hh; cbn [healthLoop] in Hh; unfold_M; [by injection Hh as _ <-|].
  destruct (healthUpdate now events t) as [ra t1] eqn:Hu. unfold healthUpdate in Hu. unfold_M. injection Hu as <- <-. cbn in Hh.
  case_decide; [by injection Hh as _ <-|]. by rewrite (IH _ Hh).
Qed.

Lemma worker_step_attempts t t' : worker_step t t' -> attempts_left t -> attempts_left t'.
Proof.
  destruct 1 as [???? t' He|?????????? Hd|??????? Hf Ha|???? t' Hh|????? Hs|???? Hf H3 Hi|]; intros Hl.
  - revert He. unfold Enqueue. case_decide; [|by intros [= _ <-]]. unfold_M.
    destruct (insertRow _ t) as [[id|e|] t1] eqn:Hi; intros [= _ <-]; (refine (insertRow_attempts _ _ _ _ _ Hi Hl); reflexivity).
  - exact (Dequeue_attempts _ _ _ _ _ _ _ _ _ _ Hd Hl).
  - exact (Acknowledge_attempts _ _ _ _ _ _ Hf Ha Hl).
  - intros id r0. rewrite (StartHealthUpdate_queue _ _ _ _ _ Hh). apply Hl.
  - unfold AcknowledgeStale in Hs. unfold_M. injection Hs as _ <-. intros id r0. cbn.
    intros (v & Hv & [[_ ->]|[_ ->]])%lookup_updateWhere_Some; [|by apply (Hl id)]. cbn. case_decide; [lia|]. by intros [?|?].
  - exact (insertRow_attempts _ _ _ _ H3 Hi Hl).
  - exact Hl.
Qed.

Lemma worker_steps_ok t : rtc worker_step emptyTables t -> rtc queue_step emptyTables t /\ attempts_left t.
Proof.
  intros Hr. assert (Hgen : forall t0, rtc worker_step t0 t -> attempts_left t0 -> rtc queue_step t0 t /\ attempts_left t).
  { induction 1 as [|x y z Hs _ IH]; intros Hl; [done|]. destruct (IH Hr (worker_step_attempts _ _ Hs Hl)) as [? ?].
    split; [|done]. eapply rtc_l; [by apply worker_queue_step|done]. }
  apply Hgen; [done|]. intros id r H. cbn in H. by rewrite lookup_empty in H.
Qed.

(** ** Names of storages in lock names *)

Definition delimiter_free (s : string) : Prop := "|"%char ∉ text s.
Definition wildcard_free (s : string) : Prop := Forall (fun c => ~ wildcard c) (text s).

#[export] Instance delimiter_free_dec s : Decision (delimiter_free s).
Proof. unfold delimiter_free. apply _. Defined.

#[export] Instance wildcard_free_dec s : Decision (wildcard_free s).
Proof. unfold wildcard_free. apply _. Defined.

Lemma split_at_first {A} (c : A) l1 l2 r1 r2 :
  c ∉ l1 -> c ∉ l2 -> l1 ++ c :: r1 = l2 ++ c :: r2 -> l1 = l2 /\ r1 = r2.
Proof.
  revert l2. induction l1 as [|x l1 IH]; intros [|y l2] H1 H2 Heq; simpl in Heq; simplify_eq; try done.
  - set_solver.
  - set_solver.
  - destruct (IH l2) as [-> ->]; [set_solver..|done|done].
Qed.

Lemma lock_of_target vs ns vs' ns' path :
  wildcard_free vs -> wildcard_free ns -> delimiter_free vs -> delimiter_free ns ->
  delimiter_free vs' -> delimiter_free ns' ->
  like (text (vs +:+ "|" +:+ ns +:+ "|%")) (text (lockName vs' ns' path)) = true <-> vs' = vs /\ ns' = ns.
Proof.
  intros Hw Hw' Hd Hd' Hv Hn.
  assert (Hpat : text (vs +:+ "|" +:+ ns +:+ "|%") = (text vs ++ "|"%char :: text ns ++ ["|"%char]) ++ text "%").
  { rewrite !text_app. change (text "|%") with (["|"%char] ++ text "%"). rewrite <- app_assoc. simpl.
    by rewrite <- app_assoc. }
  rewrite Hpat, like_prefix.
  - unfold lockName. rewrite !text_app. change (text "|") with ["|"%char]. simpl. split.
    + intros [r Heq]. rewrite <- app_assoc in Heq. simpl in Heq. rewrite <- app_assoc in Heq.
      apply split_at_first in Heq as [Hvs Heq]; [|done..].
      apply split_at_first in Heq as [Hns _]; [|done..]. by apply text_inj in Hvs, Hns.
    + intros [-> ->]. exists (text path). rewrite <- app_assoc. simpl. by rewrite <- app_assoc.
  - apply Forall_app. split; [done|]. constructor; [by unfold wildcard; intros [|[|]]|].
    apply Forall_app. split; [done|]. repeat constructor. by unfold wildcard; intros [|[|]].
Qed.

(** The names of the queued events hold no delimiter. *)
Definition names_ok (t : QueueTables) : Prop :=
  forall id r, replication_queue t !! id = Some r ->
    delimiter_free (VirtualStorage (q_job r)) /\ delimiter_free (TargetNodeStorage (q_job r)).

(** ** Theorems *)

(** C13. In every state the statements of any number of Praefects can reach, each
    event in progress has a job lock and each job lock belongs to an event in
    progress, a repository's lock is acquired exactly while one of its events is
    in progress, at most one event per repository, storage and kind of change is
    in progress, and at most one replica of a repository is queued for deletion. *)
Theorem pg_queue_invariant t : rtc queue_step emptyTables t -> pg_inv t.
Proof. intros Hr. apply (queue_steps_inv _ _ Hr), pg_inv_empty. Qed.

(** A row that waits for the node, on a lock no other statement holds. *)
Definition waiting (vs ns : string) (skipped : gset string) (r : QueueRow) : Prop :=
  VirtualStorage (q_job r) = vs /\ TargetNodeStorage (q_job r) = ns /\ q_lock_id r ∉ skipped /\
  (q_state r = JobStateReady \/ q_state r = JobStateFailed).

(** No event of the row's repository and storage is in progress. *)
Definition idle (t : QueueTables) (r : QueueRow) : Prop :=
  forall id' r', replication_queue t !! id' = Some r' -> q_lock_id r' = q_lock_id r ->
    q_state r' ≠ JobStateInProgress.

Lemma idle_locks t id r :
  pg_inv t -> replication_queue t !! id = Some r ->
  idle t r <-> replication_queue_lock t !! q_lock_id r = Some false /\ jobLocksOf (q_lock_id r) t = O.
Proof.
  intros Hinv Hr. rewrite jobLocksOf_zero. split.
  - intros Hid.
    assert (Hno : forall id', replication_queue_job_lock t !! (id', q_lock_id r) = None).
    { intros id'. apply eq_None_not_Some. intros (r' & Hr' & Hl & Hp)%(pi_job_lock _ Hinv). by eapply Hid. }
    split; [|done]. destruct (pi_lock _ Hinv id r Hr) as [[] Hb]; [|done].
    apply (pi_acquired _ Hinv) in Hb as [id' [v Hv]]. by rewrite Hno in Hv.
  - intros [_ Hno] id' r' Hr' Hl Hp. destruct (pi_progress _ Hinv id' r' Hr' Hp) as [[v Hv] _].
    by rewrite Hl, Hno in Hv.
Qed.

Lemma eligible_iff vs ns skipped t id r :
  pg_inv t -> names_ok t -> wildcard_free vs -> wildcard_free ns -> delimiter_free vs -> delimiter_free ns ->
  replication_queue t !! id = Some r -> eligible vs ns skipped t r <-> waiting vs ns skipped r /\ idle t r.
Proof.
  intros Hinv Hnames Hw Hw' Hd Hd' Hr. destruct (Hnames id r Hr) as [Hn Hn'].
  rewrite (idle_locks t id r) by done. unfold eligible, lockable, waiting.
  rewrite (pi_name _ Hinv id r Hr) at 3. rewrite lock_of_target by done. tauto.
Qed.

Section DequeueTheorem.
Context (window limit : OrderBy byCreation) (now : Z) (skipped : gset string) (vs ns : string) (count : Z).
Context (t : QueueTables) (res : list ReplicationEvent) (t' : QueueTables).

(** What [Dequeue] hands out and leaves. *)
Record dequeued : Prop := {
  de_count : Z.of_nat (length res) <= count;
  de_sorted : StronglySorted Z.lt (ID <$> res);
  de_event : forall e, e ∈ res -> exists r, replication_queue t !! ID e = Some r /\
    waiting vs ns skipped r /\ idle t r /\
    (forall id' r', replication_queue t !! id' = Some r' -> waiting vs ns skipped r' ->
       samePartition r r' -> q_created_at r <= q_created_at r') /\
    e = rowEvent (ID e) (startJob now r) /\ replication_queue t' !! ID e = Some (startJob now r) /\
    replication_queue_lock t' !! LockID e = Some true;
  de_distinct : forall e e', e ∈ res -> e' ∈ res ->
    LockID e = LockID e' -> Change (Job e) = Change (Job e') -> e = e';
  de_rest : forall id, id ∉ (ID <$> res) -> replication_queue t' !! id = replication_queue t !! id;
  de_complete : Z.of_nat (length res) < count ->
    forall id r, replication_queue t !! id = Some r -> waiting vs ns skipped r -> idle t r ->
      exists e, e ∈ res /\ LockID e = q_lock_id r /\ Change (Job e) = Change (q_job r);
}.
End DequeueTheorem.

#[local] Instance eventIdLe_total : Total eventIdLe.
Proof. intros a b. unfold eventIdLe. lia. Qed.

#[local] Instance eventIdLe_trans : Transitive eventIdLe.
Proof. intros a b c. unfold eventIdLe. lia. Qed.

Lemma sorted_lt_of_le (l : list Z) : StronglySorted Z.le l -> NoDup l -> StronglySorted Z.lt l.
Proof.
  induction 1 as [|x l Hs IH Hx]; intros Hnd; [constructor|]. apply NoDup_cons in Hnd as [Hn Hnd].
  constructor; [by apply IH|]. rewrite Forall_forall in *. intros y Hy.
  specialize (Hx y Hy). assert (x ≠ y) by (intros ->; done). lia.
Qed.

Section DequeueResult.
Context (window limit : OrderBy byCreation) (now : Z) (skipped : gset string) (vs ns : string) (count : Z).
Context (t : QueueTables) (Hinv : pg_inv t).

Abbreviation cands := (candidates window limit vs ns count skipped t).
Abbreviation handed := (merge_sort eventIdLe
  ((fun kv => rowEvent kv.1 kv.2) <$> ((fun kv => (kv.1, startJob now kv.2)) <$> cands))).

Lemma candidate_id id r : (id, r) ∈ cands -> u64 id = id.
Proof using Hinv.
  intros (Hq & _)%candidate_elem. destruct (pi_ids _ Hinv id r Hq). destruct (pi_seq _ Hinv).
  apply u64_small. unfold bigintMax in *. lia.
Qed.

Lemma handed_elem e :
  e ∈ handed <-> exists r, (ID e, r) ∈ cands /\ e = rowEvent (ID e) (startJob now r).
Proof using Hinv.
  rewrite merge_sort_Permutation, <- list_fmap_compose, list_elem_of_fmap. split.
  - intros ([id r] & -> & Hin). simpl. rewrite (candidate_id id r Hin). eauto.
  - intros (r & Hin & He). exists (ID e, r). done.
Qed.

Lemma handed_sorted : StronglySorted Z.lt (ID <$> handed).
Proof using Hinv.
  apply sorted_lt_of_le.
  - apply StronglySorted_fmap with (R1 := eventIdLe); [|apply StronglySorted_merge_sort; apply _].
    by intros.
  - rewrite (fmap_Permutation ID _ _ (merge_sort_Permutation eventIdLe _)), <- !list_fmap_compose.
    rewrite (list_fmap_ext _ fst); [apply pg_candidates_nodup|].
    intros i [id r] Hi. simpl. apply (candidate_id id r). by eapply list_elem_of_lookup_2.
Qed.
End DequeueResult.

Lemma Dequeue_dequeued window limit now skipped vs ns count t :
  pg_inv t -> names_ok t -> 0 <= count -> wildcard_free vs -> wildcard_free ns -> delimiter_free vs -> delimiter_free ns ->
  exists res t', Dequeue window limit now skipped vs ns count t = (Ok res, t') /\ dequeued now skipped vs ns count t res t'.
Proof.
  intros Hinv Hnames Hcount Hw Hw' Hd Hd'. unfold Dequeue. unfold_M. rewrite decide_False by lia. do 2 eexists. split; [done|].
  pose proof (pg_candidates_nodup window limit vs ns count skipped t) as Hnd.
  assert (Hel : forall id r, (id, r) ∈ candidates window limit vs ns count skipped t ->
    replication_queue t !! id = Some r /\ waiting vs ns skipped r /\ idle t r).
  { intros id r (Hq & He & _)%candidate_elem. split; [done|].
    by apply (eligible_iff vs ns skipped t id r) in He. }
  split; simpl.
  - rewrite merge_sort_Permutation, !length_fmap.
    pose proof (candidates_length window limit vs ns count skipped t). lia.
  - by apply handed_sorted.
  - intros e (r & Hin & He)%handed_elem; [|done]. destruct (Hel _ _ Hin) as (Hq & Hwait & Hidle).
    exists r. split_and!; try done.
    + intros id' r' Hr' Hw1 Hs. apply (candidate_oldest window limit vs ns count skipped t (ID e) r id' r'); try done.
      apply (eligible_iff vs ns skipped t id' r'); [done..|]. split; [done|].
      intros id2 r2 Hr2 Hl2. apply (Hidle id2 r2); [done|]. rewrite Hl2. by destruct Hs.
    + apply started_lookup; [done|]. left. eauto.
    + rewrite He. simpl. apply dequeued_acquired; [done|]. exists (ID e). left. eauto.
  - intros e e' (r & Hin & He)%handed_elem (r' & Hin' & He')%handed_elem; [|done..]. rewrite He, He'. simpl.
    intros Hl Hc. assert (Hid : ID e = ID e') by (by apply (candidate_partition window limit vs ns count skipped t (ID e) r (ID e') r')).
    destruct (Hel _ _ Hin) as (Hq & _), (Hel _ _ Hin') as (Hq' & _). rewrite Hid in *. by simplify_eq.
  - intros id Hn. apply option_eq. intros r'. rewrite started_lookup by done.
    assert (Hnot : id ∉ (candidates window limit vs ns count skipped t).*1).
    { intros ([id' r] & Hid & Hin)%list_elem_of_fmap. simpl in Hid. subst id'. apply Hn. apply list_elem_of_fmap.
      pose proof (candidate_id _ _ _ _ _ _ _ Hinv _ _ Hin) as Hu.
      exists (rowEvent id (startJob now r)). split; [done|]. apply handed_elem; [done|]. simpl. rewrite Hu. eauto. }
    split; [|by right]. intros [(r & Hin & _)|[_ ?]]; [|done]. destruct Hnot. apply list_elem_of_fmap. by exists (id, r).
  - rewrite merge_sort_Permutation, !length_fmap. intros Hroom id r Hid Hwait Hidle.
    destruct (candidates_complete window limit vs ns count skipped t id r) as (id' & r' & Hin & Hs); [done| |done|].
    { by apply (eligible_iff vs ns skipped t id r). }
    pose proof (candidate_id _ _ _ _ _ _ _ Hinv _ _ Hin) as Hu.
    exists (rowEvent id' (startJob now r')). split; [apply handed_elem; [done|]; simpl; rewrite Hu; eauto|].
    by destruct Hs.
Qed.

(** C16. In a state that the statements of the queue have led to, where events are
    acknowledged as failed only while they have attempts left, as the replication
    manager does, and for names without the delimiter and without
    wildcards of LIKE, [Dequeue] hands out at most [count] events in the order of
    their IDs, only events with attempts left that wait for that node, of repositories none of whose
    events for the node is in progress, at most one per repository and kind of
    change and always the oldest; it marks exactly these as in progress, uses up
    an attempt (but not of a deletion) and takes their locks. If it returns fewer
    than [count] events, no such kind of waiting event was left out. *)
Theorem pg_Dequeue_correct window limit now skipped vs ns count t :
  rtc worker_step emptyTables t -> names_ok t -> 0 <= count ->
  wildcard_free vs -> wildcard_free ns -> delimiter_free vs -> delimiter_free ns ->
  exists res t', Dequeue window limit now skipped vs ns count t = (Ok res, t') /\
    dequeued now skipped vs ns count t res t' /\
    forall e, e ∈ res -> exists r, replication_queue t !! ID e = Some r /\ 1 <= q_attempt r.
Proof.
  intros Hr Hnames Hcount Hw Hw' Hd Hd'. destruct (worker_steps_ok t Hr) as [Hr' Hleft].
  assert (Hinv : pg_inv t) by (apply (queue_steps_inv _ _ Hr'), pg_inv_empty).
  destruct (Dequeue_dequeued window limit now skipped vs ns count t Hinv Hnames Hcount Hw Hw' Hd Hd') as (res & t' & He & Hres).
  exists res, t'. split; [done|]. split; [done|]. intros e Hin. destruct (de_event _ _ _ _ _ _ _ _ Hres e Hin) as (r & Hl & (_ & _ & _ & Hst) & _).
  exists r. split; [done|]. by apply (Hleft (ID e)).
Qed.

(** The rows [Acknowledge] leaves: of the acknowledged ones, those completed or
    dead are gone and the others have the new state; ready events that a completed
    one has made superfluous are gone; all others are as before. *)
Definition acknowledgedRow (now : Z) (state : JobState) (ids : list Z) (t : QueueTables) (id : Z) (r : QueueRow)
    : option QueueRow :=
  if decide (id ∈ ids /\ q_state r = JobStateInProgress) then
    if decide (state = JobStateCompleted \/ state = JobStateDead) then None else Some (setRowState state now r)
  else if decide (state = JobStateCompleted /\
      Exists (fun kv => kv.1 ∈ ids /\ q_state kv.2 = JobStateInProgress /\ similarTo kv.2 r)
        (map_to_list (replication_queue t)))
    then None
  else Some r.

Lemma acquired_iff t l :
  pg_inv t -> replication_queue_lock t !! l = Some true <->
  exists id r, replication_queue t !! id = Some r /\ q_lock_id r = l /\ q_state r = JobStateInProgress.
Proof.
  intros Hinv. rewrite (pi_acquired _ Hinv). split.
  - intros [id (r & ?)%(pi_job_lock _ Hinv)]. eauto.
  - intros (id & r & Hr & <- & Hp). exists id. by destruct (pi_progress _ Hinv id r Hr Hp).
Qed.

Lemma fmap_i64 (l : list Z) : Forall (fun id => 0 <= id <= bigintMax) l -> (i64 <$> l) = l.
Proof.
  induction 1 as [|id l Hid _ IH]; [done|]. rewrite fmap_cons, IH, i64_small; [done|].
  unfold bigintMax in *. lia.
Qed.

Section AcknowledgeResult.
Context {RR : MapRange Z QueueRow} (now : Z) (state : JobState) (ids : list Z) (t : QueueTables).
Context (Hinv : pg_inv t) (Hids : Forall (fun id => 0 <= id <= bigintMax) ids).

Lemma ids_i64 : (i64 <$> ids) = ids.
Proof using Hids. by apply fmap_i64. Qed.

Abbreviation existing := (selectWhere (fun kv => acknowledgeable ids kv.1 kv.2) (replication_queue t)).

Lemma returned_ids : (fun kv => u64 kv.1) <$> range existing = (range existing).*1.
Proof using Hinv.
  apply list_fmap_ext. intros i [id r] Hi. simpl. apply list_elem_of_lookup_2, range_elem in Hi.
  apply lookup_selectWhere_Some in Hi as [Hq _]. destruct (pi_ids _ Hinv id r Hq), (pi_seq _ Hinv).
  apply u64_small. unfold bigintMax in *. lia.
Qed.

Lemma returned_elem id : id ∈ (range existing).*1 <->
  id ∈ ids /\ exists r, replication_queue t !! id = Some r /\ q_state r = JobStateInProgress.
Proof using Hids.
  rewrite list_elem_of_fmap. split.
  - intros ([id' r] & -> & Hin%range_elem). apply lookup_selectWhere_Some in Hin as [Hq [Hid Hp]].
    simpl in *. rewrite ids_i64 in Hid. eauto.
  - intros (Hid & r & Hr & Hp). exists (id, r). split; [done|]. apply range_elem, lookup_selectWhere_Some.
    split; [done|]. split; [by rewrite ids_i64|done].
Qed.

Lemma remaining_row id r' :
  updateWhere (fun kv => kv.1 ∈ dom existing) (setRowState state now)
    (deleteWhere (fun kv => isDeleted state existing kv.1 kv.2) (replication_queue t)) !! id = Some r' <->
  replication_queue t !! id ≫= acknowledgedRow now state ids t id = Some r'.
Proof using Hids.
  rewrite lookup_updateWhere_Some. setoid_rewrite lookup_deleteWhere_Some. cbn [fst snd].
  destruct (replication_queue t !! id) as [r|] eqn:Hr; simpl; [|naive_solver].
  assert (Hex : id ∈ dom existing <-> id ∈ ids /\ q_state r = JobStateInProgress).
  { rewrite existing_elem, ids_i64. naive_solver. }
  assert (Hsim : Exists (fun kv => similarTo kv.2 r) (map_to_list existing) <->
    Exists (fun kv => kv.1 ∈ ids /\ q_state kv.2 = JobStateInProgress /\ similarTo kv.2 r)
      (map_to_list (replication_queue t))).
  { rewrite !Exists_exists. split.
    - intros ([k v] & Hin%elem_of_map_to_list & Hs). apply lookup_selectWhere_Some in Hin as [Hk [Hi Hp]]. simpl in *.
      exists (k, v). rewrite elem_of_map_to_list. rewrite ids_i64 in Hi. done.
    - intros ([k v] & Hin%elem_of_map_to_list & Hi & Hp & Hs). simpl in *. exists (k, v). split; [|done].
      apply elem_of_map_to_list, lookup_selectWhere_Some. split; [done|]. split; [by rewrite ids_i64|done]. }
  unfold acknowledgedRow, isDeleted. repeat case_decide; naive_solver.
Qed.
End AcknowledgeResult.

(** C20. In a reachable state [Acknowledge] succeeds for every state it accepts
    and every list of event IDs; it returns exactly the requested IDs that are in
    progress, does to every row what [acknowledgedRow] says, and afterwards a lock
    is acquired exactly if one of its events is still in progress. *)
Theorem pg_Acknowledge_correct {RR : MapRange Z QueueRow} now state ids t :
  rtc queue_step emptyTables t -> ids ≠ [] -> allowToAck state = None ->
  Forall (fun id => 0 <= id <= bigintMax) ids ->
  exists res t', Acknowledge now state ids t = (Ok res, t') /\ NoDup res /\
    (forall id, id ∈ res <-> id ∈ ids /\ exists r, replication_queue t !! id = Some r /\ q_state r = JobStateInProgress) /\
    (forall id, replication_queue t' !! id = replication_queue t !! id ≫= acknowledgedRow now state ids t id) /\
    (forall l, replication_queue_lock t' !! l = Some true <->
      exists id r, replication_queue t' !! id = Some r /\ q_lock_id r = l /\ q_state r = JobStateInProgress).
Proof.
  intros Hr Hne Hallow Hids.
  assert (Hinv : pg_inv t) by (apply (queue_steps_inv _ _ Hr), pg_inv_empty).
  pose proof (acknowledge_settles now state ids t Hallow Hinv) as Hs.
  unfold Acknowledge. rewrite (decide_False (P := ids = [])) by done. rewrite Hallow. unfold_M.
  rewrite decide_True by by eapply settles_refer. do 2 eexists. split; [done|]. simpl. split_and!.
  - rewrite returned_ids by done. apply range_nodup.
  - intros id. rewrite returned_ids by done. by apply returned_elem.
  - intros id. apply option_eq. intros r'. by apply remaining_row.
  - intros l. apply (acquired_iff _ l (settles_inv _ _ _ _ Hinv Hs)).
Qed.

(** The event's health identifier is older than [staleAfter]. *)
Definition isStale (now staleAfter : Z) (t : QueueTables) (id : Z) (r : QueueRow) : Prop :=
  exists at_, replication_queue_job_lock t !! (id, q_lock_id r) = Some at_ /\ at_ < now - staleAfter.

#[export] Instance isStale_dec now staleAfter t id r : Decision (isStale now staleAfter t id r).
Proof.
  unfold isStale. destruct (replication_queue_job_lock t !! (id, q_lock_id r)) as [a|].
  - destruct (decide (a < now - staleAfter)); [left; eauto|right; naive_solver].
  - right. naive_solver.
Defined.

Lemma stale_iff now staleAfter t id r :
  pg_inv t -> replication_queue t !! id = Some r ->
  countWhere (fun kv => kv.1.1 = id) (selectWhere (fun kv => kv.2 < now - staleAfter) (replication_queue_job_lock t)) ≠ O
  <-> isStale now staleAfter t id r.
Proof.
  intros Hinv Hr. unfold countWhere. rewrite map_size_ne_0_lookup. split.
  - intros ([id' l] & v & [[Hv Hlt]%lookup_selectWhere_Some Hid]%lookup_selectWhere_Some). simpl in *. subst id'.
    destruct (pi_job_lock _ Hinv id l (mk_is_Some _ _ Hv)) as (r' & Hr' & Hl & _). exists v. split; [|done]. congruence.
  - intros (v & Hv & Hlt). exists (id, q_lock_id r), v. apply lookup_selectWhere_Some. split; [|done].
    by apply lookup_selectWhere_Some.
Qed.

(** In a reachable state [AcknowledgeStale] returns the events of crashed
    workers to the queue: an event whose health identifier is stale is failed if
    it has attempts left and dead otherwise, no other event changes, what is still
    in progress is not stale, and a repository all of whose events were stale can
    be dequeued again. *)
Theorem pg_AcknowledgeStale_correct now staleAfter t :
  rtc queue_step emptyTables t ->
  exists t', AcknowledgeStale now staleAfter t = (Ok tt, t') /\
    (forall id, replication_queue t' !! id =
      (fun r => if decide (isStale now staleAfter t id r) then staleState r else r) <$> replication_queue t !! id) /\
    (forall id r, replication_queue t' !! id = Some r -> q_state r = JobStateInProgress ->
      exists at_, replication_queue_job_lock t' !! (id, q_lock_id r) = Some at_ /\ now - staleAfter <= at_) /\
    (forall id r, replication_queue t' !! id = Some r -> idle t' r ->
      replication_queue_lock t' !! q_lock_id r = Some false).
Proof.
  intros Hr. assert (Hinv : pg_inv t) by (apply (queue_steps_inv _ _ Hr), pg_inv_empty).
  unfold AcknowledgeStale. unfold_M. eexists. split; [done|]. simpl.
  pose proof (stale_settles now staleAfter t Hinv) as Hs.
  pose proof (settles_inv _ _ _ _ Hinv Hs) as Hinv'. split_and!.
  - intros id. rewrite lookup_updateWhere. destruct (replication_queue t !! id) as [r|] eqn:Hid; [|done]. simpl.
    f_equal. apply decide_ext. by apply stale_iff.
  - intros id r Hid Hp. destruct (pi_progress _ Hinv' id r Hid Hp) as [[v Hv] _]. simpl in Hv. exists v.
    split; [done|]. apply lookup_difference_Some in Hv as [Hv Hn].
    destruct (decide (v < now - staleAfter)) as [Hlt|]; [|lia].
    rewrite (proj2 (lookup_selectWhere_Some _ _ _ v)) in Hn by done. done.
  - intros id r Hid Hidle. by apply (idle_locks _ id r Hinv' Hid) in Hidle as [? _].
Qed.

(** ** Examples *)

Definition ex_order : OrderBy byCreation := default_order byCreation.

Definition ex_job (change : ChangeType) (target path : string) : ReplicationJob :=
  mkJob 1 change path target "gitaly-0" "default" None.

Definition ex_event (change : ChangeType) (target path : string) : ReplicationEvent :=
  mkEvent 0 JobStateReady 0 "" 0 None (ex_job change target path) None.

Definition ex_enqueued : QueueTables :=
  ((_ ← Enqueue 10 (ex_event UpdateRepo "gitaly-1" "a.git");
    _ ← Enqueue 20 (ex_event UpdateRepo "gitaly-1" "a.git");
    _ ← Enqueue 30 (ex_event GarbageCollect "gitaly-1" "a.git");
    Enqueue 40 (ex_event UpdateRepo "gitaly-2" "a.git")) emptyTables).2.

Definition ex_dequeued : out QueueError (list ReplicationEvent) * QueueTables :=
  Dequeue ex_order ex_order 50 ∅ "default" "gitaly-1" 10 ex_enqueued.

Lemma ex_enqueue_step now event t : worker_step t (Enqueue now event t).2.
Proof. eapply ws_enqueue. apply surjective_pairing. Qed.

Lemma ex_enqueued_worked : rtc worker_step emptyTables ex_enqueued.
Proof.
  eapply rtc_l; [apply (ex_enqueue_step 10 (ex_event UpdateRepo "gitaly-1" "a.git"))|].
  eapply rtc_l; [apply (ex_enqueue_step 20 (ex_event UpdateRepo "gitaly-1" "a.git"))|].
  eapply rtc_l; [apply (ex_enqueue_step 30 (ex_event GarbageCollect "gitaly-1" "a.git"))|].
  eapply rtc_l; [apply (ex_enqueue_step 40 (ex_event UpdateRepo "gitaly-2" "a.git"))|].
  match goal with |- rtc _ ?t _ => assert (t = ex_enqueued) as -> by (vm_compute; reflexivity) end. apply rtc_refl.
Qed.

Lemma ex_enqueued_reachable : rtc queue_step emptyTables ex_enqueued.
Proof. by apply worker_steps_ok, ex_enqueued_worked. Qed.

Lemma ex_dequeued_reachable : rtc queue_step emptyTables ex_dequeued.2.
Proof.
  eapply rtc_r; [apply ex_enqueued_reachable|]. eapply qs_dequeue. apply surjective_pairing.
Qed.

Lemma ex_names : names_ok ex_enqueued.
Proof.
  assert (Hall : Forall (fun kv => delimiter_free (VirtualStorage (q_job kv.2)) /\
    delimiter_free (TargetNodeStorage (q_job kv.2))) (map_to_list (replication_queue ex_enqueued))).
  { eapply bool_decide_unpack. vm_compute. exact I. }
  rewrite Forall_forall in Hall. intros id r Hr. apply (Hall (id, r)). by apply elem_of_map_to_list.
Qed.

Lemma pg_queue_invariant_witness : pg_inv ex_dequeued.2.
Proof. apply pg_queue_invariant, ex_dequeued_reachable. Defined.

Lemma pg_Dequeue_correct_witness :
  exists res t', Dequeue ex_order ex_order 50 ∅ "default" "gitaly-1" 10 ex_enqueued = (Ok res, t') /\
    dequeued 50 ∅ "default" "gitaly-1" 10 ex_enqueued res t' /\
    forall e, e ∈ res -> exists r, replication_queue ex_enqueued !! ID e = Some r /\ 1 <= q_attempt r.
Proof.
  apply pg_Dequeue_correct; [apply ex_enqueued_worked|apply ex_names|lia|..];
    eapply bool_decide_unpack; vm_compute; exact I.
Defined.

Lemma pg_Acknowledge_correct_witness :
  exists res t', Acknowledge (RR := default_range Z QueueRow) 60 JobStateCompleted [1; 3] ex_dequeued.2 = (Ok res, t') /\
    replication_queue t' !! 2 = None.
Proof.
  destruct (pg_Acknowledge_correct (RR := default_range Z QueueRow) 60 JobStateCompleted [1; 3] ex_dequeued.2)
    as (res & t' & He & _ & _ & Hrow & _); [apply ex_dequeued_reachable|done|done|by repeat constructor|].
  exists res, t'. split; [exact He|]. rewrite Hrow. vm_compute. reflexivity.
Defined.

Lemma pg_AcknowledgeStale_correct_witness :
  exists t', AcknowledgeStale 100 20 ex_dequeued.2 = (Ok tt, t') /\
    q_state <$> replication_queue t' !! 1 = Some JobStateFailed.
Proof.
  destruct (pg_AcknowledgeStale_correct 100 20 ex_dequeued.2) as (t' & He & Hrow & _); [apply ex_dequeued_reachable|].
  exists t'. split; [exact He|]. rewrite Hrow. vm_compute. reflexivity.
Defined.

(** A storage name with an underscore matches other storages as well: the worker
    of the node "gitaly_1" is handed a job whose target is "gitaly-1". *)
Lemma pg_Dequeue_wildcard :
  match (Dequeue ex_order ex_order 50 ∅ "default" "gitaly_1" 10 ex_enqueued).1 with
  | Ok (e :: _) => TargetNodeStorage (Job e) = "gitaly-1"
  | _ => False
  end.
Proof. vm_compute. reflexivity. Qed.

(** An event that failed with no attempts left is handed out again. *)
Lemma pg_Dequeue_without_attempts :
  let fail_once := fun t => (Acknowledge (RR := default_range Z QueueRow) 60 JobStateFailed [1]
    (Dequeue ex_order ex_order 50 ∅ "default" "gitaly-1" 1 t).2).2 in
  match (Dequeue ex_order ex_order 70 ∅ "default" "gitaly-1" 1 (fail_once (fail_once (fail_once ex_enqueued)))).1 with
  | Ok [e] => ID e = 1 /\ Attempt e = -1
  | _ => False
  end.
Proof. vm_compute. split; reflexivity. Qed.
