(* ===== verification/RepoStore.v ===== *)
(** The repository store (src/internal/praefect/datastore/repository_store.go):
    which repositories exist, on which storages, and at which generation each
    replica is.

    The state is the database's: a table is a finite map from its key to its
    other columns, a nullable column is an option, and one SQL statement is one
    atomic transition. Constraint violations leave the state unchanged. Foreign
    keys act as the migrations declare them: deleting a repository deletes its
    assignments and clears the [repository_id] of its replicas; renaming it
    renames its assignments. Connection failures are not modelled. *)

From S2P Require Import Prelude.

Inductive StoreError : Type :=
| RepositoryNotExistsError
| RepositoryExistsError
| ErrNoRowsAffected
| StoreRepositoryNotFound
| ErrWriteToOutdatedNodes
| StoreAlreadyExists
| DowngradeAttempted (storage : string) (current attempted : Z)
| StoreFailure (what : string).

#[export] Instance StoreError_eq_dec : EqDecision StoreError.
Proof. solve_decision. Defined.

(** ** Tables *)

Abbreviation repoKey := (string * string)%type.
Abbreviation replicaKey := (string * string * string)%type.

Record RepoRow : Type := mkRepoRow {
  repository_id : Z;
  generation : option Z;
  primary : option string;
  replica_path : string;
}.

Record ReplicaRow : Type := mkReplicaRow {
  r_repository_id : option Z;
  r_generation : Z;
}.

Record PostgresRepositoryStore : Type := mkStore {
  repositories : gmap repoKey RepoRow;
  storage_repositories : gmap replicaKey ReplicaRow;
  repository_assignments : gset replicaKey;
  id_seq : Z;
}.

Definition emptyStore : PostgresRepositoryStore := mkStore ∅ ∅ ∅ 0.

Abbreviation DB := (M PostgresRepositoryStore StoreError).

Definition with_repositories (f : gmap repoKey RepoRow -> gmap repoKey RepoRow)
    (s : PostgresRepositoryStore) :=
  mkStore (f (repositories s)) (storage_repositories s) (repository_assignments s) (id_seq s).

Definition with_replicas (f : gmap replicaKey ReplicaRow -> gmap replicaKey ReplicaRow)
    (s : PostgresRepositoryStore) :=
  mkStore (repositories s) (f (storage_repositories s)) (repository_assignments s) (id_seq s).

Definition set_generation (g : option Z) (r : RepoRow) : RepoRow :=
  mkRepoRow (repository_id r) g (primary r) (replica_path r).

Definition incr_replica (r : ReplicaRow) : ReplicaRow :=
  mkReplicaRow (r_repository_id r) (r_generation r + 1).

(** ** Queries *)

Definition GenerationUnknown : Z := -1.

Definition GetGeneration (vs path storage : string) (s : PostgresRepositoryStore) : Z :=
  match storage_repositories s !! (vs, path, storage) with
  | None => GenerationUnknown
  | Some r => r_generation r
  end.

(** The replicas of one repository. *)
Definition replicas (vs path : string) (s : PostgresRepositoryStore) : gmap replicaKey ReplicaRow :=
  filter (fun kv => kv.1.1 = (vs, path)) (storage_repositories s).

(** [SELECT MAX(generation)]; NULL without rows. *)
Definition maxGeneration (m : gmap replicaKey ReplicaRow) : option Z :=
  map_fold (fun _ r acc =>
    Some (match acc with None => r_generation r | Some g => g `max` r_generation r end)) None m.

Definition GetConsistentStorages (vs path : string) (s : PostgresRepositoryStore)
    : out StoreError (gset string) :=
  let storages :=
    match repositories s !! (vs, path) with
    | None => ∅
    | Some _ =>
      set_map (D := gset string) snd (dom (filter
        (fun kv => Some (r_generation kv.2) = maxGeneration (replicas vs path s)) (replicas vs path s)))
    end in
  if decide (storages = ∅) then Err StoreRepositoryNotFound else Ok storages.

Definition RepositoryExists (vs path : string) (s : PostgresRepositoryStore) : bool :=
  bool_decide (is_Some (repositories s !! (vs, path))).

(** The loop over the rows; a row of the source is recognised first. *)
Definition GetReplicatedGeneration (vs path source target : string) (s : PostgresRepositoryStore)
    : out StoreError Z :=
  let sourceGeneration := GetGeneration vs path source s in
  let targetGeneration :=
    if decide (source = target) then GenerationUnknown else GetGeneration vs path target s in
  if decide (targetGeneration ≠ GenerationUnknown /\ sourceGeneration <= targetGeneration)
  then Err (DowngradeAttempted target targetGeneration sourceGeneration)
  else Ok sourceGeneration.

Definition GetRepositoryID (vs path : string) (s : PostgresRepositoryStore) : out StoreError Z :=
  match repositories s !! (vs, path) with
  | None => Err StoreRepositoryNotFound
  | Some r => Ok (repository_id r)
  end.

(** [nextval] is only evaluated when the repository does not exist. *)
Definition ReserveRepositoryID (vs path : string) : DB Z :=
  s ← get;
  match repositories s !! (vs, path) with
  | Some _ => fail StoreAlreadyExists
  | None =>
    _ ← put (mkStore (repositories s) (storage_repositories s) (repository_assignments s) (id_seq s + 1));
    mret (id_seq s + 1)
  end.

(** ** Updates *)

(** Replicas among [storages] that are at the repository's generation. *)
Definition toUpdate (vs path : string) (storages : list string) (s : PostgresRepositoryStore)
    : gmap replicaKey ReplicaRow :=
  filter (fun kv => kv.1.1 = (vs, path) /\ kv.1.2 ∈ storages /\
    repositories s !! (vs, path) ≫= generation = Some (r_generation kv.2))
    (storage_repositories s).

Definition IncrementGeneration (vs path primary : string) (secondaries : list string) : DB unit :=
  s ← get;
  let updated := toUpdate vs path (secondaries ++ [primary]) s in
  match repositories s !! (vs, path) with
  | None => fail StoreRepositoryNotFound
  | Some repo =>
    if decide (updated = ∅) then fail ErrWriteToOutdatedNodes
    else put (with_repositories (<[(vs, path) := set_generation (Z.succ <$> generation repo) repo]>)
           (with_replicas (fun m => (incr_replica <$> updated) ∪ m) s))
  end.

Definition repoID (vs path : string) (s : PostgresRepositoryStore) : option Z :=
  repository_id <$> repositories s !! (vs, path).

Definition SetGeneration (vs path storage : string) (g : Z) : DB unit :=
  modify (fun s =>
    with_repositories (fun m =>
      match m !! (vs, path) with
      | Some repo =>
        if default (-1) (generation repo) <? g
        then <[(vs, path) := set_generation (Some g) repo]> m else m
      | None => m
      end)
    (with_replicas (<[(vs, path, storage) := mkReplicaRow (repoID vs path s) g]>) s)).

(** A NULL generation stays NULL when incremented, which the replica's column
    does not admit. *)
Definition SetAuthoritativeReplica (vs path storage : string) : DB unit :=
  s ← get;
  match repositories s !! (vs, path) with
  | None => fail StoreRepositoryNotFound
  | Some repo =>
    match generation repo with
    | None => fail (StoreFailure "not_null_violation")
    | Some g =>
      put (with_repositories (<[(vs, path) := set_generation (Some (g + 1)) repo]>)
        (with_replicas (<[(vs, path, storage) := mkReplicaRow (Some (repository_id repo)) (g + 1)]>) s))
    end
  end.

(** The rows [CreateRepository] inserts for the given storages. *)
Definition newReplicas (id : Z) (vs path : string) (storages : list string) : gmap replicaKey ReplicaRow :=
  list_to_map ((fun st => ((vs, path, st), mkReplicaRow (Some id) 0)) <$> storages).

Definition newAssignments (store : bool) (vs path : string) (storages : list string) : gset replicaKey :=
  if store then list_to_set ((fun st => (vs, path, st)) <$> storages) else ∅.

Definition idInUse (id : Z) (s : PostgresRepositoryStore) : bool :=
  bool_decide (id ∈ repository_id <$> (map_to_list (repositories s)).*2).

Definition CreateRepository (id : Z) (vs path primary : string)
    (updatedSecondaries outdatedSecondaries : list string) (storePrimary storeAssignments : bool)
    : DB unit :=
  s ← get;
  let rows := newReplicas id vs path (primary :: updatedSecondaries) in
  let assigned := newAssignments storeAssignments vs path
    (primary :: updatedSecondaries ++ outdatedSecondaries) in
  if decide (dom rows ∩ dom (storage_repositories s) ≠ ∅) then fail RepositoryExistsError
  else if decide (is_Some (repositories s !! (vs, path))) then fail RepositoryExistsError
  else if idInUse id s then fail (StoreFailure "repository id already in use")
  else if decide (assigned ∩ repository_assignments s ≠ ∅) then fail RepositoryExistsError
  else
    let repo := mkRepoRow id (Some 0) (if storePrimary then Some primary else None) path in
    put (mkStore (<[(vs, path) := repo]> (repositories s)) (rows ∪ storage_repositories s)
           (assigned ∪ repository_assignments s) (id_seq s)).

(** Foreign keys on deletion of a repository. *)
Definition dropRepository (vs path : string) (s : PostgresRepositoryStore) : PostgresRepositoryStore :=
  match repositories s !! (vs, path) with
  | None => s
  | Some repo =>
    mkStore (delete (vs, path) (repositories s))
      ((fun r => if decide (r_repository_id r = Some (repository_id repo))
                 then mkReplicaRow None (r_generation r) else r) <$> storage_repositories s)
      (filter (fun k => k.1 ≠ (vs, path)) (repository_assignments s)) (id_seq s)
  end.

(** Deletes the given replicas and tells whether there were any. *)
Definition deleteReplicas (vs path : string) (storages : list string) (s : PostgresRepositoryStore)
    : bool * PostgresRepositoryStore :=
  let gone := filter (fun kv => kv.1.1 = (vs, path) /\ kv.1.2 ∈ storages) (storage_repositories s) in
  (negb (bool_decide (gone = ∅)), with_replicas (fun m => m ∖ gone) s).

Definition DeleteRepository (vs path : string) (storages : list string) : DB unit := fun s =>
  let (affected, s1) := deleteReplicas vs path storages s in
  (if affected then Ok tt else Err ErrNoRowsAffected, dropRepository vs path s1).

Definition DeleteReplica (vs path storage : string) : DB unit := fun s =>
  let (affected, s1) := deleteReplicas vs path [storage] s in
  (if affected then Ok tt else Err ErrNoRowsAffected, s1).

Definition RenameRepository (vs path storage newPath : string) : DB unit := fun s =>
  let conflict := bool_decide (path ≠ newPath /\
    (is_Some (repositories s !! (vs, path)) /\ is_Some (repositories s !! (vs, newPath)) \/
     is_Some (storage_repositories s !! (vs, path, storage)) /\
     is_Some (storage_repositories s !! (vs, newPath, storage)))) in
  if conflict then (Err (StoreFailure "unique_violation"), s)
  else
    let s1 := match repositories s !! (vs, path) with
      | None => s
      | Some repo =>
        mkStore (<[(vs, newPath) := mkRepoRow (repository_id repo) (generation repo) (primary repo) newPath]>
                   (delete (vs, path) (repositories s)))
          (storage_repositories s)
          (set_map (fun k : replicaKey => if decide (k.1 = (vs, path)) then (vs, newPath, k.2) else k)
             (repository_assignments s)) (id_seq s)
      end in
    match storage_repositories s !! (vs, path, storage) with
    | None => (Err RepositoryNotExistsError, s1)
    | Some r =>
      (Ok tt, with_replicas (fun m => <[(vs, newPath, storage) := r]> (delete (vs, path, storage) m)) s1)
    end.

Definition DeleteInvalidRepository (vs path storage : string) : DB unit := fun s =>
  let others := filter (fun kv => kv.1.1 = (vs, path) /\ kv.1.2 ≠ storage) (storage_repositories s) in
  let s1 := with_replicas (delete (vs, path, storage)) s in
  (Ok tt, if decide (others = ∅) then dropRepository vs path s1 else s1).

(** ** Invariant *)

Record store_inv (s : PostgresRepositoryStore) : Prop := {
  st_generation : forall k repo, repositories s !! k = Some repo -> exists g, generation repo = Some g /\ 0 <= g;
  st_ids : forall k1 k2 r1 r2, repositories s !! k1 = Some r1 -> repositories s !! k2 = Some r2 ->
    repository_id r1 = repository_id r2 -> k1 = k2;
  st_replica : forall k st r id, storage_repositories s !! (k, st) = Some r -> r_repository_id r = Some id ->
    exists repo g, repositories s !! k = Some repo /\ repository_id repo = id /\
      generation repo = Some g /\ r_generation r <= g;
  st_assigned : forall k st, (k, st) ∈ repository_assignments s -> is_Some (repositories s !! k);
}.

Lemma emptyStore_inv : store_inv emptyStore.
Proof. split; simpl; set_solver. Qed.

(** The row of a repository changes in its generation only, and not downwards. *)
Definition raised (m m' : gmap repoKey RepoRow) : Prop :=
  forall k, match m !! k, m' !! k with
  | None, None => True
  | Some r, Some r' => repository_id r' = repository_id r /\
      exists g g', generation r = Some g /\ generation r' = Some g' /\ g <= g'
  | _, _ => False
  end.

Lemma raised_refl s : store_inv s -> raised (repositories s) (repositories s).
Proof.
  intros Hinv k. destruct (repositories s !! k) as [r|] eqn:Hk; [|done]. split; [done|].
  destruct (st_generation s Hinv k r Hk) as (g & Hg & _). exists g, g. split_and!; [done..|lia].
Qed.

Lemma raised_insert s k repo g g' :
  store_inv s -> repositories s !! k = Some repo -> generation repo = Some g -> g <= g' ->
  raised (repositories s) (<[k := set_generation (Some g') repo]> (repositories s)).
Proof.
  intros Hinv Hk Hg Hle k'. destruct (decide (k = k')) as [<-|Hne].
  - rewrite Hk, lookup_insert_eq. split; [done|]. by exists g, g'.
  - rewrite lookup_insert_ne by done. apply (raised_refl s Hinv k').
Qed.

(** Raising generations and changing replicas within the new bounds. *)
Lemma store_inv_raised s m' n' seq' :
  store_inv s -> raised (repositories s) m' ->
  (forall k st r, n' !! (k, st) = Some r -> storage_repositories s !! (k, st) = Some r \/
    match r_repository_id r with
    | None => True
    | Some id => exists repo g, m' !! k = Some repo /\ repository_id repo = id /\
        generation repo = Some g /\ r_generation r <= g
    end) ->
  store_inv (mkStore m' n' (repository_assignments s) seq').
Proof.
  intros Hinv Hm Hn.
  assert (Hback : forall k r', m' !! k = Some r' -> exists r, repositories s !! k = Some r /\
    repository_id r' = repository_id r /\ exists g g', generation r = Some g /\ generation r' = Some g' /\ g <= g').
  { intros k r' Hk. specialize (Hm k). rewrite Hk in Hm. destruct (repositories s !! k) as [r|]; [|done]. eauto. }
  split; simpl.
  - intros k r' Hk. destruct (Hback k r' Hk) as (r & Hr & _ & g & g' & Hg & Hg' & Hle).
    destruct (st_generation s Hinv k r Hr) as (g0 & ? & ?). exists g'. split; [done|]. simplify_eq. lia.
  - intros k1 k2 r1 r2 H1 H2 Hid. destruct (Hback k1 r1 H1) as (x1 & Hx1 & Hi1 & _).
    destruct (Hback k2 r2 H2) as (x2 & Hx2 & Hi2 & _). apply (st_ids s Hinv k1 k2 x1 x2); [done..|congruence].
  - intros k st r id Hr Hid. destruct (Hn k st r Hr) as [Hold|Hnew]; [|by rewrite Hid in Hnew].
    destruct (st_replica s Hinv k st r id Hold Hid) as (repo & g & Hrepo & Hri & Hg & Hle).
    specialize (Hm k). rewrite Hrepo in Hm. destruct (m' !! k) as [r'|] eqn:Hk; [|done].
    destruct Hm as (Hi & g1 & g2 & Hg1 & Hg2 & Hgg). simplify_eq. exists r', g2. split_and!; [done..|lia].
  - intros k st Hin. destruct (st_assigned s Hinv k st Hin) as [r Hr]. specialize (Hm k). rewrite Hr in Hm.
    destruct (m' !! k); done.
Qed.

Lemma toUpdate_lookup vs path storages s k st r :
  toUpdate vs path storages s !! (k, st) = Some r <->
  storage_repositories s !! (k, st) = Some r /\ k = (vs, path) /\ st ∈ storages /\
  repositories s !! (vs, path) ≫= generation = Some (r_generation r).
Proof. unfold toUpdate. rewrite map_lookup_filter_Some. simpl. tauto. Qed.

Lemma IncrementGeneration_inv vs path p ss s : store_inv s -> store_inv (IncrementGeneration vs path p ss s).2.
Proof.
  intros Hinv. unfold IncrementGeneration. unfold_M.
  destruct (repositories s !! (vs, path)) as [repo|] eqn:Hrepo; [|done]. case_decide; [done|]. simpl.
  destruct (st_generation s Hinv _ _ Hrepo) as (g & Hg & _). rewrite Hg. unfold with_repositories, with_replicas. simpl.
  apply store_inv_raised; [done|eapply raised_insert; eauto; lia|].
  intros k st r Hr. simpl in Hr. apply lookup_union_Some_raw in Hr as [Hr|[_ Hr]]; [|by left].
  rewrite lookup_fmap, fmap_Some in Hr. destruct Hr as (r0 & Hr0 & ->).
  apply toUpdate_lookup in Hr0 as (Hr0 & -> & Hst & Hgen). right. simpl.
  destruct (r_repository_id r0) as [id|] eqn:Hid; [|done].
  destruct (st_replica s Hinv _ _ _ _ Hr0 Hid) as (repo' & g' & Hrepo' & Hri & Hg' & Hle). simplify_eq.
  rewrite lookup_insert_eq. eexists _, _. split_and!; [done..|]. lia.
Qed.

Lemma SetGeneration_inv vs path st g s : store_inv s -> store_inv (SetGeneration vs path st g s).2.
Proof.
  intros Hinv. unfold SetGeneration. unfold_M. simpl. unfold with_repositories, with_replicas. simpl.
  set (m' := match repositories s !! (vs, path) with Some repo => _ | None => _ end).
  assert (Hm' : raised (repositories s) m' /\ forall id, repoID vs path s = Some id ->
    exists repo g', m' !! (vs, path) = Some repo /\ repository_id repo = id /\ generation repo = Some g' /\ g <= g').
  { unfold m', repoID. destruct (repositories s !! (vs, path)) as [repo|] eqn:Hrepo; simpl.
    - destruct (st_generation s Hinv _ _ Hrepo) as (g0 & Hg0 & ?). rewrite Hg0. simpl.
      destruct (Z.ltb_spec g0 g) as [Hlt|Hge]; split.
      + eapply raised_insert; eauto. lia.
      + intros id [= <-]. rewrite lookup_insert_eq. eexists _, g. split_and!; [done..|lia].
      + by apply raised_refl.
      + intros id [= <-]. rewrite Hrepo. by eexists _, g0.
    - split; [by apply raised_refl|done]. }
  destruct Hm' as [Hm' Hid]. apply store_inv_raised; [done..|].
  intros k st' r Hr. apply lookup_insert_Some in Hr as [[[= <- <-] <-]|[_ Hr]]; [|by left]. right. simpl.
  destruct (repoID vs path s) as [id|]; [|done]. by apply Hid.
Qed.

Lemma SetAuthoritativeReplica_inv vs path st s : store_inv s -> store_inv (SetAuthoritativeReplica vs path st s).2.
Proof.
  intros Hinv. unfold SetAuthoritativeReplica. unfold_M.
  destruct (repositories s !! (vs, path)) as [repo|] eqn:Hrepo; [|done].
  destruct (generation repo) as [g|] eqn:Hg; [|done]. unfold with_repositories, with_replicas. simpl.
  apply store_inv_raised; [done|eapply raised_insert; eauto; lia|].
  intros k st' r Hr. apply lookup_insert_Some in Hr as [[[= <- <-] <-]|[_ Hr]]; [|by left]. right. simpl.
  rewrite lookup_insert_eq. eexists _, _. split_and!; [done..|lia].
Qed.

Lemma newReplicas_lookup id vs path l k st r :
  newReplicas id vs path l !! (k, st) = Some r -> k = (vs, path) /\ st ∈ l /\ r = mkReplicaRow (Some id) 0.
Proof.
  intros H%elem_of_list_to_map_2. apply list_elem_of_fmap in H as (x & Heq & Hx). by simplify_eq.
Qed.

Lemma CreateRepository_inv id vs path p us os sp sa s :
  store_inv s -> store_inv (CreateRepository id vs path p us os sp sa s).2.
Proof.
  intros Hinv. unfold CreateRepository. unfold_M. case_decide; [done|]. case_decide as Hex; [done|].
  assert (Hnone : repositories s !! (vs, path) = None) by (destruct (repositories s !! (vs, path)); [by destruct Hex|done]).
  unfold idInUse. case_bool_decide as Hid; [done|]. case_decide; [done|].
  assert (Hfresh : forall k r, repositories s !! k = Some r -> repository_id r ≠ id).
  { intros k r Hr Heq. apply Hid. apply list_elem_of_fmap. exists r. split; [done|].
    apply list_elem_of_fmap. exists (k, r). split; [done|]. by apply elem_of_map_to_list. }
  split; simpl.
  - intros k r [[<- <-]|[_ Hk]]%lookup_insert_Some; [by exists 0|]. by apply (st_generation s Hinv k).
  - intros k1 k2 r1 r2 [[<- <-]|[_ Hk1]]%lookup_insert_Some [[<- <-]|[_ Hk2]]%lookup_insert_Some Heq; simpl in Heq;
      [done|by destruct (Hfresh _ _ Hk2)|by destruct (Hfresh _ _ Hk1)|by apply (st_ids s Hinv k1 k2 r1 r2)].
  - intros k st r id' Hr Hi. apply lookup_union_Some_raw in Hr as [Hr|[_ Hr]].
    + apply newReplicas_lookup in Hr as (-> & _ & ->). simplify_eq/=. rewrite lookup_insert_eq.
      eexists _, 0. split_and!; done.
    + destruct (st_replica s Hinv k st r id' Hr Hi) as (repo & g & Hrepo & ?). exists repo, g.
      rewrite lookup_insert_ne; [done|congruence].
  - intros k st [Hin|Hin]%elem_of_union.
    + unfold newAssignments in Hin. destruct sa; [|by apply elem_of_empty in Hin].
      apply elem_of_list_to_set, list_elem_of_fmap in Hin as (x & Heq & _).
      simplify_eq. by rewrite lookup_insert_eq.
    + destruct (st_assigned s Hinv k st Hin) as [r Hr]. rewrite lookup_insert_ne; [by eexists|congruence].
Qed.

Lemma replicas_subset_inv s n' :
  store_inv s -> n' ⊆ storage_repositories s ->
  store_inv (mkStore (repositories s) n' (repository_assignments s) (id_seq s)).
Proof.
  intros Hinv Hsub. apply store_inv_raised; [done|by apply raised_refl|].
  intros k st r Hr. left. by eapply lookup_weaken.
Qed.

Lemma dropRepository_inv vs path s : store_inv s -> store_inv (dropRepository vs path s).
Proof.
  intros Hinv. unfold dropRepository. destruct (repositories s !! (vs, path)) as [repo|] eqn:Hrepo; [|done].
  split; simpl.
  - intros k r [_ Hk]%lookup_delete_Some. by apply (st_generation s Hinv k).
  - intros k1 k2 r1 r2 [_ H1]%lookup_delete_Some [_ H2]%lookup_delete_Some. by apply (st_ids s Hinv).
  - intros k st r id Hr Hi. rewrite lookup_fmap, fmap_Some in Hr. destruct Hr as (r0 & Hr0 & ->).
    case_decide as Hd; [done|]. destruct (st_replica s Hinv k st r0 id Hr0 Hi) as (repo' & g & Hrepo' & Hid & ?).
    exists repo', g. rewrite lookup_delete_ne; [done|]. intros <-. simplify_eq.
  - intros k st [Hk Hin]%elem_of_filter. simpl in Hk. destruct (st_assigned s Hinv k st Hin) as [r Hr].
    rewrite lookup_delete_ne by congruence. by eexists.
Qed.

Lemma deleteReplicas_inv vs path l s : store_inv s -> store_inv (deleteReplicas vs path l s).2.
Proof.
  intros Hinv. apply replicas_subset_inv; [done|].
  apply map_subseteq_spec. intros k r. rewrite lookup_difference_Some. tauto.
Qed.

(** The executions of the store, renames aside. *)
Inductive store_run : PostgresRepositoryStore -> Prop :=
| store_empty : store_run emptyStore
| store_increment vs path p ss s : store_run s -> store_run (IncrementGeneration vs path p ss s).2
| store_set vs path st g s : store_run s -> store_run (SetGeneration vs path st g s).2
| store_authoritative vs path st s : store_run s -> store_run (SetAuthoritativeReplica vs path st s).2
| store_create id vs path p us os sp sa s : store_run s -> store_run (CreateRepository id vs path p us os sp sa s).2
| store_delete vs path l s : store_run s -> store_run (DeleteRepository vs path l s).2
| store_delete_replica vs path st s : store_run s -> store_run (DeleteReplica vs path st s).2
| store_delete_invalid vs path st s : store_run s -> store_run (DeleteInvalidRepository vs path st s).2
| store_reserve vs path s : store_run s -> store_run (ReserveRepositoryID vs path s).2.

Lemma store_run_inv s : store_run s -> store_inv s.
Proof.
  induction 1.
  - apply emptyStore_inv.
  - by apply IncrementGeneration_inv.
  - by apply SetGeneration_inv.
  - by apply SetAuthoritativeReplica_inv.
  - by apply CreateRepository_inv.
  - unfold DeleteRepository. destruct (deleteReplicas vs path l s) as [b s1] eqn:Hd. simpl.
    apply dropRepository_inv. replace s1 with (deleteReplicas vs path l s).2 by (by rewrite Hd). by apply deleteReplicas_inv.
  - unfold DeleteReplica. destruct (deleteReplicas vs path [st] s) as [b s1] eqn:Hd. simpl.
    replace s1 with (deleteReplicas vs path [st] s).2 by (by rewrite Hd). by apply deleteReplicas_inv.
  - unfold DeleteInvalidRepository. simpl. 
    assert (store_inv (with_replicas (delete (vs, path, st)) s)) by (apply replicas_subset_inv; [done|apply delete_subseteq]).
    case_decide; [by apply dropRepository_inv|done].
  - unfold ReserveRepositoryID. unfold_M. destruct (repositories s !! (vs, path)); [done|]. simpl.
    apply store_inv_raised; [done|by apply raised_refl|by left].
Qed.

(** In every execution of the store that renames nothing, generations are set
    and not negative, repository IDs are unique, assignments belong to existing
    repositories, and no replica of a repository is ahead of it. *)
Theorem store_generations s :
  store_run s ->
  (forall k repo, repositories s !! k = Some repo -> exists g, generation repo = Some g /\ 0 <= g /\
    forall st r, storage_repositories s !! (k, st) = Some r ->
      r_repository_id r = Some (repository_id repo) -> r_generation r <= g) /\
  (forall k1 k2 r1 r2, repositories s !! k1 = Some r1 -> repositories s !! k2 = Some r2 ->
    repository_id r1 = repository_id r2 -> k1 = k2) /\
  (forall k st, (k, st) ∈ repository_assignments s -> is_Some (repositories s !! k)).
Proof.
  intros Hinv%store_run_inv. split_and!; [|apply Hinv|apply Hinv].
  intros k repo Hk. destruct (st_generation s Hinv k repo Hk) as (g & Hg & Hpos).
  exists g. split_and!; [done..|]. intros st r Hr Hid.
  destruct (st_replica s Hinv k st r _ Hr Hid) as (repo' & g' & ? & _ & ? & ?). by simplify_eq.
Qed.

(** ** Consistent storages *)

Lemma maxGeneration_spec (m : gmap replicaKey ReplicaRow) :
  match maxGeneration m with
  | None => m = ∅
  | Some g => (exists k r, m !! k = Some r /\ r_generation r = g) /\
      forall k r, m !! k = Some r -> r_generation r <= g
  end.
Proof.
  unfold maxGeneration.
  apply (map_fold_weak_ind (fun acc m => match acc with
    | None => m = ∅
    | Some g => (exists k r, m !! k = Some r /\ r_generation r = g) /\
        forall k r, m !! k = Some r -> r_generation r <= g
    end)); [done|].
  intros k r m' acc Hk IH. destruct acc as [g|].
  - destruct IH as [(k0 & r0 & Hk0 & Hg) Hle]. split.
    + destruct (Z.max_spec g (r_generation r)) as [[? ->]|[? ->]].
      * exists k, r. by rewrite lookup_insert_eq.
      * exists k0, r0. rewrite lookup_insert_ne; [done|congruence].
    + intros k1 r1 [[<- <-]|[_ H1]]%lookup_insert_Some; [lia|]. specialize (Hle k1 r1 H1). lia.
  - subst m'. split.
    + exists k, r. by rewrite lookup_insert_eq.
    + intros k1 r1 [[<- <-]|[_ H1]]%lookup_insert_Some; [lia|]. by rewrite lookup_empty in H1.
Qed.

Lemma replicas_lookup vs path s k st r :
  replicas vs path s !! (k, st) = Some r <-> storage_repositories s !! (k, st) = Some r /\ k = (vs, path).
Proof. unfold replicas. by rewrite map_lookup_filter_Some. Qed.

Lemma maxGeneration_eq vs path s g :
  (exists st r, storage_repositories s !! (vs, path, st) = Some r /\ r_generation r = g) ->
  (forall st r, storage_repositories s !! (vs, path, st) = Some r -> r_generation r <= g) ->
  maxGeneration (replicas vs path s) = Some g.
Proof.
  intros (st & r & Hr & Hg) Hle. pose proof (maxGeneration_spec (replicas vs path s)) as Hspec.
  assert (Hin : replicas vs path s !! (vs, path, st) = Some r) by (by apply replicas_lookup).
  destruct (maxGeneration (replicas vs path s)) as [g'|].
  - destruct Hspec as [([k st'] & r' & Hr' & Hg') Hle']. f_equal.
    apply replicas_lookup in Hr' as [Hr' ->]. specialize (Hle _ _ Hr'). specialize (Hle' _ _ Hin). lia.
  - by rewrite Hspec, lookup_empty in Hin.
Qed.

(** The consistent storages are those at the highest generation. *)
Lemma GetConsistentStorages_max vs path s g :
  is_Some (repositories s !! (vs, path)) ->
  (exists st r, storage_repositories s !! (vs, path, st) = Some r /\ r_generation r = g) ->
  (forall st r, storage_repositories s !! (vs, path, st) = Some r -> r_generation r <= g) ->
  exists storages, GetConsistentStorages vs path s = Ok storages /\
    forall st, st ∈ storages <-> exists r, storage_repositories s !! (vs, path, st) = Some r /\ r_generation r = g.
Proof.
  intros [repo Hrepo] Hex Hle. unfold GetConsistentStorages. rewrite Hrepo.
  rewrite (maxGeneration_eq vs path s g Hex Hle).
  set (storages := set_map snd _).
  assert (Hst : forall st, st ∈ storages <->
    exists r, storage_repositories s !! (vs, path, st) = Some r /\ r_generation r = g).
  { intros st. unfold storages. rewrite elem_of_map. setoid_rewrite elem_of_dom. unfold is_Some.
    setoid_rewrite map_lookup_filter_Some. split.
    - intros ([k st'] & -> & r & Hr & Hg). apply replicas_lookup in Hr as [Hr ->]. simpl in *. exists r.
      split; [done|congruence].
    - intros (r & Hr & <-). exists (vs, path, st). split; [done|]. exists r. split; [|done].
      by apply replicas_lookup. }
  destruct Hex as (st & r & Hr & Hg). case_decide as He.
  { exfalso. assert (st ∈ storages) as Hin by (apply Hst; eauto). rewrite He in Hin. by apply elem_of_empty in Hin. }
  by exists storages.
Qed.

(** After a write recorded by [IncrementGeneration], the consistent storages of
    the repository are exactly those nodes of the write that had been at its
    latest generation before: no other replica is considered up to date. *)
Lemma write_leaves_writers_consistent vs path p ss s s' :
  store_inv s ->
  (forall st r, storage_repositories s !! (vs, path, st) = Some r -> r_repository_id r = repoID vs path s) ->
  IncrementGeneration vs path p ss s = (Ok tt, s') ->
  exists storages, GetConsistentStorages vs path s' = Ok storages /\
    forall st, st ∈ storages <-> (st = p \/ st ∈ ss) /\
      repositories s !! (vs, path) ≫= generation = Some (GetGeneration vs path st s) /\
      is_Some (storage_repositories s !! (vs, path, st)).
Proof.
  intros Hinv Hlink. unfold IncrementGeneration. unfold_M.
  destruct (repositories s !! (vs, path)) as [repo|] eqn:Hrepo; [|done].
  case_decide as Hne; [done|]. intros [= <-].
  destruct (st_generation s Hinv _ _ Hrepo) as (g & Hg & _).
  assert (Hrow : forall st r, storage_repositories s !! (vs, path, st) = Some r -> r_generation r <= g).
  { intros st r Hr. pose proof (Hlink st r Hr) as Hid. unfold repoID in Hid. rewrite Hrepo in Hid. simpl in Hid.
    destruct (st_replica s Hinv _ _ _ _ Hr Hid) as (repo' & g' & ? & _ & ? & ?). by simplify_eq. }
  set (upd := toUpdate vs path (ss ++ [p]) s) in *. rewrite Hg. simpl.
  assert (Hupd : forall st r, upd !! (vs, path, st) = Some r <->
    storage_repositories s !! (vs, path, st) = Some r /\ st ∈ ss ++ [p] /\ r_generation r = g).
  { intros st r. unfold upd. rewrite toUpdate_lookup, Hrepo. simpl. rewrite Hg. naive_solver. }
  assert (Hnew : forall st r, ((incr_replica <$> upd) ∪ storage_repositories s) !! (vs, path, st) = Some r ->
    r_generation r = g + 1 /\ (exists r0, upd !! (vs, path, st) = Some r0) \/
    r_generation r <= g /\ upd !! (vs, path, st) = None).
  { intros st r [Hr|[Hn Hr]]%lookup_union_Some_raw; rewrite lookup_fmap in *.
    - apply fmap_Some in Hr as (r0 & Hr0 & ->). left. apply Hupd in Hr0 as Hr1. split; [|by eauto].
      destruct Hr1 as (_ & _ & <-). done.
    - apply fmap_None in Hn. right. split; [by eapply Hrow|done]. }
  assert (Hex : exists st r, upd !! (vs, path, st) = Some r).
  { destruct (map_choose upd Hne) as ([k st] & r & Hr). exists st, r.
    by pose proof Hr as (_ & -> & _)%toUpdate_lookup. }
  destruct (GetConsistentStorages_max vs path
    (with_repositories (<[(vs, path) := set_generation (Some (Z.succ g)) repo]>)
       (with_replicas (fun m => (incr_replica <$> upd) ∪ m) s)) (g + 1)) as (storages & Hs & Hst).
  - simpl. by rewrite lookup_insert_eq.
  - destruct Hex as (st & r & Hr). exists st, (incr_replica r). simpl. split.
    + apply lookup_union_Some_l. by rewrite lookup_fmap, Hr.
    + by apply Hupd in Hr as (_ & _ & <-).
  - intros st r Hr. destruct (Hnew st r Hr) as [[-> _]|[? _]]; lia.
  - exists storages. split; [done|]. intros st. rewrite Hst. simpl. unfold GetGeneration. rewrite Hg. split.
    + intros (r & Hr & Hgr). destruct (Hnew st r Hr) as [[_ [r0 Hr0]]|[? _]]; [|lia].
      apply Hupd in Hr0 as (Hr0 & Hin & Hg0). rewrite Hr0, Hg0. split_and!; [set_solver|done|by eexists].
    + intros (Hin & Hgen & [r Hr]). rewrite Hr in Hgen. simplify_eq/=. exists (incr_replica r). split; [|done].
      apply lookup_union_Some_l. rewrite lookup_fmap.
      assert (upd !! (vs, path, st) = Some r) as -> by (apply Hupd; split_and!; [done|set_solver|done]). done.
Qed.

(** A storage reported as consistent has a replica no other replica is ahead of. *)
Lemma consistent_ahead vs path s storages st :
  GetConsistentStorages vs path s = Ok storages -> st ∈ storages ->
  exists r, storage_repositories s !! (vs, path, st) = Some r /\
    forall st' r', storage_repositories s !! (vs, path, st') = Some r' -> r_generation r' <= r_generation r.
Proof.
  unfold GetConsistentStorages. destruct (repositories s !! (vs, path)) as [repo|]; [|by case_decide].
  case_decide; [done|]. intros [= <-] ([k st0] & -> & Hin)%elem_of_map. apply elem_of_dom in Hin as [r Hr].
  apply map_lookup_filter_Some in Hr as [Hr Hmax]. apply replicas_lookup in Hr as [Hr ->]. simpl in *.
  pose proof (maxGeneration_spec (replicas vs path s)) as Hspec. rewrite <- Hmax in Hspec. destruct Hspec as [_ Hle].
  exists r. split; [done|]. intros st' r' Hr'. apply (Hle (vs, path, st')). by apply replicas_lookup.
Qed.

(** The same without a condition on the replicas: apart from the nodes of the write
    only replicas that a deletion of an earlier repository has left behind, with a
    higher generation than this repository's, are considered consistent. *)
Lemma write_leaves_writers_or_leftovers vs path p ss s s' storages st :
  store_inv s -> IncrementGeneration vs path p ss s = (Ok tt, s') ->
  GetConsistentStorages vs path s' = Ok storages -> st ∈ storages ->
  st = p \/ st ∈ ss \/
  exists repo g r, repositories s !! (vs, path) = Some repo /\ generation repo = Some g /\
    storage_repositories s !! (vs, path, st) = Some r /\ r_repository_id r = None /\ g < r_generation r.
Proof.
  intros Hinv Hrun Hc Hin. destruct (consistent_ahead _ _ _ _ _ Hc Hin) as (r & Hr & Hmax). clear Hc Hin.
  unfold IncrementGeneration in Hrun. unfold_M.
  destruct (repositories s !! (vs, path)) as [repo|] eqn:Hrepo; [|done].
  case_decide as Hne; [done|]. injection Hrun as <-. simpl in *.
  destruct (st_generation s Hinv _ _ Hrepo) as (g & Hg & _).
  apply lookup_union_Some_raw in Hr as Hr'. destruct Hr' as [Hup|[_ Hold]].
  { rewrite lookup_fmap in Hup. apply fmap_Some in Hup as (r0 & Hr0%toUpdate_lookup & _). set_solver. }
  destruct (map_choose _ Hne) as ([k st'] & r' & Hr'). pose proof Hr' as (_ & -> & _ & Hg')%toUpdate_lookup.
  rewrite Hrepo in Hg'. simpl in Hg'. rewrite Hg in Hg'. injection Hg' as Hg'.
  assert (g + 1 <= r_generation r) as Hlt.
  { rewrite Hg'. apply (Hmax st' (incr_replica r')). apply lookup_union_Some_l. by rewrite lookup_fmap, Hr'. }
  right. right. exists repo, g, r. split_and!; [done..| |lia].
  destruct (r_repository_id r) as [id|] eqn:Hid; [|done]. exfalso.
  destruct (st_replica s Hinv _ _ _ _ Hold Hid) as (repo' & g' & ? & _ & ? & ?). simplify_eq. lia.
Qed.

(** ** Examples *)

(** A repository on three storages; "c" missed the first write. *)
Definition ex_created : PostgresRepositoryStore :=
  (CreateRepository 1 "vs" "repo" "a" ["b"; "c"] [] true true emptyStore).2.
Definition ex_written : PostgresRepositoryStore := (IncrementGeneration "vs" "repo" "a" ["b"] ex_created).2.

Lemma ex_created_run : store_run ex_created.
Proof. apply store_create, store_empty. Qed.

Lemma store_generations_witness :
  exists repo g, repositories ex_written !! ("vs", "repo") = Some repo /\ generation repo = Some g /\ 0 <= g.
Proof.
  destruct (store_generations ex_written (store_increment _ _ _ _ _ ex_created_run)) as [H _].
  assert (Hr : repositories ex_written !! ("vs", "repo") =
    Some (default (mkRepoRow 0 None None "") (repositories ex_written !! ("vs", "repo"))))
    by (apply some_default; by vm_compute).
  destruct (H _ _ Hr) as (g & Hg & Hpos & _). eexists _, g. split; [exact Hr|split; [exact Hg|exact Hpos]].
Defined.

(** A replica that a deletion left behind outlives the repository: after a
    write on "c" alone, a deletion on "a" and "b" and the creation of a new
    repository at the same path on "a", the old replica on "c" is the only one considered
    consistent, and the new primary is not. *)
Theorem stale_replica_shadows_new_repository :
  let s1 := (IncrementGeneration "vs" "repo" "c" [] ex_created).2 in
  let s2 := (DeleteRepository "vs" "repo" ["a"; "b"] s1).2 in
  let s3 := CreateRepository 2 "vs" "repo" "a" [] ["b"] true false s2 in
  s3.1 = Ok tt /\ GetConsistentStorages "vs" "repo" s3.2 = Ok {["c"]}.
Proof. by vm_compute. Qed.
