(* ===== verification/Health.v ===== *)
(** Health of the storages as the Praefects agree on it: the health manager
    (src/internal/praefect/nodes/health_manager.go), the table [node_status] and
    the view [healthy_storages] of src/internal/praefect/datastore/migrations.

    [now] is the time of the database in milliseconds. The gRPC health check of a
    node is the parameter [check]: its answer, if there was one. A check runs in
    its own goroutine and writes its own slot, so that the results are those of
    the checks in the order of the slots. *)

From S2P Require Import Prelude Sql.

(** ** [node_status] *)

Record StatusRow : Type := mkStatus {
  last_contact_attempt_at : option Z;
  last_seen_active_at : option Z;
}.

(** Rows by (praefect_name, shard_name, node_name), the unique index of the table. *)
Abbreviation NodeStatus := (gmap (string * string * string) StatusRow).

(** [column >= NOW() - INTERVAL]; NULL is not. *)
Definition since (now interval : Z) (at_ : option Z) : Prop :=
  exists t, at_ = Some t /\ now - interval <= t.

#[export] Instance since_dec now interval at_ : Decision (since now interval at_).
Proof.
  unfold since. destruct at_ as [t|]; [|right; naive_solver].
  destruct (decide (now - interval <= t)); [left; eauto|right; naive_solver].
Defined.

Definition failoverTimeout : Z := 10000.
Definition activePraefectTimeout : Z := 60000.

(** The Praefects with a recent contact attempt in the shard. *)
Definition activePraefects (now : Z) (shard : string) (ns : NodeStatus) : gset string :=
  set_map (fun k => k.1.1) (dom (selectWhere (fun kv => kv.1.1.2 = shard /\
    since now activePraefectTimeout (last_contact_attempt_at kv.2)) ns)).

(** The Praefects that saw the node recently. *)
Definition seenBy (now : Z) (shard node : string) (ns : NodeStatus) : gset string :=
  set_map (fun k => k.1.1) (dom (selectWhere (fun kv => kv.1.1.2 = shard /\ kv.1.2 = node /\
    since now failoverTimeout (last_seen_active_at kv.2)) ns)).

(** [CEIL(n / 2.0)]. *)
Definition quorum (n : nat) : nat := (n - n / 2)%nat.

(** A row of the view [healthy_storages]: its group is not empty and counts as
    many Praefects as the quorum. *)
Definition healthy_storage (now : Z) (ns : NodeStatus) (shard node : string) : Prop :=
  seenBy now shard node ns ≠ ∅ /\
  (quorum (size (activePraefects now shard ns)) <= size (seenBy now shard node ns))%nat.

#[export] Instance healthy_storage_dec now ns shard node : Decision (healthy_storage now ns shard node).
Proof. unfold healthy_storage. apply _. Defined.

Definition healthy_storages (now : Z) (ns : NodeStatus) : gset (string * string) :=
  filter (fun sn => healthy_storage now ns sn.1 sn.2) (set_map (fun k => (k.1.2, k.2)) (dom ns)).

(** ** The health manager *)

Record HealthManager : Type := mkHM {
  clients : gmap string (gset string);
  praefectName : string;
  firstUpdate : bool;
  updated : bool;
  locallyHealthy : gmap string (list string);
  healthConsensus : gmap string (list string);
}.

Definition NewHealthManager (name : string) (cl : gmap string (gset string)) : HealthManager :=
  mkHM cl name true false ∅ ∅.

Inductive CheckResponse : Type := SERVING | NOT_SERVING.

(** [m[k] = append(m[k], x)]. *)
Definition appendAt (m : gmap string (list string)) (kx : string * string) : gmap string (list string) :=
  <[kx.1 := default [] (m !! kx.1) ++ [kx.2]]> m.

Section Manager.
Context {RC : MapRange string (gset string)}.
(** The order in which the inner maps and the rows of the view are visited. *)
Context (rows : gset string -> list string) (view : gset (string * string) -> list (string * string)).

Definition performHealthChecks (check : string -> string -> option CheckResponse) (hm : HealthManager)
    : list (string * string * bool) :=
  vss ← range (clients hm);
  storage ← rows vss.2;
  [(vss.1, storage, match check vss.1 storage with Some SERVING => true | _ => false end)].

Definition upsertStatus (now : Z) (praefect : string) (ns : NodeStatus) (r : string * string * bool) : NodeStatus :=
  let key := (praefect, r.1.1, r.1.2) in
  let seen := if r.2 then Some now else ns !! key ≫= last_seen_active_at in
  <[key := mkStatus (Some now) seen]> ns.

Definition hasHealthConsensusChanged (hm : HealthManager) (currentlyHealthy : gmap string (list string)) : bool :=
  let previouslyHealthy := healthConsensus hm in
  if decide (size previouslyHealthy ≠ size currentlyHealthy) then true
  else existsb (fun kv : string * list string =>
    let currentNodes := default [] (currentlyHealthy !! kv.1) in
    bool_decide (length currentNodes ≠ length kv.2) ||
    existsb (fun node => bool_decide (node ∉ (list_to_set kv.2 : gset string))) currentNodes)
    (map_to_list previouslyHealthy).

(** The result says whether the manager signalled a change. *)
Definition updateHealthChecks (now : Z) (check : string -> string -> option CheckResponse)
    (hm : HealthManager) (ns : NodeStatus) : HealthManager * NodeStatus * bool :=
  let results := performHealthChecks check hm in
  let locally := foldl appendAt ∅ (fst <$> filter (fun r => r.2 = true) results) in
  let ns' := foldl (upsertStatus now (praefectName hm)) ns results in
  let consensus := foldl appendAt ∅ (view (healthy_storages now ns')) in
  if firstUpdate hm || hasHealthConsensusChanged hm consensus
  then (mkHM (clients hm) (praefectName hm) false true locally consensus, ns', true)
  else (mkHM (clients hm) (praefectName hm) (firstUpdate hm) (updated hm) locally (healthConsensus hm), ns', false).

End Manager.

(** ** Properties *)

Lemma foldl_appendAt m l k :
  default [] (foldl appendAt m l !! k) = default [] (m !! k) ++ (snd <$> filter (fun kx => kx.1 = k) l).
Proof.
  revert m. induction l as [|[k' x] l IH]; intros m; simpl; [by rewrite app_nil_r|].
  rewrite IH, filter_cons. unfold appendAt. simpl. case_decide as Hd.
  - subst. rewrite lookup_insert_eq. simpl. by rewrite <- app_assoc.
  - by rewrite lookup_insert_ne.
Qed.

Lemma foldl_appendAt_None m l k : foldl appendAt m l !! k = None <-> m !! k = None /\ Forall (fun kx => kx.1 ≠ k) l.
Proof.
  revert m. induction l as [|[k' x] l IH]; intros m; simpl.
  - split; [intros ?; split; [done|constructor]|naive_solver].
  - rewrite IH, Forall_cons. unfold appendAt. simpl. rewrite lookup_insert_None. naive_solver.
Qed.

(** A grouped list of pairs: every list of the map is non-empty and without
    duplicates. *)
Definition grouped (m : gmap string (list string)) (X : gset (string * string)) : Prop :=
  map_Forall (fun _ l => l ≠ [] /\ NoDup l) m /\
  forall k x, (k, x) ∈ X <-> exists l, m !! k = Some l /\ x ∈ l.

Lemma foldl_appendAt_grouped l X :
  NoDup l -> (forall p, p ∈ l <-> p ∈ X) -> grouped (foldl appendAt ∅ l) X.
Proof.
  intros Hnd Hl.
  assert (Hlk : forall k l', foldl appendAt ∅ l !! k = Some l' -> l' = snd <$> filter (fun kx => kx.1 = k) l).
  { intros k l' Hk. pose proof (foldl_appendAt ∅ l k) as Hf. rewrite Hk, lookup_empty in Hf. done. }
  assert (Hne : forall k x, (k, x) ∈ l -> foldl appendAt ∅ l !! k = Some (snd <$> filter (fun kx => kx.1 = k) l)).
  { intros k x Hin. destruct (foldl appendAt ∅ l !! k) as [l'|] eqn:Hk; [by rewrite (Hlk k l' Hk)|].
    apply foldl_appendAt_None in Hk as [_ Hall]. rewrite Forall_forall in Hall. by destruct (Hall _ Hin). }
  split.
  - intros k l' Hk. pose proof (Hlk k l' Hk) as ->. split.
    + intros Hnil%fmap_nil_inv. assert (Hnone : foldl appendAt ∅ l !! k = None); [|congruence].
      apply foldl_appendAt_None. split; [apply lookup_empty|]. apply Forall_forall. intros kx Hin Heq.
      apply (elem_of_nil kx). rewrite <- Hnil. by apply list_elem_of_filter.
    + apply NoDup_fmap_2_strong; [|by apply NoDup_filter].
      intros [k1 x1] [k2 x2] [Hk1 _]%list_elem_of_filter [Hk2 _]%list_elem_of_filter Heq. simpl in *. congruence.
  - intros k x. rewrite <- Hl. split.
    + intros Hin. eexists. split; [by apply (Hne k x)|]. apply list_elem_of_fmap. exists (k, x).
      split; [done|]. by apply list_elem_of_filter.
    + intros (l' & Hk & Hx). rewrite (Hlk k l' Hk) in Hx.
      apply list_elem_of_fmap in Hx as ([k' x'] & -> & [Hk' Hin]%list_elem_of_filter). simpl in Hk'. by subst.
Qed.

Lemma existsb_false {A} (f : A -> bool) (l : list A) : existsb f l = false <-> forall x, x ∈ l -> f x = false.
Proof.
  induction l as [|y l IH]; simpl; [split; [intros _ x Hx; by apply elem_of_nil in Hx|done]|].
  rewrite orb_false_iff, IH. setoid_rewrite elem_of_cons. naive_solver.
Qed.

(** Comparing two lists without duplicates as [hasHealthConsensusChanged] does. *)
Lemma same_nodes (lc lp : list string) :
  NoDup lc -> NoDup lp ->
  bool_decide (length lc ≠ length lp) ||
    existsb (fun node => bool_decide (node ∉ (list_to_set lp : gset string))) lc = false <->
  forall x, x ∈ lc <-> x ∈ lp.
Proof.
  intros Hc Hp. rewrite orb_false_iff, bool_decide_eq_false, existsb_false.
  setoid_rewrite bool_decide_eq_false. setoid_rewrite elem_of_list_to_set. split.
  - intros [Hlen Hsub] x. apply dec_stable in Hlen.
    assert (Hperm : lc ≡ₚ lp); [|by rewrite Hperm].
    apply submseteq_length_Permutation; [|lia]. apply NoDup_submseteq; [done|].
    intros y Hy. by apply dec_stable, Hsub.
  - intros Hin. assert (Hperm : lc ≡ₚ lp) by by apply NoDup_Permutation.
    split; [rewrite Hperm; by intros ?|]. intros x Hx Hn. apply Hn. by apply Hin.
Qed.

Lemma grouped_lookup m X k l : grouped m X -> m !! k = Some l -> NoDup l /\ forall x, x ∈ l <-> (k, x) ∈ X.
Proof.
  intros [Hm HX] Hk. destruct (Hm k l Hk) as [_ Hnd]. split; [done|]. intros x. rewrite HX. naive_solver.
Qed.

Lemma grouped_dom m X k : grouped m X -> k ∈ dom m <-> exists x, (k, x) ∈ X.
Proof.
  intros [Hm HX]. rewrite elem_of_dom. split.
  - intros [l Hk]. destruct (Hm k l Hk) as [Hne _]. destruct l as [|x l]; [done|]. exists x. apply HX.
    exists (x :: l). split; [done|by left].
  - intros [x (l & Hk & _)%HX]. eauto.
Qed.

(** What the loop compares for one virtual storage. *)
Lemma compare_nodes (prev cur : gmap string (list string)) X Y k lp :
  grouped prev X -> grouped cur Y -> prev !! k = Some lp ->
  bool_decide (length (default [] (cur !! k)) ≠ length lp) ||
    existsb (fun node => bool_decide (node ∉ (list_to_set lp : gset string))) (default [] (cur !! k)) = false <->
  forall x, (k, x) ∈ Y <-> (k, x) ∈ X.
Proof.
  intros HX HY Hlp. destruct (grouped_lookup _ _ _ _ HX Hlp) as [Hndp Hp].
  destruct (cur !! k) as [lc|] eqn:Hlc; simpl.
  - destruct (grouped_lookup _ _ _ _ HY Hlc) as [Hndc Hc]. rewrite same_nodes by done.
    setoid_rewrite Hp. by setoid_rewrite Hc.
  - split.
    + destruct HX as [HX _], (HX k lp Hlp) as [Hne _].
      intros [Hlen%bool_decide_eq_false _]%orb_false_iff. apply dec_stable in Hlen. by destruct lp.
    + intros Heq. destruct HX as [HX HX']. destruct (HX k lp Hlp) as [Hne _]. destruct lp as [|x lp]; [done|].
      assert (Hin : (k, x) ∈ Y) by (apply Heq, HX'; exists (x :: lp); split; [done|by left]).
      apply HY in Hin as (l & Hl & _). congruence.
Qed.

(** The comparison of the health manager decides whether the sets differ. *)
Lemma hasHealthConsensusChanged_spec hm cur X Y :
  grouped (healthConsensus hm) X -> grouped cur Y -> hasHealthConsensusChanged hm cur = false <-> X = Y.
Proof.
  intros HX HY. unfold hasHealthConsensusChanged. set (prev := healthConsensus hm) in *.
  rewrite <- !(size_dom (D := gset string)). split.
  - case_decide as Hsz; [done|]. rewrite existsb_false. intros Hall.
    assert (Hk : forall k, k ∈ dom prev -> forall x, (k, x) ∈ Y <-> (k, x) ∈ X).
    { intros k [lp Hlp]%elem_of_dom. apply (compare_nodes prev cur X Y k lp HX HY Hlp).
      apply (Hall (k, lp)). by apply elem_of_map_to_list. }
    assert (Hdom : dom prev = dom cur).
    { apply set_subseteq_size_eq; [|lia]. intros k Hkp. apply (grouped_dom _ _ k HY).
      pose proof Hkp as [x Hx]%(grouped_dom _ _ k HX). exists x. by apply Hk. }
    apply set_eq. intros [k x]. split; intros Hin; apply Hk; try done.
    + apply (grouped_dom _ _ k HX). eauto.
    + rewrite Hdom. apply (grouped_dom _ _ k HY). eauto.
  - intros <-. assert (Hdom : dom prev = dom cur).
    { apply set_eq. intros k. by rewrite (grouped_dom _ _ k HX), (grouped_dom _ _ k HY). }
    rewrite Hdom, decide_False by (intros Hn; by apply Hn). apply existsb_false.
    intros [k lp] Hlp%elem_of_map_to_list. by apply (compare_nodes prev cur X X k lp).
Qed.

Lemma elem_of_healthy_storages now ns shard node :
  (shard, node) ∈ healthy_storages now ns <-> healthy_storage now ns shard node.
Proof.
  unfold healthy_storages. rewrite elem_of_filter, elem_of_map. simpl. split; [tauto|]. intros Hh. split; [done|].
  destruct Hh as [[p Hp]%set_choose_L _]. unfold seenBy in Hp. apply elem_of_map in Hp as ([[q s] n] & _ & Hd).
  exists (q, s, n). apply elem_of_dom in Hd as [v (Hv & Hs & Hn & _)%lookup_selectWhere_Some]. simpl in *. subst.
  split; [done|]. apply elem_of_dom. eauto.
Qed.

Section ManagerProofs.
Context {RC : MapRange string (gset string)}.
Context (rows : gset string -> list string) (view : gset (string * string) -> list (string * string)).
Context (Hrows : forall X, rows X ≡ₚ elements X) (Hview : forall X, view X ≡ₚ elements X).
Implicit Types (hm : HealthManager) (ns : NodeStatus).

Lemma performHealthChecks_elem check hm vs st h :
  (vs, st, h) ∈ performHealthChecks rows check hm <->
  st ∈ default ∅ (clients hm !! vs) /\
  h = match check vs st with Some SERVING => true | _ => false end.
Proof using Hrows.
  unfold performHealthChecks. rewrite list_elem_of_bind. setoid_rewrite list_elem_of_bind. split.
  - intros ([vs' X] & (st' & Hin%list_elem_of_singleton & Hst) & HX%range_elem). simpl in *. simplify_eq.
    rewrite Hrows, elem_of_elements in Hst. by rewrite HX.
  - intros [Hst ->]. destruct (clients hm !! vs) as [X|] eqn:HX; [|done]. simpl in Hst. exists (vs, X). split; [|by apply range_elem]. exists st.
    rewrite list_elem_of_singleton, Hrows, elem_of_elements. done.
Qed.

Lemma upsert_lookup now praefect l ns k :
  NoDup l.*1 ->
  foldl (upsertStatus now praefect) ns l !! k =
  match list_find (fun r => (praefect, r.1.1, r.1.2) = k) l with
  | Some (_, r) => Some (mkStatus (Some now) (if r.2 : bool then Some now else ns !! k ≫= last_seen_active_at))
  | None => ns !! k
  end.
Proof.
  revert ns. induction l as [|[[s n] h] l IH]; intros ns Hnd; [done|]. simpl in Hnd. apply NoDup_cons in Hnd as [Hn Hnd].
  simpl. rewrite IH by done. case_decide as Hk.
  - subst k. destruct (list_find _ l) as [[i r]|] eqn:Hf; simpl.
    + apply list_find_Some in Hf as (Hi & Heq & _). destruct Hn. apply list_elem_of_fmap. exists r.
      destruct r as [[s' n'] h']. simpl in Heq. simplify_eq. split; [done|]. by eapply list_elem_of_lookup_2.
    + unfold upsertStatus. simpl. by rewrite lookup_insert_eq.
  - unfold upsertStatus. simpl. rewrite lookup_insert_ne by done. destruct (list_find _ l) as [[i r]|]; done.
Qed.

Lemma performHealthChecks_nodup check hm : NoDup (performHealthChecks rows check hm).*1.
Proof using Hrows.
  assert (Hkeys : (performHealthChecks rows check hm).*1 = vss ← range (clients hm); pair vss.1 <$> rows vss.2).
  { unfold performHealthChecks. generalize (range (clients hm)). intros l.
    induction l as [|[vs X] l IH]; [done|]. rewrite !bind_cons, fmap_app, IH. f_equal. simpl.
    generalize (rows X). intros l'. induction l' as [|x l' IH']; [done|]. rewrite bind_cons. simpl. by f_equal. }
  rewrite Hkeys. apply NoDup_bind.
  - intros [vs X] [vs' X'] [a b] Hv Hv' Ha Ha'. simpl in *.
    apply list_elem_of_fmap in Ha as (? & [= -> ->] & _), Ha' as (? & [= -> ->] & _).
    apply range_elem in Hv, Hv'. congruence.
  - intros [vs X] _. simpl. apply NoDup_fmap_2; [intros a b; congruence|]. rewrite Hrows. apply NoDup_elements.
  - eapply NoDup_fmap_1, range_nodup.
Qed.

(** The managers that come out of [NewHealthManager] and updates; [X] is the set of
    healthy storages at the last update. *)
Inductive managed : HealthManager -> gset (string * string) -> Prop :=
| managed_new name cl : managed (NewHealthManager name cl) ∅
| managed_update hm X now check ns hm' ns' b :
    managed hm X -> updateHealthChecks rows view now check hm ns = (hm', ns', b) ->
    managed hm' (healthy_storages now ns').

Lemma update_consensus now check hm ns hm' ns' b X :
  grouped (healthConsensus hm) X -> updateHealthChecks rows view now check hm ns = (hm', ns', b) ->
  grouped (healthConsensus hm') (healthy_storages now ns') /\
  (b = true <-> firstUpdate hm = true \/ X ≠ healthy_storages now ns').
Proof using Hrows Hview.
  intros HX. unfold updateHealthChecks.
  set (ns1 := foldl _ ns _). set (consensus := foldl appendAt ∅ (view _)).
  assert (Hc : grouped consensus (healthy_storages now ns1)).
  { apply foldl_appendAt_grouped; [rewrite Hview; apply NoDup_elements|]. intros p. by rewrite Hview, elem_of_elements. }
  pose proof (hasHealthConsensusChanged_spec hm consensus _ _ HX Hc) as Hch.
  destruct (firstUpdate hm); simpl.
  { intros. simplify_eq. split; [done|]. split; [by left|done]. }
  destruct (hasHealthConsensusChanged hm consensus); intros; simplify_eq; simpl.
  - split; [done|]. split; [|done]. intros _. right. intros Heq. by apply Hch in Heq.
  - rewrite <- (proj1 Hch) by done. split; [done|]. split; [done|]. intros [?|?]; [done|].
    by destruct (proj1 Hch).
Qed.

Lemma managed_grouped hm X : managed hm X -> grouped (healthConsensus hm) X.
Proof using Hrows Hview.
  induction 1 as [name cl|hm X now check ns hm' ns' b _ IH Hu].
  - split; [apply map_Forall_empty|]. intros k x. simpl. setoid_rewrite lookup_empty. set_solver.
  - by eapply update_consensus.
Qed.

Lemma update_status now check hm ns hm' ns' b praefect vs st :
  updateHealthChecks rows view now check hm ns = (hm', ns', b) ->
  ns' !! (praefect, vs, st) =
  if decide (praefect = praefectName hm /\ st ∈ default ∅ (clients hm !! vs))
  then Some (mkStatus (Some now) (match check vs st with
      | Some SERVING => Some now
      | _ => ns !! (praefect, vs, st) ≫= last_seen_active_at end))
  else ns !! (praefect, vs, st).
Proof using Hrows.
  intros Hu.
  assert (Hns : ns' = foldl (upsertStatus now (praefectName hm)) ns (performHealthChecks rows check hm))
    by (unfold updateHealthChecks in Hu; case_match; by simplify_eq).
  rewrite Hns, upsert_lookup by apply performHealthChecks_nodup.
  destruct (list_find _ _) as [[i [[s n] h]]|] eqn:Hf.
  - apply list_find_Some in Hf as (Hi & Heq & _). simpl in *. simplify_eq.
    apply list_elem_of_lookup_2, performHealthChecks_elem in Hi as [HX ->].
    rewrite decide_True by done. f_equal. f_equal. by destruct (check vs st) as [[]|].
  - apply list_find_None in Hf. rewrite Forall_forall in Hf. rewrite decide_False; [done|].
    intros [-> HX]. eapply (Hf (vs, st, _)); [by apply performHealthChecks_elem|done].
Qed.
End ManagerProofs.

(** After every round of health checks the consensus the manager reports is
    exactly the set of storages that at least half of the Praefects with a recent
    contact attempt have seen within ten seconds; a change is signalled exactly on
    the first round and when that set differs from the one of the last round; and
    the round records an attempt, and a sighting if it succeeded, for the
    configured nodes of this Praefect and nothing else. *)
Theorem health_consensus_correct {RC : MapRange string (gset string)}
    (rows : gset string -> list string) (view : gset (string * string) -> list (string * string))
    hm X now check ns hm' ns' b :
  (forall Y, rows Y ≡ₚ elements Y) -> (forall Y, view Y ≡ₚ elements Y) ->
  managed rows view hm X -> updateHealthChecks rows view now check hm ns = (hm', ns', b) ->
  (forall vs st, st ∈ default [] (healthConsensus hm' !! vs) <-> healthy_storage now ns' vs st) /\
  (b = true <-> firstUpdate hm = true \/ X ≠ healthy_storages now ns') /\
  (forall praefect vs st, ns' !! (praefect, vs, st) =
    if decide (praefect = praefectName hm /\ st ∈ default ∅ (clients hm !! vs))
    then Some (mkStatus (Some now) (match check vs st with
        | Some SERVING => Some now
        | _ => ns !! (praefect, vs, st) ≫= last_seen_active_at end))
    else ns !! (praefect, vs, st)).
Proof.
  intros Hrows Hview Hm Hu.
  destruct (update_consensus rows view Hrows Hview _ _ _ _ _ _ _ _ (managed_grouped _ _ Hrows Hview _ _ Hm) Hu)
    as [[_ Hg] Hb].
  split_and!; [|done|].
  - intros vs st. rewrite <- elem_of_healthy_storages, Hg.
    destruct (healthConsensus hm' !! vs) as [l|]; simpl; [naive_solver|]. split; [by intros ?%elem_of_nil|naive_solver].
  - intros praefect vs st. by apply (update_status rows view Hrows _ _ _ _ _ _ _ _ _ _ Hu).
Qed.

(** Two Praefects, of which the second has seen no node for half a minute. *)
Definition ex_status : NodeStatus :=
  {[ ("praefect-1", "default", "gitaly-1") := mkStatus (Some 90000) (Some 90000);
     ("praefect-2", "default", "gitaly-1") := mkStatus (Some 99000) (Some 70000) ]}.

Definition ex_hm : HealthManager := NewHealthManager "praefect-1" {[ "default" := {[ "gitaly-1"; "gitaly-2" ]} ]}.

Definition ex_check (vs st : string) : option CheckResponse :=
  if decide (st = "gitaly-1") then Some SERVING else None.

Abbreviation ex_round := (updateHealthChecks (RC := default_range string (gset string)) elements elements 100000
  ex_check ex_hm ex_status).

Lemma ex_round_consensus : healthConsensus ex_round.1.1 !! "default" = Some ["gitaly-1"].
Proof. vm_compute. reflexivity. Qed.

Lemma health_consensus_correct_witness :
  healthy_storage 100000 ex_round.1.2 "default" "gitaly-1" /\ ex_round.2 = true.
Proof.
  pose proof ex_round_consensus as Hc0. destruct ex_round as [[hm' ns'] b] eqn:Hu.
  destruct (health_consensus_correct (RC := default_range string (gset string)) elements elements ex_hm ∅
    100000 ex_check ex_status hm' ns' b (fun Y => reflexivity _) (fun Y => reflexivity _)
    (managed_new elements elements _ _) Hu) as (Hc & Hb & _).
  cbn [fst snd] in *. split; [|by apply Hb; left]. apply Hc. rewrite Hc0. by left.
Defined.
