(* ===== verification/Elections.v ===== *)
(** Primaries per repository (src/internal/praefect/nodes/per_repository.go and the
    view [valid_primaries] of src/internal/praefect/datastore/migrations).

    The database is the repository store, the replication queue and the health
    table together. [ORDER BY random() LIMIT 1] is a choice function, an instance
    of [RandomChoice]. *)

From S2P Require Import Prelude Sql RepoStore Datastore PgQueue Health.

Record Database : Type := mkDB {
  db_store : PostgresRepositoryStore;
  db_queue : QueueTables;
  db_status : NodeStatus;
}.

Class RandomChoice := {
  pick : gset string -> option string;
  pick_elem : forall X x, pick X = Some x -> x ∈ X;
  pick_None : forall X, pick X = None -> X = ∅;
}.

(** The least element, to evaluate the definitions. *)
#[local] Program Instance first_choice : RandomChoice := {| pick X := head (elements X) |}.
Next Obligation. intros X x Hx. apply elem_of_elements. simpl in Hx. destruct (elements X); simplify_eq/=. by left. Qed.
Next Obligation. intros X Hx. simpl in Hx. apply leibniz_equiv, elements_empty_inv. by destruct (elements X). Qed.

(** ** The view [valid_primaries] *)

(** A row of the queue that is not over and concerns the replica. *)
Definition activeJob (change : ChangeType) (vs path target : string) (r : QueueRow) : Prop :=
  isActive (q_state r) /\ Change (q_job r) = change /\ VirtualStorage (q_job r) = vs /\
  RelativePath (q_job r) = path /\ TargetNodeStorage (q_job r) = target.

#[export] Instance activeJob_dec change vs path target r : Decision (activeJob change vs path target r).
Proof. unfold activeJob. apply _. Defined.

Definition hasActiveJob (change : ChangeType) (vs path target : string) (q : QueueTables) : Prop :=
  countWhere (fun kv => activeJob change vs path target kv.2) (replication_queue q) ≠ O.

Definition storagesWithReplica (vs path : string) (s : PostgresRepositoryStore) : gset string :=
  set_map snd (dom (replicas vs path s)).

(** The rows of the sub-query: up-to-date replicas on healthy storages that are
    not about to be deleted. *)
Definition primaryCandidate (now : Z) (db : Database) (vs path st : string) : Prop :=
  r_generation <$> storage_repositories (db_store db) !! (vs, path, st)
    = maxGeneration (replicas vs path (db_store db)) /\
  healthy_storage now (db_status db) vs st /\ ~ hasActiveJob DeleteReplica vs path st (db_queue db).

#[export] Instance hasActiveJob_dec change vs path target q : Decision (hasActiveJob change vs path target q).
Proof. unfold hasActiveJob. apply _. Defined.

#[export] Instance primaryCandidate_dec now db vs path st : Decision (primaryCandidate now db vs path st).
Proof. unfold primaryCandidate. apply _. Defined.

Definition primaryCandidates (now : Z) (db : Database) (vs path : string) : gset string :=
  filter (primaryCandidate now db vs path) (storagesWithReplica vs path (db_store db)).

Definition isAssigned (vs path : string) (s : PostgresRepositoryStore) (st : string) : Prop :=
  (vs, path, st) ∈ repository_assignments s.

#[export] Instance isAssigned_dec vs path s st : Decision (isAssigned vs path s st).
Proof. unfold isAssigned. apply _. Defined.

Definition valid_primaries (now : Z) (db : Database) (vs path : string) : gset string :=
  let candidates := primaryCandidates now db vs path in
  filter (fun st => isAssigned vs path (db_store db) st \/
    set_Forall (fun st' => ~ isAssigned vs path (db_store db) st') candidates) candidates.

(** ** [GetPrimary] *)

Inductive ElectionError : Type :=
| ErrRepositoryNotFound
| ErrNoPrimary.

Definition set_primary (p : option string) (r : RepoRow) : RepoRow :=
  mkRepoRow (repository_id r) (generation r) p (replica_path r).

Definition with_primary (vs path : string) (p : option string) (db : Database) : Database :=
  mkDB (with_repositories (alter (set_primary p) (vs, path)) (db_store db)) (db_queue db) (db_status db).

Definition GetPrimary `{!RandomChoice} (now : Z) (vs path : string) : M Database ElectionError string := fun db =>
  match repositories (db_store db) !! (vs, path) with
  | None => (Err ErrRepositoryNotFound, db)
  | Some repo =>
    let valid := valid_primaries now db vs path in
    let stays := match primary repo with Some p => bool_decide (p ∈ valid) | None => false end in
    let current := if stays then primary repo else pick valid in
    let db' := if stays then db else with_primary vs path current db in
    match current with
    | None => (Err ErrNoPrimary, db')
    | Some p => (Ok p, db')
    end
  end.

(** ** Properties *)

Lemma elem_of_storagesWithReplica vs path s st :
  st ∈ storagesWithReplica vs path s <-> is_Some (storage_repositories s !! (vs, path, st)).
Proof.
  unfold storagesWithReplica, replicas. rewrite elem_of_map. split.
  - intros ([[v p] s'] & -> & [r [Hr Hk]%map_lookup_filter_Some]%elem_of_dom). simpl in *. simplify_eq. eauto.
  - intros [r Hr]. exists (vs, path, st). split; [done|]. apply elem_of_dom. exists r. by apply map_lookup_filter_Some.
Qed.

Lemma elem_of_valid_primaries now db vs path st :
  st ∈ valid_primaries now db vs path <->
  is_Some (storage_repositories (db_store db) !! (vs, path, st)) /\ primaryCandidate now db vs path st /\
  (isAssigned vs path (db_store db) st \/
   forall st', is_Some (storage_repositories (db_store db) !! (vs, path, st')) ->
     primaryCandidate now db vs path st' -> ~ isAssigned vs path (db_store db) st').
Proof.
  unfold valid_primaries, primaryCandidates, set_Forall. rewrite !elem_of_filter.
  setoid_rewrite elem_of_filter. setoid_rewrite elem_of_storagesWithReplica. naive_solver.
Qed.

(** What an elected primary offers. *)
Record valid_primary (now : Z) (db : Database) (vs path st : string) : Prop := {
  vp_consistent : forall X, GetConsistentStorages vs path (db_store db) = Ok X -> st ∈ X;
  vp_healthy : healthy_storage now (db_status db) vs st;
  vp_kept : forall id r, replication_queue (db_queue db) !! id = Some r -> ~ activeJob DeleteReplica vs path st r;
  vp_assigned : isAssigned vs path (db_store db) st \/
    forall st', primaryCandidate now db vs path st' -> ~ isAssigned vs path (db_store db) st';
}.

Lemma valid_primaries_valid now db vs path st repo :
  repositories (db_store db) !! (vs, path) = Some repo ->
  st ∈ valid_primaries now db vs path -> valid_primary now db vs path st.
Proof.
  intros Hrepo ([r Hr] & (Hgen & Hh & Hk) & Ha)%elem_of_valid_primaries. split.
  - intros X. unfold GetConsistentStorages. rewrite Hrepo. case_decide; [done|]. intros [= <-].
    apply elem_of_map. exists (vs, path, st). split; [done|]. apply elem_of_dom. exists r.
    apply map_lookup_filter_Some. split; [by apply replicas_lookup|]. simpl. by rewrite <- Hgen, Hr.
  - done.
  - intros id q Hq Hact. apply Hk. unfold hasActiveJob. rewrite countWhere_zero. intros Hz. by apply (Hz id q Hq).
  - destruct Ha as [?|Ha]; [by left|right]. intros st' Hc. apply Ha; [|done]. destruct Hc as (Hg' & _).
    rewrite <- Hgen, Hr in Hg'. destruct (_ !! (vs, path, st')); [done|]. done.
Qed.

(** C15. The primary [GetPrimary] returns is an up-to-date replica on a storage
    the quorum considers healthy, that is not about to be deleted and that is
    assigned to host the repository unless no candidate is. A primary that is
    still valid stays; otherwise one is elected and recorded, and asking again
    gives the same answer. Without a valid candidate the primary is demoted and
    the call fails. Nothing else changes in the database. *)
Theorem elected_primary_valid `{!RandomChoice} now vs path db r db' :
  GetPrimary now vs path db = (r, db') ->
  match r with
  | Ok p => valid_primary now db vs path p /\ db' = with_primary vs path (Some p) db /\
      (forall repo q, repositories (db_store db) !! (vs, path) = Some repo -> primary repo = Some q ->
         q ∈ valid_primaries now db vs path -> p = q) /\
      GetPrimary now vs path db' = (Ok p, db')
  | Err ErrRepositoryNotFound => repositories (db_store db) !! (vs, path) = None /\ db' = db
  | Err ErrNoPrimary => valid_primaries now db vs path = ∅ /\ db' = with_primary vs path None db
  | Panic => False
  end.
Proof.
  unfold GetPrimary at 1. destruct (repositories (db_store db) !! (vs, path)) as [repo|] eqn:Hrepo; [|by intros [= <- <-]].
  set (valid := valid_primaries now db vs path).
  assert (Hnew : forall p, p ∈ valid -> GetPrimary now vs path (with_primary vs path (Some p) db)
    = (Ok p, with_primary vs path (Some p) db)).
  { intros p Hp. unfold GetPrimary, with_primary, with_repositories. cbn [db_store repositories db_queue db_status].
    rewrite lookup_alter_eq, Hrepo. cbn [fmap option_fmap option_map set_primary primary].
    rewrite (bool_decide_eq_true_2 _); [done|exact Hp]. }
  destruct (match primary repo with Some p => bool_decide (p ∈ valid) | None => false end) eqn:Hstays.
  - destruct (primary repo) as [p|] eqn:Hp; [|done]. apply bool_decide_eq_true in Hstays. intros [= <- <-].
    assert (Hsame : with_primary vs path (Some p) db = db).
    { destruct db as [[rs ss ra sq] q ns]. unfold with_primary, with_repositories. cbn in *. do 2 f_equal.
      apply alter_id. intros x Hx. rewrite Hrepo in Hx. simplify_eq. destruct x. cbn in *. by subst. }
    split_and!; [by eapply valid_primaries_valid|done|intros ? q [= <-] ? ?; congruence|].
    rewrite <- Hsame. by apply Hnew.
  - destruct (pick valid) as [p|] eqn:Hpick; intros [= <- <-]; [|by apply pick_None in Hpick].
    apply pick_elem in Hpick. split_and!; [by eapply valid_primaries_valid|done| |by apply Hnew].
    intros ? q [= <-] Hq Hin. rewrite Hq in Hstays. by apply bool_decide_eq_false in Hstays.
Qed.

(** Two replicas of which the primary is outdated. *)
Definition ex_db : Database :=
  mkDB (mkStore {[ ("vs", "repo") := mkRepoRow 1 (Some 1) (Some "a") "repo" ]}
          {[ ("vs", "repo", "a") := mkReplicaRow (Some 1) 0; ("vs", "repo", "b") := mkReplicaRow (Some 1) 1 ]} ∅ 1)
    emptyTables
    {[ ("p", "vs", "a") := mkStatus (Some 100) (Some 100); ("p", "vs", "b") := mkStatus (Some 100) (Some 100) ]}.

Lemma elected_primary_valid_witness :
  valid_primary 100 ex_db "vs" "repo" "b" /\ (GetPrimary 100 "vs" "repo" ex_db).1 = Ok "b".
Proof.
  assert (Hb : (GetPrimary 100 "vs" "repo" ex_db).1 = Ok "b") by (vm_compute; reflexivity).
  destruct (GetPrimary 100 "vs" "repo" ex_db) as [r db'] eqn:Hg.
  pose proof (elected_primary_valid 100 "vs" "repo" ex_db r db' Hg) as Hv. cbn [fst] in Hb. rewrite Hb in Hv.
  split; [apply Hv|done].
Defined.
