(* ===== verification/Assignments.v ===== *)
(** Host assignments (src/internal/praefect/datastore/assignment.go): which storages
    are to host a repository, and the replication factor.

    The order in which the database returns rows is [rows]; [ORDER BY random()] is
    [shuffle]. *)

From S2P Require Import Prelude Sql RepoStore.

Inductive AssignmentError : Type :=
| VirtualStorageNotFoundError
| UnattainableReplicationFactorError (attempted maximum : Z)
| MinimumReplicationFactorError (attempted : Z)
| AssignmentRepositoryNotFoundError
| AssignmentQueryError (what : string).

Abbreviation ADB := (M PostgresRepositoryStore AssignmentError).

(** Orders the statements leave open. *)
Class RowsOrder := {
  rows : gset string -> list string;
  rows_perm : forall X, rows X ≡ₚ elements X;
  shuffle : list string -> list string;
  shuffle_perm : forall l, shuffle l ≡ₚ l;
}.

Definition with_assignments (f : gset replicaKey -> gset replicaKey) (s : PostgresRepositoryStore) :=
  mkStore (repositories s) (storage_repositories s) (f (repository_assignments s)) (id_seq s).

Section Store.
Context `{!RowsOrder} (configuredStorages : gmap string (list string)).

(** The storages assigned in the database that are configured. *)
Definition existingAssignments (vs path : string) (candidates : list string) (s : PostgresRepositoryStore) : gset string :=
  filter (fun st => st ∈ candidates) (set_map snd (filter (fun k => k.1 = (vs, path)) (repository_assignments s))).

Definition GetHostAssignments (vs path : string) : ADB (list string) :=
  match configuredStorages !! vs with
  | None => fail VirtualStorageNotFoundError
  | Some configured =>
    s ← get;
    let assignedStorages := rows (existingAssignments vs path configured s) in
    if decide (length assignedStorages = O) then mret configured else mret assignedStorages
  end.

(** Storages without an assignment, the primary first. *)
Definition creatable (primary : option string) (candidates : list string) (existing : gset string) : list string :=
  let free := filter (fun st => st ∉ existing) candidates in
  filter (fun st => Some st = primary) (shuffle free) ++ filter (fun st => Some st ≠ primary) (shuffle free).

(** Assignments that may be removed; a comparison with a NULL primary holds for
    no row. *)
Definition removable (primary : option string) (existing : gset string) : list string :=
  match primary with
  | None => []
  | Some p => shuffle (rows (existing ∖ {[p]}))
  end.

Definition keysOf (vs path : string) (l : list string) : gset replicaKey :=
  list_to_set ((fun st => (vs, path, st)) <$> l).

Definition SetReplicationFactor (vs path : string) (replicationFactor : Z) : ADB (list string) :=
  match configuredStorages !! vs with
  | None => fail VirtualStorageNotFoundError
  | Some candidateStorages =>
    if decide (replicationFactor < 1) then fail (MinimumReplicationFactorError replicationFactor)
    else if decide (Z.of_nat (length candidateStorages) < replicationFactor)
    then fail (UnattainableReplicationFactorError replicationFactor (Z.of_nat (length candidateStorages)))
    else
      s ← get;
      match repositories s !! (vs, path) with
      | None => fail AssignmentRepositoryNotFoundError
      | Some repo =>
        let existing := existingAssignments vs path candidateStorages s in
        let amount := Z.of_nat (size existing) in
        let created := take (Z.to_nat (amount `max` replicationFactor - amount))
          (creatable (primary repo) candidateStorages existing) in
        let removed := take (Z.to_nat (amount - amount `min` replicationFactor)) (removable (primary repo) existing) in
        if decide (NoDup created) then
          _ ← put (with_assignments (fun a => (a ∪ keysOf vs path created) ∖ keysOf vs path removed) s);
          let storages := rows ((existing ∖ list_to_set removed) ∪ list_to_set created) in
          if decide (length storages = O) then fail AssignmentRepositoryNotFoundError else mret storages
        else fail (AssignmentQueryError "repository_assignments_pkey")
      end
  end.

End Store.

(** ** Properties *)

Section Proofs.
Context `{!RowsOrder}.

Lemma elem_of_rows X x : x ∈ rows X <-> x ∈ X.
Proof. by rewrite rows_perm, elem_of_elements. Qed.

Lemma length_rows X : length (rows X) = size X.
Proof. by rewrite rows_perm. Qed.

Lemma elem_of_existing vs path c s st :
  st ∈ existingAssignments vs path c s <-> st ∈ c /\ (vs, path, st) ∈ repository_assignments s.
Proof.
  unfold existingAssignments. rewrite elem_of_filter, elem_of_map. setoid_rewrite elem_of_filter. split.
  - intros [Hc ([k st'] & -> & Hk & Hin)]. simpl in *. by subst.
  - intros [Hc Hin]. split; [done|]. by exists (vs, path, st).
Qed.

Lemma creatable_perm p c (existing : gset string) :
  creatable p c existing ≡ₚ filter (fun st => st ∉ existing) c.
Proof.
  unfold creatable. rewrite shuffle_perm. generalize (filter (fun st => st ∉ existing) c). intros l.
  induction l as [|x l IH]; [done|]. rewrite !filter_cons. destruct (decide (Some x = p)).
  - rewrite decide_False by by intros Hn; apply Hn. simpl. by rewrite IH.
  - rewrite decide_True by done. by rewrite <- Permutation_middle, IH.
Qed.

(** The primary comes first among the storages to be assigned. *)
Lemma creatable_primary p c (existing : gset string) (n : nat) :
  p ∈ c -> p ∉ existing -> (0 < n)%nat -> p ∈ take n (creatable (Some p) c existing).
Proof.
  intros Hc Hn Hpos. unfold creatable.
  assert (Hin : p ∈ filter (fun st => Some st = Some p) (shuffle (filter (fun st => st ∉ existing) c))).
  { apply list_elem_of_filter. split; [done|]. rewrite shuffle_perm. by apply list_elem_of_filter. }
  destruct (filter (fun st => Some st = Some p) _) as [|q l] eqn:Hf; [by apply elem_of_nil in Hin|].
  assert (Hq : q ∈ filter (fun st => Some st = Some p) (shuffle (filter (fun st => st ∉ existing) c)))
    by (rewrite Hf; by left).
  apply list_elem_of_filter in Hq as [[= ->] _]. destruct n; [lia|]. by left.
Qed.

Lemma size_free c (existing : gset string) :
  NoDup c -> (forall st, st ∈ existing -> st ∈ c) ->
  length (filter (fun st => st ∉ existing) c) = (length c - size existing)%nat.
Proof.
  intros Hnd Hsub. rewrite <- (size_list_to_set (C := gset string)) by by apply NoDup_filter.
  rewrite <- (size_list_to_set (C := gset string) c) by done.
  rewrite <- size_difference by set_solver. f_equal. apply set_eq. intros x.
  rewrite elem_of_list_to_set, list_elem_of_filter, elem_of_difference, elem_of_list_to_set. naive_solver.
Qed.

Lemma elem_of_keysOf vs path l k : k ∈ keysOf vs path l <-> k.1 = (vs, path) /\ k.2 ∈ l.
Proof.
  unfold keysOf. rewrite elem_of_list_to_set, list_elem_of_fmap. destruct k as [k st]. simpl. naive_solver.
Qed.

Section Factor.
Context (vs path p : string) (c : list string) (rf : Z) (s : PostgresRepositoryStore).
Context (Hnd : NoDup c) (Hrf : 1 <= rf <= Z.of_nat (length c)).

Abbreviation existing := (existingAssignments vs path c s).
Abbreviation amount := (Z.of_nat (size existing)).
Abbreviation created := (take (Z.to_nat (amount `max` rf - amount)) (creatable (Some p) c existing)).
Abbreviation removed := (take (Z.to_nat (amount - amount `min` rf)) (removable (Some p) existing)).

Lemma created_nodup : NoDup created.
Proof using Hnd.
  eapply sublist_NoDup; [|apply sublist_take]. rewrite creatable_perm. by apply NoDup_filter.
Qed.

Lemma created_elem st : st ∈ created -> st ∈ c /\ st ∉ existing.
Proof.
  intros (i & Hi & _)%elem_of_take. apply list_elem_of_lookup_2 in Hi.
  rewrite creatable_perm in Hi. by apply list_elem_of_filter in Hi as [? ?].
Qed.

Lemma removed_elem st : st ∈ removed -> st ∈ existing /\ st ≠ p.
Proof.
  intros (i & Hi & _)%elem_of_take. apply list_elem_of_lookup_2 in Hi. unfold removable in Hi.
  rewrite shuffle_perm, elem_of_rows in Hi. set_solver.
Qed.

Lemma removed_nodup : NoDup removed.
Proof.
  eapply sublist_NoDup; [|apply sublist_take]. unfold removable. rewrite shuffle_perm, rows_perm. apply NoDup_elements.
Qed.

Lemma created_length : Z.of_nat (length created) = amount `max` rf - amount.
Proof using Hnd Hrf.
  rewrite length_take, creatable_perm, size_free; [|done|].
  - lia.
  - intros st. by rewrite elem_of_existing; intros [? _].
Qed.

Lemma removed_length : Z.of_nat (length removed) = amount - amount `min` rf.
Proof using Hnd Hrf.
  rewrite length_take. unfold removable. rewrite shuffle_perm, length_rows.
  destruct (decide (p ∈ existing)) as [Hin|Hn].
  - rewrite size_difference by set_solver. rewrite size_singleton.
    assert (size existing ≠ O) by (rewrite size_non_empty_iff; set_solver). lia.
  - assert (Heq : existing ∖ {[p]} = existing) by set_solver. rewrite Heq. lia.
Qed.
(** The assignments afterwards. *)
Abbreviation result := ((existing ∖ list_to_set removed) ∪ list_to_set created).
Abbreviation after := (with_assignments (fun a => (a ∪ keysOf vs path created) ∖ keysOf vs path removed) s).

Lemma created_kept st : st ∈ created -> st ∉ removed.
Proof. intros [_ Hn]%created_elem [Hin _]%removed_elem. done. Qed.

Lemma size_result : Z.of_nat (size result) = rf.
Proof using Hnd Hrf.
  pose proof created_length as Hcl. pose proof removed_length as Hrl.
  rewrite size_union; [|intros x [Hx _]%elem_of_difference Hx'%elem_of_list_to_set; by apply created_elem in Hx' as [_ ?]].
  rewrite size_difference by (intros x Hx%elem_of_list_to_set; by apply removed_elem in Hx as [? _]).
  rewrite !size_list_to_set by (apply created_nodup || apply removed_nodup). lia.
Qed.

Lemma existing_after : existingAssignments vs path c after = result.
Proof.
  apply set_eq. intros st. rewrite elem_of_existing. cbn [repository_assignments with_assignments].
  rewrite elem_of_difference, elem_of_union, !elem_of_keysOf. cbn [fst snd].
  rewrite elem_of_union, elem_of_difference, !elem_of_list_to_set, elem_of_existing.
  pose proof (created_elem st). pose proof (created_kept st). tauto.
Qed.

Lemma other_after k st : k ≠ (vs, path) \/ st ∉ c ->
  (k, st) ∈ repository_assignments after <-> (k, st) ∈ repository_assignments s.
Proof.
  intros Hk. cbn [repository_assignments with_assignments].
  rewrite elem_of_difference, elem_of_union, !elem_of_keysOf. cbn [fst snd].
  pose proof (created_elem st) as Hce. pose proof (removed_elem st) as Hre. rewrite elem_of_existing in Hre. tauto.
Qed.

Lemma result_grows st : amount <= rf -> st ∈ existing -> st ∈ result.
Proof using Hnd Hrf.
  intros Hle Hst. apply elem_of_union_l, elem_of_difference. split; [done|]. intros Hin%elem_of_list_to_set.
  pose proof removed_length as Hrl. destruct removed; [by apply elem_of_nil in Hin|]. simpl in Hrl. lia.
Qed.

Lemma result_shrinks st : rf <= amount -> st ∈ result -> st ∈ existing.
Proof using Hnd Hrf.
  intros Hle [[? _]%elem_of_difference|Hin%elem_of_list_to_set]%elem_of_union; [done|].
  pose proof created_length as Hcl. destruct created; [by apply elem_of_nil in Hin|]. simpl in Hcl. lia.
Qed.

Lemma result_primary : p ∈ existing \/ p ∈ c /\ amount < rf -> p ∈ result.
Proof.
  rewrite elem_of_union, elem_of_difference, !elem_of_list_to_set.
  intros Hcase. destruct (decide (p ∈ existing)) as [He|He].
  - left. split; [done|]. by intros [_ ?]%removed_elem.
  - right. destruct Hcase as [?|[Hin Hlt]]; [done|]. apply creatable_primary; [done..|lia].
Qed.
End Factor.
End Proofs.

(** If the repository exists and has a primary, setting an attainable
    replication factor leaves exactly that many of the configured storages
    assigned, which are the ones returned: growing keeps what was assigned and
    assigns the primary first, shrinking only removes and never the primary, and
    other repositories and storages that are not configured are not touched.
    Asking for the assignments afterwards gives the same storages. *)
Theorem replication_factor_met `{!RowsOrder} configuredStorages vs path c rf s repo p :
  configuredStorages !! vs = Some c -> NoDup c -> 1 <= rf <= Z.of_nat (length c) ->
  repositories s !! (vs, path) = Some repo -> primary repo = Some p ->
  exists res s', SetReplicationFactor configuredStorages vs path rf s = (Ok res, s') /\
    NoDup res /\ Z.of_nat (length res) = rf /\
    (forall st, st ∈ res <-> st ∈ existingAssignments vs path c s') /\
    (forall k st, k ≠ (vs, path) \/ st ∉ c ->
       (k, st) ∈ repository_assignments s' <-> (k, st) ∈ repository_assignments s) /\
    (Z.of_nat (size (existingAssignments vs path c s)) <= rf ->
       forall st, st ∈ existingAssignments vs path c s -> st ∈ res) /\
    (rf <= Z.of_nat (size (existingAssignments vs path c s)) ->
       forall st, st ∈ res -> st ∈ existingAssignments vs path c s) /\
    (p ∈ existingAssignments vs path c s \/
       p ∈ c /\ Z.of_nat (size (existingAssignments vs path c s)) < rf -> p ∈ res) /\
    exists res', GetHostAssignments configuredStorages vs path s' = (Ok res', s') /\ res' ≡ₚ res.
Proof.
  intros Hc Hnd Hrf Hrepo Hp. unfold SetReplicationFactor. unfold_M. rewrite Hc.
  rewrite (decide_False (P := rf < 1)) by lia. rewrite (decide_False (P := Z.of_nat (length c) < rf)) by lia.
  rewrite Hrepo, Hp. rewrite decide_True by by apply created_nodup.
  pose proof (size_result vs path p c rf s Hnd Hrf) as Hsize.
  rewrite decide_False by (rewrite length_rows; lia). do 2 eexists. split; [done|]. split_and!.
  - rewrite rows_perm. apply NoDup_elements.
  - by rewrite length_rows.
  - intros st. by rewrite elem_of_rows, existing_after by done.
  - intros k st Hk. by apply other_after.
  - intros Hle st. rewrite elem_of_rows. by apply result_grows.
  - intros Hle st. rewrite elem_of_rows. by apply result_shrinks.
  - rewrite elem_of_rows. intros Hcase. by apply result_primary.
  - unfold GetHostAssignments. unfold_M. rewrite Hc, existing_after by done.
    rewrite decide_False by (rewrite length_rows; lia). by eexists.
Qed.

(** Without a primary nothing is removed, and the factor is not met. *)
Lemma factor_without_primary `{!RowsOrder} configuredStorages vs path c rf s repo :
  configuredStorages !! vs = Some c -> 1 <= rf <= Z.of_nat (length c) ->
  repositories s !! (vs, path) = Some repo -> primary repo = None ->
  rf < Z.of_nat (size (existingAssignments vs path c s)) ->
  exists res s', SetReplicationFactor configuredStorages vs path rf s = (Ok res, s') /\ rf < Z.of_nat (length res).
Proof.
  intros Hc Hrf Hrepo Hp Hlt. unfold SetReplicationFactor. unfold_M. rewrite Hc.
  rewrite (decide_False (P := rf < 1)) by lia. rewrite (decide_False (P := Z.of_nat (length c) < rf)) by lia.
  rewrite Hrepo, Hp. set (existing := existingAssignments vs path c s) in *.
  replace (Z.to_nat (Z.of_nat (size existing) `max` rf - Z.of_nat (size existing))) with O by lia.
  rewrite take_0, (decide_True (P := NoDup (@nil string))) by constructor.
  unfold removable. rewrite take_nil. cbn [list_to_set foldr].
  assert (Heq : existing ∖ ∅ ∪ ∅ = existing) by set_solver. rewrite Heq.
  rewrite decide_False by (rewrite length_rows; lia). do 2 eexists. split; [done|]. by rewrite length_rows.
Qed.

#[local] Program Instance ex_rows : RowsOrder := {| rows := elements; shuffle l := l |}.
Solve All Obligations with done.

Definition ex_configured : gmap string (list string) := {[ "vs" := ["a"; "b"; "c"] ]}.

Definition ex_assigned : PostgresRepositoryStore :=
  mkStore {[ ("vs", "repo") := mkRepoRow 1 (Some 0) (Some "b") "repo" ]} ∅ {[ ("vs", "repo", "a") ]} 1.

Lemma replication_factor_met_witness :
  exists res s', SetReplicationFactor ex_configured "vs" "repo" 2 ex_assigned = (Ok res, s') /\
    Z.of_nat (length res) = 2 /\ "b" ∈ res.
Proof.
  destruct (replication_factor_met ex_configured "vs" "repo" ["a"; "b"; "c"] 2 ex_assigned
    (mkRepoRow 1 (Some 0) (Some "b") "repo") "b") as (res & s' & He & _ & Hlen & _ & _ & _ & _ & Hp & _).
  - reflexivity.
  - eapply bool_decide_unpack. vm_compute. exact I.
  - simpl. lia.
  - reflexivity.
  - reflexivity.
  - exists res, s'. split_and!; [exact He|exact Hlen|]. apply Hp. right. split; [by right; left|]. vm_compute. reflexivity.
Defined.
