(* ===== verification/Reconciler.v ===== *)
(** The reconciler (src/internal/praefect/reconciler/reconciler.go): one statement
    that compares the replicas of every repository with what its assignments ask
    for and queues the jobs that repair the difference.

    [DISTINCT ON] and [ORDER BY random()] leave open which of several rows is taken:
    a choice function per key ([choice]). The order in which the jobs are inserted
    is [order]; [acquired] says whether the advisory lock was free, [correlationID]
    is the random ID of a job. *)

From S2P Require Import Prelude Sql RepoStore Datastore PgQueue Health Elections.

Section Statement.
Context (healthyNodes : gmap string (list string)) (choice : replicaKey -> RandomChoice).
Implicit Types (db : Database).

(** Healthy storages of virtual storages that have at least two of them. *)
Definition healthyStorages (vs : string) : gset string :=
  match healthyNodes !! vs with
  | Some l => if decide (length l < 2)%nat then ∅ else list_to_set l
  | None => ∅
  end.

Definition assignedStorages (vs path : string) (s : PostgresRepositoryStore) : gset string :=
  set_map snd (filter (fun k => k.1 = (vs, path)) (repository_assignments s)).

(** An active job reads from or writes to the replica. *)
Definition usesReplica (vs path st : string) (r : QueueRow) : Prop :=
  VirtualStorage (q_job r) = vs /\ RelativePath (q_job r) = path /\
  (SourceNodeStorage (q_job r) = st \/ TargetNodeStorage (q_job r) = st) /\ isActive (q_state r).

#[export] Instance usesReplica_dec vs path st r : Decision (usesReplica vs path st r).
Proof. unfold usesReplica. apply _. Defined.

(** [MIN(COALESCE(generation, -1))] over the replicas and assignments. *)
Definition minGeneration (vs path : string) (s : PostgresRepositoryStore) : option Z :=
  foldr (fun st acc => Some (match acc with
      | None => GetGeneration vs path st s
      | Some g => GetGeneration vs path st s `min` g end)) None
    (elements (assignedStorages vs path s ∪ storagesWithReplica vs path s)).

Definition noDeletionQueued (vs path : string) (q : QueueTables) : Prop :=
  countWhere (fun kv => deletingReplica vs path kv.2) (replication_queue q) = O.

#[export] Instance noDeletionQueued_dec vs path q : Decision (noDeletionQueued vs path q).
Proof. unfold noDeletionQueued. apply _. Defined.

(** The first half of [delete_jobs]: an unneeded replica of a repository. *)
Definition unneeded db (vs path st : string) : Prop :=
  assignedStorages vs path (db_store db) ≠ ∅ /\ st ∉ assignedStorages vs path (db_store db) /\
  (exists g, minGeneration vs path (db_store db) = Some g /\ GetGeneration vs path st (db_store db) <= g) /\
  countWhere (fun kv => usesReplica vs path st kv.2) (replication_queue (db_queue db)) = O /\
  noDeletionQueued vs path (db_queue db).

#[export] Instance unneeded_dec db vs path st : Decision (unneeded db vs path st).
Proof.
  unfold unneeded. repeat apply and_dec; try apply _.
  destruct (minGeneration vs path (db_store db)) as [g|]; [|right; naive_solver].
  destruct (decide (GetGeneration vs path st (db_store db) <= g)); [left; eauto|right; naive_solver].
Defined.

(** The second half: a replica of a repository that no longer exists. *)
Definition deletionCandidates db (vs path : string) : gset string :=
  let healthy := storagesWithReplica vs path (db_store db) ∩ healthyStorages vs in
  match repositories (db_store db) !! (vs, path) with
  | Some _ => filter (unneeded db vs path) healthy
  | None => if decide (noDeletionQueued vs path (db_queue db)) then healthy else ∅
  end.

Definition deleteJob db (vs path st : string) : ReplicationJob :=
  mkJob (default 0 (repoID vs path (db_store db))) Datastore.DeleteReplica path st "" vs None.

(** One job per repository with a record of some replica. *)
Definition delete_jobs db : list ReplicationJob :=
  k ← elements (set_map fst (dom (storage_repositories (db_store db))) : gset repoKey);
  match pick (RandomChoice := choice (k, "")) (deletionCandidates db k.1 k.2) with
  | Some st => [deleteJob db k.1 k.2 st]
  | None => []
  end.

(** [unhealthy_repositories]: the target is to host the repository and its replica
    is missing or not at the repository's generation. *)
Definition outdated db (vs path target : string) : Prop :=
  (exists repo, repositories (db_store db) !! (vs, path) = Some repo /\
    ~ (exists g, generation repo = Some g /\
        r_generation <$> storage_repositories (db_store db) !! (vs, path, target) = Some g)) /\
  (assignedStorages vs path (db_store db) = ∅ \/ target ∈ assignedStorages vs path (db_store db)).

#[export] Instance outdated_dec db vs path target : Decision (outdated db vs path target).
Proof.
  unfold outdated. apply and_dec; [|apply _].
  destruct (repositories (db_store db) !! (vs, path)) as [repo|]; [|right; naive_solver].
  destruct (generation repo) as [g|] eqn:Hg.
  - destruct (decide (r_generation <$> storage_repositories (db_store db) !! (vs, path, target) = Some g));
      [right; naive_solver|left; exists repo; naive_solver].
  - left. exists repo. split; [done|]. rewrite Hg. naive_solver.
Defined.

(** [healthy_repositories]: up-to-date replicas that are not about to be deleted. *)
Definition isSource db (vs path st : string) : Prop :=
  (exists repo g, repositories (db_store db) !! (vs, path) = Some repo /\ generation repo = Some g /\
    r_generation <$> storage_repositories (db_store db) !! (vs, path, st) = Some g) /\
  ~ hasActiveJob Datastore.DeleteReplica vs path st (db_queue db).

#[export] Instance isSource_dec db vs path st : Decision (isSource db vs path st).
Proof.
  unfold isSource. apply and_dec; [|apply _].
  destruct (repositories (db_store db) !! (vs, path)) as [repo|]; [|right; naive_solver].
  destruct (generation repo) as [g|] eqn:Hg; [|right; naive_solver].
  destruct (decide (r_generation <$> storage_repositories (db_store db) !! (vs, path, st) = Some g));
    [left; naive_solver|right; naive_solver].
Defined.

Definition sources db (vs path : string) : gset string := filter (isSource db vs path) (healthyStorages vs).

Definition updateJob db (vs path source target : string) : ReplicationJob :=
  mkJob (default 0 (repoID vs path (db_store db))) UpdateRepo path target source vs None.

Definition update_jobs db : list ReplicationJob :=
  k ← elements (dom (repositories (db_store db)));
  target ← elements (healthyStorages k.1);
  if decide (outdated db k.1 k.2 target /\ ~ hasActiveJob UpdateRepo k.1 k.2 target (db_queue db)) then
    match pick (RandomChoice := choice (k, target)) (sources db k.1 k.2) with
    | Some source => [updateJob db k.1 k.2 source target]
    | None => []
    end
  else [].

End Statement.

(** ** The insertion *)

Definition jobLock (j : ReplicationJob) : string :=
  lockName (VirtualStorage j) (TargetNodeStorage j) (RelativePath j).

Fixpoint insertJobs (now : Z) (correlationID : ReplicationJob -> string) (jobs : list ReplicationJob) : PQ unit :=
  match jobs with
  | [] => mret tt
  | j :: jobs =>
    _ ← insertRow (newRow now (jobLock j) j (Some {[ "correlation_id" := PString (correlationID j) ]}));
    insertJobs now correlationID jobs
  end.

(** A statement that fails leaves the tables as they were; the values it took from
    the sequence are gone. *)
Definition insertStatement (now : Z) (correlationID : ReplicationJob -> string) (jobs : list ReplicationJob)
    : PQ unit := fun t =>
  match insertJobs now correlationID jobs t with
  | (Ok u, t') => (Ok u, t')
  | (Err e, t') => (Err e, mkTables (replication_queue_lock t) (replication_queue t)
      (replication_queue_job_lock t) (replication_queue_id_seq t'))
  | (Panic, t') => (Panic, t')
  end.

Definition reconcile (healthyNodes : gmap string (list string)) (choice : replicaKey -> RandomChoice)
    (order : list ReplicationJob -> list ReplicationJob) (acquired : bool) (now : Z)
    (correlationID : ReplicationJob -> string) : M Database QueueError (list ReplicationJob) := fun db =>
  if decide (map_Forall (fun vs _ => healthyStorages healthyNodes vs = ∅) healthyNodes) then (Ok [], db)
  else
    let jobs := if acquired
      then order (update_jobs healthyNodes choice db ++ delete_jobs healthyNodes choice db) else [] in
    match insertStatement now correlationID jobs (db_queue db) with
    | (Ok _, q) => (Ok jobs, mkDB (db_store db) q (db_status db))
    | (Err e, q) => (Err e, mkDB (db_store db) q (db_status db))
    | (Panic, q) => (Panic, mkDB (db_store db) q (db_status db))
    end.

(** ** Inserting the jobs *)

Definition jobRow (now : Z) (correlationID : ReplicationJob -> string) (j : ReplicationJob) : QueueRow :=
  newRow now (jobLock j) j (Some {[ "correlation_id" := PString (correlationID j) ]}).

Lemma insertRow_ok row t :
  fresh_row row -> pg_inv t -> replication_queue_id_seq t < bigintMax ->
  (Change (q_job row) = Datastore.DeleteReplica ->
   noDeletionQueued (VirtualStorage (q_job row)) (RelativePath (q_job row)) t) ->
  insertRow row t = (Ok (replication_queue_id_seq t + 1),
    mkTables (insertLock (q_lock_id row) (replication_queue_lock t))
      (<[replication_queue_id_seq t + 1 := row]> (replication_queue t)) (replication_queue_job_lock t)
      (replication_queue_id_seq t + 1)).
Proof.
  intros [Hst _] Hinv Hseq Hdel. unfold insertRow. unfold_M. rewrite (decide_False (P := bigintMax < _)) by lia.
  rewrite decide_False; [|intros [r Hr]; apply (pi_ids _ Hinv) in Hr; lia].
  rewrite decide_False; [done|]. intros [(_ & Hc & _) Hz]. apply Hz, Hdel, Hc.
Qed.

(** At most one deletion per repository, and only where none is queued. *)
Definition deletions_ok (jobs : list ReplicationJob) (t : QueueTables) : Prop :=
  (forall j, j ∈ jobs -> Change j = Datastore.DeleteReplica -> noDeletionQueued (VirtualStorage j) (RelativePath j) t) /\
  NoDup ((fun j => (VirtualStorage j, RelativePath j)) <$> filter (fun j => Change j = Datastore.DeleteReplica) jobs).

Lemma noDeletionQueued_spec vs path t :
  noDeletionQueued vs path t <-> forall id r, replication_queue t !! id = Some r -> ~ deletingReplica vs path r.
Proof. unfold noDeletionQueued. by rewrite countWhere_zero. Qed.

Lemma deletions_ok_tail j jobs t row id locks jl seq :
  deletions_ok (j :: jobs) t -> VirtualStorage (q_job row) = VirtualStorage j ->
  RelativePath (q_job row) = RelativePath j -> Change (q_job row) = Change j ->
  deletions_ok jobs (mkTables locks (<[id := row]> (replication_queue t)) jl seq).
Proof.
  intros [Hall Hnd] Hvs Hp Hc. rewrite filter_cons in Hnd. split.
  - intros j' Hj' Hc'. apply noDeletionQueued_spec. simpl. intros id' r [[_ <-]|[_ Hr]]%lookup_insert_Some.
    + intros (_ & Hd & Hv & Hpa). rewrite Hc in Hd. rewrite decide_True in Hnd by done. simpl in Hnd.
      apply NoDup_cons in Hnd as [Hn _]. apply Hn. apply list_elem_of_fmap. exists j'.
      split; [congruence|]. by apply list_elem_of_filter.
    + pose proof (Hall j' ltac:(by right) Hc') as Hno. rewrite noDeletionQueued_spec in Hno. by eapply Hno.
  - case_decide; [simpl in Hnd; by apply NoDup_cons in Hnd as [_ ?]|done].
Qed.

Section InsertJobs.
Context (now : Z) (correlationID : ReplicationJob -> string).

Lemma insertJobs_ok jobs : forall t,
  pg_inv t -> replication_queue_id_seq t + Z.of_nat (length jobs) <= bigintMax -> deletions_ok jobs t ->
  exists t', insertJobs now correlationID jobs t = (Ok tt, t') /\ pg_inv t' /\
    replication_queue t ⊆ replication_queue t' /\
    (forall id r, replication_queue t' !! id = Some r -> replication_queue t !! id = Some r \/
       exists j, j ∈ jobs /\ r = jobRow now correlationID j) /\
    (forall j, j ∈ jobs -> exists id, replication_queue t' !! id = Some (jobRow now correlationID j)).
Proof.
  induction jobs as [|j jobs IH]; intros t Hinv Hseq Hdel; simpl.
  { exists t. split_and!; try done; [by left|]. by intros j ?%elem_of_nil. }
  simpl in Hseq. set (row := jobRow now correlationID j).
  assert (Hfresh : fresh_row row) by done.
  assert (Hok : insertRow row t = (Ok (replication_queue_id_seq t + 1),
    mkTables (insertLock (q_lock_id row) (replication_queue_lock t))
      (<[replication_queue_id_seq t + 1 := row]> (replication_queue t)) (replication_queue_job_lock t)
      (replication_queue_id_seq t + 1))).
  { apply insertRow_ok; [done|done|lia|]. intros Hc. apply (proj1 Hdel j); [by left|done]. }
  unfold mbind, M_bind. change (newRow now (jobLock j) j _) with row. rewrite Hok.
  pose proof (insertRow_inv _ _ _ _ Hfresh Hok Hinv) as Hinv'.
  destruct (IH _ Hinv') as (t' & Hrun & Hinv2 & Hsub & Hrows & Hjobs).
  { simpl. lia. }
  { by apply (deletions_ok_tail j). }
  exists t'. simpl in *. assert (Hnone : replication_queue t !! (replication_queue_id_seq t + 1) = None).
  { apply eq_None_not_Some. intros [r Hr]. apply (pi_ids _ Hinv) in Hr. lia. }
  split_and!; [done|done| | |].
  - etrans; [|done]. by apply insert_subseteq.
  - intros id r [[[<- <-]|[_ ?]]%lookup_insert_Some|(j' & ? & ->)]%Hrows.
    + right. exists j. split; [by left|done].
    + by left.
    + right. exists j'. split; [by right|done].
  - intros j' [->|Hin]%elem_of_cons; [|by apply Hjobs].
    exists (replication_queue_id_seq t + 1). eapply lookup_weaken; [|done]. apply lookup_insert_eq.
Qed.

Lemma insertJobs_inv jobs : forall t r t',
  insertJobs now correlationID jobs t = (r, t') -> pg_inv t -> pg_inv t' /\
    replication_queue_id_seq t <= replication_queue_id_seq t'.
Proof.
  induction jobs as [|j jobs IH]; intros t r t' Hrun Hinv; simpl in Hrun; unfold_M; [by simplify_eq|].
  destruct (insertRow _ t) as [[id|e|] t1] eqn:Hi; pose proof (insertRow_inv _ _ _ _ (fresh_newRow _ _ _) Hi Hinv);
    apply insertRow_cases in Hi as Hcase; simplify_eq.
  - destruct (IH _ _ _ Hrun) as [? ?]; [done|]. split; [done|].
    destruct Hcase as [(? & ? & _)|(? & ? & -> & _ & _ & _ & ->)]; [done|]. simpl in *. lia.
  - split; [done|]. destruct Hcase as [(? & _ & _ & _ & _ & ?)|(? & ? & _)]; [lia|done].
  - by destruct Hcase as [(? & ? & _)|(? & ? & _)].
Qed.
End InsertJobs.

(** ** The jobs *)

Section Jobs.
Context (healthyNodes : gmap string (list string)) (choice : replicaKey -> RandomChoice) (db : Database).
Abbreviation healthy := (healthyStorages healthyNodes).

Lemma elem_of_delete_jobs j : j ∈ delete_jobs healthyNodes choice db <->
  exists vs path st, j = deleteJob db vs path st /\
    pick (RandomChoice := choice (vs, path, "")) (deletionCandidates healthyNodes db vs path) = Some st.
Proof.
  unfold delete_jobs. rewrite list_elem_of_bind. split.
  - intros ([vs path] & Hj & _). simpl in Hj. destruct (pick _) as [st|] eqn:Hp; [|by apply elem_of_nil in Hj].
    apply list_elem_of_singleton in Hj as ->. by exists vs, path, st.
  - intros (vs & path & st & -> & Hp). exists (vs, path). simpl. rewrite Hp. split; [by left|].
    apply elem_of_elements, elem_of_map. exists (vs, path, st). split; [done|].
    apply pick_elem in Hp. unfold deletionCandidates in Hp.
    assert (Hin : st ∈ storagesWithReplica vs path (db_store db)).
    { destruct (repositories _ !! _); [set_solver|]. case_decide; set_solver. }
    apply elem_of_storagesWithReplica in Hin. by apply elem_of_dom.
Qed.

Lemma elem_of_update_jobs j : j ∈ update_jobs healthyNodes choice db <->
  exists vs path source target, j = updateJob db vs path source target /\
    target ∈ healthy vs /\ outdated db vs path target /\
    ~ hasActiveJob UpdateRepo vs path target (db_queue db) /\
    pick (RandomChoice := choice (vs, path, target)) (sources healthyNodes db vs path) = Some source.
Proof.
  unfold update_jobs. rewrite list_elem_of_bind. setoid_rewrite list_elem_of_bind. split.
  - intros ([vs path] & (target & Hj & Ht%elem_of_elements) & _). simpl in *.
    case_decide as Hd; [|by apply elem_of_nil in Hj]. destruct (pick _) as [source|] eqn:Hp; [|by apply elem_of_nil in Hj].
    apply list_elem_of_singleton in Hj as ->. exists vs, path, source, target. naive_solver.
  - intros (vs & path & source & target & -> & Ht & Ho & Hn & Hp). exists (vs, path). simpl. split.
    + exists target. rewrite decide_True by by split. rewrite Hp. split; [by left|]. by apply elem_of_elements.
    + apply elem_of_elements, elem_of_dom. destruct Ho as [(repo & Hr & _) _]. eauto.
Qed.

Lemma minGeneration_le vs path (s : PostgresRepositoryStore) g st :
  minGeneration vs path s = Some g -> st ∈ assignedStorages vs path s ∪ storagesWithReplica vs path s ->
  g <= GetGeneration vs path st s.
Proof.
  unfold minGeneration. rewrite <- elem_of_elements. generalize (elements (assignedStorages vs path s ∪ storagesWithReplica vs path s)).
  intros l. revert g. induction l as [|x l IH]; intros g Hg Hin; [by apply elem_of_nil in Hin|]. simpl in Hg.
  apply elem_of_cons in Hin as [->|Hin].
  - destruct (foldr _ None l); simplify_eq; lia.
  - destruct (foldr _ None l) as [g'|] eqn:Hf; simplify_eq.
    + specialize (IH g' eq_refl Hin). lia.
    + destruct l; [by apply elem_of_nil in Hin|done].
Qed.

(** A replica the reconciler wants gone. *)
Record removable_replica (vs path st : string) : Prop := {
  rr_healthy : st ∈ healthy vs;
  rr_replica : is_Some (storage_repositories (db_store db) !! (vs, path, st));
  rr_single : noDeletionQueued vs path (db_queue db);
  rr_covered : is_Some (repositories (db_store db) !! (vs, path)) ->
    st ∉ assignedStorages vs path (db_store db) /\ assignedStorages vs path (db_store db) ≠ ∅ /\
    (forall st', st' ∈ assignedStorages vs path (db_store db) -> exists r r',
       storage_repositories (db_store db) !! (vs, path, st) = Some r /\
       storage_repositories (db_store db) !! (vs, path, st') = Some r' /\ r_generation r <= r_generation r') /\
    forall id q, replication_queue (db_queue db) !! id = Some q -> ~ usesReplica vs path st q;
}.

Lemma deletion_removable vs path st :
  (forall k r, storage_repositories (db_store db) !! k = Some r -> 0 <= r_generation r) ->
  st ∈ deletionCandidates healthyNodes db vs path -> removable_replica vs path st.
Proof.
  intros Hpos. unfold deletionCandidates. destruct (repositories (db_store db) !! (vs, path)) as [repo|] eqn:Hrepo.
  - rewrite elem_of_filter, elem_of_intersection, elem_of_storagesWithReplica.
    intros [(Hne & Hna & (g & Hg & Hle) & Huse & Hnd) [[r Hr] Hh]]. split; [done|eauto|done|].
    intros _. split_and!; [done..| |].
    + intros st' Hst'. exists r.
      pose proof (minGeneration_le vs path (db_store db) g st' Hg ltac:(set_solver)) as Hge.
      unfold GetGeneration in Hle, Hge. rewrite Hr in Hle. specialize (Hpos _ _ Hr).
      destruct (storage_repositories (db_store db) !! (vs, path, st')) as [r'|].
      * exists r'. split_and!; [done..|lia].
      * unfold GenerationUnknown in Hge. lia.
    + rewrite countWhere_zero in Huse. exact Huse.
  - case_decide; [|set_solver]. rewrite elem_of_intersection, elem_of_storagesWithReplica.
    intros [Hr Hh]. split; [done..|]. rewrite Hrepo. by intros [? ?].
Qed.
End Jobs.

(** *** No job twice *)

Lemma bind_sublist {A B} (f g : A -> list B) (l : list A) :
  (forall x, f x `sublist_of` g x) -> (l ≫= f) `sublist_of` (l ≫= g).
Proof. intros Hfg. induction l as [|x l IH]; [done|]. rewrite !bind_cons. by apply sublist_app. Qed.

Lemma fmap_bind {A B C} (h : B -> C) (f : A -> list B) (l : list A) :
  h <$> (l ≫= f) = l ≫= (fun x => h <$> f x).
Proof. induction l as [|x l IH]; [done|]. by rewrite !bind_cons, fmap_app, IH. Qed.

Definition jobKey (j : ReplicationJob) : ChangeType * replicaKey :=
  (Change j, (VirtualStorage j, RelativePath j, TargetNodeStorage j)).

Section NoDups.
Context (healthyNodes : gmap string (list string)) (choice : replicaKey -> RandomChoice) (db : Database).

Lemma delete_jobs_nodup :
  NoDup ((fun j => (VirtualStorage j, RelativePath j)) <$> delete_jobs healthyNodes choice db).
Proof.
  unfold delete_jobs. rewrite fmap_bind. eapply sublist_NoDup; [|apply (bind_sublist _ (fun k => [k]))].
  - assert (Hid : forall l : list repoKey, (l ≫= fun k => [k]) = l).
    { induction l as [|x l IH]; [done|]. by rewrite bind_cons, IH. }
    rewrite Hid. apply NoDup_elements.
  - intros [vs path]. simpl. destruct (pick _); simpl; [done|]. apply sublist_nil_l.
Qed.

Lemma update_jobs_nodup : NoDup (jobKey <$> update_jobs healthyNodes choice db).
Proof.
  unfold update_jobs. rewrite fmap_bind.
  eapply sublist_NoDup; [|apply (bind_sublist _ (fun k => (fun t => (UpdateRepo, (k, t))) <$>
    elements (healthyStorages healthyNodes k.1)))].
  - apply NoDup_bind.
    + intros k k' [c [k2 t]] _ _ (? & [= -> -> ->] & _)%list_elem_of_fmap (? & [= -> ->] & _)%list_elem_of_fmap. done.
    + intros k _. apply NoDup_fmap_2; [intros ? ? [=]; congruence|]. apply NoDup_elements.
    + apply NoDup_elements.
  - intros [vs path]. simpl. rewrite fmap_bind.
    generalize (elements (healthyStorages healthyNodes vs)). intros l.
    induction l as [|t l IH]; [done|]. rewrite bind_cons, fmap_cons.
    assert (Hone : forall (o : option string) (b : bool), (jobKey <$> (if b then match o with
      | Some source => [updateJob db vs path source t] | None => [] end else [])) `sublist_of` [(UpdateRepo, (vs, path, t))]).
    { intros [s|] []; simpl; done || apply sublist_nil_l. }
    change ((UpdateRepo, (vs, path, t)) :: ?x) with ([(UpdateRepo, (vs, path, t))] ++ x).
    apply sublist_app; [|done]. case_decide; [apply (Hone _ true)|apply (Hone None false)].
Qed.

Lemma delete_jobs_change j : j ∈ delete_jobs healthyNodes choice db -> Change j = Datastore.DeleteReplica.
Proof. by intros (vs & path & st & -> & _)%elem_of_delete_jobs. Qed.

Lemma update_jobs_change j : j ∈ update_jobs healthyNodes choice db -> Change j = UpdateRepo.
Proof. by intros (vs & path & source & target & -> & _)%elem_of_update_jobs. Qed.

Lemma jobs_nodup : NoDup (jobKey <$> (update_jobs healthyNodes choice db ++ delete_jobs healthyNodes choice db)).
Proof.
  rewrite fmap_app. apply NoDup_app. split_and!.
  - apply update_jobs_nodup.
  - intros k (j & -> & Hj%update_jobs_change)%list_elem_of_fmap (j' & Heq & Hj'%delete_jobs_change)%list_elem_of_fmap.
    unfold jobKey in Heq. congruence.
  - apply (NoDup_fmap_1 (fun k => k.2.1)). rewrite <- list_fmap_compose. apply delete_jobs_nodup.
Qed.

Lemma jobs_deletions_ok (order : list ReplicationJob -> list ReplicationJob) :
  (forall l, order l ≡ₚ l) ->
  deletions_ok (order (update_jobs healthyNodes choice db ++ delete_jobs healthyNodes choice db)) (db_queue db).
Proof.
  intros Hperm. split.
  - intros j. rewrite Hperm, elem_of_app. intros [Hj|Hj] Hc.
    + apply update_jobs_change in Hj. congruence.
    + apply elem_of_delete_jobs in Hj as (vs & path & st & -> & Hp%pick_elem). simpl.
      unfold deletionCandidates in Hp. destruct (repositories _ !! _).
      * apply elem_of_filter in Hp as [(_ & _ & _ & _ & ?) _]. done.
      * case_decide; [done|set_solver].
  - rewrite (Hperm (_ ++ _)), filter_app.
    rewrite (filter_all _ (delete_jobs _ _ _)) by apply delete_jobs_change.
    assert (Hnil : filter (fun j => Change j = Datastore.DeleteReplica) (update_jobs healthyNodes choice db) = []).
    { destruct (filter _ _) as [|j l] eqn:Hf; [done|].
      assert (Hj : j ∈ filter (fun j => Change j = Datastore.DeleteReplica) (update_jobs healthyNodes choice db))
        by (rewrite Hf; by left).
      apply list_elem_of_filter in Hj as [Hd Hu%update_jobs_change]. congruence. }
    rewrite Hnil. apply delete_jobs_nodup.
Qed.
End NoDups.

(** ** Theorems *)

Lemma no_healthy_no_jobs healthyNodes choice db :
  map_Forall (fun vs _ => healthyStorages healthyNodes vs = ∅) healthyNodes ->
  update_jobs healthyNodes choice db ++ delete_jobs healthyNodes choice db = [].
Proof.
  intros Hall.
  assert (Hnone : forall vs, healthyStorages healthyNodes vs = ∅).
  { intros vs. destruct (healthyNodes !! vs) as [l|] eqn:Hl; [by eapply Hall|].
    unfold healthyStorages. by rewrite Hl. }
  destruct (update_jobs healthyNodes choice db ++ delete_jobs healthyNodes choice db) as [|j l] eqn:Hj; [done|exfalso].
  assert (Hin : j ∈ update_jobs healthyNodes choice db ++ delete_jobs healthyNodes choice db) by (rewrite Hj; by left).
  apply elem_of_app in Hin as [(vs & path & source & target & _ & Ht & _)%elem_of_update_jobs|
    (vs & path & st & _ & Hp%pick_elem)%elem_of_delete_jobs].
  - rewrite Hnone in Ht. set_solver.
  - unfold deletionCandidates in Hp. rewrite Hnone in Hp. destruct (repositories _ !! _); [set_solver|].
    case_decide; set_solver.
Qed.

(** An update job as it should be. *)
Record needed_update (healthyNodes : gmap string (list string)) (db : Database) (vs path source target : string) : Prop := {
  nu_target : target ∈ healthyStorages healthyNodes vs;
  nu_outdated : outdated db vs path target;
  nu_fresh : ~ hasActiveJob UpdateRepo vs path target (db_queue db);
  nu_source : source ∈ healthyStorages healthyNodes vs;
  nu_current : isSource db vs path source;
  nu_distinct : source ≠ target;
}.

Lemma update_needed healthyNodes choice db vs path source target :
  target ∈ healthyStorages healthyNodes vs -> outdated db vs path target ->
  ~ hasActiveJob UpdateRepo vs path target (db_queue db) ->
  pick (RandomChoice := choice) (sources healthyNodes db vs path) = Some source ->
  needed_update healthyNodes db vs path source target.
Proof.
  intros Ht Ho Hn [Hs Hh]%pick_elem%elem_of_filter. split; try done.
  intros ->. destruct Ho as [(repo & Hr & Hne) _], Hs as [(repo' & g & Hr' & Hg & Hgen) _].
  apply Hne. exists g. by simplify_eq.
Qed.

Section ReconcileTheorems.
Context (healthyNodes : gmap string (list string)) (choice : replicaKey -> RandomChoice).
Context (order : list ReplicationJob -> list ReplicationJob) (now : Z) (correlationID : ReplicationJob -> string).
Abbreviation schedule db := (update_jobs healthyNodes choice db ++ delete_jobs healthyNodes choice db).

(** C14. A reconciliation that gets the lock succeeds as long as there are IDs for
    its jobs, and keeps the queue's invariant. Every update it queues goes from a
    healthy, up-to-date replica that is not about to be deleted to a different
    healthy storage that is to host the repository, is outdated and has no update
    queued; every deletion concerns a replica on a healthy storage that is not
    assigned while every assigned storage has one at least as new, that no queued
    job reads or writes, in a repository without another queued deletion, or a
    leftover of a deleted repository. No job is queued twice, nothing queued
    before is lost, and afterwards every healthy outdated host for which a source
    exists has an update in the queue. *)
Theorem reconcile_correct db :
  (forall l, order l ≡ₚ l) -> pg_inv (db_queue db) ->
  (forall k r, storage_repositories (db_store db) !! k = Some r -> 0 <= r_generation r) ->
  replication_queue_id_seq (db_queue db) + Z.of_nat (length (schedule db)) <= bigintMax ->
  exists jobs db', reconcile healthyNodes choice order true now correlationID db = (Ok jobs, db') /\
    db_store db' = db_store db /\ pg_inv (db_queue db') /\ NoDup (jobKey <$> jobs) /\
    replication_queue (db_queue db) ⊆ replication_queue (db_queue db') /\
    (forall id r, replication_queue (db_queue db') !! id = Some r ->
       replication_queue (db_queue db) !! id = Some r \/ exists j, j ∈ jobs /\ r = jobRow now correlationID j) /\
    (forall j, j ∈ jobs ->
       Change j = UpdateRepo /\ needed_update healthyNodes db (VirtualStorage j) (RelativePath j)
         (SourceNodeStorage j) (TargetNodeStorage j) \/
       Change j = Datastore.DeleteReplica /\ removable_replica healthyNodes db (VirtualStorage j) (RelativePath j)
         (TargetNodeStorage j)) /\
    (forall vs path target, target ∈ healthyStorages healthyNodes vs -> outdated db vs path target ->
       sources healthyNodes db vs path ≠ ∅ -> hasActiveJob UpdateRepo vs path target (db_queue db')).
Proof.
  intros Hperm Hinv Hpos Hseq.
  destruct (insertJobs_ok now correlationID (order (schedule db)) (db_queue db) Hinv)
    as (q & Hrun & Hinv' & Hsub & Hrows & Hjobs).
  { by rewrite Hperm. }
  { by apply jobs_deletions_ok. }
  assert (Hrec : reconcile healthyNodes choice order true now correlationID db =
    (Ok (order (schedule db)), mkDB (db_store db) q (db_status db))).
  { unfold reconcile, insertStatement. case_decide as Hall; [|by rewrite Hrun].
    rewrite (no_healthy_no_jobs _ _ _ Hall) in *. pose proof (Hperm []) as Hnil.
    apply Permutation_nil_r in Hnil. rewrite Hnil in *. simpl in Hrun. unfold_M. simplify_eq. by destruct db. }
  exists (order (schedule db)), (mkDB (db_store db) q (db_status db)). cbn [db_store db_queue]. split_and!; try done.
  - rewrite (Hperm (schedule db)). apply jobs_nodup.
  - intros j. rewrite Hperm, elem_of_app. intros [Hj|Hj].
    + left. apply elem_of_update_jobs in Hj as (vs & path & source & target & -> & Ht & Ho & Hn & Hp).
      split; [done|]. by eapply update_needed.
    + right. apply elem_of_delete_jobs in Hj as (vs & path & st & -> & Hp%pick_elem).
      split; [done|]. by apply deletion_removable.
  - intros vs path target Ht Ho Hs. unfold hasActiveJob. rewrite countWhere_zero. intros Hz.
    destruct (decide (hasActiveJob UpdateRepo vs path target (db_queue db))) as [Ha|Ha].
    + apply Ha, countWhere_zero. intros id r Hr. apply (Hz id r). by eapply lookup_weaken.
    + destruct (pick (RandomChoice := choice (vs, path, target)) (sources healthyNodes db vs path)) as [source|] eqn:Hp;
        [|by apply pick_None in Hp].
      destruct (Hjobs (updateJob db vs path source target)) as [id Hid].
      { rewrite Hperm. apply elem_of_app. left. apply elem_of_update_jobs. by exists vs, path, source, target. }
      by apply (Hz id _ Hid).
Qed.
End ReconcileTheorems.

(** Deleting a replica that an assigned storage covers keeps the latest
    generation. *)
Lemma covered_deletion_keeps_max healthyNodes db vs path st s' :
  removable_replica healthyNodes db vs path st -> is_Some (repositories (db_store db) !! (vs, path)) ->
  RepoStore.DeleteReplica vs path st (db_store db) = (Ok tt, s') ->
  maxGeneration (replicas vs path s') = maxGeneration (replicas vs path (db_store db)).
Proof.
  intros [_ _ _ Hcov] Hrepo Hdel. destruct (Hcov Hrepo) as (Hna & [st' Hst']%set_choose_L & Hall & _).
  destruct (Hall st' Hst') as (r & r' & Hr & Hr' & Hle).
  assert (Hrep : storage_repositories s' = delete (vs, path, st) (storage_repositories (db_store db))).
  { unfold RepoStore.DeleteReplica, deleteReplicas in Hdel. case_bool_decide; simplify_eq. simpl.
    apply map_eq. intros k. apply option_eq. intros x.
    rewrite lookup_difference_Some, lookup_delete_Some, map_lookup_filter_None. destruct k as [k y]. simpl.
    setoid_rewrite list_elem_of_singleton. split.
    - intros [Hx [?|Hn]]; [congruence|]. split; [|done]. intros [= <- <-]. by apply (Hn x Hx).
    - intros [Hne Hx]. split; [done|]. right. intros x' _ [-> ->]. done. }
  pose proof (maxGeneration_spec (replicas vs path (db_store db))) as Hspec.
  assert (Hne : st' ≠ st) by (intros ->; done).
  destruct (maxGeneration (replicas vs path (db_store db))) as [g|].
  - destruct Hspec as [([k x] & rx & [Hx ->]%replicas_lookup & Hgx) Hmax].
    assert (Hle' : forall y ry, storage_repositories (db_store db) !! (vs, path, y) = Some ry -> r_generation ry <= g).
    { intros y ry Hy. apply (Hmax (vs, path, y)). by apply replicas_lookup. }
    apply maxGeneration_eq; rewrite Hrep.
    + destruct (decide (x = st)) as [->|Hx'].
      * exists st', r'. rewrite lookup_delete_ne by congruence. split; [done|].
        specialize (Hle' _ _ Hr'). simplify_eq. lia.
      * exists x, rx. by rewrite lookup_delete_ne by congruence.
    + intros y ry [_ Hy]%lookup_delete_Some. by apply (Hle' y).
  - assert (Hin : replicas vs path (db_store db) !! (vs, path, st) = Some r) by by apply replicas_lookup.
    by rewrite Hspec, lookup_empty in Hin.
Qed.

(** The storage has a replica recorded with a higher generation than its repository. *)
Definition stale_replica (s : PostgresRepositoryStore) (k : repoKey) (storage : string) : Prop :=
  exists r repo g, storage_repositories s !! (k, storage) = Some r /\ repositories s !! k = Some repo /\
    generation repo = Some g /\ g < r_generation r.

(** Replicas that belong to the repository's record are not stale. *)
Lemma linked_not_stale s k storage r id :
  store_inv s -> storage_repositories s !! (k, storage) = Some r -> r_repository_id r = Some id -> ~ stale_replica s k storage.
Proof.
  intros Hinv Hr Hid (r' & repo & g & Hr' & Hrepo & Hg & Hlt).
  destruct (st_replica s Hinv k storage r id Hr Hid) as (repo' & g' & ? & _ & ? & ?). simplify_eq. lia.
Qed.

(** C22. The jobs of one reconciliation do not get into each other's way: when a
    replica of an existing repository is to be deleted, no update of the same run
    writes to it, none reads from it unless the update's target holds a stale replica,
    one recorded with a higher generation than the repository's, and carrying the
    deletion out leaves the highest generation recorded of a replica available.
    Generations are not negative. *)
Theorem reconcile_keeps_latest healthyNodes choice db j :
  (forall k r, storage_repositories (db_store db) !! k = Some r -> 0 <= r_generation r) ->
  j ∈ delete_jobs healthyNodes choice db ->
  is_Some (repositories (db_store db) !! (VirtualStorage j, RelativePath j)) ->
  (forall j', j' ∈ update_jobs healthyNodes choice db -> VirtualStorage j' = VirtualStorage j ->
     RelativePath j' = RelativePath j ->
     TargetNodeStorage j' ≠ TargetNodeStorage j /\
     (SourceNodeStorage j' = TargetNodeStorage j ->
      stale_replica (db_store db) (VirtualStorage j, RelativePath j) (TargetNodeStorage j'))) /\
  (forall s', RepoStore.DeleteReplica (VirtualStorage j) (RelativePath j) (TargetNodeStorage j) (db_store db) = (Ok tt, s') ->
     maxGeneration (replicas (VirtualStorage j) (RelativePath j) s')
     = maxGeneration (replicas (VirtualStorage j) (RelativePath j) (db_store db))).
Proof.
  intros Hpos (vs & path & st & -> & Hp%pick_elem)%elem_of_delete_jobs Hrepo. simpl in *.
  pose proof (deletion_removable healthyNodes choice db vs path st Hpos Hp) as Hrem.
  split; [|intros s' Hdel; by apply (covered_deletion_keeps_max healthyNodes db vs path st)].
  intros j' (vs' & path' & source & target & -> & Ht & Ho & Hn & Hs)%elem_of_update_jobs Hv Hpa. simpl in *. subst vs' path'.
  destruct (rr_covered _ _ _ _ _ Hrem Hrepo) as (Hna & Hne & Hall & _).
  destruct Ho as [(repo & Hr & Hout) [?|Hasg]]; [done|]. split; [by intros ->|].
  intros ->. apply pick_elem, elem_of_filter in Hs as [[(repo' & g & Hr' & Hg & Hgen) _] _]. simplify_eq.
  destruct (Hall target Hasg) as (r & r' & Hst & Htg & Hle). rewrite Hst in Hgen. simplify_eq/=.
  exists r', repo, (r_generation r). split_and!; [done..|].
  destruct (decide (r_generation r = r_generation r')) as [Heq|]; [|lia]. exfalso.
  apply Hout. exists (r_generation r). split; [done|]. rewrite Htg. simpl. by rewrite Heq.
Qed.

(** ** Reachable states with reconciliations *)

Lemma insertJobs_steps now correlationID jobs : forall t r t',
  insertJobs now correlationID jobs t = (r, t') -> rtc queue_step t t'.
Proof.
  induction jobs as [|j jobs IH]; intros t r t' Hrun; simpl in Hrun; unfold_M; [by simplify_eq|].
  destruct (insertRow _ t) as [[id|e|] t1] eqn:Hi; pose proof (qs_insert _ _ _ _ (fresh_newRow _ _ _) Hi);
    simplify_eq; [eapply rtc_l; [done|by eapply IH]|by apply rtc_once..].
Qed.

(** A reconciliation is a sequence of steps of the queue, so that the theorems
    about the queue's reachable states hold with the reconciler running. *)
Lemma reconcile_steps healthyNodes choice order acquired now correlationID db r db' :
  reconcile healthyNodes choice order acquired now correlationID db = (r, db') ->
  pg_inv (db_queue db) -> rtc queue_step (db_queue db) (db_queue db').
Proof.
  unfold reconcile. case_decide; [by intros [= <- <-]|]. unfold insertStatement.
  destruct (insertJobs _ _ _ (db_queue db)) as [[u|e|] q] eqn:Hi; intros [= <- <-] Hinv; simpl;
    [by eapply insertJobs_steps| |by eapply insertJobs_steps].
  destruct (insertJobs_inv _ _ _ _ _ _ Hi Hinv) as [Hq Hseq]. apply rtc_once, qs_nextval.
  pose proof (pi_seq _ Hq). lia.
Qed.

Definition ex_healthy : gmap string (list string) := {[ "vs" := ["a"; "b"; "c"] ]}.

(** "repo" is assigned to "a" and has a superfluous replica on "c"; "other" exists
    on "a" only and is not assigned. *)
Definition ex_unbalanced : Database :=
  mkDB (mkStore
      {[ ("vs", "repo") := mkRepoRow 1 (Some 1) (Some "a") "repo";
         ("vs", "other") := mkRepoRow 2 (Some 0) (Some "a") "other" ]}
      {[ ("vs", "repo", "a") := mkReplicaRow (Some 1) 1; ("vs", "repo", "c") := mkReplicaRow (Some 1) 0;
         ("vs", "other", "a") := mkReplicaRow (Some 2) 0 ]}
      {[ ("vs", "repo", "a") ]} 2) emptyTables ∅.

Definition ex_choice (_ : replicaKey) : RandomChoice := first_choice.

Lemma ex_positive k r : storage_repositories (db_store ex_unbalanced) !! k = Some r -> 0 <= r_generation r.
Proof.
  assert (Hall : Forall (fun kv => 0 <= r_generation kv.2) (map_to_list (storage_repositories (db_store ex_unbalanced)))).
  { eapply bool_decide_unpack. vm_compute. exact I. }
  rewrite Forall_forall in Hall. intros Hk. apply (Hall (k, r)). by apply elem_of_map_to_list.
Qed.

Lemma reconcile_correct_witness :
  exists jobs db', reconcile ex_healthy ex_choice (fun l => l) true 5 (fun _ => "id") ex_unbalanced = (Ok jobs, db') /\
    hasActiveJob UpdateRepo "vs" "other" "b" (db_queue db').
Proof.
  destruct (reconcile_correct ex_healthy ex_choice (fun l => l) 5 (fun _ => "id") ex_unbalanced)
    as (jobs & db' & Hr & _ & _ & _ & _ & _ & _ & Hup).
  - done.
  - apply pg_inv_empty.
  - apply ex_positive.
  - vm_compute. discriminate.
  - exists jobs, db'. split; [exact Hr|]. apply Hup; eapply bool_decide_unpack; vm_compute; exact I.
Defined.

Lemma reconcile_keeps_latest_witness :
  delete_jobs ex_healthy ex_choice ex_unbalanced = [deleteJob ex_unbalanced "vs" "repo" "c"] /\
  maxGeneration (replicas "vs" "repo" (RepoStore.DeleteReplica "vs" "repo" "c" (db_store ex_unbalanced)).2)
    = maxGeneration (replicas "vs" "repo" (db_store ex_unbalanced)).
Proof.
  assert (Hd : delete_jobs ex_healthy ex_choice ex_unbalanced = [deleteJob ex_unbalanced "vs" "repo" "c"])
    by (vm_compute; reflexivity).
  split; [exact Hd|].
  destruct (reconcile_keeps_latest ex_healthy ex_choice ex_unbalanced (deleteJob ex_unbalanced "vs" "repo" "c")
    ex_positive) as [_ Hmax].
  - rewrite Hd. by left.
  - by eexists.
  - apply Hmax. vm_compute. reflexivity.
Defined.
