(* ===== verification/Replicator.v ===== *)
(** Processing of replication jobs (src/internal/praefect/replicator.go).

    The RPCs a job sends to Gitaly nodes are the class [GitalyNodes] over an
    abstract state of the nodes. The store is the one of RepoStore.v, the queue
    the in-memory one. One round of a node's backlog is [handleNode]; the health
    update of the in-memory queue does nothing. Metrics and log output are left
    out, except the events that are reported as not acknowledged. *)

From S2P Require Import Prelude Datastore MemoryQueue RepoStore.

Inductive RpcError : Type :=
| ErrInvalidSourceRepository
| RpcFailure (what : string).

(** A Gitaly repository, by storage and path. *)
Definition GRepo : Type := string * string.

Inductive housekeeping : Type :=
| HGarbageCollect (createBitmap prune : bool)
| HRepackIncremental
| HRepackFull (createBitmap : bool)
| HCleanup
| HPackRefs (allRefs : bool)
| HWriteCommitGraph (splitStrategy : Z)
| HMidxRepack
| HOptimizeRepository.

(** [GetObjectPool] answers with the object pool, if any, and that with the
    pool's repository, a pointer that may be [nil]. *)
Class GitalyNodes (N : Type) := {
  ReplicateRepository : GRepo -> GRepo -> M N RpcError unit;
  GetObjectPool : GRepo -> M N RpcError (option (option GRepo));
  LinkRepositoryToObjectPool : GRepo -> GRepo -> M N RpcError unit;
  RemoveRepository : GRepo -> M N RpcError unit;
  RenameRepositoryRPC : GRepo -> string -> M N RpcError unit;
  Housekeeping : GRepo -> housekeeping -> M N RpcError unit;
}.

Inductive ReplError : Type :=
| FromRpc (message : string) (e : RpcError)
| FromRepoStore (message : string) (e : StoreError)
| ErrNoRelativePath
| ErrUnexpectedType
| ErrBadParameter (name : string) (e : ParamError)
| ErrNoSplitStrategy
| ErrUnknownChange (c : ChangeType)
| ErrNoSourceConnection (virtualStorage storage : string).

(** ** State *)

Record rworld (N : Type) : Type := mkRW {
  rw_nodes : N;
  rw_store : PostgresRepositoryStore;
  rw_queue : memoryReplicationEventQueue;
  (* groups of events reported as not acknowledged *)
  rw_unacknowledged : list (list Z);
}.
Arguments mkRW {N}.
Arguments rw_nodes {N}.
Arguments rw_store {N}.
Arguments rw_queue {N}.
Arguments rw_unacknowledged {N}.

Section Replicate.
Context {N : Type} `{!GitalyNodes N}.
Abbreviation R := (M (rworld N) ReplError).

Definition rpc {A} (message : string) (m : M N RpcError A) : R A := fun w =>
  match m (rw_nodes w) with
  | (r, n) =>
    (match r with Ok a => Ok a | Err e => Err (FromRpc message e) | Panic => Panic end,
     mkRW n (rw_store w) (rw_queue w) (rw_unacknowledged w))
  end.

Definition store {A} (message : string) (m : M PostgresRepositoryStore StoreError A) : R A := fun w =>
  match m (rw_store w) with
  | (r, s) =>
    (match r with Ok a => Ok a | Err e => Err (FromRepoStore message e) | Panic => Panic end,
     mkRW (rw_nodes w) s (rw_queue w) (rw_unacknowledged w))
  end.

(** Tolerating one kind of store error, which is only logged. *)
Definition tolerate (e : StoreError) (m : R unit) : R unit := fun w =>
  match m w with
  | (Err (FromRepoStore message e'), w') =>
    if decide (e = e') then (Ok tt, w') else (Err (FromRepoStore message e'), w')
  | r => r
  end.

Definition targetRepo (event : ReplicationEvent) : GRepo :=
  (TargetNodeStorage (Job event), RelativePath (Job event)).

Definition sourceRepo (event : ReplicationEvent) : GRepo :=
  (SourceNodeStorage (Job event), RelativePath (Job event)).

(** Changes that others make to the nodes and the store between the calls of a job:
    before it copies the contents, asks for the object pool or removes an invalid
    record, links the replica, and records the generation. *)
Inductive Moment : Type := BeforeCopy | BeforePool | BeforeDelete | BeforeLink | BeforeRecord.
Definition Others : Type := Moment -> N * PostgresRepositoryStore -> N * PostgresRepositoryStore.

Definition meanwhile (others : Others) (m : Moment) (w : rworld N) : rworld N :=
  let (n, s) := others m (rw_nodes w, rw_store w) in mkRW n s (rw_queue w) (rw_unacknowledged w).

(** What follows once the contents were copied: linking the replica to the object
    pool and recording the generation. *)
Definition linkAndRecord (others : Others) (event : ReplicationEvent) (generation : Z) : R unit :=
  let j := Job event in
  _ ← modify (meanwhile others BeforePool);
  pool ← rpc "" (GetObjectPool (sourceRepo event));
  _ ← match pool with
      | None => mret tt
      | Some None => panic
      | Some (Some sourceObjectPool) =>
        _ ← modify (meanwhile others BeforeLink);
        rpc "" (LinkRepositoryToObjectPool (TargetNodeStorage j, sourceObjectPool.2) (targetRepo event))
      end;
  _ ← modify (meanwhile others BeforeRecord);
  if decide (generation ≠ GenerationUnknown)
  then store "" (SetGeneration (VirtualStorage j) (RelativePath j) (TargetNodeStorage j) generation)
  else mret tt.

Definition ReplicateAmong (others : Others) (event : ReplicationEvent) : R unit :=
  let j := Job event in fun w =>
  match GetReplicatedGeneration (VirtualStorage j) (RelativePath j) (SourceNodeStorage j)
          (TargetNodeStorage j) (rw_store w) with
  | Panic => (Panic, w)
  | Err (DowngradeAttempted _ _ _) => (Ok tt, w)
  | Err e => (Err (FromRepoStore "get replicated generation" e), w)
  | Ok generation =>
    match rpc "failed to create repository" (ReplicateRepository (sourceRepo event) (targetRepo event)) (meanwhile others BeforeCopy w) with
    | (Panic, w) => (Panic, w)
    | (Err (FromRpc _ ErrInvalidSourceRepository), w) =>
      store "delete invalid repository"
        (DeleteInvalidRepository (VirtualStorage j) (RelativePath j) (SourceNodeStorage j)) (meanwhile others BeforeDelete w)
    | (Err e, w) => (Err e, w)
    | (Ok _, w) => linkAndRecord others event generation w
    end
  end.

(** The job with nobody else at work. *)
Definition Replicate : ReplicationEvent -> R unit := ReplicateAmong (fun _ p => p).

Definition Destroy (event : ReplicationEvent) : R unit :=
  let j := Job event in
  _ ← rpc "" (RemoveRepository (targetRepo event));
  match Change j with
  | DeleteRepo => tolerate ErrNoRowsAffected (store ""
      (DeleteRepository (VirtualStorage j) (RelativePath j) [TargetNodeStorage j]))
  | Datastore.DeleteReplica => tolerate ErrNoRowsAffected (store ""
      (RepoStore.DeleteReplica (VirtualStorage j) (RelativePath j) (TargetNodeStorage j)))
  | c => fail (ErrUnknownChange c)
  end.

Definition param (event : ReplicationEvent) (key : string) : option ParamValue :=
  JobParams (Job event) ≫= (.!! key).

Definition Rename (event : ReplicationEvent) : R unit :=
  let j := Job event in
  match param event "RelativePath" with
  | None => fail ErrNoRelativePath
  | Some (PString relativePath) =>
    _ ← rpc "" (RenameRepositoryRPC (targetRepo event) relativePath);
    tolerate RepositoryNotExistsError (store ""
      (RenameRepository (VirtualStorage j) (RelativePath j) (TargetNodeStorage j) relativePath))
  | Some _ => fail ErrUnexpectedType
  end.

(** A boolean parameter; [nil] params have no keys. *)
Definition boolParam (event : ReplicationEvent) (key : string) : R bool :=
  match GetBool (default ∅ (JobParams (Job event))) key with
  | Ok b => mret b
  | Err e => fail (ErrBadParameter key e)
  | Panic => panic
  end.

Definition keep (event : ReplicationEvent) (h : housekeeping) : R unit :=
  rpc "" (Housekeeping (targetRepo event) h).

Definition GarbageCollectJob (event : ReplicationEvent) : R unit :=
  createBitmap ← boolParam event "CreateBitmap";
  prune ← boolParam event "Prune";
  keep event (HGarbageCollect createBitmap prune).

Definition RepackIncrementalJob (event : ReplicationEvent) : R unit := keep event HRepackIncremental.
Definition CleanupJob (event : ReplicationEvent) : R unit := keep event HCleanup.
Definition MidxRepackJob (event : ReplicationEvent) : R unit := keep event HMidxRepack.
Definition OptimizeRepositoryJob (event : ReplicationEvent) : R unit := keep event HOptimizeRepository.

Definition PackRefsJob (event : ReplicationEvent) : R unit :=
  allRefs ← boolParam event "AllRefs";
  keep event (HPackRefs allRefs).

(** The parameter is an enum value, or a float64 after a round trip through JSON. *)
Definition WriteCommitGraphJob (event : ReplicationEvent) : R unit :=
  match param event "SplitStrategy" with
  | None => fail ErrNoSplitStrategy
  | Some (PFloat splitStrategy) | Some (PEnum splitStrategy) => keep event (HWriteCommitGraph splitStrategy)
  | Some _ => fail ErrUnexpectedType
  end.

Definition RepackFullJob (event : ReplicationEvent) : R unit :=
  createBitmap ← boolParam event "CreateBitmap";
  keep event (HRepackFull createBitmap).

(** [nodes]: the storages with a connection, by virtual storage. Putting the
    source's address and token into the context cannot fail: it marshals strings. *)
Definition processReplicationEvent (nodes : gmap string (gset string)) (event : ReplicationEvent) : R unit :=
  let j := Job event in
  match Change j with
  | UpdateRepo =>
    if decide (SourceNodeStorage j ∈ default ∅ (nodes !! VirtualStorage j))
    then Replicate event
    else fail (ErrNoSourceConnection (VirtualStorage j) (SourceNodeStorage j))
  | DeleteRepo | Datastore.DeleteReplica => Destroy event
  | RenameRepo => Rename event
  | GarbageCollect => GarbageCollectJob event
  | RepackFull => RepackFullJob event
  | RepackIncremental => RepackIncrementalJob event
  | Cleanup => CleanupJob event
  | PackRefs => PackRefsJob event
  | WriteCommitGraph => WriteCommitGraphJob event
  | MidxRepack => MidxRepackJob event
  | OptimizeRepository => OptimizeRepositoryJob event
  | c => fail (ErrUnknownChange c)
  end.

(** The state an event is acknowledged with. *)
Definition handleNodeEvent (nodes : gmap string (gset string)) (event : ReplicationEvent)
    : rworld N -> option JobState * rworld N := fun w =>
  match processReplicationEvent nodes event w with
  | (Panic, w) => (None, w)
  | (Err _, w) => (Some (if Attempt event <=? 0 then JobStateDead else JobStateFailed), w)
  | (Ok _, w) => (Some JobStateCompleted, w)
  end.

End Replicate.

(** ** Backlog of a node *)

Definition subtractUint64 (l r : list Z) : list Z :=
  if decide (l = []) then []
  else if decide (r = []) then l
  else filter (fun v => v ∉ r) l.

Definition JobState_nat (s : JobState) : nat :=
  match s with
  | JobStateReady => 0
  | JobStateInProgress => 1
  | JobStateCompleted => 2
  | JobStateCancelled => 3
  | JobStateFailed => 4
  | JobStateDead => 5
  end.

Definition nat_JobState (n : nat) : option JobState :=
  match n with
  | 0 => Some JobStateReady
  | 1 => Some JobStateInProgress
  | 2 => Some JobStateCompleted
  | 3 => Some JobStateCancelled
  | 4 => Some JobStateFailed
  | 5 => Some JobStateDead
  | _ => None
  end%nat.

Lemma JobState_nat_cancel s : nat_JobState (JobState_nat s) = Some s.
Proof. by destruct s. Qed.

#[export] Instance JobState_countable : Countable JobState :=
  inj_countable JobState_nat nat_JobState JobState_nat_cancel.

Section Backlog.
Context {N : Type} `{!GitalyNodes N}.
Context {RS : MapRange JobState (list Z)}.
Context (ticks : nat -> Z) (json_Marshal : ReplicationJob -> option bytes).
Context (nodes : gmap string (gset string)).

(** Processes the events in turn and groups their IDs by outcome; [None]: a
    panic. *)
Fixpoint processEvents (events : list ReplicationEvent) (byState : gmap JobState (list Z)) (w : rworld N)
    : option (gmap JobState (list Z)) * rworld N :=
  match events with
  | [] => (Some byState, w)
  | event :: events =>
    match handleNodeEvent nodes event w with
    | (None, w) => (None, w)
    | (Some state, w) =>
      processEvents events (<[state := default [] (byState !! state) ++ [ID event]]> byState) w
    end
  end.

(** The acknowledgements; an error is logged and the next group tried. *)
Fixpoint acknowledgeGroups (groups : list (JobState * list Z)) (w : rworld N) : bool * rworld N :=
  match groups with
  | [] => (true, w)
  | (state, eventIDs) :: groups =>
    match Acknowledge ticks json_Marshal state eventIDs (rw_queue w) with
    | (Panic, q) => (false, mkRW (rw_nodes w) (rw_store w) q (rw_unacknowledged w))
    | (Err _, q) => acknowledgeGroups groups (mkRW (rw_nodes w) (rw_store w) q (rw_unacknowledged w))
    | (Ok ackIDs, q) =>
      let notAckIDs := subtractUint64 ackIDs eventIDs in
      acknowledgeGroups groups (mkRW (rw_nodes w) (rw_store w) q
        (if decide (notAckIDs = []) then rw_unacknowledged w else rw_unacknowledged w ++ [notAckIDs]))
    end
  end.

(** One round for a node: the number of events handled, [None] for a panic. *)
Definition handleNode (virtualStorage target : string) (dequeueBatchSize : Z) (w : rworld N)
    : option Z * rworld N :=
  match Dequeue ticks json_Marshal virtualStorage target dequeueBatchSize (rw_queue w) with
  | (Panic, q) => (None, mkRW (rw_nodes w) (rw_store w) q (rw_unacknowledged w))
  | (Err _, q) => (Some 0, mkRW (rw_nodes w) (rw_store w) q (rw_unacknowledged w))
  | (Ok events, q) =>
    let w := mkRW (rw_nodes w) (rw_store w) q (rw_unacknowledged w) in
    if decide (events = []) then (Some 0, w)
    else match processEvents events ∅ w with
    | (None, w) => (None, w)
    | (Some byState, w) =>
      match acknowledgeGroups (range byState) w with
      | (false, w) => (None, w)
      | (true, w) => (Some (Z.of_nat (length events)), w)
      end
    end
  end.

(** One pass of [processBacklog] over the healthy nodes of a virtual storage. *)
Fixpoint backlogPass (virtualStorage : string) (dequeueBatchSize : Z) (healthy : list string)
    (totalEvents : Z) (w : rworld N) : option Z * rworld N :=
  match healthy with
  | [] => (Some totalEvents, w)
  | storage :: healthy =>
    if decide (storage ∈ default ∅ (nodes !! virtualStorage)) then
      match handleNode virtualStorage storage dequeueBatchSize w with
      | (None, w) => (None, w)
      | (Some n, w) => backlogPass virtualStorage dequeueBatchSize healthy (totalEvents + n) w
      end
    else backlogPass virtualStorage dequeueBatchSize healthy totalEvents w
  end.

End Backlog.

(** ** Backoff *)

(** The duration the closure of [ExpBackoffFunc] keeps, in nanoseconds. *)
Record backoffState : Type := mkBackoff {
  b_start : Z;
  b_max : Z;
  b_duration : Z;
}.

Definition ExpBackoffFunc (start max : Z) : backoffState := mkBackoff start max start.

Definition backoff (b : backoffState) : Z * backoffState :=
  let doubled := i64 (b_duration b * 2) in
  (b_duration b, mkBackoff (b_start b) (b_max b) (if b_max b <=? doubled then b_max b else doubled)).

Definition backoffReset (b : backoffState) : backoffState := mkBackoff (b_start b) (b_max b) (b_start b).

Fixpoint backoffs (n : nat) (b : backoffState) : list Z :=
  match n with
  | O => []
  | S n => let (d, b) := backoff b in d :: backoffs n b
  end.

(** ** The jobs' effect on the store *)

(** Gitaly servers answer with a response or an error, and an object pool they
    report has a repository. *)
Class GitalyLaws (N : Type) `{!GitalyNodes N} : Prop := {
  gl_replicate s t n : (ReplicateRepository s t n).1 ≠ Panic;
  gl_pool r n : (GetObjectPool r n).1 ≠ Panic /\ (GetObjectPool r n).1 ≠ Ok (Some None);
  gl_link p r n : (LinkRepositoryToObjectPool p r n).1 ≠ Panic;
  gl_remove r n : (RemoveRepository r n).1 ≠ Panic;
  gl_rename r p n : (RenameRepositoryRPC r p n).1 ≠ Panic;
  gl_housekeeping r h n : (Housekeeping r h n).1 ≠ Panic;
}.

Section Effects.
Context {N : Type} `{!GitalyNodes N}.
Implicit Types (w : rworld N) (event : ReplicationEvent).

(** The generation the store has for a replica of the event's repository. *)
Definition jobGeneration event (storage : string) w : Z :=
  GetGeneration (VirtualStorage (Job event)) (RelativePath (Job event)) storage (rw_store w).

Lemma rpc_frame {A} message (m : M N RpcError A) w r w' :
  rpc message m w = (r, w') -> rw_store w' = rw_store w /\ rw_queue w' = rw_queue w.
Proof. unfold rpc. destruct (m (rw_nodes w)). by intros [= _ <-]. Qed.

Lemma SetGeneration_get vs path st g s st' :
  GetGeneration vs path st' (SetGeneration vs path st g s).2 = if decide (st' = st) then g else GetGeneration vs path st' s.
Proof.
  unfold GetGeneration, SetGeneration, modify, with_repositories, with_replicas. simpl.
  case_decide as Heq; [subst; by rewrite lookup_insert_eq|]. by rewrite lookup_insert_ne by congruence.
Qed.

Lemma dropRepository_get vs path vs' path' st s :
  GetGeneration vs path st (dropRepository vs' path' s) = GetGeneration vs path st s.
Proof.
  unfold GetGeneration, dropRepository. destruct (repositories s !! (vs', path')); [|done]. simpl.
  rewrite lookup_fmap. destruct (storage_repositories s !! _); [simpl; by case_decide|done].
Qed.

Lemma DeleteInvalidRepository_get vs path st s st' :
  GetGeneration vs path st' (DeleteInvalidRepository vs path st s).2 =
    if decide (st' = st) then GenerationUnknown else GetGeneration vs path st' s.
Proof.
  transitivity (GetGeneration vs path st' (with_replicas (delete (vs, path, st)) s)).
  { unfold DeleteInvalidRepository. simpl. case_decide; [apply dropRepository_get|done]. }
  unfold GetGeneration, with_replicas. simpl. case_decide as Heq; [subst; by rewrite lookup_delete_eq|].
  by rewrite lookup_delete_ne by congruence.
Qed.

(** Others leave the recorded generation of the storage alone, or do not lower it. *)
Definition leaves (others : Others) event (storage : string) : Prop :=
  forall m w, jobGeneration event storage (meanwhile others m w) = jobGeneration event storage w.
Definition raises (others : Others) event (storage : string) : Prop :=
  forall m w, jobGeneration event storage w <= jobGeneration event storage (meanwhile others m w).

Lemma leaves_raises others event storage : leaves others event storage -> raises others event storage.
Proof. intros H m w. by rewrite H. Qed.

Lemma jobGeneration_store event st w w' : rw_store w' = rw_store w -> jobGeneration event st w' = jobGeneration event st w.
Proof. unfold jobGeneration. by intros ->. Qed.

Lemma meanwhile_queue others m w : rw_queue (meanwhile others m w) = rw_queue w.
Proof. unfold meanwhile. by destruct (others m _). Qed.

(** Both phases of a job leave the store to the others until its only write. *)
Lemma linkAndRecord_frame others event g w r w' :
  let target := TargetNodeStorage (Job event) in
  linkAndRecord others event g w = (r, w') -> raises others event target ->
  rw_queue w' = rw_queue w /\
  (r ≠ Ok tt \/ g = GenerationUnknown -> jobGeneration event target w <= jobGeneration event target w' /\
    (leaves others event target -> jobGeneration event target w' = jobGeneration event target w)) /\
  (r = Ok tt -> g ≠ GenerationUnknown -> jobGeneration event target w' = g).
Proof.
  intros target Hlr Hr. unfold linkAndRecord, mbind, M_bind, modify in Hlr. set (w0 := meanwhile others BeforePool w) in *.
  assert (Hq0 : rw_queue w0 = rw_queue w) by (apply meanwhile_queue).
  assert (Hg0 : jobGeneration event target w <= jobGeneration event target w0) by apply Hr.
  assert (Hl0 : leaves others event target -> jobGeneration event target w0 = jobGeneration event target w) by (intros H; apply H).
  destruct (rpc "" (GetObjectPool _) w0) as [r1 w1] eqn:H1. apply rpc_frame in H1 as [Hs1 Hq1].
  pose proof (jobGeneration_store event target w0 w1 Hs1) as Hg1.
  destruct r1 as [pool|x|]; [|injection Hlr as <- <-; split_and!; [congruence|rewrite Hg1; auto|done]..].
  lazymatch type of Hlr with context [match ?m w1 with (_, _) => _ end] => destruct (m w1) as [r2 w2] eqn:H2 end.
  assert (rw_queue w2 = rw_queue w /\ jobGeneration event target w1 <= jobGeneration event target w2 /\
    (leaves others event target -> jobGeneration event target w2 = jobGeneration event target w1)) as (Hq2 & Hg2 & Hl2).
  { destruct pool as [[p|]|]; [|unfold_M; simplify_eq; split_and!; (congruence || done)..]. unfold mbind, M_bind in H2.
    apply rpc_frame in H2 as [Hs2 ->]. rewrite (jobGeneration_store _ _ _ _ Hs2). split_and!; [|apply Hr|intros H; apply H].
    rewrite meanwhile_queue. congruence. }
  destruct r2 as [[]|x|]; [|injection Hlr as <- <-; split_and!; [congruence|intros _; split; [lia|intros Hl; rewrite Hl2, Hg1; auto]|done]..].
  set (w3 := meanwhile others BeforeRecord w2) in *. pose proof (Hr BeforeRecord w2) as Hg3. fold target w3 in Hg3.
  assert (Hq3 : rw_queue w3 = rw_queue w) by (subst w3; by rewrite meanwhile_queue).
  assert (Hl3 : leaves others event target -> jobGeneration event target w3 = jobGeneration event target w)
    by (intros Hl; subst w3; rewrite Hl, Hl2, Hg1, Hl0 by done; done).
  case_decide as Hg; [unfold store, SetGeneration, modify in Hlr|]; injection Hlr as <- <-; cbn [rw_queue].
  - split_and!; [done|by intros [?|?]|]. intros _ _. unfold jobGeneration. cbn [rw_store]. fold target.
    pose proof (SetGeneration_get (VirtualStorage (Job event)) (RelativePath (Job event)) target g (rw_store w3) target) as Hget.
    rewrite decide_True in Hget by done. exact Hget.
  - split_and!; [done| |done]. intros _. split; [lia|done].
Qed.

(** C24. An update job whose source is another storage than its target, while others
    change the nodes and the store between its calls, as long as they do not lower the
    generation recorded for the target: afterwards the target's generation is not lower
    than before the job. If the others leave it alone, it changes only when the job
    succeeds, to the source's generation at the start of the job, and only after the
    contents were copied from the source to the target. When the job succeeds, the
    target's generation is at least the one the source had at its start, unless the
    source turned out to be invalid and its record was removed. The generation is written as it was
    read at the start: one that others have raised above it in between is overwritten. *)
Theorem Replicate_generation others event w r w' :
  let source := SourceNodeStorage (Job event) in
  let target := TargetNodeStorage (Job event) in
  source ≠ target -> (forall st, GenerationUnknown <= jobGeneration event st w) -> raises others event target ->
  ReplicateAmong others event w = (r, w') ->
  let copied := ReplicateRepository (sourceRepo event) (targetRepo event) (rw_nodes (meanwhile others BeforeCopy w)) in
  rw_queue w' = rw_queue w /\
  jobGeneration event target w <= jobGeneration event target w' /\
  (leaves others event target -> jobGeneration event target w' ≠ jobGeneration event target w ->
    r = Ok tt /\ jobGeneration event target w' = jobGeneration event source w /\ copied.1 = Ok tt) /\
  (r = Ok tt -> jobGeneration event source w <= jobGeneration event target w' \/
    copied.1 = Err ErrInvalidSourceRepository /\ jobGeneration event source w' = GenerationUnknown) /\
  (r = Ok tt -> copied.1 = Ok tt -> jobGeneration event target w < jobGeneration event source w ->
    jobGeneration event target w' = jobGeneration event source w).
Proof.
  intros source target Hne Hlow Hr Hrep copied. unfold ReplicateAmong in Hrep.
  destruct (GetReplicatedGeneration _ _ _ _ _) as [g|e|] eqn:Hg; unfold GetReplicatedGeneration in Hg; fold source target in Hg;
    rewrite (decide_False (P := source = target)) in Hg by done; fold (jobGeneration event source w) (jobGeneration event target w) in Hg;
    case_decide as Hdown; try discriminate; injection Hg as <-.
  2: { injection Hrep as <- <-. split_and!; (done || lia || (intros _; left; lia)). }
  set (w1 := meanwhile others BeforeCopy w) in *. pose proof (Hr BeforeCopy w) as Hg1. fold target w1 in Hg1.
  assert (Hq1 : rw_queue w1 = rw_queue w) by (apply meanwhile_queue).
  assert (Hl1 : leaves others event target -> jobGeneration event target w1 = jobGeneration event target w) by (intros H; apply H).
  pose proof (Hlow source) as Hls. pose proof (Hlow target) as Hlt. unfold rpc at 1 in Hrep. fold copied in Hrep.
  destruct copied as [r1 n1]. cbn [fst]. set (w2 := mkRW n1 (rw_store w1) (rw_queue w1) (rw_unacknowledged w1)) in *.
  assert (Hg2 : jobGeneration event target w2 = jobGeneration event target w1) by done.
  destruct r1 as [[]|[|what]|].
  - destruct (linkAndRecord_frame others event _ w2 r w' Hrep Hr) as (Hq & Hother & Hset). fold target in Hother, Hset.
    change (rw_queue w2) with (rw_queue w1) in Hq. rewrite Hq1 in Hq. destruct r as [[]|x|].
    + destruct (decide (jobGeneration event source w = GenerationUnknown)) as [Hu|Hk].
      { destruct (Hother ltac:(by right)) as [Hle Hleave]. split_and!; [done|lia| |intros _; left; lia|lia]. intros Hl Hc. destruct Hc.
        rewrite Hleave by done. by rewrite Hg2, Hl1. }
      specialize (Hset eq_refl Hk). split_and!; [done|lia|done|intros _; left; lia|done].
    + destruct (Hother ltac:(by left)) as [Hle Hleave]. split_and!; try done; try lia. intros Hl Hc. destruct Hc. rewrite Hleave by done. by rewrite Hg2, Hl1.
    + destruct (Hother ltac:(by left)) as [Hle Hleave]. split_and!; try done; try lia. intros Hl Hc. destruct Hc. rewrite Hleave by done. by rewrite Hg2, Hl1.
  - set (w3 := meanwhile others BeforeDelete w2) in *. pose proof (Hr BeforeDelete w2) as Hg3. fold target w3 in Hg3.
    assert (Hl3 : leaves others event target -> jobGeneration event target w3 = jobGeneration event target w)
      by (intros Hl; subst w3; rewrite Hl; rewrite Hg2; auto).
    assert (Hq3 : rw_queue w3 = rw_queue w) by (subst w3; by rewrite meanwhile_queue).
    unfold store in Hrep. pose proof (DeleteInvalidRepository_get (VirtualStorage (Job event)) (RelativePath (Job event)) source (rw_store w3)) as Hget.
    fold source in Hrep. destruct (DeleteInvalidRepository _ _ _ _) as [r2 s2] eqn:Hd. cbn [snd] in Hget.
    assert (r2 = Ok tt) as -> by (unfold DeleteInvalidRepository in Hd; by injection Hd as <- _). injection Hrep as <- <-.
    unfold jobGeneration in *. cbn [rw_store rw_queue]. rewrite !Hget, (decide_True (P := source = source)), (decide_False (P := target = source)) by done.
    split_and!; try (done || lia); [intros Hl Hc; by destruct Hc; apply Hl3|by right].
  - injection Hrep as <- <-. split_and!; try (done || lia). intros Hl Hc. by destruct Hc; apply Hl1.
  - injection Hrep as <- <-. split_and!; try (done || lia). intros Hl Hc. by destruct Hc; apply Hl1.
Qed.

End Effects.

(** ** Processing of a batch *)

Create HintDb quiet.

Section Batch.
Context {N : Type} `{!GitalyNodes N, !GitalyLaws N}.
Implicit Types (w : rworld N) (event : ReplicationEvent).

(** Computations that do not panic and leave the queue alone; their result
    satisfies [P]. *)
Definition quiet {A} (P : A -> Prop) (m : M (rworld N) ReplError A) : Prop := forall w,
  rw_queue (m w).2 = rw_queue w /\ rw_unacknowledged (m w).2 = rw_unacknowledged w /\
  match (m w).1 with Ok a => P a | Err _ => True | Panic => False end.

Lemma quiet_ret {A} (P : A -> Prop) a : P a -> quiet P (mret a).
Proof. by intros ? w. Qed.

Lemma quiet_fail {A} (P : A -> Prop) e : quiet P (fail e).
Proof. by intros w. Qed.

Lemma quiet_bind {A B} (P : A -> Prop) (Q : B -> Prop) m k :
  quiet P m -> (forall a, P a -> quiet Q (k a)) -> quiet Q (m ≫= k).
Proof.
  intros Hm Hk w. specialize (Hm w). unfold mbind, M_bind.
  destruct (m w) as [[a|e|] w1]; simpl in *; [|done|tauto].
  destruct Hm as (Hq & Hu & Ha). destruct (Hk a Ha w1) as (Hq2 & Hu2 & ?). split_and!; congruence.
Qed.

Lemma quiet_rpc {A} (P : A -> Prop) message m :
  (forall n, (m n).1 ≠ Panic /\ forall a, (m n).1 = Ok a -> P a) -> quiet P (rpc message m).
Proof.
  intros Hm w. unfold rpc. destruct (Hm (rw_nodes w)) as [H1 H2].
  destruct (m (rw_nodes w)) as [[a|e|] n]; simpl in *; auto.
Qed.

Lemma quiet_store {A} (P : A -> Prop) message m :
  (forall s, (m s).1 ≠ Panic /\ forall a, (m s).1 = Ok a -> P a) -> quiet P (store message m).
Proof.
  intros Hm w. unfold store. destruct (Hm (rw_store w)) as [H1 H2].
  destruct (m (rw_store w)) as [[a|e|] n]; simpl in *; auto.
Qed.

Lemma quiet_tolerate e m : quiet (fun _ => True) m -> quiet (fun _ => True) (tolerate e m).
Proof.
  intros Hm w. specialize (Hm w). unfold tolerate.
  destruct (m w) as [[a|[]|] w1]; simpl in *; try done. by case_decide.
Qed.

Lemma quiet_param event key : quiet (fun _ => True) (boolParam event key).
Proof. intros w. unfold boolParam, GetBool. by repeat case_match; simplify_eq. Qed.

Lemma quiet_keep event h : quiet (fun _ => True) (keep event h).
Proof. apply quiet_rpc. intros n. split; [apply gl_housekeeping|done]. Qed.

Lemma quiet_meanwhile others m : quiet (fun _ => True) (modify (meanwhile others m) : M (rworld N) ReplError unit).
Proof. intros w. unfold modify, meanwhile. by destruct (others m _). Qed.

Lemma quiet_linkAndRecord others event g : quiet (fun _ => True) (linkAndRecord others event g).
Proof.
  unfold linkAndRecord. apply (quiet_bind (fun _ => True)); [apply quiet_meanwhile|]. intros _ _. apply (quiet_bind (fun p => p ≠ Some None)).
  { apply quiet_rpc. intros n. destruct (gl_pool (sourceRepo event) n) as [? Hp]. split; [done|]. by intros a Ha ->. }
  intros pool Hpool. apply (quiet_bind (fun _ => True)).
  { destruct pool as [[p|]|]; [|done|by apply quiet_ret]. apply (quiet_bind (fun _ => True)); [apply quiet_meanwhile|]. intros _ _.
    apply quiet_rpc. intros n. split; [apply gl_link|done]. }
  intros _ _. apply (quiet_bind (fun _ => True)); [apply quiet_meanwhile|]. intros _ _. case_decide; [|by apply quiet_ret]. by apply quiet_store.
Qed.

Lemma quiet_Replicate event : quiet (fun _ => True) (Replicate event).
Proof.
  intros w. unfold Replicate, ReplicateAmong. case_match eqn:Hg; [| |].
  - pose proof (gl_replicate (sourceRepo event) (targetRepo event) (rw_nodes w)) as Hp.
    unfold rpc. destruct (ReplicateRepository _ _ _) as [[[]|[|]|] n]; simpl in *; [|done..].
    apply (quiet_linkAndRecord (fun _ p => p) event a (mkRW n (rw_store w) (rw_queue w) (rw_unacknowledged w))).
  - by destruct e.
  - unfold GetReplicatedGeneration in Hg. by case_decide.
Qed.

Lemma DeleteRepository_total vs path l s : (DeleteRepository vs path l s).1 ≠ Panic.
Proof. unfold DeleteRepository. destruct (deleteReplicas _ _ _ _) as [[] ?]; done. Qed.

Lemma DeleteReplica_total vs path st s : (RepoStore.DeleteReplica vs path st s).1 ≠ Panic.
Proof. unfold RepoStore.DeleteReplica. destruct (deleteReplicas _ _ _ _) as [[] ?]; done. Qed.

Lemma RenameRepository_total vs path st p s : (RenameRepository vs path st p s).1 ≠ Panic.
Proof. unfold RenameRepository. repeat case_match; done. Qed.

Lemma quiet_Destroy event : quiet (fun _ => True) (Destroy event).
Proof.
  unfold Destroy. apply (quiet_bind (fun _ => True)).
  { apply quiet_rpc. intros n. split; [apply gl_remove|done]. }
  intros _ _. destruct (Change (Job event)); try apply quiet_fail;
    apply quiet_tolerate, quiet_store; intros s; (split; [|done]).
  - apply DeleteRepository_total.
  - apply DeleteReplica_total.
Qed.

Lemma quiet_Rename event : quiet (fun _ => True) (Rename event).
Proof.
  unfold Rename. destruct (param event _) as [[]|]; try apply quiet_fail.
  apply (quiet_bind (fun _ => True)).
  { apply quiet_rpc. intros n. split; [apply gl_rename|done]. }
  intros _ _. apply quiet_tolerate, quiet_store. intros st. split; [apply RenameRepository_total|done].
Qed.

Hint Resolve quiet_Replicate quiet_Destroy quiet_Rename quiet_keep quiet_param quiet_fail : quiet.

Lemma quiet_process nodes event : quiet (fun _ => True) (processReplicationEvent nodes event).
Proof.
  unfold processReplicationEvent, GarbageCollectJob, RepackFullJob, PackRefsJob, WriteCommitGraphJob,
    RepackIncrementalJob, CleanupJob, MidxRepackJob, OptimizeRepositoryJob.
  repeat case_match; auto with quiet; repeat (eapply quiet_bind; [apply quiet_param|intros ? _]); auto with quiet.
Qed.

(** The outcome of one event. *)
Lemma handleNodeEvent_spec nodes event w :
  exists st w', handleNodeEvent nodes event w = (Some st, w') /\
    rw_queue w' = rw_queue w /\ rw_unacknowledged w' = rw_unacknowledged w /\
    allowToAck st = None /\ (st = JobStateFailed -> 0 < Attempt event).
Proof.
  pose proof (quiet_process nodes event w) as (Hq & Hu & Hr). unfold handleNodeEvent.
  destruct (processReplicationEvent nodes event w) as [[[]|e|] w1]; simpl in *; [by do 2 eexists| |done].
  do 2 eexists. split_and!; [done..| |]; destruct (Attempt event <=? 0) eqn:?; try done. intros _. lia.
Qed.

(** The events of a batch handled in turn, with their outcomes. *)
Inductive processed (nodes : gmap string (gset string))
    : list (ReplicationEvent * JobState) -> rworld N -> rworld N -> Prop :=
| processed_nil w : processed nodes [] w w
| processed_cons event st outs w w1 w2 :
    handleNodeEvent nodes event w = (Some st, w1) -> processed nodes outs w1 w2 ->
    processed nodes ((event, st) :: outs) w w2.

(** The groups hold the IDs of the events by outcome. *)
Record grouped (outs : list (ReplicationEvent * JobState)) (m : gmap JobState (list Z)) : Prop := {
  gr_perm : (map_to_list m ≫= snd) ≡ₚ (fun o => ID o.1) <$> outs;
  gr_nonempty : forall st ids, m !! st = Some ids -> ids ≠ [];
  gr_group : forall st id, id ∈ default [] (m !! st) <-> exists e, (e, st) ∈ outs /\ ID e = id;
}.

Lemma grouped_nil : grouped [] ∅.
Proof.
  split; [done|done|]. intros st id. rewrite lookup_empty. simpl. rewrite elem_of_nil.
  split; [done|]. intros (e & []%elem_of_nil & _).
Qed.

Lemma bind_insert (m : gmap JobState (list Z)) st x :
  map_to_list (<[st := default [] (m !! st) ++ [x]]> m) ≫= snd ≡ₚ (map_to_list m ≫= snd) ++ [x].
Proof.
  rewrite <- (insert_delete_eq m st), map_to_list_insert by apply lookup_delete_eq. simpl.
  destruct (m !! st) as [old|] eqn:Hm; simpl.
  - rewrite <- (insert_delete_id m st old Hm) at 2. rewrite map_to_list_insert by apply lookup_delete_eq.
    simpl. rewrite <- !app_assoc. f_equiv. apply Permutation_app_comm.
  - rewrite delete_id by done. apply Permutation_cons_append.
Qed.

Lemma grouped_snoc outs m e st :
  grouped outs m -> grouped (outs ++ [(e, st)]) (<[st := default [] (m !! st) ++ [ID e]]> m).
Proof.
  intros Hg. split.
  - rewrite bind_insert, fmap_app, (gr_perm outs m Hg). done.
  - intros st' ids. destruct (decide (st' = st)) as [->|Hne].
    + rewrite lookup_insert_eq. intros [= <-]. by destruct (default [] _).
    + rewrite lookup_insert_ne by done. apply (gr_nonempty outs m Hg).
  - intros st' id. setoid_rewrite elem_of_app. setoid_rewrite list_elem_of_singleton.
    destruct (decide (st' = st)) as [->|Hne].
    + rewrite lookup_insert_eq. simpl. rewrite elem_of_app, list_elem_of_singleton, (gr_group outs m Hg).
      naive_solver.
    + rewrite lookup_insert_ne, (gr_group outs m Hg) by done. naive_solver.
Qed.

Lemma processEvents_spec nodes events : forall outs m w,
  grouped outs m -> exists m' new w', processEvents nodes events m w = (Some m', w') /\
    grouped (outs ++ new) m' /\ new.*1 = events /\ processed nodes new w w' /\
    rw_queue w' = rw_queue w /\ rw_unacknowledged w' = rw_unacknowledged w /\
    forall e st, (e, st) ∈ new -> allowToAck st = None /\ (st = JobStateFailed -> 0 < Attempt e).
Proof.
  induction events as [|event events IH]; intros outs m w Hg; simpl.
  { exists m, [], w. rewrite app_nil_r. split_and!; try done; [constructor|]. intros ? ? []%elem_of_nil. }
  destruct (handleNodeEvent_spec nodes event w) as (st & w1 & He & Hq & Hu & Hst). rewrite He.
  destruct (IH _ _ w1 (grouped_snoc outs m event st Hg)) as (m' & new & w' & -> & Hg' & Hn & Hp & Hq' & Hu' & Hall).
  exists m', ((event, st) :: new), w'. rewrite <- app_assoc in Hg'. split_and!; try done.
  - rewrite fmap_cons. by f_equal.
  - by econstructor.
  - congruence.
  - congruence.
  - intros e s [[= -> ->]|?]%elem_of_cons; [done|auto].
Qed.

End Batch.

(** ** Acknowledging a batch *)

Section Acknowledging.
Context {N : Type} `{!GitalyNodes N}.
Context (ticks : nat -> Z) (json_Marshal : ReplicationJob -> option bytes).
Context (Hjson : forall j, json_Marshal j ≠ None).
Implicit Types (w : rworld N) (groups : list (JobState * list Z)).

(** What acknowledging groups of distinct events does to the queue, as
    [acknowledged] for one group. *)
Definition acknowledgedAll groups (s s' : memoryReplicationEventQueue) : Prop :=
  (forall x, x ∈ queued s' ->
    (forall st ids, (st, ids) ∈ groups -> ID x ∈ ids -> EState x = JobStateFailed /\ st = JobStateFailed) /\
    (ID x ∉ groups ≫= snd -> x ∈ queued s)) /\
  forall x, x ∈ queued s -> (forall st ids, (st, ids) ∈ groups -> ID x ∈ ids -> st = JobStateFailed) ->
    (forall ids e, (JobStateCompleted, ids) ∈ groups -> e ∈ queued s -> ID e ∈ ids ->
      json_Marshal (Job e) ≠ json_Marshal (Job x)) ->
    exists x', x' ∈ queued s' /\ ID x' = ID x /\ Job x' = Job x.

Lemma in_groups groups st ids id : (st, ids) ∈ groups -> id ∈ ids -> id ∈ groups ≫= snd.
Proof. intros Hg Hid. apply list_elem_of_bind. by exists (st, ids). Qed.

Lemma acknowledgedAll_cons st ids groups s s1 s' :
  (forall id, id ∈ ids -> id ∉ groups ≫= snd) ->
  acknowledged json_Marshal st ids s s1 -> acknowledgedAll groups s1 s' ->
  acknowledgedAll ((st, ids) :: groups) s s'.
Proof.
  intros Hdis [A1 A2] [B1 B2]. split.
  - intros x Hx. destruct (B1 x Hx) as [C1 C2]. split.
    + intros st' ids' [[= -> ->]|Hg]%elem_of_cons Hid; [|by eapply C1].
      by apply (A1 x (C2 (Hdis _ Hid))).
    + rewrite bind_cons, not_elem_of_app. intros [H1 H2]. by apply (A1 x (C2 H2)).
  - intros x Hx Hst Hc.
    destruct (A2 x Hx) as (x1 & Hx1 & Hid1 & Hj1).
    { intros Hin. apply (Hst st ids); [by left|done]. }
    { intros -> e He Hin. apply (Hc ids e); [by left|done..]. }
    destruct (B2 x1 Hx1) as (x' & Hx' & Hid' & Hj').
    { intros st' ids' Hg. rewrite Hid1. apply Hst. by right. }
    { intros ids' e Hg He Hin. rewrite Hj1. apply (Hc ids'); [by right| |done].
      apply (A1 e He). intros Hb. by apply (Hdis _ Hb), (in_groups _ JobStateCompleted ids'). }
    exists x'. split_and!; congruence.
Qed.

Lemma Acknowledge_subset state ids s r s' :
  Acknowledge ticks json_Marshal state ids s = (Ok r, s') -> forall id, id ∈ r -> id ∈ ids.
Proof.
  unfold Acknowledge. case_decide; [unfold_M; intros [= <- _] id Hid; by apply elem_of_nil in Hid|].
  destruct (allowToAck state); [done|]. intros He id Hid.
  by destruct (acknowledgeLoop_subset _ _ _ _ _ _ _ _ He id Hid) as [?%elem_of_nil|?].
Qed.

Lemma subtract_subset l r : (forall x, x ∈ l -> x ∈ r) -> subtractUint64 l r = [].
Proof.
  intros Hsub. unfold subtractUint64. case_decide as Hl; [done|]. case_decide as Hr.
  { destruct l as [|x l]; [done|]. specialize (Hsub x ltac:(by left)). subst. by apply elem_of_nil in Hsub. }
  clear Hl Hr. induction l as [|x l IH]; [done|]. rewrite filter_cons, decide_False.
  - apply IH. intros y Hy. apply Hsub. by right.
  - intros Hn. apply Hn, Hsub. by left.
Qed.

Lemma acknowledgeGroups_unreported groups : forall w,
  rw_unacknowledged (acknowledgeGroups ticks json_Marshal groups w).2 = rw_unacknowledged w.
Proof.
  induction groups as [|[st ids] groups IH]; intros w; [done|]. simpl.
  destruct (Acknowledge _ _ st ids (rw_queue w)) as [[r|e|] q] eqn:Ha; [|by rewrite IH|done].
  rewrite IH. simpl. by rewrite subtract_subset by (by eapply Acknowledge_subset).
Qed.

Lemma acknowledgeGroups_done groups : forall h w,
  queue_run ticks json_Marshal h (rw_queue w) -> NoDup (groups ≫= snd) ->
  (forall st ids, (st, ids) ∈ groups -> allowToAck st = None /\ ids ≠ [] /\
    forall x, x ∈ queued (rw_queue w) -> ID x ∈ ids ->
      EState x = JobStateInProgress /\ (st = JobStateFailed -> Attempt x ≠ 0)) ->
  exists w', acknowledgeGroups ticks json_Marshal groups w = (true, w') /\
    queue_run ticks json_Marshal h (rw_queue w') /\ seq (rw_queue w') = seq (rw_queue w) /\
    rw_nodes w' = rw_nodes w /\ rw_store w' = rw_store w /\
    acknowledgedAll groups (rw_queue w) (rw_queue w').
Proof using Hjson.
  induction groups as [|[st ids] groups IH]; intros h w Hrun Hnd Hok.
  { exists w. split_and!; try done. split; [|by eauto]. intros x Hx. split; [by intros ? ? ?%elem_of_nil|done]. }
  rewrite bind_cons in Hnd. apply NoDup_app in Hnd as (Hnd1 & Hdis & Hnd). simpl in Hnd1, Hdis.
  destruct (Hok st ids ltac:(by left)) as (Hallow & Hids & Hprog).
  destruct (acknowledgeLoop_done ticks json_Marshal Hjson st ids [] h (rw_queue w)) as (r & q & He & Ha); try done.
  { by eapply queue_run_inv. }
  destruct (acknowledgeLoop_ok ticks json_Marshal Hjson st ids [] h (rw_queue w)) as (r2 & q2 & He2 & _ & _ & Hseq);
    [by eapply queue_run_inv|done|]. rewrite He in He2. injection He2 as <- <-.
  assert (Hack : Acknowledge ticks json_Marshal st ids (rw_queue w) = (Ok r, q)).
  { unfold Acknowledge. by rewrite decide_False, Hallow. }
  simpl. rewrite Hack.
  lazymatch goal with |- context [acknowledgeGroups _ _ groups ?v] => destruct (IH h v) as (w' & -> & H1 & Hs & H2 & H3 & H4) end.
  - by eapply run_acknowledge.
  - done.
  - intros st' ids' Hg. destruct (Hok st' ids') as (? & ? & Hx); [by right|]. split_and!; [done..|].
    intros x Hin Hid. apply Hx; [|done]. apply Ha; [done|].
    intros Hb. by apply (Hdis _ Hb), (in_groups _ st' ids').
  - exists w'. simpl in Hs. split_and!; try (done || congruence). by eapply acknowledgedAll_cons.
Qed.

End Acknowledging.

(** ** One round for a node *)

Section Round.
Context {N : Type} `{!GitalyNodes N, !GitalyLaws N}.
Context {RS : MapRange JobState (list Z)}.
Context (ticks : nat -> Z) (json_Marshal : ReplicationJob -> option bytes).
Context (Hjson : forall j, json_Marshal j ≠ None).
Context (nodes : gmap string (gset string)).
Implicit Types (w : rworld N).

Definition with_queue (q : memoryReplicationEventQueue) w : rworld N :=
  mkRW (rw_nodes w) (rw_store w) q (rw_unacknowledged w).

(** The events of a batch are the ones in the queue with their IDs. *)
Lemma batch_in_queue h s vs ns count new s' :
  dequeue_spec json_Marshal vs ns count (List.seq 0 (length (queued s))) [] ∅ h s s' new ->
  (forall e, e ∈ new -> e ∈ queued s' /\ EState e = JobStateInProgress) /\
  forall x, x ∈ queued s' -> ID x ∈ ID <$> new -> x ∈ new.
Proof.
  intros Hs. assert (Hin : forall e, e ∈ new -> e ∈ queued s' /\ EState e = JobStateInProgress).
  { intros e He. destruct (dq_new _ _ _ _ _ _ _ _ _ _ _ Hs e He) as (i & e0 & now & _ & _ & _ & -> & Hi).
    split; [by eapply list_elem_of_lookup_2|done]. }
  split; [done|]. intros x Hx (e & Hid & He)%list_elem_of_fmap.
  rewrite (sorted_ids_unique (queued s') x e); try done; [apply Hs|by apply Hin].
Qed.

(** Events outside a batch stay as they were. *)
Lemma outside_batch h s vs ns count new s' :
  dequeue_spec json_Marshal vs ns count (List.seq 0 (length (queued s))) [] ∅ h s s' new ->
  forall x, ID x ∉ ID <$> new -> x ∈ queued s' <-> x ∈ queued s.
Proof.
  intros Hs x Hn. split; intros (i & Hi)%list_elem_of_lookup.
  - destruct (dq_rest _ _ _ _ _ _ _ _ _ _ _ Hs i) as [Heq|(_ & e & He & Heq)].
    + rewrite Heq in Hi. by eapply list_elem_of_lookup_2.
    + destruct Hn. apply list_elem_of_fmap. exists e. split; [congruence|done].
  - destruct (dq_rest _ _ _ _ _ _ _ _ _ _ _ Hs i) as [Heq|(_ & e & He & Heq)].
    + rewrite <- Heq in Hi. by eapply list_elem_of_lookup_2.
    + destruct (dq_new _ _ _ _ _ _ _ _ _ _ _ Hs e He) as (k & e0 & now & _ & Hk & _ & Hee & Hk').
      assert (i = k) as <-.
      { apply (NoDup_lookup (ID <$> queued s') i k (ID e)); [apply sorted_nodup, Hs|..];
          rewrite list_lookup_fmap; [by rewrite Heq|by rewrite Hk']. }
      destruct Hn. apply list_elem_of_fmap. exists e. split; [|done]. subst e. simpl. congruence.
Qed.

Lemma handleNode_eq vs target count w events q m w1 w' :
  Dequeue ticks json_Marshal vs target count (rw_queue w) = (Ok events, q) ->
  processEvents nodes events ∅ (with_queue q w) = (Some m, w1) ->
  acknowledgeGroups ticks json_Marshal (range m) w1 = (true, w') ->
  handleNode ticks json_Marshal nodes vs target count w = (Some (Z.of_nat (length events)), w').
Proof.
  intros Hd Hp Ha. unfold handleNode. rewrite Hd. fold (with_queue q w). case_decide as He.
  - subst events. simpl in Hp. simplify_eq.
    assert (range (∅ : gmap JobState (list Z)) = []) as Hr
      by (by apply Permutation_nil_r; rewrite range_perm, map_to_list_empty).
    rewrite Hr in Ha. by injection Ha as <-.
  - by rewrite Hp, Ha.
Qed.

(** A batch whose events were grouped by outcome can be acknowledged. *)
Section Grouped.
Context (outs : list (ReplicationEvent * JobState)) (m : gmap JobState (list Z)) (q q' : memoryReplicationEventQueue).
Context (Hg : grouped outs m) (Hids : NoDup (ID <$> outs.*1)).
Context (Hin : forall e, e ∈ outs.*1 -> e ∈ queued q /\ EState e = JobStateInProgress).
Context (Hall : forall e st, (e, st) ∈ outs -> allowToAck st = None /\ (st = JobStateFailed -> 0 < Attempt e)).

Lemma outs_unique e st e' st' : (e, st) ∈ outs -> (e', st') ∈ outs -> ID e = ID e' -> e = e' /\ st = st'.
Proof using Hids.
  intros (i & Hi)%list_elem_of_lookup (j & Hj)%list_elem_of_lookup Heq.
  assert (i = j) as <-; [|by simplify_eq].
  apply (NoDup_lookup (ID <$> outs.*1) i j (ID e)); [done|..];
    rewrite !list_lookup_fmap; [by rewrite Hi|rewrite Hj; simpl; congruence].
Qed.

Lemma outs_group e st : (e, st) ∈ outs <-> (exists ids, (st, ids) ∈ range m /\ ID e ∈ ids) /\ e ∈ outs.*1.
Proof using Hg Hids.
  split.
  - intros He. split; [|apply list_elem_of_fmap; by exists (e, st)].
    pose proof (proj2 (gr_group _ _ Hg st (ID e)) ltac:(eauto)) as Hid.
    destruct (m !! st) as [ids|] eqn:Hm; [|by apply elem_of_nil in Hid]. exists ids. by rewrite range_elem.
  - intros [(ids & Hr%range_elem & Hid) ([e1 st1] & -> & He1)%list_elem_of_fmap].
    destruct (proj1 (gr_group _ _ Hg st (ID e1))) as (e' & He' & Heq); [by rewrite Hr|].
    by destruct (outs_unique e' st e1 st1) as [-> _].
Qed.

Lemma group_nodup : NoDup (range m ≫= snd).
Proof using Hg Hids.
  rewrite range_perm, (gr_perm _ _ Hg).
  change (fun o => ID o.1) with (ID ∘ fst (A := ReplicationEvent) (B := JobState)). by rewrite list_fmap_compose.
Qed.

Lemma group_ids id : id ∈ range m ≫= snd <-> id ∈ ID <$> outs.*1.
Proof using Hg. rewrite range_perm, (gr_perm _ _ Hg), <- list_fmap_compose. done. Qed.

Lemma group_acknowledgeable h :
  q_inv ∅ h q -> forall st ids, (st, ids) ∈ range m -> allowToAck st = None /\ ids ≠ [] /\
    forall x, x ∈ queued q -> ID x ∈ ids ->
      EState x = JobStateInProgress /\ (st = JobStateFailed -> Attempt x ≠ 0).
Proof using Hg Hin Hall.
  intros Hinv st ids Hr%range_elem. pose proof (gr_nonempty _ _ Hg st ids Hr) as Hne.
  pose proof (gr_group _ _ Hg st) as Hgr. rewrite Hr in Hgr. simpl in Hgr. split_and!; try done.
  - destruct ids as [|id ids]; [done|]. destruct (proj1 (Hgr id) ltac:(by left)) as (e & He & _). by apply (Hall e).
  - intros x Hx (e & He & Heq)%Hgr. assert (Heo : e ∈ outs.*1) by (apply list_elem_of_fmap; by exists (e, st)).
    rewrite (sorted_ids_unique (queued q) x e); try done; [|apply Hinv|by apply Hin].
    split; [by apply Hin|]. intros Hst. destruct (Hall e st He) as [_ Hf]. specialize (Hf Hst). lia.
Qed.

Lemma group_event h st ids x :
  q_inv ∅ h q -> (st, ids) ∈ range m -> x ∈ queued q -> ID x ∈ ids -> (x, st) ∈ outs.
Proof using Hg Hin.
  intros Hinv Hr%range_elem Hx Hid. destruct (proj1 (gr_group _ _ Hg st (ID x))) as (e & He & Heq); [by rewrite Hr|].
  rewrite (sorted_ids_unique (queued q) x e); try done; [apply Hinv|].
  apply Hin, list_elem_of_fmap. by exists (e, st).
Qed.

(** An event is kept if its own outcome, if any, was a failure, and no event
    with the same job was completed. *)
Lemma event_kept h x :
  q_inv ∅ h q -> acknowledgedAll json_Marshal (range m) q q' -> x ∈ queued q ->
  (forall st, (x, st) ∈ outs -> st = JobStateFailed) ->
  (forall e, (e, JobStateCompleted) ∈ outs -> json_Marshal (Job e) ≠ json_Marshal (Job x)) ->
  exists x', x' ∈ queued q' /\ ID x' = ID x /\ Job x' = Job x.
Proof using Hg Hin.
  intros Hinv [_ H2] Hx Hf Hc. apply (H2 x Hx).
  - intros st ids Hr Hid. apply Hf. by eapply group_event.
  - intros ids e Hr He Hid. apply Hc. by eapply group_event.
Qed.

Lemma failed_kept h e :
  NoDup ((fun e => json_Marshal (Job e)) <$> outs.*1) -> q_inv ∅ h q ->
  acknowledgedAll json_Marshal (range m) q q' -> (e, JobStateFailed) ∈ outs ->
  exists x, x ∈ queued q' /\ ID x = ID e /\ Job x = Job e.
Proof using Hg Hids Hin.
  intros Hjobs Hinv Hack He. apply (event_kept h e Hinv Hack).
  - apply Hin, list_elem_of_fmap. by exists (e, JobStateFailed).
  - intros st He'. by destruct (outs_unique _ _ _ _ He' He).
  - intros e2 (i & Hi)%list_elem_of_lookup Hj. apply list_elem_of_lookup in He as (j & Hj').
    assert (i = j) as <-; [|congruence].
    apply (NoDup_lookup _ i j (json_Marshal (Job e)) Hjobs); rewrite !list_lookup_fmap;
      [rewrite Hi; simpl; congruence|by rewrite Hj'].
Qed.

End Grouped.

(** The parts of a round. *)
Record round (h : list Z) (vs target : string) (count : Z) w (outs : list (ReplicationEvent * JobState))
    (m : gmap JobState (list Z)) (q : memoryReplicationEventQueue) w1 w' : Prop := {
  rd_dequeue : Dequeue ticks json_Marshal vs target count (rw_queue w) = (Ok outs.*1, q);
  rd_spec : dequeue_spec json_Marshal vs target count (List.seq 0 (length (queued (rw_queue w)))) [] ∅ h
    (rw_queue w) q outs.*1;
  rd_processed : processed nodes outs (with_queue q w) w1;
  rd_grouped : grouped outs m;
  rd_queue : rw_queue w1 = q;
  rd_result : handleNode ticks json_Marshal nodes vs target count w = (Some (Z.of_nat (length outs)), w');
  rd_run : queue_run ticks json_Marshal (h ++ (ID <$> outs.*1)) (rw_queue w');
  rd_seq : seq (rw_queue w') = seq (rw_queue w);
  rd_frame : rw_nodes w' = rw_nodes w1 /\ rw_store w' = rw_store w1;
  rd_acknowledged : acknowledgedAll json_Marshal (range m) q (rw_queue w');
}.

Lemma handleNode_round h w vs target count :
  queue_run ticks json_Marshal h (rw_queue w) ->
  exists outs m q w1 w', round h vs target count w outs m q w1 w'.
Proof using Hjson GitalyLaws0.
  intros Hrun. destruct (queue_run_inv _ _ Hjson _ _ Hrun) as [Hinv _].
  destruct (Dequeue_spec ticks json_Marshal Hjson h (rw_queue w) vs target count Hinv) as (new & q & Hd & Hspec & _).
  destruct (processEvents_spec nodes new [] ∅ (with_queue q w)) as (m & outs & w1 & Hp & Hg & Hnew & Hpr & Hq & _ & Hall).
  { apply grouped_nil. }
  simpl in Hg, Hq. subst new.
  pose proof (run_dequeue _ _ _ _ _ _ _ _ _ Hrun Hd) as Hrun1. simpl in Hrun1. rewrite <- Hq in Hrun1.
  destruct (batch_in_queue _ _ _ _ _ _ _ Hspec) as [Hbatch _]. rewrite <- Hq in Hbatch.
  assert (Hids : NoDup (ID <$> outs.*1)) by apply sorted_nodup, Hspec.
  destruct (acknowledgeGroups_done ticks json_Marshal Hjson (range m) _ w1 Hrun1) as (w' & Hack & Hrun' & Hseq & Hn' & Hs' & Hall').
  { by eapply group_nodup. }
  { eapply group_acknowledgeable; try done. by eapply queue_run_inv. }
  exists outs, m, q, w1, w'. split; try done.
  - rewrite (handleNode_eq _ _ _ _ _ _ _ _ _ Hd Hp Hack). by rewrite length_fmap.
  - rewrite Hseq, Hq. apply Hspec.
  - by rewrite <- Hq.
Qed.

(** C21. A round for a node does not panic and settles its batch. The events
    handed out are processed in order; afterwards none of them is in progress:
    one that was processed successfully, or failed with no attempts left, is no
    longer queued, one that failed otherwise is still queued for another attempt.
    No event outside the batch changes, and those that are gone had the job of a
    completed one. *)
Theorem handleNode_settles h w vs target count :
  queue_run ticks json_Marshal h (rw_queue w) ->
  exists outs q w1 w',
    Dequeue ticks json_Marshal vs target count (rw_queue w) = (Ok outs.*1, q) /\
    processed nodes outs (with_queue q w) w1 /\
    handleNode ticks json_Marshal nodes vs target count w = (Some (Z.of_nat (length outs)), w') /\
    rw_nodes w' = rw_nodes w1 /\ rw_store w' = rw_store w1 /\
    queue_run ticks json_Marshal (h ++ (ID <$> outs.*1)) (rw_queue w') /\
    (forall e st, (e, st) ∈ outs -> st ≠ JobStateFailed -> ID e ∉ ID <$> queued (rw_queue w')) /\
    (forall e, (e, JobStateFailed) ∈ outs -> exists x, x ∈ queued (rw_queue w') /\
      ID x = ID e /\ Job x = Job e /\ EState x = JobStateFailed /\ 0 < Attempt x) /\
    (forall x, x ∈ queued (rw_queue w') -> ID x ∉ ID <$> outs.*1 -> x ∈ queued (rw_queue w)) /\
    (forall x, x ∈ queued (rw_queue w) -> ID x ∉ ID <$> outs.*1 ->
      (exists x', x' ∈ queued (rw_queue w') /\ ID x' = ID x) \/
      exists e, (e, JobStateCompleted) ∈ outs /\ json_Marshal (Job e) = json_Marshal (Job x)).
Proof using Hjson GitalyLaws0.
  intros Hrun. destruct (handleNode_round h w vs target count Hrun) as (outs & m & q & w1 & w' & Hr).
  destruct Hr as [Hd Hspec Hpr Hg Hq Hres Hrun' _ [Hn Hs] Hack].
  destruct (batch_in_queue _ _ _ _ _ _ _ Hspec) as [Hbatch _].
  assert (Hids : NoDup (ID <$> outs.*1)) by apply sorted_nodup, Hspec.
  assert (Hinv1 : q_inv ∅ (h ++ (ID <$> outs.*1)) q) by apply Hspec.
  assert (Hgone : forall e st x, (e, st) ∈ outs -> x ∈ queued (rw_queue w') -> ID x = ID e ->
    EState x = JobStateFailed /\ st = JobStateFailed).
  { intros e st x [(ids & Hr & Hid) _]%(outs_group outs m Hg Hids) Hx Heq.
    apply (proj1 (proj1 Hack x Hx) st ids); [done|by rewrite Heq]. }
  exists outs, q, w1, w'. split_and!; try done.
  - intros e st He Hst (x & Heq & Hx)%list_elem_of_fmap. by destruct (Hgone e st x He Hx).
  - intros e He.
    destruct (failed_kept outs m q _ Hg Hids Hbatch _ e (dq_distinct _ _ _ _ _ _ _ _ _ _ _ Hspec) Hinv1 Hack He) as (x & Hx & Hid & Hj).
    exists x. destruct (Hgone e _ x He Hx Hid) as [Hf _]. split_and!; try done.
    destruct (queue_run_inv _ _ Hjson _ _ Hrun') as [Hinv' _].
    destruct (qi_event _ _ _ Hinv' x Hx) as [_ Hev]; [set_solver|]. rewrite Hf in Hev. lia.
  - intros x Hx Hnx. apply (outside_batch _ _ _ _ _ _ _ Hspec x Hnx).
    apply (proj1 Hack x Hx). by rewrite (group_ids outs m Hg).
  - intros x Hx Hnx. apply (outside_batch _ _ _ _ _ _ _ Hspec x Hnx) in Hx.
    destruct (decide (Exists (fun o => o.2 = JobStateCompleted /\ json_Marshal (Job o.1) = json_Marshal (Job x)) outs)) as [Hex|Hex].
    + right. apply Exists_exists in Hex as ([e st] & He & Hst & Hj). simpl in *. subst. eauto.
    + left. destruct (event_kept outs m q (rw_queue w') Hg Hbatch _ x Hinv1 Hack Hx) as (x' & ? & ? & _).
      * intros st He. destruct Hnx. apply list_elem_of_fmap. exists x. split; [done|].
        apply list_elem_of_fmap. by exists (x, st).
      * intros e He Hj. apply Hex, Exists_exists. by exists (e, JobStateCompleted).
      * by exists x'.
Qed.

(** [n] rounds for the node. *)
Fixpoint rounds (vs target : string) (count : Z) (n : nat) w : rworld N :=
  match n with
  | O => w
  | S n => rounds vs target count n (handleNode ticks json_Marshal nodes vs target count w).2
  end.

(** C28. The backlog of a node in the in-memory queue drains: whatever the outcome of
    the jobs, if no new events are enqueued, then after at most three rounds for each
    event ever enqueued none is waiting for the node any more. (In the PostgreSQL queue
    deletions of replicas do not use up attempts, and the bound does not hold.) *)
Theorem backlog_drains h w vs target count :
  queue_run ticks json_Marshal h (rw_queue w) -> 0 < count ->
  exists n, Z.of_nat n <= 3 * seq (rw_queue w) /\
    forall e, e ∈ queued (rw_queue (rounds vs target count n w)) -> dequeuable vs target e = false.
Proof using Hjson GitalyLaws0.
  intros Hrun Hc. pose proof (queue_run_length _ _ Hjson _ _ Hrun) as Hlen.
  assert (exists n, Z.of_nat n <= Z.of_nat (Z.to_nat (3 * seq (rw_queue w) - Z.of_nat (length h))) /\
    forall e, e ∈ queued (rw_queue (rounds vs target count n w)) -> dequeuable vs target e = false) as (n & Hn & He);
    [|exists n; split; [lia|done]].
  remember (Z.to_nat (3 * seq (rw_queue w) - Z.of_nat (length h))) as fuel eqn:Hfuel.
  revert h w Hrun Hlen Hfuel. induction fuel as [fuel IH] using lt_wf_ind. intros h w Hrun Hlen Hfuel.
  destruct (handleNode_round h w vs target count Hrun) as (outs & m & q & w1 & w' & Hr).
  destruct (decide (outs = [])) as [->|Hne].
  - exists 0%nat. split; [lia|]. simpl. intros e (i & Hi)%list_elem_of_lookup.
    destruct (Dequeue_spec ticks json_Marshal Hjson h (rw_queue w) vs target count) as (new & q' & Hd & _ & Hc').
    { by eapply queue_run_inv. }
    rewrite (rd_dequeue _ _ _ _ _ _ _ _ _ _ Hr) in Hd. injection Hd as <- <-.
    destruct (dequeuable vs target e) eqn:Hde; [|done].
    by destruct (Hc' ltac:(simpl; lia) i e Hi Hde) as (? & []%elem_of_nil & _).
  - pose proof (rd_run _ _ _ _ _ _ _ _ _ _ Hr) as Hrun'. pose proof (rd_seq _ _ _ _ _ _ _ _ _ _ Hr) as Hseq.
    pose proof (queue_run_length _ _ Hjson _ _ Hrun') as Hlen'.
    assert (0 < length (ID <$> outs.*1))%nat by (rewrite !length_fmap; destruct outs; simpl; [done|lia]).
    rewrite length_app in Hlen'.
    destruct (IH (Z.to_nat (3 * seq (rw_queue w') - Z.of_nat (length (h ++ (ID <$> outs.*1))))))
      with (h := h ++ (ID <$> outs.*1)) (w := w') as (n & Hn & He); [rewrite length_app; lia|done|rewrite length_app; lia|done|].
    exists (S n). rewrite length_app in Hn. split; [lia|]. simpl. by rewrite (rd_result _ _ _ _ _ _ _ _ _ _ Hr).
Qed.

(** A round never reports an event as not acknowledged, not even when none of
    the events asked for was acknowledged: the acknowledged IDs are the minuend
    of the subtraction. *)
Theorem unacknowledged_unreported w vs target count :
  (forall groups, rw_unacknowledged (acknowledgeGroups ticks json_Marshal groups w).2 = rw_unacknowledged w) /\
  rw_unacknowledged (handleNode ticks json_Marshal nodes vs target count w).2 = rw_unacknowledged w /\
  subtractUint64 [] [1; 2] = [] /\ subtractUint64 [1; 2] [] = [1; 2].
Proof using GitalyLaws0.
  split; [intros; apply acknowledgeGroups_unreported|]. split; [|done].
  unfold handleNode. destruct (Dequeue _ _ _ _ _ _) as [[events|e|] q]; [|done..].
  case_decide; [done|]. fold (with_queue q w).
  destruct (processEvents_spec nodes events [] ∅ (with_queue q w) grouped_nil)
    as (m & new & w1 & -> & _ & _ & _ & _ & Hu & _).
  pose proof (acknowledgeGroups_unreported ticks json_Marshal (range m) w1) as Ha.
  destruct (acknowledgeGroups _ _ _ w1) as [[] w2]; simpl in *; congruence.
Qed.

End Round.

(** ** Backoff *)

(** The backoff after [n] calls. *)
Fixpoint after (n : nat) (b : backoffState) : backoffState :=
  match n with
  | O => b
  | S n => after n (backoff b).2
  end.

Lemma after_S n : forall b, after (S n) b = (backoff (after n b)).2.
Proof. induction n as [|n IH]; intros b; [done|]. apply (IH (backoff b).2). Qed.

Lemma backoffs_lookup n : forall k b, (k < n)%nat -> backoffs n b !! k = Some (b_duration (after k b)).
Proof.
  induction n as [|n IH]; intros k b Hk; [lia|]. destruct k as [|k]; [done|]. simpl. rewrite IH by lia. done.
Qed.

Lemma after_duration start max n :
  0 < start < 2 ^ 62 -> 0 <= max < 2 ^ 62 ->
  after (S n) (ExpBackoffFunc start max) = mkBackoff start max ((start * 2 ^ Z.of_nat (S n)) `min` max).
Proof.
  intros Hs Hm. induction n as [|n IH].
  - unfold after, backoff, ExpBackoffFunc. cbn [b_duration b_start b_max snd]. rewrite i64_small by lia.
    change (2 ^ Z.of_nat 1) with 2. f_equal. destruct (Z.leb_spec max (start * 2)); lia.
  - rewrite after_S, IH. unfold backoff. cbn [b_duration b_start b_max snd].
    assert (0 < start * 2 ^ Z.of_nat (S n)) by (apply Z.mul_pos_pos; lia).
    rewrite i64_small by lia. f_equal.
    rewrite (Nat2Z.inj_succ (S n)), Z.pow_succ_r by lia.
    destruct (Z.leb_spec max ((start * 2 ^ Z.of_nat (S n)) `min` max * 2)); lia.
Qed.

(** The waiting times between passes without events are the start, then its
    doubles, cut off at the maximum; they do not overflow. A reset starts over. *)
Theorem backoff_doubles start max n k :
  0 < start < 2 ^ 62 -> 0 <= max < 2 ^ 62 -> (k < n)%nat ->
  backoffs n (ExpBackoffFunc start max) !! k =
    Some (if decide (k = 0%nat) then start else (start * 2 ^ Z.of_nat k) `min` max) /\
  backoffReset (after k (ExpBackoffFunc start max)) = ExpBackoffFunc start max.
Proof.
  intros Hs Hm Hk. rewrite backoffs_lookup by done. destruct k as [|k]; [done|].
  by rewrite (after_duration start max k Hs Hm).
Qed.

(** ** Examples *)

(** Nodes that answer every call, except that a repository [broken] is an
    invalid source and [flaky] cannot be removed. *)
#[local] Instance ex_nodes : GitalyNodes (list GRepo) := {
  ReplicateRepository s t n :=
    if decide (s.2 = "broken") then (Err ErrInvalidSourceRepository, n) else (Ok tt, t :: n);
  GetObjectPool r n := (Ok (Some (Some (r.1, "pool"))), n);
  LinkRepositoryToObjectPool p r n := (Ok tt, n);
  RemoveRepository r n := if decide (r.2 = "flaky") then (Err (RpcFailure "unavailable"), n) else (Ok tt, n);
  RenameRepositoryRPC r p n := (Ok tt, n);
  Housekeeping r h n := (Ok tt, n);
}.

#[local] Instance ex_nodes_laws : GitalyLaws (list GRepo).
Proof. by split; intros; simpl; try case_decide. Qed.

#[local] Instance ex_range : MapRange JobState (list Z) := default_range JobState (list Z).

Definition ex_up : gmap string (gset string) := {["default" := {["gitaly-1"; "gitaly-2"]}]}.
Definition ex_job (path : string) : ReplicationEvent :=
  mkEvent 0 JobStateReady 3 "" 0 None (mkJob 1 UpdateRepo path "gitaly-2" "gitaly-1" "default" None) None.
Definition ex_store : PostgresRepositoryStore :=
  (SetGeneration "default" "a" "gitaly-1" 4
    (CreateRepository 1 "default" "a" "gitaly-1" ["gitaly-2"] [] true false emptyStore).2).2.
Definition ex_world : rworld (list GRepo) := mkRW [] ex_store ex_filled [].

Lemma ex_generations event storage : GenerationUnknown <= jobGeneration event storage ex_world.
Proof.
  assert (Hall : map_Forall (fun _ r => GenerationUnknown <= r_generation r) (storage_repositories ex_store))
    by (refine (bool_decide_unpack _ _); by vm_compute).
  unfold jobGeneration, GetGeneration. case_match eqn:Hl; [exact (Hall _ _ Hl)|done].
Qed.

(** Others record a generation for another repository before every call. *)
Definition ex_others : Others (N := list GRepo) := fun _ p => (p.1, (SetGeneration "default" "b" "gitaly-1" 7 p.2).2).

Lemma ex_others_leave : leaves ex_others (ex_job "a") "gitaly-2".
Proof.
  intros m w. unfold jobGeneration, GetGeneration, meanwhile, ex_others, SetGeneration, modify, with_repositories, with_replicas. cbn.
  by rewrite lookup_insert_ne.
Qed.

Lemma Replicate_generation_witness :
  jobGeneration (ex_job "a") "gitaly-2" ex_world <= jobGeneration (ex_job "a") "gitaly-2" (ReplicateAmong ex_others (ex_job "a") ex_world).2 /\
  jobGeneration (ex_job "a") "gitaly-2" ex_world = 0 /\
  jobGeneration (ex_job "a") "gitaly-2" (ReplicateAmong ex_others (ex_job "a") ex_world).2 = 4.
Proof.
  split; [|by vm_compute].
  refine (proj1 (proj2 (Replicate_generation ex_others (ex_job "a") ex_world _ _ _ _ _ (surjective_pairing _)))); [done|intros st; apply ex_generations|].
  apply leaves_raises, ex_others_leave.
Defined.

(** A job is copying generation 4 to gitaly-2 when that replica is made the
    authoritative one with generation 9; its record is then set back to 4. *)
Lemma raised_generation_overwritten :
  let others : Others (N := list GRepo) := fun m p => match m with BeforeRecord => (p.1, (SetGeneration "default" "a" "gitaly-2" 9 p.2).2) | _ => p end in
  jobGeneration (ex_job "a") "gitaly-2" (meanwhile others BeforeRecord ex_world) = 9 /\
  jobGeneration (ex_job "a") "gitaly-2" (ReplicateAmong others (ex_job "a") ex_world).2 = 4.
Proof. by vm_compute. Qed.

Lemma handleNode_settles_witness :
  exists (outs : list (ReplicationEvent * JobState)) w', handleNode ex_ticks ex_json ex_up "default" "gitaly-2" 5 ex_world = (Some (Z.of_nat (length outs)), w') /\
    queue_run ex_ticks ex_json ([] ++ (ID <$> outs.*1)) (rw_queue w').
Proof.
  destruct (handleNode_settles ex_ticks ex_json ex_json_total ex_up [] ex_world "default" "gitaly-2" 5 ex_filled_run)
    as (outs & q & w1 & w' & _ & _ & He & _ & _ & Hr & _).
  exists outs, w'. split; [exact He|exact Hr].
Defined.

Lemma backlog_drains_witness :
  exists n, Z.of_nat n <= 12 /\
    forall e, e ∈ queued (rw_queue (rounds ex_ticks ex_json ex_up "default" "gitaly-2" 1 n ex_world)) ->
      dequeuable "default" "gitaly-2" e = false.
Proof.
  destruct (backlog_drains ex_ticks ex_json ex_json_total ex_up [] ex_world "default" "gitaly-2" 1 ex_filled_run ltac:(lia))
    as (n & Hn & He).
  exists n. split; [exact Hn|exact He].
Defined.

Lemma backoff_doubles_witness :
  backoffs 4 (ExpBackoffFunc 1000 5000) !! 2%nat = Some 4000 /\
  backoffs 4 (ExpBackoffFunc 1000 5000) = [1000; 2000; 4000; 5000].
Proof.
  split; [|by vm_compute].
  exact (proj1 (backoff_doubles 1000 5000 4 2 ltac:(lia) ltac:(lia) ltac:(lia))).
Defined.

Lemma unacknowledged_unreported_witness :
  rw_unacknowledged (handleNode ex_ticks ex_json ex_up "default" "gitaly-2" 5 ex_world).2 = [].
Proof.
  exact (proj1 (proj2 (unacknowledged_unreported ex_ticks ex_json ex_up ex_world "default" "gitaly-2" 5))).
Defined.
