(* ===== verification/Coordinator.v ===== *)
(** The coordinator (src/internal/praefect/coordinator.go): it directs an RPC to
    the nodes the router picks, registers a transaction for transactional
    mutators, and, when the RPC is over, records the new generations and queues
    replication jobs for every replica that may have missed the change.

    The transaction manager is the one of Transaction.v. The replication queue
    and the repository store are Go interfaces, the classes
    [ReplicationEventQueue] and [RepositoryStore] over an abstract state. Closures
    are data: a [Finalizer] is run by [runFinalizer], an [errHandler] by
    [handleError]. Logging is left out; contexts carry the transaction info only. *)

From S2P Require Import Prelude Voting Subtransaction Quorum Transaction TxSystem.
From S2P Require Import Datastore MemoryQueue PConfig Router Methods RepoStore.

(** ** Interfaces *)

Inductive CErr : Type :=
| FromRouter (e : PErr)
| FromTx (e : TxError)
| FromStore (message : string) (e : StoreError)
| FromQueue (e : QueueError)
| ErrMarshalMessage
| ErrUnknownOperation
| ErrUnknownScope
| ErrLookupMethod
| ErrPeek
| InvalidArgument (e : CErr)
| NotFound (e : CErr)
| AlreadyExists (e : CErr)
| Internal (e : CErr)
| Context (message : string) (e : CErr).

(** [Enqueue] of the queue interface; the flag is whether its context has been
    cancelled. *)
Class ReplicationEventQueue (Q : Type) := {
  rq_Enqueue : bool -> ReplicationEvent -> M Q QueueError ReplicationEvent;
}.

(** The operations of the store the coordinator calls. *)
Class RepositoryStore (S : Type) := {
  rs_IncrementGeneration : string -> string -> string -> list string -> M S StoreError unit;
  rs_RenameRepository : string -> string -> string -> string -> M S StoreError unit;
  rs_DeleteRepository : string -> string -> list string -> M S StoreError unit;
  rs_CreateRepository : Z -> string -> string -> string -> list string -> list string ->
    bool -> bool -> M S StoreError unit;
  rs_ReserveRepositoryID : string -> string -> M S StoreError Z;
}.

(** The store of RepoStore.v is one. *)
#[export] Instance postgres_store : RepositoryStore PostgresRepositoryStore := {|
  rs_IncrementGeneration := RepoStore.IncrementGeneration;
  rs_RenameRepository := RepoStore.RenameRepository;
  rs_DeleteRepository := RepoStore.DeleteRepository;
  rs_CreateRepository := RepoStore.CreateRepository;
  rs_ReserveRepositoryID := RepoStore.ReserveRepositoryID;
|}.

(** The order in which the goroutines of an [errgroup] get to run. *)
Class Schedule := {
  schedule : forall {A}, list A -> list A;
  schedule_perm : forall {A} (l : list A), schedule l ≡ₚ l;
}.

(** ** State *)

Record world (Q S : Type) : Type := mkWorld {
  w_mgr : Manager;
  w_queue : Q;
  w_store : S;
  txReplicationCountMetric : gmap string Z;
}.
Arguments mkWorld {Q S}.
Arguments w_mgr {Q S}.
Arguments w_queue {Q S}.
Arguments w_store {Q S}.
Arguments txReplicationCountMetric {Q S}.

Section Lift.
Context {Q S : Type}.
Abbreviation W := (world Q S).

Definition on_mgr {A} (m : M Manager TxError A) : M W CErr A := fun w =>
  match m (w_mgr w) with
  | (r, mgr) =>
    (match r with Ok a => Ok a | Err e => Err (FromTx e) | Panic => Panic end,
     mkWorld mgr (w_queue w) (w_store w) (txReplicationCountMetric w))
  end.

Definition on_queue {A} (m : M Q QueueError A) : M W CErr A := fun w =>
  match m (w_queue w) with
  | (r, q) =>
    (match r with Ok a => Ok a | Err e => Err (FromQueue e) | Panic => Panic end,
     mkWorld (w_mgr w) q (w_store w) (txReplicationCountMetric w))
  end.

(** A store operation whose errors [ignore]d by the caller are only logged. *)
Definition on_store (message : string) (ignore : StoreError -> bool) (m : M S StoreError unit)
    : M W CErr unit := fun w =>
  match m (w_store w) with
  | (r, s) =>
    (match r with
     | Ok a => Ok a
     | Err e => if ignore e then Ok tt else Err (FromStore message e)
     | Panic => Panic
     end,
     mkWorld (w_mgr w) (w_queue w) s (txReplicationCountMetric w))
  end.

Definition of_router {A} (o : out PErr A) : M W CErr A := fun w =>
  (match o with Ok a => Ok a | Err e => Err (FromRouter e) | Panic => Panic end, w).

End Lift.

(** ** Registering a transaction *)

Definition transactionVoters (primary : RouterNode) (secondaries : list RouterNode) : list Voter :=
  let secondaryLen := u64 (Z.of_nat (length secondaries)) in
  mkVoter (RN_Storage primary) (u64 (secondaryLen + 1)) None VoteUndecided ::
  ((fun s => mkVoter (RN_Storage s) 1 None VoteUndecided) <$> secondaries).

Definition transactionThreshold (secondaries : list RouterNode) : Z :=
  let secondaryLen := u64 (Z.of_nat (length secondaries)) in
  let threshold := u64 (secondaryLen + 1) in
  if 1 <? Z.of_nat (length secondaries)
  then u64 (threshold + u64 (secondaryLen + 1) / 2)
  else threshold.

Definition registerTransaction (primary : RouterNode) (secondaries : list RouterNode)
    : M Manager TxError nat :=
  RegisterTransaction (transactionVoters primary secondaries) (transactionThreshold secondaries).

(** ** Judging the replicas after a transaction *)

Definition routerNodesToStorages (nodes : list RouterNode) : list string := RN_Storage <$> nodes.

Record verdict : Type := mkVerdict {
  primaryDirtied : bool;
  updated : list string;
  outdated : list string;
  nodesByState : gmap string (list string);
}.

Definition markOutdated (reason : string) (nodes : list string) (v : verdict) : verdict :=
  if decide (nodes = []) then v
  else mkVerdict (primaryDirtied v) (updated v) (outdated v ++ nodes)
         (<[reason := default [] (nodesByState v !! reason) ++ nodes]> (nodesByState v)).

Definition markUpdated (node : string) (v : verdict) : verdict :=
  mkVerdict (primaryDirtied v) (updated v ++ [node]) (outdated v)
    (<["updated" := default [] (nodesByState v !! "updated") ++ [node]]> (nodesByState v)).

Section Judge.
(** Errors returned by nodes, compared as Go compares interface values. *)
Context {E : Type} `{EqDecision E} {RN : MapRange string Voter}.

(** The errors the nodes returned; no entry is a [nil] error. *)
Abbreviation nodeErrors := (gmap string E).

Definition judgeSecondary (errs : nodeErrors) (primaryErr : option E)
    (nodeStates : gmap string VoteResult) (v : verdict) (secondary : RouterNode) : verdict :=
  if decide (errs !! RN_Storage secondary ≠ primaryErr) then
    markOutdated "node-error-status" [RN_Storage secondary] v
  else if decide (default VoteUndecided (nodeStates !! RN_Storage secondary) ≠ VoteCommitted) then
    markOutdated "node-not-committed" [RN_Storage secondary] v
  else markUpdated (RN_Storage secondary) v.

(** [transaction.State] has an error result for an invalid transaction state,
    which the three constructors of [transactionState] rule out; its branch is
    gone with it. *)
Definition getUpdatedAndOutdatedSecondaries (route : RepositoryMutatorRoute) (t : transaction)
    (errs : nodeErrors) : verdict :=
  let clean := mkVerdict false [] [] ∅ in
  let primaryErr := errs !! RN_Storage (Primary route) in
  if decide (CountSubtransactions t = 0 /\ primaryErr ≠ None) then clean
  else if decide (CountSubtransactions t = 1 /\ DidVote t (RN_Storage (Primary route)) = false) then clean
  else
    let v := markOutdated "outdated" (ReplicationTargets route) (mkVerdict true [] [] ∅) in
    if decide (CountSubtransactions t = 0) then
      markOutdated "no-votes" (routerNodesToStorages (Secondaries route)) v
    else
      let nodeStates := State t in
      if decide (default VoteUndecided (nodeStates !! RN_Storage (Primary route)) ≠ VoteCommitted) then
        markOutdated "primary-not-committed" (routerNodesToStorages (Secondaries route)) v
      else foldl (judgeSecondary errs primaryErr nodeStates) v (Secondaries route).

End Judge.

Definition countReplications {Q S} (v : verdict) (w : world Q S) : world Q S :=
  mkWorld (w_mgr w) (w_queue w) (w_store w)
    (map_fold (fun reason nodes m => <[reason := default 0 (m !! reason) + Z.of_nat (length nodes)]> m)
       (txReplicationCountMetric w) (nodesByState v)).

(** ** Finalizing a request *)

Definition CorrelationIDKey : string := "correlation_id".

Definition replicationEvent (repositoryID : Z) (change : ChangeType) (path virtualStorage primary : string)
    (params : option Params) (correlationID : string) (secondary : string) : ReplicationEvent :=
  mkEvent 0 JobStateReady 0 "" 0 None
    (mkJob repositoryID change path secondary primary virtualStorage params)
    (Some {[CorrelationIDKey := PString correlationID]}).

Section Finalize.
Context {Q S : Type} `{!ReplicationEventQueue Q} `{!RepositoryStore S} `{!Schedule}.
Context (conf : Config) (correlationID : string).
Abbreviation W := (world Q S).

(** The goroutines of the [errgroup]: all run, the first error cancels the
    context the later ones use and is the one returned. *)
Fixpoint enqueueAll (firstErr : option CErr) (events : list ReplicationEvent) : M W CErr unit :=
  match events with
  | [] => match firstErr with None => mret tt | Some e => fail e end
  | event :: events => fun w =>
    match on_queue (rq_Enqueue (match firstErr with None => false | Some _ => true end) event) w with
    | (Panic, w) => (Panic, w)
    | (Ok _, w) => enqueueAll firstErr events w
    | (Err e, w) =>
      enqueueAll (Some (default (Context "enqueue replication event" e) firstErr)) events w
    end
  end.

(** The update of the store, and the change the jobs carry. *)
Definition recordChange (repositoryID : Z) (virtualStorage path primary : string)
    (updatedSecondaries outdatedSecondaries : list string) (change : ChangeType)
    (params : option Params) : M W CErr ChangeType :=
  match change with
  | UpdateRepo =>
    _ ← on_store "increment generation" (fun _ => false)
          (rs_IncrementGeneration virtualStorage path primary updatedSecondaries);
    mret change
  | RenameRepo =>
    match params ≫= (.!! "RelativePath") with
    | Some (PString newPath) =>
      _ ← on_store "rename repository" (fun e => bool_decide (e = RepositoryNotExistsError))
            (rs_RenameRepository virtualStorage path primary newPath);
      mret change
    | _ => panic
    end
  | DeleteRepo =>
    _ ← on_store "delete repository" (fun e => bool_decide (e = ErrNoRowsAffected))
          (rs_DeleteRepository virtualStorage path (updatedSecondaries ++ [primary]));
    mret change
  | CreateRepo =>
    let repositorySpecificPrimariesEnabled :=
      bool_decide (ElectionStrategy (Failover_ conf) = ElectionStrategyPerRepository) in
    let variableReplicationFactorEnabled := repositorySpecificPrimariesEnabled &&
      (0 <? default 0 (DefaultReplicationFactors conf !! virtualStorage)) in
    _ ← on_store "create repository" (fun e => bool_decide (e = RepositoryExistsError))
          (rs_CreateRepository repositoryID virtualStorage path primary updatedSecondaries
             outdatedSecondaries repositorySpecificPrimariesEnabled variableReplicationFactorEnabled);
    mret UpdateRepo
  | _ => mret change
  end.

Definition newRequestFinalizer (repositoryID : Z) (virtualStorage path primary : string)
    (updatedSecondaries outdatedSecondaries : list string) (change : ChangeType)
    (params : option Params) : M W CErr unit :=
  change ← recordChange repositoryID virtualStorage path primary updatedSecondaries
             outdatedSecondaries change params;
  enqueueAll None (schedule
    (replicationEvent repositoryID change path virtualStorage primary params correlationID
       <$> outdatedSecondaries)).

Context {E : Type} `{EqDecision E} {RN : MapRange string Voter}.

Definition createTransactionFinalizer (a : nat) (route : RepositoryMutatorRoute)
    (virtualStorage path : string) (change : ChangeType) (params : option Params)
    (errs : gmap string E) : M W CErr unit :=
  w ← get;
  match heap (w_mgr w) !! a with
  | None => panic
  | Some t =>
    let v := getUpdatedAndOutdatedSecondaries route t errs in
    _ ← modify (countReplications v);
    if primaryDirtied v then
      newRequestFinalizer (Router.RepositoryID route) virtualStorage path (RN_Storage (Primary route))
        (updated v) (outdated v) change params
    else mret tt
  end.

Inductive Finalizer : Type :=
| TransactionCleanup (a : nat)
| TransactionFinalizer (a : nat) (route : RepositoryMutatorRoute) (virtualStorage path : string)
    (change : ChangeType) (params : option Params)
| RequestFinalizer (repositoryID : Z) (virtualStorage path primary : string)
    (updatedSecondaries outdatedSecondaries : list string) (change : ChangeType)
    (params : option Params).

Definition runFinalizer (errs : gmap string E) (f : Finalizer) : M W CErr unit :=
  match f with
  | TransactionCleanup a => on_mgr (cancelTransaction a)
  | TransactionFinalizer a route vs path change params =>
    createTransactionFinalizer a route vs path change params errs
  | RequestFinalizer id vs path primary updated outdated change params =>
    newRequestFinalizer id vs path primary updated outdated change params
  end.

(** Runs all finalizers and returns the first error. *)
Fixpoint reqFinalizer (errs : gmap string E) (firstErr : option CErr) (fs : list Finalizer)
    : M W CErr unit :=
  match fs with
  | [] => match firstErr with None => mret tt | Some e => fail e end
  | f :: fs => fun w =>
    match runFinalizer errs f w with
    | (Panic, w) => (Panic, w)
    | (Ok _, w) => reqFinalizer errs firstErr fs w
    | (Err e, w) => reqFinalizer errs (Some (default e firstErr)) fs w
    end
  end.

End Finalize.

(** ** Directing a stream *)

Inductive errHandler : Type :=
| NoHandler
| PrimaryHandler (node : string)
| SecondaryHandler (node : string).

(** What a handler makes of an error, and how it records it. *)
Definition handleError {E} (h : errHandler) (err : E) (errs : gmap string E)
    : option E * gmap string E :=
  match h with
  | NoHandler => (Some err, errs)
  | PrimaryHandler node => (Some err, <[node := err]> errs)
  | SecondaryHandler node => (None, <[node := err]> errs)
  end.

(** The reference transaction info a destination's context carries. *)
Record TxInfo : Type := mkTxInfo {
  ti_ID : Z;
  ti_Node : string;
  ti_Primary : bool;
}.

Record Destination : Type := mkDestination {
  Dest_Tx : option TxInfo;
  Conn : option nat;
  Msg : bytes;
  ErrHandler : errHandler;
}.

Record StreamParameters : Type := mkSP {
  sp_primary : Destination;
  sp_secondaries : list Destination;
  sp_finalizers : list Finalizer;
}.

Definition with_target (r : Repository) (m : message) : message :=
  mkMsg (body m) (Some r) (msgAdditional m) (msgStorage m).

Definition with_additional (r : Repository) (m : message) : message :=
  mkMsg (body m) (msgTarget m) (Some (Some r)) (msgStorage m).

Definition set_storage (storage : string) (r : Repository) : Repository :=
  mkRepo storage (RepoRelativePath r).

Section Direct.
Context {Q S R : Type} `{!ReplicationEventQueue Q} `{!RepositoryStore S} `{!Router R}.
Context (conf : Config) (router : R).
(** The wire encoding of a message; it can fail. *)
Context (Marshal : message -> option bytes).
Abbreviation W := (world Q S).

Definition ErrTargetRepoMissing : PErr := External "target repo is missing".

(** Both functions rewrite the message in place: the result holds the encoded
    and the rewritten message. *)
Definition rewrittenRepositoryMessage (m : message) (storage : string) : out CErr (bytes * message) :=
  match msgTarget m with
  | None => Err (InvalidArgument (FromRouter ErrTargetRepoMissing))
  | Some target =>
    let m := with_target (set_storage storage target) m in
    m ← match msgAdditional m with
        | None => Ok m
        | Some None => Err (InvalidArgument (FromRouter ErrTargetRepoMissing))
        | Some (Some repo) => Ok (with_additional (set_storage storage repo) m)
        end;
    match Marshal m with None => Err ErrMarshalMessage | Some b => Ok (b, m) end
  end.

Definition rewrittenStorageMessage (m : message) (storage : string) : out CErr (bytes * message) :=
  match msgStorage m with
  | None => Err (InvalidArgument (FromRouter (External "set storage")))
  | Some _ =>
    let m := mkMsg (body m) (msgTarget m) (msgAdditional m) (Some storage) in
    match Marshal m with None => Err ErrMarshalMessage | Some b => Ok (b, m) end
  end.

Definition of_out {A} (o : out CErr A) : M W CErr A := fun w => (o, w).

Definition accessorStreamParameters (header : option (list string)) (method : string) (m : message)
    (target : Repository) : M W CErr StreamParameters :=
  node ← wrap_err (Context "accessor call: route repository accessor")
    (of_router (RouteRepositoryAccessor router (StorageName target) (RepoRelativePath target)
       (shouldRouteRepositoryAccessorToPrimary header method)));
  b ← wrap_err (Context "accessor call: rewrite storage")
    (of_out (rewrittenRepositoryMessage m (RN_Storage node)));
  mret (mkSP (mkDestination None (RN_Connection node) b.1 NoHandler) [] []).

(** The destinations of the secondaries of a transaction. *)
Fixpoint secondaryDests (id : Z) (m : message) (secondaries : list RouterNode)
    : out CErr (list Destination) :=
  match secondaries with
  | [] => Ok []
  | secondary :: secondaries =>
    b ← rewrittenRepositoryMessage m (RN_Storage secondary);
    rest ← secondaryDests id b.2 secondaries;
    Ok (mkDestination (Some (mkTxInfo id (RN_Storage secondary) false)) (RN_Connection secondary)
          b.1 (SecondaryHandler (RN_Storage secondary)) :: rest)
  end.

Definition mutatorStreamParameters (method : string) (m : message) (target : Repository)
    : M W CErr StreamParameters :=
  let virtualStorage := StorageName target in
  let path := RepoRelativePath target in
  details ← wrap_err (Context "mutator call: replication details")
    (of_router (getReplicationDetails method (body m)));
  let (change, params) := (details : ChangeType * option Params) in
  route ← (match change with
    | CreateRepo => wrap_err (Context "route repository creation")
        (of_router (RouteRepositoryCreation router virtualStorage path))
    | _ => wrap_err (fun e =>
        match e with
        | FromRouter p => if errors_Is p ErrRepositoryReadOnly then e
                          else Context "mutator call: route repository mutator" e
        | _ => Context "mutator call: route repository mutator" e
        end) (of_router (RouteRepositoryMutator router virtualStorage path))
    end);
  primaryMessage ← wrap_err (Context "mutator call: rewrite storage")
    (of_out (rewrittenRepositoryMessage m (RN_Storage (Primary route))));
  if shouldUseTransaction method then
    a ← on_mgr (registerTransaction (Primary route) (Secondaries route));
    w ← get;
    match heap (w_mgr w) !! a with
    | None => panic
    | Some t =>
      dests ← of_out (secondaryDests (tx_id t) primaryMessage.2 (Secondaries route));
      mret (mkSP
        (mkDestination (Some (mkTxInfo (tx_id t) (RN_Storage (Primary route)) true))
           (RN_Connection (Primary route)) primaryMessage.1
           (PrimaryHandler (RN_Storage (Primary route))))
        dests
        [TransactionCleanup a; TransactionFinalizer a route virtualStorage path change params])
    end
  else
    mret (mkSP
      (mkDestination None (RN_Connection (Primary route)) primaryMessage.1 NoHandler) []
      [RequestFinalizer (Router.RepositoryID route) virtualStorage path (RN_Storage (Primary route)) []
         (routerNodesToStorages (Secondaries route) ++ ReplicationTargets route) change params]).

(** The artificial record of a repository that tests have put on disk. *)
Definition forceCreate (target : Repository) : M W CErr unit := fun w =>
  match rs_ReserveRepositoryID (StorageName target) (RepoRelativePath target) (w_store w) with
  | (Panic, s) => (Panic, mkWorld (w_mgr w) (w_queue w) s (txReplicationCountMetric w))
  | (Err e, s) =>
    (if decide (e = StoreAlreadyExists) then Ok tt else Err (FromStore "" e),
     mkWorld (w_mgr w) (w_queue w) s (txReplicationCountMetric w))
  | (Ok id, s) =>
    on_store "" (fun e => bool_decide (e = RepositoryExistsError))
      (rs_CreateRepository id (StorageName target) (RepoRelativePath target) (StorageName target) [] []
         true true)
      (mkWorld (w_mgr w) (w_queue w) s (txReplicationCountMetric w))
  end.

(** Whether a chain of errors contains a given router error. *)
Fixpoint routerCause (P : PErr -> bool) (e : CErr) : bool :=
  match e with
  | FromRouter e => P e
  | Context _ e | InvalidArgument e | NotFound e | AlreadyExists e | Internal e => routerCause P e
  | _ => false
  end.

Definition directRepositoryScopedMessage (header : option (list string)) (method : string)
    (mi : MethodInfo) (m : message) (target : Repository) : M W CErr StreamParameters :=
  _ ← (if ForceCreateRepositories conf then forceCreate target else mret tt);
  wrap_err (fun e => if routerCause isRepositoryNotFound e then NotFound e else e)
    (match Operation mi with
     | OpAccessor => accessorStreamParameters header method m target
     | OpMutator => mutatorStreamParameters method m target
     | OpUnknown => fail ErrUnknownOperation
     end).

Definition accessorStorageStreamParameters (m : message) (virtualStorage : string)
    : M W CErr StreamParameters :=
  node ← wrap_err (fun e => if routerCause (fun p => errors_Is p ErrVirtualStorageNotExist) e
                            then InvalidArgument e else Internal e)
    (of_router (RouteStorageAccessor router virtualStorage));
  b ← wrap_err InvalidArgument (of_out (rewrittenStorageMessage m (RN_Storage node)));
  mret (mkSP (mkDestination None (RN_Connection node) b.1 NoHandler) [] []).

Fixpoint storageDests (m : message) (secondaries : list RouterNode) : out CErr (list Destination) :=
  match secondaries with
  | [] => Ok []
  | secondary :: secondaries =>
    match rewrittenStorageMessage m (RN_Storage secondary) with
    | Ok (b, m) =>
      rest ← storageDests m secondaries;
      Ok (mkDestination None (RN_Connection secondary) b NoHandler :: rest)
    | Err e => Err (InvalidArgument e)
    | Panic => Panic
    end
  end.

Definition mutatorStorageStreamParameters (m : message) (virtualStorage : string)
    : M W CErr StreamParameters :=
  route ← wrap_err (fun e => if routerCause (fun p => errors_Is p ErrVirtualStorageNotExist) e
                             then InvalidArgument e else Internal e)
    (of_router (RouteStorageMutator router virtualStorage));
  b ← wrap_err InvalidArgument (of_out (rewrittenStorageMessage m (RN_Storage (SMR_Primary route))));
  dests ← of_out (storageDests b.2 (SMR_Secondaries route));
  mret (mkSP (mkDestination None (RN_Connection (SMR_Primary route)) b.1 NoHandler) dests []).

Definition directStorageScopedMessage (mi : MethodInfo) (m : message) : M W CErr StreamParameters :=
  match msgStorage m with
  | None => fail (InvalidArgument (FromRouter (External "storage")))
  | Some virtualStorage =>
    if decide (virtualStorage = "") then
      fail (InvalidArgument (FromRouter (External "storage scoped: target storage is invalid")))
    else match Operation mi with
    | OpAccessor => accessorStorageStreamParameters m virtualStorage
    | OpMutator => mutatorStorageStreamParameters m virtualStorage
    | OpUnknown => fail ErrUnknownOperation
    end
  end.

Definition validateTargetRepo (repo : Repository) : out CErr unit :=
  if decide (StorageName repo = "" \/ RepoRelativePath repo = "") then Err (FromRouter ErrInvalidRepository)
  else if decide (StorageNames conf !! StorageName repo = None) then Err (FromRouter ErrInvalidRepository)
  else Ok tt.

(** [lookup] is the method registry, [payload] the decoded first message of the
    stream ([None]: peeking or decoding failed). *)
Definition StreamDirector (lookup : string -> option MethodInfo) (header : option (list string))
    (method : string) (payload : option message) : M W CErr StreamParameters :=
  match lookup method with
  | None => fail ErrLookupMethod
  | Some mi =>
    match payload with
    | None => fail ErrPeek
    | Some m =>
      match MScope mi with
      | ScopeRepository =>
        match msgTarget m with
        | None => fail (InvalidArgument (Context "repo scoped" (FromRouter ErrTargetRepoMissing)))
        | Some target =>
          _ ← wrap_err (fun e => InvalidArgument (Context "repo scoped" e))
                (of_out (validateTargetRepo target));
          wrap_err (fun e =>
            if routerCause (fun p => errors_Is p ErrVirtualStorageNotExist) e then InvalidArgument e
            else if routerCause (fun p => errors_Is p ErrRepositoryAlreadyExists) e then AlreadyExists e
            else e)
            (directRepositoryScopedMessage header method mi m target)
        end
      | ScopeStorage => directStorageScopedMessage mi m
      | ScopeUnknown => fail (Internal ErrUnknownScope)
      end
    end
  end.

End Direct.
