(* ===== verification/Replication.v ===== *)
(** What the coordinator guarantees to the replicas of a repository: the voting
    strategy never commits without the primary, the judgement after a transaction
    puts every replica into exactly one class, an up-to-date replica did what the
    primary did, and every other one gets a replication job. *)

From S2P Require Import Prelude Voting Subtransaction Quorum Transaction TxSystem.
From S2P Require Import Datastore PgQueue MemoryQueue PConfig Router Methods RepoStore Coordinator.

(** ** The voting strategy *)

Lemma sumVotes_cons w l : sumVotes (w :: l) = Votes w + sumVotes l.
Proof. done. Qed.

Lemma sumVotes_ones (l : list RouterNode) :
  sumVotes ((fun s => mkVoter (RN_Storage s) 1 None VoteUndecided) <$> l) = Z.of_nat (length l).
Proof. induction l as [|n l IH]; [done|]. rewrite fmap_cons, sumVotes_cons, IH. simpl. lia. Qed.

Lemma filter_ones (agree : string -> bool) (l : list RouterNode) :
  filter (fun w => agree (Name w) = true) ((fun s => mkVoter (RN_Storage s) 1 None VoteUndecided) <$> l)
  = (fun s => mkVoter (RN_Storage s) 1 None VoteUndecided) <$> filter (fun n => agree (RN_Storage n) = true) l.
Proof.
  induction l as [|n l IH]; [done|]. rewrite fmap_cons, !filter_cons, IH. simpl. by case_decide.
Qed.

Section Strategy.
Context (p : RouterNode) (ss : list RouterNode).
Context (Hlen : Z.of_nat (length ss) < 2 ^ 61).

Lemma transactionVoters_eq : transactionVoters p ss =
  mkVoter (RN_Storage p) (Z.of_nat (length ss) + 1) None VoteUndecided ::
  ((fun s => mkVoter (RN_Storage s) 1 None VoteUndecided) <$> ss).
Proof using Hlen. unfold transactionVoters. rewrite !u64_small; [done|lia|]. rewrite u64_small; lia. Qed.

Lemma transactionThreshold_eq : transactionThreshold ss =
  Z.of_nat (length ss) + 1 + (if 1 <? Z.of_nat (length ss) then (Z.of_nat (length ss) + 1) / 2 else 0).
Proof using Hlen.
  unfold transactionThreshold. rewrite (u64_small (Z.of_nat (length ss))) by lia.
  rewrite (u64_small (Z.of_nat (length ss) + 1)) by lia.
  assert (0 <= (Z.of_nat (length ss) + 1) / 2 <= Z.of_nat (length ss) + 1).
  { split; [apply Z.div_pos; lia|]. apply Z.div_le_upper_bound; lia. }
  zcase; [rewrite u64_small; lia|lia].
Qed.

Lemma strategy_sum : sumVotes (transactionVoters p ss) = 2 * Z.of_nat (length ss) + 1.
Proof using Hlen. rewrite transactionVoters_eq, sumVotes_cons, sumVotes_ones. simpl. lia. Qed.

Lemma strategy_bounds :
  transactionThreshold ss <= sumVotes (transactionVoters p ss) < 2 * transactionThreshold ss /\
  0 < transactionThreshold ss < 2 ^ 63.
Proof using Hlen.
  rewrite strategy_sum, transactionThreshold_eq. zcase; [|lia].
  pose proof (Z.div_mod (Z.of_nat (length ss) + 1) 2). pose proof (Z.mod_pos_bound (Z.of_nat (length ss) + 1) 2). lia.
Qed.

Lemma strategy_registrable : registrable (transactionVoters p ss) (transactionThreshold ss).
Proof using Hlen.
  destruct strategy_bounds as [Hb1 Hb2]. rewrite strategy_sum in Hb1. split_and!; [|rewrite strategy_sum; lia|lia..].
  rewrite transactionVoters_eq. intros w [->|(n & -> & _)%list_elem_of_fmap]%elem_of_cons; simpl; split_and!; lia || done.
Qed.

Lemma strategy_names : Name <$> transactionVoters p ss = RN_Storage p :: (RN_Storage <$> ss).
Proof. unfold transactionVoters. simpl. f_equal. by rewrite <- list_fmap_compose. Qed.

End Strategy.

(** The voting strategy: for distinct storages the registration is valid, and a
    set of nodes reaches the threshold exactly when the primary is in it together
    with, if there are several secondaries, at least half of them. *)
Theorem voting_strategy id p ss :
  Z.of_nat (length ss) < 2 ^ 61 -> NoDup (RN_Storage p :: (RN_Storage <$> ss)) ->
  newTransaction id (transactionVoters p ss) (transactionThreshold ss) =
    Ok (mkTx id (transactionThreshold ss) (transactionVoters p ss) transactionOpen []) /\
  forall agree : string -> bool,
    transactionThreshold ss <= sumVotes (filter (fun w => agree (Name w) = true) (transactionVoters p ss)) <->
    agree (RN_Storage p) = true /\
    ((length ss <= 1)%nat \/
     (length ss <= 2 * length (filter (fun n => agree (RN_Storage n) = true) ss))%nat).
Proof.
  intros Hlen Hnd. destruct (strategy_bounds p ss Hlen) as [Hb1 Hb2]. split.
  - destruct (strategy_registrable p ss Hlen) as (Hw & Hlt & Hthr).
    unfold newTransaction. rewrite decide_False by done.
    rewrite (countVotes_total ∅ 0 (transactionVoters p ss));
      [|by rewrite strategy_names|intros; apply not_elem_of_empty|intros w Hin; by apply Hw|lia|lia].
    unfold mbind, out_bind. rewrite Z.add_0_l, (u64_small (transactionThreshold ss * 2)) by lia. zcase; done || lia.
  - intros agree. rewrite transactionVoters_eq, transactionThreshold_eq by done.
    rewrite filter_cons, filter_ones.
    assert (Hle := length_filter (fun n => agree (RN_Storage n) = true) ss).
    pose proof (Z.div_mod (Z.of_nat (length ss) + 1) 2).
    pose proof (Z.mod_pos_bound (Z.of_nat (length ss) + 1) 2).
    case_decide as Ha; simpl in Ha; rewrite ?sumVotes_cons, sumVotes_ones; simpl; zcase; split; intros; try naive_solver lia; lia.
Qed.

(** ** Judging the replicas *)

Lemma State_lookup {RN : MapRange string Voter} t sub n :
  last (subtransactions t) = Some sub -> State t !! n = result <$> votersByNode sub !! n.
Proof.
  intros Hl. unfold State. rewrite Hl.
  unfold state. rewrite (foldl_insert_build result (votersByNode sub)) by apply range_perm.
  rewrite (foldl_insert_build id (result <$> votersByNode sub)) by done.
  by rewrite map_fmap_id, lookup_fmap.
Qed.

Section JudgeProofs.
Context {E : Type} `{EqDecision E} {RN : MapRange string Voter}.
Implicit Types (errs : gmap string E) (route : RepositoryMutatorRoute).

Lemma markOutdated_proj reason nodes v :
  primaryDirtied (markOutdated reason nodes v) = primaryDirtied v /\
  updated (markOutdated reason nodes v) = updated v /\
  outdated (markOutdated reason nodes v) = outdated v ++ nodes.
Proof.
  unfold markOutdated. case_decide as Hn; [|done]. subst nodes. by rewrite app_nil_r.
Qed.

(** When a secondary counts as up to date. *)
Definition judged_updated errs (primaryErr : option E) (states : gmap string VoteResult) (s : string) : Prop :=
  errs !! s = primaryErr /\ default VoteUndecided (states !! s) = VoteCommitted.

#[local] Instance judged_updated_dec errs pe states s : Decision (judged_updated errs pe states s).
Proof. apply and_dec; apply _. Defined.

Lemma judge_fold errs pe states ss v :
  let v' := foldl (judgeSecondary errs pe states) v ss in
  primaryDirtied v' = primaryDirtied v /\
  updated v' = updated v ++ filter (judged_updated errs pe states) (RN_Storage <$> ss) /\
  outdated v' = outdated v ++ filter (fun s => ~ judged_updated errs pe states s) (RN_Storage <$> ss).
Proof.
  revert v. induction ss as [|n ss IH]; intros v; simpl; [by rewrite !app_nil_r|].
  destruct (IH (judgeSecondary errs pe states v n)) as (-> & -> & ->). clear IH.
  rewrite !filter_cons. unfold judgeSecondary, judged_updated.
  destruct (decide (errs !! RN_Storage n ≠ pe)) as [He|He].
  { destruct (markOutdated_proj "node-error-status" [RN_Storage n] v) as (-> & -> & ->).
    rewrite (decide_False (P := _ /\ _)), (decide_True (P := ~ _)) by tauto. by rewrite <- app_assoc. }
  destruct (decide (default VoteUndecided (states !! RN_Storage n) ≠ VoteCommitted)) as [Hc|Hc].
  { destruct (markOutdated_proj "node-not-committed" [RN_Storage n] v) as (-> & -> & ->).
    rewrite (decide_False (P := _ /\ _)), (decide_True (P := ~ _)) by tauto. by rewrite <- app_assoc. }
  apply dec_stable in He, Hc.
  rewrite (decide_True (P := _ /\ _)), (decide_False (P := ~ _)) by tauto. simpl. by rewrite <- app_assoc.
Qed.

(** After a transaction that may have changed the primary, every secondary and
    every replication target is judged exactly once, either up to date or
    outdated; replication targets are always outdated. *)
Lemma judgement_cases route t errs :
  let v := getUpdatedAndOutdatedSecondaries route t errs in
  if primaryDirtied v then
    updated v ++ outdated v ≡ₚ (RN_Storage <$> Secondaries route) ++ ReplicationTargets route /\
    ReplicationTargets route `prefix_of` outdated v
  else updated v = [] /\ outdated v = [].
Proof.
  simpl. unfold getUpdatedAndOutdatedSecondaries. case_decide; [done|]. case_decide; [done|].
  set (v0 := markOutdated "outdated" _ _).
  destruct (markOutdated_proj "outdated" (ReplicationTargets route) (mkVerdict true [] [] ∅)) as (Hd & Hu & Ho).
  fold v0 in Hd, Hu, Ho. simpl in Hd, Hu, Ho.
  assert (Hall : forall reason, let v := markOutdated reason (routerNodesToStorages (Secondaries route)) v0 in
    if primaryDirtied v then
      updated v ++ outdated v ≡ₚ (RN_Storage <$> Secondaries route) ++ ReplicationTargets route /\
      ReplicationTargets route `prefix_of` outdated v
    else updated v = [] /\ outdated v = []).
  { intros reason. cbv zeta. destruct (markOutdated_proj reason (routerNodesToStorages (Secondaries route)) v0)
      as (-> & -> & ->). rewrite Hd, Hu, Ho. simpl. split; [apply Permutation_app_comm|by eexists]. }
  case_decide; [apply Hall|]. case_decide; [apply Hall|].
  destruct (judge_fold errs (errs !! RN_Storage (Primary route)) (State t) (Secondaries route) v0) as (-> & -> & ->).
  rewrite Hd, Hu, Ho. simpl. split; [|by eexists].
  rewrite (Permutation_app_comm (ReplicationTargets route)), app_assoc. f_equiv. apply filter_app_complement.
Qed.

(** Every replica judged up to date has committed the last subtransaction, as
    the primary has, and returned the same error. *)
Lemma updated_committed route t errs s :
  s ∈ updated (getUpdatedAndOutdatedSecondaries route t errs) ->
  s ∈ RN_Storage <$> Secondaries route /\ errs !! s = errs !! RN_Storage (Primary route) /\
  exists sub, last (subtransactions t) = Some sub /\
    committed_in sub (RN_Storage (Primary route)) /\ committed_in sub s.
Proof.
  unfold getUpdatedAndOutdatedSecondaries. intros Hs.
  case_decide; [by apply elem_of_nil in Hs|]. case_decide; [by apply elem_of_nil in Hs|].
  revert Hs. set (v0 := markOutdated "outdated" _ _).
  assert (Hu : updated v0 = []) by apply markOutdated_proj.
  destruct (decide (CountSubtransactions t = 0)) as [|Hn].
  { destruct (markOutdated_proj "no-votes" (routerNodesToStorages (Secondaries route)) v0) as (_ & -> & _).
    rewrite Hu. by intros ?%elem_of_nil. }
  case_decide as Hp.
  { destruct (markOutdated_proj "primary-not-committed" (routerNodesToStorages (Secondaries route)) v0) as (_ & -> & _).
    rewrite Hu. by intros ?%elem_of_nil. }
  destruct (judge_fold errs (errs !! RN_Storage (Primary route)) (State t) (Secondaries route) v0) as (_ & -> & _).
  rewrite Hu. simpl. rewrite list_elem_of_filter. intros [[He Hc] Hs]. split_and!; [done..|].
  destruct (last (subtransactions t)) as [sub|] eqn:Hl.
  2: { apply last_None in Hl. destruct Hn. unfold CountSubtransactions. by rewrite Hl. }
  exists sub. split; [done|]. rewrite (State_lookup t sub _ Hl) in Hp. rewrite (State_lookup t sub _ Hl) in Hc.
  unfold committed_in. split.
  - destruct (votersByNode sub !! RN_Storage (Primary route)) as [w|]; [|done]. by exists w.
  - destruct (votersByNode sub !! s) as [w|]; [|done]. by exists w.
Qed.

(** A replica judged up to date after a transaction has, in every
    subtransaction, cast the very vote the primary cast, and has returned the same
    error as the primary: it has done what the primary has done. *)
Lemma updated_replica_agrees s a t route errs storage i sub :
  reachable s -> heap (s_mgr s) !! a = Some t ->
  storage ∈ updated (getUpdatedAndOutdatedSecondaries route t errs) ->
  subtransactions t !! i = Some sub ->
  errs !! storage = errs !! RN_Storage (Primary route) /\
  exists v, getVote sub (RN_Storage (Primary route)) = Ok (Some v) /\ getVote sub storage = Ok (Some v).
Proof.
  intros Hr Ha Hs Hi. destruct (updated_committed route t errs storage Hs) as (_ & He & l & Hl & Hp & Hc).
  split; [done|]. by apply (committed_last_same_votes s a t i sub l).
Qed.

End JudgeProofs.

(** ** Nothing commits without the primary *)

Lemma sub_step_total t t' : sub_step t t' -> total (votersByNode t') = total (votersByNode t).
Proof.
  intros (_ & _ & Hm). apply Z.le_antisymm; unfold total; apply msum_rel_le; intros n; specialize (Hm n);
    destruct Hm as [w w' (_ & Hv & _)|]; constructor; lia.
Qed.

Lemma no_commit_without_primary t p ss i sub n :
  tx_inv t -> Z.of_nat (length ss) < 2 ^ 61 ->
  tx_voters t = transactionVoters p ss -> tx_threshold t = transactionThreshold ss ->
  subtransactions t !! i = Some sub -> recorded sub (RN_Storage p) = None ->
  ~ committed_in sub n.
Proof.
  intros Hinv Hlen Hv Ht Hi Hrec (w & Hw & Hr).
  destruct (ti_sub t Hinv i sub Hi) as [Hsi Hst].
  destruct (inv_committed sub Hsi n w Hw Hr) as (_ & v & _ & Hq).
  pose proof (inv_count_upper sub Hsi v) as Hup.
  pose proof (sub_step_total _ _ Hst) as Htot. rewrite (newSubtransaction_total _ _ (ti_fresh t Hinv)) in Htot.
  assert (Hin : exists wp, votersByNode sub !! RN_Storage p = Some wp /\ Votes wp = Z.of_nat (length ss) + 1).
  { destruct (sub_step_lookup_l _ _ (RN_Storage p)
      (mkVoter (RN_Storage p) (Z.of_nat (length ss) + 1) None VoteUndecided) Hst) as (wp & Hwp & (_ & Hvp & _)).
    - apply (newSubtransaction_lookup _ _ (ti_fresh t Hinv)). split; [|done].
      rewrite Hv, transactionVoters_eq by done. by left.
    - by exists wp. }
  destruct Hin as (wp & Hwp & Hvp). unfold recorded in Hrec. rewrite Hwp in Hrec. simpl in Hrec.
  rewrite (msum_delete _ _ _ wp Hwp), castWeight_none in Hup by done.
  unfold total in Htot. rewrite (msum_delete _ _ _ wp Hwp) in Htot.
  assert (Hle : msum (castWeight v) (delete (RN_Storage p) (votersByNode sub)) <=
    msum Votes (delete (RN_Storage p) (votersByNode sub))).
  { apply msum_le. intros k x Hk. apply lookup_delete_Some in Hk as [_ Hk]. by apply (castWeight_le sub Hsi v k). }
  destruct Hst as (Hth & _). simpl in Hth. rewrite Hth, Ht in Hq.
  rewrite Hv, strategy_sum in Htot by done. rewrite transactionThreshold_eq in Hq by done.
  assert (0 <= (if 1 <? Z.of_nat (length ss) then (Z.of_nat (length ss) + 1) / 2 else 0)).
  { zcase; [|lia]. apply Z.div_pos; lia. }
  lia.
Qed.

(** If the judgement after a transaction is that the primary has not been
    changed, then no node has committed any subtransaction: skipping the store
    update and the replication jobs loses nothing. *)
Lemma clean_primary_nothing_committed {E} `{EqDecision E} {RN : MapRange string Voter}
    s a t route (errs : gmap string E) i sub n :
  reachable s -> heap (s_mgr s) !! a = Some t ->
  Z.of_nat (length (Secondaries route)) < 2 ^ 61 ->
  tx_voters t = transactionVoters (Primary route) (Secondaries route) ->
  tx_threshold t = transactionThreshold (Secondaries route) ->
  primaryDirtied (getUpdatedAndOutdatedSecondaries route t errs) = false ->
  subtransactions t !! i = Some sub -> getResult sub n ≠ Ok VoteCommitted.
Proof.
  intros Hr Ha Hlen Hv Ht Hd Hi Hres.
  pose proof (mi_tx _ (si_mgr s (reachable_inv s Hr)) a t Ha) as Hti.
  assert (Hcom : committed_in sub n).
  { unfold getResult in Hres. destruct (votersByNode sub !! n) as [w|] eqn:Hw; [|done].
    exists w. split; [done|]. congruence. }
  revert Hd. unfold getUpdatedAndOutdatedSecondaries. case_decide as H0.
  { intros _. destruct H0 as [H0 _]. unfold CountSubtransactions in H0. apply lookup_lt_Some in Hi. lia. }
  case_decide as H1.
  { intros _. destruct H1 as [H1 Hvote]. unfold CountSubtransactions in H1.
    pose proof (lookup_lt_Some _ _ _ Hi). assert (i = 0%nat) as -> by lia.
    apply (no_commit_without_primary t (Primary route) (Secondaries route) 0 sub n); try done.
    unfold DidVote in Hvote. destruct (subtransactions t) as [|x l]; [done|]. simplify_eq/=.
    unfold getVote, recorded in *. destruct (votersByNode sub !! _) as [w|]; [|done]. simpl.
    by destruct (vote w). }
  assert (Hdirty : forall v, primaryDirtied v = true -> primaryDirtied v ≠ false) by congruence.
  intros Hd. exfalso. revert Hd. apply Hdirty.
  repeat case_decide; repeat (match goal with |- primaryDirtied (markOutdated ?r ?n ?v) = true =>
    destruct (markOutdated_proj r n v) as (-> & _ & _) end); [done|done|].
  destruct (judge_fold errs (errs !! RN_Storage (Primary route)) (State t) (Secondaries route)
    (markOutdated "outdated" (ReplicationTargets route) (mkVerdict true [] [] ∅))) as (-> & _ & _).
  by destruct (markOutdated_proj "outdated" (ReplicationTargets route) (mkVerdict true [] [] ∅)) as (-> & _ & _).
Qed.

(** ** Queueing replication jobs *)

(** What a replication queue promises to the coordinator. *)
Class EventQueueLaws (Q : Type) `{!ReplicationEventQueue Q} := {
  q_events : Q -> list ReplicationEvent;
  (* the job as the queue hands it out again, and that it is for the same task *)
  q_stored : ReplicationJob -> ReplicationJob;
  stored_task : forall j, exists p, q_stored j = mkJob (Datastore.RepositoryID j) (Change j) (RelativePath j)
    (TargetNodeStorage j) (SourceNodeStorage j) (VirtualStorage j) p;
  enqueue_ok : forall c ev q ev' q', rq_Enqueue c ev q = (Ok ev', q') ->
    Job ev' = q_stored (Job ev) /\ EState ev' = JobStateReady /\ 0 < Attempt ev' /\
    q_events q' ≡ₚ ev' :: q_events q;
  enqueue_no_panic : forall c ev q, is_panic (rq_Enqueue c ev q).1 = false;
}.

(** The in-memory queue keeps the promise; it ignores the context. *)
#[export] Instance memory_queue (ticks : nat -> Z) : ReplicationEventQueue memoryReplicationEventQueue :=
  {| rq_Enqueue _ := Enqueue ticks |}.

#[export] Program Instance memory_queue_laws ticks :
  @EventQueueLaws memoryReplicationEventQueue (memory_queue ticks) :=
  {| q_events := queued; q_stored j := j |}.
Next Obligation. intros _ []. by eexists. Qed.
Next Obligation.
  intros ticks c ev q ev' q' He. unfold rq_Enqueue, memory_queue, Enqueue, nextID, time_Now in He. unfold_M.
  simplify_eq. simpl. split_and!; try done. symmetry. apply Permutation_cons_append.
Qed.
Next Obligation. done. Qed.

(** So does the queue in PostgreSQL, at any time; parameters go through JSON. *)
#[export] Instance pg_queue (now : Z) : ReplicationEventQueue QueueTables :=
  {| rq_Enqueue _ := PgQueue.Enqueue now |}.

#[export] Program Instance pg_queue_laws now : @EventQueueLaws QueueTables (pg_queue now) :=
  {| q_events t := (fun kv => rowEvent kv.1 kv.2) <$> map_to_list (replication_queue t); q_stored := jsonJob |}.
Next Obligation. intros _ j. by eexists. Qed.
Next Obligation.
  intros now c ev q ev' q' He. unfold rq_Enqueue, pg_queue, PgQueue.Enqueue in He. case_decide; [|done]. unfold_M.
  destruct (insertRow _ q) as [[id|e|] q1] eqn:Hi; simplify_eq.
  destruct (insertRow_cases _ _ _ _ Hi) as [(e & ? & _)|(id' & [= <-] & _ & _ & Hnone & _ & ->)]; [done|].
  split_and!; try done. cbn [replication_queue]. by rewrite map_to_list_insert.
Qed.
Next Obligation.
  intros now c ev q. unfold rq_Enqueue, pg_queue, PgQueue.Enqueue. case_decide; [|done]. unfold_M.
  destruct (insertRow _ q) as [[id|e|] q1] eqn:Hi; try done.
  by destruct (insertRow_cases _ _ _ _ Hi) as [(e & ? & _)|(id' & ? & _)].
Qed.

Definition jobChange (c : ChangeType) : ChangeType :=
  match c with CreateRepo => UpdateRepo | c => c end.

Section FinalizeProofs.
Context {Q S : Type} `{!ReplicationEventQueue Q} {QL : EventQueueLaws Q} `{!RepositoryStore S} `{!Schedule}.
Context (conf : Config) (correlationID : string).
Abbreviation W := (world Q S).
Implicit Types (w : W).

(** Events that [jobs] have been queued for. *)
Definition queued_jobs (jobs : list ReplicationJob) (q q' : Q) : Prop :=
  exists evs, Job <$> evs ≡ₚ q_stored <$> jobs /\ q_events q' ≡ₚ evs ++ q_events q /\
    Forall (fun e => EState e = JobStateReady /\ 0 < Attempt e) evs.

Lemma enqueueAll_ok events : forall firstErr w w',
  enqueueAll firstErr events w = (Ok tt, w') ->
  firstErr = None /\ queued_jobs (Job <$> events) (w_queue w) (w_queue w') /\
  w_mgr w' = w_mgr w /\ w_store w' = w_store w.
Proof using QL.
  induction events as [|ev events IH]; intros firstErr w w' Hq0; simpl in Hq0.
  { destruct firstErr; [done|]. unfold_M. simplify_eq. split_and!; try done. by exists []. }
  unfold on_queue in Hq0.
  destruct (rq_Enqueue _ ev (w_queue w)) as [r q1] eqn:He. destruct r as [ev'|e|]; [| |done].
  - destruct (IH _ _ _ Hq0) as (-> & (evs & Hj & Hq & Hf) & Hm & Hs). simpl in *.
    destruct (enqueue_ok _ _ _ _ _ He) as (Hjob & Hst & Hat & Hq1). split_and!; [done| |done|done].
    exists (ev' :: evs). split_and!.
    + rewrite !fmap_cons, Hjob, Hj. done.
    + rewrite Hq, Hq1. simpl. symmetry. apply Permutation_middle.
    + by constructor.
  - by destruct (IH _ _ _ Hq0) as [? _].
Qed.

Lemma recordChange_ok id vs path primary upd outd change params w c w' :
  recordChange conf id vs path primary upd outd change params w = (Ok c, w') ->
  c = jobChange change /\ w_queue w' = w_queue w /\ w_mgr w' = w_mgr w.
Proof.
  unfold recordChange. unfold_M.
  assert (Hs : forall msg ign (m : M S StoreError unit) c0,
    match on_store msg ign m w with
    | (Ok _, s') => (Ok c0, s')
    | (Err e, s') => (Err e, s')
    | (Panic, s') => (Panic, s')
    end = (Ok c, w') -> c = c0 /\ w_queue w' = w_queue w /\ w_mgr w' = w_mgr w).
  { intros msg ign m c0. unfold on_store. destruct (m (w_store w)) as [[[]|e|] s']; [| |done].
    - intros. by simplify_eq.
    - destruct (ign e); intros; by simplify_eq. }
  destruct change; try (intros; by simplify_eq); try (by apply Hs).
  simpl. case_match; [|done]. case_match; try done. apply Hs.
Qed.

Lemma newRequestFinalizer_ok id vs path primary upd outd change params w w' :
  newRequestFinalizer conf correlationID id vs path primary upd outd change params w = (Ok tt, w') ->
  queued_jobs ((fun s => mkJob id (jobChange change) path s primary vs params) <$> outd)
    (w_queue w) (w_queue w') /\ w_mgr w' = w_mgr w.
Proof using QL.
  unfold newRequestFinalizer. unfold mbind, M_bind. intros Hfin.
  destruct (recordChange _ _ _ _ _ _ _ _ _ w) as [[c|e|] w1] eqn:Hr; [|done..].
  destruct (recordChange_ok _ _ _ _ _ _ _ _ _ _ _ Hr) as (-> & Hq & Hm).
  destruct (enqueueAll_ok _ _ _ _ Hfin) as (_ & (evs & Hj & Hev & Hf) & Hm' & _).
  split; [|congruence]. rewrite <- Hq. exists evs. split_and!; [|done|done].
  rewrite Hj, (fmap_Permutation Job _ _ (schedule_perm _)). by rewrite <- !list_fmap_compose.
Qed.

Context {E : Type} `{EqDecision E} {RN : MapRange string Voter}.

(** Running the finalizers of a transactional request: the transaction is
    cancelled, and then judged in the state that leaves. *)
Lemma finalizers_run s a t route vs path change params (errs : gmap string E) w w' :
  reachable s -> w_mgr w = s_mgr s -> heap (s_mgr s) !! a = Some t ->
  reqFinalizer conf correlationID errs None
    [TransactionCleanup a; TransactionFinalizer a route vs path change params] w = (Ok tt, w') ->
  exists s1 t' w1, reachable s1 /\ heap (s_mgr s1) !! a = Some t' /\ w_mgr w1 = s_mgr s1 /\
    tx_voters t' = tx_voters t /\ tx_threshold t' = tx_threshold t /\
    w_queue w1 = w_queue w /\ w_store w1 = w_store w /\
    createTransactionFinalizer conf correlationID a route vs path change params errs w1 = (Ok tt, w').
Proof.
  intros Hr Hw Ha. simpl. unfold on_mgr.
  destruct (cancelTransaction a (w_mgr w)) as [r mgr1] eqn:Hc. rewrite Hw in Hc.
  set (s1 := mkSys mgr1 (s_calls s) (s_panicked s || is_panic r)).
  assert (Hst : rtc step s s1).
  { apply rtc_once. destruct s as [m cs p]. by apply (step_cancel RN m cs p a r). }
  assert (Hr1 : reachable s1) by (unfold reachable; by transitivity s).
  destruct (steps_ok s s1 (reachable_inv s Hr) Hst) as [_ Hh].
  destruct (Hh a t Ha) as (t' & Ht' & (Hv' & Hth' & _)). simpl in Ht'.
  set (w1 := mkWorld mgr1 (w_queue w) (w_store w) (txReplicationCountMetric w)).
  assert (Hcases : forall fe, 
    match createTransactionFinalizer conf correlationID a route vs path change params errs w1 with
    | (Ok _, w2) => reqFinalizer conf correlationID errs fe [] w2
    | (Err e, w2) => reqFinalizer conf correlationID errs (Some (default e fe)) [] w2
    | (Panic, w2) => (Panic, w2)
    end = (Ok tt, w') -> createTransactionFinalizer conf correlationID a route vs path change params errs w1 = (Ok tt, w')).
  { intros fe. destruct (createTransactionFinalizer _ _ _ _ _ _ _ _ _ w1) as [[[]|e|] w2]; simpl; [|done..].
    destruct fe; [done|]. unfold_M. intros. by simplify_eq. }
  intros Hrun. assert (Hfin : createTransactionFinalizer conf correlationID a route vs path change params errs w1 = (Ok tt, w'))
    by (destruct r as [[]|e|]; [by apply (Hcases None)|by apply (Hcases (Some (FromTx e)))|done]).
  by exists s1, t', w1.
Qed.

(** The state of a replica after a transactional request: it did in every
    subtransaction what the primary did, or a job that brings it up to date
    waits in the queue. *)
Definition in_sync (t : transaction) (primary storage : string) : Prop :=
  forall i sub, subtransactions t !! i = Some sub ->
    exists v, getVote sub primary = Ok (Some v) /\ getVote sub storage = Ok (Some v).

Definition scheduled (q q' : Q) (job : ReplicationJob) : Prop :=
  exists ev evs, q_events q' ≡ₚ ev :: evs ++ q_events q /\ Job ev = q_stored job /\
    EState ev = JobStateReady /\ 0 < Attempt ev.

(** C12. When the finalizers of a transactional mutator have run without error, no
    replica is left behind: either no node had committed anything, or each
    secondary and each replication target returned the same error as the primary
    and cast the same vote in every subtransaction, or a ready replication job
    from the primary to it has been queued. *)
Theorem no_replica_left_behind s a t route vs path change params (errs : gmap string E) w w' :
  reachable s -> w_mgr w = s_mgr s -> heap (s_mgr s) !! a = Some t ->
  Z.of_nat (length (Secondaries route)) < 2 ^ 61 ->
  tx_voters t = transactionVoters (Primary route) (Secondaries route) ->
  tx_threshold t = transactionThreshold (Secondaries route) ->
  reqFinalizer conf correlationID errs None
    [TransactionCleanup a; TransactionFinalizer a route vs path change params] w = (Ok tt, w') ->
  exists t', heap (w_mgr w') !! a = Some t' /\
    ((forall i sub n, subtransactions t' !! i = Some sub -> getResult sub n ≠ Ok VoteCommitted) \/
     forall storage, storage ∈ (RN_Storage <$> Secondaries route) ++ ReplicationTargets route ->
       errs !! storage = errs !! RN_Storage (Primary route) /\
       in_sync t' (RN_Storage (Primary route)) storage \/
       scheduled (w_queue w) (w_queue w')
         (mkJob (Router.RepositoryID route) (jobChange change) path storage
            (RN_Storage (Primary route)) vs params)).
Proof using QL.
  intros Hr Hw Ha Hlen Hv Ht Hrun.
  destruct (finalizers_run _ _ _ _ _ _ _ _ _ _ _ Hr Hw Ha Hrun)
    as (s1 & t' & w1 & Hr1 & Ht' & Hm1 & Hv' & Hth' & Hq1 & _ & Hfin).
  unfold createTransactionFinalizer in Hfin. unfold_M. rewrite Hm1, Ht' in Hfin.
  set (v := getUpdatedAndOutdatedSecondaries route t' errs) in *.
  destruct (primaryDirtied v) eqn:Hd.
  - destruct (newRequestFinalizer_ok _ _ _ _ _ _ _ _ _ _ Hfin) as [(evs & Hj & Hev & Hf) Hm]. simpl in *.
    rewrite Hq1 in Hev. exists t'. split; [by rewrite Hm, Hm1|]. right. intros storage Hin.
    pose proof (judgement_cases route t' errs) as Hperm. simpl in Hperm. fold v in Hperm.
    rewrite Hd in Hperm. destruct Hperm as [Hperm _]. rewrite <- Hperm in Hin. apply elem_of_app in Hin as [Hu|Ho].
    + left. split; [by apply (updated_committed route t' errs)|].
      intros i sub Hi. by apply (updated_replica_agrees s1 a t' route errs storage i sub).
    + right. apply (list_elem_of_fmap_2 (fun st => mkJob (Router.RepositoryID route) (jobChange change) path st
        (RN_Storage (Primary route)) vs params)) in Ho.
      apply (list_elem_of_fmap_2 q_stored) in Ho. rewrite <- Hj in Ho.
      apply list_elem_of_fmap in Ho as (ev & Hjob & Hin').
      rewrite Forall_forall in Hf. destruct (Hf ev Hin') as [? ?].
      apply list_elem_of_split in Hin' as (l1 & l2 & ->). exists ev, (l1 ++ l2). split_and!; try done.
      rewrite Hev, <- app_assoc. simpl. rewrite <- Permutation_middle. by rewrite app_assoc.
  - simplify_eq. exists t'. split; [simpl; by rewrite Hm1|]. left. intros i sub n Hi.
    eapply (clean_primary_nothing_committed s1 a t' route errs); eauto; congruence.
Qed.

End FinalizeProofs.

(** ** Reads after a transactional write *)

Section StoreProofs.
Context {Q : Type} `{!ReplicationEventQueue Q} {QL : EventQueueLaws Q} `{!Schedule}.
Context (conf : Config) (correlationID : string).
Context {E : Type} `{EqDecision E} {RN : MapRange string Voter}.
Implicit Types (w : world Q PostgresRepositoryStore).

Lemma newRequestFinalizer_store id vs path p upd outd w w' :
  newRequestFinalizer conf correlationID id vs path p upd outd UpdateRepo None w = (Ok tt, w') ->
  IncrementGeneration vs path p upd (w_store w) = (Ok tt, w_store w').
Proof using QL.
  unfold newRequestFinalizer, recordChange, on_store. unfold mbind, M_bind. simpl. intros Hfin.
  destruct (IncrementGeneration vs path p upd (w_store w)) as [[[]|e|] s'] eqn:Hinc; simpl in Hfin; [|done..].
  unfold mret, M_ret in Hfin. by destruct (enqueueAll_ok _ _ _ _ Hfin) as (_ & _ & _ & ->).
Qed.

(** The storage has a replica record of no repository, ahead of the one at the path. *)
Definition left_behind vs path storage (st : PostgresRepositoryStore) : Prop :=
  exists repo g r, repositories st !! (vs, path) = Some repo /\ generation repo = Some g /\
    storage_repositories st !! (vs, path, storage) = Some r /\ r_repository_id r = None /\ g < r_generation r.


End StoreProofs.

(** ** Directing a transactional mutator *)

Section DirectProofs.
Context {Q S R : Type} `{!ReplicationEventQueue Q} `{!RepositoryStore S} `{!Router R}.
Context (conf : Config) (router : R) (Marshal : message -> option bytes).
Abbreviation W := (world Q S).
Implicit Types (w : W).

(** The message is rewritten in place, once per destination; earlier rewritings
    leave no trace in the later ones. *)
Lemma rewritten_again m s b m1 s' :
  rewrittenRepositoryMessage Marshal m s = Ok (b, m1) ->
  rewrittenRepositoryMessage Marshal m1 s' = rewrittenRepositoryMessage Marshal m s'.
Proof.
  unfold rewrittenRepositoryMessage. destruct m as [bd tgt add st]. simpl.
  destruct tgt as [target|]; [|done]. destruct add as [[repo|]|]; simpl; [|done|];
    destruct (Marshal _) as [b1|]; intros; by simplify_eq.
Qed.

(** The destination of a node of a transaction. *)
Definition dest_for (id : Z) (m : message) (primary : bool) (n : RouterNode) (d : Destination) : Prop :=
  Dest_Tx d = Some (mkTxInfo id (RN_Storage n) primary) /\ Conn d = RN_Connection n /\
  (exists m', rewrittenRepositoryMessage Marshal m (RN_Storage n) = Ok (Msg d, m')) /\
  ErrHandler d = if primary then PrimaryHandler (RN_Storage n) else SecondaryHandler (RN_Storage n).

Lemma secondaryDests_ok id m ss : forall m0 dests,
  (forall s, rewrittenRepositoryMessage Marshal m0 s = rewrittenRepositoryMessage Marshal m s) ->
  secondaryDests Marshal id m0 ss = Ok dests -> Forall2 (dest_for id m false) ss dests.
Proof.
  induction ss as [|n ss IH]; intros m0 dests Hm Hd; simpl in Hd.
  { simplify_eq. constructor. }
  destruct (rewrittenRepositoryMessage Marshal m0 (RN_Storage n)) as [[b m1]| |] eqn:Hb; try done. simpl in Hd.
  destruct (secondaryDests Marshal id m1 ss) as [rest| |] eqn:Hrest; try done. simplify_eq/=.
  constructor.
  - split_and!; try done. rewrite <- Hm. by exists m1.
  - apply (IH m1); [|done]. intros s. by rewrite (rewritten_again m0 _ b m1 s Hb).
Qed.

Lemma registerTransaction_ok p ss mgr a mgr' :
  registerTransaction p ss mgr = (Ok a, mgr') ->
  exists t, heap mgr' !! a = Some t /\ transactions mgr' !! tx_id t = Some a /\
    tx_voters t = transactionVoters p ss /\ tx_threshold t = transactionThreshold ss /\
    subtransactions t = [].
Proof.
  unfold registerTransaction, RegisterTransaction. unfold_M.
  destruct (newTransaction _ _ _) as [t| |] eqn:Ht; [|done..].
  destruct (transactions mgr !! _); [done|]. intros. simplify_eq/=. exists t.
  assert (Heq : tx_id t = u64 (idSequence mgr + 1) /\ tx_voters t = transactionVoters p ss /\
    tx_threshold t = transactionThreshold ss /\ subtransactions t = []).
  { unfold newTransaction in Ht. case_decide; [done|]. destruct (countVotes _ _ _); try done. simpl in Ht.
    repeat (destruct (_ : bool) in Ht; [done|]). revert Ht. repeat case_match; try done. intros. by simplify_eq. }
  destruct Heq as (-> & -> & -> & ->). split_and!; try done.
  - by rewrite lookup_app_r, Nat.sub_diag by lia.
  - apply lookup_insert_eq.
Qed.

(** A transactional mutator is sent to the primary and the secondaries of its
    route, each with a copy of the request addressed to its own storage and with
    the transaction info of the one transaction registered for them; the
    finalizers cancel that transaction and then judge the replicas. *)
Theorem transactional_mutator_directed method m target w sp w' :
  shouldUseTransaction method = true ->
  mutatorStreamParameters router Marshal method m target w = (Ok sp, w') ->
  exists route a t change params,
    (RouteRepositoryMutator router (StorageName target) (RepoRelativePath target) = Ok route \/
     RouteRepositoryCreation router (StorageName target) (RepoRelativePath target) = Ok route) /\
    heap (w_mgr w') !! a = Some t /\ transactions (w_mgr w') !! tx_id t = Some a /\
    tx_voters t = transactionVoters (Primary route) (Secondaries route) /\
    tx_threshold t = transactionThreshold (Secondaries route) /\ subtransactions t = [] /\
    dest_for (tx_id t) m true (Primary route) (sp_primary sp) /\
    Forall2 (dest_for (tx_id t) m false) (Secondaries route) (sp_secondaries sp) /\
    sp_finalizers sp = [TransactionCleanup a;
      TransactionFinalizer a route (StorageName target) (RepoRelativePath target) change params] /\
    w_queue w' = w_queue w /\ w_store w' = w_store w.
Proof.
  intros Htx. unfold mutatorStreamParameters. rewrite Htx. unfold_M.
  unfold of_router at 1. destruct (getReplicationDetails method (body m)) as [[change params]| |]; try done.
  set (routed := match change with CreateRepo => _ | _ => _ end).
  destruct (routed w) as [[route|e|] w1] eqn:Hrt; try done.
  assert (Hroute : w1 = w /\
    (RouteRepositoryMutator router (StorageName target) (RepoRelativePath target) = Ok route \/
     RouteRepositoryCreation router (StorageName target) (RepoRelativePath target) = Ok route)).
  { revert Hrt. unfold routed, of_router.
    destruct change; (destruct (RouteRepositoryCreation _ _ _) as [x1|x1|] eqn:H1;
      destruct (RouteRepositoryMutator _ _ _) as [x2|x2|] eqn:H2); intros; simplify_eq/=; auto. }
  destruct Hroute as [-> Hroute]. unfold of_out.
  destruct (rewrittenRepositoryMessage Marshal m (RN_Storage (Primary route))) as [[b m1]| |] eqn:Hb; try done.
  unfold on_mgr. destruct (registerTransaction _ _ (w_mgr w)) as [[a|e|] mgr'] eqn:Hreg; try done. simpl.
  destruct (registerTransaction_ok _ _ _ _ _ Hreg) as (t & Ha & Hid & Hv & Hth & Hsub). rewrite Ha.
  destruct (secondaryDests Marshal (tx_id t) m1 (Secondaries route)) as [dests| |] eqn:Hd; try done.
  intros. simplify_eq/=. exists route, a, t, change, params. split_and!; try done.
  - split_and!; try done. by exists m1.
  - eapply secondaryDests_ok; [|done]. intros s. by eapply rewritten_again.
Qed.

End DirectProofs.

(** ** Examples *)

#[local] Instance ex_schedule : Schedule := {|
  schedule A l := reverse l;
  schedule_perm A l := reverse_Permutation l;
|}.

#[local] Existing Instance range_nodes.
#[local] Instance ex_mq : ReplicationEventQueue memoryReplicationEventQueue := memory_queue ex_ticks.
#[local] Instance ex_rc : MapRange string nat := default_range string nat.

Definition ex_replicated : RepositoryMutatorRoute := mkRoute 1 (mkRN "a" (Some 1%nat)) [mkRN "b" (Some 2%nat)] ["c"].

Definition ex_repo_store : PostgresRepositoryStore :=
  (RepoStore.CreateRepository 1 "default" "path" "a" ["b"; "c"] [] true true emptyStore).2.

Definition ex_world : world memoryReplicationEventQueue PostgresRepositoryStore :=
  mkWorld (s_mgr ex_sys) ex_empty ex_repo_store ∅.

Definition ex_errs : gmap string nat := ∅.

Lemma voting_strategy_witness :
  newTransaction 1 (transactionVoters (Primary ex_replicated) (Secondaries ex_replicated)) 2 =
    Ok (mkTx 1 2 (transactionVoters (Primary ex_replicated) (Secondaries ex_replicated)) transactionOpen []).
Proof.
  apply (voting_strategy 1 (Primary ex_replicated) (Secondaries ex_replicated)); [done|].
  apply (bool_decide_unpack _). by vm_compute.
Defined.

Definition ex_finalized : out CErr () * world memoryReplicationEventQueue PostgresRepositoryStore :=
  reqFinalizer ex_config "id" ex_errs None
    [TransactionCleanup 0; TransactionFinalizer 0 ex_replicated "default" "path" UpdateRepo None] ex_world.

Lemma no_replica_left_behind_witness :
  ex_finalized.1 = Ok tt /\ exists t', heap (w_mgr ex_finalized.2) !! 0%nat = Some t' /\
    TargetNodeStorage <$> (Job <$> queued (w_queue ex_finalized.2)) = ["b"; "c"].
Proof.
  assert (Ha : heap (s_mgr ex_sys) !! 0%nat = Some (ex_tx (s_mgr ex_sys))) by (apply some_default; by vm_compute).
  assert (Hrun : ex_finalized = (Ok tt, ex_finalized.2)) by (unfold ex_finalized; by run_to).
  split; [by rewrite Hrun|].
  destruct (no_replica_left_behind ex_config "id" ex_sys 0 (ex_tx (s_mgr ex_sys)) ex_replicated "default" "path"
    UpdateRepo None ex_errs ex_world ex_finalized.2 ex_reachable eq_refl Ha)
    as (t' & Ht' & _); [done|by vm_compute|by vm_compute|exact Hrun|].
  exists t'. split; [exact Ht'|]. by vm_compute.
Defined.

Definition ex_msg : message := mkMsg OtherRequest (Some (mkRepo "default" "a")) None None.
Definition ex_marshal (m : message) : option bytes :=
  (fun r => B (StorageName r)) <$> msgTarget m.
Definition ex_directed : out CErr StreamParameters * world memoryReplicationEventQueue PostgresRepositoryStore :=
  mutatorStreamParameters ex_router ex_marshal "/gitaly.RefService/DeleteRefs" ex_msg (mkRepo "default" "a") ex_world.

Definition ex_params : StreamParameters :=
  match ex_directed.1 with
  | Ok sp => sp
  | _ => mkSP (mkDestination None None [] NoHandler) [] []
  end.

Lemma transactional_mutator_directed_witness :
  exists route, RouteRepositoryMutator ex_router "default" "a" = Ok route /\
    (Msg <$> sp_secondaries ex_params) = [B "gitaly-3"].
Proof.
  assert (Hrun : ex_directed = (Ok ex_params, ex_directed.2)) by (unfold ex_directed; by run_to).
  destruct (transactional_mutator_directed ex_router ex_marshal "/gitaly.RefService/DeleteRefs" ex_msg
    (mkRepo "default" "a") ex_world ex_params ex_directed.2 eq_refl Hrun)
    as (route & a & t & change & params & _).
  exists ex_route. split; by vm_compute.
Defined.

Lemma ex_repo_store_inv : store_inv ex_repo_store.
Proof. apply store_run_inv, store_create, store_empty. Qed.

