(* ===== verification/GoStrings.v ===== *)
(** The parts of Go's packages strings and path/filepath that the modelled code of a
    Gitaly node calls, on strings as lists of bytes ([list ascii]). *)

From Stdlib Require Import Strings.Ascii.
From S2P Require Import Prelude.

(** ** Package strings *)

Definition HasPrefix (s prefix : list ascii) : bool := bool_decide (prefix `prefix_of` s).

(** [strings.Split] with a separator of one byte. *)
Fixpoint Split (c : ascii) (s : list ascii) : list (list ascii) :=
  match s with
  | [] => [[]]
  | x :: s' =>
    match decide (x = c), Split c s' with
    | left _, parts => [] :: parts
    | right _, [] => [[x]]
    | right _, part :: parts => (x :: part) :: parts
    end
  end.

(** [strings.Join]. *)
Fixpoint Join (c : ascii) (parts : list (list ascii)) : list ascii :=
  match parts with
  | [] => []
  | [part] => part
  | part :: parts => part ++ c :: Join c parts
  end.

(** [strings.SplitN(s, c, 2)]: what stands before and after the first separator. *)
Fixpoint Cut (c : ascii) (s : list ascii) : list ascii * option (list ascii) :=
  match s with
  | [] => ([], None)
  | x :: s' =>
    if decide (x = c) then ([], Some s')
    else let (before, after) := Cut c s' in (x :: before, after)
  end.

(** [strings.SplitN(s, c, n)] for a positive [n]: at most [n] parts, the last one
    unsplit. *)
Fixpoint SplitN (c : ascii) (s : list ascii) (n : nat) : list (list ascii) :=
  match n with
  | O => []
  | S O => [s]
  | S n =>
    match Cut c s with
    | (before, None) => [before]
    | (before, Some after) => before :: SplitN c after n
    end
  end.

Lemma Split_not_nil c s : Split c s ≠ [].
Proof. destruct s as [|x s]; simpl; [done|]. case_decide; [done|]. by destruct (Split c s). Qed.

Lemma Join_cons c part parts : parts ≠ [] -> Join c (part :: parts) = part ++ c :: Join c parts.
Proof. by destruct parts. Qed.

Lemma Join_Split c s : Join c (Split c s) = s.
Proof.
  induction s as [|x s IH]; [done|]. pose proof (Split_not_nil c s) as Hne. cbn [Split]. case_decide; subst.
  - by rewrite Join_cons, IH.
  - destruct (Split c s) as [|p [|q ps]]; [done|simpl in *; by rewrite IH|].
    rewrite Join_cons by done. rewrite Join_cons in IH by done. cbn [app]. by rewrite IH.
Qed.

Lemma Split_parts c s part : part ∈ Split c s -> c ∉ part.
Proof.
  revert part. induction s as [|x s IH]; intros part; simpl.
  - intros ->%list_elem_of_singleton. apply not_elem_of_nil.
  - case_decide as Hx.
    + intros [->|Hin]%elem_of_cons; [apply not_elem_of_nil|by apply IH].
    + destruct (Split c s) as [|p ps].
      * intros ->%list_elem_of_singleton. apply not_elem_of_cons. split; [congruence|apply not_elem_of_nil].
      * intros [->|Hin]%elem_of_cons; [|apply IH; by right]. apply not_elem_of_cons.
        split; [congruence|]. apply IH. by left.
Qed.

Lemma Split_plain c s : c ∉ s -> Split c s = [s].
Proof.
  induction s as [|x s IH]; intros Hn; [done|]. apply not_elem_of_cons in Hn as [Hx Hn]. simpl.
  rewrite decide_False by congruence. by rewrite IH.
Qed.

Lemma Split_app c s s' : c ∉ s -> Split c (s ++ c :: s') = s :: Split c s'.
Proof.
  induction s as [|x s IH]; intros Hn; simpl; [by rewrite decide_True|].
  apply not_elem_of_cons in Hn as [Hx Hn]. rewrite decide_False by congruence. by rewrite IH.
Qed.

Lemma Split_Join c parts : parts ≠ [] -> (forall part, part ∈ parts -> c ∉ part) -> Split c (Join c parts) = parts.
Proof.
  induction parts as [|p ps IH]; intros Hne Hall; [done|]. destruct ps as [|q ps].
  - apply Split_plain, Hall. by left.
  - rewrite Join_cons, Split_app, IH; [done|done|intros part Hp; apply Hall; by right|apply Hall; by left|done].
Qed.

Lemma HasPrefix_spec s prefix : HasPrefix s prefix = true <-> exists rest, s = prefix ++ rest.
Proof. unfold HasPrefix. rewrite bool_decide_eq_true. done. Qed.

Lemma Cut_spec c s :
  match Cut c s with
  | (before, None) => s = before /\ c ∉ s
  | (before, Some after) => s = before ++ c :: after /\ c ∉ before
  end.
Proof.
  induction s as [|x s IH]; simpl; [split; [done|apply not_elem_of_nil]|]. case_decide as Hx.
  - subst. split; [done|apply not_elem_of_nil].
  - destruct (Cut c s) as [b [a|]]; destruct IH as [-> Hn]; (split; [done|]); apply not_elem_of_cons; (split; [congruence|done]).
Qed.

Lemma Cut_app c before after : c ∉ before -> Cut c (before ++ c :: after) = (before, Some after).
Proof.
  induction before as [|x b IH]; intros Hn; simpl; [by rewrite decide_True|].
  apply not_elem_of_cons in Hn as [Hx Hn]. rewrite decide_False by congruence. by rewrite IH.
Qed.

Lemma Cut_plain c s : c ∉ s -> Cut c s = (s, None).
Proof.
  induction s as [|x s IH]; intros Hn; [done|]. apply not_elem_of_cons in Hn as [Hx Hn]. simpl.
  rewrite decide_False by congruence. by rewrite IH.
Qed.

(** ** Package path/filepath on Unix *)

Definition slash : ascii := "/"%char.
Definition dot : list ascii := text ".".
Definition dotdot : list ascii := text "..".

Definition rooted (path : list ascii) : bool := HasPrefix path [slash].

(** The elements that remain of a path, in reverse: empty elements and dots are
    dropped, two dots drop the element before them; at the root they have no
    effect, at the start of a relative path they stay. *)
Fixpoint cleanParts (isRooted : bool) (acc : list (list ascii)) (parts : list (list ascii)) : list (list ascii) :=
  match parts with
  | [] => acc
  | p :: ps =>
    if decide (p = [] \/ p = dot) then cleanParts isRooted acc ps
    else if decide (p = dotdot) then
      match acc with
      | [] => cleanParts isRooted (if isRooted then [] else [dotdot]) ps
      | q :: acc' => if decide (q = dotdot) then cleanParts isRooted (dotdot :: acc) ps else cleanParts isRooted acc' ps
      end
    else cleanParts isRooted (p :: acc) ps
  end.

Definition elements_of (path : list ascii) : list (list ascii) :=
  reverse (cleanParts (rooted path) [] (Split slash path)).

Definition render (isRooted : bool) (parts : list (list ascii)) : list ascii :=
  if isRooted then slash :: Join slash parts
  else if decide (parts = []) then dot else Join slash parts.

Definition Clean (path : list ascii) : list ascii := render (rooted path) (elements_of path).

(** [filepath.Join] of two elements. *)
Definition JoinPath (a b : list ascii) : list ascii :=
  if decide (a = []) then (if decide (b = []) then [] else Clean b) else Clean (a ++ slash :: b).

(** ** Cleaning *)

Definition plain (p : list ascii) : Prop := p ≠ [] /\ p ≠ dot /\ p ≠ dotdot /\ slash ∉ p.

(** What cleaning gives for a rooted path is a list of plain elements. *)
Lemma cleanParts_plain parts : forall acc,
  Forall plain acc -> (forall p, p ∈ parts -> slash ∉ p) -> Forall plain (cleanParts true acc parts).
Proof.
  induction parts as [|p ps IH]; intros acc Hacc Hall; simpl; [done|].
  assert (Hps : forall q, q ∈ ps -> slash ∉ q) by (intros q Hq; apply Hall; by right).
  case_decide as Hskip; [by apply IH|]. case_decide as Hdd.
  - destruct acc as [|q acc]; [by apply IH|]. apply Forall_cons in Hacc as [Hq Hacc].
    rewrite decide_False by apply Hq. by apply IH.
  - apply IH; [|done]. constructor; [|done]. split_and!; [naive_solver..|]. apply Hall. by left.
Qed.

Lemma cleanParts_app isRooted acc ps qs :
  cleanParts isRooted acc (ps ++ qs) = cleanParts isRooted (cleanParts isRooted acc ps) qs.
Proof.
  revert acc. induction ps as [|p ps IH]; intros acc; simpl; [done|].
  case_decide; [done|]. case_decide; [|done]. destruct acc; [done|]. by case_decide.
Qed.

(** Plain elements are kept. *)
Lemma cleanParts_keep isRooted ps : forall acc,
  Forall plain ps -> cleanParts isRooted acc ps = reverse ps ++ acc.
Proof.
  induction ps as [|p ps IH]; intros acc Hps; [done|]. apply Forall_cons in Hps as [(? & ? & ? & ?) Hps].
  cbn [cleanParts]. rewrite (decide_False (P := p = [] \/ p = dot)) by tauto.
  rewrite (decide_False (P := p = dotdot)) by done. rewrite IH by done. by rewrite reverse_cons, <- app_assoc.
Qed.

Lemma rooted_cons p : rooted (slash :: p) = true.
Proof. apply HasPrefix_spec. by exists p. Qed.

Lemma Split_slash p : Split slash (slash :: p) = [] :: Split slash p.
Proof. cbn [Split]. by case_decide. Qed.

Lemma elements_rooted p : elements_of (slash :: p) = reverse (cleanParts true [] (Split slash p)).
Proof. unfold elements_of. by rewrite rooted_cons, Split_slash. Qed.

Lemma elements_plain p : Forall plain (elements_of (slash :: p)).
Proof.
  rewrite elements_rooted. apply Forall_reverse, cleanParts_plain; [constructor|]. intros q. apply Split_parts.
Qed.

Lemma Join_plain_nil parts : Forall plain parts -> Join slash parts = [] -> parts = [].
Proof.
  destruct parts as [|p [|q ps]]; [done| |].
  - intros [[Hp _] _]%Forall_cons. done.
  - intros [[Hp _] _]%Forall_cons. rewrite Join_cons by done. by destruct p.
Qed.

(** A list of plain elements is what its rendering is made of. *)
Lemma elements_render parts : Forall plain parts -> elements_of (slash :: Join slash parts) = parts.
Proof.
  intros Hp. rewrite elements_rooted. destruct (decide (parts = [])) as [->|Hne]; [done|].
  rewrite Split_Join; [|done|].
  - rewrite cleanParts_keep, app_nil_r by done. apply reverse_involutive.
  - intros q Hq. rewrite Forall_forall in Hp. by apply (Hp q Hq).
Qed.

(** A clean absolute path, other than the root. *)
Record clean_dir (root : list ascii) (parts : list (list ascii)) : Prop := {
  cd_parts : Forall plain parts;
  cd_nonempty : parts ≠ [];
  cd_render : root = slash :: Join slash parts;
}.

Lemma Join_app c ps qs : ps ≠ [] -> qs ≠ [] -> Join c (ps ++ qs) = Join c ps ++ c :: Join c qs.
Proof.
  intros Hp Hq. induction ps as [|p ps IH]; [done|]. destruct ps as [|p' ps].
  - simpl. destruct qs; [done|]. done.
  - change ((p :: p' :: ps) ++ qs) with (p :: ((p' :: ps) ++ qs)).
    rewrite !(Join_cons c p), IH by done. by rewrite <- app_assoc.
Qed.

Lemma Split_Join_app c parts s :
  parts ≠ [] -> (forall part, part ∈ parts -> c ∉ part) -> Split c (Join c parts ++ c :: s) = parts ++ Split c s.
Proof.
  induction parts as [|p ps IH]; intros Hne Hall; [done|]. destruct ps as [|q ps].
  - apply Split_app, Hall. by left.
  - rewrite Join_cons, <- app_assoc by done. cbn [app]. rewrite Split_app by (apply Hall; by left).
    f_equal. apply IH; [done|]. intros part Hp. apply Hall. by right.
Qed.

(** Joining a relative path to a directory. *)
Lemma JoinPath_elements root parts rel :
  clean_dir root parts ->
  JoinPath root rel = slash :: Join slash (reverse (cleanParts true (reverse parts) (Split slash rel))).
Proof.
  intros [Hp Hne ->]. unfold JoinPath. rewrite decide_False by done. unfold Clean. cbn [app].
  rewrite rooted_cons, elements_rooted. unfold render. rewrite Split_Join_app; [|done|].
  - rewrite cleanParts_app, (cleanParts_keep true parts), app_nil_r by done. done.
  - intros q Hq. rewrite Forall_forall in Hp. by apply (Hp q Hq).
Qed.

Lemma join_elements_plain parts rel :
  Forall plain parts -> Forall plain (reverse (cleanParts true (reverse parts) (Split slash rel))).
Proof.
  intros Hp. apply Forall_reverse, cleanParts_plain; [by apply Forall_reverse|]. intros q. apply Split_parts.
Qed.

(** Prefixes of rendered paths are prefixes of their elements. *)
Lemma render_prefix parts qs :
  Forall plain parts -> Forall plain qs -> parts ≠ [] ->
  (slash :: Join slash qs = slash :: Join slash parts \/
   exists rest, slash :: Join slash qs = (slash :: Join slash parts) ++ slash :: rest) <->
  exists rest, qs = parts ++ rest.
Proof.
  intros Hp Hq Hne.
  assert (Hnoslash : forall l, Forall plain l -> forall q, q ∈ l -> slash ∉ q).
  { intros l Hl q Hin. rewrite Forall_forall in Hl. by apply (Hl q Hin). }
  split.
  - intros [[= Heq]|[rest [= Heq]]].
    + exists []. rewrite app_nil_r. destruct (decide (qs = [])) as [->|Hqs].
      { by rewrite (Join_plain_nil parts Hp (eq_sym Heq)). }
      rewrite <- (Split_Join slash qs), Heq, Split_Join; eauto.
    + exists (Split slash rest). destruct (decide (qs = [])) as [->|Hqs]; [by destruct (Join slash parts)|].
      rewrite <- (Split_Join slash qs), Heq, Split_Join_app; eauto.
  - intros [rest ->]. destruct (decide (rest = [])) as [->|Hrest]; [left; by rewrite app_nil_r|right].
    exists (Join slash rest). by rewrite Join_app.
Qed.
