(* ===== verification/Locator.v ===== *)
(** Where repositories live on disk: src/internal/gitaly/storage/locator.go and
    src/internal/gitaly/config/locator.go, with the storages of
    src/internal/gitaly/config/config.go.

    The file system is the parameter [stat]; symbolic links are not followed, as in
    the code. The hexadecimal SHA-1 prefix of a relative path is the parameter
    [hashPrefix]. *)

From Stdlib Require Import Strings.Ascii.
From S2P Require Import Prelude GoStrings.

Inductive StatResult : Type := StatDir | StatFile | StatNotExist | StatError.

Inductive LocatorError : Type :=
| ErrRelativePathEscapesRoot
| ErrRel
| InvalidArgument (what : string)
| NotFound (what : string)
| Internal (what : string).

(** ** Paths *)

(** The elements left of two paths after their common start. *)
Fixpoint stripCommon (base targ : list (list ascii)) : list (list ascii) * list (list ascii) :=
  match base, targ with
  | b :: bs, t :: ts => if decide (b = t) then stripCommon bs ts else (base, targ)
  | _, _ => (base, targ)
  end.

(** [filepath.Rel]. *)
Definition Rel (basepath targpath : list ascii) : out LocatorError (list ascii) :=
  let base := Clean basepath in
  let targ := Clean targpath in
  if decide (targ = base) then Ok dot
  else if decide (rooted base ≠ rooted targ) then Err ErrRel
  else
    let (bs, ts) := stripCommon (elements_of basepath) (elements_of targpath) in
    match bs with
    | b :: _ => if decide (b = dotdot) then Err ErrRel
                else Ok (Join slash (replicate (length bs) dotdot ++ ts))
    | [] => Ok (Join slash ts)
    end.

Definition ValidateRelativePath (rootDir relativePath : list ascii) : out LocatorError (list ascii) :=
  let absPath := JoinPath rootDir relativePath in
  if bool_decide (rootDir ≠ absPath) && negb (HasPrefix absPath (rootDir ++ [slash]))
  then Err ErrRelativePathEscapesRoot
  else Rel rootDir absPath.

(** [filepath.Dir]: everything up to the last slash, cleaned. *)
Fixpoint dropLast (s : list ascii) : list ascii :=
  match s with
  | [] => []
  | c :: s => if decide (c = slash) then c :: s else dropLast s
  end.

Definition Dir (path : list ascii) : list ascii := Clean (reverse (dropLast (reverse path))).

(** ** Configured storages *)

Record Storage : Type := mkStorage {
  Name : string;
  Path : list ascii;
}.

Definition Cfg_Storage (storages : list Storage) (name : string) : option Storage :=
  find (fun s => bool_decide (Name s = name)) storages.

Definition StoragePath (storages : list Storage) (name : string) : option (list ascii) :=
  Path <$> Cfg_Storage storages name.

(** One storage against the ones declared before it: the error, if any. *)
Definition conflicts (storage other : Storage) : option string :=
  if decide (Name other = Name storage) then Some "storage is defined more than once"
  else if decide (Path storage = Path other) then None
  else if HasPrefix (Path storage) (Path other) || HasPrefix (Path other) (Path storage) then
    if decide (Dir (Path storage) = Dir (Path other)) then None else Some "storage paths may not nest"
  else None.

Section Validate.
Context (stat : list ascii -> StatResult).

Definition validateStorage (storage : Storage) (before : list Storage) : option string :=
  if decide (Name storage = "") then Some "empty storage name"
  else if decide (Path storage = []) then Some "empty storage path"
  else match stat (Path storage) with
  | StatNotExist => Some "storage path doesn't exist"
  | StatError => Some "storage"
  | StatFile => Some "storage path is not a dir"
  | StatDir => head (omap (conflicts storage) before)
  end.

(** The loop over the storages; [before] are those already visited. *)
Fixpoint validateLoop (before storages : list Storage) : option string :=
  match storages with
  | [] => None
  | s :: storages =>
    match validateStorage s before with
    | Some e => Some e
    | None => validateLoop (before ++ [s]) storages
    end
  end.

Definition validateStorages (storages : list Storage) : option string :=
  if decide (storages = []) then Some "no storage configurations found" else validateLoop [] storages.

End Validate.

(** ** The locator *)

Record GitRepo : Type := mkRepo {
  GetStorageName : string;
  GetRelativePath : list ascii;
  GetGitObjectDirectory : list ascii;
  GetGitAlternateObjectDirectories : list (list ascii);
}.

Definition tmpRootPrefix : list ascii := text "+gitaly/tmp".
Definition cachePrefix : list ascii := text "+gitaly/cache".
Definition statePrefix : list ascii := text "+gitaly/state".

Section Locator.
Context (storages : list Storage) (stat : list ascii -> StatResult) (hashPrefix : list ascii -> list ascii).

Definition IsGitDirectory (dir : list ascii) : bool :=
  if decide (dir = []) then false
  else forallb (fun element => match stat (JoinPath dir element) with StatDir | StatFile => true | _ => false end)
         [text "objects"; text "refs"; text "HEAD"].

Definition QuarantineDirectoryPrefix (repo : GitRepo) : list ascii :=
  text "quarantine-" ++ hashPrefix (GetRelativePath repo) ++ text "-".

Definition GetStorageByName (name : string) : out LocatorError (list ascii) :=
  match StoragePath storages name with
  | Some path => Ok path
  | None => Err (InvalidArgument "GetStorageByName: no such storage")
  end.

Definition GetPath (repo : GitRepo) : out LocatorError (list ascii) :=
  storagePath ← GetStorageByName (GetStorageName repo);
  match stat storagePath with
  | StatNotExist => Err (NotFound "GetPath: does not exist")
  | StatError => Err (Internal "GetPath: storage path")
  | _ =>
    let relativePath := GetRelativePath repo in
    if decide (relativePath = []) then Err (InvalidArgument "GetPath: relative path missing")
    else match ValidateRelativePath storagePath relativePath with
    | Ok _ => Ok (JoinPath storagePath relativePath)
    | Err _ => Err (InvalidArgument "GetRepoPath")
    | Panic => Panic
    end
  end.

Definition GetRepoPath (repo : GitRepo) : out LocatorError (list ascii) :=
  repoPath ← GetPath repo;
  if decide (repoPath = []) then Err (InvalidArgument "GetRepoPath: empty repo path")
  else if IsGitDirectory repoPath then Ok repoPath
  else Err (NotFound "GetRepoPath: not a git repository").

Definition getPath (name : string) (prefix : list ascii) : out LocatorError (list ascii) :=
  match StoragePath storages name with
  | Some path => Ok (JoinPath path prefix)
  | None => Err (InvalidArgument "dir: no such storage")
  end.

Definition CacheDir (name : string) : out LocatorError (list ascii) := getPath name cachePrefix.
Definition StateDir (name : string) : out LocatorError (list ascii) := getPath name statePrefix.
Definition TempDir (name : string) : out LocatorError (list ascii) := getPath name tmpRootPrefix.

Definition GetObjectDirectoryPath (repo : GitRepo) : out LocatorError (list ascii) :=
  repoPath ← GetRepoPath repo;
  let objectDirectoryPath := GetGitObjectDirectory repo in
  if decide (objectDirectoryPath = []) then Err (InvalidArgument "GetObjectDirectoryPath: empty directory")
  else
    let fullPath := JoinPath repoPath objectDirectoryPath in
    _ ← match ValidateRelativePath repoPath objectDirectoryPath with
        | Ok _ => Ok tt
        | Panic => Panic
        | Err _ =>
          match TempDir (GetStorageName repo) with
          | Ok tempDir =>
            if HasPrefix fullPath (JoinPath tempDir (QuarantineDirectoryPrefix repo)) then Ok tt
            else Err (InvalidArgument "GetObjectDirectoryPath")
          | Err _ => Err (InvalidArgument "GetObjectDirectoryPath")
          | Panic => Panic
          end
        end;
    match stat fullPath with
    | StatNotExist => Err (NotFound "GetObjectDirectoryPath: does not exist")
    | _ => Ok fullPath
    end.

Definition InfoAlternatesPath (repo : GitRepo) : out LocatorError (list ascii) :=
  repoPath ← GetRepoPath repo;
  Ok (JoinPath repoPath (text "objects/info/alternates")).

End Locator.

(** ** Properties *)

Lemma Clean_dir root parts : clean_dir root parts -> Clean root = root /\ elements_of root = parts.
Proof.
  intros [Hp Hne ->]. unfold Clean. rewrite rooted_cons, elements_render by done. done.
Qed.

Lemma Clean_rendered parts : Forall plain parts -> Clean (slash :: Join slash parts) = slash :: Join slash parts.
Proof. intros Hp. unfold Clean. by rewrite rooted_cons, elements_render. Qed.

Lemma stripCommon_app parts rest : stripCommon parts (parts ++ rest) = ([], rest).
Proof. induction parts as [|p ps IH]; simpl; [by destruct rest|]. by rewrite decide_True. Qed.

Lemma render_inj ps qs : Forall plain ps -> Forall plain qs -> slash :: Join slash ps = slash :: Join slash qs -> ps = qs.
Proof. intros Hp Hq Heq. by rewrite <- (elements_render ps Hp), Heq, elements_render. Qed.

(** The path relative to a directory of something inside it. *)
Definition relative (rest : list (list ascii)) : list ascii :=
  if decide (rest = []) then dot else Join slash rest.

(** The elements of a relative path joined to a directory. *)
Definition joined (parts : list (list ascii)) (rel : list ascii) : list (list ascii) :=
  reverse (cleanParts true (reverse parts) (Split slash rel)).

(** [ValidateRelativePath] accepts exactly the paths that stay inside. *)
Lemma ValidateRelativePath_cases root parts rel :
  clean_dir root parts ->
  (exists rest, joined parts rel = parts ++ rest /\ ValidateRelativePath root rel = Ok (relative rest)) \/
  (~ (exists rest, joined parts rel = parts ++ rest) /\ ValidateRelativePath root rel = Err ErrRelativePathEscapesRoot).
Proof.
  intros Hroot. pose proof Hroot as [Hp Hne Hr]. unfold ValidateRelativePath.
  rewrite (JoinPath_elements root parts rel Hroot). fold (joined parts rel).
  pose proof (join_elements_plain parts rel Hp) as Hq. fold (joined parts rel) in Hq.
  pose proof (render_prefix parts (joined parts rel) Hp Hq Hne) as Hpre.
  destruct (bool_decide (root ≠ _) && _) eqn:Htest.
  - right. split; [|done]. rewrite <- Hpre, <- Hr. apply andb_true_iff in Htest as [Hd%bool_decide_eq_true Hn%negb_true_iff].
    intros [Heq|[rest Heq]]; [congruence|]. apply not_true_iff_false in Hn. apply Hn, HasPrefix_spec. exists rest.
    by rewrite <- app_assoc.
  - left. assert (Hin : exists rest, joined parts rel = parts ++ rest).
    { apply Hpre. rewrite <- Hr. apply andb_false_iff in Htest as [Hd%bool_decide_eq_false|Hn%negb_false_iff].
      - left. symmetry. by apply dec_stable.
      - right. apply HasPrefix_spec in Hn as [rest Hn]. exists rest. by rewrite Hn, <- app_assoc. }
    destruct Hin as [rest Hin]. exists rest. split; [done|]. unfold Rel.
    destruct (Clean_dir root parts Hroot) as [-> ->]. rewrite Clean_rendered, elements_render, rooted_cons by done.
    rewrite Hin in *. unfold relative. destruct (decide (rest = [])) as [->|Hrest].
    + rewrite app_nil_r, decide_True by done. done.
    + rewrite decide_False.
      * rewrite decide_False by (rewrite Hr, rooted_cons; by intros ?). by rewrite stripCommon_app.
      * rewrite Hr. intros Heq%render_inj; [|done..]. apply Hrest. rewrite <- (app_nil_r parts) in Heq at 2.
        by apply app_inv_head in Heq.
Qed.

Lemma joined_plain parts rel : Forall plain parts -> Forall plain (joined parts rel).
Proof. apply join_elements_plain. Qed.

Lemma JoinPath_joined root parts rel : clean_dir root parts -> JoinPath root rel = slash :: Join slash (joined parts rel).
Proof. apply JoinPath_elements. Qed.

(** A cleaned relative path leads to the same place. *)
Lemma joined_relative parts rest :
  Forall plain (parts ++ rest) -> joined parts (relative rest) = parts ++ rest.
Proof.
  intros Hall. apply Forall_app in Hall as [Hp Hr]. unfold joined, relative. case_decide as Hrest.
  - subst. rewrite app_nil_r. change (Split slash dot) with [dot]. cbn [cleanParts].
    rewrite (decide_True (P := dot = [] \/ dot = dot)) by auto. apply reverse_involutive.
  - rewrite Split_Join; [|done|].
    + rewrite cleanParts_keep by done. by rewrite reverse_app, !reverse_involutive.
    + intros q Hq. rewrite Forall_forall in Hr. by apply (Hr q Hq).
Qed.

(** For a clean absolute directory, [ValidateRelativePath] accepts a relative
    path exactly if it leads, with all its dots resolved, to the directory or
    something inside it; what it returns is the path in its clean form, which has
    no dot elements, leads to the same place and is accepted unchanged. *)
Theorem ValidateRelativePath_correct root parts rel :
  clean_dir root parts ->
  match ValidateRelativePath root rel with
  | Ok cleaned => exists rest, Forall plain rest /\ JoinPath root rel = slash :: Join slash (parts ++ rest) /\
      cleaned = relative rest /\ JoinPath root cleaned = JoinPath root rel /\
      ValidateRelativePath root cleaned = Ok cleaned
  | Err e => e = ErrRelativePathEscapesRoot /\ ~ exists rest, joined parts rel = parts ++ rest
  | Panic => False
  end.
Proof.
  intros Hroot. pose proof (cd_parts _ _ Hroot) as Hp. pose proof (joined_plain parts rel Hp) as Hj.
  destruct (ValidateRelativePath_cases root parts rel Hroot) as [(rest & Hin & ->)|[Hout ->]]; [|done].
  rewrite Hin in Hj. assert (Hback : joined parts (relative rest) = parts ++ rest) by by apply joined_relative.
  exists rest. rewrite !(JoinPath_joined root parts) by done. rewrite Hin, Hback. split_and!; try done.
  - by apply Forall_app in Hj as [_ ?].
  - destruct (ValidateRelativePath_cases root parts (relative rest) Hroot) as [(rest' & Hin' & ->)|[Hout _]].
    + rewrite Hback in Hin'. by apply app_inv_head in Hin' as ->.
    + destruct Hout. by exists rest.
Qed.

(** *** Storages do not nest *)

Lemma dropLast_spec a p : slash ∉ p -> dropLast (reverse (a ++ slash :: p)) = slash :: reverse a.
Proof.
  intros Hp. rewrite reverse_app, reverse_cons, <- app_assoc. simpl.
  assert (Hr : forall l, slash ∉ l -> dropLast (l ++ slash :: reverse a) = slash :: reverse a).
  { induction l as [|x l IH]; intros Hn; cbn [app dropLast]; [by case_decide|]. apply not_elem_of_cons in Hn as [? ?].
    rewrite decide_False by congruence. by apply IH. }
  apply Hr. by rewrite elem_of_reverse.
Qed.

Lemma Dir_snoc init p : Forall plain (init ++ [p]) -> Dir (slash :: Join slash (init ++ [p])) = slash :: Join slash init.
Proof.
  intros Hall. apply Forall_app in Hall as [Hi Hp]. apply Forall_cons in Hp as [(_ & _ & _ & Hp) _]. unfold Dir.
  assert (Hclean : Clean (slash :: Join slash init ++ [slash]) = slash :: Join slash init).
  { unfold Clean. rewrite rooted_cons, elements_rooted. unfold render.
    destruct (decide (init = [])) as [->|Hne]; [done|]. rewrite Split_Join_app; [|done|].
    - rewrite cleanParts_app, (cleanParts_keep true init), app_nil_r by done. cbn [cleanParts Split].
      case_decide; [by rewrite reverse_involutive|tauto].
    - intros q Hq. rewrite Forall_forall in Hi. by apply (Hi q Hq). }
  destruct (decide (init = [])) as [->|Hne].
  - change (slash :: Join slash ([] ++ [p])) with ([] ++ slash :: p). by rewrite dropLast_spec.
  - rewrite Join_app by done. change (slash :: Join slash init ++ slash :: Join slash [p]) with
      ((slash :: Join slash init) ++ slash :: p).
    rewrite dropLast_spec by done. by rewrite reverse_cons, reverse_involutive.
Qed.

(** A storage nested in another one is a conflict. *)
Lemma nested_conflicts a b parts rest :
  Path a = slash :: Join slash parts -> Path b = slash :: Join slash (parts ++ rest) ->
  Forall plain (parts ++ rest) -> parts ≠ [] -> rest ≠ [] ->
  Name a ≠ Name b -> conflicts a b ≠ None /\ conflicts b a ≠ None.
Proof.
  intros Ha Hb Hall Hp Hr Hname. pose proof Hall as [Hpa Hra]%Forall_app.
  assert (Hne : Path a ≠ Path b).
  { rewrite Ha, Hb. intros Heq%render_inj; [|done..]. apply Hr. rewrite <- (app_nil_r parts) in Heq at 1.
    by apply app_inv_head in Heq. }
  assert (Hpre : HasPrefix (Path b) (Path a) = true).
  { apply HasPrefix_spec. rewrite Ha, Hb, Join_app by done. by exists (slash :: Join slash rest). }
  assert (Hdir : Dir (Path a) ≠ Dir (Path b)).
  { destruct parts as [|p0 ps0 _] using rev_ind; [done|]. destruct rest as [|r rs _] using rev_ind; [done|].
    rewrite Ha, Hb, app_assoc. rewrite !Dir_snoc by (rewrite <- ?app_assoc in *; done).
    intros Heq%render_inj; [|by apply Forall_app in Hpa as [? _]|].
    - apply (f_equal length) in Heq. rewrite !length_app in Heq. simpl in Heq. lia.
    - rewrite app_assoc in Hall. by apply Forall_app in Hall as [? _]. }
  unfold conflicts. rewrite Hpre, orb_true_r, !(decide_False (P := Name _ = Name _)) by congruence.
  rewrite !(decide_False (P := Path _ = Path _)) by congruence. simpl.
  by rewrite !(decide_False (P := Dir _ = Dir _)) by congruence.
Qed.

Lemma validateLoop_conflicts stat before l :
  validateLoop stat before l = None ->
  forall l1 s l2, l = l1 ++ s :: l2 -> forall o, o ∈ before ++ l1 -> conflicts s o = None.
Proof.
  revert before. induction l as [|s0 l IH]; intros before Hv l1 s l2 Hl; [by destruct l1|].
  simpl in Hv. destruct (validateStorage stat s0 before) eqn:Hs; [done|]. destruct l1 as [|x l1]; simplify_eq/=.
  - intros o Ho. rewrite app_nil_r in Ho. unfold validateStorage in Hs. repeat case_decide; simplify_eq.
    destruct (stat (Path s)); simplify_eq.
    destruct (conflicts s o) as [e|] eqn:Hc; [|done].
    assert (He : e ∈ omap (conflicts s) before) by (apply list_elem_of_omap; eauto).
    destruct (omap (conflicts s) before); [by apply elem_of_nil in He|done].
  - intros o Ho. apply (IH (before ++ [x]) Hv l1 s l2 eq_refl). by rewrite <- app_assoc.
Qed.

(** *** Confinement *)

Lemma Split_prefix c x s : c ∉ x -> exists y more, Split c (x ++ s) = (x ++ y) :: more.
Proof.
  intros Hx. destruct (Split c s) as [|y more] eqn:Hs; [by destruct (Split_not_nil c s)|]. exists y, more.
  induction x as [|a x IH]; [done|]. apply not_elem_of_cons in Hx as [Ha Hx]. cbn [app Split].
  rewrite (decide_False (P := a = c)) by congruence. by rewrite (IH Hx).
Qed.

(** A string prefix of a rendered path that ends inside an element. *)
Lemma render_string_prefix parts x qs :
  Forall plain (parts ++ [x]) -> Forall plain qs -> parts ≠ [] ->
  (slash :: Join slash (parts ++ [x])) `prefix_of` (slash :: Join slash qs) ->
  exists y more, qs = parts ++ (x ++ y) :: more.
Proof.
  intros [Hp [(_ & _ & _ & Hx) _]%Forall_cons]%Forall_app Hq Hne [s Heq]. rewrite Join_app in Heq by done.
  simplify_eq/=. rewrite <- app_assoc in Heq. cbn [app Join] in Heq.
  destruct (Split_prefix slash x s Hx) as (y & more & Hs). exists y, more.
  destruct (decide (qs = [])) as [->|Hqs]; [by destruct (Join slash parts)|].
  rewrite <- (Split_Join slash qs), Heq, Split_Join_app, Hs; [done|done| |done|].
  - intros q Hin. rewrite Forall_forall in Hp. by apply (Hp q Hin).
  - intros q Hin. rewrite Forall_forall in Hq. by apply (Hq q Hin).
Qed.

Lemma joined_app parts rest : Forall plain rest -> rest ≠ [] -> joined parts (Join slash rest) = parts ++ rest.
Proof.
  intros Hr Hne. unfold joined. rewrite Split_Join; [|done|].
  - rewrite cleanParts_keep by done. by rewrite reverse_app, !reverse_involutive.
  - intros q Hq. rewrite Forall_forall in Hr. by apply (Hr q Hq).
Qed.

Lemma clean_dir_app root parts rest :
  clean_dir root parts -> Forall plain rest -> clean_dir (slash :: Join slash (parts ++ rest)) (parts ++ rest).
Proof.
  intros [Hp Hne _] Hr. constructor; [by apply Forall_app|by destruct parts|done].
Qed.

Section Confinement.
Context (storages : list Storage) (stat : list ascii -> StatResult) (hashPrefix : list ascii -> list ascii).
Hypothesis Hclean : forall s, s ∈ storages -> exists parts, clean_dir (Path s) parts.
Hypothesis Hhash : forall p, slash ∉ hashPrefix p.

Lemma GetPath_inside repo path :
  GetPath storages stat repo = Ok path ->
  exists s parts rest, Cfg_Storage storages (GetStorageName repo) = Some s /\ s ∈ storages /\
    clean_dir (Path s) parts /\ Forall plain rest /\ path = slash :: Join slash (parts ++ rest).
Proof using Hclean.
  unfold GetPath, GetStorageByName, StoragePath. destruct (Cfg_Storage _ _) as [s|] eqn:Hs; [|done]. simpl.
  assert (Hin : s ∈ storages) by (apply find_some in Hs as [? _]; by apply list_elem_of_In).
  destruct (Hclean s Hin) as [parts Hd]. destruct (stat (Path s)); try done; case_decide; try done;
    (destruct (ValidateRelativePath_cases _ _ (GetRelativePath repo) Hd) as [(rest & Hj & ->)|[_ ->]]; [|done]);
    intros [= <-]; exists s, parts, rest; rewrite (JoinPath_joined _ _ _ Hd), Hj;
    (split_and!; try done); pose proof (joined_plain parts (GetRelativePath repo) (cd_parts _ _ Hd)) as Hpl;
    rewrite Hj in Hpl; by apply Forall_app in Hpl as [_ ?].
Qed.

Lemma GetRepoPath_path repo path : GetRepoPath storages stat repo = Ok path -> GetPath storages stat repo = Ok path.
Proof.
  unfold GetRepoPath. destruct (GetPath _ _ _) as [p| |]; simpl; try done. case_decide; [done|]. by case_match.
Qed.

(** The prefix of the quarantine directories of a repository is a proper name. *)
Lemma quarantine_plain repo : plain (QuarantineDirectoryPrefix hashPrefix repo).
Proof using Hhash.
  unfold QuarantineDirectoryPrefix, plain. split_and!; try done. rewrite !not_elem_of_app. split_and!; [|apply Hhash|].
  - by apply (bool_decide_unpack _); vm_compute.
  - by apply (bool_decide_unpack _); vm_compute.
Qed.

Lemma TempDir_path s parts name :
  Cfg_Storage storages name = Some s -> clean_dir (Path s) parts ->
  TempDir storages name = Ok (slash :: Join slash (parts ++ [text "+gitaly"; text "tmp"])).
Proof.
  intros Hs Hd. unfold TempDir, getPath, StoragePath. rewrite Hs. simpl. rewrite (JoinPath_joined _ _ _ Hd).
  change tmpRootPrefix with (Join slash [text "+gitaly"; text "tmp"]). rewrite joined_app; [done| |done].
  repeat constructor; try done; by apply (bool_decide_unpack _); vm_compute.
Qed.

End Confinement.

Lemma gitalyTmp_plain : Forall plain [text "+gitaly"; text "tmp"].
Proof. repeat constructor; try done; by apply (bool_decide_unpack _); vm_compute. Qed.

(** C19. Whatever relative path and object directory a request names, the repository
    it is given lies inside the storage it names, and the object directory lies
    inside that repository or, when it is a quarantine directory, inside a directory
    of the storage's temporary directory whose name starts with the quarantine
    prefix of this very repository. *)
Theorem repository_path_confined storages stat hashPrefix repo path :
  (forall s, s ∈ storages -> exists parts, clean_dir (Path s) parts) ->
  (forall p, slash ∉ hashPrefix p) ->
  GetRepoPath storages stat repo = Ok path ->
  exists s parts rest, Cfg_Storage storages (GetStorageName repo) = Some s /\ clean_dir (Path s) parts /\
    Forall plain rest /\ path = slash :: Join slash (parts ++ rest) /\
    forall objects, GetObjectDirectoryPath storages stat hashPrefix repo = Ok objects ->
      (exists more, Forall plain more /\ objects = slash :: Join slash (parts ++ rest ++ more)) \/
      (exists name more, Forall plain (name :: more) /\
        QuarantineDirectoryPrefix hashPrefix repo `prefix_of` name /\
        objects = slash :: Join slash (parts ++ [text "+gitaly"; text "tmp"] ++ name :: more)).
Proof.
  intros Hclean Hhash Hrepo.
  destruct (GetPath_inside storages stat Hclean repo path (GetRepoPath_path _ _ _ _ Hrepo))
    as (s & parts & rest & Hs & Hin & Hd & Hrest & ->).
  exists s, parts, rest. split_and!; try done. intros objects. unfold GetObjectDirectoryPath. rewrite Hrepo. simpl.
  case_decide; [done|]. pose proof (clean_dir_app _ _ _ Hd Hrest) as Hd'.
  set (rel := GetGitObjectDirectory repo). pose proof (joined_plain (parts ++ rest) rel (cd_parts _ _ Hd')) as Hj.
  destruct (ValidateRelativePath_cases _ _ rel Hd') as [(more & Hm & ->)|[_ ->]].
  - simpl. intros Hok. left. exists more. rewrite Hm in Hj. apply Forall_app in Hj as [_ Hmore]. split; [done|].
    rewrite (JoinPath_joined _ _ _ Hd'), Hm, <- app_assoc in Hok. by destruct (stat _); simplify_eq/=.
  - rewrite (TempDir_path storages s parts) by done. pose proof (clean_dir_app _ _ _ Hd gitalyTmp_plain) as Hdt.
    rewrite (JoinPath_joined _ _ _ Hdt). pose proof (quarantine_plain hashPrefix Hhash repo) as Hq.
    change (QuarantineDirectoryPrefix hashPrefix repo) with (Join slash [QuarantineDirectoryPrefix hashPrefix repo]) at 1.
    rewrite joined_app by (done || by constructor). rewrite (JoinPath_joined _ _ _ Hd').
    destruct (HasPrefix _ _) eqn:Hpre; simpl; [|done]. intros Hok. right. apply bool_decide_eq_true in Hpre.
    apply render_string_prefix in Hpre as (y & more & Hy); [| |done|by destruct parts].
    + exists (QuarantineDirectoryPrefix hashPrefix repo ++ y), more. rewrite Hy in Hj.
      apply Forall_app in Hj as [_ Hmore]. split_and!; [done|by eexists|].
      rewrite Hy, <- app_assoc in Hok. by destruct (stat _); simplify_eq/=.
    + apply Forall_app. split; [apply Hdt|by constructor].
Qed.

(** *** Storages of a validated configuration *)

Lemma validated_pair stat storages a b :
  validateStorages stat storages = None -> a ∈ storages -> b ∈ storages -> a ≠ b ->
  conflicts a b = None \/ conflicts b a = None.
Proof.
  unfold validateStorages. case_decide; [done|]. intros Hv Ha Hb Hab.
  pose proof (validateLoop_conflicts stat [] storages Hv) as Hc. cbn [app] in Hc.
  apply list_elem_of_split in Ha as (l1 & l2 & ->). apply elem_of_app in Hb as [Hb|[?|Hb]%elem_of_cons].
  - left. by apply (Hc l1 a l2).
  - congruence.
  - right. apply list_elem_of_split in Hb as (l3 & l4 & ->). apply (Hc (l1 ++ a :: l3) b l4).
    + by rewrite <- app_assoc.
    + set_solver.
Qed.

Lemma conflicts_names a b : conflicts a b = None -> Name a ≠ Name b.
Proof. unfold conflicts. case_decide; congruence. Qed.

Lemma storages_do_not_nest stat storages a b parts rest :
  validateStorages stat storages = None -> a ∈ storages -> b ∈ storages -> Path a ≠ Path b ->
  clean_dir (Path a) parts -> Path b ≠ slash :: Join slash (parts ++ rest) \/ ~ Forall plain (parts ++ rest).
Proof.
  intros Hv Ha Hb Hp [Hpl Hne Hr]. destruct (decide (Path b = slash :: Join slash (parts ++ rest))) as [Hb'|]; [|by left].
  right. intros Hall.
  assert (Hrest : rest ≠ []) by (intros ->; rewrite app_nil_r in Hb'; congruence).
  destruct (validated_pair stat storages a b Hv Ha Hb) as [Hc|Hc]; [congruence| |];
    pose proof (conflicts_names _ _ Hc) as Hn;
    by destruct (nested_conflicts a b parts rest Hr Hb' Hall Hne Hrest) as [? ?]; [congruence|].
Qed.

(** In a validated configuration with clean storage paths, repositories of
    storages at different places never overlap: no path of a repository of the one
    leads to, or through, a repository of the other. *)
Theorem storages_separate_repositories stat storages repo1 repo2 path1 path2 :
  (forall s, s ∈ storages -> exists parts, clean_dir (Path s) parts) ->
  validateStorages stat storages = None ->
  GetRepoPath storages stat repo1 = Ok path1 -> GetRepoPath storages stat repo2 = Ok path2 ->
  StoragePath storages (GetStorageName repo1) ≠ StoragePath storages (GetStorageName repo2) ->
  ~ elements_of path1 `prefix_of` elements_of path2.
Proof.
  intros Hclean Hv H1 H2 Hne.
  destruct (GetPath_inside storages stat Hclean _ _ (GetRepoPath_path _ _ _ _ H1)) as (s1 & p1 & r1 & Hs1 & Hi1 & Hd1 & Hr1 & ->).
  destruct (GetPath_inside storages stat Hclean _ _ (GetRepoPath_path _ _ _ _ H2)) as (s2 & p2 & r2 & Hs2 & Hi2 & Hd2 & Hr2 & ->).
  unfold StoragePath in Hne. rewrite Hs1, Hs2 in Hne. simpl in Hne.
  pose proof Hd1 as [Hpl1 _ Hq1]. pose proof Hd2 as [Hpl2 _ Hq2].
  rewrite (elements_render (p1 ++ r1)), (elements_render (p2 ++ r2)) by by apply Forall_app.
  intros [more Heq].
  assert (Hcomp : p1 `prefix_of` p2 \/ p2 `prefix_of` p1).
  { apply (prefix_weak_total _ _ (p2 ++ r2)); [rewrite Heq, <- app_assoc|]; by apply prefix_app_r. }
  destruct Hcomp as [[rest ->]|[rest ->]].
  - destruct (storages_do_not_nest stat storages s1 s2 p1 rest) as [?|?]; try done. congruence.
  - destruct (storages_do_not_nest stat storages s2 s1 p2 rest) as [?|?]; try done. congruence.
Qed.

(** ** Instances *)

Definition ex_storages : list Storage := [mkStorage "default" (text "/parent"); mkStorage "other" (text "/data/git")].

Lemma plain_dec_unpack p : bool_decide (p ≠ [] /\ p ≠ dot /\ p ≠ dotdot /\ slash ∉ p) = true -> plain p.
Proof. apply bool_decide_eq_true_1. Qed.

Lemma ex_parent_clean : clean_dir (text "/parent") [text "parent"].
Proof. constructor; [|done|done]. repeat constructor; apply plain_dec_unpack; vm_compute; reflexivity. Qed.

Lemma ex_storages_clean s : s ∈ ex_storages -> exists parts, clean_dir (Path s) parts.
Proof.
  intros [->|[->|[]%elem_of_nil]%elem_of_cons]%elem_of_cons; [exists [text "parent"]; apply ex_parent_clean|].
  exists [text "data"; text "git"]. constructor; [|done|done].
  constructor; [|constructor; [|constructor]]; apply plain_dec_unpack; vm_compute; reflexivity.
Qed.

Definition ex_hash (_ : list ascii) : list ascii := text "0123abcd".

Lemma ex_hash_plain p : slash ∉ ex_hash p.
Proof. apply (bool_decide_unpack _). vm_compute. exact I. Qed.

Lemma ValidateRelativePath_correct_witness :
  ValidateRelativePath (text "/parent") (text "a/../my/./repo.git") = Ok (text "my/repo.git") /\
  ValidateRelativePath (text "/parent") (text "../data/git") = Err ErrRelativePathEscapesRoot /\
  ~ exists rest, joined [text "parent"] (text "../data/git") = [text "parent"] ++ rest.
Proof.
  split; [vm_compute; reflexivity|].
  assert (Herr : ValidateRelativePath (text "/parent") (text "../data/git") = Err ErrRelativePathEscapesRoot)
    by (vm_compute; reflexivity).
  pose proof (ValidateRelativePath_correct (text "/parent") [text "parent"] (text "../data/git") ex_parent_clean) as H.
  rewrite Herr in H. split; [exact Herr|exact (proj2 H)].
Defined.

Definition ex_repo : GitRepo :=
  mkRepo "default" (text "a/../repo.git") (text "../+gitaly/tmp/quarantine-0123abcd-77/objects") [].

Lemma repository_path_confined_witness :
  GetObjectDirectoryPath ex_storages (fun _ => StatDir) ex_hash ex_repo =
    Ok (text "/parent/+gitaly/tmp/quarantine-0123abcd-77/objects") /\
  exists s parts rest, Cfg_Storage ex_storages "default" = Some s /\ clean_dir (Path s) parts /\
    Forall plain rest /\ text "/parent/repo.git" = slash :: Join slash (parts ++ rest).
Proof.
  split; [vm_compute; reflexivity|].
  destruct (repository_path_confined ex_storages (fun _ => StatDir) ex_hash ex_repo (text "/parent/repo.git")
    ex_storages_clean ex_hash_plain) as (s & parts & rest & ? & ? & ? & ? & _); [vm_compute; reflexivity|].
  exists s, parts, rest. tauto.
Defined.

Lemma storages_separate_repositories_witness :
  validateStorages (fun _ => StatDir) ex_storages = None /\
  ~ elements_of (text "/parent/repo.git") `prefix_of` elements_of (text "/data/git/repo.git").
Proof.
  split; [vm_compute; reflexivity|].
  apply (storages_separate_repositories (fun _ => StatDir) ex_storages ex_repo (mkRepo "other" (text "repo.git") [] [])
    (text "/parent/repo.git") (text "/data/git/repo.git") ex_storages_clean);
    [vm_compute; reflexivity..|vm_compute; discriminate].
Defined.

(** The test on path prefixes also refuses storages that do not nest. *)
Lemma validateStorages_refuses_siblings :
  validateStorages (fun _ => StatDir)
    [mkStorage "default" (text "/data/git"); mkStorage "other" (text "/data/gitlab/repositories")] =
    Some "storage paths may not nest" /\
  ~ [text "data"; text "git"] `prefix_of` elements_of (text "/data/gitlab/repositories").
Proof. split; [vm_compute; reflexivity|]. apply (bool_decide_unpack _). vm_compute. exact I. Qed.
