(* ===== verification/Alternates.v ===== *)
(** The object directories of a repository: src/internal/git/dirs.go.

    The file system is given by the parameters [stat] and [readFile]. The recursion
    is on the number of levels of nesting that are left, from the code's limit. *)

From Stdlib Require Import Strings.Ascii.
From S2P Require Import Prelude GoStrings Locator.

Inductive ReadResult : Type := Content (s : list ascii) | ReadNotExist | ReadError.

Inductive DirsError : Type :=
| AlternateOutsideStorage (path : list ascii)
| ErrStat (path : list ascii)
| ErrRead (path : list ascii).

Definition newline : ascii := ascii_of_nat 10.
Definition maxAlternatesDepth : nat := 5.

(** The lines that name an alternate. *)
Definition comment (line : list ascii) : Prop := line = [] \/ head line = Some "#"%char.
#[export] Instance comment_dec line : Decision (comment line) := ltac:(unfold comment; apply _).

(** The directory a line names. *)
Definition lineDir (objDir newDir : list ascii) : list ascii :=
  if rooted newDir then newDir else JoinPath objDir newDir.

Section Dirs.
Context (stat : list ascii -> StatResult) (readFile : list ascii -> ReadResult).

(** The loop over the lines of an alternates file. *)
Fixpoint eachAlternate (nested : list ascii -> out DirsError (list (list ascii))) (storagePrefix objDir : list ascii)
    (lines : list (list ascii)) : out DirsError (list (list ascii)) :=
  match lines with
  | [] => Ok []
  | newDir :: lines =>
    if decide (comment newDir) then eachAlternate nested storagePrefix objDir lines
    else
      let newDir := lineDir objDir newDir in
      if HasPrefix newDir storagePrefix then
        nestedDirs ← nested newDir;
        rest ← eachAlternate nested storagePrefix objDir lines;
        Ok (nestedDirs ++ rest)
      else Err (AlternateOutsideStorage newDir)
  end.

(** [levels] is [maxAlternatesDepth + 1 - depth]. *)
Fixpoint altObjectDirs (levels : nat) (storagePrefix objDir : list ascii) : out DirsError (list (list ascii)) :=
  match levels with
  | O => Ok []
  | S levels =>
    match stat objDir with
    | StatNotExist => Ok []
    | StatError => Err (ErrStat objDir)
    | StatFile => Ok []
    | StatDir =>
      match readFile (JoinPath objDir (text "info/alternates")) with
      | ReadNotExist => Ok [objDir]
      | ReadError => Err (ErrRead objDir)
      | Content alternates =>
        rest ← eachAlternate (altObjectDirs levels storagePrefix) storagePrefix objDir (Split newline alternates);
        Ok (objDir :: rest)
      end
    end
  end.

Definition ObjectDirectories (storageRoot repoPath : list ascii) : out DirsError (list (list ascii)) :=
  altObjectDirs (S maxAlternatesDepth) (storageRoot ++ [slash]) (JoinPath repoPath (text "objects")).

Definition AlternateObjectDirectories (storageRoot repoPath : list ascii) : out DirsError (list (list ascii)) :=
  dirs ← ObjectDirectories storageRoot repoPath;
  match dirs with
  | [] => Panic
  | _ :: dirs => Ok dirs
  end.

(** ** Properties *)

Lemma eachAlternate_ok (P : list ascii -> Prop) nested storagePrefix objDir lines dirs :
  (forall dir ds, HasPrefix dir storagePrefix = true -> nested dir = Ok ds -> Forall P ds) ->
  eachAlternate nested storagePrefix objDir lines = Ok dirs -> Forall P dirs.
Proof.
  intros Hn. revert dirs. induction lines as [|l lines IH]; intros dirs; cbn [eachAlternate]; [by intros [= <-]; constructor|].
  case_decide; [apply IH|]. destruct (HasPrefix _ _) eqn:Hpre; [|done].
  destruct (nested _) as [ds| |] eqn:Hds; cbn [mbind out_bind]; try done.
  destruct (eachAlternate _ _ _ _) as [rest| |]; cbn [mbind out_bind]; try done. intros [= <-].
  apply Forall_app. split; [by eapply Hn|by apply IH].
Qed.

Lemma altObjectDirs_ok levels storagePrefix objDir dirs :
  altObjectDirs levels storagePrefix objDir = Ok dirs ->
  Forall (fun d => stat d = StatDir /\ (d = objDir \/ HasPrefix d storagePrefix = true)) dirs /\
  (levels ≠ O -> stat objDir = StatDir -> head dirs = Some objDir).
Proof.
  revert objDir dirs. induction levels as [|levels IH]; intros objDir dirs; cbn [altObjectDirs]; [by intros [= <-]; split; [constructor|]|].
  destruct (stat objDir) eqn:Hs; [|by intros [= <-]; split; [constructor|]|by intros [= <-]; split; [constructor|]|done].
  destruct (readFile _) as [s| |]; [|by intros [= <-]; split; [repeat constructor; auto|]|done].
  destruct (eachAlternate _ _ _ _) as [rest| |] eqn:He; cbn [mbind out_bind]; try done. intros [= <-]. split; [|done].
  constructor; [auto|]. eapply eachAlternate_ok; [|exact He]. intros dir ds Hpre Hds.
  apply IH in Hds as [Hall _]. eapply Forall_impl; [exact Hall|]. intros d [? [->|?]]; auto.
Qed.

(** The largest number of lines in any alternates file. *)
Definition linesBound (b : nat) : Prop :=
  forall path s, readFile path = Content s -> (length (Split newline s) <= b)%nat.

Fixpoint geometric (b n : nat) : nat := match n with O => O | S n => S (b * geometric b n) end.

Lemma eachAlternate_length nested storagePrefix objDir lines dirs n :
  (forall dir ds, nested dir = Ok ds -> (length ds <= n)%nat) ->
  eachAlternate nested storagePrefix objDir lines = Ok dirs -> (length dirs <= length lines * n)%nat.
Proof.
  intros Hn. revert dirs. induction lines as [|l lines IH]; intros dirs; cbn [eachAlternate length]; [by intros [= <-]|].
  case_decide; [intros Hr; specialize (IH _ Hr); lia|]. destruct (HasPrefix _ _); [|done].
  destruct (nested _) as [ds| |] eqn:Hds; cbn [mbind out_bind]; try done.
  destruct (eachAlternate _ _ _ _) as [rest| |]; cbn [mbind out_bind]; try done. intros [= <-].
  rewrite length_app. specialize (Hn _ _ Hds). specialize (IH _ eq_refl). lia.
Qed.

Lemma altObjectDirs_length b levels storagePrefix objDir dirs :
  linesBound b -> altObjectDirs levels storagePrefix objDir = Ok dirs -> (length dirs <= geometric b levels)%nat.
Proof.
  intros Hb. revert objDir dirs. induction levels as [|levels IH]; intros objDir dirs; cbn [altObjectDirs geometric].
  { intros [= <-]. simpl. lia. }
  destruct (stat objDir); try (intros [= <-]; simpl; lia); try done.
  destruct (readFile _) as [s| |] eqn:Hr; [|intros [= <-]; simpl; lia|done].
  destruct (eachAlternate _ _ _ _) as [rest| |] eqn:He; cbn [mbind out_bind]; try done. intros [= <-]. simpl.
  apply eachAlternate_length with (n := geometric b levels) in He; [|apply IH]. specialize (Hb _ _ Hr). nia.
Qed.

Lemma eachAlternate_err nested storagePrefix objDir lines (P : DirsError -> Prop) :
  (forall dir e, nested dir = Err e -> P e) -> (forall dir, nested dir ≠ Panic) ->
  (forall d, HasPrefix d storagePrefix = false -> P (AlternateOutsideStorage d)) ->
  eachAlternate nested storagePrefix objDir lines ≠ Panic /\
  forall e, eachAlternate nested storagePrefix objDir lines = Err e -> P e.
Proof.
  intros He Hp Ho. induction lines as [|l lines [IH1 IH2]]; cbn [eachAlternate]; [done|].
  case_decide; [done|]. destruct (HasPrefix _ _) eqn:Hpre; [|split; [done|intros ? [= <-]; auto]].
  destruct (nested _) as [ds|e|] eqn:Hds; cbn [mbind out_bind]; [|split; [done|intros ? [= <-]; eauto]|by apply Hp in Hds].
  destruct (eachAlternate _ _ _ _) as [rest|e|]; cbn [mbind out_bind]; [done|split; [done|intros ? [= <-]; auto]|done].
Qed.

(** What an error says about the file system. *)
Definition justified (storagePrefix : list ascii) (e : DirsError) : Prop :=
  match e with
  | AlternateOutsideStorage d => HasPrefix d storagePrefix = false
  | ErrStat d => stat d = StatError
  | ErrRead d => stat d = StatDir /\ readFile (JoinPath d (text "info/alternates")) = ReadError
  end.

Lemma altObjectDirs_failure levels storagePrefix objDir :
  altObjectDirs levels storagePrefix objDir ≠ Panic /\
  forall e, altObjectDirs levels storagePrefix objDir = Err e -> justified storagePrefix e.
Proof.
  revert objDir. induction levels as [|levels IH]; intros objDir; cbn [altObjectDirs]; [done|].
  destruct (stat objDir) eqn:Hs; try done; [|split; [done|by intros ? [= <-]]].
  destruct (readFile _) as [s| |] eqn:Hr; [|done|split; [done|by intros ? [= <-]]].
  destruct (eachAlternate_err (altObjectDirs levels storagePrefix) storagePrefix objDir (Split newline s) (justified storagePrefix))
    as [Hp He]; [intros; by eapply IH|intros; apply IH|done|].
  destruct (eachAlternate _ _ _ _) as [rest|e|]; cbn [mbind out_bind]; [done|split; [done|intros ? [= <-]; auto]|done].
Qed.

End Dirs.

(** Reading the object directories of a repository ends with a result for every
    file system, even one whose alternates form a cycle: at most five levels below
    the repository's own directory are followed, so there are at most
    [1 + b + ... + b^5] directories if no alternates file has more than [b] lines.
    Every one of them exists, and every one but the repository's own has the storage
    root as the start of its name; one that has not is an error. *)
Theorem object_directories_bounded stat readFile storageRoot repoPath b :
  linesBound readFile b ->
  match ObjectDirectories stat readFile storageRoot repoPath with
  | Ok dirs => (length dirs <= geometric b 6)%nat /\
      Forall (fun d => stat d = StatDir /\
        (d = JoinPath repoPath (text "objects") \/ HasPrefix d (storageRoot ++ [slash]) = true)) dirs /\
      (stat (JoinPath repoPath (text "objects")) = StatDir -> head dirs = Some (JoinPath repoPath (text "objects")))
  | Err (AlternateOutsideStorage d) => HasPrefix d (storageRoot ++ [slash]) = false
  | Err (ErrStat d) => stat d = StatError
  | Err (ErrRead d) => stat d = StatDir /\ readFile (JoinPath d (text "info/alternates")) = ReadError
  | Panic => False
  end.
Proof.
  intros Hb. unfold ObjectDirectories. set (prefix := storageRoot ++ [slash]). set (objDir := JoinPath repoPath _).
  destruct (altObjectDirs stat readFile _ prefix objDir) as [dirs|e|] eqn:Hd.
  - split; [by apply (altObjectDirs_length stat readFile b) in Hd|]. apply altObjectDirs_ok in Hd as [Hall Hhead].
    split; [done|]. intros Hs. by apply Hhead.
  - by apply (altObjectDirs_failure stat readFile) in Hd; destruct e.
  - by apply altObjectDirs_failure in Hd.
Qed.

(** *** Staying inside the storage *)

Section Confined.
Context (stat : list ascii -> StatResult) (readFile : list ascii -> ReadResult)
  (root : list ascii) (parts : list (list ascii)).
Hypothesis Hroot : clean_dir root parts.
(** No alternates file names an absolute directory in another form than its clean one. *)
Hypothesis Hlines : forall path s line,
  readFile path = Content s -> line ∈ Split newline s -> rooted line = true -> Clean line = line.

Definition inside (d : list ascii) : Prop := exists rest, Forall plain rest /\ d = slash :: Join slash (parts ++ rest).

Lemma inside_elements qs :
  Forall plain qs -> HasPrefix (slash :: Join slash qs) (root ++ [slash]) = true -> inside (slash :: Join slash qs).
Proof using Hroot.
  intros Hq [rest Hpre]%HasPrefix_spec. pose proof Hroot as [Hp Hne Hr].
  destruct (proj1 (render_prefix parts qs Hp Hq Hne)) as [more ->].
  - right. exists rest. by rewrite <- Hr, Hpre, <- app_assoc.
  - exists more. split; [|done]. by apply Forall_app in Hq as [_ ?].
Qed.

Lemma lineDir_inside objDir path s line :
  inside objDir -> readFile path = Content s -> line ∈ Split newline s ->
  HasPrefix (lineDir objDir line) (root ++ [slash]) = true -> inside (lineDir objDir line).
Proof using Hroot Hlines.
  intros (rest & Hrest & ->) Hs Hline. unfold lineDir. destruct (rooted line) eqn:Habs.
  - pose proof (Hlines _ _ _ Hs Hline Habs) as Hc. unfold Clean in Hc. rewrite Habs in Hc. cbn [render] in Hc.
    rewrite <- Hc. apply inside_elements. apply HasPrefix_spec in Habs as [more ->]. apply elements_plain.
  - pose proof (clean_dir_app _ _ _ Hroot Hrest) as Hd. rewrite (JoinPath_joined _ _ _ Hd). apply inside_elements.
    by apply joined_plain, Hd.
Qed.

Lemma altObjectDirs_inside levels objDir dirs :
  inside objDir -> altObjectDirs stat readFile levels (root ++ [slash]) objDir = Ok dirs -> Forall inside dirs.
Proof using Hroot Hlines.
  revert objDir dirs. induction levels as [|levels IH]; intros objDir dirs Hin; cbn [altObjectDirs]; [by intros [= <-]; constructor|].
  destruct (stat objDir); try (by intros [= <-]; constructor); try done.
  destruct (readFile _) as [s| |] eqn:Hs; [|by intros [= <-]; repeat constructor|done].
  destruct (eachAlternate _ _ _ _) as [rest| |] eqn:He; cbn [mbind out_bind]; try done. intros [= <-]. constructor; [done|].
  revert rest He. assert (Hsub : forall line, line ∈ Split newline s -> line ∈ Split newline s) by done.
  revert Hsub. generalize (Split newline s) at 1 3 as lines. induction lines as [|l lines IHl]; intros Hsub rest; cbn [eachAlternate].
  { intros [= <-]. constructor. }
  assert (Hsub' : forall line, line ∈ lines -> line ∈ Split newline s) by (intros; apply Hsub; by right).
  case_decide; [by apply IHl|]. destruct (HasPrefix _ _) eqn:Hpre; [|done].
  destruct (altObjectDirs _ _ _ _ _) as [ds| |] eqn:Hds; cbn [mbind out_bind]; try done.
  destruct (eachAlternate _ _ _ lines) as [more| |] eqn:He; cbn [mbind out_bind]; try done. intros [= <-].
  apply Forall_app. split; [|by apply (IHl Hsub' more)]. eapply IH; [|exact Hds].
  eapply lineDir_inside; [done|exact Hs|apply Hsub; by left|done].
Qed.

End Confined.

(** If the absolute directories in alternates files are written in their clean
    form, every object directory of a repository inside a storage is inside that
    storage too, dots resolved, however the relative alternates are nested. *)
Theorem object_directories_confined stat readFile root parts rest repoPath dirs :
  clean_dir root parts ->
  (forall path s line, readFile path = Content s -> line ∈ Split newline s -> rooted line = true -> Clean line = line) ->
  Forall plain rest -> repoPath = slash :: Join slash (parts ++ rest) ->
  ObjectDirectories stat readFile root repoPath = Ok dirs ->
  Forall (inside parts) dirs.
Proof.
  intros Hroot Hlines Hrest -> Hok. eapply altObjectDirs_inside; [exact Hroot|exact Hlines| |exact Hok].
  pose proof (clean_dir_app _ _ _ Hroot Hrest) as Hd. rewrite (JoinPath_joined _ _ _ Hd).
  change (text "objects") with (Join slash [text "objects"]).
  assert (Hobj : Forall plain [text "objects"]) by (constructor; [apply plain_dec_unpack; vm_compute; reflexivity|constructor]).
  rewrite joined_app by done. exists (rest ++ [text "objects"]). split; [by apply Forall_app|by rewrite app_assoc].
Qed.

(** The directories besides the repository's own cannot be read for a
    repository that has no object directory: the code then takes the elements after
    the first of an empty slice, and panics. *)
Theorem alternate_directories_panic stat readFile storageRoot repoPath :
  AlternateObjectDirectories stat readFile storageRoot repoPath = Panic <->
  stat (JoinPath repoPath (text "objects")) = StatNotExist \/ stat (JoinPath repoPath (text "objects")) = StatFile.
Proof.
  unfold AlternateObjectDirectories, ObjectDirectories. set (objDir := JoinPath repoPath _).
  cbn [altObjectDirs]. destruct (stat objDir) eqn:Hs; cbn [mbind out_bind]; [|split; auto..|split; [done|by intros [?|?]]].
  split; [|by intros [?|?]]. destruct (readFile _) as [s| |]; try done.
  set (o := eachAlternate _ _ _ _). assert (Hp : o ≠ Panic).
  { apply (eachAlternate_err _ _ _ _ (fun _ => True)); try done. intros dir. apply altObjectDirs_failure. }
  by destruct o.
Qed.

(** ** Instances *)

(** A repository with a relative and an absolute alternate that are each other's. *)
Definition ex_read (path : list ascii) : ReadResult :=
  if decide (path = text "/parent/a.git/objects/info/alternates") then
    Content (text "# pool" ++ newline :: text "../../pool.git/objects")
  else if decide (path = text "/parent/pool.git/objects/info/alternates") then
    Content (text "/parent/a.git/objects" ++ [newline])
  else ReadNotExist.

Lemma ex_read_cases path s :
  ex_read path = Content s ->
  s = text "# pool" ++ newline :: text "../../pool.git/objects" \/ s = text "/parent/a.git/objects" ++ [newline].
Proof. unfold ex_read. repeat case_decide; intros [= <-]; auto. Qed.

Lemma ex_read_bound : linesBound ex_read 2.
Proof. intros path s [->| ->]%ex_read_cases; vm_compute; lia. Qed.

Lemma ex_read_clean path s line :
  ex_read path = Content s -> line ∈ Split newline s -> rooted line = true -> Clean line = line.
Proof.
  intros Hs Hl Hr. assert (Hall : forallb (fun l => negb (rooted l) || bool_decide (Clean l = l)) (Split newline s) = true).
  { apply ex_read_cases in Hs as [->| ->]; vm_compute; reflexivity. }
  rewrite forallb_forall in Hall. specialize (Hall line (proj1 (list_elem_of_In _ _) Hl)). rewrite Hr in Hall.
  by apply bool_decide_eq_true in Hall.
Qed.

Lemma object_directories_bounded_witness :
  exists dirs, ObjectDirectories (fun _ => StatDir) ex_read (text "/parent") (text "/parent/a.git") = Ok dirs /\
    length dirs = 6%nat /\ (length dirs <= geometric 2 6)%nat.
Proof.
  assert (Hok : exists dirs, ObjectDirectories (fun _ => StatDir) ex_read (text "/parent") (text "/parent/a.git") = Ok dirs /\
    length dirs = 6%nat) by (eexists; split; [vm_compute; reflexivity|reflexivity]).
  destruct Hok as (dirs & Hok & Hlen). exists dirs. split; [exact Hok|]. split; [exact Hlen|].
  pose proof (object_directories_bounded (fun _ => StatDir) ex_read (text "/parent") (text "/parent/a.git") 2 ex_read_bound) as H.
  rewrite Hok in H. exact (proj1 H).
Defined.

Lemma object_directories_confined_witness :
  exists dirs, ObjectDirectories (fun _ => StatDir) ex_read (text "/parent") (text "/parent/a.git") = Ok dirs /\
    Forall (inside [text "parent"]) dirs.
Proof.
  assert (Hok : exists dirs, ObjectDirectories (fun _ => StatDir) ex_read (text "/parent") (text "/parent/a.git") = Ok dirs)
    by (eexists; vm_compute; reflexivity).
  destruct Hok as [dirs Hok]. exists dirs. split; [exact Hok|].
  apply (object_directories_confined (fun _ => StatDir) ex_read (text "/parent") [text "parent"] [text "a.git"]
    (text "/parent/a.git") dirs ex_parent_clean ex_read_clean); [|reflexivity|exact Hok].
  constructor; [apply plain_dec_unpack; vm_compute; reflexivity|constructor].
Defined.

(** The names are compared as strings: an absolute alternate that is not clean can
    leave the storage. *)
Lemma absolute_alternate_escapes :
  ObjectDirectories (fun _ => StatDir)
    (fun path => if decide (path = text "/parent/a.git/objects/info/alternates")
                 then Content (text "/parent/../etc/objects") else ReadNotExist)
    (text "/parent") (text "/parent/a.git") = Ok [text "/parent/a.git/objects"; text "/parent/../etc/objects"] /\
  Clean (text "/parent/../etc/objects") = text "/etc/objects".
Proof. split; vm_compute; reflexivity. Qed.
