(* ===== verification/Regex.v ===== *)
(** Go's package regexp as far as the modelled code uses it: regular expressions over
    bytes, matched by derivatives ([MatchString]), and what a match means ([lang]).

    The expressions of the code are anchored at the start; one without an anchor at
    its end is closed with [anything]. The dot matches every byte but the newline:
    on a string in UTF-8 that is the same set of strings as with Go's characters,
    since the separators used with it are single ASCII bytes. *)

From Stdlib Require Import Strings.Ascii.
From S2P Require Import Prelude.

Inductive regex : Type :=
| Void
| Empty
| Class (p : ascii -> bool)
| Seq (r1 r2 : regex)
| Alt (r1 r2 : regex)
| Star (r : regex).

(** ** Notation of the expressions *)

Definition Lit (c : ascii) : regex := Class (fun x => bool_decide (x = c)).
Definition Plus (r : regex) : regex := Seq r (Star r).
Definition anything : regex := Star (Class (fun _ => true)).
Definition dotClass : regex := Class (fun x => negb (bool_decide (x = ascii_of_nat 10))).

Definition between (lo hi : nat) (x : ascii) : bool := (lo <=? nat_of_ascii x)%nat && (nat_of_ascii x <=? hi)%nat.
Definition isDigit (x : ascii) : bool := between 48 57 x.
Definition isAlnum (x : ascii) : bool := between 48 57 x || between 65 90 x || between 97 122 x.

Fixpoint Times (n : nat) (r : regex) : regex :=
  match n with O => Empty | S n => Seq r (Times n r) end.

(** ** Matching *)

Fixpoint nullable (r : regex) : bool :=
  match r with
  | Void | Class _ => false
  | Empty | Star _ => true
  | Seq r1 r2 => nullable r1 && nullable r2
  | Alt r1 r2 => nullable r1 || nullable r2
  end.

Fixpoint deriv (c : ascii) (r : regex) : regex :=
  match r with
  | Void | Empty => Void
  | Class p => if p c then Empty else Void
  | Seq r1 r2 =>
    if nullable r1 then Alt (Seq (deriv c r1) r2) (deriv c r2) else Seq (deriv c r1) r2
  | Alt r1 r2 => Alt (deriv c r1) (deriv c r2)
  | Star r => Seq (deriv c r) (Star r)
  end.

Fixpoint MatchString (r : regex) (s : list ascii) : bool :=
  match s with
  | [] => nullable r
  | c :: s => MatchString (deriv c r) s
  end.

(** ** Meaning *)

Inductive lang : regex -> list ascii -> Prop :=
| l_empty : lang Empty []
| l_class p c : p c = true -> lang (Class p) [c]
| l_seq r1 r2 s1 s2 : lang r1 s1 -> lang r2 s2 -> lang (Seq r1 r2) (s1 ++ s2)
| l_alt1 r1 r2 s : lang r1 s -> lang (Alt r1 r2) s
| l_alt2 r1 r2 s : lang r2 s -> lang (Alt r1 r2) s
| l_star_nil r : lang (Star r) []
| l_star_cons r s1 s2 : lang r s1 -> lang (Star r) s2 -> lang (Star r) (s1 ++ s2).

Create HintDb regex.
#[export] Hint Constructors lang : regex.

Lemma lang_empty s : lang Empty s <-> s = [].
Proof. split; [by inversion 1|intros ->; constructor]. Qed.

Lemma lang_class p s : lang (Class p) s <-> exists c, s = [c] /\ p c = true.
Proof. split; [inversion 1; eauto|intros (c & -> & ?); by constructor]. Qed.

Lemma lang_seq r1 r2 s : lang (Seq r1 r2) s <-> exists s1 s2, s = s1 ++ s2 /\ lang r1 s1 /\ lang r2 s2.
Proof. split; [inversion 1; eauto|intros (s1 & s2 & -> & ? & ?); by constructor]. Qed.

Lemma lang_alt r1 r2 s : lang (Alt r1 r2) s <-> lang r1 s \/ lang r2 s.
Proof. split; [inversion 1; eauto|intros [?|?]; auto with regex]. Qed.

Lemma nullable_lang r : nullable r = true <-> lang r [].
Proof.
  induction r as [| |p|r1 IH1 r2 IH2|r1 IH1 r2 IH2|r IH]; cbn [nullable].
  - split; [done|inversion 1].
  - by rewrite lang_empty.
  - rewrite lang_class. split; [done|intros (? & ? & ?); done].
  - rewrite andb_true_iff, IH1, IH2, lang_seq. split.
    + intros [? ?]. by exists [], [].
    + intros (s1 & s2 & Heq & ? & ?). symmetry in Heq. by apply app_eq_nil in Heq as [-> ->].
  - by rewrite orb_true_iff, IH1, IH2, lang_alt.
  - split; [intros _; constructor|done].
Qed.

(** The first byte of a starred match belongs to a non-empty first factor. *)
Lemma star_cons r s : lang (Star r) s ->
  forall c s', s = c :: s' -> exists s1 s2, s' = s1 ++ s2 /\ lang r (c :: s1) /\ lang (Star r) s2.
Proof.
  intros Hs. remember (Star r) as r' eqn:Hr. induction Hs; simplify_eq; try done.
  intros c s' Heq. destruct s1 as [|x s1]; simplify_eq/=; [by apply IHHs2|by exists s1, s2].
Qed.

Lemma deriv_lang c r s : lang (deriv c r) s <-> lang r (c :: s).
Proof.
  revert s. induction r as [| |p|r1 IH1 r2 IH2|r1 IH1 r2 IH2|r IH]; intros s; cbn [deriv].
  - split; inversion 1.
  - split; inversion 1.
  - rewrite lang_class. destruct (p c) eqn:Hp.
    + rewrite lang_empty. split; [intros ->; eauto|intros (? & ? & ?); by simplify_eq].
    + split; [inversion 1|intros (? & ? & ?); simplify_eq; congruence].
  - assert (Hfirst : lang (Seq (deriv c r1) r2) s <-> exists s1 s2, s = s1 ++ s2 /\ lang r1 (c :: s1) /\ lang r2 s2).
    { rewrite lang_seq. by setoid_rewrite IH1. }
    destruct (nullable r1) eqn:Hn.
    + rewrite lang_alt, Hfirst, IH2, lang_seq. split.
      * intros [(s1 & s2 & -> & ? & ?)|?]; [by exists (c :: s1), s2|]. exists [], (c :: s). split; [done|].
        split; [by apply nullable_lang|done].
      * intros (s1 & s2 & Heq & ? & ?). destruct s1 as [|x s1]; simplify_eq/=; [by right|left; by exists s1, s2].
    + rewrite Hfirst, lang_seq. split.
      * intros (s1 & s2 & -> & ? & ?). by exists (c :: s1), s2.
      * intros (s1 & s2 & Heq & Hs1 & ?). destruct s1 as [|x s1]; simplify_eq/=; [|by exists s1, s2].
        apply nullable_lang in Hs1. congruence.
  - by rewrite !lang_alt, IH1, IH2.
  - rewrite lang_seq. setoid_rewrite IH. split.
    + intros (s1 & s2 & -> & ? & ?). change (c :: s1 ++ s2) with ((c :: s1) ++ s2). by constructor.
    + intros Hs. by apply (star_cons r (c :: s)).
Qed.

Lemma MatchString_lang r s : MatchString r s = true <-> lang r s.
Proof.
  revert r. induction s as [|c s IH]; intros r; cbn [MatchString]; [apply nullable_lang|]. by rewrite IH, deriv_lang.
Qed.

(** ** The bytes of a match *)

Fixpoint chars (r : regex) (c : ascii) : bool :=
  match r with
  | Void | Empty => false
  | Class p => p c
  | Seq r1 r2 | Alt r1 r2 => chars r1 c || chars r2 c
  | Star r => chars r c
  end.

Lemma lang_chars r s c : lang r s -> c ∈ s -> chars r c = true.
Proof.
  intros Hs Hc. induction Hs; cbn [chars]; try (by apply elem_of_nil in Hc);
    try (by apply list_elem_of_singleton in Hc as ->); try (apply elem_of_app in Hc as [?|?]);
    rewrite ?orb_true_iff; auto.
Qed.

Lemma lang_plus_first p r s : lang (Seq (Plus (Class p)) r) s -> exists c s', s = c :: s' /\ p c = true.
Proof.
  intros (s1 & s2 & -> & H1 & _)%lang_seq. apply lang_seq in H1 as (s3 & s4 & -> & H3 & _).
  apply lang_class in H3 as (c & -> & Hc). by exists c, (s4 ++ s2).
Qed.

Lemma lang_anything s : lang anything s.
Proof.
  induction s as [|c s IH]; [constructor|]. change (c :: s) with ([c] ++ s). apply l_star_cons; [by constructor|done].
Qed.

Lemma lang_star_class p s : lang (Star (Class p)) s <-> forall c, c ∈ s -> p c = true.
Proof.
  split; [intros Hs c Hc; by apply (lang_chars _ _ _ Hs) in Hc|]. induction s as [|c s IH]; intros Hs; [constructor|].
  change (c :: s) with ([c] ++ s). apply l_star_cons; [constructor; apply Hs; by left|apply IH; intros; apply Hs; by right].
Qed.

Lemma lang_times n p s : lang (Times n (Class p)) s <-> length s = n /\ forall c, c ∈ s -> p c = true.
Proof.
  revert s. induction n as [|n IH]; intros s; cbn [Times].
  - rewrite lang_empty. split; [intros ->; split; [done|by intros ? ?%elem_of_nil]|intros [? _]; by apply nil_length_inv].
  - rewrite lang_seq. setoid_rewrite lang_class. setoid_rewrite IH. split.
    + intros (s1 & s2 & -> & (c & -> & Hc) & <- & Hall). split; [done|]. intros x [->|?]%elem_of_cons; auto.
    + intros [Hlen Hall]. destruct s as [|c s]; [done|]. exists [c], s. split_and!; [done| |simpl in Hlen; lia|].
      * exists c. split; [done|]. apply Hall. by left.
      * intros x Hx. apply Hall. by right.
Qed.
