(* ===== verification/HooksPayload.v ===== *)
(** How a Gitaly node hands a git hook what it needs to know:
    src/internal/git/hooks_payload.go, with the base64 encoding it uses.

    The JSON encodings are parameters: of the repository message (protojson) and of
    the payload's other fields (encoding/json). *)

From Stdlib Require Import Strings.Ascii.
From S2P Require Import Prelude GoStrings.

(** ** Package encoding/base64 *)

Module Base64.

Definition alphabet : list ascii := text "ABCDEFGHIJKLMNOPQRSTUVWXYZabcdefghijklmnopqrstuvwxyz0123456789+/".
Definition pad : ascii := "="%char.

Definition enc6 (n : Z) : ascii := default pad (alphabet !! Z.to_nat n).
Definition dec6 (c : ascii) : option Z :=
  match list_find (eq c) alphabet with Some (i, _) => Some (Z.of_nat i) | None => None end.

Definition code (c : ascii) : Z := Z.of_N (N_of_ascii c).
Definition chr (z : Z) : ascii := ascii_of_N (Z.to_N z).

(** The four groups of six bits of three bytes. *)
Definition quad (v : Z) : ascii * ascii * ascii * ascii :=
  (enc6 (v / 262144), enc6 (v / 4096 mod 64), enc6 (v / 64 mod 64), enc6 (v mod 64)).

Definition group (a b c : Z) : Z := a * 65536 + b * 256 + c.

Fixpoint EncodeToString (l : list ascii) : list ascii :=
  match l with
  | [] => []
  | [a] => let '(w, x, _, _) := quad (group (code a) 0 0) in [w; x; pad; pad]
  | [a; b] => let '(w, x, y, _) := quad (group (code a) (code b) 0) in [w; x; y; pad]
  | a :: b :: c :: l =>
    let '(w, x, y, z) := quad (group (code a) (code b) (code c)) in w :: x :: y :: z :: EncodeToString l
  end.

(** The bytes of four groups of six bits. *)
Definition unquad (w x y z : Z) : ascii * ascii * ascii :=
  let v := w * 262144 + x * 4096 + y * 64 + z in
  (chr (v / 65536), chr (v / 256 mod 256), chr (v mod 256)).

Fixpoint decodeQuads (l : list ascii) : option (list ascii) :=
  match l with
  | [] => Some []
  | w :: x :: y :: z :: l =>
    w ← dec6 w; x ← dec6 x;
    if decide (y = pad) then
      if decide (z = pad /\ l = []) then Some [(unquad w x 0 0).1.1] else None
    else
      y ← dec6 y;
      if decide (z = pad) then
        if decide (l = []) then Some [(unquad w x y 0).1.1; (unquad w x y 0).1.2] else None
      else
        z ← dec6 z; rest ← decodeQuads l;
        Some ((unquad w x y z).1.1 :: (unquad w x y z).1.2 :: (unquad w x y z).2 :: rest)
  | _ => None
  end.

Definition isNewline (c : ascii) : Prop := c = ascii_of_nat 10 \/ c = ascii_of_nat 13.
#[export] Instance isNewline_dec c : Decision (isNewline c) := ltac:(unfold isNewline; apply _).

(** Line breaks are ignored. *)
Definition DecodeString (s : list ascii) : option (list ascii) := decodeQuads (filter (fun c => ~ isNewline c) s).

(** *** Round trip *)

Definition sextet_ok (n : Z) : bool :=
  bool_decide (dec6 (enc6 n) = Some n /\ enc6 n ≠ pad /\ ~ isNewline (enc6 n)).

Lemma sextets_ok : forallb sextet_ok (Z.of_nat <$> seq 0 64) = true.
Proof. vm_compute. reflexivity. Qed.

Lemma sextet n : 0 <= n < 64 -> dec6 (enc6 n) = Some n /\ enc6 n ≠ pad /\ ~ isNewline (enc6 n).
Proof.
  intros Hn. pose proof sextets_ok as Hok. rewrite forallb_forall in Hok.
  specialize (Hok n). apply bool_decide_eq_true_1 in Hok; [done|]. apply list_elem_of_In, list_elem_of_fmap.
  exists (Z.to_nat n). rewrite elem_of_seq. lia.
Qed.

Lemma code_range c : 0 <= code c < 256.
Proof. unfold code. pose proof (N_ascii_bounded c). lia. Qed.

Lemma chr_code c : chr (code c) = c.
Proof. unfold chr, code. by rewrite N2Z.id, ascii_N_embedding. Qed.

Lemma group_bytes a b c v :
  0 <= a < 256 -> 0 <= b < 256 -> 0 <= c < 256 -> v = group a b c ->
  v / 65536 = a /\ v / 256 mod 256 = b /\ v mod 256 = c.
Proof. unfold group. intros. subst. split_and!; Z.div_mod_to_equations; lia. Qed.

Lemma group_sextets v :
  0 <= v < 16777216 ->
  0 <= v / 262144 < 64 /\ 0 <= v / 4096 mod 64 < 64 /\ 0 <= v / 64 mod 64 < 64 /\ 0 <= v mod 64 < 64 /\
  v / 262144 * 262144 + v / 4096 mod 64 * 4096 + v / 64 mod 64 * 64 + v mod 64 = v.
Proof. intros. split_and!; Z.div_mod_to_equations; lia. Qed.

(** Encoding takes three bytes at a time. *)
Lemma list_ind3 (P : list ascii -> Prop) :
  P [] -> (forall a, P [a]) -> (forall a b, P [a; b]) -> (forall a b c l, P l -> P (a :: b :: c :: l)) -> forall l, P l.
Proof.
  intros H0 H1 H2 H3. fix IH 1. intros [|a [|b [|c l]]]; [done|apply H1|apply H2|apply H3, IH].
Qed.

(** What is decoded from the groups of three bytes. *)
Lemma quad_decode a b c v :
  0 <= a < 256 -> 0 <= b < 256 -> 0 <= c < 256 -> v = group a b c ->
  exists s0 s1 s2 s3, quad v = (enc6 s0, enc6 s1, enc6 s2, enc6 s3) /\
    (0 <= s0 < 64 /\ 0 <= s1 < 64 /\ 0 <= s2 < 64 /\ 0 <= s3 < 64) /\
    unquad s0 s1 s2 s3 = (chr a, chr b, chr c) /\
    (c = 0 -> s3 = 0) /\ (b = 0 -> c = 0 -> s2 = 0).
Proof.
  intros Ha Hb Hc Hv. assert (Hrange : 0 <= v < 16777216) by (unfold group in Hv; lia).
  destruct (group_sextets v Hrange) as (? & ? & ? & ? & Hsum). do 4 eexists. split; [reflexivity|].
  split; [done|]. split.
  - unfold unquad. rewrite Hsum. by destruct (group_bytes a b c v Ha Hb Hc Hv) as (-> & -> & ->).
  - unfold group in Hv. split; intros; Z.div_mod_to_equations; lia.
Qed.

Ltac sextets :=
  repeat match goal with H : 0 <= ?n < 64 |- _ =>
    let H1 := fresh "Hd" in let H2 := fresh "Hp" in let H3 := fresh "Hl" in
    destruct (sextet n H) as (H1 & H2 & H3); clear H end.

Lemma encode_no_newline l : Forall (fun c => ~ isNewline c) (EncodeToString l).
Proof.
  assert (Hpad : ~ isNewline pad) by (intros [?|?]; done).
  induction l as [|a|a b|a b c l IH] using list_ind3; cbn [EncodeToString]; [constructor|..].
  - destruct (quad_decode (code a) 0 0 _ (code_range a) ltac:(lia) ltac:(lia) eq_refl) as (? & ? & ? & ? & -> & (? & ? & ? & ?) & _).
    sextets. by repeat constructor.
  - destruct (quad_decode (code a) (code b) 0 _ (code_range a) (code_range b) ltac:(lia) eq_refl)
      as (? & ? & ? & ? & -> & (? & ? & ? & ?) & _). sextets. by repeat constructor.
  - destruct (quad_decode (code a) (code b) (code c) _ (code_range a) (code_range b) (code_range c) eq_refl)
      as (? & ? & ? & ? & -> & (? & ? & ? & ?) & _). sextets. by repeat constructor.
Qed.

Lemma decodeQuads_encode l : decodeQuads (EncodeToString l) = Some l.
Proof.
  induction l as [|a|a b|a b c l IH] using list_ind3; cbn [EncodeToString]; [done|..].
  - destruct (quad_decode (code a) 0 0 _ (code_range a) ltac:(lia) ltac:(lia) eq_refl)
      as (s0 & s1 & s2 & s3 & -> & (? & ? & ? & ?) & Hu & Hc & Hb). sextets. cbn [decodeQuads].
    rewrite Hd2, Hd1. cbn [mbind option_bind]. rewrite !decide_True by done.
    specialize (Hb eq_refl eq_refl). specialize (Hc eq_refl). subst. by rewrite Hu; cbn; rewrite chr_code.
  - destruct (quad_decode (code a) (code b) 0 _ (code_range a) (code_range b) ltac:(lia) eq_refl)
      as (s0 & s1 & s2 & s3 & -> & (? & ? & ? & ?) & Hu & Hc & _). sextets. cbn [decodeQuads].
    rewrite Hd2, Hd1. cbn [mbind option_bind]. rewrite decide_False by done. rewrite Hd0. cbn [mbind option_bind].
    rewrite !decide_True by done. specialize (Hc eq_refl). subst. by rewrite Hu; cbn; rewrite !chr_code.
  - destruct (quad_decode (code a) (code b) (code c) _ (code_range a) (code_range b) (code_range c) eq_refl)
      as (s0 & s1 & s2 & s3 & -> & (? & ? & ? & ?) & Hu & _). sextets. cbn [decodeQuads].
    rewrite Hd2, Hd1. cbn [mbind option_bind]. rewrite decide_False by done. rewrite Hd0. cbn [mbind option_bind].
    rewrite decide_False by done. rewrite Hd, IH. cbn [mbind option_bind]. by rewrite Hu; cbn; rewrite !chr_code.
Qed.

Lemma base64_roundtrip l : DecodeString (EncodeToString l) = Some l.
Proof.
  unfold DecodeString. rewrite filter_all; [apply decodeQuads_encode|]. intros c Hc.
  pose proof (encode_no_newline l) as Hall. rewrite Forall_forall in Hall. by apply Hall.
Qed.

End Base64.

(** ** The payload *)

Definition ReferenceTransactionHook : Z := 1.
Definition UpdateHook : Z := 2.
Definition PreReceiveHook : Z := 4.
Definition PostReceiveHook : Z := 8.
Definition PackObjectsHook : Z := 16.

Definition AllHooks : Z :=
  Z.lor ReferenceTransactionHook (Z.lor UpdateHook (Z.lor PreReceiveHook (Z.lor PostReceiveHook PackObjectsHook))).
Definition ReceivePackHooks : Z :=
  Z.lor ReferenceTransactionHook (Z.lor UpdateHook (Z.lor PreReceiveHook PostReceiveHook)).

Definition EnvHooksPayload : list ascii := text "GITALY_HOOKS_PAYLOAD".

Inductive PayloadError : Type := ErrPayloadNotFound | ErrBase64 | ErrJSON | ErrProtoJSON.

(** The repository message of a request, as far as it is used. *)
Record Repository : Type := mkRepository {
  StorageName : string;
  RelativePath : list ascii;
  GitObjectDirectory : list ascii;
  GitAlternateObjectDirectories : list (list ascii);
  GlRepository : list ascii;
  GlProjectPath : list ascii;
}.

Record TxInfo : Type := mkTxInfo {
  BackchannelID : Z;
  ID : Z;
  Node : list ascii;
  Primary : bool;
}.

Record ReceiveHooksPayload : Type := mkReceiveHooksPayload {
  UserID : list ascii;
  Username : list ascii;
  Protocol : list ascii;
}.

Record HooksPayload : Type := mkHooksPayload {
  RequestedHooks : Z;
  FeatureFlags : gmap string string;
  Repo : option Repository;
  BinDir : list ascii;
  GitPath : list ascii;
  InternalSocket : list ascii;
  InternalSocketToken : list ascii;
  Transaction : option TxInfo;
  ReceivePayload : option ReceiveHooksPayload;
}.

(** What is encoded as JSON: the payload without its repository, and the repository
    in an encoding of its own. *)
Record jsonHooksPayload : Type := mkJsonHooksPayload {
  payload : HooksPayload;
  repository : list ascii;
}.

(** The settings of src/internal/gitaly/config/config.go that git commands need. *)
Record GitalyCfg : Type := mkCfg {
  cfg_BinDir : list ascii;
  cfg_GitBinPath : list ascii;
  cfg_InternalSocketDir : list ascii;
  cfg_AuthToken : list ascii;
  cfg_LoggingDir : list ascii;
  cfg_RubyDir : list ascii;
  cfg_PackObjectsCacheEnabled : bool;
}.

Definition GitalyInternalSocketPath (cfg : GitalyCfg) (pid : list ascii) : list ascii :=
  JoinPath (cfg_InternalSocketDir cfg) (text "internal_" ++ pid ++ text ".sock").

Definition NewHooksPayload (cfg : GitalyCfg) (pid : list ascii) (repo : option Repository) (tx : option TxInfo)
    (receiveHooksPayload : option ReceiveHooksPayload) (requestedHooks : Z) (featureFlags : gmap string string) :
    HooksPayload :=
  mkHooksPayload requestedHooks featureFlags repo (cfg_BinDir cfg) (cfg_GitBinPath cfg)
    (GitalyInternalSocketPath cfg pid) (cfg_AuthToken cfg) tx receiveHooksPayload.

Definition IsHookRequested (p : HooksPayload) (hook : Z) : bool := bool_decide (Z.land (RequestedHooks p) hook ≠ 0).

Definition equals : ascii := "="%char.

Fixpoint lookupEnv (envs : list (list ascii)) (key : list ascii) : option (list ascii) :=
  match envs with
  | [] => None
  | env :: envs =>
    match Cut equals env with
    | (name, Some value) => if decide (name = key) then Some value else lookupEnv envs key
    | (_, None) => lookupEnv envs key
    end
  end.

Definition setRepo (p : HooksPayload) (repo : option Repository) : HooksPayload :=
  mkHooksPayload (RequestedHooks p) (FeatureFlags p) repo (BinDir p) (GitPath p) (InternalSocket p)
    (InternalSocketToken p) (Transaction p) (ReceivePayload p).
Definition setGitPath (p : HooksPayload) (path : list ascii) : HooksPayload :=
  mkHooksPayload (RequestedHooks p) (FeatureFlags p) (Repo p) (BinDir p) path (InternalSocket p)
    (InternalSocketToken p) (Transaction p) (ReceivePayload p).
Definition setRequestedHooks (p : HooksPayload) (hooks : Z) : HooksPayload :=
  mkHooksPayload hooks (FeatureFlags p) (Repo p) (BinDir p) (GitPath p) (InternalSocket p)
    (InternalSocketToken p) (Transaction p) (ReceivePayload p).

Section Codec.
Context (protojson_Marshal : option Repository -> out PayloadError (list ascii))
  (protojson_Unmarshal : list ascii -> out PayloadError Repository)
  (json_Marshal : jsonHooksPayload -> out PayloadError (list ascii))
  (json_Unmarshal : list ascii -> out PayloadError jsonHooksPayload).

Definition HooksPayload_Env (p : HooksPayload) : out PayloadError (list ascii) :=
  repo ← protojson_Marshal (Repo p);
  marshalled ← json_Marshal (mkJsonHooksPayload p repo);
  Ok (EnvHooksPayload ++ equals :: Base64.EncodeToString marshalled).

Definition HooksPayloadFromEnv (envs : list (list ascii)) : out PayloadError HooksPayload :=
  match lookupEnv envs EnvHooksPayload with
  | None => Err ErrPayloadNotFound
  | Some encoded =>
    match Base64.DecodeString encoded with
    | None => Err ErrBase64
    | Some decoded =>
      jsonPayload ← json_Unmarshal decoded;
      repo ← protojson_Unmarshal (repository jsonPayload);
      let payload := setRepo (payload jsonPayload) (Some repo) in
      let payload :=
        if decide (GitPath payload = []) then
          setGitPath payload (default [] (lookupEnv envs (text "GITALY_GIT_BIN_PATH")))
        else payload in
      Ok (if decide (RequestedHooks payload = 0) then setRequestedHooks payload AllHooks else payload)
    end
  end.

(** *** Round trip *)

(** Decoding undoes encoding, up to the repository that has its own encoding. *)
Hypothesis Hjson : forall p r m,
  json_Marshal (mkJsonHooksPayload p r) = Ok m ->
  exists p0, json_Unmarshal m = Ok (mkJsonHooksPayload p0 r) /\ forall repo, setRepo p0 repo = setRepo p repo.
Hypothesis Hproto : forall repo m, protojson_Marshal (Some repo) = Ok m -> protojson_Unmarshal m = Ok repo.

Lemma lookupEnv_app before key value after :
  equals ∉ key -> lookupEnv before key = None -> lookupEnv (before ++ (key ++ equals :: value) :: after) key = Some value.
Proof.
  intros Hk. induction before as [|env before IH]; intros Hb; cbn [app lookupEnv] in *.
  - rewrite Cut_app by done. by rewrite decide_True.
  - destruct (Cut equals env) as [name [v|]]; [|auto]. case_decide; [done|auto].
Qed.

Lemma payload_decodes p repo env before after :
  Repo p = Some repo -> HooksPayload_Env p = Ok env -> lookupEnv before EnvHooksPayload = None ->
  exists p', HooksPayloadFromEnv (before ++ env :: after) = Ok p' /\
    Repo p' = Some repo /\ Transaction p' = Transaction p /\ ReceivePayload p' = ReceivePayload p /\
    FeatureFlags p' = FeatureFlags p /\ InternalSocket p' = InternalSocket p /\
    InternalSocketToken p' = InternalSocketToken p /\ BinDir p' = BinDir p /\
    GitPath p' = (if decide (GitPath p = []) then
                    default [] (lookupEnv (before ++ env :: after) (text "GITALY_GIT_BIN_PATH")) else GitPath p) /\
    forall hook, IsHookRequested p' hook =
      if decide (RequestedHooks p = 0) then bool_decide (Z.land AllHooks hook ≠ 0) else IsHookRequested p hook.
Proof using Hjson Hproto.
  assert (Hkey : equals ∉ EnvHooksPayload) by (apply (bool_decide_unpack _); vm_compute; exact I).
  unfold HooksPayload_Env, HooksPayloadFromEnv. revert Hkey. generalize EnvHooksPayload as key.
  intros key Hkey Hrepo Henv Hbefore. rewrite Hrepo in Henv.
  destruct (protojson_Marshal (Some repo)) as [r| |] eqn:Hr; cbn [mbind out_bind] in Henv; try done.
  destruct (json_Marshal _) as [m| |] eqn:Hm; cbn [mbind out_bind] in Henv; try done.
  destruct (Hjson _ _ _ Hm) as (p0 & Hun & Hset). specialize (Hset (Some repo)).
  injection Henv as <-. rewrite lookupEnv_app by done.
  rewrite Base64.base64_roundtrip. cbn [payload repository]. rewrite Hun. cbn [mbind out_bind repository payload].
  rewrite (Hproto _ _ Hr). cbn [mbind out_bind]. rewrite Hset. unfold IsHookRequested.
  eexists. split; [reflexivity|]. cbn [setRepo GitPath RequestedHooks].
  destruct (decide (GitPath p = [])), (decide (RequestedHooks p = 0)) as [H0|H0];
    cbn [setGitPath RequestedHooks setRepo]; rewrite ?H0; try (rewrite (decide_True (P := 0 = 0)) by done);
    rewrite ?(decide_False (P := RequestedHooks p = 0)) by done; split_and!; done.
Qed.

(** The payload a git hook reads from its environment is the one the node put
    there, whatever other variables surround it, as long as none before it has its
    name; a payload without a git path takes it from the older variable, and one
    that requests no hook at all requests every hook. *)
Theorem payload_roundtrip p repo env before after :
  Repo p = Some repo -> HooksPayload_Env p = Ok env -> lookupEnv before EnvHooksPayload = None ->
  exists p', HooksPayloadFromEnv (before ++ env :: after) = Ok p' /\
    Repo p' = Some repo /\ Transaction p' = Transaction p /\ ReceivePayload p' = ReceivePayload p /\
    FeatureFlags p' = FeatureFlags p /\ InternalSocket p' = InternalSocket p /\
    InternalSocketToken p' = InternalSocketToken p /\ BinDir p' = BinDir p /\
    GitPath p' = (if decide (GitPath p = []) then
                    default [] (lookupEnv (before ++ env :: after) (text "GITALY_GIT_BIN_PATH")) else GitPath p) /\
    forall hook, IsHookRequested p' hook =
      if decide (RequestedHooks p = 0) then bool_decide (Z.land AllHooks hook ≠ 0) else IsHookRequested p hook.
Proof using Hjson Hproto. apply payload_decodes. Qed.

End Codec.

(** *** Instance *)

#[export] Instance Repository_eq_dec : EqDecision Repository. Proof. solve_decision. Defined.
#[export] Instance TxInfo_eq_dec : EqDecision TxInfo. Proof. solve_decision. Defined.
#[export] Instance ReceiveHooksPayload_eq_dec : EqDecision ReceiveHooksPayload. Proof. solve_decision. Defined.
#[export] Instance HooksPayload_eq_dec : EqDecision HooksPayload. Proof. solve_decision. Defined.

(** A codec for the payloads that differ in their repository only, of which it knows
    one. *)
Module OnePayload.

Definition repo0 : Repository := mkRepository "default" (text "a/b.git") [] [] [] [].
Definition payload0 : HooksPayload :=
  mkHooksPayload ReferenceTransactionHook ∅ None (text "/bin") [] (text "/run/internal_7.sock") (text "token")
    (Some (mkTxInfo 1 42 (text "gitaly-1") true)) None.

Definition protojson_Marshal (r : option Repository) : out PayloadError (list ascii) :=
  if decide (r = Some repo0) then Ok (text "{}") else Err ErrProtoJSON.
Definition protojson_Unmarshal (s : list ascii) : out PayloadError Repository :=
  if decide (s = text "{}") then Ok repo0 else Err ErrProtoJSON.
Definition json_Marshal (j : jsonHooksPayload) : out PayloadError (list ascii) :=
  if decide (setRepo (payload j) None = payload0) then Ok (repository j) else Err ErrJSON.
Definition json_Unmarshal (s : list ascii) : out PayloadError jsonHooksPayload := Ok (mkJsonHooksPayload payload0 s).

Lemma json_inverse p r m :
  json_Marshal (mkJsonHooksPayload p r) = Ok m ->
  exists p0, json_Unmarshal m = Ok (mkJsonHooksPayload p0 r) /\ forall repo, setRepo p0 repo = setRepo p repo.
Proof.
  unfold json_Marshal. cbn [payload repository]. case_decide as Hp; [|done]. intros [= ->]. exists payload0.
  split; [done|]. intros repo. rewrite <- Hp. by destruct p.
Qed.

Lemma protojson_inverse repo m : protojson_Marshal (Some repo) = Ok m -> protojson_Unmarshal m = Ok repo.
Proof. unfold protojson_Marshal. case_decide; [|done]. intros [= <-]. by simplify_eq. Qed.

End OnePayload.

Lemma payload_roundtrip_witness :
  exists p', HooksPayloadFromEnv OnePayload.protojson_Unmarshal OnePayload.json_Unmarshal
      [text "GITALY_GIT_BIN_PATH=/usr/bin/git"; text "GITALY_HOOKS_PAYLOAD=e30="; text "LANG=C"] = Ok p' /\
    Transaction p' = Some (mkTxInfo 1 42 (text "gitaly-1") true) /\ GitPath p' = text "/usr/bin/git" /\
    IsHookRequested p' UpdateHook = false.
Proof.
  destruct (payload_roundtrip OnePayload.protojson_Marshal OnePayload.protojson_Unmarshal OnePayload.json_Marshal
    OnePayload.json_Unmarshal OnePayload.json_inverse OnePayload.protojson_inverse
    (setRepo OnePayload.payload0 (Some OnePayload.repo0)) OnePayload.repo0 (text "GITALY_HOOKS_PAYLOAD=e30=")
    [text "GITALY_GIT_BIN_PATH=/usr/bin/git"] [text "LANG=C"]) as (p' & Hp & _ & Htx & _ & _ & _ & _ & _ & Hgit & Hreq);
    [vm_compute; reflexivity..|].
  exists p'. split; [exact Hp|]. split; [exact Htx|]. split; [|by rewrite Hreq]. rewrite Hgit. vm_compute. reflexivity.
Defined.
