(* ===== verification/GitCommand.v ===== *)
(** How a Gitaly node builds the command lines and environments of the git processes
    it runs: src/internal/git/command_options.go, staticargs.go,
    command_description.go, command.go, hooks_options.go, protocol.go and
    command_factory.go, with src/internal/git/alternates and the environment of
    src/internal/command/command.go.

    Standard streams are named by numbers. Metrics and logs are left out. *)

From Stdlib Require Import Strings.Ascii.
From stdpp Require Import pretty.
From S2P Require Import Prelude GoStrings Locator Regex HooksPayload.

Inductive GitError : Type :=
| ErrInvalidArg (what : string) (arg : list ascii)
| ErrHookPayloadRequired (subcommand : string)
| ErrHooksAlreadyConfigured
| ErrTransactionInfo
| ErrHooksPayload (e : PayloadError)
| ErrConvertConfig (option : list ascii)
| ErrLocate (e : LocatorError)
| ErrNoDir
| ErrNullByte (arg : list ascii)
| ErrSpawn.

(** ** Options *)

Definition dash : ascii := "-"%char.
Definition alnum : regex := Class isAlnum.
Definition alnumDash : regex := Class (fun c => isAlnum c || bool_decide (c = dash)).
Definition dotChar : regex := Lit "."%char.

Definition configKeyOptionRegex : regex :=
  Seq (Plus alnum) (Seq (Star alnumDash) (Seq dotChar
    (Seq (Star (Seq (Plus dotClass) dotChar)) (Seq (Plus alnum) (Star alnumDash))))).

Definition configKeyGlobalRegex : regex :=
  Seq (Plus alnum)
    (Plus (Seq dotChar (Plus (Class (fun c => isAlnum c || bool_decide (c ∈ text "-/_")))))).

Definition flagRegex : regex := Seq (Alt (Lit dash) (Seq (Lit dash) (Lit dash))) (Seq alnum anything).

Record ConfigPair : Type := mkConfigPair {
  Key : list ascii;
  Value : list ascii;
  Origin : list ascii;
  Scope : list ascii;
}.

Definition configPair (key value : string) : ConfigPair := mkConfigPair (text key) (text value) [] [].

Definition ConfigPair_OptionArgs (cp : ConfigPair) : out GitError (list (list ascii)) :=
  if MatchString configKeyOptionRegex (Key cp) then Ok [Key cp; Value cp]
  else Err (ErrInvalidArg "config key failed regexp validation" (Key cp)).

Definition ConfigPair_GlobalArgs (cp : ConfigPair) : out GitError (list (list ascii)) :=
  if MatchString configKeyGlobalRegex (Key cp) then Ok [text "-c"; Key cp ++ equals :: Value cp]
  else Err (ErrInvalidArg "config key failed regexp validation" (Key cp)).

Definition Flag_OptionArgs (name : list ascii) : out GitError (list (list ascii)) :=
  if MatchString flagRegex name then Ok [name] else Err (ErrInvalidArg "flag failed regex validation" name).

Definition ValueFlag_OptionArgs (name value : list ascii) : out GitError (list (list ascii)) :=
  if MatchString flagRegex name then Ok [name; value]
  else Err (ErrInvalidArg "value flag failed regex validation" name).

(** The implementations of the interface [Option]. *)
Inductive Option : Type :=
| OConfigPair (cp : ConfigPair)
| OFlag (name : list ascii)
| OValueFlag (name value : list ascii)
| OStatic (value : list ascii).

Definition OptionArgs (o : Option) : out GitError (list (list ascii)) :=
  match o with
  | OConfigPair cp => ConfigPair_OptionArgs cp
  | OFlag name => Flag_OptionArgs name
  | OValueFlag name value => ValueFlag_OptionArgs name value
  | OStatic value => Ok [value]
  end.

Definition OutputToStdout : Option := OStatic (text "-").

(** The implementations of the interface [GlobalOption]. *)
Inductive GlobalOption : Type :=
| GConfigPair (cp : ConfigPair)
| GFlag (name : list ascii)
| GValueFlag (name value : list ascii).

Definition GlobalArgs (o : GlobalOption) : out GitError (list (list ascii)) :=
  match o with
  | GConfigPair cp => ConfigPair_GlobalArgs cp
  | GFlag name => Flag_OptionArgs name
  | GValueFlag name value => ValueFlag_OptionArgs name value
  end.

Fixpoint ConvertConfigOptions (options : list (list ascii)) : out GitError (list ConfigPair) :=
  match options with
  | [] => Ok []
  | option :: options =>
    match Cut equals option with
    | (_, None) => Err (ErrConvertConfig option)
    | (key, Some value) =>
      rest ← ConvertConfigOptions options;
      Ok (mkConfigPair key value [] [] :: rest)
    end
  end.

(** The arguments of a list of options, or the first error. *)
Fixpoint allArgs {A} (f : A -> out GitError (list (list ascii))) (options : list A) : out GitError (list (list ascii)) :=
  match options with
  | [] => Ok []
  | o :: options => args ← f o; rest ← allArgs f options; Ok (args ++ rest)
  end.

(** ** Command descriptions *)

Definition scNoRefUpdates : Z := 1.
Definition scNoEndOfOptions : Z := 2.
Definition scGeneratesPackfiles : Z := 4.

Record commandDescription : Type := mkDescription {
  flags : Z;
  opts : list GlobalOption;
  validatePositionalArgs : option (list (list ascii) -> out GitError unit);
}.

Definition mayUpdateRef (c : commandDescription) : bool := bool_decide (Z.land (flags c) scNoRefUpdates = 0).
Definition mayGeneratePackfiles (c : commandDescription) : bool :=
  bool_decide (Z.land (flags c) scGeneratesPackfiles ≠ 0).
Definition supportsEndOfOptions (c : commandDescription) : bool :=
  bool_decide (Z.land (flags c) scNoEndOfOptions = 0).

Definition validatePositionalArg (arg : list ascii) : out GitError unit :=
  if HasPrefix arg (text "-") then Err (ErrInvalidArg "positional arg cannot start with dash '-'" arg) else Ok tt.

Fixpoint validateAll (validate : list ascii -> out GitError unit) (args : list (list ascii)) : out GitError unit :=
  match args with
  | [] => Ok tt
  | arg :: args => _ ← validate arg; validateAll validate args
  end.

(** The pseudo-revisions that git-rev-list(1) takes between its arguments. *)
Definition validateRevListArg (arg : list ascii) : out GitError unit :=
  if decide (arg = text "--all" \/ arg = text "--not") then Ok tt else validatePositionalArg arg.

Definition args (c : commandDescription) (flags : list Option) (args postSepArgs : list (list ascii)) :
    out GitError (list (list ascii)) :=
  commandArgs ← allArgs OptionArgs flags;
  let commandArgs := if supportsEndOfOptions c then commandArgs ++ [text "--end-of-options"] else commandArgs in
  _ ← match validatePositionalArgs c with
      | Some validate => validate args
      | None => validateAll validatePositionalArg args
      end;
  let commandArgs := commandArgs ++ args in
  let commandArgs := if decide (postSepArgs = []) then commandArgs else commandArgs ++ [text "--"] in
  Ok (commandArgs ++ postSepArgs).

Definition InternalRefPrefixes : list string :=
  ["refs/environments/"; "refs/keep-around/"; "refs/merge-requests/"; "refs/pipelines/"].

Definition hiddenReceivePackRefPrefixes : list GlobalOption :=
  (fun ns => GConfigPair (configPair "receive.hideRefs" ns)) <$> InternalRefPrefixes.

Definition DefaultBranch : string := "main".

Definition simple (fl : Z) : commandDescription := mkDescription fl [] None.

Definition describedCommands : list (string * commandDescription) := [
  ("am", simple 0);
  ("apply", simple scNoRefUpdates);
  ("archive", simple (Z.lor scNoRefUpdates scNoEndOfOptions));
  ("blame", simple (Z.lor scNoRefUpdates scNoEndOfOptions));
  ("bundle", simple (Z.lor scNoRefUpdates scGeneratesPackfiles));
  ("cat-file", simple scNoRefUpdates);
  ("check-ref-format", simple (Z.lor scNoRefUpdates scNoEndOfOptions));
  ("checkout", simple scNoEndOfOptions);
  ("clone", simple scGeneratesPackfiles);
  ("commit", simple 0);
  ("commit-graph", simple scNoRefUpdates);
  ("commit-tree", simple scNoRefUpdates);
  ("config", simple scNoRefUpdates);
  ("count-objects", simple scNoRefUpdates);
  ("diff", simple scNoRefUpdates);
  ("diff-tree", simple scNoRefUpdates);
  ("fetch", mkDescription 0 [
      GConfigPair (configPair "fetch.fsckObjects" "true");
      GConfigPair (configPair "fetch.fsck.badTimezone" "ignore");
      GConfigPair (configPair "fetch.fsck.missingSpaceBeforeDate" "ignore");
      GConfigPair (configPair "fetch.writeCommitGraph" "false")] None);
  ("for-each-ref", simple scNoRefUpdates);
  ("format-patch", simple scNoRefUpdates);
  ("fsck", simple scNoRefUpdates);
  ("gc", simple (Z.lor scNoRefUpdates scGeneratesPackfiles));
  ("grep", simple (Z.lor scNoRefUpdates scNoEndOfOptions));
  ("hash-object", simple scNoRefUpdates);
  ("init", mkDescription scNoRefUpdates [GConfigPair (configPair "init.defaultBranch" DefaultBranch)] None);
  ("linguist", simple scNoEndOfOptions);
  ("log", simple scNoRefUpdates);
  ("ls-remote", simple scNoRefUpdates);
  ("ls-tree", simple scNoRefUpdates);
  ("merge-base", simple scNoRefUpdates);
  ("merge-file", simple scNoRefUpdates);
  ("mktag", simple scNoRefUpdates);
  ("multi-pack-index", simple scNoRefUpdates);
  ("pack-refs", simple scNoRefUpdates);
  ("pack-objects", simple (Z.lor scNoRefUpdates scGeneratesPackfiles));
  ("push", simple scNoRefUpdates);
  ("receive-pack", mkDescription 0 ([
      GConfigPair (configPair "core.alternateRefsCommand" "exit 0 #");
      GConfigPair (configPair "receive.fsckObjects" "true");
      GConfigPair (configPair "receive.fsck.badTimezone" "ignore");
      GConfigPair (configPair "receive.fsck.missingSpaceBeforeDate" "ignore");
      GConfigPair (configPair "receive.advertisePushOptions" "true")] ++ hiddenReceivePackRefPrefixes) None);
  ("remote", simple scNoEndOfOptions);
  ("repack", mkDescription (Z.lor scNoRefUpdates scGeneratesPackfiles)
      [GConfigPair (configPair "repack.writeBitmaps" "true")] None);
  ("rev-list", mkDescription (Z.lor scNoRefUpdates scNoEndOfOptions) [] (Some (validateAll validateRevListArg)));
  ("rev-parse", simple (Z.lor scNoRefUpdates scNoEndOfOptions));
  ("show", simple scNoRefUpdates);
  ("show-ref", simple scNoRefUpdates);
  ("symbolic-ref", simple 0);
  ("tag", simple 0);
  ("update-ref", simple 0);
  ("upload-archive", simple (Z.lor scNoRefUpdates scNoEndOfOptions));
  ("upload-pack", mkDescription (Z.lor scNoRefUpdates scGeneratesPackfiles) [
      GConfigPair (configPair "uploadpack.allowFilter" "true");
      GConfigPair (configPair "uploadpack.allowAnySHA1InWant" "true")] None);
  ("version", simple scNoRefUpdates);
  ("worktree", simple 0)].

Definition commandDescriptions : gmap string commandDescription := list_to_map describedCommands.

(** The check made when the package is initialised: the internal reference prefix,
    if any, that git-receive-pack(1) would not hide. *)
Definition init_missing : option string :=
  match commandDescriptions !! "receive-pack" with
  | None => Some "receive-pack"
  | Some receivePackDesc =>
    let hiddenRefs := omap (fun o => match o with
        | GConfigPair cp => if decide (Key cp = text "receive.hideRefs") then Some (Value cp) else None
        | _ => None
        end) (opts receivePackDesc) in
    find (fun internalRef => negb (bool_decide (text internalRef ∈ hiddenRefs))) InternalRefPrefixes
  end.

(** ** Commands *)

Record SubCmd : Type := mkSubCmd {
  sc_Name : string;
  sc_Flags : list Option;
  sc_Args : list (list ascii);
  sc_PostSepArgs : list (list ascii);
}.

Record SubSubCmd : Type := mkSubSubCmd {
  ssc_Name : string;
  ssc_Action : list ascii;
  ssc_Flags : list Option;
  ssc_Args : list (list ascii);
  ssc_PostSepArgs : list (list ascii);
}.

Definition actionRegex : regex := Seq (Plus alnum) (Star alnumDash).

Definition SubCmd_CommandArgs (sc : SubCmd) : out GitError (list (list ascii)) :=
  match commandDescriptions !! sc_Name sc with
  | None => Err (ErrInvalidArg "invalid sub command name" (text (sc_Name sc)))
  | Some d =>
    commandArgs ← args d (sc_Flags sc) (sc_Args sc) (sc_PostSepArgs sc);
    Ok (text (sc_Name sc) :: commandArgs)
  end.

Definition SubSubCmd_CommandArgs (sc : SubSubCmd) : out GitError (list (list ascii)) :=
  match commandDescriptions !! ssc_Name sc with
  | None => Err (ErrInvalidArg "invalid sub command name" (text (ssc_Name sc)))
  | Some d =>
    if MatchString actionRegex (ssc_Action sc) then
      commandArgs ← args d (ssc_Flags sc) (ssc_Args sc) (ssc_PostSepArgs sc);
      Ok (text (ssc_Name sc) :: ssc_Action sc :: commandArgs)
    else Err (ErrInvalidArg "invalid sub command action" (ssc_Action sc))
  end.

(** The implementations of the interface [Cmd]. *)
Inductive Cmd : Type := CSubCmd (sc : SubCmd) | CSubSubCmd (sc : SubSubCmd).

Definition Subcommand (c : Cmd) : string :=
  match c with CSubCmd sc => sc_Name sc | CSubSubCmd sc => ssc_Name sc end.

Definition CommandArgs (c : Cmd) : out GitError (list (list ascii)) :=
  match c with CSubCmd sc => SubCmd_CommandArgs sc | CSubSubCmd sc => SubSubCmd_CommandArgs sc end.

(** ** Command options *)

Record cmdCfg : Type := mkCmdCfg {
  env : list (list ascii);
  globals : list GlobalOption;
  stdin : option nat;
  stdout : option nat;
  stderr : option nat;
  hooksConfigured : bool;
}.

Definition emptyCfg : cmdCfg := mkCmdCfg [] [] None None None false.

Definition addEnv (c : cmdCfg) (envs : list (list ascii)) : cmdCfg :=
  mkCmdCfg (env c ++ envs) (globals c) (stdin c) (stdout c) (stderr c) (hooksConfigured c).
Definition addGlobals (c : cmdCfg) (gs : list GlobalOption) : cmdCfg :=
  mkCmdCfg (env c) (globals c ++ gs) (stdin c) (stdout c) (stderr c) (hooksConfigured c).
Definition setHooksConfigured (c : cmdCfg) : cmdCfg :=
  mkCmdCfg (env c) (globals c) (stdin c) (stdout c) (stderr c) true.

(** What the context of a request says about its transaction. *)
Inductive TxLookup : Type := TxFound (tx : TxInfo) | TxNotFound | TxFailed.

Record Ctx : Type := mkCtx {
  ctx_transaction : TxLookup;
  ctx_flags : gmap string string;
}.

(** The request that ends in a git-receive-pack(1). *)
Record ReceivePackRequest : Type := mkReceivePackRequest {
  GetGlId : list ascii;
  GetGlUsername : list ascii;
  GetRepository : option Repository;
}.

Definition ProtocolV2 : list ascii := text "version=2".

Definition gitProtocolEnv (gitProtocol : list ascii) : list (list ascii) :=
  if decide (gitProtocol = ProtocolV2) then [text "GIT_PROTOCOL=" ++ ProtocolV2] else [].

(** The decimal digits of a number. *)
Definition decimal (n : nat) : list ascii := text (pretty n).

Definition configEnv (configPairs : list ConfigPair) : list (list ascii) :=
  concat (imap (fun i cp => [text "GIT_CONFIG_KEY_" ++ decimal i ++ equals :: Key cp;
                             text "GIT_CONFIG_VALUE_" ++ decimal i ++ equals :: Value cp]) configPairs) ++
  [text "GIT_CONFIG_COUNT=" ++ decimal (length configPairs)].

(** The options of the package; no other package can make one that has an effect. *)
Inductive CmdOpt : Type :=
| WithStdin (r : option nat)
| WithStdout (w : option nat)
| WithStderr (w : option nat)
| WithEnv (envs : list (list ascii))
| WithConfig (configPairs : list ConfigPair)
| WithConfigEnv (configPairs : list ConfigPair)
| WithGlobalOption (opts : list GlobalOption)
| WithGitProtocol (gitProtocol : list ascii)
| WithDisabledHooks
| WithRefTxHook (ctx : Ctx) (repo : option GitRepo) (cfg : GitalyCfg)
| WithPackObjectsHookEnv (ctx : Ctx) (repo : option Repository) (cfg : GitalyCfg)
| WithReceivePackHooks (ctx : Ctx) (cfg : GitalyCfg) (req : ReceivePackRequest) (protocol : list ascii).

Definition ConvertGlobalOptions (literalPathspecs : option bool) : list CmdOpt :=
  match literalPathspecs with
  | Some true => [WithEnv [text "GIT_LITERAL_PATHSPECS=1"]]
  | _ => []
  end.

(** [alternates.Env]. *)
Definition alternates_Env (repoPath objectDirectory : list ascii) (alternateObjectDirectories : list (list ascii)) :
    list (list ascii) :=
  (if decide (objectDirectory = []) then []
   else [text "GIT_OBJECT_DIRECTORY=" ++ JoinPath repoPath objectDirectory]) ++
  (if decide (alternateObjectDirectories = []) then []
   else [text "GIT_ALTERNATE_OBJECT_DIRECTORIES=" ++ Join ":"%char (JoinPath repoPath <$> alternateObjectDirectories)]).

(** ** The environment of a process *)

Definition GitEnv : list (list ascii) := [text "LANG=en_US.UTF-8"].

Definition exportedEnvVars : list (list ascii) := text <$>
  ["HOME"; "PATH"; "LD_LIBRARY_PATH"; "TZ"; "GIT_TRACE"; "GIT_TRACE_PACK_ACCESS"; "GIT_TRACE_PACKET";
   "GIT_TRACE_PERFORMANCE"; "GIT_TRACE_SETUP"; "all_proxy"; "http_proxy"; "HTTP_PROXY"; "https_proxy"; "HTTPS_PROXY";
   "no_proxy"; "NO_PROXY"].

Definition AllowedEnvironment (envs : list (list ascii)) : list (list ascii) :=
  concat ((fun e => omap (fun exportedEnv => if HasPrefix e (exportedEnv ++ [equals]) then Some e else None)
                      exportedEnvVars) <$> envs).

Definition nul : ascii := ascii_of_nat 0.

(** The argument, if any, that a process cannot be given. *)
Definition checkNullArgv (argv : list (list ascii)) : option (list ascii) :=
  find (fun arg => bool_decide (nul ∈ arg)) argv.

Record Process : Type := mkProcess {
  p_Path : list ascii;
  p_Args : list (list ascii);
  p_Dir : list ascii;
  p_Env : list (list ascii);
  p_Stdin : option nat;
  p_Stdout : option nat;
  p_Stderr : option nat;
}.

(** What the surroundings of a spawned process decide: whether its context can be
    cancelled, whether it gets a spawn token and starts, the node's own
    environment, and what the tracing library adds to it. *)
Record Surroundings : Type := mkSurroundings {
  ctxDone : bool;
  spawnToken : bool;
  starts : bool;
  osEnviron : list (list ascii);
  envInjector : list (list ascii) -> list (list ascii);
}.

(** [command.New]. *)
Definition command_New (w : Surroundings) (path : list ascii) (argv : list (list ascii)) (dir : list ascii)
    (cfg : cmdCfg) (env : list (list ascii)) : out GitError Process :=
  if negb (ctxDone w) then Panic
  else match checkNullArgv (path :: argv) with
  | Some arg => Err (ErrNullByte arg)
  | None =>
    if negb (spawnToken w) then Err ErrSpawn
    else
      let env := env ++ [text "GIT_TERMINAL_PROMPT=0"] in
      let env := envInjector w (env ++ AllowedEnvironment (osEnviron w)) in
      if negb (starts w) then Err ErrSpawn
      else Ok (mkProcess path argv dir env (stdin cfg) (stdout cfg) (stderr cfg))
  end.

(** ** The command factory *)

Definition globalOptions : list GlobalOption := [
  GConfigPair (configPair "core.fsyncObjectFiles" "true");
  GConfigPair (configPair "gc.auto" "0");
  GConfigPair (configPair "core.autocrlf" "input")].

Section Factory.
Context (protojson_Marshal : option Repository -> out PayloadError (list ascii))
  (json_Marshal : jsonHooksPayload -> out PayloadError (list ascii))
  (pid : list ascii) (hooksOverride : list ascii) (skipHooks : bool).

(** [hooks.Path]. *)
Definition hooks_Path (cfg : GitalyCfg) : list ascii :=
  if decide (hooksOverride ≠ []) then hooksOverride
  else if skipHooks then text "/var/empty"
  else JoinPath (cfg_RubyDir cfg) (text "git-hooks").

Definition configureHooks (cc : cmdCfg) (ctx : Ctx) (repo : option Repository) (cfg : GitalyCfg)
    (receiveHooksPayload : option ReceiveHooksPayload) (requestedHooks : Z) : out GitError cmdCfg :=
  if hooksConfigured cc then Err ErrHooksAlreadyConfigured
  else
    transaction ← match ctx_transaction ctx with
                  | TxFound tx => Ok (Some tx)
                  | TxNotFound => Ok None
                  | TxFailed => Err ErrTransactionInfo
                  end;
    match HooksPayload_Env protojson_Marshal json_Marshal
            (NewHooksPayload cfg pid repo transaction receiveHooksPayload requestedHooks (ctx_flags ctx)) with
    | Err e => Err (ErrHooksPayload e)
    | Panic => Panic
    | Ok payload =>
      let cc := addEnv cc [payload; text "GITALY_BIN_DIR=" ++ cfg_BinDir cfg;
                           text "GITALY_LOG_DIR=" ++ cfg_LoggingDir cfg] in
      let cc := addGlobals cc [GConfigPair (mkConfigPair (text "core.hooksPath") (hooks_Path cfg) [] [])] in
      Ok (setHooksConfigured cc)
    end.

Definition applyOpt (opt : CmdOpt) (c : cmdCfg) : out GitError cmdCfg :=
  match opt with
  | WithStdin r => Ok (mkCmdCfg (env c) (globals c) r (stdout c) (stderr c) (hooksConfigured c))
  | WithStdout w => Ok (mkCmdCfg (env c) (globals c) (stdin c) w (stderr c) (hooksConfigured c))
  | WithStderr w => Ok (mkCmdCfg (env c) (globals c) (stdin c) (stdout c) w (hooksConfigured c))
  | WithEnv envs => Ok (addEnv c envs)
  | WithConfig configPairs => Ok (addGlobals c (GConfigPair <$> configPairs))
  | WithConfigEnv configPairs => Ok (addEnv c (configEnv configPairs))
  | WithGlobalOption opts => Ok (addGlobals c opts)
  | WithGitProtocol gitProtocol => Ok (addEnv c (gitProtocolEnv gitProtocol))
  | WithDisabledHooks => Ok (setHooksConfigured c)
  | WithRefTxHook ctx repo cfg =>
    match repo with
    | None => Err (ErrInvalidArg "missing repo" [])
    | Some repo =>
      configureHooks c ctx
        (Some (mkRepository (GetStorageName repo) (GetRelativePath repo) (GetGitObjectDirectory repo)
                 (GetGitAlternateObjectDirectories repo) [] [])) cfg None ReferenceTransactionHook
    end
  | WithPackObjectsHookEnv ctx repo cfg =>
    if negb (cfg_PackObjectsCacheEnabled cfg) then Ok c
    else match repo with
    | None => Err (ErrInvalidArg "missing repo" [])
    | Some _ =>
      c ← configureHooks c ctx repo cfg None PackObjectsHook;
      Ok (addGlobals c [GConfigPair (mkConfigPair (text "uploadpack.packObjectsHook")
                                       (JoinPath (cfg_BinDir cfg) (text "gitaly-hooks")) [] [])])
    end
  | WithReceivePackHooks ctx cfg req protocol =>
    configureHooks c ctx (GetRepository req) cfg
      (Some (mkReceiveHooksPayload (GetGlId req) (GetGlUsername req) protocol)) ReceivePackHooks
  end.

Fixpoint applyOpts (opts : list CmdOpt) (c : cmdCfg) : out GitError cmdCfg :=
  match opts with
  | [] => Ok c
  | opt :: opts => c ← applyOpt opt c; applyOpts opts c
  end.

Definition combineOpts (sc : Cmd) (opts : list CmdOpt) : out GitError cmdCfg :=
  match commandDescriptions !! Subcommand sc with
  | None => Err (ErrInvalidArg "invalid sub command name" (text (Subcommand sc)))
  | Some d =>
    config ← applyOpts opts emptyCfg;
    if negb (hooksConfigured config) && mayUpdateRef d then Err (ErrHookPayloadRequired (Subcommand sc))
    else Ok config
  end.

(** The settings of the command's kind, then those of its caller, then those of the
    administrator. *)
Definition combinedGlobals (d : commandDescription) (gitConfig : list (list ascii * list ascii)) (cc : cmdCfg) :
    list GlobalOption :=
  let commandSpecificOptions :=
    if mayGeneratePackfiles d then
      opts d ++ [GConfigPair (configPair "pack.windowMemory" "100m");
                 GConfigPair (configPair "pack.writeReverseIndex" "true")]
    else opts d in
  globalOptions ++ commandSpecificOptions ++ globals cc ++
    ((fun kv => GConfigPair (mkConfigPair kv.1 kv.2 [] [])) <$> gitConfig).

Definition combineArgs (gitConfig : list (list ascii * list ascii)) (sc : Cmd) (cc : cmdCfg) :
    out GitError (list (list ascii)) :=
  match commandDescriptions !! Subcommand sc with
  | None => Err (ErrInvalidArg "invalid sub command name" (text (Subcommand sc)))
  | Some d =>
    args ← allArgs GlobalArgs (combinedGlobals d gitConfig cc);
    scArgs ← CommandArgs sc;
    Ok (args ++ scArgs)
  end.

Definition newCommand (w : Surroundings) (cfg : GitalyCfg) (gitConfig : list (list ascii * list ascii))
    (storages : list Storage) (stat : list ascii -> StatResult) (repo : option GitRepo) (dir : list ascii)
    (sc : Cmd) (opts : list CmdOpt) : out GitError Process :=
  config ← combineOpts sc opts;
  args ← combineArgs gitConfig sc config;
  ea ← match repo with
       | None => Ok (env config, args)
       | Some repo =>
         match GetRepoPath storages stat repo with
         | Err e => Err (ErrLocate e)
         | Panic => Panic
         | Ok repoPath =>
           Ok (alternates_Env repoPath (GetGitObjectDirectory repo) (GetGitAlternateObjectDirectories repo) ++ env config,
               text "--git-dir" :: repoPath :: args)
         end
       end;
  command_New w (cfg_GitBinPath cfg) ea.2 dir config (ea.1 ++ GitEnv).

Definition NewWithDir (w : Surroundings) (cfg : GitalyCfg) (gitConfig : list (list ascii * list ascii))
    (storages : list Storage) (stat : list ascii -> StatResult) (dir : list ascii) (sc : Cmd) (opts : list CmdOpt) :
    out GitError Process :=
  if decide (dir = []) then Err ErrNoDir else newCommand w cfg gitConfig storages stat None dir sc opts.

End Factory.

(** ** Properties *)

(** *** Command lines *)

(** What counts as a positional argument of a command. *)
Definition positional (name : string) (arg : list ascii) : Prop :=
  head arg ≠ Some dash \/ (name = "rev-list" /\ (arg = text "--all" \/ arg = text "--not")).

(** Only git-rev-list(1) has a validation of its own. *)
Lemma described_validation :
  Forall (fun nd => validatePositionalArgs nd.2 =
    if decide (nd.1 = "rev-list") then Some (validateAll validateRevListArg) else None) describedCommands.
Proof. repeat (apply Forall_cons; split; [reflexivity|]). apply Forall_nil. done. Qed.

Lemma description_validation name d :
  commandDescriptions !! name = Some d ->
  validatePositionalArgs d = if decide (name = "rev-list") then Some (validateAll validateRevListArg) else None.
Proof.
  intros Hd%elem_of_list_to_map_2. pose proof described_validation as Hall. rewrite Forall_forall in Hall.
  by apply (Hall (name, d)).
Qed.

Lemma HasPrefix_dash arg : HasPrefix arg (text "-") = true <-> head arg = Some dash.
Proof.
  rewrite HasPrefix_spec. split; [by intros [rest ->]|]. destruct arg as [|c arg]; [done|]. intros [= ->]. by exists arg.
Qed.

Lemma validateAll_ok validate (P : list ascii -> Prop) l :
  (forall a, validate a = Ok tt <-> P a) -> validateAll validate l = Ok tt <-> Forall P l.
Proof.
  intros Hv. induction l as [|a l IH]; cbn [validateAll]; [split; [constructor|done]|].
  rewrite Forall_cons, <- IH, <- Hv. destruct (validate a) as [[]| |]; cbn [mbind out_bind]; [tauto|..]; split; (done || by intros [? _]).
Qed.

Lemma validatePositionalArg_ok a : validatePositionalArg a = Ok tt <-> head a ≠ Some dash.
Proof.
  unfold validatePositionalArg. rewrite <- HasPrefix_dash. destruct (HasPrefix a _); split; (done || congruence).
Qed.

Lemma validateRevListArg_ok a : validateRevListArg a = Ok tt <-> positional "rev-list" a.
Proof.
  unfold validateRevListArg, positional. case_decide as Ha; [split; [by right; split|done]|].
  rewrite validatePositionalArg_ok. tauto.
Qed.

Lemma validate_positional name d l :
  commandDescriptions !! name = Some d ->
  match validatePositionalArgs d with
  | Some validate => validate l
  | None => validateAll validatePositionalArg l
  end = Ok tt <-> Forall (positional name) l.
Proof.
  intros Hd. rewrite (description_validation name d Hd). case_decide as Hname; apply validateAll_ok; intros a.
  - subst. apply validateRevListArg_ok.
  - rewrite validatePositionalArg_ok. unfold positional. tauto.
Qed.

(** Every failure of a validation is an invalid argument. *)
Definition invalidArg {A} (o : out GitError A) : Prop := exists what arg, o = Err (ErrInvalidArg what arg).

Lemma validatePositionalArg_err a : validatePositionalArg a = Ok tt \/ invalidArg (validatePositionalArg a).
Proof. unfold validatePositionalArg, invalidArg. case_match; eauto. Qed.

Lemma validateAll_err validate l :
  (forall a, validate a = Ok tt \/ invalidArg (validate a)) ->
  validateAll validate l = Ok tt \/ invalidArg (validateAll validate l).
Proof.
  intros Hv. induction l as [|a l IH]; cbn [validateAll]; [by left|].
  destruct (Hv a) as [->|(? & ? & ->)]; [exact IH|right; do 2 eexists; reflexivity].
Qed.

Lemma validate_positional_err name d l :
  commandDescriptions !! name = Some d ->
  let o := match validatePositionalArgs d with
           | Some validate => validate l
           | None => validateAll validatePositionalArg l
           end in o = Ok tt \/ invalidArg o.
Proof.
  intros Hd. rewrite (description_validation name d Hd). cbn zeta. case_decide; apply validateAll_err; intros a.
  - unfold validateRevListArg. case_decide; [by left|apply validatePositionalArg_err].
  - apply validatePositionalArg_err.
Qed.

Lemma OptionArgs_err o : (exists toks, OptionArgs o = Ok toks) \/ invalidArg (OptionArgs o).
Proof.
  unfold invalidArg. destruct o as [cp|name|name value|value]; cbn [OptionArgs];
    unfold ConfigPair_OptionArgs, Flag_OptionArgs, ValueFlag_OptionArgs; try case_match; eauto.
Qed.

Lemma allArgs_cases {A} (f : A -> out GitError (list (list ascii))) l :
  (forall o, (exists toks, f o = Ok toks) \/ invalidArg (f o)) ->
  (exists toks, allArgs f l = Ok toks) \/ invalidArg (allArgs f l).
Proof.
  intros Hf. induction l as [|o l IH]; cbn [allArgs]; [left; by eexists|].
  destruct (Hf o) as [[toks ->]|(? & ? & ->)]; cbn [mbind out_bind]; [|right; by do 2 eexists].
  destruct IH as [[rest ->]|(? & ? & ->)]; cbn [mbind out_bind]; [left; by eexists|right; by do 2 eexists].
Qed.

(** The layout of a command line: the flags, the marker that ends them where the
    command knows it, the positional arguments, and the rest after two dashes. *)
Definition layout (d : commandDescription) (fl args post : list (list ascii)) : list (list ascii) :=
  fl ++ (if supportsEndOfOptions d then [text "--end-of-options"] else []) ++ args ++
  (if decide (post = []) then [] else [text "--"]) ++ post.

Lemma args_ok name d fs l post argv :
  commandDescriptions !! name = Some d ->
  args d fs l post = Ok argv <->
  exists fl, allArgs OptionArgs fs = Ok fl /\ Forall (positional name) l /\ argv = layout d fl l post.
Proof.
  intros Hd. unfold args, layout. setoid_rewrite <- (validate_positional name d l Hd).
  destruct (allArgs OptionArgs fs) as [fl| |]; cbn [mbind out_bind];
    [|split; [done|by intros (? & ? & _)]..].
  destruct (match validatePositionalArgs d with Some validate => validate l | None => validateAll validatePositionalArg l end)
    as [[]| |]; cbn [mbind out_bind]; [|split; [done|by intros (? & _ & ? & _)]..].
  split.
  - intros [= <-]. exists fl. split_and!; [done|done|]. destruct (supportsEndOfOptions d); case_decide;
      rewrite ?app_nil_r, <- ?app_assoc; done.
  - intros (fl' & [= ->] & _ & ->). f_equal. destruct (supportsEndOfOptions d); case_decide;
      rewrite <- ?app_assoc; subst; rewrite ?app_nil_r; done.
Qed.

Lemma alnum_not_dash c : isAlnum c = true -> c ≠ dash.
Proof. intros Hc ->. by vm_compute in Hc. Qed.

Lemma flagRegex_spec name :
  MatchString flagRegex name = true <->
  exists c rest, isAlnum c = true /\ (name = dash :: c :: rest \/ name = dash :: dash :: c :: rest).
Proof.
  rewrite MatchString_lang. unfold flagRegex, alnum, Lit. rewrite lang_seq. setoid_rewrite lang_alt.
  setoid_rewrite lang_seq. setoid_rewrite lang_class. setoid_rewrite bool_decide_eq_true. split.
  - intros (s1 & s2 & -> & Hs1 & (s3 & s4 & -> & (c & -> & Hc) & _)). exists c, s4. split; [done|].
    destruct Hs1 as [(x & -> & ->)|(s5 & s6 & -> & (x & -> & ->) & (y & -> & ->))]; [by left|by right].
  - intros (c & rest & Hc & Hname).
    assert (Hrest : exists s3 s4, c :: rest = s3 ++ s4 /\ (exists x, s3 = [x] /\ isAlnum x = true) /\ lang anything s4).
    { exists [c], rest. split_and!; [done|by exists c|apply lang_anything]. }
    destruct Hname as [->| ->]; [exists [dash], (c :: rest)|exists [dash; dash], (c :: rest)]; (split_and!; [done| |done]).
    + left. by exists dash.
    + right. exists [dash], [dash]. split_and!; [done|by exists dash..].
Qed.

Lemma actionRegex_head action : MatchString actionRegex action = true -> exists c rest, action = c :: rest /\ isAlnum c = true.
Proof. rewrite MatchString_lang. apply lang_plus_first. Qed.

Lemma configKeyOption_head key :
  MatchString configKeyOptionRegex key = true -> exists c rest, key = c :: rest /\ isAlnum c = true.
Proof. rewrite MatchString_lang. apply lang_plus_first. Qed.

(** What an accepted option looks like: a flag begins with one or two dashes and a
    letter or digit, a configuration key with a letter or digit. *)
Definition sane (o : Option) : Prop :=
  match o with
  | OFlag name | OValueFlag name _ =>
    exists c rest, isAlnum c = true /\ (name = dash :: c :: rest \/ name = dash :: dash :: c :: rest)
  | OConfigPair cp => exists c rest, Key cp = c :: rest /\ isAlnum c = true
  | OStatic _ => True
  end.

Lemma allArgs_sane fs fl : allArgs OptionArgs fs = Ok fl -> Forall sane fs.
Proof.
  revert fl. induction fs as [|o fs IH]; intros fl; cbn [allArgs]; [constructor|].
  destruct (OptionArgs o) as [toks| |] eqn:Ho; cbn [mbind out_bind]; try done.
  destruct (allArgs OptionArgs fs) as [rest| |]; cbn [mbind out_bind]; try done. intros _. constructor; [|by eapply IH].
  destruct o as [cp|name|name value|value]; cbn [OptionArgs sane] in *;
    unfold ConfigPair_OptionArgs, Flag_OptionArgs, ValueFlag_OptionArgs in Ho;
    [destruct (MatchString configKeyOptionRegex _) eqn:Hm|destruct (MatchString flagRegex _) eqn:Hm..|]; try done;
    [by apply configKeyOption_head|by apply flagRegex_spec..].
Qed.

Definition cmdFlags (c : Cmd) : list Option :=
  match c with CSubCmd sc => sc_Flags sc | CSubSubCmd sc => ssc_Flags sc end.
Definition cmdArgs (c : Cmd) : list (list ascii) :=
  match c with CSubCmd sc => sc_Args sc | CSubSubCmd sc => ssc_Args sc end.
Definition cmdPostSepArgs (c : Cmd) : list (list ascii) :=
  match c with CSubCmd sc => sc_PostSepArgs sc | CSubSubCmd sc => ssc_PostSepArgs sc end.
Definition cmdAction (c : Cmd) : list (list ascii) :=
  match c with CSubCmd _ => [] | CSubSubCmd sc => [ssc_Action sc] end.

(** The commands that are accepted. *)
Definition acceptable (c : Cmd) : Prop :=
  is_Some (commandDescriptions !! Subcommand c) /\
  Forall (fun a => MatchString actionRegex a = true) (cmdAction c) /\
  (exists fl, allArgs OptionArgs (cmdFlags c) = Ok fl) /\
  Forall (positional (Subcommand c)) (cmdArgs c).

Lemma args_invalid name d fs l post :
  commandDescriptions !! name = Some d -> (exists argv, args d fs l post = Ok argv) \/ invalidArg (args d fs l post).
Proof.
  intros Hd. unfold args.
  destruct (allArgs_cases OptionArgs fs OptionArgs_err) as [[fl ->]|(? & ? & ->)]; cbn [mbind out_bind]; [|right; by do 2 eexists].
  destruct (validate_positional_err name d l Hd) as [->|(? & ? & ->)]; cbn [mbind out_bind];
    [left; by eexists|right; by do 2 eexists].
Qed.

(** The common body of the two kinds of commands. *)
Lemma CommandArgs_body c :
  CommandArgs c =
  match commandDescriptions !! Subcommand c with
  | None => Err (ErrInvalidArg "invalid sub command name" (text (Subcommand c)))
  | Some d =>
    match find (fun a => negb (MatchString actionRegex a)) (cmdAction c) with
    | Some a => Err (ErrInvalidArg "invalid sub command action" a)
    | None =>
      commandArgs ← args d (cmdFlags c) (cmdArgs c) (cmdPostSepArgs c);
      Ok (text (Subcommand c) :: cmdAction c ++ commandArgs)
    end
  end.
Proof.
  destruct c as [sc|sc]; cbn [CommandArgs Subcommand cmdAction cmdFlags cmdArgs cmdPostSepArgs find];
    unfold SubCmd_CommandArgs, SubSubCmd_CommandArgs; [done|].
  destruct (commandDescriptions !! ssc_Name sc); [|done]. by destruct (MatchString actionRegex (ssc_Action sc)).
Qed.

(** C18. The command line of a git command is built exactly for the acceptable ones,
    and every other one is refused as an invalid argument. It starts with a known
    command name (and its action), puts every flag before the positional arguments,
    with the marker that ends the options between them where the command knows it,
    and no positional argument begins with a dash, but for the two pseudo-revisions
    of git-rev-list(1): so nothing that comes from a request as an argument can be
    read as an option. *)
Theorem command_line_correct c :
  match CommandArgs c with
  | Ok argv => acceptable c /\ Forall sane (cmdFlags c) /\
      (forall a, a ∈ cmdAction c -> head a ≠ Some dash) /\
      exists d fl, commandDescriptions !! Subcommand c = Some d /\ allArgs OptionArgs (cmdFlags c) = Ok fl /\
        argv = text (Subcommand c) :: cmdAction c ++ layout d fl (cmdArgs c) (cmdPostSepArgs c)
  | Err e => ~ acceptable c /\ exists what arg, e = ErrInvalidArg what arg
  | Panic => False
  end.
Proof.
  rewrite CommandArgs_body. unfold acceptable. destruct (commandDescriptions !! Subcommand c) as [d|] eqn:Hd.
  2: { split; [intros [[? ?] _]; done|by do 2 eexists]. }
  destruct (find _ (cmdAction c)) as [a|] eqn:Hf.
  - apply find_some in Hf as [Hin Ha]. split; [|by do 2 eexists]. intros (_ & Hall & _). rewrite Forall_forall in Hall.
    rewrite (Hall a) in Ha by by apply list_elem_of_In. done.
  - assert (Hact : forall a, a ∈ cmdAction c -> MatchString actionRegex a = true).
    { intros a Ha%list_elem_of_In. pose proof (find_none _ _ Hf a Ha) as Hn. by apply negb_false_iff in Hn. }
    destruct (args_invalid _ d (cmdFlags c) (cmdArgs c) (cmdPostSepArgs c) Hd) as [[argv Hok]|(w & x & Herr)].
    + rewrite Hok. cbn [mbind out_bind]. apply (args_ok (Subcommand c)) in Hok as (fl & Hfl & Hpos & ->); [|done].
      split_and!; [by eexists|by apply Forall_forall|by eexists|done|by eapply allArgs_sane|
        |by exists d, fl].
      intros a Ha. destruct (actionRegex_head a (Hact a Ha)) as (x & rest & -> & Hx). simpl. intros [= ->].
      by apply alnum_not_dash in Hx.
    + rewrite Herr. cbn [mbind out_bind]. split; [|by do 2 eexists]. intros (_ & _ & [fl Hfl] & Hpos).
      assert (Hok : args d (cmdFlags c) (cmdArgs c) (cmdPostSepArgs c) = Ok (layout d fl (cmdArgs c) (cmdPostSepArgs c))).
      { apply (args_ok (Subcommand c)); [done|]. by exists fl. }
      congruence.
Qed.

(** *** Configuration on the command line *)

(** How git(1) documents its option [-c]: the settings at the start of the command
    line, a name and, after the first equals sign, a value; the last one counts. *)
Fixpoint readConfigs (argv : list (list ascii)) : list (list ascii * list ascii) :=
  match argv with
  | c :: kv :: argv =>
    if decide (c = text "-c") then
      let (key, value) := Cut equals kv in (key, default (text "true") value) :: readConfigs argv
    else []
  | _ => []
  end.

Fixpoint lastOf (key : list ascii) (settings : list (list ascii * list ascii)) : option (list ascii) :=
  match settings with
  | [] => None
  | (k, v) :: settings =>
    match lastOf key settings with
    | Some v' => Some v'
    | None => if decide (k = key) then Some v else None
    end
  end.

Definition settingsOf (options : list GlobalOption) : list (list ascii * list ascii) :=
  omap (fun o => match o with GConfigPair cp => Some (Key cp, Value cp) | _ => None end) options.

Definition isConfig (o : GlobalOption) : Prop := match o with GConfigPair _ => True | _ => False end.

Lemma lastOf_app key l l' :
  lastOf key (l ++ l') = match lastOf key l' with Some v => Some v | None => lastOf key l end.
Proof.
  induction l as [|[k v] l IH]; simpl; [by destruct (lastOf key l')|]. rewrite IH. by destruct (lastOf key l').
Qed.

(** A key that is accepted has no equals sign. *)
Lemma configKeyGlobal_equals key : MatchString configKeyGlobalRegex key = true -> equals ∉ key.
Proof. rewrite MatchString_lang. intros Hl Hin. pose proof (lang_chars _ _ _ Hl Hin) as Hc. by vm_compute in Hc. Qed.

Lemma readConfigs_pair cp toks argv :
  ConfigPair_GlobalArgs cp = Ok toks -> readConfigs (toks ++ argv) = (Key cp, Value cp) :: readConfigs argv.
Proof.
  unfold ConfigPair_GlobalArgs. destruct (MatchString configKeyGlobalRegex (Key cp)) eqn:Hm; [|done]. intros [= <-].
  cbn [app readConfigs]. rewrite decide_True by done. by rewrite Cut_app by by apply configKeyGlobal_equals.
Qed.

Lemma readConfigs_globals options toks argv :
  Forall isConfig options -> allArgs GlobalArgs options = Ok toks ->
  readConfigs (toks ++ argv) = settingsOf options ++ readConfigs argv.
Proof.
  intros Hall. revert toks. induction Hall as [|o options Ho _ IH]; intros toks; cbn [allArgs]; [by intros [= <-]|].
  destruct o as [cp| |]; [|done..]. cbn [GlobalArgs]. destruct (ConfigPair_GlobalArgs cp) as [t| |] eqn:Hcp; try done.
  cbn [mbind out_bind]. destruct (allArgs GlobalArgs options) as [rest| |] eqn:Hr; try done.
  cbn [mbind out_bind]. intros [= <-]. rewrite <- app_assoc, (readConfigs_pair cp) by done. by rewrite (IH rest).
Qed.

(** No command is called [-c]. *)
Lemma command_name_not_option name d : commandDescriptions !! name = Some d -> text name ≠ text "-c".
Proof. intros Hd ->%text_inj. by vm_compute in Hd. Qed.

Lemma command_line_head c argv : CommandArgs c = Ok argv -> exists rest, argv = text (Subcommand c) :: rest.
Proof.
  rewrite CommandArgs_body. destruct (commandDescriptions !! _); [|done]. destruct (find _ _); [done|].
  destruct (args _ _ _ _); cbn [mbind out_bind]; try done. intros [= <-]. by eexists.
Qed.

Lemma readConfigs_command c argv d :
  commandDescriptions !! Subcommand c = Some d -> CommandArgs c = Ok argv -> readConfigs argv = [].
Proof.
  intros Hd Hok. pose proof (command_line_head c argv Hok) as (rest & ->). cbn [readConfigs].
  destruct rest; [done|]. rewrite decide_False; [done|]. by eapply command_name_not_option.
Qed.

Lemma described_options_config : Forall (fun nd => Forall isConfig (opts nd.2)) describedCommands.
Proof. repeat constructor. Qed.

Lemma combined_config d name gitConfig cc :
  commandDescriptions !! name = Some d -> Forall isConfig (globals cc) -> Forall isConfig (combinedGlobals d gitConfig cc).
Proof.
  intros Hd%elem_of_list_to_map_2 Hcc. pose proof described_options_config as Hall. rewrite Forall_forall in Hall.
  specialize (Hall (name, d) Hd). cbn [snd] in Hall. unfold combinedGlobals. rewrite !Forall_app. split_and!.
  - repeat constructor.
  - case_match; [|done]. apply Forall_app. split; [done|repeat constructor].
  - done.
  - apply Forall_forall. intros o Ho%list_elem_of_fmap. by destruct Ho as (kv & -> & _).
Qed.

Lemma settingsOf_app l l' : settingsOf (l ++ l') = settingsOf l ++ settingsOf l'.
Proof. apply omap_app. Qed.

Lemma settingsOf_admin gitConfig :
  settingsOf ((fun kv => GConfigPair (mkConfigPair kv.1 kv.2 [] [])) <$> gitConfig) = gitConfig.
Proof. induction gitConfig as [|[k v] l IH]; [done|]. cbn. by f_equal. Qed.

(** The settings a command of its kind gets before its caller's. *)
Definition ownSettings (d : commandDescription) : list (list ascii * list ascii) :=
  settingsOf (globalOptions ++ opts d ++
    if mayGeneratePackfiles d then
      [GConfigPair (configPair "pack.windowMemory" "100m"); GConfigPair (configPair "pack.writeReverseIndex" "true")]
    else []).

Lemma config_settings gitConfig sc cc argv d :
  commandDescriptions !! Subcommand sc = Some d -> Forall isConfig (globals cc) ->
  combineArgs gitConfig sc cc = Ok argv -> readConfigs argv = ownSettings d ++ settingsOf (globals cc) ++ gitConfig.
Proof.
  intros Hd Hcc Hok. unfold combineArgs in Hok. rewrite Hd in Hok.
  destruct (allArgs GlobalArgs _) as [toks| |] eqn:Ht; cbn [mbind out_bind] in Hok; [|discriminate Hok..].
  destruct (CommandArgs sc) as [scArgs| |] eqn:Hsc; cbn [mbind out_bind] in Hok; [|discriminate Hok..]. injection Hok as <-.
  rewrite (readConfigs_globals _ _ _ (combined_config d _ gitConfig cc Hd Hcc) Ht).
  rewrite (readConfigs_command sc scArgs d Hd Hsc), app_nil_r. unfold combinedGlobals, ownSettings.
  rewrite !settingsOf_app, settingsOf_admin, <- !app_assoc. f_equal.
  destruct (mayGeneratePackfiles d); rewrite ?settingsOf_app, <- ?app_assoc; done.
Qed.

(** The settings that git reads from a command line are the ones it was built
    from, with values that may hold equals signs; of several for one key the
    administrator's counts, then the caller's, then the ones of the command's kind. *)
Theorem config_precedence gitConfig sc cc argv d :
  commandDescriptions !! Subcommand sc = Some d -> Forall isConfig (globals cc) ->
  combineArgs gitConfig sc cc = Ok argv ->
  readConfigs argv = ownSettings d ++ settingsOf (globals cc) ++ gitConfig /\
  forall key, lastOf key (readConfigs argv) =
    match lastOf key gitConfig with
    | Some v => Some v
    | None => match lastOf key (settingsOf (globals cc)) with
              | Some v => Some v
              | None => lastOf key (ownSettings d)
              end
    end.
Proof.
  intros Hd Hcc Hok. pose proof (config_settings gitConfig sc cc argv d Hd Hcc Hok) as Hread. split; [done|].
  intros key. rewrite Hread, !lastOf_app. by destruct (lastOf key gitConfig).
Qed.

(** *** Hooks *)

Definition requestsHooks (opt : CmdOpt) : bool :=
  match opt with
  | WithRefTxHook _ _ _ | WithReceivePackHooks _ _ _ _ => true
  | WithPackObjectsHookEnv _ _ cfg => cfg_PackObjectsCacheEnabled cfg
  | _ => false
  end.

Definition disablesHooks (opt : CmdOpt) : bool := match opt with WithDisabledHooks => true | _ => false end.

Section Hooks.
Context (protojson_Marshal : option Repository -> out PayloadError (list ascii))
  (json_Marshal : jsonHooksPayload -> out PayloadError (list ascii))
  (pid : list ascii) (hooksOverride : list ascii) (skipHooks : bool).

Local Abbreviation apply1 := (applyOpt protojson_Marshal json_Marshal pid hooksOverride skipHooks).
Local Abbreviation applyAll := (applyOpts protojson_Marshal json_Marshal pid hooksOverride skipHooks).

(** A command with hooks: it has a payload that can be decoded again, and the hooks
    directory of some configuration. *)
Definition withHooks (c : cmdCfg) : Prop :=
  exists p envVar cfg, HooksPayload_Env protojson_Marshal json_Marshal p = Ok envVar /\ envVar ∈ env c /\
    BinDir p = cfg_BinDir cfg /\
    GConfigPair (mkConfigPair (text "core.hooksPath") (hooks_Path hooksOverride skipHooks cfg) [] []) ∈ globals c.

(** Options only add. *)
Definition extends (c c' : cmdCfg) : Prop := env c ⊆ env c' /\ globals c ⊆ globals c'.

Lemma configureHooks_ok cc ctx repo cfg rp hooks cc' :
  configureHooks protojson_Marshal json_Marshal pid hooksOverride skipHooks cc ctx repo cfg rp hooks = Ok cc' ->
  hooksConfigured cc = false /\ hooksConfigured cc' = true /\ extends cc cc' /\ withHooks cc'.
Proof.
  unfold configureHooks. destruct (hooksConfigured cc); [done|]. intros Hok. split; [done|].
  destruct (match ctx_transaction ctx with TxFound _ => _ | _ => _ end) as [tx| |]; cbn [mbind out_bind] in Hok; try done.
  destruct (HooksPayload_Env _ _ _) as [v| |] eqn:Hv; try done. injection Hok as <-. split_and!; [done| |].
  - split; cbn; set_solver.
  - eexists _, v, cfg. split_and!; [exact Hv|cbn; set_solver|done|cbn; set_solver].
Qed.

Lemma applyOpt_ok opt c c' :
  apply1 opt c = Ok c' ->
  extends c c' /\ hooksConfigured c' = hooksConfigured c || requestsHooks opt || disablesHooks opt /\
  (requestsHooks opt = true -> hooksConfigured c = false /\ withHooks c').
Proof.
  assert (Hadd : forall d gs, withHooks d -> withHooks (addGlobals d gs)).
  { intros d gs (p & v & cfg & ? & ? & ? & ?). exists p, v, cfg. split_and!; try done. cbn. set_solver. }
  destruct opt as [r|w|w|e|cps|cps|gs|gp| |ctx repo cfg|ctx repo cfg|ctx cfg req pr]; cbn [applyOpt requestsHooks disablesHooks];
    try (intros [= <-]; rewrite ?orb_false_r; cbn; rewrite ?orb_true_r;
         split_and!; [split; cbn; set_solver|done|done]).
  - destruct repo as [repo|]; [|done]. intros (Hf & Ht & He & Hw)%configureHooks_ok. rewrite Hf, Ht. auto.
  - destruct (cfg_PackObjectsCacheEnabled cfg) eqn:Hc; cbn [negb].
    + destruct repo as [repo|]; [|done]. destruct (configureHooks _ _ _ _ _ _ _ _ _ _ _) as [d| |] eqn:Hd; cbn [mbind out_bind]; try done.
      apply configureHooks_ok in Hd as (Hf & Ht & [He1 He2] & Hw). intros [= <-]. cbn [hooksConfigured addGlobals].
      rewrite Hf, Ht. split_and!; [split; cbn; set_solver|done|auto].
    + intros [= <-]. rewrite !orb_false_r. split_and!; [by split|done|done].
  - intros (Hf & Ht & He & Hw)%configureHooks_ok. rewrite Hf, Ht. auto.
Qed.

Lemma withHooks_extends c c' : extends c c' -> withHooks c -> withHooks c'.
Proof. intros [He Hg] (p & v & cfg & ? & ? & ? & ?). exists p, v, cfg. split_and!; auto. Qed.

Lemma applyOpts_ok opts c c' :
  applyAll opts c = Ok c' ->
  extends c c' /\
  hooksConfigured c' = hooksConfigured c || existsb (fun o => requestsHooks o || disablesHooks o) opts /\
  (existsb requestsHooks opts = true -> hooksConfigured c = false /\ withHooks c') /\
  (length (List.filter requestsHooks opts) <= 1)%nat.
Proof.
  revert c. induction opts as [|o opts IH]; intros c; cbn [applyOpts existsb List.filter].
  - intros [= <-]. rewrite orb_false_r. split_and!; [by split|done|done|simpl; lia].
  - destruct (apply1 o c) as [d| |] eqn:Hd; cbn [mbind out_bind]; try done. intros Hall.
    apply applyOpt_ok in Hd as ([He Hg] & Hh & Hr). specialize (IH d Hall) as ([He' Hg'] & Hh' & Hr' & Hlen).
    split_and!; [split; set_solver|by rewrite Hh', Hh, <- !orb_assoc| |].
    + intros [Ho|Hos]%orb_true_iff.
      * destruct (Hr Ho) as [Hf Hw]. split; [done|]. by eapply withHooks_extends.
      * destruct (Hr' Hos) as [Hf Hw]. split; [|done]. rewrite Hh in Hf. by destruct (hooksConfigured c).
    + destruct (requestsHooks o) eqn:Ho; [|done]. cbn [length].
      assert (Hnone : List.filter requestsHooks opts = []); [|rewrite Hnone; simpl; lia].
      destruct (existsb requestsHooks opts) eqn:Hex.
      * destruct (Hr' eq_refl) as [Hf _]. rewrite Hh in Hf. by rewrite orb_true_r in Hf.
      * clear -Hex. induction opts as [|x l IHl]; [done|]. cbn in Hex |- *. by destruct (requestsHooks x); [|apply IHl].
Qed.

Lemma applyOpts_err opts c name : applyAll opts c ≠ Err (ErrHookPayloadRequired name).
Proof.
  assert (Hconf : forall cc ctx repo cfg rp hooks,
    configureHooks protojson_Marshal json_Marshal pid hooksOverride skipHooks cc ctx repo cfg rp hooks
      ≠ Err (ErrHookPayloadRequired name)).
  { intros. unfold configureHooks. destruct (hooksConfigured cc); [done|].
    destruct (ctx_transaction ctx); cbn [mbind out_bind]; try done; by destruct (HooksPayload_Env _ _ _). }
  revert c. induction opts as [|o opts IH]; intros c; cbn [applyOpts]; [done|].
  destruct (apply1 o c) as [d|e|] eqn:Hd; cbn [mbind out_bind]; [apply IH| |done]. intros [= ->].
  destruct o as [r|w|w|ev|cps|cps|gs|gp| |ctx repo cfg|ctx repo cfg|ctx cfg req pr]; cbn [applyOpt] in Hd; try done.
  - destruct repo; [|done]. by apply Hconf in Hd.
  - destruct (negb _); [done|]. destruct repo; [|done]. destruct (configureHooks _ _ _ _ _ _ _ _ _ _ _) eqn:Hc;
      cbn [mbind out_bind] in Hd; try done. injection Hd as ->. by apply Hconf in Hc.
  - by apply Hconf in Hd.
Qed.

(** A git command that may update references is never run by accident without
    hooks: it has a decodable payload for them and the hooks directory in its
    configuration, or its caller disabled them explicitly; without either it is
    refused, and at most one option may set hooks up. *)
Theorem ref_updates_run_hooks sc cmdOpts d :
  commandDescriptions !! Subcommand sc = Some d -> mayUpdateRef d = true ->
  match combineOpts protojson_Marshal json_Marshal pid hooksOverride skipHooks sc cmdOpts with
  | Ok config => (length (List.filter requestsHooks cmdOpts) <= 1)%nat /\
      (WithDisabledHooks ∈ cmdOpts \/ withHooks config)
  | Err (ErrHookPayloadRequired name) => name = Subcommand sc /\ Forall (fun o => requestsHooks o = false) cmdOpts /\
      WithDisabledHooks ∉ cmdOpts
  | Err _ | Panic => forall c, applyAll cmdOpts emptyCfg ≠ Ok c
  end.
Proof.
  intros Hd Hm. unfold combineOpts. rewrite Hd.
  destruct (applyAll cmdOpts emptyCfg) as [c|e|] eqn:Ha; cbn [mbind out_bind]; [|destruct e; try done; by apply applyOpts_err in Ha|done].
  apply applyOpts_ok in Ha as (_ & Hh & Hr & Hlen). cbn [emptyCfg hooksConfigured orb] in Hh. rewrite Hm, andb_true_r, Hh.
  destruct (existsb _ cmdOpts) eqn:Hex; cbn [negb].
  - split; [done|]. apply existsb_exists in Hex as (o & Hin%list_elem_of_In & [Ho|Ho]%orb_true_iff).
    + right. apply Hr. apply existsb_exists. exists o. by rewrite <- list_elem_of_In.
    + left. by destruct o.
  - split; [done|]. assert (Hnone : forall o, o ∈ cmdOpts -> requestsHooks o = false /\ disablesHooks o = false).
    { intros o Ho%list_elem_of_In. apply orb_false_iff. apply not_true_iff_false. intros Ht.
      apply not_true_iff_false in Hex. apply Hex, existsb_exists. eauto. }
    split; [apply Forall_forall; intros o Ho; by apply Hnone|]. intros Hin. by destruct (Hnone _ Hin).
Qed.

End Hooks.

(** *** Internal references *)

Lemma init_ok : init_missing = None.
Proof. vm_compute. reflexivity. Qed.

Lemma hidden_settings : Forall (fun p => (text "receive.hideRefs", text p) ∈ ownSettings
  (default (simple 0) (commandDescriptions !! "receive-pack"))) InternalRefPrefixes.
Proof. apply (bool_decide_unpack _). vm_compute. exact I. Qed.

(** Whatever the caller and the administrator configure, git-receive-pack(1) hides the
    internal references. *)
Lemma receive_pack_hides_internal_refs gitConfig sc cc argv p :
  Subcommand sc = "receive-pack" -> Forall isConfig (globals cc) -> combineArgs gitConfig sc cc = Ok argv ->
  p ∈ InternalRefPrefixes -> (text "receive.hideRefs", text p) ∈ readConfigs argv.
Proof.
  intros Hsc Hcc Hok Hp. pose proof Hok as Hok'. unfold combineArgs in Hok'. rewrite Hsc in Hok'.
  destruct (commandDescriptions !! "receive-pack") as [d|] eqn:Hd; [|done]. clear Hok'.
  rewrite (config_settings gitConfig sc cc argv d) by (done || congruence). apply elem_of_app. left. pose proof hidden_settings as Hall. rewrite Hd in Hall.
  rewrite Forall_forall in Hall. by apply Hall.
Qed.

(** *** The process *)

Lemma AllowedEnvironment_spec e envs :
  e ∈ AllowedEnvironment envs <-> e ∈ envs /\ exists name value, name ∈ exportedEnvVars /\ e = name ++ equals :: value.
Proof.
  unfold AllowedEnvironment. generalize exportedEnvVars as vars. intros vars. rewrite list_elem_of_In, in_concat. setoid_rewrite <- list_elem_of_In. setoid_rewrite list_elem_of_fmap. split.
  - intros (l & (x & -> & Hx) & He). apply list_elem_of_omap in He as (name & Hn & Hsome).
    destruct (HasPrefix x _) eqn:Hpre; [|done]. simplify_eq. split; [done|].
    apply HasPrefix_spec in Hpre as [rest ->]. exists name, rest. by rewrite <- app_assoc.
  - intros [He (name & value & Hn & ->)]. eexists. split; [by eexists|]. apply list_elem_of_omap. exists name. split; [done|].
    assert (Hpre : HasPrefix (name ++ equals :: value) (name ++ [equals]) = true); [|by rewrite Hpre].
    apply HasPrefix_spec. exists value. by rewrite <- app_assoc.
Qed.

(** The process that a command for a repository starts: git for the directory
    the locator confines to the repository's storage, with the options of the
    combined configuration before the command, no argument with a null byte, and of
    the node's own environment only the exported variables. *)
Theorem newCommand_process protojson_Marshal json_Marshal pid hooksOverride skipHooks w cfg gitConfig storages stat
    repo dir sc cmdOpts proc :
  newCommand protojson_Marshal json_Marshal pid hooksOverride skipHooks w cfg gitConfig storages stat
    (Some repo) dir sc cmdOpts = Ok proc ->
  exists config argv repoPath,
    combineOpts protojson_Marshal json_Marshal pid hooksOverride skipHooks sc cmdOpts = Ok config /\
    combineArgs gitConfig sc config = Ok argv /\ GetRepoPath storages stat repo = Ok repoPath /\
    p_Path proc = cfg_GitBinPath cfg /\ p_Args proc = text "--git-dir" :: repoPath :: argv /\ p_Dir proc = dir /\
    Forall (fun arg => nul ∉ arg) (p_Args proc) /\
    exists own, p_Env proc = envInjector w
        (alternates_Env repoPath (GetGitObjectDirectory repo) (GetGitAlternateObjectDirectories repo) ++ env config ++
         GitEnv ++ [text "GIT_TERMINAL_PROMPT=0"] ++ own) /\
      forall e, e ∈ own <-> e ∈ osEnviron w /\ exists name value, name ∈ exportedEnvVars /\ e = name ++ equals :: value.
Proof.
  unfold newCommand. destruct (combineOpts _ _ _ _ _ _ _) as [config| |] eqn:Hconfig; cbn [mbind out_bind]; try done.
  destruct (combineArgs _ _ _) as [argv| |] eqn:Hargv; cbn [mbind out_bind]; try done.
  destruct (GetRepoPath _ _ _) as [repoPath| |] eqn:Hpath; cbn [mbind out_bind]; try done. cbn [fst snd].
  unfold command_New. destruct (ctxDone w); [|done]. cbn [negb].
  destruct (checkNullArgv _) eqn:Hnull; [done|]. destruct (spawnToken w), (starts w); cbn [negb]; try done.
  intros [= <-]. exists config, argv, repoPath. cbn [p_Path p_Args p_Dir p_Env]. split_and!; try done.
  - apply Forall_forall. intros arg Harg. unfold checkNullArgv in Hnull.
    pose proof (find_none _ _ Hnull arg) as Hn. rewrite bool_decide_eq_false in Hn. apply Hn. apply list_elem_of_In. by right.
  - exists (AllowedEnvironment (osEnviron w)). rewrite <- !app_assoc. split; [done|]. intros e. apply AllowedEnvironment_spec.
Qed.

(** ** Instances *)

Definition ex_fetch : Cmd := CSubCmd (mkSubCmd "fetch" [OFlag (text "--prune")] [text "origin"] []).
Definition ex_cc : cmdCfg := mkCmdCfg [] [GConfigPair (configPair "gc.auto" "7")] None None None true.

Lemma config_precedence_witness :
  exists argv, combineArgs [(text "fetch.fsckObjects", text "a=b")] ex_fetch ex_cc = Ok argv /\
    lastOf (text "fetch.fsckObjects") (readConfigs argv) = Some (text "a=b") /\
    lastOf (text "gc.auto") (readConfigs argv) = Some (text "7") /\
    lastOf (text "core.autocrlf") (readConfigs argv) = Some (text "input").
Proof.
  destruct (combineArgs [(text "fetch.fsckObjects", text "a=b")] ex_fetch ex_cc) as [argv| |] eqn:Hok;
    [|vm_compute in Hok; discriminate Hok..].
  destruct (commandDescriptions !! "fetch") as [d|] eqn:Hd; [|vm_compute in Hd; discriminate Hd].
  exists argv. split; [reflexivity|].
  destruct (config_precedence [(text "fetch.fsckObjects", text "a=b")] ex_fetch ex_cc argv d Hd
    ltac:(repeat constructor) Hok) as [_ Hlast].
  rewrite !Hlast. assert (Hown : lastOf (text "core.autocrlf") (ownSettings d) = Some (text "input")).
  { vm_compute in Hd. injection Hd as <-. vm_compute. reflexivity. }
  rewrite Hown. vm_compute. auto.
Defined.

Lemma ref_updates_run_hooks_witness :
  combineOpts OnePayload.protojson_Marshal OnePayload.json_Marshal (text "7") [] false ex_fetch [WithStdin None] =
    Err (ErrHookPayloadRequired "fetch") /\
  WithDisabledHooks ∉ [WithStdin None].
Proof.
  destruct (commandDescriptions !! "fetch") as [d|] eqn:Hd; [|vm_compute in Hd; discriminate Hd].
  assert (Hup : mayUpdateRef d = true) by (vm_compute in Hd; injection Hd as <-; vm_compute; reflexivity).
  assert (Herr : combineOpts OnePayload.protojson_Marshal OnePayload.json_Marshal (text "7") [] false ex_fetch
    [WithStdin None] = Err (ErrHookPayloadRequired "fetch")) by (vm_compute; reflexivity).
  pose proof (ref_updates_run_hooks OnePayload.protojson_Marshal OnePayload.json_Marshal (text "7") [] false ex_fetch
    [WithStdin None] d Hd Hup) as H.
  rewrite Herr in H. split; [exact Herr|apply H].
Defined.

Definition ex_cfg : GitalyCfg :=
  mkCfg (text "/bin") (text "/usr/bin/git") (text "/run") (text "token") (text "/log") (text "/ruby") false.
Definition ex_surroundings : Surroundings :=
  mkSurroundings true true true [text "HOME=/root"; text "SECRET=1"] (fun e => e).

Lemma newCommand_process_witness :
  exists proc, newCommand OnePayload.protojson_Marshal OnePayload.json_Marshal (text "7") [] false ex_surroundings ex_cfg []
      ex_storages (fun _ => StatDir) (Some ex_repo) [] ex_fetch [WithDisabledHooks] = Ok proc /\
    exists argv, p_Args proc = text "--git-dir" :: text "/parent/repo.git" :: argv.
Proof.
  destruct (newCommand OnePayload.protojson_Marshal OnePayload.json_Marshal (text "7") [] false ex_surroundings ex_cfg []
      ex_storages (fun _ => StatDir) (Some ex_repo) [] ex_fetch [WithDisabledHooks]) as [proc| |] eqn:Hok;
    [|vm_compute in Hok; discriminate Hok..].
  exists proc. split; [reflexivity|].
  destruct (newCommand_process _ _ _ _ _ _ _ _ _ _ _ _ _ _ proc Hok) as (config & argv & path & _ & _ & Hpath & _ & Hargs & _).
  exists argv. rewrite Hargs. f_equal. f_equal. vm_compute in Hpath. injection Hpath as <-. reflexivity.
Defined.
