(* ===== verification/GitVersion.v ===== *)
(** Names and versions that a Gitaly node gets from git and from requests:
    src/internal/git/version.go, id.go, proto.go and reference.go. *)

From Stdlib Require Import Strings.Ascii.
From S2P Require Import Prelude GoStrings Regex.

(** ** Numbers *)

(** [strconv.ParseUint(s, 10, 32)]. *)
Definition digitValue (c : ascii) : option Z :=
  if isDigit c then Some (Z.of_nat (nat_of_ascii c) - 48) else None.

Inductive NumError : Type := ErrSyntax | ErrRange.

Fixpoint parseDigits (acc : Z) (s : list ascii) : out NumError Z :=
  match s with
  | [] => Ok acc
  | c :: s =>
    match digitValue c with
    | None => Err ErrSyntax
    | Some d =>
      let n := acc * 10 + d in
      if decide (n >= 2 ^ 32) then Err ErrRange else parseDigits n s
    end
  end.

Definition ParseUint32 (s : list ascii) : out NumError Z :=
  if decide (s = []) then Err ErrSyntax else parseDigits 0 s.

(** The number a string of digits stands for. *)
Definition numeral (s : list ascii) : Z :=
  foldl (fun acc c => acc * 10 + (Z.of_nat (nat_of_ascii c) - 48)) 0 s.

(** ** Versions *)

Record Version : Type := mkVersion {
  versionString : list ascii;
  major : Z;
  minor : Z;
  patch : Z;
  rc : bool;
  gl : Z;
}.

Inductive VersionError : Type := ErrFormat (s : list ascii) | ErrNumber (e : NumError).

Definition LessThan (v other : Version) : bool :=
  if decide (major v < major other) then true
  else if decide (major v > major other) then false
  else if decide (minor v < minor other) then true
  else if decide (minor v > minor other) then false
  else if decide (patch v < patch other) then true
  else if decide (patch v > patch other) then false
  else if rc v && negb (rc other) then true
  else if negb (rc v) && rc other then false
  else if decide (gl v < gl other) then true
  else if decide (gl v > gl other) then false
  else false.

Definition minimumVersion : Version := mkVersion (text "2.31.0") 2 31 0 false 0.

Definition IsSupported (v : Version) : bool := negb (LessThan v minimumVersion).

Definition SupportsObjectTypeFilter (v : Version) : bool := negb (LessThan v (mkVersion [] 2 32 0 false 0)).

Definition FlushesUpdaterefStatus (v : Version) : bool :=
  if decide (major v = 2 /\ minor v = 33 /\ gl v >= 3) then true
  else if decide (major v = 2 /\ minor v >= 34) then true
  else if decide (major v >= 3) then true
  else false.

Definition period : ascii := "."%char.
Definition hyphen : ascii := "-"%char.

(** One of the first three parts: its number, and whether it marks a release
    candidate. *)
Definition parsePart (part : list ascii) : out VersionError (Z * bool) :=
  if decide (part = text "GIT") then Ok (0, false)
  else
    let (number, suffix) := Cut hyphen part in
    match ParseUint32 number with
    | Err e => Err (ErrNumber e)
    | Panic => Panic
    | Ok n => Ok (n, match suffix with Some s => HasPrefix s (text "rc") | None => false end)
    end.

Definition parseVersion (versionStr : list ascii) : out VersionError Version :=
  match SplitN period versionStr 4 with
  | a :: b :: c :: more =>
    x ← parsePart a;
    y ← parsePart b;
    z ← parsePart c;
    let isRc := x.2 || y.2 || z.2 in
    match more with
    | last :: _ =>
      if HasPrefix last (text "rc") then Ok (mkVersion versionStr x.1 y.1 z.1 true 0)
      else if HasPrefix last (text "gl") then
        match ParseUint32 (drop 2 last) with
        | Err e => Err (ErrNumber e)
        | Panic => Panic
        | Ok n => Ok (mkVersion versionStr x.1 y.1 z.1 isRc n)
        end
      else Ok (mkVersion versionStr x.1 y.1 z.1 isRc 0)
    | [] => Ok (mkVersion versionStr x.1 y.1 z.1 isRc 0)
    end
  | _ => Err (ErrFormat versionStr)
  end.

(** [strings.Trim(s, " \n")]. *)
Definition blank (c : ascii) : Prop := c = " "%char \/ c = ascii_of_nat 10.
#[export] Instance blank_dec c : Decision (blank c) := ltac:(unfold blank; apply _).

Fixpoint trimLeft (s : list ascii) : list ascii :=
  match s with
  | [] => []
  | c :: s' => if decide (blank c) then trimLeft s' else s
  end.

Definition Trim (s : list ascii) : list ascii := reverse (trimLeft (reverse (trimLeft s))).

(** The output of [git version], which was read and whose process has ended. *)
Definition parseVersionOutput (output : list ascii) : out VersionError Version :=
  match SplitN " "%char (Trim output) 3 with
  | [_; _; version] => parseVersion version
  | _ => Err (ErrFormat output)
  end.

(** ** Object names, revisions and references *)

Definition objectIDRegex : regex := Times 40 (Class (fun c => between 48 57 c || between 97 102 c)).

Definition ValidateObjectID (id : list ascii) : bool := MatchString objectIDRegex id.

Definition NewObjectIDFromHex (hex : list ascii) : option (list ascii) :=
  if ValidateObjectID hex then Some hex else None.

Definition ZeroOID : list ascii := replicate 40 "0"%char.
Definition EmptyTreeOID : list ascii := text "4b825dc642cb6eb9a060e54bf8d69288fbee4904".
Definition IsZeroOID (oid : list ascii) : bool := bool_decide (oid = ZeroOID).

Inductive RevisionError : Type := EmptyRevision | LeadingDash | HasSpace | HasNul | HasColon.

Definition validateRevision (revision : list ascii) (allowEmpty : bool) : option RevisionError :=
  if negb allowEmpty && bool_decide (revision = []) then Some EmptyRevision
  else if HasPrefix revision (text "-") then Some LeadingDash
  else if bool_decide (" "%char ∈ revision) then Some HasSpace
  else if bool_decide (ascii_of_nat 0 ∈ revision) then Some HasNul
  else if bool_decide (":"%char ∈ revision) then Some HasColon
  else None.

Definition ValidateRevisionAllowEmpty (revision : list ascii) : option RevisionError := validateRevision revision true.
Definition ValidateRevision (revision : list ascii) : option RevisionError := validateRevision revision false.

Definition headsPrefix : list ascii := text "refs/heads/".
Definition NewReferenceNameFromBranchName (branch : list ascii) : list ascii := headsPrefix ++ branch.
Definition Branch (r : list ascii) : option (list ascii) :=
  if HasPrefix r headsPrefix then Some (drop (length headsPrefix) r) else None.

(** ** Properties *)

(** *** The order of versions *)

(** Release candidates come before their release. *)
Definition rank (v : Version) : list Z := [major v; minor v; patch v; if rc v then 0 else 1; gl v].

Fixpoint lexLess (l l' : list Z) : bool :=
  match l, l' with
  | x :: l, y :: l' => if decide (x < y) then true else if decide (y < x) then false else lexLess l l'
  | _, _ => false
  end.

Lemma LessThan_lex v w : LessThan v w = lexLess (rank v) (rank w).
Proof.
  unfold LessThan, rank. cbn [lexLess]. destruct (rc v), (rc w); cbn [andb negb];
    repeat (case_decide; try (exfalso; lia); try reflexivity).
Qed.

Lemma lexLess_irrefl l : lexLess l l = false.
Proof. induction l as [|x l IH]; cbn [lexLess]; [done|]. repeat (case_decide; try lia). done. Qed.

Lemma lexLess_trans l1 l2 l3 : lexLess l1 l2 = true -> lexLess l2 l3 = true -> lexLess l1 l3 = true.
Proof.
  revert l2 l3. induction l1 as [|x l1 IH]; intros [|y l2] [|z l3]; cbn [lexLess]; try done.
  repeat (case_decide; try lia; try done). apply IH.
Qed.

Lemma lexLess_total l1 l2 : length l1 = length l2 -> lexLess l1 l2 = true \/ lexLess l2 l1 = true \/ l1 = l2.
Proof.
  revert l2. induction l1 as [|x l1 IH]; intros [|y l2]; cbn [lexLess length]; try done; [auto|]. intros [= Hlen].
  repeat (case_decide; try lia; auto). assert (x = y) as -> by lia.
  destruct (IH _ Hlen) as [?|[?| ->]]; auto.
Qed.

(** The order of versions is the lexicographic one on major, minor and patch
    number, release candidates before releases, and GitLab's patch level; it is a
    strict order in which two versions that are not ordered agree in all of these. *)
Theorem version_order v w :
  LessThan v w = lexLess (rank v) (rank w) /\ LessThan v v = false /\
  (forall u, LessThan u v = true -> LessThan v w = true -> LessThan u w = true) /\
  (LessThan v w = false -> LessThan w v = false -> rank v = rank w) /\
  (IsSupported v = true -> LessThan v w = true -> IsSupported w = true).
Proof.
  split_and!.
  - apply LessThan_lex.
  - rewrite LessThan_lex. apply lexLess_irrefl.
  - intros u. rewrite !LessThan_lex. apply lexLess_trans.
  - rewrite !LessThan_lex. intros Hvw Hwv. destruct (lexLess_total (rank v) (rank w) eq_refl) as [?|[?|?]]; congruence.
  - unfold IsSupported. rewrite !LessThan_lex, !negb_true_iff. intros Hv Hvw. apply not_true_iff_false. intros Hw.
    pose proof (lexLess_trans _ _ _ Hvw Hw). congruence.
Qed.

(** *** Parsing *)

Lemma numeral_app s t : numeral (s ++ t) = foldl (fun acc c => acc * 10 + (Z.of_nat (nat_of_ascii c) - 48)) (numeral s) t.
Proof. unfold numeral. by rewrite foldl_app. Qed.

Lemma digitValue_some c d : digitValue c = Some d -> isDigit c = true /\ d = Z.of_nat (nat_of_ascii c) - 48 /\ 0 <= d <= 9.
Proof.
  unfold digitValue. destruct (isDigit c) eqn:Hc; [|done]. intros [= <-]. split_and!; [done|done|..];
    unfold isDigit, between in Hc; apply andb_true_iff in Hc as [?%Nat.leb_le ?%Nat.leb_le]; lia.
Qed.

Lemma parseDigits_spec acc s n :
  0 <= acc < 2 ^ 32 ->
  parseDigits acc s = Ok n <->
  Forall (fun c => isDigit c = true) s /\ n = foldl (fun acc c => acc * 10 + (Z.of_nat (nat_of_ascii c) - 48)) acc s /\ n < 2 ^ 32.
Proof.
  revert acc. induction s as [|c s IH]; intros acc Hacc; cbn [parseDigits foldl].
  { split; [intros [= <-]; split_and!; [constructor|done|lia]|intros (_ & -> & _); done]. }
  rewrite Forall_cons. destruct (digitValue c) as [d|] eqn:Hd.
  - apply digitValue_some in Hd as (Hc & -> & Hr).
    case_decide as Hbig.
    + split; [done|]. intros ([_ Hs] & -> & Hlt). exfalso. revert Hlt Hs Hbig.
      generalize (acc * 10 + (Z.of_nat (nat_of_ascii c) - 48)). clear. intros m Hlt Hs Hm. revert m Hlt Hm.
      induction Hs as [|x s Hx _ IH]; intros m; cbn [foldl]; [lia|]. intros Hlt Hm. eapply IH; [exact Hlt|].
      assert (Hx' : digitValue x = Some (Z.of_nat (nat_of_ascii x) - 48)) by (unfold digitValue; by rewrite Hx).
      apply digitValue_some in Hx' as (_ & _ & ?). lia.
    + rewrite IH by lia. tauto.
  - split; [done|]. intros ([Hc _] & _). unfold digitValue in Hd. by rewrite Hc in Hd.
Qed.

(** A number is read exactly if it is made of digits and fits 32 bits. *)
Lemma ParseUint32_spec s n :
  ParseUint32 s = Ok n <-> s ≠ [] /\ Forall (fun c => isDigit c = true) s /\ n = numeral s /\ n < 2 ^ 32.
Proof.
  unfold ParseUint32. case_decide as Hs; [split; [done|tauto]|]. rewrite parseDigits_spec by lia. tauto.
Qed.

Definition number (s : list ascii) : Prop := s ≠ [] /\ Forall (fun c => isDigit c = true) s /\ numeral s < 2 ^ 32.

Lemma digits_no c s : isDigit c = false -> Forall (fun c => isDigit c = true) s -> c ∉ s.
Proof. intros Hc Hs Hin. rewrite Forall_forall in Hs. specialize (Hs c Hin). congruence. Qed.

Lemma number_no_period s : number s -> period ∉ s.
Proof. intros (_ & Hd & _). by apply digits_no. Qed.

Lemma number_no_hyphen s : number s -> hyphen ∉ s.
Proof. intros (_ & Hd & _). by apply digits_no. Qed.

Lemma number_parse s : number s -> ParseUint32 s = Ok (numeral s).
Proof. intros (Hne & Hd & Hb). by apply ParseUint32_spec. Qed.

Lemma number_not_GIT s t : number s -> s ++ t ≠ text "GIT".
Proof.
  intros (Hne & Hd & _) Heq. destruct s as [|c s]; [done|]. apply Forall_cons in Hd as [Hc _].
  cbn in Heq. injection Heq as -> _. by vm_compute in Hc.
Qed.

Lemma parsePart_number s : number s -> parsePart s = Ok (numeral s, false).
Proof.
  intros Hs. unfold parsePart. rewrite decide_False by (rewrite <- (app_nil_r s); by apply number_not_GIT).
  rewrite Cut_plain by by apply number_no_hyphen. by rewrite number_parse.
Qed.

Lemma parsePart_rc s r : number s -> parsePart (s ++ hyphen :: text "rc" ++ r) = Ok (numeral s, true).
Proof.
  intros Hs. unfold parsePart. rewrite decide_False by by apply number_not_GIT.
  rewrite Cut_app by by apply number_no_hyphen. rewrite number_parse by done.
  assert (Hrc : HasPrefix (text "rc" ++ r) (text "rc") = true) by (apply HasPrefix_spec; by exists r).
  by rewrite Hrc.
Qed.

Lemma SplitN_4 a b c rest :
  period ∉ a -> period ∉ b ->
  SplitN period (a ++ period :: b ++ period :: rest) 4 = a :: b :: SplitN period rest 2 /\
  (period ∉ c -> SplitN period c 2 = [c] /\ forall more, SplitN period (c ++ period :: more) 2 = [c; more]).
Proof.
  intros Ha Hb. split.
  - cbn [SplitN]. rewrite Cut_app by done. cbn [SplitN]. rewrite Cut_app by done. done.
  - intros Hc. split; [cbn [SplitN]; rewrite Cut_plain by done; done|]. intros more. cbn [SplitN]. by rewrite Cut_app.
Qed.

(** The version strings of git are read as what they say: three numbers, with
    GitLab's patch level behind [gl], and release candidates marked behind a dot or a
    hyphen. *)
Theorem parseVersion_correct a b c :
  number a -> number b -> number c ->
  let v := a ++ period :: b ++ period :: c in
  parseVersion v = Ok (mkVersion v (numeral a) (numeral b) (numeral c) false 0) /\
  (forall g, number g -> let w := a ++ period :: b ++ period :: c ++ period :: text "gl" ++ g in
     parseVersion w = Ok (mkVersion w (numeral a) (numeral b) (numeral c) false (numeral g))) /\
  (forall r, let w := a ++ period :: b ++ period :: c ++ period :: text "rc" ++ r in
     parseVersion w = Ok (mkVersion w (numeral a) (numeral b) (numeral c) true 0)) /\
  (forall r, period ∉ r -> let w := a ++ period :: b ++ period :: c ++ hyphen :: text "rc" ++ r in
     parseVersion w = Ok (mkVersion w (numeral a) (numeral b) (numeral c) true 0)).
Proof.
  intros Ha Hb Hc. pose proof (number_no_period a Ha) as Hpa. pose proof (number_no_period b Hb) as Hpb.
  pose proof (number_no_period c Hc) as Hpc. unfold parseVersion. cbn zeta. split_and!.
  - destruct (SplitN_4 a b c c Hpa Hpb) as [-> Hs]. destruct (Hs Hpc) as [-> _].
    rewrite !parsePart_number by done. done.
  - intros g Hg. destruct (SplitN_4 a b c (c ++ period :: text "gl" ++ g) Hpa Hpb) as [-> Hs].
    destruct (Hs Hpc) as [_ ->]. rewrite !parsePart_number by done. cbn [mbind out_bind].
    assert (Hgl : HasPrefix (text "gl" ++ g) (text "gl") = true) by (apply HasPrefix_spec; by exists g).
    assert (Hrc : HasPrefix (text "gl" ++ g) (text "rc") = false)
      by (apply not_true_iff_false; intros [more Hm]%HasPrefix_spec; done).
    rewrite Hrc, Hgl. change (drop 2 (text "gl" ++ g)) with g. by rewrite number_parse.
  - intros r. destruct (SplitN_4 a b c (c ++ period :: text "rc" ++ r) Hpa Hpb) as [-> Hs].
    destruct (Hs Hpc) as [_ ->]. rewrite !parsePart_number by done. cbn [mbind out_bind].
    assert (Hrc : HasPrefix (text "rc" ++ r) (text "rc") = true) by (apply HasPrefix_spec; by exists r).
    by rewrite Hrc.
  - intros r Hr. set (part := c ++ hyphen :: text "rc" ++ r).
    assert (Hpart : period ∉ part).
    { unfold part. rewrite elem_of_app. intros [?|Hin]; [done|]. rewrite elem_of_cons, elem_of_app in Hin.
      destruct Hin as [?|[Hin|?]]; [done| |done]. revert Hin. apply (bool_decide_unpack _). vm_compute. exact I. }
    destruct (SplitN_4 a b part part Hpa Hpb) as [-> Hs]. destruct (Hs Hpart) as [-> _].
    rewrite (parsePart_number a), (parsePart_number b) by done. assert (Hpr : parsePart part = Ok (numeral c, true)) by by apply parsePart_rc.
    rewrite Hpr. done.
Qed.

Lemma parseVersion_correct_witness :
  parseVersion (text "2.33.1.gl3") = Ok (mkVersion (text "2.33.1.gl3") 2 33 1 false 3) /\
  IsSupported (mkVersion (text "2.33.1.gl3") 2 33 1 false 3) = true.
Proof.
  split; [|vm_compute; reflexivity].
  assert (Hn : forall s, bool_decide (s ≠ [] /\ numeral s < 2 ^ 32) && forallb isDigit s = true -> number s).
  { intros s [[? ?]%bool_decide_eq_true Hd]%andb_true_iff. split_and!; [done| |done]. apply Forall_forall.
    rewrite forallb_forall in Hd. intros c Hc. by apply Hd, list_elem_of_In. }
  apply (parseVersion_correct (text "2") (text "33") (text "1")); apply Hn; vm_compute; reflexivity.
Defined.

(** *** Names *)

Lemma ValidateObjectID_spec id :
  ValidateObjectID id = true <-> length id = 40%nat /\ forall c, c ∈ id -> between 48 57 c || between 97 102 c = true.
Proof. unfold ValidateObjectID. rewrite MatchString_lang. apply lang_times. Qed.

(** A validated object name is a valid revision: it cannot be taken for an option,
    a path or a range; a revision is refused exactly if it is empty, starts with a
    dash, or holds a space, a null byte or a colon. *)
Theorem revisions_validated :
  (forall id, ValidateObjectID id = true -> ValidateRevision id = None) /\
  (forall revision, ValidateRevision revision = None <->
     revision ≠ [] /\ head revision ≠ Some hyphen /\
     " "%char ∉ revision /\ ascii_of_nat 0 ∉ revision /\ ":"%char ∉ revision) /\
  (forall branch, Branch (NewReferenceNameFromBranchName branch) = Some branch).
Proof.
  assert (Hdash : forall s, HasPrefix s (text "-") = true <-> head s = Some hyphen).
  { intros s. rewrite HasPrefix_spec. split; [by intros [rest ->]|]. destruct s as [|c s]; [done|]. intros [= ->]. by exists s. }
  assert (Hspec : forall revision, ValidateRevision revision = None <->
     revision ≠ [] /\ head revision ≠ Some hyphen /\
     " "%char ∉ revision /\ ascii_of_nat 0 ∉ revision /\ ":"%char ∉ revision).
  { intros s. unfold ValidateRevision, validateRevision. cbn [negb andb]. pose proof (Hdash s) as Hd.
    destruct (HasPrefix s (text "-")); repeat case_bool_decide; naive_solver. }
  split_and!; [|exact Hspec|].
  - intros id [Hlen Hall]%ValidateObjectID_spec. apply Hspec.
    assert (Hno : forall c, between 48 57 c || between 97 102 c = false -> c ∉ id) by (intros c Hc Hin; rewrite (Hall c Hin) in Hc; done).
    split_and!; [by intros ->| |by apply Hno..]. destruct id as [|c id]; [done|]. intros [= ->].
    specialize (Hall hyphen (list_elem_of_here _ _)). by vm_compute in Hall.
  - intros branch. unfold Branch, NewReferenceNameFromBranchName.
    assert (Hp : HasPrefix (headsPrefix ++ branch) headsPrefix = true) by (apply HasPrefix_spec; by exists branch).
    rewrite Hp. by rewrite drop_app_length.
Qed.
