(* ===== verification/DiffParser.v ===== *)
(** The parser of git's diffs: src/internal/gitaly/diff/diff.go, with
    src/internal/helper/byte.go.

    The stream is the list of bytes still to be read and whether reading fails at its
    end. The counters are unbounded integers: they are bounded by the length of the
    stream. *)

From Stdlib Require Import Strings.Ascii.
From S2P Require Import Prelude GoStrings Regex GitVersion.

Definition lf : ascii := ascii_of_nat 10.
Definition tab : ascii := ascii_of_nat 9.
Definition quote : ascii := ascii_of_nat 34.
Definition backslash : ascii := ascii_of_nat 92.
Definition blankChar : ascii := " "%char.

(** ** Helpers *)

Definition ByteSliceHasAnyPrefix (s : list ascii) (prefixes : list string) : bool :=
  existsb (fun p => HasPrefix s (text p)) prefixes.

Definition IsNumber (s : list ascii) : bool := forallb isDigit s.

Definition UnquoteBytes (s : list ascii) : list ascii :=
  match s with
  | c :: s' =>
    if decide (c = quote /\ s' ≠ [] /\ last s = Some quote) then take (length s' - 1) s' else s
  | [] => s
  end.

Definition digit8 (c : ascii) : option Z := if between 48 55 c then Some (Z.of_nat (nat_of_ascii c) - 48) else None.

(** A number in base eight below [limit]. *)
Fixpoint parseOctal (limit acc : Z) (s : list ascii) : option Z :=
  match s with
  | [] => Some acc
  | c :: s => d ← digit8 c; if decide (acc * 8 + d >= limit) then None else parseOctal limit (acc * 8 + d) s
  end.

(** The byte that a letter stands for behind a backslash. *)
Definition escapeLetter (c : ascii) : option ascii :=
  if decide (c = quote \/ c = backslash \/ c = "/"%char \/ c = "'"%char) then Some c
  else if decide (c = "b"%char) then Some (ascii_of_nat 8)
  else if decide (c = "f"%char) then Some (ascii_of_nat 12)
  else if decide (c = "n"%char) then Some lf
  else if decide (c = "r"%char) then Some (ascii_of_nat 13)
  else if decide (c = "t"%char) then Some tab
  else None.

Definition octalByte (s : list ascii) : option ascii :=
  if IsNumber s then (fun z => ascii_of_nat (Z.to_nat z)) <$> parseOctal 256 0 s else None.

Fixpoint unescape (s : list ascii) : list ascii :=
  match s with
  | [] => []
  | x :: s1 =>
    if decide (x = backslash) then
      match s1 with
      | [] => [x]
      | a :: s2 =>
        let plainEscape :=
          match escapeLetter a with
          | Some u => u :: unescape s2
          | None => backslash :: a :: unescape s2
          end in
        match s2 with
        | b :: c :: s4 =>
          match octalByte [a; b; c] with
          | Some o => o :: unescape s4
          | None => plainEscape
          end
        | _ => plainEscape
        end
      end
    else x :: unescape s1
  end.

(** ** Limits *)

Record Limits : Type := mkLimits {
  EnforceLimits : bool;
  CollapseDiffs : bool;
  MaxFiles : Z;
  MaxLines : Z;
  MaxBytes : Z;
  SafeMaxFiles : Z;
  SafeMaxLines : Z;
  SafeMaxBytes : Z;
  MaxPatchBytes : Z;
}.

Definition maxFilesUpperBound : Z := 5000.
Definition maxLinesUpperBound : Z := 250000.
Definition maxBytesUpperBound : Z := 5000 * 5120.
Definition safeMaxFilesUpperBound : Z := 500.
Definition safeMaxLinesUpperBound : Z := 25000.
Definition safeMaxBytesUpperBound : Z := 500 * 5120.
Definition maxPatchBytesUpperBound : Z := 512000.

Definition enforceUpperBound (l : Limits) : Limits :=
  mkLimits (EnforceLimits l) (CollapseDiffs l)
    (Z.min (MaxFiles l) maxFilesUpperBound) (Z.min (MaxLines l) maxLinesUpperBound)
    (Z.min (MaxBytes l) maxBytesUpperBound) (Z.min (SafeMaxFiles l) safeMaxFilesUpperBound)
    (Z.min (SafeMaxLines l) safeMaxLinesUpperBound) (Z.min (SafeMaxBytes l) safeMaxBytesUpperBound)
    (Z.min (MaxPatchBytes l) maxPatchBytesUpperBound).

(** ** The parser *)

Record Diff : Type := mkDiff {
  Binary : bool;
  OverflowMarker : bool;
  Collapsed : bool;
  TooLarge : bool;
  Status : ascii;
  lineCount : Z;
  FromID : list ascii;
  ToID : list ascii;
  OldMode : Z;
  NewMode : Z;
  FromPath : list ascii;
  ToPath : list ascii;
  Patch : list ascii;
}.

Definition Diff_Reset : Diff := mkDiff false false false false (ascii_of_nat 0) 0 [] [] 0 0 [] [] [].

Inductive DiffError : Type :=
| ErrReader
| ErrRawMismatch
| ErrOldMode
| ErrNewMode
| ErrHeaderMismatch.

Record Parser : Type := mkParser {
  limits : Limits;
  patchReader : list ascii;
  readFails : bool;
  rawLines : list (list ascii);
  currentDiff : Diff;
  nextPatchFromPath : list ascii;
  filesProcessed : Z;
  linesProcessed : Z;
  bytesProcessed : Z;
  finished : bool;
  err : option DiffError;
}.

(** [bufio.Reader.ReadBytes] up to a newline: the line, what follows, and whether the
    line is complete. *)
Fixpoint readLine (s : list ascii) : list ascii * list ascii * bool :=
  match s with
  | [] => ([], [], false)
  | c :: s =>
    if decide (c = lf) then ([c], s, true)
    else let '(line, rest, complete) := readLine s in (c :: line, rest, complete)
  end.

(** The first loop: the raw lines at the start of the stream. The recursion is on a
    bound of the number of lines. *)
Fixpoint cacheRawLines (fuel : nat) (raw : list (list ascii)) (s : list ascii) (fails : bool) :
    list (list ascii) * list ascii * bool :=
  match fuel with
  | O => (raw, s, false)
  | S fuel =>
    let '(line, rest, complete) := readLine s in
    if complete then
      if HasPrefix line (text ":") then cacheRawLines fuel (raw ++ [line]) rest fails
      else (raw, rest, false)
    else (raw, rest, fails)
  end.

Definition NewDiffParser (src : list ascii) (fails : bool) (l : Limits) : Parser :=
  let '(raw, rest, failed) := cacheRawLines (S (length src)) [] src fails in
  mkParser (enforceUpperBound l) rest fails raw Diff_Reset [] 0 0 0 failed
    (if failed then Some ErrReader else None).

(** *** Raw lines *)

Fixpoint span (p : ascii -> bool) (s : list ascii) : list ascii * list ascii :=
  match s with
  | [] => ([], [])
  | c :: s' => if p c then let (a, b) := span p s' in (c :: a, b) else ([], s)
  end.

(** What a subexpression of the regular expressions matches, and what follows. *)
Definition literal (t : list ascii) (s : list ascii) : option (list ascii) :=
  if HasPrefix s t then Some (drop (length t) s) else None.

Definition digits1 (s : list ascii) : option (list ascii * list ascii) :=
  match span isDigit s with
  | ([], _) => None
  | (ds, rest) => Some (ds, rest)
  end.

Definition isHexDigit (c : ascii) : bool := between 48 57 c || between 65 70 c || between 97 102 c.

Definition hex40 (s : list ascii) : option (list ascii * list ascii) :=
  if bool_decide (length (take 40 s) = 40%nat) && forallb isHexDigit (take 40 s) then Some (take 40 s, drop 40 s) else None.

Record RawMatch : Type := mkRawMatch {
  m_OldMode : list ascii;
  m_NewMode : list ascii;
  m_FromID : list ascii;
  m_ToID : list ascii;
  m_Status : ascii;
  m_Path1 : list ascii;
  m_Path2 : list ascii;
}.

(** [rawLineRegexp] on one line: the paths are what stands before and after the first
    tab behind the status. *)
Definition matchRawLine (s : list ascii) : option RawMatch :=
  s ← literal (text ":") s;
  '(old, s) ← digits1 s;
  s ← literal [blankChar] s;
  '(new, s) ← digits1 s;
  s ← literal [blankChar] s;
  '(from, s) ← hex40 s;
  s ← literal [blankChar] s;
  '(to, s) ← hex40 s;
  s ← literal [blankChar] s;
  match s with
  | status :: s =>
    if decide (status ∈ text "ADTUXMRC") then
      s ← literal [tab] (span isDigit s).2;
      let (path1, path2) := Cut tab s in
      Some (mkRawMatch old new from to status path1 (default [] path2))
    else None
  | [] => None
  end.

(** An anchored expression is tried at the start of every line. *)
Fixpoint firstMatch {A} (f : list ascii -> option A) (lines : list (list ascii)) : option A :=
  match lines with
  | [] => None
  | l :: lines => match f l with Some m => Some m | None => firstMatch f lines end
  end.

Definition i32 (z : Z) : Z := (z + 2 ^ 31) mod 2 ^ 32 - 2 ^ 31.

Definition parseRawLine (line : list ascii) (d : Diff) : out DiffError Diff :=
  match firstMatch matchRawLine (Split lf line) with
  | None => Err ErrRawMismatch
  | Some m =>
    match parseOctal (2 ^ 63) 0 (m_OldMode m) with
    | None => Err ErrOldMode
    | Some old =>
      match parseOctal (2 ^ 63) 0 (m_NewMode m) with
      | None => Err ErrNewMode
      | Some new =>
        let from := unescape (UnquoteBytes (m_Path1 m)) in
        let to := if decide (m_Status m = "C"%char \/ m_Status m = "R"%char)
                  then unescape (UnquoteBytes (m_Path2 m)) else from in
        Ok (mkDiff (Binary d) (OverflowMarker d) (Collapsed d) (TooLarge d) (m_Status m) (lineCount d)
              (m_FromID m) (m_ToID m) (i32 old) (i32 new) from to (Patch d))
      end
    end
  end.

(** The verb [%o] for an [int32]. *)
Fixpoint octalDigits (fuel : nat) (n : Z) (acc : list ascii) : list ascii :=
  match fuel with
  | O => acc
  | S fuel =>
    let acc := ascii_of_nat (48 + Z.to_nat (n mod 8)) :: acc in
    if decide (n < 8) then acc else octalDigits fuel (n / 8) acc
  end.

Definition fmtOctal (n : Z) : list ascii :=
  if decide (n < 0) then "-"%char :: octalDigits 11 (- n) [] else octalDigits 11 n [].

Definition typeChangeLine (d : Diff) : list ascii :=
  text ":" ++ fmtOctal 0 ++ blankChar :: fmtOctal (NewMode d) ++ blankChar :: ZeroOID ++ blankChar :: ToID d ++
  text " A" ++ tab :: FromPath d ++ [lf].

(** *** Steps of the parser *)

Definition setDiff (p : Parser) (d : Diff) : Parser :=
  mkParser (limits p) (patchReader p) (readFails p) (rawLines p) d (nextPatchFromPath p) (filesProcessed p)
    (linesProcessed p) (bytesProcessed p) (finished p) (err p).
Definition setErr (p : Parser) (e : DiffError) : Parser :=
  mkParser (limits p) (patchReader p) (readFails p) (rawLines p) (currentDiff p) (nextPatchFromPath p)
    (filesProcessed p) (linesProcessed p) (bytesProcessed p) (finished p) (Some e).
Definition setReader (p : Parser) (s : list ascii) : Parser :=
  mkParser (limits p) s (readFails p) (rawLines p) (currentDiff p) (nextPatchFromPath p) (filesProcessed p)
    (linesProcessed p) (bytesProcessed p) (finished p) (err p).
Definition setNextPath (p : Parser) (path : list ascii) : Parser :=
  mkParser (limits p) (patchReader p) (readFails p) (rawLines p) (currentDiff p) path (filesProcessed p)
    (linesProcessed p) (bytesProcessed p) (finished p) (err p).
Definition setRaw (p : Parser) (raw : list (list ascii)) : Parser :=
  mkParser (limits p) (patchReader p) (readFails p) raw (currentDiff p) (nextPatchFromPath p) (filesProcessed p)
    (linesProcessed p) (bytesProcessed p) (finished p) (err p).
Definition addStats (p : Parser) (files lines bytes : Z) : Parser :=
  mkParser (limits p) (patchReader p) (readFails p) (rawLines p) (currentDiff p) (nextPatchFromPath p)
    (filesProcessed p + files) (linesProcessed p + lines) (bytesProcessed p + bytes) (finished p) (err p).
Definition setFinished (p : Parser) : Parser :=
  mkParser (limits p) (patchReader p) (readFails p) (rawLines p) (currentDiff p) (nextPatchFromPath p)
    (filesProcessed p) (linesProcessed p) (bytesProcessed p) true (err p).

Definition withPatch (d : Diff) (patch : list ascii) (lines : Z) : Diff :=
  mkDiff (Binary d) (OverflowMarker d) (Collapsed d) (TooLarge d) (Status d) lines (FromID d) (ToID d) (OldMode d)
    (NewMode d) (FromPath d) (ToPath d) patch.
Definition withFlags (d : Diff) (binary overflow collapsed tooLarge : bool) : Diff :=
  mkDiff binary overflow collapsed tooLarge (Status d) (lineCount d) (FromID d) (ToID d) (OldMode d) (NewMode d)
    (FromPath d) (ToPath d) (Patch d).
Definition asDeletion (d : Diff) : Diff :=
  mkDiff (Binary d) (OverflowMarker d) (Collapsed d) (TooLarge d) (Status d) (lineCount d) (FromID d) ZeroOID
    (OldMode d) 0 (FromPath d) (ToPath d) (Patch d).

Definition prunePatch (p : Parser) : Parser :=
  let d := currentDiff p in
  setDiff (addStats p 0 (- lineCount d) (- Z.of_nat (length (Patch d)))) (withPatch d [] (lineCount d)).

Definition isOverSafeLimits (p : Parser) : bool :=
  bool_decide (filesProcessed p > SafeMaxFiles (limits p)) || bool_decide (linesProcessed p > SafeMaxLines (limits p)) ||
  bool_decide (bytesProcessed p > SafeMaxBytes (limits p)).

Definition isParsingChunkLines (p : Parser) : bool := bool_decide (Patch (currentDiff p) ≠ []).

Definition handleTypeChangeDiff (p : Parser) : Parser :=
  let d := currentDiff p in setRaw (setDiff p (asDeletion d)) (typeChangeLine d :: rawLines p).

(** The result tells whether there was no error. *)
Definition initializeCurrentDiff (p : Parser) : bool * Parser :=
  let (line, raw) := match rawLines p with [] => ([], []) | l :: raw => (l, raw) end in
  let p := setRaw (setDiff p Diff_Reset) raw in
  match parseRawLine line (currentDiff p) with
  | Ok d =>
    let p := setDiff p d in
    let p := if decide (Status d = "T"%char) then handleTypeChangeDiff p else p in
    (true, addStats p 1 0 0)
  | Err e => (false, setErr p e)
  | Panic => (false, p)
  end.

(** [diffHeaderRegexp] on one line, as far as its first group. *)
Definition optQuote (s : list ascii) : list ascii :=
  match s with c :: s' => if decide (c = quote) then s' else s | [] => s end.

Definition headerEnd (s : list ascii) : bool :=
  match optQuote s with
  | c :: s => bool_decide (c = blankChar) && HasPrefix (optQuote s) (text "b/")
  | [] => false
  end.

Fixpoint shortest (stop : list ascii -> bool) (s : list ascii) : option (list ascii) :=
  if stop s then Some []
  else match s with
  | [] => None
  | c :: s => (fun r => c :: r) <$> shortest stop s
  end.

Definition matchHeader (s : list ascii) : option (list ascii) :=
  s ← literal (text "diff --git ") s;
  s ← literal (text "a/") (optQuote s);
  shortest headerEnd s.

Definition findNextPatchFromPath (p : Parser) : bool * Parser :=
  if decide (nextPatchFromPath p ≠ []) then (true, p)
  else
    let '(line, rest, complete) := readLine (patchReader p) in
    let p := setReader p rest in
    if complete then
      match firstMatch matchHeader (Split lf line) with
      | Some path => (true, setNextPath p (unescape path))
      | None => (false, setErr p ErrHeaderMismatch)
      end
    else if readFails p then (false, setErr p ErrReader)
    else (true, p).

Definition consumeChunkLine (p : Parser) (updateLineStats : bool) : Parser :=
  let '(line, rest, complete) := readLine (patchReader p) in
  let p := setReader p rest in
  if negb complete && readFails p then setErr p ErrReader
  else
    let d := currentDiff p in
    if updateLineStats then
      addStats (setDiff p (withPatch d (Patch d ++ line) (lineCount d + 1))) 0 1 (Z.of_nat (length line))
    else setDiff p (withPatch d (Patch d ++ line) (lineCount d)).

(** [consumeLine] is only called without updating the statistics. *)
Definition consumeLine (p : Parser) : Parser :=
  let '(_, rest, complete) := readLine (patchReader p) in
  let p := setReader p rest in
  if negb complete && readFails p then setErr p ErrReader else p.

(** One line of a patch; [None] at the header of the next one. *)
Definition patchLine (p : Parser) : option Parser :=
  let line := take 10 (patchReader p) in
  if HasPrefix line (text "diff --git") then None
  else if HasPrefix line (text "@@") then Some (consumeChunkLine p false)
  else if ByteSliceHasAnyPrefix line ["---"; "+++"] && negb (isParsingChunkLines p) then Some (consumeLine p)
  else if HasPrefix line ("~"%char :: [lf]) then Some (consumeChunkLine p true)
  else if HasPrefix line (text "Binary") then
    let d := currentDiff p in
    Some (consumeChunkLine (setDiff p (withFlags d true (OverflowMarker d) (Collapsed d) (TooLarge d))) true)
  else if ByteSliceHasAnyPrefix line ["-"; "+"; " "; "\"] then Some (consumeChunkLine p true)
  else Some (consumeLine p).

(** The loop over the lines of a patch. It ends at the header of the next patch, at
    the end of the stream, or at an error; [None] is a lack of fuel. *)
Fixpoint patchLoop (fuel : nat) (done : bool) (p : Parser) : option (bool * Parser) :=
  match fuel with
  | O => None
  | S fuel =>
    if done && bool_decide (patchReader p = []) then Some (true, p)
    else
      let short := bool_decide (length (patchReader p) < 10)%nat in
      if short && readFails p then Some (false, setErr p ErrReader)
      else
        let done := done || short in
        match patchLine p with
        | None => Some (true, p)
        | Some p => match err p with Some _ => Some (false, p) | None => patchLoop fuel done p end
        end
  end.

Definition isOverLimits (p : Parser) : bool :=
  let maxFilesExceeded := bool_decide (filesProcessed p > MaxFiles (limits p)) in
  let maxBytesOrLinesExceeded :=
    bool_decide (bytesProcessed p >= MaxBytes (limits p)) || bool_decide (linesProcessed p >= MaxLines (limits p)) in
  maxFilesExceeded || maxBytesOrLinesExceeded.

(** What is done with a patch once it is read. *)
Definition applyLimits (p : Parser) : Parser :=
  let p :=
    if CollapseDiffs (limits p) && isOverSafeLimits p && bool_decide (lineCount (currentDiff p) > 0) then
      let p := prunePatch p in
      let d := currentDiff p in
      setDiff p (withFlags d (Binary d) (OverflowMarker d) true (TooLarge d))
    else p in
  if EnforceLimits (limits p) then
    let p :=
      if decide (Z.of_nat (length (Patch (currentDiff p))) >= MaxPatchBytes (limits p)) then
        let p := prunePatch p in
        let d := currentDiff p in
        setDiff p (withFlags d (Binary d) (OverflowMarker d) (Collapsed d) true)
      else p in
    if isOverLimits p then
      setDiff (setFinished p) (withFlags Diff_Reset false true false false)
    else p
  else p.

(** Whether a diff was parsed. *)
Definition Parse (p : Parser) : option (bool * Parser) :=
  if finished p || bool_decide (rawLines p = []) then Some (false, setReader p [])
  else
    let (ok, p) := initializeCurrentDiff p in
    if negb ok then Some (false, p)
    else
      let (ok, p) := findNextPatchFromPath p in
      if negb ok then Some (false, p)
      else if decide (nextPatchFromPath p ≠ FromPath (currentDiff p)) then Some (true, p)
      else
        let p := setNextPath p [] in
        '(ok, p) ← patchLoop (S (S (length (patchReader p)))) false p;
        if ok : bool then Some (true, applyLimits p) else Some (false, p).

(** ** Properties *)

(** *** Every call returns *)

Lemma readLine_length s : (length (readLine s).1.2 <= length s)%nat /\ (s ≠ [] -> (length (readLine s).1.2 < length s)%nat).
Proof.
  induction s as [|c s [IH1 IH2]]; cbn [readLine]; [split; [simpl; lia|done]|].
  case_decide; [split; simpl; lia|]. destruct (readLine s) as [[line rest] complete]. simpl in *. lia.
Qed.

(** What consuming lines of a patch changes. *)
Record grows (p p' : Parser) : Prop := {
  g_limits : limits p' = limits p;
  g_fails : readFails p' = readFails p;
  g_raw : rawLines p' = rawLines p;
  g_files : filesProcessed p' = filesProcessed p;
  g_finished : finished p' = finished p;
  g_path : FromPath (currentDiff p') = FromPath (currentDiff p);
  g_flags : OverflowMarker (currentDiff p') = OverflowMarker (currentDiff p) /\
            Collapsed (currentDiff p') = Collapsed (currentDiff p) /\ TooLarge (currentDiff p') = TooLarge (currentDiff p);
  g_lines : linesProcessed p' - lineCount (currentDiff p') = linesProcessed p - lineCount (currentDiff p);
  g_count : lineCount (currentDiff p) <= lineCount (currentDiff p');
  g_bytes : 0 <= bytesProcessed p' - bytesProcessed p
              <= Z.of_nat (length (Patch (currentDiff p'))) - Z.of_nat (length (Patch (currentDiff p)));
}.

Lemma grows_refl p : grows p p.
Proof. constructor; auto; lia. Qed.

Lemma grows_trans p q r : grows p q -> grows q r -> grows p r.
Proof. intros [] []. constructor; try congruence; try lia. naive_solver congruence. Qed.

Lemma consumeChunkLine_step p stats :
  patchReader (consumeChunkLine p stats) = (readLine (patchReader p)).1.2 /\ grows p (consumeChunkLine p stats).
Proof.
  unfold consumeChunkLine. destruct (readLine (patchReader p)) as [[line rest] complete]. cbn [fst snd setReader readFails].
  destruct (negb complete && readFails p); [by split; [|constructor; cbn; auto; lia]|].
  destruct stats; (split; [done|constructor; cbn; auto; rewrite ?length_app; lia]).
Qed.

Lemma consumeLine_step p :
  patchReader (consumeLine p) = (readLine (patchReader p)).1.2 /\ grows p (consumeLine p).
Proof.
  unfold consumeLine. destruct (readLine (patchReader p)) as [[line rest] complete]. cbn [fst snd setReader readFails].
  destruct (negb complete && readFails p); by split; [|constructor; cbn; auto; lia].
Qed.

Lemma patchLine_step p p' :
  patchLine p = Some p' -> patchReader p' = (readLine (patchReader p)).1.2 /\ grows p p'.
Proof.
  unfold patchLine. intros Hp. repeat (case_match; try done); simplify_eq;
    try apply consumeChunkLine_step; try apply consumeLine_step.
  match goal with |- context [consumeChunkLine ?q true] => destruct (consumeChunkLine_step q true) as [Hr Hg] end.
  split; [exact Hr|]. eapply grows_trans; [|exact Hg]. constructor; cbn; auto; lia.
Qed.

Lemma patchLoop_total fuel (fin : bool) p :
  (length (patchReader p) + (if fin then 0 else 1) < fuel)%nat ->
  exists ok p', patchLoop fuel fin p = Some (ok, p') /\ grows p p'.
Proof.
  revert fin p. induction fuel as [|fuel IH]; intros fin p Hf; [lia|]. cbn [patchLoop].
  destruct (fin && bool_decide (patchReader p = [])) eqn:Hdone; [eauto using grows_refl|].
  destruct (bool_decide _ && readFails p); [eexists _, _; split; [reflexivity|constructor; cbn; auto; lia]|].
  destruct (patchLine p) as [q|] eqn:Hq; [|eauto using grows_refl]. apply patchLine_step in Hq as [Hr Hg].
  destruct (err q); [eauto|]. set (short := bool_decide (length (patchReader p) < 10)%nat).
  destruct (IH (fin || short) q) as (ok & p' & Hloop & Hg').
  - rewrite Hr. destruct (readLine_length (patchReader p)) as [Hle Hlt]. destruct fin; cbn [orb].
    + rewrite andb_true_l, bool_decide_eq_false in Hdone. specialize (Hlt Hdone). lia.
    + destruct (decide (patchReader p = [])) as [He|Hne].
      * assert (Hs : short = true) by (unfold short; rewrite He; by vm_compute). rewrite Hs. rewrite He in *. simpl in *. lia.
      * specialize (Hlt Hne). destruct short; lia.
  - exists ok, p'. split; [done|by eapply grows_trans].
Qed.

(** *** A parsed diff *)

(** A diff without anything of a patch. *)
Definition bare (d : Diff) : Prop :=
  Patch d = [] /\ lineCount d = 0 /\ OverflowMarker d = false /\ Collapsed d = false /\ TooLarge d = false.

(** The parser before the lines of a patch are read. *)
Record started (p q : Parser) : Prop := {
  st_limits : limits q = limits p;
  st_files : filesProcessed q = filesProcessed p + 1;
  st_lines : linesProcessed q = linesProcessed p;
  st_bytes : bytesProcessed q = bytesProcessed p;
  st_finished : finished q = finished p;
  st_bare : bare (currentDiff q);
}.

Lemma parseRawLine_bare line d d' : parseRawLine line d = Ok d' -> bare d -> bare d'.
Proof. unfold parseRawLine. intros Hd. repeat (case_match; try done); by simplify_eq. Qed.

Lemma initializeCurrentDiff_ok p q : initializeCurrentDiff p = (true, q) -> started p q.
Proof.
  unfold initializeCurrentDiff. destruct (match rawLines p with [] => _ | _ => _ end) as [line raw].
  destruct (parseRawLine line _) as [d| |] eqn:Hd; intros Hq; simplify_eq.
  apply parseRawLine_bare in Hd; [|done]. case_decide; constructor; cbn; auto; lia.
Qed.

Lemma findNextPatchFromPath_ok p q r : started p q -> findNextPatchFromPath q = (true, r) -> started p r.
Proof.
  intros []. unfold findNextPatchFromPath. case_decide; [by intros [= <-]; constructor|].
  destruct (readLine (patchReader q)) as [[line rest] complete]. destruct complete; cbn [setReader readFails].
  - destruct (firstMatch _ _); intros [= <-]. by constructor.
  - destruct (readFails q); intros [= <-]. by constructor.
Qed.

(** What a call does: it parses a diff only if the parser had not finished; the diff
    then has no patch, or the lines read from the stream, with the limits applied to
    it. *)
Lemma Parse_cases p :
  exists ok p', Parse p = Some (ok, p') /\
    (ok = true -> finished p = false /\
      ((started p p' /\ nextPatchFromPath p' ≠ FromPath (currentDiff p')) \/
       exists q r, started p q /\ nextPatchFromPath q = FromPath (currentDiff q) /\ grows q r /\ p' = applyLimits r)).
Proof.
  unfold Parse. destruct (finished p) eqn:Hf; cbn [orb]; [by eexists false, _|].
  destruct (bool_decide (rawLines p = [])); [by eexists false, _|].
  destruct (initializeCurrentDiff p) as [[] q] eqn:Hq; cbn [negb]; [|by eexists false, _].
  apply initializeCurrentDiff_ok in Hq.
  destruct (findNextPatchFromPath q) as [[] r] eqn:Hr; cbn [negb]; [|by eexists false, _].
  apply (findNextPatchFromPath_ok p) in Hr; [|done].
  case_decide as Hpath; [exists true, r; auto|].
  destruct (patchLoop_total (S (S (length (patchReader (setNextPath r []))))) false (setNextPath r [])) as (ok & s & -> & Hg);
    [simpl; lia|]. cbn [mbind option_bind]. destruct ok; [|by eexists false, _].
  eexists true, _. split; [reflexivity|]. intros _. split; [done|]. right. exists r, s. split_and!; try done; try lia.
  eapply grows_trans; [|exact Hg]. constructor; cbn; auto; lia.
Qed.

(** *** Limits *)

Lemma isOverLimits_false p :
  isOverLimits p = false ->
  filesProcessed p <= MaxFiles (limits p) /\ bytesProcessed p < MaxBytes (limits p) /\ linesProcessed p < MaxLines (limits p).
Proof.
  unfold isOverLimits. rewrite !orb_false_iff, !bool_decide_eq_false. lia.
Qed.

Lemma applyLimits_cases p :
  (EnforceLimits (limits p) = true -> 0 < MaxPatchBytes (limits p)) -> bare (withPatch (currentDiff p) [] 0) -> 0 <= lineCount (currentDiff p) ->
  let p' := applyLimits p in
  let d := currentDiff p' in
  limits p' = limits p /\ filesProcessed p' = filesProcessed p /\
  (OverflowMarker d = false ->
     finished p' = finished p /\
     linesProcessed p' = linesProcessed p - (if Collapsed d || TooLarge d then lineCount (currentDiff p) else 0) /\
     lineCount d = lineCount (currentDiff p) /\
     (Collapsed d || TooLarge d = true -> Patch d = []) /\
     (CollapseDiffs (limits p) = true -> isOverSafeLimits p = true -> Collapsed d = false -> lineCount d = 0) /\
     (EnforceLimits (limits p) = true ->
        Z.of_nat (length (Patch d)) < MaxPatchBytes (limits p) /\ filesProcessed p' <= MaxFiles (limits p) /\
        bytesProcessed p' < MaxBytes (limits p) /\ linesProcessed p' < MaxLines (limits p))) /\
  (OverflowMarker d = true -> finished p' = true /\ Patch d = [] /\ EnforceLimits (limits p) = true).
Proof.
  intros Hmax (_ & _ & Ho & Hc & Ht) Hcount. cbn in Ho, Hc, Ht. cbn zeta. unfold applyLimits.
  destruct (CollapseDiffs (limits p) && isOverSafeLimits p && bool_decide (lineCount (currentDiff p) > 0)) eqn:Hcol.
  - cbn [limits setDiff prunePatch addStats]. destruct (EnforceLimits (limits p)) eqn:He.
    + specialize (Hmax eq_refl). rewrite decide_False by (cbn; lia). destruct (isOverLimits _) eqn:Hover.
      * cbn. split_and!; [done|lia|discriminate|done].
      * apply isOverLimits_false in Hover as (? & ? & ?). cbn in *. rewrite ?Ho, ?Hc, ?Ht in *. split_and!; try done; try lia; intros _; split_and!; try done; try lia; auto.
    + cbn. rewrite Ho. split_and!; try done; try lia; intros _; split_and!; try done; try lia; auto.
  - assert (Hsafe : CollapseDiffs (limits p) = true -> isOverSafeLimits p = true -> lineCount (currentDiff p) = 0).
    { intros H1 H2. rewrite H1, H2 in Hcol. cbn [andb] in Hcol. rewrite bool_decide_eq_false in Hcol. lia. }
    destruct (EnforceLimits (limits p)) eqn:He.
    + destruct (decide (Z.of_nat (length (Patch (currentDiff p))) >= MaxPatchBytes (limits p))) as [Hbig|Hbig];
        destruct (isOverLimits _) eqn:Hover.
      * cbn. split_and!; [done|lia|discriminate|done].
      * apply isOverLimits_false in Hover as (? & ? & ?). cbn in *. rewrite ?Ho, ?Hc, ?Ht in *. cbn. split_and!; try done; try lia; intros _; split_and!; try done; try lia; auto.
      * cbn. split_and!; [done|lia|discriminate|done].
      * apply isOverLimits_false in Hover as (? & ? & ?). cbn in *. rewrite ?Ho, ?Hc, ?Ht in *. cbn. split_and!; try done; try lia; intros _; split_and!; try done; try lia; auto.
    + rewrite Hc, Ho, Ht. cbn. split_and!; try done; try lia; intros _; split_and!; try done; try lia; auto.
Qed.

(** A run of the parser: the diffs it gave, in order. *)
Inductive parses (p : Parser) : list Diff -> Parser -> Prop :=
| parses_none : parses p [] p
| parses_next ds q r : parses p ds q -> Parse q = Some (true, r) -> parses p (ds ++ [currentDiff r]) r.

(** The lines of a patch that was kept. *)
Definition keptLines (d : Diff) : Z := if Collapsed d || TooLarge d then 0 else lineCount d.
Definition totalLines (ds : list Diff) : Z := foldr (fun d n => keptLines d + n) 0 ds.

Lemma totalLines_snoc ds d : totalLines (ds ++ [d]) = totalLines ds + keptLines d.
Proof. unfold totalLines. induction ds as [|x ds IH]; simpl in *; [lia|]. rewrite IH. lia. Qed.

Lemma started_bare p q r : started p q -> grows q r -> bare (withPatch (currentDiff r) [] 0) /\ 0 <= lineCount (currentDiff r).
Proof.
  intros [_ _ _ _ _ (Hp & Hl & Ho & Hc & Ht)] [_ _ _ _ _ _ (Fo & Fc & Ft) _ Hcount _]. unfold bare. cbn.
  split_and!; try congruence; lia.
Qed.

Lemma initializeCurrentDiff_err p q : initializeCurrentDiff p = (false, q) -> is_Some (err q).
Proof.
  unfold initializeCurrentDiff. destruct (match rawLines p with [] => _ | _ => _ end) as [line raw].
  destruct (parseRawLine line _) as [d|e|] eqn:Hd; intros [= <-]; [by eexists|].
  unfold parseRawLine in Hd. by repeat (case_match; try done).
Qed.

Lemma findNextPatchFromPath_err p q : findNextPatchFromPath p = (false, q) -> is_Some (err q).
Proof.
  unfold findNextPatchFromPath. case_decide; [done|]. destruct (readLine (patchReader p)) as [[line rest] complete].
  destruct complete; cbn [setReader readFails]; [destruct (firstMatch _ _)|destruct (readFails p)]; intros [= <-]; by eexists.
Qed.

Lemma patchLoop_err fuel fin p q : patchLoop fuel fin p = Some (false, q) -> is_Some (err q).
Proof.
  revert fin p. induction fuel as [|fuel IH]; intros fin p; cbn [patchLoop]; [done|].
  destruct (fin && _); [done|]. destruct (bool_decide _ && readFails p); [intros [= <-]; by eexists|].
  destruct (patchLine p) as [r|]; [|done]. destruct (err r) eqn:He; [intros [= <-]; rewrite He; by eexists|apply IH].
Qed.

(** C32. Every call of the parser returns, whatever the stream holds; it fails to give a
    diff only if the parser has finished, no raw line is left, or an error is kept
    for the caller. *)
Theorem Parse_total p :
  exists ok p', Parse p = Some (ok, p') /\
    (ok = false -> finished p = true \/ rawLines p = [] \/ is_Some (err p')).
Proof.
  destruct (Parse_cases p) as (ok & p' & Hp & _). exists ok, p'. split; [done|]. intros ->. revert Hp. unfold Parse.
  destruct (finished p); [by left|]. cbn [orb]. case_bool_decide; [by right; left|]. intros Hp. right. right.
  destruct (initializeCurrentDiff p) as [[] q] eqn:Hq; cbn [negb] in Hp.
  - destruct (findNextPatchFromPath q) as [[] r] eqn:Hr; cbn [negb] in Hp.
    + case_decide; [done|]. destruct (patchLoop _ _ _) as [[[] s]|] eqn:Hl; cbn [mbind option_bind] in Hp; try done.
      simplify_eq. by eapply patchLoop_err.
    + simplify_eq. by eapply findNextPatchFromPath_err.
  - simplify_eq. by eapply initializeCurrentDiff_err.
Qed.

(** *** Runs *)

(** What holds after a run. *)
Record runInv (l : Limits) (ds : list Diff) (p : Parser) : Prop := {
  ri_limits : limits p = l;
  ri_files : filesProcessed p = Z.of_nat (length ds);
  ri_open : finished p = false -> Forall (fun d => OverflowMarker d = false) ds /\ linesProcessed p = totalLines ds;
  ri_overflow : forall d, d ∈ ds -> OverflowMarker d = true -> EnforceLimits l = true /\ finished p = true /\
                  exists front, ds = front ++ [d] /\ Forall (fun d => OverflowMarker d = false) front;
  ri_patches : EnforceLimits l = true -> Forall (fun d => Z.of_nat (length (Patch d)) < MaxPatchBytes l) ds;
  ri_lines : EnforceLimits l = true -> totalLines ds <= Z.max 0 (MaxLines l - 1);
  ri_index : EnforceLimits l = true -> forall i d, ds !! i = Some d -> Patch d ≠ [] -> Z.of_nat i < MaxFiles l;
}.

Lemma runInv_start l src fails : runInv (enforceUpperBound l) [] (NewDiffParser src fails l).
Proof.
  unfold NewDiffParser. destruct (cacheRawLines _ _ _ _) as [[raw rest] failed].
  constructor; cbn; try done; try lia. by intros d ?%elem_of_nil.
Qed.

(** One more diff that is not the overflow. *)
Lemma runInv_next l ds p p' :
  runInv l ds p -> finished p = false -> limits p' = l -> filesProcessed p' = filesProcessed p + 1 ->
  OverflowMarker (currentDiff p') = false -> finished p' = false ->
  linesProcessed p' = linesProcessed p + keptLines (currentDiff p') ->
  (EnforceLimits l = true -> Z.of_nat (length (Patch (currentDiff p'))) < MaxPatchBytes l /\
     (keptLines (currentDiff p') = 0 \/ linesProcessed p' < MaxLines l) /\
     (Patch (currentDiff p') ≠ [] -> filesProcessed p' <= MaxFiles l)) ->
  runInv l (ds ++ [currentDiff p']) p'.
Proof.
  intros [_ Hfiles Hopen Hover Hpatch Hlines Hidx] Hf Hl' Hf' Ho Hfin Hlp Hen. destruct (Hopen Hf) as [Hnone Htot].
  constructor; try done.
  - rewrite length_app. simpl. lia.
  - intros _. split; [apply Forall_app; by repeat constructor|]. rewrite totalLines_snoc. lia.
  - intros d [Hd|Hd%list_elem_of_singleton]%elem_of_app Hov; [|congruence]. rewrite Forall_forall in Hnone.
    by rewrite (Hnone d Hd) in Hov.
  - intros He. apply Forall_app. split; [auto|]. constructor; [by apply Hen|constructor].
  - intros He. rewrite totalLines_snoc. destruct (Hen He) as (_ & [Hk|Hlt] & _); specialize (Hlines He); lia.
  - intros He i d Hi Hp. apply lookup_app_Some in Hi as [Hi|[Hi Hd]]; [by eapply Hidx|].
    destruct (i - length ds)%nat eqn:Hn; [|done]. simplify_eq/=. destruct (Hen He) as (_ & _ & Hmax). specialize (Hmax Hp). lia.
Qed.

(** The overflow marker, after which nothing follows. *)
Lemma runInv_overflow l ds p p' :
  runInv l ds p -> finished p = false -> limits p' = l -> filesProcessed p' = filesProcessed p + 1 ->
  OverflowMarker (currentDiff p') = true -> finished p' = true -> EnforceLimits l = true ->
  keptLines (currentDiff p') = 0 -> Patch (currentDiff p') = [] -> 0 < MaxPatchBytes l ->
  runInv l (ds ++ [currentDiff p']) p'.
Proof.
  intros [_ Hfiles Hopen Hover Hpatch Hlines Hidx] Hf Hl' Hf' Ho Hfin He Hk Hp Hm. destruct (Hopen Hf) as [Hnone Htot].
  constructor; try done.
  - rewrite length_app. simpl. lia.
  - congruence.
  - intros d [Hd|Hd%list_elem_of_singleton]%elem_of_app Hov.
    + rewrite Forall_forall in Hnone. by rewrite (Hnone d Hd) in Hov.
    + subst d. split_and!; try done. by exists ds.
  - intros _. apply Forall_app. split; [auto|]. constructor; [rewrite Hp; simpl; lia|constructor].
  - intros _. rewrite totalLines_snoc, Hk. specialize (Hlines He). lia.
  - intros _ i d Hi Hne. apply lookup_app_Some in Hi as [Hi|[Hi Hd]]; [by eapply Hidx|].
    destruct (i - length ds)%nat eqn:Hn; [|done]. by simplify_eq/=.
Qed.

Lemma applyLimits_overflow p :
  OverflowMarker (currentDiff p) = false -> OverflowMarker (currentDiff (applyLimits p)) = true ->
  keptLines (currentDiff (applyLimits p)) = 0.
Proof.
  intros Ho. unfold applyLimits. destruct (CollapseDiffs (limits p) && _ && _); cbn [limits setDiff prunePatch addStats];
    (destruct (EnforceLimits (limits p)); [|cbn; congruence]); (destruct (decide (_ >= _)));
    (destruct (isOverLimits _); [done|cbn; congruence]).
Qed.

Lemma runInv_step l ds p p' :
  (EnforceLimits l = true -> 0 < MaxPatchBytes l) -> runInv l ds p -> Parse p = Some (true, p') -> runInv l (ds ++ [currentDiff p']) p'.
Proof.
  intros Hm Hinv Hp. destruct (Parse_cases p) as (ok & p'' & Hp' & Hcases). simplify_eq.
  destruct (Hcases eq_refl) as [Hf [[[Hl Hfiles Hlines Hbytes Hfin Hb] _]|(q & r & Hst & _ & Hg & ->)]].
  - destruct Hb as (Hpa & Hlc & Ho & Hc & Ht). pose proof (ri_limits _ _ _ Hinv) as Hlim.
    apply (runInv_next l ds p); try done; try congruence.
    + unfold keptLines. rewrite Hlc. case_match; lia.
    + intros He. specialize (Hm He). rewrite Hpa. split_and!; [simpl; lia| |done]. left. unfold keptLines. rewrite Hlc. by case_match.
  - pose proof (started_bare p q r Hst Hg) as [Hbare Hcount]. pose proof (ri_limits _ _ _ Hinv) as Hlim.
    destruct Hst as [Sl Sf Sli Sb Sfin (_ & Slc & _)]. destruct Hg as [Gl _ _ Gf Gfin _ _ Gli _ _].
    assert (Hlr : limits r = l) by congruence.
    destruct (applyLimits_cases r) as (Al & Af & Anot & Aover); [by rewrite Hlr|done|done|].
    destruct (OverflowMarker (currentDiff (applyLimits r))) eqn:Ho.
    + destruct (Aover eq_refl) as (Hfin' & Hpatch & He). apply (runInv_overflow l ds p); try done; try congruence; try lia; [|rewrite Hlr in He; by apply Hm].
      apply applyLimits_overflow; [apply Hbare|done].
    + destruct (Anot eq_refl) as (Hfin' & Hlines' & Hlc' & _ & _ & Hen).
      apply (runInv_next l ds p); try done; try congruence; try lia.
      * unfold keptLines. rewrite Hlc'. case_match; lia.
      * intros He. rewrite Hlr in Hen. destruct (Hen He) as (? & ? & ? & ?). split_and!; auto.
Qed.

(** A limit of zero for one patch, when limits are enforced: every patch is cut. *)
Record cutInv (l : Limits) (ds : list Diff) (p : Parser) : Prop := {
  ci_limits : limits p = l;
  ci_cut : Forall (fun d => Patch d = [] /\ keptLines d = 0) ds;
  ci_open : finished p = false -> Forall (fun d => OverflowMarker d = false) ds;
  ci_overflow : forall d, d ∈ ds -> OverflowMarker d = true ->
                  finished p = true /\ exists front, ds = front ++ [d] /\ Forall (fun d => OverflowMarker d = false) front;
}.

Lemma cutInv_next l ds p p' :
  cutInv l ds p -> finished p = false -> limits p' = l -> Patch (currentDiff p') = [] -> keptLines (currentDiff p') = 0 ->
  finished p' = OverflowMarker (currentDiff p') -> cutInv l (ds ++ [currentDiff p']) p'.
Proof.
  intros [_ Hcut Hopen _] Hf Hl Hp Hk Hfin. specialize (Hopen Hf). constructor; [done| | |].
  - apply Forall_app. by repeat constructor.
  - intros Hf'. apply Forall_app. split; [done|]. repeat constructor. congruence.
  - intros d [Hd|Hd%list_elem_of_singleton]%elem_of_app Ho; [rewrite Forall_forall in Hopen; by rewrite (Hopen d Hd) in Ho|].
    subst d. split; [congruence|]. by exists ds.
Qed.

Lemma applyLimits_cut p :
  EnforceLimits (limits p) = true -> MaxPatchBytes (limits p) <= 0 -> OverflowMarker (currentDiff p) = false -> finished p = false ->
  let p' := applyLimits p in
  limits p' = limits p /\ Patch (currentDiff p') = [] /\ keptLines (currentDiff p') = 0 /\ finished p' = OverflowMarker (currentDiff p').
Proof.
  intros He Hm Ho Hf. cbn zeta. unfold applyLimits.
  destruct (CollapseDiffs (limits p) && _ && _); cbn [limits setDiff prunePatch addStats]; rewrite He;
    rewrite decide_True by lia; destruct (isOverLimits _); cbn; unfold keptLines; cbn; rewrite ?Ho, ?Hf, ?orb_true_r; done.
Qed.

Lemma cutInv_step l ds p p' :
  EnforceLimits l = true -> MaxPatchBytes l <= 0 -> cutInv l ds p -> Parse p = Some (true, p') -> cutInv l (ds ++ [currentDiff p']) p'.
Proof.
  intros He Hm Hinv Hp. pose proof (ci_limits _ _ _ Hinv) as Hlim. destruct (Parse_cases p) as (ok & p'' & Hp' & Hcases). simplify_eq.
  destruct (Hcases eq_refl) as [Hf [[[Hl _ _ _ Hfin (Hpa & Hlc & Ho & _)] _]|(q & r & Hst & _ & Hg & ->)]].
  - apply (cutInv_next _ ds p); try done; [|congruence]. unfold keptLines. rewrite Hlc. by case_match.
  - pose proof (started_bare p q r Hst Hg) as [(_ & _ & Ho & _) _]. cbn in Ho. destruct Hst as [Sl _ _ _ Sfin _], Hg as [Gl _ _ _ Gfin _ _ _ _ _].
    assert (Hlr : limits r = limits p) by congruence.
    destruct (applyLimits_cut r) as (Al & Ap & Ak & Af); [congruence..|]. apply (cutInv_next _ ds p); try done. congruence.
Qed.


(** *** Quoted paths *)

(** How git quotes a byte of a path: control characters as C escapes them, quotes and
    backslashes behind a backslash, other bytes that are not printable in octal.
    The escapes [\a] and [\v], which git uses for the bytes 7 and 11, are left out. *)
Definition octalOf (c : ascii) : list ascii :=
  let n := nat_of_ascii c in
  [ascii_of_nat (48 + n / 64); ascii_of_nat (48 + n / 8 mod 8); ascii_of_nat (48 + n mod 8)].

Definition quoteByte (c : ascii) : list ascii :=
  if decide (c = quote \/ c = backslash) then [backslash; c]
  else if decide (c = ascii_of_nat 8) then [backslash; "b"%char]
  else if decide (c = tab) then [backslash; "t"%char]
  else if decide (c = lf) then [backslash; "n"%char]
  else if decide (c = ascii_of_nat 12) then [backslash; "f"%char]
  else if decide (c = ascii_of_nat 13) then [backslash; "r"%char]
  else if between 32 126 c then [c]
  else backslash :: octalOf c.

Definition quotePath (s : list ascii) : list ascii := concat (quoteByte <$> s).

(** The three shapes of a quoted byte. *)
Definition quoted (c : ascii) : bool :=
  match quoteByte c with
  | [x] => bool_decide (x = c /\ x ≠ backslash)
  | [x; a] => bool_decide (x = backslash /\ escapeLetter a = Some c) && negb (isDigit a)
  | [x; a; b; d] => bool_decide (x = backslash /\ octalByte [a; b; d] = Some c)
  | _ => false
  end.

Lemma quoted_all : forallb quoted (ascii_of_nat <$> seq 0 256) = true.
Proof. vm_compute. reflexivity. Qed.

Lemma quoted_any c : quoted c = true.
Proof.
  pose proof quoted_all as Hall. rewrite forallb_forall in Hall. apply Hall, list_elem_of_In, list_elem_of_fmap.
  exists (nat_of_ascii c). rewrite ascii_nat_embedding, elem_of_seq. pose proof (nat_ascii_bounded c). split; [done|lia].
Qed.

Lemma unescape_quoted c t : unescape (quoteByte c ++ t) = c :: unescape t.
Proof.
  pose proof (quoted_any c) as Hq. unfold quoted in Hq.
  destruct (quoteByte c) as [|x [|a [|b [|d [|e q]]]]]; try done; cbn [app].
  - apply bool_decide_eq_true in Hq as [-> Hne]. cbn [unescape]. by rewrite decide_False.
  - apply andb_true_iff in Hq as [[-> He]%bool_decide_eq_true Hd%negb_true_iff]. cbn [unescape].
    rewrite decide_True, He by done. destruct t as [|b [|d t]]; try done.
    assert (Ho : octalByte [a; b; d] = None) by (unfold octalByte, IsNumber; cbn [forallb]; by rewrite Hd).
    by rewrite Ho.
  - apply bool_decide_eq_true in Hq as [-> Ho]. cbn [unescape]. rewrite decide_True by done. by rewrite Ho.
Qed.

(** A path quoted with these escapes is read back as it was, whatever bytes it
    holds, and the quotes around it are removed: that is how git quotes every path
    without the bytes 7 and 11. *)
Theorem quoted_path_roundtrip s : unescape (UnquoteBytes (quote :: quotePath s ++ [quote])) = s.
Proof.
  assert (Hun : forall t, UnquoteBytes (quote :: t ++ [quote]) = t).
  { intros t. unfold UnquoteBytes. rewrite decide_True.
    - rewrite length_app. cbn [length]. replace (length t + 1 - 1)%nat with (length t) by lia. apply take_app_length.
    - split_and!; [done|by destruct t|]. change (quote :: t ++ [quote]) with ((quote :: t) ++ [quote]). apply last_snoc. }
  rewrite Hun. unfold quotePath. induction s as [|c s IH]; [done|]. cbn [fmap list_fmap concat].
  change (c :: s) with ([c] ++ s). rewrite unescape_quoted. cbn [app]. by rewrite IH.
Qed.

(** The two escapes of git that are not known are kept as they are. *)
Lemma unescape_bell_and_tab :
  unescape (text "\a") = text "\a" /\ unescape (text "\v") = text "\v".
Proof. split; vm_compute; reflexivity. Qed.

(** ** Instances *)

Definition oid (c : ascii) : list ascii := replicate 40 c.
Definition rawLine (modes status path : string) : list ascii :=
  text ":" ++ text modes ++ blankChar :: oid "a" ++ blankChar :: oid "b" ++ blankChar :: text status ++
  tab :: text path ++ [lf].
Definition lineOf (s : string) : list ascii := text s ++ [lf].

Definition ex_stream : list ascii :=
  rawLine "100644 100644" "M" "a.txt" ++ [lf] ++
  lineOf "diff --git a/a.txt b/a.txt" ++ lineOf "index aaaa..bbbb 100644" ++ lineOf "--- a/a.txt" ++ lineOf "+++ b/a.txt" ++
  lineOf "@@ -1 +1 @@" ++ lineOf "-old" ++ lineOf "+new".

Definition ex_limits (maxPatchBytes : Z) : Limits := mkLimits true false 10 10 1000 10 10 1000 maxPatchBytes.

(** The parser after one call. *)
Definition parseOnce (p : Parser) : option Parser :=
  match Parse p with Some (true, q) => Some q | _ => None end.


(** Pruning a patch takes its chunk headers off the bytes processed, which were never
    counted: the count can become negative. *)
Lemma pruned_bytes_negative :
  (fun p => (bytesProcessed p, TooLarge (currentDiff p))) <$> parseOnce (NewDiffParser ex_stream false (ex_limits 5)) =
    Some (-12, true).
Proof. vm_compute. reflexivity. Qed.

(** A file whose name holds a blank and [b/] is not recognised in the header of its
    patch: its patch is missing. *)
Lemma header_path_ambiguous :
  (fun p => (Patch (currentDiff p), nextPatchFromPath p)) <$>
    parseOnce (NewDiffParser (rawLine "100644 100644" "M" "x b/y" ++ [lf] ++ lineOf "diff --git a/x b/y b/x b/y" ++
      lineOf "--- a/x b/y" ++ lineOf "+++ b/x b/y" ++ lineOf "@@ -1 +1 @@" ++ lineOf "-old" ++ lineOf "+new")
      false (ex_limits 100)) = Some ([], text "x").
Proof. vm_compute. reflexivity. Qed.

(** The addition that stands for a type change loses what follows a tab in the name
    of the file. *)
Lemma type_change_path_truncated :
  (fun p => FromPath (currentDiff p)) <$>
    (p ← parseOnce (NewDiffParser (rawLine "100644 120000" "T" "x\ty" ++ [lf]) false (ex_limits 100)); parseOnce p) =
    Some (text "x") /\ unescape (text "x\ty") = text "x" ++ tab :: text "y".
Proof. split; vm_compute; reflexivity. Qed.

(** With a limit of zero for a patch and collapsed diffs, the lines of a patch are
    taken off the count twice. *)
Lemma pruned_lines_twice :
  (fun p => (linesProcessed p, Collapsed (currentDiff p), TooLarge (currentDiff p))) <$>
    parseOnce (NewDiffParser ex_stream false (mkLimits true true 10 10 1000 0 0 0 0)) = Some (-2, true, true).
Proof. vm_compute. reflexivity. Qed.
