(* ===== verification/Limiter.v ===== *)
(** Concurrency limiting of RPCs on a Gitaly node
    (src/internal/middleware/limithandler/concurrency_limiter.go and the gauges of
    metrics.go).

    A [*semaphoreReference] is an address of the limiter's heap: the map of
    semaphores and the calls share it, and a semaphore dropped from the map may
    still be referenced. A buffered channel of empty structs is the number of
    elements in it. [Limit] is a sequence of atomic actions, one per critical
    section, channel operation or gauge update; a call's program counter says
    which one is next, and any number of calls interleave. *)

From S2P Require Import Prelude.

Record semaphoreReference : Type := mkSem {
  tokens : Z;
  count : Z;
}.

Record ConcurrencyLimiter : Type := mkLimiter {
  semaphores : gmap string nat;
  heap : gmap nat semaphoreReference;
  next : nat;
  max : Z;
  queuedGauge : Z;
  inprogressGauge : Z;
}.

Definition NewLimiter (max : Z) : ConcurrencyLimiter := mkLimiter ∅ ∅ 0 max 0 0.

Definition with_heap (f : gmap nat semaphoreReference -> gmap nat semaphoreReference) (c : ConcurrencyLimiter) :=
  mkLimiter (semaphores c) (f (heap c)) (next c) (max c) (queuedGauge c) (inprogressGauge c).

Definition with_semaphores (f : gmap string nat -> gmap string nat) (c : ConcurrencyLimiter) :=
  mkLimiter (f (semaphores c)) (heap c) (next c) (max c) (queuedGauge c) (inprogressGauge c).

(** ** The monitor *)

Definition add_queued (d : Z) (c : ConcurrencyLimiter) :=
  mkLimiter (semaphores c) (heap c) (next c) (max c) (queuedGauge c + d) (inprogressGauge c).

Definition add_inprogress (d : Z) (c : ConcurrencyLimiter) :=
  mkLimiter (semaphores c) (heap c) (next c) (max c) (queuedGauge c) (inprogressGauge c + d).

Definition Queued := add_queued 1.
Definition Dequeued := add_queued (-1).
Definition Enter := add_inprogress 1.
Definition Exit := add_inprogress (-1).

(** ** Semaphores *)

(** [None]: the operation blocks. *)
Definition acquire (ref : nat) (c : ConcurrencyLimiter) : option ConcurrencyLimiter :=
  sem ← heap c !! ref;
  if tokens sem <? max c
  then Some (with_heap (<[ref := mkSem (tokens sem + 1) (count sem)]>) c) else None.

Definition release (ref : nat) (c : ConcurrencyLimiter) : option ConcurrencyLimiter :=
  sem ← heap c !! ref;
  if 0 <? tokens sem
  then Some (with_heap (<[ref := mkSem (tokens sem - 1) (count sem)]>) c) else None.

(** The semaphore is created lazily; [None]: dereferencing a nil pointer. *)
Definition getSemaphore (lockKey : string) (c : ConcurrencyLimiter) : option (nat * ConcurrencyLimiter) :=
  let c :=
    match semaphores c !! lockKey with
    | Some _ => c
    | None =>
      mkLimiter (<[lockKey := next c]> (semaphores c)) (<[next c := mkSem 0 0]> (heap c))
        (S (next c)) (max c) (queuedGauge c) (inprogressGauge c)
    end in
  ref ← semaphores c !! lockKey;
  sem ← heap c !! ref;
  Some (ref, with_heap (<[ref := mkSem (tokens sem) (i64 (count sem + 1))]>) c).

(** [None]: a panic. *)
Definition putSemaphore (lockKey : string) (c : ConcurrencyLimiter) : option ConcurrencyLimiter :=
  ref ← semaphores c !! lockKey;
  sem ← heap c !! ref;
  if count sem <=? 0 then None
  else
    let c := with_heap (<[ref := mkSem (tokens sem) (count sem - 1)]>) c in
    Some (if decide (count sem - 1 = 0) then with_semaphores (delete lockKey) c else c).

Definition countSemaphores (c : ConcurrencyLimiter) : nat := size (semaphores c).

(** ** Calls of [Limit] *)

Inductive pc : Type :=
| Direct                      (* runs f without a limit *)
| Queuing                     (* counted as queued, about to get a semaphore *)
| Acquiring (ref : nat)
| Acquired (ref : nat)        (* about to leave the queue *)
| GaveUp (ref : nat)          (* the context is done, about to leave the queue *)
| Entering (ref : nat)
| Running (ref : nat)         (* runs f *)
| Exiting (ref : nat)
| Releasing (ref : nat)
| Putting (ref : nat).

Record call : Type := mkCall {
  lockKey : string;
  at_ : pc;
}.

(** Where a call of [Limit] starts. *)
Definition Limit (key : string) (c : ConcurrencyLimiter) : call * ConcurrencyLimiter :=
  if max c <=? 0 then (mkCall key Direct, c) else (mkCall key Queuing, Queued c).

Inductive action : Type :=
| Blocked
| Panicked
| Next (then_ : option pc) (c : ConcurrencyLimiter).

(** The next action of a call; [giveUp]: the context of the call is done and the
    [select] takes that branch. The deferred calls run in reverse order, also
    when f panics. *)
Definition Limit_next (giveUp : bool) (x : call) (c : ConcurrencyLimiter) : action :=
  match at_ x with
  | Direct => Next None c
  | Queuing =>
    match getSemaphore (lockKey x) c with
    | Some (ref, c) => Next (Some (Acquiring ref)) c
    | None => Panicked
    end
  | Acquiring ref =>
    if giveUp then Next (Some (GaveUp ref)) c
    else match acquire ref c with
    | Some c => Next (Some (Acquired ref)) c
    | None => Blocked
    end
  | Acquired ref => Next (Some (Entering ref)) (Dequeued c)
  | GaveUp ref => Next (Some (Putting ref)) (Dequeued c)
  | Entering ref => Next (Some (Running ref)) (Enter c)
  | Running ref => Next (Some (Exiting ref)) c
  | Exiting ref => Next (Some (Releasing ref)) (Exit c)
  | Releasing ref =>
    match release ref c with
    | Some c => Next (Some (Putting ref)) c
    | None => Blocked
    end
  | Putting _ =>
    match putSemaphore (lockKey x) c with
    | Some c => Next None c
    | None => Panicked
    end
  end.

(** ** Interleavings *)

Record system : Type := mkSystem {
  limiter : ConcurrencyLimiter;
  calls : gmap nat call;
}.

(** Calls are fewer than the values of an [int]. *)
Inductive step : system -> system -> Prop :=
| step_call s t key x c :
    calls s !! t = None -> Z.of_nat (size (calls s)) < 2 ^ 63 - 1 ->
    Limit key (limiter s) = (x, c) -> step s (mkSystem c (<[t := x]> (calls s)))
| step_next s t x giveUp p c :
    calls s !! t = Some x -> Limit_next giveUp x (limiter s) = Next p c ->
    step s (mkSystem c (partial_alter (fun _ => mkCall (lockKey x) <$> p) t (calls s))).

Inductive reachable (max : Z) : system -> Prop :=
| reachable_new : reachable max (mkSystem (NewLimiter max) ∅)
| reachable_step s s' : reachable max s -> step s s' -> reachable max s'.

(** ** Invariant *)

Definition holdsRef (p : pc) : bool := match p with Direct | Queuing => false | _ => true end.

Definition holdsToken (p : pc) : bool :=
  match p with Acquired _ | Entering _ | Running _ | Exiting _ | Releasing _ => true | _ => false end.

Definition isQueued (p : pc) : bool :=
  match p with Queuing | Acquiring _ | Acquired _ | GaveUp _ => true | _ => false end.

Definition isEntered (p : pc) : bool := match p with Running _ | Exiting _ => true | _ => false end.

Definition isRunning (p : pc) : bool := match p with Running _ => true | _ => false end.

Definition pc_ref (p : pc) : option nat :=
  match p with
  | Direct | Queuing => None
  | Acquiring r | Acquired r | GaveUp r | Entering r | Running r | Exiting r | Releasing r | Putting r => Some r
  end.

(** How many calls, of those with a key, are at a place that satisfies [P]. *)
Definition one (P : pc -> bool) (K : string -> bool) (x : call) : Z := Z.b2z (P (at_ x) && K (lockKey x)).
Definition num (P : pc -> bool) (K : string -> bool) (m : gmap nat call) : Z := msum (one P K) m.

Abbreviation key k := (fun k' => bool_decide (k' = k)).
Abbreviation anyKey := (fun _ : string => true).

Lemma one_range P K x : 0 <= one P K x <= 1.
Proof. unfold one. destruct (_ && _); simpl; lia. Qed.

Lemma num_nonneg P K m : 0 <= num P K m.
Proof. apply msum_nonneg. intros. apply one_range. Qed.

Lemma num_pos P K m t x : m !! t = Some x -> one P K x = 1 -> 0 < num P K m.
Proof.
  intros Hx Hone. assert (one P K x <= num P K m); [|lia].
  apply (msum_lookup_le _ m t); [|done]. intros. apply one_range.
Qed.

Lemma num_size P K m : num P K m <= Z.of_nat (size m).
Proof.
  unfold num. induction m as [|t x m Ht IH] using map_ind; [by rewrite msum_empty|].
  rewrite msum_insert, map_size_insert_None by done. pose proof (one_range P K x). lia.
Qed.

Lemma num_le P Q K m : (forall p, P p = true -> Q p = true) -> num P K m <= num Q K m.
Proof.
  intros HPQ. apply msum_le. intros _ x _. unfold one. specialize (HPQ (at_ x)).
  destruct (P (at_ x)), (Q (at_ x)), (K (lockKey x)); simpl; lia || (by rewrite HPQ in *) || (by discriminate HPQ).
Qed.

Lemma num_zero P K m : (forall t x, m !! t = Some x -> one P K x = 0) -> num P K m = 0.
Proof. intros Hz. unfold num. rewrite (msum_ext _ (fun _ => 0)) by done. apply msum_zero. Qed.

Definition opt (P : pc -> bool) (p : option pc) : bool := match p with Some p => P p | None => false end.

Lemma num_next P K m t x p :
  m !! t = Some x ->
  num P K (partial_alter (fun _ => mkCall (lockKey x) <$> p) t m) =
    num P K m + (if K (lockKey x) then Z.b2z (opt P p) - Z.b2z (P (at_ x)) else 0).
Proof.
  intros Hx. unfold num. destruct p as [p|]; simpl.
  - change (partial_alter _ t m) with (<[t := mkCall (lockKey x) p]> m). rewrite (msum_update _ m t x _ Hx).
    unfold one. simpl. destruct (P p), (P (at_ x)), (K (lockKey x)); simpl; lia.
  - change (partial_alter _ t m) with (delete t m). rewrite (msum_delete _ m t x Hx).
    unfold one. destruct (P (at_ x)), (K (lockKey x)); simpl; lia.
Qed.

Lemma lookup_next (m : gmap nat call) t x p t' y :
  partial_alter (fun _ => mkCall (lockKey x) <$> p) t m !! t' = Some y ->
  t' ≠ t /\ m !! t' = Some y \/ exists q, p = Some q /\ y = mkCall (lockKey x) q.
Proof.
  destruct (decide (t' = t)) as [->|Hne].
  - rewrite lookup_partial_alter_eq. destruct p as [q|]; [|done]. intros [= <-]. right. by exists q.
  - rewrite lookup_partial_alter_ne by done. by left.
Qed.

Lemma size_next (m : gmap nat call) t x p :
  m !! t = Some x -> (size (partial_alter (fun _ => mkCall (lockKey x) <$> p) t m) <= size m)%nat.
Proof.
  intros Hx. destruct p as [p|]; simpl.
  - change (partial_alter _ t _) with (<[t := mkCall (lockKey x) p]> m).
    rewrite (map_size_insert_Some t); [done|by exists x].
  - change (partial_alter _ t _) with (delete t m). rewrite (map_size_delete_Some t); [lia|by exists x].
Qed.

(** The semaphore of a key, with [n] references and [t] tokens taken. *)
Definition key_ok (c : ConcurrencyLimiter) (n t : Z) (k : string) : Prop :=
  match semaphores c !! k with
  | None => n = 0 /\ t = 0
  | Some ref => heap c !! ref = Some (mkSem t n) /\ 0 < n /\ t <= max c
  end.

Record l_inv (s : system) : Prop := {
  l_key : forall k, key_ok (limiter s) (num holdsRef (key k) (calls s)) (num holdsToken (key k) (calls s)) k;
  l_ref : forall t x ref, calls s !! t = Some x -> pc_ref (at_ x) = Some ref ->
    semaphores (limiter s) !! lockKey x = Some ref;
  l_inj : forall k k' ref, semaphores (limiter s) !! k = Some ref -> semaphores (limiter s) !! k' = Some ref -> k = k';
  l_fresh : forall k ref, semaphores (limiter s) !! k = Some ref -> (ref < next (limiter s))%nat;
  l_max : forall t x, calls s !! t = Some x -> at_ x = Direct <-> max (limiter s) <= 0;
  l_queued : queuedGauge (limiter s) = num isQueued anyKey (calls s);
  l_entered : inprogressGauge (limiter s) = num isEntered anyKey (calls s);
  l_size : Z.of_nat (size (calls s)) < 2 ^ 63;
}.

(** An action of a call that concerns the semaphore of its own key only. *)
Record acts (k : string) (c c' : ConcurrencyLimiter) : Prop := {
  a_max : max c' = max c;
  a_sems : forall k', k' ≠ k -> semaphores c' !! k' = semaphores c !! k';
  a_heap : forall k' ref, k' ≠ k -> semaphores c !! k' = Some ref -> heap c' !! ref = heap c !! ref;
  a_own : forall ref, semaphores c' !! k = Some ref -> semaphores c !! k = Some ref \/ ref = next c /\ next c' = S (next c);
  a_next : next c' = next c \/ next c' = S (next c);
}.

Lemma acts_key_ok k k' c c' n t : acts k c c' -> k' ≠ k -> key_ok c n t k' -> key_ok c' n t k'.
Proof.
  intros Ha Hne. unfold key_ok. rewrite (a_sems k c c' Ha k' Hne), (a_max k c c' Ha).
  destruct (semaphores c !! k') as [ref|] eqn:Hs; [|done]. by rewrite (a_heap k c c' Ha k' ref Hne Hs).
Qed.

Lemma inv_next s t x p c :
  l_inv s -> calls s !! t = Some x -> acts (lockKey x) (limiter s) c ->
  let d P := Z.b2z (opt P p) - Z.b2z (P (at_ x)) in
  key_ok c (num holdsRef (key (lockKey x)) (calls s) + d holdsRef)
    (num holdsToken (key (lockKey x)) (calls s) + d holdsToken) (lockKey x) ->
  (forall ref, semaphores (limiter s) !! lockKey x = Some ref ->
    semaphores c !! lockKey x = Some ref \/ num holdsRef (key (lockKey x)) (calls s) + d holdsRef = 0) ->
  (forall q ref, p = Some q -> pc_ref q = Some ref -> semaphores c !! lockKey x = Some ref) ->
  (forall q, p = Some q -> q = Direct <-> max c <= 0) ->
  queuedGauge c = queuedGauge (limiter s) + d isQueued ->
  inprogressGauge c = inprogressGauge (limiter s) + d isEntered ->
  l_inv (mkSystem c (partial_alter (fun _ => mkCall (lockKey x) <$> p) t (calls s))).
Proof.
  intros Hinv Hx Ha d Hk Hkeep Hp Hdir Hq He. split; simpl.
  - intros k. rewrite !(num_next _ _ _ t x p Hx). destruct (decide (lockKey x = k)) as [<-|Hne].
    + by rewrite bool_decide_eq_true_2.
    + rewrite !bool_decide_eq_false_2, !Z.add_0_r by done. apply (acts_key_ok (lockKey x) k (limiter s)); [done|done|apply Hinv].
  - intros t' y ref [[Hne Hy]|(q & -> & ->)]%lookup_next Href; [|by apply (Hp q ref)].
    pose proof (l_ref s Hinv t' y ref Hy Href) as Hs.
    destruct (decide (lockKey y = lockKey x)) as [Heq|Hnk]; [|by rewrite (a_sems _ _ _ Ha)].
    rewrite Heq in *. destruct (Hkeep ref Hs) as [?|Hz]; [done|].
    assert (0 < num holdsRef (key (lockKey x)) (partial_alter (fun _ => mkCall (lockKey x) <$> p) t (calls s))).
    { apply (num_pos _ _ _ t' y); [by rewrite lookup_partial_alter_ne|]. unfold one.
      rewrite Heq, bool_decide_eq_true_2 by done. by destruct (at_ y). }
    rewrite (num_next _ _ _ t x p Hx), bool_decide_eq_true_2 in H by done. fold (d holdsRef) in H. lia.
  - intros k k' ref H1 H2. pose proof (l_fresh s Hinv) as Hf.
    destruct (decide (k = lockKey x)) as [->|Hk1], (decide (k' = lockKey x)) as [->|Hk2]; [done|..].
    + rewrite (a_sems _ _ _ Ha k' Hk2) in H2. destruct (a_own _ _ _ Ha ref H1) as [?|[-> _]]; [by apply (l_inj s Hinv _ _ ref)|].
      specialize (Hf _ _ H2). lia.
    + rewrite (a_sems _ _ _ Ha k Hk1) in H1. destruct (a_own _ _ _ Ha ref H2) as [?|[-> _]]; [by apply (l_inj s Hinv _ _ ref)|].
      specialize (Hf _ _ H1). lia.
    + rewrite (a_sems _ _ _ Ha k Hk1) in H1. rewrite (a_sems _ _ _ Ha k' Hk2) in H2. by apply (l_inj s Hinv _ _ ref).
  - intros k ref Hs. pose proof (a_next _ _ _ Ha). destruct (decide (k = lockKey x)) as [->|Hnk].
    + destruct (a_own _ _ _ Ha ref Hs) as [H1%(l_fresh s Hinv)|[-> ->]]; lia.
    + rewrite (a_sems _ _ _ Ha k Hnk) in Hs. apply (l_fresh s Hinv) in Hs. lia.
  - intros t' y [[_ Hy]|(q & -> & ->)]%lookup_next; [|by apply Hdir].
    rewrite (a_max _ _ _ Ha). by apply (l_max s Hinv t').
  - rewrite (num_next _ _ _ t x p Hx), Hq, (l_queued s Hinv). done.
  - rewrite (num_next _ _ _ t x p Hx), He, (l_entered s Hinv). done.
  - pose proof (size_next (calls s) t x p Hx). pose proof (l_size s Hinv). lia.
Qed.

(** The semaphores of two states are the same. *)
Definition same (c c' : ConcurrencyLimiter) : Prop :=
  semaphores c' = semaphores c /\ heap c' = heap c /\ next c' = next c /\ max c' = max c.

Lemma acts_same k c c' : same c c' -> acts k c c'.
Proof. intros (Hs & Hh & Hn & Hm). split; rewrite ?Hs, ?Hh, ?Hn, ?Hm; auto. Qed.

Lemma acts_heap s k ref sem :
  l_inv s -> semaphores (limiter s) !! k = Some ref -> acts k (limiter s) (with_heap (<[ref := sem]>) (limiter s)).
Proof.
  intros Hinv Hk. split; simpl; auto. intros k' ref' Hne Hk'. apply lookup_insert_ne. intros ->.
  by apply Hne, (l_inj s Hinv k' k ref').
Qed.

(** The semaphore a call holds a reference to. *)
Lemma held s t x ref :
  l_inv s -> calls s !! t = Some x -> pc_ref (at_ x) = Some ref ->
  semaphores (limiter s) !! lockKey x = Some ref /\
  heap (limiter s) !! ref = Some (mkSem (num holdsToken (key (lockKey x)) (calls s)) (num holdsRef (key (lockKey x)) (calls s))) /\
  num holdsToken (key (lockKey x)) (calls s) <= max (limiter s) /\
  0 < num holdsRef (key (lockKey x)) (calls s) < 2 ^ 63 /\ 0 < max (limiter s).
Proof.
  intros Hinv Hx Href. pose proof (l_ref s Hinv t x ref Hx Href) as Hs. pose proof (l_key s Hinv (lockKey x)) as Hk.
  unfold key_ok in Hk. rewrite Hs in Hk. destruct Hk as (? & ? & ?).
  pose proof (num_size holdsRef (key (lockKey x)) (calls s)). pose proof (l_size s Hinv).
  destruct (l_max s Hinv t x Hx) as [_ Hd]. split_and!; try done; [lia|].
  destruct (decide (max (limiter s) <= 0)) as [Hm|]; [|lia]. by rewrite (Hd Hm) in Href.
Qed.

(** Moving on without touching the semaphores. *)
Lemma inv_move s t x p c :
  l_inv s -> calls s !! t = Some x -> same (limiter s) c ->
  opt holdsRef p = holdsRef (at_ x) -> opt holdsToken p = holdsToken (at_ x) ->
  (forall q, p = Some q -> pc_ref q = pc_ref (at_ x) /\ q ≠ Direct /\ at_ x ≠ Direct) ->
  queuedGauge c = queuedGauge (limiter s) + (Z.b2z (opt isQueued p) - Z.b2z (isQueued (at_ x))) ->
  inprogressGauge c = inprogressGauge (limiter s) + (Z.b2z (opt isEntered p) - Z.b2z (isEntered (at_ x))) ->
  l_inv (mkSystem c (partial_alter (fun _ => mkCall (lockKey x) <$> p) t (calls s))).
Proof.
  intros Hinv Hx Hsame Href Htok Hp Hq He. destruct Hsame as (Hs & Hh & Hn & Hm) eqn:Heqs. clear Heqs.
  apply (inv_next s t x p c); try done.
  - by apply acts_same.
  - rewrite Href, Htok, !Z.sub_diag, !Z.add_0_r. unfold key_ok. rewrite Hs, Hh, Hm. apply (l_key s Hinv).
  - intros r Hr. left. by rewrite Hs.
  - intros q r -> Hr. destruct (Hp q eq_refl) as (Heq & _). rewrite Hs. apply (l_ref s Hinv t); [done|congruence].
  - intros q ->. destruct (Hp q eq_refl) as (_ & ? & Hd). rewrite Hm, <- (l_max s Hinv t x Hx). tauto.
Qed.

Lemma inv_acquire s t x ref c :
  l_inv s -> calls s !! t = Some x -> at_ x = Acquiring ref -> acquire ref (limiter s) = Some c ->
  l_inv (mkSystem c (partial_alter (fun _ => mkCall (lockKey x) <$> Some (Acquired ref)) t (calls s))).
Proof.
  intros Hinv Hx Hat. destruct (held s t x ref Hinv Hx) as (Hs & Hh & Ht & Hn & Hm); [by rewrite Hat|].
  unfold acquire. rewrite Hh. simpl. destruct (Z.ltb_spec (num holdsToken (key (lockKey x)) (calls s)) (max (limiter s))); [|done].
  intros [= <-]. apply (inv_next s t x (Some (Acquired ref))); rewrite ?Hat; simpl; try done; try lia.
  - by apply acts_heap.
  - unfold key_ok. simpl. rewrite Hs, lookup_insert_eq. split_and!; [|lia..]. f_equal. f_equal; lia.
  - intros r Hr. by left.
  - by intros q r [= <-] [= <-].
  - intros q [= <-]. split; [done|lia].
Qed.

Lemma inv_release s t x ref c :
  l_inv s -> calls s !! t = Some x -> at_ x = Releasing ref -> release ref (limiter s) = Some c ->
  l_inv (mkSystem c (partial_alter (fun _ => mkCall (lockKey x) <$> Some (Putting ref)) t (calls s))).
Proof.
  intros Hinv Hx Hat. destruct (held s t x ref Hinv Hx) as (Hs & Hh & Ht & Hn & Hm); [by rewrite Hat|].
  unfold release. rewrite Hh. simpl. destruct (Z.ltb_spec 0 (num holdsToken (key (lockKey x)) (calls s))); [|done].
  intros [= <-]. apply (inv_next s t x (Some (Putting ref))); rewrite ?Hat; simpl; try done; try lia.
  - by apply acts_heap.
  - unfold key_ok. simpl. rewrite Hs, lookup_insert_eq. split_and!; [|lia..]. f_equal. f_equal; lia.
  - intros r Hr. by left.
  - by intros q r [= <-] [= <-].
  - intros q [= <-]. split; [done|lia].
Qed.

Lemma inv_put s t x ref c :
  l_inv s -> calls s !! t = Some x -> at_ x = Putting ref -> putSemaphore (lockKey x) (limiter s) = Some c ->
  l_inv (mkSystem c (partial_alter (fun _ => mkCall (lockKey x) <$> None) t (calls s))).
Proof.
  intros Hinv Hx Hat. destruct (held s t x ref Hinv Hx) as (Hs & Hh & Ht & Hn & Hm); [by rewrite Hat|].
  assert (Htok : num holdsToken (key (lockKey x)) (calls s) <= num holdsRef (key (lockKey x)) (calls s) - 1).
  { pose proof (num_next holdsToken (key (lockKey x)) (calls s) t x None Hx) as Hn1.
    pose proof (num_next holdsRef (key (lockKey x)) (calls s) t x None Hx) as Hn2.
    cbv beta in Hn1, Hn2. rewrite bool_decide_eq_true_2, Hat in Hn1, Hn2 by done. simpl in Hn1, Hn2.
    pose proof (num_le holdsToken holdsRef (key (lockKey x))
      (partial_alter (fun _ => mkCall (lockKey x) <$> None) t (calls s)) ltac:(by intros [])) as Hle.
    simpl in Hle. lia. }
  pose proof (num_nonneg holdsToken (key (lockKey x)) (calls s)) as Hpos.
  unfold putSemaphore. rewrite Hs. simpl. rewrite Hh. simpl.
  destruct (Z.leb_spec (num holdsRef (key (lockKey x)) (calls s)) 0); [lia|]. intros [= <-].
  apply (inv_next s t x None); rewrite ?Hat; simpl; try done.
  - case_decide; [|by apply acts_heap]. destruct (acts_heap s (lockKey x) ref
      (mkSem (num holdsToken (key (lockKey x)) (calls s)) (num holdsRef (key (lockKey x)) (calls s) - 1)) Hinv Hs) as [? ? Hheap ? ?].
    split; simpl in *; auto.
    + intros k' Hne. by rewrite lookup_delete_ne.
    + by rewrite lookup_delete_eq.
  - unfold key_ok. case_decide; simpl; [rewrite lookup_delete_eq; lia|].
    rewrite Hs, lookup_insert_eq. split_and!; [|lia..]. f_equal. f_equal; lia.
  - intros r Hr. case_decide; [right; lia|by left].
  - case_decide; simpl; lia.
  - case_decide; simpl; lia.
Qed.

Lemma inv_get s t x ref c :
  l_inv s -> calls s !! t = Some x -> at_ x = Queuing -> getSemaphore (lockKey x) (limiter s) = Some (ref, c) ->
  l_inv (mkSystem c (partial_alter (fun _ => mkCall (lockKey x) <$> Some (Acquiring ref)) t (calls s))).
Proof.
  intros Hinv Hx Hat. pose proof (l_key s Hinv (lockKey x)) as Hk.
  pose proof (num_size holdsRef (key (lockKey x)) (calls s)). pose proof (l_size s Hinv) as Hsz.
  assert (0 < max (limiter s)) as Hm.
  { destruct (l_max s Hinv t x Hx) as [_ Hd]. destruct (decide (max (limiter s) <= 0)) as [Hm|]; [|lia].
    by rewrite (Hd Hm) in Hat. }
  assert (Hlt : num holdsRef (key (lockKey x)) (calls s) < 2 ^ 63 - 1).
  { pose proof (num_next holdsRef (key (lockKey x)) (calls s) t x None Hx) as Hn.
    pose proof (num_size holdsRef (key (lockKey x)) (delete t (calls s))) as Hd.
    rewrite (map_size_delete_Some t) in Hd by (by exists x).
    cbv beta in Hn. rewrite bool_decide_eq_true_2, Hat in Hn by done. simpl in Hn.
    change (partial_alter _ t (calls s)) with (delete t (calls s)) in Hn. lia. }
  unfold getSemaphore. unfold key_ok in Hk. destruct (semaphores (limiter s) !! lockKey x) as [r|] eqn:Hs.
  - destruct Hk as (Hh & Hn & Ht). rewrite Hs. simpl. rewrite Hh. simpl. intros [= -> <-].
    apply (inv_next s t x (Some (Acquiring ref))); rewrite ?Hat; simpl; try done; try lia.
    + by apply acts_heap.
    + unfold key_ok. simpl. rewrite Hs, lookup_insert_eq, i64_small by lia. split_and!; [|lia..]. f_equal. f_equal; lia.
    + intros r Hr. by left.
    + by intros q r [= <-] [= <-].
    + intros q [= <-]. split; [done|lia].
  - simpl. rewrite lookup_insert_eq. simpl. rewrite lookup_insert_eq. simpl. intros [= <- <-].
    destruct Hk as [Hz1 Hz2].
    apply (inv_next s t x (Some (Acquiring (next (limiter s))))); rewrite ?Hat; simpl; try done; try lia.
    + split; simpl; auto.
      * intros k' Hne. by rewrite lookup_insert_ne.
      * intros k' ref Hne Hk'. apply (l_fresh s Hinv) in Hk'. rewrite !lookup_insert_ne by lia. done.
      * rewrite lookup_insert_eq. intros ref [= <-]. by right.
    + unfold key_ok. simpl. rewrite !lookup_insert_eq, Hz1, Hz2. split_and!; [done|lia..].
    + congruence.
    + intros q r [= <-] [= <-]. by rewrite lookup_insert_eq.
    + intros q [= <-]. split; [done|lia].
Qed.

Lemma num_insert P K m t x : m !! t = None -> num P K (<[t := x]> m) = one P K x + num P K m.
Proof. apply msum_insert. Qed.

Lemma inv_call s t k x c :
  l_inv s -> calls s !! t = None -> Z.of_nat (size (calls s)) < 2 ^ 63 - 1 -> Limit k (limiter s) = (x, c) ->
  l_inv (mkSystem c (<[t := x]> (calls s))).
Proof.
  intros Hinv Hnone Hsize Hl.
  assert (Hx : same (limiter s) c /\ lockKey x = k /\ holdsRef (at_ x) = false /\ holdsToken (at_ x) = false /\
    (at_ x = Direct <-> max (limiter s) <= 0) /\ pc_ref (at_ x) = None /\ isEntered (at_ x) = false /\
    inprogressGauge c = inprogressGauge (limiter s) /\
    queuedGauge c = queuedGauge (limiter s) + Z.b2z (isQueued (at_ x))).
  { unfold Limit in Hl. destruct (Z.leb_spec (max (limiter s)) 0); injection Hl as <- <-; simpl;
      split_and!; try (done || lia); split; done || lia. }
  destruct Hx as ((Hs & Hh & Hn & Hm) & Hk & Hr & Ht & Hd & Hpr & Hen & Hip & Hq).
  split; simpl; rewrite ?Hs, ?Hn, ?Hm; try apply Hinv.
  - intros k'. rewrite !num_insert by done. unfold one. rewrite Hr, Ht. unfold key_ok. rewrite Hs, Hh, Hm.
    simpl. apply (l_key s Hinv).
  - intros t' y ref [[_ <-]|[_ Hy]]%lookup_insert_Some Href; [congruence|]. by apply (l_ref s Hinv t').
  - intros t' y [[_ <-]|[_ Hy]]%lookup_insert_Some; [done|]. by apply (l_max s Hinv t').
  - rewrite num_insert, Hq, (l_queued s Hinv) by done. unfold one. rewrite andb_true_r. lia.
  - rewrite num_insert, Hip, (l_entered s Hinv) by done. unfold one. by rewrite Hen.
  - rewrite map_size_insert_None by done. lia.
Qed.

Lemma step_inv s s' : l_inv s -> step s s' -> l_inv s'.
Proof.
  intros Hinv Hstep. revert Hinv. destruct Hstep as [s t k x c Hnone Hsize Hl|s t x giveUp p c Hx Hn]; intros Hinv.
  { by eapply inv_call. }
  unfold Limit_next in Hn. destruct (at_ x) eqn:Hat.
  2: { destruct (getSemaphore _ _) as [[r c1]|] eqn:Hg; [|done]. injection Hn as <- <-. by eapply inv_get. }
  2: destruct giveUp; [|destruct (acquire _ _) eqn:Ha; [injection Hn as <- <-; by eapply inv_acquire|done]].
  8: { destruct (release _ _) eqn:Ha; [|done]. injection Hn as <- <-. by eapply inv_release. }
  8: { destruct (putSemaphore _ _) eqn:Ha; [|done]. injection Hn as <- <-. by eapply inv_put. }
  all: injection Hn as <- <-; apply inv_move; rewrite ?Hat; simpl; try done; try lia; by intros q [= <-].
Qed.

Lemma limiter_reachable_inv m s : reachable m s -> l_inv s.
Proof.
  induction 1 as [|s s' _ IH Hstep]; [|by eapply step_inv].
  by split.
Qed.

Lemma Limit_next_max giveUp x c p c' : Limit_next giveUp x c = Next p c' -> max c' = max c.
Proof.
  unfold Limit_next, getSemaphore, acquire, release, putSemaphore, mbind, option_bind.
  intros Hn. by repeat (case_match; simplify_eq/=).
Qed.

Lemma reachable_max m s : reachable m s -> max (limiter s) = m.
Proof.
  induction 1 as [|s s' _ IH Hstep]; [done|].
  destruct Hstep as [s t k x c _ _ Hl|s t x giveUp p c _ Hn]; simpl.
  - unfold Limit in Hl. case_match; by simplify_eq/=.
  - by rewrite (Limit_next_max _ _ _ _ _ Hn).
Qed.

Lemma num_witness P K m : 0 < num P K m -> exists t x, m !! t = Some x /\ one P K x = 1.
Proof.
  unfold num. induction m as [|t x m Ht IH] using map_ind; [rewrite msum_empty; lia|].
  rewrite msum_insert by done. intros Hpos. pose proof (one_range P K x).
  destruct (decide (one P K x = 1)); [exists t, x; by rewrite lookup_insert_eq|].
  destruct IH as (t' & y & Hy & Hone); [lia|]. exists t', y. split; [|done].
  rewrite lookup_insert_ne; [done|congruence].
Qed.

(** C29. However calls interleave, at most [max] calls with the same key run at
    the same time; there is a semaphore for exactly the keys some call holds a
    reference for, so none is left when no call is active; the gauges are the
    numbers of calls in the queue and of calls in progress. *)
Theorem limiter_bounds m s :
  reachable m s ->
  (forall k, 0 < m -> num isRunning (key k) (calls s) <= m) /\
  (forall k, is_Some (semaphores (limiter s) !! k) <-> 0 < num holdsRef (key k) (calls s)) /\
  queuedGauge (limiter s) = num isQueued anyKey (calls s) /\
  inprogressGauge (limiter s) = num isEntered anyKey (calls s) /\
  (calls s = ∅ -> countSemaphores (limiter s) = 0%nat).
Proof.
  intros Hr. pose proof (limiter_reachable_inv m s Hr) as Hinv. pose proof (reachable_max m s Hr) as Hm.
  assert (Hsem : forall k, is_Some (semaphores (limiter s) !! k) <-> 0 < num holdsRef (key k) (calls s)).
  { intros k. pose proof (l_key s Hinv k) as Hk. unfold key_ok in Hk.
    destruct (semaphores (limiter s) !! k) as [ref|].
    - split; [lia|by eexists].
    - split; [by intros []|lia]. }
  split_and!; try done; try apply Hinv.
  - intros k Hpos. etrans; [apply (num_le _ holdsToken); by intros []|].
    pose proof (l_key s Hinv k) as Hk. unfold key_ok in Hk. rewrite Hm in Hk.
    destruct (semaphores (limiter s) !! k) as [ref|]; lia.
  - intros He. unfold countSemaphores. apply map_size_empty_iff, map_eq. intros k. rewrite lookup_empty.
    destruct (semaphores (limiter s) !! k) as [ref|] eqn:Hs; [|done].
    assert (0 < num holdsRef (key k) (calls s)) by (apply Hsem; by rewrite Hs).
    rewrite He in *. unfold num in *. rewrite msum_empty in *. lia.
Qed.

Lemma token_moves s t x ref giveUp :
  l_inv s -> calls s !! t = Some x -> pc_ref (at_ x) = Some ref -> holdsToken (at_ x) = true ->
  exists p c, Limit_next giveUp x (limiter s) = Next p c.
Proof.
  intros Hinv Hx Href Htok. destruct (held s t x ref Hinv Hx Href) as (_ & Hh & _).
  unfold Limit_next. destruct (at_ x) eqn:Hat; try done; try (by do 2 eexists). injection Href as ->.
  unfold release. rewrite Hh. simpl.
  assert (0 < num holdsToken (key (lockKey x)) (calls s)).
  { apply (num_pos _ _ _ t x Hx). unfold one. by rewrite Hat, bool_decide_eq_true_2. }
  destruct (Z.ltb_spec 0 (num holdsToken (key (lockKey x)) (calls s))); [by do 2 eexists|lia].
Qed.

(** No call ever panics. A call can only be blocked while it waits for a token
    and its context is not done, and then all [max] tokens of its key are held by
    other calls, each of which can move on: there is no deadlock and no token is
    lost. *)
Theorem limiter_progress m s t x giveUp :
  reachable m s -> calls s !! t = Some x ->
  Limit_next giveUp x (limiter s) ≠ Panicked /\
  (Limit_next giveUp x (limiter s) = Blocked ->
    giveUp = false /\ (exists ref, at_ x = Acquiring ref) /\
    num holdsToken (key (lockKey x)) (calls s) = m /\
    exists t' y, calls s !! t' = Some y /\ lockKey y = lockKey x /\ holdsToken (at_ y) = true /\
      forall g, exists p c, Limit_next g y (limiter s) = Next p c).
Proof.
  intros Hr Hx. pose proof (limiter_reachable_inv m s Hr) as Hinv. pose proof (reachable_max m s Hr) as Hm.
  pose proof (fun ref => held s t x ref Hinv Hx) as Hheld.
  pose proof (fun ref => token_moves s t x ref giveUp Hinv Hx) as Htok.
  unfold Limit_next in *. destruct (at_ x) as [| |ref|ref|ref|ref|ref|ref|ref|ref] eqn:Hat; try done.
  - pose proof (l_key s Hinv (lockKey x)) as Hk. unfold key_ok in Hk. unfold getSemaphore.
    destruct (semaphores (limiter s) !! lockKey x) as [r|] eqn:Hs; simpl.
    + destruct Hk as [Hh _]. rewrite Hs. simpl. by rewrite Hh.
    + rewrite lookup_insert_eq. simpl. by rewrite lookup_insert_eq.
  - destruct giveUp; [done|]. destruct (Hheld ref eq_refl) as (_ & Hh & Hle & _ & Hpos).
    unfold acquire. rewrite Hh. simpl. destruct (Z.ltb_spec (num holdsToken (key (lockKey x)) (calls s)) (max (limiter s))); [done|].
    split; [done|]. intros _. split_and!; [done|by eexists|lia|].
    destruct (num_witness holdsToken (key (lockKey x)) (calls s)) as (t' & y & Hy & Hone); [lia|].
    unfold one in Hone. destruct (holdsToken (at_ y)) eqn:Hyt; [|done]. simpl in Hone.
    case_bool_decide as Hk; [|done]. exists t', y. split_and!; try done. intros g.
    destruct (pc_ref (at_ y)) as [r|] eqn:Hyr; [by eapply (token_moves s t' y r)|by destruct (at_ y)].
  - destruct (Htok ref eq_refl eq_refl) as (p & c & Hn). by rewrite Hn.
  - destruct (Hheld ref eq_refl) as (Hs & Hh & _ & Hpos & _). unfold putSemaphore. rewrite Hs. simpl. rewrite Hh. simpl.
    by destruct (Z.leb_spec (num holdsRef (key (lockKey x)) (calls s)) 0); [lia|].
Qed.

(** ** Examples *)

Inductive event : Type :=
| Call (t : nat) (key : string)
| Act (t : nat) (giveUp : bool).

Definition exec (e : event) (s : system) : option system :=
  match e with
  | Call t key =>
    if decide (calls s !! t = None /\ Z.of_nat (size (calls s)) < 2 ^ 63 - 1)
    then let (x, c) := Limit key (limiter s) in Some (mkSystem c (<[t := x]> (calls s))) else None
  | Act t giveUp =>
    match calls s !! t with
    | None => None
    | Some x =>
      match Limit_next giveUp x (limiter s) with
      | Next p c => Some (mkSystem c (partial_alter (fun _ => mkCall (lockKey x) <$> p) t (calls s)))
      | _ => None
      end
    end
  end.

Fixpoint execs (es : list event) (s : system) : option system :=
  match es with
  | [] => Some s
  | e :: es => s ← exec e s; execs es s
  end.

Lemma execs_reachable m es : forall s s', reachable m s -> execs es s = Some s' -> reachable m s'.
Proof.
  induction es as [|e es IH]; simpl; intros s s' Hs; [by intros [= <-]|].
  destruct (exec e s) as [s1|] eqn:He; simpl; [|done]. apply IH.
  eapply reachable_step; [done|]. destruct e as [t k|t g]; simpl in He.
  - case_decide as Hd; [|done]. destruct (Limit k (limiter s)) as [x c] eqn:Hl. simplify_eq.
    destruct Hd. by eapply step_call.
  - destruct (calls s !! t) as [x|] eqn:Hx; [|done]. case_match eqn:Hn; [done..|]. simplify_eq. by eapply step_next.
Qed.

(** Two calls with the same key and a limit of one: the first runs, the second
    waits. *)
Definition ex_events : list event :=
  [Call 0 "a"; Act 0 false; Act 0 false; Act 0 false; Act 0 false; Call 1 "a"; Act 1 false].
Definition ex_start : system := mkSystem (NewLimiter 1) ∅.
Definition ex_waiting : system := default ex_start (execs ex_events ex_start).

Lemma ex_waiting_reachable : reachable 1 ex_waiting.
Proof.
  apply (execs_reachable 1 ex_events ex_start); [apply reachable_new|].
  unfold ex_waiting. by destruct (execs ex_events ex_start) eqn:He; vm_compute in He.
Qed.

Lemma limiter_bounds_witness :
  num isRunning (key "a") (calls ex_waiting) <= 1 /\ num isRunning (key "a") (calls ex_waiting) = 1.
Proof.
  split; [|by vm_compute].
  exact (proj1 (limiter_bounds 1 ex_waiting ex_waiting_reachable) "a" ltac:(lia)).
Defined.

Lemma limiter_progress_witness :
  Limit_next false (mkCall "a" (Acquiring 0)) (limiter ex_waiting) = Blocked /\
  num holdsToken (key "a") (calls ex_waiting) = 1.
Proof.
  assert (Hb : Limit_next false (mkCall "a" (Acquiring 0)) (limiter ex_waiting) = Blocked) by (by vm_compute).
  assert (Hx : calls ex_waiting !! 1%nat = Some (mkCall "a" (Acquiring 0))) by (by vm_compute).
  split; [exact Hb|].
  exact (proj1 (proj2 (proj2 (proj2 (limiter_progress 1 ex_waiting 1 _ false ex_waiting_reachable Hx) Hb)))).
Defined.
