(* ===== verification/Pktline.v ===== *)
(** Git's pkt-line format (src/internal/git/pktline/pktline.go).

    A stream is a list of bytes. The [io.Reader] behind a scanner is the list of
    chunks its successive [Read] calls have available, followed by the error the
    reader ends with; a call gets at most as many bytes as fit into the buffer.
    [bufio.Scanner] is the one of the Go standard library, with the buffer and
    split function [NewScanner] gives it. An [io.Writer] is an operation in the
    state-and-error monad. *)

From S2P Require Import Prelude.

Definition maxPktSize : Z := 65520.
Definition MaxSidebandData : Z := maxPktSize - 5.
Definition pktDelim : bytes := B "0001".
Definition PktFlush : bytes := B "0000".
Definition PktDone : bytes := B "0009done" ++ [x0a].

Definition len (l : bytes) : Z := Z.of_nat (length l).

(** ** Hexadecimal numbers *)

Definition hexDigit (n : Z) : byte :=
  default x00 (Strings.Byte.of_N (Z.to_N (if n <? 10 then 48 + n else 87 + n))).

Fixpoint hexDigits (width : nat) (n : Z) : bytes :=
  match width with
  | O => []
  | S w => hexDigits w (n / 16) ++ [hexDigit (n mod 16)]
  end.

(** [fmt.Sprintf("%04x", n)] for a non-negative number. *)
Definition fmt04x (n : Z) : bytes :=
  hexDigits (if n <? 16 ^ 4 then 4 else Z.to_nat (Z.log2 n / 4 + 1)) n.

Definition fromHexDigit (b : byte) : option Z :=
  let c := byteZ b in
  if (48 <=? c) && (c <=? 57) then Some (c - 48)
  else if (97 <=? c) && (c <=? 102) then Some (c - 87)
  else if (65 <=? c) && (c <=? 70) then Some (c - 55)
  else None.

Fixpoint parseHex (acc : Z) (l : bytes) : option Z :=
  match l with
  | [] => Some acc
  | b :: l => d ← fromHexDigit b; parseHex (acc * 16 + d) l
  end.

(** [strconv.ParseInt(s, 16, 0)] of so short a string that the number is in range;
    a sign is allowed. *)
Definition parseInt16 (s : bytes) : option Z :=
  let digits l := if decide (l = []) then None else parseHex 0 l in
  match s with
  | x2b :: l => digits l
  | x2d :: l => Z.opp <$> digits l
  | l => digits l
  end.

(** ** Writing *)

Inductive WriteError : Type :=
| ErrStringTooLarge (n : Z)
| ErrWrite (what : string).

Section Writing.
Context {W : Type} (Write : bytes -> M W WriteError unit).

Definition WriteString (str : bytes) : M W WriteError Z :=
  let pktLen := len str + 4 in
  if maxPktSize <? pktLen then fail (ErrStringTooLarge (len str))
  else _ ← Write (fmt04x pktLen ++ str); mret (len str).

Definition WriteFlush : M W WriteError unit := Write PktFlush.
Definition WriteDelim : M W WriteError unit := Write pktDelim.

(** The loop of [writeBand]; [n] is what has been written so far. The first
    component is the number of bytes written, also in case of an error. *)
Fixpoint writeBandLoop (fuel : nat) (band : byte) (data : bytes) (n : Z) (w : W)
    : option (Z * out WriteError unit * W) :=
  if decide (data = []) then Some (n, Ok tt, w)
  else match fuel with
  | O => None
  | S fuel =>
    let headerSize := 5 in
    let chunkSize := if maxPktSize - headerSize <? len data then maxPktSize - headerSize else len data in
    match Write (fmt04x (chunkSize + headerSize) ++ [band]) w with
    | (Ok _, w) =>
      match Write (take (Z.to_nat chunkSize) data) w with
      | (Ok _, w) => writeBandLoop fuel band (drop (Z.to_nat chunkSize) data) (n + chunkSize) w
      | (r, w) => Some (n, r, w)
      end
    | (r, w) => Some (n, r, w)
    end
  end.

Definition writeBand (band : byte) (data : bytes) (w : W) : option (Z * out WriteError unit * W) :=
  writeBandLoop (length data) band data 0 w.

End Writing.

(** ** Scanning *)

Inductive ScanError : Type :=
| IncompletePrefix (data : bytes)
| DecodeLength (prefix : bytes)
| InvalidLength (n : Z)
| ErrUnexpectedEOF
| ErrTooLong
| ErrNoProgress
| EOF
| ErrRead (what : string).

#[export] Instance ScanError_eq_dec : EqDecision ScanError.
Proof. solve_decision. Defined.

Inductive split : Type :=
| More
| Token (advance : Z) (token : bytes)
| SplitErr (e : ScanError).

#[export] Instance split_eq_dec : EqDecision split.
Proof. solve_decision. Defined.

Definition pktLineSplitter (data : bytes) (atEOF : bool) : split :=
  if len data <? 4 then
    if atEOF && (0 <? len data) then SplitErr (IncompletePrefix data) else More
  else match parseInt16 (take 4 data) with
  | None => SplitErr (DecodeLength (take 4 data))
  | Some pktLength =>
    if pktLength <? 0 then SplitErr (InvalidLength pktLength)
    else if pktLength <? 4 then Token 4 (take 4 data)
    else if len data <? pktLength then
      if atEOF then SplitErr ErrUnexpectedEOF else More
    else Token pktLength (take (Z.to_nat pktLength) data)
  end.

(** The buffer has [maxPktSize] bytes; [window] are the ones from [start] on that
    have been read and not yet split off. *)
Record Scanner : Type := mkScanner {
  start : Z;
  window : bytes;
  err : option ScanError;
  source : list bytes;
  final : ScanError;
}.

Definition NewScanner (source : list bytes) (final : ScanError) : Scanner := mkScanner 0 [] None source final.

(** An error replaces none and [EOF] only. *)
Definition setErr (e : ScanError) (old : option ScanError) : option ScanError :=
  match old with
  | None | Some EOF => Some e
  | Some e' => Some e'
  end.

Definition Err (s : Scanner) : option ScanError :=
  match err s with
  | Some EOF => None
  | e => e
  end.

(** The read loop: bytes read, error set, and what is left of the source. *)
Fixpoint readLoop (loop : nat) (space : Z) (source : list bytes) (final : ScanError)
    : bytes * option ScanError * list bytes :=
  match source with
  | [] => ([], Some final, [])
  | chunk :: source =>
    if decide (chunk = []) then
      if (100 <? S loop)%nat then ([], Some ErrNoProgress, source)
      else readLoop (S loop) space source final
    else
      let rest := drop (Z.to_nat space) chunk in
      (take (Z.to_nat space) chunk, None, if decide (rest = []) then source else rest :: source)
  end.

(** [Scan]: the token, if there is one, and the new state; [None]: out of fuel. *)
Fixpoint Scan (fuel : nat) (s : Scanner) : option (option bytes * Scanner) :=
  match fuel with
  | O => None
  | S fuel =>
    let atEOF := bool_decide (err s ≠ None) in
    let sp := if (0 <? len (window s)) || atEOF then pktLineSplitter (window s) atEOF else More in
    match sp with
    | SplitErr e => Some (None, mkScanner (start s) (window s) (setErr e (err s)) (source s) (final s))
    | Token advance token =>
      Some (Some token, mkScanner (start s + advance) (drop (Z.to_nat advance) (window s)) (err s) (source s) (final s))
    | More =>
      if atEOF then Some (None, mkScanner 0 [] (err s) (source s) (final s))
      else
        let end_ := start s + len (window s) in
        let start := if (0 <? start s) && ((end_ =? maxPktSize) || (maxPktSize / 2 <? start s)) then 0 else start s in
        let end_ := start + len (window s) in
        if end_ =? maxPktSize
        then Some (None, mkScanner start (window s) (setErr ErrTooLong (err s)) (source s) (final s))
        else
          match readLoop 0 (maxPktSize - end_) (source s) (final s) with
          | (b, e, src) =>
            Scan fuel (mkScanner start (window s ++ b) (match e with None => err s | Some e => setErr e (err s) end) src (final s))
          end
    end
  end.

(** [for scanner.Scan() { tokens = append(tokens, scanner.Bytes()) }], with the
    error afterwards. [fuel]: for the calls and for each call. *)
Fixpoint scanAll (fuel : nat) (s : Scanner) : option (list bytes * option ScanError) :=
  match fuel with
  | O => None
  | S fuel' =>
    match Scan fuel s with
    | None => None
    | Some (None, s) => Some ([], Err s)
    | Some (Some token, s) =>
      match scanAll fuel' s with
      | None => None
      | Some (l, e) => Some (token :: l, e)
      end
    end
  end.

(** Slicing off the header panics on less than four bytes. *)
Definition Data {E} (pkt : bytes) : out E bytes := if len pkt <? 4 then Panic else Ok (drop 4 pkt).
Definition IsFlush (pkt : bytes) : bool := bool_decide (pkt = PktFlush).

(** ** Side bands *)

Inductive SidebandError (E : Type) : Type :=
| errNotSideband (pkt : bytes)
| ErrScan (e : ScanError)
| ErrCallback (e : E).
Arguments errNotSideband {E}.
Arguments ErrScan {E}.
Arguments ErrCallback {E}.

Fixpoint EachSidebandPacket {S E : Type} (fn : byte -> bytes -> M S E unit) (fuel : nat) (sc : Scanner) (st : S)
    : option (out (SidebandError E) unit * S) :=
  match fuel with
  | O => None
  | Datatypes.S fuel' =>
    match Scan fuel sc with
    | None => None
    | Some (None, sc) => Some (match Err sc with None => Ok tt | Some e => Prelude.Err (ErrScan e) end, st)
    | Some (Some pkt, sc) =>
      match Data (E := SidebandError E) pkt with
      | Panic | Prelude.Err _ => Some (Panic, st)
      | Ok [] => Some (Prelude.Err (errNotSideband pkt), st)
      | Ok (band :: data) =>
        match fn band data st with
        | (Ok _, st) => EachSidebandPacket fn fuel' sc st
        | (Prelude.Err e, st) => Some (Prelude.Err (ErrCallback e), st)
        | (Panic, st) => Some (Panic, st)
        end
      end
    end
  end.

(** ** Numbers round trip *)

Lemma maxPktSize_eq : maxPktSize = 65520.
Proof. reflexivity. Qed.

#[local] Opaque maxPktSize.

Lemma fromHexDigit_hexDigit n : 0 <= n < 16 -> fromHexDigit (hexDigit n) = Some n.
Proof.
  intros Hn. assert (n ∈ seqZ 0 16) as Hin by (apply elem_of_seqZ; lia). vm_compute in Hin.
  repeat (apply elem_of_cons in Hin as [->|Hin]; [done|]).
  by apply elem_of_nil in Hin.
Qed.

Lemma parseHex_app l : forall acc l',
  parseHex acc (l ++ l') = a ← parseHex acc l; parseHex a l'.
Proof.
  induction l as [|b l IH]; intros acc l'; simpl; [done|].
  destruct (fromHexDigit b); simpl; [apply IH|done].
Qed.

Lemma parseHex_hexDigits w : forall acc n,
  0 <= n -> parseHex acc (hexDigits w n) = Some (acc * 16 ^ Z.of_nat w + n mod 16 ^ Z.of_nat w).
Proof.
  induction w as [|w IH]; intros acc n Hn.
  { simpl. rewrite Z.mod_1_r. f_equal. lia. }
  cbn [hexDigits]. rewrite parseHex_app, IH by (apply Z.div_pos; lia). simpl.
  rewrite fromHexDigit_hexDigit by (apply Z.mod_pos_bound; lia). simpl. f_equal.
  rewrite Nat2Z.inj_succ, Z.pow_succ_r by lia.
  rewrite (Z.rem_mul_r n 16 (16 ^ Z.of_nat w)) by (try apply Z.pow_pos_nonneg; lia). lia.
Qed.

Lemma length_hexDigits w : forall n, length (hexDigits w n) = w.
Proof. induction w as [|w IH]; intros n; simpl; [done|]. rewrite length_app, IH. simpl. lia. Qed.

Lemma parseInt16_digits b l : is_Some (fromHexDigit b) -> parseInt16 (b :: l) = parseHex 0 (b :: l).
Proof. intros [d Hd]. by destruct b. Qed.

Lemma hexDigits_digits w : forall n, 0 <= n -> Forall (fun b => is_Some (fromHexDigit b)) (hexDigits w n).
Proof.
  induction w as [|w IH]; intros n Hn; simpl; [constructor|].
  apply Forall_app. split; [apply IH, Z.div_pos; lia|]. constructor; [|constructor].
  rewrite fromHexDigit_hexDigit; [by eexists|]. apply Z.mod_pos_bound. lia.
Qed.

Lemma parseInt16_fmt04x n : 0 <= n < 16 ^ 4 -> parseInt16 (fmt04x n) = Some n /\ length (fmt04x n) = 4%nat.
Proof.
  intros Hn. unfold fmt04x. rewrite (proj2 (Z.ltb_lt n (16 ^ 4))) by lia. rewrite length_hexDigits. split; [|done].
  pose proof (hexDigits_digits 4 n (proj1 Hn)) as Hall. pose proof (parseHex_hexDigits 4 0 n (proj1 Hn)) as Hp.
  pose proof (length_hexDigits 4 n) as Hlen. destruct (hexDigits 4 n) as [|b l]; [done|].
  apply Forall_cons in Hall as [Hb _]. rewrite parseInt16_digits, Hp by done.
  change (Z.of_nat 4) with 4. rewrite Z.mod_small by lia. done.
Qed.

(** ** The splitter *)

Lemma len_app l l' : len (l ++ l') = len l + len l'.
Proof. unfold len. rewrite length_app. lia. Qed.

Lemma len_nonneg l : 0 <= len l.
Proof. unfold len. lia. Qed.

Lemma len_take n l : 0 <= n -> len (take (Z.to_nat n) l) = n `min` len l.
Proof. intros Hn. unfold len. rewrite length_take. lia. Qed.

Lemma len_drop n l : 0 <= n -> len (drop (Z.to_nat n) l) = 0 `max` (len l - n).
Proof. intros Hn. unfold len. rewrite length_drop. lia. Qed.

(** A decision on a part of the data stands for all of it. *)
Lemma splitter_app w x b : pktLineSplitter w false ≠ More -> pktLineSplitter (w ++ x) b = pktLineSplitter w false.
Proof.
  unfold pktLineSplitter. rewrite len_app. pose proof (len_nonneg x).
  destruct (Z.ltb_spec (len w) 4); [done|]. destruct (Z.ltb_spec (len w + len x) 4); [lia|].
  assert (Hw : (4 <= length w)%nat) by (unfold len in *; lia). rewrite take_app_le by lia.
  destruct (parseInt16 (take 4 w)) as [n|]; [|done].
  destruct (Z.ltb_spec n 0); [done|]. destruct (Z.ltb_spec n 4); [done|].
  destruct (Z.ltb_spec (len w) n); [done|]. destruct (Z.ltb_spec (len w + len x) n); [lia|].
  intros _. f_equal. rewrite take_app_le; [done|]. unfold len in *. lia.
Qed.

Lemma splitter_eof w : pktLineSplitter w true = More -> w = [].
Proof.
  unfold pktLineSplitter. destruct (Z.ltb_spec (len w) 4); simpl.
  - destruct (Z.ltb_spec 0 (len w)); [done|]. intros _. unfold len in *. destruct w; simpl in *; [done|lia].
  - by repeat case_match.
Qed.

Lemma splitter_token w b a t : pktLineSplitter w b = Token a t -> 4 <= a <= len w /\ t = take (Z.to_nat a) w.
Proof.
  unfold pktLineSplitter. destruct (Z.ltb_spec (len w) 4); [by case_match|].
  destruct (parseInt16 (take 4 w)) as [n|]; [|done]. destruct (Z.ltb_spec n 0); [done|].
  destruct (Z.ltb_spec n 4); [intros [= <- <-]; split; [lia|done]|].
  destruct (Z.ltb_spec (len w) n); [by case_match|]. intros [= <- <-]. split; [lia|done].
Qed.

Lemma splitter_err w b e : pktLineSplitter w b = SplitErr e -> e ≠ EOF.
Proof. unfold pktLineSplitter. intros Hs. repeat case_match; by simplify_eq. Qed.

(** What a scanner makes of the data it still has to deliver. *)
Definition first (data : bytes) : split :=
  match pktLineSplitter (take (Z.to_nat maxPktSize) data) false with
  | More => if maxPktSize <=? len data then SplitErr ErrTooLong else pktLineSplitter data true
  | r => r
  end.

Lemma first_prefix w x :
  len w <= maxPktSize -> pktLineSplitter w false ≠ More -> first (w ++ x) = pktLineSplitter w false.
Proof.
  intros Hle Hm. unfold first. rewrite take_app_ge by (unfold len in *; lia).
  rewrite splitter_app by done. by destruct (pktLineSplitter w false).
Qed.

Lemma first_eof w : len w < maxPktSize -> first w = pktLineSplitter w true.
Proof.
  intros Hlt. unfold first. rewrite take_ge by (unfold len in *; lia).
  destruct (Z.leb_spec maxPktSize (len w)); [lia|].
  destruct (pktLineSplitter w false) eqn:Hs; [done|..];
    (pose proof (splitter_app w [] true) as Ha; rewrite app_nil_r, Hs in Ha; by rewrite Ha).
Qed.

Lemma first_full w x : len w = maxPktSize -> pktLineSplitter w false = More -> first (w ++ x) = SplitErr ErrTooLong.
Proof.
  intros Hlen Hm. unfold first. rewrite take_app_le, take_ge, Hm by (unfold len in *; lia).
  rewrite len_app. pose proof (len_nonneg x). by destruct (Z.leb_spec maxPktSize (len w + len x)); [|lia].
Qed.

(** ** The scanner *)

(** A scanner on a reader that ends with [EOF] and never returns nothing without
    an error. *)
Record scanner_ok (s : Scanner) : Prop := {
  so_final : final s = EOF;
  so_source : Forall (fun c => c ≠ []) (source s);
  so_start : 0 <= start s;
  so_end : start s + len (window s) <= maxPktSize;
  so_err : err s = None \/ err s = Some EOF /\ source s = [] /\ len (window s) < maxPktSize;
}.

Definition remaining (s : Scanner) : bytes := window s ++ concat (source s).

Definition measure (s : Scanner) : nat :=
  length (concat (source s)) + match err s with None => 1 | Some _ => 0 end.

(** What [Scan] returns according to [first]. *)
Definition scanned (data : bytes) (r : option bytes) (s' : Scanner) : Prop :=
  match first data with
  | SplitErr e => r = None /\ Err s' = Some e
  | More => r = None /\ Err s' = None
  | Token a t => r = Some t /\ scanner_ok s' /\ remaining s' = drop (Z.to_nat a) data
  end.

Lemma readLoop_spec space src :
  0 < space -> Forall (fun c => c ≠ []) src ->
  match src with
  | [] => readLoop 0 space src EOF = ([], Some EOF, [])
  | _ => exists b src', readLoop 0 space src EOF = (b, None, src') /\ b ≠ [] /\ len b <= space /\
      concat src = b ++ concat src' /\ Forall (fun c => c ≠ []) src'
  end.
Proof.
  intros Hs Hall. destruct src as [|c src]; [done|]. apply Forall_cons in Hall as [Hc Hall]. simpl.
  rewrite decide_False by done. do 2 eexists. split; [done|].
  assert (Hsplit : c = take (Z.to_nat space) c ++ drop (Z.to_nat space) c) by (by rewrite take_drop).
  split_and!.
  - destruct c as [|x c]; [done|]. destruct (Z.to_nat space) eqn:?; [lia|done].
  - rewrite len_take by lia. lia.
  - case_decide as Hd; simpl.
    + rewrite <- (app_nil_r (take _ c)), <- Hd, <- Hsplit. done.
    + by rewrite app_assoc, <- Hsplit.
  - case_decide; [done|by constructor].
Qed.

(** The token of a scanner is split off. *)
Lemma token_ok s b a t :
  scanner_ok s -> pktLineSplitter (window s) b = Token a t ->
  let s' := mkScanner (start s + a) (drop (Z.to_nat a) (window s)) (err s) (source s) (final s) in
  scanner_ok s' /\ remaining s' = drop (Z.to_nat a) (remaining s).
Proof.
  intros [Hfin Hsrc Hst Hend Herr] [Ha ->]%splitter_token. split_and!.
  - pose proof (len_drop a (window s) ltac:(lia)) as Hd. split; simpl; try done; [lia|lia|].
    destruct Herr as [?|(? & ? & ?)]; [by left|right]. split_and!; [done..|]. rewrite Hd. lia.
  - unfold remaining. simpl. rewrite drop_app_le by (unfold len in *; lia). done.
Qed.

(** A decision of the splitter is the one of [first]. *)
Lemma decided s b fuel :
  scanner_ok s -> b = bool_decide (err s ≠ None) -> first (remaining s) = pktLineSplitter (window s) b ->
  pktLineSplitter (window s) b ≠ More ->
  exists r s', Scan (S fuel) s = Some (r, s') /\ scanned (remaining s) r s'.
Proof.
  intros Hok Hb Hfirst Hm. cbn [Scan]. rewrite <- Hb. unfold scanned. rewrite Hfirst.
  assert ((if (0 <? len (window s)) || b then pktLineSplitter (window s) b else More) = pktLineSplitter (window s) b) as ->.
  { destruct b; [by rewrite orb_true_r|]. rewrite orb_false_r. destruct (Z.ltb_spec 0 (len (window s))) as [|Hle]; [done|].
    unfold pktLineSplitter. destruct (Z.ltb_spec (len (window s)) 4); [done|lia]. }
  destruct (pktLineSplitter (window s) b) as [|a t|e] eqn:Hs; [done|..].
  - do 2 eexists. split; [done|]. split; [done|]. by eapply token_ok.
  - do 2 eexists. split; [done|]. split; [done|]. apply splitter_err in Hs. unfold Err. simpl.
    destruct (so_err s Hok) as [->|[-> _]]; simpl; by destruct e.
Qed.

(** Room is made in the buffer, unless a packet fills all of it. *)
Lemma shifted s start' :
  scanner_ok s ->
  start' = (if (0 <? start s) && ((start s + len (window s) =? maxPktSize) || (maxPktSize / 2 <? start s)) then 0 else start s) ->
  0 <= start' <= start s /\ (start' + len (window s) = maxPktSize -> start' = 0).
Proof.
  intros [_ _ Hst Hend _] ->.
  destruct (Z.ltb_spec 0 (start s)); simpl; [|lia].
  destruct (Z.eqb_spec (start s + len (window s)) maxPktSize); simpl; [lia|].
  destruct (Z.ltb_spec (maxPktSize / 2) (start s)); simpl; lia.
Qed.

Lemma Scan_spec fuel : forall s,
  scanner_ok s -> (measure s < fuel)%nat ->
  exists r s', Scan fuel s = Some (r, s') /\ scanned (remaining s) r s'.
Proof.
  induction fuel as [|fuel IH]; intros s Hok Hf; [lia|].
  destruct (so_err s Hok) as [Herr|(Herr & Hsrc & Hlt)].
  - destruct (decide (pktLineSplitter (window s) false = More)) as [Hm|Hm].
    2: { apply (decided s false); try done; [by rewrite Herr|]. apply first_prefix; [|done].
      pose proof (so_start s Hok). pose proof (so_end s Hok). lia. }
    cbn [Scan]. rewrite Herr, bool_decide_eq_false_2 by (by intros []). rewrite Hm, orb_false_r.
    replace (if 0 <? len (window s) then More else More) with More by (by destruct (0 <? len (window s))).
    set (start' := if _ && _ then 0 else start s).
    destruct (shifted s start' Hok eq_refl) as [Hst Hfull]. pose proof (so_end s Hok) as Hend.
    destruct (Z.eqb_spec (start' + len (window s)) maxPktSize) as [Heq|Hne].
    { do 2 eexists. split; [done|]. unfold scanned, remaining. rewrite first_full; [done| |done].
      rewrite <- Heq, (Hfull Heq). lia. }
    pose proof (readLoop_spec (maxPktSize - (start' + len (window s))) (source s) ltac:(lia) (so_source s Hok)) as Hread.
    rewrite (so_final s Hok). destruct (source s) as [|c src] eqn:Hsrc.
    + rewrite Hread. destruct (IH (mkScanner start' (window s ++ []) (Some EOF) [] EOF)) as (r & s' & He & Hsc).
      { split; simpl; try done; rewrite ?app_nil_r; [lia|lia|right; split_and!; try done; lia]. }
      { unfold measure in *. rewrite Herr, Hsrc in Hf. simpl in *. lia. }
      exists r, s'. split; [done|]. unfold remaining in *. rewrite Hsrc. simpl in *. by rewrite app_nil_r in Hsc.
    + destruct Hread as (b & src' & -> & Hb & Hlb & Hcat & Hall).
      destruct (IH (mkScanner start' (window s ++ b) None src' EOF)) as (r & s' & He & Hsc).
      { split; simpl; try done; rewrite ?len_app; [lia|lia|by left]. }
      { unfold measure in *. rewrite Herr, Hsrc, Hcat, length_app in Hf. simpl.
        destruct b; [done|]. simpl in Hf. lia. }
      exists r, s'. split; [done|]. unfold remaining in *. rewrite Hsrc, Hcat. simpl in Hsc. by rewrite app_assoc.
  - assert (Hfirst : first (remaining s) = pktLineSplitter (window s) true).
    { unfold remaining. rewrite Hsrc, app_nil_r. by apply first_eof. }
    destruct (decide (pktLineSplitter (window s) true = More)) as [Hm|Hm].
    2: { apply (decided s true); try done. by rewrite Herr. }
    cbn [Scan]. rewrite Herr, bool_decide_eq_true_2 by done. rewrite orb_true_r, Hm.
    do 2 eexists. split; [done|]. unfold scanned. by rewrite Hfirst, Hm.
Qed.

Lemma measure_le s : (measure s <= S (length (remaining s)))%nat.
Proof. unfold measure, remaining. rewrite length_app. case_match; lia. Qed.

Lemma first_token data a t : first data = Token a t -> 4 <= a <= len data /\ t = take (Z.to_nat a) data.
Proof.
  unfold first. destruct (pktLineSplitter (take _ _) false) as [|a' t'|e] eqn:Hs.
  - case_match; [done|]. apply splitter_token.
  - intros [= -> ->]. apply splitter_token in Hs as [Ha ->].
    rewrite len_take in Ha by (rewrite maxPktSize_eq; lia). split; [lia|]. rewrite take_take. f_equal. lia.
  - done.
Qed.

(** ** The packets of a stream *)

(** The packets of [data], read as a whole, and the error the reading ends with. *)
Fixpoint packets (fuel : nat) (data : bytes) : list bytes * option ScanError :=
  match fuel with
  | O => ([], None)
  | S fuel =>
    match first data with
    | More => ([], None)
    | SplitErr e => ([], Some e)
    | Token a t => let (l, e) := packets fuel (drop (Z.to_nat a) data) in (t :: l, e)
    end
  end.

Lemma packets_fuel f1 : forall f2 data,
  (length data < f1)%nat -> (length data < f2)%nat -> packets f1 data = packets f2 data.
Proof.
  induction f1 as [|f1 IH]; intros [|f2] data H1 H2; [lia..|]. simpl.
  destruct (first data) as [|a t|e] eqn:Hf; [done| |done]. apply first_token in Hf as [Ha _].
  rewrite (IH f2); [done|..]; rewrite length_drop; unfold len in Ha; lia.
Qed.

Lemma scanAll_packets fuel : forall s,
  scanner_ok s -> (S (length (remaining s)) < fuel)%nat -> scanAll fuel s = Some (packets fuel (remaining s)).
Proof.
  induction fuel as [|fuel IH]; intros s Hok Hf; [lia|]. cbn [scanAll].
  pose proof (measure_le s) as Hm.
  destruct (Scan_spec (S fuel) s Hok ltac:(lia)) as (r & s' & -> & Hsc). unfold scanned in Hsc. cbn [packets].
  destruct (first (remaining s)) as [|a t|e] eqn:Hfirst.
  - destruct Hsc as [-> ->]. done.
  - destruct Hsc as (-> & Hok' & Hrem). apply first_token in Hfirst as [Ha _].
    rewrite IH; [by rewrite Hrem; destruct (packets _ _)|done|].
    rewrite Hrem, length_drop. unfold len in Ha. lia.
  - destruct Hsc as [-> ->]. done.
Qed.

Lemma NewScanner_ok chunks : Forall (fun c => c ≠ []) chunks -> scanner_ok (NewScanner chunks EOF).
Proof. intros Hall. split; simpl; try done; by left. Qed.

(** C30. The scanner returns with the packets of the stream and its error, for
    every input, well-formed or not, and does not depend on how the reader cuts
    the stream into pieces, as long as it returns at least one byte at a time. *)
Theorem scan_chunking chunks fuel :
  Forall (fun c => c ≠ []) chunks -> (S (length (concat chunks)) < fuel)%nat ->
  scanAll fuel (NewScanner chunks EOF) = Some (packets (S (length (concat chunks))) (concat chunks)).
Proof.
  intros Hall Hf. rewrite scanAll_packets; [|by apply NewScanner_ok|done]. f_equal.
  apply packets_fuel; unfold remaining; simpl; lia.
Qed.

(** ** Writing and reading back *)

Inductive packet : Type :=
| PData (data : bytes)
| PFlush
| PDelim.

Definition encode (p : packet) : bytes :=
  match p with
  | PData data => fmt04x (len data + 4) ++ data
  | PFlush => PktFlush
  | PDelim => pktDelim
  end.

Definition fits (p : packet) : Prop := match p with PData data => len data + 4 <= maxPktSize | _ => True end.

(** A writer that keeps what is written. *)
Definition sink (b : bytes) : M bytes WriteError unit := fun w => (Ok tt, w ++ b).

Definition writePacket (p : packet) : M bytes WriteError unit :=
  match p with
  | PData data => _ ← WriteString sink data; mret tt
  | PFlush => WriteFlush sink
  | PDelim => WriteDelim sink
  end.

Lemma splitter_frame n data :
  4 <= n < 16 ^ 4 -> len data + 4 = n -> pktLineSplitter (fmt04x n ++ data) false = Token n (fmt04x n ++ data).
Proof.
  intros Hn Hlen. destruct (parseInt16_fmt04x n ltac:(lia)) as [Hp Hl4]. unfold pktLineSplitter.
  assert (Hl : len (fmt04x n ++ data) = n) by (rewrite len_app; unfold len at 1; lia).
  rewrite Hl, take_app_le, take_ge, Hp by lia.
  destruct (Z.ltb_spec n 4); [lia|]. destruct (Z.ltb_spec n 0); [lia|]. rewrite Z.ltb_irrefl. f_equal.
  rewrite take_ge; [done|]. unfold len in Hl. lia.
Qed.

Lemma first_frame n data x :
  4 <= n <= maxPktSize -> len data + 4 = n -> first (fmt04x n ++ data ++ x) = Token n (fmt04x n ++ data).
Proof.
  intros Hn Hlen. pose proof maxPktSize_eq. rewrite app_assoc.
  destruct (parseInt16_fmt04x n ltac:(lia)) as [_ Hl4].
  pose proof (splitter_frame n data ltac:(lia) Hlen) as Hs.
  rewrite first_prefix; [done| |by rewrite Hs]. rewrite len_app. unfold len at 1. lia.
Qed.

Lemma first_encode p x : fits p -> first (encode p ++ x) = Token (len (encode p)) (encode p).
Proof.
  intros Hp. destruct p as [data| |]; cbn [encode fits] in *.
  - pose proof maxPktSize_eq. pose proof (len_nonneg data).
    destruct (parseInt16_fmt04x (len data + 4) ltac:(lia)) as [_ Hl4].
    rewrite <- app_assoc, first_frame by lia. f_equal. rewrite len_app. unfold len at 2. lia.
  - rewrite first_prefix; [done|by rewrite maxPktSize_eq|done].
  - rewrite first_prefix; [done|by rewrite maxPktSize_eq|done].
Qed.

Lemma packets_encode ps : forall fuel,
  Forall fits ps -> (length (concat (encode <$> ps)) < fuel)%nat ->
  packets fuel (concat (encode <$> ps)) = (encode <$> ps, None).
Proof.
  induction ps as [|p ps IH]; intros [|fuel] Hall Hf; try lia; [done|].
  apply Forall_cons in Hall as [Hp Hall]. rewrite fmap_cons in *. cbn [concat] in *. rewrite length_app in Hf. cbn [packets].
  pose proof (first_encode p (concat (encode <$> ps)) Hp) as Hfirst. rewrite Hfirst.
  apply first_token in Hfirst as [Ha _]. unfold len in *. rewrite Nat2Z.id, drop_app_length.
  rewrite IH; [done|done|lia].
Qed.

Lemma writePacket_sink p w : fits p -> writePacket p w = (Ok tt, w ++ encode p).
Proof.
  destruct p as [data| |]; simpl; try done. intros Hp. unfold WriteString.
  destruct (Z.ltb_spec maxPktSize (len data + 4)); [lia|]. done.
Qed.

Lemma write_packets ps : forall w,
  Forall fits ps -> for_each ps writePacket w = (Ok tt, w ++ concat (encode <$> ps)).
Proof.
  induction ps as [|p ps IH]; intros w Hall; simpl; [by rewrite app_nil_r|].
  apply Forall_cons in Hall as [Hp Hall]. unfold mbind, M_bind. rewrite writePacket_sink by done.
  by rewrite IH, app_assoc.
Qed.

(** Packets written with [WriteString], [WriteFlush] and [WriteDelim] are read
    back by the scanner, one token each, however the stream is cut; the data of
    a string's token is the string. A string is refused exactly when its packet
    would not fit. *)
Theorem pktline_roundtrip ps :
  Forall fits ps ->
  exists stream, for_each ps writePacket [] = (Ok tt, stream) /\
  (forall chunks fuel, concat chunks = stream -> Forall (fun c => c ≠ []) chunks -> (S (length stream) < fuel)%nat ->
    scanAll fuel (NewScanner chunks EOF) = Some (encode <$> ps, None)) /\
  (forall data, PData data ∈ ps -> Data (E := ScanError) (encode (PData data)) = Ok data) /\
  forall data w, (WriteString sink data w).1 = Prelude.Err (ErrStringTooLarge (len data)) <-> ~ fits (PData data).
Proof.
  intros Hall. exists (concat (encode <$> ps)). split_and!.
  - apply (write_packets ps []). done.
  - intros chunks fuel Heq Hc Hf. rewrite scanAll_packets; [|by apply NewScanner_ok|unfold remaining; simpl; by rewrite Heq].
    f_equal. unfold remaining. simpl. rewrite Heq. apply packets_encode; [done|lia].
  - intros data Hin. pose proof (proj1 (Forall_forall _ _) Hall _ Hin) as Hp. simpl in Hp.
    pose proof maxPktSize_eq. pose proof (len_nonneg data).
    destruct (parseInt16_fmt04x (len data + 4) ltac:(lia)) as [_ Hl4]. unfold Data. simpl.
    rewrite len_app. destruct (Z.ltb_spec (len (fmt04x (len data + 4)) + len data) 4) as [Hlt|].
    + unfold len at 1 in Hlt. lia.
    + by rewrite drop_app_ge, Hl4 by lia.
  - intros data w. unfold WriteString, fits. destruct (Z.ltb_spec maxPktSize (len data + 4)); simpl.
    + split; [lia|done].
    + split; [done|lia].
Qed.

(** ** Side bands *)

(** The pieces [writeBand] cuts the data into. *)
Fixpoint pieces (fuel : nat) (data : bytes) : list bytes :=
  match fuel, data with
  | S fuel, _ :: _ => take (Z.to_nat MaxSidebandData) data :: pieces fuel (drop (Z.to_nat MaxSidebandData) data)
  | _, _ => []
  end.

Definition frame (band : byte) (piece : bytes) : packet := PData (band :: piece).

Lemma encode_frame band piece : encode (frame band piece) = fmt04x (len piece + 5) ++ [band] ++ piece.
Proof. unfold frame. cbn [encode]. f_equal. f_equal. unfold len. cbn [length]. lia. Qed.

Lemma length_frame band piece : fits (frame band piece) -> len (encode (frame band piece)) = len piece + 5.
Proof.
  intros Hfit. unfold fits, frame in Hfit. pose proof maxPktSize_eq. pose proof (len_nonneg piece).
  destruct (parseInt16_fmt04x (len piece + 5)) as [_ Hl4]; [unfold len in *; cbn [length] in *; lia|].
  rewrite encode_frame, !len_app, (f_equal Z.of_nat Hl4 : len _ = 4). unfold len. cbn [length]. lia.
Qed.

Lemma MaxSidebandData_eq : MaxSidebandData = 65515.
Proof. reflexivity. Qed.

#[local] Opaque MaxSidebandData.

Lemma pieces_spec fuel : forall band data,
  (length data <= fuel)%nat -> concat (pieces fuel data) = data /\ Forall fits (frame band <$> pieces fuel data).
Proof.
  pose proof MaxSidebandData_eq as Hmax. induction fuel as [|fuel IH]; intros band data Hf.
  { destruct data; simpl in *; [done|lia]. }
  destruct data as [|b data]; [done|]. cbn [pieces]. rewrite fmap_cons.
  destruct (IH band (drop (Z.to_nat MaxSidebandData) (b :: data))) as [Hcat Hall].
  { rewrite length_drop. simpl in *. lia. }
  split.
  - cbn [concat]. by rewrite Hcat, take_drop.
  - constructor; [|done]. unfold fits, frame.
    pose proof (len_take MaxSidebandData (b :: data) ltac:(lia)) as Hlen. rewrite maxPktSize_eq.
    unfold len in *. cbn [length] in *. lia.
Qed.

Lemma writeBandLoop_sink fuel : forall band data n w,
  (length data <= fuel)%nat ->
  writeBandLoop sink fuel band data n w =
    Some (n + len data, Ok tt, w ++ concat (encode <$> (frame band <$> pieces fuel data))).
Proof.
  pose proof MaxSidebandData_eq as Hmax. pose proof maxPktSize_eq as Hpkt.
  induction fuel as [|fuel IH]; intros band data n w Hf.
  { destruct data; simpl in *; [|lia]. rewrite app_nil_r. unfold len. simpl. by rewrite Z.add_0_r. }
  destruct data as [|b data].
  { simpl. rewrite app_nil_r. unfold len. simpl. by rewrite Z.add_0_r. }
  cbn [writeBandLoop pieces]. rewrite decide_False by done. rewrite !fmap_cons. cbn [concat].
  set (chunk := if maxPktSize - 5 <? len (b :: data) then maxPktSize - 5 else len (b :: data)).
  assert (Hchunk : take (Z.to_nat chunk) (b :: data) = take (Z.to_nat MaxSidebandData) (b :: data) /\
    drop (Z.to_nat chunk) (b :: data) = drop (Z.to_nat MaxSidebandData) (b :: data) /\
    chunk = len (take (Z.to_nat MaxSidebandData) (b :: data)) /\ 0 < chunk).
  { rewrite len_take by lia. unfold chunk.
    destruct (Z.ltb_spec (maxPktSize - 5) (len (b :: data))) as [Hlt|Hle].
    - replace (maxPktSize - 5) with MaxSidebandData by lia. split_and!; [done..|lia|lia].
    - unfold len in *. rewrite !take_ge, !drop_ge by lia. split_and!; [done..|lia|cbn [length]; lia]. }
  destruct Hchunk as (-> & -> & Hlen & Hpos). unfold sink at 1 2. cbv beta iota.
  rewrite IH by (rewrite length_drop; simpl in *; lia). f_equal.
  assert (Hsum : chunk + len (drop (Z.to_nat MaxSidebandData) (b :: data)) = len (b :: data)).
  { rewrite Hlen, <- len_app. by rewrite take_drop. }
  f_equal; [f_equal; lia|]. by rewrite encode_frame, Hlen, <- !app_assoc.
Qed.

Lemma Each_frames {S E : Type} (fn : byte -> bytes -> M S E unit) (g : byte * bytes -> S -> S) l :
  Forall (fun p => fits (frame p.1 p.2)) l ->
  (forall band data st, (band, data) ∈ l -> fn band data st = (Ok tt, g (band, data) st)) -> forall fuel sc st,
  scanner_ok sc -> remaining sc = concat ((fun p => encode (frame p.1 p.2)) <$> l) ->
  (Datatypes.S (length (remaining sc)) < fuel)%nat ->
  EachSidebandPacket fn fuel sc st = Some (Ok tt, foldl (fun st p => g p st) st l).
Proof.
  induction 1 as [|[band data] l Hfit Hall IH]; intros Hfn [|fuel] sc st Hok Hrem Hf; try lia;
    cbn [EachSidebandPacket]; pose proof (measure_le sc) as Hm;
    destruct (Scan_spec (Datatypes.S fuel) sc Hok ltac:(lia)) as (r & sc' & -> & Hsc); unfold scanned in Hsc.
  - rewrite Hrem in Hsc. cbn in Hsc. unfold first in Hsc. rewrite take_nil in Hsc. cbn in Hsc.
    destruct (Z.leb_spec maxPktSize (len [])) as [Hle|]; [rewrite maxPktSize_eq in Hle; by unfold len in Hle|].
    by destruct Hsc as [-> ->].
  - rewrite Hrem, fmap_cons in Hsc. cbn [concat fst snd] in Hsc. rewrite first_encode in Hsc by done.
    destruct Hsc as (-> & Hok' & Hrem'). unfold Data.
    pose proof (length_frame band data Hfit) as Hlen. pose proof (len_nonneg data).
    destruct (Z.ltb_spec (len (encode (frame band data))) 4); [lia|].
    assert (drop 4 (encode (frame band data)) = band :: data) as ->.
    { rewrite encode_frame. unfold len in Hlen. rewrite encode_frame, length_app in Hlen. cbn [length app] in Hlen.
      rewrite drop_app_ge by lia. replace (4 - length _)%nat with 0%nat by lia. done. }
    rewrite Hfn by by left. cbn [foldl]. apply IH; [intros; apply Hfn; by right|done| |].
    + rewrite Hrem'. unfold len. by rewrite Nat2Z.id, drop_app_length.
    + rewrite Hrem in Hf. rewrite Hrem'. cbn [fmap list_fmap concat fst snd] in Hf. rewrite length_app in Hf.
      unfold len in *. rewrite Nat2Z.id, drop_app_length. lia.
Qed.

(** Successive writes to side bands; writing to a band holds the lock until all
    of its data is written. *)
Fixpoint writeBands (l : list (byte * bytes)) (w : bytes) : option bytes :=
  match l with
  | [] => Some w
  | (band, data) :: l =>
    match writeBand sink band data w with
    | Some (_, Ok _, w) => writeBands l w
    | _ => None
    end
  end.

Definition framesOf (p : byte * bytes) : list (byte * bytes) :=
  (fun piece => (p.1, piece)) <$> pieces (length p.2) p.2.

Definition ofBand (band : byte) (l : list (byte * bytes)) : bytes := concat ((filter (fun p => p.1 = band) l).*2).

Definition collect (band : byte) (data : bytes) : M (list (byte * bytes)) unit unit :=
  fun st => (Ok tt, st ++ [(band, data)]).

Lemma writeBands_frames l : forall w,
  writeBands l w = Some (w ++ concat ((fun p => encode (frame p.1 p.2)) <$> (l ≫= framesOf))).
Proof.
  induction l as [|[band data] l IH]; intros w; [simpl; by rewrite app_nil_r|].
  cbn [writeBands]. unfold writeBand. rewrite writeBandLoop_sink by lia. rewrite IH, bind_cons, fmap_app, concat_app, app_assoc.
  do 3 f_equal. unfold framesOf. cbn [fst snd]. by rewrite <- !list_fmap_compose.
Qed.

Lemma framesOf_fit l : Forall (fun p => fits (frame p.1 p.2)) (l ≫= framesOf).
Proof.
  apply Forall_bind, Forall_forall. intros [band data] _. unfold framesOf. cbn [fst snd].
  destruct (pieces_spec (length data) band data) as [_ Hall]; [done|]. rewrite Forall_fmap in Hall. by apply Forall_fmap.
Qed.

Lemma ofBand_frames band l : ofBand band (l ≫= framesOf) = ofBand band l.
Proof.
  induction l as [|[b data] l IH]; [done|]. rewrite bind_cons. unfold ofBand in *.
  rewrite filter_app, fmap_app, concat_app, IH, filter_cons. cbn [fst].
  destruct (pieces_spec (length data) b data) as [Hcat _]; [done|].
  assert (Hf : forall ps, filter (fun p => p.1 = band) ((fun piece : bytes => (b, piece)) <$> ps) =
    if decide (b = band) then (fun piece => (b, piece)) <$> ps else []).
  { induction ps as [|piece ps IHp]; [by case_decide|]. rewrite fmap_cons, filter_cons, IHp. cbn [fst]. by case_decide. }
  unfold framesOf. cbn [fst snd]. rewrite Hf. case_decide; [|done].
  rewrite fmap_cons. cbn [concat snd]. f_equal. rewrite <- list_fmap_compose.
  rewrite (list_fmap_ext _ id), list_fmap_id by done. done.
Qed.

Lemma foldl_collect l : forall st : list (byte * bytes), foldl (fun st p => st ++ [p]) st l = st ++ l.
Proof. induction l as [|p l IH]; intros st; simpl; [by rewrite app_nil_r|]. rewrite IH, <- app_assoc. done. Qed.

(** What is written to the side bands of a stream, in any order and of any
    size, arrives at the reader of the multiplexed stream: it is called with
    packets of at most [MaxSidebandData] bytes whose concatenation, for every
    band, is the data written to that band. *)
Theorem sideband_roundtrip writes :
  exists stream, writeBands writes [] = Some stream /\
  forall chunks fuel, concat chunks = stream -> Forall (fun c => c ≠ []) chunks -> (S (length stream) < fuel)%nat ->
  exists got, EachSidebandPacket collect fuel (NewScanner chunks EOF) [] = Some (Ok tt, got) /\
    (forall band, ofBand band got = ofBand band writes) /\
    Forall (fun p => len p.2 <= MaxSidebandData) got.
Proof.
  eexists. split; [apply writeBands_frames|]. intros chunks fuel Heq Hc Hf. exists (writes ≫= framesOf).
  pose proof (framesOf_fit writes) as Hfit. split_and!.
  - rewrite (Each_frames collect (fun p st => st ++ [p]) (writes ≫= framesOf)); [by rewrite foldl_collect|done|done|..].
    + by apply NewScanner_ok.
    + done.
    + unfold remaining. simpl. by rewrite Heq.
  - intros band. apply ofBand_frames.
  - eapply Forall_impl; [exact Hfit|]. intros [band data] Hp. unfold fits, frame in Hp. cbn [fst snd] in *.
    rewrite MaxSidebandData_eq. rewrite maxPktSize_eq in Hp. unfold len in *. cbn [length] in Hp. lia.
Qed.

(** ** Examples *)

Lemma scan_chunking_witness :
  scanAll 20 (NewScanner [B "00"; B "09hel"; B "lo000"; B "0"] EOF) = Some ([B "0009hello"; B "0000"], None) /\
  scanAll 20 (NewScanner [B "00"; B "09hel"; B "lo000"; B "0"] EOF) =
    Some (packets 14 (concat [B "00"; B "09hel"; B "lo000"; B "0"])).
Proof.
  split; [by vm_compute|].
  apply (scan_chunking [B "00"; B "09hel"; B "lo000"; B "0"] 20); [by repeat constructor|simpl; lia].
Defined.

Lemma pktline_roundtrip_witness :
  exists stream, for_each [PData (B "hello"); PFlush] writePacket [] = (Ok tt, stream) /\
    scanAll 20 (NewScanner [stream] EOF) = Some (encode <$> [PData (B "hello"); PFlush], None).
Proof.
  assert (Hfit : Forall fits [PData (B "hello"); PFlush]) by (repeat constructor; by vm_compute).
  destruct (pktline_roundtrip [PData (B "hello"); PFlush] Hfit) as (stream & Hw & Hs & _).
  assert (stream = B "0009hello0000") as -> by (injection Hw as <-; by vm_compute).
  exists (B "0009hello0000"). split; [exact Hw|].
  apply (Hs [B "0009hello0000"] 20%nat); [done|by repeat constructor|simpl; lia].
Defined.
