(* ===== verification/ErrorTracker.v ===== *)
(** Tracking of read and write errors of the Gitaly nodes
    (src/internal/praefect/nodes/tracker/errors.go).

    A [time.Time] is a number of nanoseconds; the clock is read by the caller of
    the definitions, [now]. A Go map is [None] when it is nil. Each method is the
    [select] on the context followed, in a separate step, by the body under the
    lock, because the context may end in between. *)

From stdpp Require Import sorting.
From S2P Require Import Prelude.

Abbreviation errorMap := (gmap string (list Z)).

Record errorTracker : Type := mkTracker {
  errorWindow : Z;
  readThreshold : Z;
  writeThreshold : Z;
  readErrors : option errorMap;
  writeErrors : option errorMap;
}.

Inductive TrackerError : Type :=
| ErrZeroWindow
| ErrZeroReadThreshold
| ErrZeroWriteThreshold.

(** The thresholds are 32-bit numbers, which an [int] holds. *)
Definition newErrors (window readT writeT : Z) : out TrackerError errorTracker :=
  if window =? 0 then Err ErrZeroWindow
  else if readT =? 0 then Err ErrZeroReadThreshold
  else if writeT =? 0 then Err ErrZeroWriteThreshold
  else Ok (mkTracker window readT writeT (Some ∅) (Some ∅)).

Definition olderThan (e : errorTracker) (now : Z) : Z := now - errorWindow e.

(** The body of [IncrReadErr] and of [IncrWriteErr] on its map; the oldest error
    is dropped when there are more than the threshold. *)
Definition incr (threshold : Z) (node : string) (now : Z) (errs : option errorMap) : out TrackerError (option errorMap) :=
  match errs with
  | None => Panic
  | Some m =>
    let l := default [] (m !! node) ++ [now] in
    Ok (Some (<[node := if threshold <? Z.of_nat (length l) then drop 1 l else l]> m))
  end.

Definition IncrReadErr (node : string) (now : Z) (e : errorTracker) : out TrackerError errorTracker :=
  m ← incr (readThreshold e) node now (readErrors e);
  mret (mkTracker (errorWindow e) (readThreshold e) (writeThreshold e) m (writeErrors e)).

Definition IncrWriteErr (node : string) (now : Z) (e : errorTracker) : out TrackerError errorTracker :=
  m ← incr (writeThreshold e) node now (writeErrors e);
  mret (mkTracker (errorWindow e) (readThreshold e) (writeThreshold e) (readErrors e) m).

(** The loop over the errors of a node from index [i] on; [all] is the slice. *)
Fixpoint thresholdLoop (threshold older : Z) (all : list Z) (i : nat) (l : list Z) : bool :=
  match l with
  | [] => false
  | errTime :: l =>
    if older <? errTime then
      if decide (i = 0%nat) then threshold <=? Z.of_nat (length all)
      else threshold <=? Z.of_nat (length (drop (i - 1) all))
    else thresholdLoop threshold older all (S i) l
  end.

(** A nil map has no entries. *)
Definition errorsOf (errs : option errorMap) (node : string) : list Z := default [] (errs ≫= (.!! node)).

Definition ReadThresholdReached (node : string) (now : Z) (e : errorTracker) : bool :=
  let l := errorsOf (readErrors e) node in thresholdLoop (readThreshold e) (olderThan e now) l 0 l.

Definition WriteThresholdReached (node : string) (now : Z) (e : errorTracker) : bool :=
  let l := errorsOf (writeErrors e) node in thresholdLoop (writeThreshold e) (olderThan e now) l 0 l.

(** The inner loop of [clearErrors]. *)
Fixpoint clearNode (older : Z) (l : list Z) : list Z :=
  match l with
  | [] => []
  | errTime :: rest => if older <? errTime then l else if decide (rest = []) then [] else clearNode older rest
  end.

Definition clearErrors (older : Z) (errs : option errorMap) : option errorMap :=
  (fun m : errorMap => clearNode older <$> m) <$> errs.

Definition clear (now : Z) (e : errorTracker) : errorTracker :=
  mkTracker (errorWindow e) (readThreshold e) (writeThreshold e)
    (clearErrors (olderThan e now) (readErrors e)) (clearErrors (olderThan e now) (writeErrors e)).

(** ** Executions *)

(** The tracker, whether its context is done, and the calls of [IncrReadErr] and
    [IncrWriteErr] that have passed the [select]. *)
Record trackerSystem : Type := mkTS {
  tracker : errorTracker;
  done_ : bool;
  pendingReads : list string;
  pendingWrites : list string;
  clock : Z;
}.

Inductive trackerEvent : Type :=
| StartRead (node : string)
| StartWrite (node : string)
| FinishRead (node : string) (now : Z)
| FinishWrite (node : string) (now : Z)
| Tick (now : Z)
| Cancel
| Shutdown.

(** Removes one occurrence. *)
Fixpoint removeOne (x : string) (l : list string) : option (list string) :=
  match l with
  | [] => None
  | y :: l => if decide (x = y) then Some l else cons y <$> removeOne x l
  end.

(** [None]: the event cannot happen. *)
Definition trackerStep (ev : trackerEvent) (s : trackerSystem) : option (out TrackerError trackerSystem) :=
  let with_tracker now r :=
    e ← r; mret (mkTS e (done_ s) (pendingReads s) (pendingWrites s) now) in
  match ev with
  | StartRead node =>
    if done_ s then Some (Ok s)
    else Some (Ok (mkTS (tracker s) (done_ s) (node :: pendingReads s) (pendingWrites s) (clock s)))
  | StartWrite node =>
    if done_ s then Some (Ok s)
    else Some (Ok (mkTS (tracker s) (done_ s) (pendingReads s) (node :: pendingWrites s) (clock s)))
  | FinishRead node now =>
    if now <? clock s then None
    else match removeOne node (pendingReads s) with
    | None => None
    | Some l => Some (e ← IncrReadErr node now (tracker s); mret (mkTS e (done_ s) l (pendingWrites s) now))
    end
  | FinishWrite node now =>
    if now <? clock s then None
    else match removeOne node (pendingWrites s) with
    | None => None
    | Some l => Some (e ← IncrWriteErr node now (tracker s); mret (mkTS e (done_ s) (pendingReads s) l now))
    end
  | Tick now => if now <? clock s then None else Some (with_tracker now (Ok (clear now (tracker s))))
  | Cancel => Some (Ok (mkTS (tracker s) true (pendingReads s) (pendingWrites s) (clock s)))
  | Shutdown =>
    if done_ s then Some (with_tracker (clock s) (Ok (mkTracker (errorWindow (tracker s)) (readThreshold (tracker s))
      (writeThreshold (tracker s)) None None)))
    else None
  end.

Inductive trackerRun : trackerSystem -> Prop :=
| trun_new window readT writeT e t0 :
    0 < readT < 2 ^ 32 -> 0 < writeT < 2 ^ 32 -> newErrors window readT writeT = Ok e ->
    trackerRun (mkTS e false [] [] t0)
| trun_step ev s s' : trackerRun s -> trackerStep ev s = Some (Ok s') -> trackerRun s'.

(** ** What the thresholds mean *)

Definition recent (older : Z) (l : list Z) : list Z := filter (fun t => older < t) l.

Lemma recent_sorted older l : StronglySorted Z.le l ->
  exists old, l = old ++ recent older l /\ Forall (fun t => t <= older) old.
Proof.
  induction 1 as [|t l Hs IH Hall]; [by exists []|]. unfold recent in *. rewrite filter_cons. case_decide as Ht.
  - exists []. split; [|constructor]. simpl. f_equal. symmetry. apply filter_all. intros x Hx.
    rewrite Forall_forall in Hall. specialize (Hall x Hx). lia.
  - destruct IH as (old & Heq & Hold). exists (t :: old). split; [simpl; by f_equal|]. constructor; [lia|done].
Qed.

Lemma thresholdLoop_old threshold older all old : forall i l,
  Forall (fun t => t <= older) old ->
  thresholdLoop threshold older all i (old ++ l) = thresholdLoop threshold older all (i + length old) l.
Proof.
  induction old as [|t old IH]; intros i l Hall; simpl; [by rewrite Nat.add_0_r|].
  apply Forall_cons in Hall as [Ht Hall]. destruct (Z.ltb_spec older t); [lia|].
  rewrite IH by done. f_equal. lia.
Qed.

(** The errors within the window, and one more if an older one has been kept. *)
Lemma thresholdLoop_sorted threshold older l :
  0 < threshold -> StronglySorted Z.le l ->
  let n := Z.of_nat (length (recent older l)) in
  thresholdLoop threshold older l 0 l = true <->
    threshold <= n \/ 0 < n < Z.of_nat (length l) /\ threshold <= n + 1.
Proof.
  intros Hpos Hs n. destruct (recent_sorted older l Hs) as (old & Heq & Hold).
  rewrite Heq at 2. rewrite thresholdLoop_old by done. simpl.
  assert (Hlen : length l = (length old + length (recent older l))%nat) by (rewrite Heq at 1; apply length_app).
  subst n. destruct (recent older l) as [|t r] eqn:Hr; simpl.
  { split; [done|]. intros [?|[? ?]]; exfalso; lia. }
  assert (older < t) as Ht.
  { assert (t ∈ recent older l) as Hin by (rewrite Hr; by left). by apply list_elem_of_filter in Hin as [? _]. }
  destruct (Z.ltb_spec older t); [|lia]. case_decide as Hi.
  - rewrite Z.leb_le. simpl in *. lia.
  - rewrite Z.leb_le, length_drop. simpl in *. lia.
Qed.

Lemma clearNode_recent older l : StronglySorted Z.le l -> clearNode older l = recent older l.
Proof.
  induction 1 as [|t l Hs IH Hall]; [done|]. simpl. unfold recent in *. rewrite filter_cons.
  destruct (Z.ltb_spec older t).
  - rewrite decide_True by done. f_equal. symmetry. apply filter_all. intros x Hx.
    rewrite Forall_forall in Hall. specialize (Hall x Hx). lia.
  - rewrite (decide_False (P := older < t)) by lia. case_decide; [by subst|done].
Qed.

Lemma recent_idem older l : recent older (recent older l) = recent older l.
Proof. unfold recent. by rewrite list_filter_filter_l. Qed.

(** ** Invariant *)

Definition errors_ok (threshold now : Z) (errs : option errorMap) : Prop :=
  forall m node l, errs = Some m -> m !! node = Some l ->
    StronglySorted Z.le l /\ Forall (fun t => t <= now) l /\ Z.of_nat (length l) <= threshold.

Lemma sorted_snoc l t : StronglySorted Z.le l -> Forall (fun x => x <= t) l -> StronglySorted Z.le (l ++ [t]).
Proof.
  induction 1 as [|x l Hs IH Hall]; intros Hle; simpl; [by repeat constructor|].
  apply Forall_cons in Hle as [Hx Hle]. constructor; [by apply IH|]. apply Forall_app. split; [done|by constructor].
Qed.

Lemma errors_ok_later threshold now now' errs : now <= now' -> errors_ok threshold now errs -> errors_ok threshold now' errs.
Proof.
  intros Hle Hok m node l Hm Hl. destruct (Hok m node l Hm Hl) as (? & Hall & ?). split_and!; try done.
  eapply Forall_impl; [exact Hall|]. simpl. lia.
Qed.

Lemma incr_ok threshold node t now errs errs' :
  0 < threshold -> now <= t -> errors_ok threshold now errs -> incr threshold node t errs = Ok errs' -> errors_ok threshold t errs'.
Proof.
  intros Hpos Hle Hok Hi. apply (errors_ok_later _ now t errs Hle) in Hok. destruct errs as [m|]; [|done].
  injection Hi as <-. intros m' n l [= <-] [[-> <-]|[_ Hl]]%lookup_insert_Some; [|by eapply Hok].
  assert (Hold : StronglySorted Z.le (default [] (m !! n)) /\ Forall (fun x => x <= t) (default [] (m !! n)) /\
    Z.of_nat (length (default [] (m !! n))) <= threshold).
  { destruct (m !! n) as [l|] eqn:Hl; simpl; [by eapply Hok|]. split_and!; [constructor|constructor|simpl; lia]. }
  destruct Hold as (Hs & Hall & Hlen).
  pose proof (sorted_snoc _ t Hs Hall) as Hs'.
  assert (Hall' : Forall (fun x => x <= t) (default [] (m !! n) ++ [t])) by (apply Forall_app; split; [done|by repeat constructor]).
  destruct (Z.ltb_spec threshold (Z.of_nat (length (default [] (m !! n) ++ [t])))) as [Hlt|]; [|done].
  rewrite length_app in *. simpl in *. destruct (default [] (m !! n)) as [|x l]; simpl in *; [lia|].
  apply StronglySorted_inv in Hs' as [Hs' _]. apply Forall_cons in Hall' as [_ Hall'].
  rewrite drop_0. split_and!; try done. rewrite length_app. simpl. lia.
Qed.

Lemma clear_ok threshold now older errs : errors_ok threshold now errs -> errors_ok threshold now (clearErrors older errs).
Proof.
  intros Hok m node l Hm Hl. destruct errs as [m0|]; simpl in Hm; [|done]. simplify_eq.
  rewrite lookup_fmap, fmap_Some in Hl. destruct Hl as (l0 & Hl0 & ->).
  destruct (Hok m0 node l0 eq_refl Hl0) as (Hs & Hall & Hlen). rewrite clearNode_recent by done. unfold recent.
  destruct (recent_sorted older l0 Hs) as (old & Heq & _). split_and!.
  - rewrite Heq in Hs. by apply StronglySorted_app in Hs as (_ & _ & ?).
  - rewrite Heq in Hall. by apply Forall_app in Hall as [_ ?].
  - pose proof (length_filter (fun t => older < t) l0). lia.
Qed.

Record t_inv (s : trackerSystem) : Prop := {
  ti_thresholds : 0 < readThreshold (tracker s) < 2 ^ 32 /\ 0 < writeThreshold (tracker s) < 2 ^ 32;
  ti_reads : errors_ok (readThreshold (tracker s)) (clock s) (readErrors (tracker s));
  ti_writes : errors_ok (writeThreshold (tracker s)) (clock s) (writeErrors (tracker s));
}.

Lemma trackerStep_inv ev s s' : t_inv s -> trackerStep ev s = Some (Ok s') -> t_inv s'.
Proof.
  intros [Ht Hr Hw] Hs. destruct ev as [node|node|node now|node now|now| |]; simpl in Hs.
  - destruct (done_ s); by simplify_eq.
  - destruct (done_ s); by simplify_eq.
  - destruct (Z.ltb_spec now (clock s)); [done|]. destruct (removeOne node (pendingReads s)); [|done].
    unfold IncrReadErr in Hs. destruct (incr _ _ _ _) as [errs| |] eqn:Hi; simpl in Hs; [|done..].
    injection Hs as <-. split; simpl; [done|by eapply incr_ok; [apply Ht| |exact Hr|exact Hi]|by eapply errors_ok_later].
  - destruct (Z.ltb_spec now (clock s)); [done|]. destruct (removeOne node (pendingWrites s)); [|done].
    unfold IncrWriteErr in Hs. destruct (incr _ _ _ _) as [errs| |] eqn:Hi; simpl in Hs; [|done..].
    injection Hs as <-. split; simpl; [done|by eapply errors_ok_later|by eapply incr_ok; [apply Ht| |exact Hw|exact Hi]].
  - destruct (Z.ltb_spec now (clock s)); [done|]. unfold mbind, out_bind, mret, out_ret in Hs. simplify_eq.
    split; simpl; [done|..]; by apply clear_ok, (errors_ok_later _ (clock s)).
  - by simplify_eq.
  - destruct (done_ s); [|done]. unfold mbind, out_bind, mret, out_ret in Hs. by simplify_eq.
Qed.

Lemma trackerRun_inv s : trackerRun s -> t_inv s.
Proof.
  induction 1 as [window readT writeT e t0 Hr Hw Hn|ev s s' _ IH Hs]; [|by eapply trackerStep_inv].
  unfold newErrors in Hn. repeat case_match; simplify_eq.
  split; simpl; [done|..]; intros m node l [= <-]; by rewrite lookup_empty.
Qed.

(** The errors of a kind, their threshold and the test of it. *)
Lemma reached_iff threshold older now errs node :
  0 < threshold -> errors_ok threshold now errs ->
  let l := errorsOf errs node in
  let n := Z.of_nat (length (recent older l)) in
  Z.of_nat (length l) <= threshold /\
  (thresholdLoop threshold older l 0 l = true <-> threshold <= n \/ 0 < n < Z.of_nat (length l) /\ threshold <= n + 1) /\
  let c := errorsOf (clearErrors older errs) node in
  c = recent older l /\ (thresholdLoop threshold older c 0 c = true <-> threshold <= n).
Proof.
  intros Hpos Hok l n.
  assert (Hl : StronglySorted Z.le l /\ Z.of_nat (length l) <= threshold).
  { unfold l, errorsOf. destruct errs as [m|]; simpl; [|split; [constructor|simpl; lia]].
    destruct (m !! node) as [x|] eqn:Hx; simpl; [|split; [constructor|simpl; lia]].
    destruct (Hok m node x eq_refl Hx) as (? & _ & ?). done. }
  destruct Hl as [Hs Hlen]. split; [done|]. split; [by apply thresholdLoop_sorted|].
  assert (Hc : errorsOf (clearErrors older errs) node = recent older l).
  { unfold l, errorsOf in *. destruct errs as [m|]; simpl in *; [|done]. rewrite lookup_fmap.
    destruct (m !! node); simpl in *; [by apply clearNode_recent|done]. }
  split; [done|]. rewrite Hc.
  assert (Hsr : StronglySorted Z.le (recent older l)).
  { destruct (recent_sorted older l Hs) as (old & Heq & _). rewrite Heq in Hs. by apply StronglySorted_app in Hs as (_ & _ & ?). }
  rewrite (thresholdLoop_sorted threshold older _ Hpos Hsr), recent_idem. fold n. lia.
Qed.

(** The errors kept of a node are at most as many as the threshold. The
    threshold counts as reached if that many errors lie within the window, but
    also if one error less does and an older one has not been cleared yet; right
    after clearing, exactly the errors within the window are kept and the test is
    exact. *)
Theorem tracker_thresholds s node now :
  trackerRun s ->
  let e := tracker s in
  let older := olderThan e now in
  let reads := errorsOf (readErrors e) node in
  let writes := errorsOf (writeErrors e) node in
  let n l := Z.of_nat (length (recent older l)) in
  Z.of_nat (length reads) <= readThreshold e /\ Z.of_nat (length writes) <= writeThreshold e /\
  (ReadThresholdReached node now e = true <->
    readThreshold e <= n reads \/ 0 < n reads < Z.of_nat (length reads) /\ readThreshold e <= n reads + 1) /\
  (WriteThresholdReached node now e = true <->
    writeThreshold e <= n writes \/ 0 < n writes < Z.of_nat (length writes) /\ writeThreshold e <= n writes + 1) /\
  errorsOf (readErrors (clear now e)) node = recent older reads /\
  (ReadThresholdReached node now (clear now e) = true <-> readThreshold e <= n reads) /\
  (WriteThresholdReached node now (clear now e) = true <-> writeThreshold e <= n writes).
Proof.
  intros [Ht Hr Hw]%trackerRun_inv. simpl.
  destruct (reached_iff _ (olderThan (tracker s) now) _ _ node (proj1 (proj1 Ht)) Hr) as (? & ? & ? & ?).
  destruct (reached_iff _ (olderThan (tracker s) now) _ _ node (proj1 (proj2 Ht)) Hw) as (? & ? & ? & ?).
  by split_and!.
Qed.

(** ** Examples *)

Fixpoint trackerSteps (evs : list trackerEvent) (s : trackerSystem) : option (out TrackerError trackerSystem) :=
  match evs with
  | [] => Some (Ok s)
  | ev :: evs =>
    match trackerStep ev s with
    | Some (Ok s) => trackerSteps evs s
    | r => r
    end
  end.

Lemma trackerSteps_run evs : forall s s', trackerRun s -> trackerSteps evs s = Some (Ok s') -> trackerRun s'.
Proof.
  induction evs as [|ev evs IH]; simpl; intros s s' Hs He; [by simplify_eq|].
  destruct (trackerStep ev s) as [[s1| |]|] eqn:Hst; try done. eapply IH; [|done]. by eapply trun_step.
Qed.

(** A window of 60 seconds and a threshold of two errors. *)
Definition ex_tracker : trackerSystem := mkTS (mkTracker 60000 2 2 (Some ∅) (Some ∅)) false [] [] 0.
Definition ex_two_errors : list trackerEvent :=
  [StartRead "gitaly-1"; FinishRead "gitaly-1" 1000; StartRead "gitaly-1"; FinishRead "gitaly-1" 60500].
Definition ex_tracked : trackerSystem :=
  match trackerSteps ex_two_errors ex_tracker with Some (Ok s) => s | _ => ex_tracker end.

Lemma ex_tracker_run : trackerRun ex_tracker.
Proof. by apply (trun_new 60000 2 2). Qed.

Lemma ex_tracked_run : trackerRun ex_tracked.
Proof. apply (trackerSteps_run ex_two_errors ex_tracker); [apply ex_tracker_run|by vm_compute]. Qed.

Lemma tracker_thresholds_witness :
  errorsOf (readErrors (clear 61100 (tracker ex_tracked))) "gitaly-1" = [60500].
Proof.
  destruct (tracker_thresholds ex_tracked "gitaly-1" 61100 ex_tracked_run) as (_ & _ & _ & _ & Hc & _).
  rewrite Hc. by vm_compute.
Defined.

(** A threshold of two errors is reported as reached with one error within the
    window and one before it. *)
Theorem threshold_reached_early :
  trackerRun ex_tracked /\
  length (recent (olderThan (tracker ex_tracked) 61100) (errorsOf (readErrors (tracker ex_tracked)) "gitaly-1")) = 1%nat /\
  ReadThresholdReached "gitaly-1" 61100 (tracker ex_tracked) = true.
Proof. split; [apply ex_tracked_run|by vm_compute]. Qed.

(** An error reported while the context ends makes the program panic: the call
    has seen that the context is not done, then the maps are set to nil, then the
    call writes into one. *)
Theorem tracker_panics_on_shutdown :
  trackerRun ex_tracker /\
  trackerSteps [StartRead "gitaly-1"; Cancel; Shutdown; FinishRead "gitaly-1" 5] ex_tracker = Some Panic.
Proof. split; [apply ex_tracker_run|by vm_compute]. Qed.
