(* ===== verification/NodeManager.v ===== *)
(** The node manager (src/internal/praefect/nodes/manager.go), its in-memory
    electors (local_elector.go, disabled_elector.go) and the circuit breaker of
    the health checks (tracker/health_client.go).

    A [*nodeStatus] is an index into the nodes of its virtual storage: the
    elector and the manager share them, and nodes are compared by pointer. The
    answer of a node to a health check is an input. The checks of a round run
    concurrently, each on a node of its own. Metrics and log output are left
    out; the SQL elector is in SqlElector.v. *)

From S2P Require Import Prelude PConfig Router ErrorTracker.

Definition healthcheckThreshold : nat := 3.

Record nodeStatus : Type := mkStatus {
  node : Node;
  clientConn : nat;
  statuses : list bool;
}.

Definition newConnectionStatus (n : Node) (cc : nat) : nodeStatus := mkStatus n cc [].

Definition isHealthy (n : nodeStatus) : bool :=
  if (length (statuses n) <? healthcheckThreshold)%nat then false
  else forallb id (drop (length (statuses n) - healthcheckThreshold) (statuses n)).

Definition updateStatus (status : bool) (n : nodeStatus) : nodeStatus :=
  let l := statuses n ++ [status] in
  mkStatus (node n) (clientConn n) (if (healthcheckThreshold <? length l)%nat then drop 1 l else l).

(** The status of a response, or an error, which comes with no response. *)
Inductive HealthAnswer : Type :=
| SERVING
| NOT_SERVING
| HealthError (what : string).

#[export] Instance HealthAnswer_eq_dec : EqDecision HealthAnswer.
Proof. solve_decision. Defined.

Definition HealthClient_Check (e : errorTracker) (now : Z) (storage : string) (answer : HealthAnswer) : HealthAnswer :=
  if ReadThresholdReached storage now e then HealthError "read error threshold reached"
  else if WriteThresholdReached storage now e then HealthError "write error threshold reached"
  else answer.

(** The outcome of one check of a node. *)
Definition checkOutcome (errTracker : option errorTracker) (now : Z) (answer : HealthAnswer) (n : nodeStatus) : bool :=
  bool_decide (match errTracker with
    | None => answer
    | Some e => HealthClient_Check e now (Node_Storage (node n)) answer
    end = SERVING).

Definition CheckHealth (errTracker : option errorTracker) (now : Z) (answer : HealthAnswer) (n : nodeStatus) : nodeStatus :=
  updateStatus (checkOutcome errTracker now answer n) n.

(** ** Electors *)

Inductive leaderElectionStrategy : Type :=
| localElector (primaryNode : nat)
| disabledElector.

(** A virtual storage of the manager. *)
Record vsState : Type := mkVsState {
  vs_nodes : list nodeStatus;
  strategy : leaderElectionStrategy;
}.

(** The first element of the slice panics if there is none. *)
Definition newLocalElector (ns : list nodeStatus) : out PErr leaderElectionStrategy :=
  if decide (ns = []) then Panic else Ok (localElector 0).

Definition newDisabledElector (ns : list nodeStatus) : out PErr leaderElectionStrategy :=
  if decide (ns = []) then Panic else Ok disabledElector.

Definition checkAll (errTracker : option errorTracker) (now : Z) (answers : nat -> HealthAnswer)
    (ns : list nodeStatus) : list nodeStatus :=
  imap (fun i n => CheckHealth errTracker now (answers i) n) ns.

(** The first healthy node other than [primary]. *)
Fixpoint findHealthy (i primary : nat) (ns : list nodeStatus) : option nat :=
  match ns with
  | [] => None
  | n :: ns => if bool_decide (i ≠ primary) && isHealthy n then Some i else findHealthy (S i) primary ns
  end.

Definition localElector_checkNodes (errTracker : option errorTracker) (now : Z) (answers : nat -> HealthAnswer)
    (primaryNode : nat) (s : vsState) : out PErr unit * vsState :=
  let ns := checkAll errTracker now answers (vs_nodes s) in
  let s := mkVsState ns (strategy s) in
  match ns !! primaryNode with
  | None => (Panic, s)
  | Some primary =>
    if isHealthy primary then (Ok tt, s)
    else match findHealthy 0 primaryNode ns with
    | None => (Err ErrPrimaryNotHealthy, s)
    | Some newPrimary => (Ok tt, mkVsState ns (localElector newPrimary))
    end
  end.

Definition checkNodes (errTracker : option errorTracker) (now : Z) (answers : nat -> HealthAnswer) (s : vsState)
    : out PErr unit * vsState :=
  match strategy s with
  | localElector primaryNode => localElector_checkNodes errTracker now answers primaryNode s
  | disabledElector => (Ok tt, mkVsState (checkAll errTracker now answers (vs_nodes s)) disabledElector)
  end.

(** What the manager's clients see of a node. *)
Definition toNode (n : nodeStatus) : MNode := mkMNode (Node_Storage (node n)) (Some (clientConn n)) (isHealthy n).

(** The secondaries are the nodes other than the primary. *)
Definition shardOf (primary : nat) (s : vsState) : out PErr Shard :=
  match vs_nodes s !! primary with
  | None => Panic
  | Some n =>
    if isHealthy n then Ok (mkShard (toNode n) (toNode <$> delete primary (vs_nodes s)))
    else Err ErrPrimaryNotHealthy
  end.

Definition strategy_GetShard (s : vsState) : out PErr Shard :=
  match strategy s with
  | localElector primaryNode => shardOf primaryNode s
  | disabledElector => shardOf 0 s
  end.

(** ** The manager *)

Abbreviation Mgr := (gmap string vsState).

(** The virtual storages of a configuration without the SQL elector; connections
    are numbered by [dial]. *)
Definition newVirtualStorage (failover : bool) (dial : Node -> nat) (nodes : list Node) : out PErr vsState :=
  let ns := (fun n => newConnectionStatus n (dial n)) <$> nodes in
  st ← (if failover then newLocalElector ns else newDisabledElector ns);
  Ok (mkVsState ns st).

Definition Mgr_GetShard (m : Mgr) (virtualStorageName : string) : out PErr Shard :=
  match m !! virtualStorageName with
  | None => Err (Wrapped "virtual storage" ErrVirtualStorageNotExist)
  | Some s => strategy_GetShard s
  end.

Definition Mgr_GetPrimary (m : Mgr) (virtualStorage : string) : out PErr string :=
  shard ← Mgr_GetShard m virtualStorage;
  Ok (GetStorage (Shard_Primary shard)).

Definition Mgr_Nodes (m : Mgr) (virtualStorage : string) : list MNode :=
  toNode <$> default [] (vs_nodes <$> m !! virtualStorage).

(** [csg] is the consistent storages getter, [intn] the random source. *)
Definition Mgr_GetSyncedNode (csg : string -> string -> out PErr (gset string)) (intn : Z -> Z) (m : Mgr)
    (virtualStorageName repoPath : string) : out PErr MNode :=
  upToDateStorages ← (match csg virtualStorageName repoPath with
    | Ok s => Ok s
    | Err e => if isRepositoryNotFound e then Ok ∅ else Err e
    | Panic => Panic
    end);
  upToDateStorages ← (if decide (upToDateStorages = ∅) then
      shard ← wrapped "get shard" (Mgr_GetShard m virtualStorageName);
      Ok {[GetStorage (Shard_Primary shard)]}
    else Ok upToDateStorages);
  let healthyStorages := filter (fun n => GetStorage n ∈ upToDateStorages)
    (filter (fun n => IsHealthy n = true) (Mgr_Nodes m virtualStorageName)) in
  if decide (healthyStorages = []) then Err (Wrapped "no healthy nodes" ErrPrimaryNotHealthy)
  else let i := intn (Z.of_nat (length healthyStorages)) in
    if i <? 0 then Panic
    else match healthyStorages !! Z.to_nat i with
    | None => Panic
    | Some n => Ok n
    end.

Definition Mgr_HealthyNodes (m : Mgr) : gmap string (list string) :=
  (fun s => GetStorage <$> filter (fun n => IsHealthy n = true) (toNode <$> vs_nodes s)) <$> m.

(** The manager behind the router. *)
Definition mgrRouter (csg : string -> string -> out PErr (gset string)) (intn : Z -> Z) (m : Mgr) : nodeManagerRouter :=
  mkNMR (Mgr_GetShard m) (Mgr_GetSyncedNode csg intn m) csg.

(** ** Health of a node *)

Record check : Type := mkCheck {
  ck_tracker : option errorTracker;
  ck_now : Z;
  ck_answer : HealthAnswer;
}.

(** A check the node passes. *)
Definition passes (storage : string) (c : check) : Prop :=
  ck_answer c = SERVING /\
  forall e, ck_tracker c = Some e ->
    ReadThresholdReached storage (ck_now c) e = false /\ WriteThresholdReached storage (ck_now c) e = false.

Definition checked (checks : list check) (n : nodeStatus) : nodeStatus :=
  foldl (fun n c => CheckHealth (ck_tracker c) (ck_now c) (ck_answer c) n) n checks.

Lemma checkOutcome_passes c n :
  checkOutcome (ck_tracker c) (ck_now c) (ck_answer c) n = true <-> passes (Node_Storage (node n)) c.
Proof.
  unfold checkOutcome, passes, HealthClient_Check. rewrite bool_decide_eq_true.
  destruct (ck_tracker c) as [e|]; [|by split; [|intros []]].
  split.
  - intros Ha. destruct (ReadThresholdReached _ _ e) eqn:Hr; [done|]. destruct (WriteThresholdReached _ _ e) eqn:Hw; [done|].
    split; [done|]. by intros e' [= <-].
  - intros [Ha Ht]. destruct (Ht e eq_refl) as [-> ->]. done.
Qed.

Definition outcome (n : nodeStatus) (c : check) : bool := checkOutcome (ck_tracker c) (ck_now c) (ck_answer c) n.

Lemma checked_statuses nd cc checks :
  let n := checked checks (newConnectionStatus nd cc) in
  node n = nd /\ statuses n = drop (length checks - healthcheckThreshold) (outcome (newConnectionStatus nd cc) <$> checks).
Proof.
  unfold checked. induction checks as [|c checks IH] using rev_ind; [done|]. rewrite foldl_app. simpl.
  set (n := foldl _ _ checks) in *. destruct IH as [Hnode Hst]. unfold CheckHealth, updateStatus. cbn [node statuses].
  split; [done|]. rewrite Hst, fmap_app, (length_app checks).
  assert (Ho : checkOutcome (ck_tracker c) (ck_now c) (ck_answer c) n = outcome (newConnectionStatus nd cc) c).
  { unfold outcome, checkOutcome. cbn [node newConnectionStatus]. by rewrite Hnode. }
  rewrite Ho. cbn [length fmap list_fmap].
  assert (Hl : length (outcome (newConnectionStatus nd cc) <$> checks) = length checks) by apply length_fmap.
  rewrite (drop_app_le (outcome (newConnectionStatus nd cc) <$> checks)) by (rewrite Hl; unfold healthcheckThreshold; lia).
  rewrite length_app, length_drop, Hl. unfold healthcheckThreshold in *. cbn [length].
  destruct (Nat.ltb_spec 3 (length checks - (length checks - 3) + 1)).
  - rewrite drop_app_le by (rewrite length_drop, Hl; lia). rewrite drop_drop. f_equal. f_equal. lia.
  - f_equal. f_equal. lia.
Qed.

(** A node counts as healthy exactly when its last three health checks were
    answered with SERVING, each at a time when neither its read nor its write
    error threshold was reached. *)
Theorem node_healthy_iff nd cc checks :
  isHealthy (checked checks (newConnectionStatus nd cc)) = true <->
  exists before a b c, checks = before ++ [a; b; c] /\ Forall (passes (Node_Storage nd)) [a; b; c].
Proof.
  destruct (checked_statuses nd cc checks) as [_ Hst]. unfold isHealthy. rewrite Hst, length_drop, length_fmap.
  unfold healthcheckThreshold in *. destruct (Nat.ltb_spec (length checks - (length checks - 3)) 3).
  - split; [done|]. intros (before & a & b & c & -> & _). rewrite length_app in *. simpl in *. lia.
  - replace (length checks - (length checks - 3) - 3)%nat with 0%nat by lia. rewrite drop_0.
    assert (exists before a b c, checks = before ++ [a; b; c]) as (before & a & b & c & ->).
    { exists (take (length checks - 3) checks). pose proof (take_drop (length checks - 3) checks) as Htd.
      assert (Hl : length (drop (length checks - 3) checks) = 3%nat) by (rewrite length_drop; lia).
      destruct (drop (length checks - 3) checks) as [|a [|b [|c [|]]]]; simplify_eq/=. by exists a, b, c. }
    rewrite fmap_app, length_app. simpl. replace (length before + 3 - 3)%nat with (length before) by lia.
    rewrite drop_app_ge by (rewrite length_fmap; done). rewrite length_fmap, Nat.sub_diag. simpl.
    rewrite !andb_true_iff. unfold id, outcome.
    rewrite !(checkOutcome_passes _ (newConnectionStatus nd cc)). simpl. split.
    + intros (? & ? & ? & _). exists before, a, b, c. split; [done|]. by rewrite !Forall_cons, Forall_nil.
    + intros (before' & a' & b' & c' & Heq & Hall).
      apply app_inj_2 in Heq as [_ Heq]; [|done]. simplify_eq.
      repeat (apply Forall_cons in Hall as [? Hall]). done.
Qed.

(** ** Elections *)

Definition healthyAt (s : vsState) (i : nat) : Prop := exists n, vs_nodes s !! i = Some n /\ isHealthy n = true.

Lemma findHealthy_spec ns primary : forall i,
  match findHealthy i primary ns with
  | None => forall k n, ns !! k = Some n -> (i + k)%nat ≠ primary -> isHealthy n = false
  | Some j => exists k n, j = (i + k)%nat /\ ns !! k = Some n /\ isHealthy n = true /\ j ≠ primary /\
      forall k' n', (k' < k)%nat -> ns !! k' = Some n' -> (i + k')%nat ≠ primary -> isHealthy n' = false
  end.
Proof.
  induction ns as [|n ns IH]; intros i; simpl; [done|].
  destruct (bool_decide (i ≠ primary) && isHealthy n) eqn:Hb.
  - apply andb_true_iff in Hb as [Hi%bool_decide_eq_true Hn]. exists 0%nat, n. split_and!; try done; intros; lia.
  - assert (Hz : i ≠ primary -> isHealthy n = false).
    { intros Hi. apply andb_false_iff in Hb as [Hb|?]; [|done]. by apply bool_decide_eq_false in Hb. }
    specialize (IH (S i)). destruct (findHealthy (S i) primary ns) as [j|].
    + destruct IH as (k & n' & -> & Hk & Hn' & Hj & Hmin). exists (S k), n'. split_and!; try done; [lia|].
      intros [|k'] m Hlt Hm Hne; simpl in Hm; [simplify_eq; apply Hz; lia|].
      apply (Hmin k' m); [lia|done|lia].
    + intros [|k] m Hm Hne; simpl in Hm; [simplify_eq; apply Hz; lia|]. apply (IH k m Hm). lia.
Qed.

Lemma length_checkAll tr now answers ns : length (checkAll tr now answers ns) = length ns.
Proof. apply length_imap. Qed.

(** The shard of a healthy primary has all nodes. *)
Lemma shardOf_spec p s shard :
  shardOf p s = Ok shard ->
  IsHealthy (Shard_Primary shard) = true /\ healthyAt s p /\
  Shard_Primary shard :: Shard_Secondaries shard ≡ₚ toNode <$> vs_nodes s.
Proof.
  unfold shardOf. destruct (vs_nodes s !! p) as [n|] eqn:Hn; [|done].
  destruct (isHealthy n) eqn:Hh; [|done]. intros [= <-]. simpl. split_and!; [done|by exists n|].
  rewrite <- fmap_cons. apply fmap_Permutation. symmetry. by apply delete_Permutation.
Qed.

Lemma shardOf_healthy q s : healthyAt s q -> exists shard, shardOf q s = Ok shard /\
  IsHealthy (Shard_Primary shard) = true /\ Shard_Primary shard :: Shard_Secondaries shard ≡ₚ toNode <$> vs_nodes s.
Proof.
  intros (m & Hm & Hh).
  assert (Hok : shardOf q s = Ok (mkShard (toNode m) (toNode <$> delete q (vs_nodes s)))).
  { unfold shardOf. by rewrite Hm, Hh. }
  eexists. split; [done|]. by destruct (shardOf_spec _ _ _ Hok) as (? & _ & ?).
Qed.

(** After every round of health checks of a virtual storage with the local
    elector: a healthy primary stays, an unhealthy one is replaced by the first
    other healthy node, and with no healthy node at all the round reports an
    error and the primary stays. The shard is available exactly when some node is
    healthy; its primary is the elected node, and its secondaries are all other
    nodes. *)
Theorem local_election s p tr now answers r s' :
  strategy s = localElector p -> (p < length (vs_nodes s))%nat ->
  checkNodes tr now answers s = (r, s') ->
  exists p', strategy s' = localElector p' /\ (p' < length (vs_nodes s'))%nat /\ length (vs_nodes s') = length (vs_nodes s) /\
    (healthyAt s' p -> p' = p /\ r = Ok tt) /\
    (~ healthyAt s' p -> (exists i, healthyAt s' i) ->
      healthyAt s' p' /\ r = Ok tt /\ forall i, (i < p')%nat -> ~ healthyAt s' i) /\
    ((forall i, ~ healthyAt s' i) -> p' = p /\ r = Err ErrPrimaryNotHealthy /\ strategy_GetShard s' = Err ErrPrimaryNotHealthy) /\
    ((exists i, healthyAt s' i) -> exists shard, strategy_GetShard s' = Ok shard /\
      IsHealthy (Shard_Primary shard) = true /\
      Shard_Primary shard :: Shard_Secondaries shard ≡ₚ toNode <$> vs_nodes s').
Proof.
  intros Hst Hp. unfold checkNodes. rewrite Hst. unfold localElector_checkNodes.
  set (ns := checkAll tr now answers (vs_nodes s)).
  assert (Hlen : length ns = length (vs_nodes s)) by apply length_checkAll.
  destruct (lookup_lt_is_Some_2 ns p) as [n Hn]; [lia|]. rewrite Hn.
  destruct (isHealthy n) eqn:Hh.
  { intros [= <- <-]. assert (Hhp : healthyAt (mkVsState ns (strategy s)) p) by (by exists n).
    exists p. cbn [strategy vs_nodes]. unfold strategy_GetShard. cbn [strategy]. rewrite Hst in *.
    split_and!; try done; [lia|..].
    - intros Hno. by destruct (Hno p).
    - intros _. by apply shardOf_healthy. }
  pose proof (findHealthy_spec ns p 0) as Hf. destruct (findHealthy 0 p ns) as [q|].
  - destruct Hf as (k & m & -> & Hk & Hm & Hne & Hmin). simpl in *. intros [= <- <-].
    assert (Hhq : healthyAt (mkVsState ns (localElector k)) k) by (by exists m).
    exists k. cbn [strategy vs_nodes]. split_and!; try done; [by eapply lookup_lt_Some|..].
    + intros (n' & Hn' & Hh'). simpl in Hn'. congruence.
    + intros _ _. split_and!; try done. intros i Hi (n' & Hn' & Hh'). simpl in Hn'.
      destruct (decide (i = p)) as [->|Hip]; [congruence|]. by rewrite (Hmin i n') in Hh'.
    + intros Hno. by destruct (Hno k).
    + intros _. by apply shardOf_healthy.
  - intros [= <- <-].
    assert (Hno : forall i, ~ healthyAt (mkVsState ns (strategy s)) i).
    { intros i (n' & Hn' & Hh'). simpl in Hn'. destruct (decide (i = p)) as [->|Hip]; [congruence|].
      by rewrite (Hf i n') in Hh'. }
    exists p. cbn [strategy vs_nodes]. unfold strategy_GetShard. cbn [strategy]. rewrite Hst in *.
    split_and!; try done; [lia|..].
    + intros Hh'. by destruct (Hno p).
    + intros _ [i Hi]. by destruct (Hno i).
    + intros _. split_and!; try done. unfold shardOf. simpl. by rewrite Hn, Hh.
    + intros [i Hi]. by destruct (Hno i).
Qed.

(** ** The manager behind the router *)

Definition primaryOf (st : leaderElectionStrategy) : nat := match st with localElector p => p | disabledElector => 0 end.

(** Every virtual storage has nodes and a primary among them. *)
Definition mgr_ok (m : Mgr) : Prop :=
  forall vs s, m !! vs = Some s -> (primaryOf (strategy s) < length (vs_nodes s))%nat.

Lemma strategy_GetShard_primary s : strategy_GetShard s = shardOf (primaryOf (strategy s)) s.
Proof. unfold strategy_GetShard. by destruct (strategy s). Qed.

Lemma Mgr_GetShard_spec m vs shard :
  Mgr_GetShard m vs = Ok shard ->
  IsHealthy (Shard_Primary shard) = true /\ Shard_Primary shard ∈ Mgr_Nodes m vs /\
  Shard_Primary shard :: Shard_Secondaries shard ≡ₚ Mgr_Nodes m vs.
Proof.
  unfold Mgr_GetShard, Mgr_Nodes. destruct (m !! vs) as [s|]; [|done]. rewrite strategy_GetShard_primary.
  intros Hs. destruct (shardOf_spec _ _ _ Hs) as (Hh & _ & Hp). simpl. split_and!; try done.
  rewrite <- Hp. by left.
Qed.

Lemma Mgr_GetShard_total m vs : mgr_ok m -> Mgr_GetShard m vs ≠ Panic.
Proof.
  intros Hok. unfold Mgr_GetShard. destruct (m !! vs) as [s|] eqn:Hs; [|done]. rewrite strategy_GetShard_primary.
  unfold shardOf. destruct (lookup_lt_is_Some_2 _ _ (Hok vs s Hs)) as [n ->]. by destruct (isHealthy n).
Qed.

Section Routes.
Context (csg : string -> string -> out PErr (gset string)) (intn : Z -> Z).
Context (Hcsg : forall vs path, csg vs path ≠ Panic) (Hintn : forall n, 0 < n -> 0 <= intn n < n).

Lemma GetSyncedNode_spec m vs path :
  mgr_ok m ->
  Mgr_GetSyncedNode csg intn m vs path ≠ Panic /\
  forall n, Mgr_GetSyncedNode csg intn m vs path = Ok n ->
    n ∈ Mgr_Nodes m vs /\ IsHealthy n = true /\
    ((exists storages, csg vs path = Ok storages /\ GetStorage n ∈ storages) \/
     exists shard, Mgr_GetShard m vs = Ok shard /\ GetStorage n = GetStorage (Shard_Primary shard)).
Proof using Hcsg Hintn.
  intros Hok. pose proof (Mgr_GetShard_total m vs Hok) as Htotal. unfold Mgr_GetSyncedNode.
  destruct (match csg vs path with Ok s => Ok s | Err e => _ | Panic => Panic end) as [storages|e|] eqn:Hc; simpl; [|done|].
  2: { specialize (Hcsg vs path). destruct (csg vs path) as [|e|]; try done. by destruct (isRepositoryNotFound e). }
  destruct (if decide (storages = ∅) then _ else Ok storages) as [up|e|] eqn:Hu; simpl; [|done|].
  2: { case_decide; [|done]. by destruct (Mgr_GetShard m vs). }
  set (l := filter _ (filter _ (Mgr_Nodes m vs))) in *. destruct (decide (l = [])) as [He|He]; [done|].
  assert (0 < Z.of_nat (length l)) as Hpos by (destruct l; simpl; [done|lia]).
  destruct (Hintn (Z.of_nat (length l)) Hpos) as [H1 H2].
  destruct (Z.ltb_spec (intn (Z.of_nat (length l))) 0); [lia|].
  destruct (lookup_lt_is_Some_2 l (Z.to_nat (intn (Z.of_nat (length l))))) as [n Hn]; [lia|]. rewrite Hn.
  split; [done|]. intros ? [= <-]. apply list_elem_of_lookup_2 in Hn. unfold l in Hn.
  apply list_elem_of_filter in Hn as [Hin [Hh Hnode]%list_elem_of_filter]. split_and!; try done.
  case_decide as Hempty.
  - right. destruct (Mgr_GetShard m vs) as [shard|e|]; simpl in Hu; [|done..]. exists shard. split; [done|].
    injection Hu as <-. by apply elem_of_singleton in Hin.
  - left. injection Hu as <-. destruct (csg vs path) as [s'|e|]; [|by destruct (isRepositoryNotFound e); simplify_eq|done].
    injection Hc as <-. by exists s'.
Qed.

(** With the node manager behind the router, no request panics; an accessor
    goes to a healthy node of the virtual storage, the primary if forced, and
    otherwise one the store considers consistent or, for a repository without
    records, the primary's storage; a mutator's route has a healthy primary and
    reaches every node of the virtual storage exactly once. *)
Theorem manager_routes m vs path :
  mgr_ok m ->
  let r := mgrRouter csg intn m in
  (forall force, RouteRepositoryAccessor r vs path force ≠ Panic) /\
  (forall force n, RouteRepositoryAccessor r vs path force = Ok n ->
    exists x, x ∈ Mgr_Nodes m vs /\ n = toRouterNode x /\ IsHealthy x = true /\
      ((exists storages, force = false /\ csg vs path = Ok storages /\ GetStorage x ∈ storages) \/
       exists shard, Mgr_GetShard m vs = Ok shard /\ GetStorage x = GetStorage (Shard_Primary shard))) /\
  (forall route, RouteRepositoryMutator r vs path = Ok route ->
    exists x, x ∈ Mgr_Nodes m vs /\ Primary route = toRouterNode x /\ IsHealthy x = true /\
      reached route ≡ₚ GetStorage <$> Mgr_Nodes m vs).
Proof using Hcsg Hintn.
  intros Hok r. pose proof (Mgr_GetShard_total m vs Hok) as Htotal.
  destruct (GetSyncedNode_spec m vs path Hok) as [Hsync Hspec]. split_and!.
  - intros [|]; simpl; [by destruct (Mgr_GetShard m vs)|by destruct (Mgr_GetSyncedNode csg intn m vs path)].
  - intros [|] n; simpl.
    + destruct (Mgr_GetShard m vs) as [shard|e|] eqn:Hs; simpl; [|done..]. intros [= <-].
      destruct (Mgr_GetShard_spec m vs shard Hs) as (Hh & Hin & _). exists (Shard_Primary shard).
      split_and!; try done. right. by exists shard.
    + destruct (Mgr_GetSyncedNode csg intn m vs path) as [x|e|] eqn:Hs; simpl; [|done..]. intros [= <-].
      destruct (Hspec x eq_refl) as (Hin & Hh & Hor). exists x. split_and!; try done.
      destruct Hor as [(st & ? & ?)|?]; [left; by exists st|by right].
  - intros route Hr. simpl in Hr. destruct (Mgr_GetShard m vs) as [shard|e|] eqn:Hs;
      [|unfold NM_RouteRepositoryMutator in Hr; simpl in Hr; by rewrite Hs in Hr..].
    destruct (nm_mutator_route_sound r vs path shard route Hr Hs) as (Hprim & cons & _ & Hreach & _).
    destruct (Mgr_GetShard_spec m vs shard Hs) as (Hh & Hin & Hp). exists (Shard_Primary shard).
    split_and!; try done. rewrite Hreach. by apply fmap_Permutation.
Qed.

End Routes.

(** ** Examples *)

Definition ex_conf : list Node := [mkNode "gitaly-1" "tcp://a" ""; mkNode "gitaly-2" "tcp://b" ""].
Definition ex_serving : check := mkCheck None 0 SERVING.

(** The first node is down, the second has passed two checks. *)
Definition ex_vs : vsState :=
  mkVsState [newConnectionStatus (mkNode "gitaly-1" "tcp://a" "") 1;
             checked [ex_serving; ex_serving] (newConnectionStatus (mkNode "gitaly-2" "tcp://b" "") 2)] (localElector 0).
Definition ex_answers (i : nat) : HealthAnswer := if decide (i = 0%nat) then NOT_SERVING else SERVING.

Lemma local_election_witness :
  strategy (checkNodes None 0 ex_answers ex_vs).2 = localElector 1 /\
  exists p', strategy (checkNodes None 0 ex_answers ex_vs).2 = localElector p' /\ (p' < 2)%nat.
Proof.
  split; [by vm_compute|].
  destruct (local_election ex_vs 0 None 0 ex_answers _ _ eq_refl ltac:(simpl; lia) (surjective_pairing _))
    as (p' & Hst & Hlt & _).
  exists p'. split; [exact Hst|exact Hlt].
Defined.

Definition ex_mgr : Mgr := {["default" := (checkNodes None 0 ex_answers ex_vs).2]}.
Definition ex_csg (vs path : string) : out PErr (gset string) := Ok {["gitaly-2"]}.

Lemma manager_routes_witness :
  RouteRepositoryAccessor (mgrRouter ex_csg (fun _ => 0) ex_mgr) "default" "repo" false = Ok (mkRN "gitaly-2" (Some 2%nat)) /\
  RouteRepositoryAccessor (mgrRouter ex_csg (fun _ => 0) ex_mgr) "default" "repo" false ≠ Panic.
Proof.
  split; [by vm_compute|].
  assert (Hok : mgr_ok ex_mgr).
  { intros vs s Hs. unfold ex_mgr in Hs. apply lookup_singleton_Some in Hs as [_ <-]. vm_compute. lia. }
  exact (proj1 (manager_routes ex_csg (fun _ => 0) ltac:(done) ltac:(lia) ex_mgr "default" "repo" Hok) false).
Defined.
