(* ===== verification/StorageCache.v ===== *)
(** The cache of up-to-date storages in front of the repository store
    (src/internal/praefect/datastore/storage_provider.go), with any number of
    concurrent calls, changes in the database and notifications about them.

    The steps of a call are its accesses to shared memory and to the database; a
    callback of the listener is one step. The LRU cache may evict other entries when
    one is added: it is an instance of [LRU]. *)

From S2P Require Import Prelude.

(** ** State *)

Class LRU := {
  lru_add : gmap string (gset string) -> string -> gset string -> gmap string (gset string);
  lru_add_subset : forall m k v, lru_add m k v ⊆ <[k := v]> m;
  lru_add_present : forall m k v, lru_add m k v !! k = Some v;
}.

Record CachingConsistentStoragesGetter : Type := mkGetter {
  caches : gmap string (gmap string (gset string));
  access : bool;
  inflight : gmap string nat;
  closed : gset nat;
  nextChan : nat;
}.

Definition with_caches (f : gmap string (gmap string (gset string)) -> gmap string (gmap string (gset string)))
    (c : CachingConsistentStoragesGetter) : CachingConsistentStoragesGetter :=
  mkGetter (f (caches c)) (access c) (inflight c) (closed c) (nextChan c).

Definition NewCachingConsistentStoragesGetter (virtualStorages : list string) : CachingConsistentStoragesGetter :=
  mkGetter (list_to_map ((fun vs => (vs, ∅)) <$> virtualStorages)) false ∅ ∅ 0.

(** The payload of a notification, as far as it can be decoded. *)
Inductive Notification : Type :=
| Undecodable
| Changes (entries : list (string * list string)).

Definition enableCaching (c : CachingConsistentStoragesGetter) : CachingConsistentStoragesGetter :=
  mkGetter (caches c) true (inflight c) (closed c) (nextChan c).

Definition disableCaching (c : CachingConsistentStoragesGetter) : CachingConsistentStoragesGetter :=
  mkGetter ((fun _ => ∅) <$> caches c) false (inflight c) (closed c) (nextChan c).

Definition removePath (vs : string) (c : CachingConsistentStoragesGetter) (path : string) : CachingConsistentStoragesGetter :=
  with_caches (alter (delete path) vs) c.

(** The callback for notifications. A virtual storage without a cache is logged. *)
Definition handleNotification (n : Notification) (c : CachingConsistentStoragesGetter) : CachingConsistentStoragesGetter :=
  match n with
  | Undecodable => disableCaching c
  | Changes entries =>
    foldl (fun c entry => match caches c !! entry.1 with
                          | None => c
                          | Some _ => foldl (removePath entry.1) c entry.2
                          end) c entries
  end.

Definition Connected : CachingConsistentStoragesGetter -> CachingConsistentStoragesGetter := enableCaching.
Definition Disconnect : CachingConsistentStoragesGetter -> CachingConsistentStoragesGetter := disableCaching.

Definition getKey (c : CachingConsistentStoragesGetter) (vs path : string) : option (gset string) :=
  caches c !! vs ≫= (.!! path).

(** ** One call of [GetConsistentStorages] *)

Inductive Result : Type := Found (storages : gset string) | Failed.

(** Where a call stands; [held] is the channel its deferred function closes. *)
Inductive Position : Type :=
| AtStart
| AtAwait
| Waiting (cond : nat)
| AtRecheck (held : option nat)
| AtQuery (fill : bool) (held : option nat)
| AtAdd (storages : gset string) (held : option nat)
| AtRelease (r : Result) (held : option nat)
| Returned (r : Result).

Inductive Effect : Type :=
| Next (c : CachingConsistentStoragesGetter) (p : Position)
| Blocked
| Panics.

Section Call.
Context `{LRU}.

(** The lock of the syncer is held for one step. *)
Definition await (c : CachingConsistentStoragesGetter) (path : string) : CachingConsistentStoragesGetter * Position :=
  match inflight c !! path with
  | Some cond => (c, Waiting cond)
  | None =>
    (mkGetter (caches c) (access c) (<[path := nextChan c]> (inflight c)) (closed c) (S (nextChan c)),
     AtRecheck (Some (nextChan c)))
  end.

Definition release (c : CachingConsistentStoragesGetter) (path : string) (held : option nat) :
    option CachingConsistentStoragesGetter :=
  match held with
  | None => Some c
  | Some cond =>
    if decide (cond ∈ closed c) then None
    else Some (mkGetter (caches c) (access c) (delete path (inflight c)) ({[cond]} ∪ closed c) (nextChan c))
  end.

(** The next step of a call; [answer] is what the store would answer now. *)
Definition advance (answer : Result) (c : CachingConsistentStoragesGetter) (vs path : string) (p : Position) : Effect :=
  match p with
  | AtStart =>
    if access c then
      match caches c !! vs with
      | None => Next c (AtQuery false None)
      | Some _ =>
        match getKey c vs path with
        | Some storages => Next c (AtRelease (Found storages) None)
        | None => Next c AtAwait
        end
      end
    else Next c (AtQuery false None)
  | AtAwait => let (c', p') := await c path in Next c' p'
  | Waiting cond => if decide (cond ∈ closed c) then Next c (AtRecheck None) else Blocked
  | AtRecheck held =>
    match getKey c vs path with
    | Some storages => Next c (AtRelease (Found storages) held)
    | None => Next c (AtQuery true held)
    end
  | AtQuery fill held =>
    match answer with
    | Found storages => Next c (if fill then AtAdd storages held else AtRelease (Found storages) held)
    | Failed => Next c (AtRelease Failed held)
    end
  | AtAdd storages held =>
    Next (with_caches (alter (fun cache => lru_add cache path storages) vs) c) (AtRelease (Found storages) held)
  | AtRelease r held =>
    match release c path held with
    | Some c' => Next c' (Returned r)
    | None => Panics
    end
  | Returned r => Blocked
  end.

End Call.

(** ** All calls together *)

Record Call : Type := mkCall {
  c_vs : string;
  c_path : string;
  c_at : Position;
}.

Record World : Type := mkWorld {
  getter : CachingConsistentStoragesGetter;
  calls : gmap nat Call;
  store : gmap (string * string) (gset string);
  pending : list Notification;
  listening : bool;
}.

Inductive Event : Type :=
| EvCall (i : nat) (vs path : string)
| EvAdvance (i : nat)
| EvFail (i : nat)
| EvChange (vs path : string) (v : option (gset string))
| EvGarbled
| EvNotify
| EvConnect
| EvDisconnect.

Section World.
Context `{LRU}.

Definition setCall (i : nat) (p : Position) (call : Call) (w : World) (c : CachingConsistentStoragesGetter) : World :=
  mkWorld c (<[i := mkCall (c_vs call) (c_path call) p]> (calls w)) (store w) (pending w) (listening w).

Definition answerOf (w : World) (call : Call) : Result :=
  match store w !! (c_vs call, c_path call) with Some v => Found v | None => Failed end.

(** A query may fail for any reason; a change of the storages of a repository is
    notified while the listener is connected. *)
Inductive step : World -> Event -> World -> Prop :=
| s_call w i vs path : calls w !! i = None ->
    step w (EvCall i vs path) (setCall i AtStart (mkCall vs path AtStart) w (getter w))
| s_advance w i call c p : calls w !! i = Some call ->
    advance (answerOf w call) (getter w) (c_vs call) (c_path call) (c_at call) = Next c p ->
    step w (EvAdvance i) (setCall i p call w c)
| s_fail w i call fill held : calls w !! i = Some call -> c_at call = AtQuery fill held ->
    step w (EvFail i) (setCall i (AtRelease Failed held) call w (getter w))
| s_change w vs path v :
    step w (EvChange vs path v)
      (mkWorld (getter w) (calls w) (partial_alter (fun _ => v) (vs, path) (store w))
         (if listening w then pending w ++ [Changes [(vs, [path])]] else pending w) (listening w))
| s_garbled w : listening w = true ->
    step w EvGarbled (mkWorld (getter w) (calls w) (store w) (pending w ++ [Undecodable]) true)
| s_notify w n rest : pending w = n :: rest ->
    step w EvNotify (mkWorld (handleNotification n (getter w)) (calls w) (store w) rest (listening w))
| s_connect w : listening w = false ->
    step w EvConnect (mkWorld (Connected (getter w)) (calls w) (store w) (pending w) true)
| s_disconnect w :
    step w EvDisconnect (mkWorld (Disconnect (getter w)) (calls w) (store w) [] false).

Inductive steps : World -> list Event -> World -> Prop :=
| ss_none w : steps w [] w
| ss_next w es w' e w'' : steps w es w' -> step w' e w'' -> steps w (es ++ [e]) w''.

End World.

Definition initial (virtualStorages : list string) (db : gmap (string * string) (gset string)) : World :=
  mkWorld (NewCachingConsistentStoragesGetter virtualStorages) ∅ db [] false.

(** ** Properties *)

Section Properties.
Context `{LRU}.

(** *** The syncer *)

(** The channel a call is going to close. *)
Definition holds (p : Position) : option nat :=
  match p with
  | AtRecheck held | AtQuery _ held | AtAdd _ held | AtRelease _ held => held
  | _ => None
  end.

Record sync_inv (w : World) : Prop := {
  sy_inflight : forall path cond, inflight (getter w) !! path = Some cond ->
    (cond < nextChan (getter w))%nat /\ cond ∉ closed (getter w) /\
    exists i call, calls w !! i = Some call /\ c_path call = path /\ holds (c_at call) = Some cond;
  sy_holds : forall i call cond, calls w !! i = Some call -> holds (c_at call) = Some cond ->
    inflight (getter w) !! c_path call = Some cond;
  sy_unique : forall i j ci cj cond, calls w !! i = Some ci -> calls w !! j = Some cj ->
    holds (c_at ci) = Some cond -> holds (c_at cj) = Some cond -> i = j;
  sy_waiting : forall i call cond, calls w !! i = Some call -> c_at call = Waiting cond ->
    cond ∈ closed (getter w) \/ inflight (getter w) !! c_path call = Some cond;
  sy_closed : forall cond, cond ∈ closed (getter w) -> (cond < nextChan (getter w))%nat;
}.

Definition same_sync (c c' : CachingConsistentStoragesGetter) : Prop :=
  inflight c' = inflight c /\ closed c' = closed c /\ nextChan c' = nextChan c.

Lemma removePath_sync vs c paths : same_sync c (foldl (removePath vs) c paths).
Proof.
  revert c. induction paths as [|p ps IH]; intros c; cbn [foldl]; [done|]. by destruct (IH (removePath vs c p)) as (? & ? & ?).
Qed.

Lemma handleNotification_sync n c : same_sync c (handleNotification n c).
Proof.
  destruct n as [|entries]; cbn [handleNotification]; [done|]. revert c. induction entries as [|e es IH]; intros c; cbn [foldl]; [done|].
  destruct (caches c !! e.1).
  - destruct (removePath_sync e.1 c e.2) as (H1 & H2 & H3). destruct (IH (foldl (removePath e.1) c e.2)) as (? & ? & ?).
    unfold same_sync. split_and!; congruence.
  - apply IH.
Qed.

(** Steps that leave the syncer and the calls alone. *)
Lemma sync_inv_same w w' :
  sync_inv w -> same_sync (getter w) (getter w') -> calls w' = calls w -> sync_inv w'.
Proof.
  intros [] (H1 & H2 & H3) Hc. constructor; rewrite ?H1, ?H2, ?H3, ?Hc; done.
Qed.

(** A call moves on without touching the syncer. *)
Lemma sync_inv_move w i call p c :
  sync_inv w -> calls w !! i = Some call -> same_sync (getter w) c -> holds p = holds (c_at call) ->
  (forall cond, p = Waiting cond -> cond ∈ closed c \/ inflight c !! c_path call = Some cond) ->
  sync_inv (setCall i p call w c).
Proof.
  intros [Hin Hho Hun Hwa Hcl] Hi (H1 & H2 & H3) Hp Hw.
  assert (Hlook : forall j cj, calls (setCall i p call w c) !! j = Some cj ->
    exists cj', calls w !! j = Some cj' /\ c_path cj = c_path cj' /\ holds (c_at cj) = holds (c_at cj') /\
      (c_at cj = c_at cj' \/ (j = i /\ c_at cj = p /\ c_path cj = c_path call))).
  { intros j cj Hj. cbn in Hj. apply lookup_insert_Some in Hj as [[<- <-]|[Hne Hj]]; [exists call|exists cj]; cbn; split_and!; auto. }
  constructor; cbn [getter setCall]; rewrite ?H1, ?H2, ?H3.
  - intros path cond Hpc. destruct (Hin path cond Hpc) as (Hlt & Hnc & j & cj & Hj & Hpath & Hh).
    split_and!; [done|done|]. cbn [calls]. destruct (decide (j = i)) as [->|Hne].
    + exists i, (mkCall (c_vs call) (c_path call) p). split; [apply lookup_insert_eq|]. cbn. simplify_eq. by rewrite Hp.
    + exists j, cj. split; [|done]. cbn. by rewrite lookup_insert_ne.
  - intros j cj cond Hj Hh. destruct (Hlook j cj Hj) as (cj' & Hj' & -> & Heq & _). rewrite Heq in Hh. by eapply Hho.
  - intros j k cj ck cond Hj Hk Hhj Hhk. destruct (Hlook j cj Hj) as (cj' & Hj' & _ & Heq & _).
    destruct (Hlook k ck Hk) as (ck' & Hk' & _ & Heq' & _). rewrite Heq in Hhj. rewrite Heq' in Hhk. by eapply Hun.
  - intros j cj cond Hj Hwait. destruct (Hlook j cj Hj) as (cj' & Hj' & Hpath & _ & [Heq|(-> & Heq & Hp')]).
    + rewrite Hpath. eapply Hwa; [done|congruence].
    + rewrite Hp'. rewrite <- H1, <- H2. apply Hw. congruence.
  - done.
Qed.

Lemma sync_inv_new w i vs path :
  sync_inv w -> calls w !! i = None -> sync_inv (setCall i AtStart (mkCall vs path AtStart) w (getter w)).
Proof.
  intros [Hin Hho Hun Hwa Hcl] Hi.
  assert (Hlook : forall j cj, calls (setCall i AtStart (mkCall vs path AtStart) w (getter w)) !! j = Some cj ->
    (j = i /\ c_at cj = AtStart) \/ calls w !! j = Some cj).
  { intros j cj Hj. cbn in Hj. apply lookup_insert_Some in Hj as [[<- <-]|[_ Hj]]; auto. }
  constructor; cbn [getter setCall]; [|intros j cj cond Hj|intros j k cj ck cond Hj Hk|intros j cj cond Hj|done].
  - intros p cond Hp. destruct (Hin p cond Hp) as (? & ? & j & cj & Hj & ? & ?). split_and!; [done|done|].
    exists j, cj. split; [|done]. cbn. rewrite lookup_insert_ne; [done|congruence].
  - destruct (Hlook j cj Hj) as [[_ ->]|Hj']; [done|by apply (Hho j)].
  - destruct (Hlook j cj Hj) as [[_ ->]|Hj']; [done|]. destruct (Hlook k ck Hk) as [[_ ->]|Hk']; [done|]. by eapply Hun.
  - destruct (Hlook j cj Hj) as [[_ ->]|Hj']; [done|by apply (Hwa j)].
Qed.

(** A call takes the key. *)
Lemma sync_inv_acquire w i call :
  sync_inv w -> calls w !! i = Some call -> c_at call = AtAwait -> inflight (getter w) !! c_path call = None ->
  sync_inv (setCall i (await (getter w) (c_path call)).2 call w (await (getter w) (c_path call)).1).
Proof.
  intros [Hin Hho Hun Hwa Hcl] Hi Hat Hnone. unfold await. rewrite Hnone. cbn [fst snd]. set (n := nextChan (getter w)).
  assert (Hfresh : forall j cj cond, calls w !! j = Some cj -> holds (c_at cj) = Some cond -> cond ≠ n).
  { intros j cj cond Hj Hh ->. specialize (Hho j cj n Hj Hh). destruct (Hin _ _ Hho) as [Hlt _]. unfold n in Hlt. lia. }
  constructor; cbn [getter setCall inflight closed nextChan calls].
  - intros p cond Hp. apply lookup_insert_Some in Hp as [[<- <-]|[Hne Hp]].
    + split_and!; [unfold n; lia|intros Hc%Hcl; unfold n in Hc; lia|].
      exists i, (mkCall (c_vs call) (c_path call) (AtRecheck (Some n))). by rewrite lookup_insert_eq.
    + destruct (Hin p cond Hp) as (? & ? & j & cj & Hj & ? & ?). split_and!; [unfold n; lia|done|].
      exists j, cj. split; [|done]. rewrite lookup_insert_ne; [done|]. intros ->. simplify_eq.
  - intros j cj cond Hj Hh. apply lookup_insert_Some in Hj as [[<- <-]|[Hne Hj]].
    + cbn in Hh. simplify_eq. cbn. by rewrite lookup_insert_eq.
    + specialize (Hho j cj cond Hj Hh). rewrite lookup_insert_ne; [done|]. intros Heq. congruence.
  - intros j k cj ck cond Hj Hk Hhj Hhk.
    apply lookup_insert_Some in Hj as [[<- <-]|[Hne Hj]]; apply lookup_insert_Some in Hk as [[<- <-]|[Hne' Hk]];
      cbn in *; simplify_eq; try done.
    + exfalso. by eapply Hfresh.
    + exfalso. by eapply Hfresh.
    + by eapply Hun.
  - intros j cj cond Hj Hw. apply lookup_insert_Some in Hj as [[<- <-]|[Hne Hj]]; [done|].
    destruct (Hwa j cj cond Hj Hw) as [?|Hc]; [by left|right]. rewrite lookup_insert_ne; [done|congruence].
  - intros cond Hc%Hcl. unfold n. lia.
Qed.

(** A call releases its key. *)
Lemma sync_inv_release w i call r cond c :
  sync_inv w -> calls w !! i = Some call -> c_at call = AtRelease r (Some cond) ->
  release (getter w) (c_path call) (Some cond) = Some c -> sync_inv (setCall i (Returned r) call w c).
Proof.
  intros [Hin Hho Hun Hwa Hcl] Hi Hat Hrel. cbn [release] in Hrel. case_decide as Hc; [done|]. simplify_eq.
  assert (Hheld : inflight (getter w) !! c_path call = Some cond) by (eapply Hho; [done|by rewrite Hat]).
  assert (Hother : forall j cj cond', j ≠ i -> calls w !! j = Some cj -> holds (c_at cj) = Some cond' ->
    cond' ≠ cond /\ c_path cj ≠ c_path call).
  { intros j cj cond' Hj Hcj Hh. split.
    - intros ->. apply Hj. eapply Hun; [exact Hcj|exact Hi|done|by rewrite Hat].
    - intros Heq. specialize (Hho j cj cond' Hcj Hh). rewrite Heq in Hho. simplify_eq. apply Hj.
      eapply Hun; [exact Hcj|exact Hi|done|by rewrite Hat]. }
  constructor; cbn [getter setCall inflight closed nextChan calls].
  - intros p cond' Hp. apply lookup_delete_Some in Hp as [Hne Hp].
    destruct (Hin p cond' Hp) as (? & ? & j & cj & Hj & Hpath & Hh). split_and!; [done| |].
    + apply not_elem_of_union. split; [|done]. apply not_elem_of_singleton. intros ->.
      assert (j = i) as ->. { eapply Hun; [exact Hj|exact Hi|done|by rewrite Hat]. } congruence.
    + exists j, cj. split; [|done]. rewrite lookup_insert_ne; [done|]. intros ->. simplify_eq.
  - intros j cj cond' Hj Hh. apply lookup_insert_Some in Hj as [[<- <-]|[Hne Hj]]; [done|].
    destruct (Hother j cj cond') as [_ Hpath]; [done|done|done|]. rewrite lookup_delete_ne by congruence. by apply (Hho j).
  - intros j k cj ck cond' Hj Hk Hhj Hhk.
    apply lookup_insert_Some in Hj as [[<- <-]|[Hne Hj]]; [done|]. apply lookup_insert_Some in Hk as [[<- <-]|[Hne' Hk]]; [done|].
    by eapply Hun.
  - intros j cj cond' Hj Hw. apply lookup_insert_Some in Hj as [[<- <-]|[Hne Hj]]; [done|].
    destruct (Hwa j cj cond' Hj Hw) as [?|Hinf]; [left; set_solver|].
    destruct (decide (c_path cj = c_path call)) as [Heq|Hneq].
    + rewrite Heq in Hinf. simplify_eq. left. set_solver.
    + right. by rewrite lookup_delete_ne.
  - intros cond' [->%elem_of_singleton|?]%elem_of_union; [|by apply Hcl]. by apply Hin in Hheld as [? _].
Qed.

Lemma step_sync w e w' : step w e w' -> sync_inv w -> sync_inv w'.
Proof.
  intros Hstep Hinv. destruct Hstep as [w i vs path Hi|w i call c p Hi Hadv|w i call fill held Hi Hat|w vs path v|w Hl|w n rest Hp|w Hl|w].
  - by apply sync_inv_new.
  - destruct call as [vs path pos]. cbn [c_vs c_path c_at] in Hadv. set (call := mkCall vs path pos) in *.
    assert (Hmove : same_sync (getter w) c -> holds p = holds pos -> (forall cond, p ≠ Waiting cond) ->
      sync_inv (setCall i p call w c)).
    { intros Hs Hh Hw. apply sync_inv_move; try done. intros cond ->. by destruct (Hw cond). }
    destruct pos as [| |cond|held|fill held|storages held|r held|r]; cbn [advance] in Hadv.
    + repeat (case_match; try done); simplify_eq; by apply Hmove.
    + destruct (await (getter w) path) as [c' p'] eqn:Haw. simplify_eq. destruct (inflight (getter w) !! path) as [cond|] eqn:Hinf.
      * unfold await in Haw. rewrite Hinf in Haw. simplify_eq. apply sync_inv_move; try done. intros cond' [= ->]. by right.
      * pose proof (sync_inv_acquire w i call Hinv Hi eq_refl Hinf) as Hacq. cbn [c_path call] in Hacq. by rewrite Haw in Hacq.
    + case_decide; simplify_eq. by apply Hmove.
    + case_match; simplify_eq; by apply Hmove.
    + case_match; simplify_eq; [|by apply Hmove]. by case_match; apply Hmove.
    + simplify_eq. by apply Hmove.
    + destruct (release (getter w) path held) as [c'|] eqn:Hrel; simplify_eq. destruct held as [cond|].
      * by eapply sync_inv_release.
      * cbn [release] in Hrel. simplify_eq. by apply Hmove.
    + done.
  - eapply sync_inv_move; try done. by rewrite Hat.
  - by apply (sync_inv_same w).
  - by apply (sync_inv_same w).
  - apply (sync_inv_same w); [done| |done]. apply handleNotification_sync.
  - by apply (sync_inv_same w).
  - by apply (sync_inv_same w).
Qed.

Lemma steps_sync w es w' : steps w es w' -> sync_inv w -> sync_inv w'.
Proof. induction 1 as [|w es w' e w'' _ IH Hs]; [done|]. intros Hi. eapply step_sync; [exact Hs|auto]. Qed.

Lemma initial_sync vss db : sync_inv (initial vss db).
Proof. constructor; cbn; intros; rewrite ?lookup_empty in *; set_solver. Qed.

(** An upper bound of the steps a call still takes. *)
Definition remaining (p : Position) : nat :=
  match p with
  | AtStart => 7
  | AtAwait => 6
  | Waiting _ => 5
  | AtRecheck _ => 4
  | AtQuery _ _ => 3
  | AtAdd _ _ => 2
  | AtRelease _ _ => 1
  | Returned _ => 0
  end.

Lemma advance_remaining answer c vs path p c' p' :
  advance answer c vs path p = Next c' p' -> (remaining p' < remaining p)%nat.
Proof.
  destruct p; cbn [advance]; unfold await; intros Ha; repeat (case_match; try done); simplify_eq/=; lia.
Qed.

(** A call that holds a key can go on. *)
Lemma holder_moves w i call cond :
  sync_inv w -> calls w !! i = Some call -> holds (c_at call) = Some cond ->
  exists c p, advance (answerOf w call) (getter w) (c_vs call) (c_path call) (c_at call) = Next c p.
Proof.
  intros [Hin Hho _ _ _] Hi Hh. specialize (Hho i call cond Hi Hh). apply Hin in Hho as (_ & Hnc & _).
  destruct (c_at call) as [| | |held|fill held|storages held|r held|r]; cbn [holds advance release] in *; try done.
  - case_match; eauto.
  - destruct (answerOf w call); eauto.
  - eauto.
  - subst held. cbn [release]. rewrite decide_False by done. eauto.
Qed.

(** However calls, changes, notifications and lost connections interleave, no
    call of the cached getter panics, and every step of a call brings it closer to
    its return, at most seven steps away. A call only stands still while it waits
    for another one that populates the cache for the same path, and that one can
    always go on: the calls never block each other forever. *)
Theorem getter_progress vss db es w i call :
  steps (initial vss db) es w -> calls w !! i = Some call ->
  match advance (answerOf w call) (getter w) (c_vs call) (c_path call) (c_at call) with
  | Next _ p => (remaining p < remaining (c_at call) <= 7)%nat
  | Blocked => (exists r, c_at call = Returned r) \/
      exists cond j cj, c_at call = Waiting cond /\ j ≠ i /\ calls w !! j = Some cj /\ c_path cj = c_path call /\
        exists c p, advance (answerOf w cj) (getter w) (c_vs cj) (c_path cj) (c_at cj) = Next c p
  | Panics => False
  end.
Proof.
  intros Hrun Hi. pose proof (steps_sync _ _ _ Hrun (initial_sync vss db)) as Hinv.
  destruct (advance _ _ _ _ _) as [c p| |] eqn:Ha.
  - apply advance_remaining in Ha. split; [done|]. destruct (c_at call); simpl; lia.
  - destruct (c_at call) as [| |cond|held|fill held|storages held|r held|r] eqn:Hat; cbn [advance] in Ha; unfold await in Ha;
      try (by repeat (case_match; try done)); [|by left; eauto].
    case_decide as Hc0; [done|]. right.
    destruct (sy_waiting w Hinv i call cond Hi Hat) as [Hc|Hinf]; [done|].
    destruct (sy_inflight w Hinv _ _ Hinf) as (_ & _ & j & cj & Hj & Hpath & Hh).
    exists cond, j, cj. split_and!; [done| |done|done|by eapply holder_moves]. intros ->. simplify_eq. by rewrite Hat in Hh.
  - destruct (c_at call) as [| |cond|held|fill held|storages held|r held|r] eqn:Hat; cbn [advance] in Ha; unfold await in Ha;
      try (by repeat (case_match; try done)).
    destruct held as [cond|]; [|done]. cbn [release] in *. case_decide as Hc; [|done].
    assert (Hinf : inflight (getter w) !! c_path call = Some cond) by (eapply (sy_holds w Hinv); [done|by rewrite Hat]).
    by destruct (sy_inflight w Hinv _ _ Hinf) as (_ & ? & _).
Qed.

(** *** Coherence *)

Definition covers (n : Notification) (vs path : string) : Prop :=
  match n with
  | Undecodable => True
  | Changes entries => exists e, e ∈ entries /\ e.1 = vs /\ path ∈ e.2
  end.

Lemma getKey_remove vs0 c p vs path v :
  getKey (removePath vs0 c p) vs path = Some v <-> getKey c vs path = Some v /\ ~ (vs = vs0 /\ path = p).
Proof.
  unfold getKey, removePath, with_caches. cbn [caches]. destruct (decide (vs = vs0)) as [->|Hne].
  - rewrite lookup_alter_eq. destruct (caches c !! vs0) as [m|]; cbn; [|naive_solver].
    destruct (decide (path = p)) as [->|Hp]; [rewrite lookup_delete_eq|rewrite lookup_delete_ne by done]; naive_solver.
  - rewrite lookup_alter_ne by done. naive_solver.
Qed.

Lemma getKey_removes vs0 paths : forall c vs path v,
  getKey (foldl (removePath vs0) c paths) vs path = Some v <-> getKey c vs path = Some v /\ ~ (vs = vs0 /\ path ∈ paths).
Proof.
  induction paths as [|p ps IH]; intros c vs path v; cbn [foldl].
  - split; [intros ?; split; [done|by intros [_ ?%elem_of_nil]]|tauto].
  - rewrite IH, getKey_remove, elem_of_cons. tauto.
Qed.

Lemma getKey_notified n c vs path v :
  getKey (handleNotification n c) vs path = Some v -> getKey c vs path = Some v /\ ~ covers n vs path.
Proof.
  destruct n as [|entries]; cbn [handleNotification covers].
  - unfold getKey, disableCaching. cbn [caches]. rewrite lookup_fmap. destruct (caches c !! vs); cbn; [|done]. by rewrite lookup_empty.
  - revert c. induction entries as [|e es IH]; intros c; cbn [foldl].
    + intros Hk. split; [done|]. by intros (? & ?%elem_of_nil & _).
    + intros Hk. apply IH in Hk as [Hk Hnot]. destruct (caches c !! e.1) eqn:He.
      * apply getKey_removes in Hk as [Hk Hne]. split; [done|]. intros (x & [->|Hx]%elem_of_cons & <- & Hp); [by apply Hne|].
        apply Hnot. eauto.
      * split; [done|]. intros (x & [->|Hx]%elem_of_cons & <- & Hp).
        -- unfold getKey in Hk. by rewrite He in Hk.
        -- apply Hnot. eauto.
Qed.

(** The entries of the cache are those of the store, unless a notification is on its
    way. *)
Definition coherent (w : World) : Prop :=
  forall vs path v, getKey (getter w) vs path = Some v ->
    store w !! (vs, path) = Some v \/ exists n, n ∈ pending w /\ covers n vs path.

(** No change of a repository falls between the query and the population of a call
    for it, and the connection is not lost. *)
Definition calm (w : World) (e : Event) : Prop :=
  match e with
  | EvDisconnect => False
  | EvChange vs path _ => forall i call storages held, calls w !! i = Some call -> c_vs call = vs -> c_path call = path ->
      c_at call ≠ AtAdd storages held
  | _ => True
  end.

Inductive calmSteps : World -> list Event -> World -> Prop :=
| cs_none w : calmSteps w [] w
| cs_next w es w' e w'' : calmSteps w es w' -> calm w' e -> step w' e w'' -> calmSteps w (es ++ [e]) w''.

Record cache_inv (w : World) : Prop := {
  ci_listening : listening w = true;
  ci_coherent : coherent w;
  ci_adding : forall i call v held, calls w !! i = Some call -> c_at call = AtAdd v held ->
    store w !! (c_vs call, c_path call) = Some v;
}.

Lemma getKey_add c vs0 path0 v0 vs path v :
  getKey (with_caches (alter (fun cache => lru_add cache path0 v0) vs0) c) vs path = Some v ->
  getKey c vs path = Some v \/ (vs = vs0 /\ path = path0 /\ v = v0).
Proof.
  unfold getKey, with_caches. cbn [caches]. destruct (decide (vs = vs0)) as [->|Hne]; [|rewrite lookup_alter_ne by done; auto].
  rewrite lookup_alter_eq. destruct (caches c !! vs0) as [m|]; cbn; [|done]. intros Hk.
  pose proof (lookup_weaken _ _ _ _ Hk (lru_add_subset m path0 v0)) as Hin.
  apply lookup_insert_Some in Hin as [[-> ->]|[_ Hin]]; auto.
Qed.

(** What a step of a call does to the cache. *)
Lemma advance_cache answer c vs path p c' p' :
  advance answer c vs path p = Next c' p' ->
  (forall vs0 path0 v, getKey c' vs0 path0 = Some v ->
     getKey c vs0 path0 = Some v \/ (vs0 = vs /\ path0 = path /\ exists held, p = AtAdd v held)) /\
  (forall v held, p' = AtAdd v held -> answer = Found v).
Proof.
  destruct p as [| |cond|held|fill held|storages held|r held|r]; cbn [advance]; unfold await; intros Ha.
  - repeat (case_match; try done); simplify_eq; (split; [by left|done]).
  - repeat (case_match; try done); simplify_eq; (split; [by left|done]).
  - case_decide; simplify_eq. split; [by left|done].
  - repeat (case_match; try done); simplify_eq; (split; [by left|done]).
  - destruct answer as [st|]; [destruct fill|]; simplify_eq; (split; [by left|]); intros v h Hv; simplify_eq; done.
  - simplify_eq. split; [|done]. intros vs0 path0 v [?|(-> & -> & ->)]%getKey_add; eauto 10.
  - destruct (release c path held) as [c1|] eqn:Hr; [|done]. simplify_eq. split; [|done]. intros vs0 path0 v Hk. left.
    destruct held as [cond|]; cbn [release] in Hr; [case_decide; simplify_eq; exact Hk|by simplify_eq].
  - done.
Qed.

Lemma calm_step_inv w e w' : calm w e -> step w e w' -> cache_inv w -> cache_inv w'.
Proof.
  intros Hcalm Hstep [Hl Hc Ha].
  destruct Hstep as [w i vs path Hi|w i call c p Hi Hadv|w i call fill held Hi Hat|w vs path v|w Hl'|w n rest Hp|w Hl'|w].
  - constructor; [done|exact Hc|]. intros j cj v held Hj Hat. cbn in Hj. apply lookup_insert_Some in Hj as [[_ <-]|[_ Hj]]; [done|].
    by eapply Ha.
  - apply advance_cache in Hadv as [Hkeys Hadd]. constructor; [done| |].
    + intros vs path v Hk. cbn in Hk. destruct (Hkeys _ _ _ Hk) as [Hk'|(-> & -> & held & Hat)]; [by apply Hc|].
      left. by eapply Ha.
    + intros j cj v held Hj Hat. cbn in Hj. apply lookup_insert_Some in Hj as [[<- <-]|[_ Hj]]; [|by eapply Ha].
      cbn in Hat |- *. specialize (Hadd v held Hat). unfold answerOf in Hadd.
      destruct (store w !! (c_vs call, c_path call)); by simplify_eq.
  - constructor; [done|exact Hc|]. intros j cj v held' Hj Hat'. cbn in Hj.
    apply lookup_insert_Some in Hj as [[_ <-]|[_ Hj]]; [done|by eapply Ha].
  - rewrite Hl in *. constructor; [done| |].
    + intros vs' path' v' Hk. cbn in *. destruct (decide ((vs', path') = (vs, path))) as [Heq|Hne].
      * simplify_eq. right. eexists. split; [apply elem_of_app; right; by apply list_elem_of_singleton|].
        cbn. exists (vs, [path]). set_solver.
      * rewrite lookup_partial_alter_ne by congruence. destruct (Hc _ _ _ Hk) as [?|(n & Hn & Hcov)]; [by left|right].
        exists n. split; [|done]. apply elem_of_app. by left.
    + intros i call v' held Hi Hat. cbn in *. rewrite lookup_partial_alter_ne; [by eapply Ha|]. intros Heq. simplify_eq.
      by eapply (Hcalm i call v' held).
  - constructor; [done| |done]. intros vs path v Hk. destruct (Hc _ _ _ Hk) as [?|(n & Hn & Hcov)]; [by left|right].
    exists n. split; [|done]. cbn. apply elem_of_app. by left.
  - constructor; [done| |done]. intros vs path v Hk. cbn in Hk. apply getKey_notified in Hk as [Hk Hnot].
    destruct (Hc _ _ _ Hk) as [?|(m & Hm & Hcov)]; [by left|right]. exists m. split; [|done]. cbn.
    rewrite Hp in Hm. apply elem_of_cons in Hm as [->|?]; [done|done].
  - constructor; [done| |done]. exact Hc.
  - done.
Qed.

Lemma calmSteps_inv w es w' : calmSteps w es w' -> cache_inv w -> cache_inv w'.
Proof. induction 1 as [|w es w' e w'' _ IH Hcalm Hs]; [done|]. intros Hi. eapply calm_step_inv; eauto. Qed.

(** The getter right after its listener has connected. *)
Definition connected (virtualStorages : list string) (db : gmap (string * string) (gset string)) : World :=
  mkWorld (Connected (NewCachingConsistentStoragesGetter virtualStorages)) ∅ db [] true.

Lemma new_getKey vss vs path : getKey (Connected (NewCachingConsistentStoragesGetter vss)) vs path = None.
Proof.
  unfold getKey, NewCachingConsistentStoragesGetter, Connected, enableCaching. cbn [caches].
  destruct (list_to_map _ !! vs) as [m|] eqn:Hm; [|done]. apply elem_of_list_to_map_2, list_elem_of_fmap in Hm as (x & Heq & _).
  simplify_eq. cbn. by rewrite lookup_empty.
Qed.

Lemma connected_inv vss db : cache_inv (connected vss db).
Proof.
  constructor; [done| |].
  - intros vs path v Hk. cbn in Hk. by rewrite new_getKey in Hk.
  - intros i call v held Hi. cbn in Hi. by rewrite lookup_empty in Hi.
Qed.

(** C33. As long as the connection for notifications holds and no change of a
    repository falls between the query and the population of a call for it, an
    entry of the cache is what the store would answer, or a notification that
    removes it is on its way; so a call is only answered with outdated storages
    while that notification has not arrived. *)
Theorem cache_coherent vss db es w :
  calmSteps (connected vss db) es w ->
  coherent w /\
  forall i call storages held c, calls w !! i = Some call ->
    advance (answerOf w call) (getter w) (c_vs call) (c_path call) (c_at call) = Next c (AtRelease (Found storages) held) ->
    answerOf w call = Found storages \/ exists n, n ∈ pending w /\ covers n (c_vs call) (c_path call).
Proof.
  intros Hrun. apply calmSteps_inv in Hrun as [Hl Hc Ha]; [|apply connected_inv]. split; [done|]. intros i call storages held c Hi Hadv. unfold answerOf in *.
  assert (Hkey : forall v, getKey (getter w) (c_vs call) (c_path call) = Some v ->
    match store w !! (c_vs call, c_path call) with Some u => Found u | None => Failed end = Found v \/
    exists n, n ∈ pending w /\ covers n (c_vs call) (c_path call)).
  { intros v Hk. destruct (Hc _ _ _ Hk) as [->|?]; auto. }
  destruct (c_at call) as [| |cond|h|fill h|st h|r h|r] eqn:Hat; cbn [advance] in Hadv; unfold await in Hadv.
  - destruct (access (getter w)); [|done]. destruct (caches (getter w) !! c_vs call); [|done].
    destruct (getKey (getter w) (c_vs call) (c_path call)) as [v|] eqn:Hk; simplify_eq. by apply Hkey.
  - by destruct (inflight (getter w) !! c_path call); simplify_eq.
  - by case_decide; simplify_eq.
  - destruct (getKey (getter w) (c_vs call) (c_path call)) as [v|] eqn:Hk; simplify_eq. by apply Hkey.
  - destruct (store w !! _); [destruct fill|]; simplify_eq. by left.
  - simplify_eq. left. by rewrite (Ha i call _ _ Hi Hat).
  - by destruct (release (getter w) (c_path call) h); simplify_eq.
  - done.
Qed.

End Properties.

(** ** Running the model *)

#[global] Instance lru_unbounded : LRU := {
  lru_add := fun m k v => <[k := v]> m;
  lru_add_subset := fun m k v => reflexivity (<[k := v]> m);
  lru_add_present := fun m k v => lookup_insert_eq m k v;
}.

Section Exec.
Context `{LRU}.

Definition exec (w : World) (e : Event) : option World :=
  match e with
  | EvCall i vs path =>
    match calls w !! i with
    | None => Some (setCall i AtStart (mkCall vs path AtStart) w (getter w))
    | Some _ => None
    end
  | EvAdvance i =>
    call ← calls w !! i;
    match advance (answerOf w call) (getter w) (c_vs call) (c_path call) (c_at call) with
    | Next c p => Some (setCall i p call w c)
    | _ => None
    end
  | EvFail i =>
    call ← calls w !! i;
    match c_at call with
    | AtQuery _ held => Some (setCall i (AtRelease Failed held) call w (getter w))
    | _ => None
    end
  | EvChange vs path v =>
    Some (mkWorld (getter w) (calls w) (partial_alter (fun _ => v) (vs, path) (store w))
            (if listening w then pending w ++ [Changes [(vs, [path])]] else pending w) (listening w))
  | EvGarbled =>
    if listening w then Some (mkWorld (getter w) (calls w) (store w) (pending w ++ [Undecodable]) true) else None
  | EvNotify =>
    match pending w with
    | n :: rest => Some (mkWorld (handleNotification n (getter w)) (calls w) (store w) rest (listening w))
    | [] => None
    end
  | EvConnect =>
    if listening w then None else Some (mkWorld (Connected (getter w)) (calls w) (store w) (pending w) true)
  | EvDisconnect => Some (mkWorld (Disconnect (getter w)) (calls w) (store w) [] false)
  end.

Lemma exec_step w e w' : exec w e = Some w' <-> step w e w'.
Proof.
  split.
  - destruct e; cbn [exec]; intros He.
    + destruct (calls w !! i) eqn:Hi; simplify_eq. by constructor.
    + destruct (calls w !! i) as [call|] eqn:Hi; simplify_eq/=. destruct (advance _ _ _ _ _) eqn:Ha; simplify_eq. by econstructor.
    + destruct (calls w !! i) as [call|] eqn:Hi; simplify_eq/=. destruct (c_at call) eqn:Hat; simplify_eq. by econstructor.
    + simplify_eq. constructor.
    + destruct (listening w) eqn:Hl; simplify_eq. by constructor.
    + destruct (pending w) eqn:Hp; simplify_eq. by constructor.
    + destruct (listening w) eqn:Hl; simplify_eq. by constructor.
    + simplify_eq. constructor.
  - intros [w0 i vs path Hi|w0 i call c p Hi Hadv|w0 i call fill held Hi Hat|w0 vs path v|w0 Hl|w0 n rest Hp|w0 Hl|w0]; cbn [exec].
    + by rewrite Hi.
    + rewrite Hi. cbn. by rewrite Hadv.
    + rewrite Hi. cbn. by rewrite Hat.
    + done.
    + by rewrite Hl.
    + by rewrite Hp.
    + by rewrite Hl.
    + done.
Qed.

Definition execs (w : World) (es : list Event) : option World :=
  foldl (fun ow e => w ← ow; exec w e) (Some w) es.

Lemma execs_steps w es w' : execs w es = Some w' -> steps w es w'.
Proof.
  revert w'. induction es as [|e es IH] using rev_ind; unfold execs; intros w'; [intros [= <-]; constructor|].
  rewrite foldl_app. cbn. fold (execs w es). destruct (execs w es) as [w1|] eqn:H1; [|done]. cbn. intros He%exec_step.
  econstructor; eauto.
Qed.

Definition adding (p : Position) : bool := match p with AtAdd _ _ => true | _ => false end.

Definition calmb (w : World) (e : Event) : bool :=
  match e with
  | EvDisconnect => false
  | EvChange vs path _ =>
    bool_decide (map_Forall (fun _ call => ~ (c_vs call = vs /\ c_path call = path /\ adding (c_at call) = true)) (calls w))
  | _ => true
  end.

Lemma calmb_calm w e : calmb w e = true -> calm w e.
Proof.
  destruct e; cbn [calmb calm]; try done. intros Hb%bool_decide_eq_true. intros i call storages held Hi Hvs Hpath Hat.
  apply (Hb i call Hi). by rewrite Hat.
Qed.

Definition calmExecs (w : World) (es : list Event) : option World :=
  foldl (fun ow e => w ← ow; if calmb w e then exec w e else None) (Some w) es.

Lemma calmExecs_steps w es w' : calmExecs w es = Some w' -> calmSteps w es w'.
Proof.
  revert w'. induction es as [|e es IH] using rev_ind; unfold calmExecs; intros w'; [intros [= <-]; constructor|].
  rewrite foldl_app. cbn. fold (calmExecs w es). destruct (calmExecs w es) as [w1|] eqn:H1; [|done]. cbn.
  destruct (calmb w1 e) eqn:Hc; [|done]. intros He%exec_step. econstructor; eauto using calmb_calm.
Qed.

(** What a call has populated is found by the next one. *)
Lemma populate_hit answer c vs path storages held c' p m :
  caches c !! vs = Some m -> advance answer c vs path (AtAdd storages held) = Next c' p ->
  access c' = access c /\ getKey c' vs path = Some storages.
Proof.
  intros Hm [= <- <-]. unfold getKey, with_caches. cbn. split; [done|]. rewrite lookup_alter_eq, Hm. cbn. apply lru_add_present.
Qed.

End Exec.

(** *** Example runs *)

Definition exampleStore : gmap (string * string) (gset string) := {[("default", "repo") := {["gitaly-1"]}]}.

(** Two calls for one repository: the second waits for the first. *)
Definition twoCalls : list Event :=
  [EvConnect; EvCall 0 "default" "repo"; EvCall 1 "default" "repo"; EvAdvance 0; EvAdvance 1; EvAdvance 0; EvAdvance 1].

Definition runOf (w : World) (es : list Event) : World := default w (execs w es).
Definition calmOf (w : World) (es : list Event) : World := default w (calmExecs w es).

(** Example for [getter_progress]: the second call waits while the first can go on. *)
Example getter_progress_witness :
  exists cond j cj, Waiting 0 = Waiting cond /\ j ≠ 1%nat /\
    calls (runOf (initial ["default"] exampleStore) twoCalls) !! j = Some cj /\ c_path cj = "repo" /\
    exists c p, advance (answerOf (runOf (initial ["default"] exampleStore) twoCalls) cj)
      (getter (runOf (initial ["default"] exampleStore) twoCalls)) (c_vs cj) (c_path cj) (c_at cj) = Next c p.
Proof.
  pose proof (getter_progress ["default"] exampleStore twoCalls (runOf (initial ["default"] exampleStore) twoCalls) 1
    (mkCall "default" "repo" (Waiting 0))) as Hp.
  specialize (Hp ltac:(apply execs_steps; vm_compute; reflexivity) ltac:(vm_compute; reflexivity)).
  assert (Hb : advance (answerOf (runOf (initial ["default"] exampleStore) twoCalls) (mkCall "default" "repo" (Waiting 0)))
    (getter (runOf (initial ["default"] exampleStore) twoCalls)) "default" "repo" (Waiting 0) = Blocked) by (vm_compute; reflexivity).
  cbn [c_vs c_path c_at] in Hp. rewrite Hb in Hp. destruct Hp as [[r Hr]|Hp]; [discriminate Hr|exact Hp].
Defined.

Definition oneCall (i : nat) : list Event :=
  [EvCall i "default" "repo"; EvAdvance i; EvAdvance i; EvAdvance i; EvAdvance i; EvAdvance i].

(** A call populates the cache, the repository changes, and a second call is
    answered before the notification arrives. *)
Definition staleRead : list Event :=
  oneCall 0 ++ [EvChange "default" "repo" (Some {["gitaly-2"]}); EvCall 1 "default" "repo"].

(** Example for [cache_coherent]: the outdated answer has its notification on its
    way. *)
Example cache_coherent_witness :
  answerOf (calmOf (connected ["default"] exampleStore) staleRead) (mkCall "default" "repo" AtStart) = Found {["gitaly-1"]} \/
  exists n, n ∈ pending (calmOf (connected ["default"] exampleStore) staleRead) /\ covers n "default" "repo".
Proof.
  destruct (cache_coherent ["default"] exampleStore staleRead (calmOf (connected ["default"] exampleStore) staleRead)) as [_ Hread].
  { apply calmExecs_steps. vm_compute. reflexivity. }
  apply (Hread 1%nat (mkCall "default" "repo" AtStart) {["gitaly-1"]} None
    (getter (calmOf (connected ["default"] exampleStore) staleRead))); vm_compute; reflexivity.
Defined.

(** The race that [calm] excludes: the repository changes and the notification is
    handled after the query of a call but before it adds what it has read. The
    outdated entry stays, caching is on and no notification is left to remove it. *)
Definition lostInvalidation : list Event :=
  [EvCall 0 "default" "repo"; EvAdvance 0; EvAdvance 0; EvAdvance 0; EvAdvance 0;
   EvChange "default" "repo" (Some {["gitaly-2"]}); EvNotify; EvAdvance 0; EvAdvance 0].

Lemma population_race :
  let w := runOf (connected ["default"] exampleStore) lostInvalidation in
  steps (connected ["default"] exampleStore) lostInvalidation w /\
  getKey (getter w) "default" "repo" = Some {["gitaly-1"]} /\ store w !! ("default", "repo") = Some {["gitaly-2"]} /\
  pending w = [] /\ access (getter w) = true.
Proof.
  cbv zeta. split_and!; [apply execs_steps| | | |]; vm_compute; reflexivity.
Qed.

(** The same with a connection that was lost and is back: purging the cache does not
    help against a call that is on its way. *)
Definition populationAfterPurge : list Event :=
  [EvCall 0 "default" "repo"; EvAdvance 0; EvAdvance 0; EvAdvance 0; EvAdvance 0;
   EvDisconnect; EvChange "default" "repo" (Some {["gitaly-2"]}); EvConnect; EvAdvance 0; EvAdvance 0].

Lemma purge_race :
  let w := runOf (connected ["default"] exampleStore) populationAfterPurge in
  steps (connected ["default"] exampleStore) populationAfterPurge w /\
  getKey (getter w) "default" "repo" = Some {["gitaly-1"]} /\ store w !! ("default", "repo") = Some {["gitaly-2"]} /\
  pending w = [] /\ access (getter w) = true.
Proof.
  cbv zeta. split_and!; [apply execs_steps| | | |]; vm_compute; reflexivity.
Qed.
