(* ===== verification/SqlElector.v ===== *)
(** The elector of one primary per virtual storage in the database
    (src/internal/praefect/nodes/sql_elector.go), with any number of Praefects.

    A round of an elector is one transaction. Its statements are steps of their own:
    they see the committed rows and the transaction's own writes, [NOW()] is the time
    it began, and a row of [shard_primaries] one transaction has locked keeps others
    from writing it until the commit. The rows of [node_status] an elector writes are
    its own. A [*sqlCandidate] is an index into the nodes of the elector. Failing
    statements, metrics and log lines are left out. *)

From stdpp Require Import sorting.
From S2P Require Import Prelude Sql PConfig Router RepoStore Health ErrorTracker NodeManager.

(** ** Tables *)

Record ShardPrimary : Type := mkPrimary {
  sp_node_name : string;
  sp_elected_by : string;
  sp_elected_at : Z;
  sp_demoted : bool;
}.

Record Tables : Type := mkTables {
  node_status : NodeStatus;
  shard_primaries : gmap string ShardPrimary;
  t_store : PostgresRepositoryStore;
}.

(** The order of strings in the database, and rows ORDER BY leaves open. *)
Class Collation := {
  str_le : relation string;
  str_le_dec :: RelDecision str_le;
  str_le_total :: Total str_le;
  str_le_trans :: Transitive str_le;
}.

(** ORDER BY a nullable column puts NULL last. *)
Definition null_le (a b : option Z) : Prop :=
  match a, b with
  | _, None => True
  | Some x, Some y => x <= y
  | None, Some _ => False
  end.

Class FirstRow := {
  first_by : (string -> option Z) -> list string -> option string;
  first_by_elem : forall f l x, first_by f l = Some x -> x ∈ l /\ forall y, y ∈ l -> null_le (f x) (f y);
  first_by_None : forall f l, first_by f l = None -> l = [];
}.

(** ** The elector *)

Record sqlElector : Type := mkElector {
  e_praefectName : string;
  e_shardName : string;
  e_nodes : list nodeStatus;
  e_primaryNode : option nat;
}.

Definition setPrimary (candidate : option nat) (s : sqlElector) : sqlElector :=
  mkElector (e_praefectName s) (e_shardName s) (e_nodes s) candidate.

Definition GeneratePraefectName (hostname : string) (c : Config) : string :=
  (hostname ++ ":" ++ (if decide (ListenAddr c = "") then SocketPath c else ListenAddr c))%string.

(** The first element of the slice panics if there is none. *)
Definition newSQLElector (name praefectName : string) (ns : list nodeStatus) : out PErr sqlElector :=
  if decide (ns = []) then Panic else Ok (mkElector praefectName name ns (Some 0%nat)).

Definition GetStorage (n : nodeStatus) : string := Node_Storage (node n).

Definition lookupNodeByName (s : sqlElector) (name : string) : option nat :=
  fst <$> list_find (fun n => GetStorage n = name) (e_nodes s).

Definition nodeInSlice (candidates : list nat) (n : nat) : bool := existsb (Nat.eqb n) candidates.

(** [SELECT node_name FROM shard_primaries WHERE shard_name = $1 AND demoted = false]. *)
Definition currentPrimary (row : option ShardPrimary) : option string :=
  r ← row; if sp_demoted r then None else Some (sp_node_name r).

Definition lookupPrimary (s : sqlElector) (row : option ShardPrimary) : option nat :=
  primaryName ← currentPrimary row;
  if decide (primaryName = "") then None else lookupNodeByName s primaryName.

(** ** Queries *)

Definition getQuorumCount (now : Z) (shard : string) (ns : NodeStatus) : nat :=
  let totalCount := size (activePraefects now shard ns) in
  if (totalCount <=? 1)%nat then 1%nat else quorum totalCount.

(** [SUM(r.generation - COALESCE(sr.generation, -1))] over the repositories. *)
Definition lag (vs : string) (s : PostgresRepositoryStore) (storage : string) : option Z :=
  map_fold (fun k r acc =>
    match generation r with
    | None => acc
    | Some g => Some (default 0 acc + (g - GetGeneration vs k.2 storage s))
    end) None (filter (fun kr => kr.1.1 = vs) (repositories s)).

Section Queries.
Context `{!Collation} `{!FirstRow}.

(** The number of rows of a group: one per Praefect. *)
Definition sightings (now : Z) (shard : string) (ns : NodeStatus) (name : string) : nat :=
  size (seenBy now shard name ns).

Definition activity_le (now : Z) (shard : string) (ns : NodeStatus) (a b : string) : Prop :=
  (sightings now shard ns b < sightings now shard ns a)%nat \/
  (sightings now shard ns a = sightings now shard ns b /\ str_le a b).

#[export] Instance activity_le_dec now shard ns : RelDecision (activity_le now shard ns).
Proof. unfold activity_le. intros a b. apply _. Defined.

(** The names of the candidates, the most active first. *)
Definition candidateRows (now : Z) (shard : string) (quorumCount : nat) (ns : NodeStatus) : list string :=
  merge_sort (activity_le now shard ns)
    (elements (filter (fun name => seenBy now shard name ns ≠ ∅ /\ (quorumCount <= sightings now shard ns name)%nat)
       (set_map (D := gset string) snd (dom ns)))).

(** The storage with the least lag; [None] if there is no repository. *)
Definition leastLag (vs : string) (s : PostgresRepositoryStore) (storages : list string) : option string :=
  if decide (filter (fun kr => kr.1.1 = vs) (repositories s) = ∅) then None else first_by (lag vs s) storages.

End Queries.

(** ** A round *)

Inductive Position : Type :=
| AtQuorum
| AtCandidates (quorumCount : nat)
| AtLookup (candidates : list nat)
| AtDemote
| AtElect (candidates : list nat)
| AtInsert (newPrimary : string)
| AtConflict (newPrimary : string)
| AtRelookup
| AtCommit.

Record Tx : Type := mkTx {
  tx_now : Z;
  tx_status : NodeStatus;
  tx_row : option ShardPrimary;
  tx_locks : bool;
  tx_at : Position;
}.

Definition move (p : Position) (tx : Tx) : Tx := mkTx (tx_now tx) (tx_status tx) (tx_row tx) (tx_locks tx) p.
Definition lock (p : Position) (tx : Tx) : Tx := mkTx (tx_now tx) (tx_status tx) (tx_row tx) true p.
Definition write (r : ShardPrimary) (p : Position) (tx : Tx) : Tx := mkTx (tx_now tx) (tx_status tx) (Some r) true p.

(** What a statement of the transaction sees. *)
Definition seenStatus (t : Tables) (tx : Tx) : NodeStatus := tx_status tx ∪ node_status t.
Definition seenRow (t : Tables) (s : sqlElector) (tx : Tx) : option ShardPrimary :=
  match tx_row tx with Some r => Some r | None => shard_primaries t !! e_shardName s end.

Definition updateNode (t : Tables) (s : sqlElector) (tx : Tx) (n : nodeStatus) (result : bool) : Tx :=
  let key := (e_praefectName s, e_shardName s, GetStorage n) in
  let seen := if result then Some (tx_now tx) else seenStatus t tx !! key ≫= last_seen_active_at in
  mkTx (tx_now tx) (<[key := Health.mkStatus (Some (tx_now tx)) seen]> (tx_status tx)) (tx_row tx) (tx_locks tx) (tx_at tx).

(** The checks of a round and their rows; [local] is the time of the process. *)
Definition beginRound (errTracker : option errorTracker) (now local : Z) (answers : nat -> HealthAnswer)
    (t : Tables) (s : sqlElector) : sqlElector * Tx :=
  (mkElector (e_praefectName s) (e_shardName s) (checkAll errTracker local answers (e_nodes s)) (e_primaryNode s),
   foldl (fun tx nr => updateNode t s tx nr.1 nr.2) (mkTx now ∅ None false AtQuorum)
     (imap (fun i n => (n, checkOutcome errTracker local (answers i) n)) (e_nodes s))).

Inductive Effect : Type :=
| Next (s : sqlElector) (tx : Tx)
| Commit (t : Tables)
| Blocked.

Definition demote (r : ShardPrimary) : ShardPrimary := mkPrimary (sp_node_name r) (sp_elected_by r) (sp_elected_at r) true.

Definition storagesOf (s : sqlElector) (candidates : list nat) : list string :=
  omap (fun i => GetStorage <$> e_nodes s !! i) candidates.

Section Round.
Context `{!Collation} `{!FirstRow}.

(** [locked]: another transaction has locked the row of the shard. An UPDATE or a
    conflicting INSERT waits for it and then looks at what was committed; an UPDATE
    that sees no row has nothing to wait for. *)
Definition advance (locked : bool) (t : Tables) (s : sqlElector) (tx : Tx) : Effect :=
  let now := tx_now tx in
  let shard := e_shardName s in
  match tx_at tx with
  | AtQuorum => Next s (move (AtCandidates (getQuorumCount now shard (seenStatus t tx))) tx)
  | AtCandidates quorumCount =>
    let rows := candidateRows now shard quorumCount (seenStatus t tx) in
    Next s (move (AtLookup (omap (lookupNodeByName s) rows)) tx)
  | AtLookup candidates =>
    let primaryNode := lookupPrimary s (seenRow t s tx) in
    match candidates with
    | [] => Next (setPrimary None s) (move AtDemote tx)
    | _ => match primaryNode with
           | Some p => Next s (move (if nodeInSlice candidates p then AtRelookup else AtElect candidates) tx)
           | None => Next s (move (AtElect candidates) tx)
           end
    end
  | AtDemote =>
    match seenRow t s tx with
    | None => Next s (move AtRelookup tx)
    | Some r => if locked then Blocked else Next s (write (demote r) AtRelookup tx)
    end
  | AtElect candidates =>
    let candidateStorages := storagesOf s candidates in
    match leastLag shard (t_store t) candidateStorages with
    | Some newPrimary => Next s (move (AtInsert newPrimary) tx)
    | None => match candidateStorages with
              | newPrimary :: _ => Next s (move (AtInsert newPrimary) tx)
              | [] => Next s (move AtCommit tx)
              end
    end
  | AtInsert newPrimary =>
    if decide (newPrimary = default "" (currentPrimary (seenRow t s tx))) then Next s (move AtRelookup tx)
    else Next s (move (AtConflict newPrimary) tx)
  | AtConflict newPrimary =>
    if locked then Blocked
    else
      let excluded := mkPrimary newPrimary (e_praefectName s) now false in
      match seenRow t s tx with
      | None => Next s (write excluded AtRelookup tx)
      | Some r => if decide (sp_elected_at r < now - failoverTimeout) then Next s (write excluded AtRelookup tx)
                  else Next s (lock AtRelookup tx)
      end
  | AtRelookup => Next (setPrimary (lookupPrimary s (seenRow t s tx)) s) (move AtCommit tx)
  | AtCommit =>
    Commit (mkTables (seenStatus t tx)
      (match tx_row tx with Some r => <[shard := r]> (shard_primaries t) | None => shard_primaries t end) (t_store t))
  end.

End Round.

(** [GetShard] reads the committed primary, whatever the last round found. *)
Definition sqlGetShard (t : Tables) (s : sqlElector) : out PErr Shard * sqlElector :=
  let primary := lookupPrimary s (shard_primaries t !! e_shardName s) in
  let s' := setPrimary primary s in
  match primary with
  | None => (Err ErrPrimaryNotHealthy, s')
  | Some p =>
    match e_nodes s !! p with
    | None => (Panic, s')
    | Some n => (Ok (mkShard (toNode n) (toNode <$> delete p (e_nodes s))), s')
    end
  end.

(** ** All electors together *)

Record World : Type := mkWorld {
  tables : Tables;
  electors : gmap nat (sqlElector * option Tx);
  clock : Z;
}.

Definition row (w : World) (shard : string) : option ShardPrimary := shard_primaries (tables w) !! shard.

(** Whether a transaction of another elector has locked the row of the shard. *)
Definition lockedFor (w : World) (i : nat) (shard : string) : bool :=
  existsb (fun '(j, (s, otx)) => negb (Nat.eqb i j) && bool_decide (e_shardName s = shard) &&
    match otx with Some tx => tx_locks tx | None => false end) (map_to_list (electors w)).

Definition setElector (i : nat) (s : sqlElector) (tx : option Tx) (w : World) : World :=
  mkWorld (tables w) (<[i := (s, tx)]> (electors w)) (clock w).

Inductive Event : Type :=
| EvTick (now : Z)
| EvStore (store : PostgresRepositoryStore)
| EvBegin (i : nat) (local : Z) (answers : nat -> HealthAnswer)
| EvStatement (i : nat)
| EvGetShard (i : nat).

Section World.
Context `{!Collation} `{!FirstRow} (errTracker : option errorTracker).

Inductive step : World -> Event -> World -> Prop :=
| s_tick w now : clock w <= now -> step w (EvTick now) (mkWorld (tables w) (electors w) now)
| s_store w store :
    step w (EvStore store) (mkWorld (mkTables (node_status (tables w)) (shard_primaries (tables w)) store) (electors w) (clock w))
| s_begin w i local answers s s' tx : electors w !! i = Some (s, None) ->
    beginRound errTracker (clock w) local answers (tables w) s = (s', tx) ->
    step w (EvBegin i local answers) (setElector i s' (Some tx) w)
| s_statement w i s tx s' tx' : electors w !! i = Some (s, Some tx) ->
    advance (lockedFor w i (e_shardName s)) (tables w) s tx = Next s' tx' ->
    step w (EvStatement i) (setElector i s' (Some tx') w)
| s_commit w i s tx t : electors w !! i = Some (s, Some tx) ->
    advance (lockedFor w i (e_shardName s)) (tables w) s tx = Commit t ->
    step w (EvStatement i) (mkWorld t (<[i := (s, None)]> (electors w)) (clock w))
| s_shard w i s tx : electors w !! i = Some (s, tx) ->
    step w (EvGetShard i) (setElector i (sqlGetShard (tables w) s).2 tx w).

Inductive steps : World -> list Event -> World -> Prop :=
| ss_none w : steps w [] w
| ss_next w es w' e w'' : steps w es w' -> step w' e w'' -> steps w (es ++ [e]) w''.

(** A round without others in between; [fuel] bounds its statements. *)
Fixpoint finish (fuel : nat) (t : Tables) (s : sqlElector) (tx : Tx) : option (Tables * sqlElector) :=
  match fuel with
  | O => None
  | S fuel =>
    match advance false t s tx with
    | Next s' tx' => finish fuel t s' tx'
    | Commit t' => Some (t', s)
    | Blocked => None
    end
  end.

Definition sqlCheckNodes (now local : Z) (answers : nat -> HealthAnswer) (t : Tables) (s : sqlElector) : option (Tables * sqlElector) :=
  let (s', tx) := beginRound errTracker now local answers t s in finish 8 t s' tx.

End World.

(** ** Properties *)

Section Properties.
Context `{!Collation} `{!FirstRow} (errTracker : option errorTracker).
Implicit Types (w : World) (s : sqlElector) (tx : Tx) (t : Tables) (r : ShardPrimary).

(** *** Elections are apart *)

(** What may become of a row: nothing, a demotion, or a later election. *)
Definition sameElection r r' : Prop :=
  sp_node_name r' = sp_node_name r /\ sp_elected_by r' = sp_elected_by r /\ sp_elected_at r' = sp_elected_at r /\
  (sp_demoted r = true -> sp_demoted r' = true).

Definition follows r r' : Prop := sameElection r r' \/ sp_elected_at r + failoverTimeout < sp_elected_at r'.

#[local] Instance follows_preorder : PreOrder follows.
Proof.
  split.
  - intros r. left. by split_and!.
  - intros r1 r2 r3 [(? & ? & ? & ?)|?] [(? & ? & ? & ?)|?]; unfold follows, sameElection, failoverTimeout in *;
      [left; split_and!; [congruence..|auto]|right; lia..].
Qed.

(** A transaction that wrote the row has locked it, and is about to commit. *)
Record tx_inv (t : Tables) (s : sqlElector) (tx : Tx) : Prop := {
  ti_lock : is_Some (tx_row tx) -> tx_locks tx = true;
  ti_late : tx_locks tx = true -> tx_at tx = AtRelookup \/ tx_at tx = AtCommit;
  ti_follows : forall r r', shard_primaries t !! e_shardName s = Some r -> tx_row tx = Some r' -> follows r r';
}.

Record inv (w : World) : Prop := {
  i_tx : forall i s tx, electors w !! i = Some (s, Some tx) -> tx_inv (tables w) s tx;
  i_one : forall i j si sj txi txj, electors w !! i = Some (si, Some txi) -> electors w !! j = Some (sj, Some txj) ->
    e_shardName si = e_shardName sj -> tx_locks txi = true -> tx_locks txj = true -> i = j;
}.

Lemma lockedFor_false w i shard :
  lockedFor w i shard = false <->
  forall j s tx, j ≠ i -> electors w !! j = Some (s, Some tx) -> e_shardName s = shard -> tx_locks tx = false.
Proof.
  unfold lockedFor. rewrite existsb_false. split.
  - intros Hf j s tx Hne Hj Hs. specialize (Hf (j, (s, Some tx))). rewrite elem_of_map_to_list in Hf. specialize (Hf Hj).
    cbn in Hf. rewrite bool_decide_true, andb_true_r in Hf by done.
    assert (Hb : Nat.eqb i j = false) by (apply Nat.eqb_neq; congruence). rewrite Hb in Hf. by destruct (tx_locks tx).
  - intros Hf [j [s [tx|]]] Hj%elem_of_map_to_list; [|by rewrite andb_false_r].
    destruct (Nat.eqb i j) eqn:Hb; [done|]. apply Nat.eqb_neq in Hb. cbn. case_bool_decide; [|done]. cbn. eapply Hf; [|done..]. congruence.
Qed.

Lemma beginRound_tx now local answers t s s' tx :
  beginRound errTracker now local answers t s = (s', tx) ->
  e_shardName s' = e_shardName s /\ tx_row tx = None /\ tx_locks tx = false /\ tx_now tx = now /\ tx_at tx = AtQuorum.
Proof.
  intros [= <- <-]. split; [done|]. generalize (imap (fun i n => (n, checkOutcome errTracker local (answers i) n)) (e_nodes s)).
  intros l. set (tx0 := mkTx now ∅ None false AtQuorum).
  assert (Hinit : tx_row tx0 = None /\ tx_locks tx0 = false /\ tx_now tx0 = now /\ tx_at tx0 = AtQuorum) by done.
  generalize dependent tx0. induction l as [|[n b] l IH]; intros tx0 Hinit; [done|]. cbn [foldl]. by apply IH.
Qed.

(** A statement keeps the invariant of its transaction, and locks only what no other
    has locked. *)
Lemma advance_tx locked t s tx s' tx' :
  advance locked t s tx = Next s' tx' -> tx_inv t s tx ->
  e_shardName s' = e_shardName s /\ tx_inv t s' tx' /\ (tx_locks tx' = true -> tx_locks tx = true \/ locked = false).
Proof.
  intros Ha [Hlock Hlate Hfol].
  assert (Hmove : forall p s1, e_shardName s1 = e_shardName s -> tx_at tx ≠ AtRelookup -> tx_at tx ≠ AtCommit ->
    e_shardName s1 = e_shardName s /\ tx_inv t s1 (move p tx) /\ (tx_locks (move p tx) = true -> tx_locks tx = true \/ locked = false)).
  { intros p s1 Hs Hn1 Hn2. split; [done|]. split; [|by left]. constructor; cbn [move tx_row tx_locks tx_at].
    - done.
    - intros Hl. by destruct (Hlate Hl).
    - by rewrite Hs. }
  assert (Hnone : tx_at tx ≠ AtRelookup -> tx_at tx ≠ AtCommit -> seenRow t s tx = shard_primaries t !! e_shardName s).
  { intros Hn1 Hn2. unfold seenRow. destruct (tx_row tx) eqn:Hr; [|done].
    by destruct (Hlate (Hlock ltac:(eauto))). }
  unfold advance in Ha. destruct (tx_at tx) eqn:Hat; cbn zeta in Ha.
  - simplify_eq. by apply Hmove.
  - simplify_eq. by apply Hmove.
  - destruct candidates; [simplify_eq; by apply Hmove|]. destruct (lookupPrimary _ _); simplify_eq; by apply Hmove.
  - rewrite Hnone in Ha by done. destruct (shard_primaries t !! e_shardName s) as [r|] eqn:Hr; [|simplify_eq; by apply Hmove].
    destruct locked; simplify_eq. split; [done|]. split; [|by right]. constructor; cbn; [done|auto|].
    intros r1 r2 H1 [= <-]. rewrite Hr in H1. simplify_eq. left. by split_and!.
  - destruct (leastLag _ _ _); [simplify_eq; by apply Hmove|]. destruct (storagesOf _ _); simplify_eq; by apply Hmove.
  - destruct (decide _) in Ha; simplify_eq; by apply Hmove.
  - rewrite Hnone in Ha by done. destruct locked; [done|]. cbn in Ha.
    destruct (shard_primaries t !! e_shardName s) as [r|] eqn:Hr; [destruct (decide _) in Ha|];
      simplify_eq; (split; [done|]); (split; [|by right]); (constructor; cbn; [done|auto|]).
    + intros r1 r2 H1 [= <-]. rewrite Hr in H1. simplify_eq. right. cbn. lia.
    + intros r1 r2 _ Hrow. by destruct (Hlate (Hlock ltac:(eauto))).
    + intros r1 r2 H1. by rewrite Hr in H1.
  - simplify_eq. split; [done|]. split; [|by left]. constructor; cbn; auto.
  - done.
Qed.

Lemma advance_commit locked t s tx t' :
  advance locked t s tx = Commit t' ->
  shard_primaries t' = match tx_row tx with Some r => <[e_shardName s := r]> (shard_primaries t) | None => shard_primaries t end.
Proof.
  unfold advance. intros Ha. destruct (tx_at tx); cbn zeta in Ha; try done; try by repeat case_match.
  by simplify_eq.
Qed.

Lemma inv_set w i s s' (tx tx' : option Tx) :
  inv w -> electors w !! i = Some (s, tx) -> e_shardName s' = e_shardName s ->
  (forall x, tx' = Some x -> tx_inv (tables w) s' x) ->
  (forall x, tx' = Some x -> tx_locks x = true -> (exists y, tx = Some y /\ tx_locks y = true) \/ lockedFor w i (e_shardName s) = false) ->
  inv (setElector i s' tx' w).
Proof.
  intros [Htx Hone] Hi Hs Hinv Hlock. constructor; cbn [setElector electors tables].
  - intros j sj txj Hj. apply lookup_insert_Some in Hj as [[<- [= <- ->]]|[_ Hj]]; [by apply Hinv|by eapply Htx].
  - assert (Hi' : forall j sj txj txi, j ≠ i -> electors w !! j = Some (sj, Some txj) -> tx' = Some txi -> e_shardName s' = e_shardName sj ->
      tx_locks txi = true -> tx_locks txj = true -> False).
    { intros j sj txj txi Hne Hj -> Hsh Hl1 Hl2. destruct (Hlock txi eq_refl Hl1) as [(y & -> & Hy)|Hf].
      - apply Hne. eapply Hone; [exact Hj|exact Hi|congruence|done|done].
      - rewrite lockedFor_false in Hf. specialize (Hf j sj txj Hne Hj). rewrite Hf in Hl2; [done|congruence]. }
    intros j k sj sk txj txk Hj Hk Hsh Hlj Hlk.
    apply lookup_insert_Some in Hj as [[<- [= <- ->]]|[Hne Hj]], Hk as [[<- [= <- ->]]|[Hne' Hk]]; [done| | |by eapply Hone].
    + by destruct (Hi' k sk txk txj).
    + by destruct (Hi' j sj txj txk).
Qed.

Lemma sqlGetShard_shard t s : e_shardName (sqlGetShard t s).2 = e_shardName s.
Proof.
  unfold sqlGetShard. destruct (lookupPrimary s (shard_primaries t !! e_shardName s)) as [p|]; [|done]. by destruct (e_nodes s !! p).
Qed.

Lemma elector_step_inv w e w' : step errTracker w e w' -> inv w -> inv w'.
Proof.
  intros Hstep Hinv. pose proof Hinv as [Htx Hone].
  destruct Hstep as [w now Hn|w store|w i local answers s s' tx Hi Hb|w i s tx s' tx' Hi Ha|w i s tx t Hi Ha|w i s tx Hi].
  - by constructor.
  - constructor; [|done]. intros i s tx Hi. by destruct (Htx i s tx Hi).
  - apply beginRound_tx in Hb as (Hs & Hr & Hl & _ & Hat). eapply inv_set; [done|done|done| |].
    + intros x [= <-]. constructor; rewrite ?Hr, ?Hl; [by intros [? ?]|done|done].
    + intros x [= <-]. by rewrite Hl.
  - destruct (advance_tx _ _ _ _ _ _ Ha (Htx i s tx Hi)) as (Hs & Hx & Hl). eapply inv_set; [done|done|done| |].
    + by intros x [= <-].
    + intros x [= <-] [?|?]%Hl; eauto.
  - pose proof (advance_commit _ _ _ _ _ Ha) as Hrows. constructor; cbn [electors tables].
    + intros j sj txj Hj. apply lookup_insert_Some in Hj as [[<- [= ]]|[Hne Hj]].
      destruct (Htx j sj txj Hj) as [H1 H2 H3]. constructor; [done|done|]. rewrite Hrows. destruct (tx_row tx) as [r|] eqn:Hr; [|done].
      intros r1 r2 Hl Hr2. destruct (decide (e_shardName s = e_shardName sj)) as [Heq|Hn].
      * destruct (Htx i s tx Hi) as [Hl1 _ _]. destruct Hne. eapply Hone; [exact Hi|exact Hj|done|rewrite Hl1; by eauto|rewrite H1; by eauto].
      * rewrite lookup_insert_ne in Hl by done. by eapply H3.
    + intros j k sj sk txj txk Hj Hk. apply lookup_insert_Some in Hj as [[_ [= ]]|[_ Hj]], Hk as [[_ [= ]]|[_ Hk]]. by eapply Hone.
  - eapply inv_set; [done|done| | |].
    + apply sqlGetShard_shard.
    + intros x ->. destruct (Htx i s x Hi) as [H1 H2 H3]. constructor; [done|done|]. by rewrite sqlGetShard_shard.
    + intros x -> Hx. left. eauto.
Qed.

Lemma step_follows w e w' shard r :
  step errTracker w e w' -> inv w -> row w shard = Some r -> exists r', row w' shard = Some r' /\ follows r r'.
Proof.
  intros Hstep [Htx _] Hr.
  destruct Hstep as [w now Hn|w store|w i local answers s s' tx Hi Hb|w i s tx s' tx' Hi Ha|w i s tx t Hi Ha|w i s tx Hi];
    try (exists r; split; [exact Hr|reflexivity]).
  apply advance_commit in Ha. unfold row in *. cbn [tables]. rewrite Ha. destruct (tx_row tx) as [r'|] eqn:Hrow; [|by exists r].
  destruct (decide (e_shardName s = shard)) as [<-|Hne].
  - exists r'. rewrite lookup_insert_eq. split; [done|]. by eapply (ti_follows _ _ _ (Htx i s tx Hi)).
  - exists r. by rewrite lookup_insert_ne.
Qed.

Lemma elector_steps_inv w es w' : steps errTracker w es w' -> inv w -> inv w'.
Proof. induction 1 as [|w es w' e w'' _ IH Hs]; [done|]. intros Hi. eapply elector_step_inv; eauto. Qed.

(** The electors before their first round. *)
Definition idle (w : World) : Prop := forall i s (tx : option Tx), electors w !! i = Some (s, tx) -> tx = None.

Lemma idle_inv w : idle w -> inv w.
Proof. intros Hidle. split; intros; [|]; by match goal with H : electors w !! _ = Some (_, Some _) |- _ => apply Hidle in H end. Qed.

(** C34. However the rounds of any number of Praefects interleave, statement by
    statement, the primary of a virtual storage is only replaced by an election more
    than ten seconds after the one before; until then its row names the same node,
    elected at the same time by the same Praefect, and once demoted it stays so. *)
Theorem elections_apart w0 es w es' w' shard r :
  idle w0 -> steps errTracker w0 es w -> steps errTracker w es' w' -> row w shard = Some r ->
  exists r', row w' shard = Some r' /\
    ((sp_node_name r' = sp_node_name r /\ sp_elected_by r' = sp_elected_by r /\ sp_elected_at r' = sp_elected_at r /\
      (sp_demoted r = true -> sp_demoted r' = true)) \/
     sp_elected_at r + failoverTimeout < sp_elected_at r').
Proof.
  intros Hidle Hrun Hrun' Hr. pose proof (elector_steps_inv _ _ _ Hrun (idle_inv _ Hidle)) as Hinv.
  change (exists r', row w' shard = Some r' /\ follows r r'). revert Hr. clear Hrun Hidle.
  induction Hrun' as [|w es' w1 e w2 Hrun IH Hs]; intros Hr; [by exists r|].
  destruct (IH Hinv Hr) as (r1 & Hr1 & Hf1). destruct (step_follows _ _ _ _ _ Hs (elector_steps_inv _ _ _ Hrun Hinv) Hr1) as (r2 & Hr2 & Hf2).
  exists r2. split; [done|]. by etrans.
Qed.

(** *** Candidates are the healthy storages *)

Lemma quorum_le n m : (1 <= m)%nat -> ((if (n <=? 1)%nat then 1 else quorum n) <= m)%nat <-> (quorum n <= m)%nat.
Proof.
  intros Hm. unfold quorum. destruct (n <=? 1)%nat eqn:Hn; [|done]. apply Nat.leb_le in Hn.
  destruct n as [|[|n]]; [| |lia]; cbn; lia.
Qed.

(** The quorum of the elector selects what the view [healthy_storages] shows. *)
Lemma candidateRows_healthy now shard ns name :
  name ∈ candidateRows now shard (getQuorumCount now shard ns) ns <-> healthy_storage now ns shard name.
Proof.
  unfold candidateRows. rewrite merge_sort_Permutation, elem_of_elements, elem_of_filter.
  unfold healthy_storage, getQuorumCount, sightings. split.
  - intros [[Hne Hq] _]. split; [done|]. apply quorum_le in Hq; [done|].
    apply set_choose_L in Hne as [x Hx]. apply Nat.le_succ_l, Nat.neq_0_lt_0. intros Hz%size_empty_inv. set_solver.
  - intros Hh. pose proof Hh as [Hne Hq]. split.
    + split; [done|]. apply quorum_le; [|done].
      apply set_choose_L in Hne as [x Hx]. apply Nat.le_succ_l, Nat.neq_0_lt_0. intros Hz%size_empty_inv. set_solver.
    + apply elem_of_healthy_storages in Hh. unfold healthy_storages in Hh. apply elem_of_filter in Hh as [_ Hd].
      apply elem_of_map in Hd as (k & [= _ ->] & Hk). apply elem_of_map. eauto.
Qed.

Definition names (s : sqlElector) : list string := GetStorage <$> e_nodes s.

Lemma lookupNodeByName_Some s name i : lookupNodeByName s name = Some i -> GetStorage <$> e_nodes s !! i = Some name.
Proof.
  unfold lookupNodeByName. intros ([j n] & (Hj & Hn & _)%list_find_Some & ->)%fmap_Some. cbn. by rewrite Hj, <- Hn.
Qed.

Lemma lookupNodeByName_None s name : lookupNodeByName s name = None <-> name ∉ names s.
Proof.
  unfold lookupNodeByName, names. rewrite list_elem_of_fmap.
  destruct (list_find (fun n => GetStorage n = name) (e_nodes s)) as [[i n]|] eqn:Hf; cbn.
  - apply list_find_Some in Hf as (Hi & Hn & _). split; [done|]. intros Hno. destruct Hno. exists n. split; [done|].
    by eapply list_elem_of_lookup_2.
  - apply list_find_None in Hf. rewrite Forall_forall in Hf. split; [|done]. intros _ (n & -> & Hn). by apply (Hf n Hn).
Qed.

Lemma lookupNodeByName_inj s a b i : lookupNodeByName s a = Some i -> lookupNodeByName s b = Some i -> a = b.
Proof. intros Ha%lookupNodeByName_Some Hb%lookupNodeByName_Some. congruence. Qed.

Definition candidate (now : Z) (ns : NodeStatus) (s : sqlElector) (name : string) : Prop :=
  name ∈ names s /\ healthy_storage now ns (e_shardName s) name.

Definition candidatesOf (now : Z) (ns : NodeStatus) (s : sqlElector) : list nat :=
  omap (lookupNodeByName s) (candidateRows now (e_shardName s) (getQuorumCount now (e_shardName s) ns) ns).

Lemma storagesOf_candidates now ns s name : name ∈ storagesOf s (candidatesOf now ns s) <-> candidate now ns s name.
Proof.
  unfold storagesOf, candidatesOf, candidate. rewrite list_elem_of_omap. setoid_rewrite list_elem_of_omap. setoid_rewrite candidateRows_healthy.
  split.
  - intros (i & (x & Hx & Hi) & Hn). pose proof (lookupNodeByName_Some _ _ _ Hi) as Hx'. rewrite Hn in Hx'. simplify_eq.
    split; [|done]. apply dec_stable. intros Hnot%lookupNodeByName_None. congruence.
  - intros [Hn Hh]. destruct (lookupNodeByName s name) as [i|] eqn:Hi; [|by apply lookupNodeByName_None in Hi].
    exists i. split; [eauto|]. by apply lookupNodeByName_Some.
Qed.

Lemma candidatesOf_nil now ns s : candidatesOf now ns s = [] <-> forall x, ~ candidate now ns s x.
Proof.
  split.
  - intros Hnil x. rewrite <- storagesOf_candidates, Hnil. apply not_elem_of_nil.
  - intros Hno. destruct (candidatesOf now ns s) as [|i l] eqn:Hc; [done|].
    assert (Hin : i ∈ candidatesOf now ns s) by (rewrite Hc; left). apply list_elem_of_omap in Hin as (x & Hx & Hi).
    apply candidateRows_healthy in Hx. destruct (Hno x). split; [|done]. apply dec_stable. intros Hnot%lookupNodeByName_None. congruence.
Qed.

Lemma nodeInSlice_spec l i : nodeInSlice l i = true <-> i ∈ l.
Proof.
  unfold nodeInSlice. rewrite existsb_exists. setoid_rewrite Nat.eqb_eq. setoid_rewrite <- list_elem_of_In. naive_solver.
Qed.

Lemma candidatesOf_elem now ns s name i :
  lookupNodeByName s name = Some i -> i ∈ candidatesOf now ns s <-> healthy_storage now ns (e_shardName s) name.
Proof.
  intros Hi. unfold candidatesOf. rewrite list_elem_of_omap. setoid_rewrite candidateRows_healthy. split; [|eauto].
  intros (x & Hx & Hxi). by rewrite <- (lookupNodeByName_inj _ _ _ _ Hxi Hi).
Qed.

(** *** One round *)

Definition results (local : Z) (answers : nat -> HealthAnswer) s : list (string * string * bool) :=
  imap (fun i n => (e_shardName s, GetStorage n, checkOutcome errTracker local (answers i) n)) (e_nodes s).

(** [node_status] after the checks of a round. *)
Definition statusAfter (now local : Z) (answers : nat -> HealthAnswer) (t : Tables) s : NodeStatus :=
  foldl (upsertStatus now (e_praefectName s)) (node_status t) (results local answers s).

Lemma checked_names local answers l :
  GetStorage <$> checkAll errTracker local answers l = GetStorage <$> l.
Proof.
  unfold checkAll. rewrite fmap_imap. apply list_eq. intros i. rewrite list_lookup_imap, list_lookup_fmap. by destruct (l !! i).
Qed.

Lemma updateNodes_status t s nrs : forall tx,
  seenStatus t (foldl (fun tx nr => updateNode t s tx nr.1 nr.2) tx nrs) =
  foldl (upsertStatus (tx_now tx) (e_praefectName s)) (seenStatus t tx)
    ((fun nr => (e_shardName s, GetStorage nr.1, nr.2)) <$> nrs).
Proof.
  induction nrs as [|[n b] nrs IH]; intros tx; [done|]. cbn [foldl fmap list_fmap]. rewrite IH. cbn [updateNode tx_now].
  f_equal. unfold seenStatus. cbn [tx_status updateNode]. by rewrite <- insert_union_l.
Qed.

Lemma beginRound_status now local answers t s s' tx :
  beginRound errTracker now local answers t s = (s', tx) -> seenStatus t tx = statusAfter now local answers t s.
Proof.
  intros [= _ <-]. rewrite updateNodes_status. unfold statusAfter, results, seenStatus. cbn [tx_status tx_now].
  rewrite map_empty_union. f_equal. by rewrite fmap_imap.
Qed.

(** What a round does to the row of its shard. *)
Inductive outcome (now : Z) (ns : NodeStatus) (store : PostgresRepositoryStore) s : option ShardPrimary -> option ShardPrimary -> Prop :=
| o_demoted before : (forall x, ~ candidate now ns s x) -> outcome now ns store s before (demote <$> before)
| o_kept before p : currentPrimary before = Some p -> candidate now ns s p -> outcome now ns store s before before
| o_elected before p : candidate now ns s p -> (forall q, currentPrimary before = Some q -> ~ candidate now ns s q) ->
    (forall r, before = Some r -> sp_elected_at r < now - failoverTimeout) ->
    (forall q, candidate now ns s q -> null_le (lag (e_shardName s) store p) (lag (e_shardName s) store q)) ->
    outcome now ns store s before (Some (mkPrimary p (e_praefectName s) now false))
| o_too_soon r : (exists p, candidate now ns s p) -> (forall q, currentPrimary (Some r) = Some q -> ~ candidate now ns s q) ->
    now - failoverTimeout <= sp_elected_at r -> outcome now ns store s (Some r) (Some r).

Lemma lag_none vs store st : filter (fun kr => kr.1.1 = vs) (repositories store) = ∅ -> lag vs store st = None.
Proof. intros He. unfold lag. by rewrite He, map_fold_empty. Qed.

(** The node an election picks. *)
Lemma elected_node now ns s t p :
  candidatesOf now ns s ≠ [] ->
  match leastLag (e_shardName s) (t_store t) (storagesOf s (candidatesOf now ns s)) with
  | Some q => Some q
  | None => head (storagesOf s (candidatesOf now ns s))
  end = Some p ->
  candidate now ns s p /\ forall q, candidate now ns s q -> null_le (lag (e_shardName s) (t_store t) p) (lag (e_shardName s) (t_store t) q).
Proof.
  intros Hne. unfold leastLag. case_decide as He.
  - intros Hh. split; [|intros q _; by rewrite !lag_none]. apply storagesOf_candidates.
    destruct (storagesOf _ _); simplify_eq/=. by left.
  - destruct (first_by _ _) as [q|] eqn:Hf.
    + intros [= ->]. apply first_by_elem in Hf as [Hin Hle]. split; [by apply storagesOf_candidates|].
      intros x Hx. by apply Hle, storagesOf_candidates.
    + apply first_by_None in Hf. by rewrite Hf.
Qed.

(** The end of a round, once the row of the transaction is settled. *)
Lemma finish_relookup fuel t s tx :
  tx_at tx = AtRelookup ->
  finish (S (S fuel)) t s tx =
  Some (mkTables (seenStatus t tx)
    (match tx_row tx with Some r => <[e_shardName s := r]> (shard_primaries t) | None => shard_primaries t end) (t_store t),
    setPrimary (lookupPrimary s (seenRow t s tx)) s).
Proof. intros Hat. cbn [finish]. unfold advance at 1. by rewrite Hat. Qed.

Definition settled t s tx (before : option ShardPrimary) (res : option (Tables * sqlElector)) : Prop :=
  exists t' s', res = Some (t', s') /\ node_status t' = seenStatus t tx /\ t_store t' = t_store t /\
    e_nodes s' = e_nodes s /\ e_shardName s' = e_shardName s /\
    (forall shard, shard ≠ e_shardName s -> shard_primaries t' !! shard = shard_primaries t !! shard) /\
    e_primaryNode s' = lookupPrimary s' (shard_primaries t' !! e_shardName s) /\
    outcome (tx_now tx) (seenStatus t tx) (t_store t) s before (shard_primaries t' !! e_shardName s).

Lemma settled_relookup fuel t s s0 tx0 tx :
  tx_at tx = AtRelookup -> e_nodes s = e_nodes s0 -> e_shardName s = e_shardName s0 -> seenStatus t tx = seenStatus t tx0 ->
  outcome (tx_now tx0) (seenStatus t tx0) (t_store t) s0 (shard_primaries t !! e_shardName s0) (seenRow t s0 tx) ->
  settled t s0 tx0 (shard_primaries t !! e_shardName s0) (finish (S (S fuel)) t s tx).
Proof.
  intros Hat Hn Hs Hst Ho. rewrite finish_relookup by done. eexists _, _. split; [done|]. cbn.
  assert (Hrow : match tx_row tx with Some r => <[e_shardName s := r]> (shard_primaries t) | None => shard_primaries t end !! e_shardName s0
    = seenRow t s0 tx).
  { unfold seenRow. destruct (tx_row tx); [|done]. rewrite Hs. apply lookup_insert_eq. }
  rewrite Hrow. split_and!; try done.
  - intros shard Hne. destruct (tx_row tx); [|done]. by rewrite lookup_insert_ne by congruence.
  - unfold seenRow. by rewrite Hs.
Qed.

(** The primary in the table is among the candidates exactly if the elector finds it
    there. *)
Lemma primary_in_candidates now ns s before :
  "" ∉ names s ->
  match lookupPrimary s before with Some p => nodeInSlice (candidatesOf now ns s) p | None => false end = true <->
  exists p, currentPrimary before = Some p /\ candidate now ns s p.
Proof.
  intros Hempty. unfold lookupPrimary. destruct (currentPrimary before) as [p|]; cbn; [|naive_solver].
  case_decide as Hp; [subst; split; [done|]; intros (p & [= <-] & Hc & _); done|].
  destruct (lookupNodeByName s p) as [i|] eqn:Hi.
  - rewrite nodeInSlice_spec, (candidatesOf_elem _ _ _ p) by done. split.
    + intros Hh. exists p. split; [done|]. split; [|done]. apply dec_stable. intros Hnot%lookupNodeByName_None. congruence.
    + intros (q & [= <-] & _ & Hh). done.
  - apply lookupNodeByName_None in Hi. split; [done|]. intros (q & [= <-] & Hq & _). done.
Qed.

(** From the election to the end of the round. *)
Lemma finish_elect fuel t s tx :
  tx_row tx = None -> "" ∉ names s ->
  tx_at tx = AtElect (candidatesOf (tx_now tx) (seenStatus t tx) s) -> candidatesOf (tx_now tx) (seenStatus t tx) s ≠ [] ->
  (forall q, currentPrimary (shard_primaries t !! e_shardName s) = Some q -> ~ candidate (tx_now tx) (seenStatus t tx) s q) ->
  settled t s tx (shard_primaries t !! e_shardName s) (finish (S (S (S (S (S fuel))))) t s tx).
Proof.
  intros Hrow Hempty Hat Hne Hcur. cbn [finish]. unfold advance at 1. rewrite Hat. cbn zeta.
  pose proof (elected_node (tx_now tx) (seenStatus t tx) s t) as Hel.
  set (chosen := match leastLag _ _ _ with Some q => Some q | None => _ end) in Hel.
  assert (Hstep : exists p, chosen = Some p /\
    match leastLag (e_shardName s) (t_store t) (storagesOf s (candidatesOf (tx_now tx) (seenStatus t tx) s)) with
    | Some newPrimary => Next s (move (AtInsert newPrimary) tx)
    | None => match storagesOf s (candidatesOf (tx_now tx) (seenStatus t tx) s) with
              | newPrimary :: _ => Next s (move (AtInsert newPrimary) tx)
              | [] => Next s (move AtCommit tx)
              end
    end = Next s (move (AtInsert p) tx)).
  { unfold chosen. destruct (leastLag _ _ _) as [q|]; [eauto|]. destruct (storagesOf _ _) as [|q l] eqn:Hst; [|eauto].
    destruct Hne. apply candidatesOf_nil. intros x Hx%storagesOf_candidates. rewrite Hst in Hx. by apply elem_of_nil in Hx. }
  destruct Hstep as (p & Hp & ->). destruct (Hel p Hne Hp) as [Hcand Hleast]. clear Hel chosen Hp.
  assert (Hseen : forall p, seenRow t s (move p tx) = shard_primaries t !! e_shardName s) by (intros; unfold seenRow; cbn; by rewrite Hrow).
  unfold advance at 1. cbn [move tx_at]. rewrite Hseen.
  rewrite decide_False; cycle 1.
  { destruct (currentPrimary (shard_primaries t !! e_shardName s)) as [q|] eqn:Hq; cbn.
    - intros ->. by apply (Hcur q eq_refl).
    - intros ->. by destruct Hcand. }
  unfold advance at 1. cbn [move tx_at tx_now]. rewrite (Hseen (AtConflict p) : seenRow t s (move (AtConflict p) (move (AtInsert p) tx)) = _).
  destruct (shard_primaries t !! e_shardName s) as [r|] eqn:Hr.
  - case_decide as Hold; rewrite <- Hr; (apply settled_relookup; try done); rewrite Hr.
    + unfold seenRow, write. cbn. apply o_elected; try done. by intros ? [= <-].
    + unfold seenRow, lock, move. cbn. rewrite Hrow, Hr. apply o_too_soon; [eauto|done|lia].
  - rewrite <- Hr. apply settled_relookup; try done. rewrite Hr. unfold seenRow, write. cbn. by apply o_elected.
Qed.

Lemma finish_settles t s tx :
  tx_row tx = None -> tx_at tx = AtQuorum -> "" ∉ names s ->
  settled t s tx (shard_primaries t !! e_shardName s) (finish 8 t s tx).
Proof.
  intros Hrow Hat Hempty. set (cs := candidatesOf (tx_now tx) (seenStatus t tx) s).
  assert (Hstart : finish 8 t s tx = finish 6 t s (move (AtLookup cs) tx)).
  { cbn [finish]. unfold advance at 1. rewrite Hat. cbn zeta. unfold advance at 1. reflexivity. }
  assert (Hseen : forall p s', e_shardName s' = e_shardName s -> seenRow t s' (move p tx) = shard_primaries t !! e_shardName s)
    by (intros p s' Hs; unfold seenRow; cbn; by rewrite Hrow, Hs).
  pose proof (primary_in_candidates (tx_now tx) (seenStatus t tx) s (shard_primaries t !! e_shardName s) Hempty) as Hin. fold cs in Hin.
  rewrite Hstart. cbn [finish]. unfold advance at 1. cbn [move tx_at]. rewrite Hseen by done.
  destruct (decide (cs = [])) as [Hc|Hc].
  - rewrite Hc. assert (Hno : forall x, ~ candidate (tx_now tx) (seenStatus t tx) s x) by by apply candidatesOf_nil.
    unfold advance at 1. cbn [move tx_at]. unfold seenRow at 1. cbn [tx_row setPrimary e_shardName].
    change (tx_row (move AtDemote _)) with (tx_row tx). rewrite Hrow.
    destruct (shard_primaries t !! e_shardName s) as [r|] eqn:Hr; rewrite <- Hr; (apply (settled_relookup 2); try done).
    + rewrite Hr. unfold seenRow, write. cbn. by apply (o_demoted _ _ _ _ (Some r)).
    + rewrite Hr. unfold seenRow, move. cbn. rewrite Hrow, Hr. by apply (o_demoted _ _ _ _ None).
  - destruct (match lookupPrimary _ _ with Some p => nodeInSlice cs p | None => false end) eqn:Hp.
    + destruct (proj1 Hin eq_refl) as (q & Hq & Hqc).
      destruct cs as [|c l] eqn:Hcs; [done|].
      destruct (lookupPrimary s (shard_primaries t !! e_shardName s)) as [i|]; [rewrite Hp|discriminate Hp].
      apply (settled_relookup 3); try done. unfold seenRow, move. cbn. rewrite Hrow. by apply (o_kept _ _ _ _ _ q).
    + assert (Hcur : forall q, currentPrimary (shard_primaries t !! e_shardName s) = Some q -> ~ candidate (tx_now tx) (seenStatus t tx) s q)
        by (intros q Hq Hqc; assert (false = true) by (apply Hin; eauto); done).
      pose proof (finish_elect 0 t s (move (AtElect cs) tx) Hrow Hempty eq_refl Hc Hcur) as Hend.
      destruct cs as [|c l]; [done|].
      destruct (lookupPrimary s (shard_primaries t !! e_shardName s)) as [i|]; [rewrite Hp|]; exact Hend.
Qed.

Lemma candidate_names now ns s s' x :
  names s' = names s -> e_shardName s' = e_shardName s -> candidate now ns s' x <-> candidate now ns s x.
Proof. intros Hn Hs. unfold candidate. by rewrite Hn, Hs. Qed.

Lemma outcome_spec now ns store s before after :
  outcome now ns store s before after ->
  ((forall x, ~ candidate now ns s x) -> after = demote <$> before) /\
  (forall p, currentPrimary before = Some p -> candidate now ns s p -> after = before) /\
  ((exists x, candidate now ns s x) -> (forall p, currentPrimary before = Some p -> ~ candidate now ns s p) ->
     (exists r, before = Some r /\ now - failoverTimeout <= sp_elected_at r /\ after = before) \/
     ((forall r, before = Some r -> sp_elected_at r < now - failoverTimeout) /\
      exists p, candidate now ns s p /\ after = Some (mkPrimary p (e_praefectName s) now false) /\
        forall q, candidate now ns s q -> null_le (lag (e_shardName s) store p) (lag (e_shardName s) store q))).
Proof.
  intros [b Hno|b p Hp Hpc|b p Hpc Hcur Hold Hleast|r [y Hy] Hcur Hrec]; split_and!.
  - done.
  - intros p _ Hp. by destruct (Hno p).
  - intros [x Hx]. by destruct (Hno x).
  - intros Hno. by destruct (Hno p).
  - done.
  - intros _ Hno. by destruct (Hno p).
  - intros Hno. by destruct (Hno p).
  - intros q Hq Hqc. by destruct (Hcur q).
  - intros _ _. right. eauto.
  - intros Hno. by destruct (Hno y).
  - done.
  - intros _ _. left. eauto.
Qed.

(** A round of an elector that no other round interleaves with completes, and
    leaves the virtual storage with the right primary. With [healthy] for the nodes of
    the elector that the view of healthy storages shows after its checks: if there is
    none, the primary is demoted; a healthy primary stays; otherwise, unless the last
    election was less than ten seconds ago, a healthy node is elected that lags least
    behind the generations of the repositories. The elector then knows the primary
    that is in the table, and nothing else has changed but the status of its nodes. *)
Theorem round_correct now local answers t s :
  "" ∉ names s ->
  let ns := statusAfter now local answers t s in
  let healthy x := x ∈ names s /\ healthy_storage now ns (e_shardName s) x in
  let before := shard_primaries t !! e_shardName s in
  exists t' s', sqlCheckNodes errTracker now local answers t s = Some (t', s') /\
    let after := shard_primaries t' !! e_shardName s in
    node_status t' = ns /\ t_store t' = t_store t /\
    (forall shard, shard ≠ e_shardName s -> shard_primaries t' !! shard = shard_primaries t !! shard) /\
    e_primaryNode s' = lookupPrimary s' after /\
    ((forall x, ~ healthy x) -> after = demote <$> before) /\
    (forall p, currentPrimary before = Some p -> healthy p -> after = before) /\
    ((exists x, healthy x) -> (forall p, currentPrimary before = Some p -> ~ healthy p) ->
     (exists r, before = Some r /\ now - failoverTimeout <= sp_elected_at r /\ after = before) \/
     ((forall r, before = Some r -> sp_elected_at r < now - failoverTimeout) /\
      exists p, healthy p /\ after = Some (mkPrimary p (e_praefectName s) now false) /\
        forall q, healthy q -> null_le (lag (e_shardName s) (t_store t) p) (lag (e_shardName s) (t_store t) q))).
Proof.
  intros Hempty. cbn zeta. unfold sqlCheckNodes. destruct (beginRound errTracker now local answers t s) as [s1 tx] eqn:Hb.
  pose proof (beginRound_status _ _ _ _ _ _ _ Hb) as Hst. pose proof (beginRound_tx _ _ _ _ _ _ _ Hb) as (Hs & Hrow & _ & Hnow & Hat).
  assert (Hn : names s1 = names s) by (injection Hb as <- _; apply (checked_names local answers)).
  assert (Hpn : e_praefectName s1 = e_praefectName s) by by injection Hb as <- _.
  destruct (finish_settles t s1 tx Hrow Hat) as (t' & s' & -> & H1 & H2 & H3 & H4 & H5 & H6 & Ho); [by rewrite Hn|].
  exists t', s'. rewrite Hs, Hst, Hnow in *.
  assert (Hc : forall x, candidate now (statusAfter now local answers t s) s1 x <->
    x ∈ names s /\ healthy_storage now (statusAfter now local answers t s) (e_shardName s) x) by (intros x; by apply candidate_names).
  setoid_rewrite <- Hc. destruct (outcome_spec _ _ _ _ _ _ Ho) as (Hd & Hk & He). rewrite Hpn, Hs in He. by split_and!.
Qed.

End Properties.

(** [GetShard] never panics: it returns the committed primary with all other nodes as
    secondaries, or fails if the table names no node of the elector. *)
Lemma sqlGetShard_spec t s :
  match lookupPrimary s (shard_primaries t !! e_shardName s) with
  | None => (sqlGetShard t s).1 = Err ErrPrimaryNotHealthy
  | Some i => exists n, e_nodes s !! i = Some n /\ currentPrimary (shard_primaries t !! e_shardName s) = Some (GetStorage n) /\
      (sqlGetShard t s).1 = Ok (mkShard (toNode n) (toNode <$> delete i (e_nodes s)))
  end.
Proof.
  unfold sqlGetShard. destruct (lookupPrimary s (shard_primaries t !! e_shardName s)) as [i|] eqn:Hl; [|done].
  unfold lookupPrimary in Hl. destruct (currentPrimary _) as [p|]; cbn in Hl; [|done]. case_decide; [done|].
  apply lookupNodeByName_Some, fmap_Some in Hl as (n & Hn & ->). exists n. by rewrite Hn.
Qed.

(** ** Running the model *)

#[export] Instance bytewise : Collation := { str_le := String.le }.

Definition null_leb (a b : option Z) : bool :=
  match a, b with
  | _, None => true
  | Some x, Some y => x <=? y
  | None, Some _ => false
  end.

Fixpoint leastOf (f : string -> option Z) (l : list string) : option string :=
  match l with
  | [] => None
  | x :: l => match leastOf f l with
              | Some y => if null_leb (f x) (f y) then Some x else Some y
              | None => Some x
              end
  end.

Lemma null_leb_le a b : null_leb a b = true <-> null_le a b.
Proof. destruct a, b; simpl; [apply Z.leb_le|done..]. Qed.

Lemma null_le_trans a b c : null_le a b -> null_le b c -> null_le a c.
Proof. destruct a, b, c; simpl; try done. lia. Qed.

Lemma leastOf_elem f l x : leastOf f l = Some x -> x ∈ l /\ forall y, y ∈ l -> null_le (f x) (f y).
Proof.
  revert x. induction l as [|z l IH]; intros x; simpl; [done|].
  destruct (leastOf f l) as [y|] eqn:Hl; [destruct (null_leb (f z) (f y)) eqn:Hle|]; intros [= <-].
  - apply null_leb_le in Hle. destruct (IH y eq_refl) as [Hy Hmin]. split; [by left|].
    intros u [->|Hu]%elem_of_cons; [destruct (f z); simpl; [lia|done]|]. eapply null_le_trans; eauto.
  - destruct (IH y eq_refl) as [Hy Hmin]. split; [by right|]. intros u [->|Hu]%elem_of_cons; [|by apply Hmin].
    assert (Hn : ~ null_le (f z) (f y)) by (rewrite <- null_leb_le; by rewrite Hle). destruct (f z), (f y); simpl in *; try done. lia.
  - assert (l = []) as ->. { destruct l as [|a l]; [done|]. simpl in Hl. destruct (leastOf f l); [by case_match|done]. }
    split; [by left|]. intros u [->|Hu%elem_of_nil]%elem_of_cons; [|done]. destruct (f z); simpl; [lia|done].
Qed.

Lemma leastOf_None f l : leastOf f l = None -> l = [].
Proof. destruct l as [|a l]; [done|]. simpl. destruct (leastOf f l); [by case_match|done]. Qed.

#[export] Instance leastRow : FirstRow := {
  first_by := leastOf;
  first_by_elem := leastOf_elem;
  first_by_None := leastOf_None;
}.

Section Exec.
Context `{!Collation} `{!FirstRow} (errTracker : option errorTracker).

Definition exec (w : World) (e : Event) : option World :=
  match e with
  | EvTick now => if clock w <=? now then Some (mkWorld (tables w) (electors w) now) else None
  | EvStore store => Some (mkWorld (mkTables (node_status (tables w)) (shard_primaries (tables w)) store) (electors w) (clock w))
  | EvBegin i local answers =>
    match electors w !! i with
    | Some (s, None) => let (s', tx) := beginRound errTracker (clock w) local answers (tables w) s in Some (setElector i s' (Some tx) w)
    | _ => None
    end
  | EvStatement i =>
    match electors w !! i with
    | Some (s, Some tx) =>
      match advance (lockedFor w i (e_shardName s)) (tables w) s tx with
      | Next s' tx' => Some (setElector i s' (Some tx') w)
      | Commit t => Some (mkWorld t (<[i := (s, None)]> (electors w)) (clock w))
      | Blocked => None
      end
    | _ => None
    end
  | EvGetShard i =>
    match electors w !! i with
    | Some (s, tx) => Some (setElector i (sqlGetShard (tables w) s).2 tx w)
    | None => None
    end
  end.

Lemma sql_exec_step w e w' : exec w e = Some w' -> step errTracker w e w'.
Proof.
  destruct e as [now|store|i local answers|i|i]; cbn [exec]; intros He.
  - destruct (clock w <=? now) eqn:Hle; simplify_eq. constructor. by apply Z.leb_le.
  - simplify_eq. constructor.
  - destruct (electors w !! i) as [[s [tx|]]|] eqn:Hi; [done| |done].
    destruct (beginRound errTracker (clock w) local answers (tables w) s) as [s' tx] eqn:Hb. simplify_eq. econstructor; eauto.
  - destruct (electors w !! i) as [[s [tx|]]|] eqn:Hi; [|done..].
    destruct (advance _ _ _ _) eqn:Ha; simplify_eq; [by eapply s_statement|by eapply s_commit].
  - destruct (electors w !! i) as [[s tx]|] eqn:Hi; [|done]. simplify_eq. by econstructor.
Qed.

Definition execs (w : World) (es : list Event) : option World := foldl (fun ow e => w ← ow; exec w e) (Some w) es.

Lemma sql_execs_steps w es w' : execs w es = Some w' -> steps errTracker w es w'.
Proof.
  revert w'. induction es as [|e es IH] using rev_ind; unfold execs; intros w'; [intros [= <-]; constructor|].
  rewrite foldl_app. cbn. fold (execs w es). destruct (execs w es) as [w1|] eqn:H1; [|done]. cbn. intros He%sql_exec_step.
  econstructor; eauto.
Qed.
End Exec.

(** Two Praefects with an elector each for the same two nodes. *)
Definition exampleNodes : list nodeStatus :=
  [newConnectionStatus (mkNode "gitaly-1" "" "") 0; newConnectionStatus (mkNode "gitaly-2" "" "") 1].

Definition exampleElector (name : string) : sqlElector := mkElector name "default" exampleNodes (Some 0%nat).

Definition exampleStore : PostgresRepositoryStore :=
  mkStore {[("default", "repo") := mkRepoRow 1 (Some 1) None "repo"]}
    {[("default", "repo", "gitaly-1") := mkReplicaRow (Some 1) 0; ("default", "repo", "gitaly-2") := mkReplicaRow (Some 1) 1]} ∅ 1.

Definition exampleTables : Tables := mkTables ∅ ∅ exampleStore.

Definition exampleWorld : World :=
  mkWorld exampleTables {[0%nat := (exampleElector "a", None); 1%nat := (exampleElector "b", None)]} 0.

Definition healthyAnswers : nat -> HealthAnswer := fun _ => SERVING.
Definition onlyFirst : nat -> HealthAnswer := fun i => if (i =? 0)%nat then SERVING else NOT_SERVING.

Definition statements (i n : nat) : list Event := replicate n (EvStatement i).

(** The first Praefect elects the node that is up to date while the second waits for
    its lock and then finds the election to be recent. *)
Definition firstElections : list Event :=
  [EvBegin 0 0 healthyAnswers; EvBegin 1 0 healthyAnswers] ++ statements 0 6 ++ statements 1 5 ++ statements 0 2 ++ statements 1 3.

(** The elected node fails its checks at both for longer than ten seconds. *)
Definition failover : list Event :=
  [EvTick 20000; EvBegin 1 20000 onlyFirst] ++ statements 1 8.

Definition execOf (w : World) (es : list Event) : World := default w (execs None w es).

(** Example for [elections_apart]: the failover is an election of its own. *)
Example elections_apart_witness :
  let w := execOf exampleWorld firstElections in
  let w' := execOf w failover in
  row w "default" = Some (mkPrimary "gitaly-2" "a" 0 false) /\ row w' "default" = Some (mkPrimary "gitaly-1" "b" 20000 false) /\
  exists r', row w' "default" = Some r' /\
    (("gitaly-2" = sp_node_name r' /\ "a" = sp_elected_by r' /\ 0 = sp_elected_at r' /\ (false = true -> sp_demoted r' = true)) \/
     0 + failoverTimeout < sp_elected_at r').
Proof.
  cbv zeta. split; [vm_compute; reflexivity|]. split; [vm_compute; reflexivity|].
  destruct (elections_apart None exampleWorld firstElections (execOf exampleWorld firstElections) failover
    (execOf (execOf exampleWorld firstElections) failover) "default" (mkPrimary "gitaly-2" "a" 0 false)) as (r' & Hr & Hf).
  - intros i s tx Hi. unfold exampleWorld in Hi. cbn in Hi. apply lookup_insert_Some in Hi as [[_ [= _ <-]]|[_ Hi]]; [done|].
    apply lookup_singleton_Some in Hi as [_ [= _ <-]]. done.
  - apply sql_execs_steps. vm_compute. reflexivity.
  - apply sql_execs_steps. vm_compute. reflexivity.
  - vm_compute. reflexivity.
  - exists r'. split; [exact Hr|]. destruct Hf as [(H1 & H2 & H3 & H4)|Hlt]; [left|right; exact Hlt].
    split; [exact (eq_sym H1)|]. split; [exact (eq_sym H2)|]. split; [exact (eq_sym H3)|exact H4].
Defined.

(** Example for [round_correct]: the first round of an elector, in a table without
    primaries. *)
Example round_correct_witness :
  "" ∉ names (exampleElector "a") /\
  exists t' s', sqlCheckNodes None 0 0 healthyAnswers exampleTables (exampleElector "a") = Some (t', s') /\
    node_status t' = statusAfter None 0 0 healthyAnswers exampleTables (exampleElector "a") /\
    e_primaryNode s' = lookupPrimary s' (shard_primaries t' !! "default").
Proof.
  assert (Hn : "" ∉ names (exampleElector "a")) by (apply (bool_decide_unpack _); vm_compute; exact I).
  split; [exact Hn|].
  destruct (round_correct None 0 0 healthyAnswers exampleTables (exampleElector "a") Hn) as (t' & s' & Hrun & Hns & _ & _ & Hp & _).
  exists t', s'. split; [exact Hrun|]. split; [exact Hns|exact Hp].
Defined.
