(* ===== verification/Effects.v ===== *)
(** Handlers that call other processes and services.

    A handler is a tree of calls with a continuation for every answer: what the
    outside answers is left open. A run is a sequence of calls with their answers,
    and a result; [wp] computes what holds of every run. An implementation of the
    calls over a state gives one of the runs. *)

From S2P Require Import Prelude.

(** ** Trees of calls *)

Inductive prog (C : Type -> Type) (A : Type) : Type :=
| ret (a : A)
| call (X : Type) (c : C X) (k : X -> prog C A).
Arguments ret {C A} a.
Arguments call {C A X} c k.

(** A call with its answer. *)
Inductive event (C : Type -> Type) : Type :=
| Ev (X : Type) (c : C X) (x : X).
Arguments Ev {C X} c x.

Section Effects.
Context {C : Type -> Type}.
Implicit Types (t : list (event C)).

Fixpoint prog_bind {A B} (p : prog C A) (k : A -> prog C B) : prog C B :=
  match p with
  | ret a => k a
  | call c j => call c (fun x => prog_bind (j x) k)
  end.

Definition do {X} (c : C X) : prog C X := call c ret.

(** The calls [t] with their answers lead to the result [a]. *)
Fixpoint runs {A} (p : prog C A) t (a : A) : Prop :=
  match p with
  | ret b => t = [] /\ a = b
  | call c k => exists x t', t = Ev c x :: t' /\ runs (k x) t' a
  end.

(** [Q] holds of the result and of all calls, [t] being those made before. *)
Fixpoint wp {A} (p : prog C A) (Q : A -> list (event C) -> Prop) t : Prop :=
  match p with
  | ret a => Q a t
  | call c k => forall x, wp (k x) Q (t ++ [Ev c x])
  end.

Lemma wp_runs {A} (p : prog C A) (Q : A -> list (event C) -> Prop) : forall t,
  wp p Q t <-> forall t' a, runs p t' a -> Q a (t ++ t').
Proof.
  induction p as [b|X c k IH]; intros t; cbn [wp runs].
  - split.
    + intros HQ t' a [-> ->]. by rewrite app_nil_r.
    + intros H. specialize (H [] b). rewrite app_nil_r in H. by apply H.
  - split.
    + intros Hw t' a (x & u & -> & Hr). specialize (Hw x). rewrite IH in Hw. specialize (Hw u a Hr).
      by rewrite <- app_assoc in Hw.
    + intros H x. apply IH. intros u a Hr. rewrite <- app_assoc. apply H. eauto.
Qed.

Lemma wp_mono {A} (p : prog C A) (Q Q' : A -> list (event C) -> Prop) : forall t,
  wp p Q t -> (forall a t', Q a t' -> Q' a t') -> wp p Q' t.
Proof. induction p as [b|X c k IH]; intros t Hw HQ; cbn [wp] in *; [auto|]. intros x. eapply IH; [apply Hw|done]. Qed.

Lemma wp_bind {A B} (p : prog C A) (k : A -> prog C B) Q : forall t,
  wp (prog_bind p k) Q t <-> wp p (fun a t' => wp (k a) Q t') t.
Proof. induction p as [b|X c j IH]; intros t; cbn [wp prog_bind]; [done|]. by setoid_rewrite IH. Qed.

(** Every run comes to an end, whatever the answers are. *)
Lemma runs_total {A} (p : prog C A) (answer : forall X, C X -> X) : exists t a, runs p t a.
Proof.
  induction p as [b|X c k IH]; cbn [runs]; [eauto|]. destruct (IH (answer X c)) as (t & a & Hr). eauto 6.
Qed.

(** *** An outside with a state *)

Section Handler.
Context {S : Type} (handle : forall X, C X -> S -> X * S).

Fixpoint run {A} (p : prog C A) (s : S) : A * list (event C) * S :=
  match p with
  | ret a => (a, [], s)
  | call c k =>
    let '(x, s1) := handle _ c s in
    let '(a, t, s2) := run (k x) s1 in (a, Ev c x :: t, s2)
  end.

Lemma run_runs {A} (p : prog C A) : forall s, runs p (run p s).1.2 (run p s).1.1.
Proof.
  induction p as [b|X c k IH]; intros s; cbn [run runs]; [done|]. destruct (handle X c s) as [x s1]. specialize (IH x s1).
  destruct (run (k x) s1) as [[a t] s2]. cbn. eauto.
Qed.

(** A property of the state that no call of a run breaks. *)
Lemma run_inv {A} (p : prog C A) (I : S -> Prop) (allowed : event C -> Prop) : forall s,
  (forall X (c : C X) s x s', handle X c s = (x, s') -> allowed (Ev c x) -> I s -> I s') ->
  Forall allowed (run p s).1.2 -> I s -> I (run p s).2.
Proof.
  induction p as [b|X c k IH]; intros s Hstep; cbn [run]; [done|]. destruct (handle X c s) as [x s1] eqn:Hh.
  specialize (IH x s1 Hstep). destruct (run (k x) s1) as [[a t] s2]. cbn in *. intros [H1 H2]%Forall_cons Hi.
  apply IH; [done|]. by eapply Hstep.
Qed.
End Handler.

(** ** Calls in their order *)

(** Every event of the kind [kind] comes after a sequence of calls with [P]. *)
Definition guarded (kind : event C -> bool) (P : list (event C) -> Prop) t : Prop :=
  forall t1 e t2, t = t1 ++ e :: t2 -> kind e = true -> P t1.

Lemma guarded_nil kind P : guarded kind P [].
Proof. intros t1 e t2 Heq. by destruct t1. Qed.

Lemma guarded_app kind P t u :
  guarded kind P (t ++ u) <-> guarded kind P t /\ guarded kind (fun v => P (t ++ v)) u.
Proof.
  split.
  - intros Hg. split.
    + intros t1 e t2 -> He. eapply Hg; [|done]. by rewrite <- app_assoc.
    + intros t1 e t2 -> He. eapply Hg; [|done]. by rewrite <- app_assoc.
  - intros [Ht Hu] t1 e t2 Heq He. apply app_eq_inv in Heq as [(l & -> & Heq)|(l & -> & ->)].
    + destruct l as [|e' l].
      * cbn in Heq. subst u. specialize (Hu [] e t2 eq_refl He). cbn beta in Hu. by rewrite !app_nil_r in Hu.
      * cbn in Heq. injection Heq as <- ->. eapply Ht; [|done]. done.
    + eapply Hu; done.
Qed.

Lemma guarded_none kind P t : Forall (fun e => kind e = false) t -> guarded kind P t.
Proof.
  intros Hf t1 e t2 -> He. apply Forall_app in Hf as [_ [Hn _]%Forall_cons]. congruence.
Qed.

Lemma guarded_snoc kind P t e : guarded kind P t -> (kind e = true -> P t) -> guarded kind P (t ++ [e]).
Proof.
  intros Ht He. apply guarded_app. split; [done|]. intros t1 e' t2 Heq He'.
  destruct t1 as [|e0 t1]; [|by destruct t1]. injection Heq as <- _. rewrite app_nil_r. auto.
Qed.

End Effects.

(** ** Calls that may fail

    A handler that returns an error or panics leaves the rest out. *)
Definition PM (C : Type -> Type) (E A : Type) : Type := prog C (out E A).

#[export] Instance PM_ret C E : MRet (PM C E) := fun A a => ret (Ok a).
#[export] Instance PM_bind C E : MBind (PM C E) := fun A B k m =>
  prog_bind m (fun r => match r with
                        | Ok a => k a
                        | Err e => ret (Err e)
                        | Panic => ret Panic
                        end).

Definition raise {C E A} (e : E) : PM C E A := ret (Err e).
Definition lift {C E A} (o : out E A) : PM C E A := ret o.

(** [if err := m; err != nil { return f(err) }]. *)
Definition orErr {C E E' A} (f : E -> E') (m : PM C E A) : PM C E' A :=
  prog_bind m (fun r => ret match r with
                            | Ok a => Ok a
                            | Err e => Err (f e)
                            | Panic => Panic
                            end).

Lemma wp_PM_bind {C E A B} (m : PM C E A) (k : A -> PM C E B) Q t :
  wp (m ≫= k) Q t <->
  wp m (fun r t' => match r with Ok a => wp (k a) Q t' | Err e => Q (Err e) t' | Panic => Q Panic t' end) t.
Proof.
  unfold mbind, PM_bind. rewrite wp_bind. split; intros Hw; (eapply wp_mono; [exact Hw|]); by intros [a|e|].
Qed.
