(* ===== verification/Hooks.v ===== *)
(** The hooks of a Gitaly node (src/internal/gitaly/hook), and how a node votes
    (src/internal/gitaly/transaction/manager.go).

    What the hooks ask of others is a [Call]: the GitLab API, custom hook programs,
    the votes at Praefect and, for reference updates, a git process. Files of custom
    hooks and the codecs of the payload are parameters, SHA-1 is [sha1_Sum]. The
    repository message is passed by pointer: a hook returns it as it leaves it. *)

From Stdlib Require Import Strings.Ascii.
From S2P Require Import Prelude GoStrings Voting HooksPayload Locator GitCommand GitVersion Effects.

(** ** Calls *)

(** An answer is an error or a value. *)
Abbreviation answer A := (list ascii + A)%type.

Record AllowedParams : Type := mkAllowedParams {
  RepoPath : list ascii;
  ap_GitObjectDirectory : list ascii;
  ap_GitAlternateObjectDirectories : list (list ascii);
  GLRepository : list ascii;
  GLID : list ascii;
  GLProtocol : list ascii;
  ap_Changes : list ascii;
}.

Record PostReceiveMessage : Type := mkMessage {
  Message : list ascii;
  MessageType : list ascii;
}.

Inductive VoteState : Type := COMMIT | ABORT | STOP | OtherState.

Inductive Call : Type -> Type :=
| EvalSymlinks (path : list ascii) : Call (answer (list ascii))
| Allowed (params : AllowedParams) : Call (answer (bool * list ascii))
| PreReceive (glRepository : list ascii) : Call (answer bool)
| PostReceive (glRepository glID changes : list ascii) (pushOptions : list (list ascii)) :
    Call (answer (bool * list PostReceiveMessage))
| RunHook (hookFile : list ascii) (args env : list (list ascii)) (stdin dir : list ascii) : Call (answer unit)
| WriteStdout (data : list ascii) : Call (answer unit)
| Backchannel (id : Z) : Call (answer unit)
| VoteTransactionRPC (id : Z) (node : list ascii) (hash : bytes) : Call (answer VoteState)
| StopTransactionRPC (id : Z) : Call (answer unit)
| GitSpawn (argv : list (list ascii)) (hooks : option HooksPayload) : Call (answer unit)
| GitVersionCall : Call (answer Version)
| GitWrite (data : list ascii) : Call (answer unit)
| GitReadLine : Call (answer (list ascii))
| GitWait : Call (answer unit)
| MigrateQuarantine : Call (answer unit).

Abbreviation H E := (PM Call E).

(** ** Voting *)

Inductive TxManagerError : Type :=
| ErrBackchannel (err : list ascii)
| ErrRPC (err : list ascii)
| ErrTransactionAborted
| ErrTransactionStopped
| ErrInvalidState.

(** A failing call with its error turned into one of the caller's. *)
Definition ask {E A} (f : list ascii -> E) (c : Call (answer A)) : H E A :=
  call c (fun r => ret match r with inl e => Err (f e) | inr a => Ok a end).

Definition PoolManager_Vote (tx : TxInfo) (vote : Vote) : H TxManagerError unit :=
  _ ← ask ErrBackchannel (Backchannel (BackchannelID tx));
  state ← ask ErrRPC (VoteTransactionRPC (ID tx) (Node tx) (Vote_Bytes vote));
  match state with
  | COMMIT => mret tt
  | ABORT => raise ErrTransactionAborted
  | STOP => raise ErrTransactionStopped
  | OtherState => raise ErrInvalidState
  end.

Definition PoolManager_Stop (tx : TxInfo) : H TxManagerError unit :=
  _ ← ask ErrBackchannel (Backchannel (BackchannelID tx));
  ask ErrRPC (StopTransactionRPC (ID tx)).

Definition isPrimary (p : HooksPayload) : bool :=
  match Transaction p with None => true | Some tx => Primary tx end.

Definition runWithTransaction {E} (p : HooksPayload) (handler : TxInfo -> H E unit) : H E unit :=
  match Transaction p with None => mret tt | Some tx => handler tx end.

Definition voteOnTransaction (vote : Vote) (p : HooksPayload) : H TxManagerError unit :=
  runWithTransaction p (fun tx => PoolManager_Vote tx vote).

Definition stopTransaction (p : HooksPayload) : H TxManagerError unit := runWithTransaction p PoolManager_Stop.

(** ** Errors *)

Inductive HookFailure : Type :=
| HPayload
| HInternal (what : string)
| HNotAllowed (message userID protocol changes : list ascii)
| HGitLab (err : list ascii)
| HMessages
| HEmpty
| HExecutor
| HCustom (err : list ascii)
| HVote (err : TxManagerError).

(** [if err != nil { return helper.ErrInternalf(...) }]. *)
Definition internal {E A} (what : string) (o : out E A) : H HookFailure A :=
  ret match o with Ok a => Ok a | Err _ => Err (HInternal what) | Panic => Panic end.

(** ** Messages *)

Definition newline : ascii := ascii_of_nat 10.
Definition blank : ascii := " "%char.
Definition maxMessageWidth : nat := 72.
Definition maxMessageTextWidth : nat := 68.

(** The length of the white space a text starts with, 0 if it does not: the bytes of
    the characters [unicode.IsSpace] accepts in UTF-8. *)
Definition spaceLength (s : list ascii) : nat :=
  match nat_of_ascii <$> take 3 s with
  | b0 :: rest =>
    if existsb (Nat.eqb b0) [9; 10; 11; 12; 13; 32]%nat then 1%nat
    else match rest with
    | b1 :: rest =>
      if ((b0 =? 194) && ((b1 =? 133) || (b1 =? 160)))%nat then 2%nat
      else match rest with
      | b2 :: _ =>
        if ((b0 =? 225) && (b1 =? 154) && (b2 =? 128) ||
            (b0 =? 226) && (b1 =? 128) && ((128 <=? b2) && (b2 <=? 138) || (b2 =? 168) || (b2 =? 169) || (b2 =? 175)) ||
            (b0 =? 226) && (b1 =? 129) && (b2 =? 159) ||
            (b0 =? 227) && (b1 =? 128) && (b2 =? 128))%nat
        then 3%nat else 0%nat
      | [] => 0%nat
      end
    | [] => 0%nat
    end
  | [] => 0%nat
  end.

(** The loop of [strings.Fields]; [skip] bytes belong to white space already seen. *)
Fixpoint fieldsLoop (skip : nat) (word : list ascii) (s : list ascii) : list (list ascii) :=
  match s with
  | [] => if decide (word = []) then [] else [word]
  | c :: s' =>
    match skip with
    | S skip => fieldsLoop skip word s'
    | O =>
      match spaceLength s with
      | O => fieldsLoop 0 (word ++ [c]) s'
      | S n => (if decide (word = []) then [] else [word]) ++ fieldsLoop n [] s'
      end
    end
  end.

Definition Fields (s : list ascii) : list (list ascii) := fieldsLoop 0 [] s.

Definition isSpaceByte (c : ascii) : bool := existsb (Nat.eqb (nat_of_ascii c)) [9; 10; 11; 12; 13; 32]%nat.

Fixpoint trimLeft (s : list ascii) : list ascii :=
  match s with
  | c :: s' => if isSpaceByte c then trimLeft s' else s
  | [] => []
  end.

(** The words of a line are separated and followed by one blank, so that trimming it
    takes off blanks only. *)
Definition centerLine (line : list ascii) : list ascii :=
  let b := reverse (trimLeft (reverse (trimLeft line))) in
  replicate ((maxMessageWidth - length b) / 2) blank ++ b.

(** The lines of an alert: a line that has no room for the next word is written. *)
Fixpoint alertLoop (line : list ascii) (words : list (list ascii)) : list (list ascii) * list ascii :=
  match words with
  | [] => ([], line)
  | word :: words =>
    if (maxMessageTextWidth <? length line + 1 + length word)%nat then
      let '(ls, last) := alertLoop (word ++ [blank]) words in (line :: ls, last)
    else alertLoop (line ++ word ++ [blank]) words
  end.

(** What is written to the client, piece by piece. *)
Definition printAlert (m : PostReceiveMessage) : list (list ascii) :=
  let '(ls, last) := alertLoop [] (Fields (Message m)) in
  [replicate maxMessageWidth "="%char; [newline; newline]] ++ ((fun l => centerLine l ++ [newline]) <$> ls) ++
  [centerLine last; [newline; newline]; replicate maxMessageWidth "="%char].

Fixpoint writeAll (pieces : list (list ascii)) : H HookFailure unit :=
  match pieces with
  | [] => mret tt
  | p :: pieces => _ ← ask (fun _ => HMessages) (WriteStdout p); writeAll pieces
  end.

Fixpoint printMessages (messages : list PostReceiveMessage) : H HookFailure unit :=
  match messages with
  | [] => mret tt
  | m :: messages =>
    _ ← writeAll [[newline]];
    _ ← (if decide (MessageType m = text "basic") then writeAll [Message m]
         else if decide (MessageType m = text "alert") then writeAll (printAlert m)
         else raise HMessages);
    _ ← writeAll [[newline; newline]];
    printMessages messages
  end.

(** ** The environment of custom hooks *)

Definition equalSign : ascii := "="%char.

(** The variable itself without an equals sign has no second part: a panic. *)
Fixpoint getEnvVar {E} (key : list ascii) (vars : list (list ascii)) : out E (list ascii) :=
  match vars with
  | [] => Ok []
  | varPair :: vars =>
    let (name, value) := Cut equalSign varPair in
    if decide (name = key) then match value with Some v => Ok v | None => Panic end
    else getEnvVar key vars
  end.

(** The decimal digits of a number. *)
Fixpoint decimal (fuel : nat) (n : nat) : list ascii :=
  match fuel with
  | O => []
  | S fuel => (if (n <? 10)%nat then [] else decimal fuel (n / 10)) ++ [ascii_of_nat (48 + n mod 10)]
  end.
Definition itoa (n : nat) : list ascii := decimal (S n) n.

Definition pushOptionsEnv (options : list (list ascii)) : list (list ascii) :=
  if decide (options = []) then []
  else (text "GIT_PUSH_OPTION_COUNT=" ++ itoa (length options)) ::
       imap (fun i o => text "GIT_PUSH_OPTION_" ++ itoa i ++ [equalSign] ++ o) options.

(** What [filepath.Rel] does with an absolute base: the elements of the target after
    the common ones, behind a step up for each element left of the base. *)
Fixpoint relParts (base targ : list (list ascii)) : option (list (list ascii)) :=
  match base, targ with
  | b :: base', t :: targ' =>
    if decide (b = t) then relParts base' targ'
    else if decide (b = dotdot) then None else Some (replicate (length base) dotdot ++ targ)
  | b :: base', [] => if decide (b = dotdot) then None else Some (replicate (length base) dotdot)
  | [], _ => Some targ
  end.

Definition Rel {E} (err : E) (basepath targpath : list ascii) : out E (list ascii) :=
  if decide (rooted basepath ≠ rooted targpath) then Err err
  else match relParts (elements_of basepath) (elements_of targpath) with
  | None => Err err
  | Some parts => Ok (render false parts)
  end.

(** ** The hook manager *)

Inductive DirResult : Type :=
| DirNotExist
| DirError
| DirEntries (names : list (list ascii)).

(** The parts of a hook manager and its surroundings: how repositories are located,
    where global hooks are, which paths are executable files, what directories hold,
    and the codecs. [ReadDir] sorts by name. *)
Record GitLabHookManager : Type := mkManager {
  m_GetRepoPath : Repository -> out LocatorError (list ascii);
  m_GetPath : Repository -> out LocatorError (list ascii);
  m_CustomHooksDir : list ascii;
  m_executable : list ascii -> bool;
  m_ReadDir : list ascii -> DirResult;
  m_FromEnv : list (list ascii) -> out PayloadError HooksPayload;
  m_sha1_Sum : bytes -> bytes;
}.

Definition toGitRepo (r : Repository) : GitRepo :=
  mkRepo (StorageName r) (RelativePath r) (GitObjectDirectory r) (GitAlternateObjectDirectories r).

Definition NewManager (storages : list Storage) (stat : list ascii -> StatResult) (customHooksDir : list ascii)
    (executable : list ascii -> bool) (readDir : list ascii -> DirResult)
    (fromEnv : list (list ascii) -> out PayloadError HooksPayload) (sha1_Sum : bytes -> bytes) : GitLabHookManager :=
  mkManager (fun r => GetRepoPath storages stat (toGitRepo r)) (fun r => GetPath storages stat (toGitRepo r)) customHooksDir
    executable readDir fromEnv sha1_Sum.

Definition tilde : ascii := "~"%char.

Definition isValidHook (m : GitLabHookManager) (path : list ascii) : bool :=
  if decide (last path = Some tilde) then false else m_executable m path.

Definition findHooks (m : GitLabHookManager) (dir : list ascii) : out HookFailure (list (list ascii)) :=
  match m_ReadDir m dir with
  | DirNotExist => Ok []
  | DirError => Err HExecutor
  | DirEntries names => Ok (List.filter (isValidHook m) (JoinPath dir <$> names))
  end.

Definition withError {E E' A} (e : E') (o : out E A) : out E' A :=
  match o with Ok a => Ok a | Err _ => Err e | Panic => Panic end.

(** The files of the custom hooks, in the order they run, with the directory they
    run in. *)
Definition customHookFiles (m : GitLabHookManager) (repo : Repository) (hookName : list ascii) :
    out HookFailure (list ascii * list (list ascii)) :=
  repoPath ← withError HExecutor (m_GetRepoPath m repo);
  let projectCustomHookFile := JoinPath (JoinPath repoPath (text "custom_hooks")) hookName in
  let own := if isValidHook m projectCustomHookFile then [projectCustomHookFile] else [] in
  project ← findHooks m (JoinPath (JoinPath repoPath (text "custom_hooks")) (hookName ++ text ".d"));
  global ← findHooks m (JoinPath (m_CustomHooksDir m) (hookName ++ text ".d"));
  Ok (repoPath, own ++ project ++ global).

Fixpoint executeHooks (files : list (list ascii)) (args env : list (list ascii)) (stdin dir : list ascii) : H HookFailure unit :=
  match files with
  | [] => mret tt
  | file :: files => _ ← ask HCustom (RunHook file args env stdin dir); executeHooks files args env stdin dir
  end.

Definition customHooksEnv (m : GitLabHookManager) (p : HooksPayload) (pushOptions envs : list (list ascii)) :
    out HookFailure (list (list ascii)) :=
  match Repo p with
  | None => Panic
  | Some repo =>
    repoPath ← withError (HInternal "constructing custom hook environment") (m_GetPath m repo);
    objectDirectory ← getEnvVar (text "GIT_OBJECT_DIRECTORY") envs;
    let objectDirectory :=
      if decide (objectDirectory = [] /\ GitObjectDirectory repo ≠ []) then JoinPath repoPath (GitObjectDirectory repo) else objectDirectory in
    alternates ← getEnvVar (text "GIT_ALTERNATE_OBJECT_DIRECTORIES") envs;
    let alternates :=
      if decide (alternates = [] /\ GitAlternateObjectDirectories repo ≠ [])
      then Join ":"%char (JoinPath repoPath <$> GitAlternateObjectDirectories repo) else alternates in
    match ReceivePayload p with
    | None => Panic
    | Some receive =>
      Ok (AllowedEnvironment envs ++ pushOptionsEnv pushOptions ++
          (if decide (objectDirectory = []) then [] else [text "GIT_OBJECT_DIRECTORY=" ++ objectDirectory]) ++
          (if decide (alternates = []) then [] else [text "GIT_ALTERNATE_OBJECT_DIRECTORIES=" ++ alternates]) ++
          [text "GIT_DIR=" ++ repoPath; text "GL_REPOSITORY=" ++ GlRepository repo; text "GL_PROJECT_PATH=" ++ GlProjectPath repo;
           text "GL_ID=" ++ UserID receive; text "GL_USERNAME=" ++ Username receive; text "GL_PROTOCOL=" ++ Protocol receive])
    end
  end.

(** Running the custom hooks of one kind. [creating] is the error if their files
    cannot be found. *)
Definition runCustomHooks (m : GitLabHookManager) (repo : Repository) (hookName : string) (creating : HookFailure)
    (p : HooksPayload) (pushOptions env args : list (list ascii)) (stdin : list ascii) : H HookFailure unit :=
  '(dir, files) ← lift (withError creating (customHookFiles m repo (text hookName)));
  customEnv ← lift (customHooksEnv m p pushOptions env);
  executeHooks files args customEnv stdin dir.

(** *** The pre-receive hook *)

Fixpoint relAll (base : list ascii) (dirs : list (list ascii)) : out HookFailure (list (list ascii)) :=
  match dirs with
  | [] => Ok []
  | d :: dirs => r ← Rel (HInternal "getting relative git object directories") base d; rs ← relAll base dirs; Ok (r :: rs)
  end.

Definition setObjectDirs (r : Repository) (dir : list ascii) (alternates : list (list ascii)) : Repository :=
  mkRepository (StorageName r) (RelativePath r) dir alternates (GlRepository r) (GlProjectPath r).

(** The object directories of the environment, relative to the repository. *)
Definition objectDirsFromEnv (repoPath : list ascii) (env : list (list ascii)) (repo : Repository) : H HookFailure Repository :=
  gitObjDir ← lift (getEnvVar (text "GIT_OBJECT_DIRECTORY") env);
  gitAltObjDirs ← lift (getEnvVar (text "GIT_ALTERNATE_OBJECT_DIRECTORIES") env);
  if decide (gitObjDir = [] \/ gitAltObjDirs = []) then mret repo
  else
    real ← ask (fun _ => HInternal "getting relative git object directories") (EvalSymlinks repoPath);
    dir ← lift (Rel (HInternal "getting relative git object directories") real gitObjDir);
    alternates ← lift (relAll real (Split ":"%char gitAltObjDirs));
    mret (setObjectDirs repo dir alternates).

Definition preReceiveHook (m : GitLabHookManager) (p : HooksPayload) (repo : Repository) (pushOptions env : list (list ascii))
    (changes : list ascii) : H HookFailure Repository :=
  repoPath ← internal "getting repo path" (m_GetRepoPath m repo);
  repo ← objectDirsFromEnv repoPath env repo;
  if decide (changes = []) then raise (HInternal "hook got no reference updates")
  else if decide (GlRepository repo = []) then raise (HInternal "repository not set")
  else match ReceivePayload p with
  | None => raise (HInternal "payload has no receive hooks info")
  | Some receive =>
    if decide (UserID receive = []) then raise (HInternal "user ID not set")
    else if decide (Protocol receive = []) then raise (HInternal "protocol not set")
    else
      let refused message := HNotAllowed message (UserID receive) (Protocol receive) changes in
      '(allowed, message) ← ask refused (Allowed (mkAllowedParams repoPath (GitObjectDirectory repo)
        (GitAlternateObjectDirectories repo) (GlRepository repo) (UserID receive) (Protocol receive) changes));
      if negb allowed then raise (refused message)
      else
        _ ← runCustomHooks m repo "pre-receive" HExecutor p pushOptions env [] changes;
        ok ← ask (fun _ => HInternal "calling pre_receive endpoint") (PreReceive (GlRepository repo));
        if negb ok then raise HEmpty else mret repo
  end.

(** A hook of the primary that fails stops the transaction, whether or not that
    works, and returns its own error. *)
Definition stopOnError {A} (p : HooksPayload) (m : H HookFailure A) : H HookFailure A :=
  prog_bind m (fun r =>
    match r with
    | Err e => prog_bind (stopTransaction p) (fun s => ret match s with Panic => Panic | _ => Err e end)
    | _ => ret r
    end).

Definition PreReceiveHook (m : GitLabHookManager) (repo : Repository) (pushOptions env : list (list ascii)) (changes : list ascii) :
    H HookFailure Repository :=
  p ← internal "extracting hooks payload" (m_FromEnv m env);
  if isPrimary p then stopOnError p (preReceiveHook m p repo pushOptions env changes) else mret repo.

(** *** The update hook *)

Definition updateHook (m : GitLabHookManager) (p : HooksPayload) (repo : Repository) (ref oldValue newValue : list ascii)
    (env : list (list ascii)) : H HookFailure unit :=
  if decide (ref = []) then raise (HInternal "hook got no reference")
  else if negb (ValidateObjectID oldValue) then raise (HInternal "hook got invalid old value")
  else if negb (ValidateObjectID newValue) then raise (HInternal "hook got invalid new value")
  else match ReceivePayload p with
  | None => raise (HInternal "payload has no receive hooks info")
  | Some _ => runCustomHooks m repo "update" (HInternal "update") p [] env [ref; oldValue; newValue] []
  end.

Definition UpdateHook (m : GitLabHookManager) (repo : Repository) (ref oldValue newValue : list ascii) (env : list (list ascii)) :
    H HookFailure unit :=
  p ← internal "extracting hooks payload" (m_FromEnv m env);
  if isPrimary p then stopOnError p (updateHook m p repo ref oldValue newValue env) else mret tt.

(** *** The post-receive hook *)

Definition postReceiveHook (m : GitLabHookManager) (p : HooksPayload) (repo : Repository) (pushOptions env : list (list ascii))
    (changes : list ascii) : H HookFailure unit :=
  if decide (changes = []) then raise (HInternal "hook got no reference updates")
  else match ReceivePayload p with
  | None => raise (HInternal "payload has no receive hooks info")
  | Some receive =>
    if decide (UserID receive = []) then raise (HInternal "user ID not set")
    else if decide (GlRepository repo = []) then raise (HInternal "repository not set")
    else
      '(ok, messages) ← ask HGitLab (PostReceive (GlRepository repo) (UserID receive) changes pushOptions);
      _ ← printMessages messages;
      if negb ok then raise HEmpty
      else runCustomHooks m repo "post-receive" (HInternal "creating custom hooks executor") p pushOptions env [] changes
  end.

Definition PostReceiveHook (m : GitLabHookManager) (repo : Repository) (pushOptions env : list (list ascii)) (changes : list ascii) :
    H HookFailure unit :=
  p ← internal "extracting hooks payload" (m_FromEnv m env);
  if isPrimary p then stopOnError p (postReceiveHook m p repo pushOptions env changes) else mret tt.

(** *** The reference-transaction hook *)

Inductive ReferenceTransactionState : Type :=
| ReferenceTransactionPrepared
| ReferenceTransactionCommitted
| ReferenceTransactionAborted.

Definition forceDeletionPrefix : list ascii := ZeroOID ++ [blank] ++ ZeroOID ++ [blank].

Definition carriageReturn : ascii := ascii_of_nat 13.
Definition dropCR (line : list ascii) : list ascii :=
  if decide (last line = Some carriageReturn) then take (length line - 1) line else line.

(** The lines a [bufio.Scanner] finds: it stops at one that does not fit into its
    buffer of 64 KiB. *)
Fixpoint scannedLines (parts : list (list ascii)) : list (list ascii) :=
  match parts with
  | [] => []
  | p :: ps =>
    if decide (p = [] /\ ps = []) then []
    else if Z.of_nat (length p) <? 65536 then dropCR p :: scannedLines ps else []
  end.

Definition isForceDeletionsOnly (changes : list ascii) : bool :=
  forallb (fun line => HasPrefix line forceDeletionPrefix) (scannedLines (Split newline changes)).

Definition toBytes (s : list ascii) : bytes := byte_of_ascii <$> s.

Definition ReferenceTransactionHook (m : GitLabHookManager) (state : ReferenceTransactionState) (env : list (list ascii))
    (changes : list ascii) : H HookFailure unit :=
  p ← lift (withError HPayload (m_FromEnv m env));
  match state with
  | ReferenceTransactionAborted => mret tt
  | _ =>
    if isForceDeletionsOnly changes then mret tt
    else orErr HVote (voteOnTransaction (m_sha1_Sum m (toBytes changes)) p)
  end.

(** ** Properties *)

(** *** Kinds of calls *)

Definition isVoteFor (hash : bytes) (e : event Call) : bool :=
  match e with
  | Ev c x =>
    match c in Call X return X -> bool with
    | VoteTransactionRPC _ _ h => fun x => bool_decide (h = hash) && match x with inr COMMIT => true | _ => false end
    | _ => fun _ => false
    end x
  end.

Definition isStop (e : event Call) : bool :=
  match e with Ev c _ => match c with StopTransactionRPC _ => true | _ => false end end.

(** The transaction could not even be reached. *)
Definition isUnreachable (e : event Call) : bool :=
  match e with
  | Ev c x => match c in Call X return X -> bool with
              | Backchannel _ => fun x => match x with inl _ => true | inr _ => false end
              | _ => fun _ => false
              end x
  end.

Definition isAllowed (changes : list ascii) (e : event Call) : bool :=
  match e with
  | Ev c x =>
    match c in Call X return X -> bool with
    | Allowed params => fun x => bool_decide (ap_Changes params = changes) && match x with inr (true, _) => true | _ => false end
    | _ => fun _ => false
    end x
  end.

Definition isCounted (e : event Call) : bool :=
  match e with
  | Ev c x => match c in Call X return X -> bool with
              | PreReceive _ => fun x => match x with inr true => true | _ => false end
              | _ => fun _ => false
              end x
  end.

(** Calls of the hooks, as opposed to those that change references. *)
Definition touchesGit (e : event Call) : bool :=
  match e with
  | Ev c _ => match c with GitSpawn _ _ | GitVersionCall | GitWrite _ | GitReadLine | GitWait | MigrateQuarantine => true | _ => false end
  end.

(** The successful run of a custom hook. *)
Definition ranHook (e : event Call) : option (list ascii) :=
  match e with
  | Ev c x => match c in Call X return X -> option (list ascii) with
              | RunHook file _ _ _ _ => fun x => match x with inr _ => Some file | inl _ => None end
              | _ => fun _ => None
              end x
  end.

Definition quiet (t : list (event Call)) : Prop := Forall (fun e => touchesGit e = false) t.

(** What the calls of [p] add, whatever was called before. *)
Definition adds {A} (p : prog Call A) (P : A -> list (event Call) -> Prop) : Prop := forall t a, runs p t a -> P a t.

Lemma adds_wp {A} (p : prog Call A) P : wp p P [] <-> adds p P.
Proof. unfold adds. rewrite wp_runs. done. Qed.

Lemma adds_bind {E A B} (m : H E A) (k : A -> H E B) P Q :
  adds m P ->
  (forall a t, P (Ok a) t -> adds (k a) (fun r u => Q r (t ++ u))) ->
  (forall e t, P (Err e) t -> Q (Err e) t) -> (forall t, P Panic t -> Q Panic t) ->
  adds (m ≫= k) Q.
Proof.
  rewrite <- !adds_wp. intros Hm Hk He Hp. apply wp_PM_bind. eapply wp_mono; [exact Hm|]. intros [a|e|] t Ht; [|auto..].
  apply wp_runs. intros u r Hr. by apply (Hk a t Ht u r).
Qed.

Lemma adds_mono {A} (p : prog Call A) (P Q : A -> list (event Call) -> Prop) :
  adds p P -> (forall a t, P a t -> Q a t) -> adds p Q.
Proof. unfold adds. eauto. Qed.

Lemma adds_ret {A} (a : A) (P : A -> list (event Call) -> Prop) : P a [] -> adds (ret a) P.
Proof. intros HP t b [-> ->]. done. Qed.

Lemma adds_ask {E A} (f : list ascii -> E) (c : Call (answer A)) P :
  (forall e, P (Err (f e)) [Ev c (inl e)]) -> (forall a, P (Ok a) [Ev c (inr a)]) -> adds (ask f c) P.
Proof. intros He Ha t b (x & t' & -> & -> & ->). destruct x; auto. Qed.

Lemma adds_prog_bind {A B} (m : prog Call A) (k : A -> prog Call B) P Q :
  adds m P -> (forall a t, P a t -> adds (k a) (fun r u => Q r (t ++ u))) -> adds (prog_bind m k) Q.
Proof.
  rewrite <- !adds_wp. intros Hm Hk. apply wp_bind. eapply wp_mono; [exact Hm|]. intros a t Ht.
  apply wp_runs. intros u r Hr. by apply (Hk a t Ht u r).
Qed.

(** *** Hooks leave git alone *)

Definition keepsQuiet {A} (p : prog Call A) : Prop := adds p (fun _ t => quiet t).

Lemma keepsQuiet_bind {E A B} (m : H E A) (k : A -> H E B) :
  keepsQuiet m -> (forall a, keepsQuiet (k a)) -> keepsQuiet (m ≫= k).
Proof.
  intros Hm Hk. eapply adds_bind; [exact Hm| |done|done]. intros a t Ht u r Hr. apply Forall_app. split; [done|]. by eapply Hk.
Qed.

Lemma keepsQuiet_prog_bind {A B} (m : prog Call A) (k : A -> prog Call B) :
  keepsQuiet m -> (forall a, keepsQuiet (k a)) -> keepsQuiet (prog_bind m k).
Proof.
  intros Hm Hk. eapply adds_prog_bind; [exact Hm|]. intros a t Ht u r Hr. apply Forall_app. split; [done|]. by eapply Hk.
Qed.

Lemma keepsQuiet_ret {A} (a : A) : keepsQuiet (ret a).
Proof. apply adds_ret. constructor. Qed.

Lemma keepsQuiet_ask {E A} (f : list ascii -> E) (c : Call (answer A)) :
  (forall x, touchesGit (Ev c x) = false) -> keepsQuiet (ask f c).
Proof. intros Hc. apply adds_ask; intros; repeat constructor; apply Hc. Qed.

Create HintDb quiet_calls.
#[export] Hint Resolve keepsQuiet_bind keepsQuiet_prog_bind keepsQuiet_ret : quiet_calls.
#[export] Hint Extern 1 (keepsQuiet (ask _ _)) => apply keepsQuiet_ask; reflexivity : quiet_calls.

(** Case analysis along the branches of a handler. *)
Ltac quietly :=
  repeat first
    [ apply keepsQuiet_ret
    | apply keepsQuiet_ask; intros; reflexivity
    | apply keepsQuiet_bind; [|intros]
    | apply keepsQuiet_prog_bind; [|intros]
    | progress (eauto with quiet_calls nocore)
    | case_match ].

Lemma Vote_quiet tx v : keepsQuiet (PoolManager_Vote tx v).
Proof. unfold PoolManager_Vote. quietly. Qed.

Lemma Stop_quiet tx : keepsQuiet (PoolManager_Stop tx).
Proof. unfold PoolManager_Stop. quietly. Qed.
#[export] Hint Resolve Vote_quiet Stop_quiet : quiet_calls.

Lemma runWithTransaction_quiet {E} p (handler : TxInfo -> H E unit) :
  (forall tx, keepsQuiet (handler tx)) -> keepsQuiet (runWithTransaction p handler).
Proof. intros Hh. unfold runWithTransaction. destruct (Transaction p); [apply Hh|apply keepsQuiet_ret]. Qed.

Lemma stopTransaction_quiet p : keepsQuiet (stopTransaction p).
Proof. apply runWithTransaction_quiet, Stop_quiet. Qed.
#[export] Hint Resolve stopTransaction_quiet : quiet_calls.

Lemma executeHooks_quiet files args env stdin dir : keepsQuiet (executeHooks files args env stdin dir).
Proof. induction files as [|f fs IH]; cbn [executeHooks]; quietly. Qed.
#[export] Hint Resolve executeHooks_quiet : quiet_calls.

Lemma runCustomHooks_quiet m repo hookName creating p pushOptions env args stdin :
  keepsQuiet (runCustomHooks m repo hookName creating p pushOptions env args stdin).
Proof. unfold runCustomHooks, lift. quietly. Qed.
#[export] Hint Resolve runCustomHooks_quiet : quiet_calls.

Lemma writeAll_quiet pieces : keepsQuiet (writeAll pieces).
Proof. induction pieces as [|x xs IH]; cbn [writeAll]; quietly. Qed.
#[export] Hint Resolve writeAll_quiet : quiet_calls.

Lemma printMessages_quiet messages : keepsQuiet (printMessages messages).
Proof. induction messages as [|x xs IH]; cbn [printMessages]; unfold raise; quietly. Qed.
#[export] Hint Resolve printMessages_quiet : quiet_calls.

Lemma stopOnError_quiet {A} p (m : H HookFailure A) : keepsQuiet m -> keepsQuiet (stopOnError p m).
Proof. intros Hm. unfold stopOnError. quietly. Qed.

Lemma PreReceiveHook_quiet m repo pushOptions env changes : keepsQuiet (PreReceiveHook m repo pushOptions env changes).
Proof.
  unfold PreReceiveHook, internal. apply keepsQuiet_bind; [apply keepsQuiet_ret|]. intros p. case_match; [|apply keepsQuiet_ret].
  apply stopOnError_quiet. unfold preReceiveHook, internal, objectDirsFromEnv, lift, raise. quietly.
Qed.

Lemma UpdateHook_quiet m repo ref oldValue newValue env : keepsQuiet (UpdateHook m repo ref oldValue newValue env).
Proof.
  unfold UpdateHook, internal. apply keepsQuiet_bind; [apply keepsQuiet_ret|]. intros p. case_match; [|apply keepsQuiet_ret].
  apply stopOnError_quiet. unfold updateHook, raise. quietly.
Qed.

Lemma PostReceiveHook_quiet m repo pushOptions env changes : keepsQuiet (PostReceiveHook m repo pushOptions env changes).
Proof.
  unfold PostReceiveHook, internal. apply keepsQuiet_bind; [apply keepsQuiet_ret|]. intros p. case_match; [|apply keepsQuiet_ret].
  apply stopOnError_quiet. unfold postReceiveHook, raise. quietly.
Qed.

Lemma ReferenceTransactionHook_quiet m state env changes : keepsQuiet (ReferenceTransactionHook m state env changes).
Proof.
  unfold ReferenceTransactionHook, lift. apply keepsQuiet_bind; [apply keepsQuiet_ret|]. intros p.
  destruct state; [..|apply keepsQuiet_ret]; (case_match; [apply keepsQuiet_ret|]); unfold orErr, voteOnTransaction;
    (apply keepsQuiet_prog_bind; [apply runWithTransaction_quiet; intros; apply Vote_quiet|intros; apply keepsQuiet_ret]).
Qed.

(** *** What success means *)

Definition happened (kind : event Call -> bool) (t : list (event Call)) : Prop := Exists (fun e => kind e = true) t.

Lemma happened_app kind t u : happened kind (t ++ u) <-> happened kind t \/ happened kind u.
Proof. apply Exists_app. Qed.

(** A vote that is accepted was sent and answered with a commit. *)
Lemma Vote_accepted tx v :
  adds (PoolManager_Vote tx v) (fun r t => r ≠ Panic /\ (r = Ok tt -> happened (isVoteFor v) t)).
Proof.
  unfold PoolManager_Vote. eapply adds_bind with (P := fun r _ => r ≠ Panic); [by apply adds_ask| |done|done].
  intros _ t _. eapply adds_bind with (P := fun r u => r ≠ Panic /\ (r = Ok COMMIT -> happened (isVoteFor v) u)).
  - apply adds_ask; [done|]. intros a. split; [done|]. intros [= ->]. constructor. cbn. by rewrite bool_decide_true.
  - intros state u [_ Hu]. destruct state; apply adds_ret; (split; [done|]); [|done..]. intros _.
    rewrite app_nil_r. apply happened_app. right. by apply Hu.
  - done.
  - by intros u [? _].
Qed.

(** Stopping calls Praefect, unless it cannot be reached. *)
Lemma Stop_called tx :
  adds (PoolManager_Stop tx) (fun r t => r ≠ Panic /\ happened (fun e => isStop e || isUnreachable e) t).
Proof.
  unfold PoolManager_Stop. eapply adds_bind with
    (P := fun r t => r ≠ Panic /\ (forall e, r = Err e -> happened (fun e => isStop e || isUnreachable e) t)).
  - apply adds_ask; [|done]. intros e. split; [done|]. intros _ _. by constructor.
  - intros _ t _. apply adds_ask; intros; (split; [done|]); apply happened_app; right; by constructor.
  - intros e t [_ He]. split; [done|]. by eapply He.
  - by intros t [? _].
Qed.

(** Custom hooks run in their order, up to the first that fails. *)
Lemma executeHooks_order files args env stdin dir :
  adds (executeHooks files args env stdin dir)
    (fun r t => r ≠ Panic /\ omap ranHook t `prefix_of` files /\ (r = Ok tt <-> omap ranHook t = files)).
Proof.
  induction files as [|f fs IH]; cbn [executeHooks].
  - apply adds_ret. by repeat split.
  - eapply adds_bind with (P := fun r t => r ≠ Panic /\
      omap ranHook t = match r with Ok _ => [f] | _ => [] end); [by apply adds_ask| | |].
    + intros a t [_ Ht]. eapply adds_mono; [exact IH|]. intros r u (Hp & Hpre & Hok). rewrite omap_app, Ht. cbn.
      split; [done|]. split; [by apply prefix_cons|]. rewrite Hok. split; congruence.
    + intros e t [_ Ht]. rewrite Ht. split; [done|]. split; [apply prefix_nil|done].
    + by intros t [? _].
Qed.

Lemma runCustomHooks_order m repo hookName creating p pushOptions env args stdin :
  adds (runCustomHooks m repo hookName creating p pushOptions env args stdin)
    (fun r t => r = Ok tt -> exists dir files, customHookFiles m repo (text hookName) = Ok (dir, files) /\ omap ranHook t = files).
Proof.
  unfold runCustomHooks, lift. destruct (customHookFiles m repo (text hookName)) as [[dir files]|e|] eqn:Hf; cbn [withError].
  - apply (adds_bind _ _ (fun r t => r = Ok (dir, files) /\ t = [])); [by apply adds_ret| |done|done].
    intros [dir' files'] t [[= -> ->] ->]. cbn [app]. destruct (customHooksEnv _ _ _ _) as [ce|e|].
    + apply (adds_bind _ _ (fun r t => r = Ok ce /\ t = [])); [by apply adds_ret| |done|done].
      intros ce' t [[= ->] ->]. cbn [app]. eapply adds_mono; [apply executeHooks_order|]. intros r t (_ & _ & Hok) Hr.
      exists dir, files. split; [done|]. by apply Hok.
    + apply (adds_bind _ _ (fun r t => r = Err e)); [by apply adds_ret|done|done|done].
    + apply (adds_bind _ _ (fun r t => r = Panic)); [by apply adds_ret|done|done|done].
  - apply (adds_bind _ _ (fun r t => r = Err creating)); [by apply adds_ret|done|done|done].
  - apply (adds_bind _ _ (fun r t => r = Panic)); [by apply adds_ret|done|done|done].
Qed.

(** A pure step, and a call, at the head of a handler. *)
Lemma adds_lift {E A B} (o : out E A) (k : A -> H E B) Q :
  (forall a, o = Ok a -> adds (k a) Q) -> (forall e, o = Err e -> Q (Err e) []) -> (o = Panic -> Q Panic []) ->
  adds (ret o ≫= k) Q.
Proof. intros Ha He Hp. destruct o as [a|e|]; cbn; [by apply Ha|apply adds_ret; auto|apply adds_ret; auto]. Qed.

Lemma adds_ask_bind {E A B} (f : list ascii -> E) (c : Call (answer A)) (k : A -> H E B) Q :
  (forall e, Q (Err (f e)) [Ev c (inl e)]) -> (forall a, adds (k a) (fun r t => Q r (Ev c (inr a) :: t))) ->
  adds (ask f c ≫= k) Q.
Proof.
  intros He Hk t r Hr. cbn in Hr. destruct Hr as ([e|a] & t' & -> & Hr); cbn in Hr.
  - destruct Hr as [-> ->]. apply He.
  - by apply Hk.
Qed.

(** No custom hooks run while the object directories are looked up. *)
Lemma objectDirs_no_hooks repoPath env repo :
  adds (objectDirsFromEnv repoPath env repo)
    (fun r t => omap ranHook t = [] /\ forall repo', r = Ok repo' -> GlRepository repo' = GlRepository repo).
Proof.
  unfold objectDirsFromEnv, lift. apply adds_lift; [|done|done]. intros dir _. apply adds_lift; [|done|done]. intros alts _.
  case_decide; [apply adds_ret; split; [done|by intros ? [= <-]]|]. apply adds_ask_bind; [done|]. intros real.
  apply adds_lift; [|done|done]. intros d _. apply adds_lift; [|done|done]. intros ds _. apply adds_ret. split; [done|by intros ? [= <-]].
Qed.

(** What a successful pre-receive hook of the primary has done. *)
Definition accepted (m : GitLabHookManager) (changes : list ascii) (repo : Repository) (t : list (event Call)) : Prop :=
  happened (isAllowed changes) t /\ happened isCounted t /\
  exists dir files, customHookFiles m repo (text "pre-receive") = Ok (dir, files) /\ omap ranHook t = files.

Lemma preReceiveHook_accepted m p repo pushOptions env changes :
  adds (preReceiveHook m p repo pushOptions env changes) (fun r t => forall repo', r = Ok repo' -> accepted m changes repo' t).
Proof.
  unfold preReceiveHook, internal, raise. apply adds_lift; [|done|done]. intros repoPath _.
  eapply adds_bind; [apply objectDirs_no_hooks| |done|done]. intros repo1 t0 [Ht0 _].
  case_decide; [by apply adds_ret|]. case_decide; [by apply adds_ret|]. destruct (ReceivePayload p) as [receive|]; [|by apply adds_ret].
  case_decide; [by apply adds_ret|]. case_decide; [by apply adds_ret|]. apply adds_ask_bind; [done|].
  intros [allowed message]. destruct allowed; cbn [negb]; [|by apply adds_ret].
  eapply adds_bind; [apply runCustomHooks_order| |done|done]. intros [] t1 Hhooks. destruct (Hhooks eq_refl) as (dir & files & Hf & Hran).
  apply adds_ask_bind; [done|]. intros ok. destruct ok; cbn [negb]; [|by apply adds_ret].
  apply adds_ret. intros repo' [= <-]. split_and!.
  - apply happened_app. right. constructor. cbn. by rewrite bool_decide_true.
  - apply happened_app. right. constructor 2. apply happened_app. right. by constructor.
  - exists dir, files. split; [done|]. rewrite omap_app, Ht0. cbn. rewrite omap_app, Hran. cbn. by rewrite app_nil_r.
Qed.

(** A hook that fails on the primary of a transaction has tried to stop it. *)
Lemma stopOnError_stops {A} p (m : H HookFailure A) (P : out HookFailure A -> list (event Call) -> Prop) :
  adds m P ->
  adds (stopOnError p m) (fun r t =>
    match r with
    | Err e => (exists t0, P (Err e) t0 /\ t0 `prefix_of` t) /\
        (Transaction p ≠ None -> happened (fun e => isStop e || isUnreachable e) t)
    | _ => P r t
    end).
Proof.
  intros Hm. unfold stopOnError. eapply adds_prog_bind; [exact Hm|]. intros [a|e|] t Ht; [by apply adds_ret; rewrite app_nil_r| |by apply adds_ret; rewrite app_nil_r].
  unfold stopTransaction, runWithTransaction. destruct (Transaction p) as [tx|].
  - eapply adds_prog_bind; [apply Stop_called|]. intros s u [Hs Hu]. destruct s; [..|done]; apply adds_ret;
      (split; [exists t; split; [done|by apply prefix_app_r]|]); intros _; apply happened_app; right; apply happened_app; by left.
  - apply adds_ret. split; [|done]. exists t. by rewrite app_nil_r.
Qed.

(** A vote is cast on the hash of the changes, and the hook succeeds only if it is
    accepted; transactions that are aborted or only delete by force are left out. *)
Lemma ReferenceTransactionHook_votes m state env changes p :
  m_FromEnv m env = Ok p -> state ≠ ReferenceTransactionAborted ->
  adds (ReferenceTransactionHook m state env changes) (fun r t =>
    r = Ok tt -> isForceDeletionsOnly changes = false -> Transaction p ≠ None -> happened (isVoteFor (m_sha1_Sum m (toBytes changes))) t).
Proof.
  intros Hp Hstate. unfold ReferenceTransactionHook, lift. rewrite Hp. cbn [withError]. apply adds_lift; [|done|done]. intros p' [= <-].
  assert (Hgo : adds (if isForceDeletionsOnly changes then mret tt : H HookFailure unit
      else orErr HVote (voteOnTransaction (m_sha1_Sum m (toBytes changes)) p)) (fun r t =>
    r = Ok tt -> isForceDeletionsOnly changes = false -> Transaction p ≠ None -> happened (isVoteFor (m_sha1_Sum m (toBytes changes))) t)).
  { destruct (isForceDeletionsOnly changes); [by apply adds_ret|]. unfold orErr, voteOnTransaction, runWithTransaction.
    destruct (Transaction p) as [tx|]; [|by apply adds_ret]. eapply adds_prog_bind; [apply Vote_accepted|].
    intros [[]|e|] t [_ Ht]; apply adds_ret; [|done..]. intros _ _ _. rewrite app_nil_r. by apply Ht. }
  by destruct state.
Qed.

Lemma PreReceiveHook_spec m repo pushOptions env changes p :
  m_FromEnv m env = Ok p ->
  adds (PreReceiveHook m repo pushOptions env changes) (fun r t =>
    if isPrimary p then
      (forall repo', r = Ok repo' -> accepted m changes repo' t) /\
      (forall e, r = Err e -> Transaction p ≠ None -> happened (fun e => isStop e || isUnreachable e) t)
    else t = [] /\ r = Ok repo).
Proof.
  intros Hp t r Hrun. unfold PreReceiveHook, internal in Hrun. rewrite Hp in Hrun. cbn in Hrun. destruct (isPrimary p); [|by destruct Hrun as [-> ->]].
  apply (stopOnError_stops _ _ _ (preReceiveHook_accepted m p repo pushOptions env changes)) in Hrun. split.
  - intros repo' ->. by apply Hrun.
  - intros e -> Htx. by apply Hrun.
Qed.

(** C35. On a secondary the pre-receive hook accepts every change without asking
    anybody. On the primary it succeeds only if GitLab allowed exactly these changes,
    every custom hook ran in its order and succeeded, and GitLab counted the push; if
    it fails within a transaction, the transaction is stopped, so that secondaries
    do not wait for the primary's vote, unless Praefect cannot be reached. *)
Theorem pre_receive_correct m repo pushOptions env changes p t r :
  m_FromEnv m env = Ok p -> runs (PreReceiveHook m repo pushOptions env changes) t r ->
  if isPrimary p then
    (forall repo', r = Ok repo' ->
      happened (isAllowed changes) t /\ happened isCounted t /\
      exists dir files, customHookFiles m repo' (text "pre-receive") = Ok (dir, files) /\ omap ranHook t = files) /\
    (forall e, r = Err e -> Transaction p ≠ None -> happened (fun e => isStop e || isUnreachable e) t)
  else t = [] /\ r = Ok repo.
Proof. intros Hp. by apply PreReceiveHook_spec. Qed.

(** *** Example: a push that GitLab refuses *)

Module Example.

Definition payload (primary : bool) : HooksPayload :=
  mkHooksPayload ReceivePackHooks ∅ (Some (mkRepository "default" (text "a.git") [] [] (text "project-1") [])) [] [] [] []
    (Some (mkTxInfo 1 7 (text "gitaly-1") primary)) (Some (mkReceiveHooksPayload (text "user-1") [] (text "web"))).

Definition manager (primary : bool) : GitLabHookManager :=
  mkManager (fun _ => Ok (text "/git/a.git")) (fun _ => Ok (text "/git/a.git")) (text "/hooks") (fun _ => true)
    (fun _ => DirEntries [text "check"]) (fun _ => Ok (payload primary)) (fun b => b).

Definition repo : Repository := mkRepository "default" (text "a.git") [] [] (text "project-1") [].

(** GitLab's decision is the state; everything else succeeds. *)
Definition handle (X : Type) (c : Call X) (allowed : bool) : X * bool :=
  (match c in Call X return X with
   | EvalSymlinks path => inr path
   | Allowed _ => inr (allowed, text "denied")
   | PreReceive _ => inr true
   | PostReceive _ _ _ _ => inr (true, [])
   | VoteTransactionRPC _ _ _ => inr COMMIT
   | GitVersionCall => inl []
   | GitReadLine => inr []
   | RunHook _ _ _ _ _ | WriteStdout _ | Backchannel _ | StopTransactionRPC _ | GitSpawn _ _ | GitWrite _ | GitWait
   | MigrateQuarantine => inr tt
   end, allowed).

End Example.

(** Example for [pre_receive_correct]: a refusal stops the transaction. *)
Example pre_receive_correct_witness :
  let '(r, t, _) := run Example.handle (PreReceiveHook (Example.manager true) Example.repo [] [] (text "changes")) false in
  r = Err (HNotAllowed (text "denied") (text "user-1") (text "web") (text "changes")) /\
  happened (fun e => isStop e || isUnreachable e) t.
Proof.
  pose proof (run_runs Example.handle (PreReceiveHook (Example.manager true) Example.repo [] [] (text "changes")) false) as Hruns.
  pose proof (pre_receive_correct (Example.manager true) Example.repo [] [] (text "changes") (Example.payload true) _ _ eq_refl Hruns) as [_ Hstop].
  assert (Hr : (run Example.handle (PreReceiveHook (Example.manager true) Example.repo [] [] (text "changes")) false).1.1 =
    Err (HNotAllowed (text "denied") (text "user-1") (text "web") (text "changes"))) by (vm_compute; reflexivity).
  destruct (run Example.handle _ false) as [[r t] s]. cbn in Hr, Hstop. split; [exact Hr|]. eapply Hstop; [exact Hr|discriminate].
Defined.
