(* ===== verification/UpdateRef.v ===== *)
(** Updating references through git with the hooks of a push
    (src/internal/git/updateref): the conversation with [git update-ref --stdin -z]
    and [UpdateReference], which the services that change one reference call.

    git itself is behind calls; what it is told is the sequence of [GitWrite]s. *)

From Stdlib Require Import Strings.Ascii.
From S2P Require Import Prelude GoStrings Regex Voting HooksPayload Locator GitCommand GitVersion Effects Hooks.

(** ** The updater *)

Record Updater : Type := mkUpdater {
  withStatusFlushing : bool;
}.

Inductive UpdaterError : Type :=
| USpawn (err : list ascii)
| UVersion (err : list ascii)
| UWrite (err : list ascii)
| URead (err : list ascii)
| UNotOk (line : list ascii)
| UWait (err : list ascii).

Definition Cancel (u : Updater) : H UpdaterError unit := ask UWait GitWait.

Definition okLine (state : list ascii) : list ascii := state ++ text ": ok" ++ [newline].

Definition setState (u : Updater) (state : list ascii) : H UpdaterError unit :=
  _ ← ask UWrite (GitWrite (state ++ [nul]));
  if withStatusFlushing u then
    call GitReadLine (fun r =>
      match r with
      | inl err => prog_bind (Cancel u) (fun _ => raise (URead err))
      | inr line => if decide (line = okLine state) then ret (Ok tt) else raise (UNotOk line)
      end)
  else mret tt.

Definition updateRefArgs : list (list ascii) := text <$> ["update-ref"; "-z"; "--stdin"].

(** [hooks] is the payload for git's own hooks unless they are disabled; the flag
    turns the verification of states on. *)
Definition New (hooks : option HooksPayload) (verifyStateChanges : bool) : H UpdaterError Updater :=
  _ ← ask USpawn (GitSpawn updateRefArgs hooks);
  flushing ← (if verifyStateChanges then v ← ask UVersion GitVersionCall; mret (FlushesUpdaterefStatus v) else mret false);
  let u := mkUpdater flushing in
  _ ← setState u (text "start");
  mret u.

Definition updateLine (reference newvalue oldvalue : list ascii) : list ascii :=
  text "update " ++ reference ++ [nul] ++ newvalue ++ [nul] ++ oldvalue ++ [nul].

Definition Update (u : Updater) (reference newvalue oldvalue : list ascii) : H UpdaterError unit :=
  ask UWrite (GitWrite (updateLine reference newvalue oldvalue)).

Definition Create (u : Updater) (reference value : list ascii) : H UpdaterError unit := Update u reference value ZeroOID.
Definition Delete (u : Updater) (reference : list ascii) : H UpdaterError unit := Update u reference ZeroOID [].
Definition Prepare (u : Updater) : H UpdaterError unit := setState u (text "prepare").

Definition Commit (u : Updater) : H UpdaterError unit :=
  _ ← setState u (text "commit");
  ask UWait GitWait.

(** ** Updating a reference with hooks *)

Inductive UpdateError : Type :=
| ETransaction
| EInternal (what : string)
| EPayload (err : PayloadError)
| EHook (err : HookFailure)
| EMigrate (err : list ascii)
| ECreate (err : UpdaterError)
| EQueue (err : UpdaterError)
| EReference (reference : list ascii).

(** What [txinfo.TransactionFromContext] finds. *)
Inductive TxContext : Type :=
| NoTransaction
| InTransaction (tx : TxInfo)
| BadTransaction.

Definition changesOf (oldrev newrev reference : list ascii) : list ascii :=
  oldrev ++ [blank] ++ newrev ++ [blank] ++ reference ++ [newline].

Record UpdaterWithHooks : Type := mkUpdaterWithHooks {
  u_cfg : GitalyCfg;
  u_pid : list ascii;
  u_manager : GitLabHookManager;
  u_Env : HooksPayload -> out PayloadError (list ascii);
  u_verifyStateChanges : bool;
  u_featureFlags : gmap string string;
}.

Definition hooksEnv (u : UpdaterWithHooks) (repo : Repository) (tx : option TxInfo) (receive : ReceiveHooksPayload) :
    H UpdateError (list ascii) :=
  lift match u_Env u (NewHooksPayload (u_cfg u) (u_pid u) (Some repo) tx (Some receive) ReceivePackHooks (u_featureFlags u)) with
       | Ok e => Ok e
       | Err e => Err (EPayload e)
       | Panic => Panic
       end.

(** The part of [UpdateReference] between locking the reference and returning; its
    deferred cancellation ends the process however it returns. *)
Definition commitReference (u : UpdaterWithHooks) (up : Updater) (repo : Repository) (reference changes hooksPayload : list ascii)
    (pushOptions : list (list ascii)) : H UpdateError unit :=
  let m := u_manager u in
  prog_bind
    (_ ← orErr EHook (ReferenceTransactionHook m ReferenceTransactionPrepared [hooksPayload] changes);
     _ ← orErr (fun _ => EReference reference) (Commit up);
     _ ← orErr EHook (ReferenceTransactionHook m ReferenceTransactionCommitted [hooksPayload] changes);
     orErr EHook (PostReceiveHook m repo pushOptions [hooksPayload] changes))
    (fun r => prog_bind (Cancel up) (fun _ => ret r)).

Definition UpdateReference (u : UpdaterWithHooks) (ctx : TxContext) (repo : Repository) (userID userName : list ascii)
    (quarantine : option Repository) (reference newrev oldrev : list ascii) (pushOptions : list (list ascii)) : H UpdateError unit :=
  let m := u_manager u in
  transaction ← lift match ctx with
                     | NoTransaction => Ok None
                     | InTransaction tx => Ok (Some tx)
                     | BadTransaction => Err ETransaction
                     end;
  if decide (reference = []) then raise (EInternal "UpdateReference: got no reference")
  else if negb (ValidateObjectID oldrev) then raise (EInternal "UpdateReference: got invalid old value")
  else if negb (ValidateObjectID newrev) then raise (EInternal "UpdateReference: got invalid new value")
  else
    let changes := changesOf oldrev newrev reference in
    let receive := mkReceiveHooksPayload userID userName (text "web") in
    let quarantinedRepo := default repo quarantine in
    hooksPayload ← hooksEnv u quarantinedRepo transaction receive;
    quarantinedRepo ← orErr EHook (PreReceiveHook m quarantinedRepo pushOptions [hooksPayload] changes);
    (* Without a quarantine both are the same message. *)
    let repo := match quarantine with None => quarantinedRepo | Some _ => repo end in
    hooksPayload ← match quarantine with
                   | None => mret hooksPayload
                   | Some _ => _ ← ask EMigrate MigrateQuarantine; hooksEnv u repo transaction receive
                   end;
    _ ← orErr EHook (UpdateHook m quarantinedRepo reference oldrev newrev [hooksPayload]);
    up ← orErr ECreate (New None (u_verifyStateChanges u));
    _ ← orErr EQueue (Update up reference newrev oldrev);
    _ ← orErr (fun _ => EReference reference) (Prepare up);
    commitReference u up repo reference changes hooksPayload pushOptions.

(** ** Properties *)

(** *** What git is told *)

Definition gitWrite (e : event Call) : option (list ascii) :=
  match e with Ev c _ => match c with GitWrite data => Some data | _ => None end end.

Definition gitWrites (t : list (event Call)) : list (list ascii) := omap gitWrite t.

Definition isCommit (e : event Call) : bool := bool_decide (gitWrite e = Some (text "commit" ++ [nul])).

Lemma gitWrites_app t u : gitWrites (t ++ u) = gitWrites t ++ gitWrites u.
Proof. apply omap_app. Qed.

Lemma gitWrites_quiet t : quiet t -> gitWrites t = [].
Proof.
  induction 1 as [|e t He _ IH]; [done|]. unfold gitWrites in *. cbn. rewrite IH. destruct e as [X c x]. by destruct c.
Qed.

(** What a step of the conversation writes. *)
Definition writes {A} (p : prog Call A) (l : list (list ascii)) : Prop := adds p (fun _ t => gitWrites t = l).

Lemma Cancel_writes u : writes (Cancel u) [].
Proof. by apply adds_ask. Qed.

Lemma setState_writes u state : writes (setState u state) [state ++ [nul]].
Proof.
  unfold setState. apply adds_ask_bind; [done|]. intros []. destruct (withStatusFlushing u); [|by apply adds_ret].
  intros t r (x & t' & -> & Hr). destruct x as [err|line].
  - assert (Hc : adds (prog_bind (Cancel u) (fun _ => @raise Call UpdaterError unit (URead err))) (fun _ t => gitWrites t = [])).
    { eapply adds_prog_bind; [apply Cancel_writes|]. intros a t Ht. apply adds_ret. by rewrite app_nil_r. }
    cbn. unfold gitWrites in *. cbn. by rewrite (Hc t' r Hr).
  - case_decide; cbn in Hr; by destruct Hr as [-> _].
Qed.

Lemma adds_orErr {E E' A} (f : E -> E') (m : H E A) P Q :
  adds m P -> (forall a t, P (Ok a) t -> Q (Ok a) t) -> (forall e t, P (Err e) t -> Q (Err (f e)) t) -> (forall t, P Panic t -> Q Panic t) ->
  adds (orErr f m) Q.
Proof.
  intros Hm Ha He Hp. unfold orErr. eapply adds_prog_bind; [exact Hm|].
  intros [a|e|] t Ht; apply adds_ret; rewrite app_nil_r; auto.
Qed.

Lemma New_writes hooks verify : adds (New hooks verify) (fun r t =>
  exists l, gitWrites t = l /\ l `prefix_of` [text "start" ++ [nul]] /\ (forall u, r = Ok u -> l = [text "start" ++ [nul]])).
Proof.
  unfold New. apply adds_ask_bind; [intros e; exists []; split; [done|]; split; [apply prefix_nil|done]|]. intros [].
  assert (Hrest : forall flushing, adds (_ ← setState (mkUpdater flushing) (text "start"); mret (mkUpdater flushing)) (fun (r : out UpdaterError Updater) t => gitWrites t = [text "start" ++ [nul]])).
  { intros flushing. eapply adds_bind; [apply setState_writes| |done|done]. intros [] t Ht. apply adds_ret. by rewrite app_nil_r. }
  destruct verify.
  - cbn. intros t r (x & t' & -> & Hr). destruct x as [e|v]; cbn in Hr.
    + destruct Hr as [-> ->]. exists []. split; [done|]. split; [apply prefix_nil|done].
    + exists [text "start" ++ [nul]]. split; [exact (Hrest _ _ _ Hr)|done].
  - intros t r Hr. exists [text "start" ++ [nul]]. split; [exact (Hrest _ _ _ Hr)|done].
Qed.

Lemma isCommit_writes t : text "commit" ++ [nul] ∉ gitWrites t -> Forall (fun e => isCommit e = false) t.
Proof.
  intros Hn. apply Forall_forall. intros e He. unfold isCommit. apply bool_decide_eq_false. intros Hc. apply Hn.
  apply list_elem_of_omap. eauto.
Qed.

Section Correctness.
Context (u : UpdaterWithHooks) (tx : option TxInfo) (reference newrev oldrev : list ascii).
Let changes := changesOf oldrev newrev reference.
Let hash := m_sha1_Sum (u_manager u) (toBytes changes).

(** The hooks read the payload the node wrote. *)
Definition codec_ok : Prop := forall p repo env,
  Repo p = Some repo -> u_Env u p = Ok env -> exists p', m_FromEnv (u_manager u) [env] = Ok p' /\ Transaction p' = Transaction p.

(** All that git is ever told. *)
Definition conversation : list (list ascii) :=
  [text "start" ++ [nul]; updateLine reference newrev oldrev; text "prepare" ++ [nul]; text "commit" ++ [nul]].

Definition runsHooks : bool := match tx with None => true | Some tx => Primary tx end.

(** The reference-transaction hook casts votes: there is a transaction, and the change
    is not one from nothing to nothing or of a name that the hook's scanner cuts, which
    the hook takes for a forced deletion. *)
Definition votes : Prop := tx ≠ None /\ (oldrev ≠ ZeroOID \/ newrev ≠ ZeroOID) /\ Z.of_nat (length reference) < 65000.

(** What must have happened before the commit. *)
Definition approved (t : list (event Call)) : Prop :=
  gitWrites t = take 3 conversation /\
  (runsHooks = true -> happened (isAllowed changes) t) /\
  (votes -> happened (isVoteFor hash) t).

Definition updated (r : out UpdateError unit) (t : list (event Call)) : Prop :=
  gitWrites t `prefix_of` conversation /\ guarded isCommit approved t /\
  (r = Ok tt -> exists t1 e t2, t = t1 ++ e :: t2 /\ isCommit e = true /\ (votes -> happened (isVoteFor hash) t2)).

Lemma commit_not_before : text "commit" ++ [nul] ∉ take 3 conversation.
Proof.
  unfold conversation, updateLine. cbn [take]. rewrite !not_elem_of_cons. split_and!; [done| |done|apply not_elem_of_nil]. intros Heq.
  assert (Hhd : head (text "commit" ++ [nul]) = head (text "update ")) by by rewrite Heq. done.
Qed.

(** Before the commit is sent, an error leaves the reference alone. *)
Lemma updated_early r t : gitWrites t `prefix_of` take 3 conversation -> r ≠ Ok tt -> updated r t.
Proof.
  intros Hpre Hr. split_and!; [etrans; [exact Hpre|apply prefix_take]| |done]. apply guarded_none, isCommit_writes. intros Hin.
  destruct Hpre as [k Hk]. apply commit_not_before. rewrite Hk. apply elem_of_app. by left.
Qed.

Lemma refTx_votes env state p :
  m_FromEnv (u_manager u) [env] = Ok p -> Transaction p = tx -> state ≠ ReferenceTransactionAborted -> (votes -> isForceDeletionsOnly changes = false) ->
  adds (orErr EHook (ReferenceTransactionHook (u_manager u) state [env] changes)) (fun r t =>
    quiet t /\ (r = Ok tt -> votes -> happened (isVoteFor hash) t)).
Proof.
  intros Hp Htx Hstate Hforce.
  assert (Hadds : adds (ReferenceTransactionHook (u_manager u) state [env] changes) (fun r t =>
    quiet t /\ (r = Ok tt -> votes -> happened (isVoteFor hash) t))).
  { intros t r Hr. split; [by eapply ReferenceTransactionHook_quiet|]. intros Hok Hne.
    eapply (ReferenceTransactionHook_votes (u_manager u) state [env] changes p); [done|done|exact Hr|done|by auto|rewrite Htx; apply Hne]. }
  eapply adds_orErr; [exact Hadds|..].
  - intros [] t [Hq Hv]. split; [done|auto].
  - intros e t [Hq _]. by split.
  - intros t [Hq _]. by split.
Qed.

(** The commit is the first thing sent by [Commit], and the last. *)
Definition sent (t : list (event Call)) : Prop :=
  exists e t', t = e :: t' /\ gitWrite e = Some (text "commit" ++ [nul]) /\ gitWrites t' = [].

Lemma Commit_sends up : adds (Commit up) (fun _ => sent).
Proof.
  unfold Commit, setState. intros t r Hr. cbn in Hr. destruct Hr as (x & t' & -> & Hr). eexists _, t'. split_and!; [done|done|].
  revert Hr. destruct x as [err|[]]; cbn; [by intros [-> _]|]. destruct (withStatusFlushing up); cbn.
  - intros ([err|line] & u2 & -> & Hr).
    + by destruct Hr as (x & u3 & -> & [-> _]).
    + unfold gitWrites. cbn. case_decide; cbn in Hr; [|by destruct Hr as [-> _]]. by destruct Hr as (x & u3 & -> & -> & _).
  - by intros (x & u3 & -> & -> & _).
Qed.

Lemma sent_app t t' : sent t -> gitWrites t' = [] -> sent (t ++ t').
Proof.
  intros (e & t2 & -> & He & Ht2) Ht'. exists e, (t2 ++ t'). split_and!; [done|done|]. by rewrite gitWrites_app, Ht2.
Qed.

(** Once the commit was sent with approval. *)
Lemma updated_sent r before t t' :
  approved before -> sent t -> gitWrites t' = [] -> (r = Ok tt -> votes -> happened (isVoteFor hash) t') ->
  updated r (before ++ t ++ t').
Proof.
  intros Happ (e & t2 & -> & He & Ht2) Ht' Hv.
  assert (Hrest : gitWrites (t2 ++ t') = []) by by rewrite gitWrites_app, Ht2. split_and!.
  - rewrite gitWrites_app, (proj1 Happ). unfold gitWrites in *. cbn [omap list_omap app]. rewrite He, Hrest. done.
  - apply guarded_app. split; [apply guarded_none, isCommit_writes; rewrite (proj1 Happ); apply commit_not_before|].
    intros v e' v' Heq He'. destruct v as [|e0 v]; [by rewrite app_nil_r|]. injection Heq as -> Heq.
    assert (Hin : text "commit" ++ [nul] ∈ gitWrites (t2 ++ t')).
    { rewrite Heq. apply list_elem_of_omap. exists e'. split; [apply elem_of_app; right; by left|]. by apply bool_decide_eq_true in He'. }
    rewrite Hrest in Hin. by apply elem_of_nil in Hin.
  - intros Hr. exists before, e, (t2 ++ t'). split_and!; [done|by apply bool_decide_eq_true|].
    intros Hne. apply happened_app. right. auto.
Qed.

(** Calls that tell git nothing, at the end. *)
Lemma updated_silent r t t' : updated r t -> gitWrites t' = [] -> updated r (t ++ t').
Proof.
  intros (Hpre & Hg & Hok) Ht'. split_and!.
  - by rewrite gitWrites_app, Ht', app_nil_r.
  - apply guarded_app. split; [done|]. apply guarded_none, isCommit_writes. rewrite Ht'. apply not_elem_of_nil.
  - intros Hr. destruct (Hok Hr) as (t1 & e & t2 & -> & He & Hv). exists t1, e, (t2 ++ t'). split_and!; [by rewrite <- app_assoc|done|].
    intros Hne. apply happened_app. left. auto.
Qed.

(** From the lock on the reference to the end. *)
Lemma commitReference_updated up repo env pushOptions p t0 :
  m_FromEnv (u_manager u) [env] = Ok p -> Transaction p = tx -> (votes -> isForceDeletionsOnly changes = false) ->
  gitWrites t0 = take 3 conversation -> (runsHooks = true -> happened (isAllowed changes) t0) ->
  adds (commitReference u up repo reference changes env pushOptions) (fun r t => updated r (t0 ++ t)).
Proof.
  intros Hp Htx Hforce Hw Hallowed. unfold commitReference.
  apply (adds_prog_bind _ _ (fun r t => updated r (t0 ++ t))); cycle 1.
  { intros r t Ht. eapply adds_prog_bind; [apply Cancel_writes|]. intros x v Hv. apply adds_ret. rewrite app_nil_r, app_assoc.
    by apply updated_silent. }
  assert (Hearly : forall r t, r ≠ Ok tt -> quiet t -> updated r (t0 ++ t)).
  { intros r t Hr Ht. apply updated_early; [|done]. by rewrite gitWrites_app, Hw, (gitWrites_quiet t Ht), app_nil_r. }
  eapply adds_bind.
  { by apply (refTx_votes env ReferenceTransactionPrepared p). }
  2: { intros e t [Hq _]. by apply Hearly. }
  2: { intros t [Hq _]. by apply Hearly. }
  intros [] t1 [Hq1 Hv1]. specialize (Hv1 eq_refl). pose proof (gitWrites_quiet t1 Hq1) as Hw1.
  assert (Happ : approved (t0 ++ t1)).
  { split; [by rewrite gitWrites_app, Hw, Hw1, app_nil_r|]. split; intros Hx; apply happened_app; auto. }
  assert (Hsent : forall r t t', sent t -> gitWrites t' = [] -> (r = Ok tt -> votes -> happened (isVoteFor hash) t') ->
    updated r (t0 ++ t1 ++ t ++ t')) by (intros; rewrite app_assoc; by apply updated_sent).
  eapply adds_bind; [by apply (adds_orErr _ _ _ (fun _ => sent) (Commit_sends up))| |..].
  2: { intros x t Ht. rewrite <- (app_nil_r t). by apply Hsent. }
  2: { intros t Ht. rewrite <- (app_nil_r t). by apply Hsent. }
  intros [] t2 Ht2. eapply adds_bind; [by apply (refTx_votes env ReferenceTransactionCommitted p)| |..].
  2: { intros x t [Hq _]. apply Hsent; [done|by apply gitWrites_quiet|done]. }
  2: { intros t [Hq _]. apply Hsent; [done|by apply gitWrites_quiet|done]. }
  intros [] t3 [Hq3 Hv3]. specialize (Hv3 eq_refl).
  assert (Hpost : adds (PostReceiveHook (u_manager u) repo pushOptions [env] changes) (fun _ t => gitWrites (t3 ++ t) = [])).
  { intros t r Hr. apply gitWrites_quiet, Forall_app. split; [done|]. by eapply PostReceiveHook_quiet. }
  eapply (adds_orErr _ _ _ _ Hpost).
  - intros a t Ht. apply Hsent; [done|done|]. intros _ Hne. apply happened_app. left. auto.
  - intros x t Ht. by apply Hsent.
  - intros t Ht. by apply Hsent.
Qed.

End Correctness.

Lemma oid_no_char id c : ValidateObjectID id = true -> Regex.between 48 57 c || Regex.between 97 102 c = false -> c ∉ id.
Proof. intros [_ Hall]%ValidateObjectID_spec Hc Hin. by rewrite (Hall c Hin) in Hc. Qed.

(** The changes of one reference start with a line for it. *)
Lemma changesOf_split oldrev newrev reference :
  ValidateObjectID oldrev = true -> ValidateObjectID newrev = true ->
  exists q ps, Split newline (changesOf oldrev newrev reference) = (oldrev ++ [blank] ++ newrev ++ [blank] ++ q) :: ps /\
    q `prefix_of` reference.
Proof.
  intros Ho Hn. pose proof (Cut_spec newline reference) as Hcut.
  assert (Hno : forall q, newline ∉ q -> newline ∉ oldrev ++ [blank] ++ newrev ++ [blank] ++ q).
  { intros q Hq. rewrite !elem_of_app, !list_elem_of_singleton.
    pose proof (oid_no_char oldrev newline Ho eq_refl). pose proof (oid_no_char newrev newline Hn eq_refl). by intros [?|[?|[?|[?|?]]]]. }
  assert (Hgo : forall q rest, newline ∉ q -> Split newline (oldrev ++ [blank] ++ newrev ++ [blank] ++ q ++ newline :: rest) =
    (oldrev ++ [blank] ++ newrev ++ [blank] ++ q) :: Split newline rest).
  { intros q rest Hq. rewrite <- (Split_app newline _ rest (Hno q Hq)). f_equal. by rewrite <- !app_assoc. }
  unfold changesOf. destruct (Cut newline reference) as [q [rest|]].
  - destruct Hcut as [-> Hq]. exists q. eexists. rewrite <- app_assoc. cbn [app]. split; [by apply Hgo|]. by apply prefix_app_r.
  - destruct Hcut as [-> Hq]. exists q. eexists. split; [by apply Hgo|done].
Qed.

(** A change is not taken for a forced deletion, unless it goes from nothing to
    nothing or its name is as long as the scanner's buffer. *)
Lemma changesOf_not_forced oldrev newrev reference :
  ValidateObjectID oldrev = true -> ValidateObjectID newrev = true -> oldrev ≠ ZeroOID \/ newrev ≠ ZeroOID ->
  Z.of_nat (length reference) < 65000 -> isForceDeletionsOnly (changesOf oldrev newrev reference) = false.
Proof.
  intros Ho Hn Hz Hlen. destruct (changesOf_split oldrev newrev reference Ho Hn) as (q & ps & Hs & Hq%prefix_length).
  apply ValidateObjectID_spec in Ho as [Hol _], Hn as [Hnl _]. unfold isForceDeletionsOnly. rewrite Hs. cbn [scannedLines].
  set (line := oldrev ++ [blank] ++ newrev ++ [blank] ++ q).
  assert (Hll : length line = (82 + length q)%nat) by (unfold line; rewrite !length_app; cbn; lia).
  rewrite decide_False by (intros [He _]; rewrite He in Hll; cbn in Hll; lia).
  assert (Hfit : (Z.of_nat (length line) <? 65536) = true) by (apply Z.ltb_lt; lia). rewrite Hfit. cbn [forallb].
  apply andb_false_iff. left. apply not_true_is_false. intros [rest Hp]%HasPrefix_spec.
  assert (Hpre : forceDeletionPrefix `prefix_of` line).
  { unfold dropCR in Hp. case_decide; [|by exists rest].
    rewrite <- (take_drop (length line - 1) line). rewrite Hp, <- app_assoc. by apply prefix_app_r. }
  destruct Hpre as [k Hk]. unfold line, forceDeletionPrefix in Hk. rewrite <- !app_assoc in Hk.
  assert (Hzl : length ZeroOID = 40%nat) by apply length_replicate. revert Hk Hz Hzl. generalize ZeroOID as zero. intros zero Hk Hz Hzl.
  apply app_inj_1 in Hk as [-> Hk]; [|congruence]. injection Hk as Hk. apply app_inj_1 in Hk as [-> _]; [|congruence]. by destruct Hz.
Qed.

Lemma preReceive_allowed u env p repo pushOptions changes :
  m_FromEnv (u_manager u) [env] = Ok p ->
  adds (orErr EHook (PreReceiveHook (u_manager u) repo pushOptions [env] changes)) (fun r t =>
    gitWrites t = [] /\ forall repo', r = Ok repo' -> isPrimary p = true -> happened (isAllowed changes) t).
Proof.
  intros Hp. assert (Hadds : adds (PreReceiveHook (u_manager u) repo pushOptions [env] changes) (fun r t =>
    gitWrites t = [] /\ forall repo', r = Ok repo' -> isPrimary p = true -> happened (isAllowed changes) t)).
  { intros t r Hr. split; [eapply gitWrites_quiet, PreReceiveHook_quiet; exact Hr|]. intros repo' -> Hprim.
    apply (PreReceiveHook_spec _ _ _ _ _ p Hp) in Hr. rewrite Hprim in Hr. by destruct Hr as [Hacc _], (Hacc repo' eq_refl). }
  eapply adds_orErr; [exact Hadds|..].
  - intros a t [Hq Ha]. split; [done|]. intros repo' [= <-]. by apply (Ha a).
  - intros e t [Hq _]. by split.
  - intros t [Hq _]. by split.
Qed.

(** The payload for the hooks after the pre-receive hook. *)
Lemma hooksEnv_decodes u repo tx receive :
  codec_ok u ->
  adds (hooksEnv u repo tx receive) (fun r t => t = [] /\
    forall env, r = Ok env -> exists p, m_FromEnv (u_manager u) [env] = Ok p /\ Transaction p = tx).
Proof.
  intros Hcodec. apply adds_ret. split; [done|]. intros env Henv.
  destruct (u_Env u _) as [e|e|] eqn:He; simplify_eq. eapply Hcodec in He as (p & Hp & Htx); [|reflexivity]. eauto.
Qed.

(** The codec of the payload is such a one, if the encodings it uses are. *)
Lemma payload_codec_ok u protojson_Marshal protojson_Unmarshal json_Marshal json_Unmarshal :
  (forall p r m, json_Marshal (mkJsonHooksPayload p r) = Ok m ->
    exists p0, json_Unmarshal m = Ok (mkJsonHooksPayload p0 r) /\ forall repo, setRepo p0 repo = setRepo p repo) ->
  (forall repo m, protojson_Marshal (Some repo) = Ok m -> protojson_Unmarshal m = Ok repo) ->
  u_Env u = HooksPayload_Env protojson_Marshal json_Marshal ->
  m_FromEnv (u_manager u) = HooksPayloadFromEnv protojson_Unmarshal json_Unmarshal ->
  codec_ok u.
Proof.
  intros Hjson Hproto HEnv HFrom p repo env Hrepo He. rewrite HEnv in He. rewrite HFrom.
  destruct (payload_decodes _ _ _ _ Hjson Hproto p repo env [] [] Hrepo He eq_refl) as (p' & Hp' & _ & Htx & _). eauto.
Qed.

Lemma migrated_env u quarantine repo tx receive env p :
  codec_ok u -> m_FromEnv (u_manager u) [env] = Ok p -> Transaction p = tx ->
  adds (match quarantine : option Repository with
        | None => mret env : H UpdateError (list ascii)
        | Some _ => _ ← ask EMigrate MigrateQuarantine; hooksEnv u repo tx receive
        end) (fun r t => gitWrites t = [] /\
    forall env, r = Ok env -> exists p, m_FromEnv (u_manager u) [env] = Ok p /\ Transaction p = tx).
Proof.
  intros Hcodec Hp Htx. destruct quarantine as [q|].
  - apply adds_ask_bind; [done|]. intros []. eapply adds_mono; [by apply hooksEnv_decodes|]. by intros r t [-> Hr].
  - apply adds_ret. split; [done|]. intros ? [= <-]. eauto.
Qed.

(** From the spawned process to the lock on the reference. *)
Lemma lock_writes verify reference newrev oldrev k Q :
  (forall r t, r ≠ Ok tt -> gitWrites t `prefix_of` take 3 (conversation reference newrev oldrev) -> Q r t) ->
  (forall up t, gitWrites t = take 3 (conversation reference newrev oldrev) -> adds (k up) (fun r u => Q r (t ++ u))) ->
  adds (up ← orErr ECreate (New None verify);
        _ ← orErr EQueue (Update up reference newrev oldrev);
        _ ← orErr (fun _ => EReference reference) (Prepare up);
        k up) Q.
Proof.
  intros Herr Hk.
  assert (Hstart : forall l, l `prefix_of` [text "start" ++ [nul]] -> l `prefix_of` take 3 (conversation reference newrev oldrev))
    by (intros l Hl; etrans; [exact Hl|by eexists]).
  assert (Hnew : adds (orErr ECreate (New None verify)) (fun r t => gitWrites t `prefix_of` [text "start" ++ [nul]] /\
    forall up, r = Ok up -> gitWrites t = [text "start" ++ [nul]])).
  { apply (adds_orErr _ _ _ _ (New_writes None verify)); intros * (l & -> & Hl & Hok); (split; [done|]); [|done..].
    intros up [= <-]. by eapply Hok. }
  eapply adds_bind; [exact Hnew| |intros e t [Ht _]; apply Herr; [done|auto]|intros t [Ht _]; apply Herr; [done|auto]].
  intros up t1 [_ Ht1]. specialize (Ht1 up eq_refl).
  eapply adds_bind.
  { apply (adds_orErr _ _ (fun _ t => gitWrites t = [updateLine reference newrev oldrev]) (fun _ t => gitWrites t = [updateLine reference newrev oldrev]));
      [by apply adds_ask|done..]. }
  2: { intros e t Ht. apply Herr; [done|]. rewrite gitWrites_app, Ht1, Ht. by eexists. }
  2: { intros t Ht. apply Herr; [done|]. rewrite gitWrites_app, Ht1, Ht. by eexists. }
  intros [] t2 Ht2. eapply adds_bind.
  { by apply (adds_orErr _ _ _ (fun _ t => gitWrites t = [text "prepare" ++ [nul]]) (setState_writes up (text "prepare"))). }
  2: { intros e t Ht. apply Herr; [done|]. rewrite !gitWrites_app, Ht1, Ht2, Ht. by eexists. }
  2: { intros t Ht. apply Herr; [done|]. rewrite !gitWrites_app, Ht1, Ht2, Ht. by eexists. }
  intros [] t3 Ht3. eapply adds_mono; [apply (Hk up (t1 ++ t2 ++ t3))|].
  - by rewrite !gitWrites_app, Ht1, Ht2, Ht3.
  - intros r v. cbn beta. by rewrite <- !app_assoc.
Qed.

Lemma UpdateReference_updated u ctx tx repo userID userName quarantine reference newrev oldrev pushOptions :
  codec_ok u -> match ctx with NoTransaction => tx = None | InTransaction x => tx = Some x | BadTransaction => True end ->
  adds (UpdateReference u ctx repo userID userName quarantine reference newrev oldrev pushOptions) (updated u tx reference newrev oldrev).
Proof.
  intros Hcodec Hctx. unfold UpdateReference, lift, raise.
  assert (Hnone : forall r t, r ≠ Ok tt -> gitWrites t = [] -> updated u tx reference newrev oldrev r t).
  { intros r t Hr Ht. apply updated_early; [|done]. rewrite Ht. apply prefix_nil. }
  apply adds_lift; [|intros; by apply Hnone..]. intros tr Htr.
  assert (tr = tx) as -> by (destruct ctx; simplify_eq; done). clear Hctx Htr.
  case_decide; [apply adds_ret; by apply Hnone|]. destruct (ValidateObjectID oldrev) eqn:Ho; cbn [negb]; [|apply adds_ret; by apply Hnone].
  destruct (ValidateObjectID newrev) eqn:Hn; cbn [negb]; [|apply adds_ret; by apply Hnone].
  assert (Hforce : votes tx reference newrev oldrev -> isForceDeletionsOnly (changesOf oldrev newrev reference) = false)
    by (intros (_ & Hz & Hlen); by apply changesOf_not_forced).
  eapply adds_bind; [by apply hooksEnv_decodes| |intros e t [-> _]; by apply Hnone|intros t [-> _]; by apply Hnone].
  intros env1 t0 [-> Henv]. destruct (Henv env1 eq_refl) as (p1 & Hp1 & Htx1). cbn [app].
  eapply adds_bind; [by apply (preReceive_allowed u env1 p1)| |intros e t [Ht _]; by apply Hnone|intros t [Ht _]; by apply Hnone].
  intros repo1 t1 [Hw1 Hallowed]. specialize (Hallowed repo1 eq_refl).
  eapply adds_bind; [by apply (migrated_env u quarantine _ tx _ env1 p1)| |
    intros e t [Ht _]; apply Hnone; [done|by rewrite gitWrites_app, Hw1]|intros t [Ht _]; apply Hnone; [done|by rewrite gitWrites_app, Hw1]].
  intros env2 t2 [Hw2 Henv2]. destruct (Henv2 env2 eq_refl) as (p2 & Hp2 & Htx2).
  assert (Hupd : adds (orErr EHook (UpdateHook (u_manager u) repo1 reference oldrev newrev [env2])) (fun _ t => gitWrites (t1 ++ t2 ++ t) = [])).
  { assert (Hq : adds (UpdateHook (u_manager u) repo1 reference oldrev newrev [env2]) (fun _ t => gitWrites (t1 ++ t2 ++ t) = [])).
    { intros t r Hr. rewrite !gitWrites_app, Hw1, Hw2. by eapply gitWrites_quiet, UpdateHook_quiet. }
    by apply (adds_orErr _ _ _ _ Hq). }
  eapply adds_bind; [exact Hupd| |intros e t Ht; by apply Hnone|intros t Ht; by apply Hnone]. intros [] t3 Hw3.
  apply lock_writes.
  - intros r t Hr Ht. apply updated_early; [|done]. rewrite !gitWrites_app in *. by rewrite (app_assoc (gitWrites t1)), (app_assoc _ _ (gitWrites t)), <- (app_assoc (gitWrites t1)), Hw3.
  - intros up t4 Hw4. eapply adds_mono; [apply (commitReference_updated u tx reference newrev oldrev up _ env2 pushOptions p2 (t1 ++ t2 ++ t3 ++ t4)); try done|].
    + rewrite !gitWrites_app in *. by rewrite (app_assoc (gitWrites t1)), (app_assoc _ _ (gitWrites t4)), <- (app_assoc (gitWrites t1)), Hw3.
    + intros Hprim. apply happened_app. left. apply Hallowed. unfold isPrimary. by rewrite Htx1.
    + intros r v. cbn beta. by rewrite <- !app_assoc.
Qed.


(** *** Example *)

(** A node that is the primary of a transaction; the payload is known to the hooks. *)
Definition exampleTx : TxInfo := mkTxInfo 1 7 (text "gitaly-1") true.

Definition exampleUpdater : UpdaterWithHooks :=
  mkUpdaterWithHooks (mkCfg [] [] [] [] [] [] false) (text "1") (Hooks.Example.manager true)
    (fun p => if decide (Transaction p = Some exampleTx) then Ok (text "payload") else Err ErrJSON) false ∅.

Definition exampleOID : list ascii := replicate 40 "1"%char.

Definition exampleUpdate : H UpdateError unit :=
  UpdateReference exampleUpdater (InTransaction exampleTx) Hooks.Example.repo (text "user-1") [] None (text "refs/heads/main")
    exampleOID ZeroOID [].


(** *** The input of git-update-ref *)

(** Commands in the format of its option -z, as git documents it. *)
Inductive Command : Type :=
| CStart
| CPrepare
| CCommit
| CUpdate (reference newvalue oldvalue : list ascii).

Fixpoint parseFields (fields : list (list ascii)) : option (list Command) :=
  match fields with
  | [] => Some []
  | [last] => if decide (last = []) then Some [] else None
  | f :: fields =>
    if decide (f = text "start") then cons CStart <$> parseFields fields
    else if decide (f = text "prepare") then cons CPrepare <$> parseFields fields
    else if decide (f = text "commit") then cons CCommit <$> parseFields fields
    else if HasPrefix f (text "update ") then
      match fields with
      | newvalue :: oldvalue :: fields => cons (CUpdate (drop 7 f) newvalue oldvalue) <$> parseFields fields
      | _ => None
      end
    else None
  end.

Definition parseInput (input : list ascii) : option (list Command) := parseFields (Split nul input).

Lemma Split_terminated c parts : (forall part, part ∈ parts -> c ∉ part) -> Split c (concat ((fun p => p ++ [c]) <$> parts)) = parts ++ [[]].
Proof.
  induction parts as [|p ps IH]; intros Hall; [done|]. cbn [fmap list_fmap concat]. rewrite <- app_assoc. cbn [app].
  rewrite Split_app by (apply Hall; by left). by rewrite IH by (intros q Hq; apply Hall; by right).
Qed.

(** What the updater writes is read by git as the commands that were meant, if the
    name of the reference has no NUL byte. *)
Lemma conversation_parsed reference newrev oldrev :
  nul ∉ reference -> nul ∉ newrev -> nul ∉ oldrev ->
  parseInput (concat (conversation reference newrev oldrev)) = Some [CStart; CUpdate reference newrev oldrev; CPrepare; CCommit].
Proof.
  intros Hr Hn Ho. unfold parseInput, conversation, updateLine.
  assert (Heq : concat [text "start" ++ [nul]; text "update " ++ reference ++ [nul] ++ newrev ++ [nul] ++ oldrev ++ [nul]; text "prepare" ++ [nul]; text "commit" ++ [nul]] =
    concat ((fun p => p ++ [nul]) <$> [text "start"; text "update " ++ reference; newrev; oldrev; text "prepare"; text "commit"])).
  { cbn [concat fmap list_fmap]. by rewrite <- !app_assoc. }
  rewrite Heq, Split_terminated.
  - cbn [parseFields app]. rewrite decide_True by done. rewrite (decide_False (P := text "update " ++ reference = text "start")) by done.
    rewrite (decide_False (P := text "update " ++ reference = text "prepare")) by done.
    rewrite (decide_False (P := text "update " ++ reference = text "commit")) by done.
    assert (Hp : HasPrefix (text "update " ++ reference) (text "update ") = true) by (apply HasPrefix_spec; eauto). rewrite Hp. done.
  - intros part Hin. repeat (apply elem_of_cons in Hin as [->|Hin]; [try done|]).
    all: try (apply (bool_decide_unpack _); vm_compute; exact I).
    + rewrite elem_of_app. intros [Hu|?]; [|done]. revert Hu. apply (bool_decide_unpack _). vm_compute. exact I.
    + by apply elem_of_nil in Hin.
Qed.

(** With a NUL byte in its name, the update of one reference is read as updates of
    two, although the hooks were asked about one. *)
Example update_injection :
  let reference := text "refs/heads/a" ++ [nul] ++ exampleOID ++ [nul] ++ ZeroOID ++ [nul] ++ text "update refs/heads/main" in
  parseInput (concat (conversation reference exampleOID ZeroOID)) =
  Some [CStart; CUpdate (text "refs/heads/a") exampleOID ZeroOID; CUpdate (text "refs/heads/main") exampleOID ZeroOID; CPrepare; CCommit].
Proof. vm_compute. reflexivity. Qed.
