(* ===== verification/RefVotes.v ===== *)
(** Nodes that are told to commit a reference update commit the same one: Praefect's
    transaction service (src/internal/praefect/service/transaction/server.go) between
    the transaction manager and the hooks of the nodes. *)

From Stdlib Require Import Strings.Ascii.
From S2P Require Import Prelude Voting Subtransaction Quorum Transaction TxSystem.
From S2P Require Import GoStrings GitVersion Effects Hooks UpdateRef.

(** ** The service *)

Inductive ServiceError : Type :=
| SInvalidArgument
| SNotFound
| SCanceled
| SInternal.

(** The response to the outcome of the manager's [VoteTransaction]. *)
Definition voteResponse (r : out TxError unit) : out ServiceError VoteState :=
  match r with
  | Ok _ => Ok COMMIT
  | Panic => Panic
  | Err e =>
    match unwrap e with
    | ErrNotFound _ => Err SNotFound
    | Subtransaction.ErrTransactionCanceled => Err SCanceled
    | Subtransaction.ErrTransactionStopped => Ok STOP
    | ErrTransactionFailed => Ok ABORT
    | _ => Err SInternal
    end
  end.

Definition Server_VoteTransaction (hash : bytes) (voteTransaction : Vote -> out TxError unit) : out ServiceError VoteState :=
  match VoteFromHash hash with
  | Ok vote => voteResponse (voteTransaction vote)
  | Err _ => Err SInvalidArgument
  | Panic => Panic
  end.

Definition Server_StopTransaction (r : out TxError unit) : out ServiceError unit :=
  match r with
  | Ok _ => Ok tt
  | Panic => Panic
  | Err e =>
    match unwrap e with
    | ErrNotFound _ => Err SNotFound
    | Subtransaction.ErrTransactionCanceled => Err SCanceled
    | Subtransaction.ErrTransactionStopped => Ok tt
    | _ => Err SInternal
    end
  end.

(** ** Agreement *)

(** Only a vote that succeeded is answered with a commit. *)
Lemma commit_answer hash f :
  Server_VoteTransaction hash f = Ok COMMIT <-> Z.of_nat (length hash) = voteSize /\ f hash = Ok tt.
Proof.
  unfold Server_VoteTransaction, VoteFromHash. case_decide as Hlen; [|naive_solver]. unfold voteResponse.
  destruct (f hash) as [[]|e|]; [naive_solver| |naive_solver]. destruct (unwrap e); naive_solver.
Qed.

Section Collect.
Context {RN : MapRange string Voter} {RV : MapRange Vote Z}.

(** A call that collects a commit has its voter committed. *)
Lemma awaitVote_committed a i ctxErr node mgr mgr' :
  awaitVote a i ctxErr node mgr = (Ok tt, mgr') ->
  exists t sub, heap mgr !! a = Some t /\ subtransactions t !! i = Some sub /\ committed_in sub node.
Proof.
  unfold awaitVote, on_tx, on_sub. destruct (heap mgr !! a) as [t|] eqn:Ha; [|done].
  destruct (subtransactions t !! i) as [sub|] eqn:Hi; [|done]. unfold collectVotes. unfold mbind, M_bind, get.
  destruct (votersByNode sub !! node) as [w|] eqn:Hn; [|done].
  destruct ctxErr.
  - unfold wrap_err, fail. destruct (updateVoterState node w None sub) as [[[]|e|] sub']; done.
  - destruct (result w) eqn:Hr; try done; [|by destruct (vote w)]. intros _. exists t, sub. split_and!; [done|done|]. by exists w.
Qed.
End Collect.

Lemma toBytes_inj s s' : toBytes s = toBytes s' -> s = s'.
Proof.
  revert s'. induction s as [|c s IH]; intros [|c' s'] Heq; try done. cbn in Heq. injection Heq as Hc Hs. f_equal; [|by apply IH].
  apply (f_equal ascii_of_byte) in Hc. by rewrite !ascii_of_byte_of_ascii in Hc.
Qed.

Lemma changesOf_inj old new ref old' new' ref' :
  ValidateObjectID old = true -> ValidateObjectID new = true -> ValidateObjectID old' = true -> ValidateObjectID new' = true ->
  changesOf old new ref = changesOf old' new' ref' -> old = old' /\ new = new' /\ ref = ref'.
Proof.
  intros [Ho _]%ValidateObjectID_spec [Hn _]%ValidateObjectID_spec [Ho' _]%ValidateObjectID_spec [Hn' _]%ValidateObjectID_spec.
  unfold changesOf. intros Heq. apply app_inj_1 in Heq as [-> Heq]; [|congruence]. injection Heq as Heq.
  apply app_inj_1 in Heq as [-> Heq]; [|congruence]. injection Heq as Heq. by apply app_inj_2 in Heq as [-> _].
Qed.

(** Two calls of one subtransaction that collect a commit, the second later, voted
    the same. *)
Lemma collected_same_vote s s' a i node node' v v' sub sub' t t' :
  reachable s -> rtc step s s' ->
  mkCall a i node v true ∈ s_calls s -> heap (s_mgr s) !! a = Some t -> subtransactions t !! i = Some sub -> committed_in sub node ->
  mkCall a i node' v' true ∈ s_calls s' -> heap (s_mgr s') !! a = Some t' -> subtransactions t' !! i = Some sub' -> committed_in sub' node' ->
  v = v'.
Proof.
  intros Hr Hs Hc Ha Hi (w & Hw & Hres) Hc' Ha' Hi' (w' & Hw' & Hres').
  destruct (steps_ok s s' (reachable_inv s Hr) Hs) as [Hinv' Hh]. pose proof (reachable_inv s Hr) as Hinv.
  destruct (si_calls _ Hinv _ Hc) as (t0 & sub0 & Ht0 & Hsub0 & _ & Hrec). cbn in *. simplify_eq. specialize (Hrec eq_refl).
  destruct (si_calls _ Hinv' _ Hc') as (t0 & sub0 & Ht0 & Hsub0 & _ & Hrec'). cbn in *. simplify_eq. specialize (Hrec' eq_refl).
  destruct (Hh a t Ha) as (t1 & Ha1 & (_ & _ & Hsubs)). rewrite Ha' in Ha1. injection Ha1 as <-.
  destruct (Hsubs i sub Hi) as (sub1 & Hi1 & Hst). rewrite Hi' in Hi1. injection Hi1 as <-.
  destruct (sub_step_lookup_l _ _ node w Hst Hw) as (w1 & Hw1 & (_ & _ & Hv & Hres1)).
  unfold recorded in *. rewrite Hw in Hrec. rewrite Hw' in Hrec'. cbn in *.
  assert (Hcom1 : result w1 = VoteCommitted) by (destruct Hres1; congruence). assert (Hv1 : vote w1 = Some v) by (destruct Hv; congruence).
  pose proof (mi_tx _ (si_mgr s' Hinv') a t' Ha') as Hti. destruct (ti_sub t' Hti i sub' Hi') as [Hsub _].
  destruct (inv_committed sub' Hsub node w1 Hw1 Hcom1) as (_ & x & Hx & Hq). destruct (inv_committed sub' Hsub node' w' Hw' Hres') as (_ & x' & Hx' & Hq').
  rewrite (quorum_unique sub' Hsub x x' Hq Hq') in *. congruence.
Qed.

(** C2. Two nodes that vote on their reference updates in the same subtransaction
    and are both answered with a commit, at whatever times, vote on the same update:
    the same reference, the same old and the same new value, if SHA-1 tells their two
    changes apart. *)
Theorem agreed_updates (sha1_Sum : bytes -> bytes) (RN RN' : MapRange string Voter) (RV RV' : MapRange Vote Z)
    s s' a i node node' ctxErr ctxErr' old new ref old' new' ref' :
  let hash := sha1_Sum (toBytes (changesOf old new ref)) in
  let hash' := sha1_Sum (toBytes (changesOf old' new' ref')) in
  ValidateObjectID old = true -> ValidateObjectID new = true -> ValidateObjectID old' = true -> ValidateObjectID new' = true ->
  (hash = hash' -> toBytes (changesOf old new ref) = toBytes (changesOf old' new' ref')) ->
  reachable s -> rtc step s s' ->
  mkCall a i node hash true ∈ s_calls s -> mkCall a i node' hash' true ∈ s_calls s' ->
  Server_VoteTransaction hash (fun _ => (awaitVote (RN := RN) (RV := RV) a i ctxErr node (s_mgr s)).1) = Ok COMMIT ->
  Server_VoteTransaction hash' (fun _ => (awaitVote (RN := RN') (RV := RV') a i ctxErr' node' (s_mgr s')).1) = Ok COMMIT ->
  old = old' /\ new = new' /\ ref = ref'.
Proof.
  intros hash hash' Ho Hn Ho' Hn' Hinj Hr Hs Hc Hc' [_ Hcom]%commit_answer [_ Hcom']%commit_answer.
  destruct (awaitVote a i ctxErr node (s_mgr s)) as [r m] eqn:Hw. destruct (awaitVote a i ctxErr' node' (s_mgr s')) as [r' m'] eqn:Hw'.
  cbn in Hcom, Hcom'. subst r r'.
  apply awaitVote_committed in Hw as (t & sub & Ha & Hi & Hco). apply awaitVote_committed in Hw' as (t' & sub' & Ha' & Hi' & Hco').
  apply changesOf_inj; [done..|]. apply toBytes_inj, Hinj. by apply (collected_same_vote s s' a i node node' hash hash' sub sub' t t').
Qed.

(** ** Example *)

#[local] Existing Instance range_nodes.
#[local] Existing Instance range_votes.

(** The last twenty bytes stand in for SHA-1. *)
Definition ex_sum (b : bytes) : bytes := drop (length b - 20) b.
Definition ex_oid (c : ascii) : list ascii := replicate 40 c.
Definition ex_hash : bytes := ex_sum (toBytes (changesOf (ex_oid "a") (ex_oid "b") (text "refs/heads/main"))).

Definition ex_v1 : Manager := (RegisterTransaction ex_voters 2 Transaction.NewManager).2.
Definition ex_v2 : Manager := (beginVote 1 "a" ex_v1).2.
Definition ex_v3 : Manager := (beginVote 1 "b" ex_v2).2.
Definition ex_v4 : Manager := (castVote 0 0 "b" ex_hash ex_v3).2.
Definition ex_v5 : Manager := (castVote 0 0 "a" ex_hash ex_v4).2.
Definition ex_v6 : Manager := finish (Ok tt) (awaitVote 0 0 false "a" ex_v5).2.

Definition ex_both : sys := mkSys ex_v5 [mkCall 0 0 "b" ex_hash true; mkCall 0 0 "a" ex_hash true] false.
Definition ex_later : sys := mkSys ex_v6 [mkCall 0 0 "b" ex_hash true] false.

Lemma ex_both_reachable : reachable ex_both.
Proof.
  unfold reachable, initial.
  eapply rtc_l; [eapply (step_register _ _ _ ex_voters 2 (Ok 0%nat) ex_v1); [exact ex_registrable|by run_to]|].
  eapply rtc_l; [eapply (step_begin _ _ _ 1 "a" ex_hash 0 0 ex_v2); by run_to|].
  eapply rtc_l; [eapply (step_begin _ _ _ 1 "b" ex_hash 0 0 ex_v3); by run_to|].
  eapply rtc_l; [eapply (step_cast _ _ _ [] [_] _ 0 0 "b" ex_hash ex_v4); by run_to|].
  eapply rtc_l; [eapply (step_cast _ _ _ [_] [] _ 0 0 "a" ex_hash ex_v5); by run_to|].
  apply rtc_refl.
Qed.

Lemma ex_both_later : rtc step ex_both ex_later.
Proof.
  eapply rtc_l; [|apply rtc_refl].
  unfold ex_both, ex_later, ex_v6. apply (step_collect range_nodes range_votes ex_v5 [_] [] false 0 0 "a" ex_hash (ex_sub ex_v5 0) false (Ok tt)
      (awaitVote 0 0 false "a" ex_v5).2); [done|left; by vm_compute|by run_to].
Qed.

Lemma agreed_updates_witness :
  Server_VoteTransaction ex_hash (fun _ => (awaitVote 0 0 false "a" (s_mgr ex_both)).1) = Ok COMMIT /\
  Server_VoteTransaction ex_hash (fun _ => (awaitVote 0 0 false "b" (s_mgr ex_later)).1) = Ok COMMIT /\
  ex_oid "a" = ex_oid "a" /\ ex_oid "b" = ex_oid "b" /\ text "refs/heads/main" = text "refs/heads/main".
Proof.
  split; [vm_compute; reflexivity|]. split; [vm_compute; reflexivity|].
  apply (agreed_updates ex_sum range_nodes range_nodes range_votes range_votes ex_both ex_later 0 0 "a" "b" false false);
    try (vm_compute; reflexivity).
  - exact ex_both_reachable.
  - exact ex_both_later.
  - apply list_elem_of_further, list_elem_of_here.
  - apply list_elem_of_here.
Defined.
