(* ===== verification/Threads.v ===== *)
(** Handlers that run at the same time.

    Threads are trees of calls (Effects.v) over a shared state: the answer of a call
    and its effect depend on the state and on the thread, and calls of different
    threads interleave freely. [secure] computes what a thread guarantees, call by
    call, if the calls of others keep to what it relies on; threads whose guarantees
    imply what the others rely on are secure together. *)

From S2P Require Import Prelude Effects.

Section Threads.
Context {C : Type -> Type} {S A : Type}.

(** A call of a thread with its possible answers and next states. *)
Context (sys : nat -> forall X, C X -> S -> X -> S -> Prop).

Record conf : Type := mkConf {
  shared : S;
  threads : list (prog C A);
}.

Inductive cstep : nat -> conf -> conf -> Prop :=
| cstep_call t X (c : C X) k x s s' ts :
    ts !! t = Some (call c k) -> sys t X c s x s' ->
    cstep t (mkConf s ts) (mkConf s' (<[t := k x]> ts)).

Definition anystep (c c' : conf) : Prop := exists t, cstep t c c'.

(** ** Rely and guarantee *)

Context (inv : S -> Prop) (rely guar : nat -> S -> S -> Prop).

Fixpoint secure {B} (t : nat) (p : prog C B) (Q : B -> S -> Prop) (s : S) : Prop :=
  match p with
  | ret a => forall s', rtc (rely t) s s' -> Q a s'
  | call c k => forall s', rtc (rely t) s s' -> inv s' -> forall x s'', sys t _ c s' x s'' ->
      guar t s' s'' /\ inv s'' /\ secure t (k x) Q s''
  end.

Definition stable (t : nat) (P : S -> Prop) : Prop := forall s s', rely t s s' -> P s -> P s'.

Lemma stable_rtc t P s s' : stable t P -> rtc (rely t) s s' -> P s -> P s'.
Proof. intros Hst Hr. induction Hr; eauto. Qed.

Lemma secure_stable {B} t (p : prog C B) Q s s' : rtc (rely t) s s' -> secure t p Q s -> secure t p Q s'.
Proof.
  intros Hr. destruct p as [a|X c k]; cbn [secure]; intros Hsec s1 H1.
  - apply Hsec. by etrans.
  - apply Hsec. by etrans.
Qed.

Lemma secure_mono {B} t (p : prog C B) (Q Q' : B -> S -> Prop) : forall s,
  secure t p Q s -> (forall a s, Q a s -> Q' a s) -> secure t p Q' s.
Proof.
  induction p as [a|X c k IH]; intros s Hsec HQ; cbn [secure] in *; [eauto|].
  intros s' Hr Hi x s'' Hs. destruct (Hsec s' Hr Hi x s'' Hs) as (? & ? & ?). eauto.
Qed.

(** A result holds from the moment it is returned on. *)
Lemma secure_impl {B} t (p : prog C B) (Q Q' : B -> S -> Prop) : forall s,
  secure t p Q s -> (forall a s, (forall s', rtc (rely t) s s' -> Q a s') -> Q' a s) -> secure t p Q' s.
Proof.
  induction p as [a|X c k IH]; intros s Hsec HQ; cbn [secure] in *.
  - intros s' Hr. apply HQ. intros s'' Hr'. apply Hsec. by etrans.
  - intros s' Hr Hi x s'' Hs. destruct (Hsec s' Hr Hi x s'' Hs) as (? & ? & ?). eauto.
Qed.

Lemma secure_ret {B} t (a : B) (Q : B -> S -> Prop) s : stable t (Q a) -> Q a s -> secure t (ret a) Q s.
Proof. intros Hst HQ s' Hr. by eapply stable_rtc. Qed.

(** What neither the thread nor others change. *)
Lemma secure_frame {B} t (p : prog C B) (Q : B -> S -> Prop) (R : S -> Prop) : forall s,
  stable t R -> (forall s s', guar t s s' -> R s -> R s') -> R s -> secure t p Q s -> secure t p (fun a s => Q a s /\ R s) s.
Proof.
  induction p as [a|X c k IH]; intros s Hst Hg HR Hsec; cbn [secure] in *.
  - intros s' Hr. split; [auto|]. by eapply stable_rtc.
  - intros s' Hr Hi x s'' Hs. destruct (Hsec s' Hr Hi x s'' Hs) as (Hg' & Hi' & Hk). split_and!; [done..|].
    apply IH; [done..| |done]. eapply Hg; [exact Hg'|]. by eapply stable_rtc.
Qed.

Lemma secure_prog_bind {B D} t (p : prog C B) (k : B -> prog C D) Q : forall s,
  secure t p (fun a s => secure t (k a) Q s) s -> secure t (prog_bind p k) Q s.
Proof.
  induction p as [a|X c j IH]; intros s Hsec; cbn [secure prog_bind] in *; [by apply Hsec|].
  intros s' Hr Hi x s'' Hs. destruct (Hsec s' Hr Hi x s'' Hs) as (? & ? & ?). eauto.
Qed.

(** The rule for a call whose precondition does not depend on when it happens. *)
Lemma secure_call {B X} t (P : S -> Prop) (c : C X) (k : X -> prog C B) Q s :
  stable t P -> P s ->
  (forall s x s', inv s -> P s -> sys t X c s x s' -> guar t s s' /\ inv s' /\ secure t (k x) Q s') ->
  secure t (call c k) Q s.
Proof. intros Hst HP Hc s' Hr Hi x s'' Hs. apply (Hc s' x s'' Hi); [|done]. by eapply stable_rtc. Qed.

(** *** All together *)

Hypothesis guar_rely : forall t t' s s', t ≠ t' -> guar t s s' -> rely t' s s'.

Context (Q : nat -> A -> S -> Prop).

Definition all_secure (c : conf) : Prop :=
  inv (shared c) /\ forall t p, threads c !! t = Some p -> secure t p (Q t) (shared c).

Lemma cstep_secure t c c' : cstep t c c' -> all_secure c -> guar t (shared c) (shared c') /\ all_secure c'.
Proof.
  intros [t' X a k x s s' ts Ht Hs] [Hi Hall]. cbn in *.
  destruct (Hall t' _ Ht s (rtc_refl _ _) Hi x s' Hs) as (Hg & Hi' & Hk). split; [done|]. split; [done|]. cbn.
  intros u p Hu. destruct (decide (u = t')) as [->|Hne].
  - apply lookup_lt_Some in Ht. rewrite list_lookup_insert_eq in Hu by done. by injection Hu as <-.
  - rewrite list_lookup_insert_ne in Hu by done. eapply secure_stable; [|by apply Hall]. apply rtc_once. by eapply guar_rely.
Qed.

Theorem threads_secure c c' : all_secure c -> rtc anystep c c' -> all_secure c'.
Proof. intros Hall Hr. revert Hall. induction Hr as [|c1 c2 c3 [t Ht] _ IH]; [done|]. intros Hall. apply IH. by eapply cstep_secure. Qed.

(** A thread that has returned has its postcondition. *)
Lemma returned c t a : all_secure c -> threads c !! t = Some (ret a) -> Q t a (shared c).
Proof. intros [_ Hall] Ht. by apply (Hall t _ Ht). Qed.

End Threads.
Arguments conf : clear implicits.
Arguments mkConf {C S A}.
