(* ===== verification/SafeFile.v ===== *)
(** Files that are replaced as a whole, with a lock and a vote.

    The writers of src/internal/safe, [CommitLockedFile] of
    src/internal/gitaly/transaction/voting.go, and the handlers of
    src/internal/gitaly/service/repository that use them (fullpath.go,
    apply_gitattributes.go, config.go), as programs of system calls; any number of
    handlers run at the same time, call by call. *)

From Stdlib Require Import Strings.Ascii.
From S2P Require Import Prelude Voting GoStrings HooksPayload Effects Threads Hooks UpdateRef.

(** ** Calls to the operating system *)

(** What the file system keeps of a file. [creator] is the handler whose request
    brought it about, if any; the code does not see it. *)
Record File : Type := mkFile {
  data : list ascii;
  mtime : Z;
  fmode : Z;
  creator : option nat;
}.

Record FileInfo : Type := mkInfo {
  Size : Z;
  ModTime : Z;
  Mode : Z;
}.
#[export] Instance FileInfo_eq_dec : EqDecision FileInfo. Proof. solve_decision. Defined.

Definition info (f : File) : FileInfo := mkInfo (Z.of_nat (length (data f))) (mtime f) (fmode f).

Inductive SysError : Type := NotExist | Exist | OtherError.
#[export] Instance SysError_eq_dec : EqDecision SysError. Proof. solve_decision. Defined.

(** A file that is open for reading is the file it was when it was opened: files are
    replaced under their name, and only temporary ones are written. [TempFile] picks
    a new name; [ReadFile] opens and reads, [SyncDir] opens and syncs the directory
    of a path, [GitConfig] is git config --replace-all --file. *)
Inductive FsCall : Type -> Type :=
| OpenFile (path : list ascii) : FsCall (SysError + File)
| FStat (f : File) : FsCall (SysError + FileInfo)
| StatPath (path : list ascii) : FsCall (SysError + FileInfo)
| TempFile (path : list ascii) : FsCall (SysError + list ascii)
| Chmod (name : list ascii) (mode : Z) : FsCall (SysError + unit)
| WriteFile (name content : list ascii) : FsCall (SysError + unit)
| SyncFile (name : list ascii) : FsCall (SysError + unit)
| CloseFile (name : list ascii) : FsCall (SysError + unit)
| Rename (from to : list ascii) : FsCall (SysError + unit)
| SyncDir (path : list ascii) : FsCall (SysError + unit)
| RemoveFile (path : list ascii) : FsCall (SysError + unit)
| CreateExcl (path : list ascii) (mode : Z) : FsCall (SysError + unit)
| ReadFile (path : list ascii) : FsCall (SysError + list ascii)
| CastVote (tx : TxInfo) (vote : Vote) : FsCall (SysError + unit)
| GitConfig (file key value : list ascii) : FsCall (SysError + unit).

(** *** Methods that change their receiver

    The receiver keeps its changes when a method returns an error. *)
Definition SM (St E A : Type) : Type := St -> prog FsCall (out E A * St).

#[export] Instance SM_ret St E : MRet (SM St E) := fun A a st => ret (Ok a, st).
#[export] Instance SM_bind St E : MBind (SM St E) := fun A B k m st =>
  prog_bind (m st) (fun rst => match rst with
                               | (Ok a, st') => k a st'
                               | (Err e, st') => ret (Err e, st')
                               | (Panic, st') => ret (Panic, st')
                               end).

Section Methods.
Context {St E : Type}.
Definition getS : SM St E St := fun st => ret (Ok st, st).
Definition putS (st : St) : SM St E unit := fun _ => ret (Ok tt, st).
Definition failS {A} (e : E) : SM St E A := fun st => ret (Err e, st).

(** [if err := call(); err != nil { return f(err) }]. *)
Definition sysCall {A} (f : SysError -> E) (c : FsCall (SysError + A)) : SM St E A := fun st =>
  call c (fun r => ret (match r with inl e => Err (f e) | inr a => Ok a end, st)).

(** The error of a method as a value. *)
Definition tryS {E' A} (m : SM St E' A) : SM St E (out E' A) := fun st =>
  prog_bind (m st) (fun rst => ret (match rst.1 with Panic => Panic | r => Ok r end, rst.2)).

Definition wrapS {E' A} (f : E' -> E) (m : SM St E' A) : SM St E A := fun st =>
  prog_bind (m st) (fun rst => ret (match rst.1 with Ok a => Ok a | Err e => Err (f e) | Panic => Panic end, rst.2)).
End Methods.

(** ** The atomic writer *)

Inductive WriterError : Type :=
| ErrAlreadyDone
| WConfig
| WTemp (e : SysError)
| WChmod (e : SysError)
| WWrite (e : SysError)
| WSync (e : SysError)
| WClose (e : SysError)
| WRename (e : SysError)
| WSyncDir (e : SysError)
| WRemove (e : SysError)
| WOpen (e : SysError)
| WStat (e : SysError)
| NotAcceptingWrites
| NotLockable
| AlreadyLocked
| WLock (e : SysError)
| NotLocked
| WUnlock (e : SysError)
| ConcurrentlyCreated
| ConcurrentlyDeleted
| ConcurrentlyModified.

Record FileWriter : Type := mkFileWriter {
  fw_tmpFile : list ascii;
  fw_path : list ascii;
  fw_commitOrClose : bool;
}.

Definition failing {E A} (f : SysError -> E) (c : FsCall (SysError + A)) : PM FsCall E A :=
  call c (fun r => ret match r with inl e => Err (f e) | inr a => Ok a end).

(** If the mode cannot be set the writer is closed before it knows its temporary
    file, which does nothing: the file stays. *)
Definition NewFileWriter (path : list ascii) (optionalCfg : list Z) : PM FsCall WriterError FileWriter :=
  if (1 <? length optionalCfg)%nat then raise WConfig
  else
    let FileMode := match optionalCfg with [mode] => mode | _ => 0 end in
    tmpFile ← failing WTemp (TempFile path);
    _ ← (if decide (FileMode ≠ 0) then failing WChmod (Chmod tmpFile FileMode) else mret tt);
    mret (mkFileWriter tmpFile path false).

Definition once : SM FileWriter WriterError unit :=
  fw ← getS;
  if fw_commitOrClose fw then failS ErrAlreadyDone else putS (mkFileWriter (fw_tmpFile fw) (fw_path fw) true).

Definition FileWriter_Write (p : list ascii) : SM FileWriter WriterError unit :=
  fw ← getS; sysCall WWrite (WriteFile (fw_tmpFile fw) p).

Definition FileWriter_Commit : SM FileWriter WriterError unit :=
  _ ← once;
  fw ← getS;
  _ ← sysCall WSync (SyncFile (fw_tmpFile fw));
  _ ← sysCall WClose (CloseFile (fw_tmpFile fw));
  _ ← sysCall WRename (Rename (fw_tmpFile fw) (fw_path fw));
  sysCall WSyncDir (SyncDir (fw_path fw)).

(** A temporary file that is gone is an error too: it is still in [err] when the
    closure ends. *)
Definition FileWriter_Close : SM FileWriter WriterError unit :=
  _ ← once;
  fw ← getS;
  _ ← sysCall WClose (CloseFile (fw_tmpFile fw));
  sysCall WRemove (RemoveFile (fw_tmpFile fw)).

(** ** The locking writer *)

Inductive lockingFileWriterState : Type :=
| lockingFileWriterStateOpen
| lockingFileWriterStateLocked
| lockingFileWriterStateClosed.
#[export] Instance lockingFileWriterState_eq_dec : EqDecision lockingFileWriterState. Proof. solve_decision. Defined.

Record LockingFileWriter : Type := mkLocking {
  lw_writer : FileWriter;
  lw_fi : option FileInfo;
  lw_state : lockingFileWriterState;
}.

Record LockingFileWriterConfig : Type := mkLockingConfig {
  FileMode : Z;
  SeedContents : bool;
}.

Definition lw_path (w : LockingFileWriter) : list ascii := fw_path (lw_writer w).
Definition LockingFileWriter_Path (w : LockingFileWriter) : list ascii := fw_tmpFile (lw_writer w).
Definition lockOf (path : list ascii) : list ascii := path ++ text ".lock".
Definition lockPath (w : LockingFileWriter) : list ascii := lockOf (lw_path w).

Definition setState (state : lockingFileWriterState) : SM LockingFileWriter WriterError unit :=
  w ← getS; putS (mkLocking (lw_writer w) (lw_fi w) state).

Definition onWriter {A} (m : SM FileWriter WriterError A) : SM LockingFileWriter WriterError A := fun w =>
  prog_bind (m (lw_writer w)) (fun rst => ret (rst.1, mkLocking rst.2 (lw_fi w) (lw_state w))).

(** Errors while the contents are copied leave the temporary file. *)
Definition NewLockingFileWriter (path : list ascii) (optionalCfg : list LockingFileWriterConfig) :
    PM FsCall WriterError LockingFileWriter :=
  if (1 <? length optionalCfg)%nat then raise WConfig
  else
    let cfg := match optionalCfg with [cfg] => cfg | _ => mkLockingConfig 0 false end in
    targetFile ← (call (OpenFile path) (fun r => ret match r with
                    | inr f => Ok (Some f)
                    | inl NotExist => Ok None
                    | inl e => Err (WOpen e)
                    end) : PM FsCall WriterError (option File));
    targetFileInfo ← match targetFile with
                     | Some f => fi ← failing WStat (FStat f); mret (Some fi)
                     | None => mret None
                     end;
    writer ← NewFileWriter path [FileMode cfg];
    _ ← match targetFile with
        | Some f =>
          if SeedContents cfg then
            _ ← failing WWrite (WriteFile (fw_tmpFile writer) (data f));
            failing WSync (SyncFile (fw_tmpFile writer))
          else mret tt
        | None => mret tt
        end;
    mret (mkLocking writer targetFileInfo lockingFileWriterStateOpen).

Definition LockingFileWriter_Write (p : list ascii) : SM LockingFileWriter WriterError unit :=
  w ← getS;
  if decide (lw_state w ≠ lockingFileWriterStateOpen) then failS NotAcceptingWrites else onWriter (FileWriter_Write p).

Definition checkConcurrentModification : SM LockingFileWriter WriterError unit :=
  w ← getS;
  fi ← ((fun w => call (StatPath (lw_path w)) (fun r => ret (match r with
          | inr fi => Ok (Some fi)
          | inl NotExist => Ok None
          | inl e => Err (WStat e)
          end, w))) : SM LockingFileWriter WriterError (option FileInfo));
  match lw_fi w, fi with
  | None, Some _ => failS ConcurrentlyCreated
  | Some _, None => failS ConcurrentlyDeleted
  | Some old, Some new => if decide (old = new) then mret tt else failS ConcurrentlyModified
  | None, None => mret tt
  end.

Definition Lock : SM LockingFileWriter WriterError unit :=
  w ← getS;
  if decide (lw_state w ≠ lockingFileWriterStateOpen) then failS NotLockable
  else
    _ ← checkConcurrentModification;
    _ ← sysCall (fun e => match e with Exist => AlreadyLocked | _ => WLock e end) (CreateExcl (lockPath w) 256);
    _ ← tryS (sysCall WClose (CloseFile (lockPath w)));
    setState lockingFileWriterStateLocked.

Definition unlock : SM LockingFileWriter WriterError unit :=
  w ← getS;
  if decide (lw_state w ≠ lockingFileWriterStateLocked) then failS NotLocked
  else
    _ ← sysCall WUnlock (RemoveFile (lockPath w));
    setState lockingFileWriterStateClosed.

Definition LockingFileWriter_Commit : SM LockingFileWriter WriterError unit :=
  w ← getS;
  if decide (lw_state w ≠ lockingFileWriterStateLocked) then failS NotLocked
  else
    _ ← checkConcurrentModification;
    _ ← onWriter FileWriter_Commit;
    unlock.

Definition LockingFileWriter_Close : SM LockingFileWriter WriterError unit :=
  w ← getS;
  match lw_state w with
  | lockingFileWriterStateClosed => mret tt
  | state =>
    err ← (if decide (state = lockingFileWriterStateLocked) then tryS unlock else mret (Ok tt));
    writerErr ← tryS (onWriter FileWriter_Close);
    _ ← setState lockingFileWriterStateClosed;
    match err, writerErr with
    | Err e, _ => failS e
    | _, Err e => failS e
    | _, _ => mret tt
    end
  end.

(** ** Votes on the contents *)

Inductive FileError : Type :=
| FLock (e : WriterError)
| FContext
| FOpen (e : SysError)
| FHash
| FVote (e : SysError)
| FCommit (e : WriterError)
| FNew (e : WriterError)
| FWriter (e : WriterError)
| FInvalidArgument (what : string)
| FInternal (what : string)
| FGit (e : SysError).

Section Handlers.
Context (sha1_Sum : bytes -> bytes).

(** [RunOnContext]; without a transaction nothing is done. *)
Definition RunOnContext {St} (ctx : TxContext) (fn : TxInfo -> SM St FileError unit) : SM St FileError unit :=
  match ctx with
  | NoTransaction => mret tt
  | BadTransaction => failS FContext
  | InTransaction tx => fn tx
  end.

Definition VoteOnContext {St} (ctx : TxContext) (vote : Vote) : SM St FileError unit :=
  RunOnContext ctx (fun tx => sysCall FVote (CastVote tx vote)).

(** The vote for the contents of a file. *)
Definition hashContents {E} (err : E) (contents : list ascii) : out E Vote :=
  match VoteHash_Vote sha1_Sum (toBytes contents) with
  | Ok vote => Ok vote
  | Err _ => Err err
  | Panic => Panic
  end.

(** The variable [vote] that the closure assigns is passed on; it stays zero without a
    transaction. *)
Definition voteOnLocked (ctx : TxContext) : SM LockingFileWriter FileError Vote :=
  match ctx with
  | NoTransaction => mret []
  | BadTransaction => failS FContext
  | InTransaction tx =>
    w ← getS;
    contents ← sysCall FOpen (ReadFile (LockingFileWriter_Path w));
    vote ← (fun w => ret (hashContents FHash contents, w));
    _ ← sysCall FVote (CastVote tx vote);
    mret vote
  end.

Definition CommitLockedFile (ctx : TxContext) : SM LockingFileWriter FileError unit :=
  _ ← wrapS FLock Lock;
  vote ← voteOnLocked ctx;
  _ ← wrapS FCommit LockingFileWriter_Commit;
  VoteOnContext ctx vote.

(** A writer that is closed in the end, whatever happens; its error is ignored. *)
Definition withWriter (new : PM FsCall WriterError LockingFileWriter) (body : SM LockingFileWriter FileError unit) :
    PM FsCall FileError unit :=
  writer ← orErr FNew new;
  prog_bind (body writer) (fun rst =>
    prog_bind (LockingFileWriter_Close rst.2) (fun rst' => ret match rst'.1 with Panic => Panic | _ => rst.1 end)).

(** A method without a receiver. *)
Definition plain {E A} (m : SM unit E A) : PM FsCall E A := prog_bind (m tt) (fun rst => ret rst.1).

(** ** The full path of a repository *)

Definition fullPathKey : list ascii := text "gitlab.fullpath".

(** The vote on the configuration: its contents, or a word if there is none. *)
Definition voteOnConfig (ctx : TxContext) (repoPath : out FileError (list ascii)) : PM FsCall FileError unit :=
  plain (RunOnContext ctx (fun tx =>
    path ← (fun st => ret (repoPath, st));
    contents ← ((fun st => call (ReadFile (JoinPath path (text "config"))) (fun r => ret (match r with
                  | inr contents => Ok (Some contents)
                  | inl NotExist => Ok None
                  | inl e => Err (FOpen e)
                  end, st))) : SM unit FileError (option (list ascii)));
    vote ← (fun st => ret (match contents with
                           | Some contents => hashContents FHash contents
                           | None => Ok (VoteFromData sha1_Sum (toBytes (text "notfound")))
                           end, st));
    sysCall FVote (CastVote tx vote))).

(** [repo.Config().Set]: the key is not blank. *)
Definition setConfig (repoPath : out FileError (list ascii)) (key value : list ascii) : PM FsCall FileError unit :=
  path ← lift repoPath;
  failing FGit (GitConfig (JoinPath path (text "config")) key value).

(** [repoPath] and [locatorPath] are the results of [repo.Path] and [locator.GetPath]
    for the repository, [locking] is the feature flag. *)
Definition SetFullPath (locking : bool) (ctx : TxContext) (repository : option Repository) (path : list ascii)
    (repoPath locatorPath : out FileError (list ascii)) : PM FsCall FileError unit :=
  if decide (repository = None) then raise (FInvalidArgument "empty Repository")
  else if decide (path = []) then raise (FInvalidArgument "no path provided")
  else if locking then
    repoPath ← lift repoPath;
    let configPath := JoinPath repoPath (text "config") in
    withWriter (NewLockingFileWriter configPath [mkLockingConfig 0 true])
      (w ← getS;
       _ ← sysCall FGit (GitConfig (LockingFileWriter_Path w) fullPathKey path);
       CommitLockedFile ctx)
  else
    _ ← voteOnConfig ctx locatorPath;
    _ ← setConfig repoPath fullPathKey path;
    voteOnConfig ctx locatorPath.

End Handlers.

(** ** Handlers at the same time *)

Record FS : Type := mkFS {
  files : gmap (list ascii) File;
  history : list (nat * File);
  votes : list (nat * Vote);
}.

Section Concurrent.
Context (sha1_Sum : bytes -> bytes) (gitConfig : list ascii -> list ascii -> list ascii -> list ascii).

(** The file the handlers replace. [history] lists the files put in its place, with
    the handlers that did it, and [votes] the votes that were accepted. *)
Context (target : list ascii).

Definition setFiles (s : FS) (fs : gmap (list ascii) File) : FS := mkFS fs (history s) (votes s).

(** Any call may fail. A write that fails may have written a part, git may leave any
    contents behind; the time of a change is not restricted. *)
Definition sys (t : nat) (X : Type) (c : FsCall X) : FS -> X -> FS -> Prop :=
  match c in FsCall X return FS -> X -> FS -> Prop with
  | OpenFile p => fun s x s' => s' = s /\
      (x = inl OtherError \/ x = match files s !! p with Some f => inr f | None => inl NotExist end)
  | FStat f => fun s x s' => s' = s /\ ((exists e, x = inl e) \/ x = inr (info f))
  | StatPath p => fun s x s' => s' = s /\
      (x = inl OtherError \/ x = match files s !! p with Some f => inr (info f) | None => inl NotExist end)
  | TempFile p => fun s x s' =>
      (exists e, x = inl e /\ s' = s) \/
      (exists digits now, x = inr (p ++ digits) /\ digits ≠ [] /\ Forall (fun c => Regex.between 48 57 c = true) digits /\
        files s !! (p ++ digits) = None /\ s' = setFiles s (<[p ++ digits := mkFile [] now 384 (Some t)]> (files s)))
  | Chmod p mode => fun s x s' =>
      (exists e, x = inl e /\ s' = s) \/
      (exists f, x = inr tt /\ files s !! p = Some f /\ s' = setFiles s (<[p := mkFile (data f) (mtime f) mode (creator f)]> (files s)))
  | WriteFile p d => fun s x s' =>
      (exists e, x = inl e /\ s' = s) \/
      (exists f part now, files s !! p = Some f /\ part `prefix_of` d /\ (x = inr tt -> part = d) /\
        s' = setFiles s (<[p := mkFile (data f ++ part) now (fmode f) (creator f)]> (files s)))
  | SyncFile _ | CloseFile _ | SyncDir _ => fun s x s' => s' = s
  | Rename from to => fun s x s' =>
      (exists e, x = inl e /\ s' = s) \/
      (exists f, x = inr tt /\ files s !! from = Some f /\
        s' = mkFS (<[to := f]> (delete from (files s))) (if decide (to = target) then history s ++ [(t, f)] else history s) (votes s))
  | RemoveFile p => fun s x s' =>
      (x = inl OtherError /\ s' = s) \/ (x = inl NotExist /\ files s !! p = None /\ s' = s) \/
      (x = inr tt /\ is_Some (files s !! p) /\ s' = setFiles s (delete p (files s)))
  | CreateExcl p mode => fun s x s' =>
      (x = inl OtherError /\ s' = s) \/ (x = inl Exist /\ is_Some (files s !! p) /\ s' = s) \/
      (exists now, x = inr tt /\ files s !! p = None /\ s' = setFiles s (<[p := mkFile [] now mode (Some t)]> (files s)))
  | ReadFile p => fun s x s' => s' = s /\
      (x = inl OtherError \/ x = match files s !! p with Some f => inr (data f) | None => inl NotExist end)
  | CastVote _ v => fun s x s' =>
      (exists e, x = inl e /\ s' = s) \/ (x = inr tt /\ s' = mkFS (files s) (history s) (votes s ++ [(t, v)]))
  | GitConfig p k v => fun s x s' =>
      (exists e, x = inl e /\ s' = s) \/
      (exists f d now mode, files s !! p = Some f /\ (x = inr tt -> d = gitConfig k v (data f)) /\
        s' = setFiles s (<[p := mkFile d now mode (creator f)]> (files s))) \/
      (exists d now mode, files s !! p = None /\ (x = inr tt -> d = gitConfig k v []) /\
        s' = setFiles s (<[p := mkFile d now mode (Some t)]> (files s)))
  end.

(** *** What a handler owns *)

Definition owned (t : nat) (s : FS) (n : list ascii) : option File :=
  f ← files s !! n; if decide (creator f = Some t) then Some f else None.

(** Beside the target, the handler [t] has exactly the files [g]. *)
Definition private (t : nat) (g : gmap (list ascii) (list ascii)) (s : FS) : Prop :=
  forall n, n ≠ target -> data <$> owned t s n = g !! n.

Context (target0 : option File).
Definition current (s : FS) : option File := from_option (fun v => Some v.2) target0 (last (history s)).
Definition versions (s : FS) : list (option File) := target0 :: ((fun v => Some v.2) <$> history s).
Definition content (f : option File) : list ascii := from_option data [] f.

(** Different versions differ in size, time or mode. *)
Definition distinct (s : FS) : Prop := forall f f', f ∈ versions s -> f' ∈ versions s -> info <$> f = info <$> f' -> f = f'.

Definition fs_inv (s : FS) : Prop := files s !! target = current s.

(** The edit a handler makes and the transaction it takes part in. *)
Context (edit : nat -> list ascii -> list ascii) (txOf : nat -> TxContext).

Definition voted (t : nat) (d : list ascii) (s : FS) : Prop :=
  forall tx, txOf t = InTransaction tx -> (t, sha1_Sum (toBytes d)) ∈ votes s.

Definition rely (t : nat) (s s' : FS) : Prop :=
  (forall n, n ≠ target -> owned t s' n = owned t s n) /\
  (exists l, history s' = history s ++ l /\ t ∉ l.*1 /\ (owned t s (lockOf target) ≠ None -> l = [])) /\
  votes s `prefix_of` votes s'.

Definition commits (t : nat) (s s' : FS) : Prop :=
  exists f, history s' = history s ++ [(t, f)] /\ owned t s (lockOf target) ≠ None /\ t ∉ (history s).*1 /\
    (distinct s -> data f = edit t (content (current s))) /\ voted t (data f) s.

Definition guar (t : nat) (s s' : FS) : Prop :=
  (forall n f, n ≠ target -> creator f ≠ Some t -> files s !! n = Some f <-> files s' !! n = Some f) /\
  (history s' = history s \/ commits t s s') /\
  votes s `prefix_of` votes s'.

Lemma lock_not_target : lockOf target ≠ target.
Proof. unfold lockOf. intros Heq. apply (f_equal length) in Heq. rewrite length_app in Heq. cbn in Heq. lia. Qed.

Lemma owned_Some t s n f : owned t s n = Some f <-> files s !! n = Some f /\ creator f = Some t.
Proof.
  unfold owned. destruct (files s !! n) as [f'|]; cbn; [|split; [done|by intros [? _]]]. case_decide as Hc; split; try done.
  - intros [= <-]. done.
  - by intros [? _].
  - intros [[= ->] ?]. done.
Qed.

Lemma guar_rely t t' s s' : t ≠ t' -> guar t s s' -> rely t' s s'.
Proof.
  intros Hne (Hfiles & Hhist & Hvotes). split_and!; [| |done].
  - intros n Hn. apply option_eq. intros f. rewrite !owned_Some. split; intros [Hf Hc]; (split; [|done]); apply (Hfiles n f Hn); congruence.
  - destruct Hhist as [->|(f & -> & Hlock & _)]; [exists []; rewrite app_nil_r; split_and!; [done|apply not_elem_of_nil|done]|].
    exists [(t, f)]. split_and!; [done|cbn; rewrite list_elem_of_singleton; congruence|]. intros Hown. exfalso. apply Hlock.
    apply eq_None_not_Some. intros [g [Hg Hc]%owned_Some]. apply Hown. apply eq_None_not_Some. intros [h [Hh Hc']%owned_Some]. congruence.
Qed.

(** *** What others leave alone *)

Lemma private_stable t g : stable rely t (private t g).
Proof. intros s s' (Hown & _) Hp n Hn. rewrite Hown by done. by apply Hp. Qed.

Lemma uncommitted_stable t : stable rely t (fun s => t ∉ (history s).*1).
Proof. intros s s' (_ & (l & -> & Hl & _) & _) Ht. rewrite fmap_app, not_elem_of_app. done. Qed.

Lemma committed_stable t t' : stable rely t (fun s => t' ∈ (history s).*1).
Proof. intros s s' (_ & (l & -> & _) & _) Ht. rewrite fmap_app, elem_of_app. by left. Qed.

Lemma version_stable t f : stable rely t (fun s => f ∈ versions s).
Proof. intros s s' (_ & (l & Hl & _) & _). unfold versions. rewrite Hl, fmap_app, !elem_of_cons, elem_of_app. tauto. Qed.

Lemma voted_stable t d : stable rely t (voted t d).
Proof. intros s s' (_ & _ & [l Hl]) Hv tx Htx. rewrite Hl, elem_of_app. left. by eapply Hv. Qed.

Lemma and_stable t (P Q : FS -> Prop) : stable rely t P -> stable rely t Q -> stable rely t (fun s => P s /\ Q s).
Proof. intros HP HQ s s' Hr [H1 H2]. split; [by eapply HP|by eapply HQ]. Qed.

Lemma pure_stable t (P : Prop) : stable rely t (fun _ => P).
Proof. by intros s s' _. Qed.

(** With the lock the target stays. *)
Lemma locked_history t g s s' : private t g s -> is_Some (g !! lockOf target) -> rely t s s' -> history s' = history s.
Proof.
  intros Hp [d Hd] (_ & (l & -> & _ & Hl) & _). rewrite Hl, app_nil_r; [done|]. specialize (Hp _ lock_not_target).
  rewrite Hd in Hp. by destruct (owned t s _).
Qed.

(** *** Effects on what a handler owns *)

Lemma guar_refl t s : guar t s s.
Proof. split_and!; [done|by left|done]. Qed.

Lemma private_free t g s n : private t g s -> n ≠ target -> is_Some (g !! n) -> exists f, files s !! n = Some f /\ creator f = Some t /\ g !! n = Some (data f).
Proof.
  intros Hp Hn [d Hd]. specialize (Hp n Hn). rewrite Hd in Hp. destruct (owned t s n) as [f|] eqn:Hf; [|done].
  apply owned_Some in Hf as [Hf Hc]. exists f. cbn in Hp. by rewrite Hd.
Qed.

(** Writing a file of one's own, or a new one. *)
Lemma own_write t g s n f :
  fs_inv s -> private t g s -> n ≠ target -> files s !! n = None \/ is_Some (g !! n) -> creator f = Some t ->
  let s' := setFiles s (<[n := f]> (files s)) in
  guar t s s' /\ fs_inv s' /\ private t (<[n := data f]> g) s'.
Proof.
  intros Hi Hp Hn Hfree Hc s'. split_and!.
  - split_and!; [|by left|done]. intros n' f' Hn' Hc'. cbn. destruct (decide (n' = n)) as [->|Hne]; [|by rewrite lookup_insert_ne].
    rewrite lookup_insert_eq. split; [|intros [= ->]; congruence]. intros Hf'. destruct Hfree as [Hf|Hg]; [congruence|].
    destruct (private_free t g s n Hp Hn Hg) as (f'' & Hf'' & Hc'' & _). congruence.
  - unfold fs_inv in *. cbn. by rewrite lookup_insert_ne.
  - intros n' Hn'. unfold owned. cbn. destruct (decide (n' = n)) as [->|Hne].
    + rewrite !lookup_insert_eq. cbn. by rewrite decide_True.
    + rewrite !lookup_insert_ne by done. by apply Hp.
Qed.

Lemma own_delete t g s n :
  fs_inv s -> private t g s -> n ≠ target -> is_Some (g !! n) ->
  let s' := setFiles s (delete n (files s)) in guar t s s' /\ fs_inv s' /\ private t (delete n g) s'.
Proof.
  intros Hi Hp Hn Hg s'. destruct (private_free t g s n Hp Hn Hg) as (f & Hf & Hc & _). split_and!.
  - split_and!; [|by left|done]. intros n' f' Hn' Hc'. cbn. destruct (decide (n' = n)) as [->|Hne]; [|by rewrite lookup_delete_ne].
    rewrite lookup_delete_eq, Hf. split; [congruence|done].
  - unfold fs_inv in *. cbn. by rewrite lookup_delete_ne.
  - intros n' Hn'. unfold owned. cbn. destruct (decide (n' = n)) as [->|Hne].
    + by rewrite !lookup_delete_eq.
    + rewrite !lookup_delete_ne by done. by apply Hp.
Qed.

(** Putting one's file in the place of the target. *)
Lemma own_rename t g s n f :
  fs_inv s -> private t g s -> n ≠ target -> g !! n = Some (data f) -> files s !! n = Some f -> is_Some (g !! lockOf target) ->
  t ∉ (history s).*1 -> (distinct s -> data f = edit t (content (current s))) -> voted t (data f) s ->
  let s' := mkFS (<[target := f]> (delete n (files s))) (history s ++ [(t, f)]) (votes s) in
  guar t s s' /\ fs_inv s' /\ private t (delete n g) s'.
Proof.
  intros Hi Hp Hn Hg Hf Hlock Ht Hd Hv s'.
  destruct (private_free t g s n Hp Hn (ex_intro _ _ Hg)) as (f0 & Hf0 & Hc & _). assert (f0 = f) as -> by congruence. split_and!.
  - split_and!; [| |done].
    + intros n' f' Hn' Hc'. cbn. rewrite lookup_insert_ne by done. destruct (decide (n' = n)) as [->|Hne]; [|by rewrite lookup_delete_ne].
      rewrite lookup_delete_eq, Hf. split; [congruence|done].
    + right. exists f. split_and!; [done| |done|done|done]. destruct Hlock as [d Hl]. specialize (Hp _ lock_not_target). rewrite Hl in Hp.
      by destruct (owned t s _).
  - unfold fs_inv, current. cbn. by rewrite lookup_insert_eq, last_snoc.
  - intros n' Hn'. unfold owned. cbn. rewrite lookup_insert_ne by done. destruct (decide (n' = n)) as [->|Hne].
    + by rewrite !lookup_delete_eq.
    + rewrite !lookup_delete_ne by done. by apply Hp.
Qed.

(** *** The methods of a writer *)

(** The files a writer still needs. *)
Definition writerOK (w : LockingFileWriter) (g : gmap (list ascii) (list ascii)) : Prop :=
  lw_path w = target /\ LockingFileWriter_Path w ≠ target /\ LockingFileWriter_Path w ≠ lockOf target /\
  (fw_commitOrClose (lw_writer w) = false -> is_Some (g !! LockingFileWriter_Path w)) /\
  (lw_state w = lockingFileWriterStateLocked -> is_Some (g !! lockOf target)).

Definition closable (t : nat) (w : LockingFileWriter) (s : FS) : Prop := exists g, private t g s /\ writerOK w g.

(** A writer that knows the version it started from. *)
Definition ready (t : nat) (w : LockingFileWriter) (g : gmap (list ascii) (list ascii)) (obs : option File) (s : FS) : Prop :=
  private t g s /\ writerOK w g /\ t ∉ (history s).*1 /\ obs ∈ versions s /\ lw_fi w = info <$> obs.

Lemma ready_stable t w g obs : stable rely t (ready t w g obs).
Proof.
  repeat apply and_stable; auto using private_stable, pure_stable, uncommitted_stable, version_stable.
Qed.

Lemma ready_closable t w g obs s : ready t w g obs s -> closable t w s.
Proof. intros (Hp & Hw & _). by exists g. Qed.

Lemma closable_stable t w : stable rely t (closable t w).
Proof. intros s s' Hr (g & Hp & Hw). exists g. split; [|done]. by eapply private_stable. Qed.

Definition SecureS {St E A} (t : nat) (m : SM St E A) (st : St) (Q : out E A -> St -> FS -> Prop) (s : FS) : Prop :=
  secure sys fs_inv rely guar t (m st) (fun rst => Q rst.1 rst.2) s.

Lemma SecureS_bind {St E A B} t (m : SM St E A) (k : A -> SM St E B) st (Q : out E B -> St -> FS -> Prop) (R : out E A -> St -> FS -> Prop) s :
  SecureS t m st R s ->
  (forall a st' s', R (Ok a) st' s' -> SecureS t (k a) st' Q s') ->
  (forall e st' s', R (Err e) st' s' -> Q (Err e) st' s') -> (forall st' s', R Panic st' s' -> Q Panic st' s') ->
  SecureS t (m ≫= k) st Q s.
Proof.
  intros Hm Hok Herr Hpanic. apply secure_prog_bind. eapply secure_impl; [exact Hm|]. intros [[a|e|] st'] s1 HR; cbn in HR.
  - apply Hok, HR, rtc_refl.
  - intros s2 Hr. by apply Herr, HR.
  - intros s2 Hr. by apply Hpanic, HR.
Qed.

Lemma SecureS_get {St E B} t (k : St -> SM St E B) st Q s : SecureS t (k st) st Q s -> SecureS t (getS ≫= k) st Q s.
Proof. done. Qed.

Lemma SecureS_ret {St E A} t (r : out E A) st (Q : out E A -> St -> FS -> Prop) s :
  stable rely t (Q r st) -> Q r st s -> SecureS t (fun st => ret (r, st)) st Q s.
Proof. intros Hst HQ s' Hr. cbn. by eapply stable_rtc. Qed.

Lemma SecureS_wrap {St E E' A} t (f : E' -> E) (m : SM St E' A) st (Q : out E A -> St -> FS -> Prop) s :
  SecureS t m st (fun r => Q match r with Ok a => Ok a | Err e => Err (f e) | Panic => Panic end) s ->
  SecureS t (wrapS f m) st Q s.
Proof.
  intros Hm. apply secure_prog_bind. eapply secure_impl; [exact Hm|]. intros [r st'] s1 HR s2 Hr. cbn in *. by apply HR.
Qed.

Lemma SecureS_try {St E E' A} t (m : SM St E' A) st (Q : out E (out E' A) -> St -> FS -> Prop) s :
  SecureS t m st (fun r => Q match r with Panic => Panic | r => Ok r end) s -> SecureS t (tryS m) st Q s.
Proof.
  intros Hm. apply secure_prog_bind. eapply secure_impl; [exact Hm|]. intros [r st'] s1 HR s2 Hr. cbn in *. destruct r; by apply HR.
Qed.

(** The rule for a system call. *)
Lemma SecureS_call {St E A} t (P : FS -> Prop) (f : SysError -> E) (c : FsCall (SysError + A)) (st : St) Q s :
  stable rely t P -> P s -> (forall r, stable rely t (Q r st)) ->
  (forall s x s', fs_inv s -> P s -> sys t _ c s x s' ->
    guar t s s' /\ fs_inv s' /\ Q match x with inl e => Err (f e) | inr a => Ok a end st s') ->
  SecureS t (sysCall f c) st Q s.
Proof.
  intros HP Hs HQ Hc. unfold SecureS, sysCall. eapply secure_call; [exact HP|exact Hs|]. intros s1 x s2 Hi H1 Hsys.
  destruct (Hc s1 x s2 Hi H1 Hsys) as (Hg & Hi' & HQ2). split_and!; [done..|]. intros s3 Hr. cbn. eapply stable_rtc; [apply HQ|exact Hr|exact HQ2].
Qed.

Lemma SecureS_mret {St E A} t (a : A) st (Q : out E A -> St -> FS -> Prop) s :
  stable rely t (Q (Ok a) st) -> Q (Ok a) st s -> SecureS t (mret a) st Q s.
Proof. apply (SecureS_ret t (Ok a)). Qed.

Lemma SecureS_fail {St E A} t e st (Q : out E A -> St -> FS -> Prop) s :
  stable rely t (Q (Err e) st) -> Q (Err e) st s -> SecureS t (failS e) st Q s.
Proof. apply (SecureS_ret t (Err e)). Qed.

(** Calls without an effect of their own. *)
Lemma SecureS_idle {St E A} t (P : FS -> Prop) (f : SysError -> E) (c : FsCall (SysError + A)) (st : St) s :
  stable rely t P -> P s -> (forall s x s', sys t _ c s x s' -> s' = s) ->
  SecureS t (sysCall f c) st (fun _ st' s => st' = st /\ P s) s.
Proof.
  intros HP Hs Hidle. eapply (SecureS_call t P); [done|done| |].
  - intros r. apply and_stable; [apply pure_stable|done].
  - intros s1 x s2 Hi H1 ->%Hidle. split; [apply guar_refl|]. done.
Qed.

(** A check that succeeds under the lock holds from then on. *)
Lemma check_secure t w g obs s :
  ready t w g obs s ->
  SecureS t checkConcurrentModification w (fun r w' s => w' = w /\ ready t w g obs s /\
    (r = Ok tt -> is_Some (g !! lockOf target) -> info <$> current s = info <$> obs)) s.
Proof.
  intros Hw. unfold checkConcurrentModification. apply SecureS_get.
  eapply (SecureS_bind t _ _ _ _ (fun r w' s => w' = w /\ ready t w g obs s /\
    (forall fi, r = Ok fi -> is_Some (g !! lockOf target) -> info <$> current s = fi))).
  - unfold SecureS. eapply (secure_call _ _ _ _ _ (ready t w g obs)); [apply ready_stable|done|]. intros s1 x s2 Hi H1 [-> Hx].
    split_and!; [apply guar_refl|done|]. destruct (id H1) as (Hp & (Hpath & _) & _). rewrite Hpath, Hi in Hx.
    assert (Hcur : forall fi, match x with inr fi => Ok (Some fi) | inl NotExist => Ok None | inl e => Err (WStat e) end = Ok fi ->
      info <$> current s1 = fi).
    { intros fi. destruct Hx as [->| ->]; [done|]. destruct (current s1); intros [= <-]; done. }
    intros s3 Hr. cbn. split; [done|]. split; [by eapply stable_rtc; [apply ready_stable|..]|]. intros fi Hfi Hlock. rewrite <- (Hcur fi Hfi).
    unfold current. f_equal. assert (history s3 = history s1) as ->; [|done]. clear - Hp Hlock Hr. induction Hr as [|a b c Hab Hbc IH]; [done|].
    rewrite IH by (by eapply private_stable). by eapply locked_history.
  - intros fi w' s1 (-> & Hr1 & Hfi). specialize (Hfi fi eq_refl). destruct (id Hr1) as (Hp & _ & _ & _ & Hlw). rewrite Hlw in *.
    assert (Hst : forall r : out WriterError unit, stable rely t (fun s => w = w /\ ready t w g obs s /\
      (r = Ok tt -> is_Some (g !! lockOf target) -> info <$> current s = info <$> obs))).
    { intros r s2 s3 Hr (_ & Hr2 & Hc). split; [done|]. split; [by eapply ready_stable|]. intros -> Hl. rewrite <- Hc by done.
      unfold current. by rewrite (locked_history t g s2 s3) by (done || apply Hr2). }
    destruct obs as [f|], fi as [fi|]; cbn [fmap option_fmap option_map]; try case_decide as Hd;
      (apply SecureS_mret || apply SecureS_fail); try apply Hst; (split; [done|]); (split; [done|]); intros Hok Hl; [|done..|by apply Hfi].
    rewrite Hfi by done. by rewrite Hd.
  - by intros e w' s1 (-> & ? & _).
  - by intros w' s1 (-> & ? & _).
Qed.

(** The outcome of a method: either it did its work, or the writer can be closed. *)
Definition orClosable {A} (t : nat) (P : A -> LockingFileWriter -> FS -> Prop) {E} (r : out E A) (w : LockingFileWriter) (s : FS) : Prop :=
  match r with Ok a => P a w s | _ => closable t w s end.

Lemma orClosable_stable {A} t (P : A -> LockingFileWriter -> FS -> Prop) {E} (r : out E A) w :
  (forall a, stable rely t (P a w)) -> stable rely t (orClosable t P r w).
Proof. intros HP. destruct r; [apply HP|apply closable_stable..]. Qed.

Definition inState (state : lockingFileWriterState) (w : LockingFileWriter) : LockingFileWriter :=
  mkLocking (lw_writer w) (lw_fi w) state.

Lemma setState_secure t w state (Q : out WriterError unit -> LockingFileWriter -> FS -> Prop) s :
  stable rely t (Q (Ok tt) (inState state w)) -> Q (Ok tt) (inState state w) s -> SecureS t (setState state) w Q s.
Proof. intros Hst HQ s' Hr. cbn. by eapply stable_rtc. Qed.

Lemma Lock_secure t w g obs s :
  ready t w g obs s -> lw_state w = lockingFileWriterStateOpen ->
  SecureS t Lock w (orClosable t (fun _ w' s => w' = inState lockingFileWriterStateLocked w /\
    ready t w' (<[lockOf target := []]> g) obs s)) s.
Proof.
  intros Hw Hopen. unfold Lock. apply SecureS_get. rewrite decide_False by (rewrite Hopen; congruence).
  destruct (id Hw) as (_ & (Hpath & _) & _).
  eapply SecureS_bind; [by apply check_secure| |by intros ??? (-> & ?%ready_closable & _)|by intros ?? (-> & ?%ready_closable & _)].
  intros [] w1 s1 (-> & Hw1 & _). cbv beta.
  eapply (SecureS_bind t _ _ _ _ (orClosable t (fun _ w' s => w' = w /\ ready t (inState lockingFileWriterStateLocked w) (<[lockOf target := []]> g) obs s)));
    [| |done|done].
  - eapply (SecureS_call t (ready t w g obs)); [apply ready_stable|done| |].
    { intros r. apply orClosable_stable. intros _. apply and_stable; [apply pure_stable|apply ready_stable]. }
    intros s2 x s3 Hi Hr [[-> ->]|[(-> & _ & ->)|(now & -> & Hnone & ->)]];
      [split; [apply guar_refl|split; [done|by eapply ready_closable]]..|].
    unfold lockPath in *. rewrite Hpath in *. destruct Hr as (Hp & Hok & Hrest).
    destruct (own_write t g s2 _ (mkFile [] now 256 (Some t)) Hi Hp lock_not_target (or_introl Hnone) eq_refl) as (Hg & Hi' & Hp').
    split_and!; [done..|]. split; [done|]. split_and!; [done| |apply Hrest..].
    destruct Hok as (H1 & H2 & H3 & H4 & H5). split_and!; [done..| |].
    + intros Hd. rewrite lookup_insert_ne by done. by apply H4.
    + intros _. by rewrite lookup_insert_eq.
  - intros [] w2 s2 [-> Hw2]. cbv beta.
    eapply (SecureS_bind t _ _ _ _ (fun _ w' s => w' = w /\ ready t (inState lockingFileWriterStateLocked w) (<[lockOf target := []]> g) obs s)).
    + apply SecureS_try. eapply secure_impl; [apply (SecureS_idle t (ready t (inState lockingFileWriterStateLocked w) (<[lockOf target := []]> g) obs));
        [apply ready_stable|done|by intros ??? ->]|]. intros [r w3] s3 Hall. by destruct (Hall s3 (rtc_refl _ _)) as [? ?].
    + intros _ w3 s3 [-> Hw3]. apply setState_secure; [apply and_stable; [apply pure_stable|apply ready_stable]|done].
    + intros e w3 s3 [-> (Hp & Hok & _)]. exists (<[lockOf target := []]> g). split; [done|]. destruct Hok as (H1 & H2 & H3 & H4 & _).
      split_and!; [done..|]. by rewrite Hopen.
    + intros w3 s3 [-> (Hp & Hok & _)]. exists (<[lockOf target := []]> g). split; [done|]. destruct Hok as (H1 & H2 & H3 & H4 & _).
      split_and!; [done..|]. by rewrite Hopen.
Qed.

Ltac stab := first [apply pure_stable | apply ready_stable | apply voted_stable | apply closable_stable | apply private_stable
  | apply committed_stable | apply and_stable; stab].

Lemma vote_secure t w g obs d s :
  ready t w g obs s -> g !! LockingFileWriter_Path w = Some d ->
  SecureS t (voteOnLocked sha1_Sum (txOf t)) w (orClosable t (fun _ w' s => w' = w /\ ready t w g obs s /\ voted t d s)) s.
Proof.
  intros Hw Hd. unfold voteOnLocked. destruct (id Hw) as (_ & (_ & Hne & _) & _).
  assert (Hst : stable rely t (fun s => w = w /\ ready t w g obs s /\ voted t d s)) by
    stab.
  destruct (txOf t) as [|tx|] eqn:Htx.
  - apply SecureS_mret; [done|]. split; [done|]. split; [done|]. intros tx. by rewrite Htx.
  - apply SecureS_get.
    eapply (SecureS_bind t _ _ _ _ (orClosable t (fun contents w' s => w' = w /\ ready t w g obs s /\ contents = d))); [| |done|done].
    + eapply (SecureS_call t (ready t w g obs)); [apply ready_stable|done| |].
      { intros r. apply orClosable_stable. intros c. stab. }
      intros s1 x s2 Hi Hr [-> Hx]. split; [apply guar_refl|]. split; [done|].
      destruct (private_free t g s1 _ (proj1 Hr) Hne (ex_intro _ _ Hd)) as (f & Hf & _ & Hdf). rewrite Hf in Hx.
      destruct Hx as [->| ->]; [by eapply ready_closable|]. split; [done|]. split; [done|]. congruence.
    + intros contents w1 s1 (-> & Hw1 & ->). cbv beta.
      eapply (SecureS_bind t _ _ _ _ (orClosable t (fun v w' s => w' = w /\ ready t w g obs s /\ v = sha1_Sum (toBytes d)))); [| |done|done].
      * apply (SecureS_ret t (hashContents sha1_Sum FHash d)).
        -- apply orClosable_stable. intros c. stab.
        -- unfold hashContents, VoteHash_Vote, VoteFromHash. case_decide; [done|by eapply ready_closable].
      * intros v w2 s2 (-> & Hw2 & ->). cbv beta.
        eapply (SecureS_bind t _ _ _ _ (orClosable t (fun _ w' s => w' = w /\ ready t w g obs s /\ voted t d s))); [| |done|done].
        -- eapply (SecureS_call t (ready t w g obs)); [apply ready_stable|done|by intros r; apply orClosable_stable|].
           intros s3 x s4 Hi Hr [(e & -> & ->)|(-> & ->)]; [split; [apply guar_refl|split; [done|by eapply ready_closable]]|].
           split_and!; [|done|]. { split_and!; [done|by left|by apply prefix_app_r]. }
           split; [done|]. split; [done|]. intros tx' _. cbn. rewrite elem_of_app, list_elem_of_singleton. by right.
        -- intros [] w3 s3 (-> & Hw3 & Hv). by apply SecureS_mret.
  - apply SecureS_fail; [apply closable_stable|by eapply ready_closable].
Qed.

(** *** Committing and closing *)

Lemma SecureS_onWriter {A} t (m : SM FileWriter WriterError A) w (Q : out WriterError A -> LockingFileWriter -> FS -> Prop) s :
  SecureS t m (lw_writer w) (fun r fw => Q r (mkLocking fw (lw_fi w) (lw_state w))) s -> SecureS t (onWriter m) w Q s.
Proof.
  intros Hm. apply secure_prog_bind. eapply secure_impl; [exact Hm|]. intros [r fw] s1 HR s2 Hr. cbn in *. by apply HR.
Qed.

Definition doneWriter (fw : FileWriter) : FileWriter := mkFileWriter (fw_tmpFile fw) (fw_path fw) true.

Lemma once_bind {A} t (k : unit -> SM FileWriter WriterError A) fw Q s :
  (fw_commitOrClose fw = true -> stable rely t (Q (Err ErrAlreadyDone) fw) /\ Q (Err ErrAlreadyDone) fw s) ->
  (fw_commitOrClose fw = false -> SecureS t (k tt) (doneWriter fw) Q s) -> SecureS t (once ≫= k) fw Q s.
Proof.
  intros Herr Hok. unfold SecureS.
  assert ((once ≫= k) fw = if fw_commitOrClose fw then ret (Err ErrAlreadyDone, fw) else k tt (doneWriter fw)) as -> by
    (unfold mbind, SM_bind, once, getS, mbind, SM_bind; cbn; by destruct (fw_commitOrClose fw)).
  destruct (fw_commitOrClose fw); [|by apply Hok]. destruct (Herr eq_refl) as [Hst HQ]. apply secure_ret; done.
Qed.

(** The commit of the temporary file under the lock. *)
Lemma FileWriter_Commit_secure t w d obs s :
  let g := <[lockOf target := []]> {[LockingFileWriter_Path w := d]} in
  ready t w g obs s -> fw_commitOrClose (lw_writer w) = false -> d = edit t (content obs) -> voted t d s ->
  info <$> current s = info <$> obs ->
  SecureS t FileWriter_Commit (lw_writer w) (fun r fw s => fw = doneWriter (lw_writer w) /\
    match r with
    | Ok _ => private t {[lockOf target := []]} s /\ t ∈ (history s).*1
    | _ => exists g', private t g' s /\ is_Some (g' !! lockOf target)
    end) s.
Proof.
  intros g Hw Hdone Hd Hv Hcur. unfold FileWriter_Commit. apply once_bind; [congruence|]. intros _. cbv beta. apply SecureS_get. cbn [doneWriter fw_tmpFile fw_path].
  set (before := fun s => ready t w g obs s /\ voted t d s /\ info <$> current s = info <$> obs).
  assert (Hlock : is_Some (g !! lockOf target)) by (unfold g; by rewrite lookup_insert_eq).
  assert (Hbefore : stable rely t before).
  { intros s1 s2 Hr (H1 & H2 & H3). split_and!; [by eapply ready_stable|by eapply voted_stable|]. unfold current.
    by rewrite (locked_history t g s1 s2) by (done || apply H1). }
  assert (Hleft : stable rely t (fun s => exists g', private t g' s /\ is_Some (g' !! lockOf target))).
  { intros s1 s2 Hr (g' & Hp & Hl). exists g'. split; [by eapply private_stable|done]. }
  assert (Hpost : forall r : out WriterError unit, stable rely t (fun s => doneWriter (lw_writer w) = doneWriter (lw_writer w) /\ match r with
    | Ok _ => private t {[lockOf target := []]} s /\ t ∈ (history s).*1
    | _ => exists g', private t g' s /\ is_Some (g' !! lockOf target)
    end)) by (intros []; (apply and_stable; [apply pure_stable|]); [stab|apply Hleft..]).
  assert (Hfail : forall s, before s -> exists g', private t g' s /\ is_Some (g' !! lockOf target)) by (intros ? [[? _] _]; eauto).
  eapply SecureS_bind; [eapply (SecureS_idle t before); [done|done|by intros ??? ->]| |by intros ??? [-> ?%Hfail]|by intros ?? [-> ?%Hfail]].
  intros [] fw s1 [-> H1]. cbv beta.
  eapply SecureS_bind; [eapply (SecureS_idle t before); [done|done|by intros ??? ->]| |by intros ??? [-> ?%Hfail]|by intros ?? [-> ?%Hfail]].
  intros [] fw s2 [-> H2]. cbv beta.
  eapply (SecureS_bind t _ _ _ _ (fun r fw s => fw = doneWriter (lw_writer w) /\ match r with
    | Ok _ => private t {[lockOf target := []]} s /\ t ∈ (history s).*1
    | _ => exists g', private t g' s /\ is_Some (g' !! lockOf target) end)); [| |done|done].
  - eapply (SecureS_call t before); [done|done|apply Hpost|].
    intros s3 x s4 Hi H3 [(e & -> & ->)|(f & -> & Hf & ->)]; [split; [apply guar_refl|split; [done|]]; split; [done|by apply Hfail]|].
    destruct H3 as ((Hp & (Hpath & Hne & Hnl & _) & Ht & Hobs & _) & Hv3 & Hcur3). unfold lw_path, LockingFileWriter_Path in *. rewrite Hpath.
    assert (Hgd : g !! fw_tmpFile (lw_writer w) = Some d) by (unfold g; rewrite lookup_insert_ne by done; by rewrite lookup_singleton_eq).
    destruct (private_free t g s3 _ Hp Hne (ex_intro _ _ Hgd)) as (f' & Hf' & _ & Hdf). assert (f' = f) as -> by congruence.
    assert (data f = d) as Hdata by congruence. rewrite decide_True by done.
    destruct (own_rename t g s3 _ f Hi Hp Hne Hdf Hf Hlock Ht) as (Hg & Hi' & Hp').
    { intros Hdist. rewrite (Hdist (current s3) obs); [congruence| |done|done]. unfold current, versions.
      destruct (last (history s3)) as [v|] eqn:Hl; cbn; [|by left]. right. apply list_elem_of_fmap. exists v. split; [done|].
      rewrite last_lookup in Hl. by eapply list_elem_of_lookup_2. }
    { by rewrite Hdata. }
    split; [done|]. split; [done|]. split; [done|]. split.
    + replace {[lockOf target := []]} with (delete (fw_tmpFile (lw_writer w)) g); [done|]. unfold g.
      rewrite delete_insert_ne by done. by rewrite delete_singleton_eq.
    + cbn. rewrite fmap_app, elem_of_app. right. by left.
  - intros [] fw s3 (-> & Hp & Ht). cbv beta.
    eapply (SecureS_call t (fun s => private t {[lockOf target := []]} s /\ t ∈ (history s).*1)); [stab|by split|apply Hpost|].
    intros s4 x s5 Hi [Hp4 Ht4] Hs. cbn in Hs. subst s5. split; [apply guar_refl|]. split; [done|]. split; [done|]. destruct x as [e|[]]; [|by split].
    exists {[lockOf target := []]}. split; [done|]. by rewrite lookup_singleton_eq.
Qed.

Lemma unlock_secure t w g (R : list (nat * File) -> Prop) s :
  private t g s -> writerOK w g -> lw_state w = lockingFileWriterStateLocked -> stable rely t (fun s => R (history s)) -> R (history s) ->
  SecureS t unlock w (fun r w' s => R (history s) /\
    match r with
    | Ok _ => w' = inState lockingFileWriterStateClosed w /\ private t (delete (lockOf target) g) s
    | _ => w' = w /\ private t g s
    end) s.
Proof.
  intros Hp Hw Hlocked HR HRs. unfold unlock. apply SecureS_get. rewrite decide_False by (rewrite Hlocked; tauto).
  destruct Hw as (Hpath & _ & _ & _ & Hl).
  eapply (SecureS_bind t _ _ _ _ (fun r w' s => w' = w /\ R (history s) /\ match r with
    | Ok _ => private t (delete (lockOf target) g) s | _ => private t g s end)).
  - eapply (SecureS_call t (fun s => R (history s) /\ private t g s)); [apply and_stable; [done|stab]|by split| |].
    { intros []; (apply and_stable; [apply pure_stable|apply and_stable; [done|apply private_stable]]). }
    unfold lockPath. rewrite Hpath.
    intros s1 x s2 Hi [HR1 Hp1] [[-> ->]|[(-> & _ & ->)|(-> & _ & ->)]]; [split; [apply guar_refl|done]..|].
    destruct (own_delete t g s1 _ Hi Hp1 lock_not_target (Hl Hlocked)) as (Hg & Hi' & Hp'). done.
  - intros [] w1 s1 (-> & HR1 & Hp1). apply setState_secure; [|done]. apply and_stable; [done|]. apply and_stable; [apply pure_stable|apply private_stable].
  - by intros e w1 s1 (-> & HR1 & Hp1).
  - by intros w1 s1 (-> & HR1 & Hp1).
Qed.

Lemma SecureS_frame {St E A} t (m : SM St E A) st (Q : out E A -> St -> FS -> Prop) (R : FS -> Prop) s :
  stable rely t R -> (forall s s', guar t s s' -> R s -> R s') -> R s -> SecureS t m st Q s ->
  SecureS t m st (fun r st s => Q r st s /\ R s) s.
Proof. intros HR Hg Hs Hm. by apply secure_frame. Qed.

Lemma voted_guar t d s s' : guar t s s' -> voted t d s -> voted t d s'.
Proof. intros (_ & _ & [l Hl]) Hv tx Htx. rewrite Hl, elem_of_app. left. by eapply Hv. Qed.

Lemma Commit_secure t w d obs s :
  let g := <[lockOf target := []]> {[LockingFileWriter_Path w := d]} in
  ready t w g obs s -> fw_commitOrClose (lw_writer w) = false -> lw_state w = lockingFileWriterStateLocked ->
  d = edit t (content obs) -> voted t d s ->
  SecureS t LockingFileWriter_Commit w (orClosable t (fun _ w' s => lw_state w' = lockingFileWriterStateClosed /\
    private t ∅ s /\ t ∈ (history s).*1)) s.
Proof.
  intros g Hw Hdone Hlocked Hd Hv. unfold LockingFileWriter_Commit. apply SecureS_get. rewrite decide_False by (rewrite Hlocked; tauto).
  assert (Hlock : is_Some (g !! lockOf target)) by (unfold g; by rewrite lookup_insert_eq).
  eapply SecureS_bind; [eapply (SecureS_frame t _ _ _ (voted t d)); [apply voted_stable|apply voted_guar|exact Hv|apply check_secure, Hw]| | |].
  - intros [] w1 s1 [(-> & Hw1 & Hcur) Hv1]. cbv beta. specialize (Hcur eq_refl Hlock). destruct (id Hw1) as (_ & (Hpath & Hne & Hnl & _) & _).
    set (w2 := mkLocking (doneWriter (lw_writer w)) (lw_fi w) (lw_state w)).
    assert (Hok2 : forall g', is_Some (g' !! lockOf target) -> writerOK w2 g') by (intros g' Hl; by split_and!).
    eapply (SecureS_bind t _ _ _ _ (fun r w' s => w' = w2 /\ match r with
      | Ok _ => private t {[lockOf target := []]} s /\ t ∈ (history s).*1
      | _ => exists g', private t g' s /\ is_Some (g' !! lockOf target) end)).
    + apply SecureS_onWriter. eapply secure_impl; [by apply (FileWriter_Commit_secure t w d obs)|].
      intros [r fw] s2 Hall. destruct (Hall s2 (rtc_refl _ _)) as [Hfw Hr]. cbn in *. by rewrite Hfw.
    + intros [] w3 s3 (-> & Hp3 & Ht3). cbv beta.
      assert (Hl : is_Some ({[lockOf target := []]} !! lockOf target : option (list ascii))) by by rewrite lookup_singleton_eq.
      eapply secure_impl; [eapply (unlock_secure t w2 {[lockOf target := []]} (fun h => t ∈ h.*1)); [done|by apply Hok2|done|apply committed_stable|done]|].
      intros [[[]|e|] w4] s4 Hall; destruct (Hall s4 (rtc_refl _ _)) as (Ht4 & -> & Hp4); cbn in *.
      * rewrite delete_singleton_eq in Hp4. done.
      * eexists. split; [exact Hp4|]. by apply Hok2.
      * eexists. split; [exact Hp4|]. by apply Hok2.
    + intros e w3 s3 (-> & g' & Hp3 & Hl3). exists g'. split; [done|]. by apply Hok2.
    + intros w3 s3 (-> & g' & Hp3 & Hl3). exists g'. split; [done|]. by apply Hok2.
  - intros e w1 s1 [(-> & Hw1 & _) _]. by eapply ready_closable.
  - intros w1 s1 [(-> & Hw1 & _) _]. by eapply ready_closable.
Qed.

Lemma true_stable t : stable rely t (fun _ => True).
Proof. apply pure_stable. Qed.

(** Closing removes the lock and the temporary file only if they are one's own. *)
Lemma FileWriter_Close_secure t w s :
  closable t w s -> SecureS t FileWriter_Close (lw_writer w) (fun _ _ _ => True) s.
Proof.
  intros Hw. unfold FileWriter_Close. apply once_bind; [split; [apply true_stable|done]|]. intros Hdone. cbv beta. apply SecureS_get.
  cbn [doneWriter fw_tmpFile].
  eapply SecureS_bind; [eapply (SecureS_idle t (closable t w)); [apply closable_stable|done|by intros ??? ->]| |done|done].
  intros [] fw s1 [-> H1]. cbv beta. eapply (SecureS_call t (closable t w)); [apply closable_stable|done|intros; apply true_stable|].
  intros s2 x s3 Hi (g & Hp & _ & Hne & _ & Htmp & _) [[-> ->]|[(-> & _ & ->)|(-> & _ & ->)]]; [split; [apply guar_refl|done]..|].
  destruct (own_delete t g s2 _ Hi Hp Hne (Htmp Hdone)) as (Hg & Hi' & _). done.
Qed.

Lemma Close_secure t w s : closable t w s -> SecureS t LockingFileWriter_Close w (fun _ _ _ => True) s.
Proof.
  intros Hw. unfold LockingFileWriter_Close. apply SecureS_get.
  assert (Hgo : SecureS t (err ← (if decide (lw_state w = lockingFileWriterStateLocked) then tryS unlock else mret (Ok tt));
    writerErr ← tryS (onWriter FileWriter_Close);
    _ ← setState lockingFileWriterStateClosed;
    match err, writerErr with Err e, _ => failS e | _, Err e => failS e | _, _ => mret tt end) w (fun _ _ _ => True) s).
  { eapply (SecureS_bind t _ _ _ _ (fun _ w' s => closable t w' s)); [| |done|done].
    - case_decide as Hl; [|apply SecureS_mret; [apply closable_stable|done]]. apply SecureS_try. destruct Hw as (g & Hp & Hw).
      eapply secure_impl; [apply (unlock_secure t w g (fun _ => True)); [done|done|done|apply true_stable|done]|].
      intros [[[]|e|] w1] s1 Hall; destruct (Hall s1 (rtc_refl _ _)) as (_ & -> & Hp1); cbn; eexists; (split; [exact Hp1|]); [|exact Hw..].
      destruct Hw as (H1 & H2 & H3 & H4 & _). split_and!; [done..| |done]. intros Hd. cbn. rewrite lookup_delete_ne by done. by apply H4.
    - intros err w1 s1 H1. eapply (SecureS_bind t _ _ _ _ (fun _ _ _ => True)); [| |done|done].
      + apply SecureS_try. apply SecureS_onWriter. by apply FileWriter_Close_secure.
      + intros werr w2 s2 _. eapply (SecureS_bind t _ _ _ _ (fun _ _ _ => True)); [by apply setState_secure; [apply true_stable|]| |done|done].
        intros [] w3 s3 _. destruct err as [[]|e|], werr as [[]|e'|]; (apply SecureS_mret || apply SecureS_fail); try apply true_stable; done. }
  destruct (lw_state w) eqn:Hst.
  - exact Hgo.
  - exact Hgo.
  - apply SecureS_mret; [apply true_stable|done].
Qed.

(** A writer that is closed, or can be. *)
Definition closing (t : nat) (w : LockingFileWriter) (s : FS) : Prop := lw_state w = lockingFileWriterStateClosed \/ closable t w s.

Lemma closing_stable t w : stable rely t (closing t w).
Proof. intros s s' Hr [Hc|Hc]; [by left|right]. by eapply closable_stable. Qed.

Lemma closing_secure t w s : closing t w s -> SecureS t LockingFileWriter_Close w (fun _ _ _ => True) s.
Proof.
  intros [Hc|Hc]; [|by apply Close_secure]. unfold LockingFileWriter_Close. apply SecureS_get. rewrite Hc.
  apply SecureS_mret; [apply true_stable|done].
Qed.

(** The file was replaced, and nothing is left behind. *)
Definition finished (t : nat) (s : FS) : Prop := private t ∅ s /\ t ∈ (history s).*1.

Lemma CommitLockedFile_secure t w d obs s :
  ready t w {[LockingFileWriter_Path w := d]} obs s -> fw_commitOrClose (lw_writer w) = false ->
  lw_state w = lockingFileWriterStateOpen -> d = edit t (content obs) ->
  SecureS t (CommitLockedFile sha1_Sum (txOf t)) w (fun r w' s => closing t w' s /\ (r = Ok tt -> lw_state w' = lockingFileWriterStateClosed /\ finished t s)) s.
Proof.
  intros Hw Hdone Hopen Hd. unfold CommitLockedFile.
  assert (Hstop : forall E A (r : out E A) (r' : out FileError unit) P w s, orClosable t P r w s -> r' ≠ Ok tt -> (forall a, r ≠ Ok a) ->
    closing t w s /\ (r' = Ok tt -> lw_state w = lockingFileWriterStateClosed /\ finished t s)) by (intros E A [a|e|] r' P w0 s0 Hc Hr' Hr; [by destruct (Hr a)|by split; [right|]..]).
  eapply (SecureS_bind t _ _ _ _ (orClosable t (fun _ w' s => w' = inState lockingFileWriterStateLocked w /\
    ready t w' (<[lockOf target := []]> {[LockingFileWriter_Path w := d]}) obs s))); [| |by intros; eapply Hstop|by intros; eapply Hstop].
  { apply SecureS_wrap. eapply secure_impl; [by apply Lock_secure|]. intros [[[]|e|] w'] s' Hall; by apply (Hall s' (rtc_refl _ _)). }
  intros [] w1 s1 [-> H1]. cbv beta.
  eapply SecureS_bind; [apply vote_secure; [exact H1|]| |by intros; eapply Hstop|by intros; eapply Hstop].
  { destruct H1 as (_ & (_ & _ & Hnl & _) & _). rewrite lookup_insert_ne by done. by rewrite lookup_singleton_eq. }
  intros v w2 s2 (-> & H2 & Hv2). cbv beta.
  eapply (SecureS_bind t _ _ _ _ (orClosable t (fun _ w' s => lw_state w' = lockingFileWriterStateClosed /\
    private t ∅ s /\ t ∈ (history s).*1))); [| |by intros; eapply Hstop|by intros; eapply Hstop].
  { apply SecureS_wrap. eapply secure_impl; [by apply (Commit_secure t _ d obs)|]. intros [[[]|e|] w'] s' Hall; by apply (Hall s' (rtc_refl _ _)). }
  intros [] w3 s3 (Hc3 & Hp3 & Ht3). cbv beta.
  assert (Hfin : stable rely t (finished t)) by (apply and_stable; stab).
  assert (Hst : forall r : out FileError unit, stable rely t (fun s => closing t w3 s /\ (r = Ok tt -> lw_state w3 = lockingFileWriterStateClosed /\ finished t s))).
  { intros r s4 s5 Hr [H4 H5]. split; [by eapply closing_stable|]. intros Hok. destruct (H5 Hok) as [Hc5 Hf5]. split; [done|]. by eapply Hfin. }
  unfold VoteOnContext, RunOnContext. destruct (txOf t) as [|tx|].
  - apply SecureS_mret; [apply Hst|]. by split; [left|].
  - eapply (SecureS_call t (fun s => finished t s)); [done|done|apply Hst|].
    intros s4 x s5 Hi H4 [(e & -> & ->)|(-> & ->)]; [split; [apply guar_refl|split; [done|]]; by split; [left|]|].
    split; [split_and!; [done|by left|by apply prefix_app_r]|]. split; [done|]. by split; [left|].
  - apply SecureS_fail; [apply Hst|]. by split; [left|].
Qed.

(** *** A new writer *)

Abbreviation secureP := (secure sys fs_inv rely guar).

Lemma secure_PM_bind {E A B} t (m : PM FsCall E A) (k : A -> PM FsCall E B) (R : out E A -> FS -> Prop) Q s :
  secureP t m R s -> (forall a s, R (Ok a) s -> secureP t (k a) Q s) ->
  (forall e s, R (Err e) s -> Q (Err e) s) -> (forall s, R Panic s -> Q Panic s) -> secureP t (m ≫= k) Q s.
Proof.
  intros Hm Hok Herr Hpanic. apply secure_prog_bind. eapply secure_impl; [exact Hm|]. intros [a|e|] s1 HR.
  - apply Hok, HR, rtc_refl.
  - intros s2 Hr. by apply Herr, HR.
  - intros s2 Hr. by apply Hpanic, HR.
Qed.

Definition ifOk {E A} (P : A -> FS -> Prop) (r : out E A) (s : FS) : Prop := match r with Ok a => P a s | _ => True end.

Lemma ifOk_stable {E A} t (P : A -> FS -> Prop) (r : out E A) : (forall a, stable rely t (P a)) -> stable rely t (ifOk P r).
Proof. intros HP. destruct r; [apply HP|apply true_stable..]. Qed.

Lemma secure_failing {E A} t (P : FS -> Prop) (f : SysError -> E) (c : FsCall (SysError + A)) (Q : A -> FS -> Prop) s :
  stable rely t P -> P s -> (forall a, stable rely t (Q a)) ->
  (forall s x s', fs_inv s -> P s -> sys t _ c s x s' -> guar t s s' /\ fs_inv s' /\ (forall a, x = inr a -> Q a s')) ->
  secureP t (failing f c) (ifOk Q) s.
Proof.
  intros HP Hs HQ Hc. eapply secure_call; [exact HP|exact Hs|]. intros s1 x s2 Hi H1 Hsys.
  destruct (Hc s1 x s2 Hi H1 Hsys) as (Hg & Hi' & HQ2). split_and!; [done..|]. apply secure_ret; [by apply ifOk_stable|]. destruct x; [done|by apply HQ2].
Qed.

Lemma temp_names digits : digits ≠ [] -> Forall (fun c => Regex.between 48 57 c = true) digits ->
  target ++ digits ≠ target /\ target ++ digits ≠ lockOf target.
Proof.
  intros Hne Hd. split.
  - intros Heq. apply (f_equal length) in Heq. rewrite length_app in Heq. destruct digits; [done|]. cbn in Heq. lia.
  - unfold lockOf. intros ->%app_inv_head. apply Forall_cons in Hd as [Hc _]. vm_compute in Hc. done.
Qed.

(** Before a handler has written anything. *)
Definition fresh (t : nat) (s : FS) : Prop := private t ∅ s /\ t ∉ (history s).*1.

Lemma fresh_stable t : stable rely t (fresh t).
Proof. apply and_stable; [apply private_stable|apply uncommitted_stable]. Qed.

(** The writer starts from a version of the target and has its contents. *)
Definition seeded (t : nat) (w : LockingFileWriter) (s : FS) : Prop :=
  exists obs, ready t w {[LockingFileWriter_Path w := content obs]} obs s /\
    fw_commitOrClose (lw_writer w) = false /\ lw_state w = lockingFileWriterStateOpen.

Definition temporary (t : nat) (tmp d : list ascii) (obs : option File) (s : FS) : Prop :=
  private t {[tmp := d]} s /\ t ∉ (history s).*1 /\ obs ∈ versions s /\ tmp ≠ target /\ tmp ≠ lockOf target.

Lemma temporary_stable t tmp d obs : stable rely t (temporary t tmp d obs).
Proof. repeat apply and_stable; auto using private_stable, uncommitted_stable, version_stable, pure_stable. Qed.

Lemma NewFileWriter_secure t obs s :
  fresh t s -> obs ∈ versions s ->
  secureP t (NewFileWriter target [0]) (ifOk (fun fw s => fw = mkFileWriter (fw_tmpFile fw) target false /\ temporary t (fw_tmpFile fw) [] obs s)) s.
Proof.
  intros Hf Hobs. unfold NewFileWriter. cbn [length Nat.ltb Nat.leb].
  eapply (secure_PM_bind t _ _ (ifOk (fun tmp => temporary t tmp [] obs))); [| |done|done].
  - eapply (secure_failing t (fun s => fresh t s /\ obs ∈ versions s)); [apply and_stable; [apply fresh_stable|apply version_stable]|done|intros; apply temporary_stable|].
    intros s1 x s2 Hi [[Hp Ht] Ho] [(e & -> & ->)|(digits & now & -> & Hne & Hd & Hnone & ->)]; [split; [apply guar_refl|done]|].
    destruct (temp_names digits Hne Hd) as [H1 H2].
    destruct (own_write t ∅ s1 _ (mkFile [] now 384 (Some t)) Hi Hp H1 (or_introl Hnone) eq_refl) as (Hg & Hi' & Hp').
    split; [done|]. split; [done|]. intros a [= <-]. by split_and!.
  - intros tmp s1 Ht. rewrite decide_False by tauto.
    apply (secure_ret sys fs_inv rely guar t (Ok (mkFileWriter tmp target false))); [|by split]. cbn. apply and_stable; [apply pure_stable|apply temporary_stable].
Qed.

Lemma current_version s : current s ∈ versions s.
Proof.
  unfold current, versions. destruct (last (history s)) as [v|] eqn:Hl; cbn; [|by left]. right. apply list_elem_of_fmap. exists v. split; [done|].
  rewrite last_lookup in Hl. by eapply list_elem_of_lookup_2.
Qed.

Lemma seed_secure t tmp f s :
  temporary t tmp [] (Some f) s ->
  secureP t (_ ← failing WWrite (WriteFile tmp (data f)); failing WSync (SyncFile tmp) : PM FsCall WriterError unit)
    (ifOk (fun _ => temporary t tmp (data f) (Some f))) s.
Proof.
  intros Ht. eapply (secure_PM_bind t _ _ (ifOk (fun _ => temporary t tmp (data f) (Some f)))); [| |done|done].
  - eapply (secure_failing t (temporary t tmp [] (Some f))); [apply temporary_stable|done|intros; apply temporary_stable|].
    intros s1 x s2 Hi (Hp & Hu & Hv & H1 & H2) [(e & -> & ->)|(f' & part & now & Hf' & _ & Hx & ->)]; [split; [apply guar_refl|done]|].
    assert (Hg : is_Some (({[tmp := []]} : gmap _ (list ascii)) !! tmp)) by by rewrite lookup_singleton_eq.
    destruct (private_free t _ s1 tmp Hp H1 Hg) as (f0 & Hf0 & Hc & Hd). assert (f0 = f') as -> by congruence.
    rewrite lookup_singleton_eq in Hd. injection Hd as Hd. rewrite <- Hd in *.
    destruct (own_write t _ s1 tmp (mkFile ([] ++ part) now (fmode f') (creator f')) Hi Hp H1 (or_intror Hg) Hc) as (Hg' & Hi' & Hp').
    split; [done|]. split; [done|]. intros [] ->. assert (part = data f) as -> by auto. rewrite insert_singleton_eq in Hp'. by split_and!.
  - intros [] s1 H1. eapply (secure_failing t (temporary t tmp (data f) (Some f))); [apply temporary_stable|done|intros; apply temporary_stable|].
    intros s2 x s3 Hi H2 Hs. cbn in Hs. subst s3. split; [apply guar_refl|]. done.
Qed.

Lemma NewLockingFileWriter_secure t s :
  fresh t s -> secureP t (NewLockingFileWriter target [mkLockingConfig 0 true]) (ifOk (seeded t)) s.
Proof.
  intros Hf. unfold NewLockingFileWriter. cbn [length Nat.ltb Nat.leb FileMode SeedContents].
  eapply (secure_PM_bind t _ _ (ifOk (fun obs s => fresh t s /\ obs ∈ versions s))); [| |done|done].
  { eapply secure_call; [apply fresh_stable|exact Hf|]. intros s1 x s2 Hi H1 [-> Hx]. split; [apply guar_refl|]. split; [done|].
    rewrite Hi in Hx. apply secure_ret; [apply ifOk_stable; intros; apply and_stable; [apply fresh_stable|apply version_stable]|].
    pose proof (current_version s1) as Hcur. destruct Hx as [->| ->]; [done|]. by destruct (current s1). }
  intros obs s1 [Hf1 Ho1].
  eapply (secure_PM_bind t _ _ (ifOk (fun fi s => fi = info <$> obs /\ fresh t s /\ obs ∈ versions s))); [| |done|done].
  { destruct obs as [f|].
    - eapply (secure_PM_bind t _ _ (ifOk (fun fi s => fi = info f /\ fresh t s /\ Some f ∈ versions s))); [| |done|done].
      + eapply (secure_failing t (fun s => fresh t s /\ Some f ∈ versions s));
          [apply and_stable; [apply fresh_stable|apply version_stable]|done|intros; apply and_stable; [apply pure_stable|apply and_stable; [apply fresh_stable|apply version_stable]]|].
        intros s2 x s3 Hi H2 [-> Hx]. split; [apply guar_refl|]. split; [done|]. intros a ->. destruct Hx as [[e Hx]|Hx]; [done|]. injection Hx as ->. done.
      + intros fi s2 (-> & H2). apply (secure_ret sys fs_inv rely guar t (Ok (Some (info f)))); [|done].
        apply and_stable; [apply pure_stable|apply and_stable; [apply fresh_stable|apply version_stable]].
    - apply (secure_ret sys fs_inv rely guar t (Ok None)); [|done].
      apply and_stable; [apply pure_stable|apply and_stable; [apply fresh_stable|apply version_stable]]. }
  intros fi s2 (-> & Hf2 & Ho2). eapply secure_PM_bind; [by apply NewFileWriter_secure| |done|done].
  intros [tmp path done] s3 [Hfw Ht3]. cbn in Hfw, Ht3. injection Hfw as -> ->.
  eapply (secure_PM_bind t _ _ (ifOk (fun _ => temporary t tmp (content obs) obs))); [| |done|done].
  { destruct obs as [f|]; [by apply seed_secure|]. apply (secure_ret sys fs_inv rely guar t (Ok tt)); [apply temporary_stable|done]. }
  intros [] s4 Ht4. set (w := mkLocking (mkFileWriter tmp target false) (info <$> obs) lockingFileWriterStateOpen).
  apply (secure_ret sys fs_inv rely guar t (Ok w)).
  - intros s5 s6 Hr (obs' & Hw & Hrest). exists obs'. split; [by eapply ready_stable|done].
  - exists obs. unfold w, LockingFileWriter_Path. cbn. destruct Ht4 as (Hp & Hu & Hv & H1 & H2). split_and!; [|done|done].
    split_and!; [done| |done|done|done]. split_and!; [done|done|done| |done]. intros _. exists (content obs). apply (lookup_insert_eq ∅ tmp).
Qed.

(** *** The whole handler *)

Lemma closed_Close w : lw_state w = lockingFileWriterStateClosed -> LockingFileWriter_Close w = ret (Ok tt, w).
Proof. intros Hc. unfold LockingFileWriter_Close, mbind, SM_bind, getS. cbn. by rewrite Hc. Qed.

Lemma finished_stable t : stable rely t (finished t).
Proof. apply and_stable; stab. Qed.

Lemma gitConfig_secure t w value s :
  seeded t w s ->
  SecureS t (sysCall FGit (GitConfig (LockingFileWriter_Path w) fullPathKey value)) w (orClosable t (fun _ w' s => w' = w /\
    exists obs, ready t w {[LockingFileWriter_Path w := gitConfig fullPathKey value (content obs)]} obs s)) s.
Proof.
  intros (obs & Hw & _). set (tmp := LockingFileWriter_Path w) in *. eapply (SecureS_call t (ready t w {[tmp := content obs]} obs)); [apply ready_stable|done| |].
  { intros r. apply orClosable_stable. intros _. apply and_stable; [apply pure_stable|]. intros s1 s2 Hr [o Ho]. exists o. by eapply ready_stable. }
  intros s1 x s2 Hi H1 Hsys. destruct (id H1) as (Hp & (Hpath & Hne & Hnl & Htmp & Hlk) & Hrest).
  assert (Hg : is_Some (({[tmp := content obs]} : gmap _ (list ascii)) !! tmp)) by by rewrite lookup_singleton_eq.
  destruct (private_free t _ s1 tmp Hp Hne Hg) as (f0 & Hf0 & Hc & Hd). rewrite lookup_singleton_eq in Hd. injection Hd as Hd.
  destruct Hsys as [(e & -> & ->)|[(f & d & now & mode & Hf & Hx & ->)|(d & now & mode & Hf & _)]]; [split; [apply guar_refl|split; [done|by eapply ready_closable]]| |congruence].
  assert (f = f0) as -> by congruence.
  destruct (own_write t _ s1 tmp (mkFile d now mode (creator f0)) Hi Hp Hne (or_intror Hg) Hc) as (Hg' & Hi' & Hp'). rewrite insert_singleton_eq in Hp'.
  assert (Hok : forall d', writerOK w {[tmp := d']}).
  { intros d'. split_and!; [done|done|done|intros _; exists d'; apply lookup_singleton_eq|]. intros Hl. exfalso. destruct (Hlk Hl) as [y Hy]. by rewrite lookup_singleton_ne in Hy. }
  split; [done|]. split; [done|]. destruct x as [e|[]]; [by exists {[tmp := d]}|]. split; [done|]. exists obs.
  rewrite Hx in Hp' by done. rewrite <- Hd in Hp'. split_and!; [|apply Hok|apply Hrest..]. rewrite Hx by done. rewrite <- Hd. exact Hp'.
Qed.

Lemma SetFullPath_secure t repository value repoPath locatorPath s :
  fresh t s -> JoinPath repoPath (text "config") = target -> edit t = gitConfig fullPathKey value ->
  secureP t (SetFullPath sha1_Sum true (txOf t) repository value (Ok repoPath) locatorPath) (fun r s => r = Ok tt -> finished t s) s.
Proof.
  intros Hf Htarget Hedit. unfold SetFullPath. case_decide; [by intros s' _|]. case_decide; [by intros s' _|].
  unfold lift. apply (secure_PM_bind t (ret (Ok repoPath)) _ (fun r s => r = Ok repoPath /\ fresh t s)); [| |by intros ?? [? _]|by intros ? [? _]].
  { apply secure_ret; [apply and_stable; [apply pure_stable|apply fresh_stable]|done]. }
  intros path s0 [[= ->] Hf0]. cbv beta. rewrite Htarget. unfold withWriter.
  eapply (secure_PM_bind t _ _ (ifOk (seeded t))); [| |done|done].
  { apply secure_prog_bind. eapply secure_impl; [by apply NewLockingFileWriter_secure|]. intros [w|e|] s1 Hall s2 Hr; [by apply Hall|done..]. }
  intros w s1 Hw. apply secure_prog_bind.
  assert (Hbody : SecureS t (w ← getS; _ ← sysCall FGit (GitConfig (LockingFileWriter_Path w) fullPathKey value); CommitLockedFile sha1_Sum (txOf t))
    w (fun r w' s => closing t w' s /\ (r = Ok tt -> lw_state w' = lockingFileWriterStateClosed /\ finished t s)) s1).
  { apply SecureS_get. eapply SecureS_bind; [by apply gitConfig_secure| | |].
    - intros [] w1 s2 [-> (obs & Hr)]. destruct Hw as (_ & _ & Hdone & Hopen). eapply CommitLockedFile_secure; [exact Hr|done|done|]. by rewrite Hedit.
    - intros e w1 s2 Hc. split; [by right|done].
    - intros w1 s2 Hc. split; [by right|done]. }
  eapply secure_impl; [exact Hbody|]. intros [r w2] s2 Hall. destruct (Hall s2 (rtc_refl _ _)) as [Hclose Hfin]. cbn in *.
  apply secure_prog_bind. assert (r = Ok tt \/ r ≠ Ok tt) as [->|Hr] by (destruct r as [[]|e|]; [by left|by right..]).
  - destruct (Hfin eq_refl) as [Hc Hf2]. rewrite closed_Close by done. intros s3 Hr3. cbn.
    intros s4 Hr4 _. eapply (stable_rtc rely t (finished t) s2); [apply finished_stable|by etrans|done].
  - eapply secure_impl; [by apply closing_secure|]. intros [r' w3] s3 _ s4 _. cbn. by destruct r' as [[]|e|].
Qed.

(** *** The order of the edits *)

(** What the commits so far amount to. *)
Definition serial (s : FS) : Prop :=
  NoDup (history s).*1 /\
  content (current s) = foldl (fun c t => edit t c) (content target0) (history s).*1 /\
  (forall t f, (t, f) ∈ history s -> voted t (data f) s).

Lemma voted_prefix t d s s' : votes s `prefix_of` votes s' -> voted t d s -> voted t d s'.
Proof. intros [l Hl] Hv tx Htx. rewrite Hl, elem_of_app. left. by eapply Hv. Qed.

Lemma serial_guar t s s' : guar t s s' -> distinct s -> serial s -> serial s'.
Proof.
  intros (_ & Hhist & Hvotes) Hd (Hn & Hc & Hv). destruct Hhist as [Heq|(f & Heq & _ & Ht & Hf & Hvf)].
  - unfold serial, current. rewrite Heq. split_and!; [done|done|]. intros t' f' Hin. eapply voted_prefix; [done|]. by apply Hv.
  - unfold serial. rewrite Heq, fmap_app. cbn [fmap list_fmap fst]. split_and!.
    + apply NoDup_app. split_and!; [done| |apply NoDup_singleton]. intros t' Ht' ->%list_elem_of_singleton. done.
    + rewrite foldl_app. cbn [foldl]. rewrite <- Hc, <- Hf by done. unfold current. by rewrite Heq, last_snoc.
    + intros t' f' [Hin|[= -> ->]%list_elem_of_singleton]%elem_of_app; eapply voted_prefix; [done| |done|]; auto.
Qed.

Lemma distinct_guar t s s' : guar t s s' -> distinct s' -> distinct s.
Proof.
  intros (_ & Hhist & _) Hd f f' Hf Hf'. apply Hd; revert Hf Hf'; unfold versions;
    (destruct Hhist as [->|(g & -> & _)]; [done|]); rewrite fmap_app, !elem_of_cons, !elem_of_app; tauto.
Qed.

Lemma serial_steps {A} (Q : nat -> A -> FS -> Prop) (c c' : conf FsCall FS A) :
  all_secure sys fs_inv rely guar Q c -> rtc (anystep sys) c c' -> serial (shared c) -> distinct (shared c') -> serial (shared c').
Proof.
  intros Hall Hr. revert Hall. induction Hr as [|c1 c2 c3 [t Ht] Hr IH]; [done|]. intros Hall Hs Hd.
  destruct (cstep_secure _ _ _ _ guar_rely _ _ _ _ Ht Hall) as [Hg Hall2]. apply IH; [done| |done]. eapply serial_guar; [done| |done].
  eapply distinct_guar; [exact Hg|]. clear - Hr Hall2 Hd. induction Hr as [|c1 c2 c3 [t Ht] Hr IH]; [done|].
  destruct (cstep_secure _ _ _ _ guar_rely _ _ _ _ Ht Hall2) as [Hg Hall3]. eapply distinct_guar; [exact Hg|]. by apply IH.
Qed.

End Concurrent.

(** ** No update is lost *)

Record SetFullPathCall : Type := mkSetFullPathCall {
  r_ctx : TxContext;
  r_repository : option Repository;
  r_path : list ascii;
}.

Section Requests.
Context (sha1_Sum : bytes -> bytes) (gitConfig : list ascii -> list ascii -> list ascii -> list ascii).
Context (repoPath : list ascii) (fs0 : gmap (list ascii) File) (requests : list SetFullPathCall).

(** The requests set the path of the same repository, at the same time. *)
Definition configPath : list ascii := JoinPath repoPath (text "config").

Definition handler (r : SetFullPathCall) : PM FsCall FileError unit :=
  SetFullPath sha1_Sum true (r_ctx r) (r_repository r) (r_path r) (Ok repoPath) (Ok repoPath).

Definition start : conf FsCall FS (out FileError unit) := mkConf (mkFS fs0 [] []) (handler <$> requests).

(** The edit of the request [t]. *)
Definition editOf (t : nat) (c : list ascii) : list ascii :=
  match requests !! t with Some r => gitConfig fullPathKey (r_path r) c | None => c end.

Definition ctxOf (t : nat) : TxContext := from_option r_ctx NoTransaction (requests !! t).

Hypothesis Hfs0 : forall n f, fs0 !! n = Some f -> creator f = None.

Lemma start_secure :
  all_secure (sys gitConfig configPath) (fs_inv configPath (fs0 !! configPath)) (rely configPath)
    (guar sha1_Sum configPath (fs0 !! configPath) editOf ctxOf) (fun t r s => r = Ok tt -> finished configPath t s) start.
Proof using Hfs0.
  split; [done|]. intros t p Hp. cbn in Hp. apply list_lookup_fmap_Some in Hp as (r & -> & Hr).
  unfold handler. replace (r_ctx r) with (ctxOf t) by (unfold ctxOf; by rewrite Hr).
  apply SetFullPath_secure; [|done|].
  - split; [|apply not_elem_of_nil]. intros n Hn. unfold owned. cbn. rewrite lookup_empty. destruct (fs0 !! n) as [f|] eqn:Hf; [|done].
    cbn. rewrite decide_False; [done|]. by rewrite (Hfs0 n f Hf).
  - unfold editOf. by rewrite Hr.
Qed.

(** C4. With the feature flag TxFileLocking enabled (it is off by default, and the
    path without it, which does not lock, is not covered), any number of requests set
    the full path of one repository at the same time, system call by system call, and
    any call may fail. If versions of the configuration differ in size, time or mode,
    which is what the writer compares, its contents are always those of the requests
    that replaced it, one after the other, each applied to what the one before left: no
    edit is lost and none is applied twice. A request that succeeded is among them and
    leaves neither lock nor temporary file behind, and within a transaction no version
    takes effect without an accepted vote for its contents. *)
Theorem no_update_lost c :
  rtc (anystep (sys gitConfig configPath)) start c -> distinct (fs0 !! configPath) (shared c) ->
  let order := (history (shared c)).*1 in
  NoDup order /\
  content (files (shared c) !! configPath) = foldl (fun d t => editOf t d) (content (fs0 !! configPath)) order /\
  (forall t, threads c !! t = Some (ret (Ok tt)) ->
    t ∈ order /\ forall n f, n ≠ configPath -> files (shared c) !! n = Some f -> creator f ≠ Some t) /\
  (forall t f r tx, (t, f) ∈ history (shared c) -> requests !! t = Some r -> r_ctx r = InTransaction tx ->
    (t, sha1_Sum (toBytes (data f))) ∈ votes (shared c)).
Proof using Hfs0.
  intros Hsteps Hd order. pose proof (threads_secure _ _ _ _ (guar_rely _ _ _ _ _) _ _ _ start_secure Hsteps) as Hall.
  destruct (serial_steps _ _ _ _ _ _ _ start c start_secure Hsteps) as (Hn & Hc & Hv); [|done|].
  { split_and!; [apply NoDup_nil_2|done|]. by intros t f ?%not_elem_of_nil. }
  split_and!; [done| | |].
  - etrans; [|exact Hc]. f_equal. apply Hall.
  - intros t Ht. destruct (returned _ _ _ _ _ c t _ Hall Ht eq_refl) as [Hp Hin]. split; [done|]. intros n f Hne Hf Hcr.
    specialize (Hp n Hne). assert (owned t (shared c) n = Some f) as Ho by by apply owned_Some. by rewrite Ho, lookup_empty in Hp.
  - intros t f r tx Hin Hr Htx. apply (Hv t f Hin tx). unfold ctxOf. by rewrite Hr.
Qed.
End Requests.

(** *** Example: two requests at the same time *)

Module Example.
Section Play.
Context (gitConfig : list ascii -> list ascii -> list ascii -> list ascii) (target : list ascii).

Definition digit (t : nat) : ascii := ascii_of_nat (48 + t mod 10).

Definition changed (s : FS) (p : list ascii) (f : File -> File) : (SysError + unit) * FS :=
  match files s !! p with
  | Some g => (inr tt, setFiles s (<[p := f g]> (files s)))
  | None => (inl OtherError, s)
  end.

(** Calls that succeed if they can. *)
Definition succeed (t : nat) (X : Type) (c : FsCall X) (s : FS) : X * FS :=
  match c in FsCall X return X * FS with
  | OpenFile p => (match files s !! p with Some f => inr f | None => inl NotExist end, s)
  | FStat f => (inr (info f), s)
  | StatPath p => (match files s !! p with Some f => inr (info f) | None => inl NotExist end, s)
  | TempFile p =>
    match files s !! (p ++ [digit t]) with
    | Some _ => (inl Exist, s)
    | None => (inr (p ++ [digit t]), setFiles s (<[p ++ [digit t] := mkFile [] 0 384 (Some t)]> (files s)))
    end
  | Chmod p mode => changed s p (fun f => mkFile (data f) (mtime f) mode (creator f))
  | WriteFile p d => changed s p (fun f => mkFile (data f ++ d) 0 (fmode f) (creator f))
  | SyncFile _ | CloseFile _ | SyncDir _ => (inr tt, s)
  | Rename from to =>
    match files s !! from with
    | Some f => (inr tt, mkFS (<[to := f]> (delete from (files s))) (if decide (to = target) then history s ++ [(t, f)] else history s) (votes s))
    | None => (inl NotExist, s)
    end
  | RemoveFile p =>
    match files s !! p with
    | Some _ => (inr tt, setFiles s (delete p (files s)))
    | None => (inl NotExist, s)
    end
  | CreateExcl p mode =>
    match files s !! p with
    | Some _ => (inl Exist, s)
    | None => (inr tt, setFiles s (<[p := mkFile [] 0 mode (Some t)]> (files s)))
    end
  | ReadFile p => (match files s !! p with Some f => inr (data f) | None => inl NotExist end, s)
  | CastVote _ v => (inr tt, mkFS (files s) (history s) (votes s ++ [(t, v)]))
  | GitConfig p k v => changed s p (fun f => mkFile (gitConfig k v (data f)) 0 (fmode f) (creator f))
  end.

Lemma digit_ok t : Regex.between 48 57 (digit t) = true.
Proof.
  unfold Regex.between, digit. pose proof (Nat.mod_upper_bound t 10). rewrite nat_ascii_embedding by lia.
  apply andb_true_iff. split; apply Nat.leb_le; lia.
Qed.

Lemma succeed_sys t X (c : FsCall X) s : sys gitConfig target t X c s (succeed t X c s).1 (succeed t X c s).2.
Proof.
  destruct c as [p|f|p|p|p mode|p d|p|p|from to|p|p|p mode|p|tx v|p k v]; cbn; unfold changed; try (by eauto).
  - destruct (files s !! (p ++ _)) eqn:Hf; cbn; [left; eauto|right]. exists [digit t], 0. split_and!; [done|done|constructor; [apply digit_ok|done]|done|done].
  - destruct (files s !! p) eqn:Hf; cbn; [right|left]; eauto.
  - destruct (files s !! p) as [f|] eqn:Hf; cbn; [right|left]; [|eauto]. exists f, d, 0. by split_and!.
  - destruct (files s !! from) eqn:Hf; cbn; [right|left]; eauto.
  - destruct (files s !! p) eqn:Hf; cbn; [right; right|right; left]; eauto.
  - destruct (files s !! p) eqn:Hf; cbn; [right; left|right; right]; eauto.
  - destruct (files s !! p) as [f|] eqn:Hf; cbn; [right; left|left]; [|eauto]. exists f, (gitConfig k v (data f)), 0, (fmode f). by split_and!.
Qed.

(** The threads take turns as listed. *)
Fixpoint play {A} (turns : list nat) (c : conf FsCall FS A) : conf FsCall FS A :=
  match turns with
  | [] => c
  | t :: turns =>
    play turns match threads c !! t with
               | Some (call a k) =>
                 mkConf (succeed t _ a (shared c)).2 (<[t := k (succeed t _ a (shared c)).1]> (threads c))
               | _ => c
               end
  end.

Lemma play_steps {A} turns (c : conf FsCall FS A) : rtc (anystep (sys gitConfig target)) c (play turns c).
Proof.
  revert c. induction turns as [|t turns IH]; intros c; [apply rtc_refl|]. cbn. destruct c as [s ts]. cbn.
  destruct (ts !! t) as [[a|X a k]|] eqn:Ht; [apply IH| |apply IH]. eapply rtc_l; [exists t; eapply (cstep_call _ t X a k); [exact Ht|apply succeed_sys]|apply IH].
Qed.
End Play.

(** Git writes the value; both requests open the configuration before the first one
    replaces it, the second one then refuses. *)
Definition gitConfig (k v c : list ascii) : list ascii := c ++ k ++ equalSign :: v.
Definition requests : list SetFullPathCall :=
  [mkSetFullPathCall NoTransaction (Some Hooks.Example.repo) (text "a/b"); mkSetFullPathCall NoTransaction (Some Hooks.Example.repo) (text "c/d")].
Definition final : conf FsCall FS (out FileError unit) :=
  play gitConfig (configPath (text "/repo")) ([0; 1; 1; 0] ++ replicate 20 0 ++ replicate 20 1)%nat
    (start (fun b => b) (text "/repo") ∅ requests).
End Example.

Lemma no_update_lost_witness :
  threads Example.final !! 0%nat = Some (ret (Ok tt)) /\
  threads Example.final !! 1%nat = Some (ret (Err (FLock ConcurrentlyCreated))) /\
  0%nat ∈ (history (shared Example.final)).*1 /\
  content (files (shared Example.final) !! configPath (text "/repo")) = text "gitlab.fullpath=a/b".
Proof.
  assert (H0 : threads Example.final !! 0%nat = Some (ret (Ok tt))) by (vm_compute; reflexivity).
  assert (Hh : (history (shared Example.final)).*1 = [0%nat]) by (vm_compute; reflexivity).
  assert (Hnew : forall n f, (∅ : gmap (list ascii) File) !! n = Some f -> creator f = None) by (intros n f; by rewrite lookup_empty).
  destruct (no_update_lost (fun b => b) Example.gitConfig (text "/repo") ∅ Example.requests Hnew Example.final) as (_ & Hc & Hok & _).
  - apply Example.play_steps.
  - assert (Hv : versions ((∅ : gmap (list ascii) File) !! configPath (text "/repo")) (shared Example.final) =
      [None; Some (mkFile (text "gitlab.fullpath=a/b") 0 384 (Some 0%nat))]) by (vm_compute; reflexivity).
    intros f f'. rewrite Hv, !elem_of_cons. intros Hf Hf' Heq. destruct Hf as [->|[->|[]%elem_of_nil]], Hf' as [->|[->|[]%elem_of_nil]]; done.
  - split; [exact H0|]. split; [vm_compute; reflexivity|]. split; [apply (Hok 0%nat H0)|]. rewrite Hc, Hh. vm_compute. reflexivity.
Defined.

(** A commit that fails counts as the end of the writer: closing it afterwards does
    not remove the temporary file, wherever the commit failed. *)
Example close_after_failed_commit (fw : FileWriter) :
  FileWriter_Close (doneWriter fw) = ret (Err ErrAlreadyDone, doneWriter fw).
Proof. reflexivity. Qed.
