(* ===== verification/Operations.v ===== *)
(** The operations users make on branches and tags through a Gitaly node
    (src/internal/gitaly/service/operations): creating, updating, deleting, merging,
    fast-forwarding, cherry-picking, reverting, rebasing, squashing, submodules,
    tags and commits of files, as programs that call git, libgit2 and the reference
    updater. *)

From Stdlib Require Import Strings.Ascii.
From S2P Require Import Prelude GoStrings Locator Regex HooksPayload GitCommand GitVersion Effects Hooks UpdateRef.

(** ** Requests and calls *)

Record User : Type := mkUser {
  User_Name : list ascii;
  User_Email : list ascii;
  GlId : list ascii;
  GlUsername : list ascii;
  Timezone : list ascii;
}.

Record GitCommit : Type := mkGitCommit {
  Commit_Id : list ascii;
  ParentIds : list (list ascii);
}.

Record Reference : Type := mkReference {
  Target : list ascii;
  IsSymbolic : bool;
}.

Record ObjectInfo : Type := mkObjectInfo {
  Oid : list ascii;
  ObjectType : list ascii;
}.

(** An error of a git repository: the reference does not exist, or anything else. *)
Inductive RefError : Type := ErrReferenceNotFound | RefOther (err : list ascii).

Inductive TagError : Type := FormatTagError | MktagError | TagOther.

Inductive Git2goError : Type :=
| GInvalidArgument (err : list ascii)
| GConflictingFiles (err : list ascii)
| GHasConflicts (err : list ascii)
| GEmpty (err : list ascii)
| GIndexError (err : list ascii)
| GDirectoryExists
| GFileExists
| GFileNotFound
| GOther (err : list ascii).

Definition errText (e : Git2goError) : list ascii :=
  match e with
  | GInvalidArgument m | GConflictingFiles m | GHasConflicts m | GEmpty m | GIndexError m | GOther m => m
  | GDirectoryExists => text "A directory with this name already exists"
  | GFileExists => text "A file with this name already exists"
  | GFileNotFound => text "A file with this name doesn't exist"
  end.

Inductive Action : Type :=
| CreateFile (oid path : list ascii) (executable : bool)
| ChangeFileMode (path : list ascii) (executable : bool)
| MoveFile (path newPath oid : list ascii)
| UpdateFile (path oid : list ascii)
| DeleteFile (path : list ascii)
| CreateDirectory (path : list ascii).

Record Signature : Type := mkSignature {
  Sig_Name : list ascii;
  Sig_Email : list ascii;
  Sig_When : Z;
}.

(** What libgit2 is asked to do, in a repository given by its path. *)
Inductive Git2goCommand : Type :=
| MergeCommand (repository : list ascii) (author : Signature) (message ours theirs : list ascii) (allowConflicts : bool)
| CherryPickCommand (repository : list ascii) (committer : Signature) (message ours commit : list ascii) (mainline : Z)
| RevertCommand (repository : list ascii) (author : Signature) (message ours revert : list ascii) (mainline : Z)
| RebaseCommand (repository : list ascii) (committer : Signature) (branchName upstreamRevision commitID upstreamCommitID : list ascii)
    (skipEmptyCommits : bool)
| SubmoduleCommand (repository : list ascii) (author : Signature) (branch commitSHA submodule message : list ascii)
| CommitParams (repository : list ascii) (author committer : Signature) (message parent : list ascii) (actions : list Action).

Inductive Response : Type :=
| REmpty
| RBranch (name : list ascii) (target : GitCommit)
| RPreReceiveError (err : HookFailure)
| RBranchUpdate (commitID : list ascii) (repoCreated branchCreated : bool)
| RCommitId (commitID : list ascii)
| RCreateTreeError (err : list ascii) (isEmpty : bool)
| RCommitError (err : list ascii)
| RGitError (err : list ascii)
| RRebaseSha (sha : list ascii)
| RRebaseApplied
| RSquashSha (sha : list ascii)
| RTag (name id message : list ascii) (target : option GitCommit)
| RExists
| RIndexError (err : list ascii).

(** The repository a call is made on: the one given, or one on another node. *)
Inductive On : Type := Local (r : Repository) | Remote (r : Repository).

Inductive OpCall : Type -> Type :=
| QuarantineNew (repo : Repository) : OpCall (answer Repository)
| LocalPath (repo : Repository) : OpCall (answer (list ascii))
| LocatorPath (repo : Repository) : OpCall (answer (list ascii))
| ReadCommit (repo : Repository) (revision : list ascii) : OpCall (answer GitCommit)
| GetReference (repo : Repository) (name : list ascii) : OpCall (RefError + Reference)
| RemoteNew (repo : Repository) : OpCall (answer unit)
| ResolveRevision (on : On) (revision : list ascii) : OpCall (RefError + list ascii)
| IsAncestor (repo : Repository) (parent child : list ascii) : OpCall (answer bool)
| HasBranches (on : On) : OpCall (answer bool)
| GetBranches (repo : Repository) : OpCall (answer (list Reference))
| FetchInternal (repo remote : Repository) (revisions : list (list ascii)) : OpCall (answer unit)
| Git2go (repo : Repository) (command : Git2goCommand) : OpCall (Git2goError + list ascii)
| CommitTree (repo : Repository) (author committer : Signature) (message parent tree : list ascii) : OpCall (list ascii * list ascii + list ascii)
| CatInfo (repo : Repository) (revision : list ascii) : OpCall (answer ObjectInfo)
| GetTagMessage (repo : Repository) (oid name : list ascii) : OpCall (answer (list ascii))
| WriteTag (repo : Repository) (oid objectType name message : list ascii) (tagger : User) (date : Z) : OpCall (TagError + list ascii)
| WriteBlob (repo : Repository) (path content : list ascii) (base64 : bool) : OpCall (answer (list ascii))
| CheckRefFormat (name : list ascii) : OpCall (bool + unit)
| UpdateRef (repo : Repository) (reference newrev oldrev : list ascii) : OpCall (answer unit)
| UpdateReferenceWithHooks (repo : Repository) (user : User) (quarantine : option Repository) (reference newrev oldrev : list ascii)
    (pushOptions : list (list ascii)) : OpCall (out UpdateError unit)
| Now : OpCall Z
| LoadLocation (timezone : list ascii) : OpCall (answer unit)
| RecvApply : OpCall (answer bool)
| Send (response : Response) : OpCall (answer unit).

Inductive Code : Type := InvalidArgument | FailedPrecondition | Internal | UnknownCode | NotFoundCode | PermissionDenied.

Inductive OpError : Type :=
| OStatus (code : Code) (what : string)
| OPlain (what : string)
| OUpdate (err : UpdateError)
| OGit2go (err : Git2goError)
| OGitError (msg : list ascii)
| OAccess (message userID protocol changes : list ascii).

Definition OP : Type -> Type := PM OpCall OpError.

Definition need {X A} (c : OpCall (X + A)) (f : X -> OpError) : OP A :=
  call c (fun r => ret match r with inl x => Err (f x) | inr a => Ok a end).

(** The answer as a value, with its error. *)
Definition try {X} (c : OpCall X) : OP X := call c (fun x => ret (Ok x)).

Definition status {A} (code : Code) (what : string) : OP A := raise (OStatus code what).

(** The first failing check. *)
Fixpoint firstError (checks : list (bool * string)) : option string :=
  match checks with
  | [] => None
  | (true, what) :: _ => Some what
  | (false, _) :: checks => firstError checks
  end.

Definition isNil {A} (l : list A) : bool := match l with [] => true | _ => false end.
Definition isNone {A} (o : option A) : bool := match o with None => true | Some _ => false end.

Definition quarantinedRepo (repo : Repository) : OP Repository :=
  need (QuarantineNew repo) (fun _ => OStatus Internal "creating object quarantine").

Definition parseOID (hex : list ascii) (e : OpError) : OP (list ascii) :=
  match NewObjectIDFromHex hex with Some oid => mret oid | None => raise e end.

(** The date of a request: its timestamp or the time, in the time zone of the user. *)
Definition dateFromProto (user : option User) (timestamp : option Z) : OP Z :=
  now ← try Now;
  _ ← match user with
      | Some u => need (LoadLocation (Timezone u)) (fun _ => OStatus InvalidArgument "date")
      | None => mret tt
      end;
  mret (default now timestamp).

(** [updateReferenceWithHooks], whose error the caller looks at. *)
Definition updateReferenceWithHooks (repo : Repository) (user : User) (quarantine : option Repository)
    (reference newrev oldrev : list ascii) (pushOptions : list (list ascii)) : OP (out UpdateError unit) :=
  call (UpdateReferenceWithHooks repo user quarantine reference newrev oldrev pushOptions)
    (fun r => ret match r with Panic => Panic | r => Ok r end).

(** ** Branches *)

Definition UserCreateBranch (repo : Repository) (branchName : list ascii) (user : option User) (startPoint : list ascii) : OP Response :=
  if decide (branchName = []) then status InvalidArgument "Bad Request (empty branch name)"
  else match user with
  | None => status InvalidArgument "empty user"
  | Some user =>
    if decide (startPoint = []) then status InvalidArgument "empty start point"
    else
      quarantineRepo ← quarantinedRepo repo;
      startPointCommit ← need (ReadCommit quarantineRepo startPoint) (fun _ => OStatus FailedPrecondition "revspec not found");
      startPointOID ← parseOID (Commit_Id startPointCommit) (OStatus Internal "could not parse start point commit ID");
      let referenceName := NewReferenceNameFromBranchName branchName in
      existing ← try (GetReference quarantineRepo referenceName);
      match existing with
      | inr _ => status FailedPrecondition "Could not update. Please refresh and try again."
      | inl (RefOther _) => status Internal "get reference"
      | inl ErrReferenceNotFound =>
        r ← updateReferenceWithHooks repo user (Some quarantineRepo) referenceName startPointOID ZeroOID [];
        match r with
        | Err (EHook e) => mret (RPreReceiveError e)
        | Err (EReference r) => status FailedPrecondition "Could not update"
        | Err e => raise (OUpdate e)
        | _ => mret (RBranch branchName startPointCommit)
        end
      end
  end.

Definition validateUserUpdateBranchGo (user : option User) (branchName oldrev newrev : list ascii) : option string :=
  firstError [(isNone user, "empty user"); (isNil branchName, "empty branch name"); (isNil oldrev, "empty oldrev"); (isNil newrev, "empty newrev")].

Definition UserUpdateBranch (repo : Repository) (user : option User) (branchName oldrev newrev : list ascii) : OP Response :=
  match validateUserUpdateBranchGo user branchName oldrev newrev, user with
  | Some what, _ => status InvalidArgument what
  | None, None => status InvalidArgument "empty user"
  | None, Some user =>
    newOID ← parseOID newrev (OStatus Internal "could not parse newrev");
    oldOID ← parseOID oldrev (OStatus Internal "could not parse oldrev");
    let referenceName := NewReferenceNameFromBranchName branchName in
    quarantineRepo ← quarantinedRepo repo;
    r ← updateReferenceWithHooks repo user (Some quarantineRepo) referenceName newOID oldOID [];
    match r with
    | Err (EHook e) => mret (RPreReceiveError e)
    | Err _ => status FailedPrecondition "Could not update. Please refresh and try again."
    | _ => mret REmpty
    end
  end.

(** Deleting a branch or a tag; [notFound] says what was not found. *)
Definition deleteReference (repo : Repository) (user : User) (referenceName : list ascii) (notFound : string) : OP Response :=
  referenceValue ← need (ResolveRevision (Local repo) referenceName) (fun _ => OStatus FailedPrecondition notFound);
  r ← updateReferenceWithHooks repo user None referenceName ZeroOID referenceValue [];
  match r with
  | Err (EHook e) => mret (RPreReceiveError e)
  | Err (EReference r) => status FailedPrecondition "Could not update"
  | Err e => raise (OUpdate e)
  | _ => mret REmpty
  end.

Definition UserDeleteBranch (repo : Repository) (branchName : list ascii) (user : option User) : OP Response :=
  if decide (branchName = []) then status InvalidArgument "Bad Request (empty branch name)"
  else match user with
  | None => status InvalidArgument "Bad Request (empty user)"
  | Some user => deleteReference repo user (NewReferenceNameFromBranchName branchName) "branch not found"
  end.

(** ** Merges *)

Fixpoint Contains (s sub : list ascii) : bool :=
  HasPrefix s sub || match s with [] => false | _ :: s => Contains s sub end.

Definition validateMergeBranchRequest (user : option User) (branch commitID message : list ascii) : option string :=
  firstError [(isNone user, "empty user"); (isNil branch, "empty branch name"); (isNil commitID, "empty commit ID"); (isNil message, "empty message")].

Definition commitPeel : list ascii := text "^{commit}".

(** [structured] is the flag for structured errors. *)
Definition mergeUpdateError (structured : bool) (e : UpdateError) : OP unit :=
  if structured then
    match e with
    | EHook (HNotAllowed message userID protocol changes) => raise (OAccess message userID protocol changes)
    | EReference _ => status FailedPrecondition "Could not update"
    | _ => status Internal "update reference"
    end
  else match e with
  | EHook h => need (Send (RPreReceiveError h)) (fun _ => OPlain "send")
  | EReference _ => need (Send REmpty) (fun _ => OPlain "send")
  | e => raise (OUpdate e)
  end.

Definition UserMergeBranch (structured : bool) (repo : Repository) (user : option User) (branch commitID message : list ascii)
    (timestamp : option Z) : OP unit :=
  match validateMergeBranchRequest user branch commitID message, user with
  | Some what, _ => status InvalidArgument what
  | None, None => status InvalidArgument "empty user"
  | None, Some user =>
    quarantineRepo ← quarantinedRepo repo;
    repoPath ← need (LocalPath quarantineRepo) (fun _ => OPlain "path");
    let referenceName := NewReferenceNameFromBranchName branch in
    revision ← need (ResolveRevision (Local quarantineRepo) referenceName) (fun _ => OPlain "resolve");
    authorDate ← dateFromProto (Some user) timestamp;
    merge ← need (Git2go quarantineRepo
      (MergeCommand repoPath (mkSignature (User_Name user) (User_Email user) authorDate) message revision commitID false))
      (fun e => match e with
                | GInvalidArgument _ => OStatus InvalidArgument "merge"
                | GConflictingFiles _ => OStatus FailedPrecondition "Failed to merge"
                | e => if Contains (errText e) (text "could not auto-merge due to conflicts")
                       then OStatus FailedPrecondition "Failed to merge" else OStatus Internal "merge"
                end);
    mergeOID ← parseOID merge (OStatus Internal "could not parse merge ID");
    _ ← need (Send (RCommitId merge)) (fun _ => OPlain "send");
    apply ← need RecvApply (fun _ => OPlain "receive");
    if negb apply then status FailedPrecondition "merge aborted by client"
    else
      r ← updateReferenceWithHooks repo user (Some quarantineRepo) referenceName mergeOID revision [];
      match r with
      | Err e => mergeUpdateError structured e
      | _ => need (Send (RBranchUpdate merge false false)) (fun _ => OPlain "send")
      end
  end.

Definition validateFFRequest (repo : option Repository) (branch : list ascii) (user : option User) (commitID : list ascii) : option string :=
  firstError [(isNone repo, "empty repository"); (isNil branch, "empty branch name"); (isNone user, "empty user"); (isNil commitID, "empty commit id")].

Definition UserFFBranch (repo : option Repository) (branch : list ascii) (user : option User) (commitID : list ascii) : OP Response :=
  match validateFFRequest repo branch user commitID, repo, user with
  | Some what, _, _ => status InvalidArgument what
  | None, Some repo, Some user =>
    let referenceName := NewReferenceNameFromBranchName branch in
    quarantineRepo ← quarantinedRepo repo;
    revision ← need (ResolveRevision (Local quarantineRepo) referenceName) (fun _ => OStatus InvalidArgument "resolve");
    commitOID ← parseOID commitID (OStatus InvalidArgument "cannot parse commit ID");
    ancestor ← need (IsAncestor quarantineRepo revision commitOID) (fun _ => OPlain "ancestor");
    if negb ancestor then status FailedPrecondition "not fast forward"
    else
      r ← updateReferenceWithHooks repo user (Some quarantineRepo) referenceName commitOID revision [];
      match r with
      | Err (EHook e) => mret (RPreReceiveError e)
      | Err (EReference _) => mret REmpty
      | Err e => raise (OUpdate e)
      | _ => mret (RBranchUpdate commitID false false)
      end
  | None, _, _ => status InvalidArgument "empty"
  end.

Definition validateUserMergeToRefRequest (firstParentRef : option (list ascii)) (branch : list ascii) (user : option User)
    (sourceSha targetRef : list ascii) : option string :=
  firstError [(isNil (default [] firstParentRef) && isNil branch, "empty first parent ref and branch name"); (isNone user, "empty user");
    (isNil sourceSha, "empty source SHA"); (isNil targetRef, "empty target ref");
    (negb (HasPrefix targetRef (text "refs/merge-requests")), "invalid target ref")].

Definition UserMergeToRef (repo : Repository) (firstParentRef : option (list ascii)) (branch : list ascii) (user : option User)
    (sourceSha targetRef message : list ascii) (timestamp : option Z) (allowConflicts : bool) : OP Response :=
  match validateUserMergeToRefRequest firstParentRef branch user sourceSha targetRef, user with
  | Some what, _ => status InvalidArgument what
  | None, None => status InvalidArgument "empty user"
  | None, Some user =>
    repoPath ← need (LocatorPath repo) (fun _ => OPlain "path");
    oid ← need (ResolveRevision (Local repo) (default branch firstParentRef)) (fun _ => OStatus InvalidArgument "Invalid merge source");
    sourceOID ← need (ResolveRevision (Local repo) sourceSha) (fun _ => OStatus InvalidArgument "Invalid merge source");
    authorDate ← dateFromProto (Some user) timestamp;
    existing ← try (GetReference repo targetRef);
    oldTargetOID ← match existing with
                   | inr ref =>
                     if IsSymbolic ref then status FailedPrecondition "target reference is symbolic"
                     else parseOID (Target ref) (OStatus Internal "invalid target revision")
                   | inl ErrReferenceNotFound => mret ZeroOID
                   | inl (RefOther _) => status Internal "could not read target reference"
                   end;
    merge ← need (Git2go repo
      (MergeCommand repoPath (mkSignature (User_Name user) (User_Email user) authorDate) message oid sourceOID allowConflicts))
      (fun e => match e with
                | GInvalidArgument _ => OStatus InvalidArgument "merge"
                | _ => OStatus FailedPrecondition "Failed to create merge commit"
                end);
    mergeOID ← parseOID merge (OPlain "invalid merge ID");
    _ ← need (UpdateRef repo targetRef mergeOID oldTargetOID) (fun _ => OStatus FailedPrecondition "Could not update");
    mret (RCommitId mergeOID)
  end.

(** ** Cherry-picks and reverts *)

Definition validateCherryPickOrRevertRequest (user : option User) (commit : option GitCommit) (branchName message : list ascii) : option string :=
  firstError [(isNone user, "empty User"); (isNone commit, "empty Commit"); (isNil branchName, "empty BranchName"); (isNil message, "empty Message")].

(** The start revision, fetched from another repository if it is not here. *)
Definition fetchStartRevision (localRepo : Repository) (branchName : list ascii) (startRepository : option Repository)
    (startBranchName : list ascii) : OP (list ascii) :=
  let startBranchName := if decide (startBranchName = []) then branchName else startBranchName in
  on ← match startRepository with
       | Some r => _ ← need (RemoteNew r) (fun _ => OStatus Internal "remote"); mret (Remote r)
       | None => mret (Local localRepo)
       end;
  startRevision ← need (ResolveRevision on (startBranchName ++ commitPeel)) (fun _ => OStatus InvalidArgument "resolve start ref");
  match startRepository with
  | None => mret startRevision
  | Some r =>
    here ← try (ResolveRevision (Local localRepo) (startRevision ++ commitPeel));
    _ ← match here with
        | inl ErrReferenceNotFound => need (FetchInternal localRepo r [startRevision]) (fun _ => OStatus Internal "fetch start")
        | inl (RefOther _) => status InvalidArgument "resolve start"
        | inr _ => mret tt
        end;
    mret startRevision
  end.

(** The end of both operations: the branch is moved to the new commit if it does not
    exist or the new commit is its descendant. A dry run moves it to the start. *)
Definition moveBranch (repo quarantineRepo : Repository) (user : User) (branchName startRevision newrev : list ascii)
    (dryRun repoHadBranches : bool) : OP Response :=
  let referenceName := NewReferenceNameFromBranchName branchName in
  resolved ← try (ResolveRevision (Local quarantineRepo) (referenceName ++ commitPeel));
  '(branchCreated, oldrev) ← match resolved with
                             | inr oid => mret (false, oid)
                             | inl ErrReferenceNotFound => mret (true, ZeroOID)
                             | inl (RefOther _) => status InvalidArgument "resolve ref"
                             end;
  let newrev := if dryRun then startRevision else newrev in
  ancestor ← (if negb branchCreated then need (IsAncestor quarantineRepo oldrev newrev) (fun _ => OPlain "ancestor") else mret true);
  if negb ancestor then mret (RCommitError (text "Branch diverged"))
  else
    r ← updateReferenceWithHooks repo user (Some quarantineRepo) referenceName newrev oldrev [];
    match r with
    | Err (EHook e) => mret (RPreReceiveError e)
    | Err e => raise (OUpdate e)
    | _ => mret (RBranchUpdate newrev (negb repoHadBranches) branchCreated)
    end.

Definition mainlineOf (commit : GitCommit) : Z := if (1 <? length (ParentIds commit))%nat then 1 else 0.

(** Conflicts and empty results are part of the response. *)
Definition applyCommit (quarantineRepo : Repository) (command : Git2goCommand) : OP (Response + list ascii) :=
  r ← try (Git2go quarantineRepo command);
  match r with
  | inr newrev => mret (inr newrev)
  | inl (GHasConflicts e) => mret (inl (RCreateTreeError e false))
  | inl (GEmpty e) => mret (inl (RCreateTreeError e true))
  | inl (GInvalidArgument _) => status InvalidArgument "command"
  | inl _ => status Internal "command"
  end.

Definition UserCherryPick (repo : Repository) (user : option User) (commit : option GitCommit) (branchName message : list ascii)
    (startRepository : option Repository) (startBranchName : list ascii) (timestamp : option Z) (dryRun : bool) : OP Response :=
  match validateCherryPickOrRevertRequest user commit branchName message, user, commit with
  | Some what, _, _ => status InvalidArgument what
  | None, Some user, Some commit =>
    quarantineRepo ← quarantinedRepo repo;
    startRevision ← fetchStartRevision quarantineRepo branchName startRepository startBranchName;
    repoHadBranches ← need (HasBranches (Local quarantineRepo)) (fun _ => OPlain "branches");
    repoPath ← need (LocalPath quarantineRepo) (fun _ => OPlain "path");
    now ← try Now;
    r ← applyCommit quarantineRepo (CherryPickCommand repoPath (mkSignature (User_Name user) (User_Email user) (default now timestamp))
          message startRevision (Commit_Id commit) (mainlineOf commit));
    match r with
    | inl response => mret response
    | inr newrev => moveBranch repo quarantineRepo user branchName startRevision newrev dryRun repoHadBranches
    end
  | None, _, _ => status InvalidArgument "empty"
  end.

Definition UserRevert (repo : Repository) (user : option User) (commit : option GitCommit) (branchName message : list ascii)
    (startRepository : option Repository) (startBranchName : list ascii) (timestamp : option Z) (dryRun : bool) : OP Response :=
  match validateCherryPickOrRevertRequest user commit branchName message, user, commit with
  | Some what, _, _ => status InvalidArgument what
  | None, Some user, Some commit =>
    quarantineRepo ← quarantinedRepo repo;
    startRevision ← fetchStartRevision quarantineRepo branchName startRepository startBranchName;
    repoHadBranches ← need (HasBranches (Local quarantineRepo)) (fun _ => OPlain "branches");
    repoPath ← need (LocalPath quarantineRepo) (fun _ => OStatus Internal "get path");
    authorDate ← dateFromProto (Some user) timestamp;
    r ← applyCommit quarantineRepo (RevertCommand repoPath (mkSignature (User_Name user) (User_Email user) authorDate)
          message startRevision (Commit_Id commit) (mainlineOf commit));
    match r with
    | inl response => mret response
    | inr newrev => moveBranch repo quarantineRepo user branchName startRevision newrev dryRun repoHadBranches
    end
  | None, _, _ => status InvalidArgument "empty"
  end.

(** ** Rebases and squashes *)

Record RebaseHeader : Type := mkRebaseHeader {
  rb_Repository : option Repository;
  rb_User : option User;
  rb_RebaseId : list ascii;
  rb_Branch : option (list ascii);
  rb_BranchSha : list ascii;
  rb_RemoteRepository : option Repository;
  rb_RemoteBranch : option (list ascii);
  rb_GitPushOptions : list (list ascii);
  rb_Timestamp : option Z;
}.

Definition validateUserRebaseConfirmableHeader (h : RebaseHeader) : option string :=
  firstError [(isNone (rb_Repository h), "empty Repository"); (isNone (rb_User h), "empty User"); (isNil (rb_RebaseId h), "empty RebaseId");
    (isNone (rb_Branch h), "empty Branch"); (isNil (rb_BranchSha h), "empty BranchSha"); (isNone (rb_RemoteRepository h), "empty RemoteRepository");
    (isNone (rb_RemoteBranch h), "empty RemoteBranch"); (negb (isNone (ValidateRevision (default [] (rb_RemoteBranch h)))), "invalid branch name")].

(** Any error while fetching becomes an internal one. *)
Definition internalError {A} (m : OP A) : OP A := orErr (fun _ => OStatus Internal "fetch") m.

Definition UserRebaseConfirmable (header : option RebaseHeader) : OP unit :=
  match header with
  | None => status InvalidArgument "UserRebaseConfirmable: empty UserRebaseConfirmableRequest.Header"
  | Some h =>
    match validateUserRebaseConfirmableHeader h, rb_Repository h, rb_User h with
    | Some what, _, _ => status InvalidArgument what
    | None, Some repo, Some user =>
      quarantineRepo ← quarantinedRepo repo;
      repoPath ← need (LocalPath quarantineRepo) (fun _ => OPlain "path");
      let branchName := default [] (rb_Branch h) in
      let branch := NewReferenceNameFromBranchName branchName in
      oldrev ← parseOID (rb_BranchSha h) (OStatus NotFoundCode "branch sha");
      startRevision ← internalError (fetchStartRevision quarantineRepo branchName (rb_RemoteRepository h) (default [] (rb_RemoteBranch h)));
      now ← try Now;
      rebased ← try (Git2go quarantineRepo (RebaseCommand repoPath
        (mkSignature (User_Name user) (User_Email user) (default now (rb_Timestamp h))) branchName startRevision [] [] false));
      match rebased with
      | inl e => need (Send (RGitError (errText e))) (fun _ => OPlain "send")
      | inr newrev =>
        _ ← need (Send (RRebaseSha newrev)) (fun _ => OPlain "send rebase sha");
        apply ← need RecvApply (fun _ => OStatus Internal "recv");
        if negb apply then status FailedPrecondition "rebase aborted by client"
        else
          r ← updateReferenceWithHooks repo user (Some quarantineRepo) branch newrev oldrev (rb_GitPushOptions h);
          match r with
          | Err (EHook e) => need (Send (RPreReceiveError e)) (fun _ => OPlain "send")
          | Err e => raise (OUpdate e)
          | _ => need (Send RRebaseApplied) (fun _ => OPlain "send")
          end
      end
    | None, _, _ => status InvalidArgument "empty"
    end
  end.

Record SquashRequest : Type := mkSquashRequest {
  sq_Repository : option Repository;
  sq_User : option User;
  sq_StartSha : list ascii;
  sq_EndSha : list ascii;
  sq_CommitMessage : list ascii;
  sq_Author : option User;
  sq_Timestamp : option Z;
}.

Definition validateUserSquashRequest (r : SquashRequest) : option string :=
  let name u := from_option User_Name [] u in
  let email u := from_option User_Email [] u in
  firstError [(isNone (sq_Repository r), "empty Repository"); (isNone (sq_User r), "empty User"); (isNil (name (sq_User r)), "empty user name");
    (isNil (email (sq_User r)), "empty user email"); (isNil (sq_StartSha r), "empty StartSha"); (isNil (sq_EndSha r), "empty EndSha");
    (isNil (sq_CommitMessage r), "empty CommitMessage"); (isNone (sq_Author r), "empty Author"); (isNil (name (sq_Author r)), "empty author name");
    (isNil (email (sq_Author r)), "empty auithor email")].

Definition ambiguousArgument (startSha endSha : list ascii) : list ascii :=
  text "fatal: ambiguous argument '" ++ startSha ++ text "..." ++ endSha ++
  text "': unknown revision or path not in the working tree." ++ [newline] ++
  text "Use '--' to separate paths from revisions, like this:" ++ [newline] ++
  text "'git <command> [<revision>...] -- [<file>...]'" ++ [newline].

Definition ChompBytes (b : list ascii) : list ascii := if decide (last b = Some newline) then take (length b - 1) b else b.

Definition treePeel : list ascii := text "^{tree}".

Definition userSquash (repo : Repository) (user author : User) (r : SquashRequest) : OP (list ascii) :=
  repoPath ← need (LocalPath repo) (fun _ => OStatus Internal "cannot resolve repo path");
  startCommit ← need (ResolveRevision (Local repo) (sq_StartSha r ++ commitPeel)) (fun _ => OGitError (ambiguousArgument (sq_StartSha r) (sq_EndSha r)));
  endCommit ← need (ResolveRevision (Local repo) (sq_EndSha r ++ commitPeel)) (fun _ => OGitError (ambiguousArgument (sq_StartSha r) (sq_EndSha r)));
  commitDate ← dateFromProto (Some user) (sq_Timestamp r);
  rebasedCommitID ← need (Git2go repo (RebaseCommand repoPath (mkSignature (User_Name user) (User_Email user) commitDate) [] [] endCommit startCommit true))
    (fun e => OGitError (errText e));
  treeID ← need (ResolveRevision (Local repo) (rebasedCommitID ++ treePeel)) (fun _ => OPlain "cannot resolve rebased tree");
  stdout ← need (CommitTree repo (mkSignature (User_Name author) (User_Email author) commitDate)
    (mkSignature (User_Name user) (User_Email user) commitDate) (sq_CommitMessage r) startCommit treeID) (fun e => OGitError e.1);
  mret (ChompBytes stdout).

Definition UserSquash (r : SquashRequest) : OP Response :=
  match validateUserSquashRequest r, sq_Repository r, sq_User r, sq_Author r with
  | Some what, _, _, _ => status InvalidArgument what
  | None, Some repo, Some user, Some author =>
    prog_bind (userSquash repo user author r) (fun res => ret match res with
      | Ok sha => Ok (RSquashSha sha)
      | Err (OGitError msg) => if decide (msg = []) then Err (OStatus Internal "squash") else Ok (RGitError msg)
      | Err _ => Err (OStatus Internal "squash")
      | Panic => Panic
      end)
  | None, _, _, _ => status InvalidArgument "empty"
  end.

(** ** Submodules *)

(** [strings.TrimSpace], at either end. *)
Fixpoint trimSpaceLeft (skip : nat) (s : list ascii) : list ascii :=
  match s with
  | [] => []
  | c :: s' =>
    match skip with
    | S skip => trimSpaceLeft skip s'
    | 0%nat => match spaceLength s with 0%nat => s | S n => trimSpaceLeft n s' end
    end
  end.

Definition spaceSuffix (s : list ascii) : nat :=
  let ends k := ((k <=? length s) && (spaceLength (drop (length s - k) s) =? k))%nat in
  if ends 1%nat then 1 else if ends 2%nat then 2 else if ends 3%nat then 3 else 0.

Fixpoint trimSpaceRight (fuel : nat) (s : list ascii) : list ascii :=
  match fuel with
  | 0%nat => s
  | S fuel => match spaceSuffix s with 0%nat => s | k => trimSpaceRight fuel (take (length s - k) s) end
  end.

Definition TrimSpace (s : list ascii) : list ascii := let s := trimSpaceLeft 0 s in trimSpaceRight (length s) s.

Definition TrimPrefix (s prefix : list ascii) : list ascii := if HasPrefix s prefix then drop (length prefix) s else s.

Record SubmoduleRequest : Type := mkSubmoduleRequest {
  sm_Repository : option Repository;
  sm_User : option User;
  sm_CommitSha : list ascii;
  sm_Branch : list ascii;
  sm_Submodule : list ascii;
  sm_CommitMessage : list ascii;
  sm_Timestamp : option Z;
}.

Definition validateUserUpdateSubmoduleRequest (r : SubmoduleRequest) : option string :=
  firstError [(isNone (sm_Repository r), "empty Repository"); (isNone (sm_User r), "empty User"); (isNil (sm_CommitSha r), "empty CommitSha");
    (negb (MatchString objectIDRegex (sm_CommitSha r)), "invalid CommitSha"); (isNil (sm_Branch r), "empty Branch");
    (isNil (sm_Submodule r), "empty Submodule"); (isNil (sm_CommitMessage r), "empty CommitMessage")].

(** The errors that are part of the response, for older clients. *)
Definition legacyError (err : list ascii) : option (list ascii) :=
  let errStr := TrimSpace (TrimPrefix err (text "submodule: ")) in
  if Contains errStr (text "is already at") then Some errStr
  else list_find (fun legacy => HasPrefix errStr legacy = true)
         [text "Invalid branch"; text "Invalid submodule path"; text "Failed to create commit"] ≫= (fun found => Some found.2).

Definition userUpdateSubmodule (repo : Repository) (user : User) (r : SubmoduleRequest) : OP Response :=
  quarantineRepo ← quarantinedRepo repo;
  branches ← need (GetBranches quarantineRepo) (fun _ => OPlain "get branches");
  if isNil branches then mret (RCommitError (text "Repository is empty"))
  else
    let referenceName := NewReferenceNameFromBranchName (sm_Branch r) in
    branchOID ← need (ResolveRevision (Local quarantineRepo) referenceName)
      (fun e => match e with ErrReferenceNotFound => OStatus InvalidArgument "Cannot find branch" | RefOther _ => OPlain "get branch" end);
    repoPath ← need (LocalPath quarantineRepo) (fun _ => OPlain "locate repo");
    authorDate ← dateFromProto (Some user) (sm_Timestamp r);
    result ← try (Git2go quarantineRepo (SubmoduleCommand repoPath (mkSignature (User_Name user) (User_Email user) authorDate)
      (sm_Branch r) (sm_CommitSha r) (sm_Submodule r) (sm_CommitMessage r)));
    match result with
    | inl e => match legacyError (errText e) with Some msg => mret (RCommitError msg) | None => raise (OPlain "submodule subcommand") end
    | inr commit =>
      commitID ← parseOID commit (OStatus InvalidArgument "cannot parse commit ID");
      r ← updateReferenceWithHooks repo user (Some quarantineRepo) referenceName commitID branchOID [];
      match r with
      | Err (EHook e) => mret (RPreReceiveError e)
      | Err (EReference _) => mret (RCommitError (text "Could not update"))
      | Err e => raise (OUpdate e)
      | _ => mret (RBranchUpdate commit false false)
      end
    end.

Definition UserUpdateSubmodule (r : SubmoduleRequest) : OP Response :=
  match validateUserUpdateSubmoduleRequest r, sm_Repository r, sm_User r with
  | Some what, _, _ => status InvalidArgument what
  | None, Some repo, Some user => userUpdateSubmodule repo user r
  | None, _, _ => status InvalidArgument "empty"
  end.

(** ** Tags *)

Definition tagsPrefix : list ascii := text "refs/tags/".
Definition tagPeel : list ascii := text "^{}".

Definition UserDeleteTag (repo : Repository) (tagName : list ascii) (user : option User) : OP Response :=
  if decide (tagName = []) then status InvalidArgument "empty tag name"
  else match user with
  | None => status InvalidArgument "empty user"
  | Some user => deleteReference repo user (tagsPrefix ++ tagName) "tag not found"
  end.

Definition validateUserCreateTag (tagName : list ascii) (user : option User) (targetRevision message : list ascii) (repo : option Repository) :
    option OpError :=
  if isNil tagName then Some (OStatus InvalidArgument "empty tag name")
  else if bool_decide (blank ∈ tagName) then Some (OStatus UnknownCode "Could not update. Please refresh and try again.")
  else if isNone user then Some (OStatus InvalidArgument "empty user")
  else if isNil targetRevision then Some (OStatus InvalidArgument "empty target revision")
  else if bool_decide (nul ∈ message) then Some (OStatus UnknownCode "ArgumentError: string contains null byte")
  else if isNone repo then Some (OStatus Internal "empty repository")
  else None.

(** A message with anything but white space, the [\S] of a regular expression. *)
Definition makingTag (message : list ascii) : bool :=
  existsb (fun c => negb (existsb (Nat.eqb (nat_of_ascii c)) [9; 10; 12; 13; 32]%nat)) message.

(** The tag of the response and the object its reference will point to. *)
Definition createTag (repo : Repository) (targetRevision tagName message : list ascii) (committer : User) (committerTime : Z) :
    OP (Response * list ascii) :=
  targetInfo ← need (CatInfo repo targetRevision) (fun _ => OStatus FailedPrecondition "revspec not found");
  peeled ← (if decide (ObjectType targetInfo = text "tag")
            then need (CatInfo repo (targetRevision ++ tagPeel)) (fun _ => OStatus Internal "peel") else mret targetInfo);
  let targetObjectID := if makingTag message then Oid targetInfo else Oid peeled in
  '(id, tagMessage, refObjectID) ←
    (if makingTag message then
       tagObjectID ← need (WriteTag repo targetObjectID (ObjectType targetInfo) tagName message committer committerTime)
         (fun e => match e with
                   | FormatTagError => OStatus UnknownCode "failed to parse signature"
                   | MktagError => OStatus NotFoundCode "mktag"
                   | TagOther => OStatus Internal "tag"
                   end);
       createdMessage ← need (GetTagMessage repo tagObjectID tagName) (fun _ => OStatus Internal "get tag");
       mret (tagObjectID, createdMessage, tagObjectID)
     else mret (Oid peeled, [], targetObjectID));
  target ← (if decide (ObjectType peeled = text "commit")
            then commit ← need (ReadCommit repo (Oid peeled)) (fun _ => OStatus Internal "get commit"); mret (Some commit)
            else mret None);
  mret (RTag tagName id tagMessage target, refObjectID).

Definition UserCreateTag (repo : option Repository) (tagName : list ascii) (user : option User) (targetRevision message : list ascii)
    (timestamp : option Z) : OP Response :=
  match validateUserCreateTag tagName user targetRevision message repo, repo, user with
  | Some e, _, _ => raise e
  | None, Some repo, Some user =>
    committerTime ← dateFromProto (Some user) timestamp;
    quarantineRepo ← quarantinedRepo repo;
    '(tag, tagID) ← createTag quarantineRepo targetRevision tagName message user committerTime;
    let referenceName := tagsPrefix ++ tagName in
    r ← updateReferenceWithHooks repo user (Some quarantineRepo) referenceName tagID ZeroOID [];
    match r with
    | Err (EHook e) => mret (RPreReceiveError e)
    | Err (EReference _) =>
      format ← try (CheckRefFormat referenceName);
      match format with
      | inr _ => mret RExists
      | inl true => status UnknownCode "Could not update. Please refresh and try again."
      | inl false => status Internal "check-ref-format"
      end
    | Err _ => status Internal "update"
    | _ => mret tag
    end
  | None, _, _ => status InvalidArgument "empty"
  end.

(** ** Commits of files *)

Inductive ActionType : Type := CREATE | CREATE_DIR | UPDATE | MOVE | DELETE | CHMOD | OtherAction (n : Z).

Record ActionHeader : Type := mkActionHeader {
  ah_Action : ActionType;
  ah_FilePath : list ascii;
  ah_PreviousPath : list ascii;
  ah_Base64Content : bool;
  ah_ExecuteFilemode : bool;
  ah_InferContent : bool;
}.

Record CommitFilesHeader : Type := mkCommitFilesHeader {
  cf_Repository : option Repository;
  cf_User : option User;
  cf_BranchName : list ascii;
  cf_CommitMessage : list ascii;
  cf_CommitAuthorName : list ascii;
  cf_CommitAuthorEmail : list ascii;
  cf_StartBranchName : list ascii;
  cf_StartRepository : option Repository;
  cf_Force : bool;
  cf_StartSha : list ascii;
  cf_Timestamp : option Z;
}.

(** What a client sends after the header, until it closes the stream. *)
Inductive ActionMessage : Type :=
| MsgHeader (h : ActionHeader)
| MsgContent (content : list ascii)
| MsgOther.

Definition validateUserCommitFilesHeader (h : CommitFilesHeader) : option string :=
  firstError [(isNone (cf_Repository h), "empty Repository"); (isNone (cf_User h), "empty User"); (isNil (cf_CommitMessage h), "empty CommitMessage");
    (isNil (cf_BranchName h), "empty BranchName"); (negb (isNil (cf_StartSha h)) && negb (ValidateObjectID (cf_StartSha h)), "invalid object ID")].

Definition validatePath (rootPath relPath : list ascii) : out OpError (list ascii) :=
  if decide (relPath = []) then Err (OGit2go (GIndexError (text "You must provide a file path")))
  else if Contains relPath (text "//") then Err (OGit2go (GIndexError (text "invalid path: '" ++ relPath ++ text "'")))
  else match ValidateRelativePath rootPath relPath with
  | Ok path => Ok path
  | Err ErrRelativePathEscapesRoot => Err (OGit2go (GIndexError (text "Path cannot include directory traversal")))
  | Err _ => Err (OPlain "validate path")
  | Panic => Panic
  end.

(** The actions with their contents; the content of a message belongs to the action
    before it. *)
Fixpoint collectActions (acc : list (ActionHeader * list ascii)) (messages : list ActionMessage) : out OpError (list (ActionHeader * list ascii)) :=
  match messages with
  | [] => Ok acc
  | MsgHeader h :: ms => collectActions (acc ++ [(h, [])]) ms
  | MsgContent c :: ms =>
    match last acc with
    | None => Err (OPlain "content sent before action")
    | Some (h, content) => collectActions (take (length acc - 1) acc ++ [(h, content ++ c)]) ms
    end
  | MsgOther :: _ => Err (OPlain "unhandled action payload type")
  end.

Definition toAction (quarantineRepo : Repository) (repoPath : list ascii) (h : ActionHeader) (content : list ascii) : OP Action :=
  match ah_Action h with
  | OtherAction _ => raise (OPlain "NoMethodError: undefined method")
  | action =>
    path ← lift (validatePath repoPath (ah_FilePath h));
    let writeBlob := need (WriteBlob quarantineRepo path content (ah_Base64Content h)) (fun _ => OPlain "write blob") in
    match action with
    | CREATE => blobID ← writeBlob; mret (CreateFile blobID path (ah_ExecuteFilemode h))
    | CHMOD => mret (ChangeFileMode path (ah_ExecuteFilemode h))
    | MOVE =>
      prevPath ← lift (validatePath repoPath (ah_PreviousPath h));
      oid ← (if negb (ah_InferContent h) then writeBlob else mret []);
      mret (MoveFile prevPath path oid)
    | UPDATE => oid ← writeBlob; mret (UpdateFile path oid)
    | DELETE => mret (DeleteFile path)
    | _ => mret (CreateDirectory path)
    end
  end.

Fixpoint toActions (quarantineRepo : Repository) (repoPath : list ascii) (actions : list (ActionHeader * list ascii)) : OP (list Action) :=
  match actions with
  | [] => mret []
  | (h, content) :: rest => a ← toAction quarantineRepo repoPath h content; as_ ← toActions quarantineRepo repoPath rest; mret (a :: as_)
  end.

Definition sameRepository (a : Repository) (b : option Repository) : bool :=
  bool_decide (StorageName a = from_option StorageName "" b /\ RelativePath a = from_option RelativePath [] b).

Definition resolveParentCommit (repo : Repository) (remote : option Repository) (targetBranch targetBranchCommit startBranch : list ascii) :
    OP (list ascii) :=
  if decide (remote = None /\ startBranch = []) then mret targetBranchCommit
  else
    on ← match remote with
         | Some r => _ ← need (RemoteNew r) (fun _ => OPlain "remote repository"); mret (Remote r)
         | None => mret (Local repo)
         end;
    hasBranches ← need (HasBranches on) (fun _ => OPlain "has branches");
    if negb hasBranches then mret targetBranchCommit
    else
      let branch := if decide (startBranch = []) then targetBranch else NewReferenceNameFromBranchName startBranch in
      need (ResolveRevision on (branch ++ commitPeel)) (fun _ => OPlain "resolving refish").

Definition fetchMissingCommit (repo : Repository) (remote : option Repository) (commit : list ascii) : OP unit :=
  r ← try (ResolveRevision (Local repo) (commit ++ commitPeel));
  match r, remote with
  | inr _, _ => mret tt
  | inl ErrReferenceNotFound, Some remote => need (FetchInternal repo remote [commit]) (fun _ => OPlain "fetch parent commit")
  | inl _, _ => raise (OPlain "lookup parent commit")
  end.

(** From the client's actions to the update of the branch. [closed]: the client closes
    the stream after its messages, instead of breaking it. *)
Definition commitActions (repo quarantineRepo : Repository) (user : User) (h : CommitFilesHeader) (repoPath targetBranchName targetBranchCommit
    parentCommitOID : list ascii) (messages : list ActionMessage) (closed : bool) : OP unit :=
  pbActions ← lift (pbActions ← collectActions [] messages; if closed then Ok pbActions else Err (OPlain "receive request"));
  actions ← toActions quarantineRepo repoPath pbActions;
  now ← dateFromProto (Some user) (cf_Timestamp h);
  let committer := mkSignature (User_Name user) (User_Email user) now in
  let author := if isNil (cf_CommitAuthorName h) || isNil (cf_CommitAuthorEmail h) then committer
                else mkSignature (cf_CommitAuthorName h) (cf_CommitAuthorEmail h) now in
  commitID ← need (Git2go quarantineRepo (CommitParams repoPath author committer (cf_CommitMessage h) parentCommitOID actions)) OGit2go;
  hasBranches ← need (HasBranches (Local quarantineRepo)) (fun _ => OPlain "was repo created");
  let oldRevision := if isNil targetBranchCommit then ZeroOID else if cf_Force h then targetBranchCommit else parentCommitOID in
  r ← updateReferenceWithHooks repo user (Some quarantineRepo) targetBranchName commitID oldRevision [];
  match r with
  | Err (EReference _) => status FailedPrecondition "Could not update"
  | Err e => raise (OUpdate e)
  | _ => need (Send (RBranchUpdate commitID (negb hasBranches) (IsZeroOID oldRevision))) (fun _ => OPlain "send")
  end.

Definition userCommitFiles (repo : Repository) (user : User) (h : CommitFilesHeader) (messages : list ActionMessage) (closed : bool) : OP unit :=
  quarantineRepo ← quarantinedRepo repo;
  repoPath ← need (LocalPath quarantineRepo) (fun _ => OPlain "get repo path");
  let remoteRepo := if sameRepository repo (cf_StartRepository h) then None else cf_StartRepository h in
  let targetBranchName := NewReferenceNameFromBranchName (cf_BranchName h) in
  resolved ← try (ResolveRevision (Local quarantineRepo) (targetBranchName ++ commitPeel));
  targetBranchCommit ← match resolved with
                       | inr oid => mret oid
                       | inl ErrReferenceNotFound => mret []
                       | inl (RefOther _) => raise (OPlain "resolve target branch commit")
                       end;
  parentCommitOID ← (if decide (cf_StartSha h = [])
                     then resolveParentCommit quarantineRepo remoteRepo targetBranchName targetBranchCommit (cf_StartBranchName h)
                     else parseOID (cf_StartSha h) (OStatus InvalidArgument "cannot resolve parent commit"));
  _ ← (if decide (parentCommitOID = targetBranchCommit) then mret tt else fetchMissingCommit quarantineRepo remoteRepo parentCommitOID);
  commitActions repo quarantineRepo user h repoPath targetBranchName targetBranchCommit parentCommitOID messages closed.

Definition UserCommitFiles (header : option CommitFilesHeader) (messages : list ActionMessage) (closed : bool) : OP unit :=
  match header with
  | None => status InvalidArgument "UserCommitFiles: empty UserCommitFilesRequestHeader"
  | Some h =>
    match validateUserCommitFilesHeader h, cf_Repository h, cf_User h with
    | Some what, _, _ => status InvalidArgument what
    | None, Some repo, Some user =>
      prog_bind (userCommitFiles repo user h messages closed) (fun r =>
        let respond response := need (Send response) (fun _ => OPlain "send") in
        match r with
        | Err (OGit2go (GIndexError m)) => respond (RIndexError m)
        | Err (OGit2go GDirectoryExists) => respond (RIndexError (text "A directory with this name already exists"))
        | Err (OGit2go GFileExists) => respond (RIndexError (text "A file with this name already exists"))
        | Err (OGit2go GFileNotFound) => respond (RIndexError (text "A file with this name doesn't exist"))
        | Err (OUpdate (EHook e)) => respond (RPreReceiveError e)
        | Err (OGit2go (GInvalidArgument _)) => status InvalidArgument "commit"
        | r => ret r
        end)
    | None, _, _ => status InvalidArgument "empty"
    end
  end.

(** ** Properties *)

(** *** Which updates are made *)

Record update : Type := mkUpdate {
  up_reference : list ascii;
  up_new : list ascii;
  up_old : list ascii;
}.

(** The reference update of a call, with hooks or without. *)
Definition updateOf {X} (c : OpCall X) : option update :=
  match c with
  | UpdateReferenceWithHooks _ _ _ ref new old _ => Some (mkUpdate ref new old)
  | UpdateRef _ ref new old => Some (mkUpdate ref new old)
  | _ => None
  end.

Definition updateAt (e : event OpCall) : option update := match e with Ev c _ => updateOf c end.

(** Every update happens after calls that justify it. *)
Definition justified (J : list (event OpCall) -> update -> Prop) (t : list (event OpCall)) : Prop :=
  forall t1 e t2 u, t = t1 ++ e :: t2 -> updateAt e = Some u -> J t1 u.

(** The same as a property of a program, the calls [t] having been made before. *)
Fixpoint sound {A} (J : list (event OpCall) -> update -> Prop) (p : prog OpCall A) (t : list (event OpCall)) : Prop :=
  match p with
  | ret _ => True
  | call c k => (forall u, updateOf c = Some u -> J t u) /\ forall x, sound J (k x) (t ++ [Ev c x])
  end.

Lemma sound_runs {A} J (p : prog OpCall A) : forall t0, sound J p t0 -> forall t a, runs p t a -> justified (fun t1 => J (t0 ++ t1)) t.
Proof.
  induction p as [b|X c k IH]; intros t0 Hs t a Hr.
  - destruct Hr as [-> _]. by intros [|? ?] ? ? ?.
  - destruct Hr as (x & t' & -> & Hr). destruct Hs as [Hc Hk]. intros t1 e t2 u Heq Hu. destruct t1 as [|e' t1]; cbn in Heq.
    + injection Heq as <- _. rewrite app_nil_r. by apply Hc.
    + injection Heq as <- ->. replace (t0 ++ Ev c x :: t1) with ((t0 ++ [Ev c x]) ++ t1) by (by rewrite <- app_assoc).
      eapply (IH x _ (Hk x) _ a Hr); [reflexivity|exact Hu].
Qed.

Lemma sound_prog_bind {A B} J (p : prog OpCall A) (k : A -> prog OpCall B) : forall t,
  sound J p t -> (forall t' a, runs p t' a -> sound J (k a) (t ++ t')) -> sound J (prog_bind p k) t.
Proof.
  induction p as [b|X c j IH]; intros t Hs Hk; cbn in *.
  - specialize (Hk [] b). rewrite app_nil_r in Hk. by apply Hk.
  - destruct Hs as [Hc Hj]. split; [done|]. intros x. apply IH; [done|]. intros t' a Hr. rewrite <- app_assoc. apply Hk. eauto.
Qed.

(** *** Branches keep their history *)

(** An update of [ref] that loses no commit: the reference is created, the old value
    is an ancestor of the new one, or the new commit was made on top of it. *)
Definition keeps (ref : list ascii) (t : list (event OpCall)) (u : update) : Prop :=
  up_reference u = ref /\
  (up_old u = ZeroOID \/
   (exists repo, Ev (IsAncestor repo (up_old u) (up_new u)) (inr true) ∈ t) \/
   (exists repo path author message theirs allow, Ev (Git2go repo (MergeCommand path author message (up_old u) theirs allow)) (inr (up_new u)) ∈ t) \/
   (exists repo path author committer message actions,
     Ev (Git2go repo (CommitParams path author committer message (up_old u) actions)) (inr (up_new u)) ∈ t)).

Lemma parseOID_same hex oid : NewObjectIDFromHex hex = Some oid -> oid = hex.
Proof. unfold NewObjectIDFromHex. destruct (ValidateObjectID hex); congruence. Qed.

Ltac unfold_op := repeat (progress unfold need, try, status, raise, lift, internalError, orErr, parseOID, updateReferenceWithHooks, quarantinedRepo,
  dateFromProto, mbind, PM_bind, mret, PM_ret).

Ltac case_on x := lazymatch x with
  | match ?y with _ => _ end => case_on y
  | _ => let E := fresh "E" in destruct x eqn:E
  end.

Ltac case_in p := lazymatch p with
  | prog_bind ?q _ => case_in q
  | match ?x with _ => _ end => case_on x
  end.

(** Follow a program call by call; what is left are the updates. *)
Ltac walk := cbn [prog_bind sound]; lazymatch goal with
  | |- True => exact I
  | |- (forall u, updateOf ?c = Some u -> _) /\ _ => split;
      [cbn [updateOf]; first [intros ? [=]; fail | intros ? [= <-]] | let x := fresh "x" in intros x; walk]
  | |- sound _ (prog_bind ?p _) _ => tryif case_in p then walk else idtac
  | |- sound _ (match ?x with _ => _ end) _ => case_on x; walk
  | |- match ?x with _ => _ end => case_on x; walk
  | |- _ => idtac
  end.

(** A call among those made before. *)
Ltac before := rewrite ?elem_of_app, ?list_elem_of_singleton; intuition eauto.

Lemma create_sound repo branch user startPoint :
  sound (keeps (NewReferenceNameFromBranchName branch)) (UserCreateBranch repo branch user startPoint) [].
Proof. unfold UserCreateBranch. unfold_op. walk. split; [done|]. by left. Qed.

Lemma ff_sound repo branch user commitID :
  sound (keeps (NewReferenceNameFromBranchName branch)) (UserFFBranch repo branch user commitID) [].
Proof.
  unfold UserFFBranch. unfold_op. walk. split; [done|]. right; left. destruct b; [|done]. eexists. cbn [up_old up_new]. before.
Qed.

Lemma merge_sound structured repo user branch commitID message timestamp :
  sound (keeps (NewReferenceNameFromBranchName branch)) (UserMergeBranch structured repo user branch commitID message timestamp) [].
Proof.
  unfold UserMergeBranch, mergeUpdateError. unfold_op. walk. split; [done|]. right; right; left.
  match goal with H : NewObjectIDFromHex _ = Some _ |- _ => apply parseOID_same in H as -> end.
  do 6 eexists. cbn [up_old up_new]. before.
Qed.

Lemma moveBranch_sound repo quarantineRepo user branch startRevision newrev dryRun had t :
  sound (keeps (NewReferenceNameFromBranchName branch)) (moveBranch repo quarantineRepo user branch startRevision newrev dryRun had) t.
Proof.
  unfold moveBranch. unfold_op. walk; (split; [done|]); cbn [up_old up_new]; try (by left).
  all: right; left; destruct b; [|done]; eexists; before.
Qed.

Lemma cherry_pick_sound repo user commit branch message startRepository startBranchName timestamp dryRun :
  sound (keeps (NewReferenceNameFromBranchName branch))
    (UserCherryPick repo user commit branch message startRepository startBranchName timestamp dryRun) [].
Proof. unfold UserCherryPick, applyCommit, fetchStartRevision. unfold_op. walk; apply moveBranch_sound. Qed.

Lemma revert_sound repo user commit branch message startRepository startBranchName timestamp dryRun :
  sound (keeps (NewReferenceNameFromBranchName branch))
    (UserRevert repo user commit branch message startRepository startBranchName timestamp dryRun) [].
Proof. unfold UserRevert, applyCommit, fetchStartRevision. unfold_op. walk; apply moveBranch_sound. Qed.

Lemma toActions_sound J repo path actions : forall t, sound J (toActions repo path actions) t.
Proof.
  induction actions as [|[h content] actions IH]; intros t; [done|]. cbn [toActions]. unfold mbind at 1, PM_bind. apply sound_prog_bind.
  - unfold toAction. unfold_op. walk.
  - intros t' [a|e|] _; [|done..]. apply sound_prog_bind; [apply IH|]. by intros t'' [as_|e|] _.
Qed.

Lemma commitActions_sound repo quarantineRepo user h path ref tip parent messages closed t :
  cf_Force h = false -> sound (keeps ref) (commitActions repo quarantineRepo user h path ref tip parent messages closed) t.
Proof.
  intros Hforce. unfold commitActions. rewrite Hforce. unfold mbind at 1, PM_bind, lift. cbn [prog_bind].
  destruct (collectActions [] messages ≫= _) as [pb|e|]; [|done..]. unfold mbind at 1, PM_bind. apply sound_prog_bind; [apply toActions_sound|].
  intros t' [actions|e|] _; [|done..]. unfold_op. walk. split; [done|]. cbn [up_old up_new]. destruct (isNil tip); [by left|].
  right; right; right. do 6 eexists. before.
Qed.

Lemma commit_files_sound repo user h messages closed :
  cf_Force h = false ->
  sound (keeps (NewReferenceNameFromBranchName (cf_BranchName h))) (userCommitFiles repo user h messages closed) [].
Proof.
  intros Hforce. unfold userCommitFiles, resolveParentCommit, fetchMissingCommit. unfold_op. walk; by apply commitActions_sound.
Qed.

Lemma respond_sound J response t : sound J (need (Send response) (fun _ => OPlain "send")) t.
Proof. unfold_op. walk. Qed.

Definition keepsHistory {A} (ref : list ascii) (p : prog OpCall A) : Prop := forall t a, runs p t a -> justified (keeps ref) t.

Lemma sound_keepsHistory {A} ref (p : prog OpCall A) : sound (keeps ref) p [] -> keepsHistory ref p.
Proof. intros Hs t a Hr. by apply (sound_runs _ p [] Hs t a). Qed.

(** C6. Creating, fast-forwarding and merging into a branch, cherry-picking and
    reverting on it, and committing files to it without force update at most this
    branch, and never in a way that loses commits: each update creates the branch, or
    its old value was found to be an ancestor of the new one, or the new commit was
    made on top of exactly the old value the update insists on. *)
Theorem branches_keep_history :
  (forall repo branch user startPoint, keepsHistory (NewReferenceNameFromBranchName branch) (UserCreateBranch repo branch user startPoint)) /\
  (forall repo branch user commitID, keepsHistory (NewReferenceNameFromBranchName branch) (UserFFBranch repo branch user commitID)) /\
  (forall structured repo user branch commitID message timestamp,
    keepsHistory (NewReferenceNameFromBranchName branch) (UserMergeBranch structured repo user branch commitID message timestamp)) /\
  (forall repo user commit branch message startRepository startBranch timestamp dryRun,
    keepsHistory (NewReferenceNameFromBranchName branch)
      (UserCherryPick repo user commit branch message startRepository startBranch timestamp dryRun)) /\
  (forall repo user commit branch message startRepository startBranch timestamp dryRun,
    keepsHistory (NewReferenceNameFromBranchName branch)
      (UserRevert repo user commit branch message startRepository startBranch timestamp dryRun)) /\
  (forall h messages closed, cf_Force h = false ->
    keepsHistory (NewReferenceNameFromBranchName (cf_BranchName h)) (UserCommitFiles (Some h) messages closed)).
Proof.
  split_and!; intros; apply sound_keepsHistory; [apply create_sound|apply ff_sound|apply merge_sound|apply cherry_pick_sound|apply revert_sound|].
  unfold UserCommitFiles. destruct (validateUserCommitFilesHeader h); [exact I|]. destruct (cf_Repository h) as [repo|]; [|exact I].
  destruct (cf_User h) as [user|]; [|exact I]. apply sound_prog_bind; [by apply commit_files_sound|].
  intros t' r _. repeat case_match; first [exact I | apply respond_sound].
Qed.

(** *** Down to git *)

(** The calls of an operation together with those of the reference updates it makes. *)
Inductive FullCall : Type -> Type :=
| Upper {X} (c : OpCall X) : FullCall X
| Lower {X} (c : Call X) : FullCall X.

Definition lower (e : event Call) : event FullCall := match e with Ev c x => Ev (Lower c) x end.

Definition lowerOf (e : event FullCall) : option (event Call) :=
  match e with
  | Ev c x => match c in FullCall X return X -> option (event Call) with
              | Upper _ => fun _ => None
              | Lower c => fun x => Some (Ev c x)
              end x
  end.

Lemma lowerOf_lower e : lowerOf (lower e) = Some e.
Proof. by destruct e. Qed.

Fixpoint embed {A} (p : prog Call A) : prog FullCall A :=
  match p with
  | ret a => ret a
  | call c k => call (Lower c) (fun x => embed (k x))
  end.

Section Expand.
Context (up : UpdaterWithHooks) (ctx : TxContext).

Definition referenceUpdate (repo : Repository) (user : User) (quarantine : option Repository) (ref new old : list ascii)
    (pushOptions : list (list ascii)) : H UpdateError unit :=
  UpdateReference up ctx repo (GlId user) (GlUsername user) quarantine ref new old pushOptions.

(** A reference update in place of the call for it. *)
Fixpoint expand {A} (p : prog OpCall A) : prog FullCall A :=
  match p with
  | ret a => ret a
  | call c k =>
    match c in OpCall X return (X -> prog FullCall A) -> prog FullCall A with
    | UpdateReferenceWithHooks repo user q ref new old opts => prog_bind (embed (referenceUpdate repo user q ref new old opts))
    | c => call (Upper c)
    end (fun x => expand (k x))
  end.

Definition isHooked {X} (c : OpCall X) : bool := match c with UpdateReferenceWithHooks _ _ _ _ _ _ _ => true | _ => false end.

Inductive expands : list (event OpCall) -> list (event FullCall) -> Prop :=
| expands_nil : expands [] []
| expands_upper X (c : OpCall X) x t T : isHooked c = false -> expands t T -> expands (Ev c x :: t) (Ev (Upper c) x :: T)
| expands_update repo user q ref new old opts r s t T :
    runs (referenceUpdate repo user q ref new old opts) s r -> expands t T ->
    expands (Ev (UpdateReferenceWithHooks repo user q ref new old opts) r :: t) ((lower <$> s) ++ T).

Lemma embed_runs {A} (p : prog Call A) : forall T a, runs (embed p) T a -> exists s, T = lower <$> s /\ runs p s a.
Proof.
  induction p as [b|X c k IH]; intros T a Hr; cbn in *; [by exists []; destruct Hr as [-> ->]|].
  destruct Hr as (x & T' & -> & Hr). destruct (IH x T' a Hr) as (s & -> & Hs). exists (Ev c x :: s). split; [done|]. exists x, s. done.
Qed.

Lemma runs_prog_bind {C A B} (p : prog C A) (k : A -> prog C B) : forall t b,
  runs (prog_bind p k) t b -> exists t1 t2 a, t = t1 ++ t2 /\ runs p t1 a /\ runs (k a) t2 b.
Proof.
  induction p as [a|X c j IH]; intros t b Hr; cbn in *; [exists [], t, a; done|].
  destruct Hr as (x & t' & -> & Hr). destruct (IH x t' b Hr) as (t1 & t2 & a & -> & H1 & H2). exists (Ev c x :: t1), t2, a. split; [done|]. split; [|done].
  exists x, t1. done.
Qed.

Lemma expand_runs {A} (p : prog OpCall A) : forall T a, runs (expand p) T a -> exists t, runs p t a /\ expands t T.
Proof.
  induction p as [b|X c k IH]; intros T a Hr; cbn [expand] in Hr.
  - destruct Hr as [-> ->]. exists []. split; [done|constructor].
  - assert (Hup : isHooked c = false -> runs (call (Upper c) (fun x => expand (k x))) T a -> exists t, runs (call c k) t a /\ expands t T).
    { intros Hc (x & T' & -> & Hr'). destruct (IH x T' a Hr') as (t & Ht & He). exists (Ev c x :: t). split; [exists x, t; done|by constructor]. }
    destruct c; try (by apply Hup). apply runs_prog_bind in Hr as (T1 & T2 & r & -> & H1 & H2). apply embed_runs in H1 as (s & -> & Hs).
    destruct (IH r T2 a H2) as (t & Ht & He). eexists (Ev _ r :: t). split; [exists r, t; done|by constructor].
Qed.

(** A call for a reference update is made by one of the updates. *)
Lemma expands_lower t T : expands t T -> forall T1 X (c : Call X) x T2, T = T1 ++ Ev (Lower c) x :: T2 ->
  exists t1 repo user q ref new old opts r t2 T0 s1 s2, t = t1 ++ Ev (UpdateReferenceWithHooks repo user q ref new old opts) r :: t2 /\
    runs (referenceUpdate repo user q ref new old opts) (s1 ++ Ev c x :: s2) r /\ T1 = T0 ++ (lower <$> s1) /\ expands t1 T0.
Proof.
  induction 1 as [|Y d y t T Hd Hexp IH|repo user q ref new old opts r s t T Hs Hexp IH]; intros T1 X c x T2 Heq.
  - by destruct T1.
  - destruct T1 as [|e T1]; [done|]. cbn in Heq. assert (T = T1 ++ Ev (Lower c) x :: T2) as HT by congruence. assert (e = Ev (Upper d) y) as -> by congruence.
    destruct (IH T1 X c x T2 HT) as (t1 & repo & user & q & ref & new & old & opts & r & t2 & T0 & s1 & s2 & -> & Hr & -> & He).
    exists (Ev d y :: t1), repo, user, q, ref, new, old, opts, r, t2, (Ev (Upper d) y :: T0), s1, s2. split_and!; [done..|by constructor].
  - apply app_eq_app in Heq as (l & [[Hl1 Hl2]|[Hl1 Hl2]]).
    + destruct l as [|e l].
      * rewrite app_nil_r in Hl1. cbn in Hl2. destruct (IH [] X c x T2 (eq_sym Hl2)) as (t1 & repo' & user' & q' & ref' & new' & old' & opts' & r' & t2 & T0 & s1 & s2 & -> & Hr & HT & He).
        exists (Ev (UpdateReferenceWithHooks repo user q ref new old opts) r :: t1), repo', user', q', ref', new', old', opts', r', t2, (T1 ++ T0), s1, s2.
        split_and!; [done|done|by rewrite <- app_assoc, <- HT, app_nil_r|]. rewrite <- Hl1. by constructor.
      * cbn in Hl2. injection Hl2 as <- _. apply fmap_app_inv in Hl1 as (s1 & s' & -> & Hs' & ->).
        destruct s' as [|e' s2]; [done|]. cbn in Hs'. injection Hs' as He' _. apply (f_equal lowerOf) in He'. rewrite lowerOf_lower in He'. injection He' as <-.
        exists [], repo, user, q, ref, new, old, opts, r, t, [], s1, s2. split_and!; [done..|constructor].
    + destruct (IH l X c x T2 Hl2) as (t1 & repo' & user' & q' & ref' & new' & old' & opts' & r' & t2 & T0 & s1 & s2 & -> & Hr & -> & He).
      exists (Ev (UpdateReferenceWithHooks repo user q ref new old opts) r :: t1), repo', user', q', ref', new', old', opts', r', t2, ((lower <$> s) ++ T0), s1, s2.
      split_and!; [done|done|by rewrite Hl1, app_assoc|by constructor].
Qed.

Definition upper (e : event OpCall) : event FullCall := match e with Ev c x => Ev (Upper c) x end.

Lemma expands_mem t T X (c : OpCall X) x : expands t T -> isHooked c = false -> Ev c x ∈ t -> Ev (Upper c) x ∈ T.
Proof.
  induction 1 as [|Y d y t T Hd Hexp IH|repo user q ref new old opts r s t T Hs Hexp IH]; intros Hc Hin.
  - by apply not_elem_of_nil in Hin.
  - apply elem_of_cons in Hin as [Heq|Hin]; [|apply elem_of_cons; right; auto]. apply (f_equal upper) in Heq. cbn in Heq. rewrite Heq. by left.
  - apply elem_of_cons in Hin as [Heq|Hin]; [|apply elem_of_app; right; auto].
    apply (f_equal (fun e => match e with Ev c _ => isHooked c end)) in Heq. cbn in Heq. congruence.
Qed.

(** The merge that was shown to the client, who then asked to apply it. *)
Definition confirmed (branch commitID message : list ascii) (t : list (event OpCall)) (u : update) : Prop :=
  up_reference u = NewReferenceNameFromBranchName branch /\ exists q path author,
    Ev (ResolveRevision (Local q) (NewReferenceNameFromBranchName branch)) (inr (up_old u)) ∈ t /\
    Ev (Git2go q (MergeCommand path author message (up_old u) commitID false)) (inr (up_new u)) ∈ t /\
    Ev (Send (RCommitId (up_new u))) (inr tt) ∈ t /\ Ev RecvApply (inr true) ∈ t.

Lemma merge_confirmed structured repo user branch commitID message timestamp :
  sound (confirmed branch commitID message) (UserMergeBranch structured repo user branch commitID message timestamp) [].
Proof.
  unfold UserMergeBranch, mergeUpdateError. unfold_op. walk. split; [done|]. cbn [up_old up_new].
  match goal with H : NewObjectIDFromHex _ = Some _ |- _ => apply parseOID_same in H as -> end.
  match goal with H : negb ?b = false |- _ => destruct b; [|done] end. match goal with u : unit |- _ => destruct u end.
  do 3 eexists. split_and!; before.
Qed.

(** C5. When git is told to commit an update in the course of a merge, whatever
    everything else answers, the client has seen the merge commit and asked to apply
    it; that commit was made on top of the value of the branch that git is told to
    replace, with the requested commit; git is told to replace exactly this value of
    this branch by this commit. If the node is the primary or on its own, GitLab has
    allowed exactly this change; if there is a transaction, the other nodes have agreed
    to it, unless the branch resolved to the zero object ID or its name has 64000 bytes or more, when
    the hook may not vote. *)
Theorem merge_committed_as_confirmed tx structured repo user branch commitID message timestamp T r T1 X (c : Call X) x T2 :
  codec_ok up -> match ctx with NoTransaction => tx = None | InTransaction x => tx = Some x | BadTransaction => True end ->
  runs (expand (UserMergeBranch structured repo user branch commitID message timestamp)) T r ->
  T = T1 ++ Ev (Lower c) x :: T2 -> isCommit (Ev c x) = true ->
  let ref := NewReferenceNameFromBranchName branch in
  exists q path author old new T0 s1, T1 = T0 ++ (lower <$> s1) /\
    Ev (Upper (ResolveRevision (Local q) ref)) (inr old) ∈ T0 /\
    Ev (Upper (Git2go q (MergeCommand path author message old commitID false))) (inr new) ∈ T0 /\
    Ev (Upper (Send (RCommitId new))) (inr tt) ∈ T0 /\ Ev (Upper RecvApply) (inr true) ∈ T0 /\
    gitWrites s1 = [text "start" ++ [nul]; updateLine ref new old; text "prepare" ++ [nul]] /\
    (match tx with None => true | Some tx => Primary tx end = true -> happened (isAllowed (changesOf old new ref)) s1) /\
    (tx ≠ None -> old ≠ ZeroOID -> Z.of_nat (length branch) < 64000 ->
      happened (isVoteFor (m_sha1_Sum (u_manager up) (toBytes (changesOf old new ref)))) s1).
Proof.
  intros Hcodec Hctx Hruns HT Hcommit ref. apply expand_runs in Hruns as (t & Hruns & Hexp).
  destruct (expands_lower t T Hexp T1 X c x T2 HT) as (t1 & repo' & user' & q' & ref' & new & old & opts & r' & t2 & T0 & s1 & s2 & Ht & Hup & HT1 & He).
  pose proof (sound_runs _ _ [] (merge_confirmed structured repo user branch commitID message timestamp) t r Hruns) as Hj.
  destruct (Hj t1 _ t2 (mkUpdate ref' new old) Ht eq_refl) as (Href & q & path & author & H1 & H2 & H3 & H4). cbn [up_reference up_old up_new app] in *.
  subst ref'. exists q, path, author, old, new, T0, s1.
  assert (HT0 : forall Y (d : OpCall Y) y, isHooked d = false -> Ev d y ∈ t1 -> Ev (Upper d) y ∈ T0) by (intros; by eapply expands_mem).
  destruct (UpdateReference_updated up ctx tx repo' (GlId user') (GlUsername user') q' ref new old opts Hcodec Hctx _ _ Hup) as (_ & Hg & _).
  destruct (Hg s1 (Ev c x) s2 eq_refl Hcommit) as (Hw & Ha & Hv). split_and!; auto.
  intros Htx Hz Hlen. apply Hv. split; [done|]. split; [by left|]. unfold ref, NewReferenceNameFromBranchName. rewrite length_app. cbn. lia.
Qed.
End Expand.

(** *** The paths of a commit *)

(** A path below the root, without a step up or anything to be cleaned. *)
Definition confinedPath (p : list ascii) : Prop := exists rest, p = relative rest /\ Forall GoStrings.plain rest.

Definition pathsOf (a : Action) : list (list ascii) :=
  match a with
  | CreateFile _ path _ | ChangeFileMode path _ | UpdateFile path _ | DeleteFile path | CreateDirectory path => [path]
  | MoveFile path newPath _ => [path; newPath]
  end.

Lemma validatePath_confined root parts rel path : clean_dir root parts -> validatePath root rel = Ok path -> confinedPath path.
Proof.
  intros Hroot. unfold validatePath. case_decide; [done|]. destruct (Contains _ _); [done|].
  destruct (ValidateRelativePath_cases root parts rel Hroot) as [(rest & Hj & ->)|[_ ->]]; [|done]. intros [= <-]. exists rest. split; [done|].
  destruct Hroot as [Hparts _ _]. pose proof (joined_plain parts rel Hparts) as Hp. rewrite Hj in Hp. by apply Forall_app in Hp as [_ Hp].
Qed.

Lemma toAction_paths repo root parts h content t a :
  clean_dir root parts -> runs (toAction repo root h content) t (Ok a) -> Forall confinedPath (pathsOf a).
Proof.
  intros Hroot. unfold toAction. unfold_op. destruct (ah_Action h); cbn [prog_bind];
    try (destruct (validatePath root (ah_FilePath h)) as [p|e|] eqn:Hp; [apply (validatePath_confined _ _ _ _ Hroot) in Hp|by intros [_ [=]]..]);
    try (destruct (validatePath root (ah_PreviousPath h)) as [p'|e|] eqn:Hp'; [apply (validatePath_confined _ _ _ _ Hroot) in Hp'|by intros [_ [=]]..]).
  all: try (intros (x & t' & -> & Hr); destruct x as [e|oid]; destruct Hr as [-> [= ->]]; by repeat constructor).
  all: try (intros [-> [= ->]]; by repeat constructor).
  destruct (ah_InferContent h); cbn [negb prog_bind].
  - intros [-> [= ->]]. by repeat constructor.
  - intros (x & t' & -> & Hr). destruct x as [e|oid]; destruct Hr as [-> [= ->]]. by repeat constructor.
Qed.

Lemma toActions_paths repo root parts acts : clean_dir root parts -> forall t actions,
  runs (toActions repo root acts) t (Ok actions) -> Forall (fun a => Forall confinedPath (pathsOf a)) actions.
Proof.
  intros Hroot. induction acts as [|[h content] acts IH]; intros t actions Hr; cbn [toActions] in Hr.
  - destruct Hr as [_ [= ->]]. constructor.
  - unfold mbind in Hr at 1. unfold PM_bind in Hr. apply runs_prog_bind in Hr as (t1 & t2 & [a|e|] & -> & H1 & H2); [|by destruct H2..].
    unfold mbind, PM_bind in H2. apply runs_prog_bind in H2 as (t3 & t4 & [as_|e|] & -> & H3 & H4); [|by destruct H4..].
    destruct H4 as [_ [= ->]]. constructor; [by eapply toAction_paths|by eapply IH].
Qed.

(** Every call of a program has a property. *)
Fixpoint checked {A} (G : forall X, OpCall X -> Prop) (p : prog OpCall A) : Prop :=
  match p with
  | ret _ => True
  | call c k => G _ c /\ forall x, checked G (k x)
  end.

Lemma checked_runs {A} G (p : prog OpCall A) : checked G p -> forall t a, runs p t a -> Forall (fun e => match e with Ev c _ => G _ c end) t.
Proof.
  induction p as [b|X c k IH]; intros Hc t a Hr; [by destruct Hr as [-> _]|]. destruct Hr as (x & t' & -> & Hr), Hc as [Hc Hk].
  constructor; [done|]. by eapply IH.
Qed.

Lemma checked_prog_bind {A B} G (p : prog OpCall A) (k : A -> prog OpCall B) :
  checked G p -> (forall t a, runs p t a -> checked G (k a)) -> checked G (prog_bind p k).
Proof.
  induction p as [b|X c j IH]; intros Hc Hk; cbn in *; [by eapply Hk|]. destruct Hc as [Hc Hj]. split; [done|]. intros x.
  apply IH; [done|]. intros t a Hr. eapply Hk. exists x, t. done.
Qed.

Ltac cwalk := cbn [prog_bind checked]; lazymatch goal with
  | |- True => exact I
  | |- _ /\ (forall x, _) => split; [try exact I | let x := fresh "x" in intros x; cwalk]
  | |- checked _ (prog_bind ?p _) => tryif case_in p then cwalk else idtac
  | |- checked _ (match ?x with _ => _ end) => case_on x; cwalk
  | |- match ?x with _ => _ end => case_on x; cwalk
  | |- _ => idtac
  end.

(** The commits libgit2 is asked for touch paths below the root only. *)
Definition confinedCommand (X : Type) (c : OpCall X) : Prop :=
  match c with
  | Git2go _ (CommitParams root _ _ _ _ actions) => forall parts, clean_dir root parts -> Forall (fun a => Forall confinedPath (pathsOf a)) actions
  | _ => True
  end.

Lemma toActions_checked repo root acts : checked confinedCommand (toActions repo root acts).
Proof.
  induction acts as [|[h content] acts IH]; [exact I|]. cbn [toActions]. unfold mbind at 1, PM_bind. apply checked_prog_bind.
  - unfold toAction. unfold_op. cwalk.
  - intros t [a|e|] _; [|exact I..]. apply checked_prog_bind; [done|]. intros t' [as_|e|] _; exact I.
Qed.

Lemma commitActions_checked repo quarantineRepo user h root ref tip parent messages closed :
  checked confinedCommand (commitActions repo quarantineRepo user h root ref tip parent messages closed).
Proof.
  unfold commitActions. unfold mbind at 1, PM_bind, lift. cbn [prog_bind].
  destruct (collectActions [] messages ≫= _) as [pb|e|]; [|exact I..]. unfold mbind at 1, PM_bind. apply checked_prog_bind; [apply toActions_checked|].
  intros t [actions|e|] Hr; [|exact I..]. unfold_op. cwalk. intros parts Hroot. by eapply toActions_paths.
Qed.

(** Whatever paths a client names, the files UserCommitFiles has libgit2 create,
    change, move or delete are below the root of the repository: their paths are
    relative, clean and without a step up. *)
Theorem committed_paths_confined header messages closed t r repo root author committer message parent actions x :
  runs (UserCommitFiles header messages closed) t r ->
  Ev (Git2go repo (CommitParams root author committer message parent actions)) x ∈ t ->
  forall parts, clean_dir root parts -> forall a p, a ∈ actions -> p ∈ pathsOf a ->
  exists rest, p = relative rest /\ Forall GoStrings.plain rest.
Proof.
  intros Hr Hin parts Hroot a p Ha Hp.
  assert (Hc : checked confinedCommand (UserCommitFiles header messages closed)).
  { unfold UserCommitFiles. destruct header as [h|]; [|exact I]. destruct (validateUserCommitFilesHeader h); [exact I|]. destruct (cf_Repository h) as [re|]; [|exact I].
    destruct (cf_User h) as [user|]; [|exact I]. apply checked_prog_bind.
    - unfold userCommitFiles, resolveParentCommit, fetchMissingCommit. unfold_op. cwalk; apply commitActions_checked.
    - intros t' res _. repeat case_match; first [exact I | unfold_op; cwalk]. }
  pose proof (checked_runs _ _ Hc t r Hr) as Hall. rewrite Forall_forall in Hall. specialize (Hall _ Hin parts Hroot).
  rewrite Forall_forall in Hall. specialize (Hall a Ha). rewrite Forall_forall in Hall. by apply Hall.
Qed.

(** *** Examples *)

Module Example.
Definition alice : User := mkUser (text "Alice") (text "alice@example.com") (text "user-1") (text "alice") [].
Definition newOID : list ascii := replicate 40 "2"%char.

(** Everything succeeds. *)
Definition answers (X : Type) (c : OpCall X) (s : bool) : X * bool :=
  (match c in OpCall X return X with
   | QuarantineNew repo => inr repo
   | LocalPath _ | LocatorPath _ => inr (text "/git/a.git")
   | ReadCommit _ _ => inr (mkGitCommit exampleOID [])
   | GetReference _ _ => inl ErrReferenceNotFound
   | ResolveRevision _ _ => inr exampleOID
   | IsAncestor _ _ _ | HasBranches _ | RecvApply => inr true
   | GetBranches _ => inr []
   | Git2go _ _ => inr newOID
   | CommitTree _ _ _ _ _ _ => inr newOID
   | CatInfo _ _ => inr (mkObjectInfo exampleOID (text "commit"))
   | GetTagMessage _ _ _ => inr []
   | WriteTag _ _ _ _ _ _ _ => inr newOID
   | WriteBlob _ _ _ _ => inr newOID
   | Now => 0
   | UpdateReferenceWithHooks _ _ _ _ _ _ _ => Ok tt
   | RemoteNew _ | FetchInternal _ _ _ | CheckRefFormat _ | UpdateRef _ _ _ _ | LoadLocation _ | Send _ => inr tt
   end, s).

Definition fullAnswers (X : Type) (c : FullCall X) : bool -> X * bool :=
  match c in FullCall X return bool -> X * bool with
  | Upper c => answers _ c
  | Lower c => Hooks.Example.handle _ c
  end.

Definition merge : prog FullCall (out OpError unit) :=
  expand exampleUpdater (InTransaction exampleTx)
    (UserMergeBranch true Hooks.Example.repo (Some alice) (text "main") exampleOID (text "Merge") None).

Definition mergeTrace : list (event FullCall) := (run fullAnswers merge true).1.2.

Definition header : CommitFilesHeader :=
  mkCommitFilesHeader (Some Hooks.Example.repo) (Some alice) (text "main") (text "Message") [] [] [] None false [] None.
Definition messages : list ActionMessage :=
  [MsgHeader (mkActionHeader CREATE (text "docs/../README") [] false false false); MsgContent (text "hello")].
Definition commitFiles : OP unit := UserCommitFiles (Some header) messages true.
End Example.

(** Example for [branches_keep_history]: the commit is made on the tip of the branch. *)
Lemma branches_keep_history_witness :
  let t := (run Example.answers Example.commitFiles true).1.2 in
  justified (keeps (NewReferenceNameFromBranchName (text "main"))) t /\
  omap updateAt t = [mkUpdate (text "refs/heads/main") Example.newOID exampleOID].
Proof.
  intros t. split; [|vm_compute; reflexivity].
  destruct branches_keep_history as (_ & _ & _ & _ & _ & H).
  apply (H Example.header Example.messages true eq_refl t _ (run_runs Example.answers Example.commitFiles true)).
Defined.

(** Example for [merge_committed_as_confirmed]. *)
Lemma merge_committed_as_confirmed_witness :
  let ref := NewReferenceNameFromBranchName (text "main") in
  exists q path author old new T0 s1, take 23 Example.mergeTrace = T0 ++ (lower <$> s1) /\
    Ev (Upper (ResolveRevision (Local q) ref)) (inr old) ∈ T0 /\
    Ev (Upper (Git2go q (MergeCommand path author (text "Merge") old exampleOID false))) (inr new) ∈ T0 /\
    Ev (Upper (Send (RCommitId new))) (inr tt) ∈ T0 /\ Ev (Upper RecvApply) (inr true) ∈ T0 /\
    happened (isAllowed (changesOf old new ref)) s1.
Proof.
  intros ref.
  assert (Hat : Example.mergeTrace !! 23%nat = Some (Ev (Lower (GitWrite (text "commit" ++ [nul]))) (inr tt))) by (vm_compute; reflexivity).
  destruct (merge_committed_as_confirmed exampleUpdater (InTransaction exampleTx) (Some exampleTx) true Hooks.Example.repo (Some Example.alice)
    (text "main") exampleOID (text "Merge") None Example.mergeTrace (run Example.fullAnswers Example.merge true).1.1
    (take 23 Example.mergeTrace) _ (GitWrite (text "commit" ++ [nul])) (inr tt) (drop 24 Example.mergeTrace))
    as (q & path & author & old & new & T0 & s1 & H1 & H2 & H3 & H4 & H5 & _ & H6 & _).
  - intros p repo env _. cbn. case_decide as Htx; [|discriminate]. intros _. exists (Hooks.Example.payload true). split; [reflexivity|]. by rewrite Htx.
  - reflexivity.
  - apply (run_runs Example.fullAnswers Example.merge true).
  - symmetry. by apply take_drop_middle.
  - vm_compute. reflexivity.
  - exists q, path, author, old, new, T0, s1. split_and!; [exact H1|exact H2|exact H3|exact H4|exact H5|]. apply H6. reflexivity.
Defined.

(** Example for [committed_paths_confined]: the path was cleaned. *)
Lemma committed_paths_confined_witness : exists rest, text "README" = relative rest /\ Forall GoStrings.plain rest.
Proof.
  assert (Hat : (run Example.answers Example.commitFiles true).1.2 !! 6%nat =
    Some (Ev (Git2go Hooks.Example.repo (CommitParams (text "/git/a.git") (mkSignature (text "Alice") (text "alice@example.com") 0)
      (mkSignature (text "Alice") (text "alice@example.com") 0) (text "Message") exampleOID [CreateFile Example.newOID (text "README") false]))
      (inr Example.newOID))) by (vm_compute; reflexivity).
  eapply (committed_paths_confined (Some Example.header) Example.messages true _ _ _ _ _ _ _ _ _ _ (run_runs Example.answers Example.commitFiles true)
    (list_elem_of_lookup_2 _ _ _ Hat) [text "git"; text "a.git"]).
  - split.
    + repeat constructor; try discriminate; apply (bool_decide_unpack _); vm_compute; exact I.
    + discriminate.
    + reflexivity.
  - apply list_elem_of_here.
  - apply list_elem_of_here.
Defined.
