(* ===== verification/Pipe.v ===== *)
(** The pipe of the stream cache: one file with one writer and many readers
    (src/internal/streamcache/pipe.go, pipe_linux.go, cursor.go, and the writer's
    goroutine, runCreate of cache.go).

    The steps of the writer and of the readers are their accesses to the cursors,
    to channels and to the file; a section under the pipe's mutex is one step, since
    what it touches changes under that mutex only, except for positions, which it
    does not read. What the operating system and the callback do is part of the
    event of a step. A reader is used by one goroutine at a time. *)

From Stdlib Require Import Strings.Ascii.
From S2P Require Import Prelude.

(** ** Cursors *)

(** A notifier is an index; those whose channel holds a notification are in
    [notified]. *)
Record cursor : Type := mkCursor {
  pos : Z;
  subscribers : list nat;
  notified : gset nat;
  doneChan : bool;
  notifiers : nat;
}.

Definition newCursor : cursor := mkCursor 0 [] ∅ false 0.

Definition Subscribe (c : cursor) : nat * cursor :=
  (notifiers c,
   mkCursor (pos c) (subscribers c ++ [notifiers c]) (notified c) (doneChan c) (S (notifiers c))).

Fixpoint removeFirst (n : nat) (l : list nat) : list nat :=
  match l with
  | [] => []
  | x :: l => if decide (x = n) then l else x :: removeFirst n l
  end.

Definition Unsubscribe (n : nat) (c : cursor) : cursor :=
  let subs := removeFirst n (subscribers c) in
  mkCursor (pos c) subs (notified c) (doneChan c || bool_decide (subs = [])) (notifiers c).

(** Notify leaves at most one notification in a channel. *)
Definition Notify (n : nat) (c : cursor) : cursor :=
  mkCursor (pos c) (subscribers c) ({[n]} ∪ notified c) (doneChan c) (notifiers c).

Definition receive (n : nat) (c : cursor) : option cursor :=
  if decide (n ∈ notified c)
  then Some (mkCursor (pos c) (subscribers c) (notified c ∖ {[n]}) (doneChan c) (notifiers c))
  else None.

(** The part of SetPosition under the lock. *)
Definition setPosition (p : Z) (c : cursor) : cursor :=
  if p <=? pos c then c
  else foldl (fun c n => Notify n c)
         (mkCursor p (subscribers c) (notified c) (doneChan c) (notifiers c)) (subscribers c).

(** ** The pipe *)

Inductive PipeError : Type :=
| errWrongCloseOrder
| errWriterAlreadyClosed
| errOpen
| errClose
| errWrite
| errCreate
| errPanic.
#[export] Instance PipeError_eq_dec : EqDecision PipeError. Proof. solve_decision. Defined.

(** [file] is the content of the file and [name] whether it still has one. *)
Record pipe : Type := mkPipe {
  file : list ascii;
  name : bool;
  w_open : bool;
  wcursor : cursor;
  rcursor : cursor;
  wnotifier : nat;
}.

Definition with_wcursor (f : cursor -> cursor) (p : pipe) : pipe :=
  mkPipe (file p) (name p) (w_open p) (f (wcursor p)) (rcursor p) (wnotifier p).
Definition with_rcursor (f : cursor -> cursor) (p : pipe) : pipe :=
  mkPipe (file p) (name p) (w_open p) (wcursor p) (f (rcursor p)) (wnotifier p).
Definition with_file (f : list ascii -> list ascii) (p : pipe) : pipe :=
  mkPipe (f (file p)) (name p) (w_open p) (wcursor p) (rcursor p) (wnotifier p).

(** [opens] is whether the operating system opens the file if it is there. *)
Definition OpenReader (opens : bool) (p : pipe) : out PipeError (nat * pipe) :=
  if doneChan (wcursor p) && negb (doneChan (rcursor p)) then Err errWrongCloseOrder
  else if negb (name p && opens) then Err errOpen
  else let (n, c) := Subscribe (wcursor p) in Ok (n, with_wcursor (fun _ => c) p).

(** A new pipe on a new file. *)
Definition newPipe (opens : bool) : out PipeError (nat * pipe) :=
  let (n, r) := Subscribe newCursor in
  OpenReader opens (mkPipe [] true true newCursor r n).

Definition closeReader (n : nat) : pipe -> pipe := with_wcursor (Unsubscribe n).

(** [closes] is whether the operating system reports no error. *)
Definition Close (closes : bool) (p : pipe) : option PipeError * pipe :=
  let err := if w_open p && closes then None else Some errClose in
  let p := mkPipe (file p) (name p) false (wcursor p) (rcursor p) (wnotifier p) in
  if doneChan (rcursor p) then (Some errWriterAlreadyClosed, p)
  else if doneChan (wcursor p) then (Some errWrongCloseOrder, p)
  else (err, with_rcursor (Unsubscribe (wnotifier p)) p).

Definition RemoveFile (p : pipe) : pipe :=
  mkPipe (file p) false (w_open p) (wcursor p) (rcursor p) (wnotifier p).

(** ** The writer *)

(** Where the goroutine of runCreate stands: in the callback, in one of its calls of
    Write, in the call of Close, in the deferred one, or at its end. *)
Inductive WriterAt : Type :=
| WCreate
| WWait (b : list ascii)
| WCompare (b : list ascii) (w : Z)
| WSelect (b : list ascii)
| WFile (b : list ascii) (n : nat)
| WGrow (b : list ascii) (n : nat) (err : option PipeError)
| WSet (b : list ascii) (n : nat) (err : option PipeError) (target : Z)
| WSetLocked (b : list ascii) (n : nat) (err : option PipeError) (target : Z)
| WClose
| WDefer (err : option PipeError)
| WDone (err : option PipeError).

(** [accepted] is what the calls of Write reported as written so far, and [last] what
    the last one returned. *)
Record Writer : Type := mkWriter {
  w_at : WriterAt;
  accepted : list ascii;
  last : nat * option PipeError;
}.

Definition goto (a : WriterAt) (w : Writer) : Writer := mkWriter a (accepted w) (last w).

Definition returnWrite (b : list ascii) (n : nat) (err : option PipeError) (w : Writer) : Writer :=
  mkWriter WCreate (accepted w ++ take n b) (n, err).

(** What a step depends on besides the state: which ready case a select takes, and
    what the operating system does. *)
Inductive Transfer : Type :=
| Moved (k : nat)
| Interrupted
| Failed.

Record Input : Type := mkInput {
  preferDone : bool;
  transfer : Transfer;
}.

(** The end of runCreate after the callback: Close, and the deferred Close. *)
Definition runCreate (i : Input) (p : pipe) (w : Writer) : option (pipe * Writer) :=
  match w_at w with
  | WClose =>
    let (err, p') := Close (match transfer i with Moved _ => true | _ => false end) p in
    Some (p', goto (WDefer err) w)
  | WDefer err =>
    let (_, p') := Close (match transfer i with Moved _ => true | _ => false end) p in
    Some (p', goto (WDone err) w)
  | _ => None
  end.

(** Write, and then the end of runCreate; [None] means that the goroutine is blocked. *)
Definition advanceWriter (i : Input) (p : pipe) (w : Writer) : option (pipe * Writer) :=
  match w_at w with
  | WCreate => None
  | WWait b => Some (p, goto (WCompare b (pos (wcursor p))) w)
  | WCompare b wpos =>
    Some (p, goto (if pos (rcursor p) <? wpos then WSelect b else WFile b 0) w)
  | WSelect b =>
    match receive (wnotifier p) (rcursor p) with
    | Some c =>
      if doneChan (wcursor p) && preferDone i
      then Some (p, returnWrite b 0 (Some errWrongCloseOrder) w)
      else Some (with_rcursor (fun _ => c) p, goto (WWait b) w)
    | None =>
      if doneChan (wcursor p) then Some (p, returnWrite b 0 (Some errWrongCloseOrder) w) else None
    end
  | WFile b n =>
    if negb (w_open p) then Some (p, goto (WGrow b n (Some errWrite)) w)
    else if decide (length b <= n)%nat then Some (p, goto (WGrow b n None) w)
    else match transfer i with
    | Moved k =>
      let chunk := take (S k) (drop n b) in
      Some (with_file (fun f => f ++ chunk) p, goto (WFile b (n + length chunk)) w)
    | Interrupted => Some (p, w)
    | Failed => Some (p, goto (WGrow b n (Some errWrite)) w)
    end
  | WGrow b n err => Some (p, goto (WSet b n err (pos (wcursor p) + Z.of_nat n)) w)
  | WSet b n err target =>
    if target <=? pos (wcursor p) then Some (p, returnWrite b n err w)
    else Some (p, goto (WSetLocked b n err target) w)
  | WSetLocked b n err target => Some (with_wcursor (setPosition target) p, returnWrite b n err w)
  | WClose | WDefer _ | WDone _ => runCreate i p w
  end.

(** ** Readers *)

Definition maxBytes : nat := Z.to_nat (Z.shiftl 4 20).
Definition copyBuffer : nat := Z.to_nat (32 * 1024).

(** A call of Read with a buffer of this length, a copy with sendfile that started
    at a position, and a copy by reads. *)
Inductive ReaderOp : Type :=
| OpRead (len : nat)
| OpSend (start : Z)
| OpCopy.

Inductive ReadError : Type := EOF | errRead.

Inductive ReaderAt : Type :=
| RIdle
| RWait (op : ReaderOp)
| RSelect (op : ReaderOp)
| RWaited (op : ReaderOp)
| RTransfer (op : ReaderOp) (readable : bool)
| RSet (op : ReaderOp) (n : nat) (err : option ReadError)
| RSetLocked (op : ReaderOp) (n : nat) (err : option ReadError)
| RClosed.

(** [received] is what was read so far and [sawEOF] whether the reader was told that
    this is everything. *)
Record pipeReader : Type := mkReader {
  r_at : ReaderAt;
  position : Z;
  received : list ascii;
  sawEOF : bool;
}.

Definition rgoto (a : ReaderAt) (r : pipeReader) : pipeReader := mkReader a (position r) (received r) (sawEOF r).

(** What the reader does with the result of a transfer. *)
Definition finish (op : ReaderOp) (err : option ReadError) (r : pipeReader) : pipeReader :=
  let eof := match err with Some EOF => true | _ => sawEOF r end in
  match op, err with
  | OpRead _, _ => mkReader RIdle (position r) (received r) eof
  | OpCopy, None => rgoto (RWait OpCopy) r
  | OpCopy, Some _ => mkReader RIdle (position r) (received r) eof
  | OpSend start, None => rgoto (RWait (OpSend start)) r
  | OpSend start, Some EOF => mkReader RIdle (position r) (received r) eof
  | OpSend start, Some _ =>
    if start <? position r then rgoto RIdle r else rgoto (RWait OpCopy) r
  end.

(** A read of the file at the reader's position, with its advance. *)
Definition transferred (op : ReaderOp) (max : nat) (k : nat) (p : pipe) (r : pipeReader) : pipeReader :=
  let data := take (min max (S k)) (drop (Z.to_nat (position r)) (file p)) in
  mkReader (RSet op (length data) None) (position r + Z.of_nat (length data)) (received r ++ data) (sawEOF r).

(** One round of the loop in waitReadable: the condition, and the select. *)
Definition waitReadable (i : Input) (n : nat) (p : pipe) (r : pipeReader) : option (pipe * pipeReader) :=
  match r_at r with
  | RWait op =>
    Some (p, rgoto (if pos (wcursor p) <=? position r then RSelect op else RWaited op) r)
  | RSelect op =>
    match receive n (wcursor p) with
    | Some c =>
      if doneChan (rcursor p) && preferDone i then Some (p, rgoto (RWaited op) r)
      else Some (with_wcursor (fun _ => c) p, rgoto (RWait op) r)
    | None => if doneChan (rcursor p) then Some (p, rgoto (RWaited op) r) else None
    end
  | RWaited op => Some (p, rgoto (RTransfer op (position r <? pos (wcursor p))) r)
  | _ => None
  end.

(** A round of sendfile after the wait; one that moves nothing is repeated. *)
Definition sendfile (t : Transfer) (start : Z) (readable : bool) (p : pipe) (r : pipeReader) : pipeReader :=
  if negb readable then finish (OpSend start) (Some EOF) r
  else match t with
  | Moved k =>
    if decide (length (file p) <= Z.to_nat (position r))%nat then rgoto (RWait (OpSend start)) r
    else transferred (OpSend start) maxBytes k p r
  | Interrupted => rgoto (RWait (OpSend start)) r
  | Failed => finish (OpSend start) (Some errRead) r
  end.

(** The read of the file after the wait. *)
Definition readFile (t : Transfer) (op : ReaderOp) (p : pipe) (r : pipeReader) : pipeReader :=
  let len := match op with OpRead len => len | _ => copyBuffer end in
  match t with
  | Moved k =>
    if decide (len = 0%nat \/ (Z.to_nat (position r) < length (file p))%nat)
    then transferred op len k p r
    else rgoto (RSet op 0 (Some EOF)) r
  | Interrupted => r
  | Failed => rgoto (RSet op 0 (Some errRead)) r
  end.

(** The next step of reader [n]. *)
Definition advanceReader (i : Input) (n : nat) (p : pipe) (r : pipeReader) : option (pipe * pipeReader) :=
  match r_at r with
  | RIdle | RClosed => None
  | RWait _ | RSelect _ | RWaited _ => waitReadable i n p r
  | RTransfer (OpSend start) readable => Some (p, sendfile (transfer i) start readable p r)
  | RTransfer op _ => Some (p, readFile (transfer i) op p r)
  | RSet op k err =>
    if position r <=? pos (rcursor p) then Some (p, finish op err r)
    else Some (p, rgoto (RSetLocked op k err) r)
  | RSetLocked op k err => Some (with_rcursor (setPosition (position r)) p, finish op err r)
  end.

(** ** All together *)

Record World : Type := mkWorld {
  the_pipe : pipe;
  writer : Writer;
  readers : list pipeReader;
}.

Definition newWriter : Writer := mkWriter WCreate [] (0%nat, None).
Definition newReader : pipeReader := mkReader RIdle 0 [] false.

(** The callback calls Write or ends; the writer goes on; a reader is opened, starts
    to read, goes on or is closed; the file is removed. *)
Inductive Event : Type :=
| EvWrite (b : list ascii)
| EvReturn
| EvFail (panics : bool)
| EvWriter (i : Input)
| EvOpen (opens : bool)
| EvRead (n : nat) (len : nat)
| EvWriteTo (n : nat) (rawConn : bool)
| EvReader (n : nat) (i : Input)
| EvStop (n : nat)
| EvClose (n : nat)
| EvRemove.

Definition setReader (n : nat) (r : pipeReader) (w : World) : World :=
  mkWorld (the_pipe w) (writer w) (<[n := r]> (readers w)).

Definition inCreate (a : WriterAt) (w : World) : option World :=
  match w_at (writer w) with
  | WCreate => Some (mkWorld (the_pipe w) (goto a (writer w)) (readers w))
  | _ => None
  end.

Definition startReader (n : nat) (op : pipeReader -> ReaderOp) (w : World) : option World :=
  match readers w !! n with
  | Some r => match r_at r with
              | RIdle => Some (setReader n (rgoto (RWait (op r)) r) w)
              | _ => None
              end
  | None => None
  end.

(** [EvStop] is a failing destination of a copy. *)
Definition step (e : Event) (w : World) : option World :=
  match e with
  | EvWrite b => inCreate (WWait b) w
  | EvReturn => inCreate WClose w
  | EvFail panics => inCreate (WDefer (Some (if panics then errPanic else errCreate))) w
  | EvWriter i =>
    '(p, wr) ← advanceWriter i (the_pipe w) (writer w); Some (mkWorld p wr (readers w))
  | EvOpen opens =>
    match OpenReader opens (the_pipe w) with
    | Ok (n, p) => Some (mkWorld p (writer w) (readers w ++ [newReader]))
    | _ => Some w
    end
  | EvRead n len => startReader n (fun _ => OpRead len) w
  | EvWriteTo n rawConn => startReader n (fun r => if rawConn then OpSend (position r) else OpCopy) w
  | EvReader n i =>
    r ← readers w !! n;
    '(p, r') ← advanceReader i n (the_pipe w) r; Some (mkWorld p (writer w) (<[n := r']> (readers w)))
  | EvStop n =>
    r ← readers w !! n;
    match r_at r with
    | RWait OpCopy => Some (setReader n (rgoto RIdle r) w)
    | _ => None
    end
  | EvClose n =>
    r ← readers w !! n;
    match r_at r with
    | RIdle | RClosed =>
      Some (mkWorld (closeReader n (the_pipe w)) (writer w) (<[n := rgoto RClosed r]> (readers w)))
    | _ => None
    end
  | EvRemove => Some (mkWorld (RemoveFile (the_pipe w)) (writer w) (readers w))
  end.

Fixpoint run (es : list Event) (w : World) : option World :=
  match es with
  | [] => Some w
  | e :: es => w' ← step e w; run es w'
  end.

Definition start : option World :=
  match newPipe true with
  | Ok (n, p) => Some (mkWorld p newWriter [newReader])
  | _ => None
  end.

Definition reachable (w : World) : Prop := exists es w0, start = Some w0 /\ run es w0 = Some w.

(** ** Cursor lemmas *)

Lemma Notify_all subs c :
  foldl (fun c n => Notify n c) c subs =
  mkCursor (pos c) (subscribers c) (list_to_set subs ∪ notified c) (doneChan c) (notifiers c).
Proof.
  revert c. induction subs as [|n subs IH]; intros c; cbn [foldl].
  - destruct c; cbn. f_equal. set_solver.
  - rewrite IH. cbn. f_equal. set_solver.
Qed.

Lemma setPosition_eq p c :
  setPosition p c =
  mkCursor (Z.max p (pos c)) (subscribers c)
    (if p <=? pos c then notified c else list_to_set (subscribers c) ∪ notified c) (doneChan c) (notifiers c).
Proof.
  unfold setPosition. destruct (Z.leb_spec p (pos c)).
  - rewrite Z.max_r by lia. by destruct c.
  - rewrite Notify_all. cbn. by rewrite Z.max_l by lia.
Qed.

Lemma elem_of_removeFirst x n l : NoDup l -> x ∈ removeFirst n l <-> x ∈ l /\ x ≠ n.
Proof.
  induction 1 as [|y l Hy Hl IH]; cbn [removeFirst]; [set_solver|].
  case_decide as Hyn; [subst; set_solver|]. rewrite !elem_of_cons, IH. set_solver.
Qed.

Lemma NoDup_removeFirst n l : NoDup l -> NoDup (removeFirst n l).
Proof.
  induction 1 as [|y l Hy Hl IH]; cbn [removeFirst]; [constructor|].
  case_decide; [done|]. constructor; [|done]. rewrite elem_of_removeFirst by done. by intros [? _].
Qed.

(** ** What holds of the writer *)

(** Bytes in the file that the write cursor does not show yet. *)
Definition unannounced (a : WriterAt) : nat :=
  match a with
  | WFile _ n | WGrow _ n _ | WSet _ n _ _ | WSetLocked _ n _ _ => n
  | _ => 0
  end.

Definition underWay (a : WriterAt) : list ascii :=
  match a with
  | WFile b n | WGrow b n _ | WSet b n _ _ | WSetLocked b n _ _ => take n b
  | _ => []
  end.

Definition mayClose (a : WriterAt) : bool :=
  match a with WDefer _ | WDone _ => true | _ => false end.

Record writer_ok (p : pipe) (w : Writer) : Prop := {
  wo_pos : 0 <= pos (wcursor p) /\ pos (wcursor p) + Z.of_nat (unannounced (w_at w)) = Z.of_nat (length (file p));
  wo_file : file p = accepted w ++ underWay (w_at w) /\ length (underWay (w_at w)) = unannounced (w_at w);
  wo_compare : forall b wpos, w_at w = WCompare b wpos -> wpos = pos (wcursor p);
  wo_select : forall b, w_at w = WSelect b ->
    pos (rcursor p) < pos (wcursor p) \/ wnotifier p ∈ notified (rcursor p);
  wo_pressure : forall b n, w_at w = WFile b n -> pos (wcursor p) <= pos (rcursor p);
  wo_target : forall b n err t, w_at w = WSet b n err t \/ w_at w = WSetLocked b n err t -> t = Z.of_nat (length (file p));
  wo_subscribed : doneChan (rcursor p) = false -> subscribers (rcursor p) = [wnotifier p];
  wo_closed : doneChan (rcursor p) = true -> mayClose (w_at w) = true;
  wo_success : w_at w = WDefer None \/ w_at w = WDone None -> doneChan (rcursor p) = true;
  wo_finished : forall err, w_at w = WDone err -> doneChan (rcursor p) = true \/ doneChan (wcursor p) = true;
}.

(** What others may do to a pipe while the writer runs. *)
Record writer_rely (p p' : pipe) : Prop := {
  wr_file : file p' = file p;
  wr_pos : pos (wcursor p') = pos (wcursor p);
  wr_rpos : pos (rcursor p) <= pos (rcursor p');
  wr_notifier : wnotifier p' = wnotifier p;
  wr_token : wnotifier p ∈ notified (rcursor p) -> wnotifier p ∈ notified (rcursor p');
  wr_notify : pos (rcursor p) < pos (rcursor p') -> forall n, n ∈ subscribers (rcursor p) -> n ∈ notified (rcursor p');
  wr_subs : subscribers (rcursor p') = subscribers (rcursor p);
  wr_done : doneChan (rcursor p') = doneChan (rcursor p);
  wr_wdone : doneChan (wcursor p) = true -> doneChan (wcursor p') = true;
}.

Lemma writer_ok_stable p p' w : writer_rely p p' -> writer_ok p w -> writer_ok p' w.
Proof.
  intros [Hf Hp Hr Hn Ht Hno Hs Hd Hw] [H1 H2 H3 H4 H5 H6 H7 H8 H9 H10].
  constructor; rewrite ?Hf, ?Hp, ?Hn, ?Hs, ?Hd; try done.
  - intros b Hb. destruct (H4 b Hb) as [Hlt|Hin]; [|by right; apply Ht].
    destruct (decide (pos (rcursor p) < pos (rcursor p'))) as [Hg|Hg]; [|left; lia].
    right. apply Hno; [done|]. destruct (doneChan (rcursor p)) eqn:Hdone; [|rewrite H7 by done; set_solver].
    specialize (H8 eq_refl). by rewrite Hb in H8.
  - intros b n Hb. specialize (H5 b n Hb). lia.
  - intros err He. destruct (H10 err He); auto.
Qed.

(** ** What holds of a reader *)

Definition isSetting (a : ReaderAt) : bool :=
  match a with RSet _ _ _ | RSetLocked _ _ _ => true | _ => false end.

Definition eofUnderWay (a : ReaderAt) : bool :=
  match a with RSet _ _ (Some EOF) | RSetLocked _ _ (Some EOF) => true | _ => false end.

Record reader_ok (p : pipe) (n : nat) (r : pipeReader) : Prop := {
  ro_received : received r = take (Z.to_nat (position r)) (file p);
  ro_position : 0 <= position r <= Z.of_nat (length (file p));
  ro_rcursor : isSetting (r_at r) = false -> position r <= pos (rcursor p);
  ro_select : forall op, r_at r = RSelect op -> pos (wcursor p) <= position r \/ n ∈ notified (wcursor p);
  ro_waited : forall op, r_at r = RWaited op \/ (exists b, r_at r = RTransfer op b) ->
    position r < pos (wcursor p) \/ doneChan (rcursor p) = true;
  ro_readable : forall op b, r_at r = RTransfer op b ->
    if b then position r < pos (wcursor p) else doneChan (rcursor p) = true /\ pos (wcursor p) <= position r;
  ro_eof : sawEOF r = true \/ eofUnderWay (r_at r) = true ->
    doneChan (rcursor p) = true /\ Z.of_nat (length (file p)) = position r;
  ro_subscribed : r_at r ≠ RClosed -> n ∈ subscribers (wcursor p);
}.

Record reader_rely (n : nat) (p p' : pipe) : Prop := {
  rr_file : file p `prefix_of` file p';
  rr_pos : pos (wcursor p) <= pos (wcursor p');
  rr_rpos : pos (rcursor p) <= pos (rcursor p');
  rr_done : doneChan (rcursor p) = true -> doneChan (rcursor p') = true /\ file p' = file p /\ pos (wcursor p') = pos (wcursor p);
  rr_token : n ∈ notified (wcursor p) -> n ∈ notified (wcursor p');
  rr_notify : pos (wcursor p) < pos (wcursor p') -> n ∈ subscribers (wcursor p) -> n ∈ notified (wcursor p');
  rr_subs : n ∈ subscribers (wcursor p) -> n ∈ subscribers (wcursor p');
}.

Lemma reader_ok_stable p p' n r : reader_rely n p p' -> reader_ok p n r -> reader_ok p' n r.
Proof.
  intros [[rest Hf] Hp Hr Hd Ht Hno Hs] [H1 H2 H3 H4 H5 H6 H7 H8].
  assert (Hlen : Z.of_nat (length (file p)) <= Z.of_nat (length (file p'))) by (rewrite Hf, length_app; lia).
  constructor.
  - rewrite H1, Hf, take_app_le; [done|lia].
  - lia.
  - intros Ha. specialize (H3 Ha). lia.
  - intros op Ha. destruct (H4 op Ha) as [Hle|Hin]; [|auto].
    destruct (decide (pos (wcursor p) < pos (wcursor p'))); [|left; lia].
    right. apply Hno; [done|]. apply H8. by rewrite Ha.
  - intros op Ha. destruct (H5 op Ha) as [Hle|Hin]; [left; lia|]. destruct (Hd Hin). by right.
  - intros op b Ha. specialize (H6 op b Ha). destruct b; [lia|]. destruct H6 as [Hin Hle]. destruct (Hd Hin) as (? & _ & ->). done.
  - intros Ha. destruct (H7 Ha) as [Hin Heq]. destruct (Hd Hin) as (? & -> & _). done.
  - auto.
Qed.

(** ** All together *)

Record inv (w : World) : Prop := {
  i_writer : writer_ok (the_pipe w) (writer w);
  i_readers : forall n r, readers w !! n = Some r -> reader_ok (the_pipe w) n r;
  i_rpos : 0 <= pos (rcursor (the_pipe w)) <= Z.of_nat (length (file (the_pipe w)));
  i_nodup : NoDup (subscribers (wcursor (the_pipe w)));
  i_subs : forall n, n ∈ subscribers (wcursor (the_pipe w)) ->
    exists r, readers w !! n = Some r /\ r_at r ≠ RClosed;
  i_count : notifiers (wcursor (the_pipe w)) = length (readers w);
  i_empty : subscribers (wcursor (the_pipe w)) = [] -> doneChan (wcursor (the_pipe w)) = true;
  i_done : doneChan (wcursor (the_pipe w)) = true -> doneChan (rcursor (the_pipe w)) = false ->
    subscribers (wcursor (the_pipe w)) = [];
}.

(** A pipe that is changed in its read cursor's position and its notifications, or in
    the notification of one reader, is as before for the others. *)
Definition quiet (n : nat) (p p' : pipe) : Prop :=
  file p' = file p /\ wnotifier p' = wnotifier p /\ rcursor p' = rcursor p /\
  pos (wcursor p') = pos (wcursor p) /\ subscribers (wcursor p') = subscribers (wcursor p) /\
  doneChan (wcursor p') = doneChan (wcursor p) /\ notifiers (wcursor p') = notifiers (wcursor p) /\
  notified (wcursor p) ∖ {[n]} ⊆ notified (wcursor p').

Definition read_on (p p' : pipe) : Prop :=
  file p' = file p /\ wnotifier p' = wnotifier p /\ wcursor p' = wcursor p /\
  pos (rcursor p) <= pos (rcursor p') <= Z.of_nat (length (file p)) /\ subscribers (rcursor p') = subscribers (rcursor p) /\
  doneChan (rcursor p') = doneChan (rcursor p) /\ notified (rcursor p) ⊆ notified (rcursor p') /\
  (pos (rcursor p) < pos (rcursor p') -> forall n, n ∈ subscribers (rcursor p) -> n ∈ notified (rcursor p')).

Lemma quiet_refl n p : quiet n p p.
Proof. unfold quiet. set_solver. Qed.

Lemma quiet_writer n p p' : quiet n p p' -> writer_rely p p'.
Proof.
  intros (Hf & Hn & Hr & Hp & Hs & Hd & _ & _). constructor; rewrite ?Hf, ?Hn, ?Hr, ?Hp, ?Hs, ?Hd; done || lia.
Qed.

Lemma quiet_reader n m p p' : n ≠ m -> quiet n p p' -> reader_rely m p p'.
Proof.
  intros Hne (Hf & Hn & Hr & Hp & Hs & Hd & _ & Ht).
  constructor; rewrite ?Hf, ?Hn, ?Hr, ?Hp, ?Hs, ?Hd; try done || lia. intros Hm. apply Ht. set_solver.
Qed.

Lemma read_on_writer p p' : read_on p p' -> writer_rely p p'.
Proof.
  intros (Hf & Hn & Hw & [Hr _] & Hs & Hd & Ht & Hno). constructor; rewrite ?Hf, ?Hn, ?Hw, ?Hs, ?Hd; set_solver.
Qed.

Lemma read_on_reader m p p' : read_on p p' -> reader_rely m p p'.
Proof.
  intros (Hf & Hn & Hw & [Hr _] & Hs & Hd & Ht & Hno).
  constructor; rewrite ?Hf, ?Hn, ?Hw, ?Hs, ?Hd; try done || lia.
Qed.

(** *** Steps of readers *)

(** What holds of a reader between two steps of a loop. *)
Definition reader_base (p : pipe) (n : nat) (r : pipeReader) : Prop :=
  received r = take (Z.to_nat (position r)) (file p) /\ 0 <= position r <= Z.of_nat (length (file p)) /\
  position r <= pos (rcursor p) /\
  (sawEOF r = true -> doneChan (rcursor p) = true /\ Z.of_nat (length (file p)) = position r) /\
  n ∈ subscribers (wcursor p).

Lemma reader_base_of p n r : reader_ok p n r -> isSetting (r_at r) = false -> r_at r ≠ RClosed -> reader_base p n r.
Proof. intros [] ? ?. unfold reader_base. split_and!; auto; lia. Qed.

Lemma reader_ok_base p n r a :
  reader_base p n r -> a = RIdle \/ (exists op, a = RWait op) -> reader_ok p n (rgoto a r).
Proof.
  intros (H1 & H2 & H3 & H4 & H5) Ha.
  destruct Ha as [->|[op ->]]; constructor; cbn; try done; try (intros ? [?|[??]]; done); intros [?|?]; done || auto.
Qed.

Lemma finish_ok p n op err r :
  reader_base p n r ->
  (err = Some EOF -> doneChan (rcursor p) = true /\ Z.of_nat (length (file p)) = position r) ->
  reader_ok p n (finish op err r).
Proof.
  intros Hb Heof.
  assert (Hidle : reader_ok p n (mkReader RIdle (position r) (received r) match err with Some EOF => true | _ => sawEOF r end)).
  { destruct Hb as (H1 & H2 & H3 & H4 & H5).
    apply (reader_ok_base p n (mkReader RIdle (position r) (received r) _) RIdle); [|by left].
    unfold reader_base. cbn. split_and!; try done || lia. destruct err as [[]|]; auto. }
  unfold finish. destruct op, err as [[]|]; try exact Hidle; try (apply reader_ok_base; eauto; fail).
  destruct (_ <? _); apply reader_ok_base; eauto.
Qed.

Lemma finish_open op err r : r_at (finish op err r) ≠ RClosed.
Proof. unfold finish. destruct op, err as [[]|]; try done. by destruct (_ <? _). Qed.

(** The same reader at another place. *)
Ltac solve_reader :=
  constructor; cbn; try done; try lia;
  try (intros ? [?|[??]]; simplify_eq; done || lia || auto);
  try (intros ? ? [=]; subst; done || lia || auto); try (intros ? [=]; subst; done || lia || auto);
  try (intros [?|?]; done || lia || auto); auto.

Lemma take_own_length {A} n (l : list A) : take n l = take (length (take n l)) l.
Proof. revert l. induction n as [|n IH]; intros [|x l]; cbn; [done..|]. by f_equal. Qed.

Lemma transferred_ok p n op max k r :
  reader_base p n r -> reader_ok p n (transferred op max k p r).
Proof.
  intros (H1 & H2 & H3 & H4 & H5). unfold transferred.
  set (data := take _ _).
  assert (Hdata : data = take (length data) (drop (Z.to_nat (position r)) (file p))) by apply take_own_length.
  assert (Hlen : (length data <= length (file p) - Z.to_nat (position r))%nat).
  { unfold data. rewrite length_take, length_drop. lia. }
  constructor; cbn; try done; try lia; try (intros ? [?|[??]]; done).
  - replace (Z.to_nat (position r + Z.of_nat (length data))) with (Z.to_nat (position r) + length data)%nat by lia.
    rewrite H1, Hdata at 1. apply take_take_drop.
  - intros [He|He]; [|done]. destruct (H4 He) as [Hd Heq]. split; [done|]. lia.
Qed.

Lemma closed_complete p w : writer_ok p w -> doneChan (rcursor p) = true -> pos (wcursor p) = Z.of_nat (length (file p)).
Proof.
  intros [[_ H] _ _ _ _ _ _ Hc _ _] Hd. specialize (Hc Hd). destruct (w_at w); cbn in *; done || lia.
Qed.

Lemma receive_quiet n c c' p :
  receive n c = Some c' -> wcursor p = c -> quiet n p (with_wcursor (fun _ => c') p).
Proof. unfold receive. case_decide; [|done]. intros [= <-] <-. unfold quiet. cbn. set_solver. Qed.

Lemma transfer_step i n p w r op readable p' r' :
  writer_ok p w -> reader_ok p n r -> r_at r = RTransfer op readable -> advanceReader i n p r = Some (p', r') ->
  p' = p /\ reader_ok p n r' /\ r_at r' ≠ RClosed.
Proof.
  intros Hw Hr Hat. pose proof (closed_complete _ _ Hw) as Hcc. pose proof (reader_base_of _ _ _ Hr) as Hb.
  pose proof Hr as [H1 H2 H3 H4 H5 H6 H7 H8]. unfold advanceReader, waitReadable, sendfile, readFile. rewrite Hat in *. cbn in Hb.
  assert (Hsame : forall r'', reader_ok p n r'' -> r_at r'' ≠ RClosed -> p = p /\ reader_ok p n r'' /\ r_at r'' ≠ RClosed) by done.
  assert (Hbase : reader_base p n r) by by apply Hb.
  specialize (H5 op (or_intror (ex_intro _ readable eq_refl))). specialize (H6 op readable eq_refl).
  assert (Heof : (length (file p) <= Z.to_nat (position r))%nat -> doneChan (rcursor p) = true /\ Z.of_nat (length (file p)) = position r).
  { intros Hle. destruct Hw as [[_ Hwp] _ _ _ _ _ _ _ _ _]. split; [|lia]. destruct H5 as [H5|]; [lia|done]. }
  destruct op as [len|s|].
  - destruct (transfer i) as [k| |]; [case_decide as Hlen|..]; intros [= <- <-]; apply Hsame; try done; try (by rewrite Hat);
      [by apply transferred_ok|solve_reader; apply Heof; lia|solve_reader].
  - destruct readable; cbn [negb].
    + destruct (transfer i) as [k| |]; [case_decide as Hlen|..]; intros [= <- <-]; apply Hsame; try done; try (apply (finish_open (OpSend s) (Some errRead)));
        try (apply reader_ok_base; eauto; fail); [by apply transferred_ok|by apply (finish_ok p n (OpSend s) (Some errRead))].
    + intros [= <- <-]. apply Hsame; [|done]. apply (finish_ok p n (OpSend s) (Some EOF)); [done|]. intros _. split; [apply H6|]. destruct H6 as [Hd Hle].
      specialize (Hcc Hd). lia.
  - destruct (transfer i) as [k| |]; [case_decide as Hlen|..]; intros [= <- <-]; apply Hsame; try done; try (by rewrite Hat);
      [by apply transferred_ok|solve_reader; apply Heof; lia|solve_reader].
Qed.

Lemma reader_step i n p w r p' r' :
  writer_ok p w -> pos (rcursor p) <= Z.of_nat (length (file p)) -> reader_ok p n r -> advanceReader i n p r = Some (p', r') ->
  reader_ok p' n r' /\ (quiet n p p' \/ read_on p p') /\ r_at r' ≠ RClosed /\ r_at r ≠ RClosed.
Proof.
  intros Hw Hrp Hr. pose proof (closed_complete _ _ Hw) as Hcc. pose proof (reader_base_of _ _ _ Hr) as Hb.
  pose proof Hr as [H1 H2 H3 H4 H5 H6 H7 H8]. unfold advanceReader, waitReadable, sendfile, readFile.
  destruct (r_at r) as [|op|op|op|op readable|op k err|op k err|] eqn:Hat; [done|..|done]; cbn in Hb.
  - intros [= <- <-]. split_and!; [|left; apply quiet_refl|by destruct (_ <=? _)|done].
    destruct (Z.leb_spec (pos (wcursor p)) (position r)); solve_reader.
  - destruct (receive n (wcursor p)) as [c|] eqn:Hc.
    + destruct (_ && _) eqn:Hd; intros [= <- <-].
      * apply andb_prop in Hd as [Hd _]. split_and!; [|left; apply quiet_refl|done..]. solve_reader.
      * split_and!; [|left; by eapply receive_quiet|done..]. unfold receive in Hc. case_decide; [|done]. injection Hc as <-.
        apply reader_ok_base; [|eauto]. by apply Hb.
    + destruct (doneChan (rcursor p)) eqn:Hd in |- *; [|done]. intros [= <- <-].
      split_and!; [|left; apply quiet_refl|done..]. solve_reader.
  - intros [= <- <-]. split_and!; [|left; apply quiet_refl|done..]. specialize (H5 op (or_introl eq_refl)).
    destruct (Z.ltb_spec (position r) (pos (wcursor p))); solve_reader.
    split; [|lia]. destruct H5; [lia|done].
  - intros Ha. assert (Hstep : advanceReader i n p r = Some (p', r')) by (unfold advanceReader, sendfile, readFile; by rewrite Hat).
    destruct (transfer_step _ _ _ _ _ _ _ _ _ Hw Hr Hat Hstep) as (-> & ? & ?). split_and!; [done|left; apply quiet_refl|done..].
  - destruct (Z.leb_spec (position r) (pos (rcursor p))); intros [= <- <-].
    + split_and!; [|left; apply quiet_refl|apply finish_open|done]. apply finish_ok.
      * unfold reader_base. split_and!; auto; lia.
      * intros ->. apply H7. by right.
    + split_and!; [|left; apply quiet_refl|done..]. solve_reader.
  - intros [= <- <-]. split_and!; [|right|apply finish_open|done].
    + apply finish_ok.
      * unfold reader_base. cbn. rewrite setPosition_eq. cbn. split_and!; auto; lia.
      * cbn. rewrite setPosition_eq. cbn. intros ->. apply H7. by right.
    + unfold read_on. cbn. rewrite setPosition_eq. cbn. split_and!; try done; try lia.
      * destruct (position r <=? pos (rcursor p)); set_solver.
      * intros Hlt m Hm. destruct (Z.leb_spec (position r) (pos (rcursor p))); [lia|]. set_solver.
Qed.

(** *** Steps of the writer *)

Record writer_effect (p p' : pipe) : Prop := {
  we_rely : forall n, reader_rely n p p';
  we_subs : subscribers (wcursor p') = subscribers (wcursor p);
  we_count : notifiers (wcursor p') = notifiers (wcursor p);
  we_wdone : doneChan (wcursor p') = doneChan (wcursor p);
  we_rpos : pos (rcursor p') = pos (rcursor p);
}.

Lemma reader_rely_refl n p : reader_rely n p p.
Proof. constructor; try done || lia. Qed.

Lemma writer_effect_refl p : writer_effect p p.
Proof. constructor; try done. intros. apply reader_rely_refl. Qed.

Lemma writer_effect_rcursor p c :
  pos c = pos (rcursor p) -> (doneChan (rcursor p) = true -> doneChan c = true) ->
  writer_effect p (with_rcursor (fun _ => c) p).
Proof. intros Hp Hd. constructor; cbn; try done. intros n. constructor; cbn; try done || lia. auto. Qed.

Lemma writer_effect_write p chunk : doneChan (rcursor p) = false -> writer_effect p (with_file (fun f => f ++ chunk) p).
Proof.
  intros Hd. constructor; cbn; try done. intros n. constructor; cbn; try done || lia.
  - by apply prefix_app_r.
  - by rewrite Hd.
Qed.

Lemma writer_effect_grow p t : doneChan (rcursor p) = false -> writer_effect p (with_wcursor (setPosition t) p).
Proof.
  intros Hd. constructor; cbn; rewrite ?setPosition_eq; cbn; try done. intros n.
  constructor; cbn; rewrite ?setPosition_eq; cbn; try done || lia.
  - by rewrite Hd.
  - destruct (_ <=? _); set_solver.
  - intros Hlt Hn. destruct (Z.leb_spec t (pos (wcursor p))); [lia|set_solver].
Qed.

Lemma Close_effect closes p err p' :
  (doneChan (rcursor p) = false -> subscribers (rcursor p) = [wnotifier p]) -> Close closes p = (err, p') ->
  writer_effect p p' /\ file p' = file p /\ wcursor p' = wcursor p /\
  (doneChan (rcursor p') = true \/ doneChan (wcursor p') = true) /\
  (err = None -> doneChan (rcursor p') = true) /\
  (doneChan (rcursor p') = false -> subscribers (rcursor p') = [wnotifier p']).
Proof.
  intros Hs. unfold Close.
  set (p1 := mkPipe (file p) (name p) false (wcursor p) (rcursor p) (wnotifier p)).
  assert (Heff : writer_effect p p1) by (constructor; try done; intros n; constructor; cbn; try done || lia).
  cbn [doneChan rcursor wcursor p1]. destruct (doneChan (rcursor p)) eqn:Hr; [|destruct (doneChan (wcursor p)) eqn:Hw].
  - intros [= <- <-]. cbn. split_and!; try congruence; auto.
  - intros [= <- <-]. cbn. split_and!; try congruence; auto.
  - intros [= <- <-]. cbn. rewrite Hs, Hr by done. cbn. rewrite decide_True by done. cbn. split_and!; try done; [|by left].
    constructor; try done. intros n. constructor; cbn; try done || lia. by rewrite Hr.
Qed.

Ltac solve_writer :=
  constructor; cbn; try done; try lia;
  try (intros ? ? ? ? [[=]|[=]]; subst; done || lia || auto);
  try (intros ? ? [=]; subst; done || lia || auto); try (intros ? [=]; subst; done || lia || auto);
  try (intros [?|?]; done || lia || auto); auto.

Lemma returnWrite_ok p w b n err :
  writer_ok p w -> doneChan (rcursor p) = false ->
  underWay (w_at w) = take n b -> pos (wcursor p) = Z.of_nat (length (file p)) -> writer_ok p (returnWrite b n err w).
Proof.
  intros [H1 H2 H3 H4 H5 H6 H7 H8 H9 H10] Hd Hu Hp. constructor; cbn; try done; try lia; try (intros ? ? ? ? [?|?]; done);
    try (intros [?|?]; done); [|congruence].
  rewrite app_nil_r. split; [|done]. destruct H2 as [-> _]. by rewrite Hu.
Qed.

Lemma Close_ok closes p w err p' a :
  writer_ok p w -> underWay (w_at w) = [] -> Close closes p = (err, p') ->
  (exists e, (a = WDefer e \/ a = WDone e) /\ (e = None -> err = None \/ doneChan (rcursor p) = true)) ->
  writer_ok p' (goto a w) /\ writer_effect p p'.
Proof.
  intros [H1 H2 H3 H4 H5 H6 H7 H8 H9 H10] Hu Hc Ha. destruct (Close_effect _ _ _ _ H7 Hc) as (He & Hf & Hwc & Hd & Hok & Hs).
  split; [|done]. destruct H2 as [Hfile Hlen]. rewrite Hu in Hfile, Hlen. cbn in Hlen.
  pose proof (rr_done _ _ _ (we_rely _ _ He 0%nat)) as Hdone. destruct Ha as (e & Ha & Hnone).
  assert (Hun : unannounced a = 0%nat /\ underWay a = [] /\ mayClose a = true) by by destruct Ha as [->| ->].
  destruct Hun as (Hun & Hun' & Hmc). constructor; cbn; rewrite ?Hun, ?Hun', ?Hf, ?Hwc; try done; try lia.
  - intros; by destruct Ha as [->| ->].
  - intros; by destruct Ha as [->| ->].
  - intros; by destruct Ha as [->| ->].
  - intros ? ? ? ? [?|?]; by destruct Ha as [->| ->].
  - intros Hsucc. assert (e = None) as -> by (destruct Ha as [->| ->], Hsucc; congruence).
    destruct (Hnone eq_refl) as [->|Hr]; [by apply Hok|by apply Hdone].
  - rewrite Hwc in Hd. intros _ _. exact Hd.
Qed.

Lemma writer_step i p w p' w' :
  writer_ok p w -> advanceWriter i p w = Some (p', w') -> writer_ok p' w' /\ writer_effect p p'.
Proof.
  intros Hw. pose proof Hw as [H1 H2 H3 H4 H5 H6 H7 H8 H9 H10]. unfold advanceWriter, runCreate.
  assert (Hopen : mayClose (w_at w) = false -> doneChan (rcursor p) = false).
  { destruct (doneChan (rcursor p)); [|done]. rewrite H8 by done. done. }
  destruct (w_at w) as [|b|b wpos|b|b n|b n err|b n err t|b n err t| |err|err] eqn:Hat; try done; cbn in *;
    try specialize (Hopen eq_refl).
  - intros [= <- <-]. split; [|apply writer_effect_refl]. solve_writer.
  - intros [= <- <-]. split; [|apply writer_effect_refl]. specialize (H3 _ _ eq_refl).
    destruct (Z.ltb_spec (pos (rcursor p)) wpos); solve_writer.
  - assert (Hret : writer_ok p (returnWrite b 0 (Some errWrongCloseOrder) w)) by (apply returnWrite_ok; rewrite ?Hat; try done; lia).
    destruct (receive (wnotifier p) (rcursor p)) as [c|] eqn:Hc.
    + destruct (_ && _); intros [= <- <-]; [split; [done|apply writer_effect_refl]|].
      unfold receive in Hc. case_decide; [|done]. injection Hc as <-. split; [|by apply writer_effect_rcursor]. solve_writer.
    + destruct (doneChan (wcursor p)); [|done]. intros [= <- <-]. split; [done|apply writer_effect_refl].
  - destruct H2 as [Hfile Hlen]. assert (Hn : (n <= length b)%nat) by (rewrite length_take in Hlen; lia).
    assert (Hgrow : forall err, writer_ok p (goto (WGrow b n err) w)) by (intros err; solve_writer).
    destruct (negb (w_open p)); [intros [= <- <-]; split; [done|apply writer_effect_refl]|].
    case_decide; [intros [= <- <-]; split; [done|apply writer_effect_refl]|].
    destruct (transfer i) as [k| |]; intros [= <- <-]; [|split; [done|apply writer_effect_refl]..].
    split; [|by apply writer_effect_write].
    set (chunk := take (S k) (drop n b)).
    assert (Htake : take (n + length chunk) b = take n b ++ chunk).
    { unfold chunk. rewrite (take_own_length (S k) (drop n b)) at 2. symmetry. apply take_take_drop. }
    solve_writer.
    + rewrite length_app. lia.
    + rewrite Htake, length_app, Hlen, Hfile, <- app_assoc. done.
    + exact (H5 _ _ eq_refl).
  - intros [= <- <-]. split; [|apply writer_effect_refl]. solve_writer.
  - specialize (H6 b n err t (or_introl eq_refl)). destruct (Z.leb_spec t (pos (wcursor p))); intros [= <- <-].
    + split; [|apply writer_effect_refl]. apply returnWrite_ok; rewrite ?Hat; try done. lia.
    + split; [|apply writer_effect_refl]. solve_writer.
  - specialize (H6 b n err t (or_intror eq_refl)). intros [= <- <-]. split; [|by apply writer_effect_grow].
    constructor; cbn; rewrite ?setPosition_eq; cbn; try done; try lia; try (intros ? ? ? ? [?|?]; done); try (intros [?|?]; done); try congruence.
    rewrite app_nil_r. split; [apply H2|done].
  - destruct (Close _ p) as [err p1] eqn:Hc. intros [= <- <-]. eapply Close_ok; rewrite ?Hat; eauto.
  - destruct (Close _ p) as [err' p1] eqn:Hc. intros [= <- <-]. eapply Close_ok; rewrite ?Hat; eauto.
    exists err. split; [by right|]. intros ->. right. auto.
Qed.

(** *** Steps of the world *)

Lemma inv_reader w n r r' p' :
  inv w -> readers w !! n = Some r -> reader_ok p' n r' ->
  quiet n (the_pipe w) p' \/ read_on (the_pipe w) p' -> r_at r' ≠ RClosed -> r_at r ≠ RClosed ->
  inv (mkWorld p' (writer w) (<[n := r']> (readers w))).
Proof.
  intros [H1 H2 H3 H4 H5 H6 H7 H8] Hn Hok Hq Ho' Ho.
  assert (Hw : writer_rely (the_pipe w) p') by (destruct Hq; eauto using quiet_writer, read_on_writer).
  assert (Hrest : subscribers (wcursor p') = subscribers (wcursor (the_pipe w)) /\
    notifiers (wcursor p') = notifiers (wcursor (the_pipe w)) /\ doneChan (wcursor p') = doneChan (wcursor (the_pipe w)) /\
    0 <= pos (rcursor p') <= Z.of_nat (length (file p'))).
  { destruct Hq as [(-> & _ & -> & _ & -> & -> & -> & _)|(-> & _ & -> & [??] & _)]; split_and!; done || lia. }
  destruct Hrest as (Hs & Hc & Hd & Hrp). constructor; cbn; rewrite ?Hs, ?Hc, ?Hd, ?length_insert; try done.
  - by eapply writer_ok_stable.
  - intros m rm Hm. destruct (decide (m = n)) as [->|Hne].
    + rewrite list_lookup_insert_eq in Hm by by eapply lookup_lt_Some. by injection Hm as <-.
    + rewrite list_lookup_insert_ne in Hm by done. eapply reader_ok_stable; [|by apply H2].
      destruct Hq; [by eapply quiet_reader|by eapply read_on_reader].
  - intros m Hm. destruct (H5 m Hm) as (rm & Hrm & Hopen). destruct (decide (m = n)) as [->|Hne].
    + exists r'. split; [|done]. rewrite list_lookup_insert_eq; [done|by eapply lookup_lt_Some].
    + exists rm. by rewrite list_lookup_insert_ne.
  - intros Hdone Hr. apply H8; [done|]. by rewrite <- (wr_done _ _ Hw).
Qed.

Lemma inv_writer w p' wr' :
  inv w -> writer_ok p' wr' -> writer_effect (the_pipe w) p' -> inv (mkWorld p' wr' (readers w)).
Proof.
  intros [H1 H2 H3 H4 H5 H6 H7 H8] Hok [Hr Hs Hc Hd Hrp]. constructor; cbn; rewrite ?Hs, ?Hc, ?Hd, ?Hrp; try done.
  - intros n r Hn. eapply reader_ok_stable; [apply Hr|by apply H2].
  - pose proof (prefix_length _ _ (rr_file _ _ _ (Hr 0%nat))). lia.
  - intros Hdone Hro. apply H8; [done|]. destruct (doneChan (rcursor (the_pipe w))) eqn:Hd'; [|done].
    by rewrite (proj1 (rr_done _ _ _ (Hr 0%nat) Hd')) in Hro.
Qed.

Lemma inv_create w a w' :
  inv w -> inCreate a w = Some w' ->
  (exists b, a = WWait b) \/ a = WClose \/ (exists e, a = WDefer (Some e)) -> inv w'.
Proof.
  intros Hi. unfold inCreate. destruct (w_at (writer w)) eqn:Hat; try done. intros [= <-] Ha.
  apply inv_writer; [done| |apply writer_effect_refl].
  destruct (i_writer w Hi) as [H1 H2 H3 H4 H5 H6 H7 H8 H9 H10]. rewrite Hat in *. cbn in *.
  destruct Ha as [[b ->]|[->|[e ->]]]; solve_writer.
Qed.

Lemma inv_start_reader w n op w' : inv w -> startReader n op w = Some w' -> inv w'.
Proof.
  intros Hi. unfold startReader. destruct (readers w !! n) as [r|] eqn:Hn; [|done]. destruct (r_at r) eqn:Hat; try done. intros [= <-].
  apply (inv_reader w n r); [done|done| |left; apply quiet_refl|done|by rewrite Hat].
  apply reader_ok_base; [|eauto]. apply reader_base_of; [by apply (i_readers w)|by rewrite Hat..].
Qed.

Lemma inv_open opens w n p :
  inv w -> OpenReader opens (the_pipe w) = Ok (n, p) -> n = length (readers w) /\ inv (mkWorld p (writer w) (readers w ++ [newReader])).
Proof.
  intros [H1 H2 H3 H4 H5 H6 H7 H8]. unfold OpenReader. destruct (doneChan (wcursor _) && _) eqn:Hdone; [done|]. destruct (negb (name _ && _)); [done|].
  cbn. intros [= <- <-]. rewrite H6. split; [done|].
  assert (Hfresh : length (readers w) ∉ subscribers (wcursor (the_pipe w))).
  { intros Hin. destruct (H5 _ Hin) as (r & Hr & _). apply lookup_lt_Some in Hr. lia. }
  constructor; cbn; try done.
  - eapply writer_ok_stable; [|done]. constructor; cbn; done || lia.
  - intros m r. rewrite lookup_app_Some. intros [Hm|[Hle Hm]].
    + eapply reader_ok_stable; [|by apply H2]. constructor; cbn; try done || lia. set_solver.
    + rewrite list_lookup_singleton_Some in Hm. destruct Hm as [Hm <-]. replace m with (length (readers w)) by lia.
      solve_reader. set_solver.
  - apply NoDup_app. split_and!; [done|set_solver|apply NoDup_singleton].
  - intros m. rewrite elem_of_app, list_elem_of_singleton. intros [Hm| ->].
    + destruct (H5 m Hm) as (r & Hr & Ho). exists r. split; [|done]. by apply lookup_app_l_Some.
    + exists newReader. by rewrite list_lookup_middle.
  - rewrite length_app. cbn. lia.
  - by intros [_ ?]%app_nil.
  - intros Hd Hr. by rewrite Hd, Hr in Hdone.
Qed.

Lemma inv_close w n r :
  inv w -> readers w !! n = Some r -> r_at r = RIdle \/ r_at r = RClosed ->
  inv (mkWorld (closeReader n (the_pipe w)) (writer w) (<[n := rgoto RClosed r]> (readers w))).
Proof.
  intros [H1 H2 H3 H4 H5 H6 H7 H8] Hn Hat. constructor; cbn; rewrite ?length_insert; try done.
  - eapply writer_ok_stable; [|done]. constructor; cbn; try done || lia. by intros ->.
  - intros m rm Hm. destruct (decide (m = n)) as [->|Hne].
    + rewrite list_lookup_insert_eq in Hm by by eapply lookup_lt_Some. injection Hm as <-.
      destruct (H2 n r Hn) as [R1 R2 R3 R4 R5 R6 R7 R8]. constructor; cbn; try done; try (by intros ? [?|[??]]).
      * intros _. apply R3. by destruct Hat as [->| ->].
      * intros [He|He]; [|done]. apply R7. by left.
    + rewrite list_lookup_insert_ne in Hm by done. eapply reader_ok_stable; [|by apply H2].
      constructor; cbn; try done || lia. rewrite elem_of_removeFirst by done. done.
  - by apply NoDup_removeFirst.
  - intros m. rewrite elem_of_removeFirst by done. intros [Hm Hne]. rewrite list_lookup_insert_ne by done. auto.
  - intros ->. by rewrite bool_decide_true, orb_true_r.
  - intros Hd Hr. apply orb_true_iff in Hd as [Hd|Hd]; [by rewrite H8|by apply bool_decide_eq_true in Hd].
Qed.

Lemma inv_remove w : inv w -> inv (mkWorld (RemoveFile (the_pipe w)) (writer w) (readers w)).
Proof.
  intros [H1 H2 H3 H4 H5 H6 H7 H8]. constructor; cbn; try done.
  - eapply writer_ok_stable; [|done]. constructor; cbn; done || lia.
  - intros n r Hn. eapply reader_ok_stable; [|by apply H2]. constructor; cbn; done || lia.
Qed.

Lemma pipe_step_inv e w w' : inv w -> step e w = Some w' -> inv w'.
Proof.
  intros Hi. destruct e as [b| |panics|i|opens|n len|n raw|n i|n|n|]; cbn [step].
  - intros H. eapply inv_create; eauto.
  - intros H. eapply inv_create; eauto.
  - intros H. eapply inv_create; [done|exact H|]. eauto.
  - destruct (advanceWriter _ _ _) as [[p wr]|] eqn:Ha; [|done]. intros [= <-].
    destruct (writer_step _ _ _ _ _ (i_writer w Hi) Ha). by apply inv_writer.
  - destruct (OpenReader _ _) as [[n p]| |] eqn:Ho; intros [= <-]; [|done..]. by eapply inv_open.
  - apply inv_start_reader; done.
  - apply inv_start_reader; done.
  - destruct (readers w !! n) as [r|] eqn:Hn; [|done]. cbn. destruct (advanceReader _ _ _ _) as [[p r']|] eqn:Ha; [|done]. intros [= <-].
    destruct (reader_step _ _ _ _ _ _ _ (i_writer w Hi) (proj2 (i_rpos w Hi)) (i_readers w Hi _ _ Hn) Ha) as (? & ? & ? & ?). by eapply inv_reader.
  - destruct (readers w !! n) as [r|] eqn:Hn; [|done]. cbn. destruct (r_at r) as [|[]| | | | | |] eqn:Hat; try done. intros [= <-].
    apply (inv_reader w n r); [done|done| |left; apply quiet_refl|done|by rewrite Hat].
    apply reader_ok_base; [|eauto]. apply reader_base_of; [by apply (i_readers w)|by rewrite Hat..].
  - destruct (readers w !! n) as [r|] eqn:Hn; [|done]. cbn. destruct (r_at r) eqn:Hat; try done; intros [= <-]; apply inv_close; auto.
  - intros [= <-]. by apply inv_remove.
Qed.

Lemma start_inv w : start = Some w -> inv w.
Proof.
  intros [= <-]. constructor; cbn; try done; try lia.
  - solve_writer.
  - intros [|n] r; [|done]. intros [= <-]. solve_reader. set_solver.
  - apply NoDup_singleton.
  - intros n. rewrite list_elem_of_singleton. intros ->. by exists newReader.
Qed.

Lemma pipe_run_inv es w w' : inv w -> run es w = Some w' -> inv w'.
Proof.
  revert w. induction es as [|e es IH]; intros w Hi; cbn [run]; [by intros [= <-]|].
  destruct (step e w) as [w1|] eqn:Hs; [|done]. cbn. apply IH. by eapply pipe_step_inv.
Qed.

Lemma pipe_reachable_inv w : reachable w -> inv w.
Proof. intros (es & w0 & H0 & Hr). eapply pipe_run_inv; [|done]. by apply start_inv. Qed.

(** ** Properties *)

(** The goroutine has nothing to do until others act; the callback's own time does
    not count. *)
Definition writerBlocked (w : World) : Prop :=
  (exists b, w_at (writer w) = WSelect b) /\ forall i, advanceWriter i (the_pipe w) (writer w) = None.

Definition readerBlocked (w : World) (n : nat) : Prop :=
  exists r op, readers w !! n = Some r /\ r_at r = RSelect op /\ forall i, advanceReader i n (the_pipe w) r = None.

(** The goroutine is on its way to end without an error. *)
Definition succeeding (a : WriterAt) : bool :=
  match a with WClose | WDefer None | WDone None => true | _ => false end.

Lemma advanceWriter_succeeding i p w p' w' :
  advanceWriter i p w = Some (p', w') -> succeeding (w_at w') = true -> succeeding (w_at w) = true.
Proof.
  unfold advanceWriter, runCreate. intros H Hs. destruct (w_at w) as [| | | | | | | | |[e|]|] eqn:Hat; repeat (case_match; simplify_eq/=; try done); simplify_eq/=; try done; try (by rewrite Hat in Hs); by destruct (_ <? _).
Qed.

Lemma run_returned es w w' :
  run es w = Some w' -> succeeding (w_at (writer w')) = true -> succeeding (w_at (writer w)) = true \/ EvReturn ∈ es.
Proof.
  revert w. induction es as [|e es IH]; intros w; cbn [run]; [intros [= <-]; by left|].
  destruct (step e w) as [w1|] eqn:Hs; [|done]. cbn. intros Hr Hsu. destruct (IH w1 Hr Hsu) as [Hw1|Hin]; [|by right; right].
  destruct ((ltac:(destruct e; first [by left|right; congruence]) : {e = EvReturn} + {e ≠ EvReturn})) as [->|Hne]; [by right; left|left].
  destruct e as [b| |panics|i|opens|n len|n raw|n i|n|n|]; cbn [step] in Hs; try done.
  all: try (unfold inCreate, startReader in Hs; repeat (case_match; simplify_eq/=; try done); fail).
  all: try (destruct (readers w !! n) as [r|]; [|done]; cbn in Hs).
  - destruct (advanceWriter _ _ _) as [[p wr]|] eqn:Ha; [|done]. injection Hs as <-. by eapply advanceWriter_succeeding.
  - destruct (advanceReader _ _ _ _) as [[p r']|]; [|done]. by injection Hs as <-.
  - destruct (r_at r) as [|[]| | | | | |]; try done. by injection Hs as <-.
  - destruct (r_at r); try done; by injection Hs as <-.
  - by injection Hs as <-.
Qed.

(** A reader that was told it is at the end has everything. *)
Lemma eof_complete w n r :
  inv w -> readers w !! n = Some r -> sawEOF r = true ->
  received r = accepted (writer w) /\ mayClose (w_at (writer w)) = true.
Proof.
  intros [Hw H2 _ _ _ _ _ _] Hn He. pose proof Hw as [_ [W2 _] _ _ _ _ _ W8 _ _].
  destruct (H2 n r Hn) as [R1 R2 _ _ _ _ R7 _]. destruct (R7 (or_introl He)) as [Hd Hlen]. specialize (W8 Hd). split; [|done].
  rewrite R1, take_ge by lia. rewrite W2. destruct (w_at (writer w)); cbn in *; try done; by rewrite app_nil_r.
Qed.

(** Every reader has received exactly the first bytes the callback wrote, however
    reads, writes, openings and closings interleave and in whatever pieces the
    operating system moves the data. If it was told that it is at the end, the writer
    is closed and it has received everything; if moreover the writer's goroutine
    ended without an error, the callback had returned without one. The writer starts
    to write only when the fastest reader has received everything written before. *)
Theorem readers_see_stream es w0 w :
  start = Some w0 -> run es w0 = Some w ->
  (forall n r, readers w !! n = Some r ->
    received r `prefix_of` accepted (writer w) ++ underWay (w_at (writer w)) /\ Z.of_nat (length (received r)) = position r /\
    (sawEOF r = true -> received r = accepted (writer w) /\ mayClose (w_at (writer w)) = true)) /\
  (w_at (writer w) = WDone None -> EvReturn ∈ es) /\
  (forall b, w_at (writer w) = WFile b 0 -> pos (rcursor (the_pipe w)) = Z.of_nat (length (accepted (writer w)))).
Proof.
  intros H0 Hrun. assert (Hr : inv w) by (eapply pipe_run_inv; [by apply start_inv|done]).
  pose proof Hr as [Hw H2 H3 _ _ _ _ _]. pose proof Hw as [W1 [W2 W2'] _ _ W5 _ _ W8 _ _]. split_and!.
  - intros n r Hn. destruct (H2 n r Hn) as [R1 R2 _ _ _ _ R7 _]. rewrite <- W2. split_and!.
    + rewrite R1. apply prefix_take.
    + rewrite R1, length_take. lia.
    + by apply (eof_complete w n).
  - intros Hd. destruct (run_returned _ _ _ Hrun) as [Hs|]; [by rewrite Hd| |done]. by injection H0 as <-.
  - intros b Hb. specialize (W5 b _ Hb). rewrite Hb in *. cbn in *. rewrite app_nil_r in W2. rewrite <- W2. lia.
Qed.

(** C31. In every reachable state of a pipe, a reader that is blocked waits for the
    callback or for the writer's goroutine, which is neither blocked nor at its end;
    no notification is lost. If the writer is blocked, there is an open reader, and
    every open one has data to read or is about to tell the writer that it read some,
    so that reading on unblocks it. *)
Theorem pipe_progress w :
  reachable w ->
  (forall n, readerBlocked w n -> (forall err, w_at (writer w) ≠ WDone err) /\ ~ writerBlocked w) /\
  (writerBlocked w ->
    (exists n r, readers w !! n = Some r /\ r_at r ≠ RClosed) /\
    forall n r, readers w !! n = Some r -> r_at r ≠ RClosed ->
      isSetting (r_at r) = true \/ position r < pos (wcursor (the_pipe w))).
Proof.
  intros Hr%pipe_reachable_inv. destruct Hr as [Hw H2 H3 _ H5 _ H7 H8].
  assert (Hblocked : writerBlocked w -> pos (rcursor (the_pipe w)) < pos (wcursor (the_pipe w)) /\ doneChan (wcursor (the_pipe w)) = false).
  { intros [[b Hb] Hno]. specialize (Hno (mkInput true Failed)). unfold advanceWriter in Hno. rewrite Hb in Hno.
    destruct (receive _ _) eqn:Hrec; [by destruct (_ && _)|]. destruct (doneChan _); [done|]. split; [|done].
    destruct (wo_select _ _ Hw b Hb) as [|Hin]; [done|]. unfold receive in Hrec. by rewrite decide_True in Hrec. }
  split.
  - intros n (r & op & Hn & Hat & Hno). specialize (Hno (mkInput true Failed)). unfold advanceReader, waitReadable in Hno. rewrite Hat in Hno.
    destruct (H2 n r Hn) as [_ _ R3 R4 _ _ _ R8]. rewrite Hat in *.
    destruct (receive n _) eqn:Hrec; [by destruct (_ && _)|]. destruct (doneChan (rcursor _)) eqn:Hd; [done|].
    assert (Hpos : pos (wcursor (the_pipe w)) <= position r).
    { destruct (R4 op eq_refl) as [|Hin]; [done|]. unfold receive in Hrec. by rewrite decide_True in Hrec. }
    split; [|intros [Hlt _]%Hblocked; specialize (R3 eq_refl); lia].
    intros err He. destruct (wo_finished _ _ Hw err He) as [|Hwd]; [congruence|].
    specialize (R8 ltac:(done)). rewrite (H8 Hwd eq_refl) in R8. set_solver.
  - intros Hb. destruct (Hblocked Hb) as [Hlt Hd]. split.
    + destruct (subscribers (wcursor (the_pipe w))) as [|n subs] eqn:Hs; [by rewrite H7 in Hd|].
      destruct (H5 n) as (r & ? & ?); [set_solver|]. eauto.
    + intros n r Hn Ho. destruct (H2 n r Hn) as [_ _ R3 _ _ _ _ _]. destruct (isSetting (r_at r)); [by left|right].
      specialize (R3 eq_refl). lia.
Qed.

(** A reader that waits for the first bytes, and a second one that opens late, copies
    with sendfile and comes to the end. *)
Definition ex_go : Input := mkInput true (Moved 2).
Definition ex_reading : list Event :=
  [EvWrite (text "hello")] ++ replicate 3 (EvWriter ex_go) ++ [EvRead 0 8; EvReader 0 ex_go].
Definition ex_events : list Event :=
  ex_reading ++ replicate 5 (EvWriter ex_go) ++ replicate 6 (EvReader 0 ex_go) ++
  [EvOpen true; EvWriteTo 1 true] ++ replicate 10 (EvReader 1 ex_go) ++
  [EvReturn] ++ replicate 2 (EvWriter ex_go) ++ replicate 3 (EvReader 1 ex_go).

Definition ex_start : World := default (mkWorld (mkPipe [] false false newCursor newCursor 0) newWriter []) start.
Definition ex_world : World := default ex_start (run ex_events ex_start).
Definition ex_waiting : World := default ex_start (run ex_reading ex_start).

Lemma readers_see_stream_witness :
  (exists r, readers ex_world !! 1%nat = Some r /\ sawEOF r = true /\
    received r = text "hello" /\ received r = accepted (writer ex_world)) /\ EvReturn ∈ ex_events.
Proof.
  destruct (readers_see_stream ex_events ex_start ex_world eq_refl ltac:(vm_compute; reflexivity)) as (Hr & Hd & _).
  split; [|apply Hd; vm_compute; reflexivity].
  eexists. split; [vm_compute; reflexivity|]. split; [reflexivity|]. split; [reflexivity|].
  apply (Hr 1%nat); vm_compute; reflexivity.
Defined.

Lemma pipe_progress_witness : readerBlocked ex_waiting 0 /\ ~ writerBlocked ex_waiting.
Proof.
  assert (Hb : readerBlocked ex_waiting 0).
  { do 2 eexists. split; [vm_compute; reflexivity|]. split; [reflexivity|]. intros i. vm_compute. reflexivity. }
  split; [done|].
  refine (proj2 (proj1 (pipe_progress ex_waiting _) 0%nat Hb)).
  exists ex_reading, ex_start. split; vm_compute; reflexivity.
Defined.
