(* ===== verification/StreamCache.v ===== *)
(** The stream cache (src/internal/streamcache: cache.go, filestore.go): the index of
    entries, the files they are stored in and their eviction, with the pipes of
    Pipe.v inside; any number of callers at the same time.

    A section under the mutex of the cache or of the file store is one step. What an
    entry's callback, its readers and the operating system do is a step of its pipe. *)

From stdpp Require Import pretty.
From Stdlib Require Import Strings.Ascii.
From S2P Require Import Prelude GoStrings Voting Pipe.

(** ** Files *)

Record filestore : Type := mkFilestore {
  fs_dir : list ascii;
  fs_maxAge : Z;
  fs_id : list byte;
  counter : Z;
}.

Inductive CacheError : Type :=
| ERandom
| EMkdir
| ECreateFile
| EPipe (e : PipeError).

Definition newFilestore (dir : list ascii) (maxAge : Z) : filestore := mkFilestore dir maxAge [] 0.

(** [random] is the result of reading ten random bytes. *)
Definition ensureCacheID (random : option (list byte)) : M filestore CacheError unit := fun fs =>
  match fs_id fs with
  | [] => match random with
          | Some buf => (Ok tt, mkFilestore (fs_dir fs) (fs_maxAge fs) buf (counter fs))
          | None => (Err ERandom, fs)
          end
  | _ => (Ok tt, fs)
  end.

Definition nextFileID : M filestore CacheError Z := fun fs =>
  let next := u64 (counter fs + 1) in
  (Ok next, mkFilestore (fs_dir fs) (fs_maxAge fs) (fs_id fs) next).

Definition asciiOf (b : byte) : ascii := ascii_of_N (Byte.to_N b).
Definition hexText (bs : list byte) : list ascii := asciiOf <$> hex_EncodeToString bs.
Definition decimalZ (z : Z) : list ascii := text (pretty (Z.to_N z)).

Definition fileName (id : list byte) (fileID : Z) : list ascii := hexText id ++ text "-" ++ decimalZ fileID.

(** The directory of a file is named after the lowest byte of its number. *)
Definition filePath (dir : list ascii) (id : list byte) (fileID : Z) : list ascii :=
  let subdir := hexText [default x00 (Byte.of_N (Z.to_N (fileID mod 256)))] in
  JoinPath (JoinPath dir subdir) (fileName id fileID).

Record CreateInput : Type := mkCreate {
  randomBytes : option (list byte);
  mkdirs : bool;
  creates : bool;
  reopens : bool;
}.

Definition Create (i : CreateInput) : M filestore CacheError (list ascii) :=
  _ ← ensureCacheID (randomBytes i);
  fileID ← nextFileID;
  fs ← get;
  if negb (mkdirs i) then fail EMkdir
  else if negb (creates i) then fail ECreateFile
  else mret (filePath (fs_dir fs) (fs_id fs) fileID).

(** A file the walk over the directory meets, in the order of the walk; [removal] is
    what removing it gives. *)
Inductive Removal : Type := Removed | NotExist | RemovalFailed.

Record WalkedFile : Type := mkWalked {
  wf_path : list ascii;
  wf_isDir : bool;
  wf_mtime : Z;
  wf_stat : Removal;
  wf_removal : Removal;
}.

(** The files the walk removes, once the permissions of directories are fixed, and
    whether it got to its end. [wf_stat] is what the
    walk itself reports of the file. *)
Fixpoint cleanWalk (cutoff : Z) (files : list WalkedFile) : list (list ascii) * bool :=
  match files with
  | [] => ([], true)
  | f :: files =>
    match wf_stat f with
    | Removed =>
      if negb (wf_isDir f) && (wf_mtime f <? cutoff) then
        match wf_removal f with
        | Removed => let (ps, ok) := cleanWalk cutoff files in (wf_path f :: ps, ok)
        | NotExist => cleanWalk cutoff files
        | RemovalFailed => ([], false)
        end
      else cleanWalk cutoff files
    | NotExist => cleanWalk cutoff files
    | RemovalFailed => ([], false)
    end
  end.

(** The pause between two runs of the cleaners. *)
Definition minute : Z := 60 * 10 ^ 9.
Definition sleepPeriod (period : Z) : Z :=
  if (period <=? 0) || (minute <=? period) then minute else period.

(** ** Entries *)

(** [waiter] is the error the callback's goroutine has set, once it has; [unlinked] is
    whether that goroutine, after an error, has removed the key from the index. *)
Record entry : Type := mkEntry {
  key : string;
  path : list ascii;
  created : Z;
  contents : World;
  waiter : option (option PipeError);
  unlinked : bool;
}.

Definition with_contents (w : World) (e : entry) : entry :=
  mkEntry (key e) (path e) (created e) w (waiter e) (unlinked e).

(** [entries] are all that were ever created, an address each. [removing] are the
    entries whose files the cleaner is about to remove. *)
Record cache : Type := mkCache {
  maxAge : Z;
  index : gmap string nat;
  entries : list entry;
  store : filestore;
  removing : list nat;
}.

Definition newCache (dir : list ascii) (age : Z) : cache := mkCache age ∅ [] (newFilestore dir age) [].

Definition with_index (f : gmap string nat -> gmap string nat) (c : cache) : cache :=
  mkCache (maxAge c) (f (index c)) (entries c) (store c) (removing c).
Definition with_entries (f : list entry -> list entry) (c : cache) : cache :=
  mkCache (maxAge c) (index c) (f (entries c)) (store c) (removing c).
Definition with_store (fs : filestore) (c : cache) : cache :=
  mkCache (maxAge c) (index c) (entries c) fs (removing c).

(** The [delete] of cache.go. *)
Definition deleteKey (k : string) : cache -> cache := with_index (delete k).

(** A stream is a reader of an entry. *)
Record Stream : Type := mkStream {
  s_entry : nat;
  s_reader : nat;
}.

Abbreviation CM := (M cache CacheError).

(** [Open] of an entry adds a reader to its pipe. *)
Definition Open (opens : bool) (i : nat) : CM Stream := fun c =>
  match entries c !! i with
  | None => (Panic, c)
  | Some e =>
    match OpenReader opens (the_pipe (contents e)) with
    | Ok (n, p) =>
      let w := mkWorld p (Pipe.writer (contents e)) (readers (contents e) ++ [newReader]) in
      (Ok (mkStream i n), with_entries (<[i := with_contents w e]>) c)
    | Err e => (Err (EPipe e), c)
    | Panic => (Panic, c)
    end
  end.

Definition onStore {A} (m : M filestore CacheError A) : CM A := fun c =>
  let (r, fs) := m (store c) in (r, with_store fs c).

(** The pipe of a new entry on its file; the goroutine that runs the callback starts
    with it. *)
Definition addEntry (now : Z) (k : string) (p : list ascii) (reopens : bool) : CM (Stream * nat) := fun c =>
  match newPipe reopens with
  | Ok (n, pp) =>
    let e := mkEntry k p now (mkWorld pp newWriter [newReader]) None false in
    (Ok (mkStream (length (entries c)) n, length (entries c)), with_entries (fun es => es ++ [e]) c)
  | Err e => (Err (EPipe e), c)
  | Panic => (Panic, c)
  end.

Definition newEntry (now : Z) (k : string) (i : CreateInput) : CM (Stream * nat) :=
  p ← onStore (Create i); addEntry now k p (reopens i).

Definition createEntry (now : Z) (k : string) (i : CreateInput) : CM (Stream * bool) :=
  '(s, e) ← newEntry now k i;
  _ ← modify (with_index (<[k := e]>));
  mret (s, true).

Definition FindOrCreate (now : Z) (k : string) (opens : bool) (i : CreateInput) : CM (Stream * bool) := fun c =>
  match index c !! k with
  | None => createEntry now k i c
  | Some e =>
    match Open opens e c with
    | (Ok s, c') => (Ok (s, false), c')
    | (Panic, c') => (Panic, c')
    | (Err _, c') => createEntry now k i (deleteKey k c')
    end
  end.

(** The index without the entries that are too old; their files are removed later. *)
Definition tooOld (now : Z) (c : cache) (i : nat) : bool :=
  match entries c !! i with Some e => created e <? now - maxAge c | None => false end.

Definition clean {R : MapRange string nat} (now : Z) (c : cache) : cache :=
  let old := filter (fun kv => tooOld now c kv.2 = true) (range (index c)) in
  let c' := foldl (fun c kv => deleteKey kv.1 c) c old in
  mkCache (maxAge c') (index c') (entries c') (store c') (removing c' ++ old.*2).

(** What Wait returns once the callback's goroutine is done. *)
Definition Wait (s : Stream) (c : cache) : option (option PipeError) :=
  entries c !! s_entry s ≫= waiter.

Definition SetError (err : option PipeError) (e : entry) : entry :=
  mkEntry (key e) (path e) (created e) (contents e)
    (match waiter e with None => Some err | Some err => Some err end) (unlinked e).

(** The end of the goroutine of an entry: first the error is set, then, after a
    failure, the key is removed. *)
Definition finishEntry (i : nat) (c : cache) : option cache :=
  e ← entries c !! i;
  match w_at (Pipe.writer (contents e)), waiter e with
  | WDone err, None => Some (with_entries (<[i := SetError err e]>) c)
  | WDone (Some _), Some _ =>
    if unlinked e then None
    else Some (deleteKey (key e)
           (with_entries (<[i := mkEntry (key e) (path e) (created e) (contents e) (waiter e) true]>) c))
  | _, _ => None
  end.

(** ** All together *)

(** A call of FindOrCreate, a step of the pipe of an entry, the end of the goroutine
    of an entry, a run of the cleaner, the removal of one of the files it collected,
    and the disappearance of a file, which other processes clean up too. *)
Inductive CacheEvent : Type :=
| EvFind (now : Z) (k : string) (opens : bool) (i : CreateInput)
| EvPipe (i : nat) (e : Pipe.Event)
| EvFinish (i : nat)
| EvClean (now : Z)
| EvRemoveNext
| EvGone (i : nat).

Section Steps.
Context {R : MapRange string nat}.

(** Readers are opened by FindOrCreate only. *)
Definition pipeStep (i : nat) (ev : Pipe.Event) (c : cache) : option cache :=
  e ← entries c !! i;
  match ev with
  | EvOpen _ => None
  | _ => w ← Pipe.step ev (contents e); Some (with_entries (<[i := with_contents w e]>) c)
  end.

Definition cacheStep (ev : CacheEvent) (c : cache) : option cache :=
  match ev with
  | EvFind now k opens i => Some (FindOrCreate now k opens i c).2
  | EvPipe i ev => pipeStep i ev c
  | EvFinish i => finishEntry i c
  | EvClean now => Some (clean now c)
  | EvRemoveNext =>
    match removing c with
    | [] => None
    | i :: rest =>
      let c' := mkCache (maxAge c) (index c) (entries c) (store c) rest in
      Some (default c' (pipeStep i EvRemove c'))
    end
  | EvGone i => pipeStep i EvRemove c
  end.

Fixpoint cacheRun (evs : list CacheEvent) (c : cache) : option cache :=
  match evs with
  | [] => Some c
  | ev :: evs => c' ← cacheStep ev c; cacheRun evs c'
  end.

End Steps.

(** ** File names *)

Lemma decimal_no_slash z : slash ∉ decimalZ z.
Proof.
  unfold decimalZ. generalize (Z.to_N z). intros n.
  assert (Hgo : forall s, slash ∉ text s -> slash ∉ text (pretty_N_go n s)).
  { induction (N.lt_wf_0 n) as [n _ IH]. intros s Hs. assert (n = 0 \/ 0 < n)%N as [->|Hn] by lia; [by rewrite pretty_N_go_0|].
    rewrite pretty_N_go_step by done. apply IH; [by apply N.div_lt|].
    change (slash ∉ pretty_N_char (n `mod` 10) :: text s). rewrite not_elem_of_cons. split; [|done].
    unfold pretty_N_char. by repeat case_match. }
  unfold pretty, pretty_N. case_decide; [by apply (bool_decide_unpack _)|]. apply Hgo. by apply not_elem_of_nil.
Qed.

Lemma hexText_plain bs c : c ∈ hexText bs -> c ≠ slash /\ c ≠ "."%char.
Proof.
  unfold hexText, hex_EncodeToString. rewrite list_elem_of_fmap. intros (b & -> & Hb). apply list_elem_of_bind in Hb as (b' & Hb & _).
  assert (Hd : forall n, asciiOf (hexDigit n) ≠ slash /\ asciiOf (hexDigit n) ≠ "."%char).
  { intros n. unfold hexDigit. repeat case_match; done. }
  rewrite !elem_of_cons in Hb. destruct Hb as [->|[->|Hb%not_elem_of_nil]]; [apply Hd..|done].
Qed.

Lemma hexText_nonempty b bs : hexText (b :: bs) ≠ [].
Proof. done. Qed.

Lemma subdir_plain b : plain (hexText [b]).
Proof.
  split_and!; [done| | |].
  - intros Heq. destruct (hexText_plain [b] "."%char) as [_ []]; [|done]. rewrite Heq. by left.
  - intros Heq. destruct (hexText_plain [b] "."%char) as [_ []]; [|done]. rewrite Heq. by left.
  - intros Hin. by destruct (hexText_plain [b] _ Hin).
Qed.

Lemma fileName_plain id n : plain (fileName id n).
Proof.
  assert (Hdash : "-"%char ∈ fileName id n) by (unfold fileName; rewrite !elem_of_app; right; left; by left).
  split_and!; [intros Heq; rewrite Heq in Hdash; by apply not_elem_of_nil in Hdash| | |].
  - intros Heq. rewrite Heq in Hdash. apply (bool_decide_pack _) in Hdash; done.
  - intros Heq. rewrite Heq in Hdash. apply (bool_decide_pack _) in Hdash; done.
  - unfold fileName. rewrite !elem_of_app. intros [Hin|[Hin|Hin]].
    + by destruct (hexText_plain _ _ Hin).
    + apply (bool_decide_pack _) in Hin; done.
    + by apply decimal_no_slash in Hin.
Qed.

Lemma JoinPath_plain root parts p :
  clean_dir root parts -> plain p -> clean_dir (JoinPath root p) (parts ++ [p]).
Proof.
  intros Hroot Hp. pose proof Hroot as [Hparts Hne Hr].
  constructor; [apply Forall_app; split; [done|by constructor]|by destruct parts|].
  rewrite (JoinPath_elements root parts p Hroot). f_equal. f_equal.
  replace (Split slash p) with [p] by (symmetry; apply (Split_Join slash [p]); [done|]; intros q ->%list_elem_of_singleton; apply Hp).
  rewrite cleanParts_keep by by constructor. by rewrite reverse_app, reverse_involutive.
Qed.

(** Files of one store with different numbers have different paths. *)
Lemma filePath_inj dir parts id n m :
  clean_dir dir parts -> 0 <= n -> 0 <= m -> filePath dir id n = filePath dir id m -> n = m.
Proof.
  intros Hdir Hn Hm Heq.
  assert (Hp : forall k, clean_dir (filePath dir id k) ((parts ++ [hexText [default x00 (Byte.of_N (Z.to_N (k mod 256)))]]) ++ [fileName id k])).
  { intros k. apply JoinPath_plain; [|apply fileName_plain]. apply JoinPath_plain; [done|apply subdir_plain]. }
  pose proof (Hp n) as [Hn1 _ Hn2]. pose proof (Hp m) as [Hm1 _ Hm2]. rewrite Heq, Hm2 in Hn2.
  assert (Hel := elements_render _ Hm1). rewrite Hn2, elements_render in Hel by done.
  apply app_inj_tail in Hel as [_ Hel]. unfold fileName in Hel. apply app_inv_head in Hel. injection Hel as Hel.
  apply text_inj, (inj pretty) in Hel. lia.
Qed.

(** ** The index *)

Record entry_ok (e : entry) : Prop := {
  eo_run : exists es w0, start = Some w0 /\ run es w0 = Some (contents e);
  eo_waiter : forall err, waiter e = Some err -> w_at (Pipe.writer (contents e)) = WDone err;
}.

Record cinv (c : cache) : Prop := {
  ci_entries : forall i e, entries c !! i = Some e -> entry_ok e;
  ci_index : forall k i, index c !! k = Some i -> exists e, entries c !! i = Some e /\ key e = k;
}.

Lemma run_snoc es ev w0 w w' : run es w0 = Some w -> Pipe.step ev w = Some w' -> run (es ++ [ev]) w0 = Some w'.
Proof.
  revert w0. induction es as [|e es IH]; intros w0; cbn [run app]; [intros [= ->] Hs; by rewrite Hs|].
  destruct (Pipe.step e w0); [|done]. cbn. apply IH.
Qed.

Lemma step_done ev w w' err :
  Pipe.step ev w = Some w' -> w_at (Pipe.writer w) = WDone err -> w_at (Pipe.writer w') = WDone err.
Proof.
  intros Hs Hd. destruct ev as [b| |panics|i|opens|n len|n raw|n i|n|n|]; cbn [Pipe.step] in Hs; unfold inCreate in Hs;
    rewrite ?Hd in Hs; try done.
  - unfold advanceWriter, runCreate in Hs. by rewrite Hd in Hs.
  - by repeat (case_match; simplify_eq/=).
  - unfold startReader in Hs. by repeat (case_match; simplify_eq/=).
  - unfold startReader in Hs. by repeat (case_match; simplify_eq/=).
  - destruct (readers w !! n) as [r|]; [|done]. cbn in Hs. destruct (advanceReader _ _ _ _) as [[p r']|]; [|done]. by injection Hs as <-.
  - destruct (readers w !! n) as [r|]; [|done]. cbn in Hs. by repeat (case_match; simplify_eq/=).
  - destruct (readers w !! n) as [r|]; [|done]. cbn in Hs. by repeat (case_match; simplify_eq/=).
  - by injection Hs as <-.
Qed.

Lemma entry_step ev e w : entry_ok e -> Pipe.step ev (contents e) = Some w -> entry_ok (with_contents w e).
Proof.
  intros [(es & w0 & H0 & Hr) Hw] Hs. constructor; cbn.
  - exists (es ++ [ev]), w0. split; [done|]. by eapply run_snoc.
  - intros err He. eapply step_done; [done|]. auto.
Qed.

Lemma cinv_update c i e e' :
  cinv c -> entries c !! i = Some e -> entry_ok e' -> key e' = key e -> cinv (with_entries (<[i := e']>) c).
Proof.
  intros [H1 H2] Hi Hok Hk. constructor; cbn.
  - intros j ej. rewrite list_lookup_insert_Some. intros [(<- & <- & _)|[_ Hj]]; eauto.
  - intros k j Hj. destruct (H2 k j Hj) as (ej & Hej & Hkey). destruct (decide (i = j)) as [<-|Hne].
    + exists e'. rewrite list_lookup_insert_eq by (by eapply lookup_lt_Some). split; [done|congruence].
    + exists ej. by rewrite list_lookup_insert_ne.
Qed.

Lemma cinv_delete c k : cinv c -> cinv (deleteKey k c).
Proof. intros [H1 H2]. constructor; cbn; [done|]. intros k' i [_ Hi]%lookup_delete_Some. auto. Qed.

Lemma cinv_store c fs : cinv c -> cinv (with_store fs c).
Proof. intros [H1 H2]. by constructor. Qed.

Lemma Open_ok opens i c e :
  cinv c -> entries c !! i = Some e ->
  match Open opens i c with
  | (Ok s, c') => cinv c' /\ s_entry s = i /\
      exists e', entries c' !! i = Some e' /\ key e' = key e /\ readers (contents e') !! s_reader s = Some newReader
  | (Err _, c') => c' = c
  | (Panic, _) => False
  end.
Proof.
  intros Hc Hi. unfold Open. rewrite Hi. destruct (OpenReader opens (the_pipe (contents e))) as [[n p]|e'|] eqn:Ho; [|done|].
  - pose proof (ci_entries c Hc i e Hi) as Hok. destruct Hok as [(es & w0 & H0 & Hr) Hw] eqn:?.
    assert (Hinv : inv (contents e)) by (eapply pipe_run_inv; [by apply start_inv|done]).
    destruct (inv_open _ _ _ _ Hinv Ho) as [-> _].
    assert (Hs : Pipe.step (EvOpen opens) (contents e) = Some (mkWorld p (Pipe.writer (contents e)) (readers (contents e) ++ [newReader])))
      by (cbn [Pipe.step]; by rewrite Ho).
    split; [by eapply cinv_update; [..|eapply entry_step|]|]. split; [done|]. cbn.
    eexists. rewrite list_lookup_insert_eq by (by eapply lookup_lt_Some). split; [done|]. split; [done|]. cbn. by rewrite list_lookup_middle.
  - unfold OpenReader in Ho. by repeat case_match.
Qed.

(** Creating a file changes the store only. *)
Lemma onStore_Create i c :
  exists fs, onStore (Create i) c = ((Create i (store c)).1, with_store fs c) /\ (Create i (store c)).1 ≠ Panic.
Proof.
  unfold onStore. destruct (Create i (store c)) as [r fs] eqn:Hc. exists fs. split; [done|]. cbn. intros ->.
  revert Hc. unfold Create, ensureCacheID, nextFileID, get, fail, mret, M_ret, mbind, M_bind. by repeat case_match.
Qed.

Lemma createEntry_ok now k i c :
  cinv c ->
  match createEntry now k i c with
  | (Ok (s, created), c') => cinv c' /\ created = true /\ s_entry s = length (entries c) /\
      exists e, entries c' !! s_entry s = Some e /\ key e = k /\ readers (contents e) !! s_reader s = Some newReader
  | (Err _, c') => cinv c'
  | (Panic, _) => False
  end.
Proof.
  intros Hc. unfold createEntry, newEntry. destruct (onStore_Create i c) as (fs & Hos & Hnp).
  unfold mbind, M_bind. rewrite Hos. destruct (Create i (store c)).1 as [p|e|]; [|by apply cinv_store|done].
  unfold addEntry. destruct (newPipe (reopens i)) as [[n pp]|e|] eqn:Hnew; [|by apply cinv_store|by destruct (reopens i)].
  unfold modify, mret, M_ret. cbn. destruct (reopens i); [|done].
  assert (Hlast : forall e, (entries c ++ [e]) !! length (entries c) = Some e) by (intros; by rewrite list_lookup_middle).
  assert (Hok : entry_ok (mkEntry k p now (mkWorld pp newWriter [newReader]) None false)).
  { constructor; [|done]. exists [], (mkWorld pp newWriter [newReader]). unfold start. by rewrite Hnew. }
  assert (Hn : n = 0%nat) by (vm_compute in Hnew; congruence). subst n.
  split; [|split; [done|split; [done|eexists; rewrite Hlast; split; [done|]; split; done]]].
  constructor; cbn.
  - intros j e. rewrite lookup_app_Some, list_lookup_singleton_Some. intros [Hj|[_ [_ <-]]]; [by eapply ci_entries|exact Hok].
  - intros k' j. rewrite lookup_insert_Some. intros [[<- <-]|[_ Hj]].
    + eexists. by rewrite Hlast.
    + destruct (ci_index c Hc k' j Hj) as (e & He & Hk). exists e. split; [|done]. by apply lookup_app_l_Some.
Qed.

(** A call returns a new reader of an entry for its key. *)
Lemma FindOrCreate_ok now k opens i c :
  cinv c ->
  match FindOrCreate now k opens i c with
  | (Ok (s, _), c') => cinv c' /\
      exists e, entries c' !! s_entry s = Some e /\ key e = k /\ readers (contents e) !! s_reader s = Some newReader
  | (Err _, c') => cinv c'
  | (Panic, _) => False
  end.
Proof.
  intros Hc. unfold FindOrCreate. destruct (index c !! k) as [j|] eqn:Hk.
  - destruct (ci_index c Hc k j Hk) as (e & He & Hkey). pose proof (Open_ok opens j c e Hc He) as Ho.
    destruct (Open opens j c) as [[s|err|] c']; [|subst c'|done].
    + destruct Ho as (Hc' & <- & e' & He' & Hk' & Hr). split; [done|]. exists e'. split_and!; [done|congruence|done].
    + pose proof (createEntry_ok now k i (deleteKey k c) (cinv_delete c k Hc)) as Hn.
      destruct (createEntry now k i (deleteKey k c)) as [[[s b]|err'|] c']; [|done..]. by destruct Hn as (? & _ & _ & ?).
  - pose proof (createEntry_ok now k i c Hc) as Hn.
    destruct (createEntry now k i c) as [[[s b]|err'|] c']; [|done..]. by destruct Hn as (? & _ & _ & ?).
Qed.

Section Invariant.
Context {R : MapRange string nat}.

Lemma pipeStep_ok i ev c c' : cinv c -> pipeStep i ev c = Some c' -> cinv c'.
Proof.
  intros Hc. unfold pipeStep. destruct (entries c !! i) as [e|] eqn:Hi; [|done]. cbn.
  destruct ev; try done; (destruct (Pipe.step _ _) as [w|] eqn:Hs; [|done]); intros [= <-];
    (eapply cinv_update; [done|done|by eapply entry_step; [by eapply ci_entries|]|done]).
Qed.

Lemma finishEntry_ok i c c' : cinv c -> finishEntry i c = Some c' -> cinv c'.
Proof.
  intros Hc. unfold finishEntry. destruct (entries c !! i) as [e|] eqn:Hi; [|done]. cbn.
  pose proof (ci_entries c Hc i e Hi) as [Hrun Hw].
  destruct (w_at (Pipe.writer (contents e))) as [| | | | | | | | | |err] eqn:Hd; try done.
  destruct (waiter e) as [err'|] eqn:Hwt.
  - destruct err as [er|]; [|done]. destruct (unlinked e); [done|]. intros [= <-]. apply cinv_delete.
    eapply cinv_update; [done|done| |done]. constructor; cbn; [done|]. intros err'' [= <-]. rewrite Hd. by apply Hw.
  - assert (Hgoal : cinv (with_entries (<[i := SetError err e]>) c)).
    { eapply cinv_update; [done|done| |done]. constructor; cbn; [done|]. rewrite Hwt. intros ? [= <-]. done. }
    destruct err; by intros [= <-].
Qed.

Lemma clean_index now c :
  entries (clean now c) = entries c /\
  forall k i, index (clean now c) !! k = Some i <-> index c !! k = Some i /\ tooOld now c i = false.
Proof.
  unfold clean. cbn. set (old := filter _ (range (index c))).
  assert (Hfold : forall l d, entries (foldl (fun c kv => deleteKey kv.1 c) d l) = entries d /\
    forall k i, index (foldl (fun c (kv : string * nat) => deleteKey kv.1 c) d l) !! k = Some i <-> index d !! k = Some i /\ k ∉ l.*1).
  { induction l as [|kv l IH]; intros d; cbn [foldl fmap]; [split; [done|]; set_solver|].
    destruct (IH (deleteKey kv.1 d)) as [He Hi]. split; [done|]. intros k i. rewrite Hi. cbn. rewrite lookup_delete_Some, not_elem_of_cons. naive_solver. }
  destruct (Hfold old c) as [He Hi]. split; [done|]. intros k i. rewrite Hi. split; intros [Hk Hn]; (split; [done|]).
  - destruct (tooOld now c i) eqn:Ho; [|done]. exfalso. apply Hn. apply list_elem_of_fmap. exists (k, i). split; [done|].
    unfold old. rewrite list_elem_of_filter. split; [done|]. rewrite (range_perm (index c)). by apply elem_of_map_to_list.
  - rewrite list_elem_of_fmap. intros ([k' j] & -> & Hin). unfold old in Hin. rewrite list_elem_of_filter, (range_perm (index c)) in Hin.
    destruct Hin as [Ho Hin%elem_of_map_to_list]. cbn in *. congruence.
Qed.

Lemma cacheStep_ok ev c c' : cinv c -> cacheStep ev c = Some c' -> cinv c'.
Proof.
  intros Hc. destruct ev as [now k opens i|i ev|i|now| |i]; cbn [cacheStep].
  - intros [= <-]. pose proof (FindOrCreate_ok now k opens i c Hc) as H.
    destruct (FindOrCreate now k opens i c) as [[[s b]|e|] c1]; cbn; [by destruct H|done..].
  - by apply pipeStep_ok.
  - by apply finishEntry_ok.
  - intros [= <-]. destruct (clean_index now c) as [He Hi]. constructor; rewrite He; [apply Hc|].
    intros k i [Hk _]%Hi. by apply (ci_index c).
  - destruct (removing c) as [|i rest]; [done|]. intros [= <-].
    set (c1 := mkCache (maxAge c) (index c) (entries c) (store c) rest). assert (Hc1 : cinv c1) by (destruct Hc; by constructor).
    destruct (pipeStep i EvRemove c1) as [c2|] eqn:Hp; [by eapply pipeStep_ok|done].
  - by apply pipeStep_ok.
Qed.

Lemma cacheRun_ok evs c c' : cinv c -> cacheRun evs c = Some c' -> cinv c'.
Proof.
  revert c. induction evs as [|ev evs IH]; intros c Hc; cbn [cacheRun]; [by intros [= <-]|].
  destruct (cacheStep ev c) as [c1|] eqn:Hs; [|done]. cbn. apply IH. by eapply cacheStep_ok.
Qed.

Lemma newCache_ok dir age : cinv (newCache dir age).
Proof. by constructor. Qed.

End Invariant.

(** ** Properties *)

(** The eviction keeps exactly the entries that are young enough. *)
Lemma clean_keeps_young {R : MapRange string nat} now c k i e :
  index (clean now c) !! k = Some i -> entries (clean now c) !! i = Some e -> now - maxAge c <= created e.
Proof.
  destruct (clean_index now c) as [-> Hi]. intros [_ Ho]%Hi He. unfold tooOld in Ho. rewrite He in Ho. lia.
Qed.

(** C8. Whatever callers, callbacks, cleaners and other processes do, a call of
    FindOrCreate that succeeds returns a new stream, at its beginning, of an entry for
    its key. Whoever then reads the stream to its end and is told by Wait that there
    was no error has received exactly what one callback for that key wrote, all of it,
    and that callback returned without an error: no part of a failed or unfinished
    stream is taken for a whole one, even if the entry was evicted and its file
    removed meanwhile. *)
Theorem cached_stream_complete {R : MapRange string nat} dir age evs c :
  cacheRun evs (newCache dir age) = Some c ->
  (forall now k opens i s created c', FindOrCreate now k opens i c = (Ok (s, created), c') ->
    exists e, entries c' !! s_entry s = Some e /\ key e = k /\ readers (contents e) !! s_reader s = Some newReader) /\
  (forall s e r, entries c !! s_entry s = Some e -> readers (contents e) !! s_reader s = Some r ->
    sawEOF r = true -> Wait s c = Some None ->
    received r = accepted (Pipe.writer (contents e)) /\
    exists es w0, start = Some w0 /\ run es w0 = Some (contents e) /\ EvReturn ∈ es).
Proof.
  intros Hrun. assert (Hc : cinv c) by (eapply cacheRun_ok; [apply newCache_ok|done]). split.
  - intros now k opens i s b c' Hf. pose proof (FindOrCreate_ok now k opens i c Hc) as H. rewrite Hf in H. by destruct H.
  - intros s e r He Hr Heof Hw. unfold Wait in Hw. rewrite He in Hw. cbn in Hw.
    destruct (ci_entries c Hc _ e He) as [(es & w0 & H0 & Hes) Hd]. specialize (Hd None Hw).
    assert (Hinv : inv (contents e)) by (eapply pipe_run_inv; [by apply start_inv|done]). split.
    + by apply (eof_complete _ _ _ Hinv Hr).
    + exists es, w0. split_and!; [done..|]. destruct (run_returned _ _ _ Hes) as [Hs|]; [by rewrite Hd| |done]. by injection H0 as <-.
Qed.

(** *** Files *)

Definition inputs_ok (ev : CacheEvent) : Prop :=
  match ev with EvFind _ _ _ i => forall buf, randomBytes i = Some buf -> length buf = 10%nat | _ => True end.

(** [numbers] are the numbers of the files of the entries, in their order. *)
Record files_inv (dir : list ascii) (c : cache) (numbers : list Z) : Prop := {
  fi_dir : fs_dir (store c) = dir;
  fi_counter : 0 <= counter (store c);
  fi_paths : Forall2 (fun e n => path e = filePath dir (fs_id (store c)) n /\ fs_id (store c) ≠ []) (entries c) numbers;
  fi_range : Forall (fun n => 0 <= n <= counter (store c)) numbers;
  fi_nodup : NoDup numbers;
}.

Lemma Create_counter i fs :
  0 <= counter fs -> counter fs + 1 < 2 ^ 64 -> (forall buf, randomBytes i = Some buf -> length buf = 10%nat) ->
  let fs' := (Create i fs).2 in
  counter fs <= counter fs' <= counter fs + 1 /\ fs_dir fs' = fs_dir fs /\ (fs_id fs ≠ [] -> fs_id fs' = fs_id fs) /\
  forall p, (Create i fs).1 = Ok p -> p = filePath (fs_dir fs) (fs_id fs') (counter fs') /\ counter fs' = counter fs + 1 /\ fs_id fs' ≠ [].
Proof.
  intros H0 H1 Hbuf. unfold Create, ensureCacheID, nextFileID, get, fail, mret, M_ret, mbind, M_bind.
  destruct (fs_id fs) as [|b id] eqn:Hid; [destruct (randomBytes i) as [buf|] eqn:Hb|]; cbn; rewrite ?u64_small by lia;
    (destruct (mkdirs i); cbn; [destruct (creates i); cbn|]); rewrite ?u64_small by lia; rewrite ?Hid; split_and!; try done; try lia.
  all: try (intros p [= <-]; split_and!; [done|lia|]).
  all: try done. specialize (Hbuf buf eq_refl). by destruct buf.
Qed.

Lemma files_same dir c c' numbers :
  files_inv dir c numbers -> store c' = store c -> entries c' = entries c -> files_inv dir c' numbers.
Proof. intros [] Hs He. constructor; rewrite ?Hs, ?He; done. Qed.

Lemma files_update dir c numbers i e e' :
  files_inv dir c numbers -> entries c !! i = Some e -> path e' = path e -> files_inv dir (with_entries (<[i := e']>) c) numbers.
Proof.
  intros [H1 H2 H3 H4 H5] Hi Hp. constructor; cbn; try done. apply Forall2_same_length_lookup in H3 as [Hlen H3].
  apply Forall2_same_length_lookup. rewrite length_insert. split; [done|]. intros j ej n.
  rewrite list_lookup_insert_Some. intros [(<- & <- & _)|[_ Hj]] Hn; [rewrite Hp|]; eauto.
Qed.

Lemma pipeStep_files dir i ev c c' numbers :
  files_inv dir c numbers -> pipeStep i ev c = Some c' -> files_inv dir c' numbers /\ store c' = store c.
Proof.
  intros Hf. unfold pipeStep. destruct (entries c !! i) as [e|] eqn:Hi; [|done]. cbn.
  destruct ev; try done; (destruct (Pipe.step _ _) as [w|]; [|done]); intros [= <-]; (split; [|done]); by eapply files_update.
Qed.

Lemma createEntry_files dir now k i c numbers :
  files_inv dir c numbers -> counter (store c) + 1 < 2 ^ 64 -> (forall buf, randomBytes i = Some buf -> length buf = 10%nat) ->
  exists numbers', files_inv dir (createEntry now k i c).2 numbers' /\
    counter (store (createEntry now k i c).2) <= counter (store c) + 1.
Proof.
  intros [H1 H2 H3 H4 H5] Hlt Hbuf. unfold createEntry, newEntry, onStore, mbind, M_bind.
  pose proof (Create_counter i (store c) H2 Hlt Hbuf) as Hcc. cbn zeta in Hcc.
  destruct (Create i (store c)) as [r fs]. cbn [fst snd] in Hcc. destruct Hcc as (Hc1 & Hd & Hid & Hok).
  assert (Hkeep : files_inv dir (with_store fs c) numbers).
  { constructor; cbn; [congruence|lia| |eapply Forall_impl; [done|]; cbn; lia|done].
    eapply Forall2_impl; [done|]. cbn. intros e n [Hp Hne]. rewrite (Hid Hne). done. }
  destruct r as [p|e|]; [|exists numbers; split; [done|cbn; lia]..].
  destruct (Hok p eq_refl) as (Hp & Hc' & Hne). unfold addEntry.
  destruct (newPipe (reopens i)) as [[n pp]|e|]; [|exists numbers; split; [done|cbn; lia]..].
  exists (numbers ++ [counter fs]). split; [|cbn; lia]. constructor; cbn; [congruence|lia| | |].
  - apply Forall2_app; [apply Hkeep|]. constructor; [|constructor]. cbn. by rewrite Hp, H1.
  - apply Forall_app. split; [eapply Forall_impl; [done|]; cbn; lia|]. constructor; [lia|constructor].
  - apply NoDup_app. split_and!; [done| |apply NoDup_singleton]. intros m Hm ->%list_elem_of_singleton.
    rewrite Forall_forall in H4. specialize (H4 _ Hm). cbn in H4. lia.
Qed.

Lemma cacheStep_files {R : MapRange string nat} dir ev c c' numbers :
  files_inv dir c numbers -> cinv c -> counter (store c) + 1 < 2 ^ 64 -> inputs_ok ev -> cacheStep ev c = Some c' ->
  exists numbers', files_inv dir c' numbers' /\ counter (store c') <= counter (store c) + 1.
Proof.
  intros Hf Hc Hlt Hin. destruct ev as [now k opens i|i ev|i|now| |i]; cbn [cacheStep].
  - intros [= <-]. unfold FindOrCreate. destruct (index c !! k) as [j|]; [|by apply (createEntry_files dir now k i c numbers)].
    unfold Open. destruct (entries c !! j) as [e|] eqn:He; [|exists numbers; split; [done|cbn; lia]].
    destruct (OpenReader _ _) as [[n p]|e'|]; cbn [snd].
    + exists numbers. split; [by eapply files_update|cbn; lia].
    + destruct (createEntry_files dir now k i (deleteKey k c) numbers) as (ns & ? & ?); [by eapply files_same|done|done|]. by exists ns.
    + exists numbers. split; [done|lia].
  - intros Hs. destruct (pipeStep_files _ _ _ _ _ _ Hf Hs) as [? ->]. exists numbers. split; [done|lia].
  - unfold finishEntry. destruct (entries c !! i) as [e|] eqn:Hi; [|done]. cbn. intros Hs. exists numbers.
    assert (Hu : forall e', path e' = path e -> files_inv dir (with_entries (<[i := e']>) c) numbers) by (intros; by eapply files_update).
    destruct (w_at (Pipe.writer (contents e))) as [| | | | | | | | | |[er|]]; try done; (destruct (waiter e) as [o|]; [|injection Hs as <-; split; [by apply Hu|cbn; lia]]);
      [|done]. destruct (unlinked e); [done|]. injection Hs as <-. split; [|cbn; lia].
    apply (files_same dir (with_entries (<[i := mkEntry (key e) (path e) (created e) (contents e) (Some o) true]>) c)); [by apply Hu|done..].
  - intros [= <-]. exists numbers. destruct (clean_index now c) as [He _].
    assert (Hs : store (clean now c) = store c).
    { unfold clean. cbn. generalize (filter (fun kv => tooOld now c kv.2 = true) (range (index c))). intros l.
      assert (Hfold : forall d, store (foldl (fun c (kv : string * nat) => deleteKey kv.1 c) d l) = store d)
        by (induction l as [|kv l IH]; intros d; cbn [foldl]; [done|]; by rewrite IH). apply Hfold. }
    rewrite Hs. split; [by eapply files_same|lia].
  - destruct (removing c) as [|i rest]; [done|]. intros [= <-].
    set (c1 := mkCache (maxAge c) (index c) (entries c) (store c) rest). assert (Hf1 : files_inv dir c1 numbers) by by eapply files_same.
    exists numbers. destruct (pipeStep i EvRemove c1) as [c2|] eqn:Hp; [|split; [done|cbn; lia]].
    cbn [default from_option id]. destruct (pipeStep_files _ _ _ _ _ _ Hf1 Hp) as [? ->]. split; [done|cbn; lia].
  - intros Hs. destruct (pipeStep_files _ _ _ _ _ _ Hf Hs) as [? ->]. exists numbers. split; [done|lia].
Qed.

(** As long as the counter does not roll over, no two entries share a file, whatever
    happened to the files before. *)
Theorem files_distinct {R : MapRange string nat} dir parts age evs c :
  clean_dir dir parts -> Forall inputs_ok evs -> Z.of_nat (length evs) < 2 ^ 64 ->
  cacheRun evs (newCache dir age) = Some c -> NoDup (path <$> entries c).
Proof.
  intros Hdir Hin Hlen Hrun.
  assert (Hf : exists numbers, files_inv dir c numbers).
  { assert (H0 : files_inv dir (newCache dir age) []) by (constructor; cbn; try done; constructor).
    assert (Hc0 : cinv (newCache dir age)) by apply newCache_ok.
    assert (Hb : counter (store (newCache dir age)) + Z.of_nat (length evs) < 2 ^ 64) by (cbn; lia). clear Hlen. revert H0 Hc0 Hb Hrun.
    generalize (newCache dir age). generalize (@nil Z). induction Hin as [|ev evs Hev _ IH]; intros ns c0 H0 Hc0 Hb; cbn [cacheRun].
    - intros [= <-]. by exists ns.
    - cbn [length] in Hb. destruct (cacheStep ev c0) as [c1|] eqn:Hs; [|done]. cbn.
      destruct (cacheStep_files _ _ _ _ _ H0 Hc0 ltac:(lia) Hev Hs) as (ns1 & H1 & Hc1).
      apply (IH ns1); [done|by eapply cacheStep_ok|lia]. }
  destruct Hf as [ns [_ H2 H3 H4 H5]]. apply NoDup_alt. intros i j p Hi Hj. rewrite list_lookup_fmap in Hi, Hj.
  apply fmap_Some in Hi as (ei & Hi & ->). apply fmap_Some in Hj as (ej & Hj & Heq).
  apply Forall2_same_length_lookup in H3 as [Hl H3].
  assert (Hn : forall k e, entries c !! k = Some e -> exists n, ns !! k = Some n).
  { intros k e Hk%lookup_lt_Some. apply lookup_lt_is_Some. lia. }
  destruct (Hn i ei Hi) as [ni Hni]. destruct (Hn j ej Hj) as [nj Hnj].
  destruct (H3 i ei ni Hi Hni) as [Hpi _]. destruct (H3 j ej nj Hj Hnj) as [Hpj _]. rewrite Hpi, Hpj in Heq.
  rewrite Forall_forall in H4. pose proof (H4 ni (list_elem_of_lookup_2 _ _ _ Hni)). pose proof (H4 nj (list_elem_of_lookup_2 _ _ _ Hnj)). cbn in *.
  apply (filePath_inj dir parts) in Heq; [|done|lia..]. subst nj. by eapply NoDup_lookup.
Qed.

(** *** Examples *)

Definition ex_create : CreateInput := mkCreate (Some (replicate 10 x2a)) true true true.
Definition ex_order : MapRange string nat := {| range := map_to_list; range_perm m := reflexivity (map_to_list m) |}.
Definition ex_dir : list ascii := text "/cache".
Definition ex_cache : cache := newCache ex_dir 100.

(** Two callers of one key share a callback; the second reads the whole stream after
    the entry was evicted and its file removed. *)
Definition ex_share : list CacheEvent :=
  [EvFind 0 "pack" true ex_create; EvFind 1 "pack" true ex_create; EvPipe 0 (EvWrite (text "data"))] ++
  replicate 8 (EvPipe 0 (EvWriter ex_go)) ++ [EvPipe 0 EvReturn; EvPipe 0 (EvWriter ex_go); EvPipe 0 (EvWriter ex_go); EvFinish 0;
   EvClean 200; EvRemoveNext; EvPipe 0 (EvWriteTo 1 true)] ++ replicate 14 (EvPipe 0 (EvReader 1 ex_go)).

Definition ex_shared : cache := default ex_cache (cacheRun (R := ex_order) ex_share ex_cache).

Lemma cached_stream_complete_witness :
  cacheRun (R := ex_order) ex_share ex_cache = Some ex_shared /\ index ex_shared = ∅ /\
  exists e r, entries ex_shared !! 0%nat = Some e /\ readers (contents e) !! 1%nat = Some r /\
    received r = text "data" /\ received r = accepted (Pipe.writer (contents e)).
Proof.
  split; [vm_compute; reflexivity|]. split; [vm_compute; reflexivity|].
  do 2 eexists. split; [vm_compute; reflexivity|]. split; [vm_compute; reflexivity|]. split; [reflexivity|].
  refine (proj1 (proj2 (cached_stream_complete (R := ex_order) ex_dir 100 ex_share ex_shared _) (mkStream 0 1) _ _ _ _ _ _));
    vm_compute; reflexivity.
Defined.

(** A callback that fails after its entry was evicted removes the key of the entry
    that has taken its place, although that one is complete and fresh. *)
Definition ex_evict : list CacheEvent :=
  [EvFind 0 "pack" true ex_create; EvClean 200; EvFind 200 "pack" true ex_create;
   EvPipe 1 EvReturn; EvPipe 1 (EvWriter ex_go); EvPipe 1 (EvWriter ex_go); EvFinish 1;
   EvPipe 0 (EvFail false); EvPipe 0 (EvWriter ex_go); EvFinish 0].

Lemma failed_callback_evicts_successor :
  (forall c, cacheRun (R := ex_order) ex_evict ex_cache = Some c ->
    index c !! "pack" = Some 1%nat /\ Wait (mkStream 1 0) c = Some None) /\
  (forall c, cacheRun (R := ex_order) (ex_evict ++ [EvFinish 0]) ex_cache = Some c -> index c !! "pack" = None) /\
  is_Some (cacheRun (R := ex_order) (ex_evict ++ [EvFinish 0]) ex_cache).
Proof.
  split_and!; [| |vm_compute; eauto]; intros c Hc; vm_compute in Hc; injection Hc as <-; vm_compute; done.
Qed.
