(* ===== verification/PackObjects.v ===== *)
(** The hook that runs git-pack-objects and shares its output through the stream cache
    (src/internal/gitaly/service/hook/pack_objects.go): the arguments it accepts, the
    key of the cache, how the output of git gets into the stream and how it is served
    from it. Statistics and logging are left out. *)

From Stdlib Require Import Strings.Ascii.
From S2P Require Import GoStrings GitCommand Voting Hooks Pktline Pipe StreamCache Prelude.

(** ** Arguments *)

Inductive PackError : Type := errNoPackObjects | errNonFlagArg | errNoStdout.

Record packObjectsArgs : Type := mkArgs {
  shallowFile : bool;
  pack_flags : list (list ascii);
}.

(** The loop over the arguments after the name of the command. *)
Fixpoint collectFlags (seenStdout : bool) (flags args : list (list ascii)) : out PackError (bool * list (list ascii)) :=
  match args with
  | [] => Ok (seenStdout, flags)
  | a :: args =>
    if negb (HasPrefix a (text "-")) then Err errNonFlagArg
    else if decide (a = text "--stdout") then collectFlags true flags args
    else collectFlags seenStdout (flags ++ [a]) args
  end.

(** The part after the special argument of shallow clones. *)
Definition parseCommand (shallow : bool) (args : list (list ascii)) : out PackError packObjectsArgs :=
  match args with
  | a0 :: args =>
    if decide (a0 = text "pack-objects") then
      match collectFlags false [] args with
      | Ok (seenStdout, flags) => if negb seenStdout then Err errNoStdout else Ok (mkArgs shallow flags)
      | Err e => Err e
      | Panic => Panic
      end
    else Err errNoPackObjects
  | [] => Err errNoPackObjects
  end.

Definition parsePackObjectsArgs (args : list (list ascii)) : out PackError packObjectsArgs :=
  match args with
  | a0 :: a1 :: rest => if decide (a0 = text "--shallow-file" /\ a1 = []) then parseCommand true rest else parseCommand false args
  | _ => parseCommand false args
  end.

Definition globals (p : packObjectsArgs) : list GlobalOption :=
  if shallowFile p then [GValueFlag (text "--shallow-file") []] else [].

Definition subcmdFlags (p : packObjectsArgs) : list Option :=
  OFlag (text "--stdout") :: (OFlag <$> pack_flags p).

(** ** The key *)

(** [sha256] and [marshal] are library functions; a request is hashed with what
    follows on its standard input. *)
Definition cacheKey {Request} (sha256 : bytes -> bytes) (marshal : Request -> option bytes)
    (request : Request) (stdin : list bytes) : option (list ascii) :=
  data ← marshal request;
  Some (hexText (sha256 (data ++ concat stdin))).

(** ** Output *)

Definition bandStdout : byte := x01.
Definition bandStderr : byte := x02.

(** [bufio.Writer]: what is buffered, and the first error. *)
Record bufWriter (E : Type) : Type := mkBuf {
  buffered : bytes;
  buf_err : option E;
}.
Arguments mkBuf {E}.
Arguments buffered {E}.
Arguments buf_err {E}.

Section Bufio.
Context {W E : Type} (wr : bytes -> W -> out E unit * W) (size : nat).

Definition Flush (b : bufWriter E) (w : W) : bufWriter E * W :=
  match buf_err b, buffered b with
  | Some _, _ | None, [] => (b, w)
  | None, data => match wr data w with
                  | (Err e, w) => (mkBuf data (Some e), w)
                  | (_, w) => (mkBuf [] None, w)
                  end
  end.

(** The loop of Write while the data does not fit into the buffer. *)
Fixpoint bufLoop (fuel : nat) (p : bytes) (b : bufWriter E) (w : W) : option (bufWriter E * W) :=
  match buf_err b with
  | Some _ => Some (b, w)
  | None =>
    if decide (length p <= size - length (buffered b))%nat then Some (mkBuf (buffered b ++ p) None, w)
    else match fuel with
    | O => None
    | S fuel =>
      match buffered b with
      | [] => match wr p w with
              | (Err e, w) => Some (mkBuf [] (Some e), w)
              | (_, w) => bufLoop fuel [] (mkBuf [] None) w
              end
      | data =>
        let n := (size - length data)%nat in
        let (b, w) := Flush (mkBuf (data ++ take n p) None) w in
        bufLoop fuel (drop n p) b w
      end
    end
  end.

Definition bufWrite (p : bytes) (b : bufWriter E) (w : W) : option (bufWriter E * W) := bufLoop 2 p b w.

End Bufio.

(** A piece of output of git, on its standard output or error. *)
Inductive Piece : Type :=
| Stdout (data : bytes)
| Stderr (data : bytes).

(** Standard output is buffered, standard error is not; a write to a side band writes
    whole packets. *)
Definition sidebandWrite (band : byte) (data : bytes) (w : bytes) : out WriteError unit * bytes :=
  match writeBand sink band data w with
  | Some (_, r, w) => (r, w)
  | None => (Panic, w)
  end.

Definition bufSize : nat := Z.to_nat MaxSidebandData.

Fixpoint copyOutput (pieces : list Piece) (b : bufWriter WriteError) (w : bytes) : option (bufWriter WriteError * bytes) :=
  match pieces with
  | [] => Some (b, w)
  | Stdout data :: pieces =>
    '(b, w) ← bufWrite (sidebandWrite bandStdout) bufSize data b w; copyOutput pieces b w
  | Stderr data :: pieces => copyOutput pieces b (sidebandWrite bandStderr data w).2
  end.

Inductive RunError : Type := EGit | EFlush (e : WriteError).

(** The bytes the callback writes to the stream, and its error; [git] is whether git
    succeeds. *)
Definition runPackObjects (pieces : list Piece) (git : bool) : option (bytes * out RunError unit) :=
  '(b, w) ← copyOutput pieces (mkBuf [] None) [];
  if negb git then Some (w, Err EGit)
  else
    let (b, w) := Flush (sidebandWrite bandStdout) b w in
    Some (w, match buf_err b with Some e => Err (EFlush e) | None => Ok tt end).

(** ** Serving *)

Inductive ServeError : Type := errBand (band : byte) | errSend.

(** The responses sent to the client; [sends] is whether the stream accepts one more. *)
Definition respond (sends : nat -> bool) (band : byte) (data : bytes) : M (list Piece) ServeError unit := fun sent =>
  let send p := if sends (length sent) then (Ok tt, sent ++ [p]) else (Err errSend, sent) in
  if decide (band = bandStdout) then send (Stdout data)
  else if decide (band = bandStderr) then send (Stderr data)
  else (Err (errBand band), sent).

Definition output (sends : nat -> bool) (fuel : nat) (r : Scanner) : option (out (SidebandError ServeError) unit * list Piece) :=
  EachSidebandPacket (respond sends) fuel r [].

(** ** Arguments, properties *)

Lemma collectFlags_ok seen flags args seen' flags' :
  collectFlags seen flags args = Ok (seen', flags') ->
  flags' = flags ++ filter (fun a => a ≠ text "--stdout") args /\
  (seen' = true <-> seen = true \/ text "--stdout" ∈ args) /\ Forall (fun a => HasPrefix a (text "-") = true) args.
Proof.
  revert seen flags. induction args as [|a args IH]; intros seen flags; cbn [collectFlags].
  - intros [= <- <-]. rewrite app_nil_r. split_and!; [done|set_solver|constructor].
  - destruct (HasPrefix a (text "-")) eqn:Hp; cbn [negb]; [|done]. case_decide as Ha.
    + intros (-> & Hs & Hall)%IH. rewrite filter_cons_False by naive_solver. split_and!; [done| |by constructor]. rewrite Hs. set_solver.
    + intros (-> & Hs & Hall)%IH. rewrite filter_cons_True by done. split_and!; [by rewrite <- app_assoc| |by constructor].
      rewrite Hs, elem_of_cons. split; [naive_solver|]. intros [?|[?|?]]; [by left|congruence|by right].
Qed.

(** Accepted are exactly the calls of git-upload-pack: pack-objects with flags only,
    one of which asks for the pack on standard output, after an empty shallow file at
    most; what git is called with are the same flags, with that one in front. *)
Theorem parsePackObjectsArgs_correct args p :
  parsePackObjectsArgs args = Ok p ->
  exists flags, args = (if shallowFile p then [text "--shallow-file"; []] else []) ++ text "pack-objects" :: flags /\
    text "--stdout" ∈ flags /\ Forall (fun a => HasPrefix a (text "-") = true) flags /\
    subcmdFlags p = OFlag <$> text "--stdout" :: filter (fun a => a ≠ text "--stdout") flags.
Proof.
  assert (Hmain : forall shallow args, parseCommand shallow args = Ok p -> exists flags,
    shallowFile p = shallow /\ args = text "pack-objects" :: flags /\ text "--stdout" ∈ flags /\
    Forall (fun a => HasPrefix a (text "-") = true) flags /\
    subcmdFlags p = OFlag <$> text "--stdout" :: filter (fun a => a ≠ text "--stdout") flags).
  { intros shallow [|a0 rest]; [done|]. unfold parseCommand. case_decide as Ha; [|done]. subst a0.
    destruct (collectFlags false [] rest) as [[seen flags]| |] eqn:Hc; [|done..].
    apply collectFlags_ok in Hc as (-> & Hs & Hall). destruct seen; [|done]. cbn [negb]. intros [= <-]. exists rest.
    split_and!; try done. by destruct (proj1 Hs eq_refl). }
  unfold parsePackObjectsArgs. destruct args as [|a0 [|a1 rest]]; [done| |].
  - intros (flags & -> & Heq & H)%Hmain. by exists flags.
  - case_decide as Ha.
    + destruct Ha as [-> ->]. intros (flags & -> & -> & H)%Hmain. by exists flags.
    + intros (flags & -> & Heq & H)%Hmain. by exists flags.
Qed.

(** ** Output, properties *)

Definition bandOf (p : Piece) : byte * bytes :=
  match p with Stdout data => (bandStdout, data) | Stderr data => (bandStderr, data) end.

Definition stdoutOf (l : list Piece) : bytes := concat ((fun p => match p with Stdout d => d | Stderr _ => [] end) <$> l).
Definition stderrOf (l : list Piece) : bytes := concat ((fun p => match p with Stderr d => d | Stdout _ => [] end) <$> l).

Lemma sidebandWrite_frames band data w : sidebandWrite band data w = (Ok tt, default w (writeBands [(band, data)] w)).
Proof.
  unfold sidebandWrite. cbn [writeBands]. unfold writeBand. by rewrite writeBandLoop_sink by lia.
Qed.

(** A stream that holds these writes to side bands. *)
Definition holdsWrites (w : bytes) (l : list (byte * bytes)) : Prop := writeBands l [] = Some w.

Lemma writeBands_app l l' w : writeBands (l ++ l') w = w' ← writeBands l w; writeBands l' w'.
Proof. rewrite !writeBands_frames. cbn. by rewrite writeBands_frames, bind_app, fmap_app, concat_app, app_assoc. Qed.

Lemma holdsWrites_snoc w l band data :
  holdsWrites w l -> holdsWrites (sidebandWrite band data w).2 (l ++ [(band, data)]).
Proof.
  unfold holdsWrites. intros Hw. rewrite writeBands_app, Hw, sidebandWrite_frames. cbn [mbind option_bind snd].
  by rewrite writeBands_frames.
Qed.

(** What has been written by git is in the stream or still buffered. *)
Definition tracks (b : bufWriter WriteError) (w : bytes) (stdout stderr : bytes) : Prop :=
  buf_err b = None /\ exists l, holdsWrites w l /\ Forall (fun p => p.1 = bandStdout \/ p.1 = bandStderr) l /\
    ofBand bandStdout l ++ buffered b = stdout /\ ofBand bandStderr l = stderr.

Lemma ofBand_snoc band l band' data :
  ofBand band (l ++ [(band', data)]) = ofBand band l ++ if decide (band' = band) then data else [].
Proof.
  unfold ofBand. rewrite filter_app, fmap_app, concat_app. f_equal. rewrite filter_cons. cbn [fst].
  case_decide; cbn; by rewrite ?app_nil_r.
Qed.

Lemma tracks_write data b w stdout stderr :
  tracks b w stdout stderr -> buffered b = [] ->
  tracks (mkBuf [] None) (sidebandWrite bandStdout data w).2 (stdout ++ data) stderr.
Proof.
  intros (He & l & Hw & Hb & Ho & Hs) Hbuf. split; [done|]. exists (l ++ [(bandStdout, data)]). split_and!.
  - by apply holdsWrites_snoc.
  - apply Forall_app. split; [done|]. constructor; [by left|constructor].
  - rewrite ofBand_snoc, decide_True by done. rewrite <- Ho, Hbuf. by rewrite !app_nil_r.
  - rewrite ofBand_snoc, decide_False by done. by rewrite app_nil_r.
Qed.

Lemma tracks_flush b w stdout stderr :
  tracks b w stdout stderr ->
  let (b', w') := Flush (sidebandWrite bandStdout) b w in tracks b' w' stdout stderr /\ buffered b' = [].
Proof.
  intros Ht. pose proof Ht as (He & l & Hw & Hb & Ho & Hs). unfold Flush. rewrite He.
  destruct (buffered b) as [|x data] eqn:Hbuf; [done|]. rewrite sidebandWrite_frames. split; [|done].
  assert (Ht' : tracks (mkBuf [] None) w (ofBand bandStdout l) stderr) by (split; [done|]; exists l; by rewrite app_nil_r).
  apply (tracks_write (x :: data)) in Ht'; [|done]. rewrite sidebandWrite_frames, Ho in Ht'. exact Ht'.
Qed.

Lemma bufWrite_tracks p b w stdout stderr :
  tracks b w stdout stderr ->
  exists b' w', bufWrite (sidebandWrite bandStdout) bufSize p b w = Some (b', w') /\ tracks b' w' (stdout ++ p) stderr.
Proof.
  intros Ht.
  assert (Hfit : forall fuel p b w stdout, tracks b w stdout stderr -> (length p <= bufSize - length (buffered b))%nat ->
    exists b' w', bufLoop (sidebandWrite bandStdout) bufSize fuel p b w = Some (b', w') /\ tracks b' w' (stdout ++ p) stderr).
  { intros fuel p0 b0 w0 out0 (He & l & Hw & Hb & Ho & Hs) Hle. exists (mkBuf (buffered b0 ++ p0) None), w0.
    destruct fuel; cbn [bufLoop]; rewrite He, decide_True by done; (split; [done|]); (split; [done|]); exists l;
      (split_and!; [done..| |done]); cbn; by rewrite app_assoc, Ho. }
  assert (Hempty : forall fuel p b w stdout, tracks b w stdout stderr -> buffered b = [] ->
    exists b' w', bufLoop (sidebandWrite bandStdout) bufSize (S fuel) p b w = Some (b', w') /\ tracks b' w' (stdout ++ p) stderr).
  { intros fuel p0 b0 w0 out0 Ht0 Hbuf. destruct (decide (length p0 <= bufSize - length (buffered b0))%nat) as [Hle|Hgt]; [by apply Hfit|].
    pose proof (tracks_write p0 b0 w0 out0 stderr Ht0 Hbuf) as Ht1. destruct Ht0 as [He _].
    cbn [bufLoop]. rewrite He, decide_False, Hbuf by done. rewrite sidebandWrite_frames in *.
    destruct (Hfit fuel [] _ _ _ Ht1) as (b' & w' & Hb & Htr); [cbn; lia|]. rewrite app_nil_r in Htr. eauto. }
  unfold bufWrite. destruct (decide (length p <= bufSize - length (buffered b))%nat) as [Hle|Hgt]; [by apply Hfit|].
  destruct (buffered b) as [|x data] eqn:Hbuf; [by apply Hempty|]. pose proof Ht as (He & l & Hw & Hb & Ho & Hs).
  remember 1%nat as one eqn:H1. cbn [bufLoop]. rewrite He, Hbuf, decide_False by done.
  set (n := (bufSize - length (x :: data))%nat).
  assert (Ht' : tracks (mkBuf ((x :: data) ++ take n p) None) w (stdout ++ take n p) stderr).
  { split; [done|]. exists l. cbn [buffered]. rewrite Hbuf in Ho. split_and!; [done..| |done]. by rewrite app_assoc, Ho. }
  pose proof (tracks_flush _ _ _ _ Ht') as Hfl. destruct (Flush _ _ _) as [b1 w1]. destruct Hfl as [Ht1 Hb1]. subst one.
  destruct (Hempty 0%nat (drop n p) b1 w1 _ Ht1 Hb1) as (b' & w' & Hr & Htr). exists b', w'. split; [exact Hr|].
  by rewrite <- app_assoc, take_drop in Htr.
Qed.

Lemma copyOutput_tracks pieces : forall b w stdout stderr,
  tracks b w stdout stderr ->
  exists b' w', copyOutput pieces b w = Some (b', w') /\ tracks b' w' (stdout ++ stdoutOf pieces) (stderr ++ stderrOf pieces).
Proof.
  unfold stdoutOf, stderrOf. induction pieces as [|[data|data] pieces IH]; intros b w stdout stderr Ht; cbn [copyOutput fmap list_fmap concat].
  - exists b, w. by rewrite !app_nil_r.
  - destruct (bufWrite_tracks data b w stdout stderr Ht) as (b1 & w1 & -> & Ht1). cbn [mbind option_bind app].
    destruct (IH _ _ _ _ Ht1) as (b' & w' & Hc & Ht'). exists b', w'. by rewrite app_assoc.
  - cbn [app]. rewrite (app_assoc stderr). apply IH. destruct Ht as (He & l & Hw & Hb & Ho & Hs). split; [done|].
    exists (l ++ [(bandStderr, data)]). split_and!.
    + by apply holdsWrites_snoc.
    + apply Forall_app. split; [done|]. constructor; [by right|constructor].
    + rewrite ofBand_snoc, decide_False by done. by rewrite app_nil_r.
    + rewrite ofBand_snoc, decide_True by done. by rewrite Hs.
Qed.

Definition pieceOf (p : byte * bytes) : Piece := if decide (p.1 = bandStdout) then Stdout p.2 else Stderr p.2.

Lemma pieces_of_band l :
  Forall (fun p => p.1 = bandStdout \/ p.1 = bandStderr) l ->
  stdoutOf (pieceOf <$> l) = ofBand bandStdout l /\ stderrOf (pieceOf <$> l) = ofBand bandStderr l.
Proof.
  unfold stdoutOf, stderrOf, ofBand. induction 1 as [|[band data] l Hb _ [IH1 IH2]]; [done|].
  rewrite !fmap_cons. cbn [concat fst snd]. rewrite !filter_cons. unfold pieceOf at 1 3. cbn [fst snd] in *.
  destruct Hb as [->| ->]; rewrite ?(decide_True (P := bandStdout = bandStdout)), ?(decide_True (P := bandStderr = bandStderr)),
    ?(decide_False (P := bandStdout = bandStderr)), ?(decide_False (P := bandStderr = bandStdout)) by done;
    rewrite ?fmap_cons; cbn [concat snd app]; by rewrite IH1, IH2.
Qed.

Lemma foldl_pieces l : foldl (fun st p => st ++ [pieceOf p]) [] l = pieceOf <$> l.
Proof.
  assert (H : forall st, foldl (fun st p => st ++ [pieceOf p]) st l = st ++ (pieceOf <$> l)); [|apply H].
  induction l as [|p l IH]; intros st; cbn; [by rewrite app_nil_r|]. rewrite IH, <- app_assoc. done.
Qed.

(** Whatever git-pack-objects writes to its standard output and error, in whatever
    pieces and order, if git succeeds its output ends up in the stream as a whole, and
    a client that is served this stream, however it is cut into reads, is sent exactly
    what git wrote to its output and exactly what it wrote to its error. *)
Theorem pack_objects_roundtrip pieces :
  exists stream, runPackObjects pieces true = Some (stream, Ok tt) /\
  forall chunks fuel, concat chunks = stream -> Forall (fun c => c ≠ []) chunks -> (S (length stream) < fuel)%nat ->
  exists sent, output (fun _ => true) fuel (NewScanner chunks Pktline.EOF) = Some (Ok tt, sent) /\
    stdoutOf sent = stdoutOf pieces /\ stderrOf sent = stderrOf pieces.
Proof.
  assert (H0 : tracks (mkBuf [] None) [] [] []) by (split; [done|]; by exists []).
  destruct (copyOutput_tracks pieces _ _ _ _ H0) as (b & w & Hc & Ht). cbn [app] in Ht.
  pose proof (tracks_flush _ _ _ _ Ht) as Hf. unfold runPackObjects. rewrite Hc. cbn [mbind option_bind negb].
  destruct (Flush _ b w) as [b' w']. destruct Hf as [(He & l & Hw & Hb & Ho & Hs) Hbuf]. rewrite He. exists w'. split; [done|].
  intros chunks fuel Heq Hne Hfuel. unfold holdsWrites in Hw. rewrite writeBands_frames in Hw. injection Hw as Hw. cbn [app] in Hw.
  set (frames := l ≫= framesOf) in Hw.
  assert (Hbands : Forall (fun p => p.1 = bandStdout \/ p.1 = bandStderr) frames).
  { apply Forall_bind. eapply Forall_impl; [exact Hb|]. intros [band data] Hband. unfold framesOf. apply Forall_fmap, Forall_forall. done. }
  exists (pieceOf <$> frames). destruct (pieces_of_band frames Hbands) as [-> ->]. split.
  - unfold output. rewrite (Each_frames (respond (fun _ => true)) (fun p st => st ++ [pieceOf p]) frames).
    + f_equal. f_equal. apply foldl_pieces.
    + eapply framesOf_fit.
    + intros band data st Hin. rewrite Forall_forall in Hbands. specialize (Hbands _ Hin). cbn [fst] in Hbands.
      unfold respond, pieceOf. cbn [fst snd]. case_decide; [done|]. case_decide; [done|]. naive_solver.
    + by apply NewScanner_ok.
    + unfold remaining. cbn. by rewrite Heq.
    + unfold remaining. cbn. by rewrite Heq.
  - unfold frames. rewrite !ofBand_frames, <- Ho, Hbuf. by rewrite app_nil_r.
Qed.
