(* ===== verification/DiskCache.v ===== *)
(** The cache of responses on disk (src/internal/cache: keyer.go, diskcache.go,
    walker.go), the interceptors that invalidate it
    (src/internal/middleware/cache/cache.go) and its use for reference
    advertisements (src/internal/gitaly/service/smarthttp/cache.go).

    The functions are programs of calls to the file system. Any number of requests
    and of operations that change one repository run at the same time, call by call;
    calls may fail. A file that is written to a temporary name and renamed
    (SafeFile.v) is one call. A UUID is a number that was not used before. *)

From Stdlib Require Import Strings.Ascii.
From S2P Require Import Pktline Voting GoStrings Locator Effects Threads StreamCache Prelude.

(** ** Paths and keys *)

Section Paths.
Context (storages : list Storage).

Definition pendingDir (repoStateDir : list ascii) : list ascii := JoinPath repoStateDir (text "pending").
Definition latestPath (repoStateDir : list ascii) : list ascii := JoinPath repoStateDir (text "latest").

Definition getRepoStatePath (repo : GitRepo) : out LocatorError (list ascii) :=
  storagePath ← GetStorageByName storages (GetStorageName repo);
  stateDir ← StateDir storages (GetStorageName repo);
  let relativePath := GetRelativePath repo in
  if decide (relativePath = []) then Err (InvalidArgument "getRepoStatePath: relative path missing")
  else
    _ ← ValidateRelativePath storagePath relativePath;
    Ok (JoinPath stateDir relativePath).

(** The directory of a key is named after its first byte. *)
Definition radixPath (root key : list ascii) : list ascii := JoinPath (JoinPath root (take 2 key)) (drop 2 key).

End Paths.

(** [fmt.Sprintf("%08x%s", len(s), s)] *)
Definition prefixLen (s : bytes) : bytes :=
  hexDigits (if len s <? 16 ^ 8 then 8 else Z.to_nat (Z.log2 (len s) / 4 + 1)) (len s) ++ s.

Definition joinSpace (l : list bytes) : bytes :=
  match l with [] => [] | x :: l => x ++ concat ((fun y => x20 :: y) <$> l) end.

(** What is hashed; [flags] are the sorted feature flags. *)
Definition compositeKey (version method genID request : bytes) (flags : list bytes) : bytes :=
  concat (prefixLen <$> [version; method; genID; request; joinSpace flags]).

Definition compositeKeyHashHex (sha256 : bytes -> bytes) (version : bytes) (method : option bytes) (genID : bytes)
    (request : option bytes) (flags : list bytes) : out string (list ascii) :=
  match method, request with
  | None, _ => Err "context does not contain gRPC method name"
  | _, None => Err "marshal"
  | Some method, Some request => Ok (hexText (sha256 (compositeKey version method genID request flags)))
  end.

(** ** Calls *)

Inductive FsError : Type := ENotExist | EOther.

(** Who makes a call: the lookup or the store of a request, or the end of a lease. *)
Inductive Who : Type :=
| Getter (i : nat)
| Putter (i : nat)
| Ender (lease : nat).

(** A response of git: the request it answers, the version of the repository it was
    computed from, and whether that was before the key to store it under was known.
    None of this is seen by the code. *)
Record Response : Type := mkResponse {
  r_request : nat;
  r_version : nat;
  r_early : bool;
}.

Inductive Call : Type -> Type :=
| ReadPending (who : Who) : Call (FsError + list (nat * Z))
| Since (modTime : Z) : Call Z
| RemovePending (lease : nat) : Call (FsError + unit)
| ReadLatest (who : Who) : Call (FsError + nat)
| MkdirAll : Call (FsError + unit)
| WriteLatest (who : Who) : Call (FsError + nat)
| RemoveLatest : Call (FsError + unit)
| CreatePending : Call (FsError + nat)
| OpenCached (generation request : nat) : Call (FsError + Response)
| CopyStream (i : nat) : Call (FsError + Response)
| CommitCached (generation request : nat) (data : Response) : Call (FsError + unit)
| Missed (i : nat) : Call unit
| AwaitMiss (i : nat) : Call unit
| Compute (i request : nat) : Call (FsError + unit)
| Change (lease : option nat) : Call unit.

(** ** The keyer *)

Inductive CacheErr : Type :=
| EFs (e : FsError)
| ELocate (e : LocatorError)
| ErrPendingExists
| ErrMissingLeaseFile
| ErrReqNotFound.

Abbreviation CP := (PM Call CacheErr).

Definition attempt {A} (c : Call (FsError + A)) : CP A :=
  call c (fun r => ret match r with inl e => Err (EFs e) | inr a => Ok a end).

Definition staleAge : Z := 3600 * 10 ^ 9.

Section Keyer.
Context (statePath : out CacheErr (list ascii)).

Definition updateLatest (who : Who) : CP nat :=
  _ ← lift statePath;
  _ ← attempt MkdirAll;
  attempt (WriteLatest who).

Definition currentLeases (who : Who) : CP (list (nat * Z)) :=
  _ ← lift statePath;
  call (ReadPending who) (fun r => ret match r with
    | inl ENotExist => Ok []
    | inr pendings => Ok pendings
    | inl e => Err (EFs e)
    end).

(** The loop over the pending files: stale ones are removed; is there another? *)
Fixpoint dropStale (pending : list (nat * Z)) (anyValidPending : bool) : CP bool :=
  match pending with
  | [] => mret anyValidPending
  | (p, modTime) :: pending =>
    call (Since modTime) (fun age =>
      if staleAge <? age then
        call (RemovePending p) (fun r => match r with
          | inl EOther => raise (EFs EOther)
          | _ => dropStale pending anyValidPending
          end)
      else dropStale pending true)
  end.

Definition currentGenID (who : Who) : CP nat :=
  _ ← lift statePath;
  call (ReadLatest who) (fun r => match r with
    | inl ENotExist => updateLatest who
    | inr g => ret (Ok g)
    | inl e => raise (EFs e)
    end).

(** The generation that the key of a request is made of. *)
Definition keyPath (who : Who) : CP nat :=
  pending ← currentLeases who;
  _ ← lift statePath;
  anyValidPending ← dropStale pending false;
  if (anyValidPending : bool) then raise ErrPendingExists else currentGenID who.

Definition newPendingLease : CP nat :=
  _ ← lift statePath;
  call RemoveLatest (fun r => match r with
    | inl EOther => raise (EFs EOther)
    | _ => _ ← attempt MkdirAll; attempt CreatePending
    end).

(** ** Streams and leases *)

Definition GetStream (i request : nat) : CP Response :=
  g ← prog_bind (keyPath (Getter i)) (fun r => ret match r with
        | Err (EFs ENotExist) => Err ErrReqNotFound
        | r => r
        end);
  call (OpenCached g request) (fun r => ret match r with
    | inl ENotExist => Err ErrReqNotFound
    | inr data => Ok data
    | inl e => Err (EFs e)
    end).

Definition PutStream (i request : nat) : CP unit :=
  g ← keyPath (Putter i);
  _ ← attempt MkdirAll;
  data ← attempt (CopyStream i);
  attempt (CommitCached g request data).

Definition StartLease : CP nat := newPendingLease.

Definition EndLease (lease : nat) : CP unit :=
  _ ← updateLatest (Ender lease);
  call (RemovePending lease) (fun r => ret match r with
    | inl ENotExist => Err ErrMissingLeaseFile
    | inl e => Err (EFs e)
    | inr _ => Ok tt
    end).

(** ** Interceptors *)

(** The handler of a request changes the repository any number of times. *)
Fixpoint handler (lease : option nat) (changes : nat) : CP unit :=
  match changes with
  | O => mret tt
  | S n => call (Change lease) (fun _ => handler lease n)
  end.

(** The handler runs without a lease if none can be had. *)
Definition invalidator (changes : nat) : CP unit :=
  prog_bind StartLease (fun r => match r with
    | Ok lease => _ ← handler (Some lease) changes; prog_bind (EndLease lease) (fun _ => ret (Ok tt))
    | _ => handler None changes
    end).

(** ** Reference advertisements *)

Inductive Outcome : Type :=
| Served (data : Response)
| Uncached
| Stored
| Invalidated.

(** A request looks its answer up. If there is none, two more goroutines start: one
    runs git, the other stores what it writes. After an error git runs alone. *)
Definition tryCache (i request : nat) : prog Call Outcome :=
  prog_bind (GetStream i request) (fun r => match r with
    | Ok data => ret (Served data)
    | Err ErrReqNotFound => call (Missed i) (fun _ => ret Uncached)
    | _ => ret Uncached
    end).

Definition storeGoroutine (i request : nat) : prog Call Outcome :=
  call (AwaitMiss i) (fun _ => prog_bind (PutStream i request) (fun _ => ret Stored)).

Definition missFn (i request : nat) : prog Call Outcome :=
  call (AwaitMiss i) (fun _ => call (Compute i request) (fun _ => ret Uncached)).

Definition mutator (changes : nat) : prog Call Outcome :=
  prog_bind (invalidator changes) (fun _ => ret Invalidated).

End Keyer.

(** ** All together *)

(** The state of one repository and its cache. [floors] has the version the repository
    had when a generation was written, [active] the leases whose operations may still
    change it, [births] when and by whom a lease was taken, [keys] the generations
    under which responses are going to be stored, [started] the version a request
    found when it looked for leases; the code sees none of these. *)
Record State : Type := mkState {
  latest : option nat;
  pending : gset nat;
  cached : gmap (nat * nat) Response;
  missed : gset nat;
  computed : gmap nat (option Response);
  clock : Z;
  version : nat;
  floors : gmap nat nat;
  births : gmap nat (Z * nat);
  active : gset nat;
  keys : gmap nat nat;
  started : gmap nat nat;
}.

Definition set_latest (x : option nat) (s : State) : State :=
  mkState x (pending s) (cached s) (missed s) (computed s) (clock s) (version s) (floors s) (births s) (active s) (keys s) (started s).
Definition set_pending (x : gset nat) (s : State) : State :=
  mkState (latest s) x (cached s) (missed s) (computed s) (clock s) (version s) (floors s) (births s) (active s) (keys s) (started s).
Definition set_cached (x : gmap (nat * nat) Response) (s : State) : State :=
  mkState (latest s) (pending s) x (missed s) (computed s) (clock s) (version s) (floors s) (births s) (active s) (keys s) (started s).
Definition set_missed (x : gset nat) (s : State) : State :=
  mkState (latest s) (pending s) (cached s) x (computed s) (clock s) (version s) (floors s) (births s) (active s) (keys s) (started s).
Definition set_computed (x : gmap nat (option Response)) (s : State) : State :=
  mkState (latest s) (pending s) (cached s) (missed s) x (clock s) (version s) (floors s) (births s) (active s) (keys s) (started s).
Definition set_clock (x : Z) (s : State) : State :=
  mkState (latest s) (pending s) (cached s) (missed s) (computed s) x (version s) (floors s) (births s) (active s) (keys s) (started s).
Definition set_version (x : nat) (s : State) : State :=
  mkState (latest s) (pending s) (cached s) (missed s) (computed s) (clock s) x (floors s) (births s) (active s) (keys s) (started s).
Definition set_floors (x : gmap nat nat) (s : State) : State :=
  mkState (latest s) (pending s) (cached s) (missed s) (computed s) (clock s) (version s) x (births s) (active s) (keys s) (started s).
Definition set_births (x : gmap nat (Z * nat)) (s : State) : State :=
  mkState (latest s) (pending s) (cached s) (missed s) (computed s) (clock s) (version s) (floors s) x (active s) (keys s) (started s).
Definition set_active (x : gset nat) (s : State) : State :=
  mkState (latest s) (pending s) (cached s) (missed s) (computed s) (clock s) (version s) (floors s) (births s) x (keys s) (started s).
Definition set_keys (x : gmap nat nat) (s : State) : State :=
  mkState (latest s) (pending s) (cached s) (missed s) (computed s) (clock s) (version s) (floors s) (births s) (active s) x (started s).
Definition set_started (x : gmap nat nat) (s : State) : State :=
  mkState (latest s) (pending s) (cached s) (missed s) (computed s) (clock s) (version s) (floors s) (births s) (active s) (keys s) x.

Definition emptyState : State := mkState None ∅ ∅ ∅ ∅ 0 0 ∅ ∅ ∅ ∅ ∅.

(** What happens besides the call itself: time passes, the walkers remove files older
    than an hour, and the call fails for a reason of its own. A replacement of a file
    may fail after it took effect, and a directory without files may be missing. *)
Record Choice : Type := mkChoice {
  tick : Z;
  sweepLatest : bool;
  sweepCached : gset (nat * nat);
  sweepPending : gset nat;
  fails : bool;
  variant : bool;
}.

Definition isStale (s : State) (l : nat) : bool :=
  match births s !! l with Some (m, _) => staleAge <=? clock s - m | None => false end.

(** The walkers over the directories of the cache and of the state remove files that
    are old enough, and no lease that is not. *)
Definition cleanWalk (ch : Choice) (s : State) : State :=
  set_pending (filter (fun l => isStale s l = false \/ l ∉ sweepPending ch) (pending s))
    (set_cached (filter (fun kv => kv.1 ∉ sweepCached ch) (cached s))
      (set_latest (if sweepLatest ch then None else latest s) s)).

Definition elapse (ch : Choice) (s : State) : State := set_clock (clock s + Z.max 0 (tick ch)) s.

Definition fresh_key {A} (m : gmap nat A) : nat := fresh (dom m).

(** The generation a request stores its response under, once it knows it. *)
Definition noteKey (who : Who) (g : nat) (s : State) : State :=
  match who with Putter i => set_keys (<[i := g]> (keys s)) s | _ => s end.

(** The version a request starts from. *)
Definition noteStart (who : Who) (s : State) : State :=
  match who with
  | Getter i => match started s !! i with
                | None => set_started (<[i := version s]> (started s)) s
                | Some _ => s
                end
  | _ => s
  end.

(** A new generation takes the place of the latest. *)
Definition replaceLatest (who : Who) (s : State) : nat * State :=
  let g := fresh_key (floors s) in
  let s := set_latest (Some g) (set_floors (<[g := version s]> (floors s)) s) in
  (g, match who with Ender l => set_active (active s ∖ {[l]}) s | _ => s end).

Definition orFail {A} (ch : Choice) (s : State) (r : (FsError + A) * State) : option ((FsError + A) * State) :=
  if fails ch then Some (inl EOther, s) else Some r.

Definition leaseTimes (s : State) : list (nat * Z) :=
  omap (fun l => match births s !! l with Some (m, _) => Some (l, m) | None => None end) (elements (pending s)).

(** One call of thread [t]; [None] is a call that has to wait. *)
Definition perform (t : nat) (ch : Choice) (X : Type) (c : Call X) (s : State) : option (X * State) :=
  match c in Call X return option (X * State) with
  | ReadPending who =>
    let s := noteStart who s in
    orFail ch s (if bool_decide (pending s = ∅) && variant ch then inl ENotExist else inr (leaseTimes s), s)
  | Since m => Some (clock s - m, s)
  | RemovePending l =>
    orFail ch s (if decide (l ∈ pending s) then (inr tt, set_pending (pending s ∖ {[l]}) s) else (inl ENotExist, s))
  | ReadLatest who =>
    orFail ch s match latest s with
                | Some g => (inr g, noteKey who g s)
                | None => (inl ENotExist, s)
                end
  | MkdirAll => orFail ch s (inr tt, s)
  | WriteLatest who =>
    let (g, s') := replaceLatest who s in
    if fails ch then Some (inl EOther, if variant ch then s' else s) else Some (inr g, noteKey who g s')
  | RemoveLatest =>
    orFail ch s match latest s with Some _ => (inr tt, set_latest None s) | None => (inl ENotExist, s) end
  | CreatePending =>
    let l := fresh_key (births s) in
    orFail ch s (inr l, set_active ({[l]} ∪ active s) (set_births (<[l := (clock s, t)]> (births s)) (set_pending ({[l]} ∪ pending s) s)))
  | OpenCached g q =>
    orFail ch s (match cached s !! (g, q) with Some data => inr data | None => inl ENotExist end, s)
  | CopyStream i =>
    match computed s !! i with
    | Some (Some data) => orFail ch s (inr data, s)
    | Some None => Some (inl EOther, s)
    | None => None
    end
  | CommitCached g q data =>
    let s' := set_cached (<[(g, q) := data]> (cached s)) s in
    if fails ch then Some (inl EOther, if variant ch then s' else s) else Some (inr tt, s')
  | Missed i => Some (tt, set_missed ({[i]} ∪ missed s) s)
  | AwaitMiss i => if decide (i ∈ missed s) then Some (tt, s) else None
  | Compute i q =>
    let data := mkResponse q (version s) (bool_decide (keys s !! i = None)) in
    if fails ch then Some (inl EOther, set_computed (<[i := None]> (computed s)) s)
    else Some (inr tt, set_computed (<[i := Some data]> (computed s)) s)
  | Change _ => Some (tt, set_version (S (version s)) s)
  end.

Definition perform_all (t : nat) (ch : Choice) (X : Type) (c : Call X) (s : State) : option (X * State) :=
  perform t ch X c (cleanWalk ch (elapse ch s)).

(** No operation takes an hour, and none runs without its lease. *)
Definition young (s : State) : Prop := forall l m t, l ∈ active s -> births s !! l = Some (m, t) -> clock s - m < staleAge.

Definition leased {X} (c : Call X) : Prop := match c with Change None => False | _ => True end.

Definition sys (t : nat) (X : Type) (c : Call X) (s : State) (x : X) (s' : State) : Prop :=
  exists ch, perform_all t ch X c s = Some (x, s') /\ young (elapse ch s) /\ leased c.

(** ** What holds of the state *)

Definition floorOf (s : State) (g v : nat) : Prop := exists f, floors s !! g = Some f /\ (f <= v)%nat.

Section Requests.

(** What the requests ask for. *)
Context (requestOf : nat -> nat).

Record inv (s : State) : Prop := {
  i_floors : forall g f, floors s !! g = Some f -> (f <= version s)%nat;
  i_latest : forall g, latest s = Some g -> exists f, floors s !! g = Some f /\ (f = version s \/ active s ≠ ∅);
  i_active : active s ⊆ pending s;
  i_births : forall l, l ∈ pending s -> is_Some (births s !! l);
  i_cached : forall g q r, cached s !! (g, q) = Some r ->
    r_request r = q /\ (r_version r <= version s)%nat /\ (r_early r = false -> floorOf s g (r_version r));
  i_keys : forall i g, keys s !! i = Some g -> is_Some (floors s !! g);
  i_computed : forall i r, computed s !! i = Some (Some r) ->
    r_request r = requestOf i /\ (r_version r <= version s)%nat /\
    (r_early r = false -> exists g, keys s !! i = Some g /\ floorOf s g (r_version r));
}.

(** What every step keeps: versions and floors only grow, a generation becomes the
    latest only once, and what a lease is does not change. *)
Record grows (s s' : State) : Prop := {
  g_version : (version s <= version s')%nat;
  g_floors : forall g f, floors s !! g = Some f -> floors s' !! g = Some f;
  g_latest : forall g, latest s' = Some g -> latest s = Some g \/ exists f, floors s' !! g = Some f /\ (version s <= f)%nat;
  g_births : forall l b, births s !! l = Some b -> births s' !! l = Some b;
  g_inactive : forall l, is_Some (births s !! l) -> l ∉ active s -> l ∉ active s';
  g_ended : forall l, l ∈ active s -> l ∉ active s' ->
    forall g, latest s' = Some g -> exists f, floors s' !! g = Some f /\ (version s <= f)%nat;
  g_started : forall i v, started s !! i = Some v -> started s' !! i = Some v;
  g_keys : forall i g, keys s !! i = Some g -> keys s' !! i = Some g;
}.

Lemma dc_grows_refl s : grows s s.
Proof. constructor; eauto. done. Qed.

Lemma dc_grows_trans s1 s2 s3 : grows s1 s2 -> grows s2 s3 -> grows s1 s3.
Proof.
  intros [A1 A2 A3 A4 A5 A6 A7 A8] [B1 B2 B3 B4 B5 B6 B7 B8].
  assert (Hnew : forall g f, floors s2 !! g = Some f /\ (version s1 <= f)%nat -> exists f, floors s3 !! g = Some f /\ (version s1 <= f)%nat).
  { intros g f [Hf Hle]. exists f. split; [auto|lia]. }
  assert (Hnew' : forall g f, floors s3 !! g = Some f /\ (version s2 <= f)%nat -> exists f, floors s3 !! g = Some f /\ (version s1 <= f)%nat).
  { intros g f [Hf Hle]. exists f. split; [auto|lia]. }
  constructor; [lia|auto| |auto| | |auto|auto].
  - intros g Hg. destruct (B3 g Hg) as [H2|(f & Hf)]; [|right; eauto]. destruct (A3 g H2) as [?|(f & Hf)]; [by left|right; eauto].
  - intros l [b Hb] Hl. apply B5; [|by apply A5]. eexists. by apply A4.
  - intros l Hl Hn g Hg. destruct (decide (l ∈ active s2)) as [Hl2|Hl2].
    + destruct (B6 l Hl2 Hn g Hg) as (f & Hf). eauto.
    + destruct (B3 g Hg) as [H2|(f & Hf)]; [|eauto]. destruct (A6 l Hl Hl2 g H2) as (f & Hf). eauto.
Qed.

Lemma floorOf_grows s s' g v : grows s s' -> floorOf s g v -> floorOf s' g v.
Proof. intros [_ Hf _ _ _ _ _ _] (f & Hg & Hle). exists f. split; [by apply Hf|done]. Qed.

(** Time and the walkers change nothing that matters, unless a lease is an hour old. *)
Lemma sweep_inv ch s :
  inv s -> young (elapse ch s) -> inv (cleanWalk ch (elapse ch s)) /\ grows s (cleanWalk ch (elapse ch s)).
Proof.
  intros [H1 H2 H3 H4 H5 H6 H7] Hy. split; constructor; cbn; try done.
  - intros g. destruct (sweepLatest ch); [done|]. apply H2.
  - intros l Hl. apply elem_of_filter. split; [left|by apply H3]. destruct (H4 l (H3 l Hl)) as [[m t] Hb].
    unfold isStale. cbn. rewrite Hb. specialize (Hy l m t Hl Hb). cbn in Hy. apply Z.leb_gt. lia.
  - intros l [_ Hl]%elem_of_filter. by apply H4.
  - intros g q r [Hr _]%map_lookup_filter_Some. by apply H5.
  - intros g. destruct (sweepLatest ch); [done|]. by left.
Qed.

Section Threads.

(** The threads of the lookups and the stores of requests. *)
Context (getter putter : nat -> nat).

Definition rely (t : nat) (s s' : State) : Prop :=
  grows s s' /\
  (forall i, t = getter i -> started s' !! i = started s !! i) /\
  (forall i, t = putter i -> keys s' !! i = keys s !! i) /\
  (forall l m, births s !! l = Some (m, t) -> l ∈ active s -> l ∈ active s').

Definition guar (t : nat) (s s' : State) : Prop :=
  grows s s' /\
  (forall i, t ≠ getter i -> started s' !! i = started s !! i) /\
  (forall i, t ≠ putter i -> keys s' !! i = keys s !! i) /\
  (forall l m u, births s !! l = Some (m, u) -> t ≠ u -> l ∈ active s -> l ∈ active s').

Lemma dc_guar_rely t t' s s' : t ≠ t' -> guar t s s' -> rely t' s s'.
Proof. intros Hne (Hg & Hs & Hk & Ha). split_and!; [done|..]; [intros i ->; auto|intros i ->; auto|eauto]. Qed.

Lemma guar_sweep t ch s s1 :
  inv s -> young (elapse ch s) -> guar t (cleanWalk ch (elapse ch s)) s1 -> guar t s s1.
Proof.
  intros Hi Hy (Hg & Hs & Hk & Ha). destruct (sweep_inv ch s Hi Hy) as [_ Hgr].
  split_and!; [by eapply dc_grows_trans|exact Hs|exact Hk|exact Ha].
Qed.

Lemma dc_guar_refl t s : guar t s s.
Proof. split_and!; auto using dc_grows_refl. Qed.

Lemma rely_grows t s s' : rtc (rely t) s s' -> grows s s'.
Proof. induction 1 as [|s s1 s' [Hg _] _ IH]; [apply dc_grows_refl|by eapply dc_grows_trans]. Qed.

(** A step of a thread that is thought of as being made after the walkers'. *)
Lemma secure_step {B X} t (P : State -> Prop) (c : Call X) (k : X -> prog Call B) Q s :
  stable rely t P -> (forall s ch, inv s -> young (elapse ch s) -> P s -> P (cleanWalk ch (elapse ch s))) -> P s ->
  (forall s ch x s', inv s -> young s -> P s -> leased c -> perform t ch X c s = Some (x, s') ->
    guar t s s' /\ inv s' /\ secure sys inv rely guar t (k x) Q s') ->
  secure sys inv rely guar t (call c k) Q s.
Proof.
  intros Hst Hsw HP Hc. apply (secure_call sys inv rely guar t P); [done|done|].
  intros s1 x s2 Hi H1 (ch & Hp & Hy & Hl). destruct (sweep_inv ch s1 Hi Hy) as [Hi' _].
  destruct (Hc (cleanWalk ch (elapse ch s1)) ch x s2) as (Hg & Hi2 & Hs2); [done|exact Hy|by apply Hsw|done|done|].
  split_and!; [by eapply guar_sweep|done|done].
Qed.

(** *** Single calls *)

Lemma orFail_cases {A} ch s (r : (FsError + A) * State) x s' :
  orFail ch s r = Some (x, s') -> (x = inl EOther /\ s' = s) \/ r = (x, s').
Proof. unfold orFail. destruct (fails ch); [intros [= <- <-]; by left|intros [= ->]; by right]. Qed.

(** Changes that no other part of the invariant depends on. *)
Lemma same_inv t s s' :
  inv s -> version s' = version s -> floors s' = floors s -> births s' = births s -> active s' = active s ->
  keys s' = keys s -> cached s' = cached s -> computed s' = computed s ->
  latest s' = latest s \/ latest s' = None -> pending s' ⊆ pending s -> active s ⊆ pending s' ->
  (forall i, t ≠ getter i -> started s' !! i = started s !! i) ->
  (forall i v, started s !! i = Some v -> started s' !! i = Some v) -> guar t s s' /\ inv s'.
Proof.
  intros [H1 H2 H3 H4 H5 H6 H7] Hv Hf Hb Ha Hk Hc Hco Hl Hp Hap Hs Hs'. split.
  - split_and!; [constructor|done|..]; rewrite ?Hv, ?Hf, ?Hb, ?Ha, ?Hk; try done; auto.
    intros g Hg. left. destruct Hl; congruence.
  - constructor; unfold floorOf; rewrite ?Hv, ?Hf, ?Hb, ?Ha, ?Hk, ?Hc, ?Hco; auto.
    intros g Hg. apply H2. destruct Hl; congruence.
Qed.

Lemma ReadPending_step t ch who s x s' :
  inv s -> (forall i, who = Getter i -> t = getter i /\ started s !! i = None) -> perform t ch _ (ReadPending who) s = Some (x, s') ->
  guar t s s' /\ inv s' /\ (forall i, who = Getter i -> started s' !! i = Some (version s)) /\ version s' = version s /\ keys s' = keys s /\
  births s' = births s /\ active s' = active s /\ latest s' = latest s /\ floors s' = floors s /\ pending s' = pending s /\
  (x = inl ENotExist /\ pending s = ∅ \/ x = inl EOther \/ x = inr (leaseTimes s')).
Proof.
  intros Hi Hw Hp. cbn in Hp.
  set (s1 := noteStart who s) in Hp.
  assert (Hps : pending s1 = pending s) by (unfold s1; destruct who as [i| |]; [cbn; by destruct (started s !! i)|done..]).
  assert (s' = s1 /\ (x = inl ENotExist /\ pending s = ∅ \/ x = inl EOther \/ x = inr (leaseTimes s1))) as [-> Hl].
  { apply orFail_cases in Hp as [(-> & ->)|Hp]; [by auto|]. injection Hp as <- <-. split; [done|].
    destruct (bool_decide_reflect (pending s1 = ∅)) as [He|]; [|by auto]. destruct (variant ch); [left|by auto]. split; [done|congruence]. }
  assert (Hsame : version s1 = version s /\ keys s1 = keys s /\ births s1 = births s /\ active s1 = active s /\ latest s1 = latest s /\ floors s1 = floors s)
    by (unfold s1; destruct who as [i| |]; [cbn; by destruct (started s !! i)|done..]).
  destruct Hsame as (? & ? & ? & ? & ? & ?).
  assert (guar t s s1 /\ inv s1) as [Hg Hi1].
  { unfold s1. destruct who as [i| |]; [|split; [apply dc_guar_refl|done]..]. destruct (Hw i eq_refl) as [-> Hn]. cbn. rewrite Hn.
    apply same_inv; cbn; try done; try apply Hi; [by left|..].
    - intros j Hj. rewrite lookup_insert_ne; [done|]. by intros ->.
    - intros j v Hv. rewrite lookup_insert_ne; [done|]. intros ->. congruence. }
  split_and!; try done. intros i ->. unfold s1. cbn. destruct (Hw i eq_refl) as [_ ->]. cbn. by rewrite lookup_insert_eq.
Qed.

Lemma RemovePending_step t ch l s x s' :
  inv s -> l ∉ active s -> perform t ch _ (RemovePending l) s = Some (x, s') -> guar t s s' /\ inv s' /\ keys s' = keys s.
Proof.
  intros Hi Hl Hp. cbn in Hp. apply orFail_cases in Hp as [(_ & ->)|Hp]; [by split_and!; [apply dc_guar_refl|..]|].
  case_decide; injection Hp as _ <-; [|by split_and!; [apply dc_guar_refl|..]]. rewrite (and_assoc (guar _ _ _)). split; [|done].
  apply same_inv; cbn; try done; [by left|set_solver|]. pose proof (i_active s Hi). set_solver.
Qed.

Lemma RemoveLatest_step t ch s x s' :
  inv s -> perform t ch _ RemoveLatest s = Some (x, s') -> guar t s s' /\ inv s'.
Proof.
  intros Hi Hp. cbn in Hp. apply orFail_cases in Hp as [(_ & ->)|Hp]; [by split; [apply dc_guar_refl|]|].
  destruct (latest s); injection Hp as _ <-; [|by split; [apply dc_guar_refl|]].
  apply same_inv; cbn; try done; [by right|apply Hi].
Qed.

(** A key that is noted for the first time. *)
Lemma noteKey_ok t who g s :
  inv s -> is_Some (floors s !! g) -> (forall i, who = Putter i -> t = putter i /\ keys s !! i = None) ->
  guar t s (noteKey who g s) /\ inv (noteKey who g s) /\ (forall i, who = Putter i -> keys (noteKey who g s) !! i = Some g).
Proof.
  intros Hi Hg Hw. destruct who as [i|i|l]; cbn [noteKey]; [by split_and!; [apply dc_guar_refl|..]| |by split_and!; [apply dc_guar_refl|..]].
  destruct (Hw i eq_refl) as [-> Hnone]. pose proof Hi as [H1 H2 H3 H4 H5 H6 H7]. split_and!.
  - split_and!; [constructor; cbn; try done; [by left|]|done| |done].
    + intros j g' Hj. rewrite lookup_insert_ne; [done|]. intros ->. congruence.
    + intros j Hj. cbn. rewrite lookup_insert_ne; [done|]. by intros ->.
  - constructor; cbn; try done.
    + intros j g'. rewrite lookup_insert_Some. intros [[<- <-]|[_ Hj]]; eauto.
    + intros j r Hr. destruct (H7 j r Hr) as (Hq & Hv & He). split_and!; [done..|]. intros Hn. destruct (He Hn) as (g' & Hk & Hf).
      exists g'. split; [|done]. rewrite lookup_insert_ne; [done|]. intros ->. congruence.
  - intros j [= ->]. cbn. by rewrite lookup_insert_eq.
Qed.

Lemma guar_trans t s1 s2 s3 : guar t s1 s2 -> guar t s2 s3 -> guar t s1 s3.
Proof.
  intros (G1 & S1 & K1 & A1) (G2 & S2 & K2 & A2). split_and!; [by eapply dc_grows_trans| | |].
  - intros i Hi. by rewrite S2, S1.
  - intros i Hi. by rewrite K2, K1.
  - intros l m u Hb Hne Hl. eapply A2; [by apply (g_births _ _ G1)|done|by eapply A1].
Qed.

Lemma ReadLatest_step t ch who s x s' :
  inv s -> (forall i, who = Putter i -> t = putter i /\ keys s !! i = None) ->
  perform t ch _ (ReadLatest who) s = Some (x, s') ->
  guar t s s' /\ inv s' /\
  match x with
  | inl _ => s' = s
  | inr g => latest s = Some g /\ (forall i, who = Putter i -> keys s' !! i = Some g)
  end.
Proof.
  intros Hi Hw Hp. cbn in Hp. apply orFail_cases in Hp as [(-> & ->)|Hp]; [by split; [apply dc_guar_refl|]|].
  destruct (latest s) as [g|] eqn:Hl; injection Hp as <- <-; [|by split; [apply dc_guar_refl|]].
  destruct (i_latest s Hi g Hl) as (f & Hf & _). destruct (noteKey_ok t who g s Hi (ex_intro _ f Hf) Hw) as (? & ? & ?). done.
Qed.

Lemma fresh_key_None {A} (m : gmap nat A) : m !! fresh_key m = None.
Proof. apply not_elem_of_dom, is_fresh. Qed.

Lemma replaceLatest_ok t who s :
  inv s -> (forall l, who = Ender l -> exists m, births s !! l = Some (m, t)) ->
  let '(g, s') := replaceLatest who s in
  guar t s s' /\ inv s' /\ floors s' !! g = Some (version s) /\ keys s' = keys s /\ started s' = started s /\
  (forall l, who = Ender l -> l ∉ active s').
Proof.
  intros Hi Hw. pose proof Hi as [H1 H2 H3 H4 H5 H6 H7]. unfold replaceLatest. set (g := fresh_key (floors s)).
  pose proof (fresh_key_None (floors s)) as Hg. fold g in Hg.
  set (s1 := set_latest (Some g) (set_floors (<[g := version s]> (floors s)) s)).
  assert (Hkeep : forall g' f, floors s !! g' = Some f -> floors s1 !! g' = Some f).
  { intros g' f Hf. cbn. rewrite lookup_insert_ne; [done|]. intros ->. congruence. }
  assert (Hinv : forall a, a ⊆ active s -> inv (set_active a s1)).
  { intros a Ha. constructor; cbn; try done.
    - intros g' f. rewrite lookup_insert_Some. intros [[<- <-]|[_ Hf]]; [lia|]. by eapply H1.
    - intros g' [= <-]. exists (version s). rewrite lookup_insert_eq. auto.
    - set_solver.
    - intros g' q r Hr. destruct (H5 g' q r Hr) as (? & ? & He). split_and!; [done..|]. intros Hn.
      destruct (He Hn) as (f & Hf & Hle). exists f. split; [by apply Hkeep|done].
    - intros i g' [f Hf]%H6. eexists. by apply Hkeep.
    - intros i r Hr. destruct (H7 i r Hr) as (? & ? & He). split_and!; [done..|]. intros Hn.
      destruct (He Hn) as (g' & Hk & f & Hf & Hle). exists g'. split; [done|]. exists f. split; [by apply Hkeep|done]. }
  assert (Hgrow : forall a, a ⊆ active s -> grows s (set_active a s1)).
  { intros a Ha. constructor; cbn; try done.
    - intros g' [= <-]. right. exists (version s). by rewrite lookup_insert_eq.
    - set_solver.
    - intros l _ _ g' [= <-]. exists (version s). by rewrite lookup_insert_eq. }
  assert (Hfl : floors s1 !! g = Some (version s)) by (cbn; by rewrite lookup_insert_eq).
  destruct who as [i|i|l].
  1,2: split_and!; try done; [|by apply (Hinv (active s))]; split_and!; [by apply (Hgrow (active s))|done..].
  destruct (Hw l eq_refl) as [m Hb]. split_and!; try done; [|apply Hinv; set_solver|intros l' [= <-]; cbn; set_solver].
  split_and!; [apply Hgrow; set_solver|done|done|]. cbn. intros l' m' u Hb' Hne Hl'. apply elem_of_difference. split; [done|].
  rewrite elem_of_singleton. intros ->. congruence.
Qed.

Lemma WriteLatest_step t ch who s x s' :
  inv s -> (forall l, who = Ender l -> exists m, births s !! l = Some (m, t)) ->
  (forall i, who = Putter i -> t = putter i /\ keys s !! i = None) ->
  perform t ch _ (WriteLatest who) s = Some (x, s') ->
  guar t s s' /\ inv s' /\
  match x with
  | inl _ => True
  | inr g => floorOf s' g (version s') /\ (exists f, floors s' !! g = Some f /\ (version s <= f)%nat) /\
      (forall i, who = Putter i -> keys s' !! i = Some g) /\ (forall l, who = Ender l -> l ∉ active s')
  end.
Proof.
  intros Hi Hw Hk Hp. cbn [perform] in Hp. pose proof (replaceLatest_ok t who s Hi Hw) as Hr.
  destruct (replaceLatest who s) as [g s1]. destruct Hr as (Hg & Hi1 & Hf & Hks & Hst & Ha).
  destruct (fails ch).
  - injection Hp as <- <-. destruct (variant ch); [done|]. by split; [apply dc_guar_refl|].
  - injection Hp as <- <-. destruct (noteKey_ok t who g s1 Hi1 (ex_intro _ _ Hf)) as (Hg2 & Hi2 & Hk2); [by rewrite Hks|].
    assert (Hsame : floors (noteKey who g s1) = floors s1 /\ active (noteKey who g s1) = active s1 /\ version (noteKey who g s1) = version s1) by by destruct who.
    destruct Hsame as (Hfs & Has & Hvs). split_and!; [by eapply guar_trans|done| | |done|by rewrite Has].
    + exists (version s). rewrite Hfs, Hvs. split; [done|]. apply (g_version _ _ (proj1 Hg)).
    + exists (version s). by rewrite Hfs.
Qed.

Lemma CreatePending_step t ch s x s' :
  inv s -> perform t ch _ CreatePending s = Some (x, s') ->
  guar t s s' /\ inv s' /\
  match x with inl _ => True | inr l => l ∈ active s' /\ exists m, births s' !! l = Some (m, t) end.
Proof.
  intros Hi Hp. cbn in Hp. apply orFail_cases in Hp as [(-> & ->)|Hp]; [by split; [apply dc_guar_refl|]|].
  injection Hp as <- <-. set (l := fresh_key (births s)). pose proof (fresh_key_None (births s)) as Hl. fold l in Hl.
  pose proof Hi as [H1 H2 H3 H4 H5 H6 H7]. split_and!.
  - split_and!; [constructor; cbn|done|done|cbn; set_solver]; try done; [by left| | |].
    + intros l' b Hb. rewrite lookup_insert_ne; [done|]. intros ->. congruence.
    + intros l' [b Hb] Ha. rewrite elem_of_union, elem_of_singleton. intros [->|?]; [congruence|done].
    + set_solver.
  - constructor; cbn; try done.
    + intros g Hg. destruct (H2 g Hg) as (f & Hf & _). exists f. split; [done|]. right. set_solver.
    + set_solver.
    + intros l'. rewrite elem_of_union, elem_of_singleton, lookup_insert_is_Some. intros [->|Hp]; [by left|].
      destruct (decide (l = l')); [by left|right]. split; [done|]. by apply H4.
  - cbn. set_solver.
  - cbn. rewrite lookup_insert_eq. eauto.
Qed.

Lemma CommitCached_step t ch g q data s x s' :
  inv s -> r_request data = q -> (r_version data <= version s)%nat -> (r_early data = false -> floorOf s g (r_version data)) ->
  perform t ch _ (CommitCached g q data) s = Some (x, s') -> guar t s s' /\ inv s'.
Proof.
  intros Hi Hq Hv He Hp. cbn in Hp. pose proof Hi as [H1 H2 H3 H4 H5 H6 H7].
  assert (Hok : guar t s (set_cached (<[(g, q) := data]> (cached s)) s) /\ inv (set_cached (<[(g, q) := data]> (cached s)) s)).
  { split; [split_and!; [constructor; cbn; try done; eauto|done..]|]. constructor; cbn; try done.
    intros g' q' r. rewrite lookup_insert_Some. intros [[[= <- <-] <-]|[_ Hr]]; [done|]. by apply H5. }
  destruct (fails ch); injection Hp as _ <-; [destruct (variant ch)|]; try done. by split; [apply dc_guar_refl|].
Qed.

Lemma Compute_step t ch i q s x s' :
  inv s -> q = requestOf i -> perform t ch _ (Compute i q) s = Some (x, s') -> guar t s s' /\ inv s'.
Proof.
  intros Hi -> Hp. cbn in Hp. pose proof Hi as [H1 H2 H3 H4 H5 H6 H7].
  assert (Hok : forall r, (forall d, r = Some d -> d = mkResponse (requestOf i) (version s) (bool_decide (keys s !! i = None))) ->
    guar t s (set_computed (<[i := r]> (computed s)) s) /\ inv (set_computed (<[i := r]> (computed s)) s)).
  { intros r Hr. split; [split_and!; [constructor; cbn; try done; eauto|done..]|]. constructor; cbn; try done.
    intros j d. rewrite lookup_insert_Some. intros [[<- ->]|[_ Hj]]; [|by apply H7]. rewrite (Hr d eq_refl). cbn. split_and!; [done..|].
    intros Hb%bool_decide_eq_false. destruct (keys s !! i) as [g|] eqn:Hk; [|done]. exists g. split; [done|].
    destruct (H6 i g Hk) as [f Hf]. exists f. split; [done|]. by eapply H1. }
  destruct (fails ch); injection Hp as _ <-; apply Hok; [done|]. by intros d [= <-].
Qed.

Lemma Change_step t ch l s x s' :
  inv s -> l ∈ active s -> perform t ch _ (Change (Some l)) s = Some (x, s') ->
  guar t s s' /\ inv s' /\ active s' = active s /\ births s' = births s.
Proof.
  intros Hi Hl Hp. cbn in Hp. injection Hp as _ <-. pose proof Hi as [H1 H2 H3 H4 H5 H6 H7]. split_and!; try done.
  - split_and!; [constructor; cbn; try done; eauto|done..].
  - constructor; cbn; try done.
    + intros g f Hf. specialize (H1 g f Hf). lia.
    + intros g Hg. destruct (H2 g Hg) as (f & Hf & _). exists f. split; [done|]. right. set_solver.
    + intros g q r Hr. destruct (H5 g q r Hr) as (? & ? & ?). split_and!; [done|lia|done].
    + intros i r Hr. destruct (H7 i r Hr) as (? & ? & ?). split_and!; [done|lia|done].
Qed.

(** *** Programs *)

Abbreviation Secure := (secure sys inv rely guar).

(** What neither the other threads nor the walkers change. *)
Definition kept (t : nat) (P : State -> Prop) : Prop :=
  stable rely t P /\ forall s ch, inv s -> young (elapse ch s) -> P s -> P (cleanWalk ch (elapse ch s)).

Definition growing (P : State -> Prop) : Prop := forall s s', grows s s' -> P s -> P s'.

Lemma growing_kept t P : growing P -> kept t P.
Proof.
  intros HP. split; [intros s s' [Hg _]; by apply HP|]. intros s ch Hi Hy. apply HP. by apply sweep_inv.
Qed.

Lemma kept_and t P Q : kept t P -> kept t Q -> kept t (fun s => P s /\ Q s).
Proof. intros [P1 P2] [Q1 Q2]. split; [intros s s' Hr [? ?]; eauto|intros s ch Hi Hy [? ?]; auto]. Qed.

Lemma kept_keys t i : t = putter i -> kept t (fun s => keys s !! i = None).
Proof. intros Ht. split; [|done]. intros s s' (_ & _ & Hk & _) Hn. by rewrite Hk. Qed.

Lemma kept_started t i : t = getter i -> kept t (fun s => started s !! i = None).
Proof. intros Ht. split; [|done]. intros s s' (_ & Hk & _) Hn. by rewrite Hk. Qed.

Lemma kept_lease t l : kept t (fun s => l ∈ active s /\ exists m, births s !! l = Some (m, t)).
Proof.
  split; [|done]. intros s s' (Hg & _ & _ & Ha) [Hl [m Hb]]. split; [by eapply Ha|]. exists m. by apply (g_births _ _ Hg).
Qed.

Lemma kept_true t : kept t (fun _ => True).
Proof. done. Qed.

Lemma secure_kept {B X} t P (c : Call X) (k : X -> prog Call B) Q s :
  kept t P -> P s ->
  (forall s ch x s', inv s -> young s -> P s -> leased c -> perform t ch X c s = Some (x, s') ->
    guar t s s' /\ inv s' /\ Secure t (k x) Q s') ->
  Secure t (call c k) Q s.
Proof. intros [H1 H2]. by apply secure_step. Qed.

(** The result, if there is one, has the property. *)
Definition spec {A} (t : nat) (m : CP A) (R : A -> State -> Prop) (s : State) : Prop :=
  Secure t m (fun r s => forall a, r = Ok a -> R a s) s.

Lemma spec_ret {A} t (a : A) R s : kept t (R a) -> R a s -> spec t (ret (Ok a)) R s.
Proof. intros [Hst _] HR. apply secure_ret; [|by intros ? [= <-]]. intros s1 s2 Hr H1 a' [= <-]. eapply Hst; [done|by apply H1]. Qed.

Lemma spec_err {A} t (r : out CacheErr A) R s : (forall a, r ≠ Ok a) -> spec t (ret r) R s.
Proof. intros Hr s' _ a ->. by destruct (Hr a). Qed.

Lemma spec_bind {A B} t (m : CP A) (k : A -> CP B) R R' s :
  spec t m R s -> (forall a s, R a s -> spec t (k a) R' s) -> spec t (m ≫= k) R' s.
Proof.
  intros Hm Hk. apply secure_prog_bind. eapply secure_impl; [exact Hm|]. intros [a|e|] s1 HR; cbn in HR.
  - apply Hk. by apply (HR s1 (rtc_refl _ _)).
  - by apply spec_err.
  - by apply spec_err.
Qed.

Lemma spec_lift {A} t (o : out CacheErr A) P s : kept t P -> P s -> spec t (lift o) (fun _ => P) s.
Proof. intros HP Hs. destruct o; [by apply spec_ret|by apply spec_err|by apply spec_err]. Qed.

Lemma spec_attempt {A} t P (c : Call (FsError + A)) R s :
  kept t P -> P s -> (forall a, kept t (R a)) ->
  (forall s ch x s', inv s -> young s -> P s -> perform t ch _ c s = Some (x, s') ->
    guar t s s' /\ inv s' /\ forall a, x = inr a -> R a s') ->
  spec t (attempt c) R s.
Proof.
  intros HP Hs HR Hc. apply (secure_kept t P); [done|done|]. intros s1 ch x s2 Hi Hy H1 _ Hp.
  destruct (Hc s1 ch x s2 Hi Hy H1 Hp) as (? & ? & HRx). split_and!; [done..|].
  destruct x as [e|a]; [by apply spec_err|]. apply spec_ret; auto.
Qed.

(** A call that leaves the state as it is. *)
Lemma MkdirAll_spec t P s : kept t P -> P s -> spec t (attempt MkdirAll) (fun _ => P) s.
Proof.
  intros HP Hs. apply (spec_attempt t P); [done|done|done|]. intros s1 ch x s2 Hi _ H1 Hp. cbn in Hp.
  apply orFail_cases in Hp as [(-> & ->)|[= <- <-]]; split_and!; try done; apply dc_guar_refl.
Qed.

(** No lease is missed: the latest generation was written at version [v] or later, or
    an operation with one of these leases is still under way. *)
Definition noneMissed (v : nat) (listed : list (nat * Z)) (s : State) : Prop :=
  (v <= version s)%nat /\
  ((forall g, latest s = Some g -> exists f, floors s !! g = Some f /\ (v <= f)%nat) \/ exists l m, (l, m) ∈ listed /\ l ∈ active s) /\
  forall l m, (l, m) ∈ listed -> exists u, births s !! l = Some (m, u).

Lemma noneMissed_growing v listed : growing (noneMissed v listed).
Proof.
  intros s s' Hg (Hv & Hor & Hb). pose proof Hg as [G1 G2 G3 G4 G5 G6 _ _]. split_and!; [lia| |].
  - destruct Hor as [Hl|(l & m & Hin & Ha)].
    + left. intros g Hgl. destruct (G3 g Hgl) as [H|(f & Hf & Hle)].
      * destruct (Hl g H) as (f & Hf & Hle). exists f. split; [by apply G2|done].
      * exists f. split; [done|lia].
    + destruct (decide (l ∈ active s')) as [Ha'|Ha']; [right; eauto|left].
      intros g Hgl. destruct (G6 l Ha Ha' g Hgl) as (f & Hf & Hle). exists f. split; [done|lia].
  - intros l m Hin. destruct (Hb l m Hin) as [u Hu]. exists u. by apply G4.
Qed.

(** A stale lease belongs to no operation any more. *)
Lemma noneMissed_stale v l m listed s :
  young s -> staleAge < clock s - m -> noneMissed v ((l, m) :: listed) s -> noneMissed v listed s /\ l ∉ active s /\ is_Some (births s !! l).
Proof.
  intros Hy Hage (Hv & Hor & Hb). destruct (Hb l m) as [u Hu]; [by left|].
  assert (Hl : l ∉ active s) by (intros Ha; specialize (Hy l m u Ha Hu); lia).
  split; [|split; [done|eauto]]. split_and!; [done| |intros l' m' Hin; apply Hb; by right].
  destruct Hor as [?|(l' & m' & [Heq|Hin]%elem_of_cons & Ha)]; [by left| |right; eauto]. injection Heq as -> ->. done.
Qed.

Lemma dropStale_true t listed s : (forall l m, (l, m) ∈ listed -> exists u, births s !! l = Some (m, u)) ->
  spec t (dropStale listed true) (fun b _ => b = true) s.
Proof.
  revert s. induction listed as [|[l m] listed IH]; intros s Hb; cbn [dropStale]; [by apply spec_ret|].
  set (P s := forall l' m', (l', m') ∈ (l, m) :: listed -> exists u, births s !! l' = Some (m', u)).
  assert (HP : growing P) by (intros s1 s2 Hg HP l' m' Hin; destruct (HP l' m' Hin) as [u Hu]; exists u; by apply (g_births _ _ Hg)).
  apply (secure_kept t P); [by apply growing_kept|exact Hb|]. intros s1 ch age s2 Hi Hy H1 _ Hp. cbn in Hp. injection Hp as <- <-.
  split_and!; [apply dc_guar_refl|done|]. destruct (Z.ltb_spec staleAge (clock s1 - m)) as [Hst|].
  - destruct (H1 l m) as [u Hu]; [by left|].
    assert (Hna : l ∉ active s1) by (intros Ha; specialize (Hy l m u Ha Hu); lia).
    apply (secure_kept t (fun s => P s /\ l ∉ active s /\ is_Some (births s !! l))).
    + apply growing_kept. intros s3 s4 Hg (H3 & Hn & Hb'). split_and!; [by eapply HP|by apply (g_inactive _ _ Hg)|].
      destruct Hb' as [b Hb']. exists b. by apply (g_births _ _ Hg).
    + split_and!; [done|done|eauto].
    + intros s3 ch' x s4 Hi3 _ (H3 & Hn & _) _ Hp. destruct (RemovePending_step t ch' l s3 x s4 Hi3 Hn Hp) as (Hg & Hi4 & _).
      split_and!; [done..|]. assert (H4 : P s4) by (eapply HP; [apply Hg|done]).
      assert (Hrest : spec t (dropStale listed true) (fun b _ => b = true) s4) by (apply IH; intros l' m' Hin; apply H4; by right).
      destruct x as [[]|]; [exact Hrest|by apply spec_err|exact Hrest].
  - apply IH. intros l' m' Hin. apply H1. by right.
Qed.

(** Nobody but its goroutine knows the key of a response. *)
Definition unkeyed (t : nat) (who : Who) (s : State) : Prop := forall i, who = Putter i -> t = putter i /\ keys s !! i = None.

Lemma kept_unkeyed t who : kept t (unkeyed t who).
Proof.
  split; [|done]. intros s s' (_ & _ & Hk & _) Hu i Hw. destruct (Hu i Hw) as [Ht Hn]. split; [done|]. by rewrite Hk.
Qed.

Lemma dropStale_spec t who v listed s :
  unkeyed t who s -> noneMissed v listed s ->
  spec t (dropStale listed false) (fun b s => b = false -> unkeyed t who s /\ noneMissed v [] s) s.
Proof.
  revert s. induction listed as [|[l m] listed IH]; intros s Hu Hn; cbn [dropStale].
  { destruct (kept_and t _ _ (kept_unkeyed t who) (growing_kept t _ (noneMissed_growing v []))) as [K1 K2].
    apply spec_ret; [|done]. split; [intros s1 s2 Hr H Hb; eapply K1; eauto|intros s1 ch Hi Hy H Hb; apply K2; auto]. }
  apply (secure_kept t (fun s => unkeyed t who s /\ noneMissed v ((l, m) :: listed) s)); [|done|].
  { apply kept_and; [apply kept_unkeyed|apply growing_kept, noneMissed_growing]. }
  intros s1 ch age s2 Hi Hy [Hu1 H1] _ Hp. cbn in Hp. injection Hp as <- <-.
  split_and!; [apply dc_guar_refl|done|]. destruct (Z.ltb_spec staleAge (clock s1 - m)) as [Hst|].
  - destruct (noneMissed_stale v l m listed s1 Hy Hst H1) as (H1' & Hna & Hb).
    apply (secure_kept t (fun s => unkeyed t who s /\ noneMissed v listed s /\ l ∉ active s /\ is_Some (births s !! l))); [|done|].
    + apply kept_and; [apply kept_unkeyed|]. apply growing_kept. intros s3 s4 Hg (H3 & Hn3 & Hb').
      split_and!; [by eapply noneMissed_growing|by apply (g_inactive _ _ Hg)|]. destruct Hb' as [b Hb']. exists b. by apply (g_births _ _ Hg).
    + intros s3 ch' x s4 Hi3 _ (Hu3 & H3 & Hn3 & _) _ Hp. destruct (RemovePending_step t ch' l s3 x s4 Hi3 Hn3 Hp) as (Hg & Hi4 & Hk).
      split_and!; [done..|]. assert (Hu4 : unkeyed t who s4) by (unfold unkeyed; rewrite Hk; exact Hu3).
      specialize (IH s4 Hu4 (noneMissed_growing _ _ _ _ (proj1 Hg) H3)). destruct x as [[]|]; [exact IH|by apply spec_err|exact IH].
  - eapply secure_mono; [apply dropStale_true|].
    + intros l' m' Hin. apply H1. by right.
    + intros r s2 Hr b -> ->. by specialize (Hr false eq_refl).
Qed.

(** The generation a lookup or a store gets was written at version [v] or later. *)
Definition goodKey (who : Who) (v g : nat) (s : State) : Prop :=
  (exists f, floors s !! g = Some f /\ (v <= f)%nat) /\ (forall i, who = Putter i -> keys s !! i = Some g).

Lemma goodKey_growing who v g : growing (goodKey who v g).
Proof.
  intros s s' Hg [(f & Hf & Hle) Hk]. split; [exists f; split; [by apply (g_floors _ _ Hg)|done]|].
  intros i Hw. by apply (g_keys _ _ Hg), Hk.
Qed.

Section State.
Context (statePath : out CacheErr (list ascii)).

Lemma updateLatest_spec t who v s :
  (forall l, who ≠ Ender l) -> unkeyed t who s -> (v <= version s)%nat -> spec t (updateLatest statePath who) (goodKey who v) s.
Proof.
  intros Hwho Hu Hv. unfold updateLatest.
  assert (HP : kept t (fun s => unkeyed t who s /\ (v <= version s)%nat)).
  { apply kept_and; [apply kept_unkeyed|]. apply growing_kept. intros s1 s2 Hg H. pose proof (g_version _ _ Hg). lia. }
  eapply spec_bind; [by apply (spec_lift t statePath _ s HP)|]. intros u1 s1 H1.
  eapply spec_bind; [by apply (MkdirAll_spec t _ s1 HP)|]. intros u2 s2 H2.
  eapply (spec_attempt t _); [exact HP|done|intros g; apply growing_kept, goodKey_growing|].
  intros s3 ch x s4 Hi _ [Hu3 Hv3] Hp. destruct (WriteLatest_step t ch who s3 x s4 Hi) as (Hg & Hi' & Hx); [|done|done|].
  { intros l ->. by destruct (Hwho l). }
  split_and!; [done..|]. intros g ->. destruct Hx as (_ & (f & Hf & Hle) & Hk & _). split; [|done]. exists f. split; [done|lia].
Qed.

Lemma currentGenID_spec t who v s :
  (forall l, who ≠ Ender l) -> unkeyed t who s -> noneMissed v [] s -> spec t (currentGenID statePath who) (goodKey who v) s.
Proof.
  intros Hwho Hu Hn. unfold currentGenID.
  assert (HP : kept t (fun s => unkeyed t who s /\ noneMissed v [] s)).
  { apply kept_and; [apply kept_unkeyed|]. apply growing_kept, noneMissed_growing. }
  eapply spec_bind; [by apply (spec_lift t statePath _ s HP)|]. intros u1 s1 H1.
  apply (secure_kept t _ _ _ _ _ HP H1). intros s2 ch x s3 Hi _ [Hu2 Hn2] _ Hp.
  destruct (ReadLatest_step t ch who s2 x s3 Hi Hu2 Hp) as (Hg & Hi' & Hx). split_and!; [done..|].
  destruct x as [[]|g].
  - subst s3. apply updateLatest_spec; [done|done|apply Hn2].
  - by apply spec_err.
  - destruct Hx as [Hl Hk]. apply spec_ret; [apply growing_kept, goodKey_growing|]. split; [|done].
    destruct Hn2 as (_ & [Hlat|(l & m & Hin & _)] & _); [|by apply not_elem_of_nil in Hin].
    destruct (Hlat g Hl) as (f & Hf & Hle). exists f. split; [by apply (g_floors _ _ (proj1 Hg))|done].
Qed.

Lemma elem_of_leaseTimes s l m : (l, m) ∈ leaseTimes s <-> l ∈ pending s /\ exists u, births s !! l = Some (m, u).
Proof.
  unfold leaseTimes. rewrite list_elem_of_omap. split.
  - intros (l' & Hl' & Hm). destruct (births s !! l') as [[m' u]|] eqn:Hb; [|done]. injection Hm as <- <-.
    split; [by apply elem_of_elements|eauto].
  - intros [Hl [u Hb]]. exists l. split; [by apply elem_of_elements|]. by rewrite Hb.
Qed.

(** What a look at the leases tells about the latest generation. *)
Lemma noneMissed_listed s listed :
  inv s -> (listed = leaseTimes s \/ (pending s = ∅ /\ listed = [])) -> noneMissed (version s) listed s.
Proof.
  intros [H1 H2 H3 H4 _ _ _] Hl. split_and!; [done| |].
  - destruct (decide (active s = ∅)) as [Ha|Ha].
    + left. intros g Hg. destruct (H2 g Hg) as (f & Hf & [->|?]); [|done]. eauto.
    + right. apply set_choose_L in Ha as [l Hl']. destruct (H4 l (H3 l Hl')) as [[m u] Hb].
      destruct Hl as [->|[He _]]; [|specialize (H3 l Hl'); set_solver]. exists l, m. split; [|done]. apply elem_of_leaseTimes. eauto.
  - intros l m Hin. destruct Hl as [->|[_ ->]]; [by apply elem_of_leaseTimes in Hin as [_ ?]|by apply not_elem_of_nil in Hin].
Qed.

Definition unstarted (t : nat) (who : Who) (s : State) : Prop := forall i, who = Getter i -> t = getter i /\ started s !! i = None.

Lemma kept_unstarted t who : kept t (unstarted t who).
Proof.
  split; [|done]. intros s s' (_ & Hk & _ & _) Hu i Hw. destruct (Hu i Hw) as [Ht Hn]. split; [done|]. by rewrite Hk.
Qed.

Definition startedAt (who : Who) (v : nat) (s : State) : Prop := forall i, who = Getter i -> started s !! i = Some v.

Lemma startedAt_growing who v : growing (startedAt who v).
Proof. intros s s' Hg Hs i Hw. by apply (g_started _ _ Hg), Hs. Qed.

Lemma currentLeases_spec t who s :
  unstarted t who s -> unkeyed t who s ->
  spec t (currentLeases statePath who)
    (fun listed s => unkeyed t who s /\ exists v, startedAt who v s /\ noneMissed v listed s) s.
Proof.
  intros Hs Hu. unfold currentLeases. assert (HP : kept t (fun s => unstarted t who s /\ unkeyed t who s)) by (apply kept_and; [apply kept_unstarted|apply kept_unkeyed]).
  eapply spec_bind; [by apply (spec_lift t statePath _ s HP)|]. intros u1 s1 H1.
  apply (secure_kept t _ _ _ _ _ HP H1). intros s2 ch x s3 Hi _ [Hs2 Hu2] _ Hp.
  destruct (ReadPending_step t ch who s2 x s3 Hi Hs2 Hp) as (Hg & Hi' & Hst & Hv & Hk & Hb & Ha & Hl & Hf & Hps & Hx).
  split_and!; [done..|].
  assert (Hret : forall listed, listed = leaseTimes s3 \/ (pending s3 = ∅ /\ listed = []) ->
    spec t (ret (Ok listed)) (fun listed s => unkeyed t who s /\ exists v, startedAt who v s /\ noneMissed v listed s) s3).
  { intros listed Hlist. apply spec_ret.
    - apply kept_and; [apply kept_unkeyed|]. apply growing_kept. intros s4 s5 Hg4 (v & Hv4 & Hn4). exists v.
      split; [by eapply startedAt_growing|by eapply noneMissed_growing].
    - split; [intros i Hw; rewrite Hk; by apply Hu2|]. exists (version s3). split; [|by apply noneMissed_listed].
      intros i Hw. rewrite Hv. by apply Hst. }
  destruct Hx as [[-> He]|[->| ->]]; [|by apply spec_err|]; apply Hret; [right; split; [congruence|done]|by left].
Qed.

Lemma keyPath_spec t who s :
  (forall l, who ≠ Ender l) -> unstarted t who s -> unkeyed t who s ->
  spec t (keyPath statePath who) (fun g s => exists v, startedAt who v s /\ goodKey who v g s) s.
Proof.
  intros Hwho Hs Hu. unfold keyPath. eapply spec_bind; [by apply currentLeases_spec|]. intros listed s1 H1.
  assert (HP : kept t (fun s => unkeyed t who s /\ exists v, startedAt who v s /\ noneMissed v listed s)).
  { apply kept_and; [apply kept_unkeyed|]. apply growing_kept. intros s4 s5 Hg4 (v & Hv4 & Hn4). exists v.
    split; [by eapply startedAt_growing|by eapply noneMissed_growing]. }
  eapply spec_bind; [by apply (spec_lift t statePath _ s1 HP)|]. intros u1 s2 (Hu2 & v & Hv2 & Hn2).
  assert (Hframe : Secure t (dropStale listed false) (fun r s =>
    (forall b, r = Ok b -> b = false -> unkeyed t who s /\ noneMissed v [] s) /\ startedAt who v s) s2).
  { apply secure_frame; [apply (growing_kept t), startedAt_growing|intros s3 s4 [Hg _]; by apply startedAt_growing|done|by apply dropStale_spec]. }
  apply (spec_bind t _ _ (fun b s => (b = false -> unkeyed t who s /\ noneMissed v [] s) /\ startedAt who v s)).
  { eapply secure_mono; [exact Hframe|]. intros r s3 [Hr Hs3] b ->. split; [by apply Hr|done]. }
  intros [] s3 [Hb Hs3]; [by apply spec_err|]. destruct (Hb eq_refl) as [Hu3 Hn3].
  assert (Hframe2 : Secure t (currentGenID statePath who) (fun r s => (forall g, r = Ok g -> goodKey who v g s) /\ startedAt who v s) s3).
  { apply secure_frame; [apply (growing_kept t), startedAt_growing|intros s4 s5 [Hg _]; by apply startedAt_growing|done|by apply currentGenID_spec]. }
  eapply secure_mono; [exact Hframe2|]. intros r s4 [Hr Hs4] g ->. exists v. split; [done|by apply Hr].
Qed.

(** What a lookup finds is at least as new as the repository was when it started,
    unless it was computed before its key was known. *)
Definition goodAnswer (i : nat) (data : Response) (s : State) : Prop :=
  r_request data = requestOf i /\
  exists v, started s !! i = Some v /\ (r_early data = false -> (v <= r_version data)%nat) /\ (r_version data <= version s)%nat.

Lemma goodAnswer_growing i data : growing (goodAnswer i data).
Proof.
  intros s s' Hg (Hq & v & Hs & He & Hv). split; [done|]. exists v. pose proof (g_version _ _ Hg).
  split_and!; [by apply (g_started _ _ Hg)|done|lia].
Qed.

Lemma GetStream_spec t i s :
  t = getter i -> started s !! i = None -> spec t (GetStream statePath i (requestOf i)) (goodAnswer i) s.
Proof.
  intros Ht Hn. unfold GetStream.
  set (K g s := exists v, startedAt (Getter i) v s /\ goodKey (Getter i) v g s).
  assert (HK : forall g, growing (K g)).
  { intros g s1 s2 Hg (v & Hv & Hk). exists v. split; [by eapply startedAt_growing|by eapply goodKey_growing]. }
  apply (spec_bind t _ _ K).
  - apply secure_prog_bind. eapply secure_impl; [apply (keyPath_spec t (Getter i) s); [done|by intros ? [= <-]|done]|].
    intros [g|e|] s1 HR; cbn in HR; [|destruct e as [[]| | | |]; by apply spec_err|by apply spec_err].
    apply spec_ret; [by apply growing_kept|]. by apply (HR s1 (rtc_refl _ _)).
  - intros g s1 H1. apply (secure_kept t (K g)); [by apply growing_kept|done|]. intros s2 ch x s3 Hi _ (v & Hv & (f & Hf & Hle) & _) _ Hp.
    cbn in Hp. assert (s3 = s2 /\ (forall d, x = inr d -> cached s2 !! (g, requestOf i) = Some d)) as [-> Hx].
    { apply orFail_cases in Hp as [(-> & ->)|Hp]; [done|]. injection Hp as <- <-. split; [done|]. intros d.
      destruct (cached s2 !! (g, requestOf i)); congruence. }
    split_and!; [apply dc_guar_refl|done|]. destruct x as [[]|d]; [by apply spec_err..|].
    apply spec_ret; [apply growing_kept, goodAnswer_growing|]. destruct (i_cached s2 Hi _ _ _ (Hx d eq_refl)) as (Hq & Hvd & He).
    split; [done|]. exists v. split_and!; [by apply Hv| |done]. intros Hn2. destruct (He Hn2) as (f' & Hf' & Hle'). assert (f' = f) by congruence. lia.
Qed.

Lemma PutStream_spec t i s :
  t = putter i -> keys s !! i = None -> spec t (PutStream statePath i (requestOf i)) (fun _ _ => True) s.
Proof.
  intros Ht Hn. unfold PutStream.
  assert (HK : forall g, growing (fun s => keys s !! i = Some g)) by (intros g s1 s2 Hg Hk; by apply (g_keys _ _ Hg)).
  apply (spec_bind t _ _ (fun g s => keys s !! i = Some g)).
  { eapply secure_mono; [apply (keyPath_spec t (Putter i) s); [done|done|by intros ? [= <-]]|].
    intros r s1 Hr g ->. destruct (Hr g eq_refl) as (v & _ & _ & Hk). by apply Hk. }
  intros g s1 H1. eapply spec_bind; [by apply (MkdirAll_spec t _ s1 (growing_kept t _ (HK g)))|]. intros u2 s2 H2.
  set (D (data : Response) s := r_request data = requestOf i /\ (r_version data <= version s)%nat /\ (r_early data = false -> floorOf s g (r_version data))).
  assert (HD : forall data, growing (D data)).
  { intros data s3 s4 Hg (Hq & Hv & He). pose proof (g_version _ _ Hg). split_and!; [done|lia|]. intros Hne. eapply floorOf_grows; eauto. }
  apply (spec_bind t _ _ D).
  - apply (spec_attempt t (fun s => keys s !! i = Some g)); [apply growing_kept, HK|done|intros; by apply growing_kept|].
    intros s3 ch x s4 Hi _ H3 Hp. cbn in Hp. assert (s4 = s3 /\ (forall d, x = inr d -> computed s3 !! i = Some (Some d))) as [-> Hx].
    { destruct (computed s3 !! i) as [[d|]|]; [|by injection Hp as <- <-|done]. apply orFail_cases in Hp as [(-> & ->)|Hp]; [done|].
      injection Hp as <- <-. split; [done|]. congruence. }
    split_and!; [apply dc_guar_refl|done|]. intros d ->. destruct (i_computed s3 Hi i d (Hx d eq_refl)) as (Hq & Hv & He).
    split_and!; [done..|]. intros Hne. destruct (He Hne) as (g' & Hk & Hf). assert (g' = g) as -> by congruence. done.
  - intros d s3 H3. apply (spec_attempt t (D d)); [by apply growing_kept|done|intros; apply kept_true|].
    intros s4 ch x s5 Hi _ (Hq & Hv & He) Hp. destruct (CommitCached_step t ch g _ d s4 x s5 Hi Hq Hv He Hp). done.
Qed.

(** *** Operations that change the repository *)

Definition holdsLease (t l : nat) (s : State) : Prop := l ∈ active s /\ exists m, births s !! l = Some (m, t).

Lemma StartLease_spec t s : spec t (StartLease statePath) (holdsLease t) s.
Proof.
  unfold StartLease, newPendingLease. eapply spec_bind; [apply (spec_lift t statePath (fun _ => True)); [apply kept_true|done]|].
  intros u1 s1 _. apply (secure_kept t (fun _ => True)); [apply kept_true|done|]. intros s2 ch x s3 Hi _ _ _ Hp.
  destruct (RemoveLatest_step t ch s2 x s3 Hi Hp) as [Hg Hi']. split_and!; [done..|].
  assert (Hrest : spec t (_ ← attempt MkdirAll; attempt CreatePending) (holdsLease t) s3).
  { eapply spec_bind; [apply (MkdirAll_spec t (fun _ => True)); [apply kept_true|done]|]. intros u2 s4 _.
    apply (spec_attempt t (fun _ => True)); [apply kept_true|done|intros l; apply kept_lease|].
    intros s5 ch' y s6 Hi5 _ _ Hp'. destruct (CreatePending_step t ch' s5 y s6 Hi5 Hp') as (Hg' & Hi6 & Hy). split_and!; [done..|].
    by intros l ->. }
  destruct x as [[]|]; [exact Hrest|by apply spec_err|exact Hrest].
Qed.

Lemma handler_spec t l changes s : holdsLease t l s -> spec t (handler (Some l) changes) (fun _ => holdsLease t l) s.
Proof.
  revert s. induction changes as [|n IH]; intros s Hl; cbn [handler]; [apply spec_ret; [apply kept_lease|done]|].
  apply (secure_kept t (holdsLease t l)); [apply kept_lease|done|]. intros s1 ch x s2 Hi _ [Ha Hb] _ Hp.
  destruct (Change_step t ch l s1 x s2 Hi Ha Hp) as (Hg & Hi' & Has & Hbs). split_and!; [done..|]. apply IH. unfold holdsLease. by rewrite Has, Hbs.
Qed.

Lemma unleased_spec t changes s : spec t (handler None changes) (fun _ _ => True) s.
Proof.
  revert s. induction changes as [|n IH]; intros s; cbn [handler]; [apply spec_ret; [apply kept_true|done]|].
  apply (secure_kept t (fun _ => True)); [apply kept_true|done|]. by intros s1 ch x s2 _ _ _ [].
Qed.

Lemma EndLease_spec t l s : holdsLease t l s -> spec t (EndLease statePath l) (fun _ _ => True) s.
Proof.
  intros Hl. unfold EndLease, updateLatest.
  set (P s := l ∉ active s /\ is_Some (births s !! l)).
  assert (HP : growing P).
  { intros s1 s2 Hg [Hn [b Hb]]. split; [apply (g_inactive _ _ Hg); eauto|]. exists b. by apply (g_births _ _ Hg). }
  apply (spec_bind t _ _ (fun _ => P)).
  - eapply spec_bind; [by apply (spec_lift t statePath _ s (kept_lease t l))|]. intros u1 s1 H1.
    eapply spec_bind; [by apply (MkdirAll_spec t _ s1 (kept_lease t l))|]. intros u2 s2 H2.
    apply (spec_attempt t _ _ _ _ (kept_lease t l) H2); [intros; by apply growing_kept|].
    intros s3 ch x s4 Hi _ [_ [m Hb]] Hp. destruct (WriteLatest_step t ch (Ender l) s3 x s4 Hi) as (Hg & Hi' & Hx); [intros ? [= <-]; eauto|done|done|].
    split_and!; [done..|]. intros g ->. destruct Hx as (_ & _ & _ & Ha). split; [by apply Ha|].
    exists (m, t). by apply (g_births _ _ (proj1 Hg)).
  - intros g s1 H1. apply (secure_kept t P); [by apply growing_kept|done|]. intros s2 ch x s3 Hi _ [Hn _] _ Hp.
    destruct (RemovePending_step t ch l s2 x s3 Hi Hn Hp) as (Hg & Hi' & _). split_and!; [done..|].
    by destruct x as [[]|]; intros s4 _ a _.
Qed.

Lemma mutator_secure t changes s : Secure t (mutator statePath changes) (fun _ _ => True) s.
Proof.
  unfold mutator, invalidator. apply secure_prog_bind. eapply secure_mono; [|by intros a s1 _ s2 _].
  apply (secure_prog_bind sys inv rely guar t). eapply secure_impl; [apply StartLease_spec|]. intros [l|e|] s1 HR; cbn in HR.
  - assert (Hl : holdsLease t l s1) by by apply (HR s1 (rtc_refl _ _)).
    assert (Hsp : spec t (_ ← handler (Some l) changes; prog_bind (EndLease statePath l) (fun _ => ret (Ok tt))) (fun _ _ => True) s1).
    { eapply spec_bind; [by apply handler_spec|]. intros u1 s2 H2. apply secure_prog_bind.
      eapply secure_mono; [by apply EndLease_spec|]. by intros a s3 _ s4 _ b _. }
    eapply secure_mono; [exact Hsp|]. done.
  - eapply secure_mono; [apply unleased_spec|done].
  - eapply secure_mono; [apply unleased_spec|done].
Qed.

(** *** Requests *)

Definition answered (i : nat) (o : Outcome) (s : State) : Prop := forall data, o = Served data -> goodAnswer i data s.

Lemma answered_stable t i o : stable rely t (answered i o).
Proof. intros s s' [Hg _] Ha data ->. eapply goodAnswer_growing; [done|]. by apply Ha. Qed.

Lemma tryCache_secure t i s :
  t = getter i -> started s !! i = None -> Secure t (tryCache statePath i (requestOf i)) (answered i) s.
Proof.
  intros Ht Hn. unfold tryCache. apply secure_prog_bind. eapply secure_impl; [by apply GetStream_spec|].
  intros [data|e|] s1 HR; cbn in HR.
  - apply secure_ret; [apply answered_stable|]. intros d [= <-]. by apply (HR s1 (rtc_refl _ _)).
  - assert (Hun : forall s, Secure t (ret Uncached) (answered i) s) by (intros s2; by apply secure_ret; [apply answered_stable|]).
    destruct e as [| | | |]; try apply Hun. apply (secure_kept t (fun _ => True)); [apply kept_true|done|].
    intros s2 ch x s3 Hi _ _ _ Hp. cbn in Hp. injection Hp as _ <-. rewrite (and_assoc (guar _ _ _)). split; [|apply Hun].
    apply same_inv; cbn; try done; [by left|apply Hi].
  - apply secure_ret; [apply answered_stable|done].
Qed.

Lemma await_secure {B} t i P (k : unit -> prog Call B) Q s :
  kept t P -> P s -> (forall s, P s -> Secure t (k tt) Q s) -> Secure t (call (AwaitMiss i) k) Q s.
Proof.
  intros HP Hs Hk. apply (secure_kept t P); [done|done|]. intros s1 ch x s2 Hi _ H1 _ Hp. cbn in Hp.
  case_decide; [|done]. destruct x. injection Hp as <-. split_and!; [apply dc_guar_refl|done|auto].
Qed.

Lemma store_secure t i s :
  t = putter i -> keys s !! i = None -> Secure t (storeGoroutine statePath i (requestOf i)) (fun _ _ => True) s.
Proof.
  intros Ht Hn. apply (await_secure t i (fun s => keys s !! i = None)); [by apply kept_keys|done|]. intros s1 H1.
  apply secure_prog_bind. eapply secure_mono; [by apply PutStream_spec|]. by intros a s2 _ s3 _.
Qed.

Lemma miss_secure t i s : Secure t (missFn i (requestOf i)) (fun _ _ => True) s.
Proof.
  apply (await_secure t i (fun _ => True)); [apply kept_true|done|]. intros s1 _.
  apply (secure_kept t (fun _ => True)); [apply kept_true|done|]. intros s2 ch x s3 Hi _ _ _ Hp.
  destruct (Compute_step t ch i _ s2 x s3 Hi eq_refl Hp). split_and!; [done..|]. by intros s4 _.
Qed.

End State.
End Threads.
End Requests.

(** ** Any number of requests and operations *)

Section Together.
Context (statePath : out CacheErr (list ascii)) (requests : list nat) (operations : list nat).

Definition askedBy (i : nat) : nat := default 0%nat (requests !! i).
Definition storeOf (i : nat) : nat := (length requests + i)%nat.

(** The goroutines of the requests, in three groups, and those of the operations. *)
Definition allThreads : list (prog Call Outcome) :=
  imap (tryCache statePath) requests ++ imap (storeGoroutine statePath) requests ++ imap missFn requests ++
  (mutator statePath <$> operations).

Definition beginning : conf Call State Outcome := mkConf emptyState allThreads.

Definition outcome (t : nat) (o : Outcome) (s : State) : Prop :=
  (t < length requests)%nat -> answered askedBy t o s.

Lemma all_started_secure :
  all_secure sys (inv askedBy) (rely id storeOf) (guar id storeOf) outcome beginning.
Proof.
  split; [by constructor|]. intros t p Hp. cbn in Hp. unfold allThreads in Hp.
  assert (Hany : forall (R : Outcome -> State -> Prop), (length requests <= t)%nat -> secure sys (inv askedBy) (rely id storeOf) (guar id storeOf) t p R emptyState ->
    secure sys (inv askedBy) (rely id storeOf) (guar id storeOf) t p (outcome t) emptyState).
  { intros R Hle Hs. eapply secure_mono; [exact Hs|]. intros o s _ Hlt. lia. }
  rewrite lookup_app_Some in Hp. destruct Hp as [Hp|[Hle1 Hp]].
  { rewrite list_lookup_imap in Hp. apply fmap_Some in Hp as (q & Hq & ->).
    eapply secure_mono; [|intros o s Ho _; exact Ho]. replace q with (askedBy t) by (unfold askedBy; by rewrite Hq). by apply tryCache_secure. }
  rewrite length_imap in *. rewrite lookup_app_Some in Hp. destruct Hp as [Hp|[Hle2 Hp]].
  { rewrite list_lookup_imap in Hp. apply fmap_Some in Hp as (q & Hq & ->). apply (Hany (fun _ _ => True)); [done|].
    replace q with (askedBy (t - length requests)) by (unfold askedBy; by rewrite Hq). apply store_secure; [|done]. unfold storeOf. lia. }
  rewrite length_imap in *. rewrite lookup_app_Some in Hp. destruct Hp as [Hp|[Hle3 Hp]].
  { rewrite list_lookup_imap in Hp. apply fmap_Some in Hp as (q & Hq & ->). apply (Hany (fun _ _ => True)); [done|].
    replace q with (askedBy (t - length requests - length requests)) by (unfold askedBy; by rewrite Hq). apply miss_secure. }
  apply list_lookup_fmap_Some in Hp as (changes & -> & _). apply (Hany (fun _ _ => True)); [done|]. apply mutator_secure.
Qed.

(** C7. Any number of requests look answers up in the cache, compute and store them
    while operations change the repository under leases, call by call; calls may
    fail, the walkers remove old files, but no operation takes an hour or runs without
    its lease. An answer that is served from the cache answers the same request, and
    no change of the repository had happened between its computation and the moment
    the lookup started, unless git had computed it before the goroutine that stored it
    knew the generation to store it under. *)
Theorem cache_hits_fresh c i q data :
  rtc (anystep sys) beginning c -> requests !! i = Some q -> threads c !! i = Some (ret (Served data)) ->
  r_request data = q /\ (r_version data <= version (shared c))%nat /\
  exists v, started (shared c) !! i = Some v /\ (r_early data = false -> (v <= r_version data)%nat).
Proof.
  intros Hsteps Hq Ht.
  pose proof (threads_secure _ _ _ _ (dc_guar_rely id storeOf) _ _ _ all_started_secure Hsteps) as Hall.
  pose proof (returned _ _ _ _ _ c i _ Hall Ht (lookup_lt_Some _ _ _ Hq) data eq_refl) as (Hr & v & Hs & He & Hv).
  split_and!; [|done|eauto]. rewrite Hr. unfold askedBy. by rewrite Hq.
Qed.

End Together.

(** *** Runs *)

Definition youngb (s : State) : bool :=
  forallb (fun l => match births s !! l with Some (m, _) => clock s - m <? staleAge | None => true end) (elements (active s)).

Definition leasedb {X} (c : Call X) : bool := match c with Change None => false | _ => true end.

Definition execStep (e : nat * Choice) (c : conf Call State Outcome) : option (conf Call State Outcome) :=
  match threads c !! e.1 with
  | Some (call a k) =>
    if leasedb a && youngb (elapse e.2 (shared c)) then
      '(x, s) ← perform_all e.1 e.2 _ a (shared c); Some (mkConf s (<[e.1 := k x]> (threads c)))
    else None
  | _ => None
  end.

Fixpoint exec (es : list (nat * Choice)) (c : conf Call State Outcome) : option (conf Call State Outcome) :=
  match es with
  | [] => Some c
  | e :: es => c' ← execStep e c; exec es c'
  end.

Lemma youngb_young s : youngb s = true -> young s.
Proof.
  unfold youngb. rewrite forallb_forall. intros Hy l m t Hl Hb. specialize (Hy l). rewrite Hb in Hy.
  specialize (Hy (proj1 (list_elem_of_In _ _) (proj2 (elem_of_elements _ _) Hl))). lia.
Qed.

Lemma exec_steps es c c' : exec es c = Some c' -> rtc (anystep sys) c c'.
Proof.
  revert c. induction es as [|[t ch] es IH]; intros c; cbn [exec]; [by intros [= <-]|].
  destruct (execStep (t, ch) c) as [c1|] eqn:He; [|done]. cbn. intros Hx. eapply rtc_l; [|by apply IH]. exists t.
  unfold execStep in He. cbn in He. destruct c as [s ts]. cbn in *. destruct (ts !! t) as [[o|X a k]|] eqn:Ht; try done.
  destruct (leasedb a && youngb (elapse ch s)) eqn:Hb; [|done]. apply andb_prop in Hb as [Hl Hy].
  destruct (perform_all t ch X a s) as [[x s']|] eqn:Hp; [|done]. injection He as <-. econstructor; [exact Ht|].
  exists ch. split_and!; [done|by apply youngb_young|]. by destruct a as [| | | | | | | | | | | | | |[]].
Qed.

Definition ex_ok : Choice := mkChoice 0 false ∅ ∅ false false.
Definition ex_turns (l : list (nat * nat)) : list (nat * Choice) := l ≫= fun p => replicate p.2 (p.1, ex_ok).

(** Two requests for the same and one operation: the first request stores what the
    second is served. *)
Definition ex_begin : conf Call State Outcome := beginning (Ok []) [7%nat; 7%nat] [1%nat].
Definition ex_fresh : list (nat * Choice) := ex_turns [(0, 6); (2, 3); (4, 2); (2, 3); (1, 3)]%nat.

(** The answer of the first request is computed, then the operation runs from its
    start to its end, and only then the answer is stored. *)
Definition ex_stale : list (nat * Choice) := ex_turns [(0, 6); (4, 2); (6, 7); (2, 6); (1, 3)]%nat.

Lemma cache_hits_fresh_witness :
  exists c data, exec ex_fresh ex_begin = Some c /\ threads c !! 1%nat = Some (ret (Served data)) /\ r_request data = 7%nat /\
  exists v, started (shared c) !! 1%nat = Some v /\ (r_early data = false -> (v <= r_version data)%nat).
Proof.
  assert (He : is_Some (exec ex_fresh ex_begin)) by (vm_compute; eauto). destruct He as [c Hc].
  assert (Ht : threads c !! 1%nat = Some (ret (Served (mkResponse 7 0 false)))) by (vm_compute in Hc; injection Hc as <-; reflexivity).
  exists c, (mkResponse 7 0 false). split; [exact Hc|]. split; [exact Ht|].
  destruct (cache_hits_fresh (Ok []) [7%nat; 7%nat] [1%nat] c 1 7 (mkResponse 7 0 false) (exec_steps _ _ _ Hc) eq_refl Ht) as (Hq & _ & Hv).
  split; [exact Hq|exact Hv].
Defined.

(** Without this order an answer that is out of date is stored under the generation
    the operation wrote at its end, and served until the next operation. *)
Lemma early_answer_stale c :
  exec ex_stale ex_begin = Some c ->
  threads c !! 1%nat = Some (ret (Served (mkResponse 7 0 true))) /\ started (shared c) !! 1%nat = Some 1%nat /\
  pending (shared c) = ∅ /\ active (shared c) = ∅.
Proof. intros Hc. vm_compute in Hc. injection Hc as <-. vm_compute. done. Qed.

Lemma early_answer_happens : is_Some (exec ex_stale ex_begin).
Proof. vm_compute. eauto. Qed.

(** ** Keys and paths *)

Lemma prefixLen_length s : len s < 16 ^ 8 -> length (prefixLen s) = (8 + length s)%nat.
Proof. intros Hs. unfold prefixLen. rewrite (proj2 (Z.ltb_lt _ _) Hs), length_app, length_hexDigits. done. Qed.

Lemma prefixLen_inj s s' l l' :
  len s < 16 ^ 8 -> len s' < 16 ^ 8 -> prefixLen s ++ l = prefixLen s' ++ l' -> s = s' /\ l = l'.
Proof.
  intros Hs Hs' Heq. unfold prefixLen in Heq. rewrite !(proj2 (Z.ltb_lt _ _)) in Heq by done. rewrite <- !app_assoc in Heq.
  apply app_inj_1 in Heq as [Hd Heq]; [|by rewrite !length_hexDigits].
  assert (Hlen : len s = len s').
  { pose proof (len_nonneg s). pose proof (len_nonneg s'). apply (f_equal (parseHex 0)) in Hd. rewrite !parseHex_hexDigits in Hd by done.
    injection Hd as Hd. rewrite !Z.mod_small in Hd by (split; [done|]; cbn; lia). lia. }
  apply app_inj_1 in Heq; [done|]. unfold len in Hlen. lia.
Qed.

(** Two requests with the same key hash the same: version, method, generation, request
    and flags are told apart, as long as none is longer than four gigabytes. *)
Theorem compositeKey_inj v m g r fl v' m' g' r' fl' :
  Forall (fun s => len s < 16 ^ 8) [v; m; g; r; joinSpace fl; v'; m'; g'; r'; joinSpace fl'] ->
  compositeKey v m g r fl = compositeKey v' m' g' r' fl' -> v = v' /\ m = m' /\ g = g' /\ r = r' /\ joinSpace fl = joinSpace fl'.
Proof.
  intros Hall Heq. repeat (apply Forall_cons in Hall as [? Hall]). unfold compositeKey in Heq. cbn [fmap list_fmap concat] in Heq.
  do 5 (apply prefixLen_inj in Heq as [? Heq]; [|done..]). done.
Qed.

(** A relative path that leads out of the storage and back in names the repository
    like the direct one, but its state is kept elsewhere: leases taken under one of
    the names do not invalidate what is cached under the other. *)
Definition ex_storages : list Storage := [mkStorage "default" (text "/data/git")].
Definition ex_repo (relative : string) : GitRepo := mkRepo "default" (text relative) [] [].

Lemma aliased_state :
  let stat _ := StatDir in
  GetPath ex_storages stat (ex_repo "group/project.git") = GetPath ex_storages stat (ex_repo "../git/group/project.git") /\
  getRepoStatePath ex_storages (ex_repo "group/project.git") = Ok (text "/data/git/+gitaly/state/group/project.git") /\
  getRepoStatePath ex_storages (ex_repo "../git/group/project.git") = Ok (text "/data/git/+gitaly/git/group/project.git").
Proof. split_and!; vm_compute; reflexivity. Qed.
