(* ===== verification/Catfile.v ===== *)
(** Reading objects through git-cat-file: src/internal/git/catfile/objectinfo.go,
    batch_process.go, batch_check_process.go, batch.go and object.go.

    A batch keeps two processes, which answer a line on their input with the header
    of the object that the line names, and with its contents in the case of
    [--batch]. The requests of many handlers may share a batch. The state is what
    the processes have written and nobody has read yet; the bookkeeping of the code
    ([n]) says how much of it belongs to the object read last. What git answers is a
    parameter, with the documented format as its law. *)

From Stdlib Require Import Strings.Ascii.
From S2P Require Import Prelude GoStrings Regex GitVersion.

(** ** Numbers and lines *)

Definition LF : ascii := ascii_of_nat 10.
Definition SP : ascii := " "%char.

Definition HasSuffix (s suffix : list ascii) : bool := bool_decide (suffix `suffix_of` s).

(** [strconv.ParseUint(s, 10, 64)] after the test for an empty text. *)
Fixpoint parseUint64 (acc : Z) (s : list ascii) : out NumError Z :=
  match s with
  | [] => Ok acc
  | c :: s =>
    match digitValue c with
    | None => Err ErrSyntax
    | Some d =>
      let n := acc * 10 + d in
      if decide (n >= 2 ^ 64) then Err ErrRange else parseUint64 n s
    end
  end.

Definition ParseUint64 (s : list ascii) : out NumError Z :=
  if decide (s = []) then Err ErrSyntax else parseUint64 0 s.

(** [strconv.ParseInt(s, 10, 64)]. *)
Definition ParseInt64 (s : list ascii) : out NumError Z :=
  let '(neg, digits) :=
    match s with
    | c :: s' => if decide (c = "+"%char) then (false, s') else if decide (c = "-"%char) then (true, s') else (false, s)
    | [] => (false, s)
    end in
  match ParseUint64 digits with
  | Ok un =>
    if (neg : bool) then if decide (un > 2 ^ 63) then Err ErrRange else Ok (- un)
    else if decide (un >= 2 ^ 63) then Err ErrRange else Ok un
  | r => r
  end.

(** ** Objects *)

Record ObjectInfo : Type := mkInfo {
  Oid : list ascii;
  Type_ : list ascii;
  Size : Z;
}.

Definition IsBlob (o : ObjectInfo) : bool := bool_decide (Type_ o = text "blob").

Inductive BatchError : Type :=
| NotFoundError
| EInvalidLine (line : list ascii)
| EObjectID (hex : list ascii)
| ESize (e : NumError)
| EUnread (n : Z)
| EWrite
| EEOF
| EWaits.  (* the call does not return as long as the process lives *)

Definition IsNotFound (e : BatchError) : bool := match e with NotFoundError => true | _ => false end.

(** ** Processes *)

(** What the process has written and was not read yet, and whether it still runs. *)
Record Process : Type := mkProcess { unread : list ascii; alive : bool }.

(** There is nothing more to be read: the call waits, or sees the end. *)
Definition exhausted (p : Process) : BatchError := if alive p then EWaits else EEOF.

(** The header without its line feed. *)
Definition parseInfoLine (infoLine : list ascii) : out BatchError ObjectInfo :=
  if HasSuffix infoLine (text " missing") then Err NotFoundError
  else
    match Split SP infoLine with
    | [oid; typ; size] =>
      match NewObjectIDFromHex oid with
      | None => Err (EObjectID oid)
      | Some oid =>
        match ParseInt64 size with
        | Ok objectSize => Ok (mkInfo oid typ objectSize)
        | Err e => Err (ESize e)
        | Panic => Panic
        end
      end
    | _ => Err (EInvalidLine infoLine)
    end.

Definition ParseObjectInfo : M Process BatchError ObjectInfo := fun p =>
  match Cut LF (unread p) with
  | (_, None) => (Err (exhausted p), if alive p then p else mkProcess [] false)
  | (infoLine, Some rest) => (parseInfoLine infoLine, mkProcess rest (alive p))
  end.

Section Requests.
Context {G : Type} (answer : G -> list ascii -> list ascii).

(** The repository at the time of the request, whether the process ends during it
    (and how much of its output arrives), and whether a line written to a process
    that has ended is lost or refused. *)
Record Env : Type := mkEnv { repo : G; ends : option nat; lost : bool }.

(** [fmt.Fprintln(w, revision)]: git answers every line it reads. *)
Definition Fprintln (env : Env) (revision : list ascii) : M Process BatchError unit := fun p =>
  if alive p then
    let output := unread p ++ concat (map (answer (repo env)) (Split LF revision)) in
    (Ok tt, match ends env with
            | None => mkProcess output true
            | Some k => mkProcess (take k output) false
            end)
  else if lost env then (Ok tt, p) else (Err EWrite, p).

(** [batchCheckProcess.info]. *)
Definition info (env : Env) (revision : list ascii) : M Process BatchError ObjectInfo :=
  _ ← Fprintln env revision; ParseObjectInfo.

(** *** The process with contents *)

Record batchProcess : Type := mkBatch { n : Z; process : Process }.

Definition onProcess {A} (m : M Process BatchError A) : M batchProcess BatchError A := fun b =>
  let (r, p) := m (process b) in (r, mkBatch (n b) p).

Definition setN (z : Z) : M batchProcess BatchError unit := fun b => (Ok tt, mkBatch z (process b)).

Definition ReadByte : M Process BatchError ascii := fun p =>
  match unread p with
  | c :: rest => (Ok c, mkProcess rest (alive p))
  | [] => (Err (exhausted p), p)
  end.

(** [io.CopyN(ioutil.Discard, r, k)]. *)
Definition CopyN (k : Z) : M Process BatchError unit := fun p =>
  if k <=? Z.of_nat (length (unread p)) then (Ok tt, mkProcess (drop (Z.to_nat k) (unread p)) (alive p))
  else (Err (exhausted p), mkProcess [] (alive p)).

(** [batchProcess.reader]: the object, whose reader may read [Size] bytes. *)
Definition reader (env : Env) (revision expectedType : list ascii) : M batchProcess BatchError ObjectInfo :=
  b ← get;
  _ ← (if decide (n b = 1) then _ ← onProcess ReadByte; setN (n b - 1) else mret tt);
  b ← get;
  if decide (n b ≠ 0) then fail (EUnread (n b)) else
  _ ← onProcess (Fprintln env revision);
  oi ← onProcess ParseObjectInfo;
  _ ← setN (i64 (Size oi + 1));
  b ← get;
  if decide (Type_ oi ≠ expectedType) then
    _ ← onProcess (CopyN (n b));
    _ ← setN 0;
    fail NotFoundError
  else mret oi.

Definition consume (nBytes : Z) : M batchProcess BatchError unit :=
  b ← get;
  _ ← setN (i64 (n b - nBytes));
  b ← get;
  if decide (n b < 1) then panic else mret tt.

Definition hasUnreadData (b : batchProcess) : bool := bool_decide (n b > 1).

(** [batchReader.Read] into a buffer of [len] bytes by a reader that may still read
    [left] bytes; [count] says how many of the bytes there are it gets. *)
Definition Read (left : Z) (len count : nat) : M batchProcess BatchError (list ascii) :=
  b ← get;
  let available := unread (process b) in
  if decide (left <= 0) then _ ← consume 0; fail EEOF
  else if decide (len = 0%nat) then _ ← consume 0; mret []
  else if decide (available = []) then
    if alive (process b) then fail EWaits else _ ← consume 0; fail EEOF
  else
    let size := Nat.min len (Nat.min (Z.to_nat left) (length available)) in
    let got := Nat.max 1 (Nat.min count size) in
    _ ← onProcess (fun p => (Ok tt, mkProcess (drop got available) (alive p)));
    _ ← consume (Z.of_nat got);
    mret (take got available).

Definition newBatchProcess : batchProcess := mkBatch 0 (mkProcess [] true).
End Requests.
Arguments Env G : clear implicits.

(** ** Handlers that share a batch *)

(** What git finds for a line, and what its processes write. *)
Inductive Reply : Type := Missing | Ambiguous | Found (oid typ contents : list ascii).

Class GitCatFile (G : Type) : Type := {
  resolve : G -> list ascii -> Reply;
  answerBatch : G -> list ascii -> list ascii;
  answerCheck : G -> list ascii -> list ascii;
}.

Definition objectTypes : list (list ascii) := [text "commit"; text "tree"; text "blob"; text "tag"].

(** The output format that git-cat-file documents. *)
Class GitCatFileLaws (G : Type) `{!GitCatFile G} : Prop := {
  batch_missing (g : G) line : LF ∉ line -> resolve g line = Missing ->
    answerBatch g line = line ++ text " missing" ++ [LF] /\ answerCheck g line = line ++ text " missing" ++ [LF];
  batch_ambiguous (g : G) line : LF ∉ line -> resolve g line = Ambiguous ->
    answerBatch g line = line ++ text " ambiguous" ++ [LF] /\ answerCheck g line = line ++ text " ambiguous" ++ [LF];
  batch_found (g : G) line oid typ contents : LF ∉ line -> resolve g line = Found oid typ contents ->
    ValidateObjectID oid = true /\ typ ∈ objectTypes /\ Z.of_nat (length contents) < 2 ^ 63 - 1 /\
    exists size, size ≠ [] /\ Forall (fun c => isDigit c = true) size /\ numeral size = Z.of_nat (length contents) /\
      answerCheck g line = oid ++ [SP] ++ typ ++ [SP] ++ size ++ [LF] /\
      answerBatch g line = oid ++ [SP] ++ typ ++ [SP] ++ size ++ [LF] ++ contents ++ [LF];
}.

Section System.
Context {G : Type} `{!GitCatFile G}.

(** An object a handler holds: [left] is the limit of its reader. For what the
    theorems say, the request it answers and the bytes read so far are kept too. *)
Record Object : Type := mkObject {
  objectInfo : ObjectInfo;
  left : Z;
  asked : G * list ascii;
  received : list ascii;
}.

Inductive Kind : Type := KTree | KCommit | KBlob | KTag.

Definition kindName (k : Kind) : list ascii :=
  match k with KTree => text "tree" | KCommit => text "commit" | KBlob => text "blob" | KTag => text "tag" end.

(** [batch.Tree], [batch.Commit], [batch.Blob] and [batch.Tag]. *)
Definition requestObject (k : Kind) (env : Env G) (revision : list ascii) : M batchProcess BatchError ObjectInfo :=
  reader answerBatch env revision (kindName k).

(** [batch.Info]. *)
Definition Info (env : Env G) (revision : list ascii) : M Process BatchError ObjectInfo :=
  info answerCheck env revision.

Record System : Type := mkSystem {
  batch : batchProcess;
  checker : Process;
  objects : list Object;
}.

Inductive Call : Type :=
| CObject (k : Kind) (env : Env G) (revision : list ascii)
| CRead (i len count : nat)
| CInfo (env : Env G) (revision : list ascii)
| CEnd (k k' : nat).  (* the context is cancelled; so many bytes of output still arrive *)

Inductive Result : Type :=
| RObject (r : out BatchError nat)
| RBytes (r : out BatchError (list ascii))
| RInfo (r : out BatchError ObjectInfo)
| RNone.

(** A call of a handler; the locks make it one step. *)
Definition step (c : Call) (s : System) : Result * System :=
  match c with
  | CObject k env revision =>
    let (r, b) := requestObject k env revision (batch s) in
    match r with
    | Ok oi => (RObject (Ok (length (objects s))),
                mkSystem b (checker s) (objects s ++ [mkObject oi (Size oi) (repo env, revision) []]))
    | Err e => (RObject (Err e), mkSystem b (checker s) (objects s))
    | Panic => (RObject Panic, mkSystem b (checker s) (objects s))
    end
  | CRead i len count =>
    match objects s !! i with
    | None => (RNone, s)
    | Some o =>
      let (r, b) := Read (left o) len count (batch s) in
      match r with
      | Ok data =>
        (RBytes (Ok data), mkSystem b (checker s)
           (<[i := mkObject (objectInfo o) (left o - Z.of_nat (length data)) (asked o) (received o ++ data)]> (objects s)))
      | r => (RBytes r, mkSystem b (checker s) (objects s))
      end
    end
  | CInfo env revision =>
    let (r, p) := Info env revision (checker s) in (RInfo r, mkSystem (batch s) p (objects s))
  | CEnd k k' =>
    let b := batch s in
    (RNone, mkSystem (mkBatch (n b) (mkProcess (take k (unread (process b))) false))
                     (mkProcess (take k' (unread (checker s))) false) (objects s))
  end.

Definition newBatch : System := mkSystem newBatchProcess (mkProcess [] true) [].

Fixpoint runCalls (cs : list Call) (s : System) : list Result * System :=
  match cs with
  | [] => ([], s)
  | c :: cs => let (r, s1) := step c s in let (rs, s2) := runCalls cs s1 in (r :: rs, s2)
  end.

(** The revisions of the requests are single lines. *)
Definition plainCall (c : Call) : Prop :=
  match c with CObject _ _ revision | CInfo _ revision => LF ∉ revision | _ => True end.

Definition contentsOf (o : Object) (contents : list ascii) : Prop :=
  resolve (asked o).1 (asked o).2 = Found (Oid (objectInfo o)) (Type_ (objectInfo o)) contents.

(** An object is the one that was asked for, and what was read of it is the
    beginning of its contents. *)
Definition exactObject (o : Object) : Prop :=
  exists contents, contentsOf o contents /\ Size (objectInfo o) = Z.of_nat (length contents) /\
    0 <= left o /\ received o = take (length contents - Z.to_nat (left o)) contents /\ left o <= Size (objectInfo o).

End System.
Arguments Object G : clear implicits.
Arguments System G : clear implicits.
Arguments Call G : clear implicits.

(** ** Headers are read back *)

Lemma digit_range c : isDigit c = true -> digitValue c = Some (Z.of_nat (nat_of_ascii c) - 48) /\ 0 <= Z.of_nat (nat_of_ascii c) - 48 <= 9.
Proof.
  intros Hc. assert (Hd : digitValue c = Some (Z.of_nat (nat_of_ascii c) - 48)) by (unfold digitValue; by rewrite Hc).
  split; [done|]. by apply digitValue_some in Hd as (_ & _ & ?).
Qed.

Lemma foldl_digits_le s : Forall (fun c => isDigit c = true) s -> forall acc, 0 <= acc ->
  acc <= foldl (fun acc c => acc * 10 + (Z.of_nat (nat_of_ascii c) - 48)) acc s.
Proof.
  induction 1 as [|c s Hc _ IH]; intros acc Hacc; cbn [foldl]; [lia|]. apply digit_range in Hc as [_ Hr].
  etrans; [|apply IH; lia]. lia.
Qed.

Lemma parseUint64_digits s : Forall (fun c => isDigit c = true) s -> forall acc, 0 <= acc ->
  foldl (fun acc c => acc * 10 + (Z.of_nat (nat_of_ascii c) - 48)) acc s < 2 ^ 64 ->
  parseUint64 acc s = Ok (foldl (fun acc c => acc * 10 + (Z.of_nat (nat_of_ascii c) - 48)) acc s).
Proof.
  induction 1 as [|c s Hc Hs IH]; intros acc Hacc Hlt; cbn [parseUint64 foldl] in *; [done|].
  apply digit_range in Hc as [-> Hr]. pose proof (foldl_digits_le s Hs (acc * 10 + (Z.of_nat (nat_of_ascii c) - 48)) ltac:(lia)).
  rewrite decide_False by lia. apply IH; [lia|done].
Qed.

Lemma ParseInt64_digits s :
  s ≠ [] -> Forall (fun c => isDigit c = true) s -> numeral s < 2 ^ 63 -> ParseInt64 s = Ok (numeral s).
Proof.
  intros Hne Hs Hlt. destruct s as [|c s]; [done|]. pose proof (Forall_inv Hs) as Hc. cbn beta in Hc. unfold ParseInt64.
  rewrite decide_False by (intros ->; by vm_compute in Hc). rewrite decide_False by (intros ->; by vm_compute in Hc).
  unfold ParseUint64. rewrite decide_False by done. unfold numeral in *. rewrite parseUint64_digits by (done || lia).
  by rewrite decide_False by lia.
Qed.

Lemma Split_last c s w : c ∉ w -> last (Split c (s ++ c :: w)) = Some w.
Proof.
  intros Hw. assert (Hl : forall x parts, parts ≠ [] -> last (x :: parts) = @last (list ascii) parts) by (intros x [|]; done).
  induction s as [|x s IH]; cbn [app Split].
  - rewrite decide_True by done. rewrite Hl by apply Split_not_nil. by rewrite Split_plain.
  - case_decide; [rewrite Hl by apply Split_not_nil; done|]. destruct (Split c (s ++ c :: w)) as [|p [|q ps]] eqn:Hs; [done| |done].
    exfalso. pose proof (Join_Split c (s ++ c :: w)) as Hj. rewrite Hs in Hj. cbn in Hj.
    apply (Split_parts c (s ++ c :: w) p); [rewrite Hs; apply list_elem_of_here|]. rewrite Hj. apply elem_of_app. right.
    apply list_elem_of_here.
Qed.

Lemma HasSuffix_app s w : HasSuffix (s ++ w) w = true.
Proof. apply bool_decide_eq_true. by exists s. Qed.

Lemma HasSuffix_last s w x y : last s = Some x -> last w = Some y -> x ≠ y -> HasSuffix s w = false.
Proof. intros Hs Hw Hne. apply bool_decide_eq_false. intros [s' ->]. rewrite last_app, Hw in Hs. by simplify_eq. Qed.

Lemma parse_missing line : parseInfoLine (line ++ text " missing") = Err NotFoundError.
Proof. unfold parseInfoLine. by rewrite HasSuffix_app. Qed.

(** An ambiguous name is an error, and not taken for an object. *)
Lemma parse_ambiguous line : exists e, parseInfoLine (line ++ text " ambiguous") = Err e /\ e ≠ NotFoundError /\ e ≠ EWaits.
Proof.
  unfold parseInfoLine. rewrite (HasSuffix_last _ _ "s"%char "g"%char); [|by rewrite last_app|done|done].
  pose proof (Split_last SP line (text "ambiguous") ltac:(by apply (bool_decide_unpack _))) as Hl.
  change (SP :: text "ambiguous") with (text " ambiguous") in Hl.
  destruct (Split SP (line ++ text " ambiguous")) as [|a [|b [|c [|d l]]]]; try (eexists; split_and!; [reflexivity|done|done]).
  cbn in Hl. injection Hl as ->. destruct (NewObjectIDFromHex a); eexists; split_and!; done.
Qed.

Lemma hex_no_space oid : ValidateObjectID oid = true -> SP ∉ oid /\ LF ∉ oid.
Proof. rewrite ValidateObjectID_spec. intros [_ H]. split; intros Hin; by specialize (H _ Hin). Qed.

Lemma type_plain typ : typ ∈ objectTypes -> SP ∉ typ /\ LF ∉ typ.
Proof.
  intros Ht. assert (H : Forall (fun t => SP ∉ t /\ LF ∉ t) objectTypes) by (by apply (bool_decide_unpack _)).
  by rewrite Forall_forall in H; apply H.
Qed.

Lemma digits_plain size : Forall (fun c => isDigit c = true) size -> SP ∉ size /\ LF ∉ size.
Proof. intros Hs. split; by apply digits_no. Qed.

Lemma parse_found oid typ size :
  ValidateObjectID oid = true -> typ ∈ objectTypes -> size ≠ [] -> Forall (fun c => isDigit c = true) size -> numeral size < 2 ^ 63 ->
  parseInfoLine (oid ++ [SP] ++ typ ++ [SP] ++ size) = Ok (mkInfo oid typ (numeral size)).
Proof.
  intros Hoid Htyp Hne Hd Hlt. unfold parseInfoLine.
  destruct (last size) as [x|] eqn:Hx; [|by apply last_None in Hx].
  assert (Hdx : isDigit x = true) by (rewrite Forall_forall in Hd; apply Hd; by apply last_Some_elem_of).
  rewrite (HasSuffix_last _ _ x "g"%char); [|by rewrite !last_app, Hx|done|intros ->; by vm_compute in Hdx].
  cbn [app]. rewrite Split_app by (by apply hex_no_space). rewrite Split_app by (by apply type_plain).
  rewrite Split_plain by (by apply digits_plain). unfold NewObjectIDFromHex. rewrite Hoid. by rewrite ParseInt64_digits.
Qed.

(** ** Requests to an idle process *)

Section Exact.
Context {G : Type} `{!GitCatFile G, !GitCatFileLaws G}.
Implicit Types (p : Process) (b : batchProcess) (s : System G) (o : Object G).

(** The header line of an answer, and what follows it. *)
Definition answers (g : G) (line hdr tail : list ascii) : Prop :=
  LF ∉ hdr /\ answerBatch g line = hdr ++ LF :: tail /\ answerCheck g line = hdr ++ [LF] /\
  match resolve g line with
  | Missing => parseInfoLine hdr = Err NotFoundError /\ tail = []
  | Ambiguous => (exists e, parseInfoLine hdr = Err e /\ e ≠ NotFoundError /\ e ≠ EWaits /\ (forall z, e ≠ EUnread z)) /\ tail = []
  | Found oid typ contents =>
    parseInfoLine hdr = Ok (mkInfo oid typ (Z.of_nat (length contents))) /\ tail = contents ++ [LF] /\
    Z.of_nat (length contents) < 2 ^ 63 - 1
  end.

Lemma parseInfoLine_unread line z : parseInfoLine line ≠ Err (EUnread z).
Proof. unfold parseInfoLine. by repeat case_match. Qed.

Lemma answer_reply g line : LF ∉ line -> exists hdr tail, answers g line hdr tail.
Proof.
  intros Hl. unfold answers. destruct (resolve g line) as [| |oid typ contents] eqn:Hr.
  - destruct (batch_missing g line Hl Hr) as [-> ->]. exists (line ++ text " missing"), []. rewrite <- !app_assoc.
    split_and!; [|done|done|apply parse_missing|done]. rewrite elem_of_app. intros [?|Hin]; [done|]. revert Hin. by apply (bool_decide_unpack _).
  - destruct (batch_ambiguous g line Hl Hr) as [-> ->]. exists (line ++ text " ambiguous"), []. rewrite <- !app_assoc.
    split_and!; [|done|done| |done].
    + rewrite elem_of_app. intros [?|Hin]; [done|]. revert Hin. by apply (bool_decide_unpack _).
    + destruct (parse_ambiguous line) as (e & He & ? & ?). exists e. split_and!; [done..|]. intros z ->.
      by eapply parseInfoLine_unread.
  - destruct (batch_found g line oid typ contents Hl Hr) as (Ho & Ht & Hlt & size & Hne & Hd & Hnum & -> & ->).
    exists (oid ++ [SP] ++ typ ++ [SP] ++ size), (contents ++ [LF]). split_and!; [| | | |done|done].
    + rewrite !elem_of_app, !list_elem_of_singleton. pose proof (proj2 (hex_no_space _ Ho)). pose proof (proj2 (type_plain _ Ht)).
      pose proof (proj2 (digits_plain _ Hd)). intros [?|[?|[?|[?|?]]]]; done.
    + by rewrite <- !app_assoc.
    + by rewrite <- !app_assoc.
    + rewrite <- Hnum. apply parse_found; (done || lia).
Qed.

Lemma Cut_prefix c line tail w : c ∉ line -> w `prefix_of` line ++ c :: tail ->
  (Cut c w = (w, None)) \/ exists tail', w = line ++ c :: tail' /\ tail' `prefix_of` tail.
Proof.
  intros Hl [z Hw]. symmetry in Hw. apply app_eq_inv in Hw as [(l & -> & Hw)|(l & -> & Hw)].
  - destruct l as [|x l]; [left; rewrite app_nil_r; by apply Cut_plain|]. right. injection Hw as <- ->.
    exists l. split; [done|]. by exists z.
  - left. apply Cut_plain. intros Hin. apply Hl. apply elem_of_app. by left.
Qed.

(** A request to a process with nothing unread: the answer arrives as far as the
    process lives to write it. *)
Lemma ask_spec (answer : G -> list ascii -> list ascii) env line hdr tail p :
  LF ∉ line -> LF ∉ hdr -> answer (repo env) line = hdr ++ LF :: tail -> unread p = [] ->
  exists r p', info answer env line p = (r, p') /\
    (r = parseInfoLine hdr /\ unread p' `prefix_of` tail /\ (alive p' = true -> unread p' = tail /\ alive p = true) \/
     (r = Err EEOF \/ r = Err EWrite) /\ p' = mkProcess [] false) /\
    (alive p = true -> ends env = None -> r = parseInfoLine hdr /\ p' = mkProcess tail true).
Proof.
  intros Hl Hh Ha Hu. destruct p as [u al]. cbn in Hu. subst u. unfold info, Fprintln, mbind, M_bind. cbn [unread alive].
  rewrite Split_plain by done. cbn [map concat app]. rewrite app_nil_r, Ha. destruct al.
  - destruct (ends env) as [k|].
    + unfold ParseObjectInfo. cbn [unread alive].
      destruct (Cut_prefix LF hdr tail (take k (hdr ++ LF :: tail)) Hh) as [Hc|(tail' & -> & Hp)]; [apply prefix_take| |].
      * rewrite Hc. eexists _, _. split; [reflexivity|]. split; [right; split; [by left|done]|done].
      * rewrite Cut_app by done. eexists _, _. split; [reflexivity|]. split; [left; cbn; split_and!; done|done].
    + unfold ParseObjectInfo. cbn [unread alive]. rewrite Cut_app by done. eexists _, _. split; [reflexivity|].
      split; [left; cbn; split_and!; done|done].
  - destruct (lost env).
    + unfold ParseObjectInfo. cbn. eexists _, _. split; [reflexivity|]. split; [right; split; [by left|done]|done].
    + eexists _, _. split; [reflexivity|]. split; [right; split; [by right|done]|done].
Qed.

(** *** The cases of reader *)

Lemma reader_busy answer env revision typ b :
  n b ≠ 0 -> n b ≠ 1 -> @reader G answer env revision typ b = (Err (EUnread (n b)), b).
Proof.
  intros H0 H1. unfold reader, mbind, M_bind, get. rewrite decide_False by done. cbn. by rewrite decide_True.
Qed.

Lemma reader_linefeed answer env revision typ b :
  n b = 1 -> @reader G answer env revision typ b =
    match unread (process b) with
    | [] => (Err (exhausted (process b)), b)
    | _ :: rest => reader answer env revision typ (mkBatch 0 (mkProcess rest (alive (process b))))
    end.
Proof.
  destruct b as [z [u al]]. cbn. intros ->. unfold reader, mbind, M_bind, get, onProcess, ReadByte. rewrite decide_True by done.
  cbn. destruct u as [|c u]; cbn; [done|]. unfold mbind, M_bind, setN, mret, M_ret. cbn. by rewrite (decide_False (P := 0 = 1)) by done.
Qed.

Lemma reader_ask answer env revision typ b :
  n b = 0 -> @reader G answer env revision typ b =
    let (r, p) := info answer env revision (process b) in
    match r with
    | Ok oi =>
      let z := i64 (Size oi + 1) in
      if decide (Type_ oi ≠ typ) then
        match CopyN z p with
        | (Ok _, p) => (Err NotFoundError, mkBatch 0 p)
        | (Err e, p) => (Err e, mkBatch z p)
        | (Panic, p) => (Panic, mkBatch z p)
        end
      else (Ok oi, mkBatch z p)
    | Err e => (Err e, mkBatch 0 p)
    | Panic => (Panic, mkBatch 0 p)
    end.
Proof.
  destruct b as [z p]. cbn. intros ->. unfold reader, mbind, M_bind, get, onProcess, info. rewrite decide_False by done.
  cbn. unfold mbind, M_bind. rewrite decide_False by (intros H; by apply H). cbn.
  destruct (Fprintln answer env revision p) as [[|e|] p1]; [|done..].
  cbn. destruct (ParseObjectInfo p1) as [[oi|e|] p2]; [|done..]. cbn. case_decide; [|done].
  destruct (CopyN (i64 (Size oi + 1)) p2) as [[|e|] p3] eqn:Hc; cbn; rewrite ?Hc; done.
Qed.

Lemma CopyN_rest z p contents :
  z = Z.of_nat (length contents) -> unread p `prefix_of` contents ->
  CopyN z p = (Ok tt, mkProcess [] (alive p)) \/
  (unread p ≠ contents /\ CopyN z p = (Err (exhausted p), mkProcess [] (alive p))).
Proof.
  intros -> [tail Hp]. unfold CopyN. assert (Hlen : length contents = (length (unread p) + length tail)%nat)
    by (by rewrite Hp, length_app). case_match eqn:Hc.
  - left. rewrite drop_ge by lia. done.
  - right. split; [|done]. intros Heq. rewrite Heq in Hc. lia.
Qed.

(** What a request to an idle batch brings about. *)
Lemma reader_idle env k line b :
  LF ∉ line -> n b = 0 -> unread (process b) = [] ->
  exists r b', requestObject k env line b = (r, b') /\
    match r with
    | Ok oi => exists contents, resolve (repo env) line = Found (Oid oi) (Type_ oi) contents /\ Type_ oi = kindName k /\
        Size oi = Z.of_nat (length contents) /\ Size oi < 2 ^ 63 - 1 /\ n b' = Size oi + 1 /\
        unread (process b') `prefix_of` contents ++ [LF] /\ (alive (process b') = true -> unread (process b') = contents ++ [LF])
    | Err e => e ≠ EWaits /\ (forall z, e ≠ EUnread z) /\ unread (process b') = [] /\
        (n b' = 0 \/ alive (process b') = false /\ 0 <= n b' < 2 ^ 63) /\
        (e = NotFoundError -> resolve (repo env) line = Missing \/
           exists oid typ contents, resolve (repo env) line = Found oid typ contents /\ typ ≠ kindName k)
    | Panic => False
    end /\
    (alive (process b) = true -> ends env = None -> forall oid contents,
       resolve (repo env) line = Found oid (kindName k) contents -> r = Ok (mkInfo oid (kindName k) (Z.of_nat (length contents)))).
Proof.
  intros Hl Hn Hu. destruct (answer_reply (repo env) line Hl) as (hdr & tail & Hh & Ha & _ & Hr).
  destruct (ask_spec answerBatch env line hdr tail (process b) Hl Hh Ha Hu) as (r & p & Hi & Hcases & Halive).
  unfold requestObject. rewrite reader_ask, Hi by done. clear Hi.
  destruct Hcases as [(-> & Hp & Hal)|([->| ->] & ->)].
  2,3: eexists _, _; split; [reflexivity|]; split;
    [split_and!; (done || (by left))|intros H1 H2; destruct (Halive H1 H2) as [? ?]; congruence].
  destruct (resolve (repo env) line) as [| |oid typ contents] eqn:Hres.
  - destruct Hr as [-> ->]. apply prefix_nil_inv in Hp. eexists _, _. split; [reflexivity|]. split; [|done].
    split_and!; [done|done|done|by left|by left].
  - destruct Hr as [(e & -> & He & Hw & Hz) ->]. apply prefix_nil_inv in Hp. eexists _, _. split; [reflexivity|].
    split; [|done]. split_and!; [done|done|done|by left|done].
  - destruct Hr as (-> & -> & Hlt). cbn [Size Type_ Oid]. rewrite i64_small by lia. case_decide as Htyp.
    + destruct (CopyN_rest (Z.of_nat (length contents) + 1) p (contents ++ [LF])) as [->|[Hne ->]];
        [rewrite length_app; cbn; lia|done| |]; cbn.
      * eexists _, _. split; [reflexivity|]. split; [|intros _ _ oid' c' [= -> -> ->]; done].
        split_and!; [done|done|done|by left|]. intros _. right. eauto.
      * destruct (alive p) eqn:Hap; [by destruct (Hal eq_refl)|]. eexists _, _. split; [reflexivity|].
        split; [|intros _ _ oid' c' [= -> -> ->]; done]. unfold exhausted. rewrite Hap. split_and!; [done|done|done| |done].
        right. cbn. split; [done|lia].
    + subst typ. eexists _, _. split; [reflexivity|]. split; [|by intros _ _ oid' c' [= -> ->]].
      exists contents. cbn. split_and!; try done. intros H. by apply Hal.
Qed.

(** ** The invariant of a shared batch *)

Definition idle (objs : list (Object G)) : Prop := forall o, o ∈ objs -> left o = 0.

(** What the process owes: nothing, or the rest of the object that is being read,
    with the line feed after it. *)
Definition owed (objs : list (Object G)) (z : Z) (rest : list ascii) : Prop :=
  (z = 0 /\ rest = [] /\ idle objs) \/
  (exists i o contents, objs !! i = Some o /\ z = left o + 1 /\ contentsOf o contents /\
     rest = drop (length (received o)) contents ++ [LF] /\ forall j o', objs !! j = Some o' -> j ≠ i -> left o' = 0).

Record inv (s : System G) : Prop := {
  inv_objects : Forall (fun o => exactObject o /\ Size (objectInfo o) < 2 ^ 63 - 1) (objects s);
  inv_batch : exists rest,
    (owed (objects s) (n (batch s)) rest \/
     alive (process (batch s)) = false /\ rest = [] /\ 0 <= n (batch s) < 2 ^ 63 /\ idle (objects s)) /\
    unread (process (batch s)) `prefix_of` rest /\ (alive (process (batch s)) = true -> unread (process (batch s)) = rest);
  inv_checker : unread (checker s) = [];
}.

Lemma newBatch_inv : inv newBatch.
Proof.
  constructor; cbn; [constructor| |done]. exists []. split_and!; [|done|done]. left. left. split_and!; [done|done|].
  intros o Hin. by apply elem_of_nil in Hin.
Qed.

Lemma exact_full o contents : exactObject o -> contentsOf o contents -> left o = 0 -> received o = contents.
Proof.
  intros (c' & Hc & Hs & H0 & Hrec & Hle) Hc' Hl. unfold contentsOf in *. rewrite Hc' in Hc. injection Hc as <-.
  rewrite Hrec, Hl. apply take_ge. cbn. lia.
Qed.

Lemma exact_length o contents : exactObject o -> contentsOf o contents ->
  left o = Z.of_nat (length contents) - Z.of_nat (length (received o)) /\ received o = take (length (received o)) contents /\
  0 <= left o <= Z.of_nat (length contents).
Proof.
  intros (c' & Hc & Hs & H0 & Hrec & Hle) Hc'. unfold contentsOf in *. rewrite Hc' in Hc. injection Hc as <-.
  assert (Hlen : length (received o) = (length contents - Z.to_nat (left o))%nat) by (rewrite Hrec at 1; rewrite length_take; lia).
  split_and!; [lia| |lia|lia]. rewrite Hlen. done.
Qed.

(** The states in which a request reaches the process, or is refused. *)
Lemma batch_states s : inv s ->
  (n (batch s) = 0 /\ unread (process (batch s)) = [] /\ idle (objects s)) \/
  (n (batch s) = 1 /\ idle (objects s) /\ (unread (process (batch s)) = [LF] \/
     unread (process (batch s)) = [] /\ alive (process (batch s)) = false)) \/
  (1 < n (batch s) /\ (alive (process (batch s)) = false \/
     exists i o, objects s !! i = Some o /\ n (batch s) = left o + 1 /\ 0 < left o)).
Proof.
  intros [Ho (rest & Howed & Hp & Hal) _]. destruct Howed as [[(Hz & -> & Hi)|(i & o & contents & Hoi & Hz & Hc & -> & Hothers)]|(Hd & -> & Hz & Hi)].
  - apply prefix_nil_inv in Hp. by left.
  - pose proof Ho as Ho'. rewrite Forall_lookup in Ho'. destruct (Ho' i o Hoi) as [He _].
    destruct (exact_length o contents He Hc) as (Hlen & Htake & Hr).
    destruct (decide (left o = 0)) as [H0|H0].
    + right. left. split_and!; [lia| |].
      * intros o' [j Hj]%list_elem_of_lookup. destruct (decide (j = i)) as [->|Hne]; [congruence|]. by eapply Hothers.
      * rewrite drop_ge in * by lia. cbn in Hp, Hal. destruct (unread (process (batch s))) as [|c u] eqn:Hu.
        { right. split; [done|]. destruct (alive _); [by specialize (Hal eq_refl)|done]. }
        left. apply prefix_length in Hp as Hl. destruct u; [|cbn in Hl; lia]. by apply prefix_cons_inv_1 in Hp as ->.
    + right. right. split; [lia|]. right. exists i, o. split_and!; [done|done|lia].
  - apply prefix_nil_inv in Hp. destruct (decide (n (batch s) = 0)); [by left|]. right.
    destruct (decide (n (batch s) = 1)); [left; split_and!; [done|done|by right]|right]. split; [lia|by left].
Qed.

(** *** Requests for objects *)

Definition objectResult (s : System G) (k : Kind) (env : Env G) (line : list ascii) (r : out BatchError nat) : Prop :=
  match r with
  | Ok i => i = length (objects s) /\ exists oid contents, resolve (repo env) line = Found oid (kindName k) contents
  | Err NotFoundError => resolve (repo env) line = Missing \/
      exists oid typ contents, resolve (repo env) line = Found oid typ contents /\ typ ≠ kindName k
  | Err (EUnread z) => alive (process (batch s)) = false \/ exists i o, objects s !! i = Some o /\ z = left o + 1 /\ 0 < left o
  | Err EWaits | Panic => False
  | Err _ => True
  end.

(** A request for an existing object of the right type to a live and idle batch. *)
Definition mustSucceed (s : System G) (k : Kind) (env : Env G) (line : list ascii) : Prop :=
  alive (process (batch s)) = true /\ idle (objects s) /\ ends env = None /\
  exists oid contents, resolve (repo env) line = Found oid (kindName k) contents.

Lemma objectResult_err s k env line e :
  e ≠ EWaits -> (forall z, e ≠ EUnread z) ->
  (e = NotFoundError -> resolve (repo env) line = Missing \/
     exists oid typ contents, resolve (repo env) line = Found oid typ contents /\ typ ≠ kindName k) ->
  objectResult s k env line (Err e).
Proof. intros Hw Hu Hn. destruct e; cbn; auto. by destruct (Hu n0). Qed.

(** The step from an idle batch, once the line feed has been read. *)
Lemma request_ok s k env line b :
  LF ∉ line -> n b = 0 -> unread (process b) = [] -> alive (process b) = alive (process (batch s)) -> inv s -> idle (objects s) ->
  requestObject k env line (batch s) = requestObject k env line b ->
  let (r, s') := step (CObject k env line) s in
  inv s' /\ exists x, r = RObject x /\ objectResult s k env line x /\ (mustSucceed s k env line -> x = Ok (length (objects s))).
Proof.
  intros Hl Hn Hu Hal Hinv Hi Heq. cbn [step]. rewrite Heq.
  destruct (reader_idle env k line b Hl Hn Hu) as (r & b' & -> & Hr & Hsucc). rewrite Hal in Hsucc. destruct r as [oi|e|]; [| |done].
  - destruct Hr as (contents & Hres & Ht & Hs & Hlt & Hn' & Hp & Hfull). split.
    + constructor; cbn [objects batch checker].
      * apply Forall_app. split; [apply Hinv|]. apply Forall_singleton. split; [|done]. exists contents. unfold contentsOf. cbn.
        split_and!; [done|done|lia| |lia]. rewrite Hs, Nat2Z.id, Nat.sub_diag. done.
      * exists (contents ++ [LF]). split_and!; [|done|done]. left. right.
        exists (length (objects s)), (mkObject oi (Size oi) (repo env, line) []), contents. cbn. split_and!; [|done|done|done|].
        { by rewrite list_lookup_middle. }
        intros j o' Hj Hne. apply Hi. rewrite lookup_app in Hj. destruct (objects s !! j) as [o''|] eqn:Hj'.
        { injection Hj as ->. by apply list_elem_of_lookup_2 in Hj'. }
        apply lookup_ge_None in Hj'. exfalso. apply Hne. apply lookup_lt_Some in Hj. cbn in Hj. lia.
      * apply Hinv.
    + eexists. split; [reflexivity|]. split; [|done]. cbn. split; [done|]. rewrite Hres, Ht. eauto.
  - destruct Hr as (Hw & Hz & Hu' & Hn' & Hnf). split.
    + constructor; cbn [objects batch checker]; [apply Hinv| |apply Hinv]. exists []. rewrite Hu'. split_and!; [|done|done].
      destruct Hn' as [?|[? ?]]; [left; left; done|right; done].
    + eexists. split; [reflexivity|]. split; [by apply objectResult_err|]. intros (H1 & _ & H3 & oid & c & H4).
      by specialize (Hsucc H1 H3 oid c H4).
Qed.

Lemma object_step_ok s k env line :
  LF ∉ line -> inv s ->
  let (r, s') := step (CObject k env line) s in
  inv s' /\ exists x, r = RObject x /\ objectResult s k env line x /\ (mustSucceed s k env line -> x = Ok (length (objects s))).
Proof.
  intros Hl Hinv. destruct (batch_states s Hinv) as [(Hn & Hu & Hi)|[(Hn & Hi & Hu)|(Hn & Hwhy)]].
  - by apply (request_ok s k env line (batch s)).
  - destruct Hu as [Hu|[Hu Hd]].
    + apply (request_ok s k env line (mkBatch 0 (mkProcess [] (alive (process (batch s)))))); try done.
      unfold requestObject. rewrite reader_linefeed, Hu by done. done.
    + cbn [step]. unfold requestObject. rewrite reader_linefeed, Hu by done. cbn. split; [by destruct s|].
      eexists. split; [reflexivity|]. unfold exhausted. rewrite Hd. split; [done|]. intros (H1 & _). congruence.
  - cbn [step]. unfold requestObject. rewrite reader_busy by lia. split; [by destruct s|].
    eexists. split; [reflexivity|]. cbn. split; [done|]. intros (H1 & H2 & _).
    destruct Hwhy as [?|(i & o & Ho & _ & Hlt)]; [congruence|]. specialize (H2 o (list_elem_of_lookup_2 _ _ _ Ho)). lia.
Qed.

(** *** Reads *)

Definition readResult (s : System G) (o : Object G) (r : out BatchError (list ascii)) : Prop :=
  match r with
  | Ok _ => True
  | Err EEOF => left o = 0 \/ alive (process (batch s)) = false
  | Err _ => False
  | Panic => left o = 0 /\ n (batch s) = 0
  end.

Lemma consume_ok z b : 0 <= z < 2 ^ 63 -> 0 <= n b < 2 ^ 63 ->
  consume z b = if decide (n b - z < 1) then (Panic, mkBatch (n b - z) (process b)) else (Ok tt, mkBatch (n b - z) (process b)).
Proof.
  intros Hz Hb. unfold consume, setN, get, mbind, M_bind. cbn. rewrite i64_small by lia. by case_decide.
Qed.

Lemma n_bounds s : inv s -> 0 <= n (batch s) < 2 ^ 63.
Proof.
  intros [Ho (rest & Howed & _ & _) _]. destruct Howed as [[(-> & _ & Hi)|(i & o & contents & Hoi & Hz & _)]|(_ & _ & ? & _)];
    [lia| |lia].
  rewrite Forall_lookup in Ho. destruct (Ho i o Hoi) as [(c & _ & Hs & H0 & _ & Hle) Hlt]. lia.
Qed.

(** The end of an object: the read sees it, unless a later request has made the
    bookkeeping forget the object. *)
Lemma consume_zero b : 0 <= n b < 2 ^ 63 -> consume 0 b = (if decide (n b = 0) then Panic else Ok tt, b).
Proof.
  intros Hb. rewrite consume_ok by lia. rewrite Z.sub_0_r. destruct b as [z p]. cbn in *. repeat case_decide; (done || lia).
Qed.

Lemma take_prefix_app (u l l' : list ascii) k : u `prefix_of` l ++ l' -> (k <= length u)%nat -> (k <= length l)%nat -> take k u = take k l.
Proof.
  intros [z Hu] H1 H2. rewrite <- (take_app_le l l') by done. rewrite Hu. by rewrite take_app_le.
Qed.

(** The object being read loses the bytes that were read, and so does the process. *)
Lemma advance_inv s i o contents got :
  inv s -> objects s !! i = Some o -> contentsOf o contents -> n (batch s) = left o + 1 ->
  unread (process (batch s)) `prefix_of` drop (length (received o)) contents ++ [LF] ->
  (alive (process (batch s)) = true -> unread (process (batch s)) = drop (length (received o)) contents ++ [LF]) ->
  (forall j o', objects s !! j = Some o' -> j ≠ i -> left o' = 0) ->
  (got <= length (unread (process (batch s))))%nat -> Z.of_nat got <= left o ->
  inv (mkSystem (mkBatch (n (batch s) - Z.of_nat got) (mkProcess (drop got (unread (process (batch s)))) (alive (process (batch s)))))
         (checker s)
         (<[i := mkObject (objectInfo o) (left o - Z.of_nat (length (take got (unread (process (batch s)))))) (asked o)
                   (received o ++ take got (unread (process (batch s))))]> (objects s))).
Proof.
  intros Hinv Hoi Hc Hn Hp Hal Hothers Hgot Hle. rewrite length_take, Nat.min_l by done.
  pose proof (inv_objects s Hinv) as Ho. pose proof (proj1 (Forall_lookup _ _) Ho i o Hoi) as [He Hlt].
  destruct (exact_length o contents He Hc) as (Hlen & Htake & Hr).
  rewrite (take_prefix_app _ (drop (length (received o)) contents) [LF]); [|done|done|rewrite length_drop; lia].
  assert (Happ : received o ++ take got (drop (length (received o)) contents) = take (length (received o) + got) contents)
    by (rewrite <- take_take_drop; by rewrite <- Htake).
  rewrite Happ. clear Happ. constructor; cbn [objects batch checker process n unread alive].
  - apply Forall_insert; [done|]. split; [|done]. exists contents. cbn. destruct He as (c' & Hc' & Hs & _).
    unfold contentsOf in *. cbn. rewrite Hc in Hc'. injection Hc' as <-. split_and!; [done|done|lia| |lia]. f_equal. lia.
  - exists (drop got (drop (length (received o)) contents ++ [LF])). split_and!.
    + left. right. eexists i, _, contents. rewrite list_lookup_insert_eq by (by eapply lookup_lt_Some). split_and!; [done|cbn; lia|done| |].
      * cbn. rewrite length_take, Nat.min_l by lia. rewrite drop_app_le by (rewrite length_drop; lia). by rewrite drop_drop.
      * intros j o' Hj Hne. rewrite list_lookup_insert_ne in Hj by done. by eapply Hothers.
    + destruct Hp as [z ->]. rewrite drop_app_le by done. by exists z.
    + intros Ha. by rewrite Hal.
  - apply Hinv.
Qed.

(** Whose turn it is: an object with bytes left is the one the process owes. *)
Lemma current_object s i o : inv s -> objects s !! i = Some o -> 0 < left o ->
  exists contents, contentsOf o contents /\ n (batch s) = left o + 1 /\
    unread (process (batch s)) `prefix_of` drop (length (received o)) contents ++ [LF] /\
    (alive (process (batch s)) = true -> unread (process (batch s)) = drop (length (received o)) contents ++ [LF]) /\
    (forall j o', objects s !! j = Some o' -> j ≠ i -> left o' = 0).
Proof.
  intros [Ho (rest & Howed & Hp & Hal) _] Hoi Hleft.
  assert (Hidle : ~ idle (objects s)) by (intros Hi; specialize (Hi o (list_elem_of_lookup_2 _ _ _ Hoi)); lia).
  destruct Howed as [[(_ & _ & ?)|(j & o' & contents & Hoj & Hz & Hc & -> & Hothers)]|(_ & _ & _ & ?)]; [done| |done].
  destruct (decide (i = j)) as [->|Hne]; [|specialize (Hothers i o Hoi Hne); lia].
  rewrite Hoi in Hoj. injection Hoj as <-. exists contents. split_and!; done.
Qed.

Lemma system_eta s : mkSystem (batch s) (checker s) (objects s) = s.
Proof. by destruct s. Qed.

Lemma object_unchanged s i o :
  objects s !! i = Some o ->
  mkSystem (batch s) (checker s) (<[i := mkObject (objectInfo o) (left o - 0) (asked o) (received o ++ [])]> (objects s)) = s.
Proof.
  intros Hoi. rewrite Z.sub_0_r, app_nil_r, list_insert_id by (rewrite Hoi; by destruct o). apply system_eta.
Qed.

(** A read goes one of three ways: nothing to read, an empty buffer, or some bytes. *)
Lemma Read_end left len count b : 0 <= n b < 2 ^ 63 -> left <= 0 ->
  Read left len count b = (if decide (n b = 0) then Panic else Err EEOF, b).
Proof.
  intros Hb Hleft. unfold Read, get, mbind, M_bind. rewrite decide_True by lia. rewrite consume_zero by done. by case_decide.
Qed.

Lemma Read_more left len count b :
  0 < left -> n b = left + 1 -> n b < 2 ^ 63 ->
  match unread (process b), len with
  | _, O => Read left len count b = (Ok [], b)
  | [], _ => Read left len count b = (Err (exhausted (process b)), b)
  | available, _ => exists got, (0 < got <= length available)%nat /\ Z.of_nat got <= left /\
      Read left len count b = (Ok (take got available), mkBatch (n b - Z.of_nat got) (mkProcess (drop got available) (alive (process b))))
  end.
Proof.
  intros Hleft Hn Hb. destruct len as [|len].
  { destruct (unread (process b)) eqn:Hu; unfold Read, get, mbind, M_bind; rewrite decide_False by lia; rewrite decide_True by done;
      rewrite consume_zero by lia; by rewrite decide_False by lia. }
  destruct (unread (process b)) as [|c u] eqn:Hu.
  { unfold Read, get, mbind, M_bind. rewrite decide_False by lia. rewrite decide_False by lia. rewrite Hu, decide_True by done.
    unfold exhausted. destruct (alive (process b)); [done|]. rewrite consume_zero by lia. by rewrite decide_False by lia. }
  exists (Nat.max 1 (Nat.min count (Nat.min (S len) (Nat.min (Z.to_nat left) (length (c :: u)))))).
  split; [cbn [length]; lia|]. split; [cbn [length]; lia|].
  unfold Read, get, mbind, M_bind. rewrite decide_False by lia. rewrite decide_False by lia. rewrite Hu, decide_False by done.
  cbn [length onProcess]. unfold onProcess. rewrite consume_ok; cbn [n process]; [|lia|lia]. by rewrite decide_False by lia.
Qed.

Lemma read_step_ok s i len count o :
  inv s -> objects s !! i = Some o ->
  let (r, s') := step (CRead i len count) s in
  inv s' /\ exists x, r = RBytes x /\ readResult s o x.
Proof.
  intros Hinv Hoi. cbn [step]. rewrite Hoi. pose proof (n_bounds s Hinv) as Hb.
  pose proof (proj1 (Forall_lookup _ _) (inv_objects s Hinv) i o Hoi) as [(c0 & _ & _ & H0 & _) _].
  destruct (decide (left o = 0)) as [Hl|Hl].
  - rewrite Read_end by lia. case_decide; rewrite system_eta; (split; [done|]); (eexists; split; [reflexivity|]); cbn; auto.
  - destruct (current_object s i o Hinv Hoi ltac:(lia)) as (contents & Hc & Hn & Hp & Hal & Hothers).
    pose proof (Read_more (left o) len count (batch s) ltac:(lia) Hn ltac:(lia)) as Hmore.
    destruct (unread (process (batch s))) as [|c u] eqn:Hu; destruct len as [|len].
    + rewrite Hmore. cbn [length Z.of_nat]. rewrite object_unchanged by done. split; [done|]. eexists. split; [reflexivity|done].
    + rewrite Hmore. unfold exhausted. destruct (alive (process (batch s))) eqn:Ha.
      { specialize (Hal eq_refl). by destruct (drop (length (received o)) contents). }
      rewrite system_eta. split; [done|]. eexists. split; [reflexivity|by right].
    + rewrite Hmore. cbn [length Z.of_nat]. rewrite object_unchanged by done. split; [done|]. eexists. split; [reflexivity|done].
    + destruct Hmore as (got & Hgot & Hgl & ->). rewrite <- Hu in *. split; [|eexists; split; [reflexivity|done]].
      apply (advance_inv s i o contents); (done || lia).
Qed.

(** *** Headers, and the end of the processes *)

Definition infoResult (s : System G) (env : Env G) (line : list ascii) (r : out BatchError ObjectInfo) : Prop :=
  match r with
  | Ok oi => exists contents, resolve (repo env) line = Found (Oid oi) (Type_ oi) contents /\ Size oi = Z.of_nat (length contents)
  | Err NotFoundError => resolve (repo env) line = Missing
  | Err EWaits | Panic => False
  | Err _ => True
  end /\
  (alive (checker s) = true -> ends env = None -> forall oid typ contents, resolve (repo env) line = Found oid typ contents ->
     r = Ok (mkInfo oid typ (Z.of_nat (length contents)))).

Lemma info_step_ok s env line :
  LF ∉ line -> inv s ->
  let (r, s') := step (CInfo env line) s in inv s' /\ exists x, r = RInfo x /\ infoResult s env line x.
Proof.
  intros Hl Hinv. cbn [step]. destruct (answer_reply (repo env) line Hl) as (hdr & tail & Hh & _ & Ha & Hr).
  destruct (ask_spec answerCheck env line hdr [] (checker s) Hl Hh Ha (inv_checker s Hinv)) as (r & p & Hi & Hcases & Halive).
  unfold Info. rewrite Hi. split.
  - constructor; cbn [objects batch checker]; [apply Hinv|apply Hinv|].
    destruct Hcases as [(_ & Hp & _)|(_ & ->)]; [by apply prefix_nil_inv in Hp|done].
  - eexists. split; [reflexivity|]. split.
    + destruct Hcases as [(-> & _ & _)|([->| ->] & _)]; [|done..]. destruct (resolve (repo env) line) as [| |oid typ contents].
      * by destruct Hr as [-> _].
      * destruct Hr as [(e & -> & ? & ? & ?) _]. by destruct e.
      * destruct Hr as (-> & _). eauto.
    + intros H1 H2 oid typ contents Hres. rewrite Hres in Hr. destruct (Halive H1 H2) as [-> _]. apply Hr.
Qed.

Lemma end_step_ok s k k' : inv s -> inv (step (CEnd k k') s).2.
Proof.
  intros [Ho (rest & Howed & Hp & Hal) Hch]. constructor; cbn; [done| |by rewrite Hch, take_nil].
  exists rest. split_and!; [|etrans; [apply prefix_take|done]|done].
  destruct Howed as [?|(_ & ?)]; [by left|by right].
Qed.

Definition callResult (s : System G) (c : Call G) (r : Result) : Prop :=
  match c with
  | CObject k env line => exists x, r = RObject x /\ objectResult s k env line x /\
      (mustSucceed s k env line -> x = Ok (length (objects s)))
  | CRead i _ _ => forall o, objects s !! i = Some o -> exists x, r = RBytes x /\ readResult s o x
  | CInfo env line => exists x, r = RInfo x /\ infoResult s env line x
  | CEnd _ _ => True
  end.

Lemma call_step_ok s c : plainCall c -> inv s -> inv (step c s).2 /\ callResult s c (step c s).1.
Proof.
  intros Hc Hinv. destruct c as [k env line|i len count|env line|k k']; cbn [callResult].
  - pose proof (object_step_ok s k env line Hc Hinv) as H. by destruct (step _ s).
  - destruct (objects s !! i) as [o|] eqn:Hoi.
    + pose proof (read_step_ok s i len count o Hinv Hoi) as H. destruct (step _ s) as [r s']. split; [apply H|].
      intros o' [= <-]. apply H.
    + cbn [step]. rewrite Hoi. done.
  - pose proof (info_step_ok s env line Hc Hinv) as H. by destruct (step _ s).
  - split; [by apply end_step_ok|done].
Qed.

Lemma calls_inv cs : forall s, Forall plainCall cs -> inv s -> inv (runCalls cs s).2.
Proof.
  induction cs as [|c cs IH]; intros s Hcs Hinv; [done|]. apply Forall_cons in Hcs as [Hc Hcs]. cbn [runCalls].
  pose proof (call_step_ok s c Hc Hinv) as [Hs _]. destruct (step c s) as [r s1]. specialize (IH s1 Hcs Hs).
  by destruct (runCalls cs s1).
Qed.

(** C9. However handlers share a batch, as long as their revisions are single
    lines: every object they hold is the one they asked for, and what was read of
    it is the beginning of its contents; a request on a live batch succeeds if no
    object is left unread and the object exists with its type; an object that
    exists with the type is never reported missing; no call waits for a live
    process in vain; a read ends early only if the process ended, and panics only
    at the end of an object that a later request has displaced. *)
Theorem batch_objects_exact (cs : list (Call G)) (c : Call G) :
  Forall plainCall cs -> plainCall c ->
  let s := (runCalls cs newBatch).2 in
  Forall exactObject (objects s) /\ Forall exactObject (objects (step c s).2) /\ callResult s c (step c s).1.
Proof.
  intros Hcs Hc s. pose proof (calls_inv cs newBatch Hcs newBatch_inv : inv s) as Hinv.
  destruct (call_step_ok s c Hc Hinv) as [Hinv' Hr]. split_and!; [| |done];
    (eapply Forall_impl; [by apply inv_objects|]); by intros o [? _].
Qed.

End Exact.

(** ** A repository, and requests that get out of step *)

Module Sample.

Definition oidA : list ascii := replicate 40 "a"%char.
Definition oidB : list ascii := replicate 40 "b"%char.
Definition lineA : list ascii := text "one^{commit}".
Definition lineB : list ascii := text "two^{commit}".

#[global] Instance sampleCatFile : GitCatFile unit := {|
  resolve _ line := if decide (line = lineA) then Found oidA (text "commit") (text "first")
                    else if decide (line = lineB) then Found oidB (text "commit") (text "last") else Missing;
  answerBatch _ line := if decide (line = lineA) then oidA ++ text " commit 5" ++ [LF] ++ text "first" ++ [LF]
                        else if decide (line = lineB) then oidB ++ text " commit 4" ++ [LF] ++ text "last" ++ [LF]
                        else line ++ text " missing" ++ [LF];
  answerCheck _ line := if decide (line = lineA) then oidA ++ text " commit 5" ++ [LF]
                        else if decide (line = lineB) then oidB ++ text " commit 4" ++ [LF]
                        else line ++ text " missing" ++ [LF];
|}.

Lemma sample_found oid typ contents size line :
  ValidateObjectID oid = true -> typ ∈ objectTypes -> Z.of_nat (length contents) < 2 ^ 63 - 1 -> size ≠ [] ->
  Forall (fun c => isDigit c = true) size -> numeral size = Z.of_nat (length contents) ->
  answerCheck tt line = oid ++ [SP] ++ typ ++ [SP] ++ size ++ [LF] ->
  answerBatch tt line = oid ++ [SP] ++ typ ++ [SP] ++ size ++ [LF] ++ contents ++ [LF] ->
  ValidateObjectID oid = true /\ typ ∈ objectTypes /\ Z.of_nat (length contents) < 2 ^ 63 - 1 /\
  exists size, size ≠ [] /\ Forall (fun c => isDigit c = true) size /\ numeral size = Z.of_nat (length contents) /\
    answerCheck tt line = oid ++ [SP] ++ typ ++ [SP] ++ size ++ [LF] /\
    answerBatch tt line = oid ++ [SP] ++ typ ++ [SP] ++ size ++ [LF] ++ contents ++ [LF].
Proof. intros. split_and!; [done..|]. exists size. split_and!; done. Qed.

#[global] Instance sampleLaws : GitCatFileLaws unit.
Proof.
  split.
  - intros g line _. cbn. by repeat case_decide.
  - intros g line _. cbn. by repeat case_decide.
  - intros [] line oid typ contents _ Hr. cbn [resolve sampleCatFile] in Hr.
    case_decide as H1; [|case_decide as H2; [|done]]; simplify_eq.
    + by apply (sample_found _ _ _ (text "5")); try (by vm_compute); apply (bool_decide_unpack _); vm_compute.
    + by apply (sample_found _ _ _ (text "4")); try (by vm_compute); apply (bool_decide_unpack _); vm_compute.
Qed.

Definition here : Env unit := mkEnv tt None false.

(** The name of a commit with a line feed in it. *)
Definition twoLines : list ascii := text "none" ++ [LF] ++ lineA.

(** Such a revision passes the validation of requests; it makes git answer twice, of
    which one answer is read. The batch looks clean and may be used again: the next
    request gets the answer that was left, and so does every request after it. *)
Lemma newline_out_of_step :
  let s := (runCalls [CObject KCommit here twoLines] newBatch).2 in
  ValidateRevision (text "none" ++ [LF] ++ text "one") = None /\ hasUnreadData (batch s) = false /\
  exists o, (objects (step (CObject KCommit here lineB) s).2) !! 0%nat = Some o /\ asked o = (tt, lineB) /\
    Oid (objectInfo o) = oidA /\ resolve tt lineB = Found oidB (text "commit") (text "last").
Proof. vm_compute. split_and!; [done|done|]. eexists. split_and!; done. Qed.

(** A handler that has read an object and asks for more after somebody else asked for
    an object that does not exist panics. *)
Lemma displaced_read_panics :
  let s := (runCalls [CObject KCommit here lineA; CRead 0 10 10; CObject KCommit here (text "none")] newBatch).2 in
  (step (CRead 0 10 10) s).1 = RBytes Panic.
Proof. vm_compute. done. Qed.

End Sample.

Lemma batch_objects_exact_witness :
  let s := (runCalls [CObject KCommit Sample.here Sample.lineA; CRead 0 3 3] newBatch).2 in
  Forall exactObject (objects s) /\ exists o, objects s !! 0%nat = Some o /\ received o = text "fir" /\ left o = 2.
Proof.
  intros s. pose proof (batch_objects_exact [CObject KCommit Sample.here Sample.lineA; CRead 0 3 3] (CRead 0 3 3)) as H.
  destruct H as (H & _); [constructor; [by apply (bool_decide_unpack (LF ∉ Sample.lineA))|by constructor]|done|].
  split; [exact H|]. eexists. split_and!; vm_compute; done.
Defined.
