(* ===== verification/CatfileCache.v ===== *)
(** The cache of git-cat-file processes: src/internal/git/catfile/batch_cache.go and
    the spawning and closing of batches in batch.go.

    The state is the list of entries, every batch that was ever spawned, and the
    uses: the calls of [BatchProcess] whose request is not done yet, after which the
    goroutine of [returnWhenDone] runs. What a handler does to its batch is any
    change of its unread data; one whose request was cancelled may still do so after
    its batch was returned. Each operation runs under the lock of the entries. *)

From Stdlib Require Import Strings.Ascii.
From stdpp Require Import sorting.
From S2P Require Import Prelude GoStrings.

(** ** Keys and entries *)

Record GitRepo : Type := mkRepo {
  GetStorageName : list ascii;
  GetRelativePath : list ascii;
  GetGitObjectDirectory : list ascii;
  GetGitAlternateObjectDirectories : list (list ascii);
}.

Record key : Type := mkKey {
  sessionID : list ascii;
  repoStorage : list ascii;
  repoRelPath : list ascii;
  repoObjDir : list ascii;
  repoAltDir : list ascii;
}.

#[export] Instance key_eq_dec : EqDecision key.
Proof. solve_decision. Defined.

Definition comma : ascii := ","%char.

Definition newCacheKey (session : list ascii) (repo : GitRepo) : key :=
  mkKey session (GetStorageName repo) (GetRelativePath repo) (GetGitObjectDirectory repo)
    (Join comma (GetGitAlternateObjectDirectories repo)).

(** [value] points to a batch. *)
Record entry : Type := mkEntry { ekey : key; value : nat; expiry : Z }.

(** A batch: whether it was closed, whether its context is not cancelled yet, whether
    an object has been left unread ([n > 1]), and the key it was spawned for, if it
    may be cached. *)
Record Batch : Type := mkBatch { closed : bool; running : bool; unreadData : bool; spawnedFor : option key }.

Record Use : Type := mkUse { useKey : option key; useBatch : nat }.

(** [handles] says which batch a call has returned, also after its request is done.
    For what the theorems say, [late] keeps the batches that handlers have used after
    that. *)
Record World : Type := mkWorld {
  maxLen : Z;
  ttl : Z;
  entries : list entry;
  batches : list Batch;
  uses : gmap nat Use;
  handles : gmap nat nat;
  late : list nat;
  clock : Z;
  stopped : bool;
}.

Definition setEntries (es : list entry) (w : World) : World :=
  mkWorld (maxLen w) (ttl w) es (batches w) (uses w) (handles w) (late w) (clock w) (stopped w).
Definition setBatches (bs : list Batch) (w : World) : World :=
  mkWorld (maxLen w) (ttl w) (entries w) bs (uses w) (handles w) (late w) (clock w) (stopped w).
Definition setUses (us : gmap nat Use) (w : World) : World :=
  mkWorld (maxLen w) (ttl w) (entries w) (batches w) us (handles w) (late w) (clock w) (stopped w).
Definition setClock (t : Z) (w : World) : World :=
  mkWorld (maxLen w) (ttl w) (entries w) (batches w) (uses w) (handles w) (late w) t (stopped w).

(** The use [u] starts with the batch. *)
Definition startUse (u : nat) (use : Use) (w : World) : World :=
  mkWorld (maxLen w) (ttl w) (entries w) (batches w) (<[u := use]> (uses w)) (<[u := useBatch use]> (handles w)) (late w) (clock w) (stopped w).

Inductive CacheError : Type := ESpawn | EFuel.
Abbreviation CM := (M World CacheError).

Definition defaultBatchfileTTL : Z := 10 * 10 ^ 9.
Definition defaultMaxLen : Z := 100.

Definition newCache (life len : Z) : World :=
  mkWorld (if decide (len <= 0) then defaultMaxLen else len) life [] [] ∅ ∅ [] 0 false.

(** [NewCache], with the size from the configuration. *)
Definition NewCache (catfileCacheSize : Z) : World := newCache defaultBatchfileTTL catfileCacheSize.

(** ** Batches *)

(** [batch.Close]: the context of a cached batch is cancelled. *)
Definition closeBatch (b : Batch) : Batch :=
  if closed b then b else mkBatch true false (unreadData b) (spawnedFor b).

Definition Close (i : nat) : CM unit := modify (fun w => setBatches (alter closeBatch i (batches w)) w).

Inductive Spawn : Type := Spawned | FirstFails | SecondFails.

(** [newBatch]: the two processes; the deferred call cancels their context if one of
    them could not be started. *)
Definition newBatch (spawn : Spawn) (k : option key) : CM nat := fun w =>
  match spawn with
  | Spawned => (Ok (length (batches w)), setBatches (batches w ++ [mkBatch false true false k]) w)
  | FirstFails => (Err ESpawn, w)
  | SecondFails => (Err ESpawn, setBatches (batches w ++ [mkBatch false false false k]) w)
  end.

(** ** The list of entries *)

Fixpoint lookupKey (k : key) (es : list entry) : option nat :=
  match es with
  | [] => None
  | ent :: es => if decide (ekey ent = k) then Some 0%nat else S <$> lookupKey k es
  end.

Definition deleteEntry (i : nat) (wantClose : bool) : CM unit :=
  w ← get;
  match entries w !! i with
  | None => panic
  | Some ent =>
    _ ← (if wantClose then Close (value ent) else mret tt);
    modify (fun w => setEntries (take i (entries w) ++ drop (S i) (entries w)) w)
  end.

Definition evictHead : CM unit := deleteEntry 0 true.

(** The loops that evict the first entry as long as a condition holds. *)
Fixpoint evictWhile (fuel : nat) (cond : World -> bool) : CM unit :=
  match fuel with
  | O => fail EFuel
  | S fuel => w ← get; if cond w then _ ← evictHead; evictWhile fuel cond else mret tt
  end.

Definition evictLoop (cond : World -> bool) : CM unit := w ← get; evictWhile (S (length (entries w))) cond.

Definition add (k : key) (b : nat) : CM unit :=
  w ← get;
  _ ← match lookupKey k (entries w) with Some i => deleteEntry i true | None => mret tt end;
  _ ← modify (fun w => setEntries (entries w ++ [mkEntry k b (clock w + ttl w)]) w);
  evictLoop (fun w => maxLen w <? Z.of_nat (length (entries w))).

Definition checkout (k : key) : CM (option nat) :=
  w ← get;
  match lookupKey k (entries w) with
  | None => mret None
  | Some i =>
    match entries w !! i with
    | None => panic
    | Some ent => _ ← deleteEntry i false; mret (Some (value ent))
    end
  end.

Definition enforceTTL (now : Z) : CM unit :=
  evictLoop (fun w => match entries w with ent :: _ => expiry ent <? now | [] => false end).

Definition Evict : CM unit := evictLoop (fun w => match entries w with _ :: _ => true | [] => false end).

(** [Stop] hands the monitor a value and waits for it to close the channel; a second
    call sends on the closed channel. *)
Definition Stop : CM unit :=
  w ← get;
  if stopped w then panic else
  _ ← modify (fun w => mkWorld (maxLen w) (ttl w) (entries w) (batches w) (uses w) (handles w) (late w) (clock w) true);
  Evict.

(** ** Requests *)

Definition returnWhenDone (k : key) (b : nat) : CM unit :=
  w ← get;
  match batches w !! b with
  | None => mret tt
  | Some c =>
    if closed c then mret tt
    else if unreadData c then Close b
    else add k b
  end.

(** [BatchProcess], whose caller is the use [u] from now on. *)
Definition BatchProcess (u : nat) (session : list ascii) (repo : GitRepo) (spawn : Spawn) : CM nat :=
  if decide (session = []) then
    b ← newBatch spawn None;
    _ ← modify (startUse u (mkUse None b));
    mret b
  else
    let cacheKey := newCacheKey session repo in
    cached ← checkout cacheKey;
    b ← match cached with Some b => mret b | None => newBatch spawn (Some cacheKey) end;
    _ ← modify (startUse u (mkUse (Some cacheKey) b));
    mret b.

(** The context of a request is done: a batch that is not cached ends with it, the
    others are returned. *)
Definition requestDone (u : nat) : CM unit :=
  w ← get;
  match uses w !! u with
  | None => mret tt
  | Some use =>
    _ ← modify (fun w => setUses (delete u (uses w)) w);
    match useKey use with
    | None => modify (fun w => setBatches (alter (fun c => mkBatch (closed c) false (unreadData c) (spawnedFor c)) (useBatch use) (batches w)) w)
    | Some k => returnWhenDone k (useBatch use)
    end
  end.

(** A tick in the loop of [monitor]. *)
Definition monitorTick : CM unit := w ← get; if stopped w then mret tt else enforceTTL (clock w).

(** ** Steps *)

(** A handler asks its batch for objects or reads them. *)
Definition useBatchOf (u : nat) (unread : bool) (w : World) : World :=
  match handles w !! u with
  | None => w
  | Some b =>
    mkWorld (maxLen w) (ttl w) (entries w) (alter (fun c => mkBatch (closed c) (running c) unread (spawnedFor c)) b (batches w)) (uses w)
      (handles w) (match uses w !! u with Some _ => late w | None => b :: late w end) (clock w) (stopped w)
  end.

Inductive Event : Type :=
| EvRequest (u : nat) (session : list ascii) (repo : GitRepo) (spawn : Spawn)
| EvRead (u : nat) (unread : bool)
| EvDone (u : nat)
| EvClock (dt : Z)
| EvTick                            (* of the monitor *)
| EvEvict
| EvStop.

Definition step (e : Event) : CM unit :=
  match e with
  | EvRequest u session repo spawn =>
    w ← get;
    match handles w !! u with Some _ => mret tt | None => _ ← BatchProcess u session repo spawn; mret tt end
  | EvRead u unread => modify (useBatchOf u unread)
  | EvDone u => requestDone u
  | EvClock dt => modify (fun w => setClock (clock w + Z.abs dt) w)
  | EvTick => monitorTick
  | EvEvict => Evict
  | EvStop => w ← get; if stopped w then mret tt else Stop  (* called once *)
  end.

Fixpoint run (es : list Event) (w : World) : World :=
  match es with [] => w | e :: es => run es (step e w).2 end.

(** ** The invariant

    [free] is a batch that is in nobody's hands between two steps of an operation. *)

Record kept (free : option nat) (w : World) : Prop := {
  kept_max : 1 <= maxLen w;
  kept_keys : NoDup (ekey <$> entries w);
  kept_entry : forall ent, ent ∈ entries w ->
    exists d, batches w !! value ent = Some (mkBatch false true d (Some (ekey ent))) /\ (d = true -> value ent ∈ late w);
  kept_use : forall u use, uses w !! u = Some use -> exists d, batches w !! useBatch use = Some (mkBatch false true d (useKey use));
  kept_inj : forall u u' use use', uses w !! u = Some use -> uses w !! u' = Some use' -> useBatch use = useBatch use' -> u = u';
  kept_apart : forall u use ent, uses w !! u = Some use -> ent ∈ entries w -> useBatch use ≠ value ent;
  kept_owned : forall b c, batches w !! b = Some c -> running c = true -> free ≠ Some b ->
    (exists ent, ent ∈ entries w /\ value ent = b) \/ (exists u use, uses w !! u = Some use /\ useBatch use = b);
  kept_free : forall b, free = Some b ->
    (forall ent, ent ∈ entries w -> value ent ≠ b) /\ (forall u use, uses w !! u = Some use -> useBatch use ≠ b);
  kept_sorted : StronglySorted Z.le (expiry <$> entries w);
  kept_expiry : forall ent, ent ∈ entries w -> expiry ent <= clock w + ttl w;
  kept_handle : forall u use, uses w !! u = Some use -> handles w !! u = Some (useBatch use);
}.

(** What the operations on the list of entries leave alone. *)
Definition sameBut (w w' : World) : Prop :=
  maxLen w' = maxLen w /\ ttl w' = ttl w /\ uses w' = uses w /\ clock w' = clock w.

Lemma same_entry free w ent ent' :
  kept free w -> ent ∈ entries w -> ent' ∈ entries w -> value ent = value ent' -> ent = ent'.
Proof.
  intros Hk H1 H2 Hv. destruct (kept_entry _ _ Hk _ H1) as (d1 & Hb1 & _), (kept_entry _ _ Hk _ H2) as (d2 & Hb2 & _).
  rewrite Hv in Hb1. rewrite Hb1 in Hb2. injection Hb2 as _ Heq.
  apply list_elem_of_lookup in H1 as [i Hi]. apply list_elem_of_lookup in H2 as [j Hj].
  assert (i = j) as ->; [|congruence]. apply (NoDup_lookup _ i j (ekey ent) (kept_keys _ _ Hk)).
  - by rewrite list_lookup_fmap, Hi.
  - rewrite list_lookup_fmap, Hj. cbn. by rewrite Heq.
Qed.

(** The list without the entry at [i]. *)
Lemma removed_spec {A} (l : list A) i x : l !! i = Some x -> NoDup l ->
  forall y, y ∈ take i l ++ drop (S i) l <-> y ∈ l /\ y ≠ x.
Proof.
  intros Hi Hnd y. rewrite <- (take_drop_middle l i x Hi) in Hnd at 1. rewrite <- (take_drop_middle l i x Hi) at 3.
  apply NoDup_app in Hnd as (_ & H1 & [H2 _]%NoDup_cons). rewrite !elem_of_app, elem_of_cons. split.
  - intros [Hy|Hy]; (split; [by auto|]); intros ->; [by eapply H1, list_elem_of_here|done].
  - intros [[Hy|[->|Hy]] Hne]; [by left|done|by right].
Qed.

Lemma removed_sublist {A} (l : list A) i : take i l ++ drop (S i) l `sublist_of` l.
Proof.
  rewrite <- (take_drop i l) at 3. apply sublist_app; [done|]. rewrite <- Nat.add_1_r, <- drop_drop.
  apply sublist_drop.
Qed.

Lemma sorted_sublist (l l' : list Z) : l `sublist_of` l' -> StronglySorted Z.le l' -> StronglySorted Z.le l.
Proof.
  induction 1 as [|x l l' Hs IH|x l l' Hs IH]; intros H; [done| |]; apply StronglySorted_inv in H as [H1 H2]; [|auto].
  constructor; [auto|]. rewrite Forall_forall in *. intros y Hy. apply H2. by eapply elem_of_sublist.
Qed.

Lemma entries_nodup free w : kept free w -> NoDup (entries w).
Proof. intros Hk. eapply NoDup_fmap_1. apply (kept_keys _ _ Hk). Qed.

Lemma closeBatch_open c : closed c = false -> closeBatch c = mkBatch true false (unreadData c) (spawnedFor c).
Proof. intros Hc. unfold closeBatch. by rewrite Hc. Qed.

(** *** Removing entries *)

Definition without (i : nat) (w : World) : World := setEntries (take i (entries w) ++ drop (S i) (entries w)) w.
Definition closing (b : nat) (w : World) : World := setBatches (alter closeBatch b (batches w)) w.

Lemma deleteEntry_eq i wantClose w ent : entries w !! i = Some ent ->
  deleteEntry i wantClose w = (Ok tt, without i (if wantClose then closing (value ent) w else w)).
Proof. intros Hi. unfold deleteEntry, get, mbind, M_bind. rewrite Hi. by destruct wantClose. Qed.

(** An entry leaves the list; its batch is in nobody's hands. *)
Lemma without_kept w i ent : kept None w -> entries w !! i = Some ent -> kept (Some (value ent)) (without i w).
Proof.
  intros Hk Hi. pose proof (removed_spec _ i ent Hi (entries_nodup _ _ Hk)) as Hin.
  assert (Hent : ent ∈ entries w) by (by eapply list_elem_of_lookup_2). pose proof (removed_sublist (entries w) i) as Hsub.
  constructor; unfold without; cbn [entries maxLen ttl batches uses handles late clock setEntries].
  - apply Hk.
  - eapply sublist_NoDup; [apply Hk|by apply fmap_sublist].
  - intros x [Hx _]%Hin. by apply Hk.
  - apply Hk.
  - apply Hk.
  - intros u use x Hu [Hx _]%Hin. by eapply Hk.
  - intros b c Hb Hr Hf. destruct (kept_owned _ _ Hk b c Hb Hr ltac:(done)) as [(x & Hx & Hv)|?]; [|by right].
    left. exists x. split; [|done]. apply Hin. split; [done|]. intros ->. congruence.
  - intros b [= <-]. split.
    + intros x [Hx Hne]%Hin Hv. apply Hne. by eapply same_entry.
    + intros u use Hu. by eapply Hk.
  - eapply sorted_sublist; [by apply fmap_sublist|apply Hk].
  - intros x [Hx _]%Hin. by apply Hk.
  - apply Hk.
Qed.

(** A free batch is closed, or ends with its request. *)
Lemma ended_kept w b f : kept (Some b) w -> (forall c, batches w !! b = Some c -> running (f c) = false) ->
  kept None (setBatches (alter f b (batches w)) w).
Proof.
  intros Hk Hf. destruct (kept_free _ _ Hk b eq_refl) as [Hfe Hfu].
  assert (Hother : forall b', b' ≠ b -> alter f b (batches w) !! b' = batches w !! b') by (intros; by apply list_lookup_alter_ne).
  constructor; cbn [entries maxLen ttl batches uses handles late clock setBatches].
  - apply Hk.
  - apply Hk.
  - intros ent Hent. rewrite Hother by (by apply Hfe). by apply Hk.
  - intros u use Hu. rewrite Hother by (by eapply Hfu). by eapply Hk.
  - apply Hk.
  - apply Hk.
  - intros b' c Hb Hr _. destruct (decide (b' = b)) as [->|Hne].
    + rewrite list_lookup_alter_eq in Hb. destruct (batches w !! b) as [c'|] eqn:Hc; [|done]. injection Hb as <-.
      by rewrite (Hf c' eq_refl) in Hr.
    + rewrite Hother in Hb by done. apply (kept_owned _ _ Hk b' c); congruence.
  - done.
  - apply Hk.
  - apply Hk.
  - apply Hk.
Qed.

Lemma closed_kept w b : kept (Some b) w -> (forall c, batches w !! b = Some c -> closed c = false) -> kept None (closing b w).
Proof. intros Hk Hc. apply ended_kept; [done|]. intros c Hb. by rewrite closeBatch_open by (by apply Hc). Qed.

(** An entry is evicted, whatever batch is free. *)
Lemma evict_kept free w i ent : kept free w -> entries w !! i = Some ent -> kept free (without i (closing (value ent) w)).
Proof.
  intros Hk Hi. pose proof (removed_spec _ i ent Hi (entries_nodup _ _ Hk)) as Hin.
  assert (Hent : ent ∈ entries w) by (by eapply list_elem_of_lookup_2). pose proof (removed_sublist (entries w) i) as Hsub.
  assert (Hother : forall b', b' ≠ value ent -> alter closeBatch (value ent) (batches w) !! b' = batches w !! b')
    by (intros; by apply list_lookup_alter_ne).
  constructor; unfold without, closing; cbn [entries maxLen ttl batches uses handles late clock setEntries setBatches].
  - apply Hk.
  - eapply sublist_NoDup; [apply Hk|by apply fmap_sublist].
  - intros x [Hx Hne]%Hin. rewrite Hother by (intros Hv; apply Hne; by eapply same_entry). by apply Hk.
  - intros u use Hu. rewrite Hother by (by eapply Hk). by eapply Hk.
  - apply Hk.
  - intros u use x Hu [Hx _]%Hin. by eapply Hk.
  - intros b c Hb Hr Hf. destruct (decide (b = value ent)) as [->|Hne].
    + destruct (kept_entry _ _ Hk ent Hent) as (d & Hd & _). rewrite list_lookup_alter_eq, Hd in Hb. by injection Hb as <-.
    + rewrite Hother in Hb by done. destruct (kept_owned _ _ Hk b c Hb Hr Hf) as [(x & Hx & Hv)|?]; [|by right].
      left. exists x. split; [|done]. apply Hin. split; [done|]. intros ->. done.
  - intros b Hf. destruct (kept_free _ _ Hk b Hf) as [H1 H2]. split; [|done]. by intros x [Hx _]%Hin; apply H1.
  - eapply sorted_sublist; [by apply fmap_sublist|apply Hk].
  - intros x [Hx _]%Hin. by apply Hk.
  - apply Hk.
Qed.

(** *** The loops *)

Lemma evictHead_ok free w ent es : kept free w -> entries w = ent :: es ->
  exists w', evictHead w = (Ok tt, w') /\ kept free w' /\ sameBut w w' /\ entries w' = es.
Proof.
  intros Hk He. unfold evictHead. assert (Hi : entries w !! 0%nat = Some ent) by (by rewrite He).
  rewrite (deleteEntry_eq _ _ _ _ Hi). eexists. split; [reflexivity|]. split; [by apply evict_kept|]. split; [done|].
  unfold without, closing. cbn. by rewrite He.
Qed.

(** The loop evicts entries from the front as long as its condition holds. *)
Definition evicts (cond : World -> bool) (w : World) (j : nat) (w' : World) : Prop :=
  sameBut w w' /\ entries w' = drop j (entries w) /\ cond w' = false /\ (j <= length (entries w))%nat /\
  forall i, (i < j)%nat -> exists w1, sameBut w w1 /\ entries w1 = drop i (entries w) /\ cond w1 = true.

Lemma sameBut_trans w1 w2 w3 : sameBut w1 w2 -> sameBut w2 w3 -> sameBut w1 w3.
Proof. unfold sameBut. intros (? & ? & ? & ?) (? & ? & ? & ?). repeat split; congruence. Qed.

Lemma evictWhile_ok free cond : (forall w, kept free w -> cond w = true -> entries w ≠ []) ->
  forall fuel w, kept free w -> (length (entries w) < fuel)%nat ->
  exists w' j, evictWhile fuel cond w = (Ok tt, w') /\ kept free w' /\ evicts cond w j w'.
Proof.
  intros Hcond. induction fuel as [|fuel IH]; intros w Hk Hlen; [lia|]. cbn [evictWhile]. unfold mbind at 1, M_bind, get.
  destruct (cond w) eqn:Hc; [|exists w, 0%nat; unfold evicts; split_and!; (done || lia)].
  destruct (entries w) as [|ent es] eqn:He; [by apply (Hcond w Hk) in Hc|].
  destruct (evictHead_ok free w ent es Hk He) as (w1 & Heq & Hk1 & Hsame & He1).
  unfold mbind, M_bind. rewrite Heq.
  destruct (IH w1 Hk1) as (w2 & j & Hw2 & Hk2 & Hsame2 & He2 & Hc2 & Hj & Hall); [rewrite He1; cbn in Hlen; lia|].
  exists w2, (S j). rewrite Hw2. split; [done|]. split; [done|]. rewrite He1 in *. unfold evicts. rewrite He.
  split_and!; [by eapply sameBut_trans|done|done|cbn; lia|]. intros [|i] Hi; [by exists w|].
  destruct (Hall i ltac:(lia)) as (w3 & Hsame3 & He3 & Hc3). exists w3. split_and!; [by eapply sameBut_trans|done|done].
Qed.

Lemma evictLoop_ok free cond w : (forall w, kept free w -> cond w = true -> entries w ≠ []) -> kept free w ->
  exists w' j, evictLoop cond w = (Ok tt, w') /\ kept free w' /\ evicts cond w j w'.
Proof. intros Hcond Hk. unfold evictLoop, mbind, M_bind, get. apply evictWhile_ok; [done|done|lia]. Qed.

(** *** Batches change hands *)

Lemma taken_kept w u b k d : kept (Some b) w -> batches w !! b = Some (mkBatch false true d k) -> uses w !! u = None ->
  kept None (startUse u (mkUse k b) w).
Proof.
  intros Hk Hb Hu. destruct (kept_free _ _ Hk b eq_refl) as [Hfe Hfu].
  constructor; cbn [entries maxLen ttl batches uses handles late clock startUse].
  - apply Hk.
  - apply Hk.
  - apply Hk.
  - intros u' use [[<- <-]|[? ?]]%lookup_insert_Some; [eauto|by eapply Hk].
  - intros u1 u2 use1 use2 [[<- <-]|[? H1]]%lookup_insert_Some [[<- <-]|[? H2]]%lookup_insert_Some Heq; cbn in *.
    + done.
    + by destruct (Hfu _ _ H2).
    + by destruct (Hfu _ _ H1).
    + by eapply Hk.
  - intros u' use ent [[<- <-]|[? ?]]%lookup_insert_Some Hent; [|by eapply Hk]. intros Heq. by apply (Hfe ent).
  - intros b' c Hb' Hr _. destruct (decide (b' = b)) as [->|Hne].
    + right. exists u, (mkUse k b). split; [apply lookup_insert_eq|done].
    + destruct (kept_owned _ _ Hk b' c Hb' Hr ltac:(congruence)) as [?|(u' & use & Hu' & ?)]; [by left|].
      right. exists u', use. split; [|done]. rewrite lookup_insert_ne; [done|congruence].
  - done.
  - apply Hk.
  - apply Hk.
  - intros u' use [[<- <-]|[? ?]]%lookup_insert_Some; [apply lookup_insert_eq|]. rewrite lookup_insert_ne by done. by apply Hk.
Qed.

Lemma released_kept w u use : kept None w -> uses w !! u = Some use -> kept (Some (useBatch use)) (setUses (delete u (uses w)) w).
Proof.
  intros Hk Hu. constructor; cbn [entries maxLen ttl batches uses handles late clock setUses].
  - apply Hk.
  - apply Hk.
  - apply Hk.
  - intros u' use' [_ ?]%lookup_delete_Some. by eapply Hk.
  - intros u1 u2 use1 use2 [_ ?]%lookup_delete_Some [_ ?]%lookup_delete_Some. by eapply Hk.
  - intros u' use' ent [_ ?]%lookup_delete_Some. by eapply Hk.
  - intros b c Hb Hr Hne. destruct (kept_owned _ _ Hk b c Hb Hr ltac:(done)) as [?|(u' & use' & Hu' & Hv)]; [by left|].
    right. exists u', use'. split; [|done]. apply lookup_delete_Some. split; [|done]. intros <-. congruence.
  - intros b [= <-]. split.
    + intros ent Hent Hv. by eapply (kept_apart _ _ Hk).
    + intros u' use' [Hne Hu']%lookup_delete_Some Hv. apply Hne. by eapply (kept_inj _ _ Hk).
  - apply Hk.
  - apply Hk.
  - intros u' use' [_ ?]%lookup_delete_Some. by apply Hk.
Qed.

Lemma appended_kept w b k : kept (Some b) w -> batches w !! b = Some (mkBatch false true false (Some k)) -> k ∉ ekey <$> entries w ->
  kept None (setEntries (entries w ++ [mkEntry k b (clock w + ttl w)]) w).
Proof.
  intros Hk Hb Hkey. destruct (kept_free _ _ Hk b eq_refl) as [Hfe Hfu].
  assert (Hin : forall x, x ∈ entries w ++ [mkEntry k b (clock w + ttl w)] <-> x ∈ entries w \/ x = mkEntry k b (clock w + ttl w))
    by (intros x; rewrite elem_of_app, list_elem_of_singleton; done).
  constructor; cbn [entries maxLen ttl batches uses handles late clock setEntries].
  - apply Hk.
  - rewrite fmap_app. apply NoDup_app. split_and!; [apply Hk| |apply NoDup_singleton]. intros x Hx Hs.
    cbn in Hs. apply list_elem_of_singleton in Hs as ->. done.
  - intros x [Hx| ->]%Hin; [by apply Hk|]. by exists false.
  - apply Hk.
  - apply Hk.
  - intros u use x Hu [Hx| ->]%Hin; [by eapply Hk|]. by eapply Hfu.
  - intros b' c Hb' Hr _. destruct (decide (b' = b)) as [->|Hne].
    + left. eexists. split; [apply Hin; by right|done].
    + destruct (kept_owned _ _ Hk b' c Hb' Hr ltac:(congruence)) as [(x & Hx & ?)|?]; [|by right].
      left. exists x. split; [apply Hin; by left|done].
  - done.
  - rewrite fmap_app. assert (Hle : Forall (fun z => z <= clock w + ttl w) (expiry <$> entries w)).
    { apply Forall_forall. intros z Hz. apply list_elem_of_fmap in Hz as (x & -> & Hx). by apply Hk. }
    pose proof (kept_sorted _ _ Hk) as Hs. revert Hs Hle. generalize (expiry <$> entries w). intros l. induction l as [|z l IH].
    + intros. by repeat constructor.
    + intros [Hs Hz]%StronglySorted_inv [Hle Hl]%Forall_cons. cbn. constructor; [by apply IH|].
      apply Forall_app. split; [done|]. by apply Forall_singleton.
  - intros x [Hx| ->]%Hin; [by apply Hk|done].
  - apply Hk.
Qed.

Lemma spawned_kept w k c : kept None w -> (running c = true -> c = mkBatch false true false k) ->
  kept (if running c then Some (length (batches w)) else None) (setBatches (batches w ++ [c]) w).
Proof.
  intros Hk Hc. constructor; cbn [entries maxLen ttl batches uses handles late clock setBatches].
  - apply Hk.
  - apply Hk.
  - intros x Hx. destruct (kept_entry _ _ Hk x Hx) as (d & Hd & Hl). exists d. split; [by apply lookup_app_l_Some|done].
  - intros u use Hu. destruct (kept_use _ _ Hk u use Hu) as [d Hd]. exists d. by apply lookup_app_l_Some.
  - apply Hk.
  - apply Hk.
  - intros b c' Hb Hr Hne. rewrite lookup_app in Hb. destruct (batches w !! b) as [c''|] eqn:Hb'.
    + injection Hb as ->. by eapply (kept_owned _ _ Hk).
    + apply lookup_ge_None in Hb'. pose proof (lookup_lt_Some _ _ _ Hb) as Hlt. cbn in Hlt.
      assert (b = length (batches w)) as -> by lia. rewrite Nat.sub_diag in Hb. injection Hb as ->. by rewrite Hr in Hne.
  - intros b Hb. destruct (running c); [|done]. injection Hb as <-. split.
    + intros x Hx Hv. destruct (kept_entry _ _ Hk x Hx) as (d & Hl & _). rewrite Hv in Hl. apply lookup_lt_Some in Hl. lia.
    + intros u use Hu Hv. destruct (kept_use _ _ Hk u use Hu) as [d Hl]. rewrite Hv in Hl. apply lookup_lt_Some in Hl. lia.
  - apply Hk.
  - apply Hk.
  - apply Hk.
Qed.

(** *** Operations *)

Definition bounded (w : World) : Prop := Z.of_nat (length (entries w)) <= maxLen w.

Lemma lookupKey_spec k es :
  match lookupKey k es with
  | Some i => exists ent, es !! i = Some ent /\ ekey ent = k
  | None => k ∉ ekey <$> es
  end.
Proof.
  induction es as [|ent es IH]; cbn [lookupKey]; [apply not_elem_of_nil|]. case_decide as Hk; [by exists ent|].
  destruct (lookupKey k es) as [i|]; cbn.
  - destruct IH as (x & Hx & Hkx). by exists x.
  - rewrite elem_of_cons. intros [->|?]; done.
Qed.

Lemma keys_without free w i ent : kept free w -> entries w !! i = Some ent -> ekey ent ∉ ekey <$> entries (without i w).
Proof.
  intros Hk Hi Hin. apply list_elem_of_fmap in Hin as (x & Hx & Hin). unfold without in Hin. cbn in Hin.
  apply (removed_spec _ i ent Hi (entries_nodup _ _ Hk)) in Hin as [Hin Hne]. apply Hne.
  apply list_elem_of_lookup in Hin as [j Hj]. assert (j = i) as ->; [|congruence].
  apply (NoDup_lookup _ j i (ekey ent) (kept_keys _ _ Hk)); rewrite list_lookup_fmap; [by rewrite Hj, Hx|by rewrite Hi].
Qed.

Lemma length_without i w ent : entries w !! i = Some ent -> length (entries (without i w)) = (length (entries w) - 1)%nat.
Proof.
  intros Hi. apply lookup_lt_Some in Hi. unfold without. cbn. rewrite length_app, length_take, length_drop. lia.
Qed.

Lemma trim_ok w b k : kept None w -> 
  Z.of_nat (length (entries w)) <= maxLen w + 1 -> last (entries w) = Some (mkEntry k b (clock w + ttl w)) ->
  exists w', evictLoop (fun w => maxLen w <? Z.of_nat (length (entries w))) w = (Ok tt, w') /\ kept None w' /\ bounded w' /\ sameBut w w' /\
    last (entries w') = Some (mkEntry k b (clock w + ttl w)).
Proof.
  intros Hk Hlen Hlast. pose proof (kept_max _ _ Hk) as Hmax.
  destruct (evictLoop_ok None (fun w => maxLen w <? Z.of_nat (length (entries w))) w) as (w' & j & -> & Hk' & Hsame & He & Hc & Hj & Hall);
    [intros w0 Hk0 Hw0 He0; cbn beta in Hw0; rewrite He0 in Hw0; pose proof (kept_max _ _ Hk0); apply Z.ltb_lt in Hw0; cbn in Hw0; lia|done|].
  cbn beta in *. apply Z.ltb_ge in Hc. exists w'. pose proof Hsame as (Hm & _). split_and!; [done|done|unfold bounded; lia|done|].
  rewrite He. destruct (decide (j = 0%nat)) as [->|Hj0]; [done|].
  destruct (Hall (j - 1)%nat ltac:(lia)) as (w1 & (Hm1 & _) & He1 & Hc1). cbn beta in Hc1. apply Z.ltb_lt in Hc1. rewrite He1, length_drop in Hc1.
  rewrite <- (take_drop j (entries w)), last_app in Hlast. destruct (last (drop j (entries w))) eqn:Hd; [done|].
  apply last_None in Hd. apply (f_equal length) in Hd. rewrite length_drop in Hd. cbn in Hd. lia.
Qed.

Lemma trimmed w b k : kept None (setEntries (entries w ++ [mkEntry k b (clock w + ttl w)]) w) ->
  Z.of_nat (length (entries w)) <= maxLen w ->
  exists w', evictLoop (fun w => maxLen w <? Z.of_nat (length (entries w))) (setEntries (entries w ++ [mkEntry k b (clock w + ttl w)]) w) =
      (Ok tt, w') /\ kept None w' /\ bounded w' /\ sameBut w w' /\ last (entries w') = Some (mkEntry k b (clock w + ttl w)).
Proof.
  intros Hk Hle. destruct (trim_ok _ b k Hk) as (w' & H); [|by cbn; rewrite last_snoc|by exists w'].
  cbn [entries setEntries maxLen]. rewrite length_app. cbn [length]. lia.
Qed.

Lemma add_ok w b k : kept (Some b) w -> bounded w -> batches w !! b = Some (mkBatch false true false (Some k)) ->
  exists w', add k b w = (Ok tt, w') /\ kept None w' /\ bounded w' /\ sameBut w w' /\
    last (entries w') = Some (mkEntry k b (clock w + ttl w)).
Proof.
  intros Hk Hb Hbk. unfold add, mbind, M_bind, get, bounded in *. pose proof (lookupKey_spec k (entries w)) as Hl.
  destruct (lookupKey k (entries w)) as [i|].
  - destruct Hl as (ent & Hi & <-). rewrite (deleteEntry_eq _ _ _ _ Hi). cbn.
    pose proof (evict_kept _ _ _ _ Hk Hi) as Hk1. set (w1 := without i (closing (value ent) w)) in *.
    assert (Hb1 : batches w1 !! b = Some (mkBatch false true false (Some (ekey ent)))).
    { subst w1. unfold without, closing. cbn. rewrite list_lookup_alter_ne; [done|].
      destruct (kept_free _ _ Hk b eq_refl) as [Hf _]. apply Hf. by eapply list_elem_of_lookup_2. }
    pose proof (length_without i (closing (value ent) w) ent Hi) as Hlen.
    change (length (entries w1) = (length (entries w) - 1)%nat) in Hlen. apply lookup_lt_Some in Hi as Hlt. assert (Hm : maxLen w1 = maxLen w) by done.
    pose proof (appended_kept w1 b (ekey ent) Hk1 Hb1 (keys_without _ _ _ _ Hk Hi)) as Hk2.
    apply trimmed with (b := b) (k := ekey ent) in Hk2; [exact Hk2|rewrite Hlen, Hm; lia].
  - pose proof (appended_kept w b k Hk Hbk Hl) as Hk2.
    apply trimmed with (b := b) (k := k) in Hk2; [exact Hk2|lia].
Qed.

Lemma checkout_ok w k : kept None w -> bounded w ->
  match lookupKey k (entries w) with
  | None => checkout k w = (Ok None, w)
  | Some i => exists b w', checkout k w = (Ok (Some b), w') /\ kept (Some b) w' /\ bounded w' /\ sameBut w w' /\
      (exists ent, ent ∈ entries w /\ ekey ent = k /\ value ent = b) /\
      exists d, batches w' !! b = Some (mkBatch false true d (Some k)) /\ (d = true -> b ∈ late w)
  end.
Proof.
  intros Hk Hb. pose proof (lookupKey_spec k (entries w)) as Hl. unfold checkout, mbind, M_bind, get.
  destruct (lookupKey k (entries w)) as [i|]; [|done]. destruct Hl as (ent & Hi & <-). rewrite Hi, (deleteEntry_eq _ _ _ _ Hi).
  exists (value ent), (without i w). split_and!; [done|by apply without_kept| |done| |].
  - unfold bounded in *. rewrite (length_without _ _ _ Hi). cbn. lia.
  - exists ent. split_and!; [by eapply list_elem_of_lookup_2|done|done].
  - cbn. by apply (kept_entry _ _ Hk), list_elem_of_lookup_2 with i.
Qed.

Lemma read_kept w u d : kept None w -> kept None (useBatchOf u d w).
Proof.
  intros Hk. unfold useBatchOf. destruct (handles w !! u) as [b|] eqn:Hh; [|done].
  set (f := fun c => mkBatch (closed c) (running c) d (spawnedFor c)).
  assert (Hother : forall b', b' ≠ b -> alter f b (batches w) !! b' = batches w !! b') by (intros; by apply list_lookup_alter_ne).
  constructor; cbn [entries maxLen ttl batches uses handles late clock].
  - apply Hk.
  - apply Hk.
  - intros ent Hent. destruct (kept_entry _ _ Hk ent Hent) as (d' & Hd & Hl). destruct (decide (value ent = b)) as [Heq|Hne].
    + exists d. rewrite Heq in *. rewrite list_lookup_alter_eq, Hd. split; [done|]. intros _.
      destruct (uses w !! u) as [use|] eqn:Hu; [|by left]. exfalso. apply (kept_apart _ _ Hk u use ent Hu Hent).
      apply (kept_handle _ _ Hk) in Hu. rewrite Heq. congruence.
    + exists d'. rewrite Hother by done. split; [done|]. intros Ht. destruct (uses w !! u); [by apply Hl|right; by apply Hl].
  - intros u' use' Hu'. destruct (kept_use _ _ Hk u' use' Hu') as [d' Hd]. destruct (decide (useBatch use' = b)) as [Heq|Hne].
    + exists d. rewrite Heq in *. rewrite list_lookup_alter_eq, Hd. done.
    + exists d'. by rewrite Hother.
  - apply Hk.
  - apply Hk.
  - intros b' c Hb Hr _. destruct (decide (b' = b)) as [->|Hne].
    + rewrite list_lookup_alter_eq in Hb. destruct (batches w !! b) as [c'|] eqn:Hc; [|done]. injection Hb as <-.
      by apply (kept_owned _ _ Hk b c').
    + rewrite Hother in Hb by done. by eapply (kept_owned _ _ Hk).
  - done.
  - apply Hk.
  - apply Hk.
  - apply Hk.
Qed.

Lemma filter_nothing {A} (P : A -> Prop) `{!forall x, Decision (P x)} (l : list A) : (forall x, x ∈ l -> ~ P x) -> filter P l = [].
Proof.
  intros Hl. induction l as [|x l IH]; [done|]. rewrite filter_cons_False by (apply Hl, list_elem_of_here). apply IH.
  intros y Hy. apply Hl. by right.
Qed.

Lemma sorted_split (P : Z -> Prop) l j :
  (forall i z, (i < j)%nat -> (expiry <$> l) !! i = Some z -> P z) -> StronglySorted Z.le (expiry <$> l) ->
  (forall z z', z <= z' -> P z' -> P z) -> (forall ent, head (drop j l) = Some ent -> ~ P (expiry ent)) ->
  forall (Q : entry -> Prop) `{!forall ent, Decision (Q ent)}, (forall ent, Q ent <-> ~ P (expiry ent)) -> drop j l = filter Q l.
Proof.
  intros Hlow Hs Hmono Hhigh Q ? HQ. rewrite <- (take_drop j l) at 2. rewrite filter_app, filter_nothing.
  - cbn. symmetry. apply filter_all. intros ent Hin. apply HQ. intros HP. destruct (drop j l) as [|e0 l'] eqn:Hd; [by apply elem_of_nil in Hin|].
    apply (Hhigh e0 eq_refl). rewrite <- (take_drop j l), Hd, fmap_app in Hs. apply StronglySorted_app_1_r in Hs. cbn in Hs.
    apply StronglySorted_inv in Hs as [_ Hf]. apply elem_of_cons in Hin as [->|Hin]; [done|]. eapply Hmono; [|exact HP].
    rewrite Forall_forall in Hf. apply Hf. by apply list_elem_of_fmap_2.
  - intros ent Hin Hnot. apply HQ in Hnot. apply Hnot. apply list_elem_of_lookup in Hin as [i Hi].
    apply lookup_take_Some in Hi as [Hi Hlt]. eapply (Hlow i); [done|]. by rewrite list_lookup_fmap, Hi.
Qed.

(** A tick of the monitor evicts exactly the entries that have expired. *)
Lemma enforceTTL_ok w now : kept None w -> bounded w ->
  exists w', enforceTTL now w = (Ok tt, w') /\ kept None w' /\ bounded w' /\ sameBut w w' /\
    entries w' = filter (fun ent => now <= expiry ent) (entries w).
Proof.
  intros Hk Hb. unfold enforceTTL.
  destruct (evictLoop_ok None (fun w => match entries w with ent :: _ => expiry ent <? now | [] => false end) w)
    as (w' & j & -> & Hk' & Hsame & He & Hc & Hj & Hall); [by intros w0 _ Hw0 He; rewrite He in Hw0|done|].
  exists w'. pose proof Hsame as (Hm & _). split_and!; [done|done| |done|].
  - unfold bounded in *. rewrite He, length_drop, Hm. lia.
  - rewrite He. apply (sorted_split (fun z => z < now)); [|apply Hk|intros; lia| |intros; lia].
    + intros i z Hi Hz. destruct (Hall i Hi) as (w1 & _ & He1 & Hc1). cbn beta in Hc1. rewrite He1 in Hc1.
      rewrite list_lookup_fmap in Hz. destruct (entries w !! i) as [ent|] eqn:Hent; [|done]. injection Hz as <-.
      rewrite (drop_S _ _ _ Hent) in Hc1. by apply Z.ltb_lt in Hc1.
    + intros ent Hent. cbn beta in Hc. rewrite He in Hc. destruct (drop j (entries w)); [done|]. injection Hent as ->.
      apply Z.ltb_ge in Hc. lia.
Qed.

Lemma Evict_ok w : kept None w -> exists w', Evict w = (Ok tt, w') /\ kept None w' /\ sameBut w w' /\ entries w' = [].
Proof.
  intros Hk. unfold Evict. destruct (evictLoop_ok None (fun w => match entries w with _ :: _ => true | [] => false end) w)
    as (w' & j & -> & Hk' & Hsame & He & Hc & _); [by intros w0 _ Hw0 He; rewrite He in Hw0|done|].
  exists w'. cbn beta in Hc. by destruct (entries w').
Qed.

Definition good (w : World) : Prop := kept None w /\ bounded w.

Lemma newBatch_ok w spawn k : good w ->
  exists r w', newBatch spawn k w = (r, w') /\ sameBut w w' /\ bounded w' /\ entries w' = entries w /\
    match r with
    | Ok b => kept (Some b) w' /\ batches w' !! b = Some (mkBatch false true false k)
    | Err ESpawn => kept None w'
    | _ => False
    end.
Proof.
  intros [Hk Hb]. destruct spawn; cbn [newBatch].
  - eexists _, _. split; [reflexivity|]. split_and!; [done|done|done|exact (spawned_kept w k (mkBatch false true false k) Hk (fun _ => eq_refl))|].
    cbn. by rewrite list_lookup_middle.
  - eexists _, _. split; [reflexivity|]. done.
  - eexists _, _. split; [reflexivity|]. split_and!; [done|done|done|].
    by apply (spawned_kept w k (mkBatch false false false k) Hk).
Qed.

(** What a request gets: the batch cached for its key, or one of its own. *)
Definition requestResult (w : World) (u : nat) (session : list ascii) (repo : GitRepo) (r : out CacheError nat) (w' : World) : Prop :=
  match r with
  | Ok b =>
    (session = [] -> uses w' = <[u := mkUse None b]> (uses w) /\ entries w' = entries w) /\
    (session ≠ [] -> uses w' = <[u := mkUse (Some (newCacheKey session repo)) b]> (uses w)) /\
    forall ent, ent ∈ entries w -> ekey ent = newCacheKey session repo -> session ≠ [] -> b = value ent
  | Err ESpawn => uses w' = uses w /\ entries w' = entries w
  | _ => False
  end.

Lemma one_entry w ent ent' : kept None w -> ent ∈ entries w -> ent' ∈ entries w -> ekey ent = ekey ent' -> ent = ent'.
Proof.
  intros Hk [i Hi]%list_elem_of_lookup [j Hj]%list_elem_of_lookup Heq. assert (i = j) as ->; [|congruence].
  apply (NoDup_lookup _ i j (ekey ent) (kept_keys _ _ Hk)); rewrite list_lookup_fmap; [by rewrite Hi|by rewrite Hj, Heq].
Qed.

Lemma taken_good w b u k d : kept (Some b) w -> bounded w -> batches w !! b = Some (mkBatch false true d k) -> uses w !! u = None ->
  good (startUse u (mkUse k b) w).
Proof. intros Hk Hb Hbk Hu. split; [by eapply taken_kept|done]. Qed.

Lemma uncached_ok w u spawn repo : good w -> uses w !! u = None ->
  exists r w', BatchProcess u [] repo spawn w = (r, w') /\ good w' /\ requestResult w u [] repo r w'.
Proof.
  intros Hg Hu. unfold BatchProcess. rewrite decide_True by done. unfold mbind, M_bind.
  destruct (newBatch_ok w spawn None Hg) as (r & w1 & -> & (Hm & Ht & Hus & Hcl) & Hb & He & Hr).
  destruct r as [b|[]|]; [|by eexists _, _; split; [reflexivity|]|done..].
  destruct Hr as [Hk Hbk]. eexists _, _. split; [reflexivity|]. split; [eapply taken_good; try done; congruence|].
  cbn. split_and!; [intros _; by rewrite Hus|done|done].
Qed.

Lemma cached_ok w u session repo spawn : good w -> uses w !! u = None -> session ≠ [] ->
  exists r w', BatchProcess u session repo spawn w = (r, w') /\ good w' /\ requestResult w u session repo r w'.
Proof.
  intros Hg Hu Hs. unfold BatchProcess. rewrite decide_False by done. unfold mbind, M_bind. pose proof Hg as [Hk Hb].
  set (k := newCacheKey session repo). pose proof (checkout_ok w k Hk Hb) as Hc. pose proof (lookupKey_spec k (entries w)) as Hl.
  destruct (lookupKey k (entries w)) as [i|].
  - destruct Hc as (b & w1 & -> & Hk1 & Hb1 & (Hm & Ht & Hus & Hcl) & (ent & Hent & Hek & Hv) & d & Hbk & _). cbn.
    eexists _, _. split; [reflexivity|]. split; [eapply taken_good; try done; congruence|].
    cbn. split_and!; [done|intros _; by rewrite Hus|]. intros x Hx Hkx _. rewrite <- Hv. f_equal. eapply one_entry; [done..|]. by rewrite Hek, Hkx.
  - rewrite Hc. destruct (newBatch_ok w spawn (Some k) Hg) as (r & w1 & -> & (Hm & Ht & Hus & Hcl) & Hb1 & He & Hr).
    destruct r as [b|[]|]; [|by eexists _, _; split; [reflexivity|]|done..].
    destruct Hr as [Hk1 Hbk]. eexists _, _. split; [reflexivity|]. split; [eapply taken_good; try done; congruence|].
    cbn. split_and!; [done|intros _; by rewrite Hus|]. intros x Hx Hkx _. destruct Hl. change k with (newCacheKey session repo). rewrite <- Hkx. by apply list_elem_of_fmap_2.
Qed.

Lemma BatchProcess_ok w u session repo spawn : good w -> uses w !! u = None ->
  exists r w', BatchProcess u session repo spawn w = (r, w') /\ good w' /\ requestResult w u session repo r w'.
Proof. destruct (decide (session = [])) as [->|Hs]; [apply uncached_ok|intros; by apply cached_ok]. Qed.

(** What the end of a request brings about: the batch is cached if an object was not
    left unread, and ends otherwise. *)
Definition doneResult (w : World) (use : Use) (w' : World) : Prop :=
  exists c, batches w !! useBatch use = Some c /\
  match useKey use with
  | Some k => if unreadData c then exists c', batches w' !! useBatch use = Some c' /\ running c' = false
              else last (entries w') = Some (mkEntry k (useBatch use) (clock w + ttl w))
  | None => exists c', batches w' !! useBatch use = Some c' /\ running c' = false
  end.

Lemma requestDone_ok w u use : good w -> uses w !! u = Some use ->
  exists w', requestDone u w = (Ok tt, w') /\ good w' /\ uses w' = delete u (uses w) /\ doneResult w use w'.
Proof.
  intros [Hk Hb] Hu. unfold requestDone, mbind, M_bind, get. rewrite Hu. cbn.
  pose proof (released_kept w u use Hk Hu) as Hk1. set (w1 := setUses (delete u (uses w)) w) in *.
  destruct (kept_use _ _ Hk u use Hu) as [d Hd]. assert (Hd1 : batches w1 !! useBatch use = Some (mkBatch false true d (useKey use))) by done.
  destruct (useKey use) as [k|] eqn:Hkey.
  - unfold returnWhenDone, mbind, M_bind, get. rewrite Hd1. cbn. destruct d.
    + eexists. split; [reflexivity|]. split; [split; [|done]|].
      { apply closed_kept; [done|]. intros c Hc. rewrite Hd1 in Hc. by injection Hc as <-. }
      split; [done|]. eexists. split; [done|]. rewrite Hkey. cbn. rewrite list_lookup_alter_eq, Hd. eexists. split; done.
    + destruct (add_ok w1 (useBatch use) k Hk1 Hb Hd1) as (w' & -> & Hk' & Hb' & (_ & _ & Hus & _) & Hlast).
      exists w'. split; [done|]. split; [done|]. split; [done|]. eexists. split; [done|]. rewrite Hkey. done.
  - eexists. split; [reflexivity|]. split; [split; [|done]|].
    { by apply ended_kept. }
    split; [done|]. eexists. split; [done|]. rewrite Hkey. cbn. rewrite list_lookup_alter_eq, Hd. eexists. split; done.
Qed.

(** ** Theorems *)

(** The batches whose processes run. *)
Definition runningBatches (w : World) : list nat :=
  filter (fun b => (running <$> batches w !! b) = Some true) (seq 0 (length (batches w))).

Lemma runningBatches_spec w b : b ∈ runningBatches w <-> exists c, batches w !! b = Some c /\ running c = true.
Proof.
  unfold runningBatches. rewrite list_elem_of_filter. destruct (batches w !! b) as [c|] eqn:Hb; cbn.
  - split; [intros [[= ?] _]; eauto|]. intros (c' & [= <-] & Hr). split; [by rewrite Hr|]. apply elem_of_seq. apply lookup_lt_Some in Hb. lia.
  - split; [by intros [? _]|intros (c & ? & _); done].
Qed.

(** No process runs that is neither cached nor used by a request. *)
Lemma running_bounded w : kept None w ->
  (length (runningBatches w) <= length (entries w) + size (uses w))%nat.
Proof.
  intros Hk. set (owners := (value <$> entries w) ++ ((fun p : nat * Use => useBatch p.2) <$> map_to_list (uses w))).
  assert (Hlen : length owners = (length (entries w) + size (uses w))%nat)
    by (unfold owners; by rewrite length_app, !length_fmap, length_map_to_list).
  rewrite <- Hlen. apply submseteq_length, NoDup_submseteq; [apply NoDup_filter, NoDup_seq|]. intros b Hb.
  apply runningBatches_spec in Hb as (c & Hb & Hr). apply elem_of_app.
  destruct (kept_owned _ _ Hk b c Hb Hr ltac:(done)) as [(ent & Hent & <-)|(u & use & Hu & <-)].
  - left. by apply list_elem_of_fmap_2.
  - right. apply list_elem_of_fmap. exists (u, use). split; [done|]. by apply elem_of_map_to_list.
Qed.

Definition stepResult (w : World) (e : Event) (w' : World) : Prop :=
  match e with
  | EvRequest u session repo spawn => handles w !! u = None ->
      exists r, BatchProcess u session repo spawn w = (r, w') /\ requestResult w u session repo r w'
  | EvDone u => forall use, uses w !! u = Some use -> uses w' = delete u (uses w) /\ doneResult w use w'
  | EvTick => stopped w = false -> entries w' = filter (fun ent => clock w <= expiry ent) (entries w)
  | EvEvict => entries w' = []
  | EvStop => stopped w = false -> entries w' = []
  | _ => True
  end.

Lemma event_ok w e : good w -> exists r w', step e w = (r, w') /\ r ≠ Panic /\ r ≠ Err EFuel /\ good w' /\ stepResult w e w'.
Proof.
  intros Hg. pose proof Hg as [Hk Hb]. destruct e as [u session repo spawn|u d|u|dt| | |]; cbn [step]; unfold mbind, M_bind, get.
  - destruct (handles w !! u) as [b|] eqn:Hh.
    { eexists _, _. split; [reflexivity|]. split_and!; [done|done|done|]. intros H. congruence. }
    assert (Hu : uses w !! u = None) by (destruct (uses w !! u) eqn:Hu; [apply (kept_handle _ _ Hk) in Hu; congruence|done]).
    destruct (BatchProcess_ok w u session repo spawn Hg Hu) as (r & w' & Heq & Hg' & Hr). rewrite Heq.
    destruct r as [b|[]|]; [| |done|done]; eexists _, _; (split; [reflexivity|]); split_and!; try done; intros _; eexists; done.
  - eexists _, _. split; [reflexivity|]. split_and!; [done|done| |done].
    split; [by apply read_kept|]. unfold bounded, useBatchOf in *. by destruct (handles w !! u).
  - destruct (uses w !! u) as [use|] eqn:Hu.
    + destruct (requestDone_ok w u use Hg Hu) as (w' & Heq & Hg' & Hus & Hd). rewrite Heq.
      eexists _, _. split; [reflexivity|]. split_and!; [done|done|done|]. intros use' Hu'. assert (use' = use) as -> by congruence. done.
    + unfold requestDone, mbind, M_bind, get. rewrite Hu. eexists _, _. split; [reflexivity|]. split_and!; [done|done|done|].
      intros use Hu'. congruence.
  - eexists _, _. split; [reflexivity|]. split_and!; [done|done| |done]. split; [|done].
    destruct Hk. constructor; try done. intros ent Hent. specialize (kept_expiry0 ent Hent). cbn. lia.
  - unfold monitorTick, mbind, M_bind, get. destruct (stopped w) eqn:Hst.
    { eexists _, _. split; [reflexivity|]. split_and!; [done|done|done|]. intros H. congruence. }
    destruct (enforceTTL_ok w (clock w) Hk Hb) as (w' & -> & Hk' & Hb' & _ & He).
    eexists _, _. split; [reflexivity|]. split_and!; [done|done|done|by intros _].
  - destruct (Evict_ok w Hk) as (w' & -> & Hk' & (Hm & _) & He). eexists _, _. split; [reflexivity|].
    split_and!; [done|done| |done]. split; [done|]. unfold bounded. rewrite He, Hm. pose proof (kept_max _ _ Hk). cbn. lia.
  - destruct (stopped w) eqn:Hst.
    { eexists _, _. split; [reflexivity|]. split_and!; [done|done|done|]. intros H. congruence. }
    unfold Stop, mbind, M_bind, get. rewrite Hst. cbn.
    set (w1 := mkWorld _ _ _ _ _ _ _ _ true). assert (Hk1 : kept None w1) by (by destruct Hk; constructor).
    destruct (Evict_ok w1 Hk1) as (w' & -> & Hk' & (Hm & _) & He). eexists _, _. split; [reflexivity|].
    split_and!; [done|done| |by intros _]. split; [done|]. unfold bounded. rewrite He, Hm. pose proof (kept_max _ _ Hk1). cbn in *. lia.
Qed.

Lemma newCache_good life len : good (newCache life len).
Proof.
  split.
  - constructor; cbn; try done; try (intros; by set_solver); try constructor. case_decide; unfold defaultMaxLen; lia.
  - unfold bounded. cbn. case_decide; unfold defaultMaxLen; lia.
Qed.

Lemma run_good es : forall w, good w -> good (run es w).
Proof.
  induction es as [|e es IH]; intros w Hg; [done|]. cbn [run]. destruct (event_ok w e Hg) as (r & w' & -> & _ & _ & Hg' & _). by apply IH.
Qed.


(** Alternates without commas: the key tells repositories apart. *)
Lemma newCacheKey_inj session session' repo repo' :
  (forall a, a ∈ GetGitAlternateObjectDirectories repo ++ GetGitAlternateObjectDirectories repo' -> comma ∉ a /\ a ≠ []) ->
  newCacheKey session repo = newCacheKey session' repo' -> session = session' /\ repo = repo'.
Proof.
  destruct repo as [s1 p1 o1 a1], repo' as [s2 p2 o2 a2]. cbn. intros Ha [= -> -> -> -> Hj]. split; [done|]. f_equal.
  assert (Hnil : forall l : list (list ascii), (forall a, a ∈ l -> a ≠ []) -> Join comma l = [] -> l = []).
  { intros [|x [|y l]] Hl Hjn; [done| |by destruct x]. cbn in Hjn. subst x. by destruct (Hl [] ltac:(apply list_elem_of_here)). }
  destruct (decide (a1 = [])) as [->|H1].
  { symmetry. apply Hnil; [|by rewrite <- Hj]. intros a Hin. apply Ha. apply elem_of_app. by right. }
  destruct (decide (a2 = [])) as [->|H2].
  { apply Hnil; [|done]. intros a Hin. apply Ha. apply elem_of_app. by left. }
  rewrite <- (Split_Join comma a1), <- (Split_Join comma a2), Hj; [done|done| |done|]; intros a Hin; apply Ha; apply elem_of_app; auto.
Qed.

(** One request after another of a session uses the same batch; two at a time do not. *)
Example cached_batch_reused :
  let r := mkRepo (text "default") (text "a.git") [] [] in
  let w1 := run [EvRequest 0 (text "s") r Spawned; EvDone 0; EvRequest 1 (text "s") r Spawned] (NewCache 0) in
  let w2 := run [EvRequest 0 (text "s") r Spawned; EvRequest 1 (text "s") r Spawned; EvDone 0; EvDone 1] (NewCache 0) in
  useBatch <$> uses w1 !! 1%nat = Some 0%nat /\ length (batches w1) = 1%nat /\
  runningBatches w2 = [1%nat] /\ (value <$> entries w2) = [1%nat].
Proof. vm_compute. done. Qed.

(** A handler that goes on after its request is done reads from the batch of the next
    one, which is then not returned to the cache. *)
Example late_handler_shares_batch :
  let r := mkRepo (text "default") (text "a.git") [] [] in
  let es := [EvRequest 0 (text "s") r Spawned; EvDone 0; EvRequest 1 (text "s") r Spawned; EvRead 0 true] in
  let w1 := run es (NewCache 0) in
  let w2 := run (es ++ [EvDone 1]) (NewCache 0) in
  useBatch <$> uses w1 !! 1%nat = Some 0%nat /\ (unreadData <$> batches w1 !! 0%nat) = Some true /\ entries w2 = [] /\ runningBatches w2 = [].
Proof. vm_compute. done. Qed.
