(* ===== verification/GitObjects.v ===== *)
(** Commits and tags read from their objects, and the text that new tags are made of:
    src/internal/git/catfile/commit.go and tag.go, src/internal/git/trailerparser and
    FormatTag of src/internal/git/localrepo/objects.go. *)

From Stdlib Require Import Strings.Ascii.
From stdpp Require Import pretty.
From S2P Require Import Prelude GoStrings Regex GitVersion Hooks Catfile.

(** ** Texts *)

Definition CR : ascii := ascii_of_nat 13.
Definition NUL : ascii := ascii_of_nat 0.

Definition TrimSuffix (s suffix : list ascii) : list ascii :=
  if HasSuffix s suffix then take (length s - length suffix) s else s.

Fixpoint dropWhile (P : ascii -> bool) (s : list ascii) : list ascii :=
  match s with c :: s' => if P c then dropWhile P s' else s | [] => [] end.

(** [bytes.TrimRight] with the set of bytes [P]. *)
Definition TrimRight (P : ascii -> bool) (s : list ascii) : list ascii := reverse (dropWhile P (reverse s)).

Definition isLF (c : ascii) : bool := bool_decide (c = LF).
Definition isCRLF (c : ascii) : bool := bool_decide (c = CR) || bool_decide (c = LF).

(** [bytes.Index]. *)
Fixpoint Index (s sub : list ascii) : option nat :=
  if HasPrefix s sub then Some 0%nat else match s with [] => None | _ :: s => S <$> Index s sub end.

(** [bytes.SplitN(raw, "\n\n", 2)]. *)
Fixpoint cutBlankLine (s : list ascii) : list ascii * option (list ascii) :=
  match s with
  | c :: s' =>
    match s' with
    | c' :: rest =>
      if decide (c = LF /\ c' = LF) then ([], Some rest)
      else let (before, after) := cutBlankLine s' in (c :: before, after)
    | [] => ([c], None)
    end
  | [] => ([], None)
  end.

(** The tokens of a [bufio.Scanner]: lines without their ends, up to one that does not
    fit its buffer. *)
Definition MaxScanTokenSize : Z := 65536.

Definition dropCR (line : list ascii) : list ascii := TrimSuffix line [CR].

Fixpoint tokens (lines : list (list ascii)) : list (list ascii) :=
  match lines with
  | [] => []
  | [line] => if decide (line = []) then [] else if MaxScanTokenSize <=? Z.of_nat (length line) then [] else [dropCR line]
  | line :: lines => if MaxScanTokenSize <=? Z.of_nat (length line) then [] else dropCR line :: tokens lines
  end.

Definition scanLines (data : list ascii) : list (list ascii) := tokens (Split LF data).

(** ** Commits *)

Inductive SignatureType : Type := NONE | PGP | X509.

Record CommitAuthor : Type := mkAuthor {
  Name : list ascii;
  Email : list ascii;
  Date : option Z;
  Timezone : list ascii;
}.

Record CommitTrailer : Type := mkTrailer { Key : list ascii; Value : list ascii }.

Record GitCommit : Type := mkCommit {
  Id : list ascii;
  Subject : list ascii;
  Body : list ascii;
  BodySize : Z;
  Author : option CommitAuthor;
  Committer : option CommitAuthor;
  ParentIds : list (list ascii);
  CSignatureType : SignatureType;
  TreeId : list ascii;
  Trailers : list CommitTrailer;
}.

Definition MaxCommitOrTagMessageSize : nat := 10 * 1024.
Definition maxUnixCommitDate : Z := 2 ^ 53.

(** [git.FallbackTimeValue.Unix()]. *)
Definition fallbackTime : Z := 2 ^ 63 - 62135596801.

Definition parseDate (sec : list ascii) : Z :=
  match ParseInt64 sec with
  | Ok z => if decide (z > maxUnixCommitDate \/ z < 0) then fallbackTime else z
  | _ => fallbackTime
  end.

Definition parseCommitAuthor (line : list ascii) : CommitAuthor :=
  let (before, rest) := Cut "<"%char line in
  let name := TrimSuffix before [SP] in
  match rest with
  | None => mkAuthor name [] None []
  | Some line =>
    match Cut ">"%char line with
    | (_, None) => mkAuthor name [] None []
    | (email, Some rest) =>
      match Fields rest with
      | [] => mkAuthor name email None []
      | sec :: secSplit =>
        mkAuthor name email (Some (parseDate sec)) (match secSplit with [zone] => zone | _ => [] end)
      end
    end
  end.

Definition subjectFromBody (body : list ascii) : list ascii := TrimRight isCRLF (Cut LF body).1.

Definition detectSignatureType (line : list ascii) : SignatureType :=
  let s := TrimSuffix line [LF] in
  if decide (s = text "-----BEGIN SIGNED MESSAGE-----") then X509
  else if decide (s = text "-----BEGIN PGP MESSAGE-----") then PGP
  else if decide (s = text "-----BEGIN PGP SIGNATURE-----") then PGP
  else NONE.

(** A reader: the bytes it delivers, and whether it fails after them instead of
    reporting the end. *)
Record Source : Type := mkSource { contents : list ascii; fails : bool }.

Inductive ParseError : Type := EHeader | EBody.

(** A header, without its line feed. *)
Definition parseHeader (line : list ascii) (c : GitCommit) : GitCommit :=
  match Cut SP line with
  | (key, Some value) =>
    if decide (key = text "parent") then
      mkCommit (Id c) (Subject c) (Body c) (BodySize c) (Author c) (Committer c) (ParentIds c ++ [value]) (CSignatureType c) (TreeId c) (Trailers c)
    else if decide (key = text "author") then
      mkCommit (Id c) (Subject c) (Body c) (BodySize c) (Some (parseCommitAuthor value)) (Committer c) (ParentIds c) (CSignatureType c) (TreeId c) (Trailers c)
    else if decide (key = text "committer") then
      mkCommit (Id c) (Subject c) (Body c) (BodySize c) (Author c) (Some (parseCommitAuthor value)) (ParentIds c) (CSignatureType c) (TreeId c) (Trailers c)
    else if decide (key = text "gpgsig") then
      mkCommit (Id c) (Subject c) (Body c) (BodySize c) (Author c) (Committer c) (ParentIds c) (detectSignatureType value) (TreeId c) (Trailers c)
    else if decide (key = text "tree") then
      mkCommit (Id c) (Subject c) (Body c) (BodySize c) (Author c) (Committer c) (ParentIds c) (CSignatureType c) value (Trailers c)
    else c
  | _ => c
  end.

(** The loop over the headers, up to the blank line or the end of the object; [None]:
    out of fuel. *)
Fixpoint parseHeaders (fuel : nat) (failing : bool) (data : list ascii) (c : GitCommit) : option (out ParseError (GitCommit * list ascii)) :=
  match fuel with
  | O => None
  | S fuel =>
    match Cut LF data with
    | (line, Some rest) =>
      match line with
      | [] => Some (Ok (c, rest))
      | x :: _ => parseHeaders fuel failing rest (if decide (x = SP) then c else parseHeader line c)
      end
    | (line, None) =>
      if failing then Some (Err EHeader)
      else Some (Ok (match line with [] => c | x :: _ => if decide (x = SP) then c else parseHeader line c end, []))
    end
  end.

Definition withBody (body : list ascii) (c : GitCommit) : GitCommit :=
  if decide (body = []) then c
  else mkCommit (Id c) (subjectFromBody body) (take MaxCommitOrTagMessageSize body) (Z.of_nat (length body))
         (Author c) (Committer c) (ParentIds c) (CSignatureType c) (TreeId c) (Trailers c).

Definition ParseCommit (r : Source) (oid : list ascii) : option (out ParseError GitCommit) :=
  match parseHeaders (S (length (contents r))) (fails r) (contents r) (mkCommit oid [] [] 0 None None [] NONE [] []) with
  | Some (Ok (c, body)) => Some (if fails r then Err EBody else Ok (withBody body c))
  | Some (Err e) => Some (Err e)
  | Some Panic => Some Panic
  | None => None
  end.

(** [splitRawCommit], of which the message is the second part. *)
Definition splitRawCommit (r : Source) : out ParseError (list ascii * list ascii) :=
  if fails r then Err EBody
  else let (header, body) := cutBlankLine (contents r) in Ok (header, default [] body).

(** *** Trailers *)

Definition maxTrailers : nat := 64.
Definition maxKeySize : nat := 128.
Definition maxValueSize : nat := 512.

(** The length of the white space a text ends with: the last one, two or three bytes. *)
Definition spaceLengthAtEnd (s : list ascii) : nat :=
  let suffix k := drop (length s - k) s in
  if (spaceLength (suffix 1%nat) =? 1)%nat then 1%nat
  else if (2 <=? length s)%nat && (spaceLength (suffix 2%nat) =? 2)%nat then 2%nat
  else if (3 <=? length s)%nat && (spaceLength (suffix 3%nat) =? 3)%nat then 3%nat
  else 0%nat.

Fixpoint trimStart (fuel : nat) (s : list ascii) : list ascii :=
  match fuel, spaceLength s with S fuel, S k => trimStart fuel (drop (S k) s) | _, _ => s end.

Fixpoint trimEnd (fuel : nat) (s : list ascii) : list ascii :=
  match fuel, spaceLengthAtEnd s with S fuel, S k => trimEnd fuel (take (length s - S k) s) | _, _ => s end.

(** [bytes.TrimSpace]. *)
Definition TrimSpace (s : list ascii) : list ascii :=
  let s := trimStart (length s) s in trimEnd (length s) s.

(** The loop of [trailerparser.Parse] over the parts between the null bytes; an empty
    part at the end is not visited. *)
Fixpoint parseTrailers (parts : list (list ascii)) (trailers : list CommitTrailer) : list CommitTrailer :=
  match parts with
  | [] => trailers
  | part :: parts =>
    if decide (part = [] /\ parts = []) then trailers
    else if (maxTrailers <=? length trailers)%nat then trailers
    else
      match Cut ":"%char part with
      | ((_ :: _) as key, Some rest) =>
        let value := TrimSpace rest in
        if (maxKeySize <? length key)%nat || (maxValueSize <? length value)%nat then trailers
        else parseTrailers parts (trailers ++ [mkTrailer key value])
      | _ => parseTrailers parts trailers
      end
  end.

Definition Parse (input : list ascii) : list CommitTrailer := parseTrailers (Split NUL input) [].

(** ** Tags *)

Record tagHeader : Type := mkTagHeader {
  hOid : list ascii;
  hType : list ascii;
  hTag : list ascii;
  hTagger : list ascii;
}.

Record Tag : Type := mkTag {
  TId : list ascii;
  TName : list ascii;
  TMessage : list ascii;
  TMessageSize : Z;
  TSignatureType : SignatureType;
  Tagger : CommitAuthor;
  TargetCommit : option GitCommit;
}.

Definition beginMark : list ascii := text "-----BEGIN".

Definition ExtractTagSignature (content : list ascii) : option (list ascii) * list ascii :=
  match Index content beginMark with
  | Some (S i) => (Some (TrimSuffix (drop (S i) content) [LF]), take (S i) content)
  | _ => (None, content)
  end.

Definition parseTagLine (h : tagHeader) (line : list ascii) : tagHeader :=
  match Cut SP line with
  | (key, Some value) =>
    if decide (key = text "object") then mkTagHeader value (hType h) (hTag h) (hTagger h)
    else if decide (key = text "type") then mkTagHeader (hOid h) value (hTag h) (hTagger h)
    else if decide (key = text "tag") then mkTagHeader (hOid h) (hType h) value (hTagger h)
    else if decide (key = text "tagger") then mkTagHeader (hOid h) (hType h) (hTag h) value
    else h
  | _ => h
  end.

Definition splitRawTag (r : Source) (trimRightNewLine : bool) : out ParseError (tagHeader * list ascii) :=
  if fails r then Err EBody
  else
    let (header, rest) := cutBlankLine (contents r) in
    let body := match rest with
                | Some body => if trimRightNewLine then TrimRight isLF body else body
                | None => []
                end in
    Ok (foldl parseTagLine (mkTagHeader [] [] [] []) (scanLines header), body).

Definition tagSignature (body : list ascii) : SignatureType :=
  match ExtractTagSignature body with
  | (Some signature, _) =>
    match Cut LF signature with
    | ((_ :: _) as line, Some _) => detectSignatureType line
    | _ => NONE
    end
  | _ => NONE
  end.

Definition parseTag (r : Source) (oid name : list ascii) (trimLen trimRightNewLine : bool) : out ParseError (Tag * tagHeader) :=
  match splitRawTag r trimRightNewLine with
  | Ok (header, body) =>
    let name := if decide (name = []) then hTag header else name in
    let message := if trimLen then take MaxCommitOrTagMessageSize body else body in
    Ok (mkTag oid name message (Z.of_nat (length body)) (tagSignature body) (parseCommitAuthor (hTagger header)) None, header)
  | Err e => Err e
  | Panic => Panic
  end.

Definition ParseTag (r : Source) (oid : list ascii) : out ParseError Tag :=
  match parseTag r oid [] true true with Ok (tag, _) => Ok tag | Err e => Err e | Panic => Panic end.

(** *** Objects behind a tag *)

(** What the functions below use of a batch; a reader that fails is a [Source]. *)
Record BatchOps : Type := mkOps {
  batchInfo : list ascii -> out BatchError ObjectInfo;
  batchCommit : list ascii -> out BatchError (ObjectInfo * Source);
  batchTag : list ascii -> out BatchError (ObjectInfo * Source);
}.

Inductive TagError : Type :=
| EBatch (e : BatchError)
| EParse (e : ParseError)
| ETargetCommit (e : TagError)
| EDereference (e : TagError).

Section Lookup.
Context (b : BatchOps).

Definition fromBatch {A} (r : out BatchError A) : out TagError A :=
  match r with Ok a => Ok a | Err e => Err (EBatch e) | Panic => Panic end.

Definition fromParser {A} (r : out ParseError A) : out TagError A :=
  match r with Ok a => Ok a | Err e => Err (EParse e) | Panic => Panic end.

Definition peelCommit : list ascii := text "^{commit}".

(** [ParseCommit] has fuel enough: the last case does not arise. *)
Definition GetCommit (revision : list ascii) : out TagError GitCommit :=
  match fromBatch (batchCommit b (revision ++ peelCommit)) with
  | Ok (oi, r) => match ParseCommit r (Oid oi) with Some c => fromParser c | None => Panic end
  | Err e => Err e
  | Panic => Panic
  end.

Definition GetCommitMessage (revision : list ascii) : out TagError (list ascii) :=
  match fromBatch (batchCommit b (revision ++ peelCommit)) with
  | Ok (oi, r) => match fromParser (splitRawCommit r) with Ok (_, body) => Ok body | Err e => Err e | Panic => Panic end
  | Err e => Err e
  | Panic => Panic
  end.

Definition MaxTagReferenceDepth : nat := 10.

Fixpoint dereferenceLoop (depth : nat) (oid : list ascii) : out TagError (option GitCommit) :=
  match depth with
  | O => Ok None
  | S depth =>
    match fromBatch (batchInfo b oid) with
    | Ok i =>
      if decide (Type_ i = text "tag") then
        match fromBatch (batchTag b oid) with
        | Ok (_, r) =>
          match fromParser (splitRawTag r true) with
          | Ok (header, _) => dereferenceLoop depth (hOid header)
          | Err e => Err e
          | Panic => Panic
          end
        | Err e => Err e
        | Panic => Panic
        end
      else if decide (Type_ i = text "commit") then
        match GetCommit oid with Ok c => Ok (Some c) | Err e => Err e | Panic => Panic end
      else Ok None
    | Err e => Err e
    | Panic => Panic
    end
  end.

Definition dereferenceTag (oid : list ascii) : out TagError (option GitCommit) := dereferenceLoop MaxTagReferenceDepth oid.

Definition buildAnnotatedTag (oi : ObjectInfo) (r : Source) (name : list ascii) (trimLen trimRightNewLine : bool) : out TagError Tag :=
  match fromParser (parseTag r (Oid oi) name trimLen trimRightNewLine) with
  | Ok (tag, header) =>
    let target c := mkTag (TId tag) (TName tag) (TMessage tag) (TMessageSize tag) (TSignatureType tag) (Tagger tag) c in
    if decide (hType header = text "commit") then
      match GetCommit (hOid header) with Ok c => Ok (target (Some c)) | Err e => Err (ETargetCommit e) | Panic => Panic end
    else if decide (hType header = text "tag") then
      match dereferenceTag (hOid header) with Ok c => Ok (target c) | Err e => Err (EDereference e) | Panic => Panic end
    else Ok tag
  | Err e => Err e
  | Panic => Panic
  end.

Definition GetTag (tagID tagName : list ascii) (trimLen trimRightNewLine : bool) : out TagError Tag :=
  match fromBatch (batchTag b tagID) with
  | Ok (oi, r) => buildAnnotatedTag oi r tagName trimLen trimRightNewLine
  | Err e => Err e
  | Panic => Panic
  end.

End Lookup.

(** ** New tags *)

Definition decimalOf (z : Z) : list ascii := text (pretty z).

Inductive FormatTagError : Type := mkFormatTagError (expectedLines actualLines : nat).

(** [FormatTag]; the date, which is the present one unless another is given, in
    seconds and with its zone. *)
Definition FormatTag (objectID objectType tagName tagBody userName userEmail : list ascii) (date : Z) (zone : list ascii)
    : out FormatTagError (list ascii) :=
  let tagBuf := text "object " ++ objectID ++ [LF] ++
                text "type " ++ objectType ++ [LF] ++
                text "tag " ++ tagName ++ [LF] ++
                text "tagger " ++ userName ++ text " <" ++ userEmail ++ text "> " ++ decimalOf date ++ [SP] ++ zone ++ [LF] in
  let actualHeaderLines := length (filter (fun c => c = LF) tagBuf) in
  if decide (actualHeaderLines ≠ 4%nat) then Err (mkFormatTagError 4 actualHeaderLines)
  else Ok (tagBuf ++ [LF] ++ tagBody).

(** ** Numbers and names are read back *)

Lemma pretty_char_digit n : (n < 10)%N -> isDigit (pretty_N_char n) = true /\ Z.of_nat (nat_of_ascii (pretty_N_char n)) - 48 = Z.of_N n.
Proof.
  intros Hn. destruct n as [|p]; [done|]. do 4 (destruct p as [p|p|]; [|..|done]); done || lia.
Qed.

Lemma pretty_go_digits n : forall s, Forall (fun c => isDigit c = true) (text s) ->
  Forall (fun c => isDigit c = true) (text (pretty_N_go n s)) /\
  numeral (text (pretty_N_go n s)) = foldl (fun acc c => acc * 10 + (Z.of_nat (nat_of_ascii c) - 48)) (Z.of_N n) (text s).
Proof.
  induction (N.lt_wf_0 n) as [n _ IH]. intros s Hs.
  assert (n = 0 \/ 0 < n)%N as [->|Hn] by lia; [by rewrite pretty_N_go_0|].
  rewrite pretty_N_go_step by done. destruct (pretty_char_digit (n `mod` 10)%N) as [Hd Hv]; [by apply N.mod_lt|].
  destruct (IH (n `div` 10)%N) with (s := String (pretty_N_char (n `mod` 10)) s) as [H1 H2]; [by apply N.div_lt|by constructor|].
  split; [done|]. rewrite H2. change (text (String ?c s)) with (c :: text s). cbn [foldl]. rewrite Hv. f_equal.
  rewrite (N.Div0.div_mod n 10) at 3. lia.
Qed.

Lemma decimalOf_digits z : 0 <= z ->
  decimalOf z ≠ [] /\ Forall (fun c => isDigit c = true) (decimalOf z) /\ numeral (decimalOf z) = z.
Proof.
  intros Hz. unfold decimalOf. destruct z as [|p|p]; [by repeat constructor| |lia].
  change (pretty (Z.pos p)) with (pretty (N.pos p)). unfold pretty, pretty_N. rewrite decide_False by done.
  destruct (pretty_go_digits (N.pos p) "" ltac:(constructor)) as [H1 H2]. split_and!; [|done|by rewrite H2].
  intros Heq. rewrite Heq in H2. cbn in H2. lia.
Qed.

(** A byte that belongs to no white space. *)
Definition visible (c : ascii) : Prop := (33 <= nat_of_ascii c <= 126)%nat.

Lemma spaceLength_visible c s : visible c -> spaceLength (c :: s) = 0%nat.
Proof.
  intros Hc. unfold visible in Hc. unfold spaceLength. cbn [take fmap list_fmap].
  assert (He : existsb (Nat.eqb (nat_of_ascii c)) [9; 10; 11; 12; 13; 32]%nat = false).
  { apply not_true_iff_false. rewrite existsb_exists. intros (x & Hx & Heq%Nat.eqb_eq). cbn in Hx. subst x.
    repeat (destruct Hx as [Hx|Hx]; [lia|]). done. }
  rewrite He. destruct s as [|c1 s]; cbn [take fmap list_fmap]; [done|].
  assert (Hne : forall k, (126 < k)%nat -> (nat_of_ascii c =? k)%nat = false) by (intros k Hk; apply Nat.eqb_neq; lia).
  rewrite !Hne by lia. cbn [andb orb]. by destruct s.
Qed.

Lemma fieldsLoop_visible w : Forall visible w -> forall word s,
  fieldsLoop 0 word (w ++ s) = fieldsLoop 0 (word ++ w) s.
Proof.
  induction 1 as [|c w Hc _ IH]; intros word s; [by rewrite app_nil_r|].
  change ((c :: w) ++ s) with (c :: w ++ s). cbn [fieldsLoop]. rewrite spaceLength_visible by done.
  rewrite IH, <- app_assoc. done.
Qed.

Lemma digit_visible c : isDigit c = true -> visible c.
Proof. unfold isDigit, between, visible. intros [?%Nat.leb_le ?%Nat.leb_le]%andb_true_iff. lia. Qed.

Lemma Fields_two a c : a ≠ [] -> c ≠ [] -> Forall visible a -> Forall visible c -> Fields (SP :: a ++ SP :: c) = [a; c].
Proof.
  intros Ha Hc Hva Hvc. unfold Fields. 
  assert (Hsp : forall s, spaceLength (SP :: s) = 1%nat) by (intros s; by destruct s as [|? [|? ?]]).
  cbn [fieldsLoop]. rewrite Hsp, decide_True by done. cbn [app]. rewrite (fieldsLoop_visible a Hva). cbn [app fieldsLoop]. rewrite Hsp.
  rewrite decide_False by done. cbn [app]. f_equal. rewrite <- (app_nil_r c) at 1. rewrite (fieldsLoop_visible c Hvc).
  cbn [app fieldsLoop]. by rewrite decide_False.
Qed.

Lemma TrimSuffix_app s w : TrimSuffix (s ++ w) w = s.
Proof. unfold TrimSuffix. rewrite HasSuffix_app, length_app. rewrite take_app_le by lia. by rewrite take_ge by lia. Qed.

Lemma TrimSuffix_keep s x : last s ≠ Some x -> TrimSuffix s [x] = s.
Proof.
  intros Hl. unfold TrimSuffix. destruct (HasSuffix s [x]) eqn:Hs; [|done]. unfold HasSuffix in Hs.
  apply bool_decide_eq_true in Hs as [s' ->]. by rewrite last_snoc in Hl.
Qed.

(** *** Persons *)

Record person : Type := mkPerson { pName : list ascii; pEmail : list ascii; pDate : Z; pZone : list ascii }.

(** A person in a commit or a tag, as git writes it. *)
Definition renderPerson (p : person) : list ascii :=
  pName p ++ text " <" ++ pEmail p ++ text "> " ++ decimalOf (pDate p) ++ [SP] ++ pZone p.

Record person_ok (p : person) : Prop := {
  name_ok : "<"%char ∉ pName p /\ LF ∉ pName p;
  email_ok : ">"%char ∉ pEmail p /\ LF ∉ pEmail p;
  date_ok : 0 <= pDate p <= maxUnixCommitDate;
  zone_ok : pZone p ≠ [] /\ Forall visible (pZone p);
}.

Definition authorOf (p : person) : CommitAuthor := mkAuthor (pName p) (pEmail p) (Some (pDate p)) (pZone p).

Lemma visible_no c s : ~ visible c -> Forall visible s -> c ∉ s.
Proof. intros Hc Hs Hin. rewrite Forall_forall in Hs. by apply Hc, Hs. Qed.

Lemma parse_person p : person_ok p -> parseCommitAuthor (renderPerson p) = authorOf p.
Proof.
  intros [[Hn _] [He _] Hd [Hz Hvz]]. unfold parseCommitAuthor, renderPerson, authorOf.
  replace (pName p ++ text " <" ++ pEmail p ++ text "> " ++ decimalOf (pDate p) ++ [SP] ++ pZone p)
    with ((pName p ++ [SP]) ++ "<"%char :: (pEmail p ++ ">"%char :: (SP :: decimalOf (pDate p) ++ SP :: pZone p)))
    by (rewrite <- !app_assoc; done).
  rewrite Cut_app; [|rewrite elem_of_app, list_elem_of_singleton; intros [?|?]; done].
  rewrite TrimSuffix_app. rewrite Cut_app by done. destruct (decimalOf_digits (pDate p)) as (Hne & Hdig & Hnum); [lia|].
  rewrite Fields_two; [|done|done|eapply Forall_impl; [exact Hdig|apply digit_visible]|done].
  unfold parseDate. rewrite ParseInt64_digits; [|done|done|unfold maxUnixCommitDate in Hd; lia].
  rewrite Hnum, decide_False by lia. done.
Qed.

Lemma person_no_LF p : person_ok p -> LF ∉ renderPerson p.
Proof.
  intros [[_ Hn] [_ He] Hd [_ Hvz]]. destruct (decimalOf_digits (pDate p)) as (_ & Hdig & _); [lia|]. unfold renderPerson.
  rewrite !elem_of_app, list_elem_of_singleton. intros [?|[H|[?|[H|[?|[?|?]]]]]]; try done.
  - revert H. by apply (bool_decide_unpack _).
  - revert H. by apply (bool_decide_unpack _).
  - by eapply digits_plain.
  - eapply (visible_no LF); [|done|done]. unfold visible. change (nat_of_ascii LF) with 10%nat. lia.
Qed.

(** ** New tags are read back *)

(** *** Lines *)

Lemma cutBlank_line l c rest : LF ∉ l -> c ≠ LF ->
  cutBlankLine (l ++ LF :: c :: rest) = (l ++ LF :: (cutBlankLine (c :: rest)).1, (cutBlankLine (c :: rest)).2).
Proof.
  intros Hl Hc. assert (H0 : cutBlankLine (LF :: c :: rest) = (LF :: (cutBlankLine (c :: rest)).1, (cutBlankLine (c :: rest)).2)).
  { cbn [cutBlankLine]. rewrite decide_False by tauto. by destruct (match rest with [] => _ | _ => _ end). }
  induction l as [|x l IH]; [exact H0|]. apply not_elem_of_cons in Hl as [Hx Hl]. specialize (IH Hl).
  assert (Hstep : forall s, s ≠ [] -> cutBlankLine (x :: s) = (x :: (cutBlankLine s).1, (cutBlankLine s).2)).
  { intros [|y s] Hs; [done|]. cbn [cutBlankLine]. rewrite decide_False by (intros [-> _]; done). by destruct (match s with [] => _ | _ => _ end). }
  change ((x :: l) ++ LF :: c :: rest) with (x :: (l ++ LF :: c :: rest)). rewrite Hstep by (by destruct l). by rewrite IH.
Qed.

Lemma cutBlank_end l body : LF ∉ l -> cutBlankLine (l ++ LF :: LF :: body) = (l, Some body).
Proof.
  induction l as [|x l IH]; intros Hl; [cbn [app cutBlankLine]; by rewrite decide_True|].
  apply not_elem_of_cons in Hl as [Hx Hl]. specialize (IH Hl). change ((x :: l) ++ LF :: LF :: body) with (x :: (l ++ LF :: LF :: body)).
  destruct (l ++ LF :: LF :: body) as [|y s] eqn:Hs; [by destruct l|]. cbn [cutBlankLine].
  rewrite decide_False by (intros [-> _]; done). cbn [cutBlankLine] in IH. by rewrite IH.
Qed.

Lemma cutBlank_lines lines body : lines ≠ [] -> Forall (fun l => l ≠ [] /\ LF ∉ l) lines ->
  cutBlankLine (Join LF lines ++ LF :: LF :: body) = (Join LF lines, Some body).
Proof.
  induction lines as [|l [|l' lines] IH]; intros Hne Hl; [done| |].
  - cbn [Join]. apply cutBlank_end. by apply Forall_inv in Hl as [_ ?].
  - apply Forall_cons in Hl as [[Hl0 Hl1] Hl]. specialize (IH ltac:(done) Hl). rewrite Join_cons by done. rewrite <- app_assoc. cbn [app].
    apply Forall_inv in Hl as [Hl0' Hl1']. destruct l' as [|c l']; [done|]. apply not_elem_of_cons in Hl1' as [Hc _].
    assert (Hhd : exists rest, Join LF ((c :: l') :: lines) = c :: rest) by (destruct lines; cbn [Join]; eauto).
    destruct Hhd as [rest Hhd]. rewrite Hhd in *. cbn [app] in *. rewrite cutBlank_line by done. by rewrite IH.
Qed.

Lemma tokens_lines lines : Forall (fun l => l ≠ [] /\ Z.of_nat (length l) < MaxScanTokenSize) lines -> tokens lines = dropCR <$> lines.
Proof.
  induction 1 as [|l lines [Hne Hlt] _ IH]; [done|]. cbn [tokens]. rewrite (proj2 (Z.leb_gt _ _) Hlt).
  destruct lines; [by rewrite decide_False|]. by rewrite IH.
Qed.

Lemma scanLines_Join lines : lines ≠ [] ->
  Forall (fun l => l ≠ [] /\ LF ∉ l /\ Z.of_nat (length l) < MaxScanTokenSize /\ last l ≠ Some CR) lines ->
  scanLines (Join LF lines) = lines.
Proof.
  intros Hne Hl. unfold scanLines. rewrite Split_Join; [|done|intros l Hin; rewrite Forall_forall in Hl; by apply Hl].
  rewrite tokens_lines by (eapply Forall_impl; [exact Hl|]; by intros l (? & ? & ? & ?)).
  clear Hne. induction Hl as [|l lines (_ & _ & _ & Hcr) _ IH]; [done|]. cbn. rewrite IH. f_equal. by apply TrimSuffix_keep.
Qed.

(** *** The text of a tag *)

Definition feeds (s : list ascii) : nat := length (filter (fun c => c = LF) s).

Lemma feeds_app s s' : feeds (s ++ s') = (feeds s + feeds s')%nat.
Proof. unfold feeds. by rewrite filter_app, length_app. Qed.

Lemma feeds_zero s : feeds s = 0%nat <-> LF ∉ s.
Proof.
  unfold feeds. rewrite length_zero_iff_nil. split.
  - intros Hf Hin. by apply (filter_nil_not_elem_of _ _ _ Hf eq_refl).
  - intros Hn. induction s as [|c s IH]; [done|]. apply not_elem_of_cons in Hn as [Hc Hs]. rewrite filter_cons_False by congruence. auto.
Qed.

(** The headers of a tag; old tags have no tagger. *)
Definition taggedLines (oid typ name : list ascii) (tagger : option (list ascii)) : list (list ascii) :=
  [text "object " ++ oid; text "type " ++ typ; text "tag " ++ name] ++ match tagger with Some v => [text "tagger " ++ v] | None => [] end.

Definition tagLines (oid typ name : list ascii) (p : person) : list (list ascii) := taggedLines oid typ name (Some (renderPerson p)).

Lemma feeds_decimal z : 0 <= z -> feeds (decimalOf z) = 0%nat.
Proof. intros Hz. apply feeds_zero. destruct (decimalOf_digits z Hz) as (_ & Hd & _). by apply digits_plain. Qed.

(** Values with a line feed are refused; the others make up the headers of the tag. *)
Lemma FormatTag_spec oid typ name body p raw : 0 <= pDate p ->
  FormatTag oid typ name body (pName p) (pEmail p) (pDate p) (pZone p) = Ok raw <->
  (LF ∉ oid /\ LF ∉ typ /\ LF ∉ name /\ LF ∉ pName p /\ LF ∉ pEmail p /\ LF ∉ pZone p) /\
  raw = Join LF (tagLines oid typ name p) ++ LF :: LF :: body.
Proof.
  intros Hz. unfold FormatTag. fold (feeds (text "object " ++ oid ++ [LF] ++ text "type " ++ typ ++ [LF] ++ text "tag " ++ name ++ [LF] ++
    text "tagger " ++ pName p ++ text " <" ++ pEmail p ++ text "> " ++ decimalOf (pDate p) ++ [SP] ++ pZone p ++ [LF])).
  rewrite !feeds_app, feeds_decimal by done. rewrite <- !feeds_zero.
  change (feeds (text "object ")) with 0%nat. change (feeds [LF]) with 1%nat. change (feeds (text "type ")) with 0%nat.
  change (feeds (text "tag ")) with 0%nat. change (feeds (text "tagger ")) with 0%nat. change (feeds (text " <")) with 0%nat.
  change (feeds (text "> ")) with 0%nat. change (feeds [SP]) with 0%nat.
  assert (Heq : (text "object " ++ oid ++ [LF] ++ text "type " ++ typ ++ [LF] ++ text "tag " ++ name ++ [LF] ++ text "tagger " ++
    pName p ++ text " <" ++ pEmail p ++ text "> " ++ decimalOf (pDate p) ++ [SP] ++ pZone p ++ [LF]) ++ [LF] ++ body =
    Join LF (tagLines oid typ name p) ++ LF :: LF :: body).
  { unfold tagLines, taggedLines, renderPerson. cbn [Join app]. by repeat (rewrite <- !app_assoc; progress cbn [app]). }
  rewrite Heq. case_decide as Hc.
  - split; [done|]. intros [Hz' _]. lia.
  - split; [intros [= <-]; split; [lia|done]|intros [_ ->]; done].
Qed.

Lemma last_snoc_app (s w : list ascii) x : last w = Some x -> last (s ++ w) = Some x.
Proof. intros Hw. by rewrite last_app, Hw. Qed.

Lemma last_visible s : s ≠ [] -> Forall visible s -> last s ≠ Some CR.
Proof.
  intros Hne Hs Hl. rewrite Forall_forall in Hs. specialize (Hs CR (last_Some_elem_of _ _ Hl)). unfold visible in Hs.
  change (nat_of_ascii CR) with 13%nat in Hs. lia.
Qed.

Lemma keyword_line kw value x : last kw = Some x -> x ≠ CR -> last value ≠ Some CR -> last (kw ++ value) ≠ Some CR.
Proof. intros Hk Hx Hv. rewrite last_app. destruct (last value); [done|]. rewrite Hk. congruence. Qed.

Lemma person_no_CR p : person_ok p -> last (renderPerson p) ≠ Some CR.
Proof.
  intros Hp. destruct (last (pZone p)) as [x|] eqn:Hx; [|apply last_None in Hx; by destruct (zone_ok p Hp)].
  assert (Hlast : last (renderPerson p) = Some x) by (unfold renderPerson; by repeat apply last_snoc_app). rewrite Hlast, <- Hx. apply last_visible; apply (zone_ok p Hp).
Qed.

Lemma taggedLines_ok oid typ name tagger :
  ValidateObjectID oid = true -> typ ∈ objectTypes -> (forall v, tagger = Some v -> LF ∉ v /\ last v ≠ Some CR) -> LF ∉ name -> last name ≠ Some CR ->
  Forall (fun l => Z.of_nat (length l) < MaxScanTokenSize) (taggedLines oid typ name tagger) ->
  Forall (fun l => l ≠ [] /\ LF ∉ l /\ Z.of_nat (length l) < MaxScanTokenSize /\ last l ≠ Some CR) (taggedLines oid typ name tagger).
Proof.
  intros Hoid Htyp Hv Hn Hcr Hshort. unfold taggedLines in *. apply Forall_app in Hshort as [H123 H4].
  assert (Hkw : forall kw v, LF ∉ text kw -> LF ∉ v -> LF ∉ text kw ++ v) by (intros kw v ? ?; rewrite elem_of_app; tauto).
  rewrite !Forall_cons in H123. destruct H123 as (H1 & H2 & H3 & _).
  assert (Hoc : last oid ≠ Some CR).
  { intros Hl. apply ValidateObjectID_spec in Hoid as [_ Hoid]. by specialize (Hoid CR (last_Some_elem_of _ _ Hl)). }
  assert (Htc : last typ ≠ Some CR).
  { assert (H : Forall (fun t => last t ≠ Some CR) objectTypes) by (by apply (bool_decide_unpack _)). rewrite Forall_forall in H. auto. }
  apply Forall_app. split.
  - repeat constructor; try done; try (by eapply keyword_line).
    + apply Hkw; [by apply (bool_decide_unpack _)|by apply hex_no_space].
    + apply Hkw; [by apply (bool_decide_unpack _)|by apply type_plain].
    + apply Hkw; [by apply (bool_decide_unpack _)|done].
  - destruct tagger as [v|]; [|constructor]. destruct (Hv v eq_refl) as [Hvl Hvc]. apply Forall_cons in H4 as [H4 _].
    repeat constructor; try done; [apply Hkw; [by apply (bool_decide_unpack _)|done]|by eapply keyword_line].
Qed.

Lemma parseTaggedLines oid typ name tagger :
  foldl parseTagLine (mkTagHeader [] [] [] []) (taggedLines oid typ name tagger) = mkTagHeader oid typ name (default [] tagger).
Proof.
  unfold taggedLines. rewrite foldl_app. cbn [foldl]. unfold parseTagLine at 4.
  change (text "object " ++ oid) with (text "object" ++ SP :: oid). rewrite Cut_app by (by apply (bool_decide_unpack _)). rewrite decide_True by done.
  unfold parseTagLine at 3. change (text "type " ++ typ) with (text "type" ++ SP :: typ). rewrite Cut_app by (by apply (bool_decide_unpack _)).
  rewrite decide_False, decide_True by done.
  unfold parseTagLine at 2. change (text "tag " ++ name) with (text "tag" ++ SP :: name). rewrite Cut_app by (by apply (bool_decide_unpack _)).
  rewrite !decide_False, decide_True by done. destruct tagger as [v|]; [|done]. cbn [foldl].
  unfold parseTagLine. change (text "tagger " ++ v) with (text "tagger" ++ SP :: v).
  rewrite Cut_app by (by apply (bool_decide_unpack _)). by rewrite !decide_False, decide_True by done.
Qed.

(** The values a tag is made from, apart from its message. *)
Record tag_values_ok (oid typ name : list ascii) (p : person) : Prop := {
  tag_oid : ValidateObjectID oid = true;
  tag_type : typ ∈ objectTypes;
  tag_name : last name ≠ Some CR;
  tag_user : "<"%char ∉ pName p /\ ">"%char ∉ pEmail p;
  tag_date : 0 <= pDate p <= maxUnixCommitDate;
  tag_zone : pZone p ≠ [] /\ Forall visible (pZone p);
  tag_short : Forall (fun l => Z.of_nat (length l) < MaxScanTokenSize) (tagLines oid typ name p);
}.

(** C36. For a valid object ID and type, a tag name that does not end in a carriage
    return, a user name without the opening and an address without the closing bracket,
    a date from 0 to 2^53, a visible time zone and header lines below the scanner's
    limit (tag_values_ok): the text FormatTag makes of a tag is read back by parseTag
    with the same target, type, name, tagger and message, whatever the message is; and
    FormatTag refuses exactly the values with a line feed in them, which would add
    headers of their own. *)
Theorem tag_roundtrip oid typ name body p tagID :
  tag_values_ok oid typ name p ->
  ((exists raw, FormatTag oid typ name body (pName p) (pEmail p) (pDate p) (pZone p) = Ok raw) <->
   LF ∉ name /\ LF ∉ pName p /\ LF ∉ pEmail p) /\
  forall raw, FormatTag oid typ name body (pName p) (pEmail p) (pDate p) (pZone p) = Ok raw ->
    parseTag (mkSource raw false) tagID [] false false =
    Ok (mkTag tagID name body (Z.of_nat (length body)) (tagSignature body) (authorOf p) None,
        mkTagHeader oid typ name (renderPerson p)).
Proof.
  intros [Hoid Htyp Hname [Hlt Hgt] Hdate [Hz Hvz] Hshort]. setoid_rewrite FormatTag_spec; [|lia..].
  assert (Hlz : LF ∉ pZone p) by (eapply visible_no; [|done]; unfold visible; change (nat_of_ascii LF) with 10%nat; lia).
  pose proof (proj2 (hex_no_space _ Hoid)) as Hlo. pose proof (proj2 (type_plain _ Htyp)) as Hlty. split.
  - split; [intros (raw & Hok & _); tauto|]. intros (? & ? & ?). eexists. split; [|reflexivity]. done.
  - intros raw [(_ & _ & Hln & Hlu & Hle & _) ->]. assert (Hp : person_ok p) by (by constructor).
    pose proof (taggedLines_ok oid typ name (Some (renderPerson p)) Hoid Htyp
      ltac:(intros ? [= <-]; split; [by apply person_no_LF|by apply person_no_CR]) Hln Hname Hshort) as Hlines.
    fold (tagLines oid typ name p) in Hlines.
    unfold parseTag, splitRawTag. cbn [fails contents]. rewrite cutBlank_lines; [|done|].
    + rewrite scanLines_Join by done. unfold tagLines; rewrite parseTaggedLines. cbn [from_option id hTag hTagger]. rewrite decide_True by done.
      by rewrite parse_person by done.
    + eapply Forall_impl; [exact Hlines|]. by intros l (? & ? & _).
Qed.

Lemma tag_roundtrip_witness :
  let p := mkPerson (text "Jane Doe") (text "jane@example.com") 1600000000 (text "+0200") in
  let oid := replicate 40 "a"%char in
  exists raw, FormatTag oid (text "commit") (text "v1.0") (text "The release") (pName p) (pEmail p) (pDate p) (pZone p) = Ok raw /\
    parseTag (mkSource raw false) [] [] false false =
    Ok (mkTag [] (text "v1.0") (text "The release") 11 NONE (authorOf p) None,
        mkTagHeader oid (text "commit") (text "v1.0") (renderPerson p)).
Proof.
  intros p oid. destruct (tag_roundtrip oid (text "commit") (text "v1.0") (text "The release") p []) as [_ H].
  - constructor; (vm_compute; reflexivity) || (by apply (bool_decide_unpack _); vm_compute) || (vm_compute; done).
  - eexists. split; [vm_compute; reflexivity|]. apply H. vm_compute. reflexivity.
Defined.

(** ** Commits are read from their objects *)

(** A commit object: besides the headers every commit has, others with a value that
    may go on over several lines. *)
Record commitText : Type := mkCommitText {
  ctTree : list ascii;
  ctParents : list (list ascii);
  ctAuthor : person;
  ctCommitter : person;
  ctExtra : list (list ascii * list ascii * list (list ascii));
  ctMessage : list ascii;
}.

Definition headerLines (c : commitText) : list (list ascii) :=
  [text "tree" ++ SP :: ctTree c] ++ ((fun p => text "parent" ++ SP :: p) <$> ctParents c) ++
  [text "author" ++ SP :: renderPerson (ctAuthor c); text "committer" ++ SP :: renderPerson (ctCommitter c)] ++
  (ctExtra c ≫= fun h => (h.1.1 ++ SP :: h.1.2) :: (cons SP <$> h.2)).

Definition renderLines (lines : list (list ascii)) (rest : list ascii) : list ascii := foldr (fun l s => l ++ LF :: s) rest lines.

(** The commit in the format of its object. *)
Definition renderCommit (c : commitText) : list ascii := renderLines (headerLines c) (LF :: ctMessage c).

Definition signatureOf (sig : SignatureType) (h : list ascii * list ascii * list (list ascii)) : SignatureType :=
  if decide (h.1.1 = text "gpgsig") then detectSignatureType h.1.2 else sig.

Definition commitOf (oid : list ascii) (c : commitText) : GitCommit :=
  withBody (ctMessage c)
    (mkCommit oid [] [] 0 (Some (authorOf (ctAuthor c))) (Some (authorOf (ctCommitter c))) (ctParents c)
      (foldl signatureOf NONE (ctExtra c)) (ctTree c) []).

Definition ownKeys : list (list ascii) := [text "tree"; text "parent"; text "author"; text "committer"].

Definition extra_ok (h : list ascii * list ascii * list (list ascii)) : Prop :=
  h.1.1 ≠ [] /\ SP ∉ h.1.1 /\ LF ∉ h.1.1 /\ h.1.1 ∉ ownKeys /\ LF ∉ h.1.2 /\ Forall (fun l => LF ∉ l) h.2.

Record commit_ok (c : commitText) : Prop := {
  ct_tree : LF ∉ ctTree c;
  ct_parents : Forall (fun p => LF ∉ p) (ctParents c);
  ct_author : person_ok (ctAuthor c);
  ct_committer : person_ok (ctCommitter c);
  ct_extra : Forall extra_ok (ctExtra c);
}.

(** What one line does to the commit. *)
Definition headerStep (c : GitCommit) (line : list ascii) : GitCommit :=
  match line with [] => c | x :: _ => if decide (x = SP) then c else parseHeader line c end.

Lemma parseHeaders_lines failing body lines : Forall (fun l => l ≠ [] /\ LF ∉ l) lines -> forall fuel c,
  (length lines < fuel)%nat ->
  parseHeaders fuel failing (renderLines lines (LF :: body)) c = Some (Ok (foldl headerStep c lines, body)).
Proof.
  induction 1 as [|l lines [Hne Hl] _ IH]; intros [|fuel] c Hfuel; cbn [length] in Hfuel; try lia.
  - cbn [renderLines foldr parseHeaders foldl]. change (Cut LF (LF :: body)) with (Cut LF ([] ++ LF :: body)).
    by rewrite Cut_app by apply not_elem_of_nil.
  - cbn [renderLines foldr]. fold (renderLines lines (LF :: body)). cbn [parseHeaders]. rewrite Cut_app by done.
    destruct l as [|x l]; [done|]. cbn [foldl headerStep]. apply IH. lia.
Qed.

Lemma renderLines_length lines rest : (length lines + length rest <= length (renderLines lines rest))%nat.
Proof.
  induction lines as [|l lines IH]; cbn [renderLines foldr length]; [lia|]. fold (renderLines lines rest).
  rewrite length_app. cbn [length]. lia.
Qed.

Lemma key_line key value c : SP ∉ key -> key ≠ [] -> headerStep c (key ++ SP :: value) = parseHeader (key ++ SP :: value) c.
Proof.
  intros Hk Hne. destruct key as [|x key]; [done|]. cbn [headerStep app]. apply not_elem_of_cons in Hk as [Hx _].
  by rewrite decide_False by congruence.
Qed.

Lemma parents_step ps : forall c, foldl headerStep c ((fun p => text "parent" ++ SP :: p) <$> ps) =
  mkCommit (Id c) (Subject c) (Body c) (BodySize c) (Author c) (Committer c) (ParentIds c ++ ps) (CSignatureType c) (TreeId c) (Trailers c).
Proof.
  induction ps as [|p ps IH]; intros c; [rewrite app_nil_r; by destruct c|]. rewrite fmap_cons. cbn [foldl].
  rewrite key_line by (by apply (bool_decide_unpack _)). unfold parseHeader.
  rewrite Cut_app by (by apply (bool_decide_unpack _)). rewrite decide_True by done. rewrite IH. cbn. by rewrite <- app_assoc.
Qed.

Lemma continuation_step ls : forall c, foldl headerStep c (cons SP <$> ls) = c.
Proof. induction ls as [|l ls IH]; intros c; [done|]. rewrite fmap_cons. cbn [foldl headerStep]. rewrite decide_True by done. apply IH. Qed.

Lemma extra_step hs : Forall extra_ok hs -> forall c,
  foldl headerStep c (hs ≫= fun h => (h.1.1 ++ SP :: h.1.2) :: (cons SP <$> h.2)) =
  mkCommit (Id c) (Subject c) (Body c) (BodySize c) (Author c) (Committer c) (ParentIds c) (foldl signatureOf (CSignatureType c) hs)
    (TreeId c) (Trailers c).
Proof.
  induction 1 as [|[[key value] cont] hs (Hne & Hsp & _ & Hown & _) _ IH]; intros c; [by destruct c|]. cbn [fst snd] in *.
  rewrite bind_cons, foldl_app. cbn [fst snd foldl]. rewrite continuation_step, key_line by done. rewrite IH. unfold parseHeader.
  rewrite Cut_app by done. unfold ownKeys in Hown. rewrite !not_elem_of_cons in Hown. destruct Hown as (H1 & H2 & H3 & H4 & _).
  rewrite (decide_False (P := key = text "parent")), (decide_False (P := key = text "author")), (decide_False (P := key = text "committer")) by done.
  unfold signatureOf at 3. cbn [fst snd]. case_decide; [done|]. rewrite (decide_False (P := key = text "tree")) by done. done.
Qed.

Lemma headerLines_ok c : commit_ok c -> Forall (fun l => l ≠ [] /\ LF ∉ l) (headerLines c).
Proof.
  intros [Ht Hp Ha Hc He].
  assert (Hline : forall key value, key ≠ [] -> LF ∉ key -> LF ∉ value -> (key ++ SP :: value) ≠ [] /\ LF ∉ key ++ SP :: value).
  { intros key value Hne Hk Hv. split; [by destruct key|]. rewrite elem_of_app, elem_of_cons. intros [?|[?|?]]; done. }
  unfold headerLines. rewrite !Forall_app. split_and!.
  - apply Forall_singleton. by apply Hline; [|by apply (bool_decide_unpack _)|].
  - apply Forall_fmap. eapply Forall_impl; [exact Hp|]. intros p Hlp. by apply Hline; [|by apply (bool_decide_unpack _)|].
  - repeat constructor; (by destruct (renderPerson _)) || (apply Hline; [done|by apply (bool_decide_unpack _)|by apply person_no_LF]).
  - apply Forall_forall. intros l Hl. apply list_elem_of_bind in Hl as (h & Hl & Hh). rewrite Forall_forall in He.
    destruct (He h Hh) as (Hne & _ & Hk & _ & Hv & Hcont). apply elem_of_cons in Hl as [->|Hl]; [by apply Hline|].
    apply list_elem_of_fmap in Hl as (l' & -> & Hl'). rewrite Forall_forall in Hcont. split; [done|].
    apply not_elem_of_cons. split; [done|]. by apply Hcont.
Qed.

(** The commit GetCommit returns is the one the object holds: its tree, parents,
    author, committer and kind of signature, with other headers skipped, also over
    several lines, and the message cut to the size allowed. *)
Lemma ParseCommit_correct oid c : commit_ok c -> ParseCommit (mkSource (renderCommit c) false) oid = Some (Ok (commitOf oid c)).
Proof.
  intros Hc. unfold ParseCommit, renderCommit. cbn [fails contents]. rewrite parseHeaders_lines; [|by apply headerLines_ok|].
  - unfold headerLines, commitOf. rewrite !foldl_app. cbn [foldl].
    assert (Htree : forall x, headerStep x (text "tree" ++ SP :: ctTree c) =
      mkCommit (Id x) (Subject x) (Body x) (BodySize x) (Author x) (Committer x) (ParentIds x) (CSignatureType x) (ctTree c) (Trailers x)).
    { intros x. rewrite key_line by (by apply (bool_decide_unpack _)). unfold parseHeader.
      rewrite Cut_app by (by apply (bool_decide_unpack _)). by rewrite !decide_False, decide_True by done. }
    rewrite Htree, parents_step. cbn [Id Subject Body BodySize Author Committer ParentIds CSignatureType TreeId Trailers app].
    rewrite !key_line by (by apply (bool_decide_unpack _)). unfold parseHeader at 2. rewrite Cut_app by (by apply (bool_decide_unpack _)).
    rewrite decide_False, decide_True by done. unfold parseHeader. rewrite Cut_app by (by apply (bool_decide_unpack _)).
    rewrite !decide_False, decide_True by done. cbn [Id Subject Body BodySize Author Committer ParentIds CSignatureType TreeId Trailers].
    rewrite extra_step by apply Hc. rewrite !parse_person by apply Hc. done.
  - pose proof (renderLines_length (headerLines c) (LF :: ctMessage c)). lia.
Qed.

Lemma Cut_rest c s before rest : Cut c s = (before, Some rest) -> (length rest < length s)%nat.
Proof.
  revert before. induction s as [|x s IH]; intros before; cbn [Cut]; [done|]. case_decide; [intros [= <- <-]; cbn; lia|].
  destruct (Cut c s) as [b' [r|]]; [|done]. intros [= _ <-]. specialize (IH b' eq_refl). cbn. lia.
Qed.

(** The loop over the headers ends, whatever the object holds. *)
Lemma ParseCommit_total r oid : exists o, ParseCommit r oid = Some o /\ o ≠ Panic.
Proof.
  assert (Hloop : forall fuel data c, (length data < fuel)%nat ->
    exists o, parseHeaders fuel (fails r) data c = Some o /\ o ≠ Panic).
  { induction fuel as [|fuel IH]; intros data c Hlen; [lia|]. cbn [parseHeaders]. destruct (Cut LF data) as [line [rest|]] eqn:Hc.
    - destruct line; [by eexists|]. apply IH. apply Cut_rest in Hc. lia.
    - destruct (fails r); by eexists. }
  unfold ParseCommit. destruct (Hloop _ (contents r) (mkCommit oid [] [] 0 None None [] NONE [] []) (Nat.lt_succ_diag_r _)) as (o & -> & Ho).
  destruct o as [[c body]|e|]; [|by eexists|done]. destruct (fails r); by eexists.
Qed.

(** ** Tags and what they point to *)

(** Who made a tag: with a date, without one, or unknown. *)
Inductive taggerText : Type := TaggedBy (p : person) | Undated (name email : list ascii) | Untagged.

Definition taggerLine (t : taggerText) : option (list ascii) :=
  match t with
  | TaggedBy p => Some (renderPerson p)
  | Undated name email => Some (name ++ text " <" ++ email ++ text ">")
  | Untagged => None
  end.

Definition taggerOf (t : taggerText) : CommitAuthor :=
  match t with TaggedBy p => authorOf p | Undated name email => mkAuthor name email None [] | Untagged => mkAuthor [] [] None [] end.

Definition tagger_ok (t : taggerText) : Prop :=
  match t with
  | TaggedBy p => person_ok p
  | Undated name email => "<"%char ∉ name /\ ">"%char ∉ email /\ LF ∉ name /\ LF ∉ email
  | Untagged => True
  end.

Record tagText : Type := mkTagText { ttOid : list ascii; ttType : list ascii; ttName : list ascii; ttTagger : taggerText; ttMessage : list ascii }.

Definition textLines (t : tagText) : list (list ascii) := taggedLines (ttOid t) (ttType t) (ttName t) (taggerLine (ttTagger t)).

Definition renderTag (t : tagText) : list ascii := Join LF (textLines t) ++ LF :: LF :: ttMessage t.

Record tag_ok (t : tagText) : Prop := {
  text_oid : ValidateObjectID (ttOid t) = true;
  text_type : ttType t ∈ objectTypes;
  text_name : LF ∉ ttName t /\ last (ttName t) ≠ Some CR;
  text_tagger : tagger_ok (ttTagger t);
  text_short : Forall (fun l => Z.of_nat (length l) < MaxScanTokenSize) (textLines t);
}.

Lemma tagger_line_ok t v : tagger_ok t -> taggerLine t = Some v -> LF ∉ v /\ last v ≠ Some CR.
Proof.
  destruct t as [p|name email|]; intros Ht Hv; [|apply (inj Some) in Hv; subst v|done].
  { injection Hv as <-. split; [by apply person_no_LF|by apply person_no_CR]. }
  destruct Ht as (_ & _ & Hn & He). split.
  - assert (H1 : LF ∉ text " <") by (by apply (bool_decide_unpack _)). assert (H2 : LF ∉ text ">") by (by apply (bool_decide_unpack _)).
    rewrite !elem_of_app. tauto.
  - by rewrite !last_app.
Qed.

Lemma parse_tagger t : tagger_ok t -> parseCommitAuthor (default [] (taggerLine t)) = taggerOf t.
Proof.
  destruct t as [p|name email|]; intros Ht; [by apply parse_person| |done]. destruct Ht as (Hn & He & _ & _). cbn [from_option id taggerLine taggerOf].
  unfold parseCommitAuthor. replace (name ++ text " <" ++ email ++ text ">") with ((name ++ [SP]) ++ "<"%char :: (email ++ ">"%char :: []))
    by (by rewrite <- app_assoc).
  rewrite Cut_app by (rewrite elem_of_app, list_elem_of_singleton; by intros [?|?]). rewrite Cut_app by done. by rewrite TrimSuffix_app.
Qed.

Inductive GitObject : Type := OCommit (c : commitText) | OTag (t : tagText) | OOther (typ : list ascii).

Definition typeName (o : GitObject) : list ascii :=
  match o with OCommit _ => text "commit" | OTag _ => text "tag" | OOther typ => typ end.

(** A repository: objects are well formed, and the type a tag names is the one of its
    target. *)
Record repository_ok (store : list ascii -> option GitObject) : Prop := {
  store_commits oid c : store oid = Some (OCommit c) -> commit_ok c;
  store_tags oid t : store oid = Some (OTag t) -> tag_ok t /\ exists o, store (ttOid t) = Some o /\ typeName o = ttType t;
  store_others oid typ : store oid = Some (OOther typ) -> typ = text "tree" \/ typ = text "blob";
}.

(** The batch answers from the repository, as [Catfile.batch_objects_exact] shows. *)
Record serves (b : BatchOps) (store : list ascii -> option GitObject) : Prop := {
  serves_info oid o : store oid = Some o -> exists size, batchInfo b oid = Ok (mkInfo oid (typeName o) size);
  serves_commit oid c : store oid = Some (OCommit c) ->
    exists size, batchCommit b (oid ++ peelCommit) = Ok (mkInfo oid (text "commit") size, mkSource (renderCommit c) false);
  serves_tag oid t : store oid = Some (OTag t) ->
    exists size, batchTag b oid = Ok (mkInfo oid (text "tag") size, mkSource (renderTag t) false);
}.

(** Following tags from an object: so many tags, and the commit at the end if there
    is one. *)
Inductive peels (store : list ascii -> option GitObject) : list ascii -> nat -> option GitCommit -> Prop :=
| peels_commit oid c : store oid = Some (OCommit c) -> peels store oid 0 (Some (commitOf oid c))
| peels_other oid typ : store oid = Some (OOther typ) -> peels store oid 0 None
| peels_tag oid t k r : store oid = Some (OTag t) -> peels store (ttOid t) k r -> peels store oid (S k) r.

Section Peeling.
Context (b : BatchOps) (store : list ascii -> option GitObject) (Hstore : repository_ok store) (Hserves : serves b store).

Lemma GetCommit_correct oid c : store oid = Some (OCommit c) -> GetCommit b oid = Ok (commitOf oid c).
Proof using Hstore Hserves.
  intros Ho. unfold GetCommit. destruct (serves_commit _ _ Hserves oid c Ho) as [size ->]. cbn [fromBatch].
  rewrite ParseCommit_correct by (by eapply store_commits). done.
Qed.

Lemma splitRawTag_correct t trim : tag_ok t ->
  splitRawTag (mkSource (renderTag t) false) trim =
  Ok (mkTagHeader (ttOid t) (ttType t) (ttName t) (default [] (taggerLine (ttTagger t))), if trim then TrimRight isLF (ttMessage t) else ttMessage t).
Proof.
  intros [Hoid Htyp [Hln Hname] Htg Hshort]. unfold splitRawTag, renderTag. cbn [fails contents].
  pose proof (taggedLines_ok _ _ _ _ Hoid Htyp (fun v => tagger_line_ok _ v Htg) Hln Hname Hshort) as Hlines.
  fold (textLines t) in Hlines. rewrite cutBlank_lines; [|done|eapply Forall_impl; [exact Hlines|]; by intros l (? & ? & _)].
  rewrite scanLines_Join by done. unfold textLines. by rewrite parseTaggedLines.
Qed.

Lemma dereferenceLoop_correct oid k r : peels store oid k r -> forall depth,
  dereferenceLoop b depth oid = Ok (if decide (k < depth)%nat then r else None).
Proof using Hstore Hserves.
  induction 1 as [oid c Ho|oid typ Ho|oid t k r Ho Hp IH]; intros [|depth]; cbn [dereferenceLoop]; try done;
    destruct (serves_info _ _ Hserves oid _ Ho) as [size ->]; cbn [fromBatch Type_ typeName].
  - rewrite decide_False, decide_True by done. rewrite (GetCommit_correct oid c Ho). by rewrite decide_True by lia.
  - destruct (store_others _ Hstore oid typ Ho) as [->| ->]; rewrite !decide_False by done; by case_decide.
  - rewrite decide_True by done. destruct (serves_tag _ _ Hserves oid t Ho) as [size' ->]. cbn [fromBatch].
    destruct (store_tags _ Hstore oid t Ho) as [Hok _]. rewrite splitRawTag_correct by done. cbn [fromParser hOid]. rewrite IH.
    by repeat case_decide; try lia.
Qed.

(** C37. In a repository whose commits and tags are well formed (headers in the order git
    writes them, on single lines below the scanner's limit, with names and addresses
    that do not hold the brackets; a tagger may be missing or have no date), GetTag
    returns the tag its object holds, without line feeds at the end of the message or
    cut to the allowed size if so asked, and with it the commit it points
    to, also through other tags as long as there are fewer than ten of them, and no
    commit if it points to a tree or a blob or lies deeper. *)
Theorem GetTag_correct oid t k target name (trimLen trimRightNewLine : bool) :
  store oid = Some (OTag t) -> peels store (ttOid t) k target ->
  let message := if trimRightNewLine then TrimRight isLF (ttMessage t) else ttMessage t in
  GetTag b oid name trimLen trimRightNewLine =
  Ok (mkTag oid (if decide (name = []) then ttName t else name)
        (if trimLen then take MaxCommitOrTagMessageSize message else message) (Z.of_nat (length message))
        (tagSignature message) (taggerOf (ttTagger t)) (if decide (k < MaxTagReferenceDepth)%nat then target else None)).
Proof using Hstore Hserves.
  intros Ho Hp message. unfold GetTag. destruct (serves_tag _ _ Hserves oid t Ho) as [size ->]. cbn [fromBatch].
  destruct (store_tags _ Hstore oid t Ho) as [Hok (o & Ht & Htype)]. unfold buildAnnotatedTag, parseTag. rewrite splitRawTag_correct by done. fold message.
  cbn [fromParser hType hOid hTag hTagger TId TName TMessage TMessageSize TSignatureType Tagger Oid].
  rewrite parse_tagger by apply Hok.
  destruct Hp as [oid' c Hc|oid' typ Hc|oid' t' k r Hc Hp]; rewrite Ht in Hc; injection Hc as ->; cbn in Htype.
  - rewrite decide_True by done. by rewrite (GetCommit_correct oid' c Ht).
  - destruct (store_others _ Hstore oid' typ Ht) as [->| ->]; rewrite <- Htype; rewrite !(decide_False (P := _ = text _)) by done; done.
  - rewrite <- Htype. rewrite decide_False, decide_True by done. unfold dereferenceTag.
    rewrite (dereferenceLoop_correct oid' (S k) r) by (by eapply peels_tag). done.
Qed.
End Peeling.

Module TagSample.

Definition jane : person := mkPerson (text "Jane Doe") (text "jane@example.com") 1600000000 (text "+0200").
Definition tagOid : list ascii := replicate 40 "a"%char.
Definition commitOid : list ascii := replicate 40 "b"%char.
Definition release : tagText := mkTagText commitOid (text "commit") (text "v1.0") (TaggedBy jane) (text "The release" ++ [LF]).
Definition change : commitText := mkCommitText (replicate 40 "c"%char) [] jane jane [] (text "A change").

Definition store (oid : list ascii) : option GitObject :=
  if decide (oid = tagOid) then Some (OTag release) else if decide (oid = commitOid) then Some (OCommit change) else None.

Definition ops : BatchOps :=
  mkOps (fun oid => match store oid with Some o => Ok (mkInfo oid (typeName o) 0) | None => Err NotFoundError end)
    (fun revision => if decide (revision = commitOid ++ peelCommit)
                     then Ok (mkInfo commitOid (text "commit") 0, mkSource (renderCommit change) false) else Err NotFoundError)
    (fun oid => if decide (oid = tagOid) then Ok (mkInfo tagOid (text "tag") 0, mkSource (renderTag release) false) else Err NotFoundError).

Lemma jane_ok : person_ok jane.
Proof. constructor; (vm_compute; reflexivity) || (by apply (bool_decide_unpack _); vm_compute) || (vm_compute; done). Qed.

Lemma release_ok : tag_ok release.
Proof.
  constructor; [vm_compute; reflexivity|by apply (bool_decide_unpack _)|split; [by apply (bool_decide_unpack _)|done]|apply jane_ok|].
  by apply (bool_decide_unpack _); vm_compute.
Qed.

Lemma change_ok : commit_ok change.
Proof. constructor; (by apply jane_ok) || (by apply (bool_decide_unpack _)) || constructor. Qed.

Lemma sample_repository : repository_ok store.
Proof.
  constructor; unfold store; intros oid ?; repeat case_decide; intros ?; simplify_eq.
  - apply change_ok.
  - split; [apply release_ok|]. exists (OCommit change). done.
Qed.

Lemma sample_serves : serves ops store.
Proof.
  constructor; intros oid o Ho.
  - exists 0. cbn. by rewrite Ho.
  - unfold store in Ho. repeat case_decide; simplify_eq. by eexists.
  - unfold store in Ho. repeat case_decide; simplify_eq. by eexists.
Qed.

End TagSample.

Lemma GetTag_correct_witness :
  GetTag TagSample.ops TagSample.tagOid [] true true =
  Ok (mkTag TagSample.tagOid (text "v1.0") (text "The release") 11 NONE (authorOf TagSample.jane)
        (Some (commitOf TagSample.commitOid TagSample.change))).
Proof.
  exact (GetTag_correct TagSample.ops TagSample.store TagSample.sample_repository TagSample.sample_serves TagSample.tagOid
    TagSample.release 0 _ [] true true eq_refl (peels_commit TagSample.store TagSample.commitOid TagSample.change eq_refl)).
Defined.

(** ** Trailers *)

Lemma parseTrailers_bounds parts : forall trailers,
  (length trailers <= maxTrailers)%nat ->
  Forall (fun t => (0 < length (Key t) <= maxKeySize)%nat /\ (length (Value t) <= maxValueSize)%nat) trailers ->
  let ts := parseTrailers parts trailers in
  (length ts <= maxTrailers)%nat /\
  Forall (fun t => (0 < length (Key t) <= maxKeySize)%nat /\ (length (Value t) <= maxValueSize)%nat) ts.
Proof.
  induction parts as [|part parts IH]; intros trailers Hlen Hall; [done|]. cbn [parseTrailers]. case_decide; [done|].
  destruct (maxTrailers <=? length trailers)%nat eqn:Hmax; [done|]. apply Nat.leb_gt in Hmax.
  destruct (Cut ":"%char part) as [[|k key] [rest|]]; try (by apply IH).
  destruct (_ || _) eqn:Hlim; [done|]. apply orb_false_iff in Hlim as [H1%Nat.ltb_ge H2%Nat.ltb_ge]. apply IH.
  - rewrite length_app. cbn. lia.
  - apply Forall_app. split; [done|]. apply Forall_singleton. cbn [Key Value]. split; [split; [cbn; lia|done]|done].
Qed.

(** However large the input is, the parsed trailers stay within their limits. *)
Lemma trailers_bounded input :
  (length (Parse input) <= maxTrailers)%nat /\
  Forall (fun t => (0 < length (Key t) <= maxKeySize)%nat /\ (length (Value t) <= maxValueSize)%nat) (Parse input).
Proof. apply parseTrailers_bounds; [cbn; unfold maxTrailers; lia|constructor]. Qed.

Example trailers_example :
  Parse (text "Signed-off-by: Jane <jane@example.com>" ++ NUL :: text "no separator" ++ NUL :: text "Fixes:  #1 ") =
  [mkTrailer (text "Signed-off-by") (text "Jane <jane@example.com>"); mkTrailer (text "Fixes") (text "#1")].
Proof. vm_compute. done. Qed.

Example signature_example :
  tagSignature (text "release" ++ [LF] ++ text "-----BEGIN PGP SIGNATURE-----" ++ [LF] ++ text "abc") = PGP /\
  tagSignature (text "-----BEGIN PGP SIGNATURE-----" ++ [LF] ++ text "abc") = NONE.
Proof. vm_compute. done. Qed.
