(* ===== verification/Conflict.v ===== *)
(** Files with merge conflicts: src/internal/git/conflict/parser.go.

    [Parse] reads a file with conflict markers into lines that know which side of a
    conflict they belong to; [Resolve] puts the file together again with one side of
    each conflict. The SHA-1 of a path in hexadecimal is a parameter. *)

From Stdlib Require Import Strings.Ascii.
From stdpp Require Import pretty.
From S2P Require Import Prelude GoStrings Regex GitVersion Hooks Catfile GitObjects.

(** ** Parsing *)

Inductive ConflictError : Type :=
| ErrUnmergeableFile
| ErrUnexpectedDelimiter
| ErrMissingEndDelimiter
| EReader.

Inductive section : Type := sectionNone | sectionOld | sectionNew | sectionNoNewline.

#[export] Instance section_eq_dec : EqDecision section.
Proof. solve_decision. Defined.

Definition fileLimit : Z := 200 * 2 ^ 10.

Record line : Type := mkLine {
  objIndex : Z;
  oldIndex : Z;
  newIndex : Z;
  payload : list ascii;
  lsection : section;
}.

Record Entry : Type := mkEntry { Path : list ascii; Mode : Z; Contents : list ascii }.

Record File : Type := mkFile {
  path : list ascii;
  lines : list line;
  ancestor : option Entry;
  our : Entry;
  their : Entry;
}.

Definition startMarker (ours : Entry) : list ascii := text "<<<<<<< " ++ Path ours.
Definition middleMarker : list ascii := text "=======".
Definition endMarker (theirs : Entry) : list ascii := text ">>>>>>> " ++ Path theirs.
Definition backslash : ascii := ascii_of_nat 92.

(** The variables of the loop. *)
Record ParseState : Type := mkState {
  sLines : list line;
  sObj : Z;
  sOld : Z;
  sNew : Z;
  current : section;
}.

Definition inSection (sec : section) (st : ParseState) : ParseState := mkState (sLines st) (sObj st) (sOld st) (sNew st) sec.

(** One line: the body of the loop. *)
Definition parseLine (ours theirs : Entry) (l : list ascii) (st : ParseState) : out ConflictError ParseState :=
  if decide (l = startMarker ours) then
    if decide (current st ≠ sectionNone) then Err ErrUnexpectedDelimiter else Ok (inSection sectionNew st)
  else if decide (l = middleMarker) then
    if decide (current st ≠ sectionNew) then Err ErrUnexpectedDelimiter else Ok (inSection sectionOld st)
  else if decide (l = endMarker theirs) then
    if decide (current st ≠ sectionOld) then Err ErrUnexpectedDelimiter else Ok (inSection sectionNone st)
  else if decide (head l = Some backslash) then
    Ok (mkState (sLines st ++ [mkLine (sObj st) (sOld st) (sNew st) l sectionNoNewline]) (sObj st) (sOld st) (sNew st) sectionNoNewline)
  else
    Ok (mkState (sLines st ++ [mkLine (sObj st) (sOld st) (sNew st) l (current st)]) (sObj st + 1)
          (if decide (current st ≠ sectionNew) then sOld st + 1 else sOld st)
          (if decide (current st ≠ sectionOld) then sNew st + 1 else sNew st) (current st)).

(** After the last line. *)
Definition finish (f : list line -> File) (failing : bool) (bytesRead : Z) (st : ParseState) : out ConflictError File :=
  if fileLimit <=? bytesRead then Err ErrUnmergeableFile
  else if failing then Err EReader
  else if decide (current st = sectionOld \/ current st = sectionNew) then Err ErrMissingEndDelimiter
  else if bytesRead =? 0 then Err ErrUnmergeableFile
  else Ok (f (sLines st)).

(** The scanner: the pieces between line feeds, of which the last one has none after
    it. It refuses to go on once [fileLimit] bytes were read, and a line that does
    not fit its buffer. *)
Fixpoint scan (ours theirs : Entry) (f : list line -> File) (failing : bool) (pieces : list (list ascii)) (bytesRead : Z) (st : ParseState)
    : out ConflictError File :=
  match pieces with
  | [] => finish f failing bytesRead st
  | piece :: pieces =>
    let size := Z.of_nat (length piece) in
    if decide (pieces = [] /\ piece = []) then finish f failing bytesRead st
    else if (fileLimit <=? bytesRead) || (fileLimit <=? size) then Err ErrUnmergeableFile
    else
      match parseLine ours theirs piece st with
      | Ok st => scan ours theirs f failing pieces (bytesRead + size + (if decide (pieces = []) then 0 else 1)) st
      | Err e => Err e
      | Panic => Panic
      end
  end.

(** [conflict.Parse]. *)
Definition ParseConflict (src : Source) (anc : option Entry) (ours theirs : Entry) : out ConflictError File :=
  let parentPath := match anc with Some a => Path a | None => Path ours end in
  scan ours theirs (fun ls => mkFile parentPath ls anc ours theirs) (fails src) (Split LF (contents src)) 0
    (mkState [] 0 1 1 sectionNone).

(** ** Resolving *)

Record Resolution : Type := mkResolution {
  OldPath : list ascii;
  NewPath : list ascii;
  Sections : gmap (list ascii) (list ascii);
  Content : list ascii;
}.

Inductive ResolveError : Type := EMissingResolution (sectionID : list ascii).

Section Resolve.
Context (sha1hex : list ascii -> list ascii).

Definition sectionIDAt (p : list ascii) (old new : Z) : list ascii := sha1hex p ++ text "_" ++ decimalOf old ++ text "_" ++ decimalOf new.

Definition sectionID (f : File) (l : line) : list ascii := sectionIDAt (path f) (oldIndex l) (newIndex l).

Fixpoint resolveLines (f : File) (sections : gmap (list ascii) (list ascii)) (ls : list line) (id : list ascii) (resolved : list (list ascii))
    : out ResolveError (list (list ascii)) :=
  match ls with
  | [] => Ok resolved
  | l :: ls =>
    if decide (lsection l = sectionNone) then resolveLines f sections ls [] (resolved ++ [payload l])
    else
      let id := if decide (id = []) then sectionID f l else id in
      match sections !! id with
      | None => Err (EMissingResolution id)
      | Some r =>
        if decide (r = text "head") then
          resolveLines f sections ls id (if decide (lsection l ≠ sectionNew) then resolved else resolved ++ [payload l])
        else if decide (r = text "origin") then
          resolveLines f sections ls id (if decide (lsection l ≠ sectionOld) then resolved else resolved ++ [payload l])
        else Err (EMissingResolution id)
      end
  end.

Definition Resolve (f : File) (resolution : Resolution) : out ResolveError (list ascii) :=
  if decide (Sections resolution = ∅) then Ok (Content resolution)
  else
    match resolveLines f (Sections resolution) (lines f) [] [] with
    | Ok resolvedLines =>
      Ok (Join LF resolvedLines ++ (if HasSuffix (Contents (our f)) [LF] then [LF] else []))
    | Err e => Err e
    | Panic => Panic
    end.

End Resolve.

(** ** Files with conflicts and what is meant by resolving them *)

Inductive block : Type := Plain (l : list ascii) | Clash (ours theirs : list (list ascii)).

Section Files.
Context (ours theirs : Entry).

Definition blockLines (b : block) : list (list ascii) :=
  match b with
  | Plain l => [l]
  | Clash a b => startMarker ours :: a ++ middleMarker :: b ++ [endMarker theirs]
  end.

(** The file as git leaves it; its last line may lack a line feed. *)
Definition renderFile (terminated : bool) (bs : list block) : list ascii :=
  let ls := bs ≫= blockLines in if terminated then renderLines ls [] else Join LF ls.

(** A line that cannot be taken for a marker or a remark. *)
Definition ordinary (l : list ascii) : Prop :=
  LF ∉ l /\ l ≠ startMarker ours /\ l ≠ middleMarker /\ l ≠ endMarker theirs /\ head l ≠ Some backslash.

Definition block_ok (b : block) : Prop :=
  match b with Plain l => ordinary l | Clash a b => Forall ordinary a /\ Forall ordinary b /\ (a ≠ [] \/ b ≠ []) end.

(** No conflict follows on another one. *)
Fixpoint separated (bs : list block) : Prop :=
  match bs with
  | Clash _ _ :: (Clash _ _ :: _) => False
  | _ :: bs => separated bs
  | [] => True
  end.

(** *** Parsing *)

Fixpoint numbered (sec : section) (ls : list (list ascii)) (obj old new : Z) : list line :=
  match ls with
  | [] => []
  | l :: ls => mkLine obj old new l sec ::
      numbered sec ls (obj + 1) (if decide (sec ≠ sectionNew) then old + 1 else old) (if decide (sec ≠ sectionOld) then new + 1 else new)
  end.

Definition count {A} (l : list A) : Z := Z.of_nat (length l).

Fixpoint linesOf (bs : list block) (obj old new : Z) : list line :=
  match bs with
  | [] => []
  | Plain l :: bs => mkLine obj old new l sectionNone :: linesOf bs (obj + 1) (old + 1) (new + 1)
  | Clash a b :: bs =>
    numbered sectionNew a obj old new ++ numbered sectionOld b (obj + count a) old (new + count a) ++
    linesOf bs (obj + count a + count b) (old + count b) (new + count a)
  end.

Fixpoint parseAll (ls : list (list ascii)) (st : ParseState) : out ConflictError ParseState :=
  match ls with
  | [] => Ok st
  | l :: ls => match parseLine ours theirs l st with Ok st => parseAll ls st | r => r end
  end.

Lemma parseAll_app ls ls' st :
  parseAll (ls ++ ls') st = match parseAll ls st with Ok st => parseAll ls' st | r => r end.
Proof. revert st. induction ls as [|l ls IH]; intros st; [done|]. cbn [app parseAll]. by destruct (parseLine ours theirs l st). Qed.

Lemma parse_ordinary l st : ordinary l ->
  parseLine ours theirs l st = Ok (mkState (sLines st ++ [mkLine (sObj st) (sOld st) (sNew st) l (current st)]) (sObj st + 1)
          (if decide (current st ≠ sectionNew) then sOld st + 1 else sOld st)
          (if decide (current st ≠ sectionOld) then sNew st + 1 else sNew st) (current st)).
Proof. intros (_ & H1 & H2 & H3 & H4). unfold parseLine. by rewrite !(decide_False (P := l = _)), decide_False by done. Qed.

Lemma parse_ordinaries ls : Forall ordinary ls -> forall st,
  parseAll ls st = Ok (mkState (sLines st ++ numbered (current st) ls (sObj st) (sOld st) (sNew st)) (sObj st + count ls)
    (if decide (current st ≠ sectionNew) then sOld st + count ls else sOld st)
    (if decide (current st ≠ sectionOld) then sNew st + count ls else sNew st) (current st)).
Proof.
  induction 1 as [|l ls Hl _ IH]; intros st; cbn [parseAll numbered].
  - rewrite app_nil_r. unfold count. cbn. rewrite !Z.add_0_r. destruct st; cbn. by repeat case_decide.
  - rewrite parse_ordinary by done. rewrite IH. cbn [sLines sObj sOld sNew current]. rewrite <- app_assoc. cbn [app]. do 2 f_equal;
      unfold count; cbn [length]; repeat case_decide; lia.
Qed.

Lemma markers_differ : middleMarker ≠ startMarker ours /\ endMarker theirs ≠ startMarker ours /\ endMarker theirs ≠ middleMarker.
Proof. split_and!; intros Heq; by injection Heq. Qed.

Lemma parse_block b st : block_ok b -> current st = sectionNone ->
  exists st', parseAll (blockLines b) st = Ok st' /\ current st' = sectionNone /\
    match b with
    | Plain l => sLines st' = sLines st ++ [mkLine (sObj st) (sOld st) (sNew st) l sectionNone] /\
        sObj st' = sObj st + 1 /\ sOld st' = sOld st + 1 /\ sNew st' = sNew st + 1
    | Clash a c => sLines st' = sLines st ++ numbered sectionNew a (sObj st) (sOld st) (sNew st) ++
          numbered sectionOld c (sObj st + count a) (sOld st) (sNew st + count a) /\
        sObj st' = sObj st + count a + count c /\ sOld st' = sOld st + count c /\ sNew st' = sNew st + count a
    end.
Proof.
  intros Hb Hc. destruct b as [l|a c]; cbn [blockLines block_ok] in *.
  - cbn [parseAll]. rewrite parse_ordinary by done. rewrite Hc. eexists. split; [reflexivity|]. done.
  - destruct Hb as (Ha & Hc' & _). destruct markers_differ as (H1 & H2 & H3). cbn [parseAll]. unfold parseLine at 1.
    rewrite decide_True by done. rewrite decide_False by (intros H; by apply H). rewrite parseAll_app, parse_ordinaries by done.
    cbn [parseAll inSection sLines sObj sOld sNew current]. unfold parseLine at 1.
    rewrite (decide_False (P := middleMarker = startMarker ours)), (decide_True (P := middleMarker = middleMarker)) by done.
    cbn [current]. rewrite decide_False by (intros H; by apply H). rewrite parseAll_app, parse_ordinaries by done.
    cbn [parseAll inSection sLines sObj sOld sNew current]. unfold parseLine at 1.
    rewrite (decide_False (P := endMarker theirs = startMarker ours)), (decide_False (P := endMarker theirs = middleMarker)) by done.
    rewrite (decide_True (P := endMarker theirs = endMarker theirs)) by done. cbn [current]. rewrite decide_False by (intros H; by apply H).
    eexists. split; [reflexivity|]. cbn [inSection sLines sObj sOld sNew current]. rewrite <- app_assoc. split_and!; done.
Qed.

Lemma parse_blocks bs : Forall block_ok bs -> forall st, current st = sectionNone ->
  exists st', parseAll (bs ≫= blockLines) st = Ok st' /\ current st' = sectionNone /\
    sLines st' = sLines st ++ linesOf bs (sObj st) (sOld st) (sNew st).
Proof.
  induction 1 as [|b bs Hb _ IH]; intros st Hc; [exists st; by rewrite app_nil_r|]. rewrite bind_cons, parseAll_app.
  destruct (parse_block b st Hb Hc) as (st1 & -> & Hc1 & Hst). destruct (IH st1 Hc1) as (st2 & -> & Hc2 & Hl2).
  exists st2. split_and!; [done|done|]. rewrite Hl2. destruct b as [l|a c]; destruct Hst as (-> & -> & -> & ->); cbn [linesOf];
    rewrite <- !app_assoc; done.
Qed.
End Files.

Lemma Split_renderLines ls l : Forall (fun l => LF ∉ l) ls -> LF ∉ l -> Split LF (renderLines ls l) = ls ++ [l].
Proof.
  intros Hls Hl. induction Hls as [|x ls Hx _ IH]; [by apply Split_plain|]. cbn [renderLines foldr]. fold (renderLines ls l).
  by rewrite Split_app, IH.
Qed.

Lemma Join_renderLines ls l : Join LF (ls ++ [l]) = renderLines ls l.
Proof.
  induction ls as [|x ls IH]; [done|]. cbn [renderLines foldr app]. fold (renderLines ls l). rewrite <- IH. by destruct ls.
Qed.

(** The lines of a file, given as those with a line feed and what follows them. *)
Definition allLines (ls : list (list ascii)) (l : list ascii) : list (list ascii) := if decide (l = []) then ls else ls ++ [l].

(** The scanner parses all lines, unless the file reaches the limit. *)
Lemma scan_lines ours theirs f failing l ls : forall bytesRead st, 0 <= bytesRead ->
  let total := bytesRead + count (renderLines ls l) in
  (total < fileLimit -> scan ours theirs f failing (ls ++ [l]) bytesRead st =
    match parseAll ours theirs (allLines ls l) st with Ok st => finish f failing total st | Err e => Err e | Panic => Panic end) /\
  (fileLimit <= total -> (exists st', parseAll ours theirs (allLines ls l) st = Ok st') ->
    scan ours theirs f failing (ls ++ [l]) bytesRead st = Err ErrUnmergeableFile).
Proof.
  induction ls as [|x ls IH]; intros bytesRead st H0; cbn zeta.
  - cbn [app scan renderLines foldr]. unfold allLines, count. destruct (decide (l = [])) as [->|Hl].
    + rewrite decide_True by done. cbn [parseAll length]. rewrite Z.add_0_r. split; [done|]. intros Hlim _. unfold finish.
      by rewrite (proj2 (Z.leb_le _ _) Hlim).
    + rewrite decide_False by (by intros [_ ?]). cbn [app parseAll]. rewrite (decide_True (P := [] = [])), Z.add_0_r by done. split.
      * intros Hlt. rewrite (proj2 (Z.leb_gt fileLimit bytesRead)), (proj2 (Z.leb_gt fileLimit (Z.of_nat (length l)))) by lia. cbn [orb].
        by destruct (parseLine ours theirs l st).
      * intros Hlim [st' Hst]. destruct (_ || _); [done|]. destruct (parseLine ours theirs l st) as [st1|e|]; [|done..]. unfold finish.
        by rewrite (proj2 (Z.leb_le _ _) Hlim).
  - assert (Hsize : count (renderLines (x :: ls) l) = count x + 1 + count (renderLines ls l)).
    { unfold count. cbn [renderLines foldr]. fold (renderLines ls l). rewrite length_app. cbn [length]. lia. }
    assert (Hall : allLines (x :: ls) l = x :: allLines ls l) by (unfold allLines; by case_decide).
    rewrite Hsize, Hall. cbn [app scan parseAll]. rewrite decide_False by (intros [H _]; by destruct ls).
    rewrite (decide_False (P := ls ++ [l] = [])) by (by destruct ls). unfold count in *. split.
    + intros Hlt. rewrite (proj2 (Z.leb_gt fileLimit bytesRead)), (proj2 (Z.leb_gt fileLimit (Z.of_nat (length x)))) by lia. cbn [orb].
      destruct (parseLine ours theirs x st) as [st'|e|]; [|done|done]. destruct (IH (bytesRead + Z.of_nat (length x) + 1) st' ltac:(lia)) as [IH1 _].
      rewrite IH1 by lia. destruct (parseAll ours theirs (allLines ls l) st'); [|done..]. f_equal. lia.
    + intros Hlim [st' Hst]. destruct (_ || _); [done|]. destruct (parseLine ours theirs x st) as [st1|e|]; [|done..].
      destruct (IH (bytesRead + Z.of_nat (length x) + 1) st1 ltac:(lia)) as [_ IH2]. apply IH2; [lia|by exists st'].
Qed.

(** *** Resolving *)

Section Resolved.
Context (sha1hex : list ascii -> list ascii).

(** The side of a conflict that a choice stands for. *)
Definition side (choice : list ascii) (a b : list (list ascii)) : option (list (list ascii)) :=
  if decide (choice = text "head") then Some a else if decide (choice = text "origin") then Some b else None.

(** Every conflict is replaced by the side chosen for it; it is known by the numbers
    of the lines on either side at which it starts. *)
Fixpoint resolvedBlocks (p : list ascii) (sections : gmap (list ascii) (list ascii)) (bs : list block) (old new : Z)
    : out ResolveError (list (list ascii)) :=
  match bs with
  | [] => Ok []
  | Plain l :: bs =>
    match resolvedBlocks p sections bs (old + 1) (new + 1) with Ok ls => Ok (l :: ls) | r => r end
  | Clash a b :: bs =>
    match sections !! sectionIDAt sha1hex p old new ≫= (fun choice => side choice a b) with
    | None => Err (EMissingResolution (sectionIDAt sha1hex p old new))
    | Some ls =>
      match resolvedBlocks p sections bs (old + count b) (new + count a) with Ok ls' => Ok (ls ++ ls') | r => r end
    end
  end.

Lemma sectionID_nonempty p old new : sectionIDAt sha1hex p old new ≠ [].
Proof. unfold sectionIDAt. intros Heq. apply app_eq_nil in Heq as [_ Heq]. done. Qed.

Lemma first_line f sections l ls resolved : lsection l ≠ sectionNone ->
  resolveLines sha1hex f sections (l :: ls) [] resolved = resolveLines sha1hex f sections (l :: ls) (sectionID sha1hex f l) resolved.
Proof.
  intros Hs. cbn [resolveLines]. rewrite !(decide_False (P := lsection l = sectionNone)) by done.
  rewrite (decide_True (P := [] = [])) by done. rewrite (decide_False (P := sectionID sha1hex f l = [])) by apply sectionID_nonempty. done.
Qed.

Lemma resolve_numbered f sections id choice sec ls : id ≠ [] -> sections !! id = Some choice -> sec = sectionNew \/ sec = sectionOld ->
  choice = text "head" \/ choice = text "origin" ->
  forall obj old new rest resolved,
  resolveLines sha1hex f sections (numbered sec ls obj old new ++ rest) id resolved =
  resolveLines sha1hex f sections rest id
    (resolved ++ if decide (choice = text "head" /\ sec = sectionNew \/ choice = text "origin" /\ sec = sectionOld) then ls else []).
Proof.
  intros Hid Hs Hsec Hch. induction ls as [|l ls IH]; intros obj old new rest resolved; cbn [numbered app].
  { case_decide; by rewrite app_nil_r. }
  cbn [resolveLines lsection payload]. rewrite (decide_False (P := sec = sectionNone)) by (destruct Hsec; congruence).
  rewrite (decide_False (P := id = [])) by done. rewrite Hs. destruct Hch as [->| ->].
  - rewrite (decide_True (P := text "head" = text "head")) by done. rewrite IH. destruct Hsec as [->| ->].
    + rewrite decide_False by (intros H; by apply H). rewrite !decide_True by (by left). by rewrite <- app_assoc.
    + rewrite decide_True by done. rewrite !decide_False by (intros [[_ ?]|[? _]]; done). by rewrite app_nil_r.
  - rewrite (decide_False (P := text "origin" = text "head")) by done. rewrite (decide_True (P := text "origin" = text "origin")) by done.
    rewrite IH. destruct Hsec as [->| ->].
    + rewrite decide_True by done. rewrite !decide_False by (intros [[? _]|[_ ?]]; done). by rewrite app_nil_r.
    + rewrite decide_False by (intros H; by apply H). rewrite !decide_True by (by right). by rewrite <- app_assoc.
Qed.

(** A line outside of the conflicts, or the end, begins a new section. *)
Lemma section_ends f sections bs obj old new id resolved : separated (Clash [] [] :: bs) ->
  resolveLines sha1hex f sections (linesOf bs obj old new) id resolved = resolveLines sha1hex f sections (linesOf bs obj old new) [] resolved.
Proof. destruct bs as [|[l|a b] bs]; [done| |done]. intros _. cbn [linesOf resolveLines lsection]. by rewrite !decide_True by done. Qed.

Lemma resolve_blocks ours theirs f sections bs : Forall (block_ok ours theirs) bs -> separated bs -> forall obj old new resolved,
  resolveLines sha1hex f sections (linesOf bs obj old new) [] resolved =
  match resolvedBlocks (path f) sections bs old new with Ok ls => Ok (resolved ++ ls) | r => r end.
Proof.
  induction 1 as [|b bs Hb _ IH]; intros Hsep obj old new resolved; [cbn; by rewrite app_nil_r|].
  assert (Hsep' : separated bs) by (destruct b as [|? ?]; [done|]; cbn in Hsep; destruct bs as [|[]]; done).
  destruct b as [l|a b]; cbn [linesOf resolvedBlocks].
  - cbn [resolveLines lsection payload]. rewrite decide_True by done. rewrite IH by done.
    destruct (resolvedBlocks _ _ _ _ _); [by rewrite <- app_assoc|done..].
  - set (id := sectionIDAt sha1hex (path f) old new). set (rest := linesOf bs _ _ _).
    assert (Hhd : exists l ls, numbered sectionNew a obj old new ++ numbered sectionOld b (obj + count a) old (new + count a) ++ rest = l :: ls /\
      lsection l ≠ sectionNone /\ sectionID sha1hex f l = id).
    { destruct a as [|l a]; cbn [numbered app]; [|by eexists _, _]. unfold count. cbn [length]. rewrite !Z.add_0_r.
      destruct b as [|l b]; [by destruct Hb as (_ & _ & [?|?])|]. cbn [numbered app]. by eexists _, _. }
    destruct Hhd as (l & ls & Heq & Hne & Hid). rewrite Heq, first_line, Hid, <- Heq by done. clear Heq Hne Hid l ls.
    assert (Hstuck : forall r, sections !! id = r -> match r with Some choice => side choice a b = None | None => True end ->
      resolveLines sha1hex f sections (numbered sectionNew a obj old new ++ numbered sectionOld b (obj + count a) old (new + count a) ++ rest) id resolved =
      Err (EMissingResolution id)).
    { intros r Hr Hside. assert (Hne : id ≠ []) by apply sectionID_nonempty.
      assert (Hl : forall sec l x y z rest, sec ≠ sectionNone ->
        resolveLines sha1hex f sections (mkLine x y z l sec :: rest) id resolved = Err (EMissingResolution id)).
      { intros sec l x y z rest' Hs. cbn [resolveLines lsection]. rewrite (decide_False (P := sec = sectionNone)), (decide_False (P := id = [])) by done.
        rewrite Hr. destruct r as [choice|]; [|done]. unfold side in Hside. by repeat case_decide. }
      destruct a as [|l a]; cbn [numbered app]; [|by apply Hl]. destruct b as [|l b]; [by destruct Hb as (_ & _ & [?|?])|]. by apply Hl. }
    destruct (sections !! id) as [choice|] eqn:Hch; cbn [mbind option_bind]; [|by apply (Hstuck None)].
    destruct (side choice a b) as [ls|] eqn:Hside; [|by apply (Hstuck (Some choice))]. clear Hstuck.
    assert (Hc : choice = text "head" /\ ls = a \/ choice = text "origin" /\ ls = b)
      by (unfold side in Hside; repeat case_decide; simplify_eq; auto).
    assert (Hcc : choice = text "head" \/ choice = text "origin") by (destruct Hc as [[? _]|[? _]]; auto).
    pose proof (sectionID_nonempty (path f) old new : id ≠ []) as Hne.
    rewrite (resolve_numbered f sections id choice sectionNew a Hne Hch (or_introl eq_refl) Hcc).
    rewrite (resolve_numbered f sections id choice sectionOld b Hne Hch (or_intror eq_refl) Hcc).
    subst rest. rewrite section_ends by (destruct bs as [|[]]; done). rewrite IH by done.
    destruct (resolvedBlocks (path f) sections bs (old + count b) (new + count a)); [|done..]. f_equal. rewrite <- !app_assoc. f_equal.
    destruct Hc as [[-> ->]|[-> ->]]; repeat case_decide; try naive_solver; by rewrite ?app_nil_r.
Qed.
End Resolved.

(** Sections that start at different lines have different names. *)
Lemma sectionIDs_distinct sha1hex p old new old' new' :
  0 <= old -> 0 <= new -> 0 <= old' -> 0 <= new' ->
  sectionIDAt sha1hex p old new = sectionIDAt sha1hex p old' new' -> old = old' /\ new = new'.
Proof.
  intros H1 H2 H3 H4 Heq. unfold sectionIDAt in Heq. apply app_inv_head in Heq. cbn [app] in Heq.
  destruct (decimalOf_digits old H1) as (_ & Hd & Hn), (decimalOf_digits old' H3) as (_ & Hd' & Hn').
  destruct (decimalOf_digits new H2) as (_ & _ & Hm), (decimalOf_digits new' H4) as (_ & _ & Hm').
  change ("_"%char :: decimalOf old ++ "_"%char :: decimalOf new = "_"%char :: decimalOf old' ++ "_"%char :: decimalOf new') in Heq.
  injection Heq as Heq. apply (f_equal (Cut "_"%char)) in Heq. rewrite !Cut_app in Heq by (by apply digits_no).
  injection Heq as Ho Hw. split; congruence.
Qed.

Lemma blockLines_no_LF ours theirs bs : LF ∉ Path ours -> LF ∉ Path theirs -> Forall (block_ok ours theirs) bs ->
  Forall (fun l => LF ∉ l) (bs ≫= blockLines ours theirs).
Proof.
  intros Ho Ht Hbs. assert (Hord : forall ls, Forall (ordinary ours theirs) ls -> Forall (fun l => LF ∉ l) ls)
    by (intros ls Hls; eapply Forall_impl; [exact Hls|]; by intros l (? & _)).
  assert (Hs : LF ∉ startMarker ours).
  { unfold startMarker. rewrite elem_of_app. intros [Hin|?]; [|done]. revert Hin. by apply (bool_decide_unpack _). }
  assert (He : LF ∉ endMarker theirs).
  { unfold endMarker. rewrite elem_of_app. intros [Hin|?]; [|done]. revert Hin. by apply (bool_decide_unpack _). }
  assert (Hm : LF ∉ middleMarker) by (by apply (bool_decide_unpack _)).
  apply Forall_forall. intros l Hl. apply list_elem_of_bind in Hl as (b & Hl & Hb). rewrite Forall_forall in Hbs. specialize (Hbs b Hb).
  destruct b as [l'|a b]; cbn [blockLines block_ok] in *.
  - apply list_elem_of_singleton in Hl as ->. by destruct Hbs.
  - destruct Hbs as (Ha & Hb' & _). pose proof (Hord a Ha) as Ha'. pose proof (Hord b Hb') as Hb''. rewrite Forall_forall in Ha', Hb''.
    rewrite elem_of_cons, elem_of_app, elem_of_cons, elem_of_app, list_elem_of_singleton in Hl.
    destruct Hl as [->|[?|[->|[?| ->]]]]; auto.
Qed.

(** The pieces of a file between line feeds. *)
Lemma file_pieces ours theirs terminated bs :
  Forall (block_ok ours theirs) bs -> bs ≠ [] -> LF ∉ Path ours -> LF ∉ Path theirs ->
  (terminated = false -> last (bs ≫= blockLines ours theirs) ≠ Some []) ->
  let file := renderFile ours theirs terminated bs in
  exists ls l, file = renderLines ls l /\ Split LF file = ls ++ [l] /\ allLines ls l = bs ≫= blockLines ours theirs /\ 0 < count file.
Proof.
  intros Hbs Hne Ho Ht Hterm file. pose proof (blockLines_no_LF ours theirs bs Ho Ht Hbs) as Hno.
  assert (Hlines : bs ≫= blockLines ours theirs ≠ []) by (destruct bs as [|[]]; done). unfold file, renderFile.
  destruct terminated.
  - exists (bs ≫= blockLines ours theirs), []. split_and!; [done|by apply Split_renderLines; [|apply not_elem_of_nil]|done|].
    pose proof (renderLines_length (bs ≫= blockLines ours theirs) []) as Hlen. unfold count. destruct (bs ≫= blockLines ours theirs); cbn [length] in *; [done|lia].
  - specialize (Hterm eq_refl). destruct (last (bs ≫= blockLines ours theirs)) as [l|] eqn:Hlast; [|by apply last_None in Hlast].
    assert (Hl : l ≠ []) by congruence. apply last_Some in Hlast as [ls Heq]. rewrite Heq in *. apply Forall_app in Hno as [Hls Hl']. apply Forall_cons in Hl' as [Hl' _].
    exists ls, l. rewrite Join_renderLines. split_and!; [done|by apply Split_renderLines|unfold allLines; by rewrite decide_False|].
    pose proof (renderLines_length ls l) as Hlen. unfold count. destruct l; [done|cbn [length] in *; lia].
Qed.

(** C38. A file with at least one block, in which no two conflicts are adjacent, whose
    lines are not markers and do not start with a backslash, and whose last line may lack
    a line feed (paths without line feeds): from 200 KB on it is refused. Otherwise it is
    parsed, and a resolution without sections gives the content the resolution brings,
    while one with sections gives the lines outside of the conflicts and, of every
    conflict, the side chosen for its section, with a line feed at the end if our version
    of the file has one; if a section has no choice, the error names it. *)
Theorem conflicts_resolved sha1hex anc ours theirs terminated bs oldPath newPath sections content :
  Forall (block_ok ours theirs) bs -> separated bs -> bs ≠ [] -> LF ∉ Path ours -> LF ∉ Path theirs ->
  (terminated = false -> last (bs ≫= blockLines ours theirs) ≠ Some []) ->
  let file := renderFile ours theirs terminated bs in
  (fileLimit <= count file -> ParseConflict (mkSource file false) anc ours theirs = Err ErrUnmergeableFile) /\
  (count file < fileLimit ->
    exists f, ParseConflict (mkSource file false) anc ours theirs = Ok f /\
    Resolve sha1hex f (mkResolution oldPath newPath sections content) =
    if decide (sections = ∅) then Ok content
    else match resolvedBlocks sha1hex (match anc with Some a => Path a | None => Path ours end) sections bs 1 1 with
      | Ok ls => Ok (Join LF ls ++ (if HasSuffix (Contents ours) [LF] then [LF] else []))
      | Err e => Err e
      | Panic => Panic
      end).
Proof.
  intros Hbs Hsep Hne Ho Ht Hterm file. unfold ParseConflict. cbn [fails contents].
  set (p := match anc with Some a => Path a | None => Path ours end).
  destruct (file_pieces ours theirs terminated bs Hbs Hne Ho Ht Hterm) as (ls & l & Hfile & Hsplit & Hlines & Hpos). fold file in Hfile, Hsplit, Hpos.
  rewrite Hsplit. destruct (parse_blocks ours theirs bs Hbs (mkState [] 0 1 1 sectionNone) eq_refl) as (st & Hparse & Hc & Hl). cbn [sLines sObj sOld sNew app] in Hl.
  destruct (scan_lines ours theirs (fun ls => mkFile p ls anc ours theirs) false l ls 0 (mkState [] 0 1 1 sectionNone) ltac:(lia)) as [Hscan Hbig].
  rewrite <- Hfile, Hlines, Hparse, Z.add_0_l in Hscan, Hbig. split; [intros Hlim; apply Hbig; [done|by exists st]|]. intros Hsize. rewrite Hscan by done.
  unfold finish. rewrite (proj2 (Z.leb_gt _ _)) by lia. rewrite Hc, decide_False by (by intros [?|?]).
  rewrite (proj2 (Z.eqb_neq _ _)) by lia. eexists. split; [reflexivity|]. unfold Resolve. cbn [Sections Content lines our].
  case_decide; [done|]. rewrite Hl. rewrite (resolve_blocks sha1hex ours theirs) by done. cbn [path].
  by destruct (resolvedBlocks sha1hex p sections bs 1 1).
Qed.

Module ConflictSample.
Definition file : Entry := mkEntry (text "a.tex") 0 (text "x" ++ [LF]).
Definition hash (_ : list ascii) : list ascii := text "abc".
Definition choose (old new : Z) (choice : list ascii) : gmap (list ascii) (list ascii) := {[ sectionIDAt hash [] old new := choice ]}.
Definition blocks : list block := [Plain (text "first"); Clash [text "ours"] [text "theirs"]; Plain (text "last")].

(** A line that starts with a backslash is taken for a remark on a missing newline: it
    and all lines after it belong to no side, and are dropped without an error. *)
Lemma backslash_lines_lost :
  let bs := [Clash [text "ours"] [text "theirs"]; Plain (backslash :: text "end"); Plain (text "last")] in
  match ParseConflict (mkSource (renderFile file file true bs) false) None file file with
  | Ok f => Resolve hash f (mkResolution [] [] (choose 1 1 (text "head")) []) = Ok (text "ours" ++ [LF])
  | _ => False
  end.
Proof. vm_compute. done. Qed.

(** Such a line before a conflict makes the file unusable. *)
Lemma backslash_before_conflict :
  ParseConflict (mkSource (renderFile file file true [Plain (backslash :: text "begin"); Clash [text "ours"] [text "theirs"]]) false) None file file =
  Err ErrUnexpectedDelimiter.
Proof. vm_compute. done. Qed.
End ConflictSample.

Lemma conflicts_resolved_witness :
  exists f, ParseConflict (mkSource (renderFile ConflictSample.file ConflictSample.file false ConflictSample.blocks) false) None
      ConflictSample.file ConflictSample.file = Ok f /\
    Resolve ConflictSample.hash f (mkResolution [] [] (ConflictSample.choose 2 2 (text "origin")) []) =
    Ok (text "first" ++ [LF] ++ text "theirs" ++ [LF] ++ text "last" ++ [LF]).
Proof.
  destruct (conflicts_resolved ConflictSample.hash None ConflictSample.file ConflictSample.file false ConflictSample.blocks [] []
    (ConflictSample.choose 2 2 (text "origin")) []) as [_ Hsmall].
  - repeat constructor; by apply (bool_decide_unpack _).
  - done.
  - done.
  - by apply (bool_decide_unpack _).
  - by apply (bool_decide_unpack _).
  - intros _. vm_compute. done.
  - destruct Hsmall as (f & Hp & Hr); [vm_compute; done|]. exists f. split; [exact Hp|]. rewrite Hr. vm_compute. done.
Defined.
