(* ===== verification/Backup.v ===== *)
(** Backups of repositories: src/internal/backup.

    A sink stores files, on a file system or in object storage; a locator decides
    under which paths the parts of a backup are stored and which backup is the latest;
    the manager creates and restores backups with the RPCs of a Gitaly server. What
    happens to a call (it succeeds, is refused, or fails in the middle of its data) is
    given by an environment, the RPCs are parameters with the laws that make bundles
    and archives of hooks useful. *)

From Stdlib Require Import Strings.Ascii.
From S2P Require Import Prelude GoStrings Regex GitVersion Hooks Catfile GitObjects.

(** ** Paths *)

(** [filepath.Join] of several elements. *)
Fixpoint JoinElems (elems : list (list ascii)) : list ascii :=
  match elems with
  | [] => []
  | e :: es => if decide (e = []) then JoinElems es else Clean (Join slash elems)
  end.

(** [filepath.Dir] and [filepath.Base]. *)
Definition Dir (path : list ascii) : list ascii :=
  match Cut slash (reverse path) with
  | (_, None) => Clean []
  | (_, Some dir) => Clean (reverse dir ++ [slash])
  end.

Definition Base (path : list ascii) : list ascii :=
  if decide (path = []) then dot
  else
    let path := reverse (dropWhile (fun c => bool_decide (c = slash)) (reverse path)) in
    if decide (path = []) then [slash] else reverse (Cut slash (reverse path)).1.

(** ** Sinks *)

Inductive BackupError : Type :=
| ErrSkipped
| ErrDoesntExist
| ERpc
| ESink
| EUnknownLocator (name : list ascii).

(** What happens to a call. [Torn]: it fails after so many bytes. *)
Inductive Fate : Type := Fine | Refused | Torn (k : nat).

Abbreviation Files := (gmap (list ascii) (list ascii)).

Class Sink : Type := {
  Write : Fate -> list ascii -> list ascii -> M Files BackupError unit;
  GetReader : Fate -> list ascii -> M Files BackupError (list ascii);
}.

(** [FilesystemSink.Write]: the file is truncated first, and removed if nothing was
    written. *)
Definition fsWrite (root : list ascii) (fate : Fate) (relativePath data : list ascii) : M Files BackupError unit := fun files =>
  let path := JoinPath root relativePath in
  match fate with
  | Refused => (Err ESink, files)
  | Torn k => (Err ESink, <[path := take k data]> files)
  | Fine => (Ok tt, if decide (data = []) then delete path files else <[path := data]> files)
  end.

Definition fsGetReader (root : list ascii) (fate : Fate) (relativePath : list ascii) : M Files BackupError (list ascii) := fun files =>
  match fate with
  | Fine => match files !! JoinPath root relativePath with Some data => (Ok data, files) | None => (Err ErrDoesntExist, files) end
  | _ => (Err ESink, files)
  end.

Definition FilesystemSink (root : list ascii) : Sink := {| Write := fsWrite root; GetReader := fsGetReader root |}.

(** [StorageServiceSink.Write]: also an empty stream makes an object. *)
Definition storageWrite (fate : Fate) (relativePath data : list ascii) : M Files BackupError unit := fun files =>
  match fate with
  | Refused => (Err ESink, files)
  | Torn k => (Err ESink, <[relativePath := take k data]> files)
  | Fine => (Ok tt, <[relativePath := data]> files)
  end.

Definition storageGetReader (fate : Fate) (relativePath : list ascii) : M Files BackupError (list ascii) := fun files =>
  match fate with
  | Fine => match files !! relativePath with Some data => (Ok data, files) | None => (Err ErrDoesntExist, files) end
  | _ => (Err ESink, files)
  end.

Definition StorageServiceSink : Sink := {| Write := storageWrite; GetReader := storageGetReader |}.

(** ** Locators *)

Record Full : Type := mkFull { BundlePath : list ascii; RefPath : list ascii; CustomHooksPath : list ascii }.

(** [fallback]: the legacy locator is asked if there is no pointer. *)
Inductive Locator : Type := LegacyLocator | PointerLocator (fallback : bool).

Definition backupPathOf (relativePath : list ascii) : list ascii := TrimSuffix relativePath (text ".git").

Definition newFull (relativePath : list ascii) : Full :=
  let backupPath := backupPathOf relativePath in
  mkFull (backupPath ++ text ".bundle") (backupPath ++ text ".refs") (JoinElems [backupPath; text "custom_hooks.tar"]).

Definition pointerFull (backupPath backupID : list ascii) : Full :=
  mkFull (JoinElems [backupPath; backupID; text "full.bundle"]) (JoinElems [backupPath; backupID; text "full.refs"])
    (JoinElems [backupPath; backupID; text "custom_hooks.tar"]).

Definition BeginFull (l : Locator) (relativePath backupID : list ascii) : Full :=
  match l with
  | LegacyLocator => newFull relativePath
  | PointerLocator _ => pointerFull (backupPathOf relativePath) backupID
  end.

Section Locators.
Context `{!Sink}.

Definition commitLatestID (fate : Fate) (backupPath backupID : list ascii) : M Files BackupError unit :=
  Write fate (JoinElems [backupPath; text "LATEST"]) backupID.

Definition CommitFull (l : Locator) (fate : Fate) (full : Full) : M Files BackupError unit :=
  match l with
  | LegacyLocator => mret tt
  | PointerLocator _ =>
    let bundleDir := Dir (BundlePath full) in
    commitLatestID fate (Dir bundleDir) (Base bundleDir)
  end.

Definition findLatestID (fate : Fate) (backupPath : list ascii) : M Files BackupError (list ascii) :=
  latest ← GetReader fate (JoinElems [backupPath; text "LATEST"]);
  mret (TrimSuffix latest [LF]).

Definition FindLatestFull (l : Locator) (fate : Fate) (relativePath : list ascii) : M Files BackupError Full :=
  match l with
  | LegacyLocator => mret (newFull relativePath)
  | PointerLocator fallback => fun files =>
    match findLatestID fate (backupPathOf relativePath) files with
    | (Ok latest, files) => (Ok (pointerFull (backupPathOf relativePath) latest), files)
    | (Err ErrDoesntExist, files) =>
      if fallback then (Ok (newFull relativePath), files) else (Err ErrDoesntExist, files)
    | (Err e, files) => (Err e, files)
    | (Panic, files) => (Panic, files)
    end
  end.

Definition ResolveLocator (locator : list ascii) : out BackupError Locator :=
  if decide (locator = text "legacy") then Ok LegacyLocator
  else if decide (locator = text "pointer") then Ok (PointerLocator true)
  else Err (EUnknownLocator locator).
End Locators.

(** ** The manager *)

(** The RPCs of a server, on a repository of type [R]. *)
Class Server (R : Type) : Type := {
  hasLocalBranches : R -> bool;
  refsOf : R -> list (list ascii * list ascii);
  bundleOf : R -> list (list ascii) -> list ascii;
  hooksOf : R -> list ascii;
  fromBundle : list ascii -> R;
  withHooks : list ascii -> R -> R;
  emptyRepository : R;
}.

Record World (R : Type) : Type := mkWorld { files : Files; repos : gmap (list ascii) R }.
Arguments mkWorld {R}.
Arguments files {R}.
Arguments repos {R}.

Record Manager : Type := mkManager { locator : Locator; backupID : list ascii }.

(** The calls of a run, to which the environment gives a fate. *)
Inductive Step : Type :=
| SIsEmpty | SListRefs | SWriteRefs | SBundle | SWriteBundle | SHooks | SWriteHooks | SCommit
| SRemove | SFindLatest | SReadBundle | SFromBundle | SCreate | SReadHooks | SRestoreHooks.

Section Manager.
Context {R : Type} `{!Server R} {sink : Sink} (env : Step -> Fate).
Abbreviation BM := (M (World R) BackupError).

Definition onFiles {A} (m : M Files BackupError A) : BM A := fun w =>
  let (r, fs) := m (files w) in (r, mkWorld fs (repos w)).

(** A call to the server, after dialling it. *)
Definition rpc {A} (s : Step) (f : gmap (list ascii) R -> out BackupError (A * gmap (list ascii) R)) : BM A := fun w =>
  match env s with
  | Fine =>
    match f (repos w) with
    | Ok (a, rs) => (Ok a, mkWorld (files w) rs)
    | Err e => (Err e, w)
    | Panic => (Panic, w)
    end
  | _ => (Err ERpc, w)
  end.

(** A call that reads a repository. *)
Definition query {A} (s : Step) (relativePath : list ascii) (f : R -> A) : BM A :=
  rpc s (fun rs => match rs !! relativePath with Some r => Ok (f r, rs) | None => Err ERpc end).

Definition isEmpty (relativePath : list ascii) : BM bool :=
  rpc SIsEmpty (fun rs => Ok (match rs !! relativePath with Some r => negb (hasLocalBranches r) | None => true end, rs)).

Definition listRefs (relativePath : list ascii) : BM (list (list ascii * list ascii)) := query SListRefs relativePath refsOf.

(** Name and target of a reference. *)
Definition refLine (ref : list ascii * list ascii) : list ascii := ref.2 ++ [SP] ++ ref.1 ++ [LF].

Definition writeRefs (path : list ascii) (refs : list (list ascii * list ascii)) : BM unit :=
  onFiles (Write (env SWriteRefs) path (concat (map refLine refs))).

Definition generatePatterns (refs : list (list ascii * list ascii)) : list (list ascii) := map fst refs.

Definition writeBundle (path relativePath : list ascii) (patterns : list (list ascii)) : BM unit :=
  bundle ← query SBundle relativePath (fun r => bundleOf r patterns);
  onFiles (Write (env SWriteBundle) path bundle).

Definition writeCustomHooks (path relativePath : list ascii) : BM unit :=
  hooks ← query SHooks relativePath hooksOf;
  onFiles (Write (env SWriteHooks) path hooks).

Definition Create (mgr : Manager) (relativePath : list ascii) : BM unit :=
  empty ← isEmpty relativePath;
  if (empty : bool) then fail ErrSkipped else
  let full := BeginFull (locator mgr) relativePath (backupID mgr) in
  refs ← listRefs relativePath;
  _ ← writeRefs (RefPath full) refs;
  _ ← writeBundle (BundlePath full) relativePath (generatePatterns refs);
  _ ← writeCustomHooks (CustomHooksPath full) relativePath;
  onFiles (CommitFull (locator mgr) (env SCommit) full).

Definition removeRepository (relativePath : list ascii) : BM unit := rpc SRemove (fun rs => Ok (tt, delete relativePath rs)).

Definition createRepository (relativePath : list ascii) : BM unit := rpc SCreate (fun rs => Ok (tt, <[relativePath := emptyRepository]> rs)).

(** The data is sent in messages, of which the first one names the repository: the
    server refuses a stream without one. *)
Definition restoreBundle (path relativePath : list ascii) : BM unit :=
  bundle ← onFiles (GetReader (env SReadBundle) path);
  rpc SFromBundle (fun rs => if decide (bundle = []) then Err ERpc else Ok (tt, <[relativePath := fromBundle bundle]> rs)).

Definition restoreCustomHooks (path relativePath : list ascii) : BM unit := fun w =>
  match onFiles (GetReader (env SReadHooks) path) w with
  | (Ok hooks, w) =>
    rpc SRestoreHooks (fun rs => match rs !! relativePath with
      | Some r => if decide (hooks = []) then Err ERpc else Ok (tt, <[relativePath := withHooks hooks r]> rs)
      | None => Err ERpc
      end) w
  | (Err ErrDoesntExist, w) => (Ok tt, w)
  | (Err e, w) => (Err e, w)
  | (Panic, w) => (Panic, w)
  end.

Definition checkRestoreSkip (e : BackupError) (relativePath : list ascii) (alwaysCreate : bool) : BM unit :=
  match e with
  | ErrDoesntExist => if alwaysCreate then createRepository relativePath else fail ErrSkipped
  | e => fail e
  end.

(** What [checkRestoreSkip] is called on. *)
Definition orSkip {A} (m : BM A) (relativePath : list ascii) (alwaysCreate : bool) (k : A -> BM unit) : BM unit := fun w =>
  match m w with
  | (Ok a, w) => k a w
  | (Err e, w) => checkRestoreSkip e relativePath alwaysCreate w
  | (Panic, w) => (Panic, w)
  end.

Definition Restore (mgr : Manager) (relativePath : list ascii) (alwaysCreate : bool) : BM unit :=
  _ ← removeRepository relativePath;
  orSkip (onFiles (FindLatestFull (locator mgr) (env SFindLatest) relativePath)) relativePath alwaysCreate (fun full =>
  orSkip (restoreBundle (BundlePath full) relativePath) relativePath alwaysCreate (fun _ =>
  restoreCustomHooks (CustomHooksPath full) relativePath)).

End Manager.

(** ** Paths of plain elements *)

Lemma plain_no_slash xs : Forall plain xs -> forall x, x ∈ xs -> slash ∉ x.
Proof. intros Hx x Hin. rewrite Forall_forall in Hx. by apply (Hx x Hin). Qed.

Lemma Join_head xs : Forall plain xs -> xs ≠ [] -> exists c rest, Join slash xs = c :: rest /\ c ≠ slash.
Proof.
  intros Hx Hne. destruct xs as [|x xs]; [done|]. apply Forall_cons in Hx as [(Hx0 & _ & _ & Hs) _]. destruct x as [|c x]; [done|].
  apply not_elem_of_cons in Hs as [Hc _]. exists c. destruct xs as [|y xs]; cbn [Join app]; eauto.
Qed.

Lemma relative_plain xs tail : Forall plain xs -> xs ≠ [] -> rooted (Join slash xs ++ tail) = false.
Proof.
  intros Hx Hne. destruct (Join_head xs Hx Hne) as (c & rest & -> & Hc). apply not_true_iff_false. unfold rooted.
  rewrite HasPrefix_spec. intros [rest' Heq]. cbn in Heq. injection Heq as Heq _. done.
Qed.

Lemma Clean_plain xs : Forall plain xs -> xs ≠ [] -> Clean (Join slash xs) = Join slash xs.
Proof.
  intros Hx Hne. unfold Clean, elements_of. pose proof (relative_plain xs [] Hx Hne) as Hr. rewrite app_nil_r in Hr. rewrite Hr.
  rewrite Split_Join by (done || by apply plain_no_slash). rewrite cleanParts_keep, app_nil_r, reverse_involutive by done.
  unfold render. by rewrite decide_False.
Qed.

Lemma Clean_plain_slash xs : Forall plain xs -> xs ≠ [] -> Clean (Join slash xs ++ [slash]) = Join slash xs.
Proof.
  intros Hx Hne. unfold Clean, elements_of. rewrite relative_plain by done.
  rewrite Split_Join_app by (done || by apply plain_no_slash). rewrite cleanParts_app, (cleanParts_keep false xs), app_nil_r by done.
  cbn [Split cleanParts]. rewrite decide_True by (by left). rewrite reverse_involutive. unfold render. by rewrite decide_False.
Qed.

Lemma JoinElems_plain xs qs : Forall plain xs -> xs ≠ [] -> Forall plain qs -> qs ≠ [] ->
  JoinElems (Join slash xs :: qs) = Join slash (xs ++ qs).
Proof.
  intros Hx Hne Hq Hqne. cbn [JoinElems]. rewrite decide_False by (intros Heq; by apply Join_plain_nil in Heq).
  rewrite Join_cons, <- Join_app by done. apply Clean_plain; [by apply Forall_app|by destruct xs].
Qed.

Lemma Join_snoc xs q : xs ≠ [] -> Join slash (xs ++ [q]) = Join slash xs ++ slash :: q.
Proof. intros Hne. by rewrite Join_app. Qed.

Lemma Dir_plain xs q : Forall plain xs -> xs ≠ [] -> plain q -> Dir (Join slash (xs ++ [q])) = Join slash xs.
Proof.
  intros Hx Hne Hq. rewrite Join_snoc by done. unfold Dir. rewrite reverse_app, reverse_cons, <- app_assoc. cbn [app].
  rewrite Cut_app by (rewrite elem_of_reverse; apply Hq). rewrite reverse_involutive. by apply Clean_plain_slash.
Qed.

Lemma Base_plain xs q : xs ≠ [] -> plain q -> Base (Join slash (xs ++ [q])) = q.
Proof.
  intros Hne (Hq0 & _ & _ & Hs). rewrite Join_snoc by done.
  assert (Hrev : reverse (Join slash xs ++ slash :: q) = reverse q ++ slash :: reverse (Join slash xs))
    by (by rewrite reverse_app, reverse_cons, <- app_assoc).
  assert (Hdrop : dropWhile (fun c => bool_decide (c = slash)) (reverse q ++ slash :: reverse (Join slash xs)) =
    reverse q ++ slash :: reverse (Join slash xs)).
  { destruct (reverse q) as [|c q'] eqn:Hq; [by apply (f_equal reverse) in Hq; rewrite reverse_involutive in Hq|]. cbn [app dropWhile].
    rewrite bool_decide_false; [done|]. intros ->. apply Hs. rewrite <- (reverse_involutive q), Hq, elem_of_reverse. apply list_elem_of_here. }
  assert (Hpath : reverse (dropWhile (fun c => bool_decide (c = slash)) (reverse (Join slash xs ++ slash :: q))) = Join slash xs ++ slash :: q)
    by (rewrite Hrev, Hdrop, <- Hrev; apply reverse_involutive).
  unfold Base. rewrite decide_False by (by destruct (Join slash xs)). cbn zeta. rewrite Hpath.
  rewrite decide_False by (by destruct (Join slash xs)). rewrite Hrev, Cut_app by (by rewrite elem_of_reverse). apply reverse_involutive.
Qed.

(** ** The latest backup *)

Lemma app_nonempty {A} (l : list A) x k : l ++ x :: k ≠ [].
Proof. by destruct l. Qed.

Lemma app_nonempty_r {A} (l k : list A) : k ≠ [] -> l ++ k ≠ [].
Proof. by destruct l. Qed.

(** What the RPCs do for a backup: a bundle of all references brings them back, and so
    does an archive of hooks. *)
Class ServerLaws (R : Type) `{!Server R} : Prop := {
  bundle_nonempty (r : R) patterns : bundleOf r patterns ≠ [];
  bundle_refs (r : R) : refsOf (fromBundle (bundleOf r (generatePatterns (refsOf r)))) = refsOf r;
  bundle_hooks b : hooksOf (fromBundle b) = [];
  hooks_back h (r : R) : h ≠ [] -> hooksOf (withHooks h r) = h /\ refsOf (withHooks h r) = refsOf r;
}.

Section Latest.
Context {R : Type} `{!Server R, !ServerLaws R}.
Context (root : list ascii) (rparts : list (list ascii)) (Hroot : clean_dir root rparts).
Context (relativePath : list ascii) (ps : list (list ascii)).
Context (Hps : Forall plain ps) (Hne : ps ≠ []) (Hrel : backupPathOf relativePath = Join slash ps).
Context (fallback : bool).
#[local] Instance fsSink : Sink := FilesystemSink root.

(** The file at a path of plain elements under the directory of the sink. *)
Definition fileAt (xs : list (list ascii)) (fs : Files) : option (list ascii) := fs !! JoinPath root (Join slash xs).

Lemma key_eq xs : Forall plain xs -> xs ≠ [] -> JoinPath root (Join slash xs) = slash :: Join slash (rparts ++ xs).
Proof using Hroot.
  intros Hx Hxne. rewrite (JoinPath_elements root rparts _ Hroot). rewrite Split_Join by (done || by apply plain_no_slash).
  rewrite cleanParts_keep by done. by rewrite reverse_app, !reverse_involutive.
Qed.

Lemma key_inj xs ys : Forall plain xs -> xs ≠ [] -> Forall plain ys -> ys ≠ [] ->
  JoinPath root (Join slash xs) = JoinPath root (Join slash ys) -> xs = ys.
Proof using Hroot.
  intros Hx Hxne Hy Hyne Heq. rewrite !key_eq in Heq by done. injection Heq as Heq. destruct Hroot as [Hr Hrne _].
  apply (f_equal (Split slash)) in Heq. rewrite !Split_Join in Heq.
  - by apply app_inv_head in Heq.
  - by apply app_nonempty_r.
  - apply plain_no_slash. by apply Forall_app.
  - by apply app_nonempty_r.
  - apply plain_no_slash. by apply Forall_app.
Qed.

Definition latestPath : list (list ascii) := ps ++ [text "LATEST"].
Definition bundlePath (id : list ascii) : list (list ascii) := ps ++ [id; text "full.bundle"].
Definition refsPath (id : list ascii) : list (list ascii) := ps ++ [id; text "full.refs"].
Definition hooksPath (id : list ascii) : list (list ascii) := ps ++ [id; text "custom_hooks.tar"].

Lemma part_plain q : q ∈ [text "LATEST"; text "full.bundle"; text "full.refs"; text "custom_hooks.tar"] -> plain q.
Proof.
  intros Hq. assert (H : Forall plain [text "LATEST"; text "full.bundle"; text "full.refs"; text "custom_hooks.tar"])
    by (by apply (bool_decide_unpack _)). rewrite Forall_forall in H. by apply H.
Qed.

Lemma paths_plain id : plain id -> Forall plain latestPath /\ Forall plain (bundlePath id) /\ Forall plain (refsPath id) /\ Forall plain (hooksPath id).
Proof using Hps.
  intros Hid. unfold latestPath, bundlePath, refsPath, hooksPath. rewrite !Forall_app, !Forall_cons.
  split_and!; try done; by apply part_plain, (bool_decide_unpack _).
Qed.

Lemma pointerFull_paths id : plain id ->
  pointerFull (backupPathOf relativePath) id = mkFull (Join slash (bundlePath id)) (Join slash (refsPath id)) (Join slash (hooksPath id)).
Proof using Hps Hne Hrel.
  intros Hid. unfold pointerFull. rewrite Hrel. rewrite !JoinElems_plain; try done;
    apply Forall_cons; (split; [done|]); apply Forall_singleton; by apply part_plain, (bool_decide_unpack _).
Qed.

Lemma latest_path : JoinElems [Join slash ps; text "LATEST"] = Join slash latestPath.
Proof using Hps Hne. apply JoinElems_plain; try done. apply Forall_singleton. by apply part_plain, (bool_decide_unpack _). Qed.

Lemma commit_paths id : plain id ->
  Dir (Join slash (bundlePath id)) = Join slash (ps ++ [id]) /\ Dir (Join slash (ps ++ [id])) = Join slash ps /\ Base (Join slash (ps ++ [id])) = id.
Proof using Hps Hne.
  intros Hid. assert (Hpi : Forall plain (ps ++ [id])) by (apply Forall_app; split; [done|by apply Forall_singleton]). split_and!.
  - unfold bundlePath. replace (ps ++ [id; text "full.bundle"]) with ((ps ++ [id]) ++ [text "full.bundle"]) by (by rewrite <- app_assoc).
    apply Dir_plain; [done|apply app_nonempty|]. by apply part_plain, (bool_decide_unpack _).
  - by apply Dir_plain.
  - by apply Base_plain.
Qed.

(** *** One run *)

(** The run has changed nothing but files in the directory of its backup. *)
Definition within (id : list ascii) (fs fs' : Files) : Prop :=
  forall xs, Forall plain xs -> xs ≠ [] -> ~ (ps ++ [id]) `prefix_of` xs -> fileAt xs fs' = fileAt xs fs.

Lemma within_trans id fs1 fs2 fs3 : within id fs1 fs2 -> within id fs2 fs3 -> within id fs1 fs3.
Proof. intros H1 H2 xs Hx Hxne Hp. by rewrite H2, H1. Qed.

Lemma fsWrite_spec xs fate data fs : Forall plain xs -> xs ≠ [] ->
  let (r, fs') := Write fate (Join slash xs) data fs in
  (forall ys, Forall plain ys -> ys ≠ [] -> ys ≠ xs -> fileAt ys fs' = fileAt ys fs) /\
  match r with
  | Ok _ => fileAt xs fs' = if decide (data = []) then None else Some data
  | Err _ => fate = Refused -> fs' = fs
  | Panic => False
  end.
Proof using Hroot.
  intros Hx Hxne. assert (Hk : forall ys, Forall plain ys -> ys ≠ [] -> ys ≠ xs -> JoinPath root (Join slash xs) ≠ JoinPath root (Join slash ys)).
  { intros ys Hy Hyne Hd Heq. apply Hd. symmetry. by apply key_inj. }
  cbn [Write fsSink FilesystemSink]. unfold fsWrite, fileAt. destruct fate; [case_decide| |].
  - split; [intros ys Hy Hyne Hd; by rewrite lookup_delete_ne by (by apply Hk)|apply lookup_delete_eq].
  - split; [intros ys Hy Hyne Hd; by rewrite lookup_insert_ne by (by apply Hk)|apply lookup_insert_eq].
  - done.
  - split; [intros ys Hy Hyne Hd; by rewrite lookup_insert_ne by (by apply Hk)|done].
Qed.

(** A part of the backup is written. *)
Lemma part_written id q fate data fs : plain id -> plain q ->
  let (r, fs') := Write fate (Join slash (ps ++ [id; q])) data fs in
  within id fs fs' /\ (forall q', plain q' -> q' ≠ q -> fileAt (ps ++ [id; q']) fs' = fileAt (ps ++ [id; q']) fs) /\
  match r with Ok _ => fileAt (ps ++ [id; q]) fs' = if decide (data = []) then None else Some data | Err _ => True | Panic => False end.
Proof using Hroot Hps.
  intros Hid Hq. assert (Hpl : forall q, plain q -> Forall plain (ps ++ [id; q])).
  { intros q' Hq'. apply Forall_app. split; [done|]. apply Forall_cons. split; [done|by apply Forall_singleton]. }
  pose proof (fsWrite_spec (ps ++ [id; q]) fate data fs (Hpl q Hq) ltac:(apply app_nonempty)) as Hw.
  destruct (Write fate (Join slash (ps ++ [id; q])) data fs) as [r fs']. destruct Hw as [Hother Hr]. split_and!.
  - intros xs Hx Hxne Hp. apply Hother; [done|done|]. intros ->. apply Hp. exists [q]. by rewrite <- app_assoc.
  - intros q' Hq' Hd. apply Hother; [by apply Hpl|apply app_nonempty|]. intros Heq. apply app_inv_head in Heq. by injection Heq.
  - by destruct r.
Qed.

(** The files of a complete backup of the repository [r]. *)
Definition complete (id : list ascii) (r : R) (fs : Files) : Prop :=
  fileAt (bundlePath id) fs = Some (bundleOf r (generatePatterns (refsOf r))) /\
  fileAt (hooksPath id) fs = (if decide (hooksOf r = []) then None else Some (hooksOf r)) /\
  fileAt (refsPath id) fs = (if decide (concat (map refLine (refsOf r)) = []) then None else Some (concat (map refLine (refsOf r)))).

Definition runCreate (env : Step -> Fate) (id : list ascii) (r : R) (fs : Files) : out BackupError unit * Files :=
  let (res, w) := Create env (mkManager (PointerLocator fallback) id) relativePath (mkWorld fs {[ relativePath := r ]}) in (res, files w).

Lemma query_fine {A} env s (f : R -> A) r fs : 
  query env s relativePath f (mkWorld fs {[ relativePath := r ]}) =
  (match env s with Fine => Ok (f r) | _ => Err ERpc end, mkWorld fs {[ relativePath := r ]}).
Proof. unfold query, rpc. cbn [repos]. rewrite lookup_singleton_eq. by destruct (env s). Qed.

Lemma onFiles_eq {A} (m : M Files BackupError A) (fs : Files) (rs : gmap (list ascii) R) :
  onFiles m (mkWorld fs rs) = ((m fs).1, mkWorld (m fs).2 rs).
Proof. unfold onFiles. cbn [files repos]. by destruct (m fs). Qed.

(** The files after the writes of a run, the part of [Create] after the list of
    references is known. *)
Definition writes (env : Step -> Fate) (id : list ascii) (r : R) (fs : Files) : out BackupError unit * Files :=
  match Write (env SWriteRefs) (Join slash (refsPath id)) (concat (map refLine (refsOf r))) fs with
  | (Ok _, fs) =>
    match env SBundle with
    | Fine =>
      match Write (env SWriteBundle) (Join slash (bundlePath id)) (bundleOf r (generatePatterns (refsOf r))) fs with
      | (Ok _, fs) =>
        match env SHooks with
        | Fine =>
          match Write (env SWriteHooks) (Join slash (hooksPath id)) (hooksOf r) fs with
          | (Ok _, fs) => Write (env SCommit) (Join slash latestPath) id fs
          | r => r
          end
        | _ => (Err ERpc, fs)
        end
      | r => r
      end
    | _ => (Err ERpc, fs)
    end
  | r => r
  end.

Lemma runCreate_eq env id r fs : plain id ->
  runCreate env id r fs =
  match env SIsEmpty with
  | Fine =>
    if hasLocalBranches r then match env SListRefs with Fine => writes env id r fs | _ => (Err ERpc, fs) end else (Err ErrSkipped, fs)
  | _ => (Err ERpc, fs)
  end.
Proof using Hps Hne Hrel.
  intros Hid. destruct (commit_paths id Hid) as (HD1 & HD2 & HB). unfold runCreate, Create, isEmpty, mbind, M_bind, rpc.
  cbn [repos]. rewrite lookup_singleton_eq. destruct (env SIsEmpty); [|done..]. destruct (hasLocalBranches r); [|done]. cbn [negb].
  unfold listRefs. cbn [files]. rewrite query_fine. destruct (env SListRefs); [|done..]. cbn [locator backupID BeginFull].
  rewrite (pointerFull_paths id Hid). unfold writeRefs, writeBundle, writeCustomHooks, mbind, M_bind, writes. cbn [RefPath BundlePath CustomHooksPath].
  rewrite onFiles_eq. destruct (Write (env SWriteRefs) _ _ fs) as [[|e|] fs1]; [|done..]. cbn [fst snd].
  rewrite query_fine. destruct (env SBundle); [|done..].
  rewrite onFiles_eq. destruct (Write (env SWriteBundle) _ _ fs1) as [[|e|] fs2]; [|done..]. cbn [fst snd].
  rewrite query_fine. destruct (env SHooks); [|done..].
  rewrite onFiles_eq. destruct (Write (env SWriteHooks) _ _ fs2) as [[|e|] fs3]; [|done..]. cbn [fst snd].
  rewrite onFiles_eq. cbn [CommitFull BundlePath]. unfold commitLatestID. rewrite HD1, HD2, HB, latest_path.
  by destruct (Write (env SCommit) (Join slash latestPath) id fs3) as [[|e|] fs4].
Qed.

Lemma latest_apart id : plain id -> id ≠ text "LATEST" -> ~ (ps ++ [id]) `prefix_of` latestPath.
Proof. intros Hid Hd [rest Heq]. unfold latestPath in Heq. rewrite <- app_assoc in Heq. apply app_inv_head in Heq. by injection Heq. Qed.

(** The effect of a run: only in its directory and on the pointer; if it succeeds the
    pointer names it and all its files are there. *)
Lemma runCreate_effect env id r fs : plain id -> id ≠ text "LATEST" ->
  let (res, fs') := runCreate env id r fs in
  (forall xs, Forall plain xs -> xs ≠ [] -> xs ≠ latestPath -> ~ (ps ++ [id]) `prefix_of` xs -> fileAt xs fs' = fileAt xs fs) /\
  match res with
  | Ok _ => fileAt latestPath fs' = Some id /\ complete id r fs'
  | Err _ => True
  | Panic => False
  end.
Proof using Hroot Hps Hne Hrel ServerLaws0.
  intros Hid Hd. rewrite runCreate_eq by done.
  destruct (paths_plain id Hid) as (Hpl & _). assert (Hlne : latestPath ≠ []) by apply app_nonempty.
  assert (Hq : forall q, q ∈ [text "LATEST"; text "full.bundle"; text "full.refs"; text "custom_hooks.tar"] -> plain q) by apply part_plain.
  assert (Hkeep : forall fs', within id fs fs' -> (forall xs, Forall plain xs -> xs ≠ [] -> xs ≠ latestPath -> ~ (ps ++ [id]) `prefix_of` xs ->
    fileAt xs fs' = fileAt xs fs) /\ True).
  { intros fs' Hw. split; [intros xs Hx Hxne _ Hp; by apply Hw|done]. }
  destruct (env SIsEmpty); [|done..]. destruct (hasLocalBranches r); [|done]. destruct (env SListRefs); [|done..].
  unfold writes, refsPath, bundlePath, hooksPath.
  pose proof (part_written id (text "full.refs") (env SWriteRefs) (concat (map refLine (refsOf r))) fs Hid
    (Hq (text "full.refs") ltac:(by apply (bool_decide_unpack _)))) as H1. destruct (Write (env SWriteRefs) _ _ fs) as [[|e|] fs1]; [|apply Hkeep; apply H1|by destruct H1 as (_ & _ & [])].
  destruct H1 as (Hw1 & Ho1 & Hf1). destruct (env SBundle); [|by apply Hkeep..].
  pose proof (part_written id (text "full.bundle") (env SWriteBundle) (bundleOf r (generatePatterns (refsOf r))) fs1 Hid
    (Hq (text "full.bundle") ltac:(by apply (bool_decide_unpack _)))) as H2. destruct (Write (env SWriteBundle) _ _ fs1) as [[|e|] fs2];
    [|apply Hkeep; eapply within_trans; [exact Hw1|apply H2]|by destruct H2 as (_ & _ & [])].
  destruct H2 as (Hw2 & Ho2 & Hf2). pose proof (within_trans _ _ _ _ Hw1 Hw2) as Hw12. destruct (env SHooks); [|by apply Hkeep..].
  pose proof (part_written id (text "custom_hooks.tar") (env SWriteHooks) (hooksOf r) fs2 Hid
    (Hq (text "custom_hooks.tar") ltac:(by apply (bool_decide_unpack _)))) as H3. destruct (Write (env SWriteHooks) _ _ fs2) as [[|e|] fs3];
    [|apply Hkeep; eapply within_trans; [exact Hw12|apply H3]|by destruct H3 as (_ & _ & [])].
  destruct H3 as (Hw3 & Ho3 & Hf3). pose proof (within_trans _ _ _ _ Hw12 Hw3) as Hw. destruct (Hkeep fs3 Hw) as [Hk1 _].
  pose proof (fsWrite_spec latestPath (env SCommit) id fs3 Hpl Hlne) as H4.
  destruct (Write (env SCommit) (Join slash latestPath) id fs3) as [[|e|] fs4] eqn:Hcommit; [| |by destruct H4 as (_ & [])].
  - destruct H4 as [Ho4 Hf4]. rewrite decide_False in Hf4 by apply Hid. split; [intros xs Hx Hxne Hxl Hp; rewrite Ho4 by done; by apply Hk1|].
    split; [done|]. assert (Hsame : forall q, plain q -> fileAt (ps ++ [id; q]) fs4 = fileAt (ps ++ [id; q]) fs3).
    { intros q Hplq. apply Ho4; [|apply app_nonempty|].
      - apply Forall_app. split; [done|]. apply Forall_cons. split; [done|by apply Forall_singleton].
      - intros Heq. apply app_inv_head in Heq. by injection Heq. }
    assert (Hne12 : text "full.bundle" ≠ text "custom_hooks.tar" /\ text "full.refs" ≠ text "custom_hooks.tar" /\ text "full.refs" ≠ text "full.bundle")
      by (split_and!; done). destruct Hne12 as (Hn1 & Hn2 & Hn3).
    unfold complete, bundlePath, hooksPath, refsPath. rewrite !Hsame by (by apply Hq, (bool_decide_unpack _)). split_and!.
    + rewrite Ho3 by (done || by apply Hq, (bool_decide_unpack _)). rewrite Hf2. by rewrite decide_False by apply bundle_nonempty.
    + done.
    + rewrite Ho3 by (done || by apply Hq, (bool_decide_unpack _)). rewrite Ho2 by (done || by apply Hq, (bool_decide_unpack _)). done.
  - destruct H4 as [Ho4 _]. split; [|done]. intros xs Hx Hxne Hxl Hp. rewrite Ho4 by done. by apply Hk1.
Qed.

(** *** A history of runs *)

Record attempt : Type := mkAttempt { aEnv : Step -> Fate; aID : list ascii; aRepo : R }.

(** Runs the attempts and keeps the one the pointer is known to name: the last that
    succeeded, and none after one that failed while it rewrote the pointer. *)
Fixpoint runAll (hist : list attempt) (fs : Files) (good : option attempt) : Files * option attempt :=
  match hist with
  | [] => (fs, good)
  | a :: hist =>
    let (res, fs') := runCreate (aEnv a) (aID a) (aRepo a) fs in
    runAll hist fs' (match res with Ok _ => Some a | _ => if decide (fileAt latestPath fs' = fileAt latestPath fs) then good else None end)
  end.

Definition attempt_ok (a : attempt) : Prop :=
  plain (aID a) /\ aID a ≠ text "LATEST" /\ last (aID a) ≠ Some LF.

Definition pointed (fs : Files) (good : option attempt) : Prop :=
  forall a, good = Some a -> attempt_ok a /\ fileAt latestPath fs = Some (aID a) /\ complete (aID a) (aRepo a) fs.

Lemma other_directory id id' q : plain id -> plain id' -> id ≠ id' -> plain q -> 
  Forall plain (ps ++ [id; q]) /\ ps ++ [id; q] ≠ [] /\ ps ++ [id; q] ≠ latestPath /\ ~ (ps ++ [id']) `prefix_of` ps ++ [id; q].
Proof using Hps.
  intros Hid Hid' Hd Hq. split_and!.
  - apply Forall_app. split; [done|]. apply Forall_cons. split; [done|by apply Forall_singleton].
  - apply app_nonempty.
  - intros Heq. apply app_inv_head in Heq. by injection Heq.
  - intros [rest Heq]. rewrite <- app_assoc in Heq. apply app_inv_head in Heq. injection Heq as Heq. done.
Qed.

Lemma runAll_pointed hist : forall fs good, Forall attempt_ok hist -> NoDup (aID <$> hist) ->
  (forall a, good = Some a -> aID a ∉ aID <$> hist) -> pointed fs good ->
  let (fs', good') := runAll hist fs good in pointed fs' good'.
Proof using Hroot Hps Hne Hrel ServerLaws0.
  induction hist as [|a hist IH]; intros fs good Hok Hnd Hfresh Hp; [done|]. cbn [runAll].
  apply Forall_cons in Hok as [Ha Hok]. pose proof Ha as (Hid & Hl & _). rewrite fmap_cons in *. apply NoDup_cons in Hnd as [Hin Hnd].
  pose proof (runCreate_effect (aEnv a) (aID a) (aRepo a) fs Hid Hl) as Heff.
  destruct (runCreate (aEnv a) (aID a) (aRepo a) fs) as [[[]|e|] fs'] eqn:Hrun; [| |by destruct Heff as [_ []]].
  - apply IH; [done|done|by intros a' [= <-]|]. intros a' [= <-]. destruct Heff as (_ & H1 & H2). done.
  - case_decide as Hsame; [|by apply IH]. apply IH; [done|done|intros a' Ha'; specialize (Hfresh a' Ha'); rewrite not_elem_of_cons in Hfresh; tauto|].
    intros g Hg. destruct (Hp g Hg) as (Hgok & Hgl & Hc1 & Hc2 & Hc3). destruct Heff as (Hother & _). split; [done|]. split; [congruence|].
    specialize (Hfresh g Hg). rewrite not_elem_of_cons in Hfresh. destruct Hfresh as [Hd _]. destruct Hgok as (Hgid & _).
    assert (Hq : forall q, q ∈ [text "LATEST"; text "full.bundle"; text "full.refs"; text "custom_hooks.tar"] ->
      fileAt (ps ++ [aID g; q]) fs' = fileAt (ps ++ [aID g; q]) fs).
    { intros q Hq%part_plain. destruct (other_directory (aID g) (aID a) q Hgid Hid Hd Hq) as (? & ? & ? & ?). by apply Hother. }
    unfold complete, bundlePath, hooksPath, refsPath in *. rewrite !Hq by (by apply (bool_decide_unpack _)). done.
Qed.

(** *** Restoring *)

Lemma restore_complete id r fs rs alwaysCreate : plain id -> last id ≠ Some LF -> fileAt latestPath fs = Some id -> complete id r fs ->
  exists r', Restore (fun _ => Fine) (mkManager (PointerLocator fallback) []) relativePath alwaysCreate (mkWorld fs rs) =
    (Ok tt, mkWorld fs (<[relativePath := r']> rs)) /\ refsOf r' = refsOf r /\ hooksOf r' = hooksOf r.
Proof using Hps Hne Hrel ServerLaws0.
  intros Hid Hlf Hlatest (Hb & Hh & _). unfold Restore, removeRepository, mbind, M_bind, rpc, orSkip. cbn [files repos locator].
  rewrite onFiles_eq. cbn [FindLatestFull]. unfold findLatestID. rewrite Hrel, latest_path. unfold mbind, M_bind.
  cbn [GetReader fsSink FilesystemSink]. unfold fsGetReader. unfold fileAt in Hlatest. rewrite Hlatest. cbn [fst snd].
  rewrite TrimSuffix_keep by done. unfold mret, M_ret. cbn [fst snd]. rewrite <- Hrel, (pointerFull_paths id Hid). cbn [BundlePath CustomHooksPath].
  unfold restoreBundle, mbind, M_bind. rewrite onFiles_eq. cbn [GetReader fsSink FilesystemSink]. unfold fsGetReader. unfold fileAt in Hb. rewrite Hb.
  cbn [fst snd]. unfold rpc. cbn [repos files]. rewrite decide_False by apply bundle_nonempty.
  unfold restoreCustomHooks. rewrite onFiles_eq. cbn [GetReader fsSink FilesystemSink]. unfold fsGetReader. unfold fileAt in Hh. rewrite Hh.
  set (r0 := fromBundle (bundleOf r (generatePatterns (refsOf r)))). case_decide as Hhooks; cbn [fst snd].
  - exists r0. rewrite insert_delete_eq. split; [done|]. unfold r0. rewrite bundle_hooks, bundle_refs. done.
  - unfold rpc. cbn [repos files]. rewrite lookup_insert_eq. rewrite decide_False by done. exists (withHooks (hooksOf r) r0).
    rewrite insert_insert_eq, insert_delete_eq. split; [done|]. destruct (hooks_back (hooksOf r) r0 Hhooks) as [-> ->].
    unfold r0. by rewrite bundle_refs.
Qed.

(** C39. With the pointer locator and the filesystem sink, after any history of
    attempts under different identifiers, which may fail at any call and leave any
    file cut off, the pointer included: if the last attempt that changed the file of
    the pointer succeeded, a restore without failures gives back the references and the
    hooks of the repository of that attempt. Attempts that failed elsewhere, before or
    after it, do no harm, since each writes into a directory of its own and sets the
    pointer at the end; one that fails while it rewrites the pointer may lose all
    backups until the next success (torn_pointer_loses_backups). Identifiers are plain
    names other than LATEST without a final line feed; the repository does not change
    in the course of an attempt, and a bundle made of the listed references brings
    these back, as a hooks archive does the hooks (ServerLaws). *)
Theorem latest_backup_restored (hist : list attempt) fs rs alwaysCreate a :
  Forall attempt_ok hist -> NoDup (aID <$> hist) -> (runAll hist fs None).2 = Some a ->
  exists r', Restore (fun _ => Fine) (mkManager (PointerLocator fallback) []) relativePath alwaysCreate (mkWorld (runAll hist fs None).1 rs) =
    (Ok tt, mkWorld (runAll hist fs None).1 (<[relativePath := r']> rs)) /\
    refsOf r' = refsOf (aRepo a) /\ hooksOf r' = hooksOf (aRepo a).
Proof using Hroot Hps Hne Hrel ServerLaws0.
  intros Hok Hnd Hgood. pose proof (runAll_pointed hist fs None Hok Hnd ltac:(done) ltac:(done)) as Hp.
  destruct (runAll hist fs None) as [fs' good]. cbn in Hgood. subst good. destruct (Hp a eq_refl) as ((Hid & _ & Hlf) & Hl & Hc).
  by eapply restore_complete.
Qed.
End Latest.

(** ** Sample runs *)

Module BackupSample.

(** A server whose repositories have one reference, with one of two targets. *)
#[global] Instance sampleServer : Server (bool * list ascii) := {|
  hasLocalBranches _ := true;
  refsOf := fun r : bool * list ascii => [(text "refs/heads/main", [if r.1 then "1"%char else "0"%char])];
  bundleOf := fun (r : bool * list ascii) _ => [if r.1 then "1"%char else "0"%char];
  hooksOf := fun r : bool * list ascii => r.2;
  fromBundle b := (bool_decide (b = text "1"), []);
  withHooks := fun h (r : bool * list ascii) => (r.1, h);
  emptyRepository := (false, []);
|}.

#[global] Instance sampleServerLaws : ServerLaws (bool * list ascii).
Proof. split; [done| |done|done]. by intros [[|] h]. Qed.

Definition root : list ascii := text "/backups".
Definition repository : list ascii := text "@hashed/ab.git".
Definition fine : Step -> Fate := fun _ => Fine.
Definition failsAt (s : Step) (f : Fate) : Step -> Fate := fun s' => match s, s' with SCommit, SCommit | SWriteBundle, SWriteBundle => f | _, _ => Fine end.

(** The pointer is not replaced as a whole: an attempt that fails while it is written
    leaves it empty, and no backup is found any more; the repository has been removed
    by then. *)
Lemma torn_pointer_loses_backups :
  let fs := (@runAll _ _ root repository [text "@hashed"; text "ab"] true
    [mkAttempt fine (text "1") (true, []); mkAttempt (failsAt SCommit (Torn 0)) (text "2") (false, [])] ∅ None).1 in
  let w := Restore (sink := FilesystemSink root) fine (mkManager (PointerLocator true) []) repository false (mkWorld fs {[ repository := (true, []) ]}) in
  w.1 = Err ErrSkipped /\ repos w.2 !! repository = None.
Proof. vm_compute. split; reflexivity. Qed.

(** In object storage the archive of a repository without hooks is an empty object,
    which makes the restoration fail. *)
Lemma empty_hooks_not_restored :
  let w := (Create (sink := StorageServiceSink) fine (mkManager LegacyLocator []) repository (mkWorld ∅ {[ repository := (true, []) ]})) in
  w.1 = Ok tt /\
  (Restore (sink := StorageServiceSink) fine (mkManager LegacyLocator []) repository false w.2).1 = Err ERpc /\
  let w' := (Create (sink := FilesystemSink root) fine (mkManager LegacyLocator []) repository (mkWorld ∅ {[ repository := (true, []) ]})) in
  (Restore (sink := FilesystemSink root) fine (mkManager LegacyLocator []) repository false w'.2).1 = Ok tt.
Proof. vm_compute. done. Qed.

End BackupSample.

Lemma latest_backup_restored_witness :
  let hist := [mkAttempt (BackupSample.failsAt SCommit (Torn 0)) (text "0") (false, []); mkAttempt BackupSample.fine (text "1") (true, text "h"); mkAttempt (BackupSample.failsAt SWriteBundle (Torn 1)) (text "2") (false, [])] in
  exists r', Restore (sink := FilesystemSink BackupSample.root) (fun _ => Fine) (mkManager (PointerLocator true) []) BackupSample.repository true
      (mkWorld (@runAll _ _ BackupSample.root BackupSample.repository [text "@hashed"; text "ab"] true hist ∅ None).1 ∅) =
    (Ok tt, mkWorld (@runAll _ _ BackupSample.root BackupSample.repository [text "@hashed"; text "ab"] true hist ∅ None).1 (<[BackupSample.repository := r']> ∅)) /\
    refsOf r' = [(text "refs/heads/main", text "1")] /\ hooksOf r' = text "h".
Proof.
  intros hist. eapply (latest_backup_restored BackupSample.root [text "backups"] ltac:(constructor; by apply (bool_decide_unpack _))
    BackupSample.repository [text "@hashed"; text "ab"] ltac:(by apply (bool_decide_unpack _)) ltac:(done) ltac:(vm_compute; done) true hist ∅ ∅ true
    (mkAttempt BackupSample.fine (text "1") (true, text "h"))).
  - repeat constructor; (by apply (bool_decide_unpack _)) || (by intros).
  - by apply (bool_decide_unpack _).
  - vm_compute. done.
Defined.
