(* ===== verification/BackupPipeline.v ===== *)
(** The pipelines that run the commands of a backup: src/internal/backup/pipeline.go.

    A parallel pipeline passes commands on to workers, of which there are a number per
    storage, and limits how many of them work at a time; a logging pipeline executes
    the commands and counts the failures. The state is that of all goroutines: the
    calls of [Handle] that wait for a worker, the workers, the slots they hold, and the
    call of [Done]. Steps are taken in any order. *)

From Stdlib Require Import Strings.Ascii.
From S2P Require Import Prelude.

(** ** State *)

(** How the execution of a command ended. *)
Inductive Outcome : Type := Completed | Skipped | Failed.

#[export] Instance Outcome_eq_dec : EqDecision Outcome.
Proof. solve_decision. Defined.

(** What a worker does: it waits for a command or the end, has one and waits for a
    slot, executes it, or has returned. *)
Inductive WorkerState : Type := Idle | Waiting (cmd : nat) | Running (cmd : nat) | Exited.

Record Worker : Type := mkWorker { wkey : list ascii; wstate : WorkerState }.

(** A call of [Handle] in its select statement. *)
Record Request : Type := mkRequest { rcmd : nat; rkey : list ascii }.

Record Pipeline : Type := mkPipeline {
  parallel : Z;
  parallelStorage : Z;
  slots : Z;                     (* elements of the channel workerSlots *)
  requests : list (list ascii);  (* keys of the map *)
  workers : list Worker;
  pending : list Request;
  done : bool;                   (* the channel is closed *)
  err : bool;                    (* a context was cancelled *)
  failed : Z;                    (* of the logging pipeline *)
  accepted : list nat;           (* commands given to a worker *)
  executed : list (nat * Outcome);
  result : option bool;          (* of Done: whether it returned an error *)
}.

(** [workerSlots] is a channel if both limits are set. *)
Definition limited (p : Pipeline) : bool := (0 <? parallel p) && (0 <? parallelStorage p).

Definition NewParallelPipeline (par parStorage : Z) : Pipeline :=
  mkPipeline par parStorage 0 [] [] [] false false 0 [] [] None.

(** ** Operations *)

(** [getStorage]: the key of the storage, and the workers it gets. *)
Definition storageKey (p : Pipeline) (storage : list ascii) : list ascii := if decide (parallelStorage p < 1) then [] else storage.

Definition workerCount (p : Pipeline) : nat := Z.to_nat (if decide (parallelStorage p < 1) then parallel p else parallelStorage p).

Definition getStorage (storage : list ascii) (p : Pipeline) : list ascii * Pipeline :=
  let k := storageKey p storage in
  if decide (k ∈ requests p) then (k, p)
  else (k, mkPipeline (parallel p) (parallelStorage p) (slots p) (requests p ++ [k]) (workers p ++ replicate (workerCount p) (mkWorker k Idle))
             (pending p) (done p) (err p) (failed p) (accepted p) (executed p) (result p)).

(** [Handle] up to its select statement. *)
Definition Handle (cmd : nat) (storage : list ascii) (p : Pipeline) : Pipeline :=
  let (k, p) := getStorage storage p in
  mkPipeline (parallel p) (parallelStorage p) (slots p) (requests p) (workers p) (pending p ++ [mkRequest cmd k]) (done p) (err p) (failed p)
    (accepted p) (executed p) (result p).

Definition setWorker (i : nat) (ws : WorkerState) (p : Pipeline) : list Worker := alter (fun w => mkWorker (wkey w) ws) i (workers p).

Definition removeAt {A} (i : nat) (l : list A) : list A := take i l ++ drop (S i) l.

(** A call hands its command to a worker that waits on the same channel. *)
Definition send (i w : nat) (p : Pipeline) : option Pipeline :=
  match pending p !! i, workers p !! w with
  | Some r, Some (mkWorker k Idle) =>
    if decide (rkey r = k) then
      Some (mkPipeline (parallel p) (parallelStorage p) (slots p) (requests p) (setWorker w (Waiting (rcmd r)) p) (removeAt i (pending p)) (done p)
              (err p) (failed p) (accepted p ++ [rcmd r]) (executed p) (result p))
    else None
  | _, _ => None
  end.

(** The context of a call is done first; [setErr]. *)
Definition cancel (i : nat) (p : Pipeline) : option Pipeline :=
  match pending p !! i with
  | Some _ =>
    Some (mkPipeline (parallel p) (parallelStorage p) (slots p) (requests p) (workers p) (removeAt i (pending p)) (done p) true (failed p)
            (accepted p) (executed p) (result p))
  | None => None
  end.

(** [acquireWorkerSlot]; then the command is executed. *)
Definition acquireWorkerSlot (w : nat) (p : Pipeline) : option Pipeline :=
  match workers p !! w with
  | Some (mkWorker _ (Waiting cmd)) =>
    if limited p then
      if slots p <? parallel p then
        Some (mkPipeline (parallel p) (parallelStorage p) (slots p + 1) (requests p) (setWorker w (Running cmd) p) (pending p) (done p) (err p)
                (failed p) (accepted p) (executed p) (result p))
      else None
    else
      Some (mkPipeline (parallel p) (parallelStorage p) (slots p) (requests p) (setWorker w (Running cmd) p) (pending p) (done p) (err p)
              (failed p) (accepted p) (executed p) (result p))
  | _ => None
  end.

(** [LoggingPipeline.Handle] after the command was executed. *)
Definition countFailure (o : Outcome) (n : Z) : Z := match o with Failed => n + 1 | _ => n end.

(** The command has been executed, and [releaseWorkerSlot]. *)
Definition finishCommand (w : nat) (o : Outcome) (p : Pipeline) : option Pipeline :=
  match workers p !! w with
  | Some (mkWorker _ (Running cmd)) =>
    Some (mkPipeline (parallel p) (parallelStorage p) (if limited p then slots p - 1 else slots p) (requests p) (setWorker w Idle p) (pending p)
            (done p) (err p) (countFailure o (failed p)) (accepted p) (executed p ++ [(cmd, o)]) (result p))
  | _ => None
  end.

(** A worker that has nothing to do sees the end. *)
Definition exitWorker (w : nat) (p : Pipeline) : option Pipeline :=
  match workers p !! w with
  | Some (mkWorker _ Idle) =>
    if done p then
      Some (mkPipeline (parallel p) (parallelStorage p) (slots p) (requests p) (setWorker w Exited p) (pending p) (done p) (err p) (failed p)
              (accepted p) (executed p) (result p))
    else None
  | _ => None
  end.

(** [Done], up to the wait for the workers; it is called once. *)
Definition closeDone (p : Pipeline) : option Pipeline :=
  if done p then None
  else Some (mkPipeline (parallel p) (parallelStorage p) (slots p) (requests p) (workers p) (pending p) true (err p) (failed p) (accepted p)
               (executed p) (result p)).

(** [LoggingPipeline.Done]: is there an error? *)
Definition loggingDone (p : Pipeline) : bool := 0 <? failed p.

#[export] Instance exited_dec (w : Worker) : Decision (wstate w = Exited).
Proof. destruct (wstate w); [right|right|right|left]; done. Defined.

(** [Done] after all workers have returned. *)
Definition returnDone (p : Pipeline) : option Pipeline :=
  if decide (done p = true /\ Forall (fun w => wstate w = Exited) (workers p) /\ result p = None) then
    Some (mkPipeline (parallel p) (parallelStorage p) (slots p) (requests p) (workers p) (pending p) (done p) (err p) (failed p) (accepted p)
            (executed p) (Some (loggingDone p || err p)))
  else None.

(** ** Steps *)

Inductive Event : Type :=
| EvHandle (cmd : nat) (storage : list ascii)
| EvSend (i w : nat)
| EvCancel (i : nat)
| EvAcquire (w : nat)
| EvFinish (w : nat) (o : Outcome)
| EvDone
| EvExit (w : nat)
| EvReturn.

Definition step (e : Event) (p : Pipeline) : option Pipeline :=
  match e with
  | EvHandle cmd storage => Some (Handle cmd storage p)
  | EvSend i w => send i w p
  | EvCancel i => cancel i p
  | EvAcquire w => acquireWorkerSlot w p
  | EvFinish w o => finishCommand w o p
  | EvDone => closeDone p
  | EvExit w => exitWorker w p
  | EvReturn => returnDone p
  end.

Inductive reaches (p : Pipeline) : Pipeline -> Prop :=
| reaches_refl : reaches p p
| reaches_step p1 p2 e : reaches p p1 -> step e p1 = Some p2 -> reaches p p2.

(** ** Lists with one element changed *)

Lemma alter_split {A} (l : list A) i x : l !! i = Some x ->
  exists l1 l2, l = l1 ++ x :: l2 /\ forall f, alter f i l = l1 ++ f x :: l2.
Proof.
  revert i. induction l as [|y l IH]; intros [|i] Hi; try done.
  - injection Hi as ->. by exists [], l.
  - destruct (IH i Hi) as (l1 & l2 & -> & Ha). exists (y :: l1), l2. split; [done|]. intros f. cbn. f_equal. apply Ha.
Qed.

Definition isRunning (w : Worker) : nat := match wstate w with Running _ => 1 | _ => 0 end.
Definition ofKey (k : list ascii) (w : Worker) : nat := if decide (wkey w = k) then 1 else 0.
Definition runningOf (k : list ascii) (w : Worker) : nat := if decide (wkey w = k) then isRunning w else 0.
Definition held (w : Worker) : list nat := match wstate w with Waiting c | Running c => [c] | _ => [] end.
Definition work (w : Worker) : nat := match wstate w with Waiting _ => 3 | Running _ => 2 | Idle => 1 | Exited => 0 end.

Definition total (f : Worker -> nat) (ws : list Worker) : nat := sum_list_with f ws.

#[local] Arguments total : simpl never.

Lemma total_split f ws i w ws' st : ws !! i = Some w -> ws' = alter (fun w => mkWorker (wkey w) st) i ws ->
  (total f ws' + f w = total f ws + f (mkWorker (wkey w) st))%nat.
Proof.
  intros Hi ->. destruct (alter_split ws i w Hi) as (l1 & l2 & -> & Ha). rewrite Ha. unfold total. rewrite !sum_list_with_app. cbn. lia.
Qed.

Lemma total_replicate f n w : total f (replicate n w) = (n * f w)%nat.
Proof. unfold total. induction n as [|n IH]; [done|]. cbn. lia. Qed.

Lemma total_le f g ws : (forall w, w ∈ ws -> (f w <= g w)%nat) -> (total f ws <= total g ws)%nat.
Proof.
  induction ws as [|w ws IH]; intros Hle; [done|]. assert (f w <= g w)%nat by (apply Hle, list_elem_of_here).
  specialize (IH ltac:(intros; apply Hle; by right)). unfold total in *. cbn. lia.
Qed.

Lemma held_split ws i w st : ws !! i = Some w ->
  (alter (fun w => mkWorker (wkey w) st) i ws ≫= held) ++ held w ≡ₚ (ws ≫= held) ++ held (mkWorker (wkey w) st).
Proof.
  intros Hi. destruct (alter_split ws i w Hi) as (l1 & l2 & -> & Ha). rewrite Ha. rewrite !bind_app, !bind_cons. solve_Permutation.
Qed.

(** ** The invariant *)

Definition failures (ex : list (nat * Outcome)) : nat := length (filter (fun x => x.2 = Failed) ex).

Record inv (p : Pipeline) : Prop := {
  inv_slots : limited p = true -> slots p = Z.of_nat (total isRunning (workers p)) /\ slots p <= parallel p;
  inv_accepted : accepted p ≡ₚ (executed p).*1 ++ (workers p ≫= held);
  inv_failed : failed p = Z.of_nat (failures (executed p));
  inv_workers : forall k, total (ofKey k) (workers p) = if decide (k ∈ requests p) then workerCount p else 0%nat;
  inv_single : parallelStorage p < 1 -> Forall (fun w => wkey w = []) (workers p);
}.

(** A worker that changes its state keeps the numbers of workers per key. *)
Lemma total_key ws i w st k : ws !! i = Some w -> total (ofKey k) (alter (fun w => mkWorker (wkey w) st) i ws) = total (ofKey k) ws.
Proof. intros Hi. pose proof (total_split (ofKey k) ws i w _ st Hi eq_refl) as Ht. assert (ofKey k (mkWorker (wkey w) st) = ofKey k w) by done. lia. Qed.

Lemma single_key ws i st : Forall (fun w => wkey w = []) ws -> Forall (fun w => wkey w = []) (alter (fun w => mkWorker (wkey w) st) i ws).
Proof. intros Hf. apply Forall_alter; [done|]. intros x Hx _. cbn. by eapply (Forall_lookup_1 (fun w => wkey w = [])). Qed.

Lemma Handle_inv cmd storage p : inv p -> inv (Handle cmd storage p).
Proof.
  intros [Hs Ha Hf Hw H1]. unfold Handle, getStorage. destruct (decide (storageKey p storage ∈ requests p)) as [Hk|Hk]; [by split|].
  split; cbn; try done.
  - intros Hl. destruct (Hs Hl) as [He Hb]. unfold total in *. rewrite sum_list_with_app.
    rewrite (total_replicate isRunning _ (mkWorker _ Idle) : sum_list_with _ _ = _). cbn. lia.
  - rewrite bind_app. assert (Hn : forall n k, replicate n (mkWorker k Idle) ≫= held = []) by (intros n k; induction n; cbn; done).
    by rewrite Hn, app_nil_r.
  - intros k. unfold total in *. rewrite sum_list_with_app, Hw. rewrite (total_replicate (ofKey k) _ (mkWorker _ Idle) : sum_list_with _ _ = _).
    unfold ofKey, workerCount. cbn. destruct (decide (storageKey p storage = k)) as [<-|Hne].
    + rewrite decide_False by done. rewrite (decide_True (P := storageKey p storage ∈ _ ++ _)) by (apply elem_of_app; right; by left). lia.
    + destruct (decide (k ∈ requests p)) as [Hi|Hi].
      * rewrite (decide_True (P := k ∈ _ ++ _)) by (apply elem_of_app; by left). lia.
      * rewrite (decide_False (P := k ∈ _ ++ _)); [lia|]. rewrite elem_of_app, list_elem_of_singleton. intros [?|?]; [done|congruence].
  - intros Hp. apply Forall_app. split; [by apply H1|]. apply Forall_replicate. cbn. unfold storageKey. by rewrite decide_True.
Qed.

Lemma send_inv i w p p' : inv p -> send i w p = Some p' -> inv p'.
Proof.
  intros [Hs Ha Hf Hw H1] Hst. unfold send in Hst. destruct (pending p !! i) as [r|]; [|done].
  destruct (workers p !! w) as [[k []]|] eqn:Hi; try done. destruct (decide (rkey r = k)); [|done]. injection Hst as <-.
  split; cbn; try done; unfold setWorker.
  - intros Hl. destruct (Hs Hl) as [He Hb]. pose proof (total_split isRunning _ _ _ _ (Waiting (rcmd r)) Hi eq_refl) as Ht.
    cbn [isRunning wstate wkey] in Ht. lia.
  - pose proof (held_split _ _ _ (Waiting (rcmd r)) Hi) as Hh. cbn in Hh. rewrite app_nil_r in Hh. by rewrite Hh, Ha, app_assoc.
  - intros k'. by rewrite (total_key _ _ _ _ _ Hi).
  - intros Hp. by apply single_key, H1.
Qed.

Lemma acquire_inv w p p' : inv p -> acquireWorkerSlot w p = Some p' -> inv p'.
Proof.
  intros [Hs Ha Hf Hw H1] Hst. unfold acquireWorkerSlot in Hst. destruct (workers p !! w) as [[k [|cmd| |]]|] eqn:Hi; try done.
  pose proof (total_split isRunning _ _ _ _ (Running cmd) Hi eq_refl) as Ht. cbn [isRunning wstate wkey] in Ht.
  pose proof (held_split _ _ _ (Running cmd) Hi) as Hh. cbn in Hh. apply Permutation_app_inv_r in Hh.
  destruct (limited p) eqn:Hl; [destruct (slots p <? parallel p) eqn:Hlt; [|done]|]; injection Hst as <-;
    (split; cbn; try done; unfold setWorker;
     [|by rewrite Hh|intros k'; by rewrite (total_key _ _ _ _ _ Hi)|intros Hp; by apply single_key, H1]).
  - intros _. destruct (Hs eq_refl) as [He Hb]. apply Z.ltb_lt in Hlt. lia.
  - unfold limited in *. cbn. congruence.
Qed.

Lemma finishCommand_inv w o p p' : inv p -> finishCommand w o p = Some p' -> inv p'.
Proof.
  intros [Hs Ha Hf Hw H1] Hst. unfold finishCommand in Hst. destruct (workers p !! w) as [[k [| |cmd|]]|] eqn:Hi; try done. injection Hst as <-.
  split; cbn; unfold setWorker.
  - unfold limited in *. cbn. intros Hl. rewrite Hl. destruct (Hs Hl) as [He Hb].
    pose proof (total_split isRunning _ _ _ _ Idle Hi eq_refl) as Ht. cbn [isRunning wstate wkey] in Ht. lia.
  - pose proof (held_split _ _ _ Idle Hi) as Hh. cbn in Hh. rewrite app_nil_r in Hh. rewrite Ha, <- Hh, fmap_app. cbn. solve_Permutation.
  - unfold failures. rewrite filter_app, length_app, filter_cons, filter_nil. unfold failures in Hf. rewrite Hf.
    destruct o; cbn; repeat case_decide; try congruence; cbn; lia.
  - intros k'. by rewrite (total_key _ _ _ _ _ Hi).
  - intros Hp. by apply single_key, H1.
Qed.

Lemma exit_inv w p p' : inv p -> exitWorker w p = Some p' -> inv p'.
Proof.
  intros [Hs Ha Hf Hw H1] Hst. unfold exitWorker in Hst. destruct (workers p !! w) as [[k []]|] eqn:Hi; try done.
  destruct (done p); [|done]. injection Hst as <-. split; cbn; try done; unfold setWorker.
  - intros Hl. destruct (Hs Hl) as [He Hb]. pose proof (total_split isRunning _ _ _ _ Exited Hi eq_refl) as Ht.
    cbn [isRunning wstate wkey] in Ht. lia.
  - pose proof (held_split _ _ _ Exited Hi) as Hh. cbn in Hh. rewrite !app_nil_r in Hh. by rewrite Hh.
  - intros k'. by rewrite (total_key _ _ _ _ _ Hi).
  - intros Hp. by apply single_key, H1.
Qed.

Lemma step_invariant e p p' : inv p -> step e p = Some p' -> inv p'.
Proof.
  intros Hp Hst. destruct e; cbn in Hst.
  - injection Hst as <-. by apply Handle_inv.
  - by eapply send_inv.
  - unfold cancel in Hst. destruct (pending p !! i); [|done]. injection Hst as <-. destruct Hp. by split.
  - by eapply acquire_inv.
  - by eapply finishCommand_inv.
  - unfold closeDone in Hst. destruct (done p); [done|]. injection Hst as <-. destruct Hp. by split.
  - by eapply exit_inv.
  - unfold returnDone in Hst. case_decide; [|done]. injection Hst as <-. destruct Hp. by split.
Qed.

Lemma step_limits e p p' : step e p = Some p' -> parallel p' = parallel p /\ parallelStorage p' = parallelStorage p.
Proof.
  destruct e; cbn; unfold Handle, getStorage, send, cancel, acquireWorkerSlot, finishCommand, closeDone, exitWorker, returnDone;
    intros Hst; repeat case_match; simplify_eq/=; done.
Qed.

Lemma reaches_invariant par parStorage p : reaches (NewParallelPipeline par parStorage) p ->
  inv p /\ parallel p = par /\ parallelStorage p = parStorage.
Proof.
  intros Hr. induction Hr as [|p1 p2 e _ (Hi & H1 & H2) Hst].
  - split; [|done]. split; cbn; try done. unfold limited. cbn. rewrite andb_true_iff, !Z.ltb_lt. intros [? ?]. split; [done|lia].
  - destruct (step_limits _ _ _ Hst). split; [by eapply step_invariant|]. split; congruence.
Qed.

(** ** Limits and progress *)

Lemma running_storage p k : inv p -> 0 < parallelStorage p -> Z.of_nat (total (runningOf k) (workers p)) <= parallelStorage p.
Proof.
  intros Hi Hp. assert (Hle : (total (runningOf k) (workers p) <= total (ofKey k) (workers p))%nat).
  { apply total_le. intros w _. unfold runningOf, ofKey, isRunning. case_decide; [|done]. destruct (wstate w); lia. }
  rewrite (inv_workers _ Hi) in Hle. unfold workerCount in Hle. destruct (decide (k ∈ requests p)); [|lia].
  rewrite decide_False in Hle by lia. lia.
Qed.

Lemma running_total p : inv p -> 0 < parallel p -> Z.of_nat (total isRunning (workers p)) <= parallel p.
Proof.
  intros Hi Hp. destruct (decide (parallelStorage p < 1)) as [Hs|Hs].
  - assert (Hle : (total isRunning (workers p) <= total (ofKey []) (workers p))%nat).
    { apply total_le. intros w Hw. unfold ofKey. pose proof (inv_single _ Hi Hs) as Hf. rewrite Forall_forall in Hf.
      rewrite decide_True by (by apply Hf). unfold isRunning. destruct (wstate w); lia. }
    rewrite (inv_workers _ Hi) in Hle. unfold workerCount in Hle. destruct (decide ([] ∈ requests p)); [|lia].
    rewrite decide_True in Hle by done. lia.
  - destruct (inv_slots _ Hi) as [<- ?]; [|done]. unfold limited. apply andb_true_iff. rewrite !Z.ltb_lt. lia.
Qed.

(** What the goroutines have left to do. *)
Definition remaining (p : Pipeline) : nat :=
  total work (workers p) + 3 * length (pending p) + match result p with None => 1 | Some _ => 0 end.

(** The steps other than calls of [Handle]. *)
Definition internal (e : Event) : bool := match e with EvHandle _ _ => false | _ => true end.

Lemma removeAt_length {A} (l : list A) i x : l !! i = Some x -> S (length (removeAt i l)) = length l.
Proof. intros Hi. apply lookup_lt_Some in Hi. unfold removeAt. rewrite length_app, length_take, length_drop. lia. Qed.

Lemma internal_decreases e p p' : internal e = true -> done p = true -> step e p = Some p' -> (remaining p' < remaining p)%nat.
Proof.
  intros He Hd Hst. destruct e as [|i w|i|w|w o| |w|]; try done; cbn in Hst; unfold remaining.
  - unfold send in Hst. destruct (pending p !! i) as [r|] eqn:Hr; [|done]. destruct (workers p !! w) as [[k []]|] eqn:Hi; try done.
    destruct (decide (rkey r = k)); [|done]. injection Hst as <-. cbn -[Nat.mul]. unfold setWorker.
    pose proof (removeAt_length _ _ _ Hr). pose proof (total_split work _ _ _ _ (Waiting (rcmd r)) Hi eq_refl) as Ht. cbn [work wstate] in Ht. lia.
  - unfold cancel in Hst. destruct (pending p !! i) eqn:Hr; [|done]. injection Hst as <-. cbn -[Nat.mul]. pose proof (removeAt_length _ _ _ Hr). lia.
  - unfold acquireWorkerSlot in Hst. destruct (workers p !! w) as [[k [|cmd| |]]|] eqn:Hi; try done.
    pose proof (total_split work _ _ _ _ (Running cmd) Hi eq_refl) as Ht. cbn [work wstate wkey] in Ht.
    destruct (limited p); [destruct (slots p <? parallel p); [|done]|]; injection Hst as <-; cbn -[Nat.mul]; unfold setWorker; lia.
  - unfold finishCommand in Hst. destruct (workers p !! w) as [[k [| |cmd|]]|] eqn:Hi; try done. injection Hst as <-. cbn -[Nat.mul].
    unfold setWorker. pose proof (total_split work _ _ _ _ Idle Hi eq_refl) as Ht. cbn [work wstate] in Ht. lia.
  - unfold closeDone in Hst. by rewrite Hd in Hst.
  - unfold exitWorker in Hst. destruct (workers p !! w) as [[k []]|] eqn:Hi; try done. rewrite Hd in Hst. injection Hst as <-. cbn -[Nat.mul].
    unfold setWorker. pose proof (total_split work _ _ _ _ Exited Hi eq_refl) as Ht. cbn [work wstate] in Ht. lia.
  - unfold returnDone in Hst. case_decide as Hc; [|done]. injection Hst as <-. cbn -[Nat.mul]. destruct Hc as (_ & _ & ->). lia.
Qed.

Lemma no_running ws : (forall i k c, ws !! i ≠ Some (mkWorker k (Running c))) -> total isRunning ws = 0%nat.
Proof.
  induction ws as [|[k st] ws IH]; intros Hn; [done|]. specialize (IH (fun i => Hn (S i))). unfold total in *. cbn. rewrite IH.
  destruct st; try done. by destruct (Hn 0%nat k cmd).
Qed.

(** Is a worker in the given state? *)
Lemma worker_or_none (P : WorkerState -> Prop) `{!forall s, Decision (P s)} (ws : list Worker) :
  (exists i w, ws !! i = Some w /\ P (wstate w)) \/ (forall i w, ws !! i = Some w -> ~ P (wstate w)).
Proof.
  induction ws as [|w ws [(i & v & Hi)|IH]]; [by right|left; by exists (S i), v|].
  destruct (decide (P (wstate w))); [left; by exists 0%nat, w|]. right. intros [|i] v Hi; [by injection Hi as <-|by eapply IH].
Qed.

Definition running (s : WorkerState) : Prop := match s with Running _ => True | _ => False end.
Definition waiting (s : WorkerState) : Prop := match s with Waiting _ => True | _ => False end.

#[local] Instance running_dec s : Decision (running s).
Proof. unfold running. destruct s; apply _. Defined.
#[local] Instance waiting_dec s : Decision (waiting s).
Proof. unfold waiting. destruct s; apply _. Defined.
#[local] Instance idle_dec (s : WorkerState) : Decision (s = Idle).
Proof. destruct s; [left|right|right|right]; done. Defined.

Lemma internal_progress p : inv p -> done p = true -> result p = None -> exists e p', internal e = true /\ step e p = Some p'.
Proof.
  intros Hi Hd Hr. destruct (worker_or_none running (workers p)) as [(i & [k st] & Hw & Hs)|Hnr].
  { destruct st; try done. exists (EvFinish i Completed). eexists. split; [done|]. cbn. unfold finishCommand. by rewrite Hw. }
  destruct (worker_or_none waiting (workers p)) as [(i & [k st] & Hw & Hs)|Hnw].
  { destruct st as [|cmd| |]; try done. assert (H0 : total isRunning (workers p) = 0%nat) by (apply no_running; intros j k' c Hj; by apply (Hnr j _ Hj)).
    destruct (limited p) eqn:Hl.
    - exists (EvAcquire i). eexists. split; [done|]. cbn. unfold acquireWorkerSlot. rewrite Hw, Hl. destruct (inv_slots _ Hi Hl) as [He _].
      unfold limited in Hl. apply andb_true_iff in Hl as [Hl _]. apply Z.ltb_lt in Hl. assert (slots p <? parallel p = true) as -> by (apply Z.ltb_lt; lia).
      done.
    - exists (EvAcquire i). eexists. split; [done|]. cbn. unfold acquireWorkerSlot. by rewrite Hw, Hl. }
  destruct (worker_or_none (.= Idle) (workers p)) as [(i & [k st] & Hw & Hs)|Hni].
  { cbn in Hs. subst st. exists (EvExit i). eexists. split; [done|]. cbn. unfold exitWorker. by rewrite Hw, Hd. }
  exists EvReturn. eexists. split; [done|]. cbn. unfold returnDone. rewrite decide_True; [done|]. split; [done|]. split; [|done].
  apply Forall_lookup. intros i w Hw. specialize (Hnr i w Hw). specialize (Hnw i w Hw). specialize (Hni i w Hw). by destruct (wstate w).
Qed.

Lemma all_exited_hold_none ws : Forall (fun w => wstate w = Exited) ws -> ws ≫= held = [].
Proof. induction 1 as [|w ws Hw _ IH]; [done|]. rewrite bind_cons, IH. unfold held. by rewrite Hw. Qed.

Lemma failures_pos ex : (0 < failures ex)%nat <-> exists cmd, (cmd, Failed) ∈ ex.
Proof.
  unfold failures. split.
  - destruct (filter _ ex) as [|[c o] l] eqn:Hf; [cbn; lia|]. intros _. assert (Hin : (c, o) ∈ filter (fun x => x.2 = Failed) ex)
      by (rewrite Hf; by left). apply list_elem_of_filter in Hin as [Ho Hin]. cbn in Ho. subst o. by exists c.
  - intros [c Hc]. assert (Hin : (c, Failed) ∈ filter (fun x => x.2 = Failed) ex) by (by apply list_elem_of_filter).
    destruct (filter _ ex); [by apply not_elem_of_nil in Hin|cbn; lia].
Qed.

(** What [Done] returns. *)
Lemma Done_result p p' : inv p -> step EvReturn p = Some p' ->
  accepted p' ≡ₚ (executed p').*1 /\ exists b, result p' = Some b /\ (b = true <-> (exists cmd, (cmd, Failed) ∈ executed p') \/ err p' = true).
Proof.
  intros Hi Hst. cbn in Hst. unfold returnDone in Hst. case_decide as Hc; [|done]. destruct Hc as (_ & Hx & _). injection Hst as <-. cbn. split.
  - rewrite (inv_accepted _ Hi), (all_exited_hold_none _ Hx). by rewrite app_nil_r.
  - eexists. split; [done|]. unfold loggingDone. rewrite (inv_failed _ Hi), orb_true_iff, Z.ltb_lt, <- failures_pos. split; (intros [?|?]; [left; lia|by right]).
Qed.

(** C40. However the calls of [Handle], the workers and the call of [Done] interleave,
    no storage has more than [parallelStorage] commands running if that limit is set,
    and no more than [parallel] commands run in all if that limit is set. After [Done]
    has been called something can happen until it returns, and without further calls of
    [Handle] every step brings the end nearer, so it returns. When it does, every
    command a worker has accepted has been executed once, and the result is an error if
    and only if a command failed (one that was skipped has not) or the context of a call
    was cancelled before its command was accepted. *)
Theorem pipeline_runs_all par parStorage p : reaches (NewParallelPipeline par parStorage) p ->
  (0 < parStorage -> forall k, Z.of_nat (total (runningOf k) (workers p)) <= parStorage) /\
  (0 < par -> Z.of_nat (total isRunning (workers p)) <= par) /\
  (done p = true -> result p = None -> exists e p', internal e = true /\ step e p = Some p') /\
  (done p = true -> forall e p', internal e = true -> step e p = Some p' -> (remaining p' < remaining p)%nat) /\
  (forall p', step EvReturn p = Some p' ->
    accepted p' ≡ₚ (executed p').*1 /\ exists b, result p' = Some b /\ (b = true <-> (exists cmd, (cmd, Failed) ∈ executed p') \/ err p' = true)).
Proof.
  intros Hr. destruct (reaches_invariant _ _ _ Hr) as (Hi & <- & <-). split_and!.
  - intros Hs k. by apply running_storage.
  - by apply running_total.
  - by apply internal_progress.
  - intros Hd e p' He Hst. by eapply internal_decreases.
  - intros p'. by apply Done_result.
Qed.

(** ** A run *)

Module PipelineSample.

Definition run (es : list Event) (p : Pipeline) : option Pipeline := foldl (fun o e => o ≫= step e) (Some p) es.

Lemma run_none es : foldl (fun o e => o ≫= step e) None es = None.
Proof. induction es; done. Qed.

Lemma run_reaches es p0 p p' : reaches p0 p -> run es p = Some p' -> reaches p0 p'.
Proof.
  unfold run. revert p. induction es as [|e es IH]; cbn; intros p Hr He; [by injection He as <-|].
  destruct (step e p) as [p1|] eqn:Hst; [|by rewrite run_none in He]. apply (IH p1); [by eapply reaches_step|done].
Qed.

(** Two commands for one storage with one worker each: the second waits, the first
    fails, the second is skipped, and the call reports the failure. *)
Definition storage : list ascii := ["a"%char].

Definition events : list Event :=
  [EvHandle 1 storage; EvHandle 2 storage; EvSend 0 0; EvAcquire 0; EvFinish 0 Failed; EvSend 0 0; EvDone; EvAcquire 0; EvFinish 0 Skipped; EvExit 0].

Definition before : Pipeline := default (NewParallelPipeline 2 1) (run events (NewParallelPipeline 2 1)).

(** Without limits there are no workers: a call waits until its context is done, and
    [Done] reports nothing about a call that still waits. *)
Example no_workers_drop : exists p, run [EvHandle 1 storage; EvDone; EvReturn] (NewParallelPipeline 0 0) = Some p /\
  length (pending p) = 1%nat /\ executed p = [] /\ result p = Some false.
Proof. eexists. split; [vm_compute; reflexivity|]. done. Qed.

End PipelineSample.

Lemma pipeline_runs_all_witness : exists p', step EvReturn PipelineSample.before = Some p' /\
  accepted p' ≡ₚ (executed p').*1 /\ result p' = Some true.
Proof.
  assert (Hr : reaches (NewParallelPipeline 2 1) PipelineSample.before)
    by (apply (PipelineSample.run_reaches PipelineSample.events _ (NewParallelPipeline 2 1)); [apply reaches_refl|vm_compute; reflexivity]).
  destruct (step EvReturn PipelineSample.before) as [p'|] eqn:He; [|vm_compute in He; discriminate].
  exists p'. split; [reflexivity|]. destruct (pipeline_runs_all 2 1 _ Hr) as (_ & _ & _ & _ & Hd). destruct (Hd p' He) as [Ha _].
  split; [exact Ha|]. vm_compute in He. injection He as <-. reflexivity.
Defined.
